(* ===== verification/_CoqProject ===== *)
-Q . S2P
Prelude.v
Text.v
Bytes.v
Crypto.v
HttpLib.v
Transport.v
NetTransport.v
RateWindow.v
RawBody.v
Secrets.v
Identifiers.v
CAbi.v
Base64.v
Json.v
JsonDoc.v
Capability.v
Policy.v
Auth.v
AuthManager.v
Sqlite.v
SqlAuth.v
AuthProps.v
SqlGrants.v
Dispatch.v
Atomics.v
DispatchFlat.v
DispatchTask.v
SqlAudit.v
AdminAbi.v
DeliveryStore.v
SqlDelivery.v
DeliveryAbi.v
Dedup.v
SqlDedup.v
DedupAbi.v
WebhookVerify.v
Service.v
CapabilityAbi.v
WebhookIngress.v
IngressProps.v
HttpServer.v
RestProto.v
McpProto.v
McpServer.v
McpClient.v
McpExchange.v
LocalServer.v
EgressLimits.v
Lifecycle.v
MemoryLog.v
Payload.v
Kind.v
WebhookKind.v
McpKind.v
McpDelivery.v
Route.v
RuntimeLimits.v
Engine.v
EngineAccounts.v
EngineInv.v
EngineCalls.v
EngineRun.v
EngineRoutes.v
EngineProps.v
