(* ===== verification/Prelude.v ===== *)
(** * Bondry: a verification development of the automation foundation

    Bondry lets a host application expose capabilities to adapters, receive webhooks, and
    send events and calls to outside receivers.  This library models the parts of it that
    decide something, as executable definitions translated from the Rust sources under
    src/, and proves what they guarantee.

    ** The program and the files

    Foundations.  [Prelude], [Text] and [Bytes] model what the sources use of the language
    and its standard library: results, machine integers, durations, strings, ordered maps,
    UTF-8.  Third-party crates are parameters with their documented behaviour as a class:
    [Crypto] (sha2, hmac), [HttpLib] (http), [Base64] (base64), [Json] and [JsonDoc]
    (serde_json).  [CAbi] holds what the C interfaces share.

    Invocation (crates/contract/bondry-core).  An adapter dispatches an invocation: the
    registry resolves the capability, the policy authorizes it, the input schema accepts
    the input, the audit sink records the start, the handler runs and the completion is
    recorded.
    - [Identifiers]: the validated newtypes (identifier.rs of bondry-core and of
      bondry-delivery-store);
    - [Capability]: descriptors, summaries, input schemas, identities and invocations
      (capability.rs, identity.rs, invocation.rs);
    - [Policy]: the authorization policies and the grant store contract (policy.rs);
    - [Dispatch]: audit, registry and dispatcher (audit.rs, registry.rs, dispatch.rs);
    - [Service]: the trait [AutomationService] that the adapters are verified against
      (dispatch.rs, invocation_id.rs).

    Authentication (crates/contract/bondry-auth).  [Auth] has clients, tokens and the store
    contract [AuthStoreSpec]; [AuthManager] registration, issuance, rotation and
    authentication (manager.rs); [AuthProps] their guarantees over any such store.

    Encrypted store (crates/store/bondry-store-sqlcipher).  [Sqlite] is the tables, their
    constraints, triggers and transactions (database.rs, usage.rs).  Over them [SqlAuth],
    [SqlGrants], [SqlAudit], [SqlDelivery] and [SqlDedup] are auth.rs, grants.rs, audit.rs,
    delivery.rs and dedup.rs, each an instance of the contract its clients use.
    [DeliveryStore] and [Dedup] are the contracts of bondry-delivery-store.

    HTTP server (crates/engine/bondry-http-server, crates/proto).
    - [RateWindow]: sliding windows (rate_limit.rs);
    - [RawBody]: raw-body handlers and their generations (raw_body.rs);
    - [HttpServer]: authenticators, configuration and the handling of a request
      (authentication.rs, configuration.rs, protocol.rs, server.rs);
    - [RestProto]: the REST adapter (bondry-rest-proto);
    - [McpProto], [McpServer], [McpClient]: messages, the adapter and the client of the
      Model Context Protocol (bondry-mcp-proto); [McpExchange] has the client and the
      server talk to each other.

    Webhook ingress.  [Secrets] is secret material and signatures (bondry-secrets),
    [WebhookVerify] the verifiers (bondry-webhook-verify), [WebhookIngress] routes, limits,
    claims and dispatch (bondry-webhook-ingress); [IngressProps] follows deliveries through
    requests, crashes and administration in any order.

    Egress (crates/egress, crates/engine/bondry-egress-runtime).  The host registers routes
    and emits events or makes calls on them.  Admission validates the payload and spends
    rate tokens; an admitted delivery is written to the delivery log before anything is
    sent; the scheduler starts attempts fairly within its limits, retries with back-off, and
    records exactly one outcome.
    - [MemoryLog]: the bounded in-memory log, an instance of [DeliveryLogSpec]
      (memory_log.rs);
    - [EgressLimits], [RuntimeLimits]: the validated limits (limits.rs of both crates,
      time.rs);
    - [Lifecycle]: the state machine of one delivery (delivery.rs);
    - [Payload]: payload contracts and the bounded JSON visitor (payload.rs);
    - [Kind]: delivery kinds, operations and one attempt (kind.rs, attempt.rs);
    - [WebhookKind]: outbound webhooks (bondry-egress-webhook);
    - [McpKind]: outbound tool calls and discovery (bondry-egress-mcp); [McpDelivery] has
      their guarantees, against any peer and against [McpServer];
    - [Route]: routes, token buckets and admission (route.rs);
    - [Engine]: the scheduler, every method of [Engine] and the [select!] loop
      (runtime.rs); [EngineAccounts], [EngineInv], [EngineCalls], [EngineRun] and
      [EngineRoutes] carry its invariant through every step; [EngineProps] states what
      follows for every state the loop can reach.

    Transports.  [Transport] is endpoints, addresses and the connection policy
    (bondry-transport); [NetTransport] the pooled HTTP transport and the local sockets
    (bondry-transport-net).

    Foreign function interfaces (crates/ffi).  The parts are linked as libraries with a C
    interface between them; each file has both ends and shows that they agree.
    - [AdminAbi]: clients, tokens, grants and audit events (auth.rs, grants.rs, audit.rs,
      records.rs of bondry-runtime-ffi);
    - [CapabilityAbi]: capabilities, dispatch and the exported service (capabilities.rs,
      automation_service.rs; service.rs of bondry-webhook-ingress-ffi);
    - [DispatchTask]: how the threads of a host drive one dispatch (capabilities.rs), over
      [Atomics], the release and acquire orderings of its atomics; [DispatchFlat] is the same
      in a sequentially consistent memory;
    - [DeliveryAbi], [DedupAbi]: the delivery log and the replay protection
      (delivery_log.rs, dedup_store.rs; store.rs of bondry-egress-ffi and of
      bondry-webhook-ingress-ffi);
    - [LocalServer]: the token check of bondry-local-server-ffi, and the server composed with
      the stores.

    ** How code corresponds to definitions

    A struct is a [Record], an enum an [Inductive] with the source's variants, a method a
    [Definition] named [Type_method] or as in the source.  [&mut self] is state passing;
    [Result] is [result]; a [BTreeMap] is a [gmap] with the ordered iteration of [Text].
    Integers are [Z]; what saturates or wraps in the source does so here.  Durations and
    instants are nanoseconds.  A poisoned lock is a flag of the model.  Where threads share
    state, an operation is cut at its locks or atomic accesses and the steps interleave; the
    accesses of [DispatchTask], which no lock orders, are those of a release/acquire memory.
    A pointer of a C interface is an option of what it points to.

    A trait object is a class or a record of its methods, and its documented contract a
    second class; clients are verified against the contract, implementations are shown to
    meet it.  Code outside src/ is a parameter: codecs, hash functions, JSON Schema, sockets,
    TLS, the HTTP client, random sources and clocks.  What is assumed of it is a class such
    as [HmacSha256Spec], [UriTextSpec], [HeaderCrateSpec], [JsonCodecSpec], [HyperSpec] or
    [EngineEnvOk], with an instance that shows that it can be had.

    ** What the theorems show

    - Dispatch: every dispatch is one of a closed list of stories, each with its audit
      records; nothing runs without authorization, accepted input and an audit record;
      discovery agrees with dispatch; a policy is the set of grants that its answered
      updates describe.
    - Authentication: a token is accepted exactly if the answers of the manager say that it
      is valid; revocation is permanent, rotation atomic under any failing statement.
    - Stores: rows stay well typed and read back, counters are exact, audit queries return
      what was recorded, traversals end.
    - Server: a protocol sees a request only behind origin, authentication, rate and body
      limits, and without credentials; raw-body generations detach once and when idle; the
      windows agree with a limiter that remembers everything; REST and MCP answer by what
      became of an invocation.
    - Ingress: verifiers accept exactly the authentic requests; a handler runs at most once
      for a delivery, unless its claim was taken away by the administrator or, where claims
      may expire, by the store; what a sender is told is true, each answer having its cause.
    - Lifecycle and admission: one terminal outcome, consecutive and bounded attempts;
      contracts admit exactly the documents they describe; rate budgets hold over any
      history.
    - Delivery kinds: an attempt resolves its secrets first and sends at most one request,
      which the receiver or server of this code base accepts and answers as the kind expects;
      a secret in a URL takes the place of one path segment or query value.
    - Transports: a connection is verified exactly if the policy permits its evidence, and
      every response came over such a connection.
    - Scheduler, for every reachable state, any host commands, any task results, any clock
      readings and any failures of the log: exact counters within the limits; no delivery
      lost; a truthful status; every command answered exactly once; the in-flight limit of a
      route; drains and shutdown that end.
    - Interfaces: across the C interfaces the stores, the service and the administration are
      the ones on the other side, for documents without floating point numbers, names without
      a zero and sizes within the interface's; an accepted dispatch is completed at most once
      with the orderings of the source, and exactly once in a sequentially consistent memory.

    ** Bounds and fuel

    Loops over lists are structural.  The [while] loop of [dispatch_ready] runs on fuel
    one above the number of queued entries; [dispatch_loop_inv] shows that it then ends
    because no work can start, not because fuel ran out.  [execute_attempt] runs on the
    number of requests an operation may ask for; [attempt_guarantees] shows that an
    operation bounded by [n] completes with fuel [n + 1], and the kinds of this code base
    are bounded by one.  [visit_loop] of [SqlDedup] runs on fuel one above the number of
    rows, which [visit_unknown_terminates] shows to be enough.  [count_loop] of [WebhookIngress]
    and [count_str] of [WebhookKind] consume their input and run on its length,
    [decimal_digits] of [Bytes] on the binary logarithm of the number.  The retries of
    generated identifiers have the source's own bounds.

    ** What is not modelled

    Sockets, TLS, the accept loop and time-outs of the server, and the channels between the
    runtime's handle and its thread (their messages are the inputs of the loop).  Opening an
    encrypted database and migrating older schemas.  Memory itself: that pointers of a C
    interface are valid and that records have the layout of the header.  The rest of the
    foreign function interfaces, which convert configurations into the constructors modelled
    here.  The credential file store and the development tooling, which do I/O only. *)

From stdpp Require Export base tactics numbers list gmap fin_maps strings sorting.
#[export] Set Default Goal Selector "!".

(** ** Results

    Rust's [Result<A, E>], with the error type first so that [result E] is a
    monad; [x ← m; k] is the source's [?] operator. *)

Inductive result (E A : Type) : Type :=
| Ok (a : A)
| Err (e : E).
Arguments Ok {E A} a.
Arguments Err {E A} e.

#[global] Instance result_ret {E} : MRet (result E) := fun A a => Ok a.
#[global] Instance result_bind {E} : MBind (result E) := fun A B f m =>
  match m with Ok a => f a | Err e => Err e end.
#[global] Instance result_fmap {E} : FMap (result E) := fun A B f m =>
  match m with Ok a => Ok (f a) | Err e => Err e end.
#[global] Instance result_eq_dec `{EqDecision E, EqDecision A} : EqDecision (result E A).
Proof. solve_decision. Defined.

Definition map_err {E F A} (f : E -> F) (m : result E A) : result F A :=
  match m with Ok a => Ok a | Err e => Err (f e) end.

Definition is_ok {E A} (m : result E A) : bool :=
  match m with Ok _ => true | Err _ => false end.

(** [Result::ok]. *)
Definition to_option {E A} (m : result E A) : option A :=
  match m with Ok a => Some a | Err _ => None end.

(** [Option::ok_or]. *)
Definition ok_or {E A} (o : option A) (e : E) : result E A :=
  match o with Some a => Ok a | None => Err e end.

(** [Option::map(f).transpose()]: run a fallible conversion under an option. *)
Definition transpose {E A B} (f : A -> result E B) (o : option A) : result E (option B) :=
  match o with None => Ok None | Some a => Some <$> f a end.

(** [Iterator::map(f).collect::<Result<Vec<_>, _>>()]: the first error wins. *)
Fixpoint collect {E A B} (f : A -> result E B) (l : list A) : result E (list B) :=
  match l with
  | [] => Ok []
  | a :: l => b ← f a; bs ← collect f l; Ok (b :: bs)
  end.

Lemma result_bind_Ok {E A B} (m : result E A) (f : A -> result E B) b :
  (m ≫= f) = Ok b <-> exists a, m = Ok a /\ f a = Ok b.
Proof. destruct m; naive_solver. Qed.

Lemma map_err_Ok {E F A} (f : E -> F) (m : result E A) a : map_err f m = Ok a -> m = Ok a.
Proof. destruct m; [by intros [= ->]|done]. Qed.

(** The errors a computation can end in. *)
Definition fails_with {E A} (P : E -> Prop) (m : result E A) : Prop := match m with Ok _ => True | Err e => P e end.

Lemma fails_bind {E A B} (P : E -> Prop) (m : result E A) (f : A -> result E B) :
  fails_with P m -> (forall a, fails_with P (f a)) -> fails_with P (m ≫= f).
Proof. destruct m; simpl; auto. Qed.
Lemma fails_ok_or {E A} (P : E -> Prop) (o : option A) e : P e -> fails_with P (ok_or o e).
Proof. by destruct o. Qed.
Lemma fails_map_err {E F A} (P : F -> Prop) (f : E -> F) (m : result E A) : (forall e, P (f e)) -> fails_with P (map_err f m).
Proof. destruct m; simpl; auto. Qed.

Lemma collect_Ok {E A B} (f : A -> result E B) l bs :
  collect f l = Ok bs <-> Forall2 (fun a b => f a = Ok b) l bs.
Proof.
  revert bs. induction l as [|a l IH]; intros bs; simpl.
  - split; [intros [= <-]; constructor|]. by inversion 1.
  - rewrite result_bind_Ok. setoid_rewrite result_bind_Ok. setoid_rewrite IH. split.
    + intros (b & Hb & bs' & H & [= <-]). by constructor.
    + inversion 1; subst. eauto.
Qed.

(** ** Machine integers

    Unsigned integers and byte counts are [Z]; the operations of the source that
    clip or wrap at a width do so here.  [usize] is 64 bits wide. *)

Open Scope Z_scope.

Definition U8_MAX : Z := 2 ^ 8 - 1.
Definition U16_MAX : Z := 2 ^ 16 - 1.
Definition U32_MAX : Z := 2 ^ 32 - 1.
Definition U64_MAX : Z := 2 ^ 64 - 1.
Definition U128_MAX : Z := 2 ^ 128 - 1.
Definition I64_MAX : Z := 2 ^ 63 - 1.
Definition I64_MIN : Z := - 2 ^ 63.
Definition USIZE_MAX : Z := U64_MAX.

(** [a.saturating_add(b)], [a.saturating_mul(b)] at the width whose maximum is
    [max], and the unsigned [a.saturating_sub(b)]. *)
Definition sat_add (max a b : Z) : Z := Z.min max (a + b).
Definition sat_mul (max a b : Z) : Z := Z.min max (a * b).
Definition sat_sub (a b : Z) : Z := Z.max 0 (a - b).

(** [a += b] in the release profile, which wraps ([overflow-checks] is off). *)
Definition wrap_add (max a b : Z) : Z := (a + b) mod (max + 1).

(** [i64::checked_add], [i64::saturating_add] and [i64::saturating_sub]. *)
Definition in_i64 (z : Z) : bool := (I64_MIN <=? z) && (z <=? I64_MAX).
Definition i64_checked_add (a b : Z) : option Z :=
  if in_i64 (a + b) then Some (a + b) else None.
Definition i64_clamp (z : Z) : Z := Z.max I64_MIN (Z.min I64_MAX z).

(** [T::try_from(z)] for an unsigned target of maximum [max] and for [i64]. *)
Definition try_unsigned (max z : Z) : option Z :=
  if (0 <=? z) && (z <=? max) then Some z else None.
Definition try_i64 (z : Z) : option Z := if in_i64 z then Some z else None.

(** [(lo..=hi).contains(&x)]. *)
Definition in_range (lo hi x : Z) : bool := (lo <=? x) && (x <=? hi).

Lemma in_range_spec lo hi x : in_range lo hi x = true <-> lo <= x <= hi.
Proof. unfold in_range. rewrite andb_true_iff, !Z.leb_le. lia. Qed.

Lemma in_i64_spec z : in_i64 z = true <-> I64_MIN <= z <= I64_MAX.
Proof. unfold in_i64. rewrite andb_true_iff, !Z.leb_le. lia. Qed.

Lemma try_i64_Some z x : try_i64 z = Some x -> x = z /\ I64_MIN <= z <= I64_MAX.
Proof. unfold try_i64. destruct (in_i64 z) eqn:Hz; [|done]. intros [= <-]. by apply in_i64_spec in Hz. Qed.

Lemma wrap_add_small max a b :
  0 <= a -> 0 <= b -> a + b <= max -> wrap_add max a b = a + b.
Proof. intros. unfold wrap_add. apply Z.mod_small. lia. Qed.

(** ** Durations

    [std::time::Duration] in whole nanoseconds, at most [DURATION_MAX]. *)

Definition NANOS_PER_SEC : Z := 1000000000.
Definition DURATION_MAX : Z := 2 ^ 64 * NANOS_PER_SEC - 1.
Definition from_secs (s : Z) : Z := s * NANOS_PER_SEC.
Definition from_millis (ms : Z) : Z := ms * 1000000.
Definition as_secs (d : Z) : Z := d / NANOS_PER_SEC.
Definition as_millis (d : Z) : Z := d / 1000000.

(** ** Actions

    A fallible operation on shared state: what the source writes as a method of [&self]
    that returns a [Result].  [x ← m; k] stops at the first error and keeps the state
    reached by then. *)
Definition action (S E A : Type) : Type := S -> result E A * S.

#[global] Instance action_ret {S E} : MRet (action S E) := fun A a s => (Ok a, s).
#[global] Instance action_bind {S E} : MBind (action S E) := fun A B f m s =>
  match m s with (Ok a, s) => f a s | (Err e, s) => (Err e, s) end.

(** [return Err(e)], a result that needs no state, [map_err], and an operation whose error
    the code matches on. *)
Definition raise {S E A} (e : E) : action S E A := fun s => (Err e, s).
Definition lift {S E A} (r : result E A) : action S E A := fun s => (r, s).
Definition with_err {S E F A} (f : E -> F) (m : action S E A) : action S F A := fun s =>
  let '(r, s) := m s in (map_err f r, s).
Definition attempt {S E F A} (m : action S E A) : action S F (result E A) := fun s =>
  let '(r, s) := m s in (Ok r, s).

Lemma bind_run {S E A B} (m : action S E A) (k : A -> action S E B) s :
  (m ≫= k) s = match m s with (Ok a, s) => k a s | (Err e, s) => (Err e, s) end.
Proof. done. Qed.

(** ** Lists *)

Lemma Forall_sublist {A} (P : A -> Prop) l k : sublist l k -> Forall P k -> Forall P l.
Proof.
  intros Hs. rewrite !Forall_forall. intros H x Hx. apply H.
  eapply elem_of_submseteq; [exact Hx|by apply sublist_submseteq].
Qed.

Lemma StronglySorted_sublist {A} (R : relation A) l k :
  sublist l k -> StronglySorted R k -> StronglySorted R l.
Proof.
  induction 1 as [|x l k Hs IH|x l k Hs IH]; intros Hk; [done| |];
    apply StronglySorted_inv in Hk as [Hk Hx].
  - constructor; [by apply IH|]. by eapply Forall_sublist.
  - by apply IH.
Qed.

(** ** Maps *)

Lemma alter_absent `{Countable K} {A} (f : A -> A) k (m : gmap K A) : m !! k = None -> alter f k m = m.
Proof.
  intros Hk. apply map_eq. intros j. destruct (decide (j = k)) as [-> |Hne].
  - by rewrite lookup_alter_eq, Hk.
  - by rewrite lookup_alter_ne.
Qed.

(** [simpl] exposes the instance behind [omap]; fold it back. *)
Ltac fold_omap :=
  repeat match goal with
  | |- context [list_omap ?A ?B ?f ?l] => change (list_omap A B f l) with (omap f l)
  | H : context [list_omap ?A ?B ?f ?l] |- _ => change (list_omap A B f l) with (omap f l) in H
  end.

(** ** Automation

    [frames] holds the reflexivity and inclusion lemmas of the relations that say what
    an operation leaves alone; each component adds its own.  [lookups] computes map
    operations at the key they touch. *)
Create HintDb frames.
Create Rewrite HintDb lookups.
#[export] Hint Rewrite @lookup_insert_eq @lookup_delete_eq @lookup_empty using apply _ : lookups.

(** Case analysis on whether two keys are the same, with the lookups at an equal key
    computed in the goal. *)
Ltac case_key i k H := destruct (decide (i = k)) as [-> |H]; autorewrite with lookups.

(** Boolean comparisons in the context as propositions. *)
Ltac bools := repeat match goal with
  | H : in_range _ _ _ = true |- _ => apply in_range_spec in H
  | H : in_range _ _ _ = false |- _ => unfold in_range in H
  | H : (_ <? _) = true |- _ => apply Z.ltb_lt in H
  | H : (_ <? _) = false |- _ => apply Z.ltb_ge in H
  | H : (_ <=? _) = true |- _ => apply Z.leb_le in H
  | H : (_ <=? _) = false |- _ => apply Z.leb_gt in H
  | H : (_ =? _) = true |- _ => apply Z.eqb_eq in H
  | H : (_ =? _) = false |- _ => apply Z.eqb_neq in H
  | H : _ && _ = true |- _ => apply andb_true_iff in H as [? ?]
  | H : _ && _ = false |- _ => apply andb_false_iff in H as [?|?]
  | H : _ || _ = true |- _ => apply orb_true_iff in H as [?|?]
  | H : _ || _ = false |- _ => apply orb_false_iff in H as [? ?]
  | H : negb _ = true |- _ => apply negb_true_iff in H
  | H : negb _ = false |- _ => apply negb_false_iff in H
  | H : bool_decide _ = true |- _ => apply bool_decide_eq_true in H
  | H : bool_decide _ = false |- _ => apply bool_decide_eq_false in H
  end.
