(* ===== verification/Text.v ===== *)
(** * Text: Rust strings, their UTF-8 bytes, and the order of [BTreeMap] keys

    A Rust [str] is a list of Unicode scalar values ([char]s); [len] is the length
    of its UTF-8 encoding, as in Rust, not the number of characters. *)

From S2P Require Import Prelude.

Abbreviation char := Z (only parsing).
Abbreviation byte := Z (only parsing).
Abbreviation rstr := (list Z) (only parsing).

(** A string literal of the source. *)
Definition str (s : string) : rstr :=
  map (fun a => Z.of_N (Ascii.N_of_ascii a)) (String.list_ascii_of_string s).

(** [char::len_utf8] and [char::encode_utf8]. *)
Definition len_utf8 (c : char) : Z :=
  if c <? 0x80 then 1 else if c <? 0x800 then 2 else if c <? 0x10000 then 3 else 4.

Definition encode_utf8 (c : char) : list byte :=
  if c <? 0x80 then [c]
  else if c <? 0x800 then [0xC0 + Z.shiftr c 6; 0x80 + Z.land c 0x3F]
  else if c <? 0x10000 then
    [0xE0 + Z.shiftr c 12; 0x80 + Z.land (Z.shiftr c 6) 0x3F; 0x80 + Z.land c 0x3F]
  else
    [0xF0 + Z.shiftr c 18; 0x80 + Z.land (Z.shiftr c 12) 0x3F;
     0x80 + Z.land (Z.shiftr c 6) 0x3F; 0x80 + Z.land c 0x3F].

(** [str::as_bytes] and [str::len]. *)
Definition as_bytes (s : rstr) : list byte := flat_map encode_utf8 s.
Fixpoint str_len (s : rstr) : Z :=
  match s with [] => 0 | c :: s => len_utf8 c + str_len s end.

(** [char::is_ascii_alphanumeric], [char::is_control], [char::is_whitespace]. *)
Definition is_ascii_digit (c : char) : bool := in_range 48 57 c.
Definition is_ascii_alphabetic (c : char) : bool := in_range 65 90 c || in_range 97 122 c.
Definition is_ascii_alphanumeric (c : char) : bool := is_ascii_digit c || is_ascii_alphabetic c.
Definition is_control (c : char) : bool := in_range 0 0x1F c || in_range 0x7F 0x9F c.
Definition is_whitespace (c : char) : bool :=
  in_range 0x9 0xD c || (c =? 0x20) || (c =? 0x85) || (c =? 0xA0) || (c =? 0x1680)
  || in_range 0x2000 0x200A c || (c =? 0x2028) || (c =? 0x2029) || (c =? 0x202F)
  || (c =? 0x205F) || (c =? 0x3000).

(** [str::trim]. *)
Fixpoint trim_start (s : rstr) : rstr :=
  match s with [] => [] | c :: t => if is_whitespace c then trim_start t else s end.
Definition trim_end (s : rstr) : rstr := reverse (trim_start (reverse s)).
Definition trim (s : rstr) : rstr := trim_end (trim_start s).

(** [str::char_indices().find(p)]: the byte offset and value of the first match. *)
Fixpoint find_char (p : char -> bool) (offset : Z) (s : rstr) : option (Z * char) :=
  match s with
  | [] => None
  | c :: t => if p c then Some (offset, c) else find_char p (offset + len_utf8 c) t
  end.

(** [str::split(separator)]: always at least one part. *)
Fixpoint split (sep : char) (s : rstr) : list rstr :=
  match s with
  | [] => [[]]
  | c :: t =>
      if c =? sep then [] :: split sep t
      else match split sep t with
           | [] => [[c]]
           | p :: ps => (c :: p) :: ps
           end
  end.

(** [str::strip_prefix]. *)
Fixpoint strip_prefix (p s : rstr) : option rstr :=
  match p, s with
  | [], _ => Some s
  | c :: p, d :: s => if c =? d then strip_prefix p s else None
  | _ :: _, [] => None
  end.

(** *** Facts about lengths and bytes *)

Lemma length_encode_utf8 c : Z.of_nat (length (encode_utf8 c)) = len_utf8 c.
Proof. unfold encode_utf8, len_utf8. repeat case_match; reflexivity. Qed.

Lemma length_as_bytes s : Z.of_nat (length (as_bytes s)) = str_len s.
Proof.
  induction s as [|c s IH]; [done|]. cbn [as_bytes flat_map str_len].
  rewrite length_app, Nat2Z.inj_add, length_encode_utf8. unfold as_bytes in IH. lia.
Qed.

Lemma len_utf8_pos c : 1 <= len_utf8 c <= 4.
Proof. unfold len_utf8. repeat case_match; lia. Qed.

Lemma str_len_nonneg s : 0 <= str_len s.
Proof. induction s as [|c s IH]; simpl; [lia|]. pose proof (len_utf8_pos c). lia. Qed.

Lemma str_len_app s t : str_len (s ++ t) = str_len s + str_len t.
Proof. induction s as [|c s IH]; simpl; [done|]. lia. Qed.

(** An ASCII-only string is as long in bytes as in characters. *)
Lemma str_len_ascii s : Forall (fun c => c < 0x80) s -> str_len s = Z.of_nat (length s).
Proof.
  induction 1 as [|c s Hc _ IH]; [done|]. cbn [str_len length]. unfold len_utf8.
  destruct (Z.ltb_spec c 0x80); lia.
Qed.

Lemma find_char_None p off s : find_char p off s = None <-> Forall (fun c => p c = false) s.
Proof.
  revert off. induction s as [|c s IH]; intros off; simpl.
  - split; [constructor|done].
  - rewrite Forall_cons. destruct (p c); [naive_solver|]. rewrite IH. naive_solver.
Qed.

Lemma find_char_Some p off s i c :
  find_char p off s = Some (i, c) <->
  exists pre post, s = pre ++ c :: post /\ Forall (fun c => p c = false) pre /\
    p c = true /\ i = off + str_len pre.
Proof.
  revert off. induction s as [|d s IH]; intros off; simpl.
  - split; [done|]. intros ([] & ? & ? & _); simplify_list_eq.
  - destruct (p d) eqn:Hd.
    + split.
      * intros [= <- <-]. exists [], s. simpl. rewrite Forall_nil. auto with lia.
      * intros ([|e pre] & post & Heq & Hpre & Hc & ->); simplify_list_eq.
        { rewrite Z.add_0_r. done. }
        apply Forall_cons in Hpre as [? _]. congruence.
    + rewrite IH. split.
      * intros (pre & post & -> & ? & ? & ->). exists (d :: pre), post.
        rewrite Forall_cons. simpl. naive_solver lia.
      * intros ([|e pre] & post & Heq & Hpre & Hc & ->); simplify_list_eq; [congruence|].
        apply Forall_cons in Hpre as [_ ?]. exists pre, post. simpl. naive_solver lia.
Qed.

(** *** Splitting and stripping *)

Lemma split_not_nil sep s : split sep s <> [].
Proof. destruct s as [|c s]; simpl; [done|]. repeat case_match; done. Qed.

(** Joining with a separator that does not occur in a part, then splitting, gives
    the part back. *)
Lemma split_app_sep sep p s :
  Forall (fun c => c <> sep) p -> split sep (p ++ sep :: s) = p :: split sep s.
Proof.
  induction 1 as [|c p Hc _ IH]; simpl.
  - by rewrite Z.eqb_refl.
  - apply Z.eqb_neq in Hc. by rewrite Hc, IH.
Qed.

Lemma split_no_sep sep p : Forall (fun c => c <> sep) p -> split sep p = [p].
Proof.
  induction 1 as [|c p Hc _ IH]; simpl; [done|].
  apply Z.eqb_neq in Hc. by rewrite Hc, IH.
Qed.

Lemma split_cons_inv sep s p ps :
  split sep s = p :: ps -> (sep ∉ p) /\ (ps = [] /\ s = p \/ exists t, s = p ++ sep :: t /\ split sep t = ps).
Proof.
  revert p ps. induction s as [|c s IH]; intros p ps; cbn [split].
  { intros [= <- <-]. split; [apply not_elem_of_nil|by left]. }
  destruct (Z.eqb_spec c sep) as [->|Hne].
  { intros [= <- <-]. split; [apply not_elem_of_nil|]. right. by exists s. }
  destruct (split sep s) as [|q qs] eqn:Hs; [by destruct (split_not_nil sep s)|]. intros [= <- <-].
  destruct (IH q qs eq_refl) as [Hq Hcase]. split; [by apply not_elem_of_cons|].
  destruct Hcase as [[-> ->]|(t & -> & Ht)]; [by left|right]. by exists t.
Qed.

(** A piece of a text may be exchanged for any that has no separator. *)
Lemma split_piece sep s l1 p l2 :
  split sep s = l1 ++ p :: l2 ->
  exists x y, s = x ++ p ++ y /\ (sep ∉ p) /\ forall q, sep ∉ q -> split sep (x ++ q ++ y) = l1 ++ q :: l2.
Proof.
  revert s. induction l1 as [|p1 l1 IH]; intros s; cbn [app]; intros [Hp Hcase]%split_cons_inv.
  - assert (forall q, sep ∉ q -> Forall (fun c => c <> sep) q) as Hno by (intros q Hq; apply Forall_forall; intros c Hc ->; done).
    exists []. destruct Hcase as [[-> ->]|(t & -> & Ht)].
    + exists []. rewrite app_nil_r. split_and!; [done..|]. intros q Hq. rewrite app_nil_r. cbn [app]. by apply split_no_sep, Hno.
    + exists (sep :: t). split_and!; [done..|]. intros q Hq. cbn [app]. rewrite split_app_sep by by apply Hno. by rewrite Ht.
  - destruct Hcase as [[Hl _]|(t & -> & Ht)]; [by destruct l1|]. destruct (IH t Ht) as (x & y & -> & Hsep & Hq).
    exists (p1 ++ sep :: x), y. rewrite <-app_assoc. split_and!; [done..|]. intros q Hq'. rewrite <-app_assoc. cbn [app].
    rewrite split_app_sep; [by rewrite Hq|]. apply Forall_forall. by intros c Hc ->.
Qed.

Lemma strip_prefix_app p s : strip_prefix p (p ++ s) = Some s.
Proof. induction p as [|c p IH]; simpl; [done|]. by rewrite Z.eqb_refl. Qed.

Lemma strip_prefix_Some p s t : strip_prefix p s = Some t <-> s = p ++ t.
Proof.
  split; [|intros ->; apply strip_prefix_app].
  revert s. induction p as [|c p IH]; intros [|d s]; simpl; try congruence.
  destruct (Z.eqb_spec c d); [|done]. intros ?%IH. congruence.
Qed.

(** *** Trimming *)

Lemma trim_start_idemp s : trim_start (trim_start s) = trim_start s.
Proof. induction s as [|c s IH]; simpl; [done|]. destruct (is_whitespace c) eqn:E; simpl; by rewrite ?E. Qed.

Lemma trim_start_suffix s : exists w, s = w ++ trim_start s /\ Forall (fun c => is_whitespace c = true) w.
Proof.
  induction s as [|c s (w & Hw & HF)]; simpl; [by exists []|].
  destruct (is_whitespace c) eqn:E.
  - exists (c :: w). simpl. split; [congruence|by constructor].
  - exists []. split; [done|constructor].
Qed.

Lemma trim_start_head s : match trim_start s with [] => True | c :: _ => is_whitespace c = false end.
Proof. induction s as [|c s IH]; simpl; [done|]. destruct (is_whitespace c) eqn:E; [done|]. done. Qed.

Lemma trim_end_prefix s : exists w, s = trim_end s ++ w /\ Forall (fun c => is_whitespace c = true) w.
Proof.
  destruct (trim_start_suffix (reverse s)) as (w & Hw & HF). exists (reverse w). unfold trim_end.
  rewrite <-reverse_app, <-Hw, reverse_involutive, Forall_reverse. done.
Qed.

(** [trim] removes whitespace and nothing else. *)
Lemma trim_infix s : exists w1 w2, s = w1 ++ trim s ++ w2 /\
  Forall (fun c => is_whitespace c = true) w1 /\ Forall (fun c => is_whitespace c = true) w2.
Proof.
  destruct (trim_start_suffix s) as (w1 & H1 & HF1).
  destruct (trim_end_prefix (trim_start s)) as (w2 & H2 & HF2).
  exists w1, w2. unfold trim. rewrite <-H2. done.
Qed.

Lemma trim_start_fixed c s : is_whitespace c = false -> trim_start (c :: s) = c :: s.
Proof. simpl. by intros ->. Qed.

(** Trimming twice is trimming once, so a stored trimmed name parses back to itself. *)
Lemma trim_idemp s : trim (trim s) = trim s.
Proof.
  unfold trim at 2 3. set (t := trim_start s).
  assert (trim_start (trim_end t) = trim_end t) as Hs.
  { pose proof (trim_start_head s) as Hh. fold t in Hh.
    destruct (trim_end_prefix t) as (w & Hw & _).
    destruct (trim_end t) as [|c r]; [done|]. apply trim_start_fixed.
    destruct t as [|d t']; simplify_list_eq; done. }
  unfold trim. rewrite Hs. unfold trim_end.
  by rewrite reverse_involutive, trim_start_idemp.
Qed.

(** ** Order

    [Ord for str] compares UTF-8 bytes; UTF-8 preserves the order of scalar values,
    so it is the lexicographic order of the characters. *)

Fixpoint lex_leb (s t : rstr) : bool :=
  match s, t with
  | [], _ => true
  | _ :: _, [] => false
  | c :: s, d :: t => (c <? d) || ((c =? d) && lex_leb s t)
  end.

Definition lex_le (s t : rstr) : Prop := lex_leb s t = true.

#[global] Instance lex_le_dec : RelDecision lex_le.
Proof. intros s t. unfold lex_le. apply _. Defined.

Lemma lex_le_cons c s d t : lex_le (c :: s) (d :: t) <-> c < d \/ c = d /\ lex_le s t.
Proof. unfold lex_le. simpl. rewrite orb_true_iff, andb_true_iff, Z.ltb_lt, Z.eqb_eq. done. Qed.

#[global] Instance lex_le_po : PartialOrder lex_le.
Proof.
  split; [split|].
  - intros s. induction s as [|c s IH]; [done|]. apply lex_le_cons. auto.
  - intros s. induction s as [|c s IH]; intros [|d t] [|e u]; try done.
    rewrite !lex_le_cons. intros [?|[-> ?]] [?|[-> ?]]; [left; lia|auto..]. right. eauto.
  - intros s. induction s as [|c s IH]; intros [|d t]; try done.
    rewrite !lex_le_cons. intros [?|[-> ?]] [?|[? ?]]; try lia. f_equal. eauto.
Qed.

#[global] Instance lex_le_total : Total lex_le.
Proof.
  intros s. induction s as [|c s IH]; intros [|d t]; [by left|by left|by right|].
  rewrite !lex_le_cons. destruct (Z.lt_trichotomy c d) as [?|[->|?]]; [auto| |auto].
  destruct (IH t); auto.
Qed.

(** ** [BTreeMap] iteration

    A [BTreeMap] (and a sorted listing of a [HashMap]) is a [gmap]; its iterators
    visit the keys in increasing order. *)

Class BTreeKey (K : Type) `{Countable K} := {
  key_le : relation K;
  key_le_dec :: RelDecision key_le;
  key_le_po :: PartialOrder key_le;
  key_le_total :: Total key_le;
}.

(** Comparing strings by their bytes is comparing them by their characters. *)
#[global] Instance rstr_btree_key : BTreeKey (list Z) := { key_le := lex_le }.

(** Tuples are compared by their first component, then by the second. *)
Definition prod_le `{BTreeKey K, BTreeKey L} (x y : K * L) : Prop :=
  x.1 <> y.1 /\ key_le x.1 y.1 \/ x.1 = y.1 /\ key_le x.2 y.2.
#[global] Program Instance prod_btree_key `{BTreeKey K, BTreeKey L} : BTreeKey (K * L) := { key_le := prod_le }.
Next Obligation. intros K ? ? ? L ? ? ? x y. unfold prod_le. apply _. Defined.
Next Obligation.
  intros K ? ? ? L ? ? ?. split; [split|].
  - intros [a b]. right. split; [done|]. simpl. reflexivity.
  - intros [a b] [c d] [e f]. unfold prod_le. simpl. intros [[Hac Hl]|[-> Hl]] [[Hce Hr]|[-> Hr]].
    + left. split; [|by etransitivity]. intros ->. apply Hac. by apply (anti_symm key_le).
    + by left.
    + by left.
    + right. split; [done|]. by etransitivity.
  - intros [a b] [c d]. unfold prod_le. simpl. intros [[Hac Hl]|[-> Hl]] [[Hca Hr]|[Hca Hr]]; try congruence.
    + destruct Hac. by apply (anti_symm key_le).
    + f_equal. by apply (anti_symm key_le).
Qed.
Next Obligation.
  intros K ? ? ? L ? ? ? [a b] [c d]. unfold prod_le. simpl. destruct (decide (a = c)) as [-> |Hne].
  - destruct (total key_le b d); auto.
  - destruct (total key_le a c); auto.
Qed.

Section btree.
Context `{BTreeKey K} {V : Type}.
Implicit Types m : gmap K V.

Definition entry_le (x y : K * V) : Prop := key_le x.1 y.1.
#[global] Instance entry_le_dec : RelDecision entry_le.
Proof. intros x y. unfold entry_le. apply _. Defined.
#[global] Instance entry_le_trans : Transitive entry_le.
Proof. intros x y z. unfold entry_le. apply transitivity. Qed.
#[global] Instance entry_le_total : Total entry_le.
Proof. intros x y. unfold entry_le. apply total, _. Qed.

Definition btree_iter m : list (K * V) := merge_sort entry_le (map_to_list m).
Definition btree_keys m : list K := (btree_iter m).*1.
Definition btree_values m : list V := (btree_iter m).*2.

Lemma btree_iter_perm m : btree_iter m ≡ₚ map_to_list m.
Proof. apply merge_sort_Permutation. Qed.

Lemma elem_of_btree_iter m k v : (k, v) ∈ btree_iter m <-> m !! k = Some v.
Proof. by rewrite btree_iter_perm, elem_of_map_to_list. Qed.

Lemma elem_of_btree_keys m k : k ∈ btree_keys m <-> is_Some (m !! k).
Proof.
  unfold btree_keys. rewrite list_elem_of_fmap. split.
  - intros ([k' v] & -> & Hin%elem_of_btree_iter). eauto.
  - intros [v Hv]. exists (k, v). by rewrite elem_of_btree_iter.
Qed.

Lemma NoDup_btree_keys m : NoDup (btree_keys m).
Proof. unfold btree_keys. rewrite btree_iter_perm. apply NoDup_fst_map_to_list. Qed.

Lemma elem_of_btree_values m v : v ∈ btree_values m <-> exists k, m !! k = Some v.
Proof.
  unfold btree_values. rewrite list_elem_of_fmap. split.
  - intros ([k v'] & -> & Hin%elem_of_btree_iter). eauto.
  - intros [k Hk]. exists (k, v). by rewrite elem_of_btree_iter.
Qed.

Lemma btree_iter_sorted m : StronglySorted entry_le (btree_iter m).
Proof. unfold btree_iter. apply (StronglySorted_merge_sort entry_le); apply _. Qed.

Lemma length_btree_keys m : length (btree_keys m) = size m.
Proof. unfold btree_keys. by rewrite length_fmap, btree_iter_perm, length_map_to_list. Qed.
End btree.
