(* ===== verification/Bytes.v ===== *)
(** * Bytes: texts on the wire

    What the header parsers use of the standard library: UTF-8 decoding, decimal numbers,
    ASCII case, and the searches on byte slices. *)

From S2P Require Import Prelude Text.

(** ** UTF-8 *)

Definition is_continuation (b : byte) : bool := in_range 0x80 0xBF b.

(** [std::str::from_utf8]: shortest forms only, no surrogates, nothing above U+10FFFF. *)
Fixpoint from_utf8 (bs : list byte) : option rstr :=
  match bs with
  | [] => Some []
  | a :: bs1 =>
      if a <? 0x80 then cons a <$> from_utf8 bs1
      else match bs1 with
      | [] => None
      | b :: bs2 =>
          if in_range 0xC2 0xDF a then
            if is_continuation b then cons ((a - 0xC0) * 64 + (b - 0x80)) <$> from_utf8 bs2 else None
          else match bs2 with
          | [] => None
          | c :: bs3 =>
              if in_range 0xE0 0xEF a then
                if in_range (if a =? 0xE0 then 0xA0 else 0x80) (if a =? 0xED then 0x9F else 0xBF) b
                   && is_continuation c
                then cons ((a - 0xE0) * 4096 + (b - 0x80) * 64 + (c - 0x80)) <$> from_utf8 bs3 else None
              else match bs3 with
              | [] => None
              | d :: bs4 =>
                  if in_range 0xF0 0xF4 a
                     && in_range (if a =? 0xF0 then 0x90 else 0x80) (if a =? 0xF4 then 0x8F else 0xBF) b
                     && is_continuation c && is_continuation d
                  then cons ((a - 0xF0) * 262144 + (b - 0x80) * 4096 + (c - 0x80) * 64 + (d - 0x80))
                       <$> from_utf8 bs4
                  else None
              end
          end
      end
  end.

(** ** Slices *)

(** [iter().position(p)] followed by [split_at]: what precedes the first match, and the rest
    from the match on. *)
Fixpoint split_at_first (p : byte -> bool) (bs : list byte) : option (list byte * list byte) :=
  match bs with
  | [] => None
  | b :: r => if p b then Some ([], bs) else (fun x => (b :: x.1, x.2)) <$> split_at_first p r
  end.

(** [to_ascii_lowercase], [eq_ignore_ascii_case], [u8::is_ascii_whitespace]. *)
Definition ascii_lower (c : Z) : Z := if in_range 65 90 c then c + 32 else c.
Definition eq_ignore_ascii_case (s t : list Z) : bool := bool_decide (ascii_lower <$> s = ascii_lower <$> t).
Definition is_ascii_whitespace (b : byte) : bool :=
  (b =? 0x20) || (b =? 0x09) || (b =? 0x0A) || (b =? 0x0C) || (b =? 0x0D).

(** [usize::checked_add] and [usize::checked_mul]. *)
Definition checked_add (a b : Z) : option Z := try_unsigned USIZE_MAX (a + b).
Definition checked_mul (a b : Z) : option Z := try_unsigned USIZE_MAX (a * b).

(** ** Decimal numbers *)

Fixpoint decimal_digits (fuel : nat) (n : Z) (acc : rstr) : rstr :=
  let acc := (48 + n mod 10) :: acc in
  match fuel with
  | O => acc
  | S fuel => if n <? 10 then acc else decimal_digits fuel (n / 10) acc
  end.

(** [to_string] of an unsigned integer and of an [i64].  A number has no more decimal than
    binary digits. *)
Definition decimal (n : Z) : rstr := decimal_digits (Z.to_nat (Z.log2 n)) n [].
Definition i64_to_string (n : Z) : rstr := if n <? 0 then 45 :: decimal (- n) else decimal n.

Fixpoint parse_digits (sign acc : Z) (s : rstr) : option Z :=
  match s with
  | [] => Some acc
  | c :: s =>
      if is_ascii_digit c then
        acc ← try_i64 (acc * 10); acc ← try_i64 (acc + sign * (c - 48)); parse_digits sign acc s
      else None
  end.

(** [str::parse::<i64>]: an optional sign, then at least one digit, no overflow. *)
Definition parse_i64 (s : rstr) : option Z :=
  match s with
  | [] => None
  | c :: r =>
      let '(sign, digits) := if c =? 43 then (1, r) else if c =? 45 then (-1, r) else (1, s) in
      if decide (digits = []) then None else parse_digits sign 0 digits
  end.

(** ** Facts *)

Lemma land_low a b : 0 <= b < 64 -> Z.land (a * 64 + b) 0x3F = b.
Proof.
  intros Hb. change 0x3F with (Z.ones 6). rewrite Z.land_ones by lia.
  rewrite Z.add_comm, Z_mod_plus_full. apply Z.mod_small. lia.
Qed.

Lemma shiftr_high a b n : 0 <= n -> 0 <= b < 2 ^ n -> Z.shiftr (a * 2 ^ n + b) n = a.
Proof. intros Hn Hb. rewrite Z.shiftr_div_pow2, Z.div_add_l, Z.div_small by lia. lia. Qed.

(** One decoded character encodes to the bytes it was read from. *)
Lemma encode_utf8_two a b :
  in_range 0xC2 0xDF a = true -> is_continuation b = true ->
  encode_utf8 ((a - 0xC0) * 64 + (b - 0x80)) = [a; b].
Proof.
  unfold is_continuation, encode_utf8. intros Ha Hb. bools.
  rewrite (proj2 (Z.ltb_ge _ 0x80)), (proj2 (Z.ltb_lt _ 0x800)), land_low by lia.
  rewrite (shiftr_high _ _ 6) by lia. do 2 (apply f_equal2; [lia|]). done.
Qed.

Lemma encode_utf8_three a b c :
  in_range 0xE0 0xEF a = true ->
  in_range (if a =? 0xE0 then 0xA0 else 0x80) (if a =? 0xED then 0x9F else 0xBF) b = true ->
  is_continuation c = true ->
  encode_utf8 ((a - 0xE0) * 4096 + (b - 0x80) * 64 + (c - 0x80)) = [a; b; c].
Proof.
  unfold is_continuation, encode_utf8. intros Ha Hb Hc. bools.
  destruct (Z.eqb_spec a 0xE0), (Z.eqb_spec a 0xED);
    (rewrite (proj2 (Z.ltb_ge _ 0x80)), (proj2 (Z.ltb_ge _ 0x800)), (proj2 (Z.ltb_lt _ 0x10000)) by lia;
     replace ((a - 0xE0) * 4096 + (b - 0x80) * 64 + (c - 0x80))
       with (((a - 0xE0) * 64 + (b - 0x80)) * 64 + (c - 0x80)) by lia;
     rewrite land_low, (shiftr_high _ (c - 0x80) 6), land_low by lia;
     replace (((a - 0xE0) * 64 + (b - 0x80)) * 64 + (c - 0x80))
       with ((a - 0xE0) * 2 ^ 12 + ((b - 0x80) * 64 + (c - 0x80))) by lia;
     rewrite (shiftr_high _ _ 12) by lia; do 3 (apply f_equal2; [lia|]); done).
Qed.

Lemma encode_utf8_four a b c d :
  in_range 0xF0 0xF4 a = true ->
  in_range (if a =? 0xF0 then 0x90 else 0x80) (if a =? 0xF4 then 0x8F else 0xBF) b = true ->
  is_continuation c = true -> is_continuation d = true ->
  encode_utf8 ((a - 0xF0) * 262144 + (b - 0x80) * 4096 + (c - 0x80) * 64 + (d - 0x80)) = [a; b; c; d].
Proof.
  unfold is_continuation, encode_utf8. intros Ha Hb Hc Hd. bools.
  destruct (Z.eqb_spec a 0xF0), (Z.eqb_spec a 0xF4);
    (rewrite (proj2 (Z.ltb_ge _ 0x80)), (proj2 (Z.ltb_ge _ 0x800)), (proj2 (Z.ltb_ge _ 0x10000)) by lia;
     set (hi := (a - 0xF0) * 64 + (b - 0x80)); set (mid := hi * 64 + (c - 0x80));
     replace ((a - 0xF0) * 262144 + (b - 0x80) * 4096 + (c - 0x80) * 64 + (d - 0x80))
       with (mid * 64 + (d - 0x80)) by lia;
     rewrite land_low, (shiftr_high _ (d - 0x80) 6) by lia; unfold mid at 3; rewrite land_low by lia;
     replace (mid * 64 + (d - 0x80)) with (hi * 2 ^ 12 + ((c - 0x80) * 64 + (d - 0x80))) by lia;
     rewrite (shiftr_high hi _ 12) by lia; unfold hi at 2; rewrite land_low by lia;
     replace (hi * 2 ^ 12 + ((c - 0x80) * 64 + (d - 0x80)))
       with ((a - 0xF0) * 2 ^ 18 + ((b - 0x80) * 4096 + (c - 0x80) * 64 + (d - 0x80))) by lia;
     rewrite (shiftr_high _ _ 18) by lia; do 4 (apply f_equal2; [lia|]); done).
Qed.

Lemma as_bytes_cons c s : as_bytes (c :: s) = encode_utf8 c ++ as_bytes s.
Proof. done. Qed.

(** What decodes is the encoding of the text it decodes to. *)
Lemma from_utf8_sound bs s : from_utf8 bs = Some s -> as_bytes s = bs.
Proof.
  remember (length bs) as n eqn:Hn. assert (length bs <= n)%nat as Hle by lia. clear Hn.
  revert bs s Hle. induction n as [|n IH]; intros bs s Hle.
  { destruct bs; simpl in *; [by intros [= <-]|lia]. }
  destruct bs as [|a bs1]; cbn [from_utf8 length] in *; [by intros [= <-]|].
  assert (forall c pre rest, (length rest <= n)%nat -> encode_utf8 c = pre ->
    cons c <$> from_utf8 rest = Some s -> as_bytes s = pre ++ rest) as Hcons.
  { intros c pre rest Hl <- (t & Ht & ->)%fmap_Some. by rewrite as_bytes_cons, (IH rest t). }
  destruct (a <? 0x80) eqn:Ha.
  { apply (Hcons a [a]); [lia|]. unfold encode_utf8. by rewrite Ha. }
  destruct bs1 as [|b bs2]; [done|]. simpl in Hle. destruct (in_range 0xC2 0xDF a) eqn:H2.
  { destruct (is_continuation b) eqn:Hb; [|done]. apply (Hcons _ [a; b]); [lia|by apply encode_utf8_two]. }
  destruct bs2 as [|c bs3]; [done|]. simpl in Hle. destruct (in_range 0xE0 0xEF a) eqn:H3.
  { destruct (_ && _) eqn:Hb; [|done]. apply andb_true_iff in Hb as [Hb Hc].
    apply (Hcons _ [a; b; c]); [lia|by apply encode_utf8_three]. }
  destruct bs3 as [|d bs4]; [done|]. simpl in Hle. destruct (_ && _) eqn:Hb; [|done].
  apply andb_true_iff in Hb as [[[Ha4 Hb]%andb_true_iff Hc]%andb_true_iff Hd].
  apply (Hcons _ [a; b; c; d]); [lia|by apply encode_utf8_four].
Qed.

Lemma as_bytes_ascii s : Forall (fun c => c < 0x80) s -> as_bytes s = s.
Proof.
  induction 1 as [|c s Hc _ IH]; [done|]. rewrite as_bytes_cons, IH. unfold encode_utf8.
  by rewrite (proj2 (Z.ltb_lt c 0x80) Hc).
Qed.

Lemma from_utf8_ascii s : Forall (fun c => c < 0x80) s -> from_utf8 s = Some s.
Proof.
  induction 1 as [|c s Hc _ IH]; [done|]. cbn [from_utf8].
  by rewrite (proj2 (Z.ltb_lt c 0x80) Hc), IH.
Qed.

(** The values of [char]. *)
Definition is_scalar (c : char) : bool := in_range 0 0xD7FF c || in_range 0xE000 0x10FFFF c.

Lemma low_bits c : Z.land c 0x3F = c mod 64.
Proof. change 0x3F with (Z.ones 6). by rewrite Z.land_ones. Qed.

Lemma in_range_false lo hi x : x < lo \/ hi < x -> in_range lo hi x = false.
Proof. intros Hx. apply not_true_iff_false. rewrite in_range_spec. lia. Qed.

#[local] Ltac euclid := Z.to_euclidean_division_equations; lia.
#[local] Ltac range_true := rewrite (proj2 (in_range_spec _ _ _)) by (repeat case_match; bools; euclid).

(** Encoding is undone by decoding. *)
Lemma from_utf8_char c rest : is_scalar c = true -> from_utf8 (encode_utf8 c ++ rest) = cons c <$> from_utf8 rest.
Proof.
  unfold is_scalar, encode_utf8. intros Hc.
  assert (0 <= c <= 0x10FFFF /\ (c <= 0xD7FF \/ 0xE000 <= c)) as Hr by (apply orb_true_iff in Hc; rewrite !in_range_spec in Hc; lia).
  rewrite !low_bits, !Z.shiftr_div_pow2 by lia. clear Hc. change (2 ^ 6) with 64. change (2 ^ 12) with 4096. change (2 ^ 18) with 262144.
  destruct (Z.ltb_spec c 0x80) as [H1|H1]; [cbn [app from_utf8]; by rewrite (proj2 (Z.ltb_lt _ _) H1)|].
  destruct (Z.ltb_spec c 0x800) as [H2|H2]; [|destruct (Z.ltb_spec c 0x10000) as [H3|H3]]; cbn [app from_utf8]; unfold is_continuation;
    rewrite (proj2 (Z.ltb_ge _ 0x80)) by euclid.
  - do 2 range_true. do 2 f_equal. euclid.
  - rewrite (in_range_false 0xC2 0xDF) by euclid. do 3 range_true. cbn [andb]. do 2 f_equal. euclid.
  - rewrite (in_range_false 0xC2 0xDF), (in_range_false 0xE0 0xEF) by euclid. do 4 range_true. cbn [andb]. do 2 f_equal. euclid.
Qed.

Lemma from_utf8_as_bytes s : Forall (fun c => is_scalar c = true) s -> from_utf8 (as_bytes s) = Some s.
Proof. induction 1 as [|c s Hc _ IH]; [done|]. rewrite as_bytes_cons, from_utf8_char, IH; done. Qed.

Lemma encode_utf8_octets c : is_scalar c = true -> Forall (fun b => in_range 0 255 b = true) (encode_utf8 c).
Proof.
  unfold is_scalar, encode_utf8. intros Hc.
  assert (0 <= c <= 0x10FFFF) as Hr by (apply orb_true_iff in Hc; rewrite !in_range_spec in Hc; lia).
  rewrite !low_bits, !Z.shiftr_div_pow2 by lia. change (2 ^ 6) with 64. change (2 ^ 12) with 4096. change (2 ^ 18) with 262144.
  repeat case_match; bools; repeat constructor; apply in_range_spec; euclid.
Qed.

Lemma as_bytes_octets s : Forall (fun c => is_scalar c = true) s -> Forall (fun b => in_range 0 255 b = true) (as_bytes s).
Proof. induction 1 as [|c s Hc _ IH]; [constructor|]. rewrite as_bytes_cons. apply Forall_app. split; [by apply encode_utf8_octets|done]. Qed.

(** What decodes is made of scalar values. *)
Lemma from_utf8_scalar bs s : Forall (fun b => 0 <= b) bs -> from_utf8 bs = Some s -> Forall (fun c => is_scalar c = true) s.
Proof.
  remember (length bs) as n eqn:Hn. assert (length bs <= n)%nat as Hle by lia. clear Hn.
  revert bs s Hle. induction n as [|n IH]; intros bs s Hle Hb.
  { destruct bs; simpl in *; [by intros [= <-]|lia]. }
  destruct bs as [|a bs1]; cbn [from_utf8 length] in *; [by intros [= <-]|].
  assert (forall c rest, (length rest <= n)%nat -> Forall (fun b => 0 <= b) rest -> 0 <= c <= 0xD7FF \/ 0xE000 <= c <= 0x10FFFF ->
    cons c <$> from_utf8 rest = Some s -> Forall (fun c => is_scalar c = true) s) as Hcons.
  { intros c rest Hl Hrest Hc (t & Ht & ->)%fmap_Some. constructor; [|by apply (IH rest t)].
    apply orb_true_iff. by rewrite !in_range_spec. }
  apply Forall_cons in Hb as [Ha0 Hb]. unfold is_continuation. destruct (a <? 0x80) eqn:Ha; [apply Hcons; bools; [lia|done|lia]|].
  destruct bs1 as [|b bs2]; [done|]. simpl in Hle. apply Forall_cons in Hb as [_ Hb]. destruct (in_range 0xC2 0xDF a) eqn:H2.
  { destruct (in_range _ _ b) eqn:Hb1; [|done]. apply Hcons; bools; [lia|done|lia]. }
  destruct bs2 as [|c bs3]; [done|]. simpl in Hle. apply Forall_cons in Hb as [_ Hb]. destruct (in_range 0xE0 0xEF a) eqn:H3.
  { destruct (_ && _) eqn:Hb1; [|done]. apply Hcons; [lia|done|]. repeat case_match; bools; lia. }
  destruct bs3 as [|d bs4]; [done|]. simpl in Hle. apply Forall_cons in Hb as [_ Hb]. destruct (_ && _) eqn:Hb1; [|done].
  apply Hcons; [lia|done|]. repeat case_match; bools; lia.
Qed.

Lemma split_at_first_Some p bs x y :
  split_at_first p bs = Some (x, y) <->
  bs = x ++ y /\ Forall (fun b => p b = false) x /\ exists b r, y = b :: r /\ p b = true.
Proof.
  revert x y. induction bs as [|b bs IH]; intros x y; simpl.
  - split; [done|]. intros (Happ & _ & c & r & -> & _). by destruct x.
  - destruct (p b) eqn:Hb.
    + split; [intros [= <- <-]; split_and!; [done|constructor|by exists b, bs]|].
      intros (Happ & Hx & c & r & -> & Hc). destruct x as [|d x]; simplify_list_eq; [done|].
      apply Forall_cons in Hx as [? _]. congruence.
    + rewrite fmap_Some. split.
      * intros ([x' y'] & (-> & Hx & Hy)%IH & [= -> ->]). split_and!; [done| |done]. by constructor.
      * intros (Happ & Hx & c & r & -> & Hc). destruct x as [|d x]; simplify_list_eq; [congruence|].
        apply Forall_cons in Hx as [_ Hx]. exists (x, c :: r). split; [|done]. apply IH. split_and!; [done|done|by exists c, r].
Qed.

Lemma split_at_first_app p x b r :
  Forall (fun c => p c = false) x -> p b = true -> split_at_first p (x ++ b :: r) = Some (x, b :: r).
Proof. intros Hx Hb. apply split_at_first_Some. split_and!; [done|done|by exists b, r]. Qed.

(** *** Decimal numbers *)

Definition digits_value (acc : Z) (s : rstr) : Z := foldl (fun acc c => acc * 10 + (c - 48)) acc s.

Lemma decimal_digits_value fuel n acc :
  0 <= n < 10 ^ Z.of_nat (S fuel) -> digits_value 0 (decimal_digits fuel n acc) = digits_value n acc.
Proof.
  revert n acc. induction fuel as [|fuel IH]; intros n acc Hn; cbn [decimal_digits].
  - unfold digits_value. cbn [foldl]. f_equal. change (10 ^ _) with 10 in Hn. rewrite Z.mod_small; lia.
  - pose proof (Z.mod_pos_bound n 10). pose proof (Z.div_mod n 10).
    destruct (Z.ltb_spec n 10) as [Hlt|Hge].
    + unfold digits_value. cbn [foldl]. f_equal. rewrite Z.mod_small; lia.
    + rewrite IH.
      * unfold digits_value. cbn [foldl]. f_equal. lia.
      * rewrite (Nat2Z.inj_succ (S fuel)), Z.pow_succ_r in Hn by lia. split; [lia|].
        apply Z.div_lt_upper_bound; lia.
Qed.

Lemma decimal_value n : 0 <= n -> digits_value 0 (decimal n) = n.
Proof.
  intros Hn. unfold decimal. rewrite decimal_digits_value; [done|]. split; [done|].
  destruct (Z.eq_dec n 0) as [->|Hnz]; [done|].
  pose proof (Z.log2_nonneg n). rewrite Nat2Z.inj_succ, Z2Nat.id by done.
  eapply Z.lt_le_trans; [apply Z.log2_spec; lia|]. apply Z.pow_le_mono_l. lia.
Qed.

Lemma decimal_digits_all fuel n acc :
  Forall (fun c => is_ascii_digit c = true) acc ->
  Forall (fun c => is_ascii_digit c = true) (decimal_digits fuel n acc).
Proof.
  assert (forall n acc, Forall (fun c => is_ascii_digit c = true) acc ->
    Forall (fun c => is_ascii_digit c = true) (48 + n mod 10 :: acc)) as Hcons.
  { intros m l Hl. constructor; [|done]. apply in_range_spec. pose proof (Z.mod_pos_bound m 10). lia. }
  revert n acc. induction fuel as [|fuel IH]; intros n acc Hacc; cbn [decimal_digits]; [by apply Hcons|].
  case_match; [by apply Hcons|]. apply IH. by apply Hcons.
Qed.

Lemma decimal_all n : Forall (fun c => is_ascii_digit c = true) (decimal n).
Proof. apply decimal_digits_all. constructor. Qed.

Lemma decimal_not_nil n : decimal n <> [].
Proof.
  assert (forall fuel m acc, decimal_digits fuel m acc <> []) as H; [|apply H].
  induction fuel as [|fuel IH]; intros m acc; [done|]. cbn [decimal_digits]. case_match; [done|]. apply IH.
Qed.

Lemma decimal_inj n m : 0 <= n -> 0 <= m -> decimal n = decimal m -> n = m.
Proof. intros Hn Hm H. by rewrite <-(decimal_value n), <-(decimal_value m), H. Qed.

Lemma is_ascii_digit_spec c : is_ascii_digit c = true <-> 48 <= c <= 57.
Proof. apply in_range_spec. Qed.

Lemma i64_to_string_inj n m : i64_to_string n = i64_to_string m -> n = m.
Proof.
  assert (forall k l, 45 :: k <> decimal l) as Hsign.
  { intros k l H. pose proof (decimal_all l) as Hl. rewrite <-H in Hl. apply Forall_cons in Hl as [? _]. done. }
  unfold i64_to_string. destruct (Z.ltb_spec n 0), (Z.ltb_spec m 0); intros Heq.
  - injection Heq as Heq. apply decimal_inj in Heq; lia.
  - by destruct (Hsign _ _ Heq).
  - by destruct (Hsign _ _ (eq_sym Heq)).
  - apply decimal_inj in Heq; lia.
Qed.

(** Every character of a number is a digit or the sign. *)
Lemma i64_to_string_chars n : Forall (fun c => 45 <= c <= 57) (i64_to_string n).
Proof.
  assert (forall m, Forall (fun c => 45 <= c <= 57) (decimal m)) as Hd.
  { intros m. eapply Forall_impl; [apply decimal_all|]. intros c Hc%is_ascii_digit_spec. simpl. lia. }
  unfold i64_to_string. case_match; [|done]. constructor; [lia|done].
Qed.

Lemma digits_value_mono acc s : 0 <= acc -> Forall (fun c => is_ascii_digit c = true) s -> acc <= digits_value acc s.
Proof.
  intros Hacc Hs. revert acc Hacc. induction Hs as [|c s Hc _ IH]; intros acc Hacc; [done|].
  apply is_ascii_digit_spec in Hc. unfold digits_value in *. cbn [foldl].
  transitivity (acc * 10 + (c - 48)); [lia|]. apply IH. lia.
Qed.

Lemma parse_digits_value acc s :
  0 <= acc -> Forall (fun c => is_ascii_digit c = true) s -> digits_value acc s <= I64_MAX ->
  parse_digits 1 acc s = Some (digits_value acc s).
Proof.
  intros Hacc Hs. revert acc Hacc. induction Hs as [|c s Hc Hs IH]; intros acc Hacc Hmax; [done|].
  cbn [parse_digits]. rewrite Hc. apply is_ascii_digit_spec in Hc.
  pose proof (digits_value_mono (acc * 10 + (c - 48)) s) as Hmono.
  unfold digits_value in *. cbn [foldl] in *. specialize (Hmono ltac:(lia) Hs).
  assert (forall z, 0 <= z <= acc * 10 + (c - 48) -> try_i64 z = Some z) as Htry.
  { intros z Hz. unfold try_i64. rewrite (proj2 (in_i64_spec z)); [done|]. unfold I64_MIN. lia. }
  rewrite Htry by lia. simpl. rewrite Z.mul_1_l, Htry by lia. simpl. apply IH; [lia|done].
Qed.

(** Reading back a number that was written. *)
Lemma parse_i64_to_string n : 0 <= n <= I64_MAX -> parse_i64 (i64_to_string n) = Some n.
Proof.
  intros Hn. unfold i64_to_string. destruct (Z.ltb_spec n 0); [lia|].
  pose proof (decimal_not_nil n). pose proof (decimal_all n) as Hd. pose proof (decimal_value n ltac:(lia)) as Hv.
  unfold parse_i64. destruct (decimal n) as [|c r]; [done|].
  pose proof Hd as Hd'. apply Forall_cons in Hd' as [Hc%is_ascii_digit_spec _].
  rewrite (proj2 (Z.eqb_neq c 43)), (proj2 (Z.eqb_neq c 45)) by lia. rewrite decide_False by done.
  rewrite parse_digits_value; [by rewrite Hv|lia|done|]. rewrite Hv. lia.
Qed.

Lemma parse_digits_range sign acc s n :
  I64_MIN <= acc <= I64_MAX -> parse_digits sign acc s = Some n -> I64_MIN <= n <= I64_MAX.
Proof.
  revert acc. induction s as [|c s IH]; intros acc Hacc; cbn [parse_digits]; [by intros [= <-]|].
  destruct (is_ascii_digit c); [|done]. destruct (try_i64 (acc * 10)) as [a|]; [|done]. simpl.
  destruct (try_i64 _) as [b|] eqn:Hb; [|done]. simpl. apply try_i64_Some in Hb as [-> Hb]. by apply IH.
Qed.

Lemma parse_i64_range s n : parse_i64 s = Some n -> I64_MIN <= n <= I64_MAX.
Proof.
  unfold parse_i64. destruct s as [|c r]; [done|].
  destruct (if c =? 43 then _ else _) as [sign digits]. case_decide; [done|]. by apply parse_digits_range.
Qed.
