(* ===== verification/Crypto.v ===== *)
(** * Crypto: the hash functions of the [sha2] and [hmac] crates

    Third-party code, and so parameters.  [Sha256Spec] and [HmacSha256Spec] state what the
    crates document: the length of the output, and that a message authentication code over
    a stream depends only on the bytes of the stream, not on how they were cut. *)

From S2P Require Import Prelude Text.

Class Sha256 := sha256 : list byte -> list byte.
Class Sha256Spec `{Sha256} : Prop := sha256_length bs : length (sha256 bs) = 32%nat.

(** [Hmac<Sha256>]: [new_from_slice], [update] and [finalize]. *)
Class HmacSha256 := {
  Mac : Type;
  mac_new : list byte -> Mac;
  mac_update : Mac -> list byte -> Mac;
  mac_finalize : Mac -> list byte;
}.

(** The code of one message. *)
Definition hmac_sha256 `{HmacSha256} (key message : list byte) : list byte :=
  mac_finalize (mac_update (mac_new key) message).

Class HmacSha256Spec `{HmacSha256} : Prop := {
  mac_stream key parts :
    mac_finalize (foldl mac_update (mac_new key) parts) = hmac_sha256 key (concat parts);
  mac_length m : length (mac_finalize m) = 32%nat;
  mac_bytes m : Forall (fun b => in_range 0 255 b = true) (mac_finalize m);
}.

(** ** Functions of the documented shape

    Not the real hash functions: they only show that the documented behaviour can be had. *)

Definition checksum (seed : Z) (bs : list byte) : Z := foldl (fun acc b => (acc * 31 + b + 7) mod 65521) seed bs.

Definition toy_digest (bs : list byte) : list byte :=
  (fun i => checksum (i * 257) bs mod 256) <$> seqZ 0 32.

#[global] Instance toy_sha256_spec : @Sha256Spec toy_digest.
Proof. intros bs. unfold sha256, toy_digest. by rewrite length_fmap. Qed.

Definition toy_hmac : HmacSha256 := {|
  Mac := list byte; mac_new key := key; mac_update m bs := m ++ bs; mac_finalize := toy_digest |}.

#[global] Instance toy_hmac_spec : @HmacSha256Spec toy_hmac.
Proof.
  split.
  - intros key parts. unfold hmac_sha256. cbn. f_equal. revert key.
    induction parts as [|p parts IH]; intros key; simpl; [by rewrite app_nil_r|]. by rewrite IH, (assoc_L (++)).
  - intros m. cbn. unfold toy_digest. by rewrite length_fmap.
  - intros m. cbn. unfold toy_digest. apply Forall_fmap, Forall_true. intros i. apply in_range_spec.
    pose proof (Z.mod_pos_bound (checksum (i * 257) m) 256). lia.
Qed.
