(* ===== verification/HttpLib.v ===== *)
(** * HttpLib: what the workspace uses of the [http] crate

    URIs, header maps, header values and status classes are third-party code, and so
    parameters.  [UriCrateSpec] and [HeaderCrateSpec] state what the crate documents of them:
    the host and the port of a URI are those of its authority; inserting a header replaces
    the values of its name, iterating lists the values with their names in some order;
    values are made of visible characters; the classes of status codes are their hundreds.
    [UriTextSpec] says where the parts of a URI are in its text.  The file ends with functions
    of the documented shape for concrete evaluations. *)

From S2P Require Import Prelude Text Bytes.

(** [HeaderName] keeps its name in lower case; [Method] is its text. *)
Abbreviation HeaderName := (list Z) (only parsing).
Abbreviation Method := (list Z) (only parsing).
Definition ALLOW : HeaderName := str "allow".
Definition AUTHORIZATION : HeaderName := str "authorization".
Definition CACHE_CONTROL : HeaderName := str "cache-control".
Definition CONTENT_TYPE : HeaderName := str "content-type".
Definition COOKIE : HeaderName := str "cookie".
Definition ORIGIN : HeaderName := str "origin".
Definition PROXY_AUTHORIZATION : HeaderName := str "proxy-authorization".
Definition RETRY_AFTER : HeaderName := str "retry-after".
Definition WWW_AUTHENTICATE : HeaderName := str "www-authenticate".
Definition X_CONTENT_TYPE_OPTIONS : HeaderName := str "x-content-type-options".
Definition METHOD_GET : Method := str "GET".
Definition METHOD_POST : Method := str "POST".

(** [Authority] is the text [Authority::as_str] shows. *)
Class UriCrate := {
  Uri : Type;
  uri_parse : rstr -> option Uri;
  uri_to_string : Uri -> rstr;
  scheme_str : Uri -> option rstr;
  authority : Uri -> option rstr;
  authority_host : rstr -> rstr;
  authority_port : rstr -> option Z;
  uri_host : Uri -> option rstr;
  port_u16 : Uri -> option Z;
  uri_path_and_query : Uri -> option rstr;
  uri_path : Uri -> rstr;
  uri_query : Uri -> option rstr;
}.

Class UriCrateSpec `{UriCrate} : Prop := {
  host_of_authority u : uri_host u = authority_host <$> authority u;
  port_of_authority u : port_u16 u = a ← authority u; authority_port a;
}.

(** The text of an absolute URI without a fragment: the scheme, of which only the case of the
    letters may have changed, the authority, and what follows it up to the first question mark
    as the path, an empty one being read as the root, and from there on as the query. *)
Class UriTextSpec `{UriCrate} : Prop := {
  uri_text s u scheme a :
    uri_parse s = Some u -> (35 ∉ s) -> scheme_str u = Some scheme -> authority u = Some a ->
    exists text path, s = text ++ str "://" ++ a ++ path ++ match uri_query u with Some query => 63 :: query | None => [] end /\
      length text = length scheme /\ (63 ∉ path) /\ (path = [] \/ head path = Some 47) /\
      uri_path u = if decide (path = []) then str "/" else path;
}.

(** [HeaderValue]: its bytes and the mark [set_sensitive] puts on it. *)
Record HeaderValue := mk_header_value {
  hv_bytes : list byte;
  hv_sensitive : bool;
}.
Definition set_sensitive (v : HeaderValue) : HeaderValue := mk_header_value (hv_bytes v) true.
Definition from_static (s : rstr) : HeaderValue := mk_header_value s false.

Class HeaderCrate := {
  HeaderMap : Type;
  headers_new : HeaderMap;
  headers_insert : rstr -> HeaderValue -> HeaderMap -> HeaderMap;
  headers_remove : rstr -> HeaderMap -> HeaderMap;
  headers_iter : HeaderMap -> list (rstr * HeaderValue);
  headers_len : HeaderMap -> Z;
  contains_key : rstr -> HeaderMap -> bool;
  value_from_str : rstr -> option HeaderValue;
  value_from_bytes : list byte -> option HeaderValue;
  is_success : Z -> bool;
  is_redirection : Z -> bool;
  is_server_error : Z -> bool;
}.

Class HeaderCrateSpec `{HeaderCrate} : Prop := {
  iter_new : headers_iter headers_new = [];
  iter_insert name v m :
    headers_iter (headers_insert name v m) ≡ₚ (name, v) :: filter (fun h => h.1 <> name) (headers_iter m);
  iter_remove name m : headers_iter (headers_remove name m) ≡ₚ filter (fun h => h.1 <> name) (headers_iter m);
  len_iter m : headers_len m = Z.of_nat (length (headers_iter m));
  contains_iter name m : contains_key name m = true <-> name ∈ (headers_iter m).*1;
  from_str_visible s : Forall (fun c => 32 <= c < 127) s -> value_from_str s = Some (mk_header_value s false);
  from_bytes_visible s : Forall (fun c => 32 <= c < 127) s -> value_from_bytes s = Some (mk_header_value s false);
  success_range status : is_success status = in_range 200 299 status;
  redirection_range status : is_redirection status = in_range 300 399 status;
  server_error_range status : is_server_error status = in_range 500 599 status;
}.

(** [HeaderValue::to_str] succeeds where every byte is a visible character. *)
Class HeaderText := value_to_str : HeaderValue -> option rstr.
Class HeaderTextSpec `{HeaderText} : Prop := {
  to_str_bytes v s : value_to_str v = Some s -> s = hv_bytes v;
  to_str_visible v : Forall (fun c => 32 <= c < 127) (hv_bytes v) -> value_to_str v = Some (hv_bytes v);
}.

(** [headers.entry(name).or_insert_with(..)]. *)
Definition or_insert `{HeaderCrate} (name : rstr) (v : HeaderValue) (m : HeaderMap) : HeaderMap :=
  if contains_key name m then m else headers_insert name v m.

(** All the values of one name, in the order of the map. *)
Definition get_all `{HeaderCrate} (name : rstr) (m : HeaderMap) : list HeaderValue :=
  (filter (fun h => h.1 = name) (headers_iter m)).*2.

Section headers.
  Context `{HeaderCrateSpec}.

Lemma get_all_new name : get_all name headers_new = [].
Proof. unfold get_all. by rewrite iter_new. Qed.

(** An insert leaves one value of its name and the others as they were. *)
Lemma get_all_insert_eq name v m : get_all name (headers_insert name v m) = [v].
Proof.
  unfold get_all. assert (filter (fun h => h.1 = name) (headers_iter (headers_insert name v m)) ≡ₚ [(name, v)]) as Hp.
  { rewrite (iter_insert name v m), filter_cons, decide_True by done.
    replace (filter _ (filter _ _)) with (@nil (rstr * HeaderValue)); [done|].
    induction (headers_iter m) as [|h l IH]; [done|].
    rewrite filter_cons. case_decide; [rewrite filter_cons, decide_False|]; done. }
  by apply Permutation_singleton_r in Hp as ->.
Qed.

Lemma get_all_insert_ne name other v m :
  other <> name -> get_all other (headers_insert name v m) ≡ₚ get_all other m.
Proof.
  intros Hne. unfold get_all. rewrite (iter_insert name v m), filter_cons, decide_False by done.
  apply reflexive_eq. f_equal. induction (headers_iter m) as [|h l IH]; [done|].
  rewrite !filter_cons. destruct (decide (h.1 <> name)) as [|Hn].
  - rewrite filter_cons. by rewrite IH.
  - rewrite IH. apply dec_stable in Hn. rewrite decide_False; [done|congruence].
Qed.

Lemma get_all_insert_single name other v w m :
  other <> name -> get_all other m = [w] -> get_all other (headers_insert name v m) = [w].
Proof. intros Hne Hm. apply Permutation_singleton_r. by rewrite get_all_insert_ne, Hm. Qed.

Lemma get_all_insert_none name other v m :
  other <> name -> get_all other m = [] -> get_all other (headers_insert name v m) = [].
Proof. intros Hne Hm. apply Permutation_nil_r. by rewrite get_all_insert_ne, Hm. Qed.

Lemma get_all_remove_eq name m : get_all name (headers_remove name m) = [].
Proof.
  assert (get_all name (headers_remove name m) ≡ₚ []) as Hp%Permutation_nil_r; [|done].
  unfold get_all. rewrite (iter_remove name m). apply reflexive_eq.
  induction (headers_iter m) as [|h l IH]; [done|]. rewrite filter_cons. case_decide; [rewrite filter_cons, decide_False|]; done.
Qed.

(** A value of the name is there afterwards, and one that was there stays. *)
Lemma or_insert_present name v m : exists w, w ∈ get_all name (or_insert name v m).
Proof.
  unfold or_insert. destruct (contains_key name m) eqn:Hc.
  - apply contains_iter, list_elem_of_fmap in Hc as ([n w] & -> & Hin). exists w. unfold get_all.
    apply list_elem_of_fmap. exists (n, w). split; [done|]. by apply list_elem_of_filter.
  - exists v. rewrite get_all_insert_eq. by left.
Qed.

Lemma or_insert_keeps name v other w m : w ∈ get_all other m -> w ∈ get_all other (or_insert name v m).
Proof.
  unfold or_insert. destruct (contains_key name m) eqn:Hc; [done|]. intros Hin.
  destruct (decide (other = name)) as [-> |Hne]; [|by rewrite get_all_insert_ne]. exfalso.
  unfold get_all in Hin. apply list_elem_of_fmap in Hin as ([n x] & -> & [Hn Hin]%list_elem_of_filter). cbn in Hn. subst n.
  apply not_true_iff_false in Hc. apply Hc, contains_iter, list_elem_of_fmap. by exists (name, x).
Qed.

Lemma get_all_remove_ne name other m : other <> name -> get_all other (headers_remove name m) ≡ₚ get_all other m.
Proof.
  intros Hne. unfold get_all. rewrite (iter_remove name m), list_filter_filter. apply reflexive_eq. f_equal.
  apply list_filter_iff. intros h. naive_solver.
Qed.

Lemma get_all_remove_single name other w m :
  other <> name -> get_all other m = [w] -> get_all other (headers_remove name m) = [w].
Proof. intros Hne Hm. apply Permutation_singleton_r. by rewrite get_all_remove_ne, Hm. Qed.
End headers.

(** ** Functions of the documented shape *)

Module Sample.

Record uri := mk_uri { u_scheme : option rstr; u_authority : option rstr; u_path : rstr; u_query : option rstr }.

Definition cut (c : char) (s : rstr) : rstr * option rstr :=
  match split_at_first (fun d => d =? c) s with
  | Some (x, y) => (x, Some (drop 1 y))
  | None => (s, None)
  end.

Definition allowed (c : char) : bool := in_range 33 126 c && negb (bool_decide (c ∈ str "<>{}|^`\")).

Definition path_query (s : rstr) : rstr * option rstr := cut 63 s.

Definition parse (s : rstr) : option uri :=
  if negb (forallb allowed s) || bool_decide (s = []) then None
  else match s with
       | 47 :: _ => let '(p, q) := path_query s in Some (mk_uri None None p q)
       | _ =>
           let '(scheme, rest) := cut 58 s in
           match rest with
           | Some (47 :: 47 :: rest) =>
               let '(auth, tail) :=
                 match split_at_first (fun d => (d =? 47) || (d =? 63)) rest with Some p => p | None => (rest, []) end in
               let '(p, q) := path_query tail in Some (mk_uri (Some scheme) (Some auth) (if decide (p = []) then str "/" else p) q)
           | _ => None
           end
       end.

Definition host_port (a : rstr) : rstr :=
  match cut 64 a with (_, Some h) => h | (h, None) => h end.
Definition host (a : rstr) : rstr :=
  match host_port a with
  | 91 :: r => 91 :: (cut 93 r).1 ++ [93]
  | h => (cut 58 h).1
  end.
Definition port (a : rstr) : option Z :=
  let tail := match host_port a with 91 :: r => default [] (cut 93 r).2 | h => h end in
  p ← (cut 58 tail).2; n ← parse_i64 p; try_unsigned U16_MAX n.

Definition with_query (p : rstr) (q : option rstr) : rstr :=
  p ++ match q with Some q => 63 :: q | None => [] end.

#[export] Instance uris : UriCrate := {|
  Uri := uri;
  uri_parse := parse;
  uri_to_string u := match u_scheme u with Some s => s ++ str "://" | None => [] end ++ default [] (u_authority u) ++ with_query (u_path u) (u_query u);
  scheme_str := u_scheme;
  authority := u_authority;
  authority_host := host;
  authority_port := port;
  uri_host u := host <$> u_authority u;
  port_u16 u := a ← u_authority u; port a;
  uri_path_and_query u := Some (with_query (u_path u) (u_query u));
  uri_path := u_path;
  uri_query := u_query;
|}.

#[export] Instance uris_spec : @UriCrateSpec uris.
Proof. by split. Qed.

Lemma cut_text c s x y : cut c s = (x, y) -> s = x ++ match y with Some y => c :: y | None => [] end /\ (c ∉ x).
Proof.
  unfold cut. destruct (split_at_first _ s) as [[x' y']|] eqn:Hs; intros [= <- <-].
  - apply split_at_first_Some in Hs as (-> & Hx & b & r & -> & Hb%Z.eqb_eq). subst b. split; [done|].
    rewrite Forall_forall in Hx. intros Hc%Hx. by rewrite Z.eqb_refl in Hc.
  - split; [by rewrite app_nil_r|]. revert Hs. induction s as [|d s IH]; cbn; [intros _; apply not_elem_of_nil|].
    destruct (Z.eqb_spec d c); [done|]. destruct (split_at_first _ s); [done|]. intros _. apply not_elem_of_cons. split; [done|by apply IH].
Qed.

(** The parse of an absolute URI. *)
Lemma parse_absolute s u scheme a :
  parse s = Some u -> u_scheme u = Some scheme -> u_authority u = Some a ->
  exists tail path, s = scheme ++ 58 :: 47 :: 47 :: a ++ tail /\ (tail = [] \/ head tail = Some 47 \/ head tail = Some 63) /\
    cut 63 tail = (path, u_query u) /\ u_path u = if decide (path = []) then str "/" else path.
Proof.
  unfold parse. destruct (_ || _); [done|]. intros Hp Hs Ha.
  assert ((let '(scheme, rest) := cut 58 s in
           match rest with
           | Some (47 :: 47 :: rest) =>
               let '(auth, tail) :=
                 match split_at_first (fun d => (d =? 47) || (d =? 63)) rest with Some p => p | None => (rest, []) end in
               let '(p, q) := path_query tail in Some (mk_uri (Some scheme) (Some auth) (if decide (p = []) then str "/" else p) q)
           | _ => None
           end) = Some u) as Hp'.
  { repeat case_match; simplify_eq/=; done. }
  clear Hp. destruct (cut 58 s) as [x y] eqn:Hcut. apply cut_text in Hcut as [-> _]. destruct y as [y|]; [|done].
  assert (exists rest, y = 47 :: 47 :: rest) as [rest ->] by (repeat case_match; simplify_eq/=; by eexists).
  destruct (match split_at_first _ rest with Some p => p | None => (rest, []) end) as [auth tail] eqn:Hsplit.
  unfold path_query in Hp'. destruct (cut 63 tail) as [p q] eqn:Hq. simplify_eq/=. exists tail, p. split_and!; try done.
  - destruct (split_at_first _ rest) as [[x' y']|] eqn:Hf; simplify_eq/=; [by apply split_at_first_Some in Hf as (-> & _)|by rewrite app_nil_r].
  - destruct (split_at_first _ rest) as [[x' y']|] eqn:Hf; simplify_eq/=; [right|by left].
    apply split_at_first_Some in Hf as (_ & _ & b & r & -> & Hb). apply orb_true_iff in Hb as [->%Z.eqb_eq| ->%Z.eqb_eq]; auto.
Qed.

#[export] Instance uris_text : @UriTextSpec uris.
Proof.
  split. cbn. intros s u scheme a Hp _ Hs Ha. destruct (parse_absolute s u scheme a Hp Hs Ha) as (tail & path & -> & Htail & Hcut & Hpath).
  apply cut_text in Hcut as [-> Hno]. exists scheme, path. split_and!; try done. destruct path as [|c path]; [by left|right].
  destruct Htail as [?|[?|Hc]]; [done..|]. injection Hc as ->. by destruct Hno; left.
Qed.

Definition visible (s : list Z) : bool := forallb (fun c => in_range 32 126 c) s.
Definition value (s : list Z) : option HeaderValue := if visible s then Some (mk_header_value s false) else None.

#[export] Instance headers : HeaderCrate := {|
  HeaderMap := list (rstr * HeaderValue);
  headers_new := [];
  headers_insert name v m := (name, v) :: filter (fun h => h.1 <> name) m;
  headers_remove name m := filter (fun h => h.1 <> name) m;
  headers_iter m := m;
  headers_len m := Z.of_nat (length m);
  contains_key name m := bool_decide (name ∈ m.*1);
  value_from_str := value;
  value_from_bytes := value;
  is_success := in_range 200 299;
  is_redirection := in_range 300 399;
  is_server_error := in_range 500 599;
|}.

Lemma value_visible s : Forall (fun c => 32 <= c < 127) s -> value s = Some (mk_header_value s false).
Proof.
  intros Hs. unfold value, visible. rewrite (proj2 (forallb_forall _ s)); [done|].
  intros c Hc. apply in_range_spec. rewrite Forall_forall in Hs. specialize (Hs c). rewrite list_elem_of_In in Hs.
  specialize (Hs Hc). lia.
Qed.

#[export] Instance header_text : HeaderText := fun v => if visible (hv_bytes v) then Some (hv_bytes v) else None.

#[export] Instance header_text_spec : @HeaderTextSpec header_text.
Proof.
  split; unfold value_to_str, header_text.
  - intros v s. by destruct (visible _); [intros [= <-]|].
  - intros v Hv%value_visible. unfold value in Hv. by destruct (visible _).
Qed.

#[export] Instance headers_spec : @HeaderCrateSpec headers.
Proof.
  split; try done; cbn; intros; try by apply value_visible. by rewrite bool_decide_eq_true.
Qed.

End Sample.
