(* ===== verification/Transport.v ===== *)
(** * Transport: the contract of the network transports

    [bondry-transport].  Section [Endpoints] is endpoint.rs, [Policies] policy.rs, [Http]
    http_transport.rs, [WebSocket] the values of websocket.rs, [Local] local.rs.  Addresses
    are their octets.  The traits of network connections have no code here; what an
    implementation must do of [HttpTransport] is in NetTransport.v. *)

From S2P Require Import Prelude Text Bytes HttpLib.

(** ** Text of the standard library *)

(** [str::trim_end_matches(c)], [str::strip_suffix], [str::ends_with]. *)
Fixpoint trim_start_char (c : char) (s : rstr) : rstr :=
  match s with d :: r => if d =? c then trim_start_char c r else s | [] => [] end.
Definition trim_end_char (c : char) (s : rstr) : rstr := reverse (trim_start_char c (reverse s)).
Definition strip_suffix (p s : rstr) : option rstr := reverse <$> strip_prefix (reverse p) (reverse s).
Definition ends_with (p s : rstr) : bool := bool_decide (is_Some (strip_suffix p s)).

(** [str::parse::<u8>]: one leading plus sign is accepted. *)
Fixpoint parse_unsigned (max acc : Z) (s : rstr) : option Z :=
  match s with
  | [] => Some acc
  | c :: r =>
      if is_ascii_digit c then acc ← try_unsigned max (acc * 10); acc ← try_unsigned max (acc + (c - 48)); parse_unsigned max acc r
      else None
  end.
Definition parse_u8 (s : rstr) : option Z :=
  let digits := match s with c :: r => if c =? 43 then r else s | [] => [] end in
  if decide (digits = []) then None else parse_unsigned U8_MAX 0 digits.

(** ** endpoint.rs *)

Definition MAX_NETWORK_ENDPOINT_BYTES : Z := 4 * 1024.

Inductive NetworkScheme := SchemeHttp | SchemeHttps | SchemeWebSocket | SchemeWebSocketSecure.
#[global] Instance NetworkScheme_eq_dec : EqDecision NetworkScheme.
Proof. solve_decision. Defined.

Definition requires_tls (s : NetworkScheme) : bool :=
  match s with SchemeHttps | SchemeWebSocketSecure => true | _ => false end.
Definition default_port (s : NetworkScheme) : Z :=
  match s with SchemeHttp | SchemeWebSocket => 80 | SchemeHttps | SchemeWebSocketSecure => 443 end.
Definition scheme_as_str (s : NetworkScheme) : rstr :=
  match s with
  | SchemeHttp => str "http"
  | SchemeHttps => str "https"
  | SchemeWebSocket => str "ws"
  | SchemeWebSocketSecure => str "wss"
  end.

Inductive EndpointError :=
| EndpointTooLong | EndpointUnsupportedScheme | EndpointMissingAuthority | EndpointUserInformation | EndpointInvalidPort.

Section Endpoints.
  Context `{UriCrate}.

Record NetworkEndpoint := mk_endpoint {
  endpoint_uri : Uri;
  endpoint_scheme : NetworkScheme;
}.

(** The [match] on [uri.scheme_str()]. *)
Definition scheme_of (s : option rstr) : option NetworkScheme :=
  match s with
  | Some s =>
      if decide (s = str "http") then Some SchemeHttp
      else if decide (s = str "https") then Some SchemeHttps
      else if decide (s = str "ws") then Some SchemeWebSocket
      else if decide (s = str "wss") then Some SchemeWebSocketSecure
      else None
  | None => None
  end.

Definition NetworkEndpoint_new (uri : Uri) : result EndpointError NetworkEndpoint :=
  if MAX_NETWORK_ENDPOINT_BYTES <? str_len (uri_to_string uri) then Err EndpointTooLong
  else
    scheme ← ok_or (scheme_of (scheme_str uri)) EndpointUnsupportedScheme;
    auth ← ok_or (authority uri) EndpointMissingAuthority;
    if bool_decide (authority_host auth = []) then Err EndpointMissingAuthority
    else if bool_decide (port_u16 uri = Some 0) then Err EndpointInvalidPort
    else if bool_decide (64 ∈ auth) then Err EndpointUserInformation
    else Ok (mk_endpoint uri scheme).

Definition endpoint_host (e : NetworkEndpoint) : rstr := default [] (uri_host (endpoint_uri e)).
Definition endpoint_port (e : NetworkEndpoint) : Z :=
  default (default_port (endpoint_scheme e)) (port_u16 (endpoint_uri e)).
Definition endpoint_path_and_query (e : NetworkEndpoint) : rstr :=
  default (str "/") (uri_path_and_query (endpoint_uri e)).
Definition redacted_origin (e : NetworkEndpoint) : rstr :=
  let port := match port_u16 (endpoint_uri e) with Some port => str ":" ++ decimal port | None => [] end in
  scheme_as_str (endpoint_scheme e) ++ str "://" ++ endpoint_host e ++ port.

End Endpoints.

(** ** policy.rs *)

Definition MAX_ADDITIONAL_TRUST_ANCHORS : Z := 8.
Definition MAX_ADDITIONAL_TRUST_ANCHOR_BYTES : Z := 16 * 1024.
Definition MAX_ADDITIONAL_TRUST_ANCHOR_AGGREGATE_BYTES : Z := 64 * 1024.

Record AdditionalTrustAnchor := mk_anchor { as_der : list byte }.
#[global] Instance AdditionalTrustAnchor_eq_dec : EqDecision AdditionalTrustAnchor.
Proof. solve_decision. Defined.

Inductive TrustAnchorError := AnchorEmpty | AnchorTooLong.

Definition AdditionalTrustAnchor_from_der (der : list byte) : result TrustAnchorError AdditionalTrustAnchor :=
  if bool_decide (der = []) then Err AnchorEmpty
  else if MAX_ADDITIONAL_TRUST_ANCHOR_BYTES <? Z.of_nat (length der) then Err AnchorTooLong
  else Ok (mk_anchor der).

(** [RedirectPolicy] has the one value [Deny]. *)
Inductive RedirectPolicy := RedirectDeny.
#[global] Instance RedirectPolicy_eq_dec : EqDecision RedirectPolicy.
Proof. solve_decision. Defined.

Record EndpointPolicy := mk_policy {
  allow_hostname_loopback_cleartext : bool;
  allow_private_cleartext : bool;
  allow_link_local_cleartext : bool;
  redirects : RedirectPolicy;
  additional_trust_anchors : list AdditionalTrustAnchor;
}.
#[global] Instance EndpointPolicy_eq_dec : EqDecision EndpointPolicy.
Proof. solve_decision. Defined.

Inductive EndpointPolicyError := TooManyTrustAnchors | TrustAnchorsTooLarge.

Definition EndpointPolicy_default : EndpointPolicy := mk_policy false false false RedirectDeny [].
Definition allowing_hostname_loopback_cleartext (p : EndpointPolicy) : EndpointPolicy :=
  mk_policy true (allow_private_cleartext p) (allow_link_local_cleartext p) (redirects p) (additional_trust_anchors p).
Definition allowing_private_cleartext (p : EndpointPolicy) : EndpointPolicy :=
  mk_policy (allow_hostname_loopback_cleartext p) true (allow_link_local_cleartext p) (redirects p) (additional_trust_anchors p).
Definition allowing_link_local_cleartext (p : EndpointPolicy) : EndpointPolicy :=
  mk_policy (allow_hostname_loopback_cleartext p) (allow_private_cleartext p) true (redirects p) (additional_trust_anchors p).

Definition anchor_bytes (anchors : list AdditionalTrustAnchor) : Z :=
  foldr (fun a total => Z.of_nat (length (as_der a)) + total) 0 anchors.

Definition with_additional_trust_anchor (p : EndpointPolicy) (anchor : AdditionalTrustAnchor)
    : result EndpointPolicyError EndpointPolicy :=
  if Z.of_nat (length (additional_trust_anchors p)) =? MAX_ADDITIONAL_TRUST_ANCHORS then Err TooManyTrustAnchors
  else
    let aggregate_bytes := anchor_bytes (additional_trust_anchors p) in
    if MAX_ADDITIONAL_TRUST_ANCHOR_AGGREGATE_BYTES <? aggregate_bytes + Z.of_nat (length (as_der anchor))
    then Err TrustAnchorsTooLarge
    else Ok (mk_policy (allow_hostname_loopback_cleartext p) (allow_private_cleartext p)
               (allow_link_local_cleartext p) (redirects p) (additional_trust_anchors p ++ [anchor])).

(** The octets in network order: four or sixteen. *)
Inductive IpAddress :=
| V4 (octets : list byte)
| V6 (octets : list byte).
#[global] Instance IpAddress_eq_dec : EqDecision IpAddress.
Proof. solve_decision. Defined.

(** [bytes[i]]. *)
Definition octet (bytes : list byte) (i : nat) : byte := nth i bytes 0.

Definition normalized (a : IpAddress) : IpAddress :=
  match a with
  | V6 bytes =>
      if (octet bytes 0 =? 0) && (octet bytes 1 =? 0) && (octet bytes 2 =? 0) && (octet bytes 3 =? 0) &&
         (octet bytes 4 =? 0) && (octet bytes 5 =? 0) && (octet bytes 6 =? 0) && (octet bytes 7 =? 0) &&
         (octet bytes 8 =? 0) && (octet bytes 9 =? 0) && (octet bytes 10 =? 0xff) && (octet bytes 11 =? 0xff)
      then V4 [octet bytes 12; octet bytes 13; octet bytes 14; octet bytes 15]
      else a
  | V4 _ => a
  end.

Inductive IpAddressClass :=
| Loopback | Private | LinkLocal | CarrierGradeNat | Unspecified | Multicast | Documentation | Reserved | Public.
#[global] Instance IpAddressClass_eq_dec : EqDecision IpAddressClass.
Proof. solve_decision. Defined.

Definition classify_ipv4 (bytes : list byte) : IpAddressClass :=
  let b := octet bytes in
  if b 0%nat =? 127 then Loopback
  else if bool_decide (bytes = [0; 0; 0; 0]) then Unspecified
  else if (b 0%nat =? 10) || ((b 0%nat =? 172) && (16 <=? b 1%nat) && (b 1%nat <=? 31)) ||
          ((b 0%nat =? 192) && (b 1%nat =? 168)) then Private
  else if (b 0%nat =? 169) && (b 1%nat =? 254) then LinkLocal
  else if (b 0%nat =? 100) && (64 <=? b 1%nat) && (b 1%nat <=? 127) then CarrierGradeNat
  else if (224 <=? b 0%nat) && (b 0%nat <=? 239) then Multicast
  else if ((b 0%nat =? 192) && (b 1%nat =? 0) && (b 2%nat =? 2)) ||
          ((b 0%nat =? 198) && (b 1%nat =? 51) && (b 2%nat =? 100)) ||
          ((b 0%nat =? 203) && (b 1%nat =? 0) && (b 2%nat =? 113)) then Documentation
  else if (b 0%nat =? 0) || (240 <=? b 0%nat) ||
          ((b 0%nat =? 192) && (b 1%nat =? 0) && (b 2%nat =? 0)) ||
          ((b 0%nat =? 192) && (b 1%nat =? 88) && (b 2%nat =? 99)) ||
          ((b 0%nat =? 198) && ((b 1%nat =? 18) || (b 1%nat =? 19))) then Reserved
  else Public.

Definition classify_ipv6 (bytes : list byte) : IpAddressClass :=
  let b := octet bytes in
  if bool_decide (bytes = [0; 0; 0; 0; 0; 0; 0; 0; 0; 0; 0; 0; 0; 0; 0; 1]) then Loopback
  else if bool_decide (bytes = replicate 16 0) then Unspecified
  else if Z.land (b 0%nat) 0xfe =? 0xfc then Private
  else if (b 0%nat =? 0xfe) && (Z.land (b 1%nat) 0xc0 =? 0x80) then LinkLocal
  else if b 0%nat =? 0xff then Multicast
  else if ((b 0%nat =? 0x20) && (b 1%nat =? 0x01) && (b 2%nat =? 0x0d) && (b 3%nat =? 0xb8)) ||
          ((b 0%nat =? 0x3f) && (b 1%nat =? 0xff) && (Z.land (b 2%nat) 0xf0 =? 0)) then Documentation
  else if negb (Z.land (b 0%nat) 0xe0 =? 0x20) ||
          ((b 0%nat =? 0x20) && (b 1%nat =? 0x01) && ((b 2%nat =? 0x00) || (b 2%nat =? 0x02))) then Reserved
  else Public.

Definition classify_ip (address : IpAddress) : IpAddressClass :=
  match normalized address with
  | V4 bytes => classify_ipv4 bytes
  | V6 bytes => classify_ipv6 bytes
  end.

Record PeerAddress := mk_peer {
  peer_raw_ip : IpAddress;
  peer_port : Z;
  interface_scope : option Z;
}.

Definition PeerAddress_new (ip : IpAddress) (port : Z) : PeerAddress := mk_peer ip port None.
Definition with_interface_scope (p : PeerAddress) (scope : Z) : PeerAddress :=
  if negb (scope =? 0) then mk_peer (peer_raw_ip p) (peer_port p) (Some scope) else p.
Definition peer_ip (p : PeerAddress) : IpAddress := normalized (peer_raw_ip p).

Record TlsConnectionEvidence := tls_verified { server_name : rstr }.

Inductive ConnectionEvidence :=
| EvidenceMissing
| EvidenceTls (tls : TlsConnectionEvidence)
| EvidenceCleartext (peer : PeerAddress).

Record VerifiedConnection := mk_verified { verified_evidence : ConnectionEvidence }.

Inductive PolicyError :=
| MissingEvidence | EvidenceMismatch | TlsIdentityMismatch | LoopbackIntentRequired | PrivateCleartextDenied
| LinkLocalCleartextDenied | LinkLocalScopeRequired | CleartextDenied | RedirectDenied.
#[global] Instance PolicyError_eq_dec : EqDecision PolicyError.
Proof. solve_decision. Defined.

Definition server_names_match (endpoint verified : rstr) : bool :=
  eq_ignore_ascii_case (trim_end_char 46 endpoint) (trim_end_char 46 verified).

Definition unbracketed_host (host : rstr) : rstr :=
  default host (value ← strip_prefix (str "[") host; strip_suffix (str "]") value).

(** The [for] over the four octets of [canonical_ipv4], with the parts still to come. *)
Fixpoint ipv4_octets (n : nat) (parts : list rstr) : option (list byte * list rstr) :=
  match n with
  | O => Some ([], parts)
  | S n =>
      part ← head parts;
      if bool_decide (part = []) || ((1 <? str_len part) && bool_decide (head part = Some 48)) then None
      else octet ← parse_u8 part; '(octets, rest) ← ipv4_octets n (tail parts); Some (octet :: octets, rest)
  end.

Definition canonical_ipv4 (host : rstr) : option (list byte) :=
  '(address, rest) ← ipv4_octets 4 (split 46 host);
  if decide (rest = []) then Some address else None.

Definition loopback_intent (host : rstr) : bool :=
  let host := unbracketed_host host in
  let hostname := default host (strip_suffix (str ".") host) in
  (negb (ends_with (str ".") hostname) && eq_ignore_ascii_case hostname (str "localhost")) ||
  bool_decide (host = str "::1") ||
  match canonical_ipv4 host with Some address => octet address 0 =? 127 | None => false end.

Definition looks_like_ip_literal (host : rstr) : bool :=
  let host := unbracketed_host host in
  bool_decide (58 ∈ host) || forallb (fun byte => is_ascii_digit byte || (byte =? 46)) (as_bytes host).

Section Policies.
  Context `{UriCrate}.

Definition verify_connection (policy : EndpointPolicy) (endpoint : NetworkEndpoint) (evidence : ConnectionEvidence)
    : result PolicyError VerifiedConnection :=
  if requires_tls (endpoint_scheme endpoint) then
    match evidence with
    | EvidenceTls tls =>
        if negb (server_names_match (endpoint_host endpoint) (server_name tls)) then Err TlsIdentityMismatch
        else Ok (mk_verified evidence)
    | EvidenceMissing => Err MissingEvidence
    | _ => Err EvidenceMismatch
    end
  else
    match evidence with
    | EvidenceCleartext peer =>
        if negb (peer_port peer =? endpoint_port endpoint) then Err EvidenceMismatch
        else match classify_ip (peer_ip peer) with
             | Loopback =>
                 if loopback_intent (endpoint_host endpoint) then Ok (mk_verified evidence)
                 else if allow_hostname_loopback_cleartext policy && negb (looks_like_ip_literal (endpoint_host endpoint))
                 then Ok (mk_verified evidence)
                 else Err LoopbackIntentRequired
             | Private =>
                 if allow_private_cleartext policy then Ok (mk_verified evidence) else Err PrivateCleartextDenied
             | LinkLocal =>
                 if allow_link_local_cleartext policy && bool_decide (is_Some (interface_scope peer)) then Ok (mk_verified evidence)
                 else if allow_link_local_cleartext policy then Err LinkLocalScopeRequired
                 else Err LinkLocalCleartextDenied
             | _ => Err CleartextDenied
             end
    | EvidenceMissing => Err MissingEvidence
    | _ => Err EvidenceMismatch
    end.

Definition verify_redirect (policy : EndpointPolicy) (target : NetworkEndpoint) : result PolicyError unit :=
  Err RedirectDenied.

End Policies.

(** ** http_transport.rs *)

Definition MAX_HTTP_REQUEST_BODY_BYTES : Z := 256 * 1024.
Definition MAX_HTTP_HEADER_BYTES : Z := 16 * 1024.
Definition MAX_HTTP_HEADERS : Z := 64.
Definition MIN_HTTP_RESPONSE_BODY_BYTES : Z := 4 * 1024.
Definition MAX_HTTP_RESPONSE_BODY_BYTES : Z := 1024 * 1024.
Definition DEFAULT_HTTP_RESPONSE_BODY_BYTES : Z := 64 * 1024.

Inductive TransportError :=
| TransportInvalidLimits | TransportUnsupportedEndpoint | TransportRequestTooLarge | TransportResponseTooLarge
| TransportPolicy (e : PolicyError) | TransportDeadlineExceeded | TransportConnectionFailed | TransportTlsFailed
| TransportInvalidResponse | TransportInvalidMessage.
#[global] Instance TransportError_eq_dec : EqDecision TransportError.
Proof. solve_decision. Defined.

Record HttpLimits := mk_http_limits { max_response_body_bytes : Z }.

Definition HttpLimits_new (max_response_body_bytes : Z) : result TransportError HttpLimits :=
  if (max_response_body_bytes <? MIN_HTTP_RESPONSE_BODY_BYTES) || (MAX_HTTP_RESPONSE_BODY_BYTES <? max_response_body_bytes)
  then Err TransportInvalidLimits
  else Ok (mk_http_limits max_response_body_bytes).
Definition HttpLimits_default : HttpLimits := mk_http_limits DEFAULT_HTTP_RESPONSE_BODY_BYTES.

Section Http.
  Context `{UriCrate} `{HeaderCrate}.

(** The [fold] of [validate_headers], in [usize]. *)
Definition header_bytes (headers : HeaderMap) : Z :=
  foldl (fun total h => sat_add USIZE_MAX (sat_add USIZE_MAX (sat_add USIZE_MAX total (str_len h.1))
                          (Z.of_nat (length (hv_bytes h.2)))) 4) 0 (headers_iter headers).

Definition validate_headers (headers : HeaderMap) (overflow : TransportError) : result TransportError unit :=
  if MAX_HTTP_HEADERS <? headers_len headers then Err overflow
  else if MAX_HTTP_HEADER_BYTES <? header_bytes headers then Err overflow
  else Ok ().

(** [Method] is its name, [Deadline] an instant; [HttpRequestParts] has the same fields. *)
Record HttpRequest := mk_http_request {
  rq_method : rstr;
  rq_endpoint : NetworkEndpoint;
  rq_headers : HeaderMap;
  rq_body : list byte;
  rq_deadline : Z;
  rq_policy : EndpointPolicy;
  rq_limits : HttpLimits;
}.

Definition HttpRequest_new (method : rstr) (endpoint : NetworkEndpoint) (headers : HeaderMap) (body : list byte)
    (deadline : Z) (policy : EndpointPolicy) (limits : HttpLimits) : result TransportError HttpRequest :=
  match endpoint_scheme endpoint with
  | SchemeHttp | SchemeHttps =>
      if MAX_HTTP_REQUEST_BODY_BYTES <? Z.of_nat (length body) then Err TransportRequestTooLarge
      else _ ← validate_headers headers TransportRequestTooLarge;
           Ok (mk_http_request method endpoint headers body deadline policy limits)
  | _ => Err TransportUnsupportedEndpoint
  end.

Record HttpResponse := mk_http_response {
  rs_status : Z;
  rs_headers : HeaderMap;
  rs_body : list byte;
  rs_connection : VerifiedConnection;
}.

Definition HttpResponse_new (status : Z) (headers : HeaderMap) (body : list byte) (connection : VerifiedConnection)
    (limits : HttpLimits) : result TransportError HttpResponse :=
  _ ← validate_headers headers TransportResponseTooLarge;
  if max_response_body_bytes limits <? Z.of_nat (length body) then Err TransportResponseTooLarge
  else Ok (mk_http_response status headers body connection).

(** ** websocket.rs *)

Definition MAX_CONTROL_PAYLOAD_BYTES : Z := 125.
Definition MAX_CLOSE_REASON_BYTES : Z := MAX_CONTROL_PAYLOAD_BYTES - 2.

Record WebSocketRequest := mk_websocket_request {
  ws_endpoint : NetworkEndpoint;
  ws_headers : HeaderMap;
  ws_deadline : Z;
  ws_policy : EndpointPolicy;
  ws_max_message_bytes : Z;
}.

Definition WebSocketRequest_new (endpoint : NetworkEndpoint) (headers : HeaderMap) (deadline : Z)
    (policy : EndpointPolicy) (max_message_bytes : Z) : result TransportError WebSocketRequest :=
  match endpoint_scheme endpoint with
  | SchemeWebSocket | SchemeWebSocketSecure =>
      if max_message_bytes =? 0 then Err TransportInvalidLimits
      else _ ← validate_headers headers TransportRequestTooLarge;
           Ok (mk_websocket_request endpoint headers deadline policy max_message_bytes)
  | _ => Err TransportUnsupportedEndpoint
  end.

End Http.

Inductive WebSocketMessageKind := WsText | WsBinary.
Record WebSocketMessage := mk_ws_message { ws_kind : WebSocketMessageKind; ws_payload : list byte }.

Definition WebSocketMessage_text (payload : list byte) : result TransportError WebSocketMessage :=
  _ ← ok_or (from_utf8 payload) TransportInvalidMessage; Ok (mk_ws_message WsText payload).
Definition WebSocketMessage_binary (payload : list byte) : WebSocketMessage := mk_ws_message WsBinary payload.

Record WebSocketControlPayload := mk_ws_control { ws_control : list byte }.
Definition WebSocketControlPayload_new (payload : list byte) : result TransportError WebSocketControlPayload :=
  if MAX_CONTROL_PAYLOAD_BYTES <? Z.of_nat (length payload) then Err TransportInvalidMessage
  else Ok (mk_ws_control payload).

Definition valid_close_code (code : Z) : bool :=
  in_range 1000 4999 code && negb (in_range 1004 1006 code || (code =? 1015)).

Record WebSocketClose := mk_ws_close { ws_code : Z; ws_reason : list byte }.
Definition WebSocketClose_new (code : Z) (reason : list byte) : result TransportError WebSocketClose :=
  if negb (valid_close_code code) || (MAX_CLOSE_REASON_BYTES <? Z.of_nat (length reason)) ||
     bool_decide (from_utf8 reason = None)
  then Err TransportInvalidMessage
  else Ok (mk_ws_close code reason).

Inductive WebSocketEvent :=
| WsMessage (m : WebSocketMessage)
| WsPing (p : WebSocketControlPayload)
| WsPong (p : WebSocketControlPayload)
| WsClose (c : option WebSocketClose).

(** ** local.rs *)

Inductive LocalEndpoint :=
| LocalUnix (path : rstr)
| LocalNamedPipe (name : rstr).

Record UnixSocketPolicy := mk_unix_policy {
  expected_owner_user_id : Z;
  expected_owner_group_id : option Z;
  forbidden_mode_bits : Z;
  expected_peer_user_id : Z;
  expected_peer_group_id : option Z;
}.

Definition UnixSocketPolicy_new (owner_user_id forbidden_mode_bits peer_user_id : Z) : UnixSocketPolicy :=
  mk_unix_policy owner_user_id None forbidden_mode_bits peer_user_id None.
Definition requiring_owner_group (p : UnixSocketPolicy) (group_id : Z) : UnixSocketPolicy :=
  mk_unix_policy (expected_owner_user_id p) (Some group_id) (forbidden_mode_bits p) (expected_peer_user_id p)
    (expected_peer_group_id p).
Definition requiring_peer_group (p : UnixSocketPolicy) (group_id : Z) : UnixSocketPolicy :=
  mk_unix_policy (expected_owner_user_id p) (expected_owner_group_id p) (forbidden_mode_bits p)
    (expected_peer_user_id p) (Some group_id).

Inductive LocalPeerEvidence :=
| EvidenceUnix (owner_user_id owner_group_id mode peer_user_id : Z) (peer_group_id : option Z)
| EvidenceNamedPipeReserved.

Inductive LocalEndpointPolicy :=
| LocalPolicyUnix (policy : UnixSocketPolicy)
| LocalPolicyNamedPipeReserved.

Inductive LocalTransportError :=
| LocalUnsupportedEndpoint | LocalEvidenceMismatch | OwnershipRejected | ModeRejected | PeerCredentialRejected
| LocalUnavailable | LocalDeadlineExceeded | LocalInvalidReadBound.
#[global] Instance LocalTransportError_eq_dec : EqDecision LocalTransportError.
Proof. solve_decision. Defined.

Record VerifiedLocalConnection := mk_verified_local { local_evidence : LocalPeerEvidence }.

(** [UnixSocketPolicy::verify]. *)
Definition verify_unix_socket (p : UnixSocketPolicy) (evidence : LocalPeerEvidence)
    : result LocalTransportError VerifiedLocalConnection :=
  match evidence with
  | EvidenceUnix owner_user_id owner_group_id mode peer_user_id peer_group_id =>
      if negb (owner_user_id =? expected_owner_user_id p) ||
         match expected_owner_group_id p with Some expected => negb (expected =? owner_group_id) | None => false end
      then Err OwnershipRejected
      else if negb (Z.land mode (forbidden_mode_bits p) =? 0) then Err ModeRejected
      else if negb (peer_user_id =? expected_peer_user_id p) ||
              match expected_peer_group_id p with
              | Some expected => negb (bool_decide (Some expected = peer_group_id))
              | None => false
              end
      then Err PeerCredentialRejected
      else Ok (mk_verified_local evidence)
  | EvidenceNamedPipeReserved => Err LocalEvidenceMismatch
  end.

(** ** Address blocks

    The classes of the code, as prefixes of the address's number.  Apart from the local ones,
    which [LOCAL_V4] and [LOCAL_V6] list, they are the code's and not the registries': the code
    has 2001:200::/24 where the registries reserve 2001:2::/48. *)

Definition is_octet (b : byte) : Prop := 0 <= b < 256.
Definition ip_wf (a : IpAddress) : Prop :=
  match a with
  | V4 bytes => length bytes = 4%nat /\ Forall is_octet bytes
  | V6 bytes => length bytes = 16%nat /\ Forall is_octet bytes
  end.

Definition be_value (bytes : list byte) : Z := foldl (fun acc b => acc * 256 + b) 0 bytes.

(** The first [bits] bits of the two addresses agree. *)
Definition in_block (bytes base : list byte) (bits : Z) : bool :=
  let rest := 2 ^ (8 * Z.of_nat (length bytes) - bits) in be_value bytes / rest =? be_value base / rest.

Definition block : Type := IpAddressClass * list byte * Z.
Fixpoint class_in (blocks : list block) (otherwise : IpAddressClass) (bytes : list byte) : IpAddressClass :=
  match blocks with
  | [] => otherwise
  | (class, base, bits) :: blocks => if in_block bytes base bits then class else class_in blocks otherwise bytes
  end.

Definition V4_BLOCKS : list block := [
  (Loopback, [127; 0; 0; 0], 8); (Unspecified, [0; 0; 0; 0], 32);
  (Private, [10; 0; 0; 0], 8); (Private, [172; 16; 0; 0], 12); (Private, [192; 168; 0; 0], 16);
  (LinkLocal, [169; 254; 0; 0], 16); (CarrierGradeNat, [100; 64; 0; 0], 10); (Multicast, [224; 0; 0; 0], 4);
  (Documentation, [192; 0; 2; 0], 24); (Documentation, [198; 51; 100; 0], 24); (Documentation, [203; 0; 113; 0], 24);
  (Reserved, [0; 0; 0; 0], 8); (Reserved, [240; 0; 0; 0], 4); (Reserved, [192; 0; 0; 0], 24);
  (Reserved, [192; 88; 99; 0], 24); (Reserved, [198; 18; 0; 0], 15)].

(** Two bytes, then zeroes. *)
Definition v6_base (a b c d : Z) : list byte := [a; b; c; d; 0; 0; 0; 0; 0; 0; 0; 0; 0; 0; 0; 0].
Definition MAPPED_BASE : list byte := [0; 0; 0; 0; 0; 0; 0; 0; 0; 0; 0xff; 0xff; 0; 0; 0; 0].

Definition V6_BLOCKS : list block := [
  (Loopback, [0; 0; 0; 0; 0; 0; 0; 0; 0; 0; 0; 0; 0; 0; 0; 1], 128); (Unspecified, v6_base 0 0 0 0, 128);
  (Private, v6_base 0xfc 0 0 0, 7); (LinkLocal, v6_base 0xfe 0x80 0 0, 10); (Multicast, v6_base 0xff 0 0 0, 8);
  (Documentation, v6_base 0x20 0x01 0x0d 0xb8, 32); (Documentation, v6_base 0x3f 0xff 0 0, 20);
  (Reserved, v6_base 0x20 0x01 0x00 0, 24); (Reserved, v6_base 0x20 0x01 0x02 0, 24); (Public, v6_base 0x20 0 0 0, 3)].

Definition class_by_blocks (a : IpAddress) : IpAddressClass :=
  match a with
  | V4 bytes => class_in V4_BLOCKS Public bytes
  | V6 bytes =>
      if in_block bytes MAPPED_BASE 96 then class_in V4_BLOCKS Public (drop 12 bytes)
      else class_in V6_BLOCKS Reserved bytes
  end.

(** The blocks that may be reached in cleartext, as RFC 1122, 1918, 3927, 4193 and 4291 assign
    them; an IPv4 address mapped to IPv6 is read as itself. *)
Definition LOCAL_V4 : list block := [
  (Loopback, [127; 0; 0; 0], 8); (LinkLocal, [169; 254; 0; 0], 16);
  (Private, [10; 0; 0; 0], 8); (Private, [172; 16; 0; 0], 12); (Private, [192; 168; 0; 0], 16)].
Definition LOCAL_V6 : list block := [
  (Loopback, [0; 0; 0; 0; 0; 0; 0; 0; 0; 0; 0; 0; 0; 0; 0; 1], 128);
  (LinkLocal, v6_base 0xfe 0x80 0 0, 10); (Private, v6_base 0xfc 0 0 0, 7)].

Definition local_in (blocks : list block) (bytes : list byte) (class : IpAddressClass) : bool :=
  existsb (fun '(c, base, bits) => bool_decide (c = class) && in_block bytes base bits) blocks.
Definition local_address (a : IpAddress) (class : IpAddressClass) : bool :=
  match a with
  | V4 bytes => local_in LOCAL_V4 bytes class
  | V6 bytes => if in_block bytes MAPPED_BASE 96 then local_in LOCAL_V4 (drop 12 bytes) class else local_in LOCAL_V6 bytes class
  end.

Lemma be_value_app x y : be_value (x ++ y) = be_value x * 256 ^ Z.of_nat (length y) + be_value y.
Proof.
  unfold be_value. rewrite foldl_app. generalize (foldl (fun acc b => acc * 256 + b) 0 x) as v. clear x.
  induction y as [|b y IH]; intros v; cbn [foldl length]; [simpl; lia|].
  rewrite IH, (IH (0 * 256 + b)), Nat2Z.inj_succ, Z.pow_succ_r by lia. lia.
Qed.

Lemma be_value_bound x : Forall is_octet x -> 0 <= be_value x < 256 ^ Z.of_nat (length x).
Proof.
  induction x as [|b x IH] using rev_ind; intros Hx; [done|].
  apply Forall_app in Hx as [Hx [Hb _]%Forall_cons]. specialize (IH Hx). unfold is_octet in Hb.
  rewrite be_value_app, length_app, Nat.add_1_r, (Nat2Z.inj_succ (length x)), (Z.pow_succ_r 256 (Z.of_nat (length x))) by lia.
  change (be_value [b]) with b. change (256 ^ Z.of_nat (length [b])) with 256. lia.
Qed.

Lemma be_value_inj x y : length x = length y -> Forall is_octet x -> Forall is_octet y -> be_value x = be_value y -> x = y.
Proof.
  revert y. induction x as [|b x IH] using rev_ind; intros y Hl Hx Hy Heq.
  { by destruct y. }
  destruct y as [|c y _] using rev_ind; [rewrite length_app in Hl; simpl in Hl; lia|].
  rewrite !length_app in Hl. simpl in Hl. apply Forall_app in Hx as [Hx [Hb _]%Forall_cons], Hy as [Hy [Hc _]%Forall_cons].
  unfold is_octet in Hb, Hc. rewrite !be_value_app in Heq.
  change (be_value [b]) with b in Heq. change (be_value [c]) with c in Heq. 
  change (256 ^ Z.of_nat (length [b])) with 256 in Heq. change (256 ^ Z.of_nat (length [c])) with 256 in Heq.
  assert (b = c /\ be_value x = be_value y) as [-> Hv] by lia. f_equal. apply IH; [lia|done..].
Qed.

(** The same, octet by octet. *)
Fixpoint prefix_eq (bytes base : list byte) (bits : Z) : bool :=
  match bytes, base with
  | b :: bytes, c :: base =>
      if bits <=? 0 then true
      else if 8 <=? bits then (b =? c) && prefix_eq bytes base (bits - 8)
      else b / 2 ^ (8 - bits) =? c / 2 ^ (8 - bits)
  | _, _ => true
  end.

Lemma be_value_cons b y : be_value (b :: y) = b * 2 ^ (8 * Z.of_nat (length y)) + be_value y.
Proof.
  change (b :: y) with ([b] ++ y). rewrite be_value_app. change (be_value [b]) with b.
  by rewrite (Z.pow_mul_r 2 8) by lia.
Qed.

Lemma in_block_head b y c y' bits :
  length y = length y' -> Forall is_octet y -> Forall is_octet y' -> 0 <= bits <= 8 ->
  in_block (b :: y) (c :: y') bits = (b / 2 ^ (8 - bits) =? c / 2 ^ (8 - bits)).
Proof.
  intros Hl Hy Hy' Hb. unfold in_block. rewrite !be_value_cons, <-Hl. simpl (length (b :: y)).
  apply be_value_bound in Hy, Hy'. rewrite <-Hl in Hy'. change 256 with (2 ^ 8) in *. rewrite <-Z.pow_mul_r in Hy, Hy' by lia.
  replace (8 * Z.of_nat (S (length y)) - bits) with (8 * Z.of_nat (length y) + (8 - bits)) by lia.
  rewrite Z.pow_add_r, <-!Z.div_div by lia. rewrite !Z.div_add_l, (Z.div_small (be_value y)), (Z.div_small (be_value y')) by lia.
  by rewrite !Z.add_0_r.
Qed.

Lemma in_block_cons b y c y' bits :
  length y = length y' -> Forall is_octet y -> Forall is_octet y' -> 8 <= bits <= 8 + 8 * Z.of_nat (length y) ->
  in_block (b :: y) (c :: y') bits = (b =? c) && in_block y y' (bits - 8).
Proof.
  intros Hl Hy Hy' Hb. unfold in_block. rewrite !be_value_cons, <-Hl. simpl (length (b :: y)).
  apply be_value_bound in Hy, Hy'. rewrite <-Hl in Hy'. change 256 with (2 ^ 8) in *. rewrite <-Z.pow_mul_r in Hy, Hy' by lia.
  replace (8 * Z.of_nat (S (length y)) - bits) with (8 * Z.of_nat (length y) - (bits - 8)) by lia.
  set (r := 8 * Z.of_nat (length y) - (bits - 8)).
  assert (2 ^ (8 * Z.of_nat (length y)) = 2 ^ (bits - 8) * 2 ^ r) as HK
    by (rewrite <-Z.pow_add_r by lia; f_equal; lia).
  rewrite HK in *. rewrite !Z.mul_assoc, !Z.div_add_l by lia. pose proof (Z.pow_pos_nonneg 2 r).
  assert (forall v, 0 <= v < 2 ^ (bits - 8) * 2 ^ r -> 0 <= v / 2 ^ r < 2 ^ (bits - 8)) as Hq.
  { intros v Hv. split; [apply Z.div_pos; lia|]. apply Z.div_lt_upper_bound; lia. }
  apply Hq in Hy, Hy'. apply eq_true_iff_eq. rewrite andb_true_iff, !Z.eqb_eq. split.
  - intros Heq. apply (Z.div_mod_unique (2 ^ (bits - 8))); [by left|by left|lia].
  - by intros [-> ->].
Qed.

Lemma in_block_prefix bytes base bits :
  length bytes = length base -> Forall is_octet bytes -> Forall is_octet base ->
  0 <= bits <= 8 * Z.of_nat (length bytes) -> in_block bytes base bits = prefix_eq bytes base bits.
Proof.
  revert base bits. induction bytes as [|b y IH]; intros [|c y'] bits Hl Hy Hy' Hb; try done.
  injection Hl as Hl. pose proof Hy as Hby. pose proof Hy' as Hcy.
  apply Forall_cons in Hy as [_ Hy], Hy' as [_ Hy']. simpl (length _) in Hb. cbn [prefix_eq].
  destruct (Z.leb_spec bits 0) as [Hz|Hne].
  { assert (bits = 0) as -> by lia. unfold in_block. rewrite Z.sub_0_r, Z.pow_mul_r by lia. pose proof (be_value_bound (b :: y)). pose proof (be_value_bound (c :: y')).
    simpl (length _) in *. rewrite <-Hl in *. rewrite !Z.div_small by naive_solver. done. }
  destruct (Z.leb_spec 8 bits) as [Hge|Hlt].
  - rewrite in_block_cons, IH by (done || lia). done.
  - apply in_block_head; [done..|lia].
Qed.

(** A fact of octets is checked on all of them. *)
Lemma octet_check (f : Z -> bool) : forallb f (seqZ 0 256) = true -> forall b, is_octet b -> f b = true.
Proof.
  intros Hf b Hb. apply (proj1 (forallb_forall _ _) Hf). apply list_elem_of_In, elem_of_seqZ. unfold is_octet in Hb. lia.
Qed.

Ltac octets := first [done | repeat constructor; unfold is_octet; lia | simpl; lia].

Ltac eval_prefix :=
  repeat match goal with
  | |- context [prefix_eq ?x ?y ?n] =>
      let t := eval cbv -[Z.div Z.eqb andb] in (prefix_eq x y n) in change (prefix_eq x y n) with t
  end.

Lemma if_orb {A} (x y : bool) (p q : A) : (if x || y then p else q) = if x then p else if y then p else q.
Proof. by destruct x. Qed.

Lemma range_div b lo hi n : 0 < n -> lo mod n = 0 -> hi = lo + n - 1 -> (b / n =? lo / n) = (lo <=? b) && (b <=? hi).
Proof.
  intros Hn Hlo ->. apply eq_true_iff_eq. rewrite andb_true_iff, Z.eqb_eq, !Z.leb_le.
  pose proof (Z.div_mod lo n). pose proof (Z.div_mod b n). pose proof (Z.mod_pos_bound b n). split; [nia|]. intros Hb. nia.
Qed.

Lemma v4_class_blocks bytes :
  length bytes = 4%nat -> Forall is_octet bytes -> classify_ipv4 bytes = class_in V4_BLOCKS Public bytes.
Proof.
  intros Hl Hb. destruct bytes as [|a [|b [|c [|d [|]]]]]; try done.
  unfold V4_BLOCKS. cbn [class_in]. rewrite !in_block_prefix by octets. eval_prefix.
  repeat setoid_rewrite Forall_cons in Hb. unfold is_octet in Hb.
  rewrite (range_div b 16 31), (range_div b 64 127), (range_div a 224 239), (range_div a 240 255), (range_div b 18 19) by (done || lia).
  replace ((240 <=? a) && (a <=? 255)) with (240 <=? a) by lia.
  replace ((18 <=? b) && (b <=? 19)) with ((b =? 18) || (b =? 19)) by lia.
  unfold classify_ipv4, octet. cbn [nth].
  rewrite !if_orb, !andb_true_r, <-!andb_assoc.
  replace (bool_decide _) with ((a =? 0) && ((b =? 0) && ((c =? 0) && (d =? 0)))); [done|].
  apply eq_true_iff_eq. rewrite bool_decide_eq_true, !andb_true_iff, !Z.eqb_eq. split; [by intros (-> & -> & -> & ->)|by intros [= -> -> -> ->]].
Qed.

Lemma bool_decide_cons (b c : Z) x y : bool_decide (b :: x = c :: y) = (b =? c) && bool_decide (x = y).
Proof.
  apply eq_true_iff_eq. rewrite andb_true_iff, !bool_decide_eq_true, Z.eqb_eq.
  split; [by intros [= -> ->]|by intros [-> ->]].
Qed.

(** The masks of [classify_ipv6]. *)
Lemma land_masks b : is_octet b ->
  (Z.land b 0xfe =? 0xfc) = (b / 2 =? 0xfc / 2) /\ (Z.land b 0xc0 =? 0x80) = (b / 64 =? 0x80 / 64) /\
  (Z.land b 0xf0 =? 0) = (b / 16 =? 0 / 16) /\ (Z.land b 0xe0 =? 0x20) = (b / 32 =? 0x20 / 32).
Proof.
  intros Hb. assert (forall x y : bool, eqb x y = true -> x = y) as He by (by intros [] []).
  split_and!; apply He; revert b Hb; apply octet_check; by vm_compute.
Qed.

Lemma v6_class_blocks bytes :
  length bytes = 16%nat -> Forall is_octet bytes -> classify_ipv6 bytes = class_in V6_BLOCKS Reserved bytes.
Proof.
  intros Hl Hb.
  destruct bytes as [|b0 [|b1 [|b2 [|b3 [|b4 [|b5 [|b6 [|b7 [|b8 [|b9 [|b10 [|b11 [|b12 [|b13 [|b14 [|b15 [|]]]]]]]]]]]]]]]]];
    try done.
  unfold V6_BLOCKS, v6_base. cbn [class_in]. rewrite !in_block_prefix by octets.
  pose proof Hb as Hb'. apply Forall_cons in Hb' as [H0 [H1 [H2 _]%Forall_cons]%Forall_cons].
  unfold classify_ipv6, octet. cbn [nth].
  destruct (land_masks b0 H0) as (-> & _ & _ & ->). destruct (land_masks b1 H1) as (_ & -> & _ & _).
  destruct (land_masks b2 H2) as (_ & _ & -> & _).
  eval_prefix. simpl (replicate 16 0). rewrite !bool_decide_cons, bool_decide_true by done.
  rewrite !andb_orb_distrib_r, !if_orb, !andb_true_r, <-!andb_assoc.
  do 7 (case_match; [done|]). destruct (b0 / 32 =? _); repeat case_match; done.
Qed.

(** The code classifies by the blocks. *)
Lemma classify_ip_blocks a : ip_wf a -> classify_ip a = class_by_blocks a.
Proof.
  destruct a as [bytes|bytes]; intros [Hl Hb]; [by apply v4_class_blocks|].
  unfold classify_ip, class_by_blocks, normalized. rewrite in_block_prefix by octets.
  destruct bytes as [|b0 [|b1 [|b2 [|b3 [|b4 [|b5 [|b6 [|b7 [|b8 [|b9 [|b10 [|b11 [|b12 [|b13 [|b14 [|b15 [|]]]]]]]]]]]]]]]]];
    try done.
  unfold MAPPED_BASE. eval_prefix. unfold octet. cbn [nth]. rewrite andb_true_r, <-!andb_assoc. destruct (_ && _).
  - apply v4_class_blocks; [done|]. by apply (Forall_drop is_octet 12) in Hb.
  - by apply v6_class_blocks.
Qed.

(** Of the classes of the code, the local ones are those blocks. *)
Definition is_local (class : IpAddressClass) : bool := match class with Loopback | Private | LinkLocal => true | _ => false end.

(** Evaluates the comparisons of classes that are known. *)
Ltac decide_classes := repeat match goal with
  | |- context [bool_decide (?x = ?y :> IpAddressClass)] => change (bool_decide (x = y)) with false || change (bool_decide (x = y)) with true
  end.

Lemma v4_local bytes class :
  length bytes = 4%nat -> Forall is_octet bytes -> is_local class = true ->
  local_in LOCAL_V4 bytes class = bool_decide (class_in V4_BLOCKS Public bytes = class).
Proof.
  intros Hl Hb Hc. destruct bytes as [|a [|b [|c [|d [|]]]]]; try done. unfold local_in, LOCAL_V4, V4_BLOCKS. cbn [class_in existsb].
  rewrite !in_block_prefix by octets. eval_prefix. clear Hl Hb. destruct class; try done; clear Hc.
  all: decide_classes.
  all: repeat case_match; first [rewrite bool_decide_true by done|rewrite bool_decide_false by done]; lia.
Qed.

Lemma v6_local bytes class :
  length bytes = 16%nat -> Forall is_octet bytes -> is_local class = true ->
  local_in LOCAL_V6 bytes class = bool_decide (class_in V6_BLOCKS Reserved bytes = class).
Proof.
  intros Hl Hb Hc.
  destruct bytes as [|b0 [|b1 [|b2 [|b3 [|b4 [|b5 [|b6 [|b7 [|b8 [|b9 [|b10 [|b11 [|b12 [|b13 [|b14 [|b15 [|]]]]]]]]]]]]]]]]];
    try done.
  unfold local_in, LOCAL_V6, V6_BLOCKS, v6_base. cbn [class_in existsb]. rewrite !in_block_prefix by octets. eval_prefix.
  clear Hl Hb. destruct class; try done; clear Hc.
  all: decide_classes.
  all: repeat case_match; first [rewrite bool_decide_true by done|rewrite bool_decide_false by done]; first [lia|Z.to_euclidean_division_equations; lia].
Qed.

Lemma local_address_class a class :
  ip_wf a -> is_local class = true -> local_address a class = bool_decide (class_by_blocks a = class).
Proof.
  destruct a as [bytes|bytes]; intros [Hl Hb] Hc; cbn [local_address class_by_blocks]; [by apply v4_local|].
  destruct (in_block bytes MAPPED_BASE 96); [apply v4_local; [by rewrite length_drop, Hl|by apply Forall_drop|done]|by apply v6_local].
Qed.

Lemma normalized_idemp a : normalized (normalized a) = normalized a.
Proof. destruct a as [bytes|bytes]; [done|]. unfold normalized at 2 3. case_match; [done|]. unfold normalized. by case_match. Qed.

(** ** Hosts *)

Lemma strip_suffix_Some p s t : strip_suffix p s = Some t <-> s = t ++ p.
Proof.
  unfold strip_suffix. rewrite fmap_Some. setoid_rewrite strip_prefix_Some. split.
  - intros (x & Hx & ->). apply (f_equal reverse) in Hx. rewrite reverse_involutive, reverse_app, reverse_involutive in Hx. done.
  - intros ->. exists (reverse t). by rewrite reverse_app, reverse_involutive.
Qed.

Lemma strip_suffix_None p s : strip_suffix p s = None <-> forall t, s <> t ++ p.
Proof.
  rewrite eq_None_not_Some. split.
  - intros Hn t ->. apply Hn. exists t. by apply strip_suffix_Some.
  - intros Hn [t Ht%strip_suffix_Some]. by apply (Hn t).
Qed.

#[local] Abbreviation lower s := (@fmap list _ Z Z ascii_lower s).

Lemma eq_ignore_spec s t : eq_ignore_ascii_case s t = true <-> lower s = lower t.
Proof. apply bool_decide_eq_true. Qed.

(** Characters that are no letters are found in the lower-case text where they were. *)
Lemma ascii_lower_fixed c d : ~ (65 <= d <= 90 \/ 97 <= d <= 122) -> ascii_lower c = d <-> c = d.
Proof. intros Hd. unfold ascii_lower, in_range. destruct (Z.leb_spec 65 c), (Z.leb_spec c 90); simpl; lia. Qed.

Lemma ascii_lower_idemp c : ascii_lower (ascii_lower c) = ascii_lower c.
Proof.
  unfold ascii_lower at 2 3. destruct (in_range 65 90 c) eqn:Hc; unfold ascii_lower; [|by rewrite Hc].
  apply in_range_spec in Hc. unfold in_range. rewrite (proj2 (Z.leb_gt (c + 32) 90)) by lia. by rewrite andb_false_r.
Qed.

Lemma lower_idemp s : lower (lower s) = lower s.
Proof. rewrite <-list_fmap_compose. apply list_fmap_ext. intros i c _. apply ascii_lower_idemp. Qed.

Definition no_letter (c : Z) : Prop := ~ (65 <= c <= 90 \/ 97 <= c <= 122).

Lemma lower_eq_fixed s t : Forall no_letter t -> lower s = t <-> s = t.
Proof.
  intros Ht. revert s. induction Ht as [|d t Hd _ IH]; intros [|c s]; try done. simpl. split; intros [= Hc Hs].
  - apply (ascii_lower_fixed c d) in Hc as ->; [|done]. apply IH in Hs as ->. done.
  - subst. f_equal; [by apply (ascii_lower_fixed d d)|by apply IH].
Qed.

Lemma lower_app_fixed s t u : Forall no_letter u -> lower s = t ++ u -> exists r, s = r ++ u /\ lower r = t.
Proof.
  intros Hu (r & v & Hr & Hv & ->)%fmap_app_inv. symmetry in Hv. apply lower_eq_fixed in Hv as ->; [|done]. by exists r.
Qed.

Lemma strip_suffix_lower p s : Forall no_letter p -> strip_suffix p (lower s) = (fun t => lower t) <$> strip_suffix p s.
Proof.
  intros Hp. destruct (strip_suffix p s) as [t|] eqn:Hs; simpl.
  - apply strip_suffix_Some in Hs as ->. apply strip_suffix_Some. rewrite fmap_app. f_equal. by apply lower_eq_fixed.
  - apply strip_suffix_None. rewrite strip_suffix_None in Hs. intros t Ht.
    apply lower_app_fixed in Ht as (r & -> & _); [|done]. by apply (Hs r).
Qed.

Lemma strip_prefix_lower p s : Forall no_letter p -> strip_prefix p (lower s) = (fun t => lower t) <$> strip_prefix p s.
Proof.
  intros Hp. revert s. induction Hp as [|d p Hd _ IH]; intros [|c s]; try done. simpl.
  pose proof (ascii_lower_fixed c d Hd) as Hc.
  destruct (Z.eqb_spec d (ascii_lower c)), (Z.eqb_spec d c); try done; naive_solver.
Qed.

(** *** Case does not matter *)

Lemma trim_end_char_lower s : trim_end_char 46 (lower s) = lower (trim_end_char 46 s).
Proof.
  unfold trim_end_char. rewrite <-(fmap_reverse _ s), (fmap_reverse _ (trim_start_char 46 (reverse s))). f_equal. generalize (reverse s) as r. clear s.
  induction r as [|c r IH]; [done|]. simpl. pose proof (ascii_lower_fixed c 46 ltac:(lia)) as Hc.
  destruct (Z.eqb_spec (ascii_lower c) 46), (Z.eqb_spec c 46); try done; naive_solver.
Qed.

Lemma unbracketed_lower h : unbracketed_host (lower h) = lower (unbracketed_host h).
Proof.
  unfold unbracketed_host. rewrite strip_prefix_lower by (repeat constructor; unfold no_letter; simpl; lia).
  destruct (strip_prefix (str "[") h) as [r|]; [|done]. simpl.
  rewrite strip_suffix_lower by (repeat constructor; unfold no_letter; simpl; lia). by destruct (strip_suffix _ r).
Qed.

Lemma split_lower s : split 46 (lower s) = (fun p : rstr => lower p) <$> split 46 s.
Proof.
  induction s as [|c s IH]; [done|]. rewrite fmap_cons. cbn [split]. pose proof (ascii_lower_fixed c 46 ltac:(lia)) as Hc. rewrite IH.
  destruct (Z.eqb_spec (ascii_lower c) 46), (Z.eqb_spec c 46); try (exfalso; naive_solver); [done|].
  by destruct (split 46 s).
Qed.

Lemma digit_lower c : is_ascii_digit (ascii_lower c) = is_ascii_digit c.
Proof. unfold ascii_lower. destruct (in_range 65 90 c) eqn:Hc; [|done]. apply in_range_spec in Hc. unfold is_ascii_digit, in_range. lia. Qed.

Lemma digit_lower_fixed c : is_ascii_digit c = true -> ascii_lower c = c.
Proof. intros Hc%is_ascii_digit_spec. apply (ascii_lower_fixed c c); lia. Qed.

Lemma parse_u8_lower s : parse_u8 (lower s) = parse_u8 s.
Proof.
  assert (forall max acc s, parse_unsigned max acc (lower s) = parse_unsigned max acc s) as Hp.
  { clear. intros max acc s. revert acc. induction s as [|c s IH]; intros acc; [done|]. rewrite fmap_cons. cbn [parse_unsigned].
    rewrite digit_lower. destruct (is_ascii_digit c) eqn:Hc; [|done]. rewrite digit_lower_fixed by done.
    destruct (try_unsigned max (acc * 10)) as [a|]; [|done]. simpl. destruct (try_unsigned max _) as [b|]; [|done]. apply IH. }
  unfold parse_u8. destruct s as [|c s]; [done|]. rewrite fmap_cons. pose proof (ascii_lower_fixed c 43 ltac:(lia)) as Hc.
  destruct (Z.eqb_spec (ascii_lower c) 43), (Z.eqb_spec c 43); try (exfalso; naive_solver).
  - destruct s; [done|]. rewrite !decide_False by done. apply Hp.
  - rewrite !decide_False by done. apply (Hp _ _ (c :: s)).
Qed.

Lemma str_len_lower s : str_len (lower s) = str_len s.
Proof.
  induction s as [|c s IH]; [done|]. rewrite fmap_cons. cbn [str_len]. rewrite IH. f_equal. unfold ascii_lower.
  destruct (in_range 65 90 c) eqn:Hc; [|done]. apply in_range_spec in Hc. unfold len_utf8. by rewrite !(proj2 (Z.ltb_lt _ 0x80)) by lia.
Qed.

Definition lower_parts (parts : list rstr) : list rstr := (fun p => lower p) <$> parts.

Lemma ipv4_octets_lower n (parts : list rstr) :
  ipv4_octets n (lower_parts parts) = prod_map id lower_parts <$> ipv4_octets n parts.
Proof.
  revert parts. induction n as [|n IH]; intros parts; [done|]. destruct parts as [|p parts]; [done|].
  change (lower_parts (p :: parts)) with (lower p :: lower_parts parts). cbn [ipv4_octets head tail mbind option_bind].
  rewrite str_len_lower, parse_u8_lower.
  replace (bool_decide (lower p = [])) with (bool_decide (p = [])) by (by destruct p).
  replace (bool_decide (head (lower p) = Some 48)) with (bool_decide (head p = Some 48)).
  2: { apply bool_decide_ext. destruct p as [|c p]; [done|]. simpl. rewrite !(inj_iff Some). symmetry. apply ascii_lower_fixed. lia. }
  case_match; [done|]. destruct (parse_u8 p) as [o|]; [|done]. simpl. rewrite IH. by destruct (ipv4_octets n parts) as [[os rest]|].
Qed.

Lemma canonical_ipv4_lower h : canonical_ipv4 (lower h) = canonical_ipv4 h.
Proof.
  unfold canonical_ipv4. rewrite split_lower. fold (lower_parts (split 46 h)). rewrite ipv4_octets_lower.
  destruct (ipv4_octets 4 (split 46 h)) as [[os rest]|]; [|done]. simpl. by destruct rest.
Qed.

Lemma loopback_intent_lower h : loopback_intent (lower h) = loopback_intent h.
Proof.
  unfold loopback_intent. rewrite unbracketed_lower. set (u := unbracketed_host h).
  rewrite strip_suffix_lower by (repeat constructor; unfold no_letter; simpl; lia).
  replace (default (lower u) ((fun t => lower t) <$> strip_suffix (str ".") u)) with (lower (default u (strip_suffix (str ".") u)))
    by (by destruct (strip_suffix (str ".") u)).
  set (name := default u _). unfold ends_with, eq_ignore_ascii_case.
  rewrite strip_suffix_lower, lower_idemp, canonical_ipv4_lower by (repeat constructor; unfold no_letter; simpl; lia).
  rewrite (bool_decide_ext _ (is_Some (strip_suffix (str ".") name))) by (by rewrite fmap_is_Some).
  rewrite (bool_decide_ext (lower u = str "::1") (u = str "::1")); [done|].
  apply lower_eq_fixed. repeat constructor; unfold no_letter; simpl; lia.
Qed.

Lemma ip_literal_lower h : looks_like_ip_literal (lower h) = looks_like_ip_literal h.
Proof.
  unfold looks_like_ip_literal. rewrite unbracketed_lower. generalize (unbracketed_host h) as u. intros u. f_equal.
  - apply bool_decide_ext. rewrite list_elem_of_fmap. split; [|by exists 58].
    intros (c & Hc & Hin). symmetry in Hc. apply (ascii_lower_fixed c 58) in Hc; [by subst|lia].
  - induction u as [|c u IH]; [done|]. rewrite fmap_cons, !as_bytes_cons, !forallb_app, IH. f_equal.
    unfold ascii_lower. destruct (in_range 65 90 c) eqn:Hc; [|done]. apply in_range_spec in Hc. unfold encode_utf8.
    rewrite !(proj2 (Z.ltb_lt _ 0x80)) by lia. simpl. unfold is_ascii_digit, in_range. lia.
Qed.

(** *** Hosts that mean the machine itself *)

Definition octet_text (p : rstr) (o : Z) : Prop :=
  p <> [] /\ (head p = Some 48 -> str_len p <= 1) /\ parse_u8 p = Some o.

Definition loopback_host (host : rstr) : Prop :=
  let h := unbracketed_host host in
  lower h = str "localhost" \/ lower h = str "localhost." \/ h = str "::1" \/
  exists b c d, Forall2 octet_text (split 46 h) [127; b; c; d].

Lemma ipv4_octets_spec n parts octets rest :
  ipv4_octets n parts = Some (octets, rest) <->
  exists used, parts = used ++ rest /\ Forall2 octet_text used octets /\ length octets = n.
Proof.
  revert parts octets. induction n as [|n IH]; intros parts octets; cbn [ipv4_octets].
  { split; [intros [= <- <-]; by exists []|]. intros (used & -> & Hu & Hl). destruct octets; [|done].
    by apply Forall2_nil_inv_r in Hu as ->. }
  destruct parts as [|p parts]; simpl.
  { split; [done|]. intros (used & Hu & H2 & Hl). destruct used; [|done]. by apply Forall2_nil_inv_l in H2 as ->. }
  assert ((bool_decide (p = []) || ((1 <? str_len p) && bool_decide (head p = Some 48))) = false <->
    p <> [] /\ (head p = Some 48 -> str_len p <= 1)) as Hg.
  { rewrite orb_false_iff, bool_decide_eq_false, andb_false_iff, Z.ltb_ge, bool_decide_eq_false.
    destruct (decide (head p = Some 48)); naive_solver. }
  destruct (_ || _) eqn:Hc.
  { split; [done|]. intros (used & Hu & H2 & Hl). destruct used as [|q used].
    { by apply Forall2_nil_inv_l in H2 as ->. }
    simplify_list_eq. apply Forall2_cons_inv_l in H2 as (o & os & (H1 & H3 & _) & _). naive_solver. }
  destruct (parse_u8 p) as [o|] eqn:Hp; simpl.
  - split.
    + destruct (ipv4_octets n parts) as [[os r]|] eqn:Ho; [|done]. intros [= <- <-].
      apply IH in Ho as (used & -> & H2 & Hl). exists (p :: used). split_and!; [done| |simpl; lia].
      constructor; [|done]. unfold octet_text. naive_solver.
    + intros (used & Hu & H2 & Hl). destruct octets as [|o' os]; [done|].
      apply Forall2_cons_inv_r in H2 as (q & used' & (_ & _ & Hq) & H2 & ->). simplify_list_eq.
      rewrite (proj2 (IH _ os)); [done|]. by exists used'.
  - split; [done|]. intros (used & Hu & H2 & Hl). destruct octets as [|o' os]; [done|].
    apply Forall2_cons_inv_r in H2 as (q & used' & (_ & _ & Hq) & H2 & ->). simplify_list_eq.
Qed.

Lemma canonical_ipv4_spec h octets :
  canonical_ipv4 h = Some octets <-> Forall2 octet_text (split 46 h) octets /\ length octets = 4%nat.
Proof.
  unfold canonical_ipv4. split.
  - destruct (ipv4_octets 4 _) as [[os rest]|] eqn:Ho; [|done]. simpl. case_decide; [|done]. intros [= <-]. subst.
    apply ipv4_octets_spec in Ho as (used & Hs & H2 & Hl). rewrite app_nil_r in Hs. by rewrite Hs.
  - intros [H2 Hl]. rewrite (proj2 (ipv4_octets_spec 4 _ octets [])); [done|].
    exists (split 46 h). by rewrite app_nil_r.
Qed.

Lemma localhost_spec h :
  (let hostname := default h (strip_suffix (str ".") h) in
   negb (ends_with (str ".") hostname) && eq_ignore_ascii_case hostname (str "localhost")) = true <->
  lower h = str "localhost" \/ lower h = str "localhost.".
Proof.
  cbn zeta. rewrite andb_true_iff, eq_ignore_spec, negb_true_iff. unfold ends_with. rewrite bool_decide_eq_false.
  change (lower (str "localhost")) with (str "localhost"). rewrite <-eq_None_not_Some.
  assert (forall t, lower t = str "localhost" -> strip_suffix (str ".") t = None) as Hdot.
  { intros t Ht. apply strip_suffix_None. intros u ->. rewrite fmap_app in Ht. apply (f_equal last) in Ht.
    by rewrite last_app in Ht. }
  destruct (strip_suffix (str ".") h) as [t|] eqn:Hs; simpl.
  - apply strip_suffix_Some in Hs as ->. rewrite fmap_app. change (lower (str ".")) with (str "."). split.
    + intros [_ ->]. by right.
    + intros [Ht|Ht]; [apply (f_equal last) in Ht; by rewrite last_app in Ht|].
      change (str "localhost.") with (str "localhost" ++ str ".") in Ht. apply app_inv_tail in Ht. split; [by apply Hdot|done].
  - split; [by left; tauto|]. intros [Ht|Ht]; [done|].
    change (str "localhost.") with (str "localhost" ++ str ".") in Ht.
    apply lower_app_fixed in Ht as (r & -> & _); [|repeat constructor; unfold no_letter; simpl; lia].
    rewrite strip_suffix_None in Hs. by destruct (Hs r).
Qed.

Lemma loopback_intent_spec host : loopback_intent host = true <-> loopback_host host.
Proof.
  unfold loopback_intent, loopback_host. generalize (unbracketed_host host) as h. intros h.
  rewrite !orb_true_iff, bool_decide_eq_true. pose proof (localhost_spec h) as Hl. cbn zeta in Hl. rewrite Hl.
  assert (match canonical_ipv4 h with Some address => octet address 0 =? 127 | None => false end = true <->
    exists b c d, Forall2 octet_text (split 46 h) [127; b; c; d]) as ->; [|tauto]. split.
  - destruct (canonical_ipv4 h) as [os|] eqn:Ho; [|done]. apply canonical_ipv4_spec in Ho as [H2 Hlen].
    destruct os as [|a [|b [|c [|d [|]]]]]; try done. intros Ha%Z.eqb_eq. change (a = 127) in Ha. subst a. by exists b, c, d.
  - intros (b & c & d & H2). by rewrite (proj2 (canonical_ipv4_spec h [127; b; c; d])).
Qed.

(** A sign makes a host of letters of no address: the part is not the octet's decimal text. *)
Lemma signed_octet_is_loopback : loopback_host (str "127.0.0.+1") /\ looks_like_ip_literal (str "127.0.0.+1") = false.
Proof. split; [apply loopback_intent_spec|]; by vm_compute. Qed.

(** ** What the endpoint policy lets through *)

Section policy_facts.
  Context `{UriCrate}.

(** The name of the endpoint, up to case and dots at its end. *)
Definition same_name (host name : rstr) : Prop := lower (trim_end_char 46 host) = lower (trim_end_char 46 name).

Definition evidence_wf (e : ConnectionEvidence) : Prop :=
  match e with EvidenceCleartext peer => ip_wf (peer_raw_ip peer) | _ => True end.

Definition permitted (policy : EndpointPolicy) (endpoint : NetworkEndpoint) (evidence : ConnectionEvidence) : Prop :=
  match evidence with
  | EvidenceMissing => False
  | EvidenceTls tls => requires_tls (endpoint_scheme endpoint) = true /\ same_name (endpoint_host endpoint) (server_name tls)
  | EvidenceCleartext peer =>
      requires_tls (endpoint_scheme endpoint) = false /\ peer_port peer = endpoint_port endpoint /\
      let local := local_address (peer_raw_ip peer) in
      (local Loopback = true /\
       (loopback_host (endpoint_host endpoint) \/
        allow_hostname_loopback_cleartext policy = true /\ looks_like_ip_literal (endpoint_host endpoint) = false) \/
       local Private = true /\ allow_private_cleartext policy = true \/
       local LinkLocal = true /\ allow_link_local_cleartext policy = true /\ is_Some (interface_scope peer))
  end.

Lemma classify_peer peer : ip_wf (peer_raw_ip peer) -> classify_ip (peer_ip peer) = class_by_blocks (peer_raw_ip peer).
Proof. intros Hwf. rewrite <-classify_ip_blocks by done. unfold classify_ip, peer_ip. by rewrite normalized_idemp. Qed.

Lemma verify_connection_spec policy endpoint evidence :
  evidence_wf evidence ->
  match verify_connection policy endpoint evidence with
  | Ok v => v = mk_verified evidence /\ permitted policy endpoint evidence
  | Err e => ~ permitted policy endpoint evidence /\ (e = MissingEvidence <-> evidence = EvidenceMissing) /\ e <> RedirectDenied
  end.
Proof.
  intros Hwf. unfold verify_connection, permitted. pose proof (loopback_intent_spec (endpoint_host endpoint)) as Hl.
  destruct (requires_tls _) eqn:Htls, evidence as [|tls|peer]; try (split_and!; [naive_solver..]).
  - pose proof (eq_ignore_spec (trim_end_char 46 (endpoint_host endpoint)) (trim_end_char 46 (server_name tls))) as Hn.
    fold (same_name (endpoint_host endpoint) (server_name tls)) in Hn. unfold server_names_match.
    destruct (eq_ignore_ascii_case _ _); naive_solver.
  - rewrite (classify_peer peer Hwf). cbv zeta.
    rewrite !(local_address_class (peer_raw_ip peer)) by done.
    destruct (Z.eqb_spec (peer_port peer) (endpoint_port endpoint)); simpl; [|naive_solver].
    destruct (class_by_blocks (peer_raw_ip peer)); decide_classes; [| | |split_and!; [naive_solver|by split|done]..].
    + destruct (loopback_intent _), (allow_hostname_loopback_cleartext policy), (looks_like_ip_literal _); simpl;
        split_and!; solve [by split|naive_solver].
    + destruct (allow_private_cleartext policy); simpl; split_and!; solve [by split|naive_solver].
    + destruct (allow_link_local_cleartext policy), (interface_scope peer); simpl; split_and!; solve [by split|naive_solver].
Qed.

(** C34: what the endpoint policy lets through.  An established connection is accepted exactly
    when its evidence is that of the endpoint's protocol and either TLS authenticated the
    endpoint's name, or the cleartext peer has the endpoint's port and an address that is the
    machine's own for an endpoint that names it (or any name, if the route allows that),
    private or link-local with a scope, if the route allows those.  These are the blocks of
    the standards, with mapped addresses read as IPv4.  Evidence is never dispensed with,
    redirects are never followed, and without the route's permission cleartext stays on the
    machine.  Of a TLS connection the port is not part of the evidence. *)
Theorem endpoint_policy_exact policy endpoint evidence :
  evidence_wf evidence ->
  (forall v, verify_connection policy endpoint evidence = Ok v <-> v = mk_verified evidence /\ permitted policy endpoint evidence) /\
  (verify_connection policy endpoint evidence = Err MissingEvidence <-> evidence = EvidenceMissing) /\
  (forall target, verify_redirect policy target = Err RedirectDenied) /\
  (forall v peer, verify_connection (EndpointPolicy_default) endpoint (EvidenceCleartext peer) = Ok v -> ip_wf (peer_raw_ip peer) ->
     local_address (peer_raw_ip peer) Loopback = true /\ loopback_host (endpoint_host endpoint)).
Proof.
  intros Hwf. pose proof (verify_connection_spec policy endpoint evidence Hwf) as Hs. split_and!; [..|done|].
  - intros v. destruct (verify_connection policy endpoint evidence) as [w|e]; [|naive_solver].
    destruct Hs as [-> Hp]. split; [by intros [= <-]|by intros [-> _]].
  - destruct (verify_connection policy endpoint evidence) as [w|e]; [|naive_solver].
    split; [done|]. intros ->. by destruct Hs.
  - intros v peer Hv Hp. pose proof (verify_connection_spec EndpointPolicy_default endpoint (EvidenceCleartext peer) Hp) as Hd.
    rewrite Hv in Hd. destruct Hd as [_ (_ & _ & Hd)]. naive_solver.
Qed.

(** What an endpoint is accepted for. *)
Lemma NetworkEndpoint_new_spec uri e :
  NetworkEndpoint_new uri = Ok e <->
  endpoint_uri e = uri /\ scheme_of (scheme_str uri) = Some (endpoint_scheme e) /\
  str_len (uri_to_string uri) <= MAX_NETWORK_ENDPOINT_BYTES /\ port_u16 uri <> Some 0 /\
  exists a, authority uri = Some a /\ authority_host a <> [] /\ 64 ∉ a.
Proof.
  unfold NetworkEndpoint_new. destruct (Z.ltb_spec MAX_NETWORK_ENDPOINT_BYTES (str_len (uri_to_string uri))) as [Hl|Hl].
  { split; [done|]. intros (_ & _ & ? & _). lia. }
  destruct (scheme_of (scheme_str uri)) as [scheme|]; [|split; [done|naive_solver]].
  destruct (authority uri) as [a|]; [|split; [done|naive_solver]]. cbn [ok_or mbind result_bind].
  repeat (case_bool_decide; [split; [done|naive_solver]|]). split.
  - intros [= <-]. split_and!; try done. by exists a.
  - intros (<- & [= ->] & _). by destruct e.
Qed.

(** Endpoints of one origin are treated alike, whatever the case of their hosts. *)
Lemma verify_connection_case policy e e' evidence :
  endpoint_scheme e = endpoint_scheme e' -> endpoint_port e = endpoint_port e' ->
  lower (endpoint_host e) = lower (endpoint_host e') ->
  verify_connection policy e evidence = verify_connection policy e' evidence.
Proof.
  intros Hs Hp Hh. unfold verify_connection, server_names_match, eq_ignore_ascii_case.
  rewrite Hs, Hp, <-(loopback_intent_lower (endpoint_host e)), <-(ip_literal_lower (endpoint_host e)),
    <-(loopback_intent_lower (endpoint_host e')), <-(ip_literal_lower (endpoint_host e')).
  rewrite <-(trim_end_char_lower (endpoint_host e)), <-(trim_end_char_lower (endpoint_host e')), Hh. done.
Qed.
End policy_facts.

(** ** Bounds of requests and responses *)

Section http_facts.
  Context `{UriCrate} `{HeaderCrateSpec}.

(** The size of the headers, in unbounded numbers. *)
Definition header_total (headers : HeaderMap) : Z :=
  foldr (fun h total => str_len h.1 + Z.of_nat (length (hv_bytes h.2)) + 4 + total) 0 (headers_iter headers).

Definition headers_bounded (headers : HeaderMap) : Prop :=
  Z.of_nat (length (headers_iter headers)) <= MAX_HTTP_HEADERS /\ header_total headers <= MAX_HTTP_HEADER_BYTES.

(** Saturation never hides an excess. *)
Lemma header_bytes_total headers : header_bytes headers = Z.min USIZE_MAX (header_total headers).
Proof.
  unfold header_bytes, header_total.
  assert (forall l (total : Z), 0 <= total ->
    foldl (fun total (h : rstr * HeaderValue) => sat_add USIZE_MAX (sat_add USIZE_MAX (sat_add USIZE_MAX total (str_len h.1))
      (Z.of_nat (length (hv_bytes h.2)))) 4) (Z.min USIZE_MAX total) l =
    Z.min USIZE_MAX (total + foldr (fun h total => str_len h.1 + Z.of_nat (length (hv_bytes h.2)) + 4 + total) 0 l)) as Hl.
  { induction l as [|h l IH]; intros total Ht; simpl; [by rewrite Z.add_0_r|]. pose proof (str_len_nonneg h.1).
    replace (sat_add _ _ 4) with (Z.min USIZE_MAX (total + (str_len h.1 + Z.of_nat (length (hv_bytes h.2)) + 4)))
      by (unfold sat_add, USIZE_MAX, U64_MAX; lia).
    rewrite IH by lia. f_equal. lia. }
  by apply (Hl _ 0).
Qed.

Lemma validate_headers_spec headers overflow :
  (validate_headers headers overflow = Ok () /\ headers_bounded headers) \/
  (validate_headers headers overflow = Err overflow /\ ~ headers_bounded headers).
Proof.
  unfold validate_headers, headers_bounded. rewrite header_bytes_total, len_iter.
  destruct (Z.ltb_spec MAX_HTTP_HEADERS (Z.of_nat (length (headers_iter headers)))); [right; split; [done|lia]|].
  unfold MAX_HTTP_HEADER_BYTES, USIZE_MAX, U64_MAX. destruct (Z.ltb_spec (16 * 1024) (Z.min (2 ^ 64 - 1) (header_total headers)));
    [right|left]; (split; [done|lia]).
Qed.

Lemma HttpRequest_new_spec method endpoint headers body deadline policy limits r :
  HttpRequest_new method endpoint headers body deadline policy limits = Ok r <->
  r = mk_http_request method endpoint headers body deadline policy limits /\
  endpoint_scheme endpoint ∈ [SchemeHttp; SchemeHttps] /\
  Z.of_nat (length body) <= MAX_HTTP_REQUEST_BODY_BYTES /\ headers_bounded headers.
Proof.
  unfold HttpRequest_new. destruct (validate_headers_spec headers TransportRequestTooLarge) as [[-> Hh]|[-> Hh]];
    destruct (endpoint_scheme endpoint), (Z.ltb_spec MAX_HTTP_REQUEST_BODY_BYTES (Z.of_nat (length body)));
    simpl; (split; [intros [= <-]; split_and!; solve [done|set_solver|lia]|intros (-> & Hs & Hb & Hh')]);
    solve [done|lia|exfalso; set_solver].
Qed.

Lemma HttpResponse_new_spec status headers body connection limits r :
  HttpResponse_new status headers body connection limits = Ok r <->
  r = mk_http_response status headers body connection /\
  headers_bounded headers /\ Z.of_nat (length body) <= max_response_body_bytes limits.
Proof.
  unfold HttpResponse_new. destruct (validate_headers_spec headers TransportResponseTooLarge) as [[-> Hh]|[-> Hh]]; simpl;
    [destruct (Z.ltb_spec (max_response_body_bytes limits) (Z.of_nat (length body)))|];
    (split; [by intros [= <-]|intros (-> & Hh' & Hb)]); solve [done|lia].
Qed.
End http_facts.

(** A local connection is accepted exactly from the expected owner and peer, with no
    forbidden permission bit set. *)
Lemma verify_unix_socket_spec p owner group mode peer peer_group v :
  verify_unix_socket p (EvidenceUnix owner group mode peer peer_group) = Ok v <->
  v = mk_verified_local (EvidenceUnix owner group mode peer peer_group) /\
  owner = expected_owner_user_id p /\ (forall g, expected_owner_group_id p = Some g -> g = group) /\
  (forall i, 0 <= i -> Z.testbit mode i = true -> Z.testbit (forbidden_mode_bits p) i = false) /\
  peer = expected_peer_user_id p /\ (forall g, expected_peer_group_id p = Some g -> peer_group = Some g).
Proof.
  assert (Z.land mode (forbidden_mode_bits p) = 0 <->
    forall i, 0 <= i -> Z.testbit mode i = true -> Z.testbit (forbidden_mode_bits p) i = false) as Hbits.
  { split.
    - intros Hz i _ Hm. apply (f_equal (fun z => Z.testbit z i)) in Hz. rewrite Z.land_spec, Hm, Z.bits_0 in Hz. done.
    - intros Hi. apply Z.bits_inj'. intros i Hn. rewrite Z.land_spec, Z.bits_0. destruct (Z.testbit mode i) eqn:Hm; [|done].
      by rewrite Hi. }
  unfold verify_unix_socket. rewrite <-Hbits. clear Hbits.
  destruct (Z.eqb_spec owner (expected_owner_user_id p)); simpl; [|naive_solver].
  destruct (expected_owner_group_id p) as [g|]; [destruct (Z.eqb_spec g group); simpl; [|naive_solver]|];
    (destruct (Z.eqb_spec (Z.land mode (forbidden_mode_bits p)) 0); simpl; [|naive_solver]);
    (destruct (Z.eqb_spec peer (expected_peer_user_id p)); simpl; [|naive_solver]);
    (destruct (expected_peer_group_id p) as [h|]; [case_bool_decide; simpl|]); naive_solver.
Qed.

(** What a close frame or a message may carry. *)
Lemma WebSocketClose_new_spec code reason c :
  WebSocketClose_new code reason = Ok c ->
  c = mk_ws_close code reason /\ 1000 <= code <= 4999 /\ (code ∉ [1004; 1005; 1006; 1015]) /\
  2 + Z.of_nat (length reason) <= MAX_CONTROL_PAYLOAD_BYTES /\ is_Some (from_utf8 reason).
Proof.
  unfold WebSocketClose_new, valid_close_code. destruct (_ || _) eqn:Hc; [done|]. intros [= <-].
  apply orb_false_iff in Hc as [[Hcode Hlen]%orb_false_iff Hutf]. apply bool_decide_eq_false in Hutf.
  unfold MAX_CLOSE_REASON_BYTES in *. rewrite !not_elem_of_cons.
  bools; (split_and!; [done|lia..|apply not_elem_of_nil|lia|by apply not_eq_None_Some]).
Qed.

(** A printer on the local network, reported as a mapped address. *)
Definition ex_printer : NetworkEndpoint (H := Sample.uris) :=
  mk_endpoint (H := Sample.uris)
    (Sample.mk_uri (Some (str "http")) (Some (str "printer.local:631")) (str "/jobs") None) SchemeHttp.
Definition ex_peer : PeerAddress :=
  PeerAddress_new (V6 [0; 0; 0; 0; 0; 0; 0; 0; 0; 0; 0xff; 0xff; 192; 168; 1; 10]) 631.

Lemma endpoint_policy_exact_witness :
  NetworkEndpoint_new (H := Sample.uris) (endpoint_uri ex_printer) = Ok ex_printer /\
  verify_connection (allowing_private_cleartext EndpointPolicy_default) ex_printer (EvidenceCleartext ex_peer) =
    Ok (mk_verified (EvidenceCleartext ex_peer)) /\
  verify_connection EndpointPolicy_default ex_printer EvidenceMissing = Err MissingEvidence.
Proof.
  assert (local_address (peer_raw_ip ex_peer) Private = true) as Hclass by (by vm_compute).
  split_and!; [reflexivity|..].
  - refine (proj2 (proj1 (endpoint_policy_exact (allowing_private_cleartext EndpointPolicy_default) ex_printer
      (EvidenceCleartext ex_peer) _) _) _).
    + split; [done|]. apply (bool_decide_unpack (Forall (fun b => 0 <= b < 256) _)). by vm_compute.
    + split; [done|]. split; [done|]. split; [reflexivity|]. right. left. by split.
  - refine (proj2 (proj1 (proj2 (endpoint_policy_exact EndpointPolicy_default ex_printer EvidenceMissing _))) _); done.
Defined.
