(* ===== verification/NetTransport.v ===== *)
(** * NetTransport: the network transports

    [bondry-transport-net].  Section [Pooled] is http.rs: the cache of pooled clients, the
    connector that checks every connection it makes against the endpoint policy, and a
    request sent through them.  Sockets, TLS and the pooling HTTP client are third-party code
    and the parameters [Net] and [Hyper]; what is relied on of the client is that a response
    carries the mark of the connection it came over and that its connector made that
    connection ([HyperSpec]).  Section [UnixSockets] is unix.rs, with the file system and the
    kernel as the parameter [UnixNet].

    Requests of several threads share the cache and take its lock twice, so [client_for] has
    the operations of other threads between the two as an argument. *)

From S2P Require Import Prelude Text Bytes HttpLib Transport.

Definition MAX_HTTP_POOL_PARTITIONS : Z := 256.

Inductive SocketAddr :=
| SockV4 (octets : list byte) (port : Z)
| SockV6 (octets : list byte) (port scope_id : Z).

(** [HttpConnector::call], [TcpStream::peer_addr], [ServerName::try_from],
    [Verifier::new_with_extra_roots], [TlsConnector::connect], and whether a deadline passed. *)
Class Net `{UriCrate} := {
  World : Type;
  TcpStream : Type;
  TlsStream : Type;
  ServerName : Type;
  ClientConfig : Type;
  tcp_connect : Uri -> World -> option TcpStream * World;
  peer_addr : TcpStream -> option SocketAddr;
  server_name_try_from : rstr -> option ServerName;
  extra_roots_config : list (list byte) -> option ClientConfig;
  tls_connect : ClientConfig -> ServerName -> TcpStream -> World -> option TlsStream * World;
  elapsed : Z -> World -> bool;
}.

Section Pooled.
  Context `{U : UriCrate} `{HC : HeaderCrate} `{N : !Net}.

(** Whether the feature [tls] is compiled in. *)
Context (tls_feature : bool).

(** ** The connector *)

Inductive PolicyIo := IoCleartext (stream : TcpStream) | IoTls (stream : TlsStream).
Record PolicyConnection := mk_policy_connection {
  connection_io : PolicyIo;
  connection_verified : VerifiedConnection;
}.

Record PolicyConnector := mk_connector {
  connector_endpoint : NetworkEndpoint;
  connector_policy : EndpointPolicy;
  connector_tls : option ClientConfig;
}.

Definition same_origin (uri : Uri) (endpoint : NetworkEndpoint) : bool :=
  bool_decide (scheme_str uri = Some (scheme_as_str (endpoint_scheme endpoint))) &&
  match uri_host uri with Some host => eq_ignore_ascii_case host (endpoint_host endpoint) | None => false end &&
  (default (default_port (endpoint_scheme endpoint)) (port_u16 uri) =? endpoint_port endpoint).

Definition peer_address (address : SocketAddr) : PeerAddress :=
  match address with
  | SockV4 octets port => PeerAddress_new (V4 octets) port
  | SockV6 octets port scope_id => with_interface_scope (PeerAddress_new (V6 octets) port) scope_id
  end.

Definition cleartext_evidence (stream : TcpStream) : result TransportError ConnectionEvidence :=
  peer ← ok_or (peer_addr stream) TransportConnectionFailed;
  Ok (EvidenceCleartext (peer_address peer)).

Definition tls_server_name (endpoint : NetworkEndpoint) : result TransportError ServerName :=
  let host := endpoint_host endpoint in
  let host := default host (value ← strip_prefix (str "[") host; strip_suffix (str "]") value) in
  ok_or (server_name_try_from host) TransportTlsFailed.

Definition connect_tls (c : PolicyConnector) (stream : TcpStream) (w : World)
    : result TransportError PolicyConnection * World :=
  if negb tls_feature then (Err TransportTlsFailed, w)
  else
    match tls_server_name (connector_endpoint c) with
    | Err e => (Err e, w)
    | Ok name =>
        match connector_tls c with
        | None => (Err TransportTlsFailed, w)
        | Some config =>
            match tls_connect config name stream w with
            | (None, w) => (Err TransportTlsFailed, w)
            | (Some stream, w) =>
                (verified ← map_err TransportPolicy (verify_connection (connector_policy c) (connector_endpoint c)
                    (EvidenceTls (tls_verified (endpoint_host (connector_endpoint c)))));
                 Ok (mk_policy_connection (IoTls stream) verified), w)
            end
        end
    end.

(** [PolicyConnector::connect]. *)
Definition policy_connect (c : PolicyConnector) (uri : Uri) (w : World) : result TransportError PolicyConnection * World :=
  if negb (same_origin uri (connector_endpoint c)) then (Err TransportUnsupportedEndpoint, w)
  else
    match tcp_connect uri w with
    | (None, w) => (Err TransportConnectionFailed, w)
    | (Some stream, w) =>
        match endpoint_scheme (connector_endpoint c) with
        | SchemeHttp =>
            (evidence ← cleartext_evidence stream;
             verified ← map_err TransportPolicy (verify_connection (connector_policy c) (connector_endpoint c) evidence);
             Ok (mk_policy_connection (IoCleartext stream) verified), w)
        | SchemeHttps => connect_tls c stream w
        | SchemeWebSocket | SchemeWebSocketSecure => (Err TransportUnsupportedEndpoint, w)
        end
    end.

(** ** The pooling client of [hyper-util] *)

Record HyperRequest := mk_hyper_request {
  hq_method : rstr;
  hq_uri : Uri;
  hq_headers : HeaderMap;
  hq_body : list byte;
}.

(** The frames of a body: data, something else, or an error. *)
Inductive BodyFrame := FrameData (data : list byte) | FrameOther | FrameError.

Record HyperResponse := mk_hyper_response {
  hr_status : Z;
  hr_headers : HeaderMap;
  hr_extension : option VerifiedConnection;
  hr_frames : list BodyFrame;
}.

(** [client_connector] tells which connector a client was built with; [error_chain] lists
    the sources of an error, downcast. *)
Class Hyper := {
  Client : Type;
  HyperError : Type;
  client_build : PolicyConnector -> Client;
  client_connector : Client -> PolicyConnector;
  client_request : Client -> HyperRequest -> World -> result HyperError HyperResponse * World;
  error_chain : HyperError -> list (option TransportError);
  is_connect : HyperError -> bool;
}.

Class HyperSpec `{Hyper} : Prop := {
  built_with k : client_connector (client_build k) = k;
  response_connection c request w r w' v :
    client_request c request w = (Ok r, w') -> hr_extension r = Some v ->
    exists uri w0 connection w1,
      policy_connect (client_connector c) uri w0 = (Ok connection, w1) /\ connection_verified connection = v;
}.

(** What the kernel reports of a peer has the size of an address. *)
Class NetSpec : Prop := peer_addr_wf stream a : peer_addr stream = Some a ->
  ip_wf (match a with SockV4 octets _ => V4 octets | SockV6 octets _ _ => V6 octets end).

Section client.
  Context `{Hyper}.

(** ** The cache of clients *)

Record PoolKey := mk_pool_key {
  key_scheme : NetworkScheme;
  key_host : rstr;
  key_port : Z;
  key_policy : EndpointPolicy;
}.
#[global] Instance PoolKey_eq_dec : EqDecision PoolKey.
Proof. solve_decision. Defined.

Definition PoolKey_new (endpoint : NetworkEndpoint) (policy : EndpointPolicy) : PoolKey :=
  mk_pool_key (endpoint_scheme endpoint) (ascii_lower <$> endpoint_host endpoint) (endpoint_port endpoint) policy.

(** [ClientCache]: the oldest entry first. *)
Definition ClientCache : Type := list (PoolKey * Client).

Definition cache_get (key : PoolKey) (entries : ClientCache) : option Client * ClientCache :=
  match list_find (fun entry => entry.1 = key) entries with
  | None => (None, entries)
  | Some (index, entry) => (Some entry.2, delete index entries ++ [entry])
  end.

Definition cache_insert (key : PoolKey) (client : Client) (entries : ClientCache) : Client * ClientCache :=
  match cache_get key entries with
  | (Some existing, entries) => (existing, entries)
  | (None, entries) =>
      let entries := if Z.of_nat (length entries) =? MAX_HTTP_POOL_PARTITIONS then tail entries else entries in
      (client, entries ++ [(key, client)])
  end.

(** ** The transport *)

(** [None] as the cache is a poisoned lock. *)
Record NetHttpTransport := mk_net_transport {
  nt_clients : option ClientCache;
  nt_default_tls : ClientConfig;
}.
Definition NetHttpTransport_new (platform : option ClientConfig) : option NetHttpTransport :=
  default_tls ← platform; Some (mk_net_transport (Some []) default_tls).

Definition tls_config (default_tls : ClientConfig) (policy : EndpointPolicy) : result TransportError ClientConfig :=
  if bool_decide (additional_trust_anchors policy = []) then Ok default_tls
  else ok_or (extra_roots_config (as_der <$> additional_trust_anchors policy)) TransportTlsFailed.

Definition build_client (default_tls : ClientConfig) (endpoint : NetworkEndpoint) (policy : EndpointPolicy)
    : result TransportError Client :=
  if tls_feature then
    config ← match endpoint_scheme endpoint with
             | SchemeHttps => config ← tls_config default_tls policy; Ok (Some config)
             | SchemeHttp => Ok None
             | SchemeWebSocket | SchemeWebSocketSecure => Err TransportUnsupportedEndpoint
             end;
    Ok (client_build (mk_connector endpoint policy config))
  else if bool_decide (endpoint_scheme endpoint = SchemeHttps) then Err TransportTlsFailed
  else Ok (client_build (mk_connector endpoint policy None)).

(** What another thread does with the cache under the lock. *)
Inductive CacheOp :=
| OpLookup (endpoint : NetworkEndpoint) (policy : EndpointPolicy)
| OpStore (endpoint : NetworkEndpoint) (policy : EndpointPolicy).

Definition cache_op (default_tls : ClientConfig) (entries : ClientCache) (op : CacheOp) : ClientCache :=
  match op with
  | OpLookup endpoint policy => (cache_get (PoolKey_new endpoint policy) entries).2
  | OpStore endpoint policy =>
      match build_client default_tls endpoint policy with
      | Ok client => (cache_insert (PoolKey_new endpoint policy) client entries).2
      | Err _ => entries
      end
  end.

Definition set_clients (t : NetHttpTransport) (entries : ClientCache) : NetHttpTransport :=
  mk_net_transport (Some entries) (nt_default_tls t).

Definition client_for (others : list CacheOp) (endpoint : NetworkEndpoint) (policy : EndpointPolicy) (t : NetHttpTransport)
    : result TransportError Client * NetHttpTransport :=
  let key := PoolKey_new endpoint policy in
  match nt_clients t with
  | None => (Err TransportConnectionFailed, t)
  | Some entries =>
      match cache_get key entries with
      | (Some client, entries) => (Ok client, set_clients t entries)
      | (None, entries) =>
          match build_client (nt_default_tls t) endpoint policy with
          | Err e => (Err e, set_clients t entries)
          | Ok client =>
              let entries := foldl (cache_op (nt_default_tls t)) entries others in
              let '(client, entries) := cache_insert key client entries in
              (Ok client, set_clients t entries)
          end
      end
  end.

Definition HOST : rstr := str "host".
Definition CONNECTION : rstr := str "connection".
Definition CONTENT_LENGTH : rstr := str "content-length".
Definition TRANSFER_ENCODING : rstr := str "transfer-encoding".

(** The request as it is handed to the client. *)
Definition outgoing (parts : HttpRequest) : HyperRequest :=
  let headers := headers_remove HOST (rq_headers parts) in
  let headers := headers_remove CONNECTION headers in
  let headers := headers_remove CONTENT_LENGTH headers in
  let headers := headers_remove TRANSFER_ENCODING headers in
  mk_hyper_request (rq_method parts) (endpoint_uri (rq_endpoint parts)) headers (rq_body parts).

Fixpoint error_source (chain : list (option TransportError)) : option TransportError :=
  match chain with
  | [] => None
  | Some transport :: _ => Some transport
  | None :: chain => error_source chain
  end.

Fixpoint read_body (limits : HttpLimits) (bytes : list byte) (frames : list BodyFrame) : result TransportError (list byte) :=
  match frames with
  | [] => Ok bytes
  | FrameError :: _ => Err TransportInvalidResponse
  | FrameOther :: frames => read_body limits bytes frames
  | FrameData data :: frames =>
      if max_response_body_bytes limits <? sat_add USIZE_MAX (Z.of_nat (length bytes)) (Z.of_nat (length data))
      then Err TransportResponseTooLarge
      else read_body limits (bytes ++ data) frames
  end.

(** What is made of the client's answer. *)
Definition receive (limits : HttpLimits) (response : HyperResponse) : result TransportError HttpResponse :=
  verified ← ok_or (hr_extension response) (TransportPolicy MissingEvidence);
  if contains_key TRANSFER_ENCODING (hr_headers response) && contains_key CONTENT_LENGTH (hr_headers response)
  then Err TransportInvalidResponse
  else if is_redirection (hr_status response) then Err (TransportPolicy RedirectDenied)
  else
    body ← read_body limits [] (hr_frames response);
    HttpResponse_new (hr_status response) (hr_headers response) body verified limits.

Definition send_with_client (client : Client) (parts : HttpRequest) (w : World) : result TransportError HttpResponse * World :=
  match client_request client (outgoing parts) w with
  | (Err error, w) =>
      (Err (default (if is_connect error then TransportConnectionFailed else TransportInvalidResponse)
              (error_source (error_chain error))), w)
  | (Ok response, w) => (receive (rq_limits parts) response, w)
  end.

(** [NetHttpTransport::send]: the deadline may pass at any point after the client was
    looked up, which happens before the first suspension. *)
Definition send_request (others : list CacheOp) (request : HttpRequest) (t : NetHttpTransport) (w : World)
    : result TransportError HttpResponse * NetHttpTransport * World :=
  let '(client, t) := client_for others (rq_endpoint request) (rq_policy request) t in
  let '(response, w) :=
    match client with
    | Err e => (Err e, w)
    | Ok client => send_with_client client request w
    end in
  (if elapsed (rq_deadline request) w then Err TransportDeadlineExceeded else response, t, w).

(** Requests and the work of other threads, one after the other. *)
Inductive NetStep :=
| StepSend (others : list CacheOp) (request : HttpRequest)
| StepOthers (ops : list CacheOp).

Definition net_step (s : NetHttpTransport * World) (step : NetStep) : NetHttpTransport * World :=
  match step with
  | StepSend others request => let '(_, t, w) := send_request others request s.1 s.2 in (t, w)
  | StepOthers ops =>
      (match nt_clients s.1 with
       | Some entries => set_clients s.1 (foldl (cache_op (nt_default_tls s.1)) entries ops)
       | None => s.1
       end, s.2)
  end.

(** ** The clients of the cache *)

Definition origin_key (c : Client) : PoolKey :=
  PoolKey_new (connector_endpoint (client_connector c)) (connector_policy (client_connector c)).

(** The client of a key connects to that origin under that policy, with the trust it asks for. *)
Definition serves (default_tls : ClientConfig) (key : PoolKey) (c : Client) : Prop :=
  origin_key c = key /\
  forall config, connector_tls (client_connector c) = Some config -> tls_config default_tls (key_policy key) = Ok config.

Definition cache_ok (default_tls : ClientConfig) (entries : ClientCache) : Prop :=
  NoDup entries.*1 /\ Z.of_nat (length entries) <= MAX_HTTP_POOL_PARTITIONS /\
  Forall (fun entry => serves default_tls entry.1 entry.2) entries.

Definition transport_ok (t : NetHttpTransport) : Prop :=
  forall entries, nt_clients t = Some entries -> cache_ok (nt_default_tls t) entries.

Section facts.
  Context `{!HeaderCrateSpec} `{!NetSpec} `{!HyperSpec}.

Lemma build_client_serves default_tls endpoint policy c :
  build_client default_tls endpoint policy = Ok c -> serves default_tls (PoolKey_new endpoint policy) c.
Proof.
  unfold build_client, serves, origin_key. destruct tls_feature.
  - intros (config & Hc & [= <-])%result_bind_Ok. rewrite built_with. split; [done|]. intros config' Hc'. cbn in Hc'. subst config.
    destruct (endpoint_scheme endpoint); try done. apply result_bind_Ok in Hc as (c & Hc & [= ->]). done.
  - case_bool_decide; [done|]. intros [= <-]. by rewrite built_with.
Qed.

(** A lookup moves the entry it finds to the end. *)
Lemma cache_get_perm key (entries : ClientCache) :
  match cache_get key entries with
  | (Some c, entries') => entries' ≡ₚ entries /\ (key, c) ∈ entries /\ last entries' = Some (key, c)
  | (None, entries') => entries' = entries /\ key ∉ entries.*1
  end.
Proof.
  unfold cache_get. destruct (list_find _ entries) as [[index [k c]]|] eqn:Hf.
  - apply list_find_Some in Hf as (Hi & Hk & _). simpl in Hk. subst k. split_and!.
    + rewrite Permutation_app_comm. symmetry. by apply delete_Permutation.
    + by apply list_elem_of_lookup_2 in Hi.
    + by rewrite last_snoc.
  - split; [done|]. apply list_find_None in Hf. rewrite list_elem_of_fmap. intros ([k c] & -> & Hin).
    rewrite Forall_forall in Hf. by apply (Hf _ Hin).
Qed.

Lemma cache_ok_perm d (entries entries' : ClientCache) : entries' ≡ₚ entries -> cache_ok d entries -> cache_ok d entries'.
Proof. intros Hp (Hn & Hl & Hs). unfold cache_ok. by rewrite Hp. Qed.

Lemma cache_get_ok d key entries : cache_ok d entries -> cache_ok d (cache_get key entries).2.
Proof.
  intros Hok. pose proof (cache_get_perm key entries) as Hg. destruct (cache_get key entries) as [[c|] entries']; simpl.
  - apply (cache_ok_perm d entries); [apply Hg|done].
  - by destruct Hg as [-> _].
Qed.

Lemma cache_get_serves d key entries c entries' :
  cache_ok d entries -> cache_get key entries = (Some c, entries') -> serves d key c.
Proof.
  intros (_ & _ & Hs) Hg. pose proof (cache_get_perm key entries) as Hp. rewrite Hg in Hp. destruct Hp as (_ & Hin & _).
  rewrite Forall_forall in Hs. apply (Hs _ Hin).
Qed.

(** An insert returns a client of the key and keeps the cache within its bound, dropping the
    entry that was used least recently. *)
Lemma cache_insert_ok d key c entries :
  cache_ok d entries -> serves d key c ->
  let '(c', entries') := cache_insert key c entries in serves d key c' /\ cache_ok d entries' /\ last entries' = Some (key, c').
Proof.
  intros Hok Hc. unfold cache_insert. pose proof (cache_get_perm key entries) as Hp. pose proof (cache_get_ok d key entries Hok) as Hok'.
  destruct (cache_get key entries) as [[c'|] entries'] eqn:Hg; simpl in Hok'.
  - split_and!; [exact (cache_get_serves d key entries c' entries' Hok Hg)|done|apply Hp].
  - destruct Hp as [-> Hk]. clear Hok'. destruct Hok as (Hn & Hl & Hs). split; [done|]. split; [|by rewrite last_snoc].
    set (kept := if Z.of_nat (length entries) =? _ then tail entries else entries).
    assert (sublist kept entries /\ Z.of_nat (length kept) < MAX_HTTP_POOL_PARTITIONS) as [Hsub Hlen].
    { unfold kept. destruct (Z.eqb_spec (Z.of_nat (length entries)) MAX_HTTP_POOL_PARTITIONS) as [Heq|Hne]; [|split; [done|lia]].
      destruct entries as [|e es]; [done|]. simpl in *. split; [by apply sublist_cons|lia]. }
    unfold cache_ok. rewrite fmap_app, NoDup_app, length_app, Forall_app, !Forall_singleton. simpl. split_and!.
    + eapply sublist_NoDup; [exact Hn|by apply fmap_sublist].
    + intros k Hin ->%list_elem_of_singleton. apply Hk. eapply elem_of_sublist; [exact Hin|by apply fmap_sublist].
    + apply NoDup_singleton.
    + lia.
    + by eapply Forall_sublist.
    + done.
Qed.

Lemma cache_op_ok d entries op : cache_ok d entries -> cache_ok d (cache_op d entries op).
Proof.
  intros Hok. destruct op as [endpoint policy|endpoint policy]; cbn [cache_op]; [by apply cache_get_ok|].
  destruct (build_client d endpoint policy) as [c|] eqn:Hb; [|done].
  pose proof (cache_insert_ok d _ c entries Hok (build_client_serves _ _ _ _ Hb)) as Hi.
  destruct (cache_insert _ _ _). apply Hi.
Qed.

Lemma cache_ops_ok d ops entries : cache_ok d entries -> cache_ok d (foldl (cache_op d) entries ops).
Proof. revert entries. induction ops as [|op ops IH]; intros entries Hok; [done|]. by apply IH, cache_op_ok. Qed.

Lemma client_for_ok others endpoint policy t :
  transport_ok t ->
  let '(r, t') := client_for others endpoint policy t in
  transport_ok t' /\ nt_default_tls t' = nt_default_tls t /\
  forall c, r = Ok c -> serves (nt_default_tls t) (PoolKey_new endpoint policy) c.
Proof.
  intros Ht. unfold client_for. destruct (nt_clients t) as [entries|] eqn:Hc; [|done]. specialize (Ht entries Hc).
  assert (forall entries, cache_ok (nt_default_tls t) entries -> transport_ok (set_clients t entries)) as Hset.
  { intros es Hes es' [= <-]. done. }
  pose proof (cache_get_ok _ (PoolKey_new endpoint policy) entries Ht) as Hget.
  destruct (cache_get _ entries) as [[c|] entries1] eqn:Hg; simpl in Hget.
  - split_and!; [by apply Hset|done|]. intros c' [= <-]. exact (cache_get_serves _ _ _ _ _ Ht Hg).
  - destruct (build_client _ _ _) as [c|e] eqn:Hb; [|split_and!; [by apply Hset|done..]].
    pose proof (cache_insert_ok _ _ c (foldl (cache_op (nt_default_tls t)) entries1 others)
      (cache_ops_ok _ others _ Hget) (build_client_serves _ _ _ _ Hb)) as Hi.
    destruct (cache_insert _ _ _) as [c' entries2]. destruct Hi as (Hc' & Hok & _).
    split_and!; [by apply Hset|done|]. by intros c'' [= <-].
Qed.

Lemma net_step_ok s step : transport_ok s.1 -> transport_ok (net_step s step).1 /\ nt_default_tls (net_step s step).1 = nt_default_tls s.1.
Proof.
  intros Ht. destruct step as [others request|ops]; cbn [net_step].
  - unfold send_request. pose proof (client_for_ok others (rq_endpoint request) (rq_policy request) s.1 Ht) as Hc.
    destruct (client_for _ _ _ _) as [r t']. destruct Hc as (Hok & Hd & _). by destruct r; [destruct (send_with_client _ _ _)|].
  - destruct (nt_clients s.1) as [entries|] eqn:Hc; [|done]. split; [|done]. intros es [= <-]. apply cache_ops_ok, Ht, Hc.
Qed.

Lemma net_run_ok s steps :
  transport_ok s.1 -> transport_ok (foldl net_step s steps).1 /\ nt_default_tls (foldl net_step s steps).1 = nt_default_tls s.1.
Proof.
  revert s. induction steps as [|step steps IH]; intros s Ht; [done|]. cbn [foldl].
  destruct (net_step_ok s step Ht) as [Ht' Hd]. destruct (IH _ Ht') as [Hok' Hd']. split; [done|congruence].
Qed.

(** ** What a connection was checked for *)

(** The TLS handshake behind a connection to [endpoint]. *)
Definition handshake (default_tls : ClientConfig) (policy : EndpointPolicy) (endpoint : NetworkEndpoint) : Prop :=
  exists config name stream w tls w',
    tls_config default_tls policy = Ok config /\ tls_server_name endpoint = Ok name /\
    tls_connect config name stream w = (Some tls, w').

Lemma policy_connect_verified c uri w connection w' :
  policy_connect c uri w = (Ok connection, w') ->
  let evidence := verified_evidence (connection_verified connection) in
  evidence_wf evidence /\
  verify_connection (connector_policy c) (connector_endpoint c) evidence = Ok (connection_verified connection) /\
  (endpoint_scheme (connector_endpoint c) = SchemeHttps ->
     exists config name stream w tls w', connector_tls c = Some config /\ tls_server_name (connector_endpoint c) = Ok name /\
       tls_connect config name stream w = (Some tls, w')).
Proof.
  assert (forall evidence v, verify_connection (connector_policy c) (connector_endpoint c) evidence = Ok v ->
    evidence = verified_evidence v) as Hev.
  { clear. intros evidence v. unfold verify_connection. by repeat case_match; intros [= <-]. }
  unfold policy_connect. destruct (negb _); [done|]. destruct (tcp_connect uri w) as [[stream|] w1]; [|done].
  destruct (endpoint_scheme (connector_endpoint c)) eqn:Hs; [| |done..].
  - intros [= Hr <-]. apply result_bind_Ok in Hr as (evidence & He & (v & Hv & [= <-])%result_bind_Ok).
    destruct (verify_connection _ _ evidence) as [v'|] eqn:Hver; [|done]. injection Hv as <-. cbn [connection_verified].
    rewrite <-(Hev _ _ Hver). split_and!; [|done|done]. unfold cleartext_evidence in He.
    apply result_bind_Ok in He as (peer & Hp & [= <-]). destruct (peer_addr stream) as [a|] eqn:Ha; [|done]. injection Hp as <-.
    pose proof (peer_addr_wf stream a Ha) as Hwf. destruct a as [o p|o p scope]; [done|].
    unfold evidence_wf, peer_address, with_interface_scope. by destruct (negb _).
  - unfold connect_tls. destruct (negb tls_feature); [done|]. destruct (tls_server_name _) as [name|] eqn:Hname; [|done].
    destruct (connector_tls c) as [config|] eqn:Hconf; [|done].
    destruct (tls_connect config name stream w1) as [[tls|] w2] eqn:Htls; [|done].
    intros [= Hr <-]. apply result_bind_Ok in Hr as (v & Hv & [= <-]).
    destruct (verify_connection _ _ _) as [v'|] eqn:Hver; [|done]. injection Hv as <-. cbn [connection_verified].
    rewrite <-(Hev _ _ Hver). split_and!; [done|done|]. intros _. by exists config, name, stream, w1, tls, w2.
Qed.

(** ** Responses *)

Definition frame_data (f : BodyFrame) : list byte := match f with FrameData data => data | _ => [] end.

(** A body that was read is what the peer sent, all of it. *)
Lemma read_body_spec limits bytes frames body :
  read_body limits bytes frames = Ok body -> body = bytes ++ concat (frame_data <$> frames) /\ FrameError ∉ frames.
Proof.
  revert bytes. induction frames as [|f frames IH]; intros bytes; cbn [read_body].
  { intros [= <-]. split; [by rewrite app_nil_r|apply not_elem_of_nil]. }
  rewrite fmap_cons, not_elem_of_cons. cbn [concat]. destruct f as [data| |]; cbn [frame_data]; [|by intros (-> & ?)%IH|done].
  case_match; [done|]. intros (-> & ?)%IH. by rewrite <-(assoc_L (++)).
Qed.

Lemma receive_spec limits response r :
  receive limits response = Ok r ->
  hr_extension response = Some (rs_connection r) /\ rs_status r = hr_status response /\ rs_headers r = hr_headers response /\
  rs_body r = concat (frame_data <$> hr_frames response) /\ (FrameError ∉ hr_frames response) /\
  headers_bounded (rs_headers r) /\ Z.of_nat (length (rs_body r)) <= max_response_body_bytes limits /\
  is_redirection (rs_status r) = false /\
  ~ (contains_key TRANSFER_ENCODING (rs_headers r) = true /\ contains_key CONTENT_LENGTH (rs_headers r) = true).
Proof.
  unfold receive. intros (v & Hv & Hr)%result_bind_Ok. destruct (hr_extension response) as [v'|]; [|done]. injection Hv as <-.
  destruct (_ && _) eqn:Hte; [done|]. destruct (is_redirection _) eqn:Hred; [done|].
  apply result_bind_Ok in Hr as (body & Hb & Hr). apply HttpResponse_new_spec in Hr as (-> & Hh & Hl).
  apply read_body_spec in Hb as [-> Hf]. cbn [rs_connection rs_status rs_headers rs_body]. split_and!; try done.
  intros [H3 H4]. by rewrite H3, H4 in Hte.
Qed.

(** Connections that were checked for an endpoint are permitted for all of its origin. *)
Lemma permitted_origin policy e e' evidence v :
  PoolKey_new e policy = PoolKey_new e' policy -> evidence_wf evidence ->
  verify_connection policy e evidence = Ok v -> permitted policy e' evidence.
Proof.
  intros [= Hs Hh Hp] Hwf Hv. rewrite (verify_connection_case policy e e' evidence Hs Hp Hh) in Hv.
  pose proof (verify_connection_spec policy e' evidence Hwf) as Hspec. rewrite Hv in Hspec. apply Hspec.
Qed.

(** C35: responses come over permitted connections.  However requests for many origins share
    the pooled clients, and whatever other threads do with the cache between the two times a
    request takes its lock: a response that is returned came over a connection that this
    request's own policy permits for this request's own endpoint, under TLS with the trust
    this policy asks for if the endpoint is secure; it is no redirect, is not framed twice,
    and keeps the limits on headers and body.  The cache never holds more than its bound, nor
    two clients for one origin and policy.  No framing header of the host reaches the peer. *)
Theorem responses_over_permitted_connections default_tls w0 steps others request response t w :
  let s := foldl net_step (mk_net_transport (Some []) default_tls, w0) steps in
  send_request others request s.1 s.2 = (Ok response, t, w) ->
  permitted (rq_policy request) (rq_endpoint request) (verified_evidence (rs_connection response)) /\
  (endpoint_scheme (rq_endpoint request) = SchemeHttps -> exists endpoint,
     PoolKey_new endpoint (rq_policy request) = PoolKey_new (rq_endpoint request) (rq_policy request) /\
     handshake default_tls (rq_policy request) endpoint) /\
  headers_bounded (rs_headers response) /\
  Z.of_nat (length (rs_body response)) <= max_response_body_bytes (rq_limits request) /\
  ~ (300 <= rs_status response < 400) /\
  ~ (TRANSFER_ENCODING ∈ (headers_iter (rs_headers response)).*1 /\ CONTENT_LENGTH ∈ (headers_iter (rs_headers response)).*1) /\
  (forall entries, nt_clients t = Some entries -> cache_ok default_tls entries) /\
  (forall name, name ∈ [HOST; CONNECTION; CONTENT_LENGTH; TRANSFER_ENCODING] ->
     name ∉ (headers_iter (hq_headers (outgoing request))).*1).
Proof.
  intros s. destruct (net_run_ok (mk_net_transport (Some []) default_tls, w0) steps) as [Hok Hd].
  { intros entries [= <-]. split_and!; [apply NoDup_nil_2|done|constructor]. }
  fold s in Hok, Hd. cbn [fst nt_default_tls] in Hd. unfold send_request.
  pose proof (client_for_ok others (rq_endpoint request) (rq_policy request) s.1 Hok) as Hc.
  destruct (client_for _ _ _ _) as [[c|e] t'] eqn:Hcf; [|by destruct (elapsed _ _)].
  destruct Hc as (Ht' & Hd' & Hserves). specialize (Hserves c eq_refl). rewrite Hd in Hserves, Hd'.
  destruct (send_with_client c request s.2) as [r w'] eqn:Hsend. destruct (elapsed _ _); [done|]. intros [= -> <- <-].
  unfold send_with_client in Hsend. destruct (client_request c (outgoing request) s.2) as [[hr|he] w1] eqn:Hreq; [|done].
  injection Hsend as Hrec <-. apply receive_spec in Hrec as (Hext & Hst & Hhd & Hbody & Hf & Hb & Hl & Hred & Hte).
  destruct (response_connection _ _ _ _ _ _ Hreq Hext) as (uri & wa & connection & wb & Hconn & Hv).
  apply policy_connect_verified in Hconn as (Hwf & Hver & Htls). rewrite Hv in Hwf, Hver.
  destruct Hserves as [Hkey Hconf]. unfold origin_key in Hkey. assert (connector_policy (client_connector c) = rq_policy request) as Hp
    by (by injection Hkey). rewrite Hp in Hkey, Hver. split_and!; try done.
  - by eapply permitted_origin.
  - intros Hs. exists (connector_endpoint (client_connector c)). split; [done|].
    destruct Htls as (config & name & stream & w2 & tls & w3 & Ha & Hname & Hb').
    { injection Hkey as Hk _ _. congruence. }
    exists config, name, stream, w2, tls, w3. split_and!; [|done..]. by apply Hconf.
  - rewrite redirection_range in Hred. unfold in_range in Hred. lia.
  - by rewrite <-!contains_iter.
  - intros entries He. rewrite <-Hd'. by apply Ht'.
  - intros name Hn. unfold outgoing. cbn [hq_headers]. rewrite list_elem_of_fmap. intros ([n v] & -> & Hin). simpl in Hn.
    rewrite !iter_remove, !list_elem_of_filter in Hin. simpl in Hin. set_solver.
Qed.

End facts.
End client.
End Pooled.

(** ** unix.rs *)

Definition READ_BUFFER_BYTES : Z := 64 * 1024.

Record SocketMetadata := mk_metadata {
  md_device : Z;
  md_inode : Z;
  md_owner_user_id : Z;
  md_owner_group_id : Z;
  md_mode : Z;
}.

(** What [symlink_metadata] reports: whether the node is a socket, and its numbers. *)
Record FileMetadata := mk_file_metadata { fm_is_socket : bool; fm_numbers : SocketMetadata }.

Class UnixNet := {
  UnixWorld : Type;
  UnixStream : Type;
  symlink_metadata : rstr -> UnixWorld -> option FileMetadata * UnixWorld;
  unix_connect : rstr -> UnixWorld -> option UnixStream * UnixWorld;
  peer_credentials : UnixStream -> result LocalTransportError (Z * Z);
  unix_elapsed : Z -> UnixWorld -> bool;
}.

(** What a [try_read] or [try_write] on a ready stream comes to. *)
Inductive ReadOutcome := DidRead (bytes : list byte) | ReadWouldBlock | ReadFailed.
Inductive WriteOutcome := DidWrite (count : nat) | WriteWouldBlock | WriteFailed.

Section UnixSockets.
  Context `{UnixNet}.

Definition socket_metadata (path : rstr) (w : UnixWorld) : result LocalTransportError SocketMetadata * UnixWorld :=
  match symlink_metadata path w with
  | (None, w) => (Err LocalUnavailable, w)
  | (Some metadata, w) =>
      if negb (fm_is_socket metadata) then (Err LocalEvidenceMismatch, w)
      else let m := fm_numbers metadata in
           (Ok (mk_metadata (md_device m) (md_inode m) (md_owner_user_id m) (md_owner_group_id m) (Z.land (md_mode m) 0xFFF)), w)
  end.

Record LocalConnection := mk_local_connection {
  local_stream : UnixStream;
  local_verified : VerifiedLocalConnection;
}.

Definition connect_unix (path : rstr) (policy : UnixSocketPolicy) (w : UnixWorld)
    : result LocalTransportError LocalConnection * UnixWorld :=
  match socket_metadata path w with
  | (Err e, w) => (Err e, w)
  | (Ok before, w) =>
      match unix_connect path w with
      | (None, w) => (Err LocalUnavailable, w)
      | (Some stream, w) =>
          match socket_metadata path w with
          | (Err e, w) => (Err e, w)
          | (Ok after, w) =>
              (if negb (md_device before =? md_device after) || negb (md_inode before =? md_inode after)
               then Err LocalEvidenceMismatch
               else
                 '(peer_user_id, peer_group_id) ← peer_credentials stream;
                 let evidence := EvidenceUnix (md_owner_user_id after) (md_owner_group_id after) (md_mode after)
                                   peer_user_id (Some peer_group_id) in
                 verified ← verify_unix_socket policy evidence;
                 Ok (mk_local_connection stream verified), w)
          end
      end
  end.

(** [UnixSocketTransport::connect]. *)
Definition local_connect (endpoint : LocalEndpoint) (policy : LocalEndpointPolicy) (deadline : Z) (w : UnixWorld)
    : result LocalTransportError LocalConnection * UnixWorld :=
  match endpoint, policy with
  | LocalUnix path, LocalPolicyUnix policy =>
      let '(r, w) := connect_unix path policy w in
      (if unix_elapsed deadline w then Err LocalDeadlineExceeded else r, w)
  | _, _ => (Err LocalUnsupportedEndpoint, w)
  end.

(** [read] and [write] of a stream, over what each round of the loop comes to; the deadline
    passes where the outcomes end.  A read takes what is there, as far as it fits. *)
Fixpoint read_loop (buffer : Z) (outcomes : list ReadOutcome) : result LocalTransportError (list byte) :=
  match outcomes with
  | [] => Err LocalDeadlineExceeded
  | DidRead bytes :: _ => Ok (take (Z.to_nat buffer) bytes)
  | ReadWouldBlock :: outcomes => read_loop buffer outcomes
  | ReadFailed :: _ => Err LocalUnavailable
  end.

Definition stream_read (max_bytes : Z) (outcomes : list ReadOutcome) : result LocalTransportError (list byte) :=
  if max_bytes =? 0 then Err LocalInvalidReadBound else read_loop (Z.min max_bytes READ_BUFFER_BYTES) outcomes.

(** The result, and what the kernel took. *)
Fixpoint stream_write (remaining : list byte) (outcomes : list WriteOutcome) : result LocalTransportError unit * list byte :=
  match remaining with
  | [] => (Ok (), [])
  | _ :: _ =>
      match outcomes with
      | [] => (Err LocalDeadlineExceeded, [])
      | WriteFailed :: _ => (Err LocalUnavailable, [])
      | WriteWouldBlock :: outcomes => stream_write remaining outcomes
      | DidWrite O :: _ => (Err LocalUnavailable, [])
      | DidWrite written :: outcomes =>
          let '(r, taken) := stream_write (drop written remaining) outcomes in (r, take written remaining ++ taken)
      end
  end.

(** What was connected to is a socket that was at the path before and after, with the owner,
    the permissions and the peer the policy asks for. *)
Lemma connect_unix_verified path policy w connection w' :
  connect_unix path policy w = (Ok connection, w') ->
  exists before w1 w2 after peer group,
    socket_metadata path w = (Ok before, w1) /\ unix_connect path w1 = (Some (local_stream connection), w2) /\
    socket_metadata path w2 = (Ok after, w') /\
    md_device before = md_device after /\ md_inode before = md_inode after /\
    peer_credentials (local_stream connection) = Ok (peer, group) /\
    md_owner_user_id after = expected_owner_user_id policy /\ peer = expected_peer_user_id policy /\
    (forall g, expected_owner_group_id policy = Some g -> md_owner_group_id after = g) /\
    (forall g, expected_peer_group_id policy = Some g -> group = g) /\
    (forall i, 0 <= i -> Z.testbit (md_mode after) i = true -> Z.testbit (forbidden_mode_bits policy) i = false).
Proof.
  unfold connect_unix. destruct (socket_metadata path w) as [[before|] w1] eqn:Hb; [|done].
  destruct (unix_connect path w1) as [[stream|] w2] eqn:Hc; [|done].
  destruct (socket_metadata path w2) as [[after|] w3] eqn:Ha; [|done].
  destruct (_ || _) eqn:Hid; [done|]. intros [= Hr <-]. apply result_bind_Ok in Hr as ([peer group] & Hp & (v & Hv & [= <-])%result_bind_Ok).
  apply verify_unix_socket_spec in Hv as (-> & Ho & Hog & Hm & Hpu & Hpg).
  exists before, w1, w2, after, peer, group. cbn [local_stream]. bools. split_and!; try done.
  - intros g Hg. symmetry. by apply Hog.
  - intros g Hg. apply Hpg in Hg. congruence.
Qed.

(** A read returns no more than was asked for, nor more than the buffer. *)
Lemma stream_read_bounded max_bytes outcomes bytes :
  0 <= max_bytes -> stream_read max_bytes outcomes = Ok bytes -> Z.of_nat (length bytes) <= Z.min max_bytes READ_BUFFER_BYTES.
Proof.
  intros Hm. unfold stream_read. case_match; [done|]. induction outcomes as [|[b| |] outcomes IH]; cbn [read_loop]; try done.
  intros [= <-]. rewrite length_take. unfold READ_BUFFER_BYTES in *. lia.
Qed.

(** A write that succeeds was taken whole and in order; one that fails, in part. *)
Lemma stream_write_prefix outcomes remaining :
  let '(r, taken) := stream_write remaining outcomes in
  taken `prefix_of` remaining /\ (r = Ok () -> taken = remaining).
Proof.
  revert remaining. induction outcomes as [|o outcomes IH]; intros [|b remaining]; cbn [stream_write]; try done.
  { split; [apply prefix_nil|done]. }
  destruct o as [[|n]| |]; try (split; [apply prefix_nil|done]); [|apply (IH (b :: remaining))].
  specialize (IH (drop (S n) (b :: remaining))). destruct (stream_write _ outcomes) as [r taken].
  destruct IH as [Hp Hr]. pose proof (take_drop (S n) (b :: remaining)) as Htd. split.
  - rewrite <-Htd at 2. by apply prefix_app.
  - intros ->. by rewrite Hr.
Qed.
End UnixSockets.

(** ** An example network

    One machine that answers everything over the loopback interface. *)

Module Example.
Import HttpLib.Sample.

(** A stream is its port. *)
#[local] Instance ex_net : Net := {|
  World := Z;
  TcpStream := Z;
  TlsStream := Z;
  ServerName := rstr;
  ClientConfig := list (list byte);
  tcp_connect uri w := (Some (default 80 (port_u16 uri)), w + 1);
  peer_addr port := Some (SockV4 [127; 0; 0; 1] port);
  server_name_try_from name := Some name;
  extra_roots_config roots := Some roots;
  tls_connect config name stream w := (Some stream, w + 1);
  elapsed deadline w := deadline <? w;
|}.

#[local] Instance ex_net_spec : NetSpec.
Proof. intros port a [= <-]. split; [done|]. repeat constructor; lia. Qed.

#[local] Instance ex_hyper : Hyper := {|
  Client := PolicyConnector;
  HyperError := TransportError;
  client_build k := k;
  client_connector k := k;
  client_request c request w :=
    match policy_connect true c (hq_uri request) w with
    | (Ok connection, w) => (Ok (mk_hyper_response 200 headers_new (Some (connection_verified connection)) [FrameData (str "done")]), w)
    | (Err e, w) => (Err e, w)
    end;
  error_chain e := [None; Some e];
  is_connect e := false;
|}.

#[local] Instance ex_hyper_spec : HyperSpec true.
Proof.
  split; [done|]. intros c request w r w' v. cbn. destruct (policy_connect true c (hq_uri request) w) as [[connection|e] w1] eqn:Hc; [|done].
  intros [= <- <-] [= <-]. by exists (hq_uri request), w, connection, w1.
Qed.

Definition ex_endpoint (host : rstr) : NetworkEndpoint :=
  mk_endpoint (mk_uri (Some (str "http")) (Some (host ++ str ":8080")) (str "/hook") None) SchemeHttp.
Definition ex_request (host : rstr) : HttpRequest :=
  mk_http_request (str "POST") (ex_endpoint host) headers_new (str "{}") 1000 EndpointPolicy_default HttpLimits_default.
Definition ex_evidence : VerifiedConnection := mk_verified (EvidenceCleartext (PeerAddress_new (V4 [127; 0; 0; 1]) 8080)).

(** The second request is sent with the client that was made for the first. *)
Lemma responses_over_permitted_connections_witness :
  let s := foldl (net_step true) (mk_net_transport (Some []) [], 0) [StepSend [] (ex_request (str "localhost"))] in
  let '(r, t, w) := send_request true [] (ex_request (str "LOCALHOST")) s.1 s.2 in
  r = Ok (mk_http_response 200 headers_new (str "done") ex_evidence) /\
  permitted EndpointPolicy_default (ex_endpoint (str "LOCALHOST")) (verified_evidence ex_evidence) /\
  length <$> nt_clients t = Some 1%nat.
Proof.
  set (s := foldl _ _ _). destruct (send_request true [] (ex_request (str "LOCALHOST")) s.1 s.2) as [[r t] w] eqn:Hs.
  assert (r = Ok (mk_http_response 200 headers_new (str "done") ex_evidence) /\ length <$> nt_clients t = Some 1%nat) as [-> Hlen].
  { subst s. unfold ex_request in Hs. revert Hs. intros [= <- <- <-]. split; reflexivity. }
  split_and!; [done| |done].
  refine (proj1 (responses_over_permitted_connections true [] 0 [StepSend [] (ex_request (str "localhost"))] []
    (ex_request (str "LOCALHOST")) (mk_http_response 200 headers_new (str "done") ex_evidence) t w Hs)).
Defined.
End Example.
