(* ===== verification/RateWindow.v ===== *)
(** * RateWindow: the sliding windows of the HTTP server

    crates/engine/bondry-http-server/src/rate_limit.rs.  [SlidingWindow] keeps, for each
    key, the instants of the events it allowed during the last minute; [check] asks without
    counting, [consume] counts what it allows.  Instants are nanoseconds of the monotonic
    clock; [EarliestInstant] is the earliest one the platform can represent, below which
    [Instant::checked_sub] has no result.

    [sliding_window_exact] compares any sequence of calls with a limiter that keeps the whole
    history and counts: the answers are the same, and no window of a minute holds more
    events of a key than its limit. *)

From S2P Require Import Prelude.

Class EarliestInstant := earliest_instant : Z.

(** [Instant::checked_sub]. *)
Definition instant_checked_sub `{EarliestInstant} (now d : Z) : option Z :=
  if earliest_instant <=? now - d then Some (now - d) else None.

(** [Instant::saturating_duration_since]. *)
Definition duration_since (now earlier : Z) : Z := sat_sub now earlier.

Definition WINDOW : Z := from_secs 60.

Inductive RateLimitDecision :=
| Allowed
| Limited (retry_after : Z).

#[global] Instance RateLimitDecision_eq_dec : EqDecision RateLimitDecision.
Proof. solve_decision. Defined.

(** ** The limiter *)

Section Limiter.
  Context `{EarliestInstant}.

Fixpoint pop_front_while (cutoff : Z) (window : list Z) : list Z :=
  match window with
  | recorded :: rest => if recorded <=? cutoff then pop_front_while cutoff rest else window
  | [] => []
  end.

Definition clean_window (window : list Z) (now : Z) : list Z :=
  let cutoff := default now (instant_checked_sub now WINDOW) in
  pop_front_while cutoff window.

Definition retry_decision (window : list Z) (now : Z) : RateLimitDecision :=
  Limited (match window with
           | [] => 1
           | recorded :: _ =>
               let elapsed := duration_since now recorded in
               Z.max (as_secs (sat_sub WINDOW elapsed)) 1
           end).

  Context `{Countable K}.

(** [SlidingWindow] with its [RateLimitState]. *)
Record SlidingWindow := mk_sliding_window {
  windows : gmap K (list Z);
  operations : Z;
}.

Definition SlidingWindow_new : SlidingWindow := mk_sliding_window ∅ 0.

(** [HashMap::retain] drops the windows that cleaning leaves empty. *)
Definition clean_retained (now : Z) (window : list Z) : option (list Z) :=
  match clean_window window now with [] => None | cleaned => Some cleaned end.

Definition clean_periodically (now : Z) (w : SlidingWindow) : SlidingWindow :=
  let operations := wrap_add U8_MAX (operations w) 1 in
  if negb (operations =? 0) then mk_sliding_window (windows w) operations
  else mk_sliding_window (omap (clean_retained now) (windows w)) operations.

Definition window_check (key : K) (limit now : Z) (w : SlidingWindow) : RateLimitDecision * SlidingWindow :=
  let w := clean_periodically now w in
  match windows w !! key with
  | None => (Allowed, w)
  | Some window =>
      let window := clean_window window now in
      let w := mk_sliding_window (<[key := window]> (windows w)) (operations w) in
      if limit <=? Z.of_nat (length window) then (retry_decision window now, w) else (Allowed, w)
  end.

Definition window_consume (key : K) (limit now : Z) (w : SlidingWindow) : RateLimitDecision * SlidingWindow :=
  let w := clean_periodically now w in
  let window := clean_window (default [] (windows w !! key)) now in
  let keep window := mk_sliding_window (<[key := window]> (windows w)) (operations w) in
  if limit <=? Z.of_nat (length window) then (retry_decision window now, keep window)
  else (Allowed, keep (window ++ [now])).

(** ** The limiter that counts

    A history lists the allowed events, the latest last. *)

Definition times (key : K) (h : list (K * Z)) : list Z := (filter (fun e => e.1 = key) h).*2.
Definition recent (key : K) (now : Z) (h : list (K * Z)) : list Z := filter (fun t => now - WINDOW < t) (times key h).
Definition events_within (key : K) (start : Z) (h : list (K * Z)) : nat :=
  length (filter (fun t => start < t <= start + WINDOW) (times key h)).

Definition counted_decision (key : K) (limit now : Z) (h : list (K * Z)) : RateLimitDecision :=
  if Z.of_nat (length (recent key now h)) <? limit then Allowed
  else Limited (match recent key now h with
                | [] => 1
                | oldest :: _ => Z.max 1 ((oldest + WINDOW - now) / NANOS_PER_SEC)
                end).

Inductive window_call :=
| CallCheck (key : K) (limit now : Z)
| CallConsume (key : K) (limit now : Z).

Definition call_key (c : window_call) : K := match c with CallCheck k _ _ | CallConsume k _ _ => k end.
Definition call_limit (c : window_call) : Z := match c with CallCheck _ l _ | CallConsume _ l _ => l end.
Definition call_now (c : window_call) : Z := match c with CallCheck _ _ n | CallConsume _ _ n => n end.

Definition call_window (c : window_call) (w : SlidingWindow) : RateLimitDecision * SlidingWindow :=
  match c with
  | CallCheck key limit now => window_check key limit now w
  | CallConsume key limit now => window_consume key limit now w
  end.

(** What a call that was answered with a decision adds to the history. *)
Definition call_event (c : window_call) (decision : RateLimitDecision) : list (K * Z) :=
  match c, decision with
  | CallConsume key _ now, Allowed => [(key, now)]
  | _, _ => []
  end.

Fixpoint run_windows (calls : list window_call) (w : SlidingWindow) : list RateLimitDecision * SlidingWindow :=
  match calls with
  | [] => ([], w)
  | c :: calls =>
      let '(decision, w) := call_window c w in
      let '(decisions, w) := run_windows calls w in
      (decision :: decisions, w)
  end.

Fixpoint run_counted (calls : list window_call) (h : list (K * Z)) : list RateLimitDecision * list (K * Z) :=
  match calls with
  | [] => ([], h)
  | c :: calls =>
      let decision := counted_decision (call_key c) (call_limit c) (call_now c) h in
      let '(decisions, h) := run_counted calls (h ++ call_event c decision) in
      (decision :: decisions, h)
  end.

(** ** Lemmas *)

Lemma pop_front_while_filter cutoff l :
  StronglySorted Z.le l -> pop_front_while cutoff l = filter (fun t => cutoff < t) l.
Proof.
  induction 1 as [|t l Hs IH Ht]; [done|]. cbn [pop_front_while]. rewrite filter_cons.
  destruct (Z.leb_spec t cutoff); [rewrite decide_False by lia; done|]. rewrite decide_True by lia. f_equal.
  symmetry. clear IH Hs. induction l as [|u l IH]; [done|]. apply Forall_cons in Ht as [Hu Ht].
  rewrite filter_cons, decide_True by lia. f_equal. by apply IH.
Qed.

Lemma window_times_app key h h' : times key (h ++ h') = times key h ++ times key h'.
Proof. unfold times. by rewrite filter_app, fmap_app. Qed.

Lemma times_single key key' t : times key [(key', t)] = if decide (key' = key) then [t] else [].
Proof. unfold times. rewrite filter_cons. cbn. by case_decide. Qed.

(** The stored windows are the history without some events that are no longer recent. *)
Record stored (last : Z) (h : list (K * Z)) (w : SlidingWindow) : Prop := {
  st_sorted key : StronglySorted Z.le (times key h);
  st_past key : Forall (fun t => t <= last) (times key h);
  st_window key : exists dropped, times key h = dropped ++ default [] (windows w !! key) /\
    Forall (fun t => t <= last - WINDOW) dropped;
}.

Lemma stored_new last : stored last [] SlidingWindow_new.
Proof. split; intros key; [constructor..|]. exists []. split; [|done]. cbn. by rewrite lookup_empty. Qed.

Lemma filter_none {A} (P : A -> Prop) `{!forall x, Decision (P x)} l : Forall (fun x => ~ P x) l -> filter P l = [].
Proof. induction 1; [done|]. by rewrite filter_cons, decide_False. Qed.

Lemma filter_all {A} (P : A -> Prop) `{!forall x, Decision (P x)} l : Forall P l -> filter P l = l.
Proof. induction 1; [done|]. rewrite filter_cons, decide_True by done. by f_equal. Qed.

(** Cleaning a window leaves the recent events. *)
Lemma clean_stored last now h w key :
  stored last h w -> last <= now -> earliest_instant + WINDOW <= now ->
  clean_window (default [] (windows w !! key)) now = recent key now h.
Proof.
  intros [Hs _ Hw] Hl Hn. destruct (Hw key) as (dropped & Hq & Hd). unfold clean_window, instant_checked_sub, recent.
  specialize (Hs key). rewrite Hq in *. destruct (Z.leb_spec earliest_instant (now - WINDOW)); [|lia]. cbn [default].
  rewrite pop_front_while_filter, filter_app.
  - rewrite (filter_none _ dropped); [done|]. eapply Forall_impl; [exact Hd|]. intros t Ht. cbn in *. lia.
  - eapply StronglySorted_sublist; [|exact Hs]. by apply sublist_inserts_l.
Qed.

Lemma stored_forward last now h w : stored last h w -> last <= now -> stored now h w.
Proof.
  intros [Hs Hp Hw] Hl. split; [done|..]; intros key.
  - eapply Forall_impl; [exact (Hp key)|]. intros t Ht. cbn in *. lia.
  - destruct (Hw key) as (dropped & Hq & Hd). exists dropped. split; [done|].
    eapply Forall_impl; [exact Hd|]. intros t Ht. cbn in *. lia.
Qed.

(** A window may be replaced by the recent events. *)
Lemma recent_suffix now h w key :
  stored now h w -> exists dropped, times key h = dropped ++ recent key now h /\ Forall (fun t => t <= now - WINDOW) dropped.
Proof.
  intros [Hs _ _]. specialize (Hs key). unfold recent. induction Hs as [|t l Hl IH Ht]; [by exists []|].
  rewrite filter_cons. case_decide as Hr.
  - exists []. split; [|done]. cbn. f_equal. symmetry. apply filter_all. eapply Forall_impl; [exact Ht|]. intros x Hx. cbn in *. lia.
  - destruct IH as (dropped & Hq & Hd). exists (t :: dropped). split; [by rewrite Hq at 1|]. constructor; [lia|done].
Qed.

Lemma clean_periodically_stored last now h w :
  stored last h w -> last <= now -> earliest_instant + WINDOW <= now -> stored now h (clean_periodically now w).
Proof.
  intros Hst Hl Hn. pose proof (stored_forward _ _ _ _ Hst Hl) as Hf. unfold clean_periodically.
  destruct (negb _). { by destruct Hf as [? ? ?]. }
  split; [apply Hf..|]. intros key. cbn [windows]. rewrite lookup_omap.
  pose proof (clean_stored _ _ _ _ key Hst Hl Hn) as Hc. pose proof (recent_suffix now h w key Hf) as Hr.
  rewrite <-Hc in Hr. destruct (windows w !! key) as [q|]; [|exact Hr].
  change (default [] (Some q)) with q in Hr. change (Some q ≫= clean_retained now) with (clean_retained now q).
  unfold clean_retained. by destruct (clean_window q now).
Qed.

(** Replacing the window of one key by the recent events, followed by an allowed event. *)
Lemma stored_insert now h w key ops :
  stored now h w -> stored now h (mk_sliding_window (<[key := recent key now h]> (windows w)) ops).
Proof.
  intros Hst. split; [apply Hst..|]. intros k. cbn [windows]. destruct (decide (k = key)) as [-> |Hk].
  - rewrite lookup_insert_eq. by eapply recent_suffix.
  - rewrite lookup_insert_ne by done. apply Hst.
Qed.

Lemma stored_push now h w key ops :
  stored now h w ->
  stored now (h ++ [(key, now)]) (mk_sliding_window (<[key := recent key now h ++ [now]]> (windows w)) ops).
Proof.
  intros Hst. pose proof (st_past _ _ _ Hst) as Hp. pose proof (st_sorted _ _ _ Hst) as Hs.
  split; intros k; rewrite window_times_app, times_single; case_decide as Hk; rewrite ?app_nil_r; try done.
  - specialize (Hp k). specialize (Hs k). induction Hs as [|t l Hl IH Ht]; [by repeat constructor|].
    apply Forall_cons in Hp as [Hp1 Hp]. cbn. constructor; [by apply IH|]. rewrite Forall_app. split; [done|by constructor].
  - rewrite Forall_app. split; [done|]. constructor; [lia|done].
  - subst k. cbn [windows]. rewrite lookup_insert_eq. destruct (recent_suffix now h w key Hst) as (dropped & Hq & Hd).
    exists dropped. split; [|done]. cbn. by rewrite Hq at 1; rewrite <-app_assoc.
  - cbn [windows]. rewrite lookup_insert_ne by done. apply Hst.
Qed.

Lemma retry_recent last now h w key :
  stored last h w -> last <= now ->
  retry_decision (recent key now h) now =
    Limited (match recent key now h with [] => 1 | oldest :: _ => Z.max 1 ((oldest + WINDOW - now) / NANOS_PER_SEC) end).
Proof.
  intros Hst Hl. unfold retry_decision. destruct (recent key now h) as [|t l] eqn:Hr; [done|].
  assert (t ∈ recent key now h) as [Hgt Hin]%list_elem_of_filter by (rewrite Hr; by left).
  pose proof (st_past _ _ _ Hst key) as Hp. rewrite Forall_forall in Hp. specialize (Hp t Hin).
  unfold duration_since, sat_sub, as_secs, WINDOW in *. f_equal. rewrite Z.max_comm. do 2 f_equal. lia.
Qed.

(** One call answers as the counting limiter and keeps the correspondence. *)
Lemma call_window_stored last h w c :
  stored last h w -> last <= call_now c -> earliest_instant + WINDOW <= call_now c -> 1 <= call_limit c ->
  let decision := counted_decision (call_key c) (call_limit c) (call_now c) h in
  exists w', call_window c w = (decision, w') /\ stored (call_now c) (h ++ call_event c decision) w'.
Proof.
  intros Hst Hl Hn Hlim decision. pose proof (clean_periodically_stored _ _ _ _ Hst Hl Hn) as Hc.
  pose proof (clean_stored _ _ _ _ (call_key c) Hc (Z.le_refl _) Hn) as Hq.
  pose proof (retry_recent _ _ _ _ (call_key c) Hst Hl) as Hretry. subst decision. unfold counted_decision.
  destruct c as [key limit now|key limit now]; cbn [call_window call_key call_limit call_now call_event] in *.
  - unfold window_check. destruct (windows (clean_periodically now w) !! key) as [q|] eqn:Hw; cbn [default id] in Hq.
    + rewrite Hq. destruct (Z.leb_spec limit (Z.of_nat (length (recent key now h)))), (Z.ltb_spec (Z.of_nat (length (recent key now h))) limit); try lia;
        rewrite ?Hretry, app_nil_r; (eexists; split; [done|by apply stored_insert]).
    + rewrite <-Hq. destruct (Z.ltb_spec (Z.of_nat (length (clean_window [] now))) limit) as [|Hge]; [|cbn in Hge; lia].
      rewrite app_nil_r. by eexists.
  - unfold window_consume. rewrite Hq.
    destruct (Z.leb_spec limit (Z.of_nat (length (recent key now h)))), (Z.ltb_spec (Z.of_nat (length (recent key now h))) limit); try lia.
    + rewrite Hretry, app_nil_r. eexists; split; [done|by apply stored_insert].
    + eexists; split; [done|by apply stored_push].
Qed.

Lemma run_windows_stored last h w calls :
  stored last h w -> Sorted Z.le (last :: (call_now <$> calls)) ->
  Forall (fun c => earliest_instant + WINDOW <= call_now c /\ 1 <= call_limit c) calls ->
  (run_windows calls w).1 = (run_counted calls h).1.
Proof.
  intros Hst Hs Hc. revert last h w Hst Hs. induction Hc as [|c calls [He Hlim] _ IH]; intros last h w Hst Hs; [done|].
  rewrite fmap_cons in Hs. apply Sorted_inv in Hs as [Hs Hl%HdRel_inv]. cbn [run_windows run_counted].
  destruct (call_window_stored last h w c Hst Hl He Hlim) as (w' & -> & Hst'). specialize (IH _ _ _ Hst' Hs).
  destruct (run_windows calls w'), (run_counted calls _). cbn in *. by f_equal.
Qed.

(** The counting limiter keeps every window of a minute within the limit of its key. *)
Lemma counted_within (limits : K -> Z) key start h c :
  call_limit c = limits (call_key c) -> 0 <= limits key ->
  Z.of_nat (events_within key start h) <= limits key -> Forall (fun t => t <= call_now c) (times key h) ->
  Z.of_nat (events_within key start (h ++ call_event c (counted_decision (call_key c) (call_limit c) (call_now c) h))) <= limits key.
Proof.
  intros Hlim Hpos Hw Hp. destruct c as [k limit now|k limit now]; cbn [call_event call_key call_limit call_now] in *; [by rewrite app_nil_r|].
  unfold counted_decision. destruct (Z.ltb_spec (Z.of_nat (length (recent k now h))) limit) as [Hlt|]; [|by rewrite app_nil_r].
  unfold events_within in *. rewrite window_times_app, times_single. case_decide as Hk; [|by rewrite app_nil_r]. subst k limit.
  rewrite filter_app, filter_cons, length_app. case_decide as Hin; cbn [length]; [|cbn; lia].
  enough (filter (fun t => start < t <= start + WINDOW) (times key h) `sublist_of` recent key now h) as Hsub%sublist_length
    by (cbn in *; lia).
  unfold recent. clear -Hin. induction (times key h) as [|t l IH]; [done|]. rewrite !filter_cons.
  destruct (decide (start < t <= start + WINDOW)); [rewrite (decide_True (P := now - WINDOW < t)) by lia; by constructor|].
  case_decide; [by constructor|done].
Qed.

Lemma call_event_times key c d : times key (call_event c d) = [] \/ times key (call_event c d) = [call_now c].
Proof.
  destruct c as [k limit now|k limit now], d; cbn [call_event call_now]; try (by left).
  rewrite times_single. case_decide; [by right|by left].
Qed.

Lemma run_counted_within (limits : K -> Z) key start last h calls :
  (forall k, 0 <= limits k) -> Forall (fun c => call_limit c = limits (call_key c)) calls ->
  Sorted Z.le (last :: (call_now <$> calls)) -> Forall (fun t => t <= last) (times key h) ->
  Z.of_nat (events_within key start h) <= limits key ->
  Z.of_nat (events_within key start (run_counted calls h).2) <= limits key.
Proof.
  intros Hpos Hc. revert last h. induction Hc as [|c calls Hlim _ IH]; intros last h Hs Hp Hw; [done|].
  rewrite fmap_cons in Hs. apply Sorted_inv in Hs as [Hs Hl%HdRel_inv]. cbn [run_counted].
  assert (Forall (fun t => t <= call_now c) (times key h)) as Hp' by (eapply Forall_impl; [exact Hp|intros t Ht; cbn in *; lia]).
  set (d := counted_decision _ _ _ h).
  assert (Forall (fun t => t <= call_now c) (times key (h ++ call_event c d))) as Hp2.
  { rewrite window_times_app, Forall_app. split; [done|]. destruct (call_event_times key c d) as [-> | ->]; repeat constructor; lia. }
  specialize (IH _ _ Hs Hp2 (counted_within limits key start h c Hlim (Hpos key) Hw Hp')).
  by destruct (run_counted calls _).
Qed.

(** C36: the sliding windows.  Take any calls of a server's rate limiter, in the order of the
    monotonic clock, at least a minute after its earliest instant and with one limit for each
    key.  They are answered as by a limiter that remembers every allowed event and counts the
    ones of the last minute, whatever windows were cleaned or dropped in between: allowed when
    there are fewer than the limit, else with the wait until the oldest of them expires, in
    whole seconds and at least one.  In no window of a minute are more events of a key allowed
    than its limit, and checking counts for nothing.  [early_instants_unlimited] is about the
    first minute of the clock. *)
Theorem sliding_window_exact (limits : K -> Z) calls start key :
  Sorted Z.le (call_now <$> calls) ->
  Forall (fun c => earliest_instant + WINDOW <= call_now c) calls ->
  Forall (fun c => call_limit c = limits (call_key c)) calls -> (forall k, 1 <= limits k) ->
  (run_windows calls SlidingWindow_new).1 = (run_counted calls []).1 /\
  Z.of_nat (events_within key start (run_counted calls []).2) <= limits key.
Proof.
  intros Hs He Hl H1. set (first := match calls with c :: _ => call_now c | [] => 0 end).
  assert (Sorted Z.le (first :: (call_now <$> calls))) as Hs'.
  { constructor; [done|]. destruct calls; constructor. subst first. lia. }
  split.
  - eapply (run_windows_stored first); [apply stored_new|done|]. rewrite Forall_forall in *.
    intros c Hin. split; [by apply He|]. rewrite (Hl c Hin). apply H1.
  - eapply (run_counted_within limits key start first); [intros k; specialize (H1 k); lia|done|done|constructor|].
    specialize (H1 key). cbn. lia.
Qed.
End Limiter.

(** Where the clock can read less than a minute, the cutoff is the present: every window is
    emptied, and nothing is limited. *)
Lemma early_instants_unlimited `{EarliestInstant} `{Countable K} (key : K) limit now w :
  now < earliest_instant + WINDOW -> 1 <= limit -> Forall (fun t => t <= now) (default [] (windows w !! key)) ->
  (window_consume key limit now w).1 = Allowed.
Proof.
  intros Hn Hl Hp. unfold window_consume.
  assert (forall q, Forall (fun t => t <= now) q -> clean_window q now = []) as Hclean.
  { intros q Hq. unfold clean_window, instant_checked_sub. destruct (Z.leb_spec earliest_instant (now - WINDOW)); [lia|]. cbn.
    induction Hq as [|t q Ht _ IH]; [done|]. cbn. by destruct (Z.leb_spec t now); [|lia]. }
  rewrite Hclean; [by destruct (Z.leb_spec limit (Z.of_nat (length (@nil Z)))); [cbn in *; lia|]|].
  unfold clean_periodically. destruct (negb _); [done|]. cbn [windows]. rewrite lookup_omap.
  destruct (windows w !! key) as [q|]; [|by constructor]. cbn in Hp.
  change (Some q ≫= clean_retained now) with (clean_retained now q). unfold clean_retained. by rewrite Hclean.
Qed.

Module Example.
#[local] Instance at_boot : EarliestInstant := 0.

(** The wait a limited caller is told is rounded down, so that half a second may be missing
    after it. *)
Lemma retry_after_short :
  (run_windows (K := Z) [CallConsume 0 1 100000000000; CallConsume 0 1 100500000000; CallConsume 0 1 159500000000] SlidingWindow_new).1
  = [Allowed; Limited 59; Limited 1].
Proof. by vm_compute. Qed.

Definition calls : list (window_call (K := Z)) :=
  [CallCheck 1 2 100000000000; CallConsume 1 2 100000000000; CallConsume 2 1 110000000000; CallConsume 1 2 120000000000;
   CallConsume 1 2 130000000000; CallCheck 1 2 161000000000; CallConsume 1 2 161000000000].
Definition limit_of (key : Z) : Z := if key =? 1 then 2 else 1.

Lemma sliding_window_exact_witness :
  (run_windows calls SlidingWindow_new).1 = [Allowed; Allowed; Allowed; Allowed; Limited 30; Allowed; Allowed] /\
  (run_windows calls SlidingWindow_new).1 = (run_counted calls []).1 /\
  Z.of_nat (events_within 1 100000000000 (run_counted calls []).2) <= limit_of 1.
Proof.
  split; [by vm_compute|]. apply (sliding_window_exact limit_of).
  - apply (bool_decide_unpack _); by vm_compute.
  - by apply (bool_decide_unpack _); vm_compute.
  - by apply (bool_decide_unpack _); vm_compute.
  - intros k. unfold limit_of. destruct (k =? 1); lia.
Defined.
End Example.
