(* ===== verification/RawBody.v ===== *)
(** * RawBody: raw-body handlers of the HTTP server

    crates/engine/bondry-http-server/src/raw_body.rs.  A host registers handlers for exact
    POST paths.  A registration is a generation: enabled, then draining while its accepted
    requests complete, then detached, when its handler has been released.  The registry maps
    paths to generations; requests reserve memory from one budget.

    The code takes two locks, the registry's and one for each generation, and lets go of them
    in between.  Its operations are therefore cut where the locks are: [step] is one critical
    section, and [run_registry] any interleaving of them.  A generation is named by its place
    in [generations], as [Arc::as_ptr] names it.  Admission rates are those of [RateWindow].

    [raw_body_generations_sound] states what every reachable state guarantees. *)

From S2P Require Import Prelude Text HttpLib RateWindow.

Definition MAX_RAW_BODY_BYTES : Z := 4 * 1024 * 1024.
Definition MIN_RAW_BODY_BYTES : Z := 1024.
Definition MAX_REQUEST_RETAINED_BYTES : Z := 10 * 1024 * 1024.
Definition MAX_RETAINED_BYTES : Z := 32 * 1024 * 1024.
Definition MIN_RETAINED_BYTES : Z := 1024 * 1024.
Definition MAX_SELECTED_HEADERS : Z := 32.
Definition MAX_SELECTED_HEADER_BYTES : Z := 8 * 1024.
Definition MAX_SELECTED_HEADERS_BYTES : Z := 64 * 1024.
Definition MAX_PRE_AUTHENTICATION_PEER_RATE : Z := 600.
Definition MAX_PRE_AUTHENTICATION_ROUTE_RATE : Z := 1200.
Definition MAX_REGISTERED_HANDLERS : Z := 16.
Definition MAX_DRAIN_DEADLINE : Z := from_secs 60.
Definition MIN_DRAIN_DEADLINE : Z := from_secs 1.

Inductive RawBodyRouteError :=
| RouteInvalidBodyLimit
| RouteInvalidRetainedBytes
| RouteInvalidAggregateRetainedBytes
| RouteInvalidDrainDeadline
| RouteInvalidSelectedHeaderLimit
| RouteInvalidSelectedHeadersLimit
| RouteInvalidPeerRateLimit
| RouteInvalidRouteRateLimit
| RouteInvalidPath
| RouteTooManySelectedHeaders
| RouteDuplicateSelectedHeader
| RouteInvalidResponse.

Inductive RawBodyRegistrationError :=
| RegistrationAlreadyRegistered
| RegistrationCapacityExhausted
| RegistrationServerStopping
| RegistrationBodyLimitExceedsAggregate
| RegistrationInvalidDrainDeadline
| RegistrationDrainTimedOut
| RegistrationProtocolConflict.

(** ** Limits *)

Record RawBodyServerLimits := mk_server_limits {
  aggregate_retained_bytes : Z;
  shutdown_drain_deadline : Z;
}.

Definition RawBodyServerLimits_new (aggregate deadline : Z) : result RawBodyRouteError RawBodyServerLimits :=
  if negb (in_range MIN_RETAINED_BYTES MAX_RETAINED_BYTES aggregate) then Err RouteInvalidAggregateRetainedBytes
  else if (deadline <? MIN_DRAIN_DEADLINE) || (MAX_DRAIN_DEADLINE <? deadline) then Err RouteInvalidDrainDeadline
  else Ok (mk_server_limits aggregate deadline).

Definition RawBodyServerLimits_default : RawBodyServerLimits := mk_server_limits (8 * 1024 * 1024) (from_secs 10).

Record RawBodyHandlerLimits := mk_handler_limits {
  body_bytes : Z;
  retained_bytes : Z;
  selected_header_bytes : Z;
  selected_headers_bytes : Z;
  peer_rate : Z;
  route_rate : Z;
}.

Definition RawBodyHandlerLimits_new (body retained header headers peer route : Z) : result RawBodyRouteError RawBodyHandlerLimits :=
  if (body <? MIN_RAW_BODY_BYTES) || (MAX_RAW_BODY_BYTES <? body) then Err RouteInvalidBodyLimit
  else if (retained <? body) || (MAX_REQUEST_RETAINED_BYTES <? retained) then Err RouteInvalidRetainedBytes
  else if (header =? 0) || (MAX_SELECTED_HEADER_BYTES <? header) then Err RouteInvalidSelectedHeaderLimit
  else if (headers =? 0) || (MAX_SELECTED_HEADERS_BYTES <? headers) then Err RouteInvalidSelectedHeadersLimit
  else if (peer =? 0) || (MAX_PRE_AUTHENTICATION_PEER_RATE <? peer) then Err RouteInvalidPeerRateLimit
  else if (route =? 0) || (MAX_PRE_AUTHENTICATION_ROUTE_RATE <? route) then Err RouteInvalidRouteRateLimit
  else Ok (mk_handler_limits body retained header headers peer route).

Definition RawBodyHandlerLimits_default : RawBodyHandlerLimits :=
  mk_handler_limits 1048576 (3 * 1048576) (2 * 1024) (32 * 1024) 60 120.

(** ** Routes *)

Record RawBodyRoute := mk_raw_route {
  raw_path : rstr;
  raw_selected_headers : list rstr;
  raw_limits : RawBodyHandlerLimits;
}.

(** [HashSet::insert] says whether the value is new. *)
Fixpoint any_duplicate (unique : gset rstr) (headers : list rstr) : bool :=
  match headers with
  | [] => false
  | header :: rest => if bool_decide (header ∈ unique) then true else any_duplicate ({[header]} ∪ unique) rest
  end.

(** [PathAndQuery::from_str] of the [http] crate gives the path and the query. *)
Class PathAndQueryCrate := path_and_query_parse : rstr -> option (rstr * option rstr).

Definition RawBodyRoute_post `{PathAndQueryCrate} (path : rstr) (selected_headers : list rstr) (limits : RawBodyHandlerLimits)
    : result RawBodyRouteError RawBodyRoute :=
  parsed ← ok_or (path_and_query_parse path) RouteInvalidPath;
  if (str_len path <=? 1) || bool_decide (is_Some parsed.2) || negb (bool_decide (parsed.1 = path)) then Err RouteInvalidPath
  else if MAX_SELECTED_HEADERS <? Z.of_nat (length selected_headers) then Err RouteTooManySelectedHeaders
  else if any_duplicate ∅ selected_headers then Err RouteDuplicateSelectedHeader
  else Ok (mk_raw_route path selected_headers limits).

(** ** Responses *)

Record RawBodyResponse := mk_raw_response {
  raw_status : Z;
  raw_retry_after_seconds : option Z;
  raw_error_code : option rstr;
}.

(** [StatusCode::is_informational]; [SWITCHING_PROTOCOLS] is 101. *)
Definition is_informational (status : Z) : bool := in_range 100 199 status.

Definition RawBodyResponse_new (status : Z) (retry_after_seconds : option Z) : result RawBodyRouteError RawBodyResponse :=
  if is_informational status || (status =? 101) then Err RouteInvalidResponse
  else if bool_decide (retry_after_seconds = Some 0) then Err RouteInvalidResponse
  else Ok (mk_raw_response status retry_after_seconds None).

Definition code_byte (byte : Z) : bool := in_range 97 122 byte || in_range 48 57 byte || (byte =? 95).

Definition with_error_code `{HeaderCrate} (r : RawBodyResponse) (error_code : rstr) : result RawBodyRouteError RawBodyResponse :=
  if is_success (raw_status r) || bool_decide (error_code = []) || (128 <? str_len error_code) || negb (forallb code_byte (as_bytes error_code))
  then Err RouteInvalidResponse
  else Ok (mk_raw_response (raw_status r) (raw_retry_after_seconds r) (Some error_code)).

Definition RawBodyResponse_no_content : RawBodyResponse := mk_raw_response 204 None None.
Definition RawBodyResponse_internal_server_error : RawBodyResponse := mk_raw_response 500 None (Some (str "raw_body_handler_failed")).

(** ** Generations *)

Inductive RawBodyLifecycle :=
| LifecycleEnabled
| LifecycleDraining
| LifecycleDetached.

#[global] Instance RawBodyLifecycle_eq_dec : EqDecision RawBodyLifecycle.
Proof. solve_decision. Defined.

Section Registry.
  Context {Handler : Type}.

(** [Generation] with its [GenerationState]. *)
Record Generation := mk_generation {
  gen_route : RawBodyRoute;
  lifecycle : RawBodyLifecycle;
  active_requests : Z;
  gen_handler : option Handler;
}.

Record ActiveRequest := mk_active_request {
  ar_generation : nat;
  ar_handler : Handler;
}.

(** [RegistryState], with the generations that exist anywhere; [dropped] tells that the
    registry is gone and a [Weak] to it no longer upgrades. *)
Record RegistryState := mk_registry {
  generations : list Generation;
  routes : gmap rstr nat;
  stopping : bool;
  dropped : bool;
}.

Definition Registry_new : RegistryState := mk_registry [] ∅ false false.

Definition lifecycle_of (s : RegistryState) (g : nat) : RawBodyLifecycle :=
  match generations s !! g with Some G => lifecycle G | None => LifecycleDetached end.

Definition set_generation (g : nat) (G : Generation) (s : RegistryState) : RegistryState :=
  mk_registry (<[g := G]> (generations s)) (routes s) (stopping s) (dropped s).

Definition set_routes (r : gmap rstr nat) (s : RegistryState) : RegistryState :=
  mk_registry (generations s) r (stopping s) (dropped s).

Definition register (limits : RawBodyServerLimits) (route : RawBodyRoute) (handler : Handler) (s : RegistryState)
    : result RawBodyRegistrationError nat * RegistryState :=
  if aggregate_retained_bytes limits <? retained_bytes (raw_limits route) then (Err RegistrationBodyLimitExceedsAggregate, s)
  else if stopping s then (Err RegistrationServerStopping, s)
  else if match routes s !! raw_path route with
          | Some existing => negb (bool_decide (lifecycle_of s existing = LifecycleDetached))
          | None => false
          end then (Err RegistrationAlreadyRegistered, s)
  else
    let s := set_routes (filter (fun entry => lifecycle_of s entry.2 <> LifecycleDetached) (routes s)) s in
    if MAX_REGISTERED_HANDLERS <=? Z.of_nat (size (routes s)) then (Err RegistrationCapacityExhausted, s)
    else
      let generation := mk_generation route LifecycleEnabled 0 (Some handler) in
      let g := length (generations s) in
      (Ok g, mk_registry (generations s ++ [generation]) (<[raw_path route := g]> (routes s)) (stopping s) (dropped s)).

(** [Generation::accept]. *)
Definition accept (g : nat) (s : RegistryState) : option ActiveRequest * RegistryState :=
  match generations s !! g with
  | None => (None, s)
  | Some G =>
      if negb (bool_decide (lifecycle G = LifecycleEnabled)) then (None, s)
      else match gen_handler G with
           | None => (None, s)
           | Some handler =>
               if USIZE_MAX <? active_requests G + 1 then (None, s)
               else (Some (mk_active_request g handler),
                     set_generation g (mk_generation (gen_route G) (lifecycle G) (active_requests G + 1) (gen_handler G)) s)
           end
  end.

Inductive RawBodyMatch :=
| MatchNotRegistered
| MatchClosed
| MatchAccepted (request : ActiveRequest).

Definition match_request (is_post : bool) (path : rstr) (s : RegistryState) : RawBodyMatch * RegistryState :=
  if negb is_post then (MatchNotRegistered, s)
  else match routes s !! path with
       | None => (MatchNotRegistered, s)
       | Some g => match accept g s with
                   | (None, s) => (MatchClosed, s)
                   | (Some request, s) => (MatchAccepted request, s)
                   end
       end.

Definition detach_if_idle (G : Generation) : option Handler * Generation :=
  if bool_decide (lifecycle G = LifecycleDraining) && (active_requests G =? 0)
  then (gen_handler G, mk_generation (gen_route G) (lifecycle G) (active_requests G) None)
  else (None, G).

(** The critical sections of [begin_draining] and [finish_request]: they say whether the
    handler was taken, and with it the duty to finish the detachment. *)
Definition begin_draining_locked (g : nat) (s : RegistryState) : option Handler * RegistryState :=
  match generations s !! g with
  | None => (None, s)
  | Some G =>
      let G := if bool_decide (lifecycle G = LifecycleEnabled)
               then mk_generation (gen_route G) LifecycleDraining (active_requests G) (gen_handler G) else G in
      let '(handler, G) := detach_if_idle G in
      (handler, set_generation g G s)
  end.

Definition finish_request_locked (g : nat) (s : RegistryState) : option Handler * RegistryState :=
  match generations s !! g with
  | None => (None, s)
  | Some G =>
      let G := mk_generation (gen_route G) (lifecycle G) (sat_sub (active_requests G) 1) (gen_handler G) in
      let '(handler, G) := detach_if_idle G in
      (handler, set_generation g G s)
  end.

Definition finish_detachment (g : nat) (s : RegistryState) : RegistryState :=
  match generations s !! g with
  | None => s
  | Some G =>
      let s := if negb (dropped s) && bool_decide (routes s !! raw_path (gen_route G) = Some g)
               then set_routes (delete (raw_path (gen_route G)) (routes s)) s else s in
      set_generation g (mk_generation (gen_route G) LifecycleDetached (active_requests G) (gen_handler G)) s
  end.

Definition begin_draining (g : nat) (s : RegistryState) : RegistryState :=
  match begin_draining_locked g s with
  | (Some _, s) => finish_detachment g s
  | (None, s) => s
  end.

Definition finish_request (g : nat) (s : RegistryState) : RegistryState :=
  match finish_request_locked g s with
  | (Some _, s) => finish_detachment g s
  | (None, s) => s
  end.

(** [RawBodyRegistration::disable]; [others] is what other threads do until the wait ends. *)
Definition disable (g : nat) (deadline : Z) (others : RegistryState -> RegistryState) (s : RegistryState)
    : result RawBodyRegistrationError unit * RegistryState :=
  if (deadline <? MIN_DRAIN_DEADLINE) || (MAX_DRAIN_DEADLINE <? deadline) then (Err RegistrationInvalidDrainDeadline, s)
  else
    let s := begin_draining g s in
    let s := if bool_decide (lifecycle_of s g = LifecycleDetached) then s else others s in
    if bool_decide (lifecycle_of s g = LifecycleDetached) then (Ok (), s) else (Err RegistrationDrainTimedOut, s).

Definition stop_registry (s : RegistryState) : RegistryState :=
  mk_registry (generations s) (routes s) true (dropped s).

Definition registered (s : RegistryState) : list nat := (map_to_list (routes s)).*2.

Definition begin_shutdown (s : RegistryState) : RegistryState :=
  foldl (fun s g => begin_draining g s) (stop_registry s) (registered s).

(** ** Interleavings

    The requests in flight with the memory each has reserved, the detachments that a thread
    still has to finish, and the permits of finished requests that are not yet returned. *)

Record Flight := mk_flight {
  fl_request : ActiveRequest;
  fl_reserved : Z;
}.

Record World := mk_world {
  registry : RegistryState;
  flights : list Flight;
  detaching : list nat;
  releasing : list Z;
  available : Z;
}.

Definition World_new (limits : RawBodyServerLimits) : World :=
  mk_world Registry_new [] [] [] (aggregate_retained_bytes limits).

Inductive event :=
| EvRegister (route : RawBodyRoute) (handler : Handler)
| EvAccept (g : nat)
| EvReserve (i : nat)
| EvUnreserve (i : nat)
| EvFinish (i : nat)
| EvRelease (i : nat)
| EvDrain (g : nat)
| EvDetach (i : nat)
| EvStop
| EvDrop.

Definition with_registry (s : RegistryState) (w : World) : World :=
  mk_world s (flights w) (detaching w) (releasing w) (available w).

(** A thread that took the handler goes on to finish the detachment. *)
Definition taken (g : nat) (r : option Handler * RegistryState) (w : World) : World :=
  mk_world r.2 (flights w) (match r.1 with Some _ => g :: detaching w | None => detaching w end) (releasing w) (available w).

Definition request_limits (s : RegistryState) (request : ActiveRequest) : option RawBodyHandlerLimits :=
  raw_limits ∘ gen_route <$> generations s !! ar_generation request.

(** [reserve_retained_bytes] of server.rs: permits are counted in 32 bits. *)
Definition reserve_retained_bytes (bytes avail : Z) : option Z :=
  if U32_MAX <? bytes then None else if bytes <=? avail then Some (avail - bytes) else None.

Definition step (limits : RawBodyServerLimits) (e : event) (w : World) : option World :=
  match e with
  | EvRegister route handler =>
      if dropped (registry w) then None else Some (with_registry (register limits route handler (registry w)).2 w)
  | EvAccept g =>
      match accept g (registry w) with
      | (Some request, s) => Some (mk_world s (mk_flight request 0 :: flights w) (detaching w) (releasing w) (available w))
      | (None, s) => Some (with_registry s w)
      end
  | EvReserve i =>
      f ← flights w !! i;
      l ← request_limits (registry w) (fl_request f);
      if negb (fl_reserved f =? 0) then None
      else match reserve_retained_bytes (retained_bytes l) (available w) with
           | Some rest => Some (mk_world (registry w) (<[i := mk_flight (fl_request f) (retained_bytes l)]> (flights w))
                                  (detaching w) (releasing w) rest)
           | None => Some w
           end
  | EvUnreserve i =>
      f ← flights w !! i;
      Some (mk_world (registry w) (<[i := mk_flight (fl_request f) 0]> (flights w)) (detaching w) (releasing w)
              (available w + fl_reserved f))
  | EvFinish i =>
      f ← flights w !! i;
      let g := ar_generation (fl_request f) in
      Some (taken g (finish_request_locked g (registry w))
              (mk_world (registry w) (delete i (flights w)) (detaching w) (fl_reserved f :: releasing w) (available w)))
  | EvRelease i =>
      permits ← releasing w !! i;
      Some (mk_world (registry w) (flights w) (detaching w) (delete i (releasing w)) (available w + permits))
  | EvDrain g => Some (taken g (begin_draining_locked g (registry w)) w)
  | EvDetach i =>
      g ← detaching w !! i;
      Some (mk_world (finish_detachment g (registry w)) (flights w) (delete i (detaching w)) (releasing w) (available w))
  | EvStop => Some (with_registry (stop_registry (registry w)) w)
  | EvDrop => Some (with_registry (mk_registry (generations (registry w)) ∅ (stopping (registry w)) true) w)
  end.

Fixpoint run_registry (limits : RawBodyServerLimits) (events : list event) (w : World) : option World :=
  match events with
  | [] => Some w
  | e :: events => w ← step limits e w; run_registry limits events w
  end.

(** ** The invariant *)

Definition in_flight (g : nat) (fs : list Flight) : nat :=
  length (filter (fun f => ar_generation (fl_request f) = g) fs).
Definition sum (l : list Z) : Z := foldr Z.add 0 l.
#[local] Arguments sum l : simpl never.
#[local] Arguments in_flight g fs : simpl never.

(** A generation counts its requests, and keeps its handler until the last of them is done
    and the draining took it. *)
Definition generation_ok (fs : list Flight) (ds : list nat) (g : nat) (G : Generation) : Prop :=
  active_requests G = Z.of_nat (in_flight g fs) /\
  match lifecycle G with
  | LifecycleEnabled => is_Some (gen_handler G) /\ g ∉ ds
  | LifecycleDraining =>
      if decide (active_requests G = 0) then gen_handler G = None /\ g ∈ ds else is_Some (gen_handler G) /\ g ∉ ds
  | LifecycleDetached => gen_handler G = None /\ active_requests G = 0 /\ g ∉ ds
  end.

Record registry_ok (s : RegistryState) : Prop := {
  ro_routes p g : routes s !! p = Some g ->
    exists G, generations s !! g = Some G /\ raw_path (gen_route G) = p /\ lifecycle G <> LifecycleDetached;
  ro_live g G : dropped s = false -> generations s !! g = Some G -> lifecycle G <> LifecycleDetached ->
    routes s !! raw_path (gen_route G) = Some g;
  ro_size : Z.of_nat (size (routes s)) <= MAX_REGISTERED_HANDLERS;
  ro_dropped : dropped s = true -> routes s = ∅;
}.

Record world_inv (limits : RawBodyServerLimits) (w : World) : Prop := {
  wi_registry : registry_ok (registry w);
  wi_generations g G : generations (registry w) !! g = Some G -> generation_ok (flights w) (detaching w) g G;
  wi_flights : Forall (fun f => exists G, generations (registry w) !! ar_generation (fl_request f) = Some G /\
    gen_handler G = Some (ar_handler (fl_request f))) (flights w);
  wi_detaching : NoDup (detaching w);
  wi_bound : Forall (fun g => (g < length (generations (registry w)))%nat) (detaching w);
  wi_limits : Forall (fun G => 0 <= retained_bytes (raw_limits (gen_route G)) <= aggregate_retained_bytes limits) (generations (registry w));
  wi_reserved : Forall (fun f => 0 <= fl_reserved f) (flights w);
  wi_memory : available w + sum (fl_reserved <$> flights w) + sum (releasing w) = aggregate_retained_bytes limits;
  wi_permits : Forall (fun z => 0 <= z) (available w :: releasing w);
}.

Lemma sum_app l k : sum (l ++ k) = sum l + sum k.
Proof. induction l as [|x l IH]; [done|]. unfold sum in *. cbn. lia. Qed.

#[local] Instance sum_permutation : Proper ((≡ₚ) ==> (=)) sum.
Proof. induction 1; unfold sum in *; cbn; lia. Qed.

#[local] Instance in_flight_permutation g : Proper ((≡ₚ) ==> (=)) (in_flight g).
Proof. intros l k Hl. unfold in_flight. by rewrite Hl. Qed.

Lemma in_flight_cons g f fs :
  in_flight g (f :: fs) = ((if decide (ar_generation (fl_request f) = g) then 1 else 0) + in_flight g fs)%nat.
Proof. unfold in_flight. rewrite filter_cons. by case_decide. Qed.

Lemma in_flight_insert g fs i f r :
  fs !! i = Some f -> in_flight g (<[i := mk_flight (fl_request f) r]> fs) = in_flight g fs.
Proof.
  intros Hi. rewrite insert_take_drop by (by eapply lookup_lt_Some). rewrite <-(take_drop_middle fs i f Hi) at 3.
  unfold in_flight. rewrite !filter_app, !filter_cons. cbn [fl_request]. by case_decide; rewrite !length_app.
Qed.

Lemma world_inv_new limits : 0 <= aggregate_retained_bytes limits -> world_inv limits (World_new limits).
Proof.
  intros Ha. split; cbn; [|by intros [] ?|constructor..| |].
  - split; cbn; [intros p g; by rewrite lookup_empty|by intros [] ?| |done]. rewrite map_size_empty. by unfold MAX_REGISTERED_HANDLERS.
  - unfold sum. cbn. lia.
  - by repeat constructor.
Qed.

Lemma generation_ok_ext fs ds fs' ds' g G :
  in_flight g fs' = in_flight g fs -> (g ∈ ds' <-> g ∈ ds) -> generation_ok fs ds g G -> generation_ok fs' ds' g G.
Proof. intros Hf Hd. unfold generation_ok. rewrite Hf. by destruct (lifecycle G); [|case_decide|]; rewrite Hd. Qed.

(** Replacing a generation by one of the same route that is detached if and only if it was. *)
Lemma registry_ok_set s g G G' :
  registry_ok s -> generations s !! g = Some G -> gen_route G' = gen_route G ->
  (lifecycle G' = LifecycleDetached <-> lifecycle G = LifecycleDetached) -> registry_ok (set_generation g G' s).
Proof.
  intros [Hr Hl Hs Hdr] HG Hroute Hlife. pose proof (lookup_lt_Some _ _ _ HG) as Hlt. split; cbn; [| |done|done].
  - intros p h Hp. destruct (Hr p h Hp) as (H & HH & Hpath & Hlive). destruct (decide (h = g)) as [-> |Hne].
    + exists G'. rewrite list_lookup_insert_eq by done. simplify_eq. rewrite Hroute. by split_and!; [..|rewrite Hlife].
    + exists H. by rewrite list_lookup_insert_ne.
  - intros h H Hd HH Hlive. destruct (decide (h = g)) as [-> |Hne].
    + rewrite list_lookup_insert_eq in HH by done. simplify_eq. rewrite Hroute. apply Hl; [done..|by rewrite <-Hlife].
    + rewrite list_lookup_insert_ne in HH by done. by apply Hl.
Qed.

Lemma limits_set limits (gens : list Generation) g G G' :
  Forall (fun G => 0 <= retained_bytes (raw_limits (gen_route G)) <= aggregate_retained_bytes limits) gens ->
  gens !! g = Some G -> gen_route G' = gen_route G ->
  Forall (fun G => 0 <= retained_bytes (raw_limits (gen_route G)) <= aggregate_retained_bytes limits) (<[g := G']> gens).
Proof.
  intros Hl HG Hr. apply Forall_insert; [done|]. rewrite Hr. by rewrite Forall_lookup in Hl; apply (Hl g).
Qed.

(** One generation changes, with the flights and detachments that concern it. *)
Lemma world_inv_set limits w g G G' fs ds rel av :
  world_inv limits w -> generations (registry w) !! g = Some G -> gen_route G' = gen_route G ->
  (lifecycle G' = LifecycleDetached <-> lifecycle G = LifecycleDetached) ->
  (forall h, h <> g -> in_flight h fs = in_flight h (flights w) /\ (h ∈ ds <-> h ∈ detaching w)) ->
  generation_ok fs ds g G' ->
  Forall (fun f => (ar_generation (fl_request f) <> g /\ f ∈ flights w) \/
    ar_generation (fl_request f) = g /\ gen_handler G' = Some (ar_handler (fl_request f))) fs ->
  NoDup ds -> Forall (fun z => 0 <= z) (av :: rel) -> Forall (fun f => 0 <= fl_reserved f) fs ->
  av + sum (fl_reserved <$> fs) + sum rel = available w + sum (fl_reserved <$> flights w) + sum (releasing w) ->
  world_inv limits (mk_world (set_generation g G' (registry w)) fs ds rel av).
Proof.
  intros Hinv HG Hroute Hlife Hother Hg Hfs Hds Hpos Hres Hsum. pose proof (lookup_lt_Some _ _ _ HG) as Hlt.
  split; cbn; [..|done].
  - by eapply registry_ok_set; [apply Hinv|..].
  - intros h H HH. destruct (decide (h = g)) as [-> |Hne].
    + rewrite list_lookup_insert_eq in HH by done. by simplify_eq.
    + rewrite list_lookup_insert_ne in HH by done. destruct (Hother h Hne) as [Hf Hd].
      eapply generation_ok_ext; [exact Hf|exact Hd|by apply Hinv].
  - eapply Forall_impl; [exact Hfs|]. intros f [[Hne Hin]|[<- Hh]].
    + pose proof (wi_flights _ _ Hinv) as Hw. rewrite Forall_forall in Hw. destruct (Hw f Hin) as (H & HH & Hh).
      exists H. by rewrite list_lookup_insert_ne.
    + exists G'. by rewrite list_lookup_insert_eq.
  - done.
  - rewrite length_insert, Forall_forall. intros h Hin. destruct (decide (h = g)) as [-> |Hne]; [done|].
    apply (Hother h Hne) in Hin. pose proof (wi_bound _ _ Hinv) as Hb. rewrite Forall_forall in Hb. by apply Hb.
  - by eapply limits_set; [apply Hinv|..].
  - done.
  - by rewrite Hsum, (wi_memory _ _ Hinv).
Qed.

(** The flights of a world, when the handler of one generation stays. *)
Lemma flights_keep limits w g G handler :
  world_inv limits w -> generations (registry w) !! g = Some G -> handler = gen_handler G ->
  Forall (fun f => (ar_generation (fl_request f) <> g /\ f ∈ flights w) \/
    ar_generation (fl_request f) = g /\ handler = Some (ar_handler (fl_request f))) (flights w).
Proof.
  intros Hinv HG ->. pose proof (wi_flights _ _ Hinv) as Hf. rewrite Forall_forall in *. intros f Hin.
  destruct (Hf f Hin) as (H & HH & Hh). destruct (decide (ar_generation (fl_request f) = g)) as [<-|Hne]; [|by left].
  right. by simplify_eq.
Qed.

Lemma step_accept limits w g :
  world_inv limits w -> exists w', step limits (EvAccept g) w = Some w' /\ world_inv limits w'.
Proof.
  intros Hinv. cbn [step]. unfold accept. destruct (generations (registry w) !! g) as [G|] eqn:HG; [|by eexists; destruct w].
  destruct (bool_decide (lifecycle G = LifecycleEnabled)) eqn:Hl; cbn [negb]; [|by eexists; destruct w].
  destruct (gen_handler G) as [handler|] eqn:Hh; [|by eexists; destruct w].
  destruct (Z.ltb_spec USIZE_MAX (active_requests G + 1)); [by eexists; destruct w|]. bools.
  eexists. split; [done|]. destruct (wi_generations _ _ Hinv g G HG) as [Ha Hd].
  eapply world_inv_set; [done|exact HG|done|by rewrite Hl| | | |apply Hinv| | |].
  - intros h Hne. rewrite in_flight_cons, decide_False by done. done.
  - rewrite Hl in Hd. unfold generation_ok. cbn. rewrite in_flight_cons, decide_True, Hl by done. split; [lia|]. split; [by eexists|apply Hd].
  - cbn. constructor; [by right|]. by eapply flights_keep.
  - apply Hinv.
  - constructor; [done|apply Hinv].
  - cbn. unfold sum. cbn. lia.
Qed.

(** Changes of the memory accounts alone. *)
Lemma world_inv_memory limits w fs rel av :
  world_inv limits w -> (forall g, in_flight g fs = in_flight g (flights w)) ->
  Forall (fun f => exists f', f' ∈ flights w /\ fl_request f = fl_request f') fs ->
  Forall (fun z => 0 <= z) (av :: rel) -> Forall (fun f => 0 <= fl_reserved f) fs ->
  av + sum (fl_reserved <$> fs) + sum rel = available w + sum (fl_reserved <$> flights w) + sum (releasing w) ->
  world_inv limits (mk_world (registry w) fs (detaching w) rel av).
Proof.
  intros Hinv Hfl Hreq Hpos Hres Hsum. split; cbn; try done; try apply Hinv.
  - intros g G HG. eapply generation_ok_ext; [apply Hfl|done|by apply Hinv].
  - pose proof (wi_flights _ _ Hinv) as Hw. rewrite Forall_forall in *. intros f Hin.
    destruct (Hreq f Hin) as (f' & Hin' & ->). by apply Hw.
  - by rewrite Hsum, (wi_memory _ _ Hinv).
Qed.

Lemma sum_insert fs i f r :
  fs !! i = Some f -> sum (fl_reserved <$> <[i := mk_flight (fl_request f) r]> fs) = sum (fl_reserved <$> fs) - fl_reserved f + r.
Proof.
  intros Hi. rewrite insert_take_drop by (by eapply lookup_lt_Some). rewrite <-(take_drop_middle fs i f Hi) at 3.
  rewrite !fmap_app, !sum_app, !fmap_cons. unfold sum. cbn. lia.
Qed.

Lemma insert_requests fs i f r :
  fs !! i = Some f ->
  Forall (fun f => exists f', f' ∈ fs /\ fl_request f = fl_request f') (<[i := mk_flight (fl_request f) r]> fs).
Proof.
  intros Hi. apply Forall_insert; [rewrite Forall_forall; intros f' Hin; by exists f'|].
  exists f. split; [by eapply list_elem_of_lookup_2|done].
Qed.

Lemma step_reserve limits w i w' : world_inv limits w -> step limits (EvReserve i) w = Some w' -> world_inv limits w'.
Proof.
  intros Hinv. cbn [step]. destruct (flights w !! i) as [f|] eqn:Hi; [|done].
  change (Some f ≫= ?k) with (k f). unfold request_limits.
  destruct (generations (registry w) !! _) as [G|] eqn:HG; [|done]. cbn.
  destruct (Z.eqb_spec (fl_reserved f) 0) as [H0|]; [|done]. cbn.
  unfold reserve_retained_bytes. destruct (U32_MAX <? _); [by intros [= <-]|].
  destruct (Z.leb_spec (retained_bytes (raw_limits (gen_route G))) (available w)) as [Hle|]; [|by intros [= <-]]. intros [= <-].
  pose proof (wi_permits _ _ Hinv) as [Hav Hrel]%Forall_cons.
  pose proof (wi_limits _ _ Hinv) as Hl. rewrite Forall_lookup in Hl. specialize (Hl _ _ HG).
  apply world_inv_memory; [done|intros g; by apply in_flight_insert|by apply insert_requests|constructor; [lia|done]| |].
  - apply Forall_insert; [apply Hinv|]. cbn. lia.
  - rewrite sum_insert by done. lia.
Qed.

Lemma step_unreserve limits w i w' : world_inv limits w -> step limits (EvUnreserve i) w = Some w' -> world_inv limits w'.
Proof.
  intros Hinv. cbn [step]. destruct (flights w !! i) as [f|] eqn:Hi; [|done]. intros [= <-].
  pose proof (wi_permits _ _ Hinv) as [Hav Hrel]%Forall_cons.
  pose proof (wi_reserved _ _ Hinv) as Hres. assert (0 <= fl_reserved f) by (rewrite Forall_lookup in Hres; by apply (Hres i)).
  apply world_inv_memory; [done|intros g; by apply in_flight_insert|by apply insert_requests|constructor; [lia|done]| |].
  - apply Forall_insert; [done|]. cbn. lia.
  - rewrite sum_insert by done. lia.
Qed.

Lemma step_release limits w i w' : world_inv limits w -> step limits (EvRelease i) w = Some w' -> world_inv limits w'.
Proof.
  intros Hinv. cbn [step]. destruct (releasing w !! i) as [permits|] eqn:Hi; [|done]. intros [= <-].
  pose proof (wi_permits _ _ Hinv) as [Hav Hrel]%Forall_cons.
  pose proof (delete_Permutation _ _ _ Hi) as Hp. rewrite Hp in Hrel. apply Forall_cons in Hrel as [Hpos Hrel].
  apply world_inv_memory; [done|done|rewrite Forall_forall; intros f Hin; by exists f|constructor; [lia|done]|apply Hinv|].
  assert (sum (releasing w) = permits + sum (delete i (releasing w))) by (by rewrite Hp at 1). lia.
Qed.

(** What draining and finishing do to one generation. *)
Lemma detach_if_idle_ok fs ds g G :
  active_requests G = Z.of_nat (in_flight g fs) -> g ∉ ds -> is_Some (gen_handler G) -> lifecycle G <> LifecycleDetached ->
  let '(handler, G') := detach_if_idle G in
  gen_route G' = gen_route G /\ lifecycle G' = lifecycle G /\
  generation_ok fs (match handler with Some _ => g :: ds | None => ds end) g G' /\
  (handler = None -> gen_handler G' = gen_handler G) /\ (is_Some handler -> in_flight g fs = 0%nat).
Proof.
  intros Ha Hd [h Hh] Hl. unfold detach_if_idle. rewrite Hh.
  destruct (bool_decide (lifecycle G = LifecycleDraining)) eqn:Hdr; [destruct (Z.eqb_spec (active_requests G) 0) as [H0|H0]|]; cbn; bools.
  - split_and!; try done; [|intros _; lia]. unfold generation_ok. cbn. rewrite Hdr, decide_True by done. split; [done|]. split; [done|by left].
  - split_and!; try done; try (by intros []). split; [done|]. rewrite Hdr, decide_False by done. by rewrite Hh.
  - split_and!; try done; try (by intros []). split; [done|]. destruct (lifecycle G); [|done..]. by rewrite Hh.
Qed.

Lemma set_generation_id s g G : generations s !! g = Some G -> set_generation g G s = s.
Proof. intros HG. unfold set_generation. rewrite list_insert_id by done. by destruct s. Qed.

(** A generation with its handler, changed by a critical section that may take the handler. *)
Lemma world_inv_detach limits w g G G1 fs rel :
  world_inv limits w -> generations (registry w) !! g = Some G -> gen_route G1 = gen_route G ->
  lifecycle G <> LifecycleDetached -> lifecycle G1 <> LifecycleDetached -> gen_handler G1 = gen_handler G -> is_Some (gen_handler G) ->
  active_requests G1 = Z.of_nat (in_flight g fs) -> g ∉ detaching w ->
  (forall h, h <> g -> in_flight h fs = in_flight h (flights w)) -> (forall f, f ∈ fs -> f ∈ flights w) ->
  Forall (fun z => 0 <= z) rel -> Forall (fun f => 0 <= fl_reserved f) fs ->
  sum (fl_reserved <$> fs) + sum rel = sum (fl_reserved <$> flights w) + sum (releasing w) ->
  let '(handler, G') := detach_if_idle G1 in
  world_inv limits (taken g (handler, set_generation g G' (registry w)) (mk_world (registry w) fs (detaching w) rel (available w))).
Proof.
  intros Hinv HG Hr Hl Hl1 Hh Hsome Ha Hnd Hother Hsub Hrel Hres Hsum.
  pose proof (detach_if_idle_ok fs (detaching w) g G1 Ha Hnd) as Hdet.
  destruct (detach_if_idle G1) as [handler G']. rewrite Hh in Hdet. destruct (Hdet Hsome Hl1) as (Hr' & Hl' & Hok & Hkeep & Hnone).
  pose proof (wi_permits _ _ Hinv) as [Hav _]%Forall_cons. unfold taken. cbn.
  eapply world_inv_set; [done|exact HG|congruence|by rewrite Hl'| |done| | |by constructor|done|lia].
  - intros h Hne. split; [by apply Hother|]. destruct handler; [|done]. set_solver.
  - pose proof (flights_keep _ _ _ _ _ Hinv HG eq_refl) as Hk. rewrite Forall_forall in *. intros f Hin.
    destruct (Hk f (Hsub f Hin)) as [[Hne ?]|[Hg Hhf]]; [left; auto|]. right. split; [done|]. destruct handler as [h|]; [|by rewrite Hkeep].
    exfalso. assert (in_flight g fs = 0%nat) as H0 by (apply Hnone; by eexists). unfold in_flight in H0.
    apply nil_length_inv in H0. assert (f ∈ filter (fun f => ar_generation (fl_request f) = g) fs) as Hf by (by apply list_elem_of_filter).
    rewrite H0 in Hf. by apply not_elem_of_nil in Hf.
  - destruct handler; [|apply Hinv]. constructor; [done|apply Hinv].
Qed.

Lemma step_drain limits w g :
  world_inv limits w -> exists w', step limits (EvDrain g) w = Some w' /\ world_inv limits w'.
Proof.
  intros Hinv. cbn [step]. eexists. split; [done|]. unfold begin_draining_locked.
  destruct (generations (registry w) !! g) as [G|] eqn:HG; [|by destruct w].
  destruct (wi_generations _ _ Hinv g G HG) as [Ha Hd]. pose proof (wi_permits _ _ Hinv) as [_ Hrel]%Forall_cons.
  destruct (lifecycle G) eqn:Hl; cbn [bool_decide decide_rel]; rewrite ?bool_decide_eq_true_2, ?bool_decide_eq_false_2 by done.
  - destruct Hd as [Hs Hnd].
    pose proof (world_inv_detach limits w g G (mk_generation (gen_route G) LifecycleDraining (active_requests G) (gen_handler G))
      (flights w) (releasing w) Hinv HG eq_refl) as Hw. rewrite Hl in Hw.
    specialize (Hw ltac:(done) ltac:(done) eq_refl Hs Ha Hnd ltac:(done) ltac:(done) Hrel (wi_reserved _ _ Hinv) eq_refl).
    destruct (detach_if_idle _). by destruct w.
  - unfold detach_if_idle. rewrite bool_decide_eq_true_2 by done. cbn [andb]. case_decide as H0.
    + rewrite (proj2 (Z.eqb_eq _ _) H0). destruct Hd as [Hn _]. rewrite Hn. destruct G; cbn in *; subst. rewrite set_generation_id by done. by destruct w.
    + rewrite (proj2 (Z.eqb_neq _ _) H0). rewrite set_generation_id by done. by destruct w.
  - unfold detach_if_idle. rewrite bool_decide_eq_false_2 by (by rewrite Hl). cbn [andb]. rewrite set_generation_id by done. by destruct w.
Qed.

Lemma step_finish limits w i w' : world_inv limits w -> step limits (EvFinish i) w = Some w' -> world_inv limits w'.
Proof.
  intros Hinv. cbn [step]. destruct (flights w !! i) as [f|] eqn:Hi; [|done]. intros [= <-].
  set (g := ar_generation (fl_request f)). pose proof (delete_Permutation _ _ _ Hi) as Hp.
  pose proof (wi_flights _ _ Hinv) as Hfl. rewrite Forall_lookup in Hfl. destruct (Hfl i f Hi) as (G & HG & Hh). fold g in HG.
  destruct (wi_generations _ _ Hinv g G HG) as [Ha Hd]. pose proof (wi_permits _ _ Hinv) as [_ Hrel]%Forall_cons.
  pose proof (wi_reserved _ _ Hinv) as Hres. rewrite Hp in Hres. apply Forall_cons in Hres as [Hpos Hres].
  assert (in_flight g (flights w) = S (in_flight g (delete i (flights w)))) as Hcount.
  { rewrite Hp at 1. by rewrite in_flight_cons, decide_True. }
  assert (lifecycle G <> LifecycleDetached /\ g ∉ detaching w) as [Hl Hnd].
  { destruct (lifecycle G); [by split; [|apply Hd]| |destruct Hd; congruence].
    case_decide; destruct Hd; [congruence|by split]. }
  unfold finish_request_locked. rewrite HG.
  pose proof (world_inv_detach limits w g G (mk_generation (gen_route G) (lifecycle G) (sat_sub (active_requests G) 1) (gen_handler G))
    (delete i (flights w)) (fl_reserved f :: releasing w) Hinv HG eq_refl Hl Hl eq_refl (mk_is_Some _ _ Hh)) as Hw.
  assert (sat_sub (active_requests G) 1 = Z.of_nat (in_flight g (delete i (flights w)))) as Ha' by (unfold sat_sub; lia).
  specialize (Hw Ha' Hnd). destruct (detach_if_idle _) as [handler G']. apply Hw.
  - intros h Hne. rewrite Hp at 2. rewrite in_flight_cons, decide_False by done. done.
  - intros f' Hin. rewrite Hp. by right.
  - by constructor.
  - done.
  - assert (sum (fl_reserved <$> flights w) = fl_reserved f + sum (fl_reserved <$> delete i (flights w))) as -> by (rewrite Hp at 1; done).
    change (sum (fl_reserved f :: releasing w)) with (fl_reserved f + sum (releasing w)). lia.
Qed.

Definition detached (G : Generation) : Generation :=
  mk_generation (gen_route G) LifecycleDetached (active_requests G) (gen_handler G).

Lemma finish_detachment_eq s g G :
  registry_ok s -> generations s !! g = Some G -> lifecycle G <> LifecycleDetached ->
  finish_detachment g s =
    mk_registry (<[g := detached G]> (generations s)) (delete (raw_path (gen_route G)) (routes s)) (stopping s) (dropped s).
Proof.
  intros [_ Hlive _ Hdr] HG Hl. unfold finish_detachment. rewrite HG. destruct (dropped s) eqn:Hd; cbn.
  - unfold set_generation. by rewrite Hdr, delete_empty, Hd by done.
  - rewrite (Hlive g G) by done. rewrite bool_decide_eq_true_2 by done. unfold set_generation, set_routes. cbn. by rewrite Hd.
Qed.

Lemma finish_detachment_ok s g G :
  registry_ok s -> generations s !! g = Some G -> lifecycle G <> LifecycleDetached -> registry_ok (finish_detachment g s).
Proof.
  intros Hok HG Hl. rewrite (finish_detachment_eq _ _ G) by done. destruct Hok as [Hr Hlive Hs Hdr].
  pose proof (lookup_lt_Some _ _ _ HG) as Hlt. split; cbn.
  - intros p h [Hne Hp]%lookup_delete_Some. destruct (Hr p h Hp) as (H & HH & Hpath & Hlh). exists H. split; [|done].
    rewrite list_lookup_insert_ne; [done|]. intros ->. simplify_eq.
  - intros h H Hd HH Hlh. destruct (decide (h = g)) as [-> |Hne].
    { rewrite list_lookup_insert_eq in HH by done. by simplify_eq. }
    rewrite list_lookup_insert_ne in HH by done. rewrite lookup_delete_ne; [by apply Hlive|].
    intros Heq. apply Hne. pose proof (Hlive h H Hd HH Hlh). pose proof (Hlive g G Hd HG Hl). congruence.
  - rewrite map_size_delete. destruct (routes s !! _); unfold id; lia.
  - intros Hd. by rewrite Hdr, delete_empty.
Qed.

Lemma step_detach limits w i w' : world_inv limits w -> step limits (EvDetach i) w = Some w' -> world_inv limits w'.
Proof.
  intros Hinv. cbn [step]. destruct (detaching w !! i) as [g|] eqn:Hi; [|done]. intros [= <-].
  pose proof (delete_Permutation _ _ _ Hi) as Hp. assert (g ∈ detaching w) as Hin by (by eapply list_elem_of_lookup_2).
  pose proof (wi_detaching _ _ Hinv) as Hnd. rewrite Hp in Hnd. apply NoDup_cons in Hnd as [Hg Hnd].
  pose proof (wi_bound _ _ Hinv) as Hb. rewrite Hp in Hb. apply Forall_cons in Hb as [Hlt Hb].
  destruct (lookup_lt_is_Some_2 _ _ Hlt) as [G HG]. destruct (wi_generations _ _ Hinv g G HG) as [Ha Hd].
  assert (lifecycle G = LifecycleDraining /\ active_requests G = 0 /\ gen_handler G = None) as (Hl & H0 & Hh).
  { destruct (lifecycle G); [by destruct Hd| |by destruct Hd as (_ & _ & ?)]. case_decide; by destruct Hd. }
  pose proof (finish_detachment_ok _ _ _ (wi_registry _ _ Hinv) HG) as Hok. rewrite Hl in Hok. specialize (Hok ltac:(done)).
  rewrite (finish_detachment_eq _ _ G) in * by (try apply Hinv; try done; by rewrite Hl). split; cbn; try apply Hinv; [done|..].
  - intros h H HH. destruct (decide (h = g)) as [-> |Hne].
    + rewrite list_lookup_insert_eq in HH by done. simplify_eq. unfold generation_ok. cbn. by rewrite Hh, H0, <-Ha.
    + rewrite list_lookup_insert_ne in HH by done. eapply generation_ok_ext; [done| |by apply Hinv].
      rewrite Hp at 2. set_solver.
  - eapply Forall_impl; [apply Hinv|]. intros f (H & HH & Hhf). exists H. split; [|done].
    rewrite list_lookup_insert_ne; [done|]. congruence.
  - done.
  - by rewrite length_insert.
  - eapply limits_set; [apply Hinv|done|done].
Qed.

Lemma step_stop limits w : world_inv limits w -> world_inv limits (with_registry (stop_registry (registry w)) w).
Proof. intros [[Hr Hl Hs Hd] ? ? ? ? ? ? ? ?]. split; cbn; done. Qed.

Lemma step_drop limits w w' : world_inv limits w -> step limits EvDrop w = Some w' -> world_inv limits w'.
Proof.
  intros [[Hr Hl Hs Hd] ? ? ? ? ? ? ? ?] [= <-]. split; cbn; done.
Qed.

Lemma routes_retained s : registry_ok s -> filter (fun entry => lifecycle_of s entry.2 <> LifecycleDetached) (routes s) = routes s.
Proof.
  intros [Hr _ _ _]. apply map_filter_id. intros p g Hp. cbn. destruct (Hr p g Hp) as (G & HG & _ & Hl).
  unfold lifecycle_of. by rewrite HG.
Qed.

Lemma step_register limits w route handler :
  world_inv limits w -> 0 <= retained_bytes (raw_limits route) -> dropped (registry w) = false ->
  world_inv limits (with_registry (register limits route handler (registry w)).2 w).
Proof.
  intros Hinv Hpos Hnd. pose proof (wi_registry _ _ Hinv) as Hok. unfold register.
  destruct (Z.ltb_spec (aggregate_retained_bytes limits) (retained_bytes (raw_limits route))); [by destruct w|].
  destruct (stopping (registry w)) eqn:Hst; [by destruct w|].
  rewrite routes_retained by done. assert (set_routes (routes (registry w)) (registry w) = registry w) as -> by (by destruct (registry w)).
  destruct (routes (registry w) !! raw_path route) as [existing|] eqn:Hex.
  { destruct (ro_routes _ Hok _ _ Hex) as (G & HG & _ & Hl). unfold lifecycle_of. rewrite HG, bool_decide_eq_false_2 by done. by destruct w. }
  destruct (Z.leb_spec MAX_REGISTERED_HANDLERS (Z.of_nat (size (routes (registry w))))) as [|Hroom]; [by destruct w|].
  set (n := length (generations (registry w))). cbn. fold n.
  assert (in_flight n (flights w) = 0%nat /\ n ∉ detaching w) as [Hfresh Hfreshd].
  { split.
    - pose proof (wi_flights _ _ Hinv) as Hf. unfold in_flight. induction Hf as [|f fs (G & HG%lookup_lt_Some & _) _ IH]; [done|].
      rewrite filter_cons, decide_False; [done|]. fold n in HG. lia.
    - intros Hin. pose proof (wi_bound _ _ Hinv) as Hb. rewrite Forall_forall in Hb. specialize (Hb n Hin). cbn in Hb. fold n in Hb. lia. }
  assert (forall h G, (generations (registry w) ++ [mk_generation route LifecycleEnabled 0 (Some handler)]) !! h = Some G ->
    generations (registry w) !! h = Some G /\ h <> n \/ h = n /\ G = mk_generation route LifecycleEnabled 0 (Some handler)) as Hcases.
  { intros h G [HG|[Hle HG]]%lookup_app_Some; [left; split; [done|]; apply lookup_lt_Some in HG; fold n in HG; lia|].
    right. apply list_lookup_singleton_Some in HG as [Hh <-]. fold n in Hh. split; [lia|done]. }
  assert (forall h G, generations (registry w) !! h = Some G ->
    (generations (registry w) ++ [mk_generation route LifecycleEnabled 0 (Some handler)]) !! h = Some G) as Hmono.
  { intros h G HG. by apply lookup_app_l_Some. }
  split; cbn; try apply Hinv.
  - destruct Hok as [Hr Hlive Hs Hd]. split; cbn.
    + intros p h [[<- <-]|[Hne Hp]]%lookup_insert_Some.
      * exists (mk_generation route LifecycleEnabled 0 (Some handler)). split; [|done]. by apply list_lookup_middle.
      * destruct (Hr p h Hp) as (G & HG & ?). exists G. split; [by apply Hmono|done].
    + intros h G _ [[HG Hne]|[-> ->]]%Hcases Hl; [|by rewrite lookup_insert_eq].
      pose proof (Hlive h G Hnd HG Hl) as Hp. rewrite lookup_insert_ne; [done|]. intros Heq. congruence.
    + rewrite map_size_insert_None by done. lia.
    + by rewrite Hnd.
  - intros h G [[HG Hne]|[-> ->]]%Hcases; [by apply Hinv|]. unfold generation_ok. cbn. rewrite Hfresh. by eauto.
  - eapply Forall_impl; [apply Hinv|]. intros f (G & HG & Hh). exists G. split; [by apply Hmono|done].
  - eapply Forall_impl; [apply Hinv|]. intros h Hh. cbn in *. rewrite length_app. lia.
  - rewrite Forall_app. split; [apply Hinv|]. by constructor.
Qed.

Definition event_ok (e : event) : Prop :=
  match e with EvRegister route _ => 0 <= retained_bytes (raw_limits route) | _ => True end.

Lemma registry_step_inv limits e w w' : world_inv limits w -> event_ok e -> step limits e w = Some w' -> world_inv limits w'.
Proof.
  intros Hinv He Hs. destruct e as [route handler|g|i|i|i|i|g|i| |].
  - cbn in Hs. destruct (dropped (registry w)) eqn:Hd; [done|]. simplify_eq. by apply step_register.
  - destruct (step_accept limits w g Hinv) as (? & ? & ?). congruence.
  - by eapply step_reserve.
  - by eapply step_unreserve.
  - by eapply step_finish.
  - by eapply step_release.
  - destruct (step_drain limits w g Hinv) as (? & ? & ?). congruence.
  - by eapply step_detach.
  - injection Hs as <-. by apply step_stop.
  - by eapply step_drop.
Qed.

Lemma run_registry_inv limits events w w' :
  world_inv limits w -> Forall event_ok events -> run_registry limits events w = Some w' -> world_inv limits w'.
Proof.
  intros Hinv He. revert w Hinv. induction He as [|e events He _ IH]; intros w Hinv; cbn [run_registry]; [by intros [= <-]|].
  destruct (step limits e w) as [w1|] eqn:Hs; [|done]. apply IH. by eapply registry_step_inv.
Qed.

(** ** Ageing *)

Definition rank (l : RawBodyLifecycle) : nat :=
  match l with LifecycleEnabled => 0 | LifecycleDraining => 1 | LifecycleDetached => 2 end.

(** A generation keeps its route, only moves on in its lifecycle, and takes no new request
    once it is not enabled. *)
Definition ages (G G' : Generation) : Prop :=
  gen_route G' = gen_route G /\ (rank (lifecycle G) <= rank (lifecycle G'))%nat /\
  (lifecycle G <> LifecycleEnabled -> active_requests G' <= active_requests G).

#[local] Instance ages_preorder : PreOrder ages.
Proof.
  split; [intros G; by split_and!|]. intros G1 G2 G3 (Hr & Hk & Ha) (Hr' & Hk' & Ha'). split_and!; [congruence|lia|].
  intros Hl. etrans; [apply Ha'|by apply Ha]. intros Heq. rewrite Heq in Hk. cbn in Hk.
  by destruct (lifecycle G1); [|cbn in Hk; lia..].
Qed.

(** One registry after the other: no generation is lost, the ones of the first age, and a
    stopped registry gets no more. *)
Definition registry_ages (s s' : RegistryState) : Prop :=
  (forall g G, generations s !! g = Some G -> exists G', generations s' !! g = Some G' /\ ages G G') /\
  (stopping s = true -> stopping s' = true /\ length (generations s') = length (generations s)).

#[local] Instance registry_ages_preorder : PreOrder registry_ages.
Proof.
  split; [intros s; split; [|done]; intros g G HG; by exists G|]. intros s1 s2 s3 [H12 S12] [H23 S23]. split.
  - intros g G HG. destruct (H12 g G HG) as (G' & HG' & Ha). destruct (H23 g G' HG') as (G'' & HG'' & Ha').
    exists G''. split; [done|by etrans].
  - intros Hs. destruct (S12 Hs) as [Hs2 Hl2]. destruct (S23 Hs2) as [Hs3 Hl3]. split; [done|congruence].
Qed.

Lemma registry_ages_set s g G G' :
  generations s !! g = Some G -> ages G G' -> registry_ages s (set_generation g G' s).
Proof.
  intros HG Ha. split; [|by cbn; rewrite length_insert]. intros h H HH. cbn. destruct (decide (h = g)) as [-> |Hne].
  - exists G'. rewrite list_lookup_insert_eq by (by eapply lookup_lt_Some). by simplify_eq.
  - exists H. by rewrite list_lookup_insert_ne.
Qed.

Lemma detach_if_idle_ages G : ages G (detach_if_idle G).2.
Proof. unfold detach_if_idle. by destruct (_ && _). Qed.

Lemma begin_draining_ages g s : registry_ages s (begin_draining_locked g s).2.
Proof.
  unfold begin_draining_locked. destruct (generations s !! g) as [G|] eqn:HG; [|done].
  set (G1 := if bool_decide _ then _ else _).
  assert (ages G G1) as H1. { subst G1. destruct (lifecycle G) eqn:Hl; cbn; [|done..]. split_and!; cbn; [done|rewrite Hl; cbn; lia|]. by rewrite Hl. }
  pose proof (detach_if_idle_ages G1) as H2. destruct (detach_if_idle G1) as [handler G']. cbn.
  eapply registry_ages_set; [done|by etrans].
Qed.

Lemma finish_request_ages g s G :
  generations s !! g = Some G -> 0 <= active_requests G -> registry_ages s (finish_request_locked g s).2.
Proof.
  intros HG Ha. unfold finish_request_locked. rewrite HG. set (G1 := mk_generation _ _ _ _).
  assert (ages G G1) as H1. { split_and!; cbn; [done|lia|]. intros _. unfold sat_sub. lia. }
  pose proof (detach_if_idle_ages G1) as H2. destruct (detach_if_idle G1) as [handler G']. cbn.
  eapply registry_ages_set; [done|by etrans].
Qed.

Lemma accept_ages g s : registry_ages s (accept g s).2.
Proof.
  unfold accept. destruct (generations s !! g) as [G|] eqn:HG; [|done]. destruct (negb _) eqn:Hl; [done|].
  destruct (gen_handler G) eqn:Hh; [|done]. destruct (_ <? _); [done|]. cbn. bools. eapply registry_ages_set; [done|].
  split_and!; cbn; [done|lia|]. by rewrite Hl.
Qed.

Lemma finish_detachment_ages g s : registry_ages s (finish_detachment g s).
Proof.
  unfold finish_detachment. destruct (generations s !! g) as [G|] eqn:HG; [|done].
  set (s1 := if _ && _ then _ else _). assert (generations s1 = generations s /\ stopping s1 = stopping s) as [Hg Hs] by (subst s1; by destruct (_ && _)).
  transitivity s1; [by split; rewrite Hg, ?Hs; [intros h H ?; exists H|]|].
  eapply registry_ages_set; [by rewrite Hg|]. split_and!; cbn; [done| |lia]. destruct (lifecycle G); cbn; lia.
Qed.

Lemma register_ages limits route handler s : registry_ages s (register limits route handler s).2.
Proof.
  unfold register. destruct (_ <? _); [done|]. destruct (stopping s) eqn:Hs; [done|]. destruct (match routes s !! _ with Some _ => _ | None => _ end); [done|].
  destruct (_ <=? _); split; cbn; try (by rewrite Hs).
  - intros g G HG. by exists G.
  - intros g G HG. exists G. split; [by apply lookup_app_l_Some|done].
Qed.

Lemma step_ages limits e w w' :
  world_inv limits w -> step limits e w = Some w' -> registry_ages (registry w) (registry w').
Proof.
  intros Hinv Hs. destruct e as [route handler|g|i|i|i|i|g|i| |]; cbn [step] in Hs.
  - destruct (dropped _); [done|]. simplify_eq. apply register_ages.
  - pose proof (accept_ages g (registry w)) as Ha. by destruct (accept g (registry w)) as [[request|] s]; simplify_eq.
  - destruct (flights w !! i) as [f|]; [|done]. cbn in Hs. destruct (request_limits _ _); [|done]. cbn in Hs.
    destruct (negb _); [done|]. by destruct (reserve_retained_bytes _ _); simplify_eq.
  - by destruct (flights w !! i) as [f|]; simplify_eq/=.
  - destruct (flights w !! i) as [f|] eqn:Hi; simplify_eq/=. pose proof (wi_flights _ _ Hinv) as Hf. rewrite Forall_lookup in Hf.
    destruct (Hf i f Hi) as (G & HG & _). eapply finish_request_ages; [exact HG|]. destruct (wi_generations _ _ Hinv _ G HG) as [-> _]. lia.
  - by destruct (releasing w !! i) as [f|]; simplify_eq/=.
  - simplify_eq/=. apply begin_draining_ages.
  - destruct (detaching w !! i) as [g|]; simplify_eq/=. apply finish_detachment_ages.
  - simplify_eq/=. split; [intros g G HG; by exists G|done].
  - simplify_eq/=. split; [intros g G HG; by exists G|done].
Qed.

Lemma run_registry_ages limits events w w' :
  world_inv limits w -> Forall event_ok events -> run_registry limits events w = Some w' -> registry_ages (registry w) (registry w').
Proof.
  intros Hinv He. revert w Hinv. induction He as [|e events He _ IH]; intros w Hinv; cbn [run_registry]; [by intros [= <-]|].
  destruct (step limits e w) as [w1|] eqn:Hs; [|done]. intros Hrun. etrans; [by eapply step_ages|]. apply IH; [|done]. by eapply registry_step_inv.
Qed.

(** Draining a generation ends its enabling and no other's. *)
Lemma begin_draining_lifecycle g h s :
  lifecycle_of (begin_draining g s) h = LifecycleEnabled -> lifecycle_of s h = LifecycleEnabled /\ h <> g.
Proof.
  unfold begin_draining, begin_draining_locked. destruct (generations s !! g) as [G|] eqn:HG.
  2: { unfold lifecycle_of. intros Hl. split; [done|]. intros ->. by rewrite HG in Hl. }
  pose proof (lookup_lt_Some _ _ _ HG) as Hlt. set (G1 := if bool_decide _ then _ else _).
  assert (lifecycle G1 <> LifecycleEnabled) as H1. { subst G1. by case_bool_decide. }
  unfold detach_if_idle. destruct (bool_decide (lifecycle G1 = LifecycleDraining) && (active_requests G1 =? 0)).
  1: destruct (gen_handler G1); [unfold finish_detachment; cbn [set_generation generations]; rewrite list_lookup_insert_eq by done; destruct (_ && _)|].
  all: unfold lifecycle_of; cbn; intros Hl; destruct (decide (h = g)) as [-> |Hne];
    repeat (first [rewrite list_lookup_insert_eq in Hl by (by rewrite ?length_insert)|rewrite list_lookup_insert_ne in Hl by done]); done.
Qed.

Lemma begin_shutdown_lifecycle s h : registry_ok s -> dropped s = false -> lifecycle_of (begin_shutdown s) h <> LifecycleEnabled.
Proof.
  intros Hok Hd. unfold begin_shutdown.
  assert (forall l s, lifecycle_of (foldl (fun s g => begin_draining g s) s l) h = LifecycleEnabled ->
    lifecycle_of s h = LifecycleEnabled /\ h ∉ l) as Hfold.
  { clear. intros l. induction l as [|g l IH]; intros s Hl; [split; [done|apply not_elem_of_nil]|]. cbn in Hl.
    apply IH in Hl as [Hl Hnin]. apply begin_draining_lifecycle in Hl as [Hl Hne]. split; [done|]. by apply not_elem_of_cons. }
  intros [Hl Hnin]%Hfold. unfold lifecycle_of in Hl. cbn in Hl. destruct (generations s !! h) as [G|] eqn:HG; [|done].
  apply Hnin. unfold registered. apply list_elem_of_fmap. exists (raw_path (gen_route G), h). split; [done|].
  apply elem_of_map_to_list. apply Hok; [done..|by rewrite Hl].
Qed.

(** C28: raw-body handlers.  After any interleaving of the critical sections of registrations,
    requests, drains, detachments and shutdown: the table holds exactly the generations that
    are not detached, at most sixteen and one for each path, so that a path can be taken again
    as soon as its last generation is detached; a request in flight holds the handler of a
    generation that is not detached; a generation counts its requests exactly; a detached one
    has released its handler and has no request left; one that is closed becomes detached as
    soon as its last request is done and the thread that took the handler has finished.
    Reserved memory and what is available add up to the budget.  Generations only move on,
    take no request once closed, and none is added after a shutdown began, which closes all. *)
Theorem raw_body_generations_sound limits events w :
  0 <= aggregate_retained_bytes limits -> Forall event_ok events -> run_registry limits events (World_new limits) = Some w ->
  let s := registry w in
  (dropped s = false -> forall p g, routes s !! p = Some g <->
     exists G, generations s !! g = Some G /\ raw_path (gen_route G) = p /\ lifecycle G <> LifecycleDetached) /\
  Z.of_nat (size (routes s)) <= MAX_REGISTERED_HANDLERS /\
  Forall (fun f => exists G, generations s !! ar_generation (fl_request f) = Some G /\ lifecycle G <> LifecycleDetached /\
     gen_handler G = Some (ar_handler (fl_request f))) (flights w) /\
  (forall g G, generations s !! g = Some G ->
     active_requests G = Z.of_nat (in_flight g (flights w)) /\
     (lifecycle G = LifecycleDetached -> gen_handler G = None /\ in_flight g (flights w) = 0%nat) /\
     (lifecycle G <> LifecycleEnabled -> in_flight g (flights w) = 0%nat -> g ∉ detaching w -> lifecycle G = LifecycleDetached)) /\
  0 <= available w /\
  available w + sum (fl_reserved <$> flights w) + sum (releasing w) = aggregate_retained_bytes limits /\
  (forall later w', Forall event_ok later -> run_registry limits later w = Some w' -> registry_ages s (registry w')) /\
  (dropped s = false -> forall g, lifecycle_of (begin_shutdown s) g <> LifecycleEnabled).
Proof.
  intros Ha He Hrun s. pose proof (run_registry_inv _ _ _ _ (world_inv_new limits Ha) He Hrun) as Hinv.
  pose proof (wi_registry _ _ Hinv) as Hok. fold s in Hok. split_and!.
  - intros Hd p g. split; [apply Hok|]. intros (G & HG & <- & Hl). by apply Hok.
  - apply Hok.
  - eapply Forall_impl; [apply Hinv|]. intros f (G & HG & Hh). exists G. split_and!; [done| |done].
    intros Hl. destruct (wi_generations _ _ Hinv _ G HG) as [_ Hg]. rewrite Hl in Hg. destruct Hg. congruence.
  - intros g G HG. destruct (wi_generations _ _ Hinv g G HG) as [Hc Hg]. split_and!; [done|..].
    + intros Hl. rewrite Hl in Hg. destruct Hg as (? & ? & _). split; [done|lia].
    + intros Hl H0 Hnd. destruct (lifecycle G); [done| |done]. rewrite decide_True in Hg by lia. by destruct Hg.
  - pose proof (wi_permits _ _ Hinv) as Hp. by apply Forall_cons in Hp as [? _].
  - apply Hinv.
  - intros later w' Hlater Hrun'. by eapply run_registry_ages.
  - intros Hd g. by apply begin_shutdown_lifecycle.
Qed.
End Registry.

(** ** An example *)

Module Example.
Definition hook : RawBodyRoute := mk_raw_route (str "/hook") [str "x-signature"] RawBodyHandlerLimits_default.

(** A request is in flight when its route is drained; the path is taken again after it. *)
Definition before : list (event (Handler := nat)) :=
  [EvRegister hook 7; EvAccept 0; EvReserve 0; EvDrain 0; EvAccept 0; EvRegister hook 8]%nat.
Definition after : list (event (Handler := nat)) := [EvFinish 0; EvDetach 0; EvRelease 0; EvRegister hook 8; EvStop]%nat.

Definition world (events : list (event (Handler := nat))) : World :=
  default (World_new RawBodyServerLimits_default) (run_registry RawBodyServerLimits_default events (World_new RawBodyServerLimits_default)).

Lemma raw_body_generations_sound_witness :
  run_registry RawBodyServerLimits_default before (World_new RawBodyServerLimits_default) = Some (world before) /\
  lifecycle_of (registry (world before)) 0 = LifecycleDraining /\ available (world before) = 5 * 1048576 /\
  lifecycle_of (registry (world (before ++ after))) 0 = LifecycleDetached /\
  lifecycle_of (registry (world (before ++ after))) 1 = LifecycleEnabled /\
  registry_ages (registry (world before)) (registry (world (before ++ after))) /\
  lifecycle_of (begin_shutdown (registry (world (before ++ after)))) 1 <> LifecycleEnabled.
Proof.
  split_and!; [by vm_compute..| |].
  - refine (proj1 (proj2 (proj2 (proj2 (proj2 (proj2 (proj2 (raw_body_generations_sound RawBodyServerLimits_default before (world before) _ _ _))))))) after _ _ _);
      [done|by repeat constructor|by vm_compute|by repeat constructor|by vm_compute].
  - refine (proj2 (proj2 (proj2 (proj2 (proj2 (proj2 (proj2 (raw_body_generations_sound RawBodyServerLimits_default (before ++ after)
      (world (before ++ after)) _ _ _))))))) _ 1%nat); [done|by repeat constructor|by vm_compute|by vm_compute].
Defined.
End Example.
