(* ===== verification/Secrets.v ===== *)
(** * Secrets: secret material and webhook signatures (bondry-secrets)

    Models secret.rs, provider.rs, canonical.rs and signature.rs, and the value types of
    credential.rs.  The message authentication code is the parameter [HmacSha256]. *)

From S2P Require Import Prelude Text Bytes Crypto.

(** ** Secrets *)

Definition MAX_SECRET_BYTES : Z := 1024.
Definition MAX_SECRET_REF_BYTES : Z := 1024.

Record SecretRef := mk_secret_ref { secret_ref_str : rstr }.
Inductive SecretRefError := SecretRefEmpty | SecretRefTooLong.

Definition SecretRef_new (value : rstr) : result SecretRefError SecretRef :=
  if decide (value = []) then Err SecretRefEmpty
  else if MAX_SECRET_REF_BYTES <? str_len value then Err SecretRefTooLong
  else Ok (mk_secret_ref value).

Record SecretValue := mk_secret { expose : list byte }.
Inductive SecretValueError := SecretValueEmpty | SecretValueTooLong.

Definition SecretValue_new (bytes : list byte) : result SecretValueError SecretValue :=
  if decide (bytes = []) then Err SecretValueEmpty
  else if MAX_SECRET_BYTES <? Z.of_nat (length bytes) then Err SecretValueTooLong
  else Ok (mk_secret bytes).

Record ResolvedSecret := mk_resolved {
  current_value : SecretValue;
  previous_value : option SecretValue;
}.

Definition ResolvedSecret_current (current : SecretValue) : ResolvedSecret := mk_resolved current None.
Definition ResolvedSecret_rotating (current previous : SecretValue) : ResolvedSecret :=
  mk_resolved current (Some previous).

Inductive SecretProviderError := SecretNotFound | SecretProviderUnavailable | SecretInvalidMaterial.

(** The trait [SecretProvider]; a value of [P] is the provider at the time of the call. *)
Class SecretProvider (P : Type) := resolve : P -> SecretRef -> result SecretProviderError ResolvedSecret.

(** The secrets accepted during a rotation. *)
Definition accepted (secrets : ResolvedSecret) (s : SecretValue) : Prop :=
  s = current_value secrets \/ previous_value secrets = Some s.

(** ** Persisted credentials *)

Definition MAX_CREDENTIAL_ID_BYTES : Z := 255.
Definition MAX_CREDENTIAL_BYTES : Z := 64 * 1024.

Record CredentialId := mk_credential_id { credential_id_str : rstr }.
Inductive CredentialIdError := CredentialIdEmpty | CredentialIdTooLong | CredentialIdInvalidCharacter.

Definition CredentialId_new (value : rstr) : result CredentialIdError CredentialId :=
  if decide (value = []) then Err CredentialIdEmpty
  else if MAX_CREDENTIAL_ID_BYTES <? str_len value then Err CredentialIdTooLong
  else if bool_decide (value = str ".") || bool_decide (value = str "..")
          || negb (forallb (fun b => is_ascii_alphanumeric b || (b =? 46) || (b =? 95) || (b =? 45)) (as_bytes value))
  then Err CredentialIdInvalidCharacter
  else Ok (mk_credential_id value).

Record CredentialValue := mk_credential { credential_expose : list byte }.
Inductive CredentialValueError := CredentialValueEmpty | CredentialValueTooLong.

Definition CredentialValue_new (bytes : list byte) : result CredentialValueError CredentialValue :=
  if decide (bytes = []) then Err CredentialValueEmpty
  else if MAX_CREDENTIAL_BYTES <? Z.of_nat (length bytes) then Err CredentialValueTooLong
  else Ok (mk_credential bytes).

(** ** The signed form of a webhook *)

Definition WEBHOOK_CANONICAL_PREFIX : list byte := str "bondry-webhook-v1" ++ [10].
Definition BONDRY_WEBHOOK_DELIVERY_ID_HEADER : rstr := str "x-bondry-delivery-id".
Definition BONDRY_WEBHOOK_TIMESTAMP_HEADER : rstr := str "x-bondry-timestamp".
Definition BONDRY_WEBHOOK_SIGNATURE_HEADER : rstr := str "x-bondry-signature".

Record WebhookSigningInput := mk_signing_input {
  timestamp_unix_seconds : Z;
  signed_delivery_id : list byte;
  signed_body : list byte;
}.

(** [usize::to_string] of a length. *)
Definition length_text (bs : list byte) : rstr := decimal (Z.of_nat (length bs)).

Definition canonical_webhook_bytes (input : WebhookSigningInput) : list byte :=
  let timestamp := i64_to_string (timestamp_unix_seconds input) in
  let result := WEBHOOK_CANONICAL_PREFIX in
  let result := result ++ timestamp in
  let result := result ++ [10] in
  let result := result ++ length_text (signed_delivery_id input) in
  let result := result ++ [10] in
  let result := result ++ signed_delivery_id input in
  let result := result ++ [10] in
  let result := result ++ length_text (signed_body input) in
  let result := result ++ [10] in
  result ++ signed_body input.

(** ** Signatures *)

Definition HMAC_SHA256_BYTES : nat := 32.
Definition HMAC_SHA256_HEX_BYTES : Z := 64.

Record HmacSignature := mk_signature { signature_bytes : list byte }.
Inductive HmacSignatureError := SignatureInvalidEncoding.

#[global] Instance HmacSignature_eq_dec : EqDecision HmacSignature.
Proof. solve_decision. Defined.

Definition decode_nibble (value : byte) : option Z :=
  if in_range 48 57 value then Some (value - 48)
  else if in_range 97 102 value then Some (value - 97 + 10)
  else if in_range 65 70 value then Some (value - 65 + 10)
  else None.

(** The loop of [from_hex] over [chunks_exact(2)]. *)
Fixpoint decode_pairs (bs : list byte) : result HmacSignatureError (list byte) :=
  match bs with
  | a :: b :: bs =>
      high ← ok_or (decode_nibble a) SignatureInvalidEncoding;
      low ← ok_or (decode_nibble b) SignatureInvalidEncoding;
      rest ← decode_pairs bs;
      Ok (Z.lor (Z.shiftl high 4) low :: rest)
  | _ => Ok []
  end.

Definition HmacSignature_from_hex (value : rstr) : result HmacSignatureError HmacSignature :=
  if negb (str_len value =? HMAC_SHA256_HEX_BYTES) then Err SignatureInvalidEncoding
  else signature ← decode_pairs (as_bytes value); Ok (mk_signature signature).

Definition HEX : rstr := str "0123456789abcdef".
Definition hex_digit (i : Z) : char := default 0 (HEX !! Z.to_nat i).

Definition HmacSignature_to_hex (s : HmacSignature) : rstr :=
  flat_map (fun b => [hex_digit (Z.shiftr b 4); hex_digit (Z.land b 0x0f)]) (signature_bytes s).

(** [ct_eq] on slices of equal length decides equality. *)
Definition constant_time_eq (left right : list byte) : bool :=
  Nat.eqb (length left) (length right) && bool_decide (left = right).

Section signing.
Context `{HmacSha256}.

Definition sign_components (secret : SecretValue) (components : list (list byte)) : HmacSignature :=
  mk_signature (mac_finalize (foldl mac_update (mac_new (expose secret)) components)).

Definition sign (secret : SecretValue) (input : WebhookSigningInput) : HmacSignature :=
  let timestamp := i64_to_string (timestamp_unix_seconds input) in
  sign_components secret
    [str "bondry-webhook-v1" ++ [10]; timestamp; [10]; length_text (signed_delivery_id input); [10];
     signed_delivery_id input; [10]; length_text (signed_body input); [10]; signed_body input].

Definition sign_webhook (secret : SecretValue) (input : WebhookSigningInput) : HmacSignature := sign secret input.

Definition verify_webhook (secrets : ResolvedSecret) (input : WebhookSigningInput) (candidate : HmacSignature) : bool :=
  let current := sign (current_value secrets) input in
  let matched := bool_decide (current = candidate) in
  match previous_value secrets with
  | Some previous => matched || bool_decide (sign previous input = candidate)
  | None => matched || false
  end.

Definition verify_hmac_sha256 (secrets : ResolvedSecret) (components : list (list byte))
    (candidates : list HmacSignature) : bool :=
  let any current matched := foldl (fun m candidate => m || bool_decide (current = candidate)) matched candidates in
  let matched := any (sign_components (current_value secrets) components) false in
  match previous_value secrets with
  | Some previous => any (sign_components previous components) matched
  | None => matched
  end.
End signing.

(** ** Hexadecimal *)

(** The sixteen nibbles, checked one by one. *)
Lemma hex_digit_decodes i : 0 <= i < 16 -> decode_nibble (hex_digit i) = Some i /\ 48 <= hex_digit i < 0x80.
Proof.
  intros Hi. assert (Forall (fun i => decode_nibble (hex_digit i) = Some i /\ 48 <= hex_digit i < 0x80) (seqZ 0 16)) as Hall.
  { apply (bool_decide_unpack _). vm_compute. exact I. }
  rewrite Forall_forall in Hall. apply Hall, elem_of_seqZ. lia.
Qed.

Lemma decode_nibble_Some c i : decode_nibble c = Some i -> 0 <= i < 16 /\ hex_digit i = ascii_lower c /\ c < 0x80.
Proof.
  intros Hc. assert (48 <= c <= 102) as Hr.
  { unfold decode_nibble in Hc. repeat case_match; bools; try done; lia. }
  assert (Forall (fun c => decode_nibble c = None \/ 0 <= default 0 (decode_nibble c) < 16 /\
    hex_digit (default 0 (decode_nibble c)) = ascii_lower c) (seqZ 48 55)) as Hall.
  { apply (bool_decide_unpack _). vm_compute. exact I. }
  rewrite Forall_forall in Hall. specialize (Hall c). rewrite Hc in Hall.
  destruct Hall as [?|[? ?]]; [apply elem_of_seqZ; lia|done|]. simpl in *. auto with lia.
Qed.

Lemma nibbles_byte h l :
  0 <= h < 16 -> 0 <= l < 16 ->
  Z.shiftr (Z.lor (Z.shiftl h 4) l) 4 = h /\ Z.land (Z.lor (Z.shiftl h 4) l) 0x0f = l /\
  0 <= Z.lor (Z.shiftl h 4) l <= 255.
Proof.
  intros Hh Hl.
  assert (Forall (fun h => Forall (fun l => Z.shiftr (Z.lor (Z.shiftl h 4) l) 4 = h /\
    Z.land (Z.lor (Z.shiftl h 4) l) 0x0f = l /\ 0 <= Z.lor (Z.shiftl h 4) l <= 255) (seqZ 0 16)) (seqZ 0 16)) as Hall.
  { apply (bool_decide_unpack _). vm_compute. exact I. }
  rewrite Forall_forall in Hall. specialize (Hall h). rewrite Forall_forall in Hall.
  apply Hall; apply elem_of_seqZ; lia.
Qed.

Lemma byte_nibbles b :
  0 <= b <= 255 -> 0 <= Z.shiftr b 4 < 16 /\ 0 <= Z.land b 0x0f < 16 /\ Z.lor (Z.shiftl (Z.shiftr b 4) 4) (Z.land b 0x0f) = b.
Proof.
  intros Hb. assert (Forall (fun b => 0 <= Z.shiftr b 4 < 16 /\ 0 <= Z.land b 0x0f < 16 /\
    Z.lor (Z.shiftl (Z.shiftr b 4) 4) (Z.land b 0x0f) = b) (seqZ 0 256)) as Hall.
  { apply (bool_decide_unpack _). vm_compute. exact I. }
  rewrite Forall_forall in Hall. apply Hall, elem_of_seqZ. lia.
Qed.

Abbreviation byte_string := (Forall (fun b => in_range 0 255 b = true)).

Definition signature_wf (s : HmacSignature) : Prop :=
  length (signature_bytes s) = HMAC_SHA256_BYTES /\ byte_string (signature_bytes s).

Lemma decode_pairs_to_hex bs :
  byte_string bs -> decode_pairs (HmacSignature_to_hex (mk_signature bs)) = Ok bs.
Proof.
  unfold HmacSignature_to_hex. cbn [signature_bytes].
  induction 1 as [|b bs Hb _ IH]; [done|]. apply in_range_spec in Hb.
  destruct (byte_nibbles b Hb) as (Hh & Hl & Hor). cbn [flat_map app decode_pairs].
  rewrite (proj1 (hex_digit_decodes _ Hh)), (proj1 (hex_digit_decodes _ Hl)). simpl. rewrite IH. simpl. by rewrite Hor.
Qed.

Lemma to_hex_ascii bs : byte_string bs -> Forall (fun c => c < 0x80) (HmacSignature_to_hex (mk_signature bs)).
Proof.
  unfold HmacSignature_to_hex. cbn [signature_bytes].
  induction 1 as [|b bs Hb _ IH]; [constructor|]. apply in_range_spec in Hb.
  destruct (byte_nibbles b Hb) as (Hh & Hl & _). cbn [flat_map app].
  repeat constructor; [apply hex_digit_decodes; lia..|done].
Qed.

Lemma length_to_hex bs : length (HmacSignature_to_hex (mk_signature bs)) = (2 * length bs)%nat.
Proof. unfold HmacSignature_to_hex. cbn [signature_bytes]. induction bs; simpl in *; lia. Qed.

Lemma decode_pairs_lower n bs sig :
  length bs = (2 * n)%nat -> decode_pairs bs = Ok sig ->
  length sig = n /\ byte_string sig /\ HmacSignature_to_hex (mk_signature sig) = ascii_lower <$> bs /\ Forall (fun c => c < 0x80) bs.
Proof.
  unfold HmacSignature_to_hex. cbn [signature_bytes].
  revert bs sig. induction n as [|n IH]; intros bs sig Hlen.
  { destruct bs; [|done]. intros [= <-]. done. }
  destruct bs as [|a [|b bs]]; simpl in Hlen; [lia..|]. cbn [decode_pairs].
  destruct (decode_nibble a) as [h|] eqn:Ha; [|done]. destruct (decode_nibble b) as [l|] eqn:Hb; [|done].
  cbn. destruct (decode_pairs bs) as [rest|] eqn:Hr; [|done]. intros [= <-].
  destruct (IH bs rest) as (Hl & Hw & Hx & Hs); [lia|done|].
  apply decode_nibble_Some in Ha as (Hh & Hah & Ha). apply decode_nibble_Some in Hb as (Hll & Hbl & Hb).
  destruct (nibbles_byte h l Hh Hll) as (H1 & H2 & H3).
  cbn [length flat_map app]. rewrite H1, H2, Hah, Hbl, Hx. split_and!; [lia| |done|by repeat constructor].
  constructor; [by apply in_range_spec|done].
Qed.

Lemma decode_nibble_lower c : decode_nibble (ascii_lower c) = decode_nibble c.
Proof.
  unfold decode_nibble, ascii_lower. destruct (in_range 65 90 c) eqn:Hc; [|done]. apply in_range_spec in Hc.
  unfold in_range. repeat case_match; bools; try done; try lia. f_equal. lia.
Qed.

Lemma decode_pairs_case s : decode_pairs (ascii_lower <$> s) = decode_pairs s.
Proof.
  remember (length s) as n eqn:Hn. assert (length s <= n)%nat as Hle by lia. clear Hn.
  revert s Hle. induction n as [|n IH]; intros [|a [|b s]] Hle; simpl in Hle; try done; [lia|].
  change (ascii_lower <$> a :: b :: s) with (ascii_lower a :: ascii_lower b :: (ascii_lower <$> s)).
  cbn [decode_pairs]. rewrite !decode_nibble_lower, IH by lia. done.
Qed.

(** A text whose bytes are all ASCII is its bytes. *)
Lemma as_bytes_low s : Forall (fun b => b < 0x80) (as_bytes s) -> Forall (fun c => c < 0x80) s.
Proof.
  induction s as [|c s IH]; [constructor|]. rewrite as_bytes_cons. intros [Hc Hs]%Forall_app.
  constructor; [|by apply IH]. unfold encode_utf8 in Hc. destruct (Z.ltb_spec c 0x80); [done|].
  assert (forall n, 0 <= n -> 0 <= Z.shiftr c n) as Hpos by (intros; apply Z.shiftr_nonneg; lia).
  pose proof (Hpos 6). pose proof (Hpos 12). pose proof (Hpos 18).
  repeat case_match; apply Forall_cons in Hc as [Hc _]; lia.
Qed.

Lemma ascii_lower_low s : Forall (fun c => c < 0x80) (ascii_lower <$> s) -> Forall (fun c => c < 0x80) s.
Proof.
  intros Hs%Forall_fmap. eapply Forall_impl; [exact Hs|]. intros c. unfold compose, ascii_lower. simpl. case_match; lia.
Qed.

(** Exactly the texts whose lower case is the hexadecimal form of a signature are read, as
    that signature. *)
Lemma from_hex_exact s sig :
  HmacSignature_from_hex s = Ok sig <-> signature_wf sig /\ ascii_lower <$> s = HmacSignature_to_hex sig.
Proof.
  unfold HmacSignature_from_hex, signature_wf, HMAC_SHA256_BYTES, HMAC_SHA256_HEX_BYTES. split.
  - destruct (Z.eqb_spec (str_len s) 64) as [Hlen|]; [|done]. simpl.
    intros (bs & Hd & [= <-])%result_bind_Ok. rewrite <-length_as_bytes in Hlen.
    destruct (decode_pairs_lower 32 (as_bytes s) bs) as (Hl & Hw & Hx & Hs); [lia|done|].
    rewrite as_bytes_ascii in Hx by (by apply as_bytes_low). done.
  - destruct sig as [bs]. cbn [signature_bytes]. intros [[Hl Hw] Hx].
    assert (Forall (fun c => c < 0x80) s) as Hs.
    { apply ascii_lower_low. rewrite Hx. by apply to_hex_ascii. }
    assert (length s = 64%nat) as Hlen.
    { rewrite <-(length_fmap ascii_lower), Hx, length_to_hex, Hl. done. }
    rewrite str_len_ascii, Hlen, as_bytes_ascii by done. simpl.
    rewrite <-decode_pairs_case, Hx, decode_pairs_to_hex by done. done.
Qed.

(** ** The signed form determines what is signed *)

Lemma newline_inj (a b x y : list Z) :
  Forall (fun c => c <> 10) a -> Forall (fun c => c <> 10) b -> a ++ 10 :: x = b ++ 10 :: y -> a = b /\ x = y.
Proof.
  intros Ha. revert b. induction Ha as [|c a Hc _ IH]; intros b Hb Heq.
  - destruct b as [|d b]; [by injection Heq|]. injection Heq as <- _. by apply Forall_cons in Hb as [? _].
  - destruct b as [|d b]; [by injection Heq|]. injection Heq as -> Heq. apply Forall_cons in Hb as [_ Hb].
    by destruct (IH b Hb Heq) as [-> ->].
Qed.

Lemma i64_text_no_newline n : Forall (fun c => c <> 10) (i64_to_string n).
Proof. eapply Forall_impl; [apply i64_to_string_chars|]. simpl. lia. Qed.

Lemma length_text_no_newline bs : Forall (fun c => c <> 10) (length_text bs).
Proof. eapply Forall_impl; [apply decimal_all|]. intros c Hc%is_ascii_digit_spec. lia. Qed.

Lemma length_prefixed_inj (a b x y : list Z) :
  length_text a ++ 10 :: a ++ x = length_text b ++ 10 :: b ++ y -> a = b /\ x = y.
Proof.
  intros Heq. apply newline_inj in Heq as [Hl Heq]; [|apply length_text_no_newline..].
  apply decimal_inj in Hl; [|lia..]. apply app_inj_1; [lia|done].
Qed.

Lemma canonical_form input :
  canonical_webhook_bytes input =
  WEBHOOK_CANONICAL_PREFIX ++ i64_to_string (timestamp_unix_seconds input) ++
  10 :: length_text (signed_delivery_id input) ++ 10 :: signed_delivery_id input ++
  10 :: length_text (signed_body input) ++ 10 :: signed_body input.
Proof. unfold canonical_webhook_bytes. cbv zeta. by rewrite <-!(assoc_L (++)). Qed.

Lemma canonical_webhook_bytes_inj i j : canonical_webhook_bytes i = canonical_webhook_bytes j -> i = j.
Proof.
  rewrite !canonical_form. intros Heq%app_inv_head.
  apply newline_inj in Heq as [Ht Heq]; [|apply i64_text_no_newline..].
  apply i64_to_string_inj in Ht. apply length_prefixed_inj in Heq as [Hid Heq].
  injection Heq as Heq. rewrite <-(app_nil_r (signed_body i)), <-(app_nil_r (signed_body j)) in Heq at 2.
  apply length_prefixed_inj in Heq as [Hb _]. destruct i, j. simpl in *. by subst.
Qed.

Section signing_facts.
Context `{HmacSha256Spec}.

Lemma sign_components_hmac secret components :
  sign_components secret components = mk_signature (hmac_sha256 (expose secret) (concat components)).
Proof. unfold sign_components. by rewrite mac_stream. Qed.

(** The streamed signature is the code of the canonical bytes. *)
Lemma sign_canonical secret input :
  sign secret input = mk_signature (hmac_sha256 (expose secret) (canonical_webhook_bytes input)).
Proof.
  unfold sign. rewrite sign_components_hmac, canonical_form. cbn [concat app]. by rewrite app_nil_r.
Qed.

Lemma sign_wf secret components : signature_wf (sign_components secret components).
Proof. split; [apply mac_length|apply mac_bytes]. Qed.

Lemma verify_webhook_exact secrets input candidate :
  verify_webhook secrets input candidate = true <->
  exists s, accepted secrets s /\ candidate = mk_signature (hmac_sha256 (expose s) (canonical_webhook_bytes input)).
Proof.
  unfold verify_webhook, accepted. setoid_rewrite <-sign_canonical.
  destruct (previous_value secrets) as [p|]; rewrite orb_true_iff, ?bool_decide_eq_true; naive_solver.
Qed.

Lemma foldl_orb {A} (p : A -> bool) m l :
  foldl (fun m x => m || p x) m l = true <-> m = true \/ exists x, x ∈ l /\ p x = true.
Proof.
  revert m. induction l as [|x l IH]; intros m; simpl.
  - split; [auto|]. intros [?|(x & Hx & _)]; [done|]. by apply elem_of_nil in Hx.
  - rewrite IH, orb_true_iff. setoid_rewrite elem_of_cons. naive_solver.
Qed.

Lemma verify_hmac_exact secrets components candidates :
  verify_hmac_sha256 secrets components candidates = true <->
  exists s, accepted secrets s /\ mk_signature (hmac_sha256 (expose s) (concat components)) ∈ candidates.
Proof.
  unfold verify_hmac_sha256, accepted. setoid_rewrite <-sign_components_hmac.
  destruct (previous_value secrets) as [p|]; rewrite ?foldl_orb; setoid_rewrite bool_decide_eq_true; naive_solver.
Qed.
End signing_facts.

Lemma constant_time_eq_spec l r : constant_time_eq l r = true <-> l = r.
Proof.
  unfold constant_time_eq. rewrite andb_true_iff, Nat.eqb_eq, bool_decide_eq_true. naive_solver.
Qed.
