(* ===== verification/Identifiers.v ===== *)
(** * Identifiers: the validated newtypes of [bondry-core] and [bondry-delivery-store]

    The two crates each generate a family of newtypes over [Arc<str>] with a macro
    ([identifier!] in bondry-core/src/identifier.rs, [persistence_identifier!] in
    bondry-delivery-store/src/identifier.rs).  A newtype here is [Id k], tagged with
    the member [k] of the family, so that a route identifier cannot be used where a
    delivery identifier is expected. *)

From S2P Require Import Prelude Text.

Inductive id_kind :=
| KAdapter | KCapability | KHandlerErrorCode | KInvocation | KPrincipal
| KRoute | KDelivery | KVerifierNamespace.

Record Id (k : id_kind) := mk_id { as_str : rstr }.
Arguments mk_id {k} _.
Arguments as_str {k} _.

Abbreviation AdapterId := (Id KAdapter).
Abbreviation CapabilityId := (Id KCapability).
Abbreviation HandlerErrorCode := (Id KHandlerErrorCode).
Abbreviation InvocationId := (Id KInvocation).
Abbreviation PrincipalId := (Id KPrincipal).
Abbreviation RouteId := (Id KRoute).
Abbreviation DeliveryId := (Id KDelivery).
Abbreviation VerifierNamespace := (Id KVerifierNamespace).

#[global] Instance Id_eq_dec k : EqDecision (Id k).
Proof. solve_decision. Defined.
#[global] Instance Id_countable k : Countable (Id k).
Proof. apply (inj_countable' as_str mk_id). by intros []. Defined.

(** The derived [Ord] compares the strings. *)
#[global] Program Instance Id_btree_key k : BTreeKey (Id k) :=
  {| key_le i j := lex_le (as_str i) (as_str j) |}.
Next Obligation. intros k i j. apply _. Defined.
Next Obligation.
  intros k. split; [split|].
  - intros i. by apply reflexivity.
  - intros i j l. apply (transitivity (R := lex_le)).
  - intros [s] [t] ??. f_equal. by apply (anti_symm lex_le).
Qed.
Next Obligation. intros k i j. apply (total lex_le). Qed.

(** ** Validation *)

Definition MAX_IDENTIFIER_LENGTH : Z := 128.
Definition MAX_ROUTE_ID_BYTES : Z := 128.
Definition MAX_DELIVERY_ID_BYTES : Z := 128.
Definition MAX_VERIFIER_NAMESPACE_BYTES : Z := 128.

Inductive IdentifierError :=
| IdentifierEmpty
| IdentifierTooLong
| IdentifierInvalidCharacter (index : Z) (character : char).

Inductive PersistenceIdentifierError :=
| PersistenceEmpty
| PersistenceTooLong (maximum : Z)
| PersistenceInvalidCharacter (index : Z) (character : char).

(** [matches!(character, '.' | ':' | '_' | '-')] beside the alphanumerics. *)
Definition is_allowed (c : char) : bool :=
  is_ascii_alphanumeric c || (c =? 46) || (c =? 58) || (c =? 95) || (c =? 45).

(** [validate] of bondry-core. *)
Definition validate (value : rstr) : result IdentifierError unit :=
  if decide (value = []) then Err IdentifierEmpty
  else if MAX_IDENTIFIER_LENGTH <? str_len value then Err IdentifierTooLong
  else match find_char (fun c => negb (is_allowed c)) 0 value with
       | Some (index, character) => Err (IdentifierInvalidCharacter index character)
       | None => Ok ()
       end.

(** [$name::new] of [identifier!]. *)
Definition Identifier_new {k} (value : rstr) : result IdentifierError (Id k) :=
  _ ← validate value; Ok (mk_id value).

(** [validate] of bondry-delivery-store. *)
Definition persistence_validate (value : rstr) (maximum : Z)
    : result PersistenceIdentifierError unit :=
  if decide (value = []) then Err PersistenceEmpty
  else if maximum <? str_len value then Err (PersistenceTooLong maximum)
  else match find_char (fun c => negb (is_allowed c)) 0 value with
       | Some (index, character) => Err (PersistenceInvalidCharacter index character)
       | None => Ok ()
       end.

(** [$name::new] of [persistence_identifier!]. *)
Definition PersistenceIdentifier_new {k} (maximum : Z) (value : rstr)
    : result PersistenceIdentifierError (Id k) :=
  _ ← persistence_validate value maximum; Ok (mk_id value).

Definition RouteId_new : rstr -> result PersistenceIdentifierError RouteId :=
  PersistenceIdentifier_new MAX_ROUTE_ID_BYTES.
Definition DeliveryId_new : rstr -> result PersistenceIdentifierError DeliveryId :=
  PersistenceIdentifier_new MAX_DELIVERY_ID_BYTES.
Definition VerifierNamespace_new : rstr -> result PersistenceIdentifierError VerifierNamespace :=
  PersistenceIdentifier_new MAX_VERIFIER_NAMESPACE_BYTES.

(** ** What a constructed identifier satisfies *)

Definition portable (maximum : Z) (s : rstr) : Prop :=
  s <> [] /\ Z.of_nat (length s) <= maximum /\ Forall (fun c => is_allowed c = true) s.

#[global] Instance portable_dec maximum s : Decision (portable maximum s).
Proof. unfold portable. apply _. Defined.

Lemma is_allowed_ascii c : is_allowed c = true -> 45 <= c < 0x80.
Proof.
  unfold is_allowed, is_ascii_alphanumeric, is_ascii_digit, is_ascii_alphabetic, in_range.
  rewrite !orb_true_iff, !andb_true_iff, !Z.leb_le, !Z.eqb_eq. lia.
Qed.

Lemma allowed_str_len s :
  Forall (fun c => is_allowed c = true) s -> str_len s = Z.of_nat (length s).
Proof.
  intros H. apply str_len_ascii. eapply Forall_impl; [exact H|].
  intros c Hc%is_allowed_ascii. simpl. lia.
Qed.

Lemma find_disallowed_None s :
  find_char (fun c => negb (is_allowed c)) 0 s = None <-> Forall (fun c => is_allowed c = true) s.
Proof. rewrite find_char_None. by setoid_rewrite negb_false_iff. Qed.

Lemma persistence_validate_ok s maximum :
  persistence_validate s maximum = Ok () <-> portable maximum s.
Proof.
  unfold persistence_validate, portable. rewrite <-find_disallowed_None.
  case_decide as Hne; [naive_solver|]. destruct (Z.ltb_spec maximum (str_len s)) as [Hlt|Hle].
  - split; [done|]. intros (_ & Hlen & HF%find_disallowed_None%allowed_str_len). lia.
  - case_match eqn:Hf; [case_match; naive_solver|]. split; [|done]. intros _.
    rewrite find_disallowed_None in Hf. apply allowed_str_len in Hf. auto with lia.
Qed.

Lemma validate_ok s : validate s = Ok () <-> portable MAX_IDENTIFIER_LENGTH s.
Proof.
  rewrite <-persistence_validate_ok. unfold validate, persistence_validate.
  case_decide; [done|]. repeat case_match; naive_solver.
Qed.

Lemma PersistenceIdentifier_new_ok k maximum s (i : Id k) :
  PersistenceIdentifier_new maximum s = Ok i <-> i = mk_id s /\ portable maximum s.
Proof.
  unfold PersistenceIdentifier_new. rewrite <-persistence_validate_ok, result_bind_Ok.
  split; [intros ([] & ? & [= <-]); done|]. intros [-> ?]. by exists ().
Qed.

(** What the identifier constructors accept and report.  An identifier is built
    exactly from a nonempty string of allowed characters within the limit and keeps the
    string; an error is the first rule broken, and an invalid character is the first one
    with the byte offset it starts at.  The identifiers of bondry-core follow the same
    rules with the limit 128. *)
Theorem identifier_new_exact k maximum s :
  match @PersistenceIdentifier_new k maximum s with
  | Ok i => i = mk_id s /\ portable maximum s
  | Err PersistenceEmpty => s = []
  | Err (PersistenceTooLong m) => s <> [] /\ m = maximum /\ maximum < str_len s
  | Err (PersistenceInvalidCharacter index c) =>
      str_len s <= maximum /\
      exists pre post, s = pre ++ c :: post /\ Forall (fun c => is_allowed c = true) pre /\
        is_allowed c = false /\ index = str_len pre
  end /\
  (forall i, @Identifier_new k s = Ok i <-> @PersistenceIdentifier_new k MAX_IDENTIFIER_LENGTH s = Ok i).
Proof.
  split.
  - destruct (PersistenceIdentifier_new maximum s) as [i|e] eqn:H; [by apply PersistenceIdentifier_new_ok in H|].
    unfold PersistenceIdentifier_new, persistence_validate in H.
    case_decide as Hs; [injection H as <-; done|]. destruct (Z.ltb_spec maximum (str_len s)); [by injection H as <-|].
    destruct (find_char _ 0 s) as [[index c]|] eqn:Hf; [|done]. injection H as <-.
    apply find_char_Some in Hf as (pre & post & -> & Hpre & Hc & ->). split; [done|].
    exists pre, post. apply negb_true_iff in Hc. split_and!; try done.
    eapply Forall_impl; [exact Hpre|]. intros x. apply negb_false_iff.
  - intros i. unfold Identifier_new. rewrite PersistenceIdentifier_new_ok, <-validate_ok, result_bind_Ok.
    split; [intros ([] & ? & [= <-]); done|]. intros [-> ?]. by exists ().
Qed.
