(* ===== verification/CAbi.v ===== *)
(** * CAbi: values across the C interface

    What the foreign function interfaces share (lib.rs and records.rs of [bondry-runtime-ffi]):
    status codes, buffers and zero-terminated arrays.  A pointer is an option of what it
    points to, [None] the null pointer; a pointer with a length is a pointer to the list of
    its bytes.  [catch_status] turns a panic into [BONDRY_STATUS_INTERNAL_FAILURE]; where a
    call can panic the model answers so. *)

From S2P Require Import Prelude Text Bytes Identifiers.

Abbreviation pointer := option.

Definition BONDRY_STATUS_OK : Z := 0.
Definition BONDRY_STATUS_NULL_POINTER : Z := 1.
Definition BONDRY_STATUS_INVALID_LENGTH : Z := 2.
Definition BONDRY_STATUS_INVALID_UTF8 : Z := 3.
Definition BONDRY_STATUS_INVALID_ARGUMENT : Z := 5.
Definition BONDRY_STATUS_BUFFER_TOO_SMALL : Z := 6.
Definition BONDRY_STATUS_INVALID_JSON : Z := 7.
Definition BONDRY_STATUS_PAYLOAD_TOO_LARGE : Z := 8.
Definition BONDRY_STATUS_UNAVAILABLE : Z := 15.
Definition BONDRY_STATUS_NOT_FOUND : Z := 20.
Definition BONDRY_STATUS_AUTHENTICATION_REJECTED : Z := 23.
Definition BONDRY_STATUS_TIME_UNAVAILABLE : Z := 26.
Definition BONDRY_STATUS_ALREADY_EXISTS : Z := 28.
Definition BONDRY_STATUS_CAPACITY_EXHAUSTED : Z := 32.
Definition BONDRY_STATUS_INVALID_TRANSITION : Z := 33.
Definition BONDRY_STATUS_INTERNAL_FAILURE : Z := 255.
Definition BONDRY_IDENTIFIER_CAPACITY_V1 : nat := 129.
Definition ISIZE_MAX : Z := I64_MAX.

(** [required_utf8]. *)
Definition required_utf8 (bytes : pointer (list byte)) : result Z rstr :=
  bytes ← ok_or bytes BONDRY_STATUS_NULL_POINTER;
  if ISIZE_MAX <? Z.of_nat (length bytes) then Err BONDRY_STATUS_INVALID_LENGTH
  else ok_or (from_utf8 bytes) BONDRY_STATUS_INVALID_UTF8.

(** [terminated]: a copy out of range panics. *)
Definition terminated (capacity : nat) (value : rstr) : option (list byte) :=
  let bytes := as_bytes value in
  if (capacity <? length bytes)%nat then None else Some (bytes ++ replicate (capacity - length bytes) 0).

Definition optional_terminated (capacity : nat) (value : option rstr) : option (list byte * Z) :=
  match value with
  | None => Some (replicate capacity 0, 0)
  | Some value => bytes ← terminated capacity value; Some (bytes, 1)
  end.

(** [write_records], and [write_bytes], which is the same on bytes: the status, what the output
    holds then and the count.  An output that is not null has room for [capacity] elements. *)
Definition write_records {A} (records : list A) (output : pointer (list A)) (capacity : Z) (out_count : pointer Z)
    : Z * pointer (list A) * pointer Z :=
  match out_count with
  | None => (BONDRY_STATUS_NULL_POINTER, output, None)
  | Some _ =>
      let count := Z.of_nat (length records) in
      match output with
      | None => (if capacity =? 0 then BONDRY_STATUS_OK else BONDRY_STATUS_NULL_POINTER, None, Some count)
      | Some old =>
          if capacity <? count then (BONDRY_STATUS_BUFFER_TOO_SMALL, output, Some count)
          else (BONDRY_STATUS_OK, Some (records ++ drop (length records) old), Some count)
      end
  end.

Definition terminated_utf8 (bytes : list byte) : option rstr :=
  parts ← split_at_first (fun byte => byte =? 0) bytes;
  from_utf8 parts.1.

(** ** Identifiers survive *)

Lemma portable_ascii maximum s : portable maximum s -> Forall (fun c => 0 < c < 0x80) s.
Proof. intros (_ & _ & H). eapply Forall_impl; [exact H|]. intros c Hc%is_allowed_ascii. cbn. lia. Qed.

Lemma portable_bytes maximum s : portable maximum s -> as_bytes s = s /\ from_utf8 s = Some s.
Proof.
  intros H%portable_ascii. split; [apply as_bytes_ascii|apply from_utf8_ascii]; (eapply Forall_impl; [exact H|cbn; lia]).
Qed.

(** Bytes of ASCII text are the bytes of no other text. *)
Lemma as_bytes_ascii_inv s t : Forall (fun c => 0 < c < 0x80) t -> as_bytes s = t -> s = t.
Proof.
  revert t. induction s as [|c s IH]; intros t Ht; [by intros <-|]. rewrite as_bytes_cons. unfold encode_utf8.
  destruct (c <? 0x80) eqn:Hc.
  { intros <-. apply Forall_cons in Ht as [_ Ht]. f_equal. by apply IH. }
  apply Z.ltb_ge in Hc. assert (forall n, 0 <= Z.shiftr c n) as Hsh by (intros n; apply Z.shiftr_nonneg; lia).
  pose proof (Hsh 6). pose proof (Hsh 12). pose proof (Hsh 18).
  repeat case_match; intros <-; apply Forall_cons in Ht as [Ht _]; lia.
Qed.

Lemma required_utf8_portable maximum s : portable maximum s -> maximum <= 128 -> required_utf8 (Some (as_bytes s)) = Ok s.
Proof.
  intros H Hm. destruct (portable_bytes _ _ H) as [Hb Hu]. unfold required_utf8. cbn. rewrite Hb, Hu.
  destruct H as (_ & Hl & _). unfold ISIZE_MAX, I64_MAX. by rewrite (proj2 (Z.ltb_ge _ _)) by lia.
Qed.

(** What is read from the bytes of [s], if it is portable, is [s]. *)
Lemma from_utf8_portable_inv maximum s t : from_utf8 (as_bytes s) = Some t -> portable maximum t -> t = s.
Proof.
  intros Hs%from_utf8_sound Ht. destruct (portable_bytes _ _ Ht) as [Hb _]. rewrite Hb in Hs. symmetry.
  apply as_bytes_ascii_inv; [by eapply portable_ascii|done].
Qed.

Lemma terminated_portable maximum s :
  portable maximum s -> maximum <= 128 ->
  terminated BONDRY_IDENTIFIER_CAPACITY_V1 s = Some (s ++ replicate (BONDRY_IDENTIFIER_CAPACITY_V1 - length s) 0).
Proof.
  intros H Hm. destruct (portable_bytes _ _ H) as [Hb _]. destruct H as (_ & Hl & _). unfold terminated. rewrite Hb.
  destruct (Nat.ltb_spec BONDRY_IDENTIFIER_CAPACITY_V1 (length s)) as [Hlt|]; [|done]. unfold BONDRY_IDENTIFIER_CAPACITY_V1 in Hlt. lia.
Qed.

(** The text before the first zero. *)
Lemma terminated_split maximum s :
  portable maximum s -> maximum <= 128 ->
  exists n, (BONDRY_IDENTIFIER_CAPACITY_V1 - length s = S n)%nat /\
    split_at_first (fun byte => byte =? 0) (s ++ replicate (S n) 0) = Some (s, replicate (S n) 0).
Proof.
  intros H Hm. pose proof H as (_ & Hl & _). exists (BONDRY_IDENTIFIER_CAPACITY_V1 - S (length s))%nat.
  split; [unfold BONDRY_IDENTIFIER_CAPACITY_V1; lia|]. cbn [replicate]. apply split_at_first_app; [|done].
  eapply Forall_impl; [exact (portable_ascii _ _ H)|]. intros c Hc. cbn in Hc. apply Z.eqb_neq. lia.
Qed.

Lemma terminated_round_trip maximum s :
  portable maximum s -> maximum <= 128 ->
  exists bytes, terminated BONDRY_IDENTIFIER_CAPACITY_V1 s = Some bytes /\ terminated_utf8 bytes = Some s.
Proof.
  intros H Hm. rewrite (terminated_portable _ _ H Hm). destruct (terminated_split _ _ H Hm) as (n & -> & Hs).
  eexists. split; [done|]. unfold terminated_utf8. rewrite Hs. cbn. by apply (portable_bytes maximum).
Qed.

(** ** Texts survive, if they hold no zero *)

Definition plain_text (s : rstr) : Prop := Forall (fun c => is_scalar c = true /\ c <> 0) s.

Lemma encode_utf8_nonzero c : is_scalar c = true -> c <> 0 -> Forall (fun b => (b =? 0) = false) (encode_utf8 c).
Proof.
  intros Hs Hc. unfold is_scalar, in_range in Hs. rewrite orb_true_iff, !andb_true_iff, !Z.leb_le in Hs.
  assert (forall n, 0 <= Z.shiftr c n) as Hsh by (intros n; apply Z.shiftr_nonneg; lia).
  assert (forall x, 0 <= Z.land x 0x3F) as Hland by (intros x; rewrite low_bits; apply Z.mod_pos_bound; lia).
  unfold encode_utf8. repeat case_match; repeat constructor; apply Z.eqb_neq;
    repeat match goal with |- context [Z.land ?x 63] => pose proof (Hland x); generalize dependent (Z.land x 63); intros end;
    repeat match goal with |- context [Z.shiftr c ?n] => pose proof (Hsh n); generalize dependent (Z.shiftr c n); intros end; lia.
Qed.

Lemma plain_bytes s : plain_text s -> Forall (fun b => (b =? 0) = false) (as_bytes s).
Proof.
  induction 1 as [|c s [Hs Hc] _ IH]; [constructor|]. rewrite as_bytes_cons. apply Forall_app. split; [by apply encode_utf8_nonzero|done].
Qed.

Lemma terminated_text capacity s :
  plain_text s -> str_len s < Z.of_nat capacity ->
  exists bytes, terminated capacity s = Some bytes /\ terminated_utf8 bytes = Some s.
Proof.
  intros Hp Hl. pose proof (length_as_bytes s) as Hlen. unfold terminated. destruct (Nat.ltb_spec capacity (length (as_bytes s))) as [|_]; [lia|].
  eexists. split; [done|]. unfold terminated_utf8. replace (capacity - length (as_bytes s))%nat with (S (capacity - length (as_bytes s) - 1)) by lia.
  cbn [replicate]. rewrite split_at_first_app by (done || by apply plain_bytes). cbn. apply from_utf8_as_bytes.
  eapply Forall_impl; [exact Hp|]. by intros c [? _].
Qed.

Lemma portable_plain maximum s : portable maximum s -> plain_text s.
Proof.
  intros H%portable_ascii. eapply Forall_impl; [exact H|]. intros c Hc. cbn in Hc. split; [|lia]. unfold is_scalar, in_range.
  rewrite orb_true_iff, !andb_true_iff, !Z.leb_le. lia.
Qed.
