(* ===== verification/Base64.v ===== *)
(** * Base64: the encoding of tokens and client identifiers

    The [base64] crate's [URL_SAFE_NO_PAD] engine is third-party code: [Base64] is its
    interface and [Base64Spec] what the crate documents of it (RFC 4648 with the URL-safe
    alphabet, no padding, trailing bits rejected).  [url_safe_no_pad] is RFC 4648 itself,
    which shows that the documented behaviour can be had. *)

From S2P Require Import Prelude Text.

Definition is_byte (b : Z) : bool := in_range 0 255 b.
Abbreviation bytes_wf := (Forall (fun b => is_byte b = true)).

(** The URL-safe alphabet: letters, digits, [-] and [_]. *)
Definition url_safe (c : char) : bool := is_ascii_alphanumeric c || (c =? 45) || (c =? 95).

Class Base64 := {
  b64_encode : list byte -> rstr;
  b64_decode : rstr -> option (list byte);
}.

Class Base64Spec `{Base64} : Prop := {
  b64_decode_encode bs : bytes_wf bs -> b64_decode (b64_encode bs) = Some bs;
  b64_encode_decode s bs : b64_decode s = Some bs -> b64_encode bs = s;
  b64_alphabet bs : bytes_wf bs -> Forall (fun c => url_safe c = true) (b64_encode bs);
  b64_decode_octets s bs : b64_decode s = Some bs -> bytes_wf bs;
  b64_length bs : Z.of_nat (length (b64_encode bs)) = (8 * Z.of_nat (length bs) + 5) / 6;
}.

Lemma url_safe_not_dot c : url_safe c = true -> c <> 46.
Proof. intros H ->. done. Qed.

(** ** RFC 4648 *)

Definition sextet_char (i : Z) : char :=
  if i <? 26 then 65 + i else if i <? 52 then 71 + i else if i <? 62 then i - 4
  else if i =? 62 then 45 else 95.

Definition char_sextet (c : char) : option Z :=
  if in_range 65 90 c then Some (c - 65) else if in_range 97 122 c then Some (c - 71)
  else if in_range 48 57 c then Some (c + 4) else if c =? 45 then Some 62
  else if c =? 95 then Some 63 else None.

Fixpoint rfc_encode (bs : list byte) : rstr :=
  match bs with
  | a :: b :: c :: r =>
      sextet_char (a / 4) :: sextet_char (a mod 4 * 16 + b / 16)
      :: sextet_char (b mod 16 * 4 + c / 64) :: sextet_char (c mod 64) :: rfc_encode r
  | [a; b] => [sextet_char (a / 4); sextet_char (a mod 4 * 16 + b / 16); sextet_char (b mod 16 * 4)]
  | [a] => [sextet_char (a / 4); sextet_char (a mod 4 * 16)]
  | [] => []
  end.

Fixpoint rfc_decode (s : rstr) : option (list byte) :=
  match s with
  | w :: x :: y :: z :: r =>
      a ← char_sextet w; b ← char_sextet x; c ← char_sextet y; d ← char_sextet z; bs ← rfc_decode r;
      Some (a * 4 + b / 16 :: b mod 16 * 16 + c / 4 :: c mod 4 * 64 + d :: bs)
  | [w; x; y] =>
      a ← char_sextet w; b ← char_sextet x; c ← char_sextet y;
      if c mod 4 =? 0 then Some [a * 4 + b / 16; b mod 16 * 16 + c / 4] else None
  | [w; x] =>
      a ← char_sextet w; b ← char_sextet x;
      if b mod 16 =? 0 then Some [a * 4 + b / 16] else None
  | [_] => None
  | [] => Some []
  end.

Lemma char_sextet_char i : 0 <= i < 64 -> char_sextet (sextet_char i) = Some i.
Proof. intros Hi. unfold char_sextet, sextet_char. repeat case_match; bools; try lia; f_equal; lia. Qed.

Lemma sextet_char_sextet c i : char_sextet c = Some i -> sextet_char i = c /\ 0 <= i < 64.
Proof. unfold char_sextet, sextet_char. intros H. repeat case_match; simplify_eq; bools; lia. Qed.

Lemma sextet_url_safe i : 0 <= i < 64 -> url_safe (sextet_char i) = true.
Proof.
  intros Hi. unfold url_safe, sextet_char, is_ascii_alphanumeric, is_ascii_digit, is_ascii_alphabetic, in_range.
  rewrite !orb_true_iff, !andb_true_iff, !Z.leb_le, !Z.eqb_eq. repeat case_match; bools; lia.
Qed.

(** The three byte and four sextet positions of a group. *)
Ltac group := repeat match goal with
  | H : is_byte _ = true |- _ => apply in_range_spec in H
  end; Z.to_euclidean_division_equations; lia.

Lemma rfc_decode_encode : forall bs, bytes_wf bs -> rfc_decode (rfc_encode bs) = Some bs.
Proof.
  fix IH 1. intros [|a [|b [|c r]]] Hbs; [done|..].
  - apply Forall_cons in Hbs as [Ha _]. cbn [rfc_encode rfc_decode]. rewrite !char_sextet_char by group. simpl.
    replace (a mod 4 * 16 mod 16) with 0 by group. simpl. do 2 f_equal. group.
  - rewrite !Forall_cons in Hbs. destruct Hbs as (Ha & Hb & _). cbn [rfc_encode rfc_decode].
    rewrite !char_sextet_char by group. simpl. replace (b mod 16 * 4 mod 4) with 0 by group. simpl.
    repeat f_equal; group.
  - rewrite !Forall_cons in Hbs. destruct Hbs as (Ha & Hb & Hc & Hr). cbn [rfc_encode rfc_decode].
    rewrite !char_sextet_char by group. simpl. rewrite (IH r Hr). simpl. repeat f_equal; group.
Qed.

Lemma rfc_encode_decode : forall s bs, rfc_decode s = Some bs -> rfc_encode bs = s.
Proof.
  fix IH 1. intros [|w [|x [|y [|z r]]]] bs; cbn [rfc_decode]; [by intros [= <-]|done|..]; intros Hd;
    repeat (apply bind_Some in Hd as (? & ?%sextet_char_sextet & Hd)); destruct_and?.
  - destruct (Z.eqb_spec (x1 mod 16) 0); [|done]. injection Hd as <-. cbn [rfc_encode].
    repeat f_equal; subst; f_equal; group.
  - destruct (Z.eqb_spec (x2 mod 4) 0); [|done]. injection Hd as <-. cbn [rfc_encode].
    repeat f_equal; subst; f_equal; group.
  - apply bind_Some in Hd as (bs' & Hr & [= <-]). cbn [rfc_encode]. rewrite (IH r bs' Hr).
    repeat f_equal; subst; f_equal; group.
Qed.

Lemma rfc_decode_octets : forall s bs, rfc_decode s = Some bs -> bytes_wf bs.
Proof.
  assert (forall b, 0 <= b <= 255 -> is_byte b = true) as Hb by (intros b Hb; by apply in_range_spec).
  fix IH 1. intros [|w [|x [|y [|z r]]]] bs; cbn [rfc_decode]; [intros [= <-]; constructor|done|..]; intros Hd;
    repeat (apply bind_Some in Hd as (? & [_ ?]%sextet_char_sextet & Hd)).
  - destruct (_ =? _); [|done]. injection Hd as <-. repeat constructor; apply Hb; group.
  - destruct (_ =? _); [|done]. injection Hd as <-. repeat constructor; apply Hb; group.
  - apply bind_Some in Hd as (bs' & Hr & [= <-]). repeat constructor; try (apply Hb; group). by apply (IH r).
Qed.

Lemma rfc_alphabet : forall bs, bytes_wf bs -> Forall (fun c => url_safe c = true) (rfc_encode bs).
Proof.
  fix IH 1. intros [|a [|b [|c r]]] Hbs; cbn [rfc_encode]; [by constructor|..]; rewrite !Forall_cons in Hbs;
    destruct_and?; repeat constructor; try (apply sextet_url_safe; group). by apply IH.
Qed.

Lemma rfc_length : forall bs, Z.of_nat (length (rfc_encode bs)) = (8 * Z.of_nat (length bs) + 5) / 6.
Proof.
  fix IH 1. intros [|a [|b [|c r]]]; [done..|]. cbn [rfc_encode length]. specialize (IH r).
  Z.to_euclidean_division_equations. lia.
Qed.

Definition url_safe_no_pad : Base64 := {| b64_encode := rfc_encode; b64_decode := rfc_decode |}.
Lemma url_safe_no_pad_spec : @Base64Spec url_safe_no_pad.
Proof.
  split; [apply rfc_decode_encode|apply rfc_encode_decode|apply rfc_alphabet|apply rfc_decode_octets|apply rfc_length].
Qed.
