(* ===== verification/Json.v ===== *)
(** * Json: the documents of [serde_json::Value]

    The public variants of [serde_json::Value]; an object is the list of its entries
    in key order (the default [Map] is a [BTreeMap]).  A number is an unsigned or a
    negative integer or the bits of an [f64]. *)

From S2P Require Import Prelude Text.

Inductive JsonNumber :=
| PosInt (n : Z)
| NegInt (n : Z)
| Float (bits : Z).

Inductive Value :=
| JNull
| JBool (b : bool)
| JNumber (n : JsonNumber)
| JString (s : rstr)
| JArray (items : list Value)
| JObject (entries : list (rstr * Value)).

(** The induction principle with hypotheses for nested values. *)
Definition Value_nested_ind (P : Value -> Prop)
    (Hnull : P JNull) (Hbool : forall b, P (JBool b)) (Hnum : forall n, P (JNumber n))
    (Hstr : forall s, P (JString s))
    (Harr : forall l, Forall P l -> P (JArray l))
    (Hobj : forall l, Forall (fun e => P e.2) l -> P (JObject l)) : forall v, P v :=
  fix go v :=
    match v with
    | JNull => Hnull
    | JBool b => Hbool b
    | JNumber n => Hnum n
    | JString s => Hstr s
    | JArray l => Harr l
        ((fix golist l : Forall P l :=
            match l with
            | [] => Forall_nil_2 P
            | v :: l => Forall_cons_2 P v l (go v) (golist l)
            end) l)
    | JObject l => Hobj l
        ((fix golist l : Forall (fun e => P e.2) l :=
            match l with
            | [] => Forall_nil_2 _
            | e :: l => Forall_cons_2 (fun e => P e.2) e l (go e.2) (golist l)
            end) l)
    end.

#[global] Instance JsonNumber_eq_dec : EqDecision JsonNumber.
Proof. solve_decision. Defined.

Definition is_object (v : Value) : bool :=
  match v with JObject _ => true | _ => false end.

(** [Value::Object(Map::new())]. *)
Definition empty_object : Value := JObject [].

