(* ===== verification/JsonDoc.v ===== *)
(** * JsonDoc: reading and building documents

    What the protocol adapters use of [serde_json]: the accessors of [Value], the sorted [Map]
    with its [insert] and [remove], the [json!] macro, and the codec [to_vec] and [from_slice].
    The codec is third-party code and so a pair of parameters; [JsonCodecSpec] states what the
    crate documents: writing a [Value] succeeds, and reading what was written gives it back,
    within the recursion limit of the reader and for the documents it reads exactly (floats
    are not among them without the feature [float_roundtrip]).  The file ends with a codec of
    the documented shape. *)

From S2P Require Import Prelude Text Bytes Json.

(** ** Accessors *)

Definition as_object (v : Value) : option (list (rstr * Value)) :=
  match v with JObject entries => Some entries | _ => None end.
Definition as_array (v : Value) : option (list Value) :=
  match v with JArray items => Some items | _ => None end.
Definition value_as_str (v : Value) : option rstr :=
  match v with JString s => Some s | _ => None end.
Definition as_u64 (v : Value) : option Z :=
  match v with JNumber (PosInt n) => Some n | _ => None end.
Definition as_i64 (v : Value) : option Z :=
  match v with
  | JNumber (PosInt n) => if n <=? I64_MAX then Some n else None
  | JNumber (NegInt n) => Some n
  | _ => None
  end.

(** ** [Map] *)

Fixpoint map_get (key : rstr) (entries : list (rstr * Value)) : option Value :=
  match entries with
  | [] => None
  | (k, v) :: entries => if bool_decide (k = key) then Some v else map_get key entries
  end.

(** [Map::insert] of a [BTreeMap]: the key keeps its place in the order. *)
Fixpoint map_insert (key : rstr) (v : Value) (entries : list (rstr * Value)) : list (rstr * Value) :=
  match entries with
  | [] => [(key, v)]
  | (k, w) :: rest =>
      if bool_decide (k = key) then (key, v) :: rest
      else if lex_leb key k then (key, v) :: entries
      else (k, w) :: map_insert key v rest
  end.

Definition map_remove (key : rstr) (entries : list (rstr * Value)) : list (rstr * Value) :=
  filter (fun e => e.1 <> key) entries.

(** [Value::get] with a key. *)
Definition value_get (key : rstr) (v : Value) : option Value := entries ← as_object v; map_get key entries.

(** [json!({ .. })], and [document[key] = v] on an object. *)
Definition json_object (fields : list (rstr * Value)) : Value :=
  JObject (foldl (fun entries f => map_insert f.1 f.2 entries) [] fields).
Definition index_set (key : rstr) (v document : Value) : Value :=
  match document with JObject entries => JObject (map_insert key v entries) | _ => document end.

(** The deepest path of containers. *)
Fixpoint json_nesting_depth (v : Value) : Z :=
  match v with
  | JArray items => 1 + fold_right (fun v n => Z.max (json_nesting_depth v) n) 0 items
  | JObject entries => 1 + fold_right (fun e n => Z.max (json_nesting_depth e.2) n) 0 entries
  | _ => 0
  end.

Lemma map_get_insert_eq key v entries : map_get key (map_insert key v entries) = Some v.
Proof.
  induction entries as [|[k w] entries IH]; cbn [map_insert map_get]; [by rewrite bool_decide_eq_true_2|].
  case_bool_decide as Hk; [cbn; by rewrite bool_decide_eq_true_2|].
  destruct (lex_leb key k); cbn [map_get]; [by rewrite bool_decide_eq_true_2|]. by rewrite bool_decide_eq_false_2.
Qed.

Lemma map_get_insert_ne key other v entries : other <> key -> map_get other (map_insert key v entries) = map_get other entries.
Proof.
  intros Hne. induction entries as [|[k w] entries IH]; cbn [map_insert map_get]; [by rewrite bool_decide_eq_false_2|].
  case_bool_decide as Hk.
  - subst k. cbn. by rewrite !(bool_decide_eq_false_2 (key = other)).
  - destruct (lex_leb key k); cbn [map_get]; [by rewrite (bool_decide_eq_false_2 (key = other))|].
    case_bool_decide; [done|]. apply IH.
Qed.

Lemma map_get_elem key v entries : map_get key entries = Some v -> (key, v) ∈ entries.
Proof.
  induction entries as [|[k w] entries IH]; cbn; [done|]. case_bool_decide as Hk; [|intros ?; right; by apply IH].
  intros [= ->]. subst. by left.
Qed.

(** The last field of a name is the one that is kept. *)
Fixpoint field_get (key : rstr) (fields : list (rstr * Value)) : option Value :=
  match fields with
  | [] => None
  | (k, v) :: fields => match field_get key fields with
                        | Some w => Some w
                        | None => if bool_decide (k = key) then Some v else None
                        end
  end.

Lemma map_get_fields key fields entries :
  map_get key (foldl (fun entries f => map_insert f.1 f.2 entries) entries fields) =
  match field_get key fields with Some v => Some v | None => map_get key entries end.
Proof.
  revert entries. induction fields as [|[k v] fields IH]; intros entries; [done|]. cbn [foldl field_get]. rewrite IH.
  destruct (field_get key fields); [done|]. cbn [fst snd].
  case_bool_decide as Hk; [subst; apply map_get_insert_eq|]. by apply map_get_insert_ne.
Qed.

Lemma json_object_get key fields : value_get key (json_object fields) = field_get key fields.
Proof. unfold value_get, json_object. cbn. rewrite map_get_fields. by destruct (field_get key fields). Qed.

Lemma value_get_set_eq key v d : is_object d = true -> value_get key (index_set key v d) = Some v.
Proof. destruct d; try done. intros _. cbn. apply map_get_insert_eq. Qed.
Lemma value_get_set_ne key other v d : other <> key -> value_get other (index_set key v d) = value_get other d.
Proof. intros Hne. destruct d; try done. cbn. by apply map_get_insert_ne. Qed.
Lemma index_set_object key v d : is_object (index_set key v d) = is_object d.
Proof. by destruct d. Qed.

(** ** Documents the codec carries exactly *)

Fixpoint keys_increasing (keys : list rstr) : bool :=
  match keys with
  | k :: ((k' :: _) as rest) => lex_leb k k' && negb (bool_decide (k = k')) && keys_increasing rest
  | _ => true
  end.

(** Integers of their widths, texts of Unicode scalar values, keys in the order of the map,
    and no floats. *)
Fixpoint exact_json (v : Value) : bool :=
  match v with
  | JNull | JBool _ => true
  | JNumber (PosInt n) => in_range 0 U64_MAX n
  | JNumber (NegInt n) => in_range I64_MIN (-1) n
  | JNumber (Float _) => false
  | JString s => forallb is_scalar s
  | JArray items => forallb exact_json items
  | JObject entries => keys_increasing entries.*1 && forallb (fun e => forallb is_scalar e.1 && exact_json e.2) entries
  end.

Lemma lex_leb_total k k' : lex_leb k k' = false -> lex_leb k' k = true.
Proof. intros Hk. destruct (total lex_le k k') as [Ht|Ht]; unfold lex_le in Ht; congruence. Qed.

Lemma keys_increasing_cons k ks :
  keys_increasing (k :: ks) = true <->
  match head ks with Some k' => lex_le k k' /\ k <> k' | None => True end /\ keys_increasing ks = true.
Proof.
  destruct ks as [|k' ks]; [done|]. cbn [keys_increasing head].
  rewrite !andb_true_iff, negb_true_iff, bool_decide_eq_false. unfold lex_le. tauto.
Qed.

Lemma map_insert_head key v entries :
  head (map_insert key v entries).*1 = Some key \/ head (map_insert key v entries).*1 = head entries.*1 /\ entries <> [].
Proof. destruct entries as [|[k w] rest]; cbn; [by left|]. repeat case_match; cbn; auto. Qed.

Lemma map_insert_increasing key v entries :
  keys_increasing entries.*1 = true -> keys_increasing (map_insert key v entries).*1 = true.
Proof.
  induction entries as [|[k w] rest IH]; [done|]. cbn [map_insert]. rewrite fmap_cons, keys_increasing_cons. intros [Hh Hr].
  case_bool_decide as Hk; [subst; cbn [fst] in *; rewrite fmap_cons; by apply keys_increasing_cons|].
  destruct (lex_leb key k) eqn:Hle; rewrite !fmap_cons, !keys_increasing_cons; [by split_and!|].
  split; [|by apply IH]. apply lex_leb_total in Hle. cbn [fst] in *.
  destruct (map_insert_head key v rest) as [-> |[-> Hne]]; done.
Qed.

Lemma map_insert_exact key v entries :
  exact_json (JObject entries) = true -> forallb is_scalar key = true -> exact_json v = true ->
  exact_json (JObject (map_insert key v entries)) = true.
Proof.
  cbn [exact_json]. rewrite !andb_true_iff. intros [Hs He] Hkey Hv. split; [by apply map_insert_increasing|].
  clear Hs. induction entries as [|[k w] rest IH]; cbn [map_insert]; [cbn; by rewrite Hkey, Hv|].
  cbn [forallb fst snd] in He. apply andb_true_iff in He as [Hkw Hr].
  repeat case_match; cbn [forallb fst snd]; rewrite ?Hkey, ?Hv, ?Hkw, ?Hr; cbn [andb]; auto.
Qed.

Lemma json_object_exact fields :
  Forall (fun f => forallb is_scalar f.1 = true /\ exact_json f.2 = true) fields -> exact_json (json_object fields) = true.
Proof.
  unfold json_object. assert (exact_json (JObject []) = true) as Hnil by done. revert Hnil. generalize (@nil (rstr * Value)).
  induction fields as [|[k v] fields IH]; intros entries He Hf; [done|]. apply Forall_cons in Hf as [[Hk Hv] Hf].
  apply IH; [by apply map_insert_exact|done].
Qed.

Lemma index_set_exact key v d :
  exact_json d = true -> forallb is_scalar key = true -> exact_json v = true -> exact_json (index_set key v d) = true.
Proof. destruct d; try done. apply map_insert_exact. Qed.

Lemma map_get_exact key v entries : exact_json (JObject entries) = true -> map_get key entries = Some v -> exact_json v = true.
Proof.
  cbn [exact_json]. rewrite andb_true_iff. intros [_ He] Hg%map_get_elem. rewrite forallb_forall in He.
  specialize (He (key, v)). cbn in He. rewrite <-list_elem_of_In in He. apply He, andb_true_iff in Hg. tauto.
Qed.

Definition lex_lt (k k' : rstr) : Prop := lex_le k k' /\ k <> k'.

#[global] Instance lex_lt_trans : Transitive lex_lt.
Proof.
  intros k1 k2 k3 [H12 Hne] [H23 Hne']. split; [by etransitivity|]. intros ->. apply Hne. by apply (anti_symm lex_le).
Qed.

Lemma keys_increasing_sorted ks : keys_increasing ks = true <-> StronglySorted lex_lt ks.
Proof.
  induction ks as [|k ks IH]; [split; [constructor|done]|]. rewrite keys_increasing_cons, IH. split.
  - intros [Hh Hs]. constructor; [done|]. destruct ks as [|k' ks]; [constructor|]. apply StronglySorted_inv in Hs as [_ Hf].
    constructor; [done|]. eapply Forall_impl; [exact Hf|]. intros k'' Hk. exact (lex_lt_trans k k' k'' Hh Hk).
  - intros [Hs Hf]%StronglySorted_inv. split; [|done]. destruct ks as [|k' ks]; [done|]. by apply Forall_cons in Hf as [? _].
Qed.

Lemma keys_increasing_remove key entries :
  keys_increasing entries.*1 = true -> keys_increasing (map_remove key entries).*1 = true.
Proof.
  rewrite !keys_increasing_sorted. induction entries as [|[k v] rest IH]; [done|]. rewrite fmap_cons. intros [Hs Hf]%StronglySorted_inv.
  unfold map_remove. rewrite filter_cons. case_decide; [|by apply IH]. rewrite fmap_cons. constructor; [by apply IH|].
  rewrite Forall_forall in Hf |- *. intros k' ([k'' w] & -> & [_ Hin]%list_elem_of_filter)%list_elem_of_fmap.
  apply Hf, list_elem_of_fmap. by exists (k'', w).
Qed.

(** *** Depth *)

Lemma depth_nonneg v : 0 <= json_nesting_depth v.
Proof.
  induction v as [| | | |items IH|entries IH] using Value_nested_ind; cbn; try lia.
  - enough (0 <= fold_right (fun v n => Z.max (json_nesting_depth v) n) 0 items) by lia. induction IH; cbn; lia.
  - enough (0 <= fold_right (fun e n => Z.max (json_nesting_depth e.2) n) 0 entries) by lia. induction IH; cbn; lia.
Qed.

Lemma map_insert_depth key v entries n :
  json_nesting_depth (JObject entries) <= n -> json_nesting_depth v <= n - 1 ->
  json_nesting_depth (JObject (map_insert key v entries)) <= n.
Proof.
  cbn [json_nesting_depth]. intros He Hv.
  enough (fold_right (fun e n => Z.max (json_nesting_depth e.2) n) 0 (map_insert key v entries) <= n - 1) by lia.
  assert (fold_right (fun e n => Z.max (json_nesting_depth e.2) n) 0 entries <= n - 1) as Hf by lia. clear He.
  pose proof (depth_nonneg v). induction entries as [|[k w] rest IH]; cbn [map_insert]; [cbn; lia|].
  cbn [fold_right snd] in Hf. repeat case_match; cbn [fold_right snd]; lia.
Qed.

Lemma map_get_depth key v entries : map_get key entries = Some v -> json_nesting_depth v + 1 <= json_nesting_depth (JObject entries).
Proof.
  cbn [json_nesting_depth]. induction entries as [|[k w] rest IH]; cbn [map_get fold_right snd]; [done|].
  case_bool_decide; [intros [= ->]; lia|]. intros Hg%IH. lia.
Qed.

Lemma json_object_depth fields n :
  1 <= n -> Forall (fun f => json_nesting_depth f.2 <= n - 1) fields -> json_nesting_depth (json_object fields) <= n.
Proof.
  intros Hn. unfold json_object. assert (json_nesting_depth (JObject []) <= n) as Hnil by (cbn; lia). revert Hnil.
  generalize (@nil (rstr * Value)). induction fields as [|[k v] fields IH]; intros entries He Hf; [done|].
  apply Forall_cons in Hf as [Hv Hf]. cbn [foldl]. apply IH; [|done]. by apply map_insert_depth.
Qed.

Lemma json_array_depth items n :
  1 <= n -> Forall (fun v => json_nesting_depth v <= n - 1) items -> json_nesting_depth (JArray items) <= n.
Proof.
  intros Hn Hi. cbn [json_nesting_depth]. enough (fold_right (fun v n => Z.max (json_nesting_depth v) n) 0 items <= n - 1) by lia.
  induction Hi; cbn; lia.
Qed.

Lemma json_array_exact items : Forall (fun v => exact_json v = true) items -> exact_json (JArray items) = true.
Proof. intros Hi. cbn. apply forallb_forall. intros v Hv%list_elem_of_In. by eapply Forall_forall in Hi. Qed.

Lemma index_set_depth key v d n :
  json_nesting_depth d <= n -> json_nesting_depth v <= n - 1 -> json_nesting_depth (index_set key v d) <= n.
Proof. destruct d; try done. apply map_insert_depth. Qed.

(** *** Automation

    Keys are literals of the source, so their comparisons evaluate. *)

Ltac json_keys := repeat match goal with
  | |- context [bool_decide (?a = ?b)] =>
      let r := eval vm_compute in (bool_decide (a = b)) in
      first [constr_eq r true | constr_eq r false]; change (bool_decide (a = b)) with r
  end.
Ltac key_ne := apply (bool_decide_eq_false_1 _); vm_compute; reflexivity.
Ltac json_get := repeat (progress (
  rewrite ?json_object_get, ?map_get_fields, ?map_get_insert_eq;
  try (rewrite map_get_insert_ne by key_ne); try (rewrite value_get_set_ne by key_ne);
  cbn [field_get map_get fst snd]; json_keys; cbn iota)).
Ltac json_exact := repeat first
  [ assumption | apply json_object_exact | apply json_array_exact | apply index_set_exact | apply Forall_nil_2 | apply Forall_cons_2 | split
  | (vm_compute; reflexivity) ].
Ltac json_depth := repeat first
  [ lia | apply json_object_depth | apply json_array_depth | apply index_set_depth | apply Forall_nil_2 | apply Forall_cons_2
  | progress (cbn [json_nesting_depth empty_object fold_right fst snd]) ].

(** ** The codec *)

(** [serde_json::to_vec] and [serde_json::from_slice]. *)
Class JsonWriter := to_vec : Value -> option (list byte).
Class JsonReader := from_slice : list byte -> option Value.

(** The reader follows 127 nested containers. *)
Definition JSON_READER_DEPTH : Z := 127.

Class JsonCodecSpec `{JsonWriter, JsonReader} : Prop := {
  to_vec_total v : is_Some (to_vec v);
  written_octets v bytes : to_vec v = Some bytes -> Forall (fun b => 0 <= b <= 255) bytes;
  read_written v bytes :
    exact_json v = true -> json_nesting_depth v <= JSON_READER_DEPTH -> to_vec v = Some bytes -> from_slice bytes = Some v;
}.

(** ** A codec of the documented shape

    Not JSON text: documents are written as the binary digits of their number. *)

Definition number_tree (n : JsonNumber) : Z * Z :=
  match n with PosInt n => (0, n) | NegInt n => (1, n) | Float bits => (2, bits) end.
Definition tree_number (t : Z * Z) : JsonNumber :=
  let '(k, n) := t in if k =? 0 then PosInt n else if k =? 1 then NegInt n else Float n.

Fixpoint value_tree (v : Value) : gen_tree (bool + Z * Z + list Z) :=
  match v with
  | JNull => GenNode 0 []
  | JBool b => GenLeaf (inl (inl b))
  | JNumber n => GenLeaf (inl (inr (number_tree n)))
  | JString s => GenLeaf (inr s)
  | JArray items => GenNode 1 (value_tree <$> items)
  | JObject entries => GenNode 2 ((fun e => GenNode 0 [GenLeaf (inr e.1); value_tree e.2]) <$> entries)
  end.

Fixpoint tree_value (t : gen_tree (bool + Z * Z + list Z)) : Value :=
  match t with
  | GenLeaf (inl (inl b)) => JBool b
  | GenLeaf (inl (inr n)) => JNumber (tree_number n)
  | GenLeaf (inr s) => JString s
  | GenNode 0 _ => JNull
  | GenNode 1 items => JArray (tree_value <$> items)
  | GenNode _ entries =>
      JObject ((fun e => match e with GenNode _ [GenLeaf (inr k); v] => (k, tree_value v) | _ => ([], JNull) end) <$> entries)
  end.

Lemma tree_value_tree v : tree_value (value_tree v) = v.
Proof.
  induction v as [|b|n|s|items IH|entries IH] using Value_nested_ind; cbn; try done.
  - do 2 f_equal. by destruct n.
  - f_equal. rewrite <-list_fmap_compose. induction IH as [|v l Hv _ IHl]; cbn; [done|]. cbn in Hv. by rewrite Hv, IHl.
  - f_equal. rewrite <-list_fmap_compose. induction IH as [|[k v] l Hv _ IHl]; cbn; [done|]. cbn in Hv. by rewrite Hv, IHl.
Qed.

Fixpoint digits (p : positive) : list byte :=
  match p with xH => [] | xO p => 48 :: digits p | xI p => 49 :: digits p end.
Fixpoint undigits (bs : list byte) : positive :=
  match bs with [] => xH | b :: bs => if b =? 48 then xO (undigits bs) else xI (undigits bs) end.
Lemma undigits_digits p : undigits (digits p) = p.
Proof. induction p as [p IH|p IH|]; cbn; by rewrite ?IH. Qed.

Lemma digits_octets p : Forall (fun b => 0 <= b <= 255) (digits p).
Proof. induction p as [p IH|p IH|]; cbn; constructor; (done || lia). Qed.

Module SampleCodec.
Definition writer : JsonWriter := fun v => Some (digits (encode (value_tree v))).
Definition reader : JsonReader := fun bs => tree_value <$> decode (undigits bs).

Lemma codec_spec : @JsonCodecSpec writer reader.
Proof.
  split; [by eexists|intros v bytes [= <-]; apply digits_octets|]. intros v bytes _ _ [= <-]. unfold from_slice, reader.
  rewrite undigits_digits, decode_encode. cbn. by rewrite tree_value_tree.
Qed.
End SampleCodec.
