(* ===== verification/Capability.v ===== *)
(** * Capability: descriptors and their input schemas (bondry-core/src/capability.rs)

    JSON Schema validation is the [jsonschema] crate and JSON encoding is
    [serde_json]; both are parameters here. *)

From S2P Require Import Prelude Text Identifiers Json.

Definition MAX_CAPABILITY_SUMMARY_LENGTH : Z := 256.
Definition MAX_CAPABILITY_SCHEMA_LENGTH : Z := 65536.

Inductive CapabilityEffect := ReadOnly | Mutating.

Inductive CapabilitySummaryError := SummaryEmpty | SummaryTooLong | SummaryControlCharacter.
Inductive CapabilitySchemaError := SchemaNotObject | SchemaTooLarge | SchemaInvalid.

(** [CapabilitySummary::new]; the summary is kept as given, not trimmed. *)
Definition CapabilitySummary_new (value : rstr) : result CapabilitySummaryError rstr :=
  if decide (trim value = []) then Err SummaryEmpty
  else if MAX_CAPABILITY_SUMMARY_LENGTH <? str_len value then Err SummaryTooLong
  else if existsb is_control value then Err SummaryControlCharacter
  else Ok value.

(** [HandlerError]. *)
Record HandlerError := mk_handler_error { handler_error_code : HandlerErrorCode }.

Section schema.
(** [jsonschema::Validator], [draft202012::meta::is_valid], [draft202012::new],
    [Validator::is_valid], and the length of [serde_json::to_vec]. *)
Context {Validator : Type}.
Variable meta_is_valid : Value -> bool.
Variable compile : Value -> option Validator.
Variable validator_is_valid : Validator -> Value -> bool.
Variable encoded_len : Value -> option Z.

(** [CapabilityInputSchema]: both fields absent is the permissive default. *)
Record CapabilityInputSchema := mk_schema {
  schema_document : option Value;
  schema_validator : option Validator;
}.

Definition CapabilityInputSchema_default : CapabilityInputSchema := mk_schema None None.

Definition CapabilityInputSchema_new (document : Value)
    : result CapabilitySchemaError CapabilityInputSchema :=
  if negb (is_object document) then Err SchemaNotObject
  else if match encoded_len document with
          | None => true
          | Some len => MAX_CAPABILITY_SCHEMA_LENGTH <? len
          end
  then Err SchemaTooLarge
  else if negb (meta_is_valid document) then Err SchemaInvalid
  else validator ← ok_or (compile document) SchemaInvalid;
       Ok (mk_schema (Some document) (Some validator)).

(** [CapabilityInputSchema::document] and [::accepts]. *)
Definition CapabilityInputSchema_document (s : CapabilityInputSchema) : Value :=
  default empty_object (schema_document s).

Definition CapabilityInputSchema_accepts (s : CapabilityInputSchema) (input : Value) : bool :=
  match schema_validator s with
  | None => true
  | Some validator => validator_is_valid validator input
  end.

Record CapabilityDescriptor := mk_descriptor {
  descriptor_id : CapabilityId;
  descriptor_summary : rstr;
  descriptor_effect : CapabilityEffect;
  descriptor_schema : CapabilityInputSchema;
}.

(** [CapabilityDescriptor::new], [::with_input_schema] and [::accepts_input]. *)
Definition CapabilityDescriptor_new (id : CapabilityId) (summary : rstr) (effect : CapabilityEffect)
    : result CapabilitySummaryError CapabilityDescriptor :=
  summary ← CapabilitySummary_new summary;
  Ok (mk_descriptor id summary effect CapabilityInputSchema_default).

Definition CapabilityDescriptor_with_input_schema (d : CapabilityDescriptor) (schema : Value)
    : result CapabilitySchemaError CapabilityDescriptor :=
  schema ← CapabilityInputSchema_new schema;
  Ok (mk_descriptor (descriptor_id d) (descriptor_summary d) (descriptor_effect d) schema).

Definition CapabilityDescriptor_accepts_input (d : CapabilityDescriptor) (input : Value) : bool :=
  CapabilityInputSchema_accepts (descriptor_schema d) input.

(** A schema built through the constructors: the default, or a bounded object document
    with the validator compiled from that same document. *)
Definition schema_wf (s : CapabilityInputSchema) : Prop :=
  match schema_document s, schema_validator s with
  | None, None => True
  | Some document, Some validator =>
      is_object document = true /\ compile document = Some validator /\
      meta_is_valid document = true /\
      exists len, encoded_len document = Some len /\ len <= MAX_CAPABILITY_SCHEMA_LENGTH
  | _, _ => False
  end.

Lemma CapabilityInputSchema_new_wf document s :
  CapabilityInputSchema_new document = Ok s ->
  schema_wf s /\ CapabilityInputSchema_document s = document.
Proof.
  unfold CapabilityInputSchema_new, schema_wf.
  destruct (is_object document) eqn:Hobj; [|done]. simpl.
  destruct (encoded_len document) as [len|] eqn:Hlen; [|done].
  destruct (Z.ltb_spec MAX_CAPABILITY_SCHEMA_LENGTH len); [done|].
  destruct (meta_is_valid document) eqn:Hmeta; [|done]. simpl.
  destruct (compile document) as [v|] eqn:Hc; [|done]. simpl. intros [= <-]. simpl. eauto 10.
Qed.

(** A descriptor that the builder returns has a non-blank bounded summary without
    control characters and a well-formed schema. *)
Definition descriptor_wf (d : CapabilityDescriptor) : Prop :=
  CapabilitySummary_new (descriptor_summary d) = Ok (descriptor_summary d) /\
  schema_wf (descriptor_schema d).

Lemma CapabilitySummary_new_ok s t :
  CapabilitySummary_new s = Ok t -> t = s.
Proof. unfold CapabilitySummary_new. repeat case_match; naive_solver. Qed.

Lemma CapabilityDescriptor_new_wf id summary effect d :
  CapabilityDescriptor_new id summary effect = Ok d -> descriptor_wf d.
Proof.
  unfold CapabilityDescriptor_new. intros (s & Hs & [= <-])%result_bind_Ok.
  split; simpl; [|done]. by rewrite (CapabilitySummary_new_ok _ _ Hs) in Hs |- *.
Qed.

Lemma with_input_schema_wf d schema d' :
  descriptor_wf d -> CapabilityDescriptor_with_input_schema d schema = Ok d' -> descriptor_wf d'.
Proof.
  intros [Hs _]. unfold CapabilityDescriptor_with_input_schema.
  intros (s & Hnew%CapabilityInputSchema_new_wf & [= <-])%result_bind_Ok.
  split; simpl; [done|]. apply Hnew.
Qed.
End schema.

Arguments CapabilityInputSchema Validator : clear implicits.
Arguments CapabilityDescriptor Validator : clear implicits.
