(* ===== verification/Policy.v ===== *)
(** * Policy: deny-by-default authorization (bondry-core/src/policy.rs)

    [GrantPolicy] keeps nested maps behind an [RwLock]; [StoredGrantPolicy] asks a
    [GrantStore].  Both implement [AuthorizationPolicy].  The abstract content of a
    policy is a set of exact (principal, adapter, capability) grants; the theorems
    relate every operation to that set. *)

From S2P Require Import Prelude Text Identifiers Capability.

(** ** Data *)

Inductive PrincipalKind := User | Application | System.

Record Principal := mk_principal {
  principal_id : PrincipalId;
  principal_kind : PrincipalKind;
}.

Inductive DenialReason := NotGranted | PolicyUnavailable.

Inductive AuthorizationDecision :=
| Allow
| Deny (reason : DenialReason).

#[global] Instance DenialReason_eq_dec : EqDecision DenialReason.
Proof. solve_decision. Defined.
#[global] Instance AuthorizationDecision_eq_dec : EqDecision AuthorizationDecision.
Proof. solve_decision. Defined.
#[global] Instance PrincipalKind_eq_dec : EqDecision PrincipalKind.
Proof. solve_decision. Defined.
#[global] Instance Principal_eq_dec : EqDecision Principal.
Proof. solve_decision. Defined.

(** The trusted metadata a policy sees.  Of the capability descriptor both policies
    of the crate read only the identifier, but a host policy may read all of it. *)
Record AuthorizationRequest (D : Type) := mk_request {
  req_principal : Principal;
  req_adapter : AdapterId;
  req_capability : D;
}.
Arguments mk_request {D} _ _ _.
Arguments req_principal {D} _.
Arguments req_adapter {D} _.
Arguments req_capability {D} _.

Record CapabilityGrant := mk_grant {
  grant_principal : PrincipalId;
  grant_adapter : AdapterId;
  grant_capability : CapabilityId;
}.

#[global] Instance CapabilityGrant_eq_dec : EqDecision CapabilityGrant.
Proof. solve_decision. Defined.
#[global] Instance CapabilityGrant_countable : Countable CapabilityGrant.
Proof.
  apply (inj_countable' (fun g => (grant_principal g, grant_adapter g, grant_capability g))
    (fun t => mk_grant t.1.1 t.1.2 t.2)). by intros [].
Defined.

(** The trait [AuthorizationPolicy]. *)
Class AuthorizationPolicy (D P : Type) :=
  evaluate : P -> AuthorizationRequest D -> AuthorizationDecision.

(** ** [GrantStore] and [StoredGrantPolicy] *)

Inductive GrantStoreError := GrantStoreUnavailable.

(** The trait [GrantStore]: durable state [S] behind a shared reference. *)
Class GrantStore (S : Type) := {
  add_grant : CapabilityGrant -> S -> result GrantStoreError bool * S;
  remove_grant : CapabilityGrant -> S -> result GrantStoreError bool * S;
  contains_grant : PrincipalId -> AdapterId -> CapabilityId -> S -> result GrantStoreError bool;
  grants_for_principal : PrincipalId -> S -> result GrantStoreError (list CapabilityGrant);
}.

Section policies.
Context {Validator : Type}.
#[local] Abbreviation Descriptor := (CapabilityDescriptor Validator).
Implicit Types (r : AuthorizationRequest Descriptor) (g : CapabilityGrant).

(** [StoredGrantPolicy { store }]. *)
Record StoredGrantPolicy (S : Type) := mk_stored_policy { policy_store : S }.
Arguments policy_store {S} _.

Definition StoredGrantPolicy_evaluate `{GrantStore St} (p : StoredGrantPolicy St) r
    : AuthorizationDecision :=
  match contains_grant (principal_id (req_principal r)) (req_adapter r)
          (descriptor_id (req_capability r)) (policy_store p) with
  | Ok true => Allow
  | Ok false => Deny NotGranted
  | Err GrantStoreUnavailable => Deny PolicyUnavailable
  end.

#[global] Instance StoredGrantPolicy_policy `{GrantStore St}
    : AuthorizationPolicy Descriptor (StoredGrantPolicy St) := StoredGrantPolicy_evaluate.

(** [DenyAllPolicy]. *)
Inductive DenyAllPolicy := deny_all.

Definition DenyAllPolicy_evaluate (_ : DenyAllPolicy) (_ : AuthorizationRequest Descriptor)
    : AuthorizationDecision := Deny NotGranted.

#[global] Instance DenyAllPolicy_policy : AuthorizationPolicy Descriptor DenyAllPolicy :=
  DenyAllPolicy_evaluate.

(** ** [GrantPolicy]

    [poisoned] is the state of the [RwLock]: a thread that panicked while holding the
    write guard makes every later [read] and [write] fail. *)

Abbreviation Grants := (gmap PrincipalId (gmap AdapterId (gset CapabilityId))).

Record GrantPolicy := mk_grant_policy {
  grants : Grants;
  grants_poisoned : bool;
}.

Inductive PolicyUpdateError := PolicyUpdateUnavailable.

Definition GrantPolicy_new : GrantPolicy := mk_grant_policy ∅ false.

(** [GrantPolicy::grant]: [entry(..).or_default()] twice, then [HashSet::insert]. *)
Definition GrantPolicy_grant (p : GrantPolicy) (principal : PrincipalId) (adapter : AdapterId)
    (capability : CapabilityId) : result PolicyUpdateError bool * GrantPolicy :=
  if grants_poisoned p then (Err PolicyUpdateUnavailable, p)
  else
    let adapters := default ∅ (grants p !! principal) in
    let capabilities := default ∅ (adapters !! adapter) in
    let inserted := bool_decide (capability ∉ capabilities) in
    (Ok inserted,
     mk_grant_policy
       (<[principal := <[adapter := {[capability]} ∪ capabilities]> adapters]> (grants p)) false).

(** [GrantPolicy::revoke]: removes the capability, then the maps left empty. *)
Definition GrantPolicy_revoke (p : GrantPolicy) (principal : PrincipalId) (adapter : AdapterId)
    (capability : CapabilityId) : result PolicyUpdateError bool * GrantPolicy :=
  if grants_poisoned p then (Err PolicyUpdateUnavailable, p)
  else
    match grants p !! principal with
    | None => (Ok false, p)
    | Some adapters =>
        match adapters !! adapter with
        | None => (Ok false, p)
        | Some capabilities =>
            let removed := bool_decide (capability ∈ capabilities) in
            let capabilities := capabilities ∖ {[capability]} in
            let adapters := if decide (capabilities = ∅) then delete adapter adapters
                            else <[adapter := capabilities]> adapters in
            let grants' := if decide (adapters = ∅) then delete principal (grants p)
                           else <[principal := adapters]> (grants p) in
            (Ok removed, mk_grant_policy grants' false)
        end
    end.

Definition GrantPolicy_evaluate (p : GrantPolicy) r : AuthorizationDecision :=
  if grants_poisoned p then Deny PolicyUnavailable
  else
    let allowed :=
      match grants p !! principal_id (req_principal r) with
      | None => false
      | Some adapters =>
          match adapters !! req_adapter r with
          | None => false
          | Some capabilities => bool_decide (descriptor_id (req_capability r) ∈ capabilities)
          end
      end in
    if allowed then Allow else Deny NotGranted.

#[global] Instance GrantPolicy_policy : AuthorizationPolicy Descriptor GrantPolicy :=
  GrantPolicy_evaluate.

(** ** The abstract content and the representation invariant *)

(** The grant a request needs. *)
Definition request_grant r : CapabilityGrant :=
  mk_grant (principal_id (req_principal r)) (req_adapter r) (descriptor_id (req_capability r)).

Definition lookup_grants (m : Grants) (principal : PrincipalId) (adapter : AdapterId)
    : gset CapabilityId := default ∅ (m !! principal ≫= fun adapters => adapters !! adapter).

Definition granted (m : Grants) g : Prop :=
  grant_capability g ∈ lookup_grants m (grant_principal g) (grant_adapter g).

#[global] Instance granted_dec m g : Decision (granted m g).
Proof. unfold granted. apply _. Defined.

(** [revoke] leaves no empty inner map or set behind. *)
Definition grants_wf (m : Grants) : Prop :=
  map_Forall (fun _ adapters => adapters <> ∅ /\ map_Forall (fun _ capabilities => capabilities <> ∅) adapters) m.

Lemma lookup_grants_insert (m : Grants) p a cs p' a' adapters :
  adapters = default ∅ (m !! p) ->
  lookup_grants (<[p := <[a := cs]> adapters]> m) p' a' =
  if decide (p = p' /\ a = a') then cs else lookup_grants m p' a'.
Proof.
  intros ->. unfold lookup_grants. rewrite lookup_insert. destruct (decide (p = p')) as [<-|Hp].
  - simpl. rewrite lookup_insert. destruct (decide (a = a')) as [<-|Ha]; simpl.
    + by rewrite decide_True.
    + rewrite decide_False by naive_solver. destruct (m !! p); simpl; [done|]. by rewrite lookup_empty.
  - by rewrite decide_False by naive_solver.
Qed.

(** In a normalised map the content of a principal's row is its lookups. *)
Lemma grants_row_empty (m : Grants) p :
  grants_wf m -> (forall a, lookup_grants m p a = ∅) -> m !! p = None.
Proof.
  intros Hwf Hempty. destruct (m !! p) as [adapters|] eqn:Hp; [|done].
  destruct (Hwf p adapters Hp) as [Hne Hcs]. destruct Hne. apply map_eq. intros a.
  rewrite lookup_empty. destruct (adapters !! a) as [cs|] eqn:Ha; [|done].
  destruct (Hcs a cs Ha). specialize (Hempty a). unfold lookup_grants in Hempty.
  by rewrite Hp in Hempty; simpl in Hempty; rewrite Ha in Hempty.
Qed.

(** A normalised representation is determined by its content. *)
Lemma grants_wf_ext (m1 m2 : Grants) :
  grants_wf m1 -> grants_wf m2 -> (forall g, granted m1 g <-> granted m2 g) -> m1 = m2.
Proof.
  intros H1 H2 Hext.
  assert (forall p a, lookup_grants m1 p a = lookup_grants m2 p a) as Hl.
  { intros p a. apply set_eq. intros c. exact (Hext (mk_grant p a c)). }
  apply map_eq. intros p.
  destruct (m1 !! p) as [a1|] eqn:E1.
  - destruct (m2 !! p) as [a2|] eqn:E2.
    + f_equal. apply map_eq. intros a. specialize (Hl p a). unfold lookup_grants in Hl.
      rewrite E1, E2 in Hl. simpl in Hl. destruct (H1 p a1 E1) as [_ Ha1], (H2 p a2 E2) as [_ Ha2].
      destruct (a1 !! a) as [c1|] eqn:F1, (a2 !! a) as [c2|] eqn:F2; simpl in Hl; subst; try done.
      * by destruct (Ha1 a ∅ F1).
      * by destruct (Ha2 a ∅ F2).
    + rewrite <-E1. apply grants_row_empty; [done|]. intros a. rewrite Hl.
      unfold lookup_grants. by rewrite E2.
  - symmetry. apply grants_row_empty; [done|]. intros a. rewrite <-Hl.
    unfold lookup_grants. by rewrite E1.
Qed.

Lemma grants_wf_empty : grants_wf ∅.
Proof. intros p adapters. by rewrite lookup_empty. Qed.

Lemma grants_wf_row m p : grants_wf m ->
  map_Forall (fun _ (capabilities : gset CapabilityId) => capabilities <> ∅) (default ∅ (m !! p)).
Proof.
  intros Hwf. destruct (m !! p) as [adapters|] eqn:Hp; simpl.
  - apply (Hwf p adapters Hp).
  - apply map_Forall_empty.
Qed.

(** ** What the operations do to the content *)

Lemma GrantPolicy_grant_granted p principal adapter capability g :
  grants_poisoned p = false ->
  granted (grants (GrantPolicy_grant p principal adapter capability).2) g <->
  g = mk_grant principal adapter capability \/ granted (grants p) g.
Proof.
  intros Hp. unfold GrantPolicy_grant, granted. rewrite Hp. simpl.
  destruct g as [p' a' c']. simpl. rewrite lookup_grants_insert by done.
  case_decide as Hpa; [|naive_solver]. destruct Hpa as [-> ->].
  rewrite elem_of_union, elem_of_singleton. unfold lookup_grants.
  destruct (grants p !! p') as [adapters|]; simpl; [naive_solver|].
  rewrite lookup_empty. simpl. naive_solver.
Qed.

Lemma GrantPolicy_grant_wf p principal adapter capability :
  grants_wf (grants p) -> grants_wf (grants (GrantPolicy_grant p principal adapter capability).2).
Proof.
  intros Hwf. unfold GrantPolicy_grant. case_match; [done|]. simpl.
  apply map_Forall_insert_2; [|done]. split.
  - intros Heq%(f_equal (lookup adapter)). by rewrite lookup_insert_eq, lookup_empty in Heq.
  - apply map_Forall_insert_2; [set_solver|]. by apply grants_wf_row.
Qed.

Lemma GrantPolicy_revoke_wf p principal adapter capability :
  grants_wf (grants p) -> grants_wf (grants (GrantPolicy_revoke p principal adapter capability).2).
Proof.
  intros Hwf. unfold GrantPolicy_revoke. case_match; [done|].
  destruct (grants p !! principal) as [adapters|] eqn:Hp; [|done].
  destruct (adapters !! adapter) as [cs|] eqn:Ha; [|done]. simpl.
  destruct (Hwf _ _ Hp) as [_ Hcs].
  assert (forall x : gmap AdapterId (gset CapabilityId),
    map_Forall (fun _ capabilities => capabilities <> ∅) x ->
    grants_wf (if decide (x = ∅) then delete principal (grants p)
               else <[principal := x]> (grants p))) as Haux.
  { intros x Hx. case_decide; [by apply map_Forall_delete|]. by apply map_Forall_insert_2. }
  apply Haux. case_decide; [by apply map_Forall_delete|]. by apply map_Forall_insert_2.
Qed.

Lemma lookup_grants_revoke (m : Grants) p a cs adapters p' a' :
  m !! p = Some adapters ->
  lookup_grants
    (let adapters' := if decide (cs = ∅) then delete a adapters else <[a := cs]> adapters in
     if decide (adapters' = ∅) then delete p m else <[p := adapters']> m) p' a' =
  if decide (p = p' /\ a = a') then cs else lookup_grants m p' a'.
Proof.
  intros Hp. cbv zeta. set (adapters' := if decide (cs = ∅) then _ else _).
  assert (forall a', default ∅ (adapters' !! a') =
    if decide (a = a') then cs else default ∅ (adapters !! a')) as Hrow.
  { intros a''. unfold adapters'. case_decide as Hcs.
    - subst cs. rewrite lookup_delete. by repeat case_decide.
    - rewrite lookup_insert. by repeat case_decide. }
  assert (lookup_grants (if decide (adapters' = ∅) then delete p m else <[p := adapters']> m) p' a'
    = if decide (p = p') then default ∅ (adapters' !! a') else lookup_grants m p' a') as ->.
  { unfold lookup_grants. case_decide as He.
    - rewrite lookup_delete. case_decide; [|done]. by rewrite He, lookup_empty.
    - rewrite lookup_insert. by case_decide. }
  destruct (decide (p = p')) as [<-|Hne]; [|by rewrite decide_False by naive_solver].
  rewrite Hrow. destruct (decide (a = a')) as [<-|Hne]; [by rewrite decide_True|].
  rewrite decide_False by naive_solver. unfold lookup_grants. by rewrite Hp.
Qed.

Lemma GrantPolicy_revoke_granted p principal adapter capability g :
  grants_poisoned p = false ->
  granted (grants (GrantPolicy_revoke p principal adapter capability).2) g <->
  g <> mk_grant principal adapter capability /\ granted (grants p) g.
Proof.
  intros Hp. unfold GrantPolicy_revoke. rewrite Hp.
  destruct (decide (granted (grants p) (mk_grant principal adapter capability))) as [Hin|Hout].
  - unfold granted, lookup_grants in Hin. simpl in Hin.
    destruct (grants p !! principal) as [adapters|] eqn:Hrow; [|set_solver]. simpl in Hin.
    destruct (adapters !! adapter) as [cs|] eqn:Ha; [|set_solver]. simpl in Hin |- *.
    unfold granted. rewrite lookup_grants_revoke by done. destruct g as [p' a' c']. simpl.
    case_decide as Hpa; [|naive_solver]. destruct Hpa as [<- <-].
    unfold lookup_grants. rewrite Hrow. simpl. rewrite Ha. simpl. set_solver.
  - assert (granted (grants p) g -> g <> mk_grant principal adapter capability) as Hne
      by naive_solver.
    destruct (grants p !! principal) as [adapters|] eqn:Hrow; [|naive_solver].
    destruct (adapters !! adapter) as [cs|] eqn:Ha; [|naive_solver]. simpl.
    unfold granted at 1. rewrite lookup_grants_revoke by done. destruct g as [p' a' c']. simpl.
    case_decide as Hpa; [|unfold granted in *; naive_solver]. destruct Hpa as [<- <-].
    unfold granted, lookup_grants in *. simpl in *. rewrite Hrow in *. simpl in *.
    rewrite Ha in *. simpl in *. set_solver.
Qed.

Lemma GrantPolicy_evaluate_granted p r :
  GrantPolicy_evaluate p r =
  if grants_poisoned p then Deny PolicyUnavailable
  else if decide (granted (grants p) (request_grant r)) then Allow else Deny NotGranted.
Proof.
  unfold GrantPolicy_evaluate. case_match; [done|].
  case_decide as Hg; revert Hg; unfold granted, lookup_grants, request_grant; simpl;
    (destruct (grants p !! _) as [adapters|]; simpl; [|set_solver]);
    (destruct (adapters !! _) as [cs|]; simpl; [|set_solver]);
    by case_bool_decide.
Qed.

(** The updates do not touch the lock, and each result says whether the content changed. *)
Lemma GrantPolicy_grant_result p principal adapter capability :
  grants_poisoned p = false ->
  (GrantPolicy_grant p principal adapter capability).1 =
  Ok (bool_decide (~ granted (grants p) (mk_grant principal adapter capability))).
Proof.
  intros Hp. unfold GrantPolicy_grant, granted, lookup_grants. rewrite Hp. simpl. f_equal.
  apply bool_decide_ext. destruct (grants p !! principal); simpl; [done|]. by rewrite lookup_empty.
Qed.

Lemma GrantPolicy_revoke_result p principal adapter capability :
  grants_poisoned p = false ->
  (GrantPolicy_revoke p principal adapter capability).1 =
  Ok (bool_decide (granted (grants p) (mk_grant principal adapter capability))).
Proof.
  intros Hp. unfold GrantPolicy_revoke. rewrite Hp.
  case_bool_decide as Hg; revert Hg; unfold granted, lookup_grants; simpl;
    (destruct (grants p !! principal) as [adapters|]; simpl; [|set_solver]);
    (destruct (adapters !! adapter) as [cs|]; simpl; [|set_solver]);
    by case_bool_decide.
Qed.

(** ** Histories of updates *)

Inductive policy_update :=
| UGrant (principal : PrincipalId) (adapter : AdapterId) (capability : CapabilityId)
| URevoke (principal : PrincipalId) (adapter : AdapterId) (capability : CapabilityId).

Definition apply_update (p : GrantPolicy) (u : policy_update) : GrantPolicy :=
  match u with
  | UGrant pr a c => (GrantPolicy_grant p pr a c).2
  | URevoke pr a c => (GrantPolicy_revoke p pr a c).2
  end.

(** The specification: a set of grants with insertion and removal. *)
Definition spec_update (s : gset CapabilityGrant) (u : policy_update) : gset CapabilityGrant :=
  match u with
  | UGrant pr a c => {[mk_grant pr a c]} ∪ s
  | URevoke pr a c => s ∖ {[mk_grant pr a c]}
  end.

(** The boolean an update returns. *)
Definition update_result (p : GrantPolicy) (u : policy_update) : result PolicyUpdateError bool :=
  match u with
  | UGrant pr a c => (GrantPolicy_grant p pr a c).1
  | URevoke pr a c => (GrantPolicy_revoke p pr a c).1
  end.

Definition policy_refines (p : GrantPolicy) (s : gset CapabilityGrant) : Prop :=
  grants_poisoned p = false /\ grants_wf (grants p) /\ forall g, granted (grants p) g <-> g ∈ s.

Lemma policy_refines_update p s u :
  policy_refines p s -> policy_refines (apply_update p u) (spec_update s u).
Proof.
  intros (Hp & Hwf & Hs). destruct u as [pr a c|pr a c]; simpl; split_and!.
  - unfold GrantPolicy_grant. by rewrite Hp.
  - by apply GrantPolicy_grant_wf.
  - intros g. rewrite GrantPolicy_grant_granted, Hs by done. set_solver.
  - unfold GrantPolicy_revoke. rewrite Hp. by repeat case_match.
  - by apply GrantPolicy_revoke_wf.
  - intros g. rewrite GrantPolicy_revoke_granted, Hs by done. set_solver.
Qed.

Lemma policy_refines_result p s u :
  policy_refines p s -> update_result p u = Ok (bool_decide (spec_update s u <> s)).
Proof.
  intros (Hp & _ & Hs). destruct u as [pr a c|pr a c]; simpl.
  - rewrite GrantPolicy_grant_result by done. f_equal. apply bool_decide_ext. rewrite Hs.
    destruct (decide (mk_grant pr a c ∈ s)); set_solver.
  - rewrite GrantPolicy_revoke_result by done. f_equal. apply bool_decide_ext. rewrite Hs.
    destruct (decide (mk_grant pr a c ∈ s)); set_solver.
Qed.

Lemma policy_refines_history us p s :
  policy_refines p s ->
  policy_refines (foldl apply_update p us) (foldl spec_update s us).
Proof.
  revert p s. induction us as [|u us IH]; intros p s H; simpl; [done|].
  by apply IH, policy_refines_update.
Qed.

(** after any history of grants and revocations from an empty policy, a request
    is allowed exactly when its own (principal, adapter, capability) triple is in the
    set that history leaves, every other request is denied as not granted, a further
    update reports whether it changes that set, and the nested maps hold no empty map
    or set. *)
Theorem grant_policy_refines_set (us : list policy_update) r (u : policy_update) :
  let p := foldl apply_update GrantPolicy_new us in
  let s := foldl spec_update ∅ us in
  evaluate p r = (if decide (request_grant r ∈ s) then Allow else Deny NotGranted) /\
  update_result p u = Ok (bool_decide (spec_update s u <> s)) /\
  grants_wf (grants p).
Proof.
  intros p s.
  assert (policy_refines p s) as Href.
  { apply policy_refines_history. split_and!; [done|apply grants_wf_empty|].
    intros g. unfold granted, lookup_grants. set_solver. }
  pose proof (policy_refines_result p s u Href) as Hres. destruct Href as (Hp & Hwf & Hs).
  split_and!; [|done|done]. unfold evaluate, GrantPolicy_policy. rewrite GrantPolicy_evaluate_granted, Hp.
  by repeat case_decide; naive_solver.
Qed.

(** Revoking a grant that was just added to a policy in which it was absent
    restores the policy's state exactly, maps included. *)
Theorem grant_revoke_restores p principal adapter capability :
  grants_wf (grants p) ->
  ~ granted (grants p) (mk_grant principal adapter capability) ->
  let q := (GrantPolicy_grant p principal adapter capability).2 in
  (GrantPolicy_revoke q principal adapter capability).2 = p.
Proof.
  intros Hwf Hout q. destruct (grants_poisoned p) eqn:Hp.
  { subst q. unfold GrantPolicy_grant. rewrite Hp. simpl. unfold GrantPolicy_revoke. by rewrite Hp. }
  assert (grants_poisoned q = false) as Hq by (subst q; unfold GrantPolicy_grant; by rewrite Hp).
  assert (grants_poisoned (GrantPolicy_revoke q principal adapter capability).2 = false) as Hr.
  { unfold GrantPolicy_revoke. rewrite Hq. by repeat case_match. }
  assert (grants (GrantPolicy_revoke q principal adapter capability).2 = grants p) as Hg.
  { apply grants_wf_ext; [|done|].
    - by apply GrantPolicy_revoke_wf, GrantPolicy_grant_wf.
    - intros g. rewrite GrantPolicy_revoke_granted by done. subst q.
      rewrite GrantPolicy_grant_granted by done. naive_solver. }
  destruct p, (GrantPolicy_revoke q principal adapter capability).2; simpl in *; congruence.
Qed.
End policies.

Lemma grant_revoke_restores_witness :
  let p := GrantPolicy_new in
  let q := (GrantPolicy_grant p (mk_id (str "user")) (mk_id (str "mcp")) (mk_id (str "notes.read"))).2 in
  q <> p /\ (GrantPolicy_revoke q (mk_id (str "user")) (mk_id (str "mcp")) (mk_id (str "notes.read"))).2 = p.
Proof.
  split; [intros H; apply (f_equal (fun p => size (grants p))) in H; vm_compute in H; discriminate H|].
  apply (grant_revoke_restores GrantPolicy_new (mk_id (str "user")) (mk_id (str "mcp")) (mk_id (str "notes.read"))).
  - exact grants_wf_empty.
  - unfold granted, lookup_grants. simpl. apply not_elem_of_empty.
Defined.
