(* ===== verification/Auth.v ===== *)
(** * Auth: clients, access tokens and the store contract of [bondry-auth]

    client.rs, token.rs and store.rs: validated names and labels, token identifiers,
    records and their digests, the text of a token and how a presented one is read back,
    and the trait [AuthStore] as a class.  [AuthStoreSpec] states what the trait promises
    of an implementation, over the clients and tokens it holds.  SHA-256 is a parameter. *)

From S2P Require Import Prelude Text Crypto Identifiers Base64.

(** ** Clients (client.rs) *)

Definition MAX_CLIENT_NAME_LENGTH : Z := 128.

Record ClientName := mk_client_name { client_name_str : rstr }.
Inductive ClientNameError := ClientNameEmpty | ClientNameTooLong.

Definition ClientName_new (value : rstr) : result ClientNameError ClientName :=
  let value := trim value in
  if decide (value = []) then Err ClientNameEmpty
  else if MAX_CLIENT_NAME_LENGTH <? str_len value then Err ClientNameTooLong
  else Ok (mk_client_name value).

Record Client := mk_client {
  client_id : PrincipalId;
  client_name : ClientName;
  client_enabled : bool;
  client_created_at : Z;
}.

(** ** Tokens (token.rs) *)

Definition TOKEN_FORMAT : rstr := str "bondry_v1".
Definition TOKEN_ID_PREFIX : rstr := str "token_".
Definition TOKEN_ID_RANDOM_BYTES : nat := 16.
Definition TOKEN_SECRET_BYTES : nat := 32.
Definition MAX_TOKEN_LABEL_LENGTH : Z := 128.
Definition dot : char := 46.

Record TokenId := mk_token_id { token_id_str : rstr }.
Inductive TokenIdError := TokenIdInvalid.

Record TokenLabel := mk_token_label { token_label_str : rstr }.
Inductive TokenLabelError := TokenLabelEmpty | TokenLabelTooLong.

Definition TokenLabel_new (value : rstr) : result TokenLabelError TokenLabel :=
  let value := trim value in
  if decide (value = []) then Err TokenLabelEmpty
  else if MAX_TOKEN_LABEL_LENGTH <? str_len value then Err TokenLabelTooLong
  else Ok (mk_token_label value).

Record TokenDigest := mk_digest { digest_bytes : list byte }.

Record TokenRecord := mk_token {
  tok_id : TokenId;
  tok_client : PrincipalId;
  tok_label : option TokenLabel;
  tok_digest : TokenDigest;
  tok_created_at : Z;
  tok_expires_at : option Z;
  tok_revoked_at : option Z;
}.

Record TokenMetadata := mk_metadata {
  md_id : TokenId;
  md_client : PrincipalId;
  md_label : option TokenLabel;
  md_created_at : Z;
  md_expires_at : option Z;
  md_revoked_at : option Z;
}.

Record IssuedToken := mk_issued { iss_metadata : TokenMetadata; iss_secret : rstr }.

#[global] Instance ClientName_eq_dec : EqDecision ClientName.
Proof. solve_decision. Defined.
#[global] Instance Client_eq_dec : EqDecision Client.
Proof. solve_decision. Defined.
#[global] Instance TokenId_eq_dec : EqDecision TokenId.
Proof. solve_decision. Defined.
#[global] Instance TokenId_countable : Countable TokenId.
Proof. apply (inj_countable' token_id_str mk_token_id). by intros []. Defined.
#[global] Instance TokenLabel_eq_dec : EqDecision TokenLabel.
Proof. solve_decision. Defined.
#[global] Instance TokenDigest_eq_dec : EqDecision TokenDigest.
Proof. solve_decision. Defined.
#[global] Instance TokenRecord_eq_dec : EqDecision TokenRecord.
Proof. solve_decision. Defined.

(** [TokenDigest::matches]: the constant-time comparison of the digests. *)
Definition TokenDigest_matches (d candidate : TokenDigest) : bool :=
  bool_decide (digest_bytes d = digest_bytes candidate).

(** [TokenRecord::mark_revoked], [::is_active_at] and [::metadata]. *)
Definition mark_revoked (revoked_at : Z) (t : TokenRecord) : TokenRecord :=
  mk_token (tok_id t) (tok_client t) (tok_label t) (tok_digest t) (tok_created_at t) (tok_expires_at t)
    (Some revoked_at).

Definition unexpired (expires_at : option Z) (now : Z) : bool :=
  match expires_at with None => true | Some expires_at => now <? expires_at end.

Definition is_active_at (t : TokenRecord) (now : Z) : bool :=
  bool_decide (tok_revoked_at t = None) && unexpired (tok_expires_at t) now.

Definition metadata (t : TokenRecord) : TokenMetadata :=
  mk_metadata (tok_id t) (tok_client t) (tok_label t) (tok_created_at t) (tok_expires_at t) (tok_revoked_at t).

Section tokens.
Context `{B : Base64} `{D : Sha256}.

(** [TokenId::new] and [TokenId::from_random_bytes]. *)
Definition TokenId_new (value : rstr) : result TokenIdError TokenId :=
  encoded ← ok_or (strip_prefix TOKEN_ID_PREFIX value) TokenIdInvalid;
  bs ← ok_or (b64_decode encoded) TokenIdInvalid;
  if negb (Nat.eqb (length bs) TOKEN_ID_RANDOM_BYTES) then Err TokenIdInvalid
  else Ok (mk_token_id value).

Definition TokenId_from_random_bytes (bs : list byte) : result TokenIdError TokenId :=
  TokenId_new (TOKEN_ID_PREFIX ++ b64_encode bs).

Definition TokenDigest_from_secret (secret : list byte) : TokenDigest := mk_digest (sha256 secret).

(** [GeneratedToken]: the text handed out is the format, the identifier and the secret,
    separated by dots. *)
Record GeneratedToken := mk_generated {
  gen_id : TokenId;
  gen_digest : TokenDigest;
  gen_secret : rstr;
}.

Definition token_text (id : TokenId) (secret : list byte) : rstr :=
  TOKEN_FORMAT ++ dot :: token_id_str id ++ dot :: b64_encode secret.

(** The second half of [GeneratedToken::generate], from the bytes it drew. *)
Definition generate_from (id_bytes secret_bytes : list byte) : result TokenIdError GeneratedToken :=
  id ← TokenId_from_random_bytes id_bytes;
  Ok (mk_generated id (TokenDigest_from_secret secret_bytes) (token_text id secret_bytes)).

Record PresentedToken := mk_presented { pres_id : TokenId; pres_digest : TokenDigest }.

(** [PresentedToken::parse]. *)
Definition PresentedToken_parse (value : rstr) : result unit PresentedToken :=
  match split dot value with
  | format :: id :: encoded_secret :: rest =>
      if negb (bool_decide (rest = [])) || negb (bool_decide (format = TOKEN_FORMAT)) then Err tt
      else
        id ← map_err (fun _ => tt) (TokenId_new id);
        secret ← ok_or (b64_decode encoded_secret) tt;
        if negb (Nat.eqb (length secret) TOKEN_SECRET_BYTES) then Err tt
        else Ok (mk_presented id (TokenDigest_from_secret secret))
  | _ => Err tt
  end.

(** [PresentedToken::matches]. *)
Definition PresentedToken_matches (p : PresentedToken) (stored : TokenDigest) : bool :=
  TokenDigest_matches stored (pres_digest p).

(** *** Tokens read back *)

Context `{BS : !Base64Spec}.

Lemma TokenId_new_Ok s id :
  TokenId_new s = Ok id <->
  id = mk_token_id s /\ exists bs, s = TOKEN_ID_PREFIX ++ b64_encode bs /\ b64_decode (b64_encode bs) = Some bs /\
    length bs = TOKEN_ID_RANDOM_BYTES.
Proof.
  unfold TokenId_new. rewrite result_bind_Ok. setoid_rewrite result_bind_Ok. split.
  - intros (encoded & He & bs & Hd & Hif). destruct (strip_prefix _ s) eqn:Hs; [|done]. injection He as ->.
    apply strip_prefix_Some in Hs as ->. destruct (b64_decode encoded) eqn:Hdec; [|done]. injection Hd as ->.
    destruct (Nat.eqb_spec (length bs) TOKEN_ID_RANDOM_BYTES); [|done]. injection Hif as <-. split; [done|].
    exists bs. by rewrite (b64_encode_decode _ _ Hdec).
  - intros (-> & bs & -> & Hdec & Hlen). exists (b64_encode bs). rewrite strip_prefix_app. split; [done|].
    exists bs. rewrite Hdec. split; [done|]. by rewrite Hlen.
Qed.

Lemma TokenId_from_random_bytes_Ok bs :
  bytes_wf bs -> length bs = TOKEN_ID_RANDOM_BYTES ->
  TokenId_from_random_bytes bs = Ok (mk_token_id (TOKEN_ID_PREFIX ++ b64_encode bs)).
Proof. intros Hbs Hlen. apply TokenId_new_Ok. split; [done|]. exists bs. by rewrite b64_decode_encode. Qed.

Lemma no_dots bs : bytes_wf bs -> Forall (fun c => c <> dot) (b64_encode bs).
Proof. intros Hbs. eapply Forall_impl; [by apply b64_alphabet|]. intros c. apply url_safe_not_dot. Qed.

(** The text of a generated token is read back as the token. *)
Lemma parse_generated id_bytes secret_bytes g :
  bytes_wf id_bytes -> bytes_wf secret_bytes ->
  length id_bytes = TOKEN_ID_RANDOM_BYTES -> length secret_bytes = TOKEN_SECRET_BYTES ->
  generate_from id_bytes secret_bytes = Ok g ->
  PresentedToken_parse (gen_secret g) = Ok (mk_presented (gen_id g) (gen_digest g)) /\
  TokenId_new (token_id_str (gen_id g)) = Ok (gen_id g).
Proof.
  intros Hi Hs Hli Hls. unfold generate_from. rewrite TokenId_from_random_bytes_Ok by done.
  pose proof (TokenId_from_random_bytes_Ok _ Hi Hli) as Hid. unfold TokenId_from_random_bytes in Hid.
  assert (Forall (fun c => c <> dot) (TOKEN_ID_PREFIX ++ b64_encode id_bytes)) as Hdots.
  { apply Forall_app. split; [repeat constructor; done|by apply no_dots]. }
  generalize dependent (TOKEN_ID_PREFIX ++ b64_encode id_bytes). intros s Hid Hdots [= <-].
  split; [|done]. unfold PresentedToken_parse, token_text. cbn [gen_secret gen_id gen_digest token_id_str].
  rewrite split_app_sep by (repeat constructor; done). rewrite split_app_sep by done.
  rewrite split_no_sep by (by apply no_dots). cbn. rewrite Hid. cbn.
  rewrite b64_decode_encode by done. cbn. by rewrite Hls.
Qed.
End tokens.

(** ** The store (store.rs) *)

Record AuthenticationRecord := mk_auth_record {
  ar_token : TokenRecord;
  ar_client_enabled : bool;
}.

Record TokenReplacement := mk_replacement {
  rep_id : TokenId;
  rep_label : option TokenLabel;
  rep_digest : TokenDigest;
  rep_created_at : Z;
  rep_expires_at : option Z;
}.

(** [TokenReplacement::into_record]. *)
Definition into_record (r : TokenReplacement) (client : PrincipalId) : TokenRecord :=
  mk_token (rep_id r) client (rep_label r) (rep_digest r) (rep_created_at r) (rep_expires_at r) None.

Inductive RotationOutcome :=
| Rotated (client : PrincipalId)
| RotationNotFound
| RotationInactive
| RotationClientDisabled.

Inductive StoreError := StoreConflict | StoreUnavailable.

(** The trait [AuthStore]; [S] is the state behind the shared reference. *)
Class AuthStore (S : Type) := {
  insert_client : Client -> action S StoreError unit;
  store_client : PrincipalId -> action S StoreError (option Client);
  store_clients : action S StoreError (list Client);
  store_set_client_enabled : PrincipalId -> bool -> action S StoreError bool;
  insert_token : TokenRecord -> action S StoreError unit;
  authentication_record : TokenId -> action S StoreError (option AuthenticationRecord);
  store_revoke_token : TokenId -> Z -> action S StoreError bool;
  store_rotate_token : TokenId -> TokenReplacement -> Z -> action S StoreError RotationOutcome;
  store_tokens_for_client : PrincipalId -> action S StoreError (list TokenRecord);
}.

(** What the private fields of the newtypes guarantee of a value that exists. *)
Definition name_wf (n : ClientName) : Prop := ClientName_new (client_name_str n) = Ok n.
Definition label_wf (l : option TokenLabel) : Prop :=
  forall x, l = Some x -> TokenLabel_new (token_label_str x) = Ok x.
Definition principal_wf (p : PrincipalId) : Prop := Identifier_new (as_str p) = Ok p.
Definition token_id_wf `{Base64} (i : TokenId) : Prop := TokenId_new (token_id_str i) = Ok i.
Definition digest_wf (d : TokenDigest) : Prop := length (digest_bytes d) = 32%nat.

Definition client_wf (c : Client) : Prop := principal_wf (client_id c) /\ name_wf (client_name c).
Definition token_wf `{Base64} (t : TokenRecord) : Prop :=
  token_id_wf (tok_id t) /\ principal_wf (tok_client t) /\ label_wf (tok_label t) /\ digest_wf (tok_digest t).
Definition replacement_wf `{Base64} (r : TokenReplacement) : Prop :=
  token_id_wf (rep_id r) /\ label_wf (rep_label r) /\ digest_wf (rep_digest r).

Definition set_enabled (enabled : bool) (c : Client) : Client :=
  mk_client (client_id c) (client_name c) enabled (client_created_at c).

(** What the trait's documentation promises, over the clients and tokens a store holds:
    an insert never replaces a record, [authentication_record] reads token and client
    together, a revocation changes only an active token, a rotation revokes and inserts at
    once, and an operation that reports an error changed nothing. *)
Class AuthStoreSpec (S : Type) `{Base64} `{AuthStore S} := {
  auth_ok : S -> Prop;
  clients_of : S -> gmap PrincipalId Client;
  tokens_of : S -> gmap TokenId TokenRecord;
  auth_clients_wf s p c : auth_ok s -> clients_of s !! p = Some c -> client_wf c /\ client_id c = p;
  insert_client_spec c s : auth_ok s -> client_wf c ->
    let '(r, s') := insert_client c s in
    auth_ok s' /\ tokens_of s' = tokens_of s /\
    match r with
    | Ok _ => clients_of s !! client_id c = None /\ clients_of s' = <[client_id c := c]> (clients_of s)
    | Err _ => clients_of s' = clients_of s
    end;
  store_client_spec p s : auth_ok s ->
    let '(r, s') := store_client p s in
    auth_ok s' /\ clients_of s' = clients_of s /\ tokens_of s' = tokens_of s /\
    forall o, r = Ok o -> o = clients_of s !! p;
  store_clients_spec s : auth_ok s ->
    let '(r, s') := store_clients s in
    auth_ok s' /\ clients_of s' = clients_of s /\ tokens_of s' = tokens_of s /\
    forall l, r = Ok l -> l ≡ₚ (map_to_list (clients_of s)).*2;
  store_set_client_enabled_spec p b s : auth_ok s ->
    let '(r, s') := store_set_client_enabled p b s in
    auth_ok s' /\ tokens_of s' = tokens_of s /\
    match r with
    | Ok found => found = bool_decide (is_Some (clients_of s !! p)) /\
        clients_of s' = alter (set_enabled b) p (clients_of s)
    | Err _ => clients_of s' = clients_of s
    end;
  insert_token_spec t s : auth_ok s -> token_wf t ->
    let '(r, s') := insert_token t s in
    auth_ok s' /\ clients_of s' = clients_of s /\
    match r with
    | Ok _ => tokens_of s !! tok_id t = None /\ tokens_of s' = <[tok_id t := t]> (tokens_of s)
    | Err _ => tokens_of s' = tokens_of s
    end;
  authentication_record_spec i s : auth_ok s ->
    let '(r, s') := authentication_record i s in
    auth_ok s' /\ clients_of s' = clients_of s /\ tokens_of s' = tokens_of s /\
    forall o, r = Ok o ->
      o = (t ← tokens_of s !! i; c ← clients_of s !! tok_client t; Some (mk_auth_record t (client_enabled c)));
  store_revoke_token_spec i at_ s : auth_ok s ->
    let '(r, s') := store_revoke_token i at_ s in
    auth_ok s' /\ clients_of s' = clients_of s /\
    match r with
    | Ok true => (exists t, tokens_of s !! i = Some t /\ is_active_at t at_ = true) /\
        tokens_of s' = alter (mark_revoked at_) i (tokens_of s)
    | Ok false => (forall t, tokens_of s !! i = Some t -> is_active_at t at_ = false) /\ tokens_of s' = tokens_of s
    | Err _ => tokens_of s' = tokens_of s
    end;
  store_rotate_token_spec i rep at_ s : auth_ok s -> replacement_wf rep ->
    let '(r, s') := store_rotate_token i rep at_ s in
    auth_ok s' /\ clients_of s' = clients_of s /\
    match r with
    | Ok (Rotated p) => exists t c, tokens_of s !! i = Some t /\ tok_client t = p /\ is_active_at t at_ = true /\
        clients_of s !! p = Some c /\ client_enabled c = true /\ tokens_of s !! rep_id rep = None /\
        tokens_of s' = alter (mark_revoked at_) i (<[rep_id rep := into_record rep p]> (tokens_of s))
    | Ok RotationNotFound => tokens_of s' = tokens_of s /\
        (forall t, tokens_of s !! i = Some t -> clients_of s !! tok_client t = None)
    | Ok RotationInactive => tokens_of s' = tokens_of s /\
        exists t, tokens_of s !! i = Some t /\ is_active_at t at_ = false
    | Ok RotationClientDisabled => tokens_of s' = tokens_of s /\
        exists t c, tokens_of s !! i = Some t /\ clients_of s !! tok_client t = Some c /\ client_enabled c = false
    | Err _ => tokens_of s' = tokens_of s
    end;
  store_tokens_for_client_spec p s : auth_ok s ->
    let '(r, s') := store_tokens_for_client p s in
    auth_ok s' /\ clients_of s' = clients_of s /\ tokens_of s' = tokens_of s /\
    forall l, r = Ok l -> l ≡ₚ filter (fun t => tok_client t = p) (map_to_list (tokens_of s)).*2;
}.
