(* ===== verification/AuthManager.v ===== *)
(** * AuthManager: registration, issuance and authentication (bondry-auth/src/manager.rs)

    [AuthManager] over any [AuthStore].  Its random source and its clock are read one
    value at a time: [am_tick] counts the reads.  The theorems relate what the manager
    accepts to what it told its administrators: [Ledger] is the account an observer keeps
    of the answers alone, and a token authenticates exactly if that account says so. *)

From S2P Require Import Prelude Text Crypto Identifiers Base64 Capability Policy Auth.

Definition CLIENT_ID_RANDOM_BYTES : nat := 16.
Definition GENERATION_ATTEMPTS : nat := 8.

Inductive ClientManagementError :=
| CmNotFound | CmEntropyUnavailable | CmGenerationExhausted | CmTimeUnavailable | CmStorageUnavailable.

Inductive TokenLifecycleError :=
| TlClientNotFound | TlClientDisabled | TlNotFound | TlInactive | TlInvalidLifetime
| TlEntropyUnavailable | TlGenerationExhausted | TlTimeUnavailable | TlStorageUnavailable.

Inductive AuthenticationError := AuthRejected | AuthStorageUnavailable.

Inductive TimeError := time_error.
Inductive RandomError := random_error.

(** The surroundings: the bytes the operating system's generator returns for a read of a
    given length, and the time since the Unix epoch in nanoseconds (absent before it). *)
Class AuthEnv := {
  entropy : nat -> nat -> option (list byte);
  system_time : nat -> option Z;
}.

Class AuthEnvOk `{AuthEnv} : Prop :=
  entropy_wf n len bs : entropy n len = Some bs -> bytes_wf bs /\ length bs = len.

Record AuthManager (T : Type) := mk_manager { am_store : T; am_tick : nat }.
Arguments mk_manager {T} _ _.
Arguments am_store {T} _.
Arguments am_tick {T} _.

(** [expiration]. *)
Definition expiration (now : Z) (lifetime : option Z) : result TokenLifecycleError (option Z) :=
  match lifetime with
  | None => Ok None
  | Some lifetime =>
      seconds ← ok_or (try_i64 (as_secs lifetime)) TlInvalidLifetime;
      if seconds =? 0 then Err TlInvalidLifetime
      else Some <$> ok_or (i64_checked_add now seconds) TlInvalidLifetime
  end.

Section manager.
Context `{B : Base64} `{D : Sha256} `{Env : AuthEnv} {T : Type} `{St : AuthStore T}.
#[local] Abbreviation M := (action (AuthManager T)).

(** A call of the store, a read of the generator and a read of the clock. *)
Definition with_store {E A} (f : action T E A) : M E A := fun m =>
  let '(r, s) := f (am_store m) in (r, mk_manager s (am_tick m)).

Definition random_fill (len : nat) : M RandomError (list byte) := fun m =>
  (ok_or (entropy (am_tick m) len) random_error, mk_manager (am_store m) (S (am_tick m))).

Definition clock_at (tick : nat) : result TimeError Z :=
  since_epoch ← ok_or (system_time tick) time_error;
  ok_or (try_i64 (as_secs since_epoch)) time_error.

Definition now_unix_seconds : M TimeError Z := fun m =>
  (clock_at (am_tick m), mk_manager (am_store m) (S (am_tick m))).

(** [GeneratedToken::generate]. *)
Definition GeneratedToken_generate : M RandomError GeneratedToken :=
  id_bytes ← random_fill TOKEN_ID_RANDOM_BYTES;
  secret_bytes ← random_fill TOKEN_SECRET_BYTES;
  lift (map_err (fun _ => random_error) (generate_from id_bytes secret_bytes)).

Definition generate_client_id : M RandomError PrincipalId :=
  bs ← random_fill CLIENT_ID_RANDOM_BYTES;
  lift (map_err (fun _ => random_error) (Identifier_new (str "client_" ++ b64_encode bs))).

Definition now_for_token : M TokenLifecycleError Z :=
  with_err (fun _ => TlTimeUnavailable) now_unix_seconds.

Definition load_enabled_client (id : PrincipalId) : M TokenLifecycleError Client :=
  found ← with_err (fun _ => TlStorageUnavailable) (with_store (store_client id));
  client ← lift (ok_or found TlClientNotFound);
  if negb (client_enabled client) then raise TlClientDisabled else mret client.

(** The [for _ in 0..GENERATION_ATTEMPTS] loops: a conflict draws again. *)
Fixpoint create_client_loop (attempts : nat) (name : ClientName) (created_at : Z)
    : M ClientManagementError Client :=
  match attempts with
  | O => raise CmGenerationExhausted
  | S attempts =>
      id ← with_err (fun _ => CmEntropyUnavailable) generate_client_id;
      let client := mk_client id name true created_at in
      inserted ← attempt (with_store (insert_client client));
      match inserted with
      | Ok _ => mret client
      | Err StoreConflict => create_client_loop attempts name created_at
      | Err StoreUnavailable => raise CmStorageUnavailable
      end
  end.

Definition create_client (name : ClientName) : M ClientManagementError Client :=
  created_at ← with_err (fun _ => CmTimeUnavailable) now_unix_seconds;
  create_client_loop GENERATION_ATTEMPTS name created_at.

Definition set_client_enabled (id : PrincipalId) (enabled : bool) : M ClientManagementError unit :=
  changed ← attempt (with_store (store_set_client_enabled id enabled));
  match changed with
  | Ok true => mret tt
  | Ok false => raise CmNotFound
  | Err _ => raise CmStorageUnavailable
  end.

Definition clients : M ClientManagementError (list Client) :=
  with_err (fun _ => CmStorageUnavailable) (with_store store_clients).

Fixpoint issue_token_loop (attempts : nat) (owner : PrincipalId) (label : option TokenLabel)
    (created_at : Z) (expires_at : option Z) : M TokenLifecycleError IssuedToken :=
  match attempts with
  | O => raise TlGenerationExhausted
  | S attempts =>
      generated ← with_err (fun _ => TlEntropyUnavailable) GeneratedToken_generate;
      let record := mk_token (gen_id generated) owner label (gen_digest generated) created_at expires_at None in
      inserted ← attempt (with_store (insert_token record));
      match inserted with
      | Ok _ => mret (mk_issued (metadata record) (gen_secret generated))
      | Err StoreConflict => issue_token_loop attempts owner label created_at expires_at
      | Err StoreUnavailable => raise TlStorageUnavailable
      end
  end.

Definition issue_token (client : PrincipalId) (label : option TokenLabel) (expires_in : option Z)
    : M TokenLifecycleError IssuedToken :=
  owner ← load_enabled_client client;
  created_at ← now_for_token;
  expires_at ← lift (expiration created_at expires_in);
  issue_token_loop GENERATION_ATTEMPTS (client_id owner) label created_at expires_at.

Definition authenticate (presented : rstr) : M AuthenticationError Principal :=
  presented ← lift (map_err (fun _ => AuthRejected) (PresentedToken_parse presented));
  record ← with_err (fun _ => AuthStorageUnavailable) (with_store (authentication_record (pres_id presented)));
  now ← with_err (fun _ => AuthStorageUnavailable) now_unix_seconds;
  let dummy_digest := mk_digest (replicate 32 0) in
  let digest := match record with None => dummy_digest | Some record => tok_digest (ar_token record) end in
  let digest_matches := PresentedToken_matches presented digest in
  let valid := match record with
               | None => false
               | Some record => digest_matches && is_active_at (ar_token record) now && ar_client_enabled record
               end in
  if negb valid then raise AuthRejected
  else record ← lift (ok_or record AuthRejected);
       mret (mk_principal (tok_client (ar_token record)) Application).

Definition revoke_token (id : TokenId) : M TokenLifecycleError bool :=
  revoked_at ← now_for_token;
  with_err (fun _ => TlStorageUnavailable) (with_store (store_revoke_token id revoked_at)).

Fixpoint rotate_token_loop (attempts : nat) (current : TokenId) (label : option TokenLabel)
    (created_at : Z) (expires_at : option Z) : M TokenLifecycleError IssuedToken :=
  match attempts with
  | O => raise TlGenerationExhausted
  | S attempts =>
      generated ← with_err (fun _ => TlEntropyUnavailable) GeneratedToken_generate;
      let replacement := mk_replacement (gen_id generated) label (gen_digest generated) created_at expires_at in
      rotated ← attempt (with_store (store_rotate_token current replacement created_at));
      match rotated with
      | Ok (Rotated client) =>
          mret (mk_issued (mk_metadata (gen_id generated) client label created_at expires_at None)
                  (gen_secret generated))
      | Ok RotationNotFound => raise TlNotFound
      | Ok RotationInactive => raise TlInactive
      | Ok RotationClientDisabled => raise TlClientDisabled
      | Err StoreConflict => rotate_token_loop attempts current label created_at expires_at
      | Err StoreUnavailable => raise TlStorageUnavailable
      end
  end.

Definition rotate_token (current : TokenId) (label : option TokenLabel) (expires_in : option Z)
    : M TokenLifecycleError IssuedToken :=
  created_at ← now_for_token;
  expires_at ← lift (expiration created_at expires_in);
  rotate_token_loop GENERATION_ATTEMPTS current label created_at expires_at.

Definition tokens_for_client (client : PrincipalId) : M TokenLifecycleError (list TokenMetadata) :=
  tokens ← with_err (fun _ => TlStorageUnavailable) (with_store (store_tokens_for_client client));
  mret (map metadata tokens).

(** ** Histories

    Any sequence of calls, the answers the callers saw, and the account an observer keeps
    of those answers alone. *)
Inductive AuthOp :=
| OpCreateClient (name : ClientName)
| OpSetClientEnabled (id : PrincipalId) (enabled : bool)
| OpClients
| OpIssueToken (client : PrincipalId) (label : option TokenLabel) (expires_in : option Z)
| OpAuthenticate (presented : rstr)
| OpRevokeToken (id : TokenId)
| OpRotateToken (current : TokenId) (label : option TokenLabel) (expires_in : option Z)
| OpTokensForClient (client : PrincipalId).

Inductive AuthAnswer :=
| AnsClient (r : result ClientManagementError Client)
| AnsDone (r : result ClientManagementError unit)
| AnsClients (r : result ClientManagementError (list Client))
| AnsIssued (r : result TokenLifecycleError IssuedToken)
| AnsPrincipal (r : result AuthenticationError Principal)
| AnsRevoked (r : result TokenLifecycleError bool)
| AnsTokens (r : result TokenLifecycleError (list TokenMetadata)).

Definition answered {E A} (f : result E A -> AuthAnswer) (m : M E A) : AuthManager T -> AuthAnswer * AuthManager T :=
  fun s => let '(r, s) := m s in (f r, s).

Definition auth_apply (op : AuthOp) : AuthManager T -> AuthAnswer * AuthManager T :=
  match op with
  | OpCreateClient name => answered AnsClient (create_client name)
  | OpSetClientEnabled id enabled => answered AnsDone (set_client_enabled id enabled)
  | OpClients => answered AnsClients clients
  | OpIssueToken client label expires_in => answered AnsIssued (issue_token client label expires_in)
  | OpAuthenticate presented => answered AnsPrincipal (authenticate presented)
  | OpRevokeToken id => answered AnsRevoked (revoke_token id)
  | OpRotateToken current label expires_in => answered AnsIssued (rotate_token current label expires_in)
  | OpTokensForClient client => answered AnsTokens (tokens_for_client client)
  end.

Fixpoint auth_run (ops : list AuthOp) (m : AuthManager T) : list (AuthOp * AuthAnswer) * AuthManager T :=
  match ops with
  | [] => ([], m)
  | op :: ops =>
      let '(ans, m) := auth_apply op m in
      let '(history, m) := auth_run ops m in ((op, ans) :: history, m)
  end.

(** The names and labels a caller passes were built by their constructors. *)
Definition op_wf (op : AuthOp) : Prop :=
  match op with
  | OpCreateClient name => name_wf name
  | OpIssueToken _ label _ | OpRotateToken _ label _ => label_wf label
  | _ => True
  end.

Record Entry := mk_entry {
  en_client : PrincipalId;
  en_digest : TokenDigest;
  en_expires_at : option Z;
  en_revoked : bool;
}.

Record Ledger := mk_ledger {
  lg_tokens : gmap TokenId Entry;
  lg_enabled : gmap PrincipalId bool;
}.

Definition revoke_entry (e : Entry) : Entry := mk_entry (en_client e) (en_digest e) (en_expires_at e) true.

(** A token that was handed out: the digest is that of the secret in its text. *)
Definition note_issued (i : IssuedToken) (l : Ledger) : Ledger :=
  match PresentedToken_parse (iss_secret i) with
  | Ok p => mk_ledger (<[md_id (iss_metadata i) :=
              mk_entry (md_client (iss_metadata i)) (pres_digest p) (md_expires_at (iss_metadata i)) false]> (lg_tokens l))
              (lg_enabled l)
  | Err _ => l
  end.

Definition note_revoked (id : TokenId) (l : Ledger) : Ledger :=
  mk_ledger (alter revoke_entry id (lg_tokens l)) (lg_enabled l).

Definition note (x : AuthOp * AuthAnswer) (l : Ledger) : Ledger :=
  match x with
  | (OpCreateClient _, AnsClient (Ok c)) => mk_ledger (lg_tokens l) (<[client_id c := true]> (lg_enabled l))
  | (OpSetClientEnabled id enabled, AnsDone (Ok _)) => mk_ledger (lg_tokens l) (<[id := enabled]> (lg_enabled l))
  | (OpIssueToken _ _ _, AnsIssued (Ok i)) => note_issued i l
  | (OpRotateToken current _ _, AnsIssued (Ok i)) => note_revoked current (note_issued i l)
  | (OpRevokeToken id, AnsRevoked (Ok true)) => note_revoked id l
  | _ => l
  end.

Definition ledger_of (history : list (AuthOp * AuthAnswer)) (l : Ledger) : Ledger :=
  foldl (fun l x => note x l) l history.

(** The account accepts a presented token at a time: it was handed out with this secret,
    was not revoked or rotated away, has not expired, and its client is enabled. *)
Definition ledger_accepts (l : Ledger) (p : PresentedToken) (now : Z) : option PrincipalId :=
  e ← lg_tokens l !! pres_id p;
  if TokenDigest_matches (en_digest e) (pres_digest p) && negb (en_revoked e) && unexpired (en_expires_at e) now
     && default false (lg_enabled l !! en_client e)
  then Some (en_client e) else None.

(** *** The store agrees with the account *)

Context `{BS : !Base64Spec} `{DS : !Sha256Spec} `{EnvOk : !AuthEnvOk} `{Sp : !AuthStoreSpec T}.
Implicit Types m : AuthManager T.

Definition entry_of (t : TokenRecord) : Entry :=
  mk_entry (tok_client t) (tok_digest t) (tok_expires_at t) (negb (bool_decide (tok_revoked_at t = None))).

Definition agrees (l : Ledger) m : Prop :=
  auth_ok (am_store m) /\ lg_tokens l = entry_of <$> tokens_of (am_store m) /\
  lg_enabled l = client_enabled <$> clients_of (am_store m).

(** What a generated token satisfies. *)
Definition generated_wf (g : GeneratedToken) : Prop :=
  token_id_wf (gen_id g) /\ digest_wf (gen_digest g) /\
  PresentedToken_parse (gen_secret g) = Ok (mk_presented (gen_id g) (gen_digest g)).

Lemma generate_spec m r m' :
  GeneratedToken_generate m = (r, m') -> am_store m' = am_store m /\ forall g, r = Ok g -> generated_wf g.
Proof.
  unfold GeneratedToken_generate, mbind, action_bind, random_fill. simpl.
  destruct (entropy (am_tick m) _) as [id_bytes|] eqn:Hi; simpl; [|by intros [= <- <-]].
  destruct (entropy (S (am_tick m)) _) as [secret|] eqn:Hs; simpl; [|by intros [= <- <-]].
  intros [= <- <-]. split; [done|]. intros g Hg.
  apply entropy_wf in Hi as [Hi Hli], Hs as [Hs Hls].
  destruct (generate_from id_bytes secret) as [g'|] eqn:Hgen; [|done]. injection Hg as <-.
  destruct (parse_generated _ _ _ Hi Hs Hli Hls Hgen) as [Hparse Hid]. split_and!; [done| |done].
  unfold generate_from in Hgen. apply result_bind_Ok in Hgen as (id & _ & [= <-]). apply sha256_length.
Qed.

Lemma generate_client_id_spec m r m' :
  generate_client_id m = (r, m') -> am_store m' = am_store m /\ forall p, r = Ok p -> principal_wf p.
Proof.
  unfold generate_client_id, mbind, action_bind, random_fill. simpl.
  destruct (entropy (am_tick m) _) as [bs|] eqn:Hi; simpl; [|by intros [= <- <-]]. intros [= <- <-].
  split; [done|]. intros p Hp. destruct (Identifier_new _) as [p'|] eqn:Hn; [|done]. injection Hp as <-.
  unfold principal_wf. unfold Identifier_new in *. apply result_bind_Ok in Hn as ([] & Hv & [= <-]). simpl in *.
  by rewrite Hv.
Qed.

(** ** What one call does to the store

    Nothing, or exactly the change its answer reports. *)
Abbreviation cl m := (clients_of (am_store m)).
Abbreviation tk m := (tokens_of (am_store m)).

(** The answers that report no change. *)
Definition silent (ans : AuthAnswer) : bool :=
  match ans with
  | AnsClient (Ok _) | AnsDone (Ok _) | AnsIssued (Ok _) | AnsRevoked (Ok true) => false
  | _ => true
  end.

Lemma note_silent op ans l : silent ans = true -> note (op, ans) l = l.
Proof. by destruct op, ans as [[]|[]|[]|[]|[]|[[]|]|[]]. Qed.

Inductive auth_effect m m' : AuthOp -> AuthAnswer -> Prop :=
| eff_none op ans : cl m' = cl m -> tk m' = tk m -> silent ans = true -> auth_effect m m' op ans
| eff_created name c :
    client_enabled c = true -> client_name c = name -> cl m !! client_id c = None ->
    cl m' = <[client_id c := c]> (cl m) -> tk m' = tk m ->
    auth_effect m m' (OpCreateClient name) (AnsClient (Ok c))
| eff_enabled p b c :
    cl m !! p = Some c -> cl m' = <[p := set_enabled b c]> (cl m) -> tk m' = tk m ->
    auth_effect m m' (OpSetClientEnabled p b) (AnsDone (Ok tt))
| eff_issued client label ein t secret c :
    cl m !! client = Some c -> client_enabled c = true -> tok_client t = client -> tok_label t = label ->
    tok_revoked_at t = None -> PresentedToken_parse secret = Ok (mk_presented (tok_id t) (tok_digest t)) ->
    tk m !! tok_id t = None -> cl m' = cl m -> tk m' = <[tok_id t := t]> (tk m) ->
    auth_effect m m' (OpIssueToken client label ein) (AnsIssued (Ok (mk_issued (metadata t) secret)))
| eff_revoked id at_ t :
    tk m !! id = Some t -> is_active_at t at_ = true ->
    cl m' = cl m -> tk m' = <[id := mark_revoked at_ t]> (tk m) ->
    auth_effect m m' (OpRevokeToken id) (AnsRevoked (Ok true))
| eff_rotated id label ein at_ t t' secret c :
    tk m !! id = Some t -> is_active_at t at_ = true -> cl m !! tok_client t = Some c -> client_enabled c = true ->
    tok_client t' = tok_client t -> tok_label t' = label ->
    tok_revoked_at t' = None -> PresentedToken_parse secret = Ok (mk_presented (tok_id t') (tok_digest t')) ->
    tk m !! tok_id t' = None -> cl m' = cl m ->
    tk m' = <[id := mark_revoked at_ t]> (<[tok_id t' := t']> (tk m)) ->
    auth_effect m m' (OpRotateToken id label ein) (AnsIssued (Ok (mk_issued (metadata t') secret))).

(** [effect_ok f op m]: running [f] from [m] keeps a sound store and has such an effect. *)
Definition effect_ok {E A} (f : M E A) (ans : result E A -> AuthAnswer) (op : AuthOp) m : Prop :=
  let '(r, m') := f m in auth_ok (am_store m') /\ auth_effect m m' op (ans r).

Lemma unchanged_effect m m1 m' op ans :
  auth_effect m1 m' op ans -> cl m1 = cl m -> tk m1 = tk m -> auth_effect m m' op ans.
Proof. intros He Hc Ht. inversion_clear He; rewrite Hc, Ht in *; by econstructor. Qed.

Lemma now_spec m r m' : now_unix_seconds m = (r, m') -> am_store m' = am_store m.
Proof. by intros [= _ <-]. Qed.

Lemma create_client_loop_effect n name at_ m :
  auth_ok (am_store m) -> name_wf name ->
  effect_ok (create_client_loop n name at_) AnsClient (OpCreateClient name) m.
Proof.
  intros Hok Hname. revert m Hok. unfold effect_ok.
  induction n as [|n IH]; intros m Hok; simpl; [split; [done|by apply eff_none]|].
  unfold with_err, attempt, with_store, mbind, action_bind.
  destruct (generate_client_id m) as [[id|] m1] eqn:Hg; apply generate_client_id_spec in Hg as [Hst Hid]; simpl.
  2:{ rewrite Hst. split; [done|]. apply eff_none; by rewrite ?Hst. }
  specialize (Hid id eq_refl). rewrite Hst. set (c := mk_client id name true at_).
  pose proof (insert_client_spec c (am_store m) Hok) as Hins.
  destruct (insert_client c (am_store m)) as [[[]|[]] s']; simpl; (destruct Hins as (Hok' & Ht & Hc); [done|]).
  - destruct Hc as [Hnew Hc]. split; [done|]. by apply eff_created.
  - specialize (IH (mk_manager s' (am_tick m1)) Hok'). destruct (create_client_loop n name at_ _) as [r m2].
    destruct IH. split; [done|]. by eapply unchanged_effect.
  - split; [done|]. by apply eff_none.
Qed.

Lemma create_client_effect name m :
  auth_ok (am_store m) -> name_wf name -> effect_ok (create_client name) AnsClient (OpCreateClient name) m.
Proof.
  intros Hok Hname. unfold effect_ok, create_client, with_err, mbind, action_bind. generalize GENERATION_ATTEMPTS as n.
  intros n. destruct (now_unix_seconds m) as [[now|] m1] eqn:Hn; apply now_spec in Hn; simpl.
  2:{ rewrite Hn. split; [done|]. apply eff_none; by rewrite ?Hn. }
  pose proof (create_client_loop_effect n name now m1) as Hl. unfold effect_ok in Hl. rewrite Hn in Hl.
  specialize (Hl Hok Hname). destruct (create_client_loop n name now m1) as [r m2]. destruct Hl.
  split; [done|]. eapply (unchanged_effect _ m1); [done|by rewrite Hn..].
Qed.

Lemma set_client_enabled_effect p b m :
  auth_ok (am_store m) -> effect_ok (set_client_enabled p b) AnsDone (OpSetClientEnabled p b) m.
Proof.
  intros Hok. unfold effect_ok, set_client_enabled, attempt, with_store, mbind, action_bind.
  pose proof (store_set_client_enabled_spec p b (am_store m) Hok) as Hs.
  destruct (store_set_client_enabled p b (am_store m)) as [[[]|] s']; simpl.
  - destruct Hs as (Hok' & Ht & Hf & Hc). symmetry in Hf. apply bool_decide_eq_true in Hf as [c Hlk]. split; [done|].
    eapply eff_enabled; [exact Hlk| |done]. simpl. rewrite Hc. apply map_eq. intros q.
    destruct (decide (q = p)) as [-> |Hne]; [by rewrite lookup_insert_eq, lookup_alter_eq, Hlk|].
    by rewrite lookup_insert_ne, lookup_alter_ne by done.
  - destruct Hs as (Hok' & Ht & Hf & Hc). symmetry in Hf. apply bool_decide_eq_false in Hf. split; [done|].
    apply eff_none; [|done..]. simpl. rewrite Hc. apply alter_absent. by apply eq_None_not_Some.
  - destruct Hs as (Hok' & Ht & Hc). split; [done|]. by apply eff_none.
Qed.

Lemma issue_token_loop_effect n c client label at_ exp ein m :
  auth_ok (am_store m) -> cl m !! client = Some c -> client_enabled c = true -> principal_wf client -> label_wf label ->
  effect_ok (issue_token_loop n client label at_ exp) AnsIssued (OpIssueToken client label ein) m.
Proof.
  intros Hok Hc Hen Hp Hlab. revert m Hok Hc. unfold effect_ok.
  induction n as [|n IH]; intros m Hok Hc; simpl; [split; [done|by apply eff_none]|].
  unfold with_err, attempt, with_store, mbind, action_bind.
  destruct (GeneratedToken_generate m) as [[g|] m1] eqn:Hg; apply generate_spec in Hg as [Hst Hgw]; simpl.
  2:{ rewrite Hst. split; [done|]. apply eff_none; by rewrite ?Hst. }
  destruct (Hgw g eq_refl) as (Hid & Hdg & Hparse). rewrite Hst.
  set (t := mk_token (gen_id g) client label (gen_digest g) at_ exp None).
  pose proof (insert_token_spec t (am_store m) Hok) as Hins.
  destruct (insert_token t (am_store m)) as [[[]|[]] s']; simpl; (destruct Hins as (Hok' & Hc' & Ht); [done|]).
  - destruct Ht as [Hnew Ht]. split; [done|]. by eapply (eff_issued _ _ client label ein t).
  - specialize (IH (mk_manager s' (am_tick m1)) Hok'). simpl in IH. rewrite Hc' in IH. specialize (IH Hc).
    destruct (issue_token_loop n client label at_ exp _) as [r m2]. destruct IH. split; [done|].
    by eapply unchanged_effect.
  - split; [done|]. by apply eff_none.
Qed.

Lemma load_enabled_client_spec p m :
  auth_ok (am_store m) ->
  let '(r, m') := load_enabled_client p m in
  auth_ok (am_store m') /\ cl m' = cl m /\ tk m' = tk m /\
  forall c, r = Ok c -> cl m !! p = Some c /\ client_enabled c = true /\ client_id c = p /\ principal_wf p.
Proof.
  intros Hok. unfold load_enabled_client, with_err, with_store, lift, mbind, action_bind.
  pose proof (store_client_spec p (am_store m) Hok) as Hs.
  destruct (store_client p (am_store m)) as [[[c|]|] s']; simpl; destruct Hs as (Hok' & Hc & Ht & Hr); try done.
  specialize (Hr _ eq_refl). destruct (client_enabled c) eqn:He; simpl; split_and!; try done.
  intros ? [= <-]. destruct (auth_clients_wf _ _ c Hok (eq_sym Hr)) as [[Hp _] Hid]. by rewrite Hid in Hp.
Qed.

Lemma issue_token_effect client label ein m :
  auth_ok (am_store m) -> label_wf label ->
  effect_ok (issue_token client label ein) AnsIssued (OpIssueToken client label ein) m.
Proof.
  intros Hok Hlab. unfold effect_ok, issue_token, now_for_token, with_err, lift, mbind, action_bind.
  generalize GENERATION_ATTEMPTS as n. intros n. pose proof (load_enabled_client_spec client m Hok) as Hl.
  destruct (load_enabled_client client m) as [[c|] m1]; destruct Hl as (Hok1 & Hc & Ht & Hr).
  2:{ split; [done|]. by apply eff_none. }
  destruct (Hr c eq_refl) as (Hlk & Hen & -> & Hp).
  destruct (now_unix_seconds m1) as [[now|] m2] eqn:Hn; apply now_spec in Hn; simpl.
  2:{ rewrite Hn. split; [done|]. apply eff_none; by rewrite ?Hn. }
  destruct (expiration now ein) as [exp|]; simpl.
  2:{ rewrite Hn. split; [done|]. apply eff_none; by rewrite ?Hn. }
  pose proof (issue_token_loop_effect n c client label now exp ein m2) as Hloop. unfold effect_ok in Hloop.
  rewrite Hn, Hc in Hloop. specialize (Hloop Hok1 Hlk Hen Hp Hlab).
  destruct (issue_token_loop n client label now exp m2) as [r m3]. destruct Hloop. split; [done|].
  eapply (unchanged_effect _ m2); [done|by rewrite Hn..].
Qed.

Lemma revoke_token_effect id m :
  auth_ok (am_store m) -> effect_ok (revoke_token id) AnsRevoked (OpRevokeToken id) m.
Proof.
  intros Hok. unfold effect_ok, revoke_token, now_for_token, with_err, with_store, mbind, action_bind.
  destruct (now_unix_seconds m) as [[now|] m1] eqn:Hn; apply now_spec in Hn; simpl; rewrite Hn.
  2:{ split; [done|]. apply eff_none; by rewrite ?Hn. }
  pose proof (store_revoke_token_spec id now (am_store m) Hok) as Hs.
  destruct (store_revoke_token id now (am_store m)) as [[[]|] s']; simpl.
  - destruct Hs as (Hok' & Hc & (t & Ht & Hact) & Htk). split; [done|]. eapply (eff_revoked _ _ id now t); try done.
    simpl. rewrite Htk. apply map_eq. intros q.
    destruct (decide (q = id)) as [-> |Hne]; [by rewrite lookup_insert_eq, lookup_alter_eq, Ht|].
    by rewrite lookup_insert_ne, lookup_alter_ne by done.
  - destruct Hs as (Hok' & Hc & _ & Htk). split; [done|]. by apply eff_none.
  - destruct Hs as (Hok' & Hc & Htk). split; [done|]. by apply eff_none.
Qed.

Lemma rotate_token_loop_effect n id label at_ exp ein m :
  auth_ok (am_store m) -> label_wf label ->
  effect_ok (rotate_token_loop n id label at_ exp) AnsIssued (OpRotateToken id label ein) m.
Proof.
  intros Hok Hlab. revert m Hok. unfold effect_ok.
  induction n as [|n IH]; intros m Hok; simpl; [split; [done|by apply eff_none]|].
  unfold with_err, attempt, with_store, mbind, action_bind.
  destruct (GeneratedToken_generate m) as [[g|] m1] eqn:Hg; apply generate_spec in Hg as [Hst Hgw]; simpl.
  2:{ rewrite Hst. split; [done|]. apply eff_none; by rewrite ?Hst. }
  destruct (Hgw g eq_refl) as (Hid & Hdg & Hparse). rewrite Hst.
  set (rep := mk_replacement (gen_id g) label (gen_digest g) at_ exp).
  pose proof (store_rotate_token_spec id rep at_ (am_store m) Hok) as Hrot.
  destruct (store_rotate_token id rep at_ (am_store m)) as [[[p| | |]|[]] s']; simpl;
    (destruct Hrot as (Hok' & Hc & Hrot); [done|]); try (split; [done|]; apply eff_none; [done|apply Hrot|done]).
  - destruct Hrot as (t & c & Ht & <- & Hact & Hcl & Hen & Hnew & Htk). split; [done|].
    change (mk_metadata _ _ _ _ _ _) with (metadata (into_record rep (tok_client t))).
    eapply (eff_rotated _ _ id label ein at_ t (into_record rep (tok_client t))); try done.
    simpl. rewrite Htk. apply map_eq. intros q. destruct (decide (q = id)) as [-> |Hne].
    + by rewrite lookup_insert_eq, lookup_alter_eq, lookup_insert_ne, Ht by congruence.
    + by rewrite (lookup_insert_ne _ id), lookup_alter_ne by done.
  - specialize (IH (mk_manager s' (am_tick m1)) Hok'). destruct (rotate_token_loop n id label at_ exp _) as [r m2].
    destruct IH. split; [done|]. by eapply unchanged_effect.
Qed.

Lemma rotate_token_effect id label ein m :
  auth_ok (am_store m) -> label_wf label ->
  effect_ok (rotate_token id label ein) AnsIssued (OpRotateToken id label ein) m.
Proof.
  intros Hok Hlab. unfold effect_ok, rotate_token, now_for_token, with_err, lift, mbind, action_bind.
  generalize GENERATION_ATTEMPTS as n. intros n.
  destruct (now_unix_seconds m) as [[now|] m1] eqn:Hn; apply now_spec in Hn; simpl.
  2:{ rewrite Hn. split; [done|]. apply eff_none; by rewrite ?Hn. }
  destruct (expiration now ein) as [exp|]; simpl.
  2:{ rewrite Hn. split; [done|]. apply eff_none; by rewrite ?Hn. }
  pose proof (rotate_token_loop_effect n id label now exp ein m1) as Hl. unfold effect_ok in Hl. rewrite Hn in Hl.
  specialize (Hl Hok Hlab). destruct (rotate_token_loop n id label now exp m1) as [r m2]. destruct Hl.
  split; [done|]. eapply (unchanged_effect _ m1); [done|by rewrite Hn..].
Qed.

(** The answer to a presented token, from the account and what the store and the clock
    returned. *)
Definition expected (l : Ledger) (presented : rstr) m : result AuthenticationError Principal :=
  match PresentedToken_parse presented with
  | Err _ => Err AuthRejected
  | Ok p =>
      match (authentication_record (pres_id p) (am_store m)).1, clock_at (am_tick m) with
      | Ok _, Ok now => match ledger_accepts l p now with
                        | Some c => Ok (mk_principal c Application)
                        | None => Err AuthRejected
                        end
      | _, _ => Err AuthStorageUnavailable
      end
  end.

(** The account and the record the store returns lead to the same decision. *)
Lemma ledger_accepts_record l p now m :
  agrees l m ->
  ledger_accepts l p now =
  (t ← tk m !! pres_id p; c ← cl m !! tok_client t;
   if PresentedToken_matches p (tok_digest t) && is_active_at t now && client_enabled c
   then Some (tok_client t) else None).
Proof.
  intros (_ & Ht & Hc). unfold ledger_accepts. rewrite Ht, lookup_fmap.
  destruct (tk m !! pres_id p) as [t|]; simpl; [|done]. rewrite Hc, lookup_fmap.
  destruct (cl m !! tok_client t) as [c|]; simpl; [|by rewrite andb_false_r].
  rewrite negb_involutive. unfold PresentedToken_matches, is_active_at. by rewrite andb_assoc.
Qed.

Lemma authenticate_spec l s m :
  agrees l m ->
  (authenticate s m).1 = expected l s m /\
  auth_ok (am_store (authenticate s m).2) /\ cl (authenticate s m).2 = cl m /\ tk (authenticate s m).2 = tk m.
Proof.
  intros Hag. pose proof Hag as (Hok & _). unfold authenticate, expected, with_err, with_store, lift, mbind, action_bind.
  destruct (PresentedToken_parse s) as [p|[]]; simpl; [|done].
  pose proof (authentication_record_spec (pres_id p) (am_store m) Hok) as Hs.
  destruct (authentication_record (pres_id p) (am_store m)) as [[rec|] s']; simpl; destruct Hs as (? & ? & ? & Hr); [|done].
  specialize (Hr _ eq_refl). destruct (clock_at (am_tick m)) as [now|]; simpl; [|done].
  rewrite (ledger_accepts_record l p now m Hag). subst rec.
  destruct (tk m !! pres_id p) as [t|]; simpl; [|done]. destruct (cl m !! tok_client t) as [c|]; simpl; [|done].
  by destruct (PresentedToken_matches p (tok_digest t) && is_active_at t now && client_enabled c).
Qed.

(** Every call keeps a sound store and changes it exactly as its answer reports. *)
Lemma auth_apply_effect op m :
  auth_ok (am_store m) -> op_wf op ->
  let '(ans, m') := auth_apply op m in auth_ok (am_store m') /\ auth_effect m m' op ans.
Proof.
  intros Hok Hwf. destruct op as [name|p b| |client label ein|s|id|id label ein|p]; unfold auth_apply, answered; simpl in Hwf.
  - pose proof (create_client_effect name m Hok Hwf) as He. unfold effect_ok in He. by destruct (create_client name m).
  - pose proof (set_client_enabled_effect p b m Hok) as He. unfold effect_ok in He. by destruct (set_client_enabled p b m).
  - unfold clients, with_err, with_store. pose proof (store_clients_spec (am_store m) Hok) as Hs.
    destruct (store_clients (am_store m)) as [r s']. destruct Hs as (? & ? & ? & _). split; [done|]. by apply eff_none.
  - pose proof (issue_token_effect client label ein m Hok Hwf) as He. unfold effect_ok in He. by destruct (issue_token client label ein m).
  - destruct (authenticate_spec (mk_ledger (entry_of <$> tk m) (client_enabled <$> cl m)) s m) as (_ & ? & ? & ?); [done|].
    destruct (authenticate s m) as [r m']. split; [done|]. by apply eff_none.
  - pose proof (revoke_token_effect id m Hok) as He. unfold effect_ok in He. by destruct (revoke_token id m).
  - pose proof (rotate_token_effect id label ein m Hok Hwf) as He. unfold effect_ok in He. by destruct (rotate_token id label ein m).
  - unfold tokens_for_client, with_err, with_store, mbind, action_bind.
    pose proof (store_tokens_for_client_spec p (am_store m) Hok) as Hs.
    destruct (store_tokens_for_client p (am_store m)) as [[r|] s']; destruct Hs as (? & ? & ? & _);
      (split; [done|]); by apply eff_none.
Qed.

Lemma auth_run_cons op ops m :
  auth_run (op :: ops) m =
  let '(ans, m1) := auth_apply op m in let '(history, m2) := auth_run ops m1 in ((op, ans) :: history, m2).
Proof. done. Qed.

(** A property of the store that no call of [ops] destroys holds after all of them. *)
Lemma auth_run_keeps (P : AuthManager T -> Prop) (safe : AuthOp -> Prop) ops m history m' :
  (forall op ans m m', safe op -> auth_effect m m' op ans -> P m -> P m') ->
  auth_ok (am_store m) -> Forall op_wf ops -> Forall safe ops -> auth_run ops m = (history, m') ->
  P m -> auth_ok (am_store m') /\ P m'.
Proof.
  intros Hstep Hok Hwf Hsafe. revert m history Hok. induction ops as [|op ops IH]; intros m history Hok.
  { intros [= _ <-]. done. }
  apply Forall_cons in Hwf as [Hop Hwf], Hsafe as [Hso Hsafe]. rewrite auth_run_cons.
  pose proof (auth_apply_effect op m Hok Hop) as He. destruct (auth_apply op m) as [ans m1]. destruct He as [Hok1 He].
  destruct (auth_run ops m1) as [h m2] eqn:Hrun. intros [= _ <-] HP. eapply IH; eauto.
Qed.

Lemma effect_agrees m m' op ans l :
  auth_effect m m' op ans -> auth_ok (am_store m') -> agrees l m -> agrees (note (op, ans) l) m'.
Proof.
  intros He Hok (_ & Ht & Hc). destruct He as
    [op ans Hc' Ht' Hn|name c Hen Hna Hnew Hc' Ht'|p b c Hlk Hc' Ht'|client label ein t secret c Hlk Hen Hcl Hlab Hr Hp Hnew Hc' Ht'
    |id at_ t Hlk Hact Hc' Ht'|id label ein at_ t t' secret c Hlk Hact Hlk' Hen Hcl Hlab Hr Hp Hnew Hc' Ht'].
  - rewrite note_silent by done. unfold agrees. by rewrite Hc', Ht'.
  - unfold agrees. simpl. rewrite Hc', Ht', fmap_insert, Hen. split_and!; congruence.
  - unfold agrees. simpl. rewrite Hc', Ht', fmap_insert. split_and!; simpl; congruence.
  - simpl. unfold note_issued, agrees. simpl. rewrite Hp. simpl. rewrite Hc', Ht', fmap_insert, Ht.
    split_and!; [done| |done]. unfold entry_of at 2. by rewrite Hr.
  - simpl. unfold note_revoked, agrees. simpl. rewrite Hc', Ht', fmap_insert, Ht. split_and!; [done| |done].
    apply map_eq. intros q. destruct (decide (q = id)) as [-> |Hne].
    + by rewrite lookup_insert_eq, lookup_alter_eq, lookup_fmap, Hlk.
    + by rewrite lookup_insert_ne, lookup_alter_ne by done.
  - simpl. unfold note_revoked, note_issued, agrees. simpl. rewrite Hp. simpl. rewrite Hc', Ht', !fmap_insert, Ht.
    split_and!; [done| |done]. apply map_eq. intros q. destruct (decide (q = id)) as [-> |Hne].
    + by rewrite lookup_insert_eq, lookup_alter_eq, lookup_insert_ne, lookup_fmap, Hlk by congruence.
    + rewrite (lookup_insert_ne _ id), lookup_alter_ne by done. unfold entry_of at 2. by rewrite Hr.
Qed.

Lemma auth_run_agrees ops m l :
  agrees l m -> Forall op_wf ops ->
  let '(history, m') := auth_run ops m in agrees (ledger_of history l) m'.
Proof.
  revert m l. induction ops as [|op ops IH]; intros m l Hag Hwf; [done|].
  apply Forall_cons in Hwf as [Hop Hwf]. rewrite auth_run_cons. pose proof Hag as (Hok & _).
  pose proof (auth_apply_effect op m Hok Hop) as He. destruct (auth_apply op m) as [ans m1]. destruct He as [Hok1 He].
  pose proof (effect_agrees _ _ _ _ _ He Hok1 Hag) as Hag1. specialize (IH m1 _ Hag1 Hwf).
  by destruct (auth_run ops m1) as [history m2].
Qed.

(** The token [id] is there and revoked. *)
Definition revoked_in (id : TokenId) m : Prop := exists t, tk m !! id = Some t /\ tok_revoked_at t <> None.

Lemma effect_keeps_revoked id op ans m m' : True -> auth_effect m m' op ans -> revoked_in id m -> revoked_in id m'.
Proof.
  intros _ He (t & Ht & Hr). unfold revoked_in. destruct He as
    [op ans _ ->|? ? _ _ _ _ ->|? ? ? _ _ ->|? ? ? t1 ? ? _ _ _ _ _ _ Hnew _ ->
    |id' at_ t1 Hlk Hact _ ->|id' ? ? at_ t1 t2 ? ? Hlk Hact _ _ _ _ _ _ Hnew _ ->]; eauto.
  - rewrite lookup_insert_ne by congruence. eauto.
  - destruct (decide (id = id')) as [-> |Hne]; [rewrite lookup_insert_eq; by eexists|].
    rewrite lookup_insert_ne by done. eauto.
  - destruct (decide (id = id')) as [-> |Hne]; [rewrite lookup_insert_eq; by eexists|].
    rewrite !lookup_insert_ne by congruence. eauto.
Qed.

(** The token [id] has this digest and expiry, belongs to [client], is not revoked, and the
    client is enabled. *)
Definition usable (id : TokenId) (client : PrincipalId) (digest : TokenDigest) (expires : option Z) m : Prop :=
  (exists t, tk m !! id = Some t /\ tok_client t = client /\ tok_digest t = digest /\ tok_expires_at t = expires /\
     tok_revoked_at t = None) /\
  exists c, cl m !! client = Some c /\ client_enabled c = true.

(** The calls that end the life of a token. *)
Definition spares (id : TokenId) (client : PrincipalId) (op : AuthOp) : Prop :=
  match op with
  | OpRevokeToken id' | OpRotateToken id' _ _ => id' <> id
  | OpSetClientEnabled client' enabled => client' = client -> enabled = true
  | _ => True
  end.

Lemma effect_keeps_usable id client digest expires op ans m m' :
  spares id client op -> auth_effect m m' op ans -> usable id client digest expires m -> usable id client digest expires m'.
Proof.
  intros Hsp He [(t & Ht & Hrest) (c & Hc & Hen)]. unfold usable. destruct He as
    [op ans -> ->|? c1 Hen1 _ Hnew -> ->|p b c1 Hlk -> ->|? ? ? t1 ? ? _ _ _ _ _ _ Hnew -> ->
    |id' at_ t1 Hlk Hact -> ->|id' ? ? at_ t1 t2 ? ? Hlk Hact _ _ _ _ _ _ Hnew -> ->]; simpl in Hsp.
  - eauto 10.
  - rewrite lookup_insert_ne by congruence. eauto 10.
  - split; [eauto 10|]. destruct (decide (p = client)) as [-> |Hne]; [|rewrite lookup_insert_ne by done; eauto].
    rewrite lookup_insert_eq. eexists. split; [done|]. simpl. auto.
  - rewrite lookup_insert_ne by congruence. eauto 10.
  - rewrite lookup_insert_ne by done. eauto 10.
  - rewrite !lookup_insert_ne by congruence. eauto 10.
Qed.

(** A token that was just handed out is usable, and its text names it. *)
Lemma effect_issued_usable m m' op i :
  auth_effect m m' op (AnsIssued (Ok i)) ->
  exists digest, PresentedToken_parse (iss_secret i) = Ok (mk_presented (md_id (iss_metadata i)) digest) /\
    usable (md_id (iss_metadata i)) (md_client (iss_metadata i)) digest (md_expires_at (iss_metadata i)) m'.
Proof.
  remember (AnsIssued (Ok i)) as ans eqn:Hans. intros He. destruct He as
    [op ans _ _ Hn|? c1 Hen1 _ Hnew _ _|p b c1 Hlk _ _|client ? ? t secret c Hlk Hen Hcl _ Hr Hp Hnew Hc Ht
    |id' at_ t1 Hlk Hact _ _|id' ? ? at_ t t' secret c Hlk Hact Hlc Hen Hcl _ Hr Hp Hnew Hc Ht]; try done.
  - by subst ans.
  - injection Hans as <-. exists (tok_digest t). split; [done|]. unfold usable. rewrite Hc, Ht. split; [|simpl; rewrite Hcl; eauto].
    exists t. simpl. rewrite lookup_insert_eq. auto.
  - injection Hans as <-. exists (tok_digest t'). split; [done|]. unfold usable. rewrite Hc, Ht. split; [|simpl; rewrite Hcl; eauto].
    exists t'. simpl. rewrite lookup_insert_ne, lookup_insert_eq by congruence. auto.
Qed.
End manager.
