(* ===== verification/Sqlite.v ===== *)
(** * Sqlite: the tables of the encrypted store (bondry-store-sqlcipher)

    database.rs and usage.rs: the tables the schema creates with their constraints, the
    counters that the triggers keep beside two of them, one connection behind a mutex, and
    transactions.  The SQL of the source is translated statement by statement into
    functions on the tables; SQLite itself is not modelled beyond what its documentation
    says of such statements: a statement either takes effect as a whole or fails and
    changes nothing, and a transaction that is dropped without a commit is rolled back.
    Any statement may fail for reasons of its own ([sql_fails]). *)

From S2P Require Import Prelude Text Identifiers.

(** ** Rows *)

Record ClientRow := mk_client_row {
  cr_name : rstr;
  cr_enabled : Z;
  cr_created_at : Z;
}.

Record TokenRow := mk_token_row {
  tr_client_id : rstr;
  tr_label : option rstr;
  tr_digest : list byte;
  tr_created_at : Z;
  tr_expires_at : option Z;
  tr_revoked_at : option Z;
}.

Record AuditRow := mk_audit_row {
  ae_sequence : Z;
  ae_occurred_at_ms : Z;
  ae_invocation_id : rstr;
  ae_principal_id : rstr;
  ae_adapter_id : rstr;
  ae_capability_id : rstr;
  ae_outcome_kind : rstr;
  ae_detail_code : option rstr;
}.

Record DeliveryRow := mk_delivery_row {
  dl_route_id : rstr;
  dl_accepted_at_ms : Z;
  dl_attempts : Z;
  dl_state : rstr;
  dl_failure_kind : option rstr;
  dl_updated_at_ms : Z;
  dl_result_category : option rstr;
  dl_result_bytes : option Z;
  dl_charged_bytes : Z;
}.

Record DedupRow := mk_dedup_row {
  dd_sequence : Z;
  dd_state : rstr;
  dd_automatic_expiry : Z;
  dd_updated_at_ms : Z;
  dd_expires_at_ms : option Z;
  dd_charged_bytes : Z;
}.

(** [(route_id, verifier_namespace, delivery_hash)]. *)
Abbreviation DedupRowKey := (rstr * rstr * list byte)%type (only parsing).

(** The tables by their unique keys.  [*_sequence] is the largest [AUTOINCREMENT] key a
    table ever used; [storage_usage] holds [(records, charged_bytes)]. *)
Record Database := mk_database {
  t_clients : gmap rstr ClientRow;
  t_tokens : gmap rstr TokenRow;
  t_audit : list AuditRow;
  audit_sequence : Z;
  t_grants : gset (rstr * rstr * rstr);
  t_delivery : gmap rstr DeliveryRow;
  t_dedup : gmap (rstr * rstr * list byte) DedupRow;
  dedup_sequence : Z;
  t_usage : gmap rstr (Z * Z);
}.

Definition set_clients x db := mk_database x (t_tokens db) (t_audit db) (audit_sequence db) (t_grants db) (t_delivery db) (t_dedup db) (dedup_sequence db) (t_usage db).
Definition set_tokens x db := mk_database (t_clients db) x (t_audit db) (audit_sequence db) (t_grants db) (t_delivery db) (t_dedup db) (dedup_sequence db) (t_usage db).
Definition set_audit x n db := mk_database (t_clients db) (t_tokens db) x n (t_grants db) (t_delivery db) (t_dedup db) (dedup_sequence db) (t_usage db).
Definition set_grants x db := mk_database (t_clients db) (t_tokens db) (t_audit db) (audit_sequence db) x (t_delivery db) (t_dedup db) (dedup_sequence db) (t_usage db).
Definition set_delivery x u db := mk_database (t_clients db) (t_tokens db) (t_audit db) (audit_sequence db) (t_grants db) x (t_dedup db) (dedup_sequence db) u.
Definition set_dedup x n u db := mk_database (t_clients db) (t_tokens db) (t_audit db) (audit_sequence db) (t_grants db) (t_delivery db) x n u.

(** [migrate_from_empty]: the schema of a new database. *)
Definition migrate_from_empty : Database :=
  mk_database ∅ ∅ [] 0 ∅ ∅ ∅ 0 (<[str "delivery_log" := (0, 0)]> (<[str "webhook_dedup" := (0, 0)]> ∅)).

(** ** Statements and the connection *)

(** What the code distinguishes in a [rusqlite::Error]. *)
Inductive SqlError := ConstraintViolation | InvalidQuery | SqliteFailure.

(** A statement computes its result and the new tables, or fails. *)
Abbreviation Statement A := (Database -> result SqlError (A * Database)).

(** [Mutex<Connection>]: whether the mutex is poisoned, the tables, the tables a running
    transaction started from, and the number of statements run so far. *)
Record SqlCipherStore := mk_sql_store {
  sq_poisoned : bool;
  sq_db : Database;
  sq_rollback : option Database;
  sq_tick : nat;
}.

(** The statements that fail whatever they say: I/O errors, a busy or full database. *)
Class SqlEnv := sql_fails : nat -> bool.

Section connection.
Context `{SqlEnv}.

(** [Connection::execute] and [query_row]. *)
Definition sql {A} (f : Statement A) : action SqlCipherStore SqlError A := fun s =>
  if sql_fails (sq_tick s) then (Err SqliteFailure, mk_sql_store (sq_poisoned s) (sq_db s) (sq_rollback s) (S (sq_tick s)))
  else match f (sq_db s) with
       | Ok (a, db) => (Ok a, mk_sql_store (sq_poisoned s) db (sq_rollback s) (S (sq_tick s)))
       | Err e => (Err e, mk_sql_store (sq_poisoned s) (sq_db s) (sq_rollback s) (S (sq_tick s)))
       end.

(** [SqlCipherStore::connection]: the lock. *)
Definition connection {E} (unavailable : E) : action SqlCipherStore E unit := fun s =>
  if sq_poisoned s then (Err unavailable, s) else (Ok tt, s).

(** [Transaction::commit]. *)
Definition commit : action SqlCipherStore SqlError unit := fun s =>
  if sql_fails (sq_tick s) then (Err SqliteFailure, mk_sql_store (sq_poisoned s) (sq_db s) (sq_rollback s) (S (sq_tick s)))
  else (Ok tt, mk_sql_store (sq_poisoned s) (sq_db s) None (S (sq_tick s))).

(** [transaction_with_behavior(Immediate)], the code that uses the transaction, and its
    drop, which rolls back what was not committed. *)
Definition transaction {E A} (fail : SqlError -> E) (body : action SqlCipherStore E A) : action SqlCipherStore E A := fun s =>
  if sql_fails (sq_tick s) then (Err (fail SqliteFailure), mk_sql_store (sq_poisoned s) (sq_db s) (sq_rollback s) (S (sq_tick s)))
  else
    let '(r, s) := body (mk_sql_store (sq_poisoned s) (sq_db s) (Some (sq_db s)) (S (sq_tick s))) in
    (r, mk_sql_store (sq_poisoned s) (default (sq_db s) (sq_rollback s)) None (sq_tick s)).

(** *** What they leave behind *)

(** Outside a transaction the connection differs at most in its tables. *)
Definition same_conn (s s' : SqlCipherStore) : Prop :=
  sq_poisoned s' = sq_poisoned s /\ sq_rollback s' = sq_rollback s.

Lemma sql_spec {A} (f : Statement A) s :
  let '(r, s') := sql f s in
  same_conn s s' /\
  match r with
  | Ok a => f (sq_db s) = Ok (a, sq_db s')
  | Err e => sq_db s' = sq_db s /\ (e = SqliteFailure \/ f (sq_db s) = Err e)
  end.
Proof.
  unfold sql. destruct (sql_fails (sq_tick s)); [split; [done|]; split; [done|by left]|].
  destruct (f (sq_db s)) as [[a db]|e]; (split; [done|]); [done|]. split; [done|by right].
Qed.

Lemma commit_spec s :
  let '(r, s') := commit s in
  sq_poisoned s' = sq_poisoned s /\ sq_db s' = sq_db s /\
  sq_rollback s' = match r with Ok _ => None | Err _ => sq_rollback s end.
Proof. unfold commit. by destruct (sql_fails (sq_tick s)). Qed.

(** The same with the error of the caller. *)
Lemma exec_spec {E A} (g : SqlError -> E) (f : Statement A) s :
  let '(r, s') := with_err g (sql f) s in
  same_conn s s' /\ match r with Ok a => f (sq_db s) = Ok (a, sq_db s') | Err _ => sq_db s' = sq_db s end.
Proof.
  unfold with_err. pose proof (sql_spec f s) as Hs. destruct (sql f s) as [[a|e] s']; simpl; destruct Hs as [? Hs]; [done|].
  by destruct Hs.
Qed.

Lemma exec_commit_spec {E} (g : SqlError -> E) s :
  let '(r, s') := with_err g commit s in
  sq_poisoned s' = sq_poisoned s /\ sq_db s' = sq_db s /\
  sq_rollback s' = match r with Ok _ => None | Err _ => sq_rollback s end.
Proof. unfold with_err. pose proof (commit_spec s) as Hs. by destruct (commit s) as [[a|e] s']. Qed.

(** A transaction ends with what its body committed, or with the tables it started from. *)
Lemma transaction_spec {E A} (P : result E A -> Database -> Prop) fail (body : action SqlCipherStore E A) s :
  (forall e, P (Err e) (sq_db s)) ->
  (forall s1, sq_db s1 = sq_db s -> sq_rollback s1 = Some (sq_db s) ->
     let '(r, s2) := body s1 in
     sq_poisoned s2 = sq_poisoned s1 /\ P r (default (sq_db s2) (sq_rollback s2))) ->
  sq_rollback s = None ->
  let '(r, s') := transaction fail body s in same_conn s s' /\ P r (sq_db s').
Proof.
  intros Herr Hbody Hroll. unfold transaction, same_conn. destruct (sql_fails (sq_tick s)); [done|].
  specialize (Hbody (mk_sql_store (sq_poisoned s) (sq_db s) (Some (sq_db s)) (S (sq_tick s))) eq_refl eq_refl).
  destruct (body _) as [r s2]. simpl in *. destruct Hbody. done.
Qed.

(** *** Running an operation and its transaction

    [runs m Q s]: [m] ends in an answer and tables that satisfy [Q].  [in_tx db0 db m Q]: inside
    a transaction that started from [db0] and has reached [db], the rest [m] ends in an answer
    and in tables, committed or rolled back to [db0], that satisfy [Q]. *)
Definition runs {E A} (m : action SqlCipherStore E A) (Q : result E A -> Database -> Prop) (s : SqlCipherStore) : Prop :=
  let '(r, s') := m s in sq_poisoned s' = sq_poisoned s /\ Q r (sq_db s').

Definition in_tx {E A} (db0 db : Database) (m : action SqlCipherStore E A) (Q : result E A -> Database -> Prop) : Prop :=
  forall s, sq_db s = db -> sq_rollback s = Some db0 ->
  let '(r, s') := m s in sq_poisoned s' = sq_poisoned s /\ Q r (default (sq_db s') (sq_rollback s')).

Lemma runs_result {E A} (m : action SqlCipherStore E A) Q s : runs m Q s -> Q (m s).1 (sq_db (m s).2).
Proof. unfold runs. by destruct (m s) as [r s']; intros [_ HQ]. Qed.

Lemma runs_mono {E A} (m : action SqlCipherStore E A) (P Q : result E A -> Database -> Prop) s :
  (forall r db, P r db -> Q r db) -> runs m P s -> runs m Q s.
Proof. unfold runs. destruct (m s) as [r s']. naive_solver. Qed.

Lemma runs_connection {E A} (e : E) (k : unit -> action SqlCipherStore E A) Q s :
  Q (Err e) (sq_db s) -> runs (k tt) Q s -> runs (connection e ≫= k) Q s.
Proof.
  unfold runs. intros He Hk. rewrite bind_run. unfold connection. destruct (sq_poisoned s) eqn:Hp; [done|]. done.
Qed.

Lemma runs_lift {E A} (r : result E A) Q s : Q r (sq_db s) -> runs (lift r) Q s.
Proof. done. Qed.

Lemma runs_lift_bind {E A B} (r : result E A) (k : A -> action SqlCipherStore E B) Q s :
  match r with Ok a => runs (k a) Q s | Err e => Q (Err e) (sq_db s) end -> runs (lift r ≫= k) Q s.
Proof. unfold runs. rewrite bind_run. unfold lift. by destruct r. Qed.

Lemma runs_sql {E A} (g : SqlError -> E) (f : Statement A) Q s :
  Q (Err (g SqliteFailure)) (sq_db s) ->
  match f (sq_db s) with Ok (a, db) => Q (Ok a) db | Err e => Q (Err (g e)) (sq_db s) end ->
  runs (with_err g (sql f)) Q s.
Proof.
  intros He Hf. unfold runs, with_err, sql. destruct (sql_fails (sq_tick s)); [done|].
  by destruct (f (sq_db s)) as [[a db]|e].
Qed.

Lemma runs_sql_bind {E A B} (g : SqlError -> E) (f : Statement A) (k : A -> result E B) Q s :
  Q (Err (g SqliteFailure)) (sq_db s) ->
  match f (sq_db s) with Ok (a, db) => Q (k a) db | Err e => Q (Err (g e)) (sq_db s) end ->
  runs (a ← with_err g (sql f); lift (k a)) Q s.
Proof.
  intros He Hf. unfold runs. rewrite bind_run. unfold with_err, sql. destruct (sql_fails (sq_tick s)); [done|].
  by destruct (f (sq_db s)) as [[a db]|e].
Qed.

Lemma runs_transaction {E A} (g : SqlError -> E) (body : action SqlCipherStore E A) Q s :
  Q (Err (g SqliteFailure)) (sq_db s) -> in_tx (sq_db s) (sq_db s) body Q -> runs (transaction g body) Q s.
Proof.
  intros He Hb. unfold runs, transaction. destruct (sql_fails (sq_tick s)); [done|].
  specialize (Hb (mk_sql_store (sq_poisoned s) (sq_db s) (Some (sq_db s)) (S (sq_tick s))) eq_refl eq_refl).
  by destruct (body _) as [r s2].
Qed.

Lemma in_tx_sql {E A B} db0 db (g : SqlError -> E) (f : Statement A) (k : A -> action SqlCipherStore E B) Q :
  Q (Err (g SqliteFailure)) db0 ->
  match f db with Ok (a, db') => in_tx db0 db' (k a) Q | Err e => Q (Err (g e)) db0 end ->
  in_tx db0 db (with_err g (sql f) ≫= k) Q.
Proof.
  intros He Hf s <- Hroll. rewrite bind_run. unfold with_err, sql. destruct (sql_fails (sq_tick s)); simpl; [by rewrite Hroll|].
  destruct (f (sq_db s)) as [[a db']|e]; simpl; [|by rewrite Hroll]. apply (Hf (mk_sql_store _ _ _ _) eq_refl Hroll).
Qed.

Lemma in_tx_commit {E A} db0 db (g : SqlError -> E) (r : result E A) Q :
  Q (Err (g SqliteFailure)) db0 -> Q r db -> in_tx db0 db (_ ← with_err g commit; lift r) Q.
Proof.
  intros He Hr s <- Hroll. rewrite bind_run. unfold with_err, commit. destruct (sql_fails (sq_tick s)); simpl; [by rewrite Hroll|done].
Qed.

Lemma in_tx_lift {E A} db0 db (r : result E A) Q : Q r db0 -> in_tx db0 db (lift r) Q.
Proof. intros Hr s <- Hroll. simpl. by rewrite Hroll. Qed.

Lemma in_tx_lift_bind {E A B} db0 db (r : result E A) (k : A -> action SqlCipherStore E B) Q :
  match r with Ok a => in_tx db0 db (k a) Q | Err e => Q (Err e) db0 end -> in_tx db0 db (lift r ≫= k) Q.
Proof. intros Hr s Hdb Hroll. rewrite bind_run. unfold lift. destruct r; [by apply Hr|]. by rewrite Hroll. Qed.
End connection.

(** One step of an operation: the rule for its first action. *)
Ltac tx_step := first
  [ apply in_tx_commit | apply in_tx_sql | apply in_tx_lift_bind | apply in_tx_lift
  | apply runs_connection | apply runs_lift_bind | apply runs_transaction | apply runs_sql_bind | apply runs_sql | apply runs_lift ].

(** A [SELECT] leaves the tables alone. *)
Definition select {A} (f : Database -> A) : Statement A := fun db => Ok (f db, db).

(** ** Decoded tables

    A table keyed by its columns, seen as the map of the values its rows stand for. *)
Section decoded.
Context `{Countable C, Countable K} {Row V : Type} (mk : C -> K) (un : K -> C) (f : C -> Row -> option V).
Context (mk_un : forall k, mk (un k) = k) (un_mk : forall x, un (mk x) = x).

Definition decoded (m : gmap C Row) : gmap K V := kmap mk (map_imap f m).

#[local] Instance mk_inj : Inj (=) (=) mk.
Proof using un_mk. intros x y Hxy. by rewrite <-(un_mk x), Hxy, un_mk. Qed.

Lemma decoded_lookup m k : decoded m !! k = m !! un k ≫= f (un k).
Proof using mk_un un_mk. unfold decoded. rewrite <-(mk_un k) at 1. by rewrite lookup_kmap, map_lookup_imap by apply _. Qed.

Lemma decoded_insert m x row v : f x row = Some v -> decoded (<[x := row]> m) = <[mk x := v]> (decoded m).
Proof using mk_un un_mk.
  intros Hv. apply map_eq. intros k. rewrite decoded_lookup. destruct (decide (k = mk x)) as [-> |Hne].
  - by rewrite un_mk, !lookup_insert_eq.
  - rewrite !lookup_insert_ne, decoded_lookup; [done|done|]. intros ->. by rewrite mk_un in Hne.
Qed.

Lemma decoded_delete m x : decoded (delete x m) = delete (mk x) (decoded m).
Proof using mk_un un_mk.
  apply map_eq. intros k. rewrite decoded_lookup. destruct (decide (k = mk x)) as [-> |Hne].
  - by rewrite un_mk, !lookup_delete_eq.
  - rewrite !lookup_delete_ne, decoded_lookup; [done|done|]. intros ->. by rewrite mk_un in Hne.
Qed.

Lemma decoded_insert_None m x row : m !! x = None -> f x row = None -> decoded (<[x := row]> m) = decoded m.
Proof using mk_un un_mk.
  intros Hx Hv. apply map_eq. intros k. rewrite !decoded_lookup. destruct (decide (un k = x)) as [<- |Hne].
  - by rewrite lookup_insert_eq, Hx.
  - by rewrite lookup_insert_ne.
Qed.

(** The values of the decoded table are the rows that decode. *)
Lemma decoded_values m : (map_to_list (decoded m)).*2 ≡ₚ omap (fun x => f x.1 x.2) (map_to_list m).
Proof using mk_un un_mk.
  induction m as [|x row m Hx IH] using map_ind.
  { unfold decoded. by rewrite map_imap_empty, kmap_empty, !map_to_list_empty. }
  rewrite (map_to_list_insert m x row Hx). simpl. fold_omap. destruct (f x row) as [v|] eqn:Hv.
  - rewrite (decoded_insert m x row v Hv), map_to_list_insert; [simpl; by rewrite IH|].
    by rewrite decoded_lookup, un_mk, Hx.
  - by rewrite decoded_insert_None.
Qed.

Lemma decoded_size m : map_Forall (fun x row => is_Some (f x row)) m -> size (decoded m) = size m.
Proof using mk_un un_mk.
  induction m as [|x row m Hx IH] using map_ind.
  { unfold decoded. by rewrite map_imap_empty, kmap_empty. }
  intros (Hv & Hm)%map_Forall_insert; [|done]. destruct Hv as [v Hv].
  rewrite (decoded_insert m x row v Hv), !map_size_insert_None by (done || by rewrite decoded_lookup, un_mk, Hx). by rewrite IH.
Qed.
End decoded.

(** ** Storage accounting (usage.rs) *)

Definition DELIVERY_LOG : rstr := str "delivery_log".
Definition WEBHOOK_DEDUP : rstr := str "webhook_dedup".

(** The [CHECK] constraints of [storage_usage]; a counter that leaves the integers of
    SQLite turns into a real and fails its [typeof] check. *)
Definition usage_check (table : rstr) (u : Z * Z) : bool :=
  in_i64 (u.1) && (0 <=? u.1) && in_i64 (u.2) && (0 <=? u.2)
  && (negb (u.1 =? 0) || (u.2 =? 0)) && (u.1 * 96 <=? u.2)
  && (negb (bool_decide (table = DELIVERY_LOG)) || (u.2 =? u.1 * 512)).

(** The triggers of [create_triggers]: they abort the statement if the counter is missing
    or would break a constraint. *)
Definition usage_update (table : rstr) (records bytes : Z) (usage : gmap rstr (Z * Z))
    : result SqlError (gmap rstr (Z * Z)) :=
  match usage !! table with
  | None => Err ConstraintViolation
  | Some (r, b) =>
      if usage_check table (r + records, b + bytes)
      then Ok (<[table := (r + records, b + bytes)]> usage) else Err ConstraintViolation
  end.

Definition usage_insert_trigger (table : rstr) (charged : Z) := usage_update table 1 charged.
Definition usage_delete_trigger (table : rstr) (charged : Z) := usage_update table (-1) (- charged).

(** The delete trigger runs once for every row. *)
Fixpoint usage_delete_all (table : rstr) (charges : list Z) (usage : gmap rstr (Z * Z))
    : result SqlError (gmap rstr (Z * Z)) :=
  match charges with
  | [] => Ok usage
  | c :: charges => usage ← usage_delete_trigger table c usage; usage_delete_all table charges usage
  end.

(** [usage::read]: the counters, refused if they cannot be right. *)
Definition usage_read (table : rstr) : Statement (Z * Z) := fun db =>
  match t_usage db !! table with
  | None => Err InvalidQuery
  | Some (records, bytes) =>
      let minimum := records * (if decide (table = DELIVERY_LOG) then 512 else 96) in
      if negb (in_i64 minimum) then Err InvalidQuery
      else if (records <? 0) || (bytes <? minimum) || ((records =? 0) && negb (bytes =? 0))
           || (bool_decide (table = DELIVERY_LOG) && negb (bytes =? minimum))
      then Err InvalidQuery else Ok ((records, bytes), db)
  end.
