(* ===== verification/SqlAuth.v ===== *)
(** * SqlAuth: clients and tokens in the encrypted store (bondry-store-sqlcipher/src/auth.rs)

    [SqlCipherStore] as an [AuthStore]: rows of the tables are decoded and validated on
    every read, and the store keeps the contract of [AuthStoreSpec] as long as it holds
    rows it wrote itself. *)

From S2P Require Import Prelude Text Identifiers Base64 Auth Sqlite.

(** [i64::from(bool)]. *)
Definition sql_bool (b : bool) : Z := if b then 1 else 0.

(** [map_database_error] and [map_store_error]; of the errors of [connection] only
    [Unavailable] occurs. *)
Definition map_database_error (e : SqlError) : StoreError :=
  match e with ConstraintViolation => StoreConflict | _ => StoreUnavailable end.

(** ** The statements *)

Definition client_row (c : Client) : ClientRow :=
  mk_client_row (client_name_str (client_name c)) (sql_bool (client_enabled c)) (client_created_at c).

(** [INSERT INTO clients]: the primary key and the check on [enabled]. *)
Definition sql_insert_client (id : rstr) (row : ClientRow) : Statement unit := fun db =>
  if bool_decide (is_Some (t_clients db !! id)) || negb (in_range 0 1 (cr_enabled row)) then Err ConstraintViolation
  else Ok (tt, set_clients (<[id := row]> (t_clients db)) db).

Definition sql_set_client_enabled (enabled : Z) (id : rstr) : Statement Z := fun db =>
  match t_clients db !! id with
  | None => Ok (0, db)
  | Some row =>
      if negb (in_range 0 1 enabled) then Err ConstraintViolation
      else Ok (1, set_clients (<[id := mk_client_row (cr_name row) enabled (cr_created_at row)]> (t_clients db)) db)
  end.

Definition token_row (t : TokenRecord) : TokenRow :=
  mk_token_row (as_str (tok_client t)) (token_label_str <$> tok_label t) (digest_bytes (tok_digest t))
    (tok_created_at t) (tok_expires_at t) (tok_revoked_at t).

(** [INSERT INTO tokens]: the primary key, the foreign key, the unique digest of 32 bytes
    and the check on the expiry. *)
Definition sql_insert_token (id : rstr) (row : TokenRow) : Statement unit := fun db =>
  if bool_decide (is_Some (t_tokens db !! id)) || negb (bool_decide (is_Some (t_clients db !! tr_client_id row)))
     || bool_decide (map_Exists (fun _ other => tr_digest other = tr_digest row) (t_tokens db))
     || negb (Nat.eqb (length (tr_digest row)) 32)
     || match tr_expires_at row with None => false | Some expires_at => expires_at <=? tr_created_at row end
  then Err ConstraintViolation
  else Ok (tt, set_tokens (<[id := row]> (t_tokens db)) db).

Definition revoke_row (at_ : Z) (row : TokenRow) : TokenRow :=
  mk_token_row (tr_client_id row) (tr_label row) (tr_digest row) (tr_created_at row) (tr_expires_at row) (Some at_).

(** [UPDATE tokens SET revoked_at = ?1 WHERE id = ?2 AND revoked_at IS NULL], with the
    condition on the expiry that only [revoke_token] adds. *)
Definition sql_revoke (at_ : Z) (id : rstr) (unless_expired : bool) : Statement Z := fun db =>
  match t_tokens db !! id with
  | None => Ok (0, db)
  | Some row =>
      if bool_decide (tr_revoked_at row = None)
         && (negb unless_expired || match tr_expires_at row with None => true | Some expires_at => at_ <? expires_at end)
      then Ok (1, set_tokens (<[id := revoke_row at_ row]> (t_tokens db)) db)
      else Ok (0, db)
  end.

(** The join of a token with its client. *)
Definition sql_token_with_client (id : rstr) (db : Database) : option (TokenRow * Z) :=
  row ← t_tokens db !! id; client ← t_clients db !! tr_client_id row; Some (row, cr_enabled client).

Section auth.
Context `{B : Base64} `{Env : SqlEnv}.

(** ** Rows read back *)

Definition read_client (id : rstr) (row : ClientRow) : result StoreError Client :=
  id ← map_err (fun _ => StoreUnavailable) (Identifier_new id);
  name ← map_err (fun _ => StoreUnavailable) (ClientName_new (cr_name row));
  Ok (mk_client id name (negb (cr_enabled row =? 0)) (cr_created_at row)).

(** [RawToken::validate]. *)
Definition validate_token (id : rstr) (row : TokenRow) : result StoreError TokenRecord :=
  if negb (Nat.eqb (length (tr_digest row)) 32) then Err StoreUnavailable
  else
    id ← map_err (fun _ => StoreUnavailable) (TokenId_new id);
    client ← map_err (fun _ => StoreUnavailable) (Identifier_new (tr_client_id row));
    label ← map_err (fun _ => StoreUnavailable) (transpose TokenLabel_new (tr_label row));
    Ok (mk_token id client label (mk_digest (tr_digest row)) (tr_created_at row) (tr_expires_at row) (tr_revoked_at row)).

(** ** [impl AuthStore for SqlCipherStore] *)

#[local] Abbreviation M := (action SqlCipherStore StoreError).

Definition sq_insert_client (client : Client) : M unit :=
  _ ← connection StoreUnavailable;
  with_err map_database_error (sql (sql_insert_client (as_str (client_id client)) (client_row client))).

Definition sq_client (id : PrincipalId) : M (option Client) :=
  _ ← connection StoreUnavailable;
  raw ← with_err map_database_error (sql (select (fun db => t_clients db !! as_str id)));
  lift (transpose (read_client (as_str id)) raw).

Definition sq_clients : M (list Client) :=
  _ ← connection StoreUnavailable;
  rows ← with_err map_database_error (sql (select (fun db => btree_iter (t_clients db))));
  lift (collect (fun row => read_client row.1 row.2) rows).

Definition sq_set_client_enabled (id : PrincipalId) (enabled : bool) : M bool :=
  _ ← connection StoreUnavailable;
  changed ← with_err map_database_error (sql (sql_set_client_enabled (sql_bool enabled) (as_str id)));
  mret (changed =? 1).

Definition sq_insert_token (token : TokenRecord) : M unit :=
  _ ← connection StoreUnavailable;
  with_err map_database_error (sql (sql_insert_token (token_id_str (tok_id token)) (token_row token))).

Definition sq_authentication_record (id : TokenId) : M (option AuthenticationRecord) :=
  _ ← connection StoreUnavailable;
  raw ← with_err map_database_error (sql (select (sql_token_with_client (token_id_str id))));
  lift (transpose (fun raw : TokenRow * Z =>
    token ← validate_token (token_id_str id) raw.1; Ok (mk_auth_record token (negb (raw.2 =? 0)))) raw).

Definition sq_revoke_token (id : TokenId) (revoked_at : Z) : M bool :=
  _ ← connection StoreUnavailable;
  changed ← with_err map_database_error (sql (sql_revoke revoked_at (token_id_str id) true));
  mret (changed =? 1).

Definition sq_rotate_token (current : TokenId) (replacement : TokenReplacement) (revoked_at : Z) : M RotationOutcome :=
  _ ← connection StoreUnavailable;
  transaction map_database_error (
    raw ← with_err map_database_error (sql (select (sql_token_with_client (token_id_str current))));
    match raw with
    | None => mret RotationNotFound
    | Some (row, enabled) =>
        token ← lift (validate_token (token_id_str current) row);
        if enabled =? 0 then mret RotationClientDisabled
        else if negb (is_active_at token revoked_at) then mret RotationInactive
        else
          let record := into_record replacement (tok_client token) in
          _ ← with_err map_database_error (sql (sql_insert_token (token_id_str (tok_id record)) (token_row record)));
          changed ← with_err map_database_error (sql (sql_revoke revoked_at (token_id_str current) false));
          if negb (changed =? 1) then raise StoreUnavailable
          else _ ← with_err map_database_error commit;
               mret (Rotated (tok_client token))
    end).

(** [ORDER BY created_at DESC, id ASC]. *)
Definition token_row_le (x y : rstr * TokenRow) : Prop :=
  tr_created_at y.2 < tr_created_at x.2 \/ tr_created_at x.2 = tr_created_at y.2 /\ lex_le x.1 y.1.
#[global] Instance token_row_le_dec : RelDecision token_row_le.
Proof. intros x y. unfold token_row_le. apply _. Defined.

Definition sq_tokens_for_client (id : PrincipalId) : M (list TokenRecord) :=
  _ ← connection StoreUnavailable;
  rows ← with_err map_database_error (sql (select (fun db =>
    merge_sort token_row_le (filter (fun x : rstr * TokenRow => tr_client_id x.2 = as_str id) (map_to_list (t_tokens db))))));
  lift (collect (fun row => validate_token row.1 row.2) rows).

#[global] Instance SqlCipherStore_AuthStore : AuthStore SqlCipherStore := {
  insert_client := sq_insert_client;
  store_client := sq_client;
  store_clients := sq_clients;
  store_set_client_enabled := sq_set_client_enabled;
  insert_token := sq_insert_token;
  authentication_record := sq_authentication_record;
  store_revoke_token := sq_revoke_token;
  store_rotate_token := sq_rotate_token;
  store_tokens_for_client := sq_tokens_for_client;
}.

(** ** The contract

    The clients and tokens the rows stand for. *)
Definition clients_view (db : Database) : gmap PrincipalId Client :=
  decoded mk_id (fun id row => to_option (read_client id row)) (t_clients db).
Definition tokens_view (db : Database) : gmap TokenId TokenRecord :=
  decoded mk_token_id (fun id row => to_option (validate_token id row)) (t_tokens db).

(** Every row reads back, and a token keeps the owner its row names. *)
Definition rows_ok (db : Database) : Prop :=
  (forall id row, t_clients db !! id = Some row -> exists c, read_client id row = Ok c) /\
  (forall id row, t_tokens db !! id = Some row -> exists t, validate_token id row = Ok t).

Definition sq_auth_ok (s : SqlCipherStore) : Prop := sq_rollback s = None /\ rows_ok (sq_db s).

Lemma mk_id_as_str {k} (i : Id k) : mk_id (as_str i) = i.
Proof. by destruct i. Qed.
Lemma mk_token_id_str i : mk_token_id (token_id_str i) = i.
Proof. by destruct i. Qed.

Lemma clients_view_lookup db p :
  clients_view db !! p = row ← t_clients db !! as_str p; to_option (read_client (as_str p) row).
Proof. apply decoded_lookup; [apply mk_id_as_str|done]. Qed.

Lemma tokens_view_lookup db i :
  tokens_view db !! i = row ← t_tokens db !! token_id_str i; to_option (validate_token (token_id_str i) row).
Proof. apply decoded_lookup; [apply mk_token_id_str|done]. Qed.

Lemma clients_view_insert db p row c :
  read_client (as_str p) row = Ok c ->
  clients_view (set_clients (<[as_str p := row]> (t_clients db)) db) = <[p := c]> (clients_view db).
Proof.
  intros Hc. unfold clients_view. simpl. rewrite (decoded_insert mk_id as_str _ mk_id_as_str) with (v := c); [|done|by rewrite Hc].
  by rewrite mk_id_as_str.
Qed.

Lemma tokens_view_insert db i row t :
  validate_token (token_id_str i) row = Ok t ->
  tokens_view (set_tokens (<[token_id_str i := row]> (t_tokens db)) db) = <[i := t]> (tokens_view db).
Proof.
  intros Ht. unfold tokens_view. simpl. rewrite (decoded_insert mk_token_id token_id_str _ mk_token_id_str) with (v := t); [|done|by rewrite Ht].
  by rewrite mk_token_id_str.
Qed.

(** *** Rows written and read back *)

Lemma read_client_row c : client_wf c -> read_client (as_str (client_id c)) (client_row c) = Ok c.
Proof.
  intros [Hp Hn]. unfold read_client, client_row. simpl. unfold principal_wf in Hp. unfold name_wf in Hn.
  rewrite Hp. simpl. rewrite Hn. simpl. by destruct c as [? ? [] ?].
Qed.

Lemma read_client_inv id row c :
  read_client id row = Ok c ->
  client_id c = mk_id id /\ client_wf c /\ client_enabled c = negb (cr_enabled row =? 0) /\
  read_client id (mk_client_row (cr_name row) 0 (cr_created_at row)) = Ok (set_enabled false c) /\
  read_client id (mk_client_row (cr_name row) 1 (cr_created_at row)) = Ok (set_enabled true c).
Proof.
  unfold read_client. intros (p & Hp & (n & Hn & [= <-])%result_bind_Ok)%result_bind_Ok. simpl.
  destruct (Identifier_new id) as [p'|] eqn:Hid; [|done]. injection Hp as ->.
  destruct (ClientName_new (cr_name row)) as [n'|] eqn:Hname; [|done]. injection Hn as ->.
  unfold Identifier_new in Hid. apply result_bind_Ok in Hid as ([] & Hv & [= <-]).
  split_and!; [done| |done..]. split; [unfold principal_wf, Identifier_new; simpl; by rewrite Hv|].
  unfold name_wf, ClientName_new in *. simpl. destruct (decide (trim (cr_name row) = [])) as [|Hne]; [done|].
  destruct (MAX_CLIENT_NAME_LENGTH <? str_len (trim (cr_name row))) eqn:Hlen; [done|]. injection Hname as <-. simpl.
  rewrite trim_idemp, Hlen. by destruct (decide (trim (cr_name row) = [])).
Qed.

Lemma validate_token_row t : token_wf t -> validate_token (token_id_str (tok_id t)) (token_row t) = Ok t.
Proof.
  intros (Hi & Hp & Hl & Hd). unfold validate_token, token_row. simpl.
  unfold token_id_wf, principal_wf, digest_wf in *. rewrite Hd, Hi, Hp. simpl.
  destruct t as [i p l d]; simpl in *. destruct l as [l|]; simpl; [|by destruct d]. rewrite (Hl l eq_refl). by destruct d.
Qed.

Lemma validate_token_inv id row t :
  validate_token id row = Ok t ->
  tok_id t = mk_token_id id /\ tok_client t = mk_id (tr_client_id row) /\ tok_expires_at t = tr_expires_at row /\
  tok_revoked_at t = tr_revoked_at row /\
  (forall at_, validate_token id (revoke_row at_ row) = Ok (mark_revoked at_ t)) /\ principal_wf (tok_client t).
Proof.
  unfold validate_token. simpl. destruct (negb (Nat.eqb (length (tr_digest row)) 32)); [done|].
  intros (i & Hi & (p & Hp & (l & Hl & [= <-])%result_bind_Ok)%result_bind_Ok)%result_bind_Ok. simpl.
  destruct (TokenId_new id) as [i'|] eqn:Hid; [|done]. injection Hi as ->.
  destruct (Identifier_new (tr_client_id row)) as [p'|] eqn:Hpr; [|done]. injection Hp as ->. simpl in Hl.
  unfold Identifier_new in Hpr. apply result_bind_Ok in Hpr as ([] & Hv & [= <-]).
  unfold TokenId_new in Hid. apply result_bind_Ok in Hid as (enc & _ & (bs & _ & Hid)%result_bind_Ok).
  destruct (negb _); [done|]. injection Hid as <-.
  split_and!; try done; [|unfold principal_wf, Identifier_new; simpl; by rewrite Hv].
  intros at_. simpl. rewrite Hl. done.
Qed.

(** A row that reads as a token holds what the constructors accept. *)
Lemma validate_token_wf id row t : validate_token id row = Ok t -> token_wf t.
Proof.
  unfold validate_token. destruct (Nat.eqb_spec (length (tr_digest row)) 32) as [Hd|]; [|done]. cbn [negb].
  intros (i & Hi%map_err_Ok & (p & Hp%map_err_Ok & (l & Hl%map_err_Ok & [= <-])%result_bind_Ok)%result_bind_Ok)%result_bind_Ok.
  unfold token_wf, token_id_wf, principal_wf, digest_wf. cbn. split_and!; [| | |done].
  - pose proof Hi as Hi'. unfold TokenId_new in Hi'. apply result_bind_Ok in Hi' as (enc & _ & (bs & _ & Hi')%result_bind_Ok).
    destruct (negb _); [done|]. injection Hi' as <-. exact Hi.
  - unfold Identifier_new in *. apply result_bind_Ok in Hp as ([] & Hv & [= <-]). cbn. by rewrite Hv.
  - intros x ->. destruct (tr_label row) as [s|]; [|done]. cbn in Hl. unfold TokenLabel_new in *.
    destruct (decide (trim s = [])) as [|Hne]; [done|]. destruct (_ <? _) eqn:Hlen; [done|]. injection Hl as <-. cbn [token_label_str].
    rewrite trim_idemp, Hlen. by destruct (decide (trim s = [])).
Qed.

(** *** The operations keep the contract *)
Implicit Types s : SqlCipherStore.

Lemma auth_ok_same s s' : sq_auth_ok s -> same_conn s s' -> sq_db s' = sq_db s -> sq_auth_ok s'.
Proof. intros [? ?] [_ ?] ?. split; congruence. Qed.

(** A read that leaves the tables alone, whatever is made of its result. *)
Lemma select_run {A R} (f : Database -> A) (k : A -> result StoreError R) (m : M R) s :
  m = (_ ← connection StoreUnavailable; raw ← with_err map_database_error (sql (select f)); lift (k raw)) ->
  let '(r, s') := m s in
  same_conn s s' /\ sq_db s' = sq_db s /\ forall x, r = Ok x -> k (f (sq_db s)) = Ok x.
Proof.
  intros ->. unfold connection, with_err, lift, mbind, action_bind. destruct (sq_poisoned s); [done|].
  pose proof (sql_spec (select f) s) as Hs. destruct (sql (select f) s) as [[a|e] s']; simpl.
  - destruct Hs as [? [= -> Hdb]]. done.
  - by destruct Hs as [? [? _]].
Qed.

(** An update, whatever is made of its result. *)
Lemma execute_run {A R} (f : Statement A) (k : A -> R) (m : M R) s :
  m = (_ ← connection StoreUnavailable; x ← with_err map_database_error (sql f); mret (k x)) ->
  let '(r, s') := m s in
  same_conn s s' /\
  match r with
  | Ok x => exists a, x = k a /\ f (sq_db s) = Ok (a, sq_db s')
  | Err _ => sq_db s' = sq_db s
  end.
Proof.
  intros ->. unfold connection, with_err, mret, action_ret, mbind, action_bind. destruct (sq_poisoned s); [done|].
  pose proof (sql_spec f s) as Hs. destruct (sql f s) as [[a|e] s']; simpl; destruct Hs as [? Hs]; [eauto|].
  by destruct Hs.
Qed.

Lemma collect_views {X Y} (f : X -> result StoreError Y) l bs :
  collect f l = Ok bs -> bs = omap (fun a => to_option (f a)) l.
Proof. rewrite collect_Ok. induction 1 as [|a b l bs Hab _ IH]; [done|]. simpl. fold_omap. by rewrite Hab, IH. Qed.

Lemma rows_ok_client db id row c :
  rows_ok db -> read_client id row = Ok c -> rows_ok (set_clients (<[id := row]> (t_clients db)) db).
Proof.
  intros [Hc Ht] Hr. split; simpl; [|done]. intros id' row'. destruct (decide (id' = id)) as [-> |Hne].
  - rewrite lookup_insert_eq. intros [= <-]. eauto.
  - rewrite lookup_insert_ne by done. eauto.
Qed.

Lemma rows_ok_token db id row t :
  rows_ok db -> validate_token id row = Ok t -> rows_ok (set_tokens (<[id := row]> (t_tokens db)) db).
Proof.
  intros [Hc Ht] Hr. split; simpl; [done|]. intros id' row'. destruct (decide (id' = id)) as [-> |Hne].
  - rewrite lookup_insert_eq. intros [= <-]. eauto.
  - rewrite lookup_insert_ne by done. eauto.
Qed.

Lemma sql_insert_client_ok id row db db' :
  sql_insert_client id row db = Ok (tt, db') ->
  t_clients db !! id = None /\ db' = set_clients (<[id := row]> (t_clients db)) db.
Proof.
  unfold sql_insert_client. destruct (_ || _) eqn:Hb; [done|]. intros [= <-]. bools. split; [|done].
  by apply eq_None_not_Some.
Qed.

Lemma sql_insert_token_ok id row db db' :
  sql_insert_token id row db = Ok (tt, db') ->
  t_tokens db !! id = None /\ db' = set_tokens (<[id := row]> (t_tokens db)) db.
Proof.
  unfold sql_insert_token. destruct (_ || _) eqn:Hb; [done|]. intros [= <-].
  apply orb_false_iff in Hb as [Hb _]. bools. split; [|done]. by apply eq_None_not_Some.
Qed.

Lemma sq_insert_client_spec c s :
  sq_auth_ok s -> client_wf c ->
  let '(r, s') := sq_insert_client c s in
  sq_auth_ok s' /\ tokens_view (sq_db s') = tokens_view (sq_db s) /\
  match r with
  | Ok _ => clients_view (sq_db s) !! client_id c = None /\
      clients_view (sq_db s') = <[client_id c := c]> (clients_view (sq_db s))
  | Err _ => clients_view (sq_db s') = clients_view (sq_db s)
  end.
Proof.
  intros Hok Hwf. unfold sq_insert_client, connection, with_err, mbind, action_bind. destruct (sq_poisoned s); [done|].
  pose proof (sql_spec (sql_insert_client (as_str (client_id c)) (client_row c)) s) as Hs.
  destruct (sql _ s) as [[[]|e] s']; simpl; destruct Hs as [Hconn Hs].
  - apply sql_insert_client_ok in Hs as [Hnew Hdb]. pose proof (read_client_row c Hwf) as Hr. destruct Hok as [Hroll Hrows].
    split; [split; [by destruct Hconn as [_ ->]|rewrite Hdb; by eapply rows_ok_client]|]. rewrite Hdb. split; [done|].
    rewrite clients_view_lookup, Hnew. split; [done|]. by apply clients_view_insert.
  - destruct Hs as [Hdb _]. rewrite Hdb. split; [by eapply auth_ok_same|done].
Qed.

Lemma sq_client_spec p s :
  sq_auth_ok s ->
  let '(r, s') := sq_client p s in
  sq_auth_ok s' /\ clients_view (sq_db s') = clients_view (sq_db s) /\ tokens_view (sq_db s') = tokens_view (sq_db s) /\
  forall o, r = Ok o -> o = clients_view (sq_db s) !! p.
Proof.
  intros Hok. pose proof (select_run (fun db => t_clients db !! as_str p) (transpose (read_client (as_str p))) (sq_client p) s eq_refl) as Hs.
  destruct (sq_client p s) as [r s']. destruct Hs as (Hconn & Hdb & Hr). rewrite Hdb.
  split; [by eapply auth_ok_same|]. split_and!; [done..|]. intros o Ho. specialize (Hr o Ho). rewrite clients_view_lookup.
  destruct (t_clients (sq_db s) !! as_str p) as [row|]; simpl in *; [|congruence].
  destruct (read_client (as_str p) row); simpl in *; congruence.
Qed.

Lemma sq_set_client_enabled_spec p b s :
  sq_auth_ok s ->
  let '(r, s') := sq_set_client_enabled p b s in
  sq_auth_ok s' /\ tokens_view (sq_db s') = tokens_view (sq_db s) /\
  match r with
  | Ok found => found = bool_decide (is_Some (clients_view (sq_db s) !! p)) /\
      clients_view (sq_db s') = alter (set_enabled b) p (clients_view (sq_db s))
  | Err _ => clients_view (sq_db s') = clients_view (sq_db s)
  end.
Proof.
  intros Hok. pose proof (execute_run (sql_set_client_enabled (sql_bool b) (as_str p)) (fun n => n =? 1) (sq_set_client_enabled p b) s eq_refl) as Hs.
  destruct (sq_set_client_enabled p b s) as [[found|e] s']; destruct Hs as [Hconn Hs].
  2:{ rewrite Hs. split; [by eapply auth_ok_same|done]. }
  destruct Hs as (n & -> & Hst). unfold sql_set_client_enabled in Hst. destruct Hok as [Hroll Hrows].
  destruct (t_clients (sq_db s) !! as_str p) as [row|] eqn:Hrow.
  - destruct (negb (in_range 0 1 (sql_bool b))) eqn:Hb; [by destruct b|]. injection Hst as <- Hdb. symmetry in Hdb.
    destruct (proj1 Hrows _ _ Hrow) as [c Hc]. destruct (read_client_inv _ _ _ Hc) as (_ & _ & _ & H0 & H1).
    assert (read_client (as_str p) (mk_client_row (cr_name row) (sql_bool b) (cr_created_at row)) = Ok (set_enabled b c)) as Hr
      by (by destruct b).
    assert (clients_view (sq_db s) !! p = Some c) as Hlk by (rewrite clients_view_lookup, Hrow; simpl; by rewrite Hc).
    rewrite Hdb. split; [split; [by destruct Hconn as [_ ->]|rewrite Hdb; by eapply rows_ok_client]|]. split; [done|].
    split; [by rewrite Hlk, bool_decide_true by eauto|]. rewrite (clients_view_insert _ _ _ _ Hr).
    apply map_eq. intros q. destruct (decide (q = p)) as [-> |Hne].
    + by rewrite lookup_insert_eq, lookup_alter_eq, Hlk.
    + by rewrite lookup_insert_ne, lookup_alter_ne.
  - injection Hst as <- Hdb. symmetry in Hdb. rewrite Hdb. split; [by eapply auth_ok_same|]. split; [done|].
    assert (clients_view (sq_db s) !! p = None) as Hlk by (by rewrite clients_view_lookup, Hrow).
    rewrite Hlk, bool_decide_false by (by intros []). split; [done|]. by rewrite alter_absent.
Qed.

Lemma sq_clients_spec s :
  sq_auth_ok s ->
  let '(r, s') := sq_clients s in
  sq_auth_ok s' /\ clients_view (sq_db s') = clients_view (sq_db s) /\ tokens_view (sq_db s') = tokens_view (sq_db s) /\
  forall l, r = Ok l -> l ≡ₚ (map_to_list (clients_view (sq_db s))).*2.
Proof.
  intros Hok. pose proof (select_run (fun db => btree_iter (t_clients db)) (collect (fun row => read_client row.1 row.2)) (sq_clients) s eq_refl) as Hs.
  destruct (sq_clients s) as [r s']. destruct Hs as (Hconn & Hdb & Hr). rewrite Hdb.
  split; [by eapply auth_ok_same|]. split_and!; [done..|]. intros l Hl. rewrite (collect_views _ _ _ (Hr l Hl)).
  unfold clients_view. rewrite (decoded_values mk_id as_str _ mk_id_as_str) by done. by rewrite btree_iter_perm.
Qed.

Lemma sq_insert_token_spec t s :
  sq_auth_ok s -> token_wf t ->
  let '(r, s') := sq_insert_token t s in
  sq_auth_ok s' /\ clients_view (sq_db s') = clients_view (sq_db s) /\
  match r with
  | Ok _ => tokens_view (sq_db s) !! tok_id t = None /\ tokens_view (sq_db s') = <[tok_id t := t]> (tokens_view (sq_db s))
  | Err _ => tokens_view (sq_db s') = tokens_view (sq_db s)
  end.
Proof.
  intros Hok Hwf. unfold sq_insert_token, connection, with_err, mbind, action_bind. destruct (sq_poisoned s); [done|].
  pose proof (sql_spec (sql_insert_token (token_id_str (tok_id t)) (token_row t)) s) as Hs.
  destruct (sql _ s) as [[[]|e] s']; simpl; destruct Hs as [Hconn Hs].
  - apply sql_insert_token_ok in Hs as [Hnew Hdb]. pose proof (validate_token_row t Hwf) as Hr. destruct Hok as [Hroll Hrows].
    split; [split; [by destruct Hconn as [_ ->]|rewrite Hdb; by eapply rows_ok_token]|]. rewrite Hdb. split; [done|].
    rewrite tokens_view_lookup, Hnew. split; [done|]. by apply tokens_view_insert.
  - destruct Hs as [Hdb _]. rewrite Hdb. split; [by eapply auth_ok_same|done].
Qed.

(** The joined row, if it reads back, is the token and its client. *)
Lemma token_with_client_view i db :
  rows_ok db ->
  match sql_token_with_client (token_id_str i) db with
  | None => forall t, tokens_view db !! i = Some t -> clients_view db !! tok_client t = None
  | Some (row, enabled) => t_tokens db !! token_id_str i = Some row /\
      exists t c, validate_token (token_id_str i) row = Ok t /\ tokens_view db !! i = Some t /\
        clients_view db !! tok_client t = Some c /\ client_enabled c = negb (enabled =? 0)
  end.
Proof.
  intros [Hc Ht]. unfold sql_token_with_client. rewrite tokens_view_lookup.
  destruct (t_tokens db !! token_id_str i) as [row|] eqn:Hrow; simpl; [|done]. destruct (Ht _ _ Hrow) as [t Hval].
  destruct (validate_token_inv _ _ _ Hval) as (_ & Hcl & _). rewrite Hval. simpl.
  destruct (t_clients db !! tr_client_id row) as [crow|] eqn:Hcrow; simpl.
  - split; [done|]. destruct (Hc _ _ Hcrow) as [c Hcr]. exists t, c. split_and!; [done..| |by apply read_client_inv in Hcr as (_ & _ & ? & _)].
    rewrite clients_view_lookup, Hcl. simpl. rewrite Hcrow. simpl. by rewrite Hcr.
  - intros ? [= <-]. rewrite clients_view_lookup, Hcl. simpl. by rewrite Hcrow.
Qed.

Lemma sq_authentication_record_spec i s :
  sq_auth_ok s ->
  let '(r, s') := sq_authentication_record i s in
  sq_auth_ok s' /\ clients_view (sq_db s') = clients_view (sq_db s) /\ tokens_view (sq_db s') = tokens_view (sq_db s) /\
  forall o, r = Ok o ->
    o = (t ← tokens_view (sq_db s) !! i; c ← clients_view (sq_db s) !! tok_client t; Some (mk_auth_record t (client_enabled c))).
Proof.
  intros Hok. pose proof (select_run (sql_token_with_client (token_id_str i)) (transpose (fun raw : TokenRow * Z =>
    token ← validate_token (token_id_str i) raw.1; Ok (mk_auth_record token (negb (raw.2 =? 0))))) (sq_authentication_record i) s eq_refl) as Hs.
  
  destruct (sq_authentication_record i s) as [r s']. destruct Hs as (Hconn & Hdb & Hr). rewrite Hdb.
  split; [by eapply auth_ok_same|]. split_and!; [done..|]. intros o Ho. specialize (Hr o Ho).
  pose proof (token_with_client_view i (sq_db s) (proj2 Hok)) as Hv.
  destruct (sql_token_with_client _ _) as [[row enabled]|]; simpl in Hr.
  - destruct Hv as (_ & t & c & Hval & -> & Hcl & Hen). simpl. rewrite Hcl. simpl. rewrite Hval in Hr. simpl in Hr. congruence.
  - destruct (tokens_view (sq_db s) !! i) as [t|]; simpl; [rewrite (Hv t eq_refl)|]; simpl; congruence.
Qed.

(** A revocation of the row is a revocation of the token. *)
Lemma sql_revoke_view at_ i unless n db db' :
  rows_ok db -> sql_revoke at_ (token_id_str i) unless db = Ok (n, db') ->
  rows_ok db' /\ clients_view db' = clients_view db /\
  ((n = 1 /\ tokens_view db' = alter (mark_revoked at_) i (tokens_view db) /\
    exists t, tokens_view db !! i = Some t /\ tok_revoked_at t = None /\ (unless = true -> is_active_at t at_ = true)) \/
   (n = 0 /\ db' = db /\
    forall t, tokens_view db !! i = Some t -> tok_revoked_at t = None -> unless = true /\ is_active_at t at_ = false)).
Proof.
  intros Hrows. unfold sql_revoke. rewrite tokens_view_lookup.
  destruct (t_tokens db !! token_id_str i) as [row|] eqn:Hrow; simpl.
  2:{ intros [= <- <-]. split_and!; [done..|]. by right. }
  destruct (proj2 Hrows _ _ Hrow) as [t Hval]. destruct (validate_token_inv _ _ _ Hval) as (_ & _ & He & Hr & Hrev & _).
  rewrite Hval. simpl. destruct (_ && _) eqn:Hcond; intros [= <- <-].
  - apply andb_true_iff in Hcond as [Hnone%bool_decide_eq_true Hun]. split; [by eapply rows_ok_token|]. split; [done|].
    left. split; [done|]. split.
    + rewrite (tokens_view_insert db i _ _ (Hrev at_)). apply map_eq. intros q. destruct (decide (q = i)) as [-> |Hne].
      * by rewrite lookup_insert_eq, lookup_alter_eq, tokens_view_lookup, Hrow; simpl; rewrite Hval.
      * by rewrite lookup_insert_ne, lookup_alter_ne.
    + exists t. split_and!; [done|congruence|]. intros ->. unfold is_active_at, unexpired. rewrite He, Hr.
      by rewrite bool_decide_true.
  - split_and!; [done..|]. right. split_and!; [done..|]. intros ? [= <-] Hn. rewrite Hr in Hn. rewrite bool_decide_true in Hcond by done.
    simpl in Hcond. apply orb_false_iff in Hcond as [Hu Hx]. apply negb_false_iff in Hu. split; [done|].
    unfold is_active_at, unexpired. by rewrite He, Hx, andb_false_r.
Qed.

Lemma sq_revoke_token_spec i at_ s :
  sq_auth_ok s ->
  let '(r, s') := sq_revoke_token i at_ s in
  sq_auth_ok s' /\ clients_view (sq_db s') = clients_view (sq_db s) /\
  match r with
  | Ok true => (exists t, tokens_view (sq_db s) !! i = Some t /\ is_active_at t at_ = true) /\
      tokens_view (sq_db s') = alter (mark_revoked at_) i (tokens_view (sq_db s))
  | Ok false => (forall t, tokens_view (sq_db s) !! i = Some t -> is_active_at t at_ = false) /\
      tokens_view (sq_db s') = tokens_view (sq_db s)
  | Err _ => tokens_view (sq_db s') = tokens_view (sq_db s)
  end.
Proof.
  intros Hok. pose proof (execute_run (sql_revoke at_ (token_id_str i) true) (fun n => n =? 1) (sq_revoke_token i at_) s eq_refl) as Hs.
  destruct (sq_revoke_token i at_ s) as [[changed|e] s']; destruct Hs as [Hconn Hs].
  2:{ rewrite Hs. split; [by eapply auth_ok_same|]. by destruct e. }
  destruct Hs as (n & -> & Hst). destruct Hok as [Hroll Hrows].
  destruct (sql_revoke_view _ _ _ _ _ _ Hrows Hst) as (Hrows' & Hc & Hcase).
  split; [split; [by destruct Hconn as [_ ->]|done]|]. split; [done|].
  destruct Hcase as [(-> & Ht & t & Hlk & _ & Hact)|(-> & Hdb & Hin)]; simpl.
  - split; [|done]. exists t. auto.
  - split; [|by rewrite Hdb]. intros t Hlk. destruct (decide (tok_revoked_at t = None)) as [Hn|Hn]; [by apply Hin|].
    unfold is_active_at. by rewrite bool_decide_false.
Qed.

(** What a rotation did, on the tables. *)
Definition rotation_post (i : TokenId) (rep : TokenReplacement) (at_ : Z) (db : Database)
    (r : result StoreError RotationOutcome) (db' : Database) : Prop :=
  rows_ok db' /\ clients_view db' = clients_view db /\
  match r with
  | Ok (Rotated p) => exists t c, tokens_view db !! i = Some t /\ tok_client t = p /\ is_active_at t at_ = true /\
      clients_view db !! p = Some c /\ client_enabled c = true /\ tokens_view db !! rep_id rep = None /\
      tokens_view db' = alter (mark_revoked at_) i (<[rep_id rep := into_record rep p]> (tokens_view db))
  | Ok RotationNotFound => tokens_view db' = tokens_view db /\
      (forall t, tokens_view db !! i = Some t -> clients_view db !! tok_client t = None)
  | Ok RotationInactive => tokens_view db' = tokens_view db /\
      exists t, tokens_view db !! i = Some t /\ is_active_at t at_ = false
  | Ok RotationClientDisabled => tokens_view db' = tokens_view db /\
      exists t c, tokens_view db !! i = Some t /\ clients_view db !! tok_client t = Some c /\ client_enabled c = false
  | Err _ => tokens_view db' = tokens_view db
  end.

(** The two statements of a rotation and its commit. *)
Lemma rotate_commit_spec i rep t c at_ s1 db :
  sq_db s1 = db -> sq_rollback s1 = Some db -> rows_ok db -> replacement_wf rep ->
  tokens_view db !! i = Some t -> is_active_at t at_ = true -> principal_wf (tok_client t) ->
  clients_view db !! tok_client t = Some c -> client_enabled c = true ->
  let record := into_record rep (tok_client t) in
  let '(r, s2) := (_ ← with_err map_database_error (sql (sql_insert_token (token_id_str (tok_id record)) (token_row record)));
     changed ← with_err map_database_error (sql (sql_revoke at_ (token_id_str i) false));
     if negb (changed =? 1) then raise StoreUnavailable
     else _ ← with_err map_database_error commit; mret (Rotated (tok_client t))) s1 in
  sq_poisoned s2 = sq_poisoned s1 /\ rotation_post i rep at_ db r (default (sq_db s2) (sq_rollback s2)).
Proof.
  intros Hdb Hroll Hrows (Hid & Hlab & Hdig) Ht Hact Hp Hc Hen record.
  assert (token_wf record) as Hwf by done. pose proof (validate_token_row record Hwf) as Hval.
  rewrite bind_run. pose proof (exec_spec map_database_error (sql_insert_token (token_id_str (tok_id record)) (token_row record)) s1) as Hins.
  destruct (with_err _ _ s1) as [[[]|e] s2]; destruct Hins as [[Hp2 Hr2] Hins].
  2:{ split; [done|]. by rewrite Hr2, Hroll. }
  rewrite Hdb in Hins. apply sql_insert_token_ok in Hins as [Hnew Hdb2].
  rewrite bind_run. pose proof (exec_spec map_database_error (sql_revoke at_ (token_id_str i) false) s2) as Hrev.
  destruct (with_err _ _ s2) as [[n|e] s3]; destruct Hrev as [[Hp3 Hr3] Hrev].
  2:{ split; [congruence|]. by rewrite Hr3, Hr2, Hroll. }
  assert (rows_ok (sq_db s2)) as Hrows2 by (rewrite Hdb2; by eapply rows_ok_token).
  destruct (sql_revoke_view _ _ _ _ _ _ Hrows2 Hrev) as (Hrows3 & Hc3 & Hcase).
  destruct Hcase as [(-> & Ht3 & _)|(-> & _)].
  2:{ split; [simpl; congruence|]. simpl. by rewrite Hr3, Hr2, Hroll. }
  change (negb (1 =? 1)) with false. cbv iota. rewrite bind_run. pose proof (exec_commit_spec map_database_error s3) as Hcm.
  destruct (with_err _ _ s3) as [[[]|e] s4]; destruct Hcm as (Hp4 & Hdb4 & Hr4).
  2:{ split; [congruence|]. by rewrite Hr4, Hr3, Hr2, Hroll. }
  split; [congruence|]. rewrite Hr4. simpl. rewrite Hdb4. split; [done|]. rewrite Hc3, Hdb2. split; [done|].
  exists t, c. split_and!; try done.
  - rewrite tokens_view_lookup. simpl in Hnew. by rewrite Hnew.
  - rewrite Ht3, Hdb2. f_equal. exact (tokens_view_insert db (rep_id rep) _ _ Hval).
Qed.

Lemma sq_rotate_token_spec i rep at_ s :
  sq_auth_ok s -> replacement_wf rep ->
  let '(r, s') := sq_rotate_token i rep at_ s in
  sq_rollback s' = None /\ rotation_post i rep at_ (sq_db s) r (sq_db s').
Proof.
  intros [Hroll Hrows] Hwf. unfold sq_rotate_token. rewrite bind_run. unfold connection.
  assert (forall e, rotation_post i rep at_ (sq_db s) (Err e) (sq_db s)) as Herr by done.
  destruct (sq_poisoned s); [done|].
  match goal with |- let '(_, _) := transaction ?f ?b s in _ =>
    pose proof (transaction_spec (rotation_post i rep at_ (sq_db s)) f b s Herr) as Htx; destruct (transaction f b s) as [r s'] end.
  destruct Htx as [[_ Hr] Hpost]; [|done|split; [congruence|done]].
  intros s1 Hdb1 Hroll1. rewrite bind_run.
  pose proof (exec_spec map_database_error (select (sql_token_with_client (token_id_str i))) s1) as Hsel.
  destruct (with_err _ _ s1) as [[raw|e] s2]; destruct Hsel as [[Hp2 Hr2] Hsel].
  2:{ split; [done|]. by rewrite Hr2, Hroll1. }
  injection Hsel as <- Hdb2. rewrite Hdb1 in Hdb2 |- *. pose proof (token_with_client_view i (sq_db s) Hrows) as Hv.
  destruct (sql_token_with_client _ _) as [[row enabled]|]; [|split; [done|]; by rewrite Hr2, Hroll1].
  destruct Hv as (Hrow & t & c & Hval & Ht & Hc & Hen). rewrite Hval, bind_run. cbn [lift].
  destruct (enabled =? 0) eqn:He.
  { split; [done|]. simpl. rewrite Hr2, Hroll1. split_and!; [done..|]. eauto. }
  destruct (is_active_at t at_) eqn:Hact; cbn [negb].
  2:{ split; [done|]. simpl. rewrite Hr2, Hroll1. split_and!; [done..|]. eauto. }
  pose proof (rotate_commit_spec i rep t c at_ s2 (sq_db s) (eq_sym Hdb2)) as Hrot.
  rewrite Hr2 in Hrot. specialize (Hrot Hroll1 Hrows Hwf Ht Hact).
  rewrite <-Hp2. apply Hrot; [|done..]. by apply validate_token_inv in Hval as (_ & _ & _ & _ & _ & ?).
Qed.

Lemma filter_validated p (rows : list (rstr * TokenRow)) :
  omap (fun x : rstr * TokenRow => to_option (validate_token x.1 x.2)) (filter (fun x => tr_client_id x.2 = as_str p) rows) =
  filter (fun t => tok_client t = p) (omap (fun x : rstr * TokenRow => to_option (validate_token x.1 x.2)) rows).
Proof.
  induction rows as [|[id row] rows IH]; [done|]. rewrite filter_cons. simpl. fold_omap.
  destruct (validate_token id row) as [t|] eqn:Hval; simpl.
  - destruct (validate_token_inv _ _ _ Hval) as (_ & Hc & _). rewrite filter_cons.
    destruct (decide (tr_client_id row = as_str p)) as [Heq|Hne].
    + rewrite decide_True by (rewrite Hc, Heq; apply mk_id_as_str). simpl. fold_omap. rewrite Hval. simpl. by rewrite IH.
    + rewrite decide_False; [done|]. rewrite Hc. intros <-. done.
  - destruct (decide (tr_client_id row = as_str p)); [|done]. simpl. fold_omap. by rewrite Hval.
Qed.

Lemma sq_tokens_for_client_spec p s :
  sq_auth_ok s ->
  let '(r, s') := sq_tokens_for_client p s in
  sq_auth_ok s' /\ clients_view (sq_db s') = clients_view (sq_db s) /\ tokens_view (sq_db s') = tokens_view (sq_db s) /\
  forall l, r = Ok l -> l ≡ₚ filter (fun t => tok_client t = p) (map_to_list (tokens_view (sq_db s))).*2.
Proof.
  intros Hok. pose proof (select_run (fun db => merge_sort token_row_le
    (filter (fun x : rstr * TokenRow => tr_client_id x.2 = as_str p) (map_to_list (t_tokens db))))
    (collect (fun row => validate_token row.1 row.2)) (sq_tokens_for_client p) s eq_refl) as Hs.
  destruct (sq_tokens_for_client p s) as [r s']. destruct Hs as (Hconn & Hdb & Hr). rewrite Hdb.
  split; [by eapply auth_ok_same|]. split_and!; [done..|]. intros l Hl. rewrite (collect_views _ _ _ (Hr l Hl)).
  unfold tokens_view. rewrite (decoded_values mk_token_id token_id_str _ mk_token_id_str) by done.
  rewrite merge_sort_Permutation. by rewrite filter_validated.
Qed.

#[global] Program Instance SqlCipherStore_AuthStoreSpec : AuthStoreSpec SqlCipherStore := {|
  auth_ok := sq_auth_ok;
  clients_of s := clients_view (sq_db s);
  tokens_of s := tokens_view (sq_db s);
|}.
Next Obligation.
  intros s p c [_ [Hc _]] Hlk. rewrite clients_view_lookup in Hlk.
  destruct (t_clients (sq_db s) !! as_str p) as [row|] eqn:Hrow; [|done]. simpl in Hlk. destruct (Hc _ _ Hrow) as [c' Hc'].
  rewrite Hc' in Hlk. injection Hlk as ->. destruct (read_client_inv _ _ _ Hc') as (Hid & Hwf & _).
  by rewrite Hid, mk_id_as_str.
Qed.
Next Obligation. exact sq_insert_client_spec. Qed.
Next Obligation. exact sq_client_spec. Qed.
Next Obligation. exact sq_clients_spec. Qed.
Next Obligation. exact sq_set_client_enabled_spec. Qed.
Next Obligation. exact sq_insert_token_spec. Qed.
Next Obligation. exact sq_authentication_record_spec. Qed.
Next Obligation. exact sq_revoke_token_spec. Qed.
Next Obligation.
  intros i rep at_ s Hok Hwf. pose proof (sq_rotate_token_spec i rep at_ s Hok Hwf) as Hs.
  change (store_rotate_token i rep at_ s) with (sq_rotate_token i rep at_ s).
  destruct (sq_rotate_token i rep at_ s) as [r s']. destruct Hs as (Hr & Hrows & Hrest). done.
Qed.
Next Obligation. exact sq_tokens_for_client_spec. Qed.
End auth.
