(* ===== verification/AuthProps.v ===== *)
(** * AuthProps: what authentication guarantees

    The theorems of the authentication manager over any store that keeps the contract of
    [AuthStoreSpec], and runs of it on the encrypted store. *)

From S2P Require Import Prelude Text Crypto Identifiers Base64 Capability Policy Auth AuthManager Sqlite SqlAuth.

Section props.
Context `{B : Base64} `{D : Sha256} `{Env : AuthEnv} {T : Type} `{St : AuthStore T}.
Context `{BS : !Base64Spec} `{DS : !Sha256Spec} `{EnvOk : !AuthEnvOk} `{Sp : !AuthStoreSpec T}.
Implicit Types m : AuthManager T.
#[local] Abbreviation cl m := (clients_of (am_store m)).
#[local] Abbreviation tk m := (tokens_of (am_store m)).

Definition no_tokens : Ledger := mk_ledger ∅ ∅.

(** C12: authentication follows the answers the manager gave.  Start from a store without
    clients and tokens and make any calls, with the store, the clock and the random source
    failing at any point.  A presented text is then accepted exactly if those answers say
    so: it is the text of a token that was handed out (same identifier, a secret with the
    same digest), the token was not revoked or rotated away since, it has not expired, and
    its client is enabled; the principal returned is the client the token was issued for.
    Everything else is rejected alike, or reported as unavailable if the store or the clock
    could not be read. *)
Theorem authentication_matches_history ops m presented :
  auth_ok (am_store m) -> clients_of (am_store m) = ∅ -> tokens_of (am_store m) = ∅ -> Forall op_wf ops ->
  let '(history, m') := auth_run ops m in
  (authenticate presented m').1 = expected (ledger_of history no_tokens) presented m'.
Proof.
  intros Hok Hc Ht Hwf. pose proof (auth_run_agrees ops m no_tokens) as Hag.
  destruct (auth_run ops m) as [history m']. apply authenticate_spec, Hag; [|done].
  split; [done|]. by rewrite Hc, Ht, !fmap_empty.
Qed.

(** The answers that end the life of a token. *)
Definition ends (id : TokenId) (op : AuthOp) (ans : AuthAnswer) : Prop :=
  match op, ans with
  | OpRevokeToken id', AnsRevoked (Ok true) => id' = id
  | OpRotateToken id' _ _, AnsIssued (Ok _) => id' = id
  | _, _ => False
  end.

Lemma ends_revoked id op ans m m' : ends id op ans -> auth_effect m m' op ans -> revoked_in id m'.
Proof.
  intros Hends He. unfold revoked_in. destruct He as
    [op ans _ _ Hn|? ? ? ? ? ? ?|? ? ? ? ? ?|? ? ? ? ? ? ? ? ? ? ? ? ? ? ?|id' at_ t Hlk _ _ ->|id' ? ? at_ t t' ? ? Hlk _ _ _ _ _ _ _ _ _ ->];
    simpl in Hends; try done; subst.
  - by destruct op, ans as [| | |[]| |[[]|]|].
  - rewrite lookup_insert_eq. by eexists.
  - rewrite lookup_insert_eq. by eexists.
Qed.

(** C13: a revocation is final.  Once a token was reported revoked, or was replaced by a
    rotation, no later sequence of calls makes any presented text that names it
    authenticate again: not issuing further tokens, not enabling its client, not rotating
    other tokens, and no failure of the store in between. *)
Theorem revocation_is_permanent op ans m m1 id ops history m2 presented p :
  auth_ok (am_store m) -> op_wf op -> auth_apply op m = (ans, m1) -> ends id op ans ->
  Forall op_wf ops -> auth_run ops m1 = (history, m2) ->
  PresentedToken_parse presented = Ok p -> pres_id p = id ->
  is_ok (authenticate presented m2).1 = false.
Proof.
  intros Hok Hop Happ Hends Hops Hrun Hparse Hid.
  pose proof (auth_apply_effect op m Hok Hop) as He. rewrite Happ in He. destruct He as [Hok1 He].
  destruct (auth_run_keeps (revoked_in id) (fun _ => True) ops m1 history m2) as [Hok2 (t & Ht & Hr)]; try done.
  { intros op' ans' n n' _. by apply effect_keeps_revoked. } { by apply Forall_true. } { by eapply ends_revoked. }
  pose (l := mk_ledger (entry_of <$> tk m2) (client_enabled <$> cl m2)).
  destruct (authenticate_spec l presented m2) as [-> _]; [done|]. unfold expected. rewrite Hparse.
  destruct (authentication_record _ _) as [[] ?]; simpl; [|done]. destruct (clock_at _) as [now|]; simpl; [|done].
  rewrite (ledger_accepts_record l p now m2) by done. rewrite Hid, Ht. simpl. destruct (cl m2 !! _); simpl; [|done].
  unfold is_active_at. by rewrite bool_decide_false, andb_false_r by done.
Qed.

(** C14: a token that was handed out works until its time is over.  If a call answered with
    an issued token, by issuing it or as the replacement of a rotation, then after any calls
    that do not revoke or rotate that token or disable its client, presenting the text that
    was handed out yields the principal of its client before the expiry, a rejection after
    it, and an error only if the store or the clock cannot be read. *)
Theorem issued_token_accepted op i m m1 ops history m2 :
  auth_ok (am_store m) -> op_wf op -> auth_apply op m = (AnsIssued (Ok i), m1) ->
  Forall op_wf ops -> Forall (spares (md_id (iss_metadata i)) (md_client (iss_metadata i))) ops ->
  auth_run ops m1 = (history, m2) ->
  (authenticate (iss_secret i) m2).1 =
  match (authentication_record (md_id (iss_metadata i)) (am_store m2)).1, clock_at (am_tick m2) with
  | Ok _, Ok now => if unexpired (md_expires_at (iss_metadata i)) now
                    then Ok (mk_principal (md_client (iss_metadata i)) Application) else Err AuthRejected
  | _, _ => Err AuthStorageUnavailable
  end.
Proof.
  intros Hok Hop Happ Hops Hsp Hrun. pose proof (auth_apply_effect op m Hok Hop) as He. rewrite Happ in He.
  destruct He as [Hok1 He].
  assert (exists digest, PresentedToken_parse (iss_secret i) = Ok (mk_presented (md_id (iss_metadata i)) digest) /\
    usable (md_id (iss_metadata i)) (md_client (iss_metadata i)) digest (md_expires_at (iss_metadata i)) m1) as (digest & Hparse & Hus).
  { by apply effect_issued_usable in He. }
  destruct (auth_run_keeps (usable _ _ digest _) _ ops m1 history m2
    (fun op' ans' n n' => effect_keeps_usable _ _ _ _ op' ans' n n') Hok1 Hops Hsp Hrun Hus) as [Hok2 [(t & Ht & Hcl & Hd & Hx & Hr) (c & Hc & Hen)]].
  pose (l := mk_ledger (entry_of <$> tk m2) (client_enabled <$> cl m2)).
  destruct (authenticate_spec l (iss_secret i) m2) as [-> _]; [done|]. unfold expected. rewrite Hparse. simpl.
  destruct (authentication_record _ _) as [[] ?]; simpl; [|done]. destruct (clock_at _) as [now|]; simpl; [|done].
  rewrite (ledger_accepts_record l _ now m2) by done. simpl. rewrite Ht. simpl. rewrite Hcl, Hc. simpl.
  unfold PresentedToken_matches, TokenDigest_matches, is_active_at. simpl.
  rewrite Hd, Hr, Hx, Hen, !bool_decide_true, andb_true_r by done. simpl. by destruct (unexpired _ now).
Qed.
End props.

(** C15: a rotation in the encrypted store is atomic.  Whichever statement of it fails, or
    the commit itself, the store is left as it was or with both changes made: the old
    token revoked and the replacement present for the same client.  It is made only for a
    token that is active at that time and whose client is enabled, under an identifier
    that was not in use. *)
Theorem sqlcipher_rotation_atomic `{Base64} `{SqlEnv} i rep at_ (s : SqlCipherStore) :
  sq_auth_ok s -> replacement_wf rep ->
  let '(r, s') := sq_rotate_token i rep at_ s in
  sq_auth_ok s' /\ clients_view (sq_db s') = clients_view (sq_db s) /\
  match r with
  | Ok (Rotated p) => exists t c, tokens_view (sq_db s) !! i = Some t /\ tok_client t = p /\ is_active_at t at_ = true /\
      clients_view (sq_db s) !! p = Some c /\ client_enabled c = true /\ tokens_view (sq_db s) !! rep_id rep = None /\
      tokens_view (sq_db s') !! i = Some (mark_revoked at_ t) /\
      tokens_view (sq_db s') !! rep_id rep = Some (into_record rep p) /\
      forall j, j <> i -> j <> rep_id rep -> tokens_view (sq_db s') !! j = tokens_view (sq_db s) !! j
  | _ => tokens_view (sq_db s') = tokens_view (sq_db s)
  end.
Proof.
  intros Hok Hwf. pose proof (sq_rotate_token_spec i rep at_ s Hok Hwf) as Hs.
  destruct (sq_rotate_token i rep at_ s) as [r s']. destruct Hs as (Hroll & Hrows & Hc & Hr). split_and!; [done..|].
  destruct r as [[p| | |]|]; try done; try apply Hr.
  destruct Hr as (t & c & Ht & Hp & Hact & Hcl & Hen & Hnew & Heq). exists t, c. split_and!; try done; rewrite Heq.
  - by rewrite lookup_alter_eq, lookup_insert_ne, Ht by congruence.
  - by rewrite lookup_alter_ne, lookup_insert_eq by congruence.
  - intros j Hj Hrep. by rewrite lookup_alter_ne, lookup_insert_ne by congruence.
Qed.

(** ** Runs on the encrypted store

    A digest of the right length, a random source that counts, a clock that advances one
    second at every read, and a database whose statements succeed. *)
#[local] Instance ex_base64 : Base64 := url_safe_no_pad.
#[local] Instance ex_base64_spec : Base64Spec := url_safe_no_pad_spec.
#[local] Instance ex_sha256 : Sha256 := fun bs => take 32 (bs ++ replicate 32 0).
#[local] Instance ex_sha256_spec : Sha256Spec.
Proof. intros bs. unfold sha256, ex_sha256. rewrite length_take, length_app, length_replicate. lia. Qed.
#[local] Instance ex_auth_env : AuthEnv := {
  entropy n len := Some (replicate len (Z.of_nat n mod 256));
  system_time n := Some (from_secs (1000 + Z.of_nat n));
}.
#[local] Instance ex_auth_env_ok : AuthEnvOk.
Proof.
  intros n len bs [= <-]. split; [|apply length_replicate]. apply Forall_replicate, in_range_spec.
  pose proof (Z.mod_pos_bound (Z.of_nat n) 256). lia.
Qed.
#[local] Instance ex_sql_env : SqlEnv := fun _ => false.

Definition ex_manager : AuthManager SqlCipherStore := mk_manager (mk_sql_store false migrate_from_empty None 0) 0.

Lemma ex_manager_ok : auth_ok (am_store ex_manager).
Proof. split; [done|]. split; intros id row; simpl; by rewrite lookup_empty. Qed.

Definition ex_name : ClientName := mk_client_name (str "desk").
Definition ex_client : PrincipalId := mk_id (str "client_" ++ b64_encode (replicate 16 1)).

Lemma ex_name_wf : name_wf ex_name.
Proof. vm_compute. reflexivity. Qed.
Lemma no_label_wf : label_wf None.
Proof. done. Qed.

(** The calls of a run pass valid names and labels. *)
Ltac ops_wf := repeat (apply Forall_cons; split; [first [exact ex_name_wf|exact no_label_wf|exact I]|]); apply Forall_nil; exact I.

(** A client, a token for an hour, a second client: then the token is presented. *)
Definition ex_issue : AuthOp := OpIssueToken ex_client None (Some (from_secs 3600)).
Definition ex_prefix : AuthManager SqlCipherStore := (auth_run [OpCreateClient ex_name] ex_manager).2.
Definition ex_issued : IssuedToken :=
  match auth_apply ex_issue ex_prefix with (AnsIssued (Ok i), _) => i | _ => mk_issued (mk_metadata (mk_token_id []) (mk_id []) None 0 None None) [] end.
Definition ex_token : TokenId := md_id (iss_metadata ex_issued).

Lemma authentication_matches_history_witness :
  let ops := [OpCreateClient ex_name; ex_issue; OpCreateClient ex_name] in
  let m := (auth_run ops ex_manager).2 in
  expected (ledger_of (auth_run ops ex_manager).1 no_tokens) (iss_secret ex_issued) m = Ok (mk_principal ex_client Application) /\
  (authenticate (iss_secret ex_issued) m).1 = Ok (mk_principal ex_client Application).
Proof.
  intros ops m. assert (expected (ledger_of (auth_run ops ex_manager).1 no_tokens) (iss_secret ex_issued) m =
    Ok (mk_principal ex_client Application)) as He by (vm_compute; reflexivity).
  split; [exact He|].
  pose proof (authentication_matches_history ops ex_manager (iss_secret ex_issued) ex_manager_ok) as Hthm.
  assert (clients_of (am_store ex_manager) = ∅) as Hc by (vm_compute; reflexivity).
  assert (tokens_of (am_store ex_manager) = ∅) as Ht by (vm_compute; reflexivity).
  assert (Forall op_wf ops) as Hwf by ops_wf.
  specialize (Hthm Hc Ht Hwf). unfold m in *. destruct (auth_run ops ex_manager) as [h m']. exact (eq_trans Hthm He).
Defined.

Lemma ex_run_ok ops : Forall op_wf ops -> auth_ok (am_store (auth_run ops ex_manager).2).
Proof.
  intros Hwf. pose proof (auth_run_agrees ops ex_manager no_tokens) as Hag. destruct (auth_run ops ex_manager).
  apply Hag; [|done]. split; [apply ex_manager_ok|]. split; vm_compute; reflexivity.
Qed.

Lemma revocation_is_permanent_witness :
  let m := (auth_run [OpCreateClient ex_name; ex_issue] ex_manager).2 in
  let m1 := (auth_apply (OpRevokeToken ex_token) m).2 in
  let m2 := (auth_run [OpCreateClient ex_name; OpSetClientEnabled ex_client true; ex_issue] m1).2 in
  is_ok (authenticate (iss_secret ex_issued) m).1 = true /\ is_ok (authenticate (iss_secret ex_issued) m2).1 = false.
Proof.
  split; [vm_compute; reflexivity|].
  set (m := (auth_run [OpCreateClient ex_name; ex_issue] ex_manager).2).
  assert (auth_ok (am_store m)) as Hok by (apply ex_run_ok; ops_wf).
  eapply (revocation_is_permanent (OpRevokeToken ex_token) (AnsRevoked (Ok true)) m _ ex_token
    [OpCreateClient ex_name; OpSetClientEnabled ex_client true; ex_issue] _ _ (iss_secret ex_issued)
    (mk_presented ex_token (mk_digest (replicate 32 4)))); [exact Hok|done| |done| | | |done].
  - assert ((auth_apply (OpRevokeToken ex_token) m).1 = AnsRevoked (Ok true)) as Ha by (vm_compute; reflexivity).
    rewrite <-Ha. apply surjective_pairing.
  - ops_wf.
  - apply surjective_pairing.
  - vm_compute; reflexivity.
Defined.

Lemma issued_token_accepted_witness :
  let m := (auth_run [OpCreateClient ex_name] ex_manager).2 in
  let m2 := (auth_run [OpCreateClient ex_name; ex_issue; OpClients] (auth_apply ex_issue m).2).2 in
  (authenticate (iss_secret ex_issued) m2).1 = Ok (mk_principal ex_client Application).
Proof.
  intros m m2. unfold m2. set (ops := [OpCreateClient ex_name; ex_issue; OpClients]).
  etrans; [apply (issued_token_accepted ex_issue ex_issued m (auth_apply ex_issue m).2 ops
    (auth_run ops (auth_apply ex_issue m).2).1 (auth_run ops (auth_apply ex_issue m).2).2)|vm_compute; reflexivity].
  - apply ex_run_ok. ops_wf.
  - done.
  - assert ((auth_apply ex_issue m).1 = AnsIssued (Ok ex_issued)) as Ha by (vm_compute; reflexivity).
    rewrite <-Ha. apply surjective_pairing.
  - ops_wf.
  - by repeat constructor.
  - apply surjective_pairing.
Defined.

Definition ex_replacement : TokenReplacement :=
  mk_replacement (mk_token_id (TOKEN_ID_PREFIX ++ b64_encode (replicate 16 9))) None (mk_digest (replicate 32 9)) 1010 None.

Lemma sqlcipher_rotation_atomic_witness :
  let s := am_store (auth_run [OpCreateClient ex_name; ex_issue] ex_manager).2 in
  (sq_rotate_token ex_token ex_replacement 1010 s).1 = Ok (Rotated ex_client) /\
  tokens_view (sq_db (sq_rotate_token ex_token ex_replacement 1010 s).2) !! rep_id ex_replacement =
    Some (into_record ex_replacement ex_client).
Proof.
  intros s. assert ((sq_rotate_token ex_token ex_replacement 1010 s).1 = Ok (Rotated ex_client)) as Hr by (vm_compute; reflexivity).
  split; [exact Hr|]. pose proof (sqlcipher_rotation_atomic ex_token ex_replacement 1010 s) as Hthm.
  destruct (sq_rotate_token ex_token ex_replacement 1010 s) as [r s']. simpl in Hr. subst r. simpl.
  destruct Hthm as (_ & _ & t & c & _ & _ & _ & _ & _ & _ & _ & Hnew & _); [|by repeat split|exact Hnew].
  apply (ex_run_ok [OpCreateClient ex_name; ex_issue]). ops_wf.
Defined.
