(* ===== verification/SqlGrants.v ===== *)
(** * SqlGrants: grants in the encrypted store (bondry-store-sqlcipher/src/grants.rs)

    [GrantStoreSpec] states what the trait [GrantStore] of bondry-core promises of a
    durable set of grants; the encrypted store keeps it, and [StoredGrantPolicy] over such
    a store decides as the answered updates say. *)

From S2P Require Import Prelude Text Identifiers Capability Policy Sqlite.

(** ** The contract of [GrantStore] *)

Definition grant_wf (g : CapabilityGrant) : Prop :=
  @Identifier_new KPrincipal (as_str (grant_principal g)) = Ok (grant_principal g) /\
  @Identifier_new KAdapter (as_str (grant_adapter g)) = Ok (grant_adapter g) /\
  @Identifier_new KCapability (as_str (grant_capability g)) = Ok (grant_capability g).

Class GrantStoreSpec (S : Type) `{GrantStore S} := {
  grants_ok : S -> Prop;
  grants_of : S -> gset CapabilityGrant;
  add_grant_spec g s : grants_ok s -> grant_wf g ->
    let '(r, s') := add_grant g s in
    grants_ok s' /\
    match r with
    | Ok added => added = bool_decide (g ∉ grants_of s) /\ grants_of s' = {[g]} ∪ grants_of s
    | Err _ => grants_of s' = grants_of s
    end;
  remove_grant_spec g s : grants_ok s ->
    let '(r, s') := remove_grant g s in
    grants_ok s' /\
    match r with
    | Ok removed => removed = bool_decide (g ∈ grants_of s) /\ grants_of s' = grants_of s ∖ {[g]}
    | Err _ => grants_of s' = grants_of s
    end;
  contains_grant_spec p a c s b : grants_ok s ->
    contains_grant p a c s = Ok b -> b = bool_decide (mk_grant p a c ∈ grants_of s);
  grants_for_principal_spec p s l : grants_ok s ->
    grants_for_principal p s = Ok l ->
    NoDup l /\ forall g, g ∈ l <-> g ∈ grants_of s /\ grant_principal g = p;
}.

(** ** The statements and [impl GrantStore for SqlCipherStore] *)

Definition grant_row (g : CapabilityGrant) : rstr * rstr * rstr :=
  (as_str (grant_principal g), as_str (grant_adapter g), as_str (grant_capability g)).

(** [INSERT OR IGNORE] and [DELETE]: the number of rows changed. *)
Definition sql_add_grant (row : rstr * rstr * rstr) : Statement Z := fun db =>
  if decide (row ∈ t_grants db) then Ok (0, db) else Ok (1, set_grants ({[row]} ∪ t_grants db) db).
Definition sql_remove_grant (row : rstr * rstr * rstr) : Statement Z := fun db =>
  if decide (row ∈ t_grants db) then Ok (1, set_grants (t_grants db ∖ {[row]}) db) else Ok (0, db).

(** [ORDER BY adapter_id ASC, capability_id ASC]. *)
Definition grant_row_le (x y : rstr * rstr * rstr) : Prop :=
  x.1.2 <> y.1.2 /\ lex_le x.1.2 y.1.2 \/ x.1.2 = y.1.2 /\ lex_le x.2 y.2.
#[global] Instance grant_row_le_dec : RelDecision grant_row_le.
Proof. intros x y. unfold grant_row_le. apply _. Defined.

Definition sql_grants_for (principal : rstr) (db : Database) : list (rstr * rstr * rstr) :=
  merge_sort grant_row_le (filter (fun row : rstr * rstr * rstr => row.1.1 = principal) (elements (t_grants db))).

Definition read_grant (principal : PrincipalId) (row : rstr * rstr * rstr) : result GrantStoreError CapabilityGrant :=
  adapter ← map_err (fun _ => GrantStoreUnavailable) (Identifier_new row.1.2);
  capability ← map_err (fun _ => GrantStoreUnavailable) (Identifier_new row.2);
  Ok (mk_grant principal adapter capability).

Section grants.
Context `{Env : SqlEnv}.
#[local] Abbreviation M := (action SqlCipherStore GrantStoreError).
#[local] Abbreviation unavailable := (fun _ : SqlError => GrantStoreUnavailable).

Definition sq_add_grant (grant : CapabilityGrant) : M bool :=
  _ ← connection GrantStoreUnavailable;
  changed ← with_err unavailable (sql (sql_add_grant (grant_row grant)));
  mret (changed =? 1).

Definition sq_remove_grant (grant : CapabilityGrant) : M bool :=
  _ ← connection GrantStoreUnavailable;
  changed ← with_err unavailable (sql (sql_remove_grant (grant_row grant)));
  mret (changed =? 1).

Definition sq_contains_grant (principal : PrincipalId) (adapter : AdapterId) (capability : CapabilityId) : M bool :=
  _ ← connection GrantStoreUnavailable;
  with_err unavailable (sql (select (fun db => bool_decide (grant_row (mk_grant principal adapter capability) ∈ t_grants db)))).

Definition sq_grants_for_principal (principal : PrincipalId) : M (list CapabilityGrant) :=
  _ ← connection GrantStoreUnavailable;
  rows ← with_err unavailable (sql (select (sql_grants_for (as_str principal))));
  lift (collect (read_grant principal) rows).

#[global] Instance SqlCipherStore_GrantStore : GrantStore SqlCipherStore := {
  add_grant := sq_add_grant;
  remove_grant := sq_remove_grant;
  contains_grant p a c s := (sq_contains_grant p a c s).1;
  grants_for_principal p s := (sq_grants_for_principal p s).1;
}.

(** ** The encrypted store keeps the contract *)

Definition row_grant (row : rstr * rstr * rstr) : CapabilityGrant :=
  mk_grant (mk_id row.1.1) (mk_id row.1.2) (mk_id row.2).

Definition grants_view (db : Database) : gset CapabilityGrant := set_map row_grant (t_grants db).

Lemma row_grant_row g : row_grant (grant_row g) = g.
Proof. by destruct g as [[] [] []]. Qed.
Lemma grant_row_grant row : grant_row (row_grant row) = row.
Proof. by destruct row as [[? ?] ?]. Qed.

Lemma elem_of_grants_view g db : g ∈ grants_view db <-> grant_row g ∈ t_grants db.
Proof.
  unfold grants_view. rewrite elem_of_map. split.
  - intros (row & -> & Hrow). by rewrite grant_row_grant.
  - intros Hrow. exists (grant_row g). by rewrite row_grant_row.
Qed.

Definition sq_grants_ok (s : SqlCipherStore) : Prop :=
  forall g, g ∈ grants_view (sq_db s) -> grant_wf g.

Lemma sq_add_grant_spec g (s : SqlCipherStore) :
  sq_grants_ok s -> grant_wf g ->
  let '(r, s') := sq_add_grant g s in
  sq_grants_ok s' /\
  match r with
  | Ok added => added = bool_decide (g ∉ grants_view (sq_db s)) /\ grants_view (sq_db s') = {[g]} ∪ grants_view (sq_db s)
  | Err _ => grants_view (sq_db s') = grants_view (sq_db s)
  end.
Proof.
  intros Hok Hwf. unfold sq_add_grant. rewrite bind_run. unfold connection. destruct (sq_poisoned s); [done|].
  rewrite bind_run. pose proof (exec_spec unavailable (sql_add_grant (grant_row g)) s) as Hs.
  destruct (with_err _ _ s) as [[n|e] s']; destruct Hs as [_ Hs]; simpl; unfold sq_grants_ok in *; [|by rewrite Hs].
  unfold sql_add_grant in Hs. case_decide as Hin; injection Hs as <- <-; simpl.
  - split; [done|]. rewrite <-elem_of_grants_view in Hin. rewrite bool_decide_false by set_solver. split; [done|set_solver].
  - rewrite <-elem_of_grants_view in Hin. rewrite bool_decide_true by done.
    assert (forall x, x ∈ grants_view (set_grants ({[grant_row g]} ∪ t_grants (sq_db s)) (sq_db s)) <-> x ∈ ({[g]} ∪ grants_view (sq_db s) : gset CapabilityGrant)) as Heq.
    { intros x. rewrite elem_of_grants_view. simpl. rewrite !elem_of_union, !elem_of_singleton, elem_of_grants_view.
      split; [|intros [-> |?]; auto]. intros [Hx| ?]; [left|auto]. by rewrite <-(row_grant_row x), Hx, row_grant_row. }
    split; [|split; [done|]]; [|by apply leibniz_equiv; intros x]. intros x Hx. apply Heq in Hx. set_solver.
Qed.

Lemma sq_remove_grant_spec g (s : SqlCipherStore) :
  sq_grants_ok s ->
  let '(r, s') := sq_remove_grant g s in
  sq_grants_ok s' /\
  match r with
  | Ok removed => removed = bool_decide (g ∈ grants_view (sq_db s)) /\ grants_view (sq_db s') = grants_view (sq_db s) ∖ {[g]}
  | Err _ => grants_view (sq_db s') = grants_view (sq_db s)
  end.
Proof.
  intros Hok. unfold sq_remove_grant. rewrite bind_run. unfold connection. destruct (sq_poisoned s); [done|].
  rewrite bind_run. pose proof (exec_spec unavailable (sql_remove_grant (grant_row g)) s) as Hs.
  destruct (with_err _ _ s) as [[n|e] s']; destruct Hs as [_ Hs]; simpl; unfold sq_grants_ok in *; [|by rewrite Hs].
  unfold sql_remove_grant in Hs. case_decide as Hin; injection Hs as <- <-; simpl.
  - rewrite <-elem_of_grants_view in Hin. rewrite bool_decide_true by done.
    assert (forall x, x ∈ grants_view (set_grants (t_grants (sq_db s) ∖ {[grant_row g]}) (sq_db s)) <-> x ∈ (grants_view (sq_db s) ∖ {[g]} : gset CapabilityGrant)) as Heq.
    { intros x. rewrite elem_of_grants_view. simpl. rewrite !elem_of_difference, !elem_of_singleton, elem_of_grants_view.
      split; intros [? Hne]; (split; [done|]); [congruence|]. intros Hx. apply Hne. by rewrite <-(row_grant_row x), Hx, row_grant_row. }
    split; [|split; [done|]]; [|by apply leibniz_equiv; intros x]. intros x Hx. apply Heq in Hx. set_solver.
  - split; [done|]. rewrite <-elem_of_grants_view in Hin. rewrite bool_decide_false by done. split; [done|set_solver].
Qed.

Lemma read_grant_Ok p row g : read_grant p row = Ok g -> row.1.1 = as_str p -> g = row_grant row.
Proof.
  unfold read_grant. intros (a & Ha & (c & Hc & [= <-])%result_bind_Ok)%result_bind_Ok Hp.
  destruct (Identifier_new row.1.2) as [a'|] eqn:Hia; [|done]. injection Ha as ->.
  destruct (Identifier_new row.2) as [c'|] eqn:Hic; [|done]. injection Hc as ->.
  unfold Identifier_new in *. apply result_bind_Ok in Hia as ([] & _ & [= <-]), Hic as ([] & _ & [= <-]).
  unfold row_grant. rewrite Hp. by destruct p.
Qed.

Lemma collect_grants p rows l :
  collect (read_grant p) rows = Ok l -> Forall (fun row : rstr * rstr * rstr => row.1.1 = as_str p) rows -> l = row_grant <$> rows.
Proof.
  rewrite collect_Ok. induction 1 as [|row g rows l Hrow _ IH]; [done|]. intros [Hp Hrows]%Forall_cons. simpl.
  by rewrite (read_grant_Ok _ _ _ Hrow Hp), IH.
Qed.

#[global] Program Instance SqlCipherStore_GrantStoreSpec : GrantStoreSpec SqlCipherStore := {|
  grants_ok := sq_grants_ok;
  grants_of s := grants_view (sq_db s);
|}.
Next Obligation. exact sq_add_grant_spec. Qed.
Next Obligation. exact sq_remove_grant_spec. Qed.
Next Obligation.
  intros p a c s b _. simpl. unfold sq_contains_grant. rewrite bind_run. unfold connection. destruct (sq_poisoned s); [done|].
  pose proof (exec_spec (fun _ : SqlError => GrantStoreUnavailable)
    (select (fun db => bool_decide (grant_row (mk_grant p a c) ∈ t_grants db))) s) as Hs.
  destruct (with_err _ _ s) as [[x|e] s']; destruct Hs as [_ Hs]; [|done]. simpl. intros [= <-]. injection Hs as <- _.
  apply bool_decide_ext. by rewrite elem_of_grants_view.
Qed.
Next Obligation.
  intros p s l _. simpl. unfold sq_grants_for_principal. rewrite bind_run. unfold connection. destruct (sq_poisoned s); [done|].
  rewrite bind_run. pose proof (exec_spec (fun _ : SqlError => GrantStoreUnavailable) (select (sql_grants_for (as_str p))) s) as Hs.
  destruct (with_err _ _ s) as [[rows|e] s']; destruct Hs as [_ Hs]; [|done]. injection Hs as <- _. cbn [lift fst]. intros Hl.
  assert (sql_grants_for (as_str p) (sq_db s) ≡ₚ filter (fun row : rstr * rstr * rstr => row.1.1 = as_str p) (elements (t_grants (sq_db s)))) as Hperm
    by apply merge_sort_Permutation.
  rewrite (collect_grants p _ l Hl) by (rewrite Hperm; apply Forall_forall; intros x [? _]%list_elem_of_filter; done).
  split.
  - rewrite Hperm. apply NoDup_fmap_2; [intros x y Hxy; by rewrite <-(grant_row_grant x), Hxy, grant_row_grant|]. apply NoDup_filter, NoDup_elements.
  - intros g. rewrite list_elem_of_fmap, elem_of_grants_view. split.
    + intros (row & -> & Hrow). rewrite Hperm in Hrow. apply list_elem_of_filter in Hrow as [Hp Hrow%elem_of_elements]. rewrite grant_row_grant. split; [done|].
      simpl. rewrite Hp. by destruct p.
    + intros [Hg Hp]. exists (grant_row g). rewrite row_grant_row, Hperm. split; [done|]. apply list_elem_of_filter.
      rewrite elem_of_elements. split; [|done]. simpl. by rewrite Hp.
Qed.
End grants.

(** ** Stored policies *)

Section policy.
Context {Validator : Type} {St : Type} `{GrantStoreSpec St}.
Implicit Types (s : St) (r : AuthorizationRequest (CapabilityDescriptor Validator)).

(** Updates of the store with the answers the administrator saw. *)
Definition store_update (u : policy_update) s : result GrantStoreError bool * St :=
  match u with
  | UGrant p a c => add_grant (mk_grant p a c) s
  | URevoke p a c => remove_grant (mk_grant p a c) s
  end.

Fixpoint store_updates (us : list policy_update) s : list (policy_update * result GrantStoreError bool) * St :=
  match us with
  | [] => ([], s)
  | u :: us => let '(ans, s) := store_update u s in
               let '(history, s) := store_updates us s in ((u, ans) :: history, s)
  end.

Definition update_wf (u : policy_update) : Prop :=
  match u with UGrant p a c => grant_wf (mk_grant p a c) | URevoke _ _ _ => True end.

(** The grants that the updates reported as done leave, and whether each report is true. *)
Definition answered_update (g : gset CapabilityGrant) (x : policy_update * result GrantStoreError bool) : gset CapabilityGrant :=
  if is_ok x.2 then spec_update g x.1 else g.

Lemma store_update_spec u s :
  grants_ok s -> update_wf u ->
  let '(ans, s') := store_update u s in
  grants_ok s' /\ grants_of s' = answered_update (grants_of s) (u, ans) /\
  forall b, ans = Ok b -> b = bool_decide (spec_update (grants_of s) u <> grants_of s).
Proof.
  intros Hok Hwf. destruct u as [p a c|p a c]; simpl.
  - pose proof (add_grant_spec (mk_grant p a c) s Hok Hwf) as Ha. destruct (add_grant _ s) as [[b|] s']; destruct Ha as [? Ha]; [|done].
    destruct Ha as [-> Hg]. split_and!; [done..|]. intros ? [= <-]. apply bool_decide_ext. set_solver.
  - pose proof (remove_grant_spec (mk_grant p a c) s Hok) as Ha. destruct (remove_grant _ s) as [[b|] s']; destruct Ha as [? Ha]; [|done].
    destruct Ha as [-> Hg]. split_and!; [done..|]. intros ? [= <-]. apply bool_decide_ext. simpl.
    destruct (decide (mk_grant p a c ∈ grants_of s)); set_solver.
Qed.

(** C16: a stored policy decides as its answered updates say.  Apply any updates to a
    durable grant store with no grants, any of them failing; then a request is allowed only
    if exactly its triple was granted and not revoked since by the updates that were
    answered with success, denied as not granted only if it was not, and denied as
    unavailable exactly if the store cannot be read.  What a failed update meant to do never
    shows. *)
Theorem stored_policy_matches_history us s r :
  grants_ok s -> grants_of s = ∅ -> Forall update_wf us ->
  let '(history, s') := store_updates us s in
  StoredGrantPolicy_evaluate (mk_stored_policy St s') r =
  match contains_grant (principal_id (req_principal r)) (req_adapter r) (descriptor_id (req_capability r)) s' with
  | Ok _ => if decide (request_grant r ∈ foldl answered_update ∅ history) then Allow else Deny NotGranted
  | Err _ => Deny PolicyUnavailable
  end.
Proof.
  intros Hok <- Hwf. assert (let '(history, s') := store_updates us s in
    grants_ok s' /\ grants_of s' = foldl answered_update (grants_of s) history) as Hrun.
  { revert s Hok. induction us as [|u us IH]; intros s Hok; simpl; [done|]. apply Forall_cons in Hwf as [Hu Hwf].
    pose proof (store_update_spec u s Hok Hu) as Hs. destruct (store_update u s) as [ans s1]. destruct Hs as (Hok1 & Hg & _).
    specialize (IH Hwf s1 Hok1). destruct (store_updates us s1) as [h s2]. simpl. by rewrite <-Hg. }
  destruct (store_updates us s) as [history s']. destruct Hrun as [Hok' Hg]. unfold StoredGrantPolicy_evaluate. simpl.
  destruct (contains_grant _ _ _ s') as [b|[]] eqn:Hb; [|done]. apply contains_grant_spec in Hb as ->; [|done].
  rewrite <-Hg. unfold request_grant. by destruct (decide _); [rewrite bool_decide_true|rewrite bool_decide_false].
Qed.
End policy.

(** ** A run on the encrypted store

    A grant, a revocation of a triple that was not granted, and a grant that fails. *)
#[local] Instance ex_failing_sql : SqlEnv := fun n => Nat.eqb n 2.
Definition ex_grant_store : SqlCipherStore := mk_sql_store false migrate_from_empty None 0.
Definition ex_updates : list policy_update :=
  [UGrant (mk_id (str "client_1")) (mk_id (str "mcp")) (mk_id (str "notes.read"));
   URevoke (mk_id (str "client_1")) (mk_id (str "mcp")) (mk_id (str "notes.write"));
   UGrant (mk_id (str "client_1")) (mk_id (str "mcp")) (mk_id (str "notes.write"))].
Definition ex_request (c : string) : AuthorizationRequest (CapabilityDescriptor unit) :=
  mk_request (mk_principal (mk_id (str "client_1")) Application) (mk_id (str "mcp"))
    (mk_descriptor (mk_id (str c)) [] ReadOnly CapabilityInputSchema_default).

Lemma stored_policy_matches_history_witness :
  let '(history, s) := store_updates ex_updates ex_grant_store in
  history.*2 = [Ok true; Ok false; Err GrantStoreUnavailable] /\
  StoredGrantPolicy_evaluate (mk_stored_policy _ s) (ex_request "notes.read") = Allow /\
  StoredGrantPolicy_evaluate (mk_stored_policy _ s) (ex_request "notes.write") =
    match contains_grant (mk_id (str "client_1")) (mk_id (str "mcp")) (mk_id (str "notes.write")) s with
    | Ok _ => if decide (request_grant (ex_request "notes.write") ∈ foldl answered_update ∅ history) then Allow else Deny NotGranted
    | Err _ => Deny PolicyUnavailable
    end.
Proof.
  assert (grants_ok ex_grant_store) as Hok by (intros g Hgr%elem_of_grants_view; by apply not_elem_of_empty in Hgr).
  assert (grants_of ex_grant_store = ∅) as Hg by (vm_compute; reflexivity).
  assert (Forall update_wf ex_updates) as Hwf by (repeat apply Forall_cons_2; try apply Forall_nil_2; try exact I; repeat split; vm_compute; reflexivity).
  pose proof (stored_policy_matches_history ex_updates ex_grant_store (ex_request "notes.write") Hok Hg Hwf) as Hwrite.
  assert ((store_updates ex_updates ex_grant_store).1.*2 = [Ok true; Ok false; Err GrantStoreUnavailable]) as Hans by (vm_compute; reflexivity).
  assert (StoredGrantPolicy_evaluate (mk_stored_policy _ (store_updates ex_updates ex_grant_store).2) (ex_request "notes.read") = Allow)
    as Hread by (vm_compute; reflexivity).
  destruct (store_updates ex_updates ex_grant_store) as [history s]. split; [exact Hans|]. split; [exact Hread|exact Hwrite].
Defined.
