(* ===== verification/Dispatch.v ===== *)
(** * Dispatch: the registry, the audit events and the dispatcher of [bondry-core]

    Models registry.rs, invocation.rs, audit.rs and dispatch.rs.  The host's handlers
    are functions over an abstract host state [Host]; the policy and the audit sink
    are the traits of the source, as classes.  Time is an argument. *)

From S2P Require Import Prelude Text Identifiers Json Capability Policy.

(** ** Invocations *)

Record Invocation := mk_invocation {
  inv_id : InvocationId;
  inv_adapter : AdapterId;
  inv_principal : Principal;
  inv_capability : CapabilityId;
  inv_input : Value;
}.

Record InvocationContext := mk_context {
  ctx_id : InvocationId;
  ctx_adapter : AdapterId;
  ctx_principal : Principal;
  ctx_capability : CapabilityId;
}.

Definition InvocationContext_from_invocation (i : Invocation) : InvocationContext :=
  mk_context (inv_id i) (inv_adapter i) (inv_principal i) (inv_capability i).

(** ** Audit *)

Inductive AuditOutcome :=
| OutCapabilityNotFound
| OutDenied (reason : DenialReason)
| OutStarted
| OutInvalidInput
| OutSucceeded
| OutHandlerFailed (code : HandlerErrorCode).

Record AuditEvent := mk_event {
  ev_occurred_at : Z;
  ev_invocation : InvocationId;
  ev_principal : PrincipalId;
  ev_adapter : AdapterId;
  ev_capability : CapabilityId;
  ev_outcome : AuditOutcome;
}.

(** [AuditEvent::new] at the time [now]. *)
Definition AuditEvent_new (now : Z) (c : InvocationContext) (outcome : AuditOutcome) : AuditEvent :=
  mk_event now (ctx_id c) (principal_id (ctx_principal c)) (ctx_adapter c) (ctx_capability c) outcome.

Inductive AuditError := AuditUnavailable.

(** The trait [AuditSink]. *)
Class AuditSink (A : Type) := record : AuditEvent -> A -> result AuditError unit * A.

(** [NoopAuditSink]. *)
Inductive NoopAuditSink := noop_sink.
#[global] Instance NoopAuditSink_sink : AuditSink NoopAuditSink := fun _ s => (Ok (), s).

(** A sink with an observable trail: an accepted event is appended, a refused one is not. *)
Class AuditTrail (A : Type) `{AuditSink A} := {
  trail : A -> list AuditEvent;
  trail_record e s :
    trail (record e s).2 =
    match (record e s).1 with Ok _ => trail s ++ [e] | Err _ => trail s end;
}.

(** ** Registry *)

Inductive RegistrationError := DuplicateCapability (id : CapabilityId).

Section dispatcher.
Context {Validator : Type} (validator_is_valid : Validator -> Value -> bool).
Context {Host P A : Type} `{!AuthorizationPolicy (CapabilityDescriptor Validator) P, !AuditSink A}.

#[local] Abbreviation Descriptor := (CapabilityDescriptor Validator).

(** The trait [CapabilityHandler]: [invoke] awaited, over the host's state. *)
Definition CapabilityHandler : Type :=
  InvocationContext -> Value -> Host -> result HandlerError Value * Host.

Record RegisteredCapability := mk_registered {
  reg_descriptor : Descriptor;
  reg_handler : CapabilityHandler;
}.

#[local] Abbreviation CapabilityRegistry := (gmap CapabilityId RegisteredCapability).
Implicit Types reg : CapabilityRegistry.

Definition CapabilityRegistry_register reg (descriptor : Descriptor) (handler : CapabilityHandler)
    : result RegistrationError unit * CapabilityRegistry :=
  match reg !! descriptor_id descriptor with
  | Some _ => (Err (DuplicateCapability (descriptor_id descriptor)), reg)
  | None => (Ok (), <[descriptor_id descriptor := mk_registered descriptor handler]> reg)
  end.

Definition CapabilityRegistry_len reg : Z := Z.of_nat (size reg).

(** [sort_unstable_by_key(|descriptor| descriptor.id())] over the map's values. *)
Definition descriptor_le (d e : Descriptor) : Prop := key_le (descriptor_id d) (descriptor_id e).
#[global] Instance descriptor_le_dec : RelDecision descriptor_le.
Proof. intros d e. unfold descriptor_le. apply _. Defined.

Definition CapabilityRegistry_descriptors reg : list Descriptor :=
  merge_sort descriptor_le (reg_descriptor <$> (map_to_list reg).*2).

Definition CapabilityRegistry_resolve reg (id : CapabilityId) : option (Descriptor * CapabilityHandler) :=
  (fun c => (reg_descriptor c, reg_handler c)) <$> reg !! id.

(** ** Dispatcher *)

Record Dispatcher := mk_dispatcher {
  disp_registry : CapabilityRegistry;
  disp_policy : P;
  disp_audit : A;
}.

Inductive CapabilityDiscoveryError := DiscoveryPolicyUnavailable.

Inductive DispatchError :=
| DispatchAudit (e : AuditError)
| DispatchCapabilityNotFound (id : CapabilityId)
| DispatchAccessDenied (reason : DenialReason)
| DispatchInvalidInput
| DispatchHandler (e : HandlerError).

(** [self.audit.record(AuditEvent::new(&context, outcome))]. *)
Definition record_audit (d : Dispatcher) (now : Z) (c : InvocationContext) (outcome : AuditOutcome)
    : result AuditError unit * Dispatcher :=
  let '(r, audit) := record (AuditEvent_new now c outcome) (disp_audit d) in
  (r, mk_dispatcher (disp_registry d) (disp_policy d) audit).

(** [self.audit.record(..)?; return Err(error)]. *)
Definition reject (d : Dispatcher) (now : Z) (c : InvocationContext) (outcome : AuditOutcome)
    (error : DispatchError) : DispatchError * Dispatcher :=
  match record_audit d now c outcome with
  | (Ok _, d) => (error, d)
  | (Err e, d) => (DispatchAudit e, d)
  end.

(** The part of [dispatch] before the handler is awaited: the handler to run, or the
    error returned. *)
Definition dispatch_prepare (d : Dispatcher) (now : Z) (i : Invocation)
    : result DispatchError CapabilityHandler * Dispatcher :=
  let c := InvocationContext_from_invocation i in
  let refuse outcome error := let '(e, d) := reject d now c outcome error in (Err e, d) in
  match CapabilityRegistry_resolve (disp_registry d) (inv_capability i) with
  | None => refuse OutCapabilityNotFound (DispatchCapabilityNotFound (inv_capability i))
  | Some (descriptor, handler) =>
      match evaluate (disp_policy d) (mk_request (inv_principal i) (inv_adapter i) descriptor) with
      | Deny reason => refuse (OutDenied reason) (DispatchAccessDenied reason)
      | Allow =>
          if negb (CapabilityDescriptor_accepts_input validator_is_valid descriptor (inv_input i))
          then refuse OutInvalidInput DispatchInvalidInput
          else match record_audit d now c OutStarted with
               | (Err e, d) => (Err (DispatchAudit e), d)
               | (Ok _, d) => (Ok handler, d)
               end
      end
  end.

(** The part after it: record the completion, then return. *)
Definition dispatch_finish (d : Dispatcher) (now : Z) (c : InvocationContext)
    (completed : result HandlerError Value) : result DispatchError Value * Dispatcher :=
  match completed with
  | Ok output =>
      match record_audit d now c OutSucceeded with
      | (Ok _, d) => (Ok output, d)
      | (Err e, d) => (Err (DispatchAudit e), d)
      end
  | Err error =>
      let '(e, d) := reject d now c (OutHandlerFailed (handler_error_code error))
                       (DispatchHandler error) in (Err e, d)
  end.

(** [Dispatcher::dispatch]; [started] and [finished] are the two clock readings. *)
Definition dispatch (d : Dispatcher) (host : Host) (started finished : Z) (i : Invocation)
    : result DispatchError Value * Dispatcher * Host :=
  match dispatch_prepare d started i with
  | (Err e, d) => (Err e, d, host)
  | (Ok handler, d) =>
      let c := InvocationContext_from_invocation i in
      let '(completed, host) := handler c (inv_input i) host in
      let '(r, d) := dispatch_finish d finished c completed in
      (r, d, host)
  end.

(** The loop of [Dispatcher::capabilities]. *)
Fixpoint capabilities_loop (p : P) (principal : Principal) (adapter : AdapterId)
    (ds allowed : list Descriptor) : result CapabilityDiscoveryError (list Descriptor) :=
  match ds with
  | [] => Ok allowed
  | descriptor :: ds =>
      match evaluate p (mk_request principal adapter descriptor) with
      | Allow => capabilities_loop p principal adapter ds (allowed ++ [descriptor])
      | Deny NotGranted => capabilities_loop p principal adapter ds allowed
      | Deny PolicyUnavailable => Err DiscoveryPolicyUnavailable
      end
  end.

Definition Dispatcher_capabilities (d : Dispatcher) (principal : Principal) (adapter : AdapterId)
    : result CapabilityDiscoveryError (list Descriptor) :=
  capabilities_loop (disp_policy d) principal adapter
    (CapabilityRegistry_descriptors (disp_registry d)) [].

(** ** The registry's invariant *)

(** Every capability is filed under its own identifier. *)
Definition registry_wf reg : Prop :=
  map_Forall (fun id c => descriptor_id (reg_descriptor c) = id) reg.

Lemma register_wf reg descriptor handler :
  registry_wf reg -> registry_wf (CapabilityRegistry_register reg descriptor handler).2.
Proof.
  intros Hwf. unfold CapabilityRegistry_register. case_match; simpl; [done|].
  by apply map_Forall_insert_2.
Qed.

#[global] Instance descriptor_le_trans : Transitive descriptor_le.
Proof. intros d e f. unfold descriptor_le. apply transitivity. Qed.
#[global] Instance descriptor_le_total : Total descriptor_le.
Proof. intros d e. unfold descriptor_le. apply (total key_le). Qed.

Lemma descriptors_perm reg :
  CapabilityRegistry_descriptors reg ≡ₚ reg_descriptor <$> (map_to_list reg).*2.
Proof. apply merge_sort_Permutation. Qed.

Lemma descriptors_sorted reg : StronglySorted descriptor_le (CapabilityRegistry_descriptors reg).
Proof. apply StronglySorted_merge_sort; apply _. Qed.

Lemma elem_of_descriptors reg descriptor :
  registry_wf reg ->
  descriptor ∈ CapabilityRegistry_descriptors reg <->
  exists handler, CapabilityRegistry_resolve reg (descriptor_id descriptor) = Some (descriptor, handler).
Proof.
  intros Hwf. rewrite descriptors_perm. unfold CapabilityRegistry_resolve.
  rewrite list_elem_of_fmap. setoid_rewrite list_elem_of_fmap. setoid_rewrite fmap_Some. split.
  - intros (c & -> & ([id c'] & -> & Hin%elem_of_map_to_list)). simpl.
    rewrite (Hwf _ _ Hin). eauto.
  - intros (handler & c & Hc & [= -> ->]). exists c. split; [done|].
    eexists (_, c). by rewrite elem_of_map_to_list.
Qed.

(** Identifiers are listed once each. *)
Lemma NoDup_descriptor_ids reg :
  registry_wf reg -> NoDup (descriptor_id <$> CapabilityRegistry_descriptors reg).
Proof.
  intros Hwf. rewrite descriptors_perm, <-!list_fmap_compose.
  erewrite (list_fmap_ext _ fst (map_to_list reg)).
  - apply NoDup_fst_map_to_list.
  - intros k [id c] Hin%list_elem_of_lookup_2%elem_of_map_to_list. exact (Hwf _ _ Hin).
Qed.

(** ** Discovery *)

Lemma capabilities_loop_spec p principal adapter ds allowed out :
  capabilities_loop p principal adapter ds allowed = Ok out <->
  out = allowed ++ filter (fun d => evaluate p (mk_request principal adapter d) = Allow) ds /\
  Forall (fun d => evaluate p (mk_request principal adapter d) <> Deny PolicyUnavailable) ds.
Proof.
  revert allowed. induction ds as [|d ds IH]; intros allowed; simpl.
  - rewrite app_nil_r, Forall_nil. naive_solver.
  - rewrite filter_cons, Forall_cons.
    destruct (evaluate p (mk_request principal adapter d)) as [|[]] eqn:He.
    + rewrite IH, decide_True by done. rewrite <-(assoc_L (++)). simpl. naive_solver.
    + rewrite IH, decide_False by done. naive_solver.
    + split; [done|]. naive_solver.
Qed.

(** ** What one dispatch does *)

(** [descriptor] with [handler] is registered, authorised and accepts the input. *)
Definition cleared (d : Dispatcher) (i : Invocation) (descriptor : Descriptor)
    (handler : CapabilityHandler) : Prop :=
  CapabilityRegistry_resolve (disp_registry d) (inv_capability i) = Some (descriptor, handler) /\
  evaluate (disp_policy d) (mk_request (inv_principal i) (inv_adapter i) descriptor) = Allow /\
  CapabilityDescriptor_accepts_input validator_is_valid descriptor (inv_input i) = true.

(** The possible stories of a dispatch: the outcomes it adds to the trail, the host
    state it leaves and what it returns. *)
Inductive dispatch_story (d : Dispatcher) (i : Invocation) (host : Host)
    : list AuditOutcome -> Host -> result DispatchError Value -> Prop :=
| story_not_found :
    CapabilityRegistry_resolve (disp_registry d) (inv_capability i) = None ->
    dispatch_story d i host [OutCapabilityNotFound] host
      (Err (DispatchCapabilityNotFound (inv_capability i)))
| story_denied descriptor handler reason :
    CapabilityRegistry_resolve (disp_registry d) (inv_capability i) = Some (descriptor, handler) ->
    evaluate (disp_policy d) (mk_request (inv_principal i) (inv_adapter i) descriptor) = Deny reason ->
    dispatch_story d i host [OutDenied reason] host (Err (DispatchAccessDenied reason))
| story_invalid descriptor handler :
    CapabilityRegistry_resolve (disp_registry d) (inv_capability i) = Some (descriptor, handler) ->
    evaluate (disp_policy d) (mk_request (inv_principal i) (inv_adapter i) descriptor) = Allow ->
    CapabilityDescriptor_accepts_input validator_is_valid descriptor (inv_input i) = false ->
    dispatch_story d i host [OutInvalidInput] host (Err DispatchInvalidInput)
| story_unaudited e :
    dispatch_story d i host [] host (Err (DispatchAudit e))
| story_ran descriptor handler completed host' :
    cleared d i descriptor handler ->
    handler (InvocationContext_from_invocation i) (inv_input i) host = (completed, host') ->
    dispatch_story d i host
      [OutStarted; match completed with
                   | Ok _ => OutSucceeded
                   | Err e => OutHandlerFailed (handler_error_code e)
                   end] host' (map_err DispatchHandler completed)
| story_ran_unaudited descriptor handler completed host' e :
    cleared d i descriptor handler ->
    handler (InvocationContext_from_invocation i) (inv_input i) host = (completed, host') ->
    dispatch_story d i host [OutStarted] host' (Err (DispatchAudit e)).

Context `{!AuditTrail A}.

Lemma record_audit_trail d now c outcome :
  let '(r, d') := record_audit d now c outcome in
  disp_registry d' = disp_registry d /\ disp_policy d' = disp_policy d /\
  trail (disp_audit d') = trail (disp_audit d) ++
    (if is_ok r then [AuditEvent_new now c outcome] else []).
Proof.
  unfold record_audit. destruct (record _ _) as [r audit] eqn:Hr. simpl.
  pose proof (trail_record (AuditEvent_new now c outcome) (disp_audit d)) as Ht.
  rewrite Hr in Ht. simpl in Ht. split_and!; [done..|]. rewrite Ht.
  destruct r; simpl; by rewrite ?app_nil_r.
Qed.

(** The events a dispatch of [i] writes: the outcomes of its story, each with the
    invocation's own metadata and the time of its phase. *)
Definition story_events (started finished : Z) (i : Invocation) (outs : list AuditOutcome)
    : list AuditEvent :=
  match outs with
  | [] => []
  | o :: outs => AuditEvent_new started (InvocationContext_from_invocation i) o ::
      (AuditEvent_new finished (InvocationContext_from_invocation i) <$> outs)
  end.

(** The specification of [dispatch] on every branch. *)
Definition dispatch_spec (d : Dispatcher) (host : Host) (started finished : Z) (i : Invocation)
    (r : result DispatchError Value) (d' : Dispatcher) (host' : Host) : Prop :=
  disp_registry d' = disp_registry d /\ disp_policy d' = disp_policy d /\
  exists outs,
    trail (disp_audit d') = trail (disp_audit d) ++ story_events started finished i outs /\
    dispatch_story d i host outs host' r.

Lemma reject_story d host started finished i outcome error :
  dispatch_story d i host [outcome] host (Err error) ->
  let '(e, d') := reject d started (InvocationContext_from_invocation i) outcome error in
  dispatch_spec d host started finished i (Err e) d' host.
Proof.
  intros Hstory. unfold reject.
  pose proof (record_audit_trail d started (InvocationContext_from_invocation i) outcome) as Ht.
  destruct (record_audit _ _ _ _) as [[[]|e] d'] eqn:Hr; destruct Ht as (Hreg & Hpol & Ht);
    split_and!; try done; [exists [outcome]|exists []]; simpl in *; split; try done.
  apply story_unaudited.
Qed.

Lemma finish_story d d1 host host' started finished i descriptor handler completed :
  cleared d i descriptor handler ->
  handler (InvocationContext_from_invocation i) (inv_input i) host = (completed, host') ->
  disp_registry d1 = disp_registry d -> disp_policy d1 = disp_policy d ->
  trail (disp_audit d1) = trail (disp_audit d) ++
    [AuditEvent_new started (InvocationContext_from_invocation i) OutStarted] ->
  let '(r, d') := dispatch_finish d1 finished (InvocationContext_from_invocation i) completed in
  dispatch_spec d host started finished i r d' host'.
Proof.
  intros Hc Hh Hreg Hpol Ht. unfold dispatch_finish, reject.
  destruct completed as [v|err].
  - pose proof (record_audit_trail d1 finished (InvocationContext_from_invocation i) OutSucceeded) as Hr.
    destruct (record_audit _ _ _ _) as [[[]|e] d'];
      destruct Hr as (? & ? & Hr); split_and!; try congruence; rewrite Hr, Ht, <-(assoc_L (++)).
    + exists [OutStarted; OutSucceeded]. split; [done|].
      exact (story_ran _ _ _ descriptor handler (Ok v) host' Hc Hh).
    + exists [OutStarted]. split; [done|]. by eapply story_ran_unaudited.
  - pose proof (record_audit_trail d1 finished (InvocationContext_from_invocation i)
      (OutHandlerFailed (handler_error_code err))) as Hr.
    destruct (record_audit _ _ _ _) as [[[]|e] d'];
      destruct Hr as (? & ? & Hr); split_and!; try congruence; rewrite Hr, Ht, <-(assoc_L (++)).
    + exists [OutStarted; OutHandlerFailed (handler_error_code err)]. split; [done|].
      exact (story_ran _ _ _ descriptor handler (Err err) host' Hc Hh).
    + exists [OutStarted]. split; [done|]. by eapply story_ran_unaudited.
Qed.

Lemma dispatch_meets_spec d host started finished i :
  let '(r, d', host') := dispatch d host started finished i in
  dispatch_spec d host started finished i r d' host'.
Proof.
  unfold dispatch, dispatch_prepare.
  assert (forall outcome error, dispatch_story d i host [outcome] host (Err error) ->
    let '(r, d', host') :=
      match (let '(e, d0) := reject d started (InvocationContext_from_invocation i) outcome error
             in (@Err DispatchError CapabilityHandler e, d0)) with
      | (Err e, d) => (Err e, d, host)
      | (Ok handler, d) =>
          let c := InvocationContext_from_invocation i in
          let '(completed, host) := handler c (inv_input i) host in
          let '(r, d) := dispatch_finish d finished c completed in (r, d, host)
      end in dispatch_spec d host started finished i r d' host') as Hreject.
  { intros outcome error Hs. pose proof (reject_story d host started finished i _ _ Hs) as Hr.
    by destruct (reject _ _ _ _ _). }
  destruct (CapabilityRegistry_resolve _ _) as [[descriptor handler]|] eqn:Hres;
    [|by apply Hreject, story_not_found].
  destruct (evaluate _ _) as [|reason] eqn:Hev; [|by eapply Hreject, story_denied].
  destruct (CapabilityDescriptor_accepts_input _ _ _) eqn:Hacc; simpl;
    [|by eapply Hreject, story_invalid].
  assert (cleared d i descriptor handler) as Hc by done.
  pose proof (record_audit_trail d started (InvocationContext_from_invocation i) OutStarted) as Ht.
  destruct (record_audit _ _ _ _) as [[[]|e] d1]; destruct Ht as (Hreg & Hpol & Ht); simpl in *.
  - destruct (handler _ _ _) as [completed host'] eqn:Hh.
    pose proof (finish_story d d1 host host' started finished i descriptor handler completed
      Hc Hh Hreg Hpol Ht) as Hf. by destruct (dispatch_finish _ _ _ _).
  - split_and!; [done..|]. exists []. split; [done|]. apply story_unaudited.
Qed.

(** C11: every dispatch ends in one of the listed stories.  The audit trail grows by
    exactly the outcomes of that story, each with the invocation's own identifiers:
    a lone refusal, or [OutStarted] followed by the completion.  The returned result
    matches the last outcome, and a refused event ends the dispatch with an audit
    error, without running the handler if the refused event precedes it. *)
Theorem dispatch_tells_its_story d host started finished i r d' host' :
  dispatch d host started finished i = (r, d', host') ->
  disp_registry d' = disp_registry d /\ disp_policy d' = disp_policy d /\
  exists outs,
    trail (disp_audit d') = trail (disp_audit d) ++ story_events started finished i outs /\
    dispatch_story d i host outs host' r.
Proof.
  intros Hd. pose proof (dispatch_meets_spec d host started finished i) as H. by rewrite Hd in H.
Qed.

(** fail closed.  If a dispatch changes the host's state at all, then the requested
    capability is registered, the policy allowed this principal and adapter, the input
    satisfies the schema, the change is the one the registered handler makes, and the
    first event the dispatch put on the trail is the [OutStarted] of this invocation. *)
Theorem dispatch_fail_closed d host started finished i r d' host' :
  dispatch d host started finished i = (r, d', host') ->
  host' <> host ->
  exists descriptor handler rest,
    cleared d i descriptor handler /\
    (handler (InvocationContext_from_invocation i) (inv_input i) host).2 = host' /\
    trail (disp_audit d') = trail (disp_audit d) ++
      AuditEvent_new started (InvocationContext_from_invocation i) OutStarted :: rest.
Proof.
  intros Hd Hne. pose proof (dispatch_meets_spec d host started finished i) as H. rewrite Hd in H.
  destruct H as (_ & _ & outs & Ht & Hstory). destruct Hstory; try done.
  - eexists _, _, _. split_and!; [done| |by rewrite Ht]. by rewrite H0.
  - eexists _, _, _. split_and!; [done| |by rewrite Ht]. by rewrite H0.
Qed.

(** Discovery agrees with dispatch.  When discovery answers, it lists in increasing
    identifier order, once each, exactly the registered capabilities whose dispatch for
    the same principal and adapter is authorised: invoking a listed one is neither
    refused nor unknown, and invoking an unlisted one is not successful. *)
Theorem discovery_agrees_with_dispatch d principal adapter ds :
  registry_wf (disp_registry d) ->
  Dispatcher_capabilities d principal adapter = Ok ds ->
  StronglySorted descriptor_le ds /\ NoDup (descriptor_id <$> ds) /\
  forall host started finished i r d' host',
    inv_principal i = principal -> inv_adapter i = adapter ->
    dispatch d host started finished i = (r, d', host') ->
    (inv_capability i ∈ descriptor_id <$> ds ->
       r <> Err (DispatchCapabilityNotFound (inv_capability i)) /\
       forall reason, r <> Err (DispatchAccessDenied reason)) /\
    (inv_capability i ∉ descriptor_id <$> ds -> host' = host /\ forall v, r <> Ok v).
Proof.
  intros Hwf [Hds Hav]%capabilities_loop_spec. simpl in Hds. subst ds.
  set (listed := filter _ _).
  assert (sublist listed (CapabilityRegistry_descriptors (disp_registry d))) as Hsub
    by apply sublist_filter.
  split_and!.
  - eapply StronglySorted_sublist; [exact Hsub|apply descriptors_sorted].
  - eapply sublist_NoDup; [apply NoDup_descriptor_ids, Hwf|]. by apply fmap_sublist.
  - intros host started finished i r d' host' <- <- Hd.
    pose proof (dispatch_meets_spec d host started finished i) as H. rewrite Hd in H.
    destruct H as (_ & _ & outs & _ & Hstory).
    assert (inv_capability i ∈ descriptor_id <$> listed <->
      exists descriptor handler,
        CapabilityRegistry_resolve (disp_registry d) (inv_capability i) = Some (descriptor, handler) /\
        evaluate (disp_policy d) (mk_request (inv_principal i) (inv_adapter i) descriptor) = Allow)
      as Hlisted.
    { rewrite list_elem_of_fmap. unfold listed. setoid_rewrite list_elem_of_filter.
      setoid_rewrite elem_of_descriptors; [|done]. split.
      - intros (descriptor & -> & Hev & handler & Hres). eauto.
      - intros (descriptor & handler & Hres & Hev). exists descriptor.
        assert (descriptor_id descriptor = inv_capability i) as Hid.
        { unfold CapabilityRegistry_resolve in Hres. apply fmap_Some in Hres as (c & Hc & [= -> ->]).
          exact (Hwf _ _ Hc). }
        rewrite Hid. eauto. }
    rewrite Hlisted. clear Hlisted.
    destruct Hstory as [Hres|descriptor handler reason Hres Hev|descriptor handler Hres Hev _|e
      |descriptor handler completed host' (Hres & Hev & _) _
      |descriptor handler completed host' e (Hres & Hev & _) _]; split; try done.
    + intros (? & ? & ? & _). congruence.
    + intros (? & ? & Hres' & Hev'). rewrite Hres in Hres'. simplify_eq. congruence.
    + intros _. by destruct completed.
    + intros []. eauto.
    + intros []. eauto.
Qed.
End dispatcher.

(** ** A concrete dispatcher for the witnesses *)

(** A sink that keeps its events in memory and refuses them beyond a capacity. *)
Record BoundedSink := mk_bounded_sink { kept : list AuditEvent; room : nat }.
#[global] Instance BoundedSink_sink : AuditSink BoundedSink := fun e s =>
  match room s with
  | O => (Err AuditUnavailable, s)
  | S n => (Ok (), mk_bounded_sink (kept s ++ [e]) n)
  end.
#[global] Program Instance BoundedSink_trail : AuditTrail BoundedSink := {| trail := kept |}.
Next Obligation. intros e [es [|n]]; done. Qed.

Section witness.
(** A validator that accepts any object; a host that keeps the inputs it was given. *)
Definition ex_accepts (_ : unit) (v : Value) : bool := is_object v.
Definition ex_id {k} (s : string) : Id k := mk_id (str s).
Definition ex_principal : Principal := mk_principal (ex_id "client_1") Application.
Definition ex_handler : @CapabilityHandler (list Value) := fun _ input host => (Ok input, input :: host).
Definition ex_descriptor : CapabilityDescriptor unit :=
  mk_descriptor (ex_id "notes.create") (str "Create a note") Mutating
    (mk_schema (Some empty_object) (Some ())).
Definition ex_registry : gmap CapabilityId (RegisteredCapability (Host := list Value)) :=
  (CapabilityRegistry_register ∅ ex_descriptor ex_handler).2.
Definition ex_policy : GrantPolicy :=
  (GrantPolicy_grant GrantPolicy_new (principal_id ex_principal) (ex_id "rest") (ex_id "notes.create")).2.
Definition ex_dispatcher : Dispatcher (P := GrantPolicy) (A := BoundedSink) :=
  mk_dispatcher ex_registry ex_policy (mk_bounded_sink [] 8).
Definition ex_invocation : Invocation :=
  mk_invocation (ex_id "request_1") (ex_id "rest") ex_principal (ex_id "notes.create") empty_object.
Definition ex_run : result DispatchError Value * Dispatcher * list Value :=
  dispatch ex_accepts ex_dispatcher [] 10 20 ex_invocation.

Lemma dispatch_tells_its_story_witness :
  dispatch ex_accepts ex_dispatcher [] 10 20 ex_invocation = ex_run /\
  exists outs, trail (disp_audit ex_run.1.2) = [] ++ story_events 10 20 ex_invocation outs /\
    dispatch_story ex_accepts ex_dispatcher ex_invocation [] outs ex_run.2 ex_run.1.1.
Proof.
  split; [reflexivity|].
  refine (proj2 (proj2 (dispatch_tells_its_story ex_accepts ex_dispatcher [] 10 20 ex_invocation
    ex_run.1.1 ex_run.1.2 ex_run.2 _))).
  vm_compute. reflexivity.
Defined.

Lemma dispatch_fail_closed_witness :
  ex_run.2 <> [] /\
  exists descriptor handler rest,
    cleared ex_accepts ex_dispatcher ex_invocation descriptor handler /\
    (handler (InvocationContext_from_invocation ex_invocation) (inv_input ex_invocation) []).2 =
      ex_run.2 /\
    trail (disp_audit ex_run.1.2) = trail (disp_audit ex_dispatcher) ++
      AuditEvent_new 10 (InvocationContext_from_invocation ex_invocation) OutStarted :: rest.
Proof.
  split; [vm_compute; discriminate|].
  apply (dispatch_fail_closed ex_accepts ex_dispatcher [] 10 20 ex_invocation ex_run.1.1 ex_run.1.2 ex_run.2).
  - vm_compute. reflexivity.
  - vm_compute. discriminate.
Defined.

Lemma discovery_agrees_with_dispatch_witness :
  Dispatcher_capabilities ex_dispatcher ex_principal (ex_id "rest") = Ok [ex_descriptor] /\
  StronglySorted descriptor_le [ex_descriptor] /\
  forall r d' host', dispatch ex_accepts ex_dispatcher [] 10 20 ex_invocation = (r, d', host') ->
    forall reason, r <> Err (DispatchAccessDenied reason).
Proof.
  assert (Dispatcher_capabilities ex_dispatcher ex_principal (ex_id "rest") = Ok [ex_descriptor]) as Hc
    by (vm_compute; reflexivity).
  assert (registry_wf (disp_registry ex_dispatcher)) as Hwf
    by (apply register_wf; intros ??; rewrite lookup_empty; discriminate).
  destruct (discovery_agrees_with_dispatch ex_accepts ex_dispatcher ex_principal (ex_id "rest")
    [ex_descriptor] Hwf Hc) as (Hsort & _ & H).
  split; [exact Hc|]. split; [exact Hsort|]. intros r d' host' Hd.
  apply (H [] 10 20 ex_invocation r d' host' eq_refl eq_refl Hd).
  apply (bool_decide_unpack _). vm_compute. exact I.
Defined.
End witness.
