(* ===== verification/Atomics.v ===== *)
(** * Atomics: [AtomicBool] with release and acquire orderings

    What the sources use of the memory model of the language.  A store does not overwrite: it
    adds a message, and a thread may read any message that is not older than what it has seen.
    Messages of one atomic are ordered by their timestamps, its modification order.  A view
    has for every atomic the youngest message that is known; a release store leaves the view of
    its thread in the message, and an acquire load joins it to the view of the reader.  A
    read-modify-write puts its message directly after the one it read, so that no two of them
    read the same message.

    Timestamps are integers and a read-modify-write takes the next one.  Which message is read,
    and where in the modification order a store goes, is an argument, [None] the answer where
    the memory model forbids it.  As runs may leave gaps for what comes between, the runs with
    all these arguments are the executions that the orderings allow.  A run that always reads
    and extends the end of the order is one of a sequentially consistent memory; [newest] is
    the timestamp at the end. *)

From S2P Require Import Prelude.

Section atomics.
  Context {L : Type} `{EqDecision L}.

Definition view : Type := L -> Z.
Definition view_bot : view := fun _ => 0.
Definition view_set (l : L) (t : Z) (V : view) : view := fun l' => if decide (l' = l) then t else V l'.
Definition view_join (V W : view) : view := fun l => Z.max (V l) (W l).

Record message := mk_message { m_value : bool; m_view : view }.
Definition memory : Type := L -> gmap Z message.

(** [AtomicBool::new(false)] for every atomic. *)
Definition memory_new : memory := fun _ => {[0 := mk_message false view_bot]}.
Definition memory_add (l : L) (t : Z) (m : message) (M : memory) : memory :=
  fun l' => if decide (l' = l) then <[t := m]> (M l') else M l'.

(** [store(value, Ordering::Release)] with timestamp [t]. *)
Definition atomic_store (l : L) (value : bool) (t : Z) (V : view) (M : memory) : option (view * memory) :=
  if (V l <? t) && bool_decide (M l !! t = None) then
    let V := view_set l t V in Some (V, memory_add l t (mk_message value V) M)
  else None.

(** [load(Ordering::Acquire)] of the message at [t]. *)
Definition atomic_load (l : L) (t : Z) (V : view) (M : memory) : option (bool * view) :=
  if V l <=? t then m ← M l !! t; Some (m_value m, view_join (view_set l t V) (m_view m)) else None.

(** [swap(value, Ordering::AcqRel)]. *)
Definition atomic_swap (l : L) (value : bool) (t : Z) (V : view) (M : memory) : option (bool * view * memory) :=
  '(old, V) ← atomic_load l t V M;
  '(V, M) ← atomic_store l value (t + 1) V M;
  Some (old, V, M).

(** [compare_exchange(expected, value, Ordering::AcqRel, Ordering::Acquire)], and whether it
    succeeded; where it fails it is a load. *)
Definition compare_exchange (l : L) (expected value : bool) (t : Z) (V : view) (M : memory) : option (bool * view * memory) :=
  '(old, W) ← atomic_load l t V M;
  if eqb old expected then '(_, V, M) ← atomic_swap l value t V M; Some (true, V, M) else Some (false, W, M).

Definition newest (l : L) (M : memory) : Z := foldr Z.max 0 (elements (dom (M l))).

(** The value at the end of the modification order. *)
Definition latest (l : L) (M : memory) : bool := default false (m_value <$> M l !! newest l M).

(** ** Views are of messages that exist *)

Definition known (M : memory) (V : view) : Prop := forall l, is_Some (M l !! V l).
Record memory_ok (M : memory) : Prop := {
  memory_first l : is_Some (M l !! 0);
  memory_views l t m : M l !! t = Some m -> known M (m_view m);
}.

(** The messages of [M] are still there. *)
Definition extends (M M' : memory) : Prop := forall l, M l ⊆ M' l.

Lemma extends_refl M : extends M M.
Proof. by intros l. Qed.
Lemma extends_trans M1 M2 M3 : extends M1 M2 -> extends M2 M3 -> extends M1 M3.
Proof. intros H1 H2 l. by transitivity (M2 l). Qed.

Lemma known_extends M M' V : extends M M' -> known M V -> known M' V.
Proof. intros He Hk l. destruct (Hk l) as [m Hm]. exists m. by eapply lookup_weaken. Qed.

Lemma known_join M V W : known M V -> known M W -> known M (view_join V W).
Proof. intros HV HW l. unfold view_join. destruct (Z.max_spec (V l) (W l)) as [[_ ->]|[_ ->]]; [apply HW|apply HV]. Qed.

Lemma known_set M V l t : known M V -> is_Some (M l !! t) -> known M (view_set l t V).
Proof. intros HV Ht l'. unfold view_set. case_decide; [by subst|apply HV]. Qed.

Lemma known_bot M : memory_ok M -> known M view_bot.
Proof. intros Hok l. apply (memory_first _ Hok). Qed.

Lemma memory_new_ok : memory_ok memory_new.
Proof.
  split; [intros l; by eexists; apply lookup_singleton_eq|]. intros l t m Hm. unfold memory_new in Hm. apply lookup_singleton_Some in Hm as [_ <-].
  intros l'. eexists. apply lookup_singleton_eq.
Qed.

Lemma memory_add_eq l t m M : memory_add l t m M l = <[t := m]> (M l).
Proof. unfold memory_add. by rewrite decide_True. Qed.
Lemma memory_add_ne l l' t m M : l' <> l -> memory_add l t m M l' = M l'.
Proof. intros Hne. unfold memory_add. by rewrite decide_False. Qed.

Lemma memory_add_extends l t m M : M l !! t = None -> extends M (memory_add l t m M).
Proof. intros Ht l'. unfold memory_add. case_decide; [subst; by apply insert_subseteq|done]. Qed.

(** ** What the accesses do *)

Lemma atomic_store_Some l b t V M V' M' :
  atomic_store l b t V M = Some (V', M') ->
  V l < t /\ M l !! t = None /\ V' = view_set l t V /\ M' = memory_add l t (mk_message b V') M.
Proof.
  unfold atomic_store. destruct (Z.ltb_spec (V l) t); [|done]. case_bool_decide; [|done]. cbn. by intros [= <- <-].
Qed.

Lemma atomic_load_Some l t V M b V' :
  atomic_load l t V M = Some (b, V') ->
  V l <= t /\ exists m, M l !! t = Some m /\ m_value m = b /\ V' = view_join (view_set l t V) (m_view m).
Proof.
  unfold atomic_load. destruct (Z.leb_spec (V l) t); [|done]. destruct (M l !! t) as [m|]; [|done]. intros [= <- <-]. split; [done|]. by exists m.
Qed.

Lemma atomic_swap_Some l b t V M old V' M' :
  atomic_swap l b t V M = Some (old, V', M') ->
  exists W, atomic_load l t V M = Some (old, W) /\ atomic_store l b (t + 1) W M = Some (V', M').
Proof.
  unfold atomic_swap. destruct (atomic_load l t V M) as [[v W]|]; [|done]. cbn. destruct (atomic_store l b (t + 1) W M) as [[W' N]|] eqn:Hs; [|done].
  cbn. intros [= <- <- <-]. by exists W.
Qed.

Lemma compare_exchange_Some l expected b t V M ok V' M' :
  compare_exchange l expected b t V M = Some (ok, V', M') ->
  if ok then atomic_swap l b t V M = Some (expected, V', M')
  else exists old, old <> expected /\ atomic_load l t V M = Some (old, V') /\ M' = M.
Proof.
  unfold compare_exchange. destruct (atomic_load l t V M) as [[old W]|] eqn:Hl; [|done]. cbn. destruct (eqb_spec old expected) as [->|Hne].
  - destruct (atomic_swap l b t V M) as [[[v X] N]|] eqn:Hs; [|done]. cbn. intros [= <- <- <-].
    apply atomic_swap_Some in Hs as Hs'. destruct Hs' as (W' & Hl' & _). rewrite Hl in Hl'. by injection Hl' as -> ->.
  - intros [= <- <- <-]. by exists old.
Qed.

(** Every access keeps the memory and the views in order. *)
Lemma store_ok l b t V M V' M' :
  memory_ok M -> known M V -> atomic_store l b t V M = Some (V', M') -> memory_ok M' /\ known M' V' /\ extends M M'.
Proof.
  intros Hok HV (Hlt & Hnone & HV' & ->)%atomic_store_Some. pose proof (memory_add_extends l t (mk_message b V') M Hnone) as He.
  assert (known (memory_add l t (mk_message b V') M) V') as Hk.
  { rewrite HV' at 2. apply known_set; [by eapply known_extends|]. rewrite memory_add_eq. eexists. apply lookup_insert_eq. }
  split; [|done]. split; [intros l'; by apply (lookup_weaken_is_Some _ _ _ (memory_first _ Hok l'))|].
  intros l' t' m Hm. unfold memory_add in Hm. case_decide; [|eapply known_extends, (memory_views _ Hok); done].
  apply lookup_insert_Some in Hm as [[_ <-]|[_ Hm]]; [done|]. eapply known_extends, (memory_views _ Hok); done.
Qed.

Lemma load_ok l t V M b V' : memory_ok M -> known M V -> atomic_load l t V M = Some (b, V') -> known M V'.
Proof.
  intros Hok HV (_ & m & Hm & _ & ->)%atomic_load_Some. apply known_join; [apply known_set; [done|by eexists]|]. by eapply memory_views.
Qed.

Lemma swap_ok l b t V M old V' M' :
  memory_ok M -> known M V -> atomic_swap l b t V M = Some (old, V', M') -> memory_ok M' /\ known M' V' /\ extends M M'.
Proof. intros Hok HV (W & Hl & Hs)%atomic_swap_Some. eapply store_ok; [done| |done]. by eapply load_ok. Qed.

Lemma exchange_ok l expected b t V M ok V' M' :
  memory_ok M -> known M V -> compare_exchange l expected b t V M = Some (ok, V', M') -> memory_ok M' /\ known M' V' /\ extends M M'.
Proof.
  intros Hok HV H%compare_exchange_Some. destruct ok; [by eapply swap_ok|]. destruct H as (old & _ & Hl & ->).
  split; [done|]. split; [by eapply load_ok|apply extends_refl].
Qed.

(** ** The end of the modification order *)

Lemma newest_bound l M t : is_Some (M l !! t) -> t <= newest l M.
Proof.
  intros Ht%elem_of_dom%elem_of_elements. unfold newest. induction (elements (dom (M l))) as [|x xs IH]; [by apply not_elem_of_nil in Ht|].
  apply elem_of_cons in Ht as [->|Ht]; cbn; [lia|]. specialize (IH Ht). lia.
Qed.

Lemma newest_in l M : is_Some (M l !! 0) -> is_Some (M l !! newest l M).
Proof.
  intros H0. assert (newest l M = 0 \/ newest l M ∈ elements (dom (M l))) as [->|Hin]; [|done|by apply elem_of_elements, elem_of_dom in Hin].
  unfold newest. induction (elements (dom (M l))) as [|x xs IH]; [by left|]. cbn. destruct (Z.max_spec x (foldr Z.max 0 xs)) as [[_ ->]|[_ ->]].
  - destruct IH as [->|IH]; [by left|right; by right].
  - right. by left.
Qed.

Lemma newest_next l M : M l !! (newest l M + 1) = None.
Proof. apply eq_None_not_Some. intros Ht%newest_bound. lia. Qed.

Lemma newest_unique l M t : is_Some (M l !! t) -> (forall t', is_Some (M l !! t') -> t' <= t) -> is_Some (M l !! 0) -> newest l M = t.
Proof. intros Ht Hmax H0. apply newest_in in H0. apply Hmax in H0. apply newest_bound in Ht. lia. Qed.

Lemma newest_add l l' t m M :
  is_Some (M l' !! 0) -> newest l M < t -> newest l' (memory_add l t m M) = if decide (l' = l) then t else newest l' M.
Proof.
  intros H0 Ht. unfold newest at 1. case_decide as Hl; [subst l'|by rewrite memory_add_ne].
  change (newest l (memory_add l t m M) = t). apply newest_unique; rewrite memory_add_eq.
  - eexists. apply lookup_insert_eq.
  - intros t' [m' [[<- _]|[_ Hm]]%lookup_insert_Some]; [done|]. assert (t' <= newest l M) by (apply newest_bound; by eexists). lia.
  - by apply lookup_insert_is_Some'; right.
Qed.

Lemma latest_add l l' t b V M :
  is_Some (M l' !! 0) -> newest l M < t -> latest l' (memory_add l t (mk_message b V) M) = if decide (l' = l) then b else latest l' M.
Proof.
  intros H0 Ht. unfold latest. rewrite newest_add by done. case_decide as Hl; [subst l'|by rewrite memory_add_ne].
  by rewrite memory_add_eq, lookup_insert_eq.
Qed.

(** At the end of the order every access is allowed, and does what it does in a sequentially
    consistent memory. *)
Lemma store_newest l b V M :
  known M V -> exists V' m, atomic_store l b (newest l M + 1) V M = Some (V', memory_add l (newest l M + 1) m M) /\ m_value m = b.
Proof.
  intros HV. pose proof (newest_bound _ _ _ (HV l)). unfold atomic_store. rewrite newest_next.
  rewrite (proj2 (Z.ltb_lt _ _)), bool_decide_true by (done || lia). eexists _, _. cbn. by split.
Qed.

Lemma load_newest l V M :
  memory_ok M -> known M V -> exists V', atomic_load l (newest l M) V M = Some (latest l M, V') /\ known M V' /\ V' l = newest l M.
Proof.
  intros Hok HV. unfold atomic_load, latest. rewrite (proj2 (Z.leb_le _ _)) by (apply newest_bound, HV).
  destruct (newest_in l M (memory_first _ Hok l)) as [m Hm]. rewrite Hm. eexists. split; [done|].
  assert (known M (m_view m)) as Hmv by (by eapply memory_views). split; [apply known_join; [apply known_set; [done|by eexists]|done]|].
  unfold view_join, view_set. rewrite decide_True by done. pose proof (newest_bound _ _ _ (Hmv l)). lia.
Qed.

Lemma swap_newest l b V M :
  memory_ok M -> known M V ->
  exists V' m, atomic_swap l b (newest l M) V M = Some (latest l M, V', memory_add l (newest l M + 1) m M) /\ m_value m = b.
Proof.
  intros Hok HV. destruct (load_newest l V M Hok HV) as (W & Hl & HW & _). destruct (store_newest l b W M HW) as (V' & m & Hs & Hm).
  exists V', m. unfold atomic_swap. rewrite Hl. cbn. by rewrite Hs.
Qed.

Lemma exchange_newest l expected b V M :
  memory_ok M -> known M V ->
  exists V', if eqb (latest l M) expected
    then exists m, compare_exchange l expected b (newest l M) V M = Some (true, V', memory_add l (newest l M + 1) m M) /\ m_value m = b
    else compare_exchange l expected b (newest l M) V M = Some (false, V', M).
Proof.
  intros Hok HV. destruct (load_newest l V M Hok HV) as (W & Hl & HW & _). destruct (swap_newest l b V M Hok HV) as (V' & m & Hs & Hm).
  unfold compare_exchange. rewrite Hl. cbn. destruct (eqb (latest l M) expected); [|by exists W]. exists V', m. by rewrite Hs.
Qed.
End atomics.

Arguments view : clear implicits.
Arguments message : clear implicits.
Arguments memory : clear implicits.
