(* ===== verification/DispatchFlat.v ===== *)
(** * DispatchFlat: the protocol of a dispatch, with plain flags

    The two atomics of [DispatchTask] (capabilities.rs of [bondry-runtime-ffi]) as plain
    variables, which every thread reads and writes at once: what the code does in a sequentially
    consistent memory.  DispatchTask.v has the code with the orderings it asks for, and is
    related to this.

    [will_poll] is the invariant by which no wake is lost, [awaited_execs] that it holds in all
    interleavings, and [awaited_quiet] that the callback was called when no thread is left. *)

From S2P Require Import Prelude.

Section points.
  Context {R : Type} (invalid_result : R).

(** ** The completion *)

Inductive ForeignCompletion :=
| CPending (waker : bool)
| CReady (r : R)
| CConsumed.

(** [ForeignCompletionState::complete], and whether a waker is woken. *)
Definition completion_complete (r : R) (c : ForeignCompletion) : ForeignCompletion * bool :=
  match c with
  | CPending waker => (CReady r, waker)
  | previous => (previous, false)
  end.

(** [ForeignHandlerFuture::poll]. *)
Definition handler_future_poll (c : ForeignCompletion) : ForeignCompletion * option R :=
  match c with
  | CPending _ => (CPending true, None)
  | CReady r => (CConsumed, Some r)
  | CConsumed => (CConsumed, Some invalid_result)
  end.

(** ** The threads *)

(** What a thread does next: the two steps of [request_poll], the steps of the loop of
    [drive] in the order of the source, and the call of the callback. *)
Inductive pc :=
| Request
| TryPoll
| Clear
| Poll
| Finish (r : R)
| Call (r : R)
| Swap
| Release
| Recheck
| Retry.

Definition carries (r : R) (p : pc) : Prop := match p with Finish x | Call x => x = r | _ => True end.

(** A thread takes a step, the host completes the handler, or a waker is woken although
    nothing was completed. *)
Inductive event :=
| Run (thread : nat)
| Complete (r : R)
| Wake.

(** What the host completed the handler with; later completions count for nothing. *)
Fixpoint first_completion (evs : list event) : option R :=
  match evs with
  | [] => None
  | Complete r :: _ => Some r
  | _ :: evs => first_completion evs
  end.

Definition woken_by_completion (ev : event) : Prop := match ev with Wake => False | _ => True end.

(** ** How many threads are where *)

Definition label (p : pc) : nat :=
  match p with
  | Request => 0 | TryPoll => 1 | Clear => 2 | Poll => 3 | Finish _ => 4 | Call _ => 5 | Swap => 6 | Release => 7 | Recheck => 8 | Retry => 9
  end.
Definition tally (k : nat) (threads : list pc) : nat := sum_list_with (fun p => if Nat.eqb (label p) k then 1 else 0)%nat threads.

Lemma tally_app k l1 l2 : tally k (l1 ++ l2) = (tally k l1 + tally k l2)%nat.
Proof. apply sum_list_with_app. Qed.
Lemma tally_cons k p l : tally k (p :: l) = ((if Nat.eqb (label p) k then 1 else 0) + tally k l)%nat.
Proof. done. Qed.
Lemma tally_nil k : tally k [] = 0%nat.
Proof. done. Qed.

End points.

Arguments ForeignCompletion : clear implicits.
Arguments pc : clear implicits.
Arguments event : clear implicits.
#[global] Arguments tally : simpl never.

(** Splits every tally into those of the parts of the list. *)
Ltac tallies := repeat match goal with
  | H : context [tally _ (_ ++ _)] |- _ => rewrite tally_app in H
  | H : context [tally _ (_ :: _)] |- _ => rewrite tally_cons in H
  | H : context [tally _ []] |- _ => rewrite tally_nil in H
  | |- context [tally _ (_ ++ _)] => rewrite tally_app
  | |- context [tally _ (_ :: _)] => rewrite tally_cons
  | |- context [tally _ []] => rewrite tally_nil
  end; cbn [label Nat.eqb] in *.

Section flat.
  Context {R : Type} (invalid_result : R).

(** ** The task, with plain flags *)

Record FlatTask := mk_flat_task {
  f_completion : ForeignCompletion R;
  f_future : bool;
  f_callback : bool;
  f_polling : bool;
  f_requested : bool;
  f_calls : list R;
}.

Definition flat_set_polling (b : bool) (t : FlatTask) : FlatTask :=
  mk_flat_task (f_completion t) (f_future t) (f_callback t) b (f_requested t) (f_calls t).
Definition flat_set_requested (b : bool) (t : FlatTask) : FlatTask :=
  mk_flat_task (f_completion t) (f_future t) (f_callback t) (f_polling t) b (f_calls t).

(** The poll under the lock. *)
Definition flat_poll (t : FlatTask) : option (pc R) * FlatTask :=
  if negb (f_future t) then (None, flat_set_polling false t)
  else
    let '(c, ready) := handler_future_poll invalid_result (f_completion t) in
    match ready with
    | None => (Some Swap, mk_flat_task c true (f_callback t) (f_polling t) (f_requested t) (f_calls t))
    | Some r =>
        ((if f_callback t then Some (Finish r) else Some Swap), mk_flat_task c false false (f_polling t) (f_requested t) (f_calls t))
    end.

(** One step of a thread; [None] when it is done. *)
Definition flat_step (p : pc R) (t : FlatTask) : option (pc R) * FlatTask :=
  match p with
  | Request => (Some TryPoll, flat_set_requested true t)
  | TryPoll | Retry => if f_polling t then (None, t) else (Some Clear, flat_set_polling true t)
  | Clear => (Some Poll, flat_set_requested false t)
  | Poll => flat_poll t
  | Finish r => (Some (Call r), flat_set_polling false t)
  | Call r => (None, mk_flat_task (f_completion t) (f_future t) (f_callback t) (f_polling t) (f_requested t) (f_calls t ++ [r]))
  | Swap => if f_requested t then (Some Clear, flat_set_requested false t) else (Some Release, t)
  | Release => (Some Recheck, flat_set_polling false t)
  | Recheck => if f_requested t then (Some Retry, flat_set_requested false t) else (None, t)
  end.

(** ** Interleavings *)

Record FlatSystem := mk_flat_system { f_task : FlatTask; f_threads : list (pc R) }.

(** [DispatchTask::new] and the call of [request_poll] by [start_dispatch].  A dispatch that is
    refused before a handler is invoked waits for nothing: it is ready at its first poll. *)
Definition flat_start (refused : option R) : FlatSystem :=
  let c := match refused with None => CPending false | Some r => CReady r end in
  mk_flat_system (mk_flat_task c true true false false []) [Request].

Definition woken (wakes : bool) (threads : list (pc R)) : list (pc R) := if wakes then threads ++ [Request] else threads.

Definition flat_exec (ev : event R) (s : FlatSystem) : FlatSystem :=
  match ev with
  | Run i =>
      match f_threads s !! i with
      | None => s
      | Some p =>
          let '(next, t) := flat_step p (f_task s) in
          mk_flat_system t (take i (f_threads s) ++ option_list next ++ drop (S i) (f_threads s))
      end
  | Complete r =>
      let t := f_task s in
      let '(c, wakes) := completion_complete r (f_completion t) in
      mk_flat_system (mk_flat_task c (f_future t) (f_callback t) (f_polling t) (f_requested t) (f_calls t)) (woken wakes (f_threads s))
  | Wake => mk_flat_system (f_task s) (woken true (f_threads s))
  end.

Definition flat_execs (evs : list (event R)) (s : FlatSystem) : FlatSystem := foldl (fun s ev => flat_exec ev s) s evs.

(** A step of a thread, as a step of one member of the list. *)
Lemma flat_run_cases i s :
  flat_exec (Run i) s = s /\ f_threads s !! i = None \/
  exists l1 p l2, f_threads s = l1 ++ p :: l2 /\ f_threads s !! i = Some p /\
    flat_exec (Run i) s = mk_flat_system (flat_step p (f_task s)).2 (l1 ++ option_list (flat_step p (f_task s)).1 ++ l2).
Proof.
  cbn. destruct (f_threads s !! i) as [p|] eqn:Hi; [|by left]. right. exists (take i (f_threads s)), p, (drop (S i) (f_threads s)).
  split; [by rewrite take_drop_middle|]. split; [done|]. by destruct (flat_step p (f_task s)).
Qed.

(** ** One thread polls, and the callback is called at most once *)

Definition flat_sound (s : FlatSystem) : Prop :=
  let t := f_task s in let n k := tally k (f_threads s) in
  (n 2 + n 3 + n 4 + n 6 + n 7)%nat = Nat.b2n (f_polling t) /\
  (Nat.b2n (f_callback t) + n 4 + n 5 + length (f_calls t))%nat = 1%nat /\ f_future t = f_callback t.

Lemma tally_woken k b threads : tally k (woken b threads) = (tally k threads + if b && Nat.eqb 0 k then 1 else 0)%nat.
Proof. destruct b; cbn [woken andb]; [|by rewrite Nat.add_0_r]. rewrite tally_app. f_equal. by destruct k. Qed.

Lemma flat_sound_exec ev s : flat_sound s -> flat_sound (flat_exec ev s).
Proof.
  intros (Hpol & Hcall & Hfut). cbv beta in Hpol, Hcall. destruct ev as [i|r|].
  - destruct (flat_run_cases i s) as [[-> _]|(l1 & p & l2 & Hl & _ & ->)]; [done|].
    destruct s as [t ts]. cbn [f_task f_threads] in *. subst ts. destruct t as [c f cb pol req calls]. cbn in Hfut. subst f.
    cbn [f_polling f_callback f_calls] in *. unfold flat_sound. cbn [f_task f_threads].
    destruct p, cb, pol, req; cbn [flat_step]; unfold flat_poll; cbn [f_polling f_requested f_future f_callback f_completion negb];
      repeat (case_match; simplify_eq/=); cbn in *; tallies; rewrite ?length_app; cbn in *; repeat split; try done; lia.
  - cbn. destruct s as [t ts]. destruct t as [c f cb pol req calls]. cbn in *. destruct c; cbn; unfold flat_sound; cbn; rewrite ?tally_woken;
      rewrite ?andb_false_r; cbn; rewrite ?Nat.add_0_r; done.
  - unfold flat_sound. cbn [flat_exec f_task f_threads]. rewrite !tally_woken. cbn. rewrite !Nat.add_0_r. done.
Qed.

(** ** Where no wake is lost

    Before the host completes the handler there is one thread, that of [start_dispatch], on
    its way through one poll that leaves a waker behind. *)
Inductive early : bool -> bool -> bool -> list (pc R) -> Prop :=
| early_request : early false false false [Request]
| early_try : early false false true [TryPoll]
| early_clear : early false true true [Clear]
| early_poll : early false true false [Poll]
| early_swap : early true true false [Swap]
| early_release : early true true false [Release]
| early_recheck : early true false false [Recheck]
| early_done : early true false false [].

(** From then on, while the future is not done, some thread will poll it: one is on its way
    to a poll; or the request is set and one will see it; or one is about to try again and
    nobody else drives.  At most one thread still acts on a poll from before. *)
Definition will_poll (s : FlatSystem) : Prop :=
  let n k := tally k (f_threads s) in let t := f_task s in
  (n 6 + n 7 + n 8 + n 9 <= 1)%nat /\
  ((1 <= n 0 + n 2 + n 3)%nat \/
   (Nat.b2n (f_requested t) = 1 /\ 1 <= n 1 + n 6 + n 7 + n 8)%nat \/
   (1 <= n 9 /\ Nat.b2n (f_polling t) = 0)%nat).

Definition awaited (completed : option R) (s : FlatSystem) : Prop :=
  match completed with
  | None => exists w pol req ts, s = mk_flat_system (mk_flat_task (CPending w) true true pol req []) ts /\ early w pol req ts
  | Some r =>
      flat_sound s /\ Forall (carries r) (f_threads s) /\ Forall (eq r) (f_calls (f_task s)) /\
      (if f_future (f_task s) then f_completion (f_task s) = CReady r /\ will_poll s else f_completion (f_task s) = CConsumed)
  end.

Lemma awaited_run_early i s : awaited None s -> awaited None (flat_exec (Run i) s).
Proof.
  intros (w & pol & req & ts & -> & He). destruct He; try (destruct i; [|by repeat eexists; constructor]); by repeat eexists; constructor.
Qed.

Lemma awaited_run i r s : awaited (Some r) s -> awaited (Some r) (flat_exec (Run i) s).
Proof.
  intros (Hs & Hc & Hr & Hf). pose proof (flat_sound_exec (Run i) s Hs) as Hs'.
  destruct (flat_run_cases i s) as [[Hsame _]|(l1 & p & l2 & Hl & _ & Hrun)]; [by rewrite Hsame|]. split; [done|]. clear Hs'. rewrite Hrun.
  destruct Hs as (Hpol & Hcall & Hfut). cbv beta in Hpol, Hcall. unfold will_poll in *. cbv beta zeta in *.
  destruct s as [[c f cb pol req calls] ts]. cbn [f_task f_threads f_future f_completion f_callback f_polling f_requested f_calls] in *. subst ts f.
  apply Forall_app in Hc as [Hc1 [Hp Hc2]%Forall_cons]. destruct cb; [destruct Hf as (-> & Hstale & Hw)|subst c].
  - destruct p, pol, req; cbn in *; tallies; first [exfalso; lia|split; [by repeat (apply Forall_app; split) || constructor|split; [done|]]].
    all: first [done|split; [done|lia]].
  - destruct p, pol, req; cbn in *; (split; [repeat (apply Forall_app; split) || constructor; done|split; [|done]]); try done.
    all: apply Forall_app; split; [done|]; by repeat constructor.
Qed.

(** The completion of a handler that is being waited for. *)
Lemma awaited_complete_first r s : awaited None s -> awaited (Some r) (flat_exec (Complete r) s).
Proof.
  intros (w & pol & req & ts & -> & He). unfold awaited, will_poll, flat_sound. destruct He; cbn; tallies; cbn;
    (split; [repeat split; lia|]); (split; [by repeat constructor|]); (split; [constructor|]); (split; [done|]); lia.
Qed.

Lemma awaited_complete_again r r' s : awaited (Some r) s -> awaited (Some r) (flat_exec (Complete r') s).
Proof.
  intros (Hs & Hc & Hr & Hf). pose proof (flat_sound_exec (Complete r') s Hs) as Hs'. split; [done|]. clear Hs Hs'.
  destruct s as [[c f cb pol req calls] ts]. cbn in *. destruct f; [destruct Hf as [-> Hw]|subst c]; cbn; done.
Qed.

Lemma awaited_execs evs completed s :
  Forall woken_by_completion evs -> awaited completed s ->
  awaited (match completed with Some r => Some r | None => first_completion evs end) (flat_execs evs s).
Proof.
  intros He. revert completed s. induction He as [|ev evs Hev _ IH]; intros completed s Hs; [by destruct completed|]. cbn [flat_execs foldl].
  destruct ev as [i|r|]; [|destruct completed as [r0|]|done].
  - destruct completed as [r0|]; cbn [first_completion]; [apply (IH (Some r0)); by apply awaited_run|apply (IH None); by apply awaited_run_early].
  - apply (IH (Some r0)). by apply awaited_complete_again.
  - apply (IH (Some r)). by apply awaited_complete_first.
Qed.

Lemma awaited_quiet r s : awaited (Some r) s -> f_threads s = [] -> f_calls (f_task s) = [r].
Proof.
  intros ((_ & Hcall & Hfut) & _ & Hr & Hf) Ht. cbv beta in Hcall. unfold will_poll in Hf. cbv beta zeta in Hf. rewrite Ht in Hcall, Hf. tallies.
  rewrite Hfut in Hf. destruct (f_callback (f_task s)); cbn in *; [lia|]. destruct (f_calls (f_task s)) as [|x [|]]; cbn in Hcall; [lia| |lia].
  by apply Forall_cons in Hr as [-> _].
Qed.

Lemma awaited_start refused : awaited refused (flat_start refused).
Proof. destruct refused as [r|]; [|by repeat eexists; constructor]. unfold awaited, will_poll, flat_sound. cbn. repeat split; repeat constructor. Qed.

End flat.
