(* ===== verification/DispatchTask.v ===== *)
(** * DispatchTask: driving one dispatch of the foreign interface

    capabilities.rs of [bondry-runtime-ffi]: a dispatch that a foreign host started is polled by
    whichever thread wakes it.  [DispatchTask] keeps the future and the completion callback
    behind a mutex and lets one thread at a time poll, with two atomics: [polling] is held by
    the thread that drives, [poll_requested] tells it to poll again.  The future waits for a
    [ForeignCompletionState], which the host completes from any thread; completing it wakes the
    task on that thread.

    Threads are interleaved at every access to the atomics, which have the orderings of the
    source in the memory of Atomics.v: a step names the message it reads or the place of the one
    it writes.  A mutex hands on the view of the thread that had it last.  A thread polls only
    while it holds [polling], so the lock of the state is never contended, and the lock of the
    completion is held for one match: both are taken and given back within a step.

    [completion_called_exactly_once] is the contract of an accepted dispatch.  In every execution
    that the orderings allow, the callback is called at most once, and every thread stops.  In
    the executions that a sequentially consistent memory has too it is called exactly once, by
    the proof for plain flags in DispatchFlat.v.  [wake_lost_by_orderings] is an execution that
    only the weaker orderings allow, and in which it is not called; [wake_lost_by_wake] shows
    that a future must wake its task once. *)

From S2P Require Import Prelude Atomics DispatchFlat.

(** [polling] and [poll_requested]. *)
Inductive flag := Polling | PollRequested.
#[export] Instance flag_eq_dec : EqDecision flag.
Proof. solve_decision. Defined.

Section task.
  Context {R : Type} (invalid_result : R).

(** ** The task *)

Record TaskState := mk_task_state {
  t_atomics : memory flag;
  t_completion : ForeignCompletion R;
  t_completion_lock : view flag;
  t_future : bool;
  t_callback : bool;
  t_state_lock : view flag;
  t_calls : list R;
}.

Definition set_atomics (M : memory flag) (t : TaskState) : TaskState :=
  mk_task_state M (t_completion t) (t_completion_lock t) (t_future t) (t_callback t) (t_state_lock t) (t_calls t).

(** A thread: what it does next, and what it has seen. *)
#[local] Abbreviation thread := (pc R * view flag)%type.

(** The poll under the lock. *)
Definition drive_poll (c : Z) (V : view flag) (t : TaskState) : option (option thread * TaskState) :=
  let V := view_join V (t_state_lock t) in
  if negb (t_future t) then
    '(V, M) ← atomic_store Polling false c V (t_atomics t);
    Some (None, mk_task_state M (t_completion t) (t_completion_lock t) false (t_callback t) V (t_calls t))
  else
    let V := view_join V (t_completion_lock t) in
    let '(completion, ready) := handler_future_poll invalid_result (t_completion t) in
    match ready with
    | None => Some (Some (Swap, V), mk_task_state (t_atomics t) completion V true (t_callback t) V (t_calls t))
    | Some r =>
        Some (if t_callback t then Some (Finish r, V) else Some (Swap, V),
              mk_task_state (t_atomics t) completion V false false V (t_calls t))
    end.

(** One step of a thread, which goes on or is done, with the message it reads or the place of
    the one it writes; [None] if there is no such access. *)
Definition thread_step (p : pc R) (c : Z) (V : view flag) (t : TaskState) : option (option thread * TaskState) :=
  match p with
  | Request =>
      '(V, M) ← atomic_store PollRequested true c V (t_atomics t);
      Some (Some (TryPoll, V), set_atomics M t)
  | TryPoll | Retry =>
      match compare_exchange Polling false true c V (t_atomics t) with
      | Some (ok, V, M) => Some (if ok then Some (Clear, V) else None, set_atomics M t)
      | None => None
      end
  | Clear =>
      '(V, M) ← atomic_store PollRequested false c V (t_atomics t);
      Some (Some (Poll, V), set_atomics M t)
  | Poll => drive_poll c V t
  | Finish r =>
      '(V, M) ← atomic_store Polling false c V (t_atomics t);
      Some (Some (Call r, V), set_atomics M t)
  | Call r =>
      Some (None, mk_task_state (t_atomics t) (t_completion t) (t_completion_lock t) (t_future t) (t_callback t) (t_state_lock t) (t_calls t ++ [r]))
  | Swap =>
      match atomic_swap PollRequested false c V (t_atomics t) with
      | Some (requested, V, M) => Some (Some (if requested then Clear else Release, V), set_atomics M t)
      | None => None
      end
  | Release =>
      '(V, M) ← atomic_store Polling false c V (t_atomics t);
      Some (Some (Recheck, V), set_atomics M t)
  | Recheck =>
      match atomic_swap PollRequested false c V (t_atomics t) with
      | Some (requested, V, M) => Some (if requested then Some (Retry, V) else None, set_atomics M t)
      | None => None
      end
  end.

(** ** Executions *)

Record System := mk_system { s_task : TaskState; s_threads : list thread }.

(** [DispatchTask::new] and the call of [request_poll] by [start_dispatch].  A dispatch that is
    refused before a handler is invoked waits for nothing: it is ready at its first poll. *)
Definition start_dispatch (refused : option R) : System :=
  let c := match refused with None => CPending false | Some r => CReady r end in
  mk_system (mk_task_state memory_new c view_bot true true view_bot []) [(Request, view_bot)].

(** The thread that completes the handler has seen what its lock tells; one that is woken
    without cause has seen nothing. *)
Definition exec (ev : event R) (c : Z) (s : System) : System :=
  let t := s_task s in
  match ev with
  | Run i =>
      match s_threads s !! i with
      | None => s
      | Some (p, V) =>
          match thread_step p c V t with
          | None => s
          | Some (next, t) => mk_system t (take i (s_threads s) ++ option_list next ++ drop (S i) (s_threads s))
          end
      end
  | Complete r =>
      let '(completion, wakes) := completion_complete r (t_completion t) in
      mk_system
        (mk_task_state (t_atomics t) completion (t_completion_lock t) (t_future t) (t_callback t) (t_state_lock t) (t_calls t))
        (if wakes then s_threads s ++ [(Request, t_completion_lock t)] else s_threads s)
  | Wake => mk_system t (s_threads s ++ [(Request, view_bot)])
  end.

Definition execs (evs : list (event R * Z)) (s : System) : System := foldl (fun s '(ev, c) => exec ev c s) s evs.

(** ** Sequentially consistent executions *)

(** The access at the end of the modification order. *)
Definition last_access (p : pc R) (M : memory flag) : Z :=
  match p with
  | Request | Clear => newest PollRequested M + 1
  | TryPoll | Retry => newest Polling M
  | Swap | Recheck => newest PollRequested M
  | Poll | Finish _ | Release => newest Polling M + 1
  | Call _ => 0
  end.

Definition in_order (ev : event R) (s : System) : Z :=
  match ev with
  | Run i => match s_threads s !! i with Some (p, _) => last_access p (t_atomics (s_task s)) | None => 0 end
  | _ => 0
  end.

Definition exec_sc (ev : event R) (s : System) : System := exec ev (in_order ev s) s.
Definition execs_sc (evs : list (event R)) (s : System) : System := foldl (fun s ev => exec_sc ev s) s evs.

(** Running whatever thread comes first, [n] times. *)
Definition run_on (n : nat) (s : System) : System := execs_sc (replicate n (Run 0)) s.

(** The task with plain flags. *)
Definition flat_task (t : TaskState) : FlatTask :=
  mk_flat_task (t_completion t) (t_future t) (t_callback t) (latest Polling (t_atomics t)) (latest PollRequested (t_atomics t)) (t_calls t).
Definition flat (s : System) : FlatSystem := mk_flat_system (flat_task (s_task s)) (s_threads s).*1.

(** ** Every view is of messages that exist *)

Definition ok_views (t : TaskState) (ts : list thread) : Prop :=
  memory_ok (t_atomics t) /\ known (t_atomics t) (t_completion_lock t) /\ known (t_atomics t) (t_state_lock t) /\
  Forall (fun th => known (t_atomics t) th.2) ts.

(** A step of a thread, as a step of one member of the list. *)
Lemma exec_run_cases i c s :
  exec (Run i) c s = s \/
  exists l1 p V l2 next t, s_threads s = l1 ++ (p, V) :: l2 /\ thread_step p c V (s_task s) = Some (next, t) /\
    exec (Run i) c s = mk_system t (l1 ++ option_list next ++ l2).
Proof.
  cbn. destruct (s_threads s !! i) as [[p V]|] eqn:Hi; [|by left]. destruct (thread_step p c V (s_task s)) as [[next t]|] eqn:Hstep; [right|by left].
  exists (take i (s_threads s)), p, V, (drop (S i) (s_threads s)), next, t. by rewrite take_drop_middle.
Qed.

(** Takes the accesses of a step apart. *)
Ltac step_cases H := unfold thread_step, drive_poll in H; cbv zeta in H; repeat match type of H with
  | context [negb (t_future ?t)] => let E := fresh "Hfuture" in destruct (t_future t) eqn:E; cbn [negb] in H
  | context [atomic_store ?l ?b ?c ?V ?M] => let E := fresh "Hstore" in destruct (atomic_store l b c V M) as [[? ?]|] eqn:E; [|done]
  | context [atomic_swap ?l ?b ?c ?V ?M] => let E := fresh "Hswap" in destruct (atomic_swap l b c V M) as [[[? ?] ?]|] eqn:E; [|done]
  | context [compare_exchange ?l ?e ?b ?c ?V ?M] =>
      let E := fresh "Hexchange" in destruct (compare_exchange l e b c V M) as [[[? ?] ?]|] eqn:E; [|done]
  end; cbn in H; repeat (case_match; cbn in H); simplify_eq.

Lemma thread_step_ok p c V t next t' :
  ok_views t [(p, V)] -> thread_step p c V t = Some (next, t') -> ok_views t' (option_list next) /\ extends (t_atomics t) (t_atomics t').
Proof.
  intros (Hm & Hc & Hs & [HV _]%Forall_cons) Hstep. cbn in HV.
  assert (known (t_atomics t) (view_join V (t_state_lock t))) as HVs by by apply known_join.
  assert (known (t_atomics t) (view_join (view_join V (t_state_lock t)) (t_completion_lock t))) as HVc by by apply known_join.
  destruct p; step_cases Hstep;
    repeat match goal with
    | H : atomic_store _ _ _ _ _ = _ |- _ => apply store_ok in H as (? & ? & ?); [|done|done]
    | H : atomic_swap _ _ _ _ _ = _ |- _ => apply swap_ok in H as (? & ? & ?); [|done|done]
    | H : compare_exchange _ _ _ _ _ _ = _ |- _ => apply exchange_ok in H as (? & ? & ?); [|done|done]
    end; (split; [|first [done|apply extends_refl]]); unfold ok_views; cbn; split_and!; eauto using known_extends, Forall_nil, Forall_cons_2.
Qed.

Lemma ok_views_exec ev c s : ok_views (s_task s) (s_threads s) -> ok_views (s_task (exec ev c s)) (s_threads (exec ev c s)).
Proof.
  intros Hok. destruct ev as [i|r|].
  - destruct (exec_run_cases i c s) as [->|(l1 & p & V & l2 & next & t & Hl & Hstep & ->)]; [done|]. rewrite Hl in Hok.
    destruct Hok as (Hm & Hc & Hs & [H1 [HV H2]%Forall_cons]%Forall_app). apply thread_step_ok in Hstep as [Hok He]; [|split_and!; [done..|by apply Forall_singleton]].
    destruct Hok as (Hm' & Hc' & Hs' & Hn). cbn. split_and!; try done. repeat (apply Forall_app; split); try done.
    all: eapply Forall_impl; [done|]; intros; by eapply known_extends.
  - destruct Hok as (Hm & Hc & Hs & Ht). cbn. destruct (completion_complete r (t_completion (s_task s))) as [cc [|]]; cbn; split_and!; try done.
    apply Forall_app; split; [done|by apply Forall_singleton].
  - destruct Hok as (Hm & Hc & Hs & Ht). cbn. split_and!; try done. apply Forall_app; split; [done|]. apply Forall_singleton. by apply known_bot.
Qed.

(** ** One thread polls *)

(** Puts for the accesses what they do, and for the views what they have of [polling]. *)
Ltac accesses := repeat match goal with
  | H : atomic_store _ _ _ _ _ = Some _ |- _ => apply atomic_store_Some in H as (? & ? & -> & ->)
  | H : atomic_load _ _ _ _ = Some _ |- _ => apply atomic_load_Some in H as (? & ? & ? & ? & ->)
  | H : atomic_swap _ _ _ _ _ = Some _ |- _ => apply atomic_swap_Some in H as (? & ? & ?)
  | H : compare_exchange _ _ _ _ _ _ = Some (true, _, _) |- _ => apply compare_exchange_Some in H
  | H : compare_exchange _ _ _ _ _ _ = Some (false, _, _) |- _ => apply compare_exchange_Some in H as (? & _ & _ & ->)
  end.
Ltac views := unfold view_join, view_set in *; repeat case_decide; simplify_eq.

(** The thread holds [polling]. *)
Definition holds (p : pc R) : bool := match p with Clear | Poll | Finish _ | Swap | Release => true | _ => false end.
Definition holders (ts : list thread) : nat := sum_list_with (fun th => Nat.b2n (holds th.1)) ts.

(** The message [polling = false] that is not the last one was taken by a read-modify-write. *)
Definition taken (N : gmap Z (message flag)) (last : Z) : Prop :=
  forall t m, N !! t = Some m -> m_value m = false -> t <> last -> is_Some (N !! (t + 1)).

Definition exclusive (M : memory flag) (ts : list thread) : Prop :=
  taken (M Polling) (newest Polling M) /\ holders ts = Nat.b2n (latest Polling M) /\
  Forall (fun th => holds th.1 = true -> newest Polling M <= th.2 Polling) ts.

(** What a step does to [polling]: nothing; it takes it where it is free; or it gives it up. *)
Definition keeps (V : view flag) (p : pc R) (M M' : memory flag) (next : option thread) : Prop :=
  M' Polling = M Polling /\
  match next with Some (p', V') => holds p' = holds p /\ V Polling <= V' Polling | None => holds p = false end.
Definition takes (c : Z) (p : pc R) (M M' : memory flag) (next : option thread) : Prop :=
  exists p' V' m m', next = Some (p', V') /\ holds p = false /\ holds p' = true /\ V' Polling = c + 1 /\
    M Polling !! c = Some m /\ m_value m = false /\ M Polling !! (c + 1) = None /\ m_value m' = true /\ M' = memory_add Polling (c + 1) m' M.
Definition gives_up (c : Z) (V : view flag) (p : pc R) (M M' : memory flag) (next : option thread) : Prop :=
  exists m', holds p = true /\ match next with Some (p', _) => holds p' = false | None => True end /\
    V Polling < c /\ M Polling !! c = None /\ m_value m' = false /\ M' = memory_add Polling c m' M.

Lemma step_polling p c V t next t' :
  thread_step p c V t = Some (next, t') ->
  let M := t_atomics t in let M' := t_atomics t' in keeps V p M M' next \/ takes c p M M' next \/ gives_up c V p M M' next.
Proof.
  intros Hstep. cbv zeta. destruct p; step_cases Hstep; accesses; cbn.
  all: first
    [ left; split; [done|]; views; first [done|split; [done|lia]]
    | right; left; eexists _, _, _, (mk_message true _); split_and!; try done; by views
    | right; right; eexists (mk_message false _); split_and!; try done; views; lia ].
Qed.

Lemma holders_app l1 l2 : holders (l1 ++ l2) = (holders l1 + holders l2)%nat.
Proof. apply sum_list_with_app. Qed.
Lemma holders_cons p V l : holders ((p, V) :: l) = (Nat.b2n (holds p) + holders l)%nat.
Proof. done. Qed.

(** Where nobody holds [polling], nothing is said of what has been seen of it. *)
Lemma holders_none ts z : holders ts = 0%nat -> Forall (fun th : thread => holds th.1 = true -> z <= th.2 Polling) ts.
Proof.
  induction ts as [|[p V] ts IH]; [constructor|]. rewrite holders_cons. intros H. constructor; [|apply IH; lia].
  cbn. intros Hp. rewrite Hp in H. cbn in H. lia.
Qed.

Lemma same_polling (M M' : memory flag) : M' Polling = M Polling -> newest Polling M' = newest Polling M /\ latest Polling M' = latest Polling M.
Proof. unfold latest, newest. by intros ->. Qed.

Lemma exclusive_keeps M M' l1 p V l2 next :
  keeps V p M M' next -> exclusive M (l1 ++ (p, V) :: l2) -> exclusive M' (l1 ++ option_list next ++ l2).
Proof.
  intros [Hsame Hn] (Ht & Hh & Hf). destruct (same_polling M M' Hsame) as [Hnew Hlat]. unfold exclusive. rewrite Hnew, Hlat, Hsame.
  apply Forall_app in Hf as [H1 [Hp H2]%Forall_cons]. rewrite holders_app, holders_cons in Hh. rewrite !holders_app. split; [done|].
  destruct next as [[p' V']|]; cbn [option_list option_rect]; [destruct Hn as [Hp' HV]|rewrite Hn in Hh].
  - rewrite holders_cons, Hp'. split; [cbn; lia|]. apply Forall_app; split; [done|]. constructor; [|done]. cbn. rewrite Hp'. cbn in Hp. intros H. specialize (Hp H). lia.
  - split; [cbn in *; lia|]. by apply Forall_app.
Qed.

Lemma exclusive_takes c M M' l1 p V l2 next :
  memory_ok M -> takes c p M M' next -> exclusive M (l1 ++ (p, V) :: l2) -> exclusive M' (l1 ++ option_list next ++ l2).
Proof.
  intros Hok (p' & V' & m & m' & -> & Hp & Hp' & HV' & Hm & Hfalse & Hfree & Htrue & ->) (Ht & Hh & Hf).
  assert (c = newest Polling M) as ->.
  { destruct (decide (c = newest Polling M)) as [|Hne]; [done|]. destruct (Ht c m Hm Hfalse Hne) as [? ?]. congruence. }
  assert (latest Polling M = false) as Hlat by (unfold latest; by rewrite Hm). rewrite Hlat, holders_app, holders_cons, Hp in Hh. cbn in Hh.
  destruct m' as [b W]. cbn in Htrue. subst b. unfold exclusive.
  rewrite newest_add, latest_add, !decide_True by (done || lia || apply (memory_first _ Hok)). rewrite memory_add_eq. split; [|split].
  - intros t m0 Hm0 Hv Hne. apply lookup_insert_Some in Hm0 as [[-> <-]|[Hne' Hm0]]; [done|]. destruct (decide (t = newest Polling M)) as [->|Hn].
    + eexists. apply lookup_insert_eq.
    + apply lookup_insert_is_Some'. right. by eapply Ht.
  - rewrite !holders_app. cbn [option_list option_rect]. rewrite holders_cons, Hp'. cbn. change (holders []) with 0%nat. lia.
  - apply Forall_app; split; [apply holders_none; lia|]. constructor; [cbn; lia|apply holders_none; lia].
Qed.

Lemma exclusive_gives_up c M M' l1 p V l2 next :
  memory_ok M -> gives_up c V p M M' next -> exclusive M (l1 ++ (p, V) :: l2) -> exclusive M' (l1 ++ option_list next ++ l2).
Proof.
  intros Hok (m' & Hp & Hn & HV & Hfree & Hfalse & ->) (Ht & Hh & Hf). apply Forall_app in Hf as [_ [HpV _]%Forall_cons]. cbn in HpV. specialize (HpV Hp).
  rewrite holders_app, holders_cons, Hp in Hh. destruct (latest Polling M) eqn:Hlat; cbn in Hh; [|lia].
  destruct m' as [b W]. cbn in Hfalse. subst b. unfold exclusive.
  rewrite newest_add, latest_add, !decide_True by (done || lia || apply (memory_first _ Hok)). rewrite memory_add_eq.
  assert (holders (option_list next) = 0%nat) as Hnext by (destruct next as [[p' V']|]; cbn; [by rewrite Hn|done]).
  rewrite !holders_app, Hnext. split; [|split; [cbn; lia|]].
  - intros t m0 Hm0 Hv Hne. apply lookup_insert_Some in Hm0 as [[-> <-]|[_ Hm0]]; [done|]. destruct (decide (t = newest Polling M)) as [->|Hne'].
    + unfold latest in Hlat. rewrite Hm0 in Hlat. cbn in Hlat. congruence.
    + apply lookup_insert_is_Some'. right. by eapply Ht.
  - apply holders_none. rewrite !holders_app. lia.
Qed.

Lemma exclusive_more M ts V : exclusive M ts -> exclusive M (ts ++ [(Request, V)]).
Proof.
  intros (Ht & Hh & Hf). split; [done|]. split; [rewrite holders_app; cbn; lia|]. apply Forall_app; split; [done|]. by apply Forall_singleton.
Qed.

Lemma exclusive_exec ev c s :
  ok_views (s_task s) (s_threads s) -> exclusive (t_atomics (s_task s)) (s_threads s) ->
  exclusive (t_atomics (s_task (exec ev c s))) (s_threads (exec ev c s)).
Proof.
  intros [Hok _] Hx. destruct ev as [i|r|].
  - destruct (exec_run_cases i c s) as [->|(l1 & p & V & l2 & next & t & Hl & Hstep & ->)]; [done|]. rewrite Hl in Hx.
    apply step_polling in Hstep as [Hk|[Hk|Hk]]; [by eapply exclusive_keeps|by eapply exclusive_takes|by eapply exclusive_gives_up].
  - cbn. destruct (completion_complete r (t_completion (s_task s))) as [cc [|]]; [by apply exclusive_more|done].
  - by apply exclusive_more.
Qed.

(** ** Who is told, and what *)

(** What the callback may still be called with, and what it was called with: nothing before the
    dispatch was refused or its handler completed, and once at most after that. *)
Definition told (completed : option R) (s : System) : Prop :=
  let t := s_task s in let n k := tally k (s_threads s).*1 in
  (Nat.b2n (t_callback t) + n 4 + n 5 + length (t_calls t))%nat = 1%nat /\ t_future t = t_callback t /\
  match completed with
  | None => t_future t = true /\ exists waker, t_completion t = CPending waker
  | Some r =>
      Forall (carries r) (s_threads s).*1 /\ Forall (eq r) (t_calls t) /\ t_completion t = (if t_future t then CReady r else CConsumed)
  end.

Lemma told_run i c completed s : told completed s -> told completed (exec (Run i) c s).
Proof.
  destruct (exec_run_cases i c s) as [->|(l1 & p & V & l2 & next & t & Hl & Hstep & ->)]; [done|].
  destruct s as [[M cc cl f cb sl calls] ts]. cbn [s_task s_threads] in *. subst ts. intros (Hn & Hfut & Ht).
  unfold told. cbn [s_task s_threads t_callback t_future t_calls t_completion] in *. rewrite !fmap_app, fmap_cons in *. cbn [fst] in *. subst cb.
  destruct completed as [r|].
  - destruct Ht as (Hc & Hr & Hcc). apply Forall_app in Hc as [Hc1 [Hp Hc2]%Forall_cons]. destruct f, p; subst cc; step_cases Hstep; cbn in *; tallies;
      rewrite ?length_app; cbn; split_and!; try done; try lia; rewrite ?Forall_app, ?Forall_cons; split_and!; try done; by rewrite ?Forall_app, ?Forall_cons.
  - destruct Ht as (-> & w & ->). destruct p; step_cases Hstep; cbn in *; tallies; rewrite ?length_app; cbn; split_and!; try done; try lia; by eexists.
Qed.

Lemma told_wake completed t ts V : told completed (mk_system t ts) -> told completed (mk_system t (ts ++ [(Request, V)])).
Proof.
  intros (Hn & Hfut & Ht). unfold told. cbn [s_task s_threads] in *. rewrite fmap_app. cbn. tallies. split; [lia|]. split; [done|].
  destruct completed; [|done]. destruct Ht as (Hc & ?). split; [|done]. apply Forall_app; split; [done|]. by apply Forall_singleton.
Qed.

Lemma told_complete r c completed s :
  told completed s -> told (Some (default r completed)) (exec (Complete r) c s).
Proof.
  intros (Hn & Hfut & Ht). destruct s as [[M cc cl f cb sl calls] ts]. cbn [s_task s_threads t_callback t_future t_calls t_completion] in *. subst cb. destruct completed as [r0|].
  - destruct Ht as (Hc & Hr & ->). by destruct f.
  - destruct Ht as (-> & w & ->). destruct calls; cbn in Hn; [|lia].
    assert (told (Some r) (mk_system (mk_task_state M (CReady r) cl true true sl []) ts)) as Hnow.
    { split; [done|]. split; [done|]. split; [|done]. cbn. assert (tally 4 ts.*1 = 0%nat /\ tally 5 ts.*1 = 0%nat) as [H4 H5] by lia. clear Hn.
      induction ts.*1 as [|p ps IH]; [done|]. tallies. constructor; [|apply IH; lia]. by destruct p. }
    destruct w; [by apply told_wake|done].
Qed.

(** What the dispatch was refused or its handler completed with. *)
Definition completed (refused : option R) (evs : list (event R)) : option R :=
  match refused with Some r => Some r | None => first_completion evs end.

Lemma told_execs evs refused s : told refused s -> told (completed refused evs.*1) (execs evs s).
Proof.
  revert refused s. induction evs as [|[ev c] evs IH]; intros refused s Hs; [by destruct refused|]. cbn [execs foldl]. rewrite fmap_cons. cbn [fst].
  destruct ev as [i|r|].
  - apply (told_run i c), IH in Hs. by destruct refused.
  - apply (told_complete r c), IH in Hs. by destruct refused.
  - destruct s as [t ts]. apply (told_wake _ _ _ view_bot), IH in Hs. by destruct refused.
Qed.

Lemma told_start refused : told refused (start_dispatch refused).
Proof. destruct refused; [repeat constructor|]. split_and!; try done. by eexists. Qed.

(** ** Every thread stops

    A step uses something up: what its thread still has to do, or a request.  A request is open
    until a read-modify-write has read it. *)
Definition open (N : gmap Z (message flag)) : gset Z := filter (fun t => m_value <$> N !! t = Some true /\ N !! (t + 1) = None) (dom N).

Definition weight (p : pc R) : nat :=
  match p with
  | Request => 14 | TryPoll => 7 | Clear => 6 | Poll => 5 | Finish _ => 2 | Call _ => 1 | Swap => 4 | Release => 3 | Recheck => 2 | Retry => 7
  end.
Definition measure (s : System) : nat :=
  sum_list_with (fun th => weight th.1) (s_threads s) + 6 * size (open (t_atomics (s_task s) PollRequested)).

Lemma elem_of_open (N : gmap Z (message flag)) t : t ∈ open N <-> (m_value <$> N !! t = Some true /\ N !! (t + 1) = None).
Proof.
  unfold open. rewrite elem_of_filter, elem_of_dom. split; [by intros [? _]|]. intros [Hv Hn]. split; [done|]. by destruct (N !! t).
Qed.

Lemma open_insert (N : gmap Z (message flag)) t m : N !! t = None -> (size (open (<[t := m]> N)) <= Nat.b2n (m_value m) + size (open N))%nat.
Proof.
  intros Hnone. transitivity (size ((if m_value m then {[t]} else ∅) ∪ open N)).
  - apply subseteq_size. intros t' [Hv Hn]%elem_of_open. apply elem_of_union. apply lookup_insert_None in Hn as [Hn Hne].
    destruct (decide (t' = t)) as [->|Hne'].
    + left. rewrite lookup_insert_eq in Hv. injection Hv as ->. by apply elem_of_singleton.
    + right. apply elem_of_open. by rewrite lookup_insert_ne in Hv by done.
  - rewrite size_union_alt. destruct (m_value m); cbn.
    + transitivity (size ({[t]} : gset Z) + size (open N))%nat; [|by rewrite size_singleton].
      apply Nat.add_le_mono_l, subseteq_size. set_solver.
    + rewrite size_empty. cbn. apply subseteq_size. set_solver.
Qed.

(** A request that is read is not open any more. *)
Lemma open_take (N : gmap Z (message flag)) t m m' :
  N !! t = Some m -> m_value m = true -> N !! (t + 1) = None -> m_value m' = false -> (size (open (<[(t + 1)%Z := m']> N)) < size (open N))%nat.
Proof.
  intros Hm Htrue Hnone Hfalse. apply subset_size. split.
  - intros t' [Hv Hn]%elem_of_open. apply lookup_insert_None in Hn as [Hn Hne]. apply elem_of_open. split; [|done].
    apply fmap_Some in Hv as (x & [[<- <-]|[_ Hx]]%lookup_insert_Some & Hv); [congruence|]. by rewrite Hx, Hv.
  - intros Hsub. assert (t ∈ open N) as Ht by (apply elem_of_open; by rewrite Hm, <- Htrue). apply Hsub, elem_of_open in Ht as [_ Ht]. by rewrite lookup_insert_eq in Ht.
Qed.

(** What a step of a thread costs. *)
Lemma step_decreases p c V t next t' :
  thread_step p c V t = Some (next, t') ->
  (sum_list_with (fun th => weight th.1) (option_list next) + 6 * size (open (t_atomics t' PollRequested)) < weight p + 6 * size (open (t_atomics t PollRequested)))%nat.
Proof.
  intros Hstep. destruct p; step_cases Hstep; accesses; cbn -[Nat.mul] in *; rewrite ?memory_add_eq, ?memory_add_ne by done; try lia.
  all: try (match goal with H : _ !! ?t = None |- context [<[?t := ?m]> ?N] => pose proof (open_insert N t m H) end; cbn -[Nat.mul] in *; lia).
  all: match goal with H : _ !! (?t + 1) = None |- context [<[?t + 1 := ?m]> ?N] => pose proof (open_take N t _ m ltac:(eassumption) ltac:(eassumption) H eq_refl) end; lia.
Qed.

Lemma run_decreases i c s : exec (Run i) c s = s \/ (measure (exec (Run i) c s) < measure s)%nat.
Proof.
  destruct (exec_run_cases i c s) as [->|(l1 & p & V & l2 & next & t & Hl & Hstep & ->)]; [by left|right].
  apply step_decreases in Hstep. unfold measure. cbn [s_task s_threads]. rewrite Hl, !sum_list_with_app. cbn -[Nat.mul]. lia.
Qed.

(** ** In a sequentially consistent memory *)

(** After an access at the end of the order, the flags have the new value. *)
Lemma flat_add l m t :
  memory_ok (t_atomics t) ->
  flat_task (set_atomics (memory_add l (newest l (t_atomics t) + 1) m (t_atomics t)) t) =
  match l with Polling => flat_set_polling (m_value m) (flat_task t) | PollRequested => flat_set_requested (m_value m) (flat_task t) end.
Proof.
  intros Hok. destruct m as [b W]. unfold flat_task, set_atomics. cbn. rewrite !latest_add by (apply (memory_first _ Hok) || lia). by destruct l.
Qed.

Lemma requested_cases {A} (x y : A) t :
  (if f_requested (flat_task t) then (x, flat_set_requested false (flat_task t)) else (y, flat_task t)) =
  (if latest PollRequested (t_atomics t) then x else y, flat_set_requested false (flat_task t)).
Proof. unfold flat_set_requested, flat_task. cbn. by destruct (latest PollRequested (t_atomics t)). Qed.

Lemma step_flat p V t :
  ok_views t [(p, V)] ->
  exists next t', thread_step p (last_access p (t_atomics t)) V t = Some (next, t') /\ flat_step invalid_result p (flat_task t) = (fst <$> next, flat_task t').
Proof.
  intros (Hm & Hc & Hs & [HV _]%Forall_cons). cbn in HV.
  pose proof (fun l b => store_newest l b V _ HV) as Hstore. pose proof (fun l b => swap_newest l b V _ Hm HV) as Hswap.
  destruct (exchange_newest Polling false true V _ Hm HV) as [W Hexchange].
  assert (exists next t', thread_step TryPoll (last_access TryPoll (t_atomics t)) V t = Some (next, t') /\
    flat_step invalid_result TryPoll (flat_task t) = (fst <$> next, flat_task t')) as Htry.
  { cbn [thread_step last_access flat_step flat_task f_polling]. destruct (latest Polling (t_atomics t)); cbn [eqb] in Hexchange.
    - rewrite Hexchange. eexists _, _. split; [done|]. by destruct t.
    - destruct Hexchange as (m & Hx & Hb). rewrite Hx. eexists _, _. split; [done|]. by rewrite flat_add, Hb. }
  destruct p; cbn [thread_step last_access flat_step].
  - destruct (Hstore PollRequested true) as (V' & m & -> & Hb). cbn. eexists _, _. split; [done|]. by rewrite flat_add, Hb.
  - exact Htry.
  - destruct (Hstore PollRequested false) as (V' & m & -> & Hb). cbn. eexists _, _. split; [done|]. by rewrite flat_add, Hb.
  - unfold drive_poll, flat_poll. cbn [flat_task f_future f_completion f_callback]. destruct (t_future t) eqn:Hf; cbn [negb].
    + destruct (handler_future_poll invalid_result (t_completion t)) as [cc [r|]]; (eexists _, _; split; [done|]); [|done]. by destruct (t_callback t).
    + destruct (store_newest Polling false (view_join V (t_state_lock t)) (t_atomics t)) as (V' & m & -> & Hfalse); [by apply known_join|]. cbn.
      eexists _, _. split; [done|]. cbn. f_equal. pose proof (flat_add Polling m t Hm) as Hadd. cbn in Hadd. rewrite Hfalse in Hadd. rewrite <- Hadd.
      unfold flat_task. cbn. by rewrite Hf.
  - destruct (Hstore Polling false) as (V' & m & -> & Hb). cbn. eexists _, _. split; [done|]. by rewrite flat_add, Hb.
  - eexists _, _. by split.
  - destruct (Hswap PollRequested false) as (V' & m & -> & Hfalse). eexists _, _. split; [done|]. rewrite flat_add, Hfalse by done.
    rewrite (requested_cases (Some Clear) (Some Release)). by destruct (latest PollRequested (t_atomics t)).
  - destruct (Hstore Polling false) as (V' & m & -> & Hb). cbn. eexists _, _. split; [done|]. by rewrite flat_add, Hb.
  - destruct (Hswap PollRequested false) as (V' & m & -> & Hfalse). eexists _, _. split; [done|]. rewrite flat_add, Hfalse by done.
    rewrite (requested_cases (Some Retry) None). by destruct (latest PollRequested (t_atomics t)).
  - exact Htry.
Qed.

Lemma flat_exec_sc ev s : ok_views (s_task s) (s_threads s) -> flat (exec_sc ev s) = flat_exec invalid_result ev (flat s).
Proof.
  intros Hok. unfold exec_sc. destruct ev as [i|r|]; cbn.
  - rewrite list_lookup_fmap. destruct (s_threads s !! i) as [[p V]|] eqn:Hi; cbn; [|done].
    destruct (step_flat p V (s_task s)) as (next & t' & -> & ->).
    { destruct Hok as (? & ? & ? & Ht). split_and!; try done. apply Forall_singleton. by eapply Forall_lookup_1 in Ht. }
    unfold flat. cbn. rewrite !fmap_app, fmap_take, fmap_drop. by destruct next.
  - destruct (t_completion (s_task s)) as [[|]| |]; unfold flat; cbn; by rewrite ?fmap_app.
  - unfold flat. cbn. by rewrite fmap_app.
Qed.

Lemma ok_views_execs evs s : ok_views (s_task s) (s_threads s) -> ok_views (s_task (execs evs s)) (s_threads (execs evs s)).
Proof. revert s. induction evs as [|[ev c] evs IH]; intros s Hs; [done|]. apply IH. by apply ok_views_exec. Qed.

Lemma flat_execs_sc evs s : ok_views (s_task s) (s_threads s) -> flat (execs_sc evs s) = flat_execs invalid_result evs (flat s).
Proof.
  revert s. induction evs as [|ev evs IH]; intros s Hs; [done|].
  change (flat (execs_sc evs (exec_sc ev s)) = flat_execs invalid_result evs (flat_exec invalid_result ev (flat s))).
  rewrite IH by by apply ok_views_exec. by rewrite flat_exec_sc.
Qed.

Lemma ok_views_start refused : ok_views (s_task (start_dispatch refused)) (s_threads (start_dispatch refused)).
Proof.
  pose proof (@memory_new_ok flag) as Hok. pose proof (known_bot _ Hok) as Hbot. cbn. split_and!; try done. by apply Forall_singleton.
Qed.

Lemma exclusive_execs evs s :
  ok_views (s_task s) (s_threads s) -> exclusive (t_atomics (s_task s)) (s_threads s) ->
  exclusive (t_atomics (s_task (execs evs s))) (s_threads (execs evs s)).
Proof.
  revert s. induction evs as [|[ev c] evs IH]; intros s Hs Hx; [done|]. apply IH; [by apply ok_views_exec|by apply exclusive_exec].
Qed.

Lemma exclusive_start refused : exclusive (t_atomics (s_task (start_dispatch refused))) (s_threads (start_dispatch refused)).
Proof.
  cbn. split; [|split; [done|by apply Forall_singleton]]. intros t m Hm _. unfold memory_new in Hm. by apply lookup_singleton_Some in Hm as [<- _].
Qed.

Lemma tally_holders ts : (tally 3 ts.*1 <= holders ts)%nat.
Proof. induction ts as [|[p V] ts IH]; [done|]. rewrite fmap_cons, holders_cons. tallies. destruct p; cbn in *; lia. Qed.

(** The access at the end of the order is always allowed. *)
Lemma run_sc_decreases i s :
  ok_views (s_task s) (s_threads s) -> (i < length (s_threads s))%nat -> (measure (exec_sc (Run i) s) < measure s)%nat.
Proof.
  intros Hok Hi. apply lookup_lt_is_Some in Hi as [[p V] Hi]. destruct Hok as (Hm & Hc & Hs & Ht).
  destruct (step_flat p V (s_task s)) as (next & t' & Hstep & _).
  { split_and!; try done. apply Forall_singleton. by eapply Forall_lookup_1 in Ht. }
  unfold exec_sc. cbn [in_order exec]. rewrite Hi, Hstep. apply step_decreases in Hstep. unfold measure. cbn [s_task s_threads].
  rewrite <- (take_drop_middle (s_threads s) i (p, V) Hi) at 3.
  rewrite !sum_list_with_app. cbn -[Nat.mul]. lia.
Qed.

Lemma run_on_none n s : s_threads s = [] -> run_on n s = s.
Proof. intros Hs. induction n as [|n IH]; [done|].
  change (run_on n (exec_sc (Run 0) s) = s). unfold exec_sc. cbn [exec]. by rewrite Hs. Qed.

Lemma run_on_out n s : ok_views (s_task s) (s_threads s) -> (measure s <= n)%nat -> s_threads (run_on n s) = [].
Proof.
  revert s. induction n as [|n IH]; intros s Hok Hn; (destruct (s_threads s) as [|[p V] ts] eqn:Hts; [by rewrite run_on_none|]); rewrite <- Hts in Hok.
  - unfold measure in Hn. rewrite Hts in Hn. destruct p; cbn in Hn; lia.
  - apply (IH (exec_sc (Run 0) s)); [by apply ok_views_exec|].
    assert (measure (exec_sc (Run 0) s) < measure s)%nat by (apply run_sc_decreases; [done|rewrite Hts; cbn; lia]). lia.
Qed.

(** A sequentially consistent execution is one that the orderings allow. *)
Lemma execs_sc_execs evs s : exists cs, length cs = length evs /\ execs_sc evs s = execs (zip evs cs) s.
Proof.
  revert s. induction evs as [|ev evs IH]; intros s; [by exists []|]. destruct (IH (exec_sc ev s)) as (cs & Hcs & Hrun).
  exists (in_order ev s :: cs). cbn. split; [lia|]. exact Hrun.
Qed.

Lemma told_awaited refused evs :
  Forall woken_by_completion evs -> awaited (completed refused evs) (flat (execs_sc evs (start_dispatch refused))).
Proof.
  intros Hev. rewrite flat_execs_sc by apply ok_views_start. apply awaited_execs; [done|]. apply awaited_start.
Qed.


(** ** Wakes that are lost *)

(** The access at the end of the order until the handler is completed.  The first thread has
    polled, given up [polling], and looks for a request once more. *)
Definition losing_orders (r : R) : list (event R * Z) :=
  [(Run 0, 1); (Run 0, 0); (Run 0, 2); (Run 0, 0); (Run 0, 2); (Run 0, 2);
   (Complete r, 0);
   (* the thread that is woken leaves a request, and finds [polling] held in the message before the last *)
   (Run 1, 9); (Run 1, 1);
   (* the first thread reads the message that was there before the request *)
   (Run 0, 3)].

(** The orderings of the source allow that a wake is lost: the thread that gives up [polling]
    and then looks for a request need not see the request of a thread that need not see
    [polling] given up, and both stop. *)
Lemma wake_lost_by_orderings r :
  let s := execs (losing_orders r) (start_dispatch None) in
  s_threads s = [] /\ t_completion (s_task s) = CReady r /\ t_calls (s_task s) = [].
Proof. repeat split. Qed.

(** A waker that is woken without cause can make the task lose the wake that counts, in a
    sequentially consistent memory too: the thread that gives up [polling] takes back a request
    which belongs to the thread that holds it now, and both stop. *)
Definition losing_schedule (r : R) : list (event R) :=
  (* the first thread polls and gives up [polling] *)
  replicate 6 (Run 0) ++
  (* another one is woken without cause and polls *)
  [Wake] ++ replicate 4 (Run 1) ++
  (* the handler is completed; the thread that is woken leaves a request to the one that drives *)
  [Complete r] ++ replicate 2 (Run 2) ++
  (* the first thread takes it and finds [polling] held; the second one finds no request *)
  replicate 2 (Run 0) ++ replicate 3 (Run 0).

Lemma wake_lost_by_wake r :
  let s := execs_sc (losing_schedule r) (start_dispatch None) in
  s_threads s = [] /\ t_completion (s_task s) = CReady r /\ t_calls (s_task s) = [].
Proof. repeat split. Qed.
End task.
