(* ===== verification/SqlAudit.v ===== *)
(** * SqlAudit: audit events in the encrypted store (bondry-store-sqlcipher/src/audit.rs)

    [SqlCipherStore] as an [AuditSink] and its two queries.  Times are nanoseconds since
    the Unix epoch; the table keeps milliseconds. *)

From S2P Require Import Prelude Text Identifiers Json Capability Policy Dispatch Sqlite.

Definition MAX_AUDIT_QUERY_LIMIT : Z := 1000.

Record AuditQueryLimit := mk_audit_limit { audit_limit : Z }.
Inductive AuditQueryLimitError := audit_limit_error.

Definition AuditQueryLimit_new (value : Z) : result AuditQueryLimitError AuditQueryLimit :=
  if (value =? 0) || (MAX_AUDIT_QUERY_LIMIT <? value) then Err audit_limit_error else Ok (mk_audit_limit value).

Record StoredAuditEvent := mk_stored_event { se_sequence : Z; se_event : AuditEvent }.

(** What the queries report; only these two categories occur here besides the statement's
    own failure. *)
Inductive SqlCipherStoreError := StoreDatabase (e : SqlError) | StoreInvalidData | StoreLockUnavailable.

(** [encode_outcome] and [decode_outcome]. *)
Definition encode_outcome (outcome : AuditOutcome) : rstr * option rstr :=
  match outcome with
  | OutCapabilityNotFound => (str "capability_not_found", None)
  | OutDenied NotGranted => (str "denied", Some (str "not_granted"))
  | OutDenied PolicyUnavailable => (str "denied", Some (str "policy_unavailable"))
  | OutStarted => (str "started", None)
  | OutInvalidInput => (str "invalid_input", None)
  | OutSucceeded => (str "succeeded", None)
  | OutHandlerFailed code => (str "handler_failed", Some (as_str code))
  end.

Definition decode_outcome (outcome_kind : rstr) (detail_code : option rstr) : result SqlCipherStoreError AuditOutcome :=
  match detail_code with
  | None =>
      if decide (outcome_kind = str "capability_not_found") then Ok OutCapabilityNotFound
      else if decide (outcome_kind = str "started") then Ok OutStarted
      else if decide (outcome_kind = str "invalid_input") then Ok OutInvalidInput
      else if decide (outcome_kind = str "succeeded") then Ok OutSucceeded
      else Err StoreInvalidData
  | Some detail =>
      if decide (outcome_kind = str "denied") then
        if decide (detail = str "not_granted") then Ok (OutDenied NotGranted)
        else if decide (detail = str "policy_unavailable") then Ok (OutDenied PolicyUnavailable)
        else Err StoreInvalidData
      else if decide (outcome_kind = str "handler_failed") then
        code ← map_err (fun _ => StoreInvalidData) (Identifier_new detail); Ok (OutHandlerFailed code)
      else Err StoreInvalidData
  end.

(** [RawAuditEvent::validate]. *)
Definition validate_event (row : AuditRow) : result SqlCipherStoreError StoredAuditEvent :=
  milliseconds ← ok_or (try_unsigned U64_MAX (ae_occurred_at_ms row)) StoreInvalidData;
  outcome ← decode_outcome (ae_outcome_kind row) (ae_detail_code row);
  invocation ← map_err (fun _ => StoreInvalidData) (Identifier_new (ae_invocation_id row));
  principal ← map_err (fun _ => StoreInvalidData) (Identifier_new (ae_principal_id row));
  adapter ← map_err (fun _ => StoreInvalidData) (Identifier_new (ae_adapter_id row));
  capability ← map_err (fun _ => StoreInvalidData) (Identifier_new (ae_capability_id row));
  Ok (mk_stored_event (ae_sequence row)
        (mk_event (from_millis milliseconds) invocation principal adapter capability outcome)).

(** [INSERT INTO audit_events]: the next sequence number, and the checks on the outcome. *)
Definition outcome_kinds : list rstr :=
  str <$> ["capability_not_found"; "denied"; "started"; "invalid_input"; "succeeded"; "handler_failed"]%string.

Definition sql_insert_event (at_ms : Z) (invocation principal adapter capability kind : rstr) (detail : option rstr)
    : Statement unit := fun db =>
  let detailed := bool_decide (kind = str "denied") || bool_decide (kind = str "handler_failed") in
  if negb (bool_decide (kind ∈ outcome_kinds)) || negb (Bool.eqb detailed (bool_decide (is_Some detail)))
  then Err ConstraintViolation
  else if audit_sequence db =? I64_MAX then Err SqliteFailure
  else let sequence := audit_sequence db + 1 in
       Ok (tt, set_audit (t_audit db ++ [mk_audit_row sequence at_ms invocation principal adapter capability kind detail]) sequence db).

(** [ORDER BY sequence DESC LIMIT ?]: rows are kept in the order of their sequence. *)
Definition sql_recent_events (limit : Z) (db : Database) : list AuditRow :=
  take (Z.to_nat limit) (reverse (t_audit db)).
Definition sql_events_for_principal (principal : rstr) (limit : Z) (db : Database) : list AuditRow :=
  take (Z.to_nat limit) (filter (fun row => ae_principal_id row = principal) (reverse (t_audit db))).

Section audit.
Context `{Env : SqlEnv}.

(** [AuditSink::record]. *)
Definition sq_record (event : AuditEvent) : action SqlCipherStore AuditError unit :=
  occurred_at_ms ← lift (ok_or
    (if ev_occurred_at event <? 0 then None else try_i64 (as_millis (ev_occurred_at event))) AuditUnavailable);
  let '(outcome_kind, detail_code) := encode_outcome (ev_outcome event) in
  _ ← connection AuditUnavailable;
  with_err (fun _ => AuditUnavailable) (sql (sql_insert_event occurred_at_ms (as_str (ev_invocation event))
    (as_str (ev_principal event)) (as_str (ev_adapter event)) (as_str (ev_capability event)) outcome_kind detail_code)).

#[global] Instance SqlCipherStore_AuditSink : AuditSink SqlCipherStore := sq_record.

Definition query_audit_events (query : Database -> list AuditRow)
    : action SqlCipherStore SqlCipherStoreError (list StoredAuditEvent) :=
  _ ← connection StoreLockUnavailable;
  rows ← with_err StoreDatabase (sql (select query));
  lift (collect validate_event rows).

Definition recent_audit_events (limit : AuditQueryLimit) := query_audit_events (sql_recent_events (audit_limit limit)).
Definition audit_events_for_principal (principal : PrincipalId) (limit : AuditQueryLimit) :=
  query_audit_events (sql_events_for_principal (as_str principal) (audit_limit limit)).

(** ** Events written and read back *)

Definition event_wf (e : AuditEvent) : Prop :=
  @Identifier_new KInvocation (as_str (ev_invocation e)) = Ok (ev_invocation e) /\
  @Identifier_new KPrincipal (as_str (ev_principal e)) = Ok (ev_principal e) /\
  @Identifier_new KAdapter (as_str (ev_adapter e)) = Ok (ev_adapter e) /\
  @Identifier_new KCapability (as_str (ev_capability e)) = Ok (ev_capability e) /\
  match ev_outcome e with
  | OutHandlerFailed code => @Identifier_new KHandlerErrorCode (as_str code) = Ok code
  | _ => True
  end.

(** The time of an event at the precision of the table. *)
Definition to_millis (e : AuditEvent) : AuditEvent :=
  mk_event (from_millis (as_millis (ev_occurred_at e))) (ev_invocation e) (ev_principal e) (ev_adapter e)
    (ev_capability e) (ev_outcome e).

(** Every row reads back, and the rows are in the order of their numbers, all used. *)
Definition audit_ok (db : Database) : Prop :=
  Forall (fun row => exists e, validate_event row = Ok e) (t_audit db) /\
  StronglySorted Z.lt (ae_sequence <$> t_audit db) /\
  Forall (fun row => ae_sequence row <= audit_sequence db) (t_audit db).

(** The events a database holds, oldest first. *)
Definition events_of (db : Database) : list StoredAuditEvent :=
  omap (fun row => to_option (validate_event row)) (t_audit db).

Lemma decode_encode_outcome e :
  event_wf e ->
  let '(kind, detail) := encode_outcome (ev_outcome e) in
  decode_outcome kind detail = Ok (ev_outcome e) /\
  (bool_decide (kind ∈ outcome_kinds) = true /\
   (bool_decide (kind = str "denied") || bool_decide (kind = str "handler_failed")) = bool_decide (is_Some detail)).
Proof.
  intros (_ & _ & _ & _ & Hcode). destruct (ev_outcome e) as [|[]| | | |code]; try (split; [reflexivity|split; reflexivity]).
  unfold encode_outcome. split; [|split; [reflexivity|by rewrite (bool_decide_true (is_Some _)) by eauto]].
  unfold decode_outcome. do 2 (case_decide; [try discriminate|try done]). by rewrite Hcode.
Qed.

Lemma validate_written n e at_ms :
  event_wf e -> 0 <= ev_occurred_at e -> try_i64 (as_millis (ev_occurred_at e)) = Some at_ms ->
  let '(kind, detail) := encode_outcome (ev_outcome e) in
  validate_event (mk_audit_row n at_ms (as_str (ev_invocation e)) (as_str (ev_principal e)) (as_str (ev_adapter e))
    (as_str (ev_capability e)) kind detail) = Ok (mk_stored_event n (to_millis e)).
Proof.
  intros Hwf Hpos [-> Hms]%try_i64_Some. pose proof (decode_encode_outcome e Hwf) as Hd.
  destruct (encode_outcome (ev_outcome e)) as [kind detail]. destruct Hd as [Hd _]. destruct Hwf as (Hi & Hp & Ha & Hc & _).
  unfold validate_event. simpl. unfold try_unsigned.
  assert (0 <= as_millis (ev_occurred_at e)) by (apply Z.div_pos; lia).
  replace (_ && _) with true by (symmetry; rewrite andb_true_iff, !Z.leb_le; unfold U64_MAX, I64_MAX in *; lia).
  simpl. by rewrite Hd; simpl; rewrite Hi; simpl; rewrite Hp; simpl; rewrite Ha; simpl; rewrite Hc.
Qed.

Lemma sq_record_spec e (s : SqlCipherStore) :
  audit_ok (sq_db s) -> event_wf e ->
  let '(r, s') := sq_record e s in
  audit_ok (sq_db s') /\
  match r with
  | Ok _ => exists n, events_of (sq_db s') = events_of (sq_db s) ++ [mk_stored_event n (to_millis e)]
  | Err _ => events_of (sq_db s') = events_of (sq_db s)
  end.
Proof.
  intros Hok Hwf. unfold sq_record. rewrite bind_run. cbn [lift].
  destruct (Z.ltb_spec (ev_occurred_at e) 0) as [|Hpos]; [done|].
  destruct (try_i64 (as_millis (ev_occurred_at e))) as [ms|] eqn:Hms; [|done]. simpl ok_or. cbv iota.
  assert (forall n, let '(kind, detail) := encode_outcome (ev_outcome e) in _) as Hval
    by (intros n; exact (validate_written n e ms Hwf Hpos Hms)).
  destruct (encode_outcome (ev_outcome e)) as [kind detail].
  rewrite bind_run. unfold connection. destruct (sq_poisoned s); [done|].
  match goal with |- context [sql ?f] => pose proof (exec_spec (fun _ : SqlError => AuditUnavailable) f s) as Hs end.
  destruct (with_err _ _ s) as [[[]|err] s']; destruct Hs as [_ Hs]; [|by rewrite Hs].
  unfold sql_insert_event in Hs. destruct (_ || _) in Hs; [done|]. destruct (audit_sequence (sq_db s) =? I64_MAX) in Hs; [done|].
  injection Hs as Hdb. symmetry in Hdb. rewrite Hdb. destruct Hok as (Hrows & Hsort & Hseq).
  split.
  - split_and!; simpl.
    + apply Forall_app. split; [done|]. apply Forall_singleton. eauto.
    + rewrite fmap_app. simpl. apply StronglySorted_app_2; [|done|by repeat constructor]. intros x y Hx Hy.
      apply list_elem_of_singleton in Hy as ->. apply list_elem_of_fmap in Hx as (row & -> & Hrow).
      rewrite Forall_forall in Hseq. specialize (Hseq row Hrow). lia.
    + apply Forall_app. split; [eapply Forall_impl; [exact Hseq|]; simpl; lia|]. apply Forall_singleton. simpl. lia.
  - exists (audit_sequence (sq_db s) + 1). unfold events_of. simpl. rewrite omap_app. simpl. by rewrite Hval.
Qed.

Lemma events_of_rows db : audit_ok db -> Forall2 (fun row e => validate_event row = Ok e) (t_audit db) (events_of db).
Proof.
  intros (Hrows & _). unfold events_of. induction Hrows as [|row rows (e & He) _ IH]; simpl; fold_omap; [done|].
  rewrite He. simpl. by constructor.
Qed.

Lemma Forall2_filter_ext {A B} (R : A -> B -> Prop) (P : A -> Prop) (Q : B -> Prop) `{!forall x, Decision (P x), !forall y, Decision (Q y)} l k :
  (forall x y, R x y -> P x <-> Q y) -> Forall2 R l k -> Forall2 R (filter P l) (filter Q k).
Proof.
  intros Hext. induction 1 as [|x y l k Hxy _ IH]; [done|]. rewrite !filter_cons. specialize (Hext x y Hxy).
  destruct (decide (P x)), (decide (Q y)); try tauto. by constructor.
Qed.

Lemma validate_event_principal row e p :
  validate_event row = Ok e -> ae_principal_id row = as_str p <-> ev_principal (se_event e) = p.
Proof.
  unfold validate_event. intros He.
  repeat (apply result_bind_Ok in He as (? & ? & He)). injection He as <-. simpl.
  repeat match goal with H : map_err _ (Identifier_new ?x) = Ok ?y |- _ =>
    destruct (Identifier_new x) eqn:?; [injection H as ->|done] end.
  repeat match goal with H : Identifier_new _ = Ok _ |- _ => unfold Identifier_new in H; apply result_bind_Ok in H as ([] & _ & [= <-]) end.
  destruct p as [p]. simpl. split; [by intros ->|by intros [= ->]].
Qed.

Lemma validate_event_sequences rows evs :
  Forall2 (fun row e => validate_event row = Ok e) rows evs -> ae_sequence <$> rows = se_sequence <$> evs.
Proof.
  induction 1 as [|row e rows evs He _ IH]; [done|]. rewrite !fmap_cons, IH. f_equal.
  unfold validate_event in He. repeat (apply result_bind_Ok in He as (? & ? & He)). by injection He as <-.
Qed.

(** The newest events of a list, newest first. *)
Definition newest (limit : AuditQueryLimit) (l : list StoredAuditEvent) : list StoredAuditEvent :=
  take (Z.to_nat (audit_limit limit)) (reverse l).

Lemma query_spec query l (s : SqlCipherStore) :
  Forall2 (fun row e => validate_event row = Ok e) (query (sq_db s)) l ->
  (query_audit_events query s).1 =
    if sq_poisoned s then Err StoreLockUnavailable
    else if sql_fails (sq_tick s) then Err (StoreDatabase SqliteFailure) else Ok l.
Proof.
  intros Hl. unfold query_audit_events, connection, with_err, mbind, action_bind, sql. destruct (sq_poisoned s); [done|].
  destruct (sql_fails (sq_tick s)); [done|]. simpl. by apply collect_Ok.
Qed.

Lemma recent_spec limit (s : SqlCipherStore) :
  audit_ok (sq_db s) ->
  (recent_audit_events limit s).1 =
    if sq_poisoned s then Err StoreLockUnavailable
    else if sql_fails (sq_tick s) then Err (StoreDatabase SqliteFailure) else Ok (newest limit (events_of (sq_db s))).
Proof. intros Hok. apply query_spec, Forall2_take, Forall2_reverse, events_of_rows, Hok. Qed.

Lemma for_principal_spec p limit (s : SqlCipherStore) :
  audit_ok (sq_db s) ->
  (audit_events_for_principal p limit s).1 =
    if sq_poisoned s then Err StoreLockUnavailable
    else if sql_fails (sq_tick s) then Err (StoreDatabase SqliteFailure)
    else Ok (newest limit (filter (fun e => ev_principal (se_event e) = p) (events_of (sq_db s)))).
Proof.
  intros Hok. apply query_spec. unfold sql_events_for_principal, newest. apply Forall2_take.
  rewrite <-filter_reverse. eapply Forall2_filter_ext; [by intros; apply validate_event_principal|]. apply Forall2_reverse, events_of_rows, Hok.
Qed.

(** Recording a list of events, with the answers. *)
Fixpoint record_all (es : list AuditEvent) (s : SqlCipherStore) : list (AuditEvent * result AuditError unit) * SqlCipherStore :=
  match es with
  | [] => ([], s)
  | e :: es => let '(r, s) := record e s in let '(history, s) := record_all es s in ((e, r) :: history, s)
  end.

(** The events whose recording was answered with success. *)
Definition accepted (history : list (AuditEvent * result AuditError unit)) : list AuditEvent :=
  (filter (fun x => is_ok x.2 = true) history).*1.

Lemma record_all_spec es (s : SqlCipherStore) :
  audit_ok (sq_db s) -> Forall event_wf es ->
  let '(history, s') := record_all es s in
  audit_ok (sq_db s') /\ se_event <$> events_of (sq_db s') = (se_event <$> events_of (sq_db s)) ++ (to_millis <$> accepted history).
Proof.
  intros Hok Hwf. revert s Hok. induction es as [|e es IH]; intros s Hok; simpl; [by rewrite app_nil_r|].
  apply Forall_cons in Hwf as [He Hwf]. pose proof (sq_record_spec e s Hok He) as Hs. unfold record, SqlCipherStore_AuditSink.
  destruct (sq_record e s) as [r s1]. destruct Hs as [Hok1 Hr]. specialize (IH Hwf s1 Hok1).
  destruct (record_all es s1) as [history s2]. destruct IH as [Hok2 ->]. split; [done|]. unfold accepted. rewrite filter_cons. simpl.
  destruct r as [[]|]; simpl.
  - destruct Hr as [n ->]. by rewrite fmap_app, <-app_assoc.
  - by rewrite Hr.
Qed.

(** C17: the audit trail reads back what was recorded.  Record any events in a new
    database, any of them failing.  Unless the lock or the statement fails, a query for the
    newest events then returns exactly the events whose recording was answered with
    success, newest first, up to the limit, with their times cut to the millisecond; a query
    for one principal returns exactly the newest of that principal's events.  No stored event
    is ever refused as invalid, and the sequence numbers strictly decrease along the answer. *)
Theorem audit_trail_reads_back es (s : SqlCipherStore) limit p :
  t_audit (sq_db s) = [] -> Forall event_wf es ->
  let '(history, s') := record_all es s in
  exists stored, se_event <$> stored = to_millis <$> accepted history /\
    StronglySorted Z.lt (se_sequence <$> stored) /\
    (recent_audit_events limit s').1 = (if sq_poisoned s' then Err StoreLockUnavailable
       else if sql_fails (sq_tick s') then Err (StoreDatabase SqliteFailure) else Ok (newest limit stored)) /\
    (audit_events_for_principal p limit s').1 = (if sq_poisoned s' then Err StoreLockUnavailable
       else if sql_fails (sq_tick s') then Err (StoreDatabase SqliteFailure)
       else Ok (newest limit (filter (fun e => ev_principal (se_event e) = p) stored))).
Proof.
  intros Hnil Hwf. pose proof (record_all_spec es s) as Hs. destruct (record_all es s) as [history s'].
  destruct Hs as [Hok Hev]; [|done|].
  { unfold audit_ok. rewrite Hnil. split_and!; repeat constructor. }
  exists (events_of (sq_db s')). rewrite Hev. unfold events_of at 1. rewrite Hnil. split_and!; [done| | |].
  - replace (se_sequence <$> events_of (sq_db s')) with (ae_sequence <$> t_audit (sq_db s')); [apply Hok|].
    apply validate_event_sequences, events_of_rows, Hok.
  - by apply recent_spec.
  - by apply for_principal_spec.
Qed.
End audit.

(** ** An example: the second of three recordings fails *)

#[local] Instance ex_failing_audit : SqlEnv := fun n => Nat.eqb n 1.
Definition ex_event (at_ : Z) (principal : string) (outcome : AuditOutcome) : AuditEvent :=
  mk_event at_ (mk_id (str "call.1")) (mk_id (str principal)) (mk_id (str "adapter")) (mk_id (str "notes.read")) outcome.
Definition ex_events : list AuditEvent :=
  [ex_event 1500000 "alice" OutStarted; ex_event 2500000 "bob" OutStarted;
   ex_event 3700000 "alice" (OutHandlerFailed (mk_id (str "io.failed")))].
Definition ex_audit_store : SqlCipherStore := mk_sql_store false migrate_from_empty None 0.

Lemma audit_trail_reads_back_witness :
  let '(history, s) := record_all ex_events ex_audit_store in
  history.*2 = [Ok tt; Err AuditUnavailable; Ok tt] /\
  exists stored, se_event <$> stored =
      [ex_event 1000000 "alice" OutStarted; ex_event 3000000 "alice" (OutHandlerFailed (mk_id (str "io.failed")))] /\
    (recent_audit_events (mk_audit_limit 1) s).1 = Ok (newest (mk_audit_limit 1) stored) /\
    (audit_events_for_principal (mk_id (str "bob")) (mk_audit_limit 1) s).1 =
      Ok (newest (mk_audit_limit 1) (filter (fun e => ev_principal (se_event e) = mk_id (str "bob")) stored)).
Proof.
  assert (Forall event_wf ex_events) as Hwf
    by (repeat apply Forall_cons_2; try apply Forall_nil_2; repeat split; vm_compute; reflexivity).
  pose proof (audit_trail_reads_back ex_events ex_audit_store (mk_audit_limit 1) (mk_id (str "bob")) eq_refl Hwf) as Hthm.
  assert ((record_all ex_events ex_audit_store).1.*2 = [Ok tt; Err AuditUnavailable; Ok tt]) as Hans by (vm_compute; reflexivity).
  assert (to_millis <$> accepted (record_all ex_events ex_audit_store).1 =
    [ex_event 1000000 "alice" OutStarted; ex_event 3000000 "alice" (OutHandlerFailed (mk_id (str "io.failed")))]) as Hacc
    by (vm_compute; reflexivity).
  assert (sq_poisoned (record_all ex_events ex_audit_store).2 = false) as Hp by (vm_compute; reflexivity).
  assert (sql_fails (sq_tick (record_all ex_events ex_audit_store).2) = false) as Hf by (vm_compute; reflexivity).
  destruct (record_all ex_events ex_audit_store) as [history s]. cbn [fst snd] in *. rewrite Hp, Hf in Hthm.
  destruct Hthm as (stored & Hev & _ & Hr & Hpr). split; [exact Hans|]. exists stored. rewrite Hev. split; [exact Hacc|split; [exact Hr|exact Hpr]].
Defined.
