(* ===== verification/AdminAbi.v ===== *)
(** * AdminAbi: administration through the C interface

    auth.rs, grants.rs and audit.rs of [bondry-runtime-ffi], with the records of records.rs and
    the statuses of lib.rs: clients, tokens, grants and audit events of one encrypted store,
    for a host that is not written in Rust.

    [administration_crosses_interface] says that every call does to the store what the
    operation of the library does, and that its status and records tell the host the answer.
    [zero_truncates_names] shows a limit of zero-terminated records, and
    [null_principal_sees_all] a call that answers more than it was asked. *)

From S2P Require Import Prelude Text Bytes Crypto Identifiers CAbi Base64 Json Capability Policy Auth AuthManager Sqlite SqlAuth AuthProps SqlGrants Dispatch SqlAudit.

Definition BONDRY_STATUS_DATABASE : Z := 11.
Definition BONDRY_STATUS_INVALID_DATA : Z := 14.
Definition BONDRY_STATUS_CLIENT_DISABLED : Z := 21.
Definition BONDRY_STATUS_TOKEN_INACTIVE : Z := 22.
Definition BONDRY_STATUS_INVALID_TOKEN_LIFETIME : Z := 24.
Definition BONDRY_STATUS_ENTROPY_UNAVAILABLE : Z := 25.
Definition BONDRY_STATUS_GENERATION_EXHAUSTED : Z := 27.
Definition BONDRY_LABEL_CAPACITY_V1 : nat := 129.
Definition BONDRY_TOKEN_CAPACITY_V1 : nat := 100.

#[local] Abbreviation buffer := (pointer (list byte)).

(** ** Statuses *)

Definition client_error_status (error : ClientManagementError) : Z :=
  match error with
  | CmNotFound => BONDRY_STATUS_NOT_FOUND
  | CmEntropyUnavailable => BONDRY_STATUS_ENTROPY_UNAVAILABLE
  | CmGenerationExhausted => BONDRY_STATUS_GENERATION_EXHAUSTED
  | CmTimeUnavailable => BONDRY_STATUS_TIME_UNAVAILABLE
  | CmStorageUnavailable => BONDRY_STATUS_UNAVAILABLE
  end.

Definition token_error_status (error : TokenLifecycleError) : Z :=
  match error with
  | TlClientNotFound | TlNotFound => BONDRY_STATUS_NOT_FOUND
  | TlClientDisabled => BONDRY_STATUS_CLIENT_DISABLED
  | TlInactive => BONDRY_STATUS_TOKEN_INACTIVE
  | TlInvalidLifetime => BONDRY_STATUS_INVALID_TOKEN_LIFETIME
  | TlEntropyUnavailable => BONDRY_STATUS_ENTROPY_UNAVAILABLE
  | TlGenerationExhausted => BONDRY_STATUS_GENERATION_EXHAUSTED
  | TlTimeUnavailable => BONDRY_STATUS_TIME_UNAVAILABLE
  | TlStorageUnavailable => BONDRY_STATUS_UNAVAILABLE
  end.

(** [store_error_status], for the errors a query has. *)
Definition store_error_status (error : SqlCipherStoreError) : Z :=
  match error with
  | StoreDatabase _ => BONDRY_STATUS_DATABASE
  | StoreInvalidData => BONDRY_STATUS_INVALID_DATA
  | StoreLockUnavailable => BONDRY_STATUS_UNAVAILABLE
  end.

(** ** Records *)

Record BondryClientV1 := mk_client_v1 {
  bc_id : list byte;
  bc_name : list byte;
  bc_enabled : Z;
  bc_created_at : Z;
}.

Record BondryTokenMetadataV1 := mk_metadata_v1 {
  bm_id : list byte;
  bm_client_id : list byte;
  bm_label : list byte;
  bm_has_label : Z;
  bm_created_at : Z;
  bm_expires_at : Z;
  bm_has_expiration : Z;
  bm_revoked_at : Z;
  bm_has_revocation : Z;
}.

Record BondryIssuedTokenV1 := mk_issued_v1 {
  bi_metadata : BondryTokenMetadataV1;
  bi_secret : list byte;
}.

Record BondryGrantV1 := mk_grant_v1 {
  bg_principal_id : list byte;
  bg_adapter_id : list byte;
  bg_capability_id : list byte;
}.

Record BondryAuditEventV1 := mk_audit_event_v1 {
  ba_sequence : Z;
  ba_occurred_at : Z;
  ba_invocation_id : list byte;
  ba_principal_id : list byte;
  ba_adapter_id : list byte;
  ba_capability_id : list byte;
  ba_outcome : Z;
  ba_detail_code : list byte;
  ba_has_detail_code : Z;
}.

Definition zeros (capacity : nat) : list byte := replicate capacity 0.
Definition client_zeroed : BondryClientV1 := mk_client_v1 (zeros BONDRY_IDENTIFIER_CAPACITY_V1) (zeros BONDRY_LABEL_CAPACITY_V1) 0 0.
Definition metadata_zeroed : BondryTokenMetadataV1 :=
  mk_metadata_v1 (zeros BONDRY_IDENTIFIER_CAPACITY_V1) (zeros BONDRY_IDENTIFIER_CAPACITY_V1) (zeros BONDRY_LABEL_CAPACITY_V1) 0 0 0 0 0 0.
Definition issued_zeroed : BondryIssuedTokenV1 := mk_issued_v1 metadata_zeroed (zeros BONDRY_TOKEN_CAPACITY_V1).

Definition optional_i64 (value : option Z) : Z * Z := match value with Some value => (value, 1) | None => (0, 0) end.

(** The conversions; [None] is the panic of a copy out of range. *)
Definition from_client (c : Client) : option BondryClientV1 :=
  id ← terminated BONDRY_IDENTIFIER_CAPACITY_V1 (as_str (client_id c));
  name ← terminated BONDRY_LABEL_CAPACITY_V1 (client_name_str (client_name c));
  Some (mk_client_v1 id name (Z.b2z (client_enabled c)) (client_created_at c)).

Definition from_metadata (m : TokenMetadata) : option BondryTokenMetadataV1 :=
  '(label, has_label) ← optional_terminated BONDRY_LABEL_CAPACITY_V1 (token_label_str <$> md_label m);
  let '(expires_at, has_expiration) := optional_i64 (md_expires_at m) in
  let '(revoked_at, has_revocation) := optional_i64 (md_revoked_at m) in
  id ← terminated BONDRY_IDENTIFIER_CAPACITY_V1 (token_id_str (md_id m));
  client ← terminated BONDRY_IDENTIFIER_CAPACITY_V1 (as_str (md_client m));
  Some (mk_metadata_v1 id client label has_label (md_created_at m) expires_at has_expiration revoked_at has_revocation).

Definition from_issued (i : IssuedToken) : option BondryIssuedTokenV1 :=
  metadata ← from_metadata (iss_metadata i);
  secret ← terminated BONDRY_TOKEN_CAPACITY_V1 (iss_secret i);
  Some (mk_issued_v1 metadata secret).

Definition from_grant (g : CapabilityGrant) : option BondryGrantV1 :=
  principal ← terminated BONDRY_IDENTIFIER_CAPACITY_V1 (as_str (grant_principal g));
  adapter ← terminated BONDRY_IDENTIFIER_CAPACITY_V1 (as_str (grant_adapter g));
  capability ← terminated BONDRY_IDENTIFIER_CAPACITY_V1 (as_str (grant_capability g));
  Some (mk_grant_v1 principal adapter capability).

Definition audit_outcome_code (outcome : AuditOutcome) : Z * option rstr :=
  match outcome with
  | OutCapabilityNotFound => (1, None)
  | OutDenied NotGranted => (2, Some (str "not_granted"))
  | OutDenied PolicyUnavailable => (2, Some (str "policy_unavailable"))
  | OutStarted => (3, None)
  | OutInvalidInput => (6, None)
  | OutSucceeded => (4, None)
  | OutHandlerFailed code => (5, Some (as_str code))
  end.

(** [try_from_stored]: [Some None] where it declines, [None] where it panics. *)
Definition try_from_stored (e : StoredAuditEvent) : option (option BondryAuditEventV1) :=
  let event := se_event e in
  match (if ev_occurred_at event <? 0 then None else try_i64 (as_millis (ev_occurred_at event))) with
  | None => Some None
  | Some milliseconds =>
      let '(outcome, detail) := audit_outcome_code (ev_outcome event) in
      '(detail_code, has_detail_code) ← optional_terminated BONDRY_IDENTIFIER_CAPACITY_V1 detail;
      invocation ← terminated BONDRY_IDENTIFIER_CAPACITY_V1 (as_str (ev_invocation event));
      principal ← terminated BONDRY_IDENTIFIER_CAPACITY_V1 (as_str (ev_principal event));
      adapter ← terminated BONDRY_IDENTIFIER_CAPACITY_V1 (as_str (ev_adapter event));
      capability ← terminated BONDRY_IDENTIFIER_CAPACITY_V1 (as_str (ev_capability event));
      Some (Some (mk_audit_event_v1 (se_sequence e) milliseconds invocation principal adapter capability outcome detail_code has_detail_code))
  end.

Definition event_record (e : StoredAuditEvent) : result Z BondryAuditEventV1 :=
  match try_from_stored e with
  | Some (Some record) => Ok record
  | Some None => Err BONDRY_STATUS_INVALID_DATA
  | None => Err BONDRY_STATUS_INTERNAL_FAILURE
  end.

(** ** Arguments *)

(** [optional_utf8]; the length counts beside a null pointer. *)
Definition optional_utf8 (bytes : buffer) (null_length : Z) : result Z (option rstr) :=
  match bytes with
  | None => if null_length =? 0 then Ok None else Err BONDRY_STATUS_NULL_POINTER
  | Some _ => Some <$> required_utf8 bytes
  end.

Definition parse_principal_id (bytes : buffer) : result Z PrincipalId :=
  value ← required_utf8 bytes; map_err (fun _ => BONDRY_STATUS_INVALID_ARGUMENT) (Identifier_new value).

Definition token_label (bytes : buffer) (null_length : Z) : result Z (option TokenLabel) :=
  value ← optional_utf8 bytes null_length; map_err (fun _ => BONDRY_STATUS_INVALID_ARGUMENT) (transpose TokenLabel_new value).

Definition abi_expiration (seconds present : Z) : result Z (option Z) :=
  match present with
  | 0 => if seconds =? 0 then Ok None else Err BONDRY_STATUS_INVALID_ARGUMENT
  | 1 => if 0 <? seconds then Ok (Some (from_secs seconds)) else Err BONDRY_STATUS_INVALID_ARGUMENT
  | _ => Err BONDRY_STATUS_INVALID_ARGUMENT
  end.

Definition parse_grant (principal adapter capability : buffer) : result Z CapabilityGrant :=
  principal ← parse_principal_id principal;
  adapter ← required_utf8 adapter;
  adapter ← map_err (fun _ => BONDRY_STATUS_INVALID_ARGUMENT) (Identifier_new adapter);
  capability ← required_utf8 capability;
  capability ← map_err (fun _ => BONDRY_STATUS_INVALID_ARGUMENT) (Identifier_new capability);
  Ok (mk_grant principal adapter capability).

(** ** Clients and tokens (auth.rs) *)

Section admin.
  Context `{B : Base64} `{D : Sha256} `{Env : AuthEnv} `{SE : SqlEnv}.

#[local] Abbreviation Handle := (AuthManager SqlCipherStore).

Definition parse_token_id (bytes : buffer) : result Z TokenId :=
  value ← required_utf8 bytes; map_err (fun _ => BONDRY_STATUS_INVALID_ARGUMENT) (TokenId_new value).

Definition bondry_client_create_v1 (store : pointer Handle) (name : buffer) (out_client : pointer BondryClientV1)
    : Z * pointer BondryClientV1 * pointer Handle :=
  match out_client with
  | None => (BONDRY_STATUS_NULL_POINTER, None, store)
  | Some _ =>
      match (name ← required_utf8 name; map_err (fun _ => BONDRY_STATUS_INVALID_ARGUMENT) (ClientName_new name)) with
      | Err status => (status, Some client_zeroed, store)
      | Ok name =>
          match store with
          | None => (BONDRY_STATUS_NULL_POINTER, Some client_zeroed, None)
          | Some m =>
              match create_client name m with
              | (Ok client, m) =>
                  match from_client client with
                  | Some record => (BONDRY_STATUS_OK, Some record, Some m)
                  | None => (BONDRY_STATUS_INTERNAL_FAILURE, Some client_zeroed, Some m)
                  end
              | (Err error, m) => (client_error_status error, Some client_zeroed, Some m)
              end
          end
      end
  end.

(** Records of a list, as the lists of this interface write them. *)
Definition write_list {E A R} (convert : A -> option R) (status : E -> Z) (r : result E (list A)) (output : pointer (list R)) (capacity : Z)
    (out_count : pointer Z) : Z * pointer (list R) * pointer Z :=
  match r with
  | Err error => (status error, output, Some 0)
  | Ok items =>
      match mapM convert items with
      | Some records => write_records records output capacity out_count
      | None => (BONDRY_STATUS_INTERNAL_FAILURE, output, Some 0)
      end
  end.

Definition bondry_clients_list_v1 (store : pointer Handle) (output : pointer (list BondryClientV1)) (capacity : Z) (out_count : pointer Z)
    : Z * pointer (list BondryClientV1) * pointer Z * pointer Handle :=
  match out_count with
  | None => (BONDRY_STATUS_NULL_POINTER, output, None, store)
  | Some _ =>
      match store with
      | None => (BONDRY_STATUS_NULL_POINTER, output, Some 0, None)
      | Some m => let '(r, m) := clients m in (write_list from_client client_error_status r output capacity out_count, Some m)
      end
  end.

Definition bondry_client_set_enabled_v1 (store : pointer Handle) (client_id : buffer) (enabled : Z) : Z * pointer Handle :=
  match store with
  | None => (BONDRY_STATUS_NULL_POINTER, None)
  | Some m =>
      if 1 <? enabled then (BONDRY_STATUS_INVALID_ARGUMENT, Some m)
      else match parse_principal_id client_id with
           | Err status => (status, Some m)
           | Ok client_id =>
               match set_client_enabled client_id (enabled =? 1) m with
               | (Ok _, m) => (BONDRY_STATUS_OK, Some m)
               | (Err error, m) => (client_error_status error, Some m)
               end
           end
  end.

(** What [issue_or_rotate] parses before it calls the manager. *)
Definition issue_request (client_id label : buffer) (label_length expires_in_seconds has_expiration : Z) (rotation : option buffer)
    : result Z (action Handle TokenLifecycleError IssuedToken) :=
  label ← token_label label label_length;
  expiration ← abi_expiration expires_in_seconds has_expiration;
  match rotation with
  | Some token_id => token_id ← parse_token_id token_id; Ok (rotate_token token_id label expiration)
  | None => client_id ← parse_principal_id client_id; Ok (issue_token client_id label expiration)
  end.

Definition issue_or_rotate (store : pointer Handle) (client_id label : buffer) (label_length expires_in_seconds has_expiration : Z)
    (out_token : pointer BondryIssuedTokenV1) (rotation : option buffer) : Z * pointer BondryIssuedTokenV1 * pointer Handle :=
  match out_token with
  | None => (BONDRY_STATUS_NULL_POINTER, None, store)
  | Some _ =>
      match store with
      | None => (BONDRY_STATUS_NULL_POINTER, Some issued_zeroed, None)
      | Some m =>
          match issue_request client_id label label_length expires_in_seconds has_expiration rotation with
          | Err status => (status, Some issued_zeroed, Some m)
          | Ok operation =>
              match operation m with
              | (Ok issued, m) =>
                  match from_issued issued with
                  | Some record => (BONDRY_STATUS_OK, Some record, Some m)
                  | None => (BONDRY_STATUS_INTERNAL_FAILURE, Some issued_zeroed, Some m)
                  end
              | (Err error, m) => (token_error_status error, Some issued_zeroed, Some m)
              end
          end
      end
  end.

Definition bondry_token_issue_v1 (store : pointer Handle) (client_id label : buffer) (label_length expires_in_seconds has_expiration : Z)
    (out_token : pointer BondryIssuedTokenV1) :=
  issue_or_rotate store client_id label label_length expires_in_seconds has_expiration out_token None.
Definition bondry_token_rotate_v1 (store : pointer Handle) (token_id label : buffer) (label_length expires_in_seconds has_expiration : Z)
    (out_token : pointer BondryIssuedTokenV1) :=
  issue_or_rotate store None label label_length expires_in_seconds has_expiration out_token (Some token_id).

Definition bondry_token_revoke_v1 (store : pointer Handle) (token_id : buffer) (out_changed : pointer Z) : Z * pointer Z * pointer Handle :=
  match out_changed with
  | None => (BONDRY_STATUS_NULL_POINTER, None, store)
  | Some _ =>
      match store with
      | None => (BONDRY_STATUS_NULL_POINTER, Some 0, None)
      | Some m =>
          match parse_token_id token_id with
          | Err status => (status, Some 0, Some m)
          | Ok token_id =>
              match revoke_token token_id m with
              | (Ok changed, m) => (BONDRY_STATUS_OK, Some (Z.b2z changed), Some m)
              | (Err error, m) => (token_error_status error, Some 0, Some m)
              end
          end
      end
  end.

Definition bondry_tokens_list_v1 (store : pointer Handle) (client_id : buffer) (output : pointer (list BondryTokenMetadataV1)) (capacity : Z)
    (out_count : pointer Z) : Z * pointer (list BondryTokenMetadataV1) * pointer Z * pointer Handle :=
  match out_count with
  | None => (BONDRY_STATUS_NULL_POINTER, output, None, store)
  | Some _ =>
      match store with
      | None => (BONDRY_STATUS_NULL_POINTER, output, Some 0, None)
      | Some m =>
          match parse_principal_id client_id with
          | Err status => (status, output, Some 0, Some m)
          | Ok client_id =>
              let '(r, m) := tokens_for_client client_id m in (write_list from_metadata token_error_status r output capacity out_count, Some m)
          end
      end
  end.

(** [bondry_issued_token_clear_v1]. *)
Definition bondry_issued_token_clear_v1 (token : pointer BondryIssuedTokenV1) : Z * pointer BondryIssuedTokenV1 :=
  (BONDRY_STATUS_OK, (fun _ => issued_zeroed) <$> token).

(** ** Grants (grants.rs) *)

Definition set_store (store : SqlCipherStore) (m : Handle) : Handle := mk_manager store (am_tick m).

Definition update_grant (store : pointer Handle) (principal adapter capability : buffer) (out_changed : pointer Z) (add : bool)
    : Z * pointer Z * pointer Handle :=
  match out_changed with
  | None => (BONDRY_STATUS_NULL_POINTER, None, store)
  | Some _ =>
      match store with
      | None => (BONDRY_STATUS_NULL_POINTER, Some 0, None)
      | Some m =>
          match parse_grant principal adapter capability with
          | Err status => (status, Some 0, Some m)
          | Ok grant =>
              match (if add then add_grant grant (am_store m) else remove_grant grant (am_store m)) with
              | (Ok changed, s) => (BONDRY_STATUS_OK, Some (Z.b2z changed), Some (set_store s m))
              | (Err _, s) => (BONDRY_STATUS_UNAVAILABLE, Some 0, Some (set_store s m))
              end
          end
      end
  end.

Definition bondry_grant_add_v1 (store : pointer Handle) (principal adapter capability : buffer) (out_changed : pointer Z) :=
  update_grant store principal adapter capability out_changed true.
Definition bondry_grant_remove_v1 (store : pointer Handle) (principal adapter capability : buffer) (out_changed : pointer Z) :=
  update_grant store principal adapter capability out_changed false.

Definition bondry_grants_list_v1 (store : pointer Handle) (principal : buffer) (output : pointer (list BondryGrantV1)) (capacity : Z)
    (out_count : pointer Z) : Z * pointer (list BondryGrantV1) * pointer Z :=
  match out_count with
  | None => (BONDRY_STATUS_NULL_POINTER, output, None)
  | Some _ =>
      match store with
      | None => (BONDRY_STATUS_NULL_POINTER, output, Some 0)
      | Some m =>
          match parse_principal_id principal with
          | Err status => (status, output, Some 0)
          | Ok principal =>
              write_list from_grant (fun _ => BONDRY_STATUS_UNAVAILABLE) (grants_for_principal principal (am_store m)) output capacity out_count
          end
      end
  end.

(** ** Audit events (audit.rs) *)

(** [audit_query]; without a principal, that is a null pointer and no length, for all. *)
Definition audit_query (store : pointer Handle) (principal : buffer) (null_length limit : Z) (output : pointer (list BondryAuditEventV1))
    (capacity : Z) (out_count : pointer Z) : Z * pointer (list BondryAuditEventV1) * pointer Z * pointer Handle :=
  match out_count with
  | None => (BONDRY_STATUS_NULL_POINTER, output, None, store)
  | Some _ =>
      match store with
      | None => (BONDRY_STATUS_NULL_POINTER, output, Some 0, None)
      | Some m =>
          match AuditQueryLimit_new limit with
          | Err _ => (BONDRY_STATUS_INVALID_ARGUMENT, output, Some 0, Some m)
          | Ok limit =>
              match (match principal with
                     | None => if null_length =? 0 then Ok (recent_audit_events limit) else Err BONDRY_STATUS_NULL_POINTER
                     | Some _ => principal ← parse_principal_id principal; Ok (audit_events_for_principal principal limit)
                     end) with
              | Err status => (status, output, Some 0, Some m)
              | Ok query =>
                  let '(events, s) := query (am_store m) in
                  let m := set_store s m in
                  match events with
                  | Err error => (store_error_status error, output, Some 0, Some m)
                  | Ok events =>
                      match collect event_record events with
                      | Err status => (status, output, Some 0, Some m)
                      | Ok records => (write_records records output capacity out_count, Some m)
                      end
                  end
              end
          end
      end
  end.

Definition bondry_audit_recent_v1 (store : pointer Handle) (limit : Z) (output : pointer (list BondryAuditEventV1)) (capacity : Z)
    (out_count : pointer Z) :=
  audit_query store None 0 limit output capacity out_count.
Definition bondry_audit_for_principal_v1 (store : pointer Handle) (principal : buffer) (null_length limit : Z)
    (output : pointer (list BondryAuditEventV1)) (capacity : Z) (out_count : pointer Z) :=
  audit_query store principal null_length limit output capacity out_count.

(** ** What the host reads

    The meaning the records are documented to have. *)

Definition present {A} (value : A) (has : Z) : option A := if has =? 1 then Some value else None.

Definition client_of_record (r : BondryClientV1) : option Client :=
  id ← terminated_utf8 (bc_id r);
  name ← terminated_utf8 (bc_name r);
  Some (mk_client (mk_id id) (mk_client_name name) (bc_enabled r =? 1) (bc_created_at r)).

Definition metadata_of_record (r : BondryTokenMetadataV1) : option TokenMetadata :=
  id ← terminated_utf8 (bm_id r);
  client ← terminated_utf8 (bm_client_id r);
  label ← terminated_utf8 (bm_label r);
  Some (mk_metadata (mk_token_id id) (mk_id client) (present (mk_token_label label) (bm_has_label r)) (bm_created_at r)
    (present (bm_expires_at r) (bm_has_expiration r)) (present (bm_revoked_at r) (bm_has_revocation r))).

Definition issued_of_record (r : BondryIssuedTokenV1) : option IssuedToken :=
  metadata ← metadata_of_record (bi_metadata r);
  secret ← terminated_utf8 (bi_secret r);
  Some (mk_issued metadata secret).

Definition grant_of_record (r : BondryGrantV1) : option CapabilityGrant :=
  principal ← terminated_utf8 (bg_principal_id r);
  adapter ← terminated_utf8 (bg_adapter_id r);
  capability ← terminated_utf8 (bg_capability_id r);
  Some (mk_grant (mk_id principal) (mk_id adapter) (mk_id capability)).

Definition outcome_of_code (code : Z) (detail : option rstr) : option AuditOutcome :=
  match code, detail with
  | 1, None => Some OutCapabilityNotFound
  | 2, Some detail =>
      if bool_decide (detail = str "not_granted") then Some (OutDenied NotGranted)
      else if bool_decide (detail = str "policy_unavailable") then Some (OutDenied PolicyUnavailable) else None
  | 3, None => Some OutStarted
  | 4, None => Some OutSucceeded
  | 5, Some code => Some (OutHandlerFailed (mk_id code))
  | 6, None => Some OutInvalidInput
  | _, _ => None
  end.

Definition event_of_record (r : BondryAuditEventV1) : option StoredAuditEvent :=
  invocation ← terminated_utf8 (ba_invocation_id r);
  principal ← terminated_utf8 (ba_principal_id r);
  adapter ← terminated_utf8 (ba_adapter_id r);
  capability ← terminated_utf8 (ba_capability_id r);
  detail ← terminated_utf8 (ba_detail_code r);
  outcome ← outcome_of_code (ba_outcome r) (present detail (ba_has_detail_code r));
  Some (mk_stored_event (ba_sequence r) (mk_event (from_millis (ba_occurred_at r)) (mk_id invocation) (mk_id principal) (mk_id adapter)
    (mk_id capability) outcome)).

(** ** Records are read back *)

Lemma principal_wf_portable (p : PrincipalId) : principal_wf p -> portable MAX_IDENTIFIER_LENGTH (as_str p).
Proof. unfold principal_wf, Identifier_new. by intros ([] & ?%validate_ok & _)%result_bind_Ok. Qed.

Lemma identifier_portable {k} (i : Id k) : Identifier_new (as_str i) = Ok i -> portable MAX_IDENTIFIER_LENGTH (as_str i).
Proof. unfold Identifier_new. by intros ([] & ?%validate_ok & _)%result_bind_Ok. Qed.

Lemma name_fits n : name_wf n -> str_len (client_name_str n) < Z.of_nat BONDRY_LABEL_CAPACITY_V1.
Proof.
  unfold name_wf, ClientName_new. destruct (decide _); [done|]. destruct (Z.ltb_spec MAX_CLIENT_NAME_LENGTH (str_len (trim (client_name_str n)))) as [|Hl]; [done|].
  intros [= Hn%(f_equal client_name_str)]. cbn [client_name_str] in Hn. rewrite Hn in Hl. unfold MAX_CLIENT_NAME_LENGTH, BONDRY_LABEL_CAPACITY_V1 in *. lia.
Qed.
Lemma label_fits l : TokenLabel_new (token_label_str l) = Ok l -> str_len (token_label_str l) < Z.of_nat BONDRY_LABEL_CAPACITY_V1.
Proof.
  unfold TokenLabel_new. destruct (decide _); [done|]. destruct (Z.ltb_spec MAX_TOKEN_LABEL_LENGTH (str_len (trim (token_label_str l)))) as [|Hl]; [done|].
  intros [= Hn%(f_equal token_label_str)]. cbn [token_label_str] in Hn. rewrite Hn in Hl. unfold MAX_TOKEN_LABEL_LENGTH, BONDRY_LABEL_CAPACITY_V1 in *. lia.
Qed.

Lemma client_record c :
  client_wf c -> plain_text (client_name_str (client_name c)) -> exists r, from_client c = Some r /\ client_of_record r = Some c.
Proof.
  intros [Hid%principal_wf_portable Hname] Hp. destruct (terminated_round_trip _ _ Hid (Z.le_refl 128)) as (b1 & H1 & H1').
  destruct (terminated_text _ _ Hp (name_fits _ Hname)) as (b2 & H2 & H2'). unfold from_client. rewrite H1, H2. eexists. split; [done|].
  unfold client_of_record. cbn [bc_id bc_name bc_enabled bc_created_at]. rewrite H1', H2'. destruct c as [[id] [name] [] at_]; done.
Qed.

Context `{BS : !Base64Spec}.

(** Texts of base64 are portable. *)
Lemma b64_portable bs : bytes_wf bs -> Forall (fun c => is_allowed c = true) (b64_encode bs).
Proof.
  intros Hb. eapply Forall_impl; [by apply b64_alphabet|]. unfold url_safe, is_allowed. intros c. rewrite !orb_true_iff. tauto.
Qed.

Lemma token_id_text s i :
  TokenId_new s = Ok i -> i = mk_token_id s /\ Forall (fun c => is_allowed c = true) s /\ length s = 28%nat.
Proof.
  intros (-> & bs & -> & Hdec & Hlen)%TokenId_new_Ok. split; [done|]. split.
  - apply Forall_app. split; [by repeat constructor|]. apply b64_portable. by eapply b64_decode_octets.
  - rewrite length_app. pose proof (b64_length bs) as Hb. rewrite Hlen in Hb.
    change ((8 * Z.of_nat TOKEN_ID_RANDOM_BYTES + 5) / 6) with 22 in Hb. change (length TOKEN_ID_PREFIX) with 6%nat. lia.
Qed.

Lemma token_id_portable i : token_id_wf i -> portable 28 (token_id_str i).
Proof.
  intros (_ & Ha & Hl)%token_id_text. split; [by intros H; rewrite H in Hl|]. split; [lia|done].
Qed.

(** What [metadata] must satisfy. *)
Definition metadata_ok (m : TokenMetadata) : Prop :=
  token_id_wf (md_id m) /\ principal_wf (md_client m) /\ label_wf (md_label m) /\
  match md_label m with Some l => plain_text (token_label_str l) | None => True end.

Lemma label_record l :
  label_wf l -> match l with Some l => plain_text (token_label_str l) | None => True end ->
  exists bytes has text, optional_terminated BONDRY_LABEL_CAPACITY_V1 (token_label_str <$> l) = Some (bytes, has) /\
    terminated_utf8 bytes = Some text /\ present (mk_token_label text) has = l.
Proof.
  destruct l as [l|]; intros Hw Hp; cbn.
  - destruct (terminated_text _ _ Hp (label_fits _ (Hw l eq_refl))) as (bytes & -> & Hb). exists bytes, 1, (token_label_str l). by destruct l.
  - eexists _, 0, []. split; [done|]. split; [by vm_compute|done].
Qed.

Lemma optional_i64_present value : present (optional_i64 value).1 (optional_i64 value).2 = value.
Proof. by destruct value. Qed.

Lemma metadata_record m : metadata_ok m -> exists r, from_metadata m = Some r /\ metadata_of_record r = Some m.
Proof.
  intros (Hid%token_id_portable & Hc%principal_wf_portable & Hl & Hp). destruct (label_record _ Hl Hp) as (b1 & has & text & H1 & H1' & Hlab).
  assert (28 <= 128) as H28 by lia. destruct (terminated_round_trip _ _ Hid H28) as (b2 & H2 & H2').
  destruct (terminated_round_trip _ _ Hc (Z.le_refl 128)) as (b3 & H3 & H3'). unfold from_metadata. rewrite H1. cbn [mbind option_bind].
  destruct (optional_i64 (md_expires_at m)) as [ex hex] eqn:Hex. destruct (optional_i64 (md_revoked_at m)) as [rv hrv] eqn:Hrv.
  rewrite H2, H3. eexists. split; [done|]. unfold metadata_of_record.
  cbn [bm_id bm_client_id bm_label bm_has_label bm_created_at bm_expires_at bm_has_expiration bm_revoked_at bm_has_revocation].
  rewrite H2', H3', H1'. cbn [mbind option_bind]. rewrite Hlab. pose proof (optional_i64_present (md_expires_at m)) as He.
  pose proof (optional_i64_present (md_revoked_at m)) as Hr. rewrite Hex in He. rewrite Hrv in Hr. cbn in He, Hr. rewrite He, Hr.
  by destruct m as [[] [] ? ? ? ?].
Qed.

(** The text of a token that parses fits its record. *)
Lemma split_cons sep s p ps :
  split sep s = p :: ps -> match ps with [] => s = p | _ => exists t, s = p ++ sep :: t /\ split sep t = ps end.
Proof.
  revert p. induction s as [|c s IH]; intros p; cbn; [by intros [= <- <-]|]. destruct (Z.eqb_spec c sep) as [-> |].
  - intros [= <- <-]. pose proof (split_not_nil sep s). destruct (split sep s) eqn:Hs; [done|]. by exists s.
  - destruct (split sep s) as [|q qs] eqn:Hs; [by intros [= <- <-]; apply split_not_nil in Hs|]. intros [= <- <-].
    specialize (IH q eq_refl). destruct qs; [by rewrite IH|]. destruct IH as (t & -> & Ht). by exists t.
Qed.

Lemma secret_portable secret p : PresentedToken_parse secret = Ok p -> portable 82 secret.
Proof.
  unfold PresentedToken_parse. destruct (split dot secret) as [|format [|id [|enc rest]]] eqn:Hs; try done.
  destruct (bool_decide_reflect (rest = [])) as [-> |]; [|done]. destruct (bool_decide_reflect (format = TOKEN_FORMAT)) as [-> |]; [|done]. cbn [negb orb].
  intros (i & Hi%map_err_Ok & (bs & Hb & Hlen)%result_bind_Ok)%result_bind_Ok. destruct (b64_decode enc) as [bs'|] eqn:Hd; [|done]. injection Hb as ->.
  destruct (Nat.eqb_spec (length bs) TOKEN_SECRET_BYTES) as [Hl|]; [|done]. apply token_id_text in Hi as (_ & Ha & Hil).
  apply split_cons in Hs as (t & -> & Ht). apply split_cons in Ht as (u & -> & Hu). apply split_cons in Hu as ->.
  pose proof (b64_encode_decode _ _ Hd) as <-. pose proof (b64_length bs) as Hbl. rewrite Hl in Hbl.
  split; [done|]. split.
  - rewrite !length_app. cbn [length]. rewrite length_app. cbn [length]. change (length TOKEN_FORMAT) with 9%nat. rewrite Hil.
    change ((8 * Z.of_nat TOKEN_SECRET_BYTES + 5) / 6) with 43 in Hbl. lia.
  - apply Forall_app. split; [by repeat constructor|]. constructor; [done|]. apply Forall_app. split; [done|]. constructor; [done|].
    apply b64_portable. by eapply b64_decode_octets.
Qed.

Lemma issued_record i p :
  metadata_ok (iss_metadata i) -> PresentedToken_parse (iss_secret i) = Ok p -> exists r, from_issued i = Some r /\ issued_of_record r = Some i.
Proof.
  intros (r & Hr & Hr')%metadata_record Hs%secret_portable. unfold from_issued. rewrite Hr. cbn [mbind option_bind].
  assert (str_len (iss_secret i) < Z.of_nat BONDRY_TOKEN_CAPACITY_V1) as Hl.
  { rewrite <-length_as_bytes. destruct (portable_bytes _ _ Hs) as [-> _]. destruct Hs as (_ & Hs & _). unfold BONDRY_TOKEN_CAPACITY_V1. lia. }
  destruct (terminated_text _ _ (portable_plain _ _ Hs) Hl) as (b & Hb & Hb'). rewrite Hb. eexists. split; [done|].
  unfold issued_of_record. cbn [bi_metadata bi_secret]. rewrite Hr'. cbn [mbind option_bind]. rewrite Hb'. by destruct i.
Qed.

Lemma grant_record g : grant_wf g -> exists r, from_grant g = Some r /\ grant_of_record r = Some g.
Proof.
  intros (Hp%identifier_portable & Ha%identifier_portable & Hc%identifier_portable).
  destruct (terminated_round_trip _ _ Hp (Z.le_refl 128)) as (b1 & H1 & H1'). destruct (terminated_round_trip _ _ Ha (Z.le_refl 128)) as (b2 & H2 & H2').
  destruct (terminated_round_trip _ _ Hc (Z.le_refl 128)) as (b3 & H3 & H3'). unfold from_grant. rewrite H1, H2, H3. eexists. split; [done|].
  unfold grant_of_record. cbn [bg_principal_id bg_adapter_id bg_capability_id]. rewrite H1', H2', H3'. by destruct g as [[] [] []].
Qed.

(** A time in whole milliseconds that the record can hold. *)
Definition event_time_ok (e : StoredAuditEvent) : Prop :=
  exists ms, ev_occurred_at (se_event e) = from_millis ms /\ 0 <= ms <= I64_MAX.

Lemma detail_record outcome :
  match outcome with OutHandlerFailed code => Identifier_new (as_str code) = Ok code | _ => True end ->
  let '(code, detail) := audit_outcome_code outcome in
  exists bytes has text, optional_terminated BONDRY_IDENTIFIER_CAPACITY_V1 detail = Some (bytes, has) /\ terminated_utf8 bytes = Some text /\
    outcome_of_code code (present text has) = Some outcome.
Proof.
  intros Hc. destruct outcome as [|[]| | | |code]; cbn [audit_outcome_code]; try (eexists _, _, _; split; [reflexivity|split; [vm_compute; reflexivity|done]]).
  destruct (terminated_round_trip _ _ (identifier_portable _ Hc) (Z.le_refl 128)) as (b & Hb & Hb'). cbn [optional_terminated]. rewrite Hb.
  eexists _, _, _. split; [done|]. split; [done|]. by destruct code.
Qed.

Lemma event_record_read e : event_wf (se_event e) -> event_time_ok e -> exists r, event_record e = Ok r /\ event_of_record r = Some e.
Proof.
  intros (Hi%identifier_portable & Hp%identifier_portable & Ha%identifier_portable & Hc%identifier_portable & Ho) (ms & Ht & Hms).
  destruct (terminated_round_trip _ _ Hi (Z.le_refl 128)) as (b1 & H1 & H1'). destruct (terminated_round_trip _ _ Hp (Z.le_refl 128)) as (b2 & H2 & H2').
  destruct (terminated_round_trip _ _ Ha (Z.le_refl 128)) as (b3 & H3 & H3'). destruct (terminated_round_trip _ _ Hc (Z.le_refl 128)) as (b4 & H4 & H4').
  pose proof (detail_record _ Ho) as Hd. unfold event_record, try_from_stored. rewrite Ht.
  destruct (Z.ltb_spec (from_millis ms) 0) as [|_]; [unfold from_millis in *; lia|].
  assert (as_millis (from_millis ms) = ms) as -> by (unfold as_millis, from_millis; by rewrite Z.div_mul).
  assert (try_i64 ms = Some ms) as ->.
  { unfold try_i64. replace (in_i64 ms) with true; [done|]. symmetry. apply in_range_spec. unfold I64_MIN, I64_MAX in *. lia. }
  destruct (audit_outcome_code _) as [code detail]. destruct Hd as (b5 & has & text & H5 & H5' & Hout).
  rewrite H5, H1, H2, H3, H4. cbn [mbind option_bind]. eexists. split; [done|]. unfold event_of_record.
  cbn [ba_sequence ba_occurred_at ba_invocation_id ba_principal_id ba_adapter_id ba_capability_id ba_outcome ba_detail_code ba_has_detail_code].
  rewrite H1', H2', H3', H4', H5'. cbn [mbind option_bind]. rewrite Hout, <-Ht. destruct e as [sequence [? [] [] [] [] ?]]. done.
Qed.

(** ** What a call tells *)

(** Its status and the record it left, as the host reads them; after an error the record is
    blank. *)
Definition tells {E A R} (read : R -> option A) (blank : R) (status : E -> Z) (r : result E A) (code : Z) (out : pointer R) : Prop :=
  match r with
  | Ok a => code = BONDRY_STATUS_OK /\ exists record, out = Some record /\ read record = Some a
  | Err e => code = status e /\ code <> BONDRY_STATUS_OK /\ out = Some blank
  end.

(** The same of a list, in an output with some room: the count, and the records if they fit. *)
Definition tells_list {E A R} (read : R -> option A) (status : E -> Z) (r : result E (list A)) (room : nat)
    (call : Z * pointer (list R) * pointer Z) : Prop :=
  let '(code, out, count) := call in
  match r with
  | Ok items =>
      count = Some (Z.of_nat (length items)) /\
      if (room <? length items)%nat then code = BONDRY_STATUS_BUFFER_TOO_SMALL
      else code = BONDRY_STATUS_OK /\ exists records rest, out = Some (records ++ rest) /\ length (records ++ rest) = room /\ mapM read records = Some items
  | Err e => code = status e /\ code <> BONDRY_STATUS_OK /\ count = Some 0
  end.

Lemma mapM_read {A R} (convert : A -> option R) (read : R -> option A) items :
  Forall (fun a => exists r, convert a = Some r /\ read r = Some a) items ->
  exists records, mapM convert items = Some records /\ mapM read records = Some items /\ length records = length items.
Proof.
  induction 1 as [|a items (r & Hc & Hr) _ (records & Hm & Hread & Hl)]; [by exists []|]. exists (r :: records). cbn. rewrite Hc, Hm, Hr, Hread.
  cbn. by rewrite Hl.
Qed.

Lemma write_records_tells {E A R} (read : R -> option A) (status : E -> Z) items records old n :
  mapM read records = Some items -> length records = length items ->
  tells_list read status (Ok items) (length old) (write_records records (Some old) (Z.of_nat (length old)) (Some n)).
Proof.
  intros Hr Hl. cbn. rewrite Hl. destruct (Nat.ltb_spec (length old) (length items)) as [Hlt|Hge].
  - rewrite (proj2 (Z.ltb_lt _ _)) by lia. unfold tells_list. by rewrite (proj2 (Nat.ltb_lt _ _)).
  - rewrite (proj2 (Z.ltb_ge _ _)) by lia. unfold tells_list. rewrite (proj2 (Nat.ltb_ge _ _)) by done.
    split; [done|]. split; [done|]. exists records, (drop (length records) old).
    split; [by rewrite Hl|]. split; [|done]. rewrite length_app, length_drop. lia.
Qed.

Lemma write_list_tells {E A R} (convert : A -> option R) (read : R -> option A) (status : E -> Z) r old n :
  (forall e, status e <> BONDRY_STATUS_OK) -> (forall items, r = Ok items -> Forall (fun a => exists x, convert a = Some x /\ read x = Some a) items) ->
  tells_list read status r (length old) (write_list convert status r (Some old) (Z.of_nat (length old)) (Some n)).
Proof.
  intros Hs Hitems. destruct r as [items|e]; [|by repeat split]. destruct (mapM_read _ _ _ (Hitems items eq_refl)) as (records & Hm & Hr & Hl).
  unfold write_list. rewrite Hm. by apply write_records_tells.
Qed.

(** ** The operations *)

Context {DS : Sha256Spec} {EnvOk : AuthEnvOk}.

Lemma client_status_error e : client_error_status e <> BONDRY_STATUS_OK.
Proof. by destruct e. Qed.
Lemma token_status_error e : token_error_status e <> BONDRY_STATUS_OK.
Proof. by destruct e. Qed.

Lemma required_utf8_text s : plain_text s -> str_len s <= ISIZE_MAX -> required_utf8 (Some (as_bytes s)) = Ok s.
Proof.
  intros Hp Hl. unfold required_utf8. cbn [ok_or mbind result_bind]. rewrite length_as_bytes, (proj2 (Z.ltb_ge _ _)) by lia.
  rewrite from_utf8_as_bytes; [done|]. eapply Forall_impl; [exact Hp|]. by intros c [? _].
Qed.

Lemma create_tells name m out :
  auth_ok (am_store m) -> name_wf name -> plain_text (client_name_str name) ->
  let '(r, m') := create_client name m in
  let '(code, out', store) := bondry_client_create_v1 (Some m) (Some (as_bytes (client_name_str name))) (Some out) in
  store = Some m' /\ tells client_of_record client_zeroed client_error_status r code out'.
Proof.
  intros Hok Hn Hp. pose proof (name_fits _ Hn) as Hfit. unfold bondry_client_create_v1.
  rewrite required_utf8_text by (done || (unfold BONDRY_LABEL_CAPACITY_V1, ISIZE_MAX, I64_MAX in *; lia)). cbn [mbind result_bind].
  unfold name_wf in Hn. rewrite Hn. cbn [map_err].
  pose proof (create_client_effect name m Hok Hn) as He. unfold effect_ok in He. destruct (create_client name m) as [[c|e] m'].
  2: { split; [done|]. split; [done|]. split; [apply client_status_error|done]. }
  destruct He as [Hok' He].
  assert (client_wf c /\ client_name c = name) as [Hwf Hname].
  { inversion He as [op ans Hc Ht Hs| | | | |]; subst; [done|]. split; [|done].
    eapply (auth_clients_wf (am_store m') (client_id c)); [done|]. match goal with H : clients_of (am_store m') = _ |- _ => rewrite H end. apply lookup_insert_eq. }
  destruct (client_record c Hwf) as (record & Hr & Hread); [by rewrite Hname|]. rewrite Hr. split; [done|]. split; [done|]. by exists record.
Qed.

Lemma principal_parsed (p : PrincipalId) : principal_wf p -> parse_principal_id (Some (as_bytes (as_str p))) = Ok p.
Proof.
  intros Hp. unfold parse_principal_id. rewrite (required_utf8_portable _ _ (principal_wf_portable _ Hp)) by done. cbn [mbind result_bind].
  unfold principal_wf in Hp. by rewrite Hp.
Qed.
Lemma token_id_parsed i : token_id_wf i -> parse_token_id (Some (as_bytes (token_id_str i))) = Ok i.
Proof.
  intros Hi. unfold parse_token_id. rewrite (required_utf8_portable _ _ (token_id_portable _ Hi)) by lia. cbn [mbind result_bind].
  unfold token_id_wf in Hi. by rewrite Hi.
Qed.

(** How a caller passes a label and a lifetime. *)
Definition label_buffer (label : option TokenLabel) : buffer := (fun l => as_bytes (token_label_str l)) <$> label.
Definition label_plain (label : option TokenLabel) : Prop := match label with Some l => plain_text (token_label_str l) | None => True end.
Definition has {A} (value : option A) : Z := match value with Some _ => 1 | None => 0 end.

Lemma label_parsed label : label_wf label -> label_plain label -> token_label (label_buffer label) 0 = Ok label.
Proof.
  destruct label as [l|]; intros Hw Hp; [|done]. specialize (Hw l eq_refl). pose proof (label_fits _ Hw) as Hfit.
  unfold token_label, optional_utf8, label_buffer. cbn [fmap option_fmap option_map].
  rewrite required_utf8_text by (done || (unfold BONDRY_LABEL_CAPACITY_V1, ISIZE_MAX, I64_MAX in *; lia)).
  cbn [fmap result_fmap mbind result_bind transpose]. by rewrite Hw.
Qed.
Lemma expiration_parsed seconds :
  match seconds with Some s => 0 < s | None => True end -> abi_expiration (default 0 seconds) (has seconds) = Ok (from_secs <$> seconds).
Proof. destruct seconds as [s|]; intros Hs; [|done]. cbn. by rewrite (proj2 (Z.ltb_lt _ _)). Qed.

Lemma issued_answer m m' op i :
  auth_ok (am_store m) -> auth_effect m m' op (AnsIssued (Ok i)) ->
  match op with OpIssueToken _ label _ | OpRotateToken _ label _ => label_wf label /\ label_plain label | _ => False end ->
  exists r, from_issued i = Some r /\ issued_of_record r = Some i.
Proof.
  intros Hok He Hop.
  assert (exists p, PresentedToken_parse (iss_secret i) = Ok p /\ md_id (iss_metadata i) = pres_id p) as (p & Hp & Hid).
  { inversion He as [op0 ans Hc Ht Hs| | | | |]; subst; [done|..]; eauto. }
  apply (issued_record _ p); [|done]. split_and!.
  - rewrite Hid. unfold PresentedToken_parse in Hp. destruct (split dot _) as [|format [|id [|enc rest]]]; try done. destruct (_ || _); [done|].
    apply result_bind_Ok in Hp as (x & Hx%map_err_Ok & (bs & _ & Hp)%result_bind_Ok). destruct (negb _); [done|]. injection Hp as <-.
    cbn [pres_id]. unfold token_id_wf. pose proof (token_id_text _ _ Hx) as (-> & _). exact Hx.
  - inversion He as [op0 ans Hc Ht Hs| | |client label ein t secret c Hc Hen <-| |id label ein at_ t t' secret c Ht Hact Hc Hen Hcl]; subst; [done|..]; cbn.
    + destruct (auth_clients_wf _ _ _ Hok Hc) as [[Hw _] Hci]. by rewrite Hci in Hw.
    + rewrite Hcl. destruct (auth_clients_wf _ _ _ Hok Hc) as [[Hw _] Hci]. by rewrite Hci in Hw.
  - inversion He; subst; [done|..]; apply Hop.
  - inversion He; subst; [done|..]; apply Hop.
Qed.

(** Either operation that hands out a token. *)
Lemma issue_or_rotate_tells client_id label rotation seconds m out op (f : action Handle TokenLifecycleError IssuedToken) :
  auth_ok (am_store m) -> label_wf label -> label_plain label -> match seconds with Some s => 0 < s | None => True end ->
  match op with OpIssueToken _ l _ | OpRotateToken _ l _ => l = label | _ => False end -> effect_ok f AnsIssued op m ->
  issue_request client_id (label_buffer label) 0 (default 0 seconds) (has seconds) rotation = Ok f ->
  let '(r, m') := f m in
  let '(code, out', store) := issue_or_rotate (Some m) client_id (label_buffer label) 0 (default 0 seconds) (has seconds) (Some out) rotation in
  store = Some m' /\ tells issued_of_record issued_zeroed token_error_status r code out'.
Proof.
  intros Hok Hw Hp Hs Hop He Hreq. unfold issue_or_rotate. rewrite Hreq. unfold effect_ok in He. destruct (f m) as [[i|e] m'].
  - destruct He as [_ He]. destruct (issued_answer m m' op i Hok He) as (record & Hr & Hread); [by destruct op; simplify_eq|].
    rewrite Hr. split; [done|]. split; [done|]. by exists record.
  - split; [done|]. split; [done|]. split; [apply token_status_error|done].
Qed.

(** What the lists answer with. *)
Lemma clients_answer m l :
  auth_ok (am_store m) -> (clients m).1 = Ok l -> Forall (fun c => plain_text (client_name_str (client_name c))) l ->
  Forall (fun c => exists r, from_client c = Some r /\ client_of_record r = Some c) l.
Proof.
  intros Hok Hl Hp. unfold clients, with_err, with_store in Hl. pose proof (store_clients_spec (am_store m) Hok) as Hs.
  destruct (store_clients (am_store m)) as [r s']. destruct Hs as (_ & _ & _ & Hr). destruct r as [l'|]; [|done]. cbn in Hl. injection Hl as ->.
  specialize (Hr l eq_refl). rewrite Forall_forall in Hp |- *. intros c Hc. apply client_record; [|by apply Hp]. rewrite Hr in Hc.
  apply list_elem_of_fmap in Hc as ([id c'] & -> & Hc%elem_of_map_to_list). by apply (auth_clients_wf _ _ _ Hok) in Hc as [? _].
Qed.

Lemma tokens_answer client m l :
  auth_ok (am_store m) -> (tokens_for_client client m).1 = Ok l -> Forall (fun t => label_plain (md_label t)) l ->
  Forall (fun t => exists r, from_metadata t = Some r /\ metadata_of_record r = Some t) l.
Proof.
  intros Hok Hl Hp. unfold tokens_for_client, with_err, with_store, mbind, action_bind in Hl.
  pose proof (store_tokens_for_client_spec client (am_store m) Hok) as Hs.
  destruct (store_tokens_for_client client (am_store m)) as [r s']. destruct Hs as (_ & _ & _ & Hr). destruct r as [ts|]; [|done]. cbn in Hl. injection Hl as <-.
  specialize (Hr ts eq_refl). rewrite Forall_forall in Hp |- *. intros t Ht. specialize (Hp t Ht). apply list_elem_of_fmap in Ht as (rec & -> & Ht).
  rewrite Hr in Ht. apply list_elem_of_filter in Ht as [_ Ht]. apply list_elem_of_fmap in Ht as ([i rec'] & -> & Ht%elem_of_map_to_list).
  cbn [snd] in *. cbn [tokens_of SqlCipherStore_AuthStoreSpec] in Ht. rewrite tokens_view_lookup in Ht. apply bind_Some in Ht as (row & _ & Ht).
  destruct (validate_token _ row) as [x|] eqn:Hv; [|done]. injection Ht as ->. apply validate_token_wf in Hv as (Hid & Hc & Hlab & _).
  by apply metadata_record.
Qed.

Lemma grants_answer p m l :
  grants_ok (am_store m) -> grants_for_principal p (am_store m) = Ok l ->
  Forall (fun g => exists r, from_grant g = Some r /\ grant_of_record r = Some g) l.
Proof.
  intros Hok Hl. destruct (grants_for_principal_spec p (am_store m) l Hok Hl) as [_ Hg]. apply Forall_forall. intros g [Hin _]%Hg.
  apply grant_record. by apply Hok.
Qed.

(** The times of the table are 64-bit integers. *)
Definition times_ok (db : Database) : Prop := Forall (fun row => ae_occurred_at_ms row <= I64_MAX) (t_audit db).

Lemma validate_event_ok row e :
  validate_event row = Ok e -> ae_occurred_at_ms row <= I64_MAX -> event_wf (se_event e) /\ event_time_ok e.
Proof.
  unfold validate_event. intros (ms & Hms & (o & Ho & (i & Hi%map_err_Ok & (p & Hp%map_err_Ok & (a & Ha%map_err_Ok & (c & Hc%map_err_Ok & [= <-])%result_bind_Ok)%result_bind_Ok)%result_bind_Ok)%result_bind_Ok)%result_bind_Ok)%result_bind_Ok Hmax.
  assert (forall k s (x : Id k), Identifier_new s = Ok x -> Identifier_new (as_str x) = Ok x) as Hre.
  { intros k s x Hx. pose proof Hx as Hx'. unfold Identifier_new in Hx'. apply result_bind_Ok in Hx' as ([] & _ & [= <-]). exact Hx. }
  split; cbn.
  - split_and!; [by eapply Hre..|]. destruct o as [|[]| | | |code]; try done. unfold decode_outcome in Ho. destruct (ae_detail_code row) as [d|].
    + repeat case_decide; try done. apply result_bind_Ok in Ho as (code' & Hcode%map_err_Ok & [= <-]). by eapply Hre.
    + by repeat case_decide.
  - unfold try_unsigned in Hms. destruct (_ && _) eqn:Hr in Hms; [|done]. injection Hms as <-. rewrite andb_true_iff, !Z.leb_le in Hr. eexists. split; [done|]. lia.
Qed.

Lemma events_answer query s l :
  (forall row, row ∈ query (sq_db s) -> row ∈ t_audit (sq_db s)) -> times_ok (sq_db s) -> (query_audit_events query s).1 = Ok l ->
  exists records, collect event_record l = Ok records /\ mapM event_of_record records = Some l /\ length records = length l.
Proof.
  intros Hq Ht. unfold query_audit_events, connection, with_err, mbind, action_bind, sql, lift. destruct (sq_poisoned s); [done|].
  destruct (sql_fails (sq_tick s)); [done|]. cbn. intros Hl%collect_Ok. unfold times_ok in Ht. rewrite Forall_forall in Ht.
  assert (forall row, row ∈ query (sq_db s) -> ae_occurred_at_ms row <= I64_MAX) as Hrows by auto. clear Hq Ht.
  induction Hl as [|row e rows l He _ IH]; [by exists []|]. destruct IH as (records & Hc & Hm & Hlen); [intros x Hx; apply Hrows; by right|].
  destruct (validate_event_ok row e He) as [Hwf Htime]; [apply Hrows; by left|]. destruct (event_record_read e Hwf Htime) as (r & Hr & Hread).
  exists (r :: records). cbn. rewrite Hr. cbn. rewrite Hc. cbn. rewrite Hread, Hm. cbn. by rewrite Hlen.
Qed.

Lemma audit_tells principal limit m old n :
  match principal with Some p => principal_wf p | None => True end -> 0 < limit <= MAX_AUDIT_QUERY_LIMIT -> times_ok (sq_db (am_store m)) ->
  let query := match principal with Some p => audit_events_for_principal p | None => recent_audit_events end in
  let '(r, s) := query (mk_audit_limit limit) (am_store m) in
  let '(call, store) := audit_query (Some m) ((fun p => as_bytes (as_str p)) <$> principal) 0 limit (Some old) (Z.of_nat (length old)) (Some n) in
  store = Some (set_store s m) /\ tells_list event_of_record store_error_status r (length old) call.
Proof.
  intros Hp Hlimit Ht. cbv zeta. unfold audit_query, AuditQueryLimit_new.
  replace ((limit =? 0) || (MAX_AUDIT_QUERY_LIMIT <? limit)) with false
    by (symmetry; rewrite orb_false_iff, Z.eqb_neq, Z.ltb_ge; lia).
  set (rows := match principal with Some p => sql_events_for_principal (as_str p) limit | None => sql_recent_events limit end).
  assert (forall row, row ∈ rows (sq_db (am_store m)) -> row ∈ t_audit (sq_db (am_store m))) as Hrows.
  { intros row. destruct principal as [p|]; unfold rows.
    - unfold sql_events_for_principal. intros (k & Hk%list_elem_of_lookup_2 & _)%elem_of_take. apply list_elem_of_filter in Hk as [_ Hk].
      by rewrite elem_of_reverse in Hk.
    - unfold sql_recent_events. intros (k & Hk%list_elem_of_lookup_2 & _)%elem_of_take. by rewrite elem_of_reverse in Hk. }
  pose proof (fun l => events_answer rows (am_store m) l Hrows Ht) as Hl.
  assert ((match principal with Some p => audit_events_for_principal p | None => recent_audit_events end) (mk_audit_limit limit) = query_audit_events rows)
    as -> by (by destruct principal).
  match goal with |- context [match ?q with Ok _ => _ | Err status => (status, _, _, _) end] =>
    assert (q = Ok (query_audit_events rows)) as -> end.
  { destruct principal as [p|]; cbn [fmap option_fmap option_map]; [by rewrite principal_parsed|done]. }
  destruct (query_audit_events rows (am_store m)) as [[l|e] s]; [|split; [done|]; split; [done|]; split; [by destruct e|done]].
  destruct (Hl l eq_refl) as (records & Hc & Hm & Hlen). rewrite Hc. split; [done|]. by apply write_records_tells.
Qed.

(** C23: administration crosses the C interface.  On a sound store, every call of the interface
    does to it what the operation of the library does, and leaves in its status and its
    records what the operation answered, for the host to read: the client that was created;
    the token that was issued or came from a rotation, with its secret; whether a token or a
    grant changed; and the lists of clients, tokens, grants and audit events, or their
    length where the room is too small.  After an error the record is blank.  Names and
    labels must not hold a zero, at which their records are cut ([zero_truncates_names]). *)
Theorem administration_crosses_interface m :
  auth_ok (am_store m) -> grants_ok (am_store m) -> times_ok (sq_db (am_store m)) ->
  (forall name out, name_wf name -> plain_text (client_name_str name) ->
    let '(r, m') := create_client name m in
    let '(code, out', store) := bondry_client_create_v1 (Some m) (Some (as_bytes (client_name_str name))) (Some out) in
    store = Some m' /\ tells client_of_record client_zeroed client_error_status r code out') /\
  (forall id enabled, principal_wf id ->
    let '(r, m') := set_client_enabled id enabled m in
    bondry_client_set_enabled_v1 (Some m) (Some (as_bytes (as_str id))) (Z.b2z enabled) =
      (match r with Ok _ => BONDRY_STATUS_OK | Err e => client_error_status e end, Some m')) /\
  (forall client label seconds out, principal_wf client -> label_wf label -> label_plain label -> match seconds with Some s => 0 < s | None => True end ->
    let '(r, m') := issue_token client label (from_secs <$> seconds) m in
    let '(code, out', store) := bondry_token_issue_v1 (Some m) (Some (as_bytes (as_str client))) (label_buffer label) 0 (default 0 seconds) (has seconds) (Some out) in
    store = Some m' /\ tells issued_of_record issued_zeroed token_error_status r code out') /\
  (forall id label seconds out, token_id_wf id -> label_wf label -> label_plain label -> match seconds with Some s => 0 < s | None => True end ->
    let '(r, m') := rotate_token id label (from_secs <$> seconds) m in
    let '(code, out', store) := bondry_token_rotate_v1 (Some m) (Some (as_bytes (token_id_str id))) (label_buffer label) 0 (default 0 seconds) (has seconds) (Some out) in
    store = Some m' /\ tells issued_of_record issued_zeroed token_error_status r code out') /\
  (forall id out, token_id_wf id ->
    let '(r, m') := revoke_token id m in
    bondry_token_revoke_v1 (Some m) (Some (as_bytes (token_id_str id))) (Some out) =
      match r with Ok changed => (BONDRY_STATUS_OK, Some (Z.b2z changed), Some m') | Err e => (token_error_status e, Some 0, Some m') end) /\
  (forall old n, (forall l, (clients m).1 = Ok l -> Forall (fun c => plain_text (client_name_str (client_name c))) l) ->
    let '(r, m') := clients m in
    let '(call, store) := bondry_clients_list_v1 (Some m) (Some old) (Z.of_nat (length old)) (Some n) in
    store = Some m' /\ tells_list client_of_record client_error_status r (length old) call) /\
  (forall client old n, principal_wf client -> (forall l, (tokens_for_client client m).1 = Ok l -> Forall (fun t => label_plain (md_label t)) l) ->
    let '(r, m') := tokens_for_client client m in
    let '(call, store) := bondry_tokens_list_v1 (Some m) (Some (as_bytes (as_str client))) (Some old) (Z.of_nat (length old)) (Some n) in
    store = Some m' /\ tells_list metadata_of_record token_error_status r (length old) call) /\
  (forall g add out, grant_wf g ->
    let '(r, s) := if (add : bool) then add_grant g (am_store m) else remove_grant g (am_store m) in
    update_grant (Some m) (Some (as_bytes (as_str (grant_principal g)))) (Some (as_bytes (as_str (grant_adapter g))))
      (Some (as_bytes (as_str (grant_capability g)))) (Some out) add =
      (match r with Ok _ => BONDRY_STATUS_OK | Err _ => BONDRY_STATUS_UNAVAILABLE end,
       Some (match r with Ok changed => Z.b2z changed | Err _ => 0 end), Some (set_store s m))) /\
  (forall p old n, principal_wf p ->
    tells_list grant_of_record (fun _ => BONDRY_STATUS_UNAVAILABLE) (grants_for_principal p (am_store m)) (length old)
      (bondry_grants_list_v1 (Some m) (Some (as_bytes (as_str p))) (Some old) (Z.of_nat (length old)) (Some n))) /\
  (forall principal limit old n, match principal with Some p => principal_wf p | None => True end -> 0 < limit <= MAX_AUDIT_QUERY_LIMIT ->
    let '(r, s) := (match principal with Some p => audit_events_for_principal p | None => recent_audit_events end) (mk_audit_limit limit) (am_store m) in
    let '(call, store) := audit_query (Some m) ((fun p => as_bytes (as_str p)) <$> principal) 0 limit (Some old) (Z.of_nat (length old)) (Some n) in
    store = Some (set_store s m) /\ tells_list event_of_record store_error_status r (length old) call).
Proof.
  intros Hok Hg Ht. split_and!.
  - intros name out. by apply create_tells.
  - intros id enabled Hid. unfold bondry_client_set_enabled_v1. replace (1 <? Z.b2z enabled) with false by (by destruct enabled).
    rewrite principal_parsed by done. replace (Z.b2z enabled =? 1) with enabled by (by destruct enabled).
    by destruct (set_client_enabled id enabled m) as [[[]|e] m'].
  - intros client label seconds out Hc Hl Hp Hs. apply (issue_or_rotate_tells _ _ _ _ _ _ (OpIssueToken client label (from_secs <$> seconds))); try done.
    + by apply issue_token_effect.
    + unfold issue_request. rewrite label_parsed, expiration_parsed by done. cbn [mbind result_bind]. by rewrite principal_parsed.
  - intros id label seconds out Hi Hl Hp Hs. apply (issue_or_rotate_tells _ _ _ _ _ _ (OpRotateToken id label (from_secs <$> seconds))); try done.
    + by apply rotate_token_effect.
    + unfold issue_request. rewrite label_parsed, expiration_parsed by done. cbn [mbind result_bind]. by rewrite token_id_parsed.
  - intros id out Hi. unfold bondry_token_revoke_v1. rewrite token_id_parsed by done. by destruct (revoke_token id m) as [[|] m'].
  - intros old n Hp. unfold bondry_clients_list_v1. pose proof (fun l => clients_answer m l Hok) as Hl. destruct (clients m) as [r m']. split; [done|].
    apply write_list_tells; [apply client_status_error|]. intros l ->. by apply Hl, Hp.
  - intros client old n Hc Hp. unfold bondry_tokens_list_v1. rewrite principal_parsed by done. pose proof (fun l => tokens_answer client m l Hok) as Hl.
    destruct (tokens_for_client client m) as [r m']. split; [done|]. apply write_list_tells; [apply token_status_error|]. intros l ->. by apply Hl, Hp.
  - intros g add out (Hp & Ha & Hc). unfold update_grant, parse_grant. rewrite principal_parsed by done. cbn [mbind result_bind].
    rewrite !(required_utf8_portable _ _ (identifier_portable _ Ha)) by done. cbn [mbind result_bind]. rewrite Ha. cbn [map_err mbind result_bind].
    rewrite !(required_utf8_portable _ _ (identifier_portable _ Hc)) by done. cbn [mbind result_bind]. rewrite Hc. cbn [map_err mbind result_bind].
    replace (mk_grant (grant_principal g) (grant_adapter g) (grant_capability g)) with g by (by destruct g).
    by destruct (if add then _ else _) as [[changed|] s].
  - intros p old n Hp. unfold bondry_grants_list_v1. rewrite principal_parsed by done. apply write_list_tells; [done|]. intros l. by apply grants_answer.
  - intros principal limit old n Hp Hlim. by apply audit_tells.
Qed.

(** A name with a zero is cut off there: the host takes two clients of different names for
    clients of the same. *)
Lemma zero_truncates_names :
  exists c d, client_wf c /\ client_wf d /\ client_name c <> client_name d /\
    (from_client c ≫= client_of_record) = (from_client d ≫= client_of_record) /\ is_Some (from_client c).
Proof.
  exists (mk_client (mk_id (str "client_1")) (mk_client_name (str "desk")) true 0),
    (mk_client (mk_id (str "client_1")) (mk_client_name (str "desk" ++ [0] ++ str "top")) true 0).
  split; [split; by vm_compute|]. split; [split; by vm_compute|]. split; [done|]. split; [by vm_compute|]. by eexists.
Qed.

(** Asked for the events of one principal, the interface takes a null pointer without length
    for all of them. *)
Lemma null_principal_sees_all m limit output capacity out_count :
  bondry_audit_for_principal_v1 (Some m) None 0 limit output capacity out_count = bondry_audit_recent_v1 (Some m) limit output capacity out_count.
Proof. done. Qed.
End admin.

(** ** An example: a token for an hour, issued to a client of the encrypted store *)

Module Example.
#[local] Existing Instances ex_base64 ex_base64_spec ex_sha256 ex_sha256_spec ex_auth_env ex_auth_env_ok ex_sql_env.

#[local] Abbreviation call :=
  (bondry_token_issue_v1 (Some ex_prefix) (Some (as_bytes (as_str ex_client))) (label_buffer None) 0 3600 1 (Some issued_zeroed)).

Lemma ex_prefix_ok : auth_ok (am_store ex_prefix) /\ grants_ok (am_store ex_prefix) /\ times_ok (sq_db (am_store ex_prefix)).
Proof.
  pose proof (create_client_effect ex_name ex_manager ex_manager_ok ex_name_wf) as He. unfold effect_ok in He.
  assert (ex_prefix = (create_client ex_name ex_manager).2) as Hm by (by vm_compute).
  assert (t_grants (sq_db (am_store ex_prefix)) = ∅ /\ t_audit (sq_db (am_store ex_prefix)) = []) as [Hg Ha] by (by vm_compute).
  split; [rewrite Hm; destruct (create_client ex_name ex_manager) as [r m']; apply He|].
  split; [|unfold times_ok; rewrite Ha; constructor]. intros g Hin%elem_of_grants_view. rewrite Hg in Hin. by apply not_elem_of_empty in Hin.
Qed.

Lemma administration_crosses_interface_witness :
  call.1.1 = BONDRY_STATUS_OK /\ exists record, call.1.2 = Some record /\ issued_of_record record = Some ex_issued.
Proof.
  destruct ex_prefix_ok as (Hok & Hg & Ht).
  destruct (administration_crosses_interface ex_prefix Hok Hg Ht) as (_ & _ & Hissue & _).
  assert (principal_wf ex_client) as Hp by (by vm_compute).
  specialize (Hissue ex_client None (Some 3600) issued_zeroed Hp no_label_wf I eq_refl).
  change (from_secs <$> Some 3600) with (Some (from_secs 3600)) in Hissue.
  assert ((issue_token ex_client None (Some (from_secs 3600)) ex_prefix).1 = Ok ex_issued) as Hr by (by vm_compute).
  destruct (issue_token _ _ _ _) as [r m']. cbn [fst] in Hr. subst r. change (default 0 (Some 3600)) with 3600 in Hissue. change (has (Some 3600)) with 1 in Hissue.
  destruct call as [[code out] store]. destruct Hissue as [_ [Hcode Hrecord]]. split; [exact Hcode|exact Hrecord].
Defined.
End Example.
