(* ===== verification/DeliveryStore.v ===== *)
(** * DeliveryStore: the persistence contracts of [bondry-delivery-store]

    The data of delivery.rs and limits.rs, and the trait [DeliveryLog] as a class.
    [DeliveryLogSpec] states what the trait documentation promises of an implementation,
    over an abstract view of its contents; the implementations discharge it and the runtime
    is verified against it.  The replay-protection contract of dedup.rs is in [Dedup]. *)

From S2P Require Import Prelude Text Identifiers.

Inductive StoreDurability := ProcessLocal | Persistent.
#[global] Instance StoreDurability_eq_dec : EqDecision StoreDurability.
Proof. solve_decision. Defined.

(** ** Limits of the persistent stores (limits.rs)

    The [MIN_*] and [MAX_*] constants of a store, and its validated limits; a retention is a
    duration. *)
Record StoreBounds := mk_store_bounds {
  bound_records : Z * Z;
  bound_bytes : Z * Z;
  bound_retention : Z * Z;
}.

Definition DEDUP_STORE_BOUNDS : StoreBounds :=
  mk_store_bounds (1000, 1000000) (1024 * 1024, 128 * 1024 * 1024) (from_secs 86400, from_secs (90 * 86400)).
Definition PERSISTENT_DELIVERY_LOG_BOUNDS : StoreBounds :=
  mk_store_bounds (1000, 1000000) (1024 * 1024, 512 * 1024 * 1024) (from_secs 86400, from_secs (90 * 86400)).

Definition within (range : Z * Z) (x : Z) : bool := in_range range.1 range.2 x.

Record DedupStoreLimits := mk_dedup_limits { dedup_records : Z; dedup_bytes : Z; dedup_retention : Z }.
Inductive DedupStoreLimitsError := DedupLimitRecords | DedupLimitBytes | DedupLimitRetention.

Definition DedupStoreLimits_new (records bytes retention : Z) : result DedupStoreLimitsError DedupStoreLimits :=
  if negb (within (bound_records DEDUP_STORE_BOUNDS) records) then Err DedupLimitRecords
  else if negb (within (bound_bytes DEDUP_STORE_BOUNDS) bytes) then Err DedupLimitBytes
  else if negb (within (bound_retention DEDUP_STORE_BOUNDS) retention) then Err DedupLimitRetention
  else Ok (mk_dedup_limits records bytes retention).

Definition DedupStoreLimits_default : DedupStoreLimits :=
  mk_dedup_limits 100000 (16 * 1024 * 1024) (from_secs (7 * 86400)).

Record PersistentDeliveryLogLimits := mk_delivery_limits { dlog_records : Z; dlog_bytes : Z; dlog_retention : Z }.
Inductive PersistentDeliveryLogLimitsError := DeliveryLimitRecords | DeliveryLimitBytes | DeliveryLimitRetention.

Definition PersistentDeliveryLogLimits_new (records bytes retention : Z)
    : result PersistentDeliveryLogLimitsError PersistentDeliveryLogLimits :=
  if negb (within (bound_records PERSISTENT_DELIVERY_LOG_BOUNDS) records) then Err DeliveryLimitRecords
  else if negb (within (bound_bytes PERSISTENT_DELIVERY_LOG_BOUNDS) bytes) then Err DeliveryLimitBytes
  else if negb (within (bound_retention PERSISTENT_DELIVERY_LOG_BOUNDS) retention) then Err DeliveryLimitRetention
  else Ok (mk_delivery_limits records bytes retention).

Definition PersistentDeliveryLogLimits_default : PersistentDeliveryLogLimits :=
  mk_delivery_limits 100000 (64 * 1024 * 1024) (from_secs (7 * 86400)).

(** ** Delivery records (delivery.rs) *)

Definition PERSISTENT_DELIVERY_RECORD_CHARGE_BYTES : Z := 512.

Inductive DeliveryFailure :=
| Cancelled | DeadlineExceeded | EndpointPolicy | SecretUnavailable
| TransportUnavailable | ReceiverRejected | RetryExhausted | Internal.

Inductive DeliveryResultCategory := ResultSucceeded | ResultFailed | ResultInvalid.

Record DeliveryResultMetadata := mk_result_metadata {
  result_category : DeliveryResultCategory;
  result_bytes : Z;
}.

Inductive DeliveryOutcome :=
| Delivered
| Failed (failure : DeliveryFailure)
| LostOnShutdown
| UnknownAfterCrash.

Inductive DeliveryState :=
| Pending
| Terminal (outcome : DeliveryOutcome).

#[global] Instance DeliveryFailure_eq_dec : EqDecision DeliveryFailure.
Proof. solve_decision. Defined.
#[global] Instance DeliveryResultCategory_eq_dec : EqDecision DeliveryResultCategory.
Proof. solve_decision. Defined.
#[global] Instance DeliveryResultMetadata_eq_dec : EqDecision DeliveryResultMetadata.
Proof. solve_decision. Defined.
#[global] Instance DeliveryOutcome_eq_dec : EqDecision DeliveryOutcome.
Proof. solve_decision. Defined.
#[global] Instance DeliveryState_eq_dec : EqDecision DeliveryState.
Proof. solve_decision. Defined.

Definition is_terminal (s : DeliveryState) : bool :=
  match s with Terminal _ => true | Pending => false end.

Record DeliveryIntent := mk_intent {
  intent_route : RouteId;
  intent_delivery : DeliveryId;
  intent_accepted_at : Z;
}.

Record DeliveryRecord := mk_record {
  rec_intent : DeliveryIntent;
  rec_attempts : Z;
  rec_state : DeliveryState;
  rec_updated_at : Z;
  rec_result : option DeliveryResultMetadata;
}.

#[global] Instance DeliveryIntent_eq_dec : EqDecision DeliveryIntent.
Proof. solve_decision. Defined.
#[global] Instance DeliveryRecord_eq_dec : EqDecision DeliveryRecord.
Proof. solve_decision. Defined.

Definition rec_terminal (r : DeliveryRecord) : bool := is_terminal (rec_state r).

Inductive DeliveryLogError :=
| LogConflict | LogCapacityExhausted | LogNotFound | LogInvalidTransition | LogUnavailable.
#[global] Instance DeliveryLogError_eq_dec : EqDecision DeliveryLogError.
Proof. solve_decision. Defined.

(** The trait [DeliveryLog]; [L] is the state behind the shared reference. *)
Class DeliveryLog (L : Type) := {
  log_durability : L -> StoreDurability;
  insert_intent : DeliveryIntent -> L -> result DeliveryLogError unit * L;
  record_attempt : DeliveryId -> Z -> Z -> L -> result DeliveryLogError unit * L;
  record_outcome : DeliveryId -> DeliveryOutcome -> Z -> option DeliveryResultMetadata -> L ->
    result DeliveryLogError unit * L;
  log_delivery : DeliveryId -> L -> result DeliveryLogError (option DeliveryRecord) * L;
  recover_unfinished : Z -> L -> result DeliveryLogError Z * L;
}.

(** The record an accepted intent starts with, and the two transitions of a record. *)
Definition fresh_record (i : DeliveryIntent) : DeliveryRecord :=
  mk_record i 0 Pending (intent_accepted_at i) None.
Definition attempted_record (r : DeliveryRecord) (attempts updated : Z) : DeliveryRecord :=
  mk_record (rec_intent r) attempts Pending updated None.
Definition terminal_record (r : DeliveryRecord) (o : DeliveryOutcome) (updated : Z)
    (result : option DeliveryResultMetadata) : DeliveryRecord :=
  mk_record (rec_intent r) (rec_attempts r) (Terminal o) updated result.

(** Retention may drop terminal records, and only those. *)
Definition prunes (m m' : gmap DeliveryId DeliveryRecord) : Prop :=
  forall d, m' !! d = m !! d \/
    (m' !! d = None /\ exists r, m !! d = Some r /\ rec_terminal r = true).

(** What the trait's documentation promises: an insert is atomic and never replaces a
    record; attempts strictly increase while pending; a pending delivery moves to
    exactly one terminal outcome.  An update that reports an error may or may not have
    been committed, which is why the runtime reads the record back. *)
Class DeliveryLogSpec (L : Type) `{DeliveryLog L} := {
  log_view : L -> gmap DeliveryId DeliveryRecord;
  insert_intent_spec i l :
    exists m, prunes (log_view l) m /\
    match insert_intent i l with
    | (Ok _, l') => m !! intent_delivery i = None /\
        log_view l' = <[intent_delivery i := fresh_record i]> m
    | (Err _, l') => log_view l' = m
    end;
  record_attempt_spec d n t l :
    (log_view (record_attempt d n t l).2 = log_view l /\ is_ok (record_attempt d n t l).1 = false) \/
    exists r, log_view l !! d = Some r /\ rec_state r = Pending /\ rec_attempts r < n /\
      log_view (record_attempt d n t l).2 = <[d := attempted_record r n t]> (log_view l);
  record_outcome_spec d o t res l :
    (log_view (record_outcome d o t res l).2 = log_view l /\ is_ok (record_outcome d o t res l).1 = false) \/
    exists r, log_view l !! d = Some r /\ rec_state r = Pending /\
      log_view (record_outcome d o t res l).2 = <[d := terminal_record r o t res]> (log_view l);
  log_delivery_spec d l :
    log_view (log_delivery d l).2 = log_view l /\
    forall o, (log_delivery d l).1 = Ok o -> o = log_view l !! d;
  recover_unfinished_spec t l :
    log_durability l = Persistent -> is_ok (recover_unfinished t l).1 = true ->
    forall d r, log_view (recover_unfinished t l).2 !! d = Some r -> rec_state r <> Pending;
}.

Lemma prunes_refl m : prunes m m.
Proof. intros d. by left. Qed.

Lemma prunes_trans m1 m2 m3 : prunes m1 m2 -> prunes m2 m3 -> prunes m1 m3.
Proof.
  intros H12 H23 d. destruct (H23 d) as [->|(-> & r & Hr & Ht)]; [apply H12|].
  right. split; [done|]. destruct (H12 d) as [Heq|(Hn & _)]; [|congruence]. exists r. by rewrite <-Heq.
Qed.

Lemma prunes_pending m m' d r :
  prunes m m' -> m !! d = Some r -> rec_state r = Pending -> m' !! d = Some r.
Proof.
  intros Hp Hr Hs. destruct (Hp d) as [->|(_ & r' & Hr' & Ht)]; [done|].
  rewrite Hr in Hr'. injection Hr' as <-. unfold rec_terminal in Ht. by rewrite Hs in Ht.
Qed.

Lemma prunes_lookup m m' d r : prunes m m' -> m' !! d = Some r -> m !! d = Some r.
Proof. intros Hp Hr. destruct (Hp d) as [<-|(Hn & _)]; [done|congruence]. Qed.

(** ** Histories of a log

    The operations that change a log, and a run of any sequence of them. *)
Inductive LogOp :=
| OpInsert (i : DeliveryIntent)
| OpAttempt (d : DeliveryId) (attempts updated : Z)
| OpOutcome (d : DeliveryId) (o : DeliveryOutcome) (updated : Z) (res : option DeliveryResultMetadata).

Definition log_apply `{DeliveryLog L} (op : LogOp) (l : L) : result DeliveryLogError unit * L :=
  match op with
  | OpInsert i => insert_intent i l
  | OpAttempt d n t => record_attempt d n t l
  | OpOutcome d o t res => record_outcome d o t res l
  end.

Definition log_run `{DeliveryLog L} (ops : list LogOp) (l : L) : L :=
  foldl (fun l op => (log_apply op l).2) l ops.

(** The operation decided the fate of delivery [d]. *)
Definition settles (d : DeliveryId) (op : LogOp) : Prop :=
  match op with OpOutcome d' _ _ _ => d' = d | _ => False end.

(** One operation keeps a pending record, with its intent and no fewer attempts. *)
Lemma log_apply_pending `{DeliveryLogSpec L} op (l : L) d r :
  log_view l !! d = Some r -> rec_state r = Pending -> ~ settles d op ->
  exists r', log_view (log_apply op l).2 !! d = Some r' /\ rec_state r' = Pending /\
    rec_intent r' = rec_intent r /\ rec_attempts r <= rec_attempts r'.
Proof.
  intros Hr Hs Hop. destruct op as [i|d' n t|d' o t res]; simpl in *.
  - destruct (insert_intent_spec i l) as (m & Hp & Hi). pose proof (prunes_pending _ _ _ _ Hp Hr Hs) as Hm.
    destruct (insert_intent i l) as [[[]|e] l']; simpl in *; exists r.
    + destruct Hi as [Hn ->]. rewrite lookup_insert_ne by congruence. auto with lia.
    + rewrite Hi. auto with lia.
  - destruct (record_attempt_spec d' n t l) as [[-> _]|(r0 & Hr0 & _ & Hlt & ->)]; [exists r; auto with lia|].
    destruct (decide (d = d')) as [-> |Hne].
    + rewrite lookup_insert_eq. rewrite Hr in Hr0. injection Hr0 as <-.
      eexists. split; [done|]. simpl. auto with lia.
    + rewrite lookup_insert_ne by done. exists r. auto with lia.
  - destruct (record_outcome_spec d' o t res l) as [[-> _]|(r0 & _ & _ & ->)]; exists r; [auto with lia|].
    rewrite lookup_insert_ne by done. auto with lia.
Qed.

(** A pending delivery is never lost.  Against any log that keeps the trait's
    contract, whatever operations run after a delivery was accepted, in any number
    and with any of them failing, its record is still there with the same intent and
    never fewer attempts, until an outcome is recorded for that very delivery. *)
Theorem log_keeps_pending `{DeliveryLogSpec L} ops (l : L) d r :
  log_view l !! d = Some r -> rec_state r = Pending -> Forall (fun op => ~ settles d op) ops ->
  exists r', log_view (log_run ops l) !! d = Some r' /\ rec_state r' = Pending /\
    rec_intent r' = rec_intent r /\ rec_attempts r <= rec_attempts r'.
Proof.
  revert l r. induction ops as [|op ops IH]; intros l r Hr Hs Hops; simpl.
  { exists r. auto with lia. }
  apply Forall_cons in Hops as [Hop Hops].
  destruct (log_apply_pending op l d r Hr Hs Hop) as (r1 & Hr1 & Hs1 & Hi1 & Ha1).
  destruct (IH _ r1 Hr1 Hs1 Hops) as (r2 & Hr2 & Hs2 & Hi2 & Ha2).
  exists r2. rewrite Hi2, Hi1. auto with lia.
Qed.
