(* ===== verification/SqlDelivery.v ===== *)
(** * SqlDelivery: the delivery log of the encrypted store (bondry-store-sqlcipher/src/delivery.rs)

    [SqlCipherDeliveryLog], an instance of [DeliveryLog] that meets [DeliveryLogSpec], with
    exact accounting.  The table is keyed by its unique [delivery_id]; its rowid is never read
    by the code and running out of rowids is one of the failures of [sql_fails]. *)

From S2P Require Import Prelude Text Identifiers DeliveryStore Sqlite.

Record SqlCipherDeliveryLog := mk_sql_log {
  slog_store : SqlCipherStore;
  slog_limits : PersistentDeliveryLogLimits;
}.

(** ** Encodings *)

Definition encoded_time (value : Z) : result DeliveryLogError Z := ok_or (try_i64 value) LogInvalidTransition.

Definition encode_failure (failure : DeliveryFailure) : rstr :=
  match failure with
  | Cancelled => str "cancelled"
  | DeadlineExceeded => str "deadline_exceeded"
  | EndpointPolicy => str "endpoint_policy"
  | SecretUnavailable => str "secret_unavailable"
  | TransportUnavailable => str "transport_unavailable"
  | ReceiverRejected => str "receiver_rejected"
  | RetryExhausted => str "retry_exhausted"
  | Internal => str "internal"
  end.

Definition encode_delivery_outcome (outcome : DeliveryOutcome) : rstr * option rstr :=
  match outcome with
  | Delivered => (str "delivered", None)
  | Failed failure => (str "failed", Some (encode_failure failure))
  | LostOnShutdown => (str "lost_on_shutdown", None)
  | UnknownAfterCrash => (str "unknown_after_crash", None)
  end.

Definition encode_result (res : option DeliveryResultMetadata) : option rstr * option Z :=
  match res with
  | None => (None, None)
  | Some r =>
      (Some (match result_category r with
             | ResultSucceeded => str "succeeded"
             | ResultFailed => str "failed"
             | ResultInvalid => str "invalid"
             end), Some (result_bytes r))
  end.

Definition decode_failure (value : rstr) : result DeliveryLogError DeliveryFailure :=
  if decide (value = str "cancelled") then Ok Cancelled
  else if decide (value = str "deadline_exceeded") then Ok DeadlineExceeded
  else if decide (value = str "endpoint_policy") then Ok EndpointPolicy
  else if decide (value = str "secret_unavailable") then Ok SecretUnavailable
  else if decide (value = str "transport_unavailable") then Ok TransportUnavailable
  else if decide (value = str "receiver_rejected") then Ok ReceiverRejected
  else if decide (value = str "retry_exhausted") then Ok RetryExhausted
  else if decide (value = str "internal") then Ok Internal
  else Err LogUnavailable.

Definition decode_delivery_state (state : rstr) (failure : option rstr) : result DeliveryLogError DeliveryState :=
  match failure with
  | None =>
      if decide (state = str "pending") then Ok Pending
      else if decide (state = str "delivered") then Ok (Terminal Delivered)
      else if decide (state = str "lost_on_shutdown") then Ok (Terminal LostOnShutdown)
      else if decide (state = str "unknown_after_crash") then Ok (Terminal UnknownAfterCrash)
      else Err LogUnavailable
  | Some failure =>
      if decide (state = str "failed") then f ← decode_failure failure; Ok (Terminal (Failed f))
      else Err LogUnavailable
  end.

Definition decode_category (category : rstr) : result DeliveryLogError DeliveryResultCategory :=
  if decide (category = str "succeeded") then Ok ResultSucceeded
  else if decide (category = str "failed") then Ok ResultFailed
  else if decide (category = str "invalid") then Ok ResultInvalid
  else Err LogUnavailable.

Definition decode_result (category : option rstr) (bytes : option Z) : result DeliveryLogError (option DeliveryResultMetadata) :=
  match category, bytes with
  | None, None => Ok None
  | Some category, Some bytes =>
      category ← decode_category category;
      bytes ← ok_or (try_unsigned U32_MAX bytes) LogUnavailable;
      Ok (Some (mk_result_metadata category bytes))
  | _, _ => Err LogUnavailable
  end.

(** [RawDeliveryRecord::validate]. *)
Definition validate_delivery (id : rstr) (row : DeliveryRow) : result DeliveryLogError DeliveryRecord :=
  delivery ← map_err (fun _ => LogUnavailable) (DeliveryId_new id);
  route ← map_err (fun _ => LogUnavailable) (RouteId_new (dl_route_id row));
  accepted_at ← ok_or (try_unsigned U64_MAX (dl_accepted_at_ms row)) LogUnavailable;
  attempts ← ok_or (try_unsigned U16_MAX (dl_attempts row)) LogUnavailable;
  updated_at ← ok_or (try_unsigned U64_MAX (dl_updated_at_ms row)) LogUnavailable;
  state ← decode_delivery_state (dl_state row) (dl_failure_kind row);
  res ← decode_result (dl_result_category row) (dl_result_bytes row);
  Ok (mk_record (mk_intent route delivery accepted_at) attempts state updated_at res).

(** ** Statements *)

Definition pending_row (row : DeliveryRow) : bool := bool_decide (dl_state row = str "pending").

Definition delivery_states : list rstr :=
  str <$> ["pending"; "delivered"; "failed"; "lost_on_shutdown"; "unknown_after_crash"]%string.

(** The [CHECK] constraints of [delivery_log]. *)
Definition delivery_check (row : DeliveryRow) : bool :=
  (0 <=? dl_accepted_at_ms row) && in_range 0 65535 (dl_attempts row)
  && bool_decide (dl_state row ∈ delivery_states)
  && (0 <=? dl_updated_at_ms row) && (dl_charged_bytes row =? 512)
  && Bool.eqb (bool_decide (dl_state row = str "failed")) (bool_decide (is_Some (dl_failure_kind row)))
  && match dl_result_category row, dl_result_bytes row with
     | None, None => true
     | Some _, Some bytes => negb (pending_row row) && (0 <=? bytes)
     | _, _ => false
     end.

(** [DELETE ... WHERE state != 'pending' AND updated_at_ms < ?]. *)
Definition expired_row (cutoff : Z) (row : DeliveryRow) : bool :=
  negb (pending_row row) && (dl_updated_at_ms row <? cutoff).
Definition sql_expire_deliveries (cutoff : Z) : Statement unit := fun db =>
  let expired := filter (fun x : rstr * DeliveryRow => expired_row cutoff x.2 = true) (t_delivery db) in
  usage ← usage_delete_all DELIVERY_LOG (dl_charged_bytes <$> (map_to_list expired).*2) (t_usage db);
  Ok (tt, set_delivery (filter (fun x : rstr * DeliveryRow => expired_row cutoff x.2 = false) (t_delivery db)) usage db).

(** [INSERT OR IGNORE]: a row that breaks a constraint is skipped; the trigger's own
    [RAISE(ABORT)] is not. *)
Definition sql_insert_delivery (id route : rstr) (accepted_at charged : Z) : Statement Z := fun db =>
  let row := mk_delivery_row route accepted_at 0 (str "pending") None accepted_at None None charged in
  if bool_decide (is_Some (t_delivery db !! id)) || negb (delivery_check row) then Ok (0, db)
  else usage ← usage_insert_trigger DELIVERY_LOG charged (t_usage db);
       Ok (1, set_delivery (<[id := row]> (t_delivery db)) usage db).

(** [UPDATE ... WHERE delivery_id = ?1 AND ...]. *)
Definition sql_update_delivery (id : rstr) (guard : DeliveryRow -> bool) (f : DeliveryRow -> DeliveryRow) : Statement Z := fun db =>
  match t_delivery db !! id with
  | None => Ok (0, db)
  | Some row =>
      if negb (guard row) then Ok (0, db)
      else if negb (delivery_check (f row)) then Err ConstraintViolation
      else Ok (1, set_delivery (<[id := f row]> (t_delivery db)) (t_usage db) db)
  end.

Definition row_attempts (attempts updated_at : Z) (row : DeliveryRow) : DeliveryRow :=
  mk_delivery_row (dl_route_id row) (dl_accepted_at_ms row) attempts (dl_state row) (dl_failure_kind row) updated_at
    (dl_result_category row) (dl_result_bytes row) (dl_charged_bytes row).

Definition row_outcome (state : rstr) (failure : option rstr) (updated_at : Z) (category : option rstr) (bytes : option Z)
    (row : DeliveryRow) : DeliveryRow :=
  mk_delivery_row (dl_route_id row) (dl_accepted_at_ms row) (dl_attempts row) state failure updated_at
    category bytes (dl_charged_bytes row).

(** The update of [recover_unfinished]; it leaves the failure and the result alone. *)
Definition set_unknown (updated_at : Z) (row : DeliveryRow) : DeliveryRow :=
  row_outcome (str "unknown_after_crash") (dl_failure_kind row) updated_at (dl_result_category row) (dl_result_bytes row) row.

Definition sql_recover_deliveries (updated_at : Z) : Statement Z := fun db =>
  let pending := filter (fun x : rstr * DeliveryRow => pending_row x.2 = true) (t_delivery db) in
  if bool_decide (map_Forall (fun _ row => delivery_check (set_unknown updated_at row) = true) pending)
  then Ok (Z.of_nat (size pending),
           set_delivery ((fun row => if pending_row row then set_unknown updated_at row else row) <$> t_delivery db) (t_usage db) db)
  else Err ConstraintViolation.

Definition sql_delivery_exists (id : rstr) (db : Database) : bool := bool_decide (is_Some (t_delivery db !! id)).

(** ** [impl DeliveryLog for SqlCipherDeliveryLog] *)
Section delivery.
Context `{Env : SqlEnv}.

#[local] Abbreviation M := (action SqlCipherStore DeliveryLogError).
#[local] Abbreviation unavailable := (fun _ : SqlError => LogUnavailable).

Definition slog_insert_intent (limits : PersistentDeliveryLogLimits) (intent : DeliveryIntent) : M unit :=
  accepted_at ← lift (encoded_time (intent_accepted_at intent));
  retention ← lift (ok_or (try_i64 (as_millis (dlog_retention limits))) LogInvalidTransition);
  let cutoff := i64_clamp (accepted_at - retention) in
  let id := as_str (intent_delivery intent) in
  _ ← connection LogUnavailable;
  transaction unavailable (
    _ ← with_err unavailable (sql (sql_expire_deliveries cutoff));
    existing ← with_err unavailable (sql (select (sql_delivery_exists id)));
    if (existing : bool) then _ ← with_err unavailable commit; lift (Err LogConflict)
    else
      usage ← with_err unavailable (sql (usage_read DELIVERY_LOG));
      charged_bytes ← lift (ok_or (try_i64 PERSISTENT_DELIVERY_RECORD_CHARGE_BYTES) LogUnavailable);
      if dlog_records limits <=? usage.1 then _ ← with_err unavailable commit; lift (Err LogCapacityExhausted)
      else
        limit ← lift (ok_or (try_i64 (dlog_bytes limits)) LogUnavailable);
        if limit <? i64_clamp (usage.2 + charged_bytes) then _ ← with_err unavailable commit; lift (Err LogCapacityExhausted)
        else
          changed ← with_err unavailable (sql (sql_insert_delivery id (as_str (intent_route intent)) accepted_at charged_bytes));
          if negb (changed =? 1) then _ ← with_err unavailable commit; lift (Err LogConflict)
          else _ ← with_err unavailable commit; lift (Ok tt)).

Definition slog_transition (delivery : DeliveryId) (update : Statement Z) : M unit :=
  _ ← connection LogUnavailable;
  transaction unavailable (
    changed ← with_err unavailable (sql update);
    if changed =? 1 then _ ← with_err unavailable commit; lift (Ok tt)
    else
      existing ← with_err unavailable (sql (select (sql_delivery_exists (as_str delivery))));
      lift (Err (if (existing : bool) then LogInvalidTransition else LogNotFound))).

Definition slog_record_attempt (delivery : DeliveryId) (attempts updated_at : Z) : M unit :=
  if attempts =? 0 then raise LogInvalidTransition
  else
    updated_at ← lift (encoded_time updated_at);
    slog_transition delivery (sql_update_delivery (as_str delivery)
      (fun row => pending_row row && (dl_attempts row <? attempts)) (row_attempts attempts updated_at)).

Definition slog_record_outcome (delivery : DeliveryId) (outcome : DeliveryOutcome) (updated_at : Z)
    (res : option DeliveryResultMetadata) : M unit :=
  updated_at ← lift (encoded_time updated_at);
  let '(state, failure) := encode_delivery_outcome outcome in
  let '(category, bytes) := encode_result res in
  slog_transition delivery (sql_update_delivery (as_str delivery) pending_row (row_outcome state failure updated_at category bytes)).

Definition slog_delivery (delivery : DeliveryId) : M (option DeliveryRecord) :=
  _ ← connection LogUnavailable;
  raw ← with_err unavailable (sql (select (fun db => t_delivery db !! as_str delivery)));
  lift (transpose (validate_delivery (as_str delivery)) raw).

Definition slog_recover_unfinished (updated_at : Z) : M Z :=
  updated_at ← lift (encoded_time updated_at);
  _ ← connection LogUnavailable;
  with_err unavailable (sql (sql_recover_deliveries updated_at)).

Definition on_slog {A} (m : M A) (l : SqlCipherDeliveryLog) : result DeliveryLogError A * SqlCipherDeliveryLog :=
  let '(r, s) := m (slog_store l) in (r, mk_sql_log s (slog_limits l)).

#[global] Instance SqlCipherDeliveryLog_log : DeliveryLog SqlCipherDeliveryLog := {
  log_durability _ := Persistent;
  insert_intent i l := on_slog (slog_insert_intent (slog_limits l) i) l;
  record_attempt d n t := on_slog (slog_record_attempt d n t);
  record_outcome d o t res := on_slog (slog_record_outcome d o t res);
  log_delivery d := on_slog (slog_delivery d);
  recover_unfinished t := on_slog (slog_recover_unfinished t);
}.

(** ** What the rows stand for *)

Definition row_state (row : DeliveryRow) : DeliveryState :=
  if pending_row row then Pending
  else match decode_delivery_state (dl_state row) (dl_failure_kind row) with
       | Ok (Terminal o) => Terminal o
       | _ => Terminal UnknownAfterCrash
       end.
Definition row_result (row : DeliveryRow) : option DeliveryResultMetadata :=
  match dl_result_category row, dl_result_bytes row with
  | Some category, Some bytes => Some (mk_result_metadata (default ResultInvalid (to_option (decode_category category))) bytes)
  | _, _ => None
  end.
Definition row_record (id : rstr) (row : DeliveryRow) : DeliveryRecord :=
  mk_record (mk_intent (mk_id (dl_route_id row)) (mk_id id) (dl_accepted_at_ms row)) (dl_attempts row) (row_state row)
    (dl_updated_at_ms row) (row_result row).

Definition delivery_view (db : Database) : gmap DeliveryId DeliveryRecord :=
  decoded mk_id (fun id row => Some (row_record id row)) (t_delivery db).

Lemma mk_as_str {k} (i : Id k) : mk_id (as_str i) = i.
Proof. by destruct i. Qed.

Lemma delivery_view_lookup db d : delivery_view db !! d = row_record (as_str d) <$> t_delivery db !! as_str d.
Proof. unfold delivery_view. rewrite (decoded_lookup mk_id as_str) by (done || apply mk_as_str). by destruct (_ !! _). Qed.

Lemma delivery_view_insert db u d row :
  delivery_view (set_delivery (<[as_str d := row]> (t_delivery db)) u db) = <[d := row_record (as_str d) row]> (delivery_view db).
Proof.
  unfold delivery_view. simpl. rewrite (decoded_insert mk_id as_str) with (v := row_record (as_str d) row) by (done || apply mk_as_str).
  by rewrite mk_as_str.
Qed.

Lemma delivery_view_size db : size (delivery_view db) = size (t_delivery db).
Proof. apply (decoded_size mk_id as_str); [apply mk_as_str|done|]. intros id row _. by eexists. Qed.

Lemma row_state_terminal row : is_terminal (row_state row) = negb (pending_row row).
Proof. unfold row_state. destruct (pending_row row); [done|]. by destruct (decode_delivery_state _ _) as [[]|]. Qed.

Lemma row_state_pending row : row_state row = Pending <-> pending_row row = true.
Proof. pose proof (row_state_terminal row). destruct (row_state row), (pending_row row); naive_solver. Qed.

Lemma PersistenceIdentifier_new_str {k} max s (i : Id k) : PersistenceIdentifier_new max s = Ok i -> i = mk_id s.
Proof. unfold PersistenceIdentifier_new. intros H. apply result_bind_Ok in H as (? & _ & H). by injection H as <-. Qed.

Lemma decode_delivery_state_view row s :
  decode_delivery_state (dl_state row) (dl_failure_kind row) = Ok s -> s = row_state row.
Proof.
  intros Hs. unfold row_state. rewrite Hs. unfold pending_row. destruct (bool_decide_reflect (dl_state row = str "pending")) as [Hp|Hp].
  - rewrite Hp in Hs. destruct (dl_failure_kind row); [done|by injection Hs as <-].
  - destruct s as [|o]; [|done]. unfold decode_delivery_state in Hs. destruct (dl_failure_kind row) as [x|].
    + destruct (decide _); [|done]. apply result_bind_Ok in Hs as (? & _ & Hs). done.
    + repeat (destruct (decide _); [done|]). done.
Qed.

Lemma decode_result_view row x :
  decode_result (dl_result_category row) (dl_result_bytes row) = Ok x -> x = row_result row.
Proof.
  unfold decode_result, row_result. destruct (dl_result_category row), (dl_result_bytes row); [|done|done|by intros [= <-]].
  intros (c & Hc & (b & Hb & Hx)%result_bind_Ok)%result_bind_Ok. injection Hx as <-. rewrite Hc. simpl.
  unfold try_unsigned in Hb. destruct (_ && _) in Hb; [|done]. by injection Hb as <-.
Qed.

Lemma ok_or_unsigned {E} max z x (e : E) : ok_or (try_unsigned max z) e = Ok x -> x = z /\ 0 <= z <= max.
Proof. unfold try_unsigned. destruct (_ && _) eqn:Hz; [|done]. intros [= <-]. bools. lia. Qed.

Lemma validate_delivery_view id row r : validate_delivery id row = Ok r -> r = row_record id row.
Proof.
  unfold validate_delivery. intros Hr. repeat (apply result_bind_Ok in Hr as (? & ? & Hr)). injection Hr as <-.
  repeat match goal with
  | H : map_err _ (DeliveryId_new ?x) = Ok _ |- _ => destruct (DeliveryId_new x) eqn:?; [injection H as ->|done]
  | H : map_err _ (RouteId_new ?x) = Ok _ |- _ => destruct (RouteId_new x) eqn:?; [injection H as ->|done]
  | H : ok_or (try_unsigned _ _) _ = Ok _ |- _ => apply ok_or_unsigned in H as [-> _]
  | H : decode_delivery_state _ _ = Ok _ |- _ => apply decode_delivery_state_view in H as ->
  | H : decode_result _ _ = Ok _ |- _ => apply decode_result_view in H as ->
  end.
  repeat match goal with
  | H : DeliveryId_new _ = Ok _ |- _ => apply PersistenceIdentifier_new_str in H as ->
  | H : RouteId_new _ = Ok _ |- _ => apply PersistenceIdentifier_new_str in H as ->
  end. done.
Qed.

(** Terminal records last updated before the cutoff are dropped. *)
Definition retained (cutoff : Z) (m : gmap DeliveryId DeliveryRecord) : gmap DeliveryId DeliveryRecord :=
  filter (fun x : DeliveryId * DeliveryRecord => negb (rec_terminal x.2 && (rec_updated_at x.2 <? cutoff)) = true) m.

Lemma retained_prunes cutoff m : prunes m (retained cutoff m).
Proof.
  intros d. unfold retained. rewrite map_lookup_filter. destruct (m !! d) as [r|]; [|by left]. simpl.
  destruct (rec_terminal r) eqn:Ht; simpl; [|by left]. destruct (_ <? _); simpl; [right; eauto|by left].
Qed.

Lemma sql_expire_view cutoff db db' :
  sql_expire_deliveries cutoff db = Ok (tt, db') -> delivery_view db' = retained cutoff (delivery_view db).
Proof.
  unfold sql_expire_deliveries. intros (u & _ & Hdb)%result_bind_Ok. injection Hdb as <-.
  apply map_eq. intros d. unfold retained. rewrite map_lookup_filter, !delivery_view_lookup. simpl. rewrite map_lookup_filter.
  destruct (t_delivery db !! as_str d) as [row|]; [|done]. simpl. unfold expired_row, rec_terminal. simpl.
  rewrite row_state_terminal. by destruct (_ && _).
Qed.

(** ** One lemma per operation

    What has to hold of an answer and the tables it leaves, whichever statement fails. *)
Lemma insert_intent_runs (Q : result DeliveryLogError unit -> Database -> Prop) limits i s :
  Q (Err LogUnavailable) (sq_db s) ->
  (try_i64 (intent_accepted_at i) = None \/ try_i64 (as_millis (dlog_retention limits)) = None -> Q (Err LogInvalidTransition) (sq_db s)) ->
  (forall at_ retention db1,
    encoded_time (intent_accepted_at i) = Ok at_ -> try_i64 (as_millis (dlog_retention limits)) = Some retention ->
    sql_expire_deliveries (i64_clamp (at_ - retention)) (sq_db s) = Ok (tt, db1) ->
    if sql_delivery_exists (as_str (intent_delivery i)) db1 then Q (Err LogConflict) db1
    else forall u, usage_read DELIVERY_LOG db1 = Ok (u, db1) ->
      if (dlog_records limits <=? u.1) || (dlog_bytes limits <? i64_clamp (u.2 + 512)) then Q (Err LogCapacityExhausted) db1
      else match sql_insert_delivery (as_str (intent_delivery i)) (as_str (intent_route i)) at_ 512 db1 with
           | Ok (n, db2) => if n =? 1 then Q (Ok tt) db2 else Q (Err LogConflict) db2
           | Err _ => True
           end) ->
  runs (slog_insert_intent limits i) Q s.
Proof.
  intros Hun Hinv HQ. unfold slog_insert_intent. tx_step. unfold encoded_time in *.
  destruct (try_i64 (intent_accepted_at i)) as [at_|] eqn:Hat; [|simpl; auto]. simpl ok_or. cbv iota. tx_step.
  destruct (try_i64 (as_millis (dlog_retention limits))) as [retention|] eqn:Hret; [|simpl; auto]. simpl ok_or. cbv iota zeta.
  specialize (HQ at_ retention). tx_step; [done|]. tx_step; [done|]. tx_step; [done|].
  destruct (sql_expire_deliveries _ _) as [[[] db1]|]; [|done]. specialize (HQ db1 eq_refl eq_refl eq_refl).
  tx_step; [done|]. unfold select. destruct (sql_delivery_exists _ db1); [by tx_step|]. tx_step; [done|].
  unfold usage_read in *. destruct (t_usage db1 !! DELIVERY_LOG) as [[n b]|]; [|done]. destruct (negb _) in *; [done|].
  destruct (_ || _) in *; [done|]. specialize (HQ _ eq_refl). tx_step. cbn [try_i64 ok_or].
  change (try_i64 PERSISTENT_DELIVERY_RECORD_CHARGE_BYTES) with (Some 512). simpl ok_or. cbv iota. simpl fst in *. simpl snd in *.
  destruct (dlog_records limits <=? n); [by tx_step|]. tx_step.
  destruct (try_i64 (dlog_bytes limits)) as [limit|] eqn:Hlim; [|done]. apply try_i64_Some in Hlim as [-> _].
  simpl ok_or. simpl orb in HQ. cbv iota in *. destruct (dlog_bytes limits <? _); [by tx_step|]. tx_step; [done|].
  destruct (sql_insert_delivery _ _ _ _ db1) as [[c db2]|]; [|done]. destruct (c =? 1); by tx_step.
Qed.

Lemma transition_runs (Q : result DeliveryLogError unit -> Database -> Prop) d update s :
  (forall e, Q (Err e) (sq_db s)) ->
  match update (sq_db s) with
  | Ok (n, db) => if n =? 1 then Q (Ok tt) db else Q (Err (if sql_delivery_exists (as_str d) db then LogInvalidTransition else LogNotFound)) (sq_db s)
  | Err _ => True
  end ->
  runs (slog_transition d update) Q s.
Proof.
  intros He HQ. unfold slog_transition. tx_step; [done|]. tx_step; [done|]. tx_step; [done|].
  destruct (update (sq_db s)) as [[n db]|]; [|done]. destruct (n =? 1); [by tx_step|]. tx_step; [done|]. by tx_step.
Qed.

Lemma record_attempt_runs (Q : result DeliveryLogError unit -> Database -> Prop) d n at_ s :
  (forall e, Q (Err e) (sq_db s)) ->
  (forall row, t_delivery (sq_db s) !! as_str d = Some row -> pending_row row = true -> dl_attempts row < n ->
     in_i64 at_ = true -> delivery_check (row_attempts n at_ row) = true ->
     Q (Ok tt) (set_delivery (<[as_str d := row_attempts n at_ row]> (t_delivery (sq_db s))) (t_usage (sq_db s)) (sq_db s))) ->
  runs (slog_record_attempt d n at_) Q s.
Proof.
  intros He HQ. unfold slog_record_attempt. destruct (n =? 0); [by apply runs_lift|]. tx_step. unfold encoded_time, try_i64.
  destruct (in_i64 at_); simpl; [|done]. apply transition_runs; [done|]. unfold sql_update_delivery.
  destruct (t_delivery (sq_db s) !! as_str d) as [row|]; simpl; [|done]. destruct (_ && _) eqn:Hg; simpl; [|done]. bools.
  destruct (delivery_check _) eqn:Hc; simpl; [|done]. by apply HQ.
Qed.

Lemma record_outcome_runs (Q : result DeliveryLogError unit -> Database -> Prop) d o at_ res s :
  (forall e, Q (Err e) (sq_db s)) ->
  (forall row, t_delivery (sq_db s) !! as_str d = Some row -> pending_row row = true -> in_i64 at_ = true ->
     let f := row_outcome (encode_delivery_outcome o).1 (encode_delivery_outcome o).2 at_ (encode_result res).1 (encode_result res).2 in
     delivery_check (f row) = true ->
     Q (Ok tt) (set_delivery (<[as_str d := f row]> (t_delivery (sq_db s))) (t_usage (sq_db s)) (sq_db s))) ->
  runs (slog_record_outcome d o at_ res) Q s.
Proof.
  intros He HQ. unfold slog_record_outcome. tx_step. unfold encoded_time, try_i64. destruct (in_i64 at_); simpl; [|done].
  destruct (encode_delivery_outcome o), (encode_result res). apply transition_runs; [done|]. unfold sql_update_delivery.
  destruct (t_delivery (sq_db s) !! as_str d) as [row|]; simpl; [|done]. destruct (pending_row row) eqn:Hp; simpl; [|done].
  destruct (delivery_check _) eqn:Hc; simpl; [|done]. by apply HQ.
Qed.

Lemma delivery_runs (Q : result DeliveryLogError (option DeliveryRecord) -> Database -> Prop) d s :
  Q (Err LogUnavailable) (sq_db s) ->
  Q (transpose (validate_delivery (as_str d)) (t_delivery (sq_db s) !! as_str d)) (sq_db s) ->
  runs (slog_delivery d) Q s.
Proof. intros He HQ. unfold slog_delivery. tx_step; [done|]. by tx_step. Qed.

Lemma recover_runs (Q : result DeliveryLogError Z -> Database -> Prop) at_ s :
  (forall e, Q (Err e) (sq_db s)) ->
  (forall n db, in_i64 at_ = true -> sql_recover_deliveries at_ (sq_db s) = Ok (n, db) -> Q (Ok n) db) ->
  runs (slog_recover_unfinished at_) Q s.
Proof.
  intros He HQ. unfold slog_recover_unfinished. tx_step. unfold encoded_time, try_i64. destruct (in_i64 at_); simpl; [|done].
  tx_step; [done|]. tx_step; [done|]. destruct (sql_recover_deliveries _ _) as [[n db]|] eqn:Hr; [|done]. by apply HQ.
Qed.

(** ** The contract of the trait *)

Lemma fresh_row_record d route at_ :
  row_record d (mk_delivery_row route at_ 0 (str "pending") None at_ None None 512) = fresh_record (mk_intent (mk_id route) (mk_id d) at_).
Proof. done. Qed.

Lemma row_attempts_record d row n at_ :
  pending_row row = true -> delivery_check (row_attempts n at_ row) = true ->
  row_record d (row_attempts n at_ row) = attempted_record (row_record d row) n at_.
Proof.
  intros Hp Hc. unfold row_record, attempted_record. simpl. f_equal.
  - by apply row_state_pending.
  - unfold delivery_check, pending_row in *. simpl in Hc. unfold row_result. simpl.
    destruct (dl_result_category row), (dl_result_bytes row); try done. rewrite Hp in Hc. bools. done.
Qed.

Lemma decode_encode_delivery o :
  let '(state, failure) := encode_delivery_outcome o in
  decode_delivery_state state failure = Ok (Terminal o) /\ bool_decide (state = str "pending") = false.
Proof. by destruct o as [|[]| |]. Qed.

Lemma row_outcome_record d row o at_ res :
  row_record d (row_outcome (encode_delivery_outcome o).1 (encode_delivery_outcome o).2 at_ (encode_result res).1 (encode_result res).2 row)
  = terminal_record (row_record d row) o at_ res.
Proof.
  unfold row_record, terminal_record. simpl. f_equal.
  - unfold row_state, pending_row. simpl. pose proof (decode_encode_delivery o) as Hd. destruct (encode_delivery_outcome o) as [state failure].
    destruct Hd as [Hd Hp]. simpl. by rewrite Hp, Hd.
  - by destruct res as [[[] b]|].
Qed.

Definition slog_view (l : SqlCipherDeliveryLog) : gmap DeliveryId DeliveryRecord := delivery_view (sq_db (slog_store l)).

Lemma on_slog_run {A} (m : M A) Q l :
  runs m Q (slog_store l) -> Q (on_slog m l).1 (sq_db (slog_store (on_slog m l).2)).
Proof. intros HQ%runs_result. unfold on_slog. by destruct (m (slog_store l)). Qed.

Lemma slog_insert_spec i l :
  exists m, prunes (slog_view l) m /\
  match insert_intent i l with
  | (Ok _, l') => m !! intent_delivery i = None /\ slog_view l' = <[intent_delivery i := fresh_record i]> m
  | (Err _, l') => slog_view l' = m
  end.
Proof.
  pose proof (on_slog_run (slog_insert_intent (slog_limits l) i) (fun r db => exists m, prunes (slog_view l) m /\
    match r with
    | Ok _ => m !! intent_delivery i = None /\ delivery_view db = <[intent_delivery i := fresh_record i]> m
    | Err _ => delivery_view db = m
    end) l) as Hrun.
  destruct Hrun as (m & Hm & Hr).
  { apply insert_intent_runs; [by eauto using prunes_refl..|]. intros at_ retention db1 Hat _ Hexp%sql_expire_view.
    assert (prunes (slog_view l) (delivery_view db1)) as Hp by (rewrite Hexp; apply retained_prunes).
    unfold sql_delivery_exists. case_bool_decide as Hex; [eauto|]. intros u _. case_match; [eauto|].
    unfold sql_insert_delivery. rewrite bool_decide_false by done. simpl. destruct (delivery_check _); simpl; [|eauto].
    destruct (usage_insert_trigger _ _ _) as [usage|]; simpl; [|done]. exists (delivery_view db1). split; [done|].
    rewrite delivery_view_insert, delivery_view_lookup, fresh_row_record. split.
    - destruct (t_delivery db1 !! _); [|done]. destruct Hex. eauto.
    - unfold encoded_time in Hat. destruct (try_i64 (intent_accepted_at i)) as [x|] eqn:Hx; [|done]. injection Hat as ->.
      apply try_i64_Some in Hx as [-> _]. destruct i as [[] [] ]. done. }
  exists m. split; [done|]. simpl in *. by destruct (on_slog _ l) as [[]].
Qed.

Lemma slog_attempt_spec d n t l :
  (slog_view (record_attempt d n t l).2 = slog_view l /\ is_ok (record_attempt d n t l).1 = false) \/
  exists r, slog_view l !! d = Some r /\ rec_state r = Pending /\ rec_attempts r < n /\
    slog_view (record_attempt d n t l).2 = <[d := attempted_record r n t]> (slog_view l).
Proof.
  apply (on_slog_run (slog_record_attempt d n t) (fun r db => (delivery_view db = slog_view l /\ is_ok r = false) \/
    exists r, slog_view l !! d = Some r /\ rec_state r = Pending /\ rec_attempts r < n /\
      delivery_view db = <[d := attempted_record r n t]> (slog_view l))).
  apply record_attempt_runs; [by left|]. intros row Hrow Hp Hlt _ Hc. right. exists (row_record (as_str d) row).
  unfold slog_view. rewrite delivery_view_lookup, Hrow, delivery_view_insert, row_attempts_record by done.
  split_and!; try done. by apply row_state_pending.
Qed.

Lemma slog_outcome_spec d o t res l :
  (slog_view (record_outcome d o t res l).2 = slog_view l /\ is_ok (record_outcome d o t res l).1 = false) \/
  exists r, slog_view l !! d = Some r /\ rec_state r = Pending /\
    slog_view (record_outcome d o t res l).2 = <[d := terminal_record r o t res]> (slog_view l).
Proof.
  apply (on_slog_run (slog_record_outcome d o t res) (fun r db => (delivery_view db = slog_view l /\ is_ok r = false) \/
    exists r, slog_view l !! d = Some r /\ rec_state r = Pending /\
      delivery_view db = <[d := terminal_record r o t res]> (slog_view l))).
  apply record_outcome_runs; [by left|]. intros row Hrow Hp _ f Hc. right. exists (row_record (as_str d) row).
  unfold slog_view. rewrite delivery_view_lookup, Hrow, delivery_view_insert. unfold f. rewrite row_outcome_record.
  split_and!; try done. by apply row_state_pending.
Qed.

Lemma slog_delivery_spec d l :
  slog_view (log_delivery d l).2 = slog_view l /\ forall o, (log_delivery d l).1 = Ok o -> o = slog_view l !! d.
Proof.
  apply (on_slog_run (slog_delivery d) (fun r db => delivery_view db = slog_view l /\ forall o, r = Ok o -> o = slog_view l !! d)).
  apply delivery_runs; [done|]. split; [done|]. unfold slog_view. rewrite delivery_view_lookup.
  destruct (t_delivery _ !! as_str d) as [row|]; simpl; [|congruence].
  destruct (validate_delivery _ row) as [r|] eqn:Hr; [|done]. apply validate_delivery_view in Hr as ->. simpl. congruence.
Qed.

Lemma sql_recover_view at_ db n db' d :
  sql_recover_deliveries at_ db = Ok (n, db') ->
  t_delivery db' !! d = (fun row => if pending_row row then set_unknown at_ row else row) <$> t_delivery db !! d.
Proof. unfold sql_recover_deliveries. case_bool_decide; [|done]. intros [= _ <-]. simpl. apply lookup_fmap. Qed.

Lemma slog_recover_spec t l :
  log_durability l = Persistent -> is_ok (recover_unfinished t l).1 = true ->
  forall d r, slog_view (recover_unfinished t l).2 !! d = Some r -> rec_state r <> Pending.
Proof.
  intros _. apply (on_slog_run (slog_recover_unfinished t) (fun r db => is_ok r = true ->
    forall d r, delivery_view db !! d = Some r -> rec_state r <> Pending)).
  apply recover_runs; [done|]. intros n db _ Hrec _ d r. rewrite delivery_view_lookup, (sql_recover_view _ _ _ _ _ Hrec).
  destruct (t_delivery _ !! as_str d) as [row|]; simpl; [|done]. intros [= <-]. simpl. rewrite row_state_pending.
  destruct (pending_row row) eqn:Hp; [|congruence]. done.
Qed.

#[global] Instance SqlCipherDeliveryLog_spec : DeliveryLogSpec SqlCipherDeliveryLog := {|
  log_view := slog_view;
  insert_intent_spec := slog_insert_spec;
  record_attempt_spec := slog_attempt_spec;
  record_outcome_spec := slog_outcome_spec;
  log_delivery_spec := slog_delivery_spec;
  recover_unfinished_spec := slog_recover_spec;
|}.

(** ** Accounting and typing

    Every row keeps the constraints of the table and reads back, and the counters of
    [storage_usage] are exact. *)
Definition delivery_row_ok (id : rstr) (row : DeliveryRow) : Prop :=
  delivery_check row = true /\ exists r, validate_delivery id row = Ok r.

Definition delivery_ok (db : Database) : Prop :=
  map_Forall delivery_row_ok (t_delivery db) /\
  t_usage db !! DELIVERY_LOG = Some (Z.of_nat (size (t_delivery db)), 512 * Z.of_nat (size (t_delivery db))) /\
  512 * Z.of_nat (size (t_delivery db)) <= I64_MAX.

Lemma delivery_usage_check n : 0 <= n -> 512 * n <= I64_MAX -> usage_check DELIVERY_LOG (n, 512 * n) = true.
Proof.
  intros Hn Hmax. unfold usage_check, in_i64. simpl. unfold I64_MIN, I64_MAX in *.
  rewrite !andb_true_iff, !orb_true_iff, !Z.leb_le, !Z.eqb_eq, negb_true_iff, Z.eqb_neq. split_and!; lia.
Qed.

Lemma usage_update_exact (u : gmap rstr (Z * Z)) n k :
  u !! DELIVERY_LOG = Some (n, 512 * n) -> 0 <= n + k -> 512 * (n + k) <= I64_MAX ->
  usage_update DELIVERY_LOG k (512 * k) u = Ok (<[DELIVERY_LOG := (n + k, 512 * (n + k))]> u).
Proof.
  intros Hu Hpos Hmax. unfold usage_update. rewrite Hu. replace (512 * n + 512 * k) with (512 * (n + k)) by lia.
  by rewrite delivery_usage_check.
Qed.

Lemma usage_delete_all_exact (charges : list Z) (u : gmap rstr (Z * Z)) n :
  u !! DELIVERY_LOG = Some (n, 512 * n) -> 512 * n <= I64_MAX -> Z.of_nat (length charges) <= n ->
  Forall (fun c => c = 512) charges ->
  usage_delete_all DELIVERY_LOG charges u =
    Ok (<[DELIVERY_LOG := (n - Z.of_nat (length charges), 512 * (n - Z.of_nat (length charges)))]> u).
Proof.
  revert u n. induction charges as [|c charges IH]; intros u n Hu Hmax Hlen Hc.
  { simpl. rewrite Z.sub_0_r, insert_id; done. }
  apply Forall_cons in Hc as [-> Hc]. cbn [usage_delete_all length] in *. unfold usage_delete_trigger.
  change (- (512)) with (512 * -1). rewrite (usage_update_exact u n) by (done || lia). simpl.
  rewrite (IH _ (n + -1)); [|by rewrite lookup_insert_eq|lia..|done]. rewrite insert_insert_eq.
  do 2 f_equal. f_equal; lia.
Qed.

Lemma size_partition {A} (f : A -> bool) (m : gmap rstr A) :
  (size (filter (fun x : rstr * A => f x.2 = true) m) + size (filter (fun x : rstr * A => f x.2 = false) m))%nat = size m.
Proof.
  induction m as [|k x m Hk IH] using map_ind; [done|]. rewrite !map_filter_insert, map_size_insert_None by done. simpl.
  assert (forall b, filter (fun x : rstr * A => f x.2 = b) m !! k = None) as Hn by (intros b; apply map_lookup_filter_None; auto).
  destruct (f x) eqn:Hf; do 2 (case_decide; try congruence); rewrite map_size_insert_None, delete_id by done; lia.
Qed.

Lemma expire_ok cutoff db :
  delivery_ok db -> exists db', sql_expire_deliveries cutoff db = Ok (tt, db') /\ delivery_ok db'.
Proof.
  intros (Hrows & Hu & Hmax). unfold sql_expire_deliveries.
  set (gone := filter (fun x : rstr * DeliveryRow => expired_row cutoff x.2 = true) (t_delivery db)).
  set (kept := filter (fun x : rstr * DeliveryRow => expired_row cutoff x.2 = false) (t_delivery db)).
  assert (size gone + size kept = size (t_delivery db))%nat as Hsize by apply size_partition.
  assert (length (dl_charged_bytes <$> (map_to_list gone).*2) = size gone) as Hlen by by rewrite !length_fmap, length_map_to_list.
  rewrite (usage_delete_all_exact _ _ (Z.of_nat (size (t_delivery db)))); [|done|done|lia|].
  - simpl. eexists. split; [done|]. unfold delivery_ok. simpl. fold kept. split_and!.
    + intros k row Hk%map_lookup_filter_Some. naive_solver.
    + rewrite lookup_insert_eq, Hlen. do 2 f_equal; lia.
    + lia.
  - apply Forall_fmap, Forall_fmap, Forall_forall. intros [k row] Hin%elem_of_map_to_list. simpl.
    apply map_lookup_filter_Some in Hin as [Hin _]. destruct (Hrows _ _ Hin) as [Hc _]. unfold delivery_check in Hc. bools. done.
Qed.

(** The values an operation passes have the types of the source. *)
Definition intent_wf (i : DeliveryIntent) : Prop :=
  RouteId_new (as_str (intent_route i)) = Ok (intent_route i) /\
  DeliveryId_new (as_str (intent_delivery i)) = Ok (intent_delivery i) /\
  0 <= intent_accepted_at i <= U64_MAX.

Definition log_op_wf (op : LogOp) : Prop :=
  match op with
  | OpInsert i => intent_wf i
  | OpAttempt _ n t => 0 <= n <= U16_MAX /\ 0 <= t <= U64_MAX
  | OpOutcome _ _ t res => 0 <= t <= U64_MAX /\ (forall r, res = Some r -> 0 <= result_bytes r <= U32_MAX)
  end.

Lemma try_unsigned_ok max z : 0 <= z <= max -> try_unsigned max z = Some z.
Proof. intros Hz. unfold try_unsigned. by rewrite (proj2 (Z.leb_le 0 z)), (proj2 (Z.leb_le z max)) by lia. Qed.

Lemma fresh_row_ok i at_ :
  intent_wf i -> encoded_time (intent_accepted_at i) = Ok at_ ->
  delivery_row_ok (as_str (intent_delivery i)) (mk_delivery_row (as_str (intent_route i)) at_ 0 (str "pending") None at_ None None 512).
Proof.
  intros (Hr & Hd & Ht) Hat. unfold encoded_time in Hat. destruct (try_i64 _) as [x|] eqn:Hx; [|done]. injection Hat as ->.
  apply try_i64_Some in Hx as [-> Hx]. split.
  - unfold delivery_check. simpl. rewrite !(proj2 (Z.leb_le 0 _)) by lia. vm_compute. done.
  - unfold validate_delivery. simpl. rewrite Hd, Hr. simpl. rewrite (try_unsigned_ok U64_MAX) by lia. eexists. reflexivity.
Qed.

Lemma row_attempts_ok d row n at_ :
  delivery_row_ok d row -> delivery_check (row_attempts n at_ row) = true -> 0 <= n <= U16_MAX -> 0 <= at_ <= U64_MAX ->
  delivery_row_ok d (row_attempts n at_ row).
Proof.
  intros (_ & r & Hr) Hc Hn Hat. split; [done|]. unfold validate_delivery in *. simpl.
  repeat (apply result_bind_Ok in Hr as (? & ? & Hr)).
  rewrite (try_unsigned_ok U16_MAX), (try_unsigned_ok U64_MAX at_) by done.
  repeat match goal with H : _ = Ok _ |- _ => rewrite H; clear H; simpl end. eexists. reflexivity.
Qed.

Lemma row_outcome_ok d row o at_ res :
  delivery_row_ok d row -> 0 <= at_ <= U64_MAX -> (forall r, res = Some r -> 0 <= result_bytes r <= U32_MAX) ->
  let row' := row_outcome (encode_delivery_outcome o).1 (encode_delivery_outcome o).2 at_ (encode_result res).1 (encode_result res).2 row in
  delivery_check row' = true -> delivery_row_ok d row'.
Proof.
  intros (_ & r & Hr) Hat Hres row' Hc. split; [done|]. unfold validate_delivery in *. simpl.
  repeat (apply result_bind_Ok in Hr as (? & ? & Hr)). pose proof (decode_encode_delivery o) as Hd.
  destruct (encode_delivery_outcome o) as [state failure]. destruct Hd as [Hd _]. simpl.
  rewrite (try_unsigned_ok U64_MAX at_) by done. rewrite Hd.
  repeat match goal with H : _ = Ok _ |- _ => rewrite H; clear H; simpl end.
  destruct res as [[[] b]|]; simpl; [..|by eexists]; specialize (Hres _ eq_refl); simpl in Hres;
    rewrite (try_unsigned_ok U32_MAX b) by done; eexists; reflexivity.
Qed.

Definition limits_ok (limits : PersistentDeliveryLogLimits) : Prop :=
  PersistentDeliveryLogLimits_new (dlog_records limits) (dlog_bytes limits) (dlog_retention limits) = Ok limits.

Lemma limits_ok_bounds limits :
  limits_ok limits ->
  1000 <= dlog_records limits <= 1000000 /\ 2 ^ 20 <= dlog_bytes limits <= 2 ^ 29 /\ 0 <= as_millis (dlog_retention limits) <= 90 * 86400 * 1000.
Proof.
  unfold limits_ok, PersistentDeliveryLogLimits_new, within. intros Hl.
  do 3 (destruct (in_range _ _ _) eqn:? in Hl; [|done]; cbn [negb] in Hl). bools.
  unfold bound_records, bound_bytes, bound_retention, PERSISTENT_DELIVERY_LOG_BOUNDS, from_secs, NANOS_PER_SEC in *. simpl in *.
  unfold as_millis. split_and!; try lia; [apply Z.div_pos; lia|apply Z.div_le_upper_bound; lia].
Qed.

(** The number of records and the bytes charged for them are within the limits. *)
Definition within_limits (limits : PersistentDeliveryLogLimits) (db : Database) : Prop :=
  Z.of_nat (size (t_delivery db)) <= dlog_records limits /\ 512 * Z.of_nat (size (t_delivery db)) <= dlog_bytes limits.

Lemma expire_within limits cutoff db db' :
  sql_expire_deliveries cutoff db = Ok (tt, db') -> within_limits limits db -> within_limits limits db'.
Proof.
  unfold sql_expire_deliveries. intros (u & _ & Hdb)%result_bind_Ok. injection Hdb as <-. unfold within_limits. simpl.
  pose proof (size_partition (expired_row cutoff) (t_delivery db)). lia.
Qed.

(** What an insert did, given the records it kept. *)
Definition insert_post (limits : PersistentDeliveryLogLimits) (i : DeliveryIntent) (m : gmap DeliveryId DeliveryRecord)
    (r : result DeliveryLogError unit) (m' : gmap DeliveryId DeliveryRecord) : Prop :=
  if bool_decide (is_Some (m !! intent_delivery i)) then r = Err LogConflict /\ m' = m
  else if (dlog_records limits <=? Z.of_nat (size m)) || (dlog_bytes limits <? 512 * (Z.of_nat (size m) + 1))
  then r = Err LogCapacityExhausted /\ m' = m
  else r = Ok tt /\ m' = <[intent_delivery i := fresh_record i]> m.

Lemma delivery_usage_read db :
  delivery_ok db -> usage_read DELIVERY_LOG db = Ok ((Z.of_nat (size (t_delivery db)), 512 * Z.of_nat (size (t_delivery db))), db).
Proof.
  intros (_ & Hu & Hmax). unfold usage_read. rewrite Hu. rewrite decide_True by done. set (n := Z.of_nat _) in *.
  assert (0 <= n) by (unfold n; lia). replace (n * 512) with (512 * n) by lia.
  assert (in_i64 (512 * n) = true) as -> by (apply in_i64_spec; unfold I64_MIN; lia).
  rewrite (proj2 (Z.ltb_ge n 0)), Z.ltb_irrefl, Z.eqb_refl by lia. rewrite andb_false_r. simpl.
  destruct (Z.eqb_spec n 0) as [->|]; done.
Qed.

Lemma insert_delivery_ok i at_ db :
  delivery_ok db -> intent_wf i -> encoded_time (intent_accepted_at i) = Ok at_ ->
  t_delivery db !! as_str (intent_delivery i) = None -> 512 * (Z.of_nat (size (t_delivery db)) + 1) <= 2 ^ 29 ->
  exists db', sql_insert_delivery (as_str (intent_delivery i)) (as_str (intent_route i)) at_ 512 db = Ok (1, db') /\
    delivery_ok db' /\ delivery_view db' = <[intent_delivery i := fresh_record i]> (delivery_view db) /\
    size (t_delivery db') = S (size (t_delivery db)).
Proof.
  intros (Hrows & Hu & Hmax) Hwf Hat Hnone Hbound. destruct (fresh_row_ok i at_ Hwf Hat) as [Hcheck Hval].
  unfold sql_insert_delivery. rewrite Hnone, Hcheck. simpl. unfold usage_insert_trigger. change 512 with (512 * 1) at 2.
  rewrite (usage_update_exact _ _ 1 Hu) by (unfold I64_MAX; lia). simpl. eexists. split; [done|].
  assert (size (<[as_str (intent_delivery i) := mk_delivery_row (as_str (intent_route i)) at_ 0 (str "pending") None at_ None None 512]>
    (t_delivery db)) = S (size (t_delivery db))) as Hsize by by rewrite map_size_insert_None.
  split; [|split; [|done]].
  - split_and!; simpl.
    + by apply map_Forall_insert_2.
    + rewrite lookup_insert_eq, Hsize. do 2 f_equal; lia.
    + rewrite Hsize. unfold I64_MAX. lia.
  - rewrite delivery_view_insert, fresh_row_record. f_equal. unfold encoded_time in Hat.
    destruct (try_i64 (intent_accepted_at i)) as [x|] eqn:Hx; [|done]. injection Hat as ->. apply try_i64_Some in Hx as [-> _].
    by destruct i as [[] []].
Qed.

Lemma insert_exact_runs limits i s :
  delivery_ok (sq_db s) -> limits_ok limits -> intent_wf i ->
  runs (slog_insert_intent limits i) (fun r db =>
    delivery_ok db /\ (within_limits limits (sq_db s) -> within_limits limits db) /\
    ((r = Err LogUnavailable \/ r = Err LogInvalidTransition /\ I64_MAX < intent_accepted_at i) /\ delivery_view db = delivery_view (sq_db s) \/
     insert_post limits i (retained (intent_accepted_at i - as_millis (dlog_retention limits)) (delivery_view (sq_db s)))
       r (delivery_view db))) s.
Proof.
  intros Hok Hlim Hwf. destruct (limits_ok_bounds _ Hlim) as (Hrec & Hbytes & Hret). apply insert_intent_runs; [by auto 10|..].
  { intros [Hn|Hn]; unfold try_i64 in Hn; destruct (in_i64 _) eqn:Hin in Hn; try done; apply not_true_iff_false in Hin;
      rewrite in_i64_spec in Hin; unfold I64_MIN, I64_MAX in *.
    - destruct Hwf as (_ & _ & Ht). split; [done|]. split; [done|]. left. split; [|done]. right. split; [done|]. lia.
    - lia. }
  intros at_ retention db1 Hat Hr Hexp. apply try_i64_Some in Hr as [-> _].
  assert (at_ = intent_accepted_at i /\ I64_MIN <= at_ <= I64_MAX) as [-> Hi64].
  { unfold encoded_time in Hat. destruct (try_i64 (intent_accepted_at i)) as [x|] eqn:Hx; [|done]. injection Hat as ->.
    apply try_i64_Some in Hx as [-> ?]. done. }
  replace (i64_clamp _) with (intent_accepted_at i - as_millis (dlog_retention limits)) in Hexp
    by (unfold i64_clamp, I64_MIN, I64_MAX in *; destruct Hwf as (_ & _ & ?); lia).
  destruct (expire_ok (intent_accepted_at i - as_millis (dlog_retention limits)) _ Hok) as (db1' & Hexp' & Hok1).
  rewrite Hexp in Hexp'. injection Hexp' as <-. rewrite <-(sql_expire_view _ _ _ Hexp).
  assert (within_limits limits (sq_db s) -> within_limits limits db1) as Hwithin by by eapply expire_within.
  unfold insert_post, sql_delivery_exists. rewrite delivery_view_size, delivery_view_lookup.
  rewrite (bool_decide_ext _ _ (fmap_is_Some (row_record _) _)).
  case_bool_decide as Hex; [by auto|]. intros u Hu. rewrite (delivery_usage_read _ Hok1) in Hu. injection Hu as <-. simpl fst. simpl snd.
  set (n := Z.of_nat (size (t_delivery db1))) in *.
  replace (dlog_bytes limits <? i64_clamp (512 * n + 512)) with (dlog_bytes limits <? 512 * (n + 1))
    by (apply eq_iff_eq_true; rewrite !Z.ltb_lt; unfold i64_clamp, I64_MIN, I64_MAX; lia).
  destruct (_ || _) eqn:Hcap; [by auto|]. bools.
  assert (t_delivery db1 !! as_str (intent_delivery i) = None) as Hnone by (destruct (_ !! _); [destruct Hex; by eexists|done]).
  destruct (insert_delivery_ok i (intent_accepted_at i) db1 Hok1 Hwf Hat Hnone) as (db2 & -> & Hok2 & Hview & Hsize); [fold n; lia|].
  simpl. split; [done|]. split; [|by right]. intros _. unfold within_limits. rewrite Hsize. lia.
Qed.

(** The log and its recovery, in any order. *)
Inductive SlogOp := SlogOperation (op : LogOp) | SlogRecover (at_ : Z).

Definition slog_op_wf (op : SlogOp) : Prop :=
  match op with SlogOperation op => log_op_wf op | SlogRecover at_ => 0 <= at_ <= U64_MAX end.

Definition slog_apply (op : SlogOp) (l : SqlCipherDeliveryLog) : SqlCipherDeliveryLog :=
  match op with SlogOperation op => (log_apply op l).2 | SlogRecover at_ => (recover_unfinished at_ l).2 end.

Definition slog_run (ops : list SlogOp) (l : SqlCipherDeliveryLog) : SqlCipherDeliveryLog := foldl (fun l op => slog_apply op l) l ops.

Definition slog_ok (l : SqlCipherDeliveryLog) : Prop :=
  delivery_ok (sq_db (slog_store l)) /\ limits_ok (slog_limits l) /\ within_limits (slog_limits l) (sq_db (slog_store l)).

Lemma on_slog_limits {A} (m : M A) l : slog_limits (on_slog m l).2 = slog_limits l.
Proof. unfold on_slog. by destruct (m (slog_store l)). Qed.

Lemma on_slog_ok {A} (m : M A) l :
  slog_ok l -> runs m (fun _ db => delivery_ok db /\ within_limits (slog_limits l) db) (slog_store l) -> slog_ok (on_slog m l).2.
Proof.
  intros (_ & Hlim & _) Hm. destruct (on_slog_run m _ l Hm) as [Hok Hw]. unfold slog_ok. by rewrite on_slog_limits.
Qed.

(** Replacing a row by one that is as good keeps the accounts. *)
Lemma replace_row_ok limits db d row row' :
  delivery_ok db -> within_limits limits db -> t_delivery db !! d = Some row -> delivery_row_ok d row' ->
  let db' := set_delivery (<[d := row']> (t_delivery db)) (t_usage db) db in delivery_ok db' /\ within_limits limits db'.
Proof.
  intros (Hrows & Hu & Hmax) Hw Hd Hrow'. unfold delivery_ok, within_limits. simpl. rewrite map_size_insert_Some by eauto.
  split_and!; try done; [|apply Hw..]. by apply map_Forall_insert_2.
Qed.

Lemma recover_ok limits at_ db n db' :
  delivery_ok db -> within_limits limits db -> 0 <= at_ <= U64_MAX -> sql_recover_deliveries at_ db = Ok (n, db') ->
  delivery_ok db' /\ within_limits limits db'.
Proof.
  intros (Hrows & Hu & Hmax) Hw Hat. unfold sql_recover_deliveries. case_bool_decide as Hall; [|done]. intros [= _ <-].
  unfold delivery_ok, within_limits. simpl. rewrite !map_size_fmap. split_and!; try done; [|apply Hw..].
  intros d row Hd. rewrite lookup_fmap in Hd. destruct (t_delivery db !! d) as [row0|] eqn:Hrow; [|done]. injection Hd as <-.
  pose proof (Hrows _ _ Hrow) as Hok. destruct (pending_row row0) eqn:Hp; [|done].
  assert (delivery_check (set_unknown at_ row0) = true) as Hc by (apply (Hall d), map_lookup_filter_Some; done).
  assert (set_unknown at_ row0 = row_outcome (encode_delivery_outcome UnknownAfterCrash).1 (encode_delivery_outcome UnknownAfterCrash).2
    at_ (encode_result None).1 (encode_result None).2 row0) as Heq.
  { destruct Hok as [Hck _]. unfold set_unknown. unfold delivery_check in Hck. rewrite Hp in Hck. bools.
    unfold pending_row in Hp. apply bool_decide_eq_true in Hp. rewrite Hp in *.
    destruct (dl_failure_kind row0); [done|]. by destruct (dl_result_category row0), (dl_result_bytes row0). }
  rewrite Heq in *. by apply row_outcome_ok.
Qed.

Lemma slog_apply_ok op l : slog_ok l -> slog_op_wf op -> slog_ok (slog_apply op l).
Proof.
  intros Hl Hwf. pose proof Hl as (Hok & Hlim & Hw). destruct op as [[i|d n t|d o t res]|t]; simpl in *; apply on_slog_ok; try done.
  - eapply runs_mono; [|by apply insert_exact_runs]. simpl. intros r db (? & ? & _). auto.
  - destruct Hwf. apply record_attempt_runs; [done|]. intros row Hrow Hp Hlt _ Hc. eapply replace_row_ok; [done..|].
    apply row_attempts_ok; [by apply Hok|done..].
  - destruct Hwf. apply record_outcome_runs; [done|]. intros row Hrow Hp _ f Hc. eapply replace_row_ok; [done..|].
    apply row_outcome_ok; [by apply Hok|done..].
  - apply recover_runs; [done|]. intros n db _ Hr. by eapply recover_ok.
Qed.


Lemma slog_delivery_answer d s :
  delivery_ok (sq_db s) ->
  (slog_delivery d s).1 =
    if sq_poisoned s || sql_fails (sq_tick s) then Err LogUnavailable else Ok (delivery_view (sq_db s) !! d).
Proof.
  intros (Hrows & _). unfold slog_delivery. rewrite bind_run. unfold connection. destruct (sq_poisoned s); [done|]. simpl.
  rewrite bind_run. unfold with_err, sql. destruct (sql_fails (sq_tick s)); [done|]. simpl. rewrite delivery_view_lookup.
  destruct (t_delivery (sq_db s) !! as_str d) as [row|] eqn:Hd; [|done]. destruct (Hrows _ _ Hd) as (_ & r & Hr). simpl. rewrite Hr.
  by apply validate_delivery_view in Hr as ->.
Qed.

(** C18: the persistent log is well typed and within its bounds.  Run any operations of the
    log and any recoveries on a new database, any of their statements failing.  Every row then
    keeps every constraint of its table, the counters of [storage_usage] are the true numbers
    of records and bytes, both stay within the validated limits, and reading a delivery returns
    exactly its record: no stored row is ever refused as invalid. *)
Theorem persistent_log_well_typed ops (s : SqlCipherStore) limits d :
  sq_db s = migrate_from_empty -> limits_ok limits -> Forall slog_op_wf ops ->
  let l := slog_run ops (mk_sql_log s limits) in
  let db := sq_db (slog_store l) in
  let n := Z.of_nat (size (log_view l)) in
  map_Forall (fun _ row => delivery_check row = true) (t_delivery db) /\
  t_usage db !! DELIVERY_LOG = Some (n, 512 * n) /\
  n <= dlog_records limits /\ 512 * n <= dlog_bytes limits /\
  (log_delivery d l).1 =
    if sq_poisoned (slog_store l) || sql_fails (sq_tick (slog_store l)) then Err LogUnavailable else Ok (log_view l !! d).
Proof.
  intros Hs Hlim Hwf. assert (forall l, slog_ok l -> slog_ok (slog_run ops l) /\ slog_limits (slog_run ops l) = slog_limits l) as Hrun.
  { induction Hwf as [|op ops Hop _ IH]; intros l Hl; [done|]. simpl. destruct (IH (slog_apply op l)) as [? ->]; [by apply slog_apply_ok|].
    split; [done|]. destruct op as [[]|]; apply on_slog_limits. }
  destruct (Hrun (mk_sql_log s limits)) as [(Hok & _ & Hw) Hl]; [|clear Hrun].
  { unfold slog_ok, delivery_ok, within_limits. simpl. rewrite Hs. destruct (limits_ok_bounds _ Hlim) as (? & ? & _).
    change (size (t_delivery migrate_from_empty)) with 0%nat.
    split_and!; try done; lia. }
  intros l db n. assert (n = Z.of_nat (size (t_delivery db))) as -> by (unfold n; f_equal; apply delivery_view_size).
  rewrite Hl in Hw. split_and!; [|apply Hok|apply Hw..|].
  - intros x row Hx. by destruct (proj1 Hok _ _ Hx).
  - simpl. unfold on_slog. pose proof (slog_delivery_answer d (slog_store l) Hok) as Ha. by destruct (slog_delivery d (slog_store l)).
Qed.

(** What an insert into the persistent log does.  On a well-typed log, unless the storage
    fails and nothing changes or the time is beyond what the table holds, an insert first drops
    exactly the terminal records older than the retention; then it reports a conflict if the
    delivery is there, refuses if the record count or the byte count is at its limit, and
    otherwise adds the fresh record and nothing else. *)
Theorem persistent_log_insert_exact i (l : SqlCipherDeliveryLog) :
  delivery_ok (sq_db (slog_store l)) -> limits_ok (slog_limits l) -> intent_wf i ->
  let '(r, l') := insert_intent i l in
  (r = Err LogUnavailable \/ r = Err LogInvalidTransition /\ I64_MAX < intent_accepted_at i) /\ log_view l' = log_view l \/
  insert_post (slog_limits l) i
    (retained (intent_accepted_at i - as_millis (dlog_retention (slog_limits l))) (log_view l)) r (log_view l').
Proof.
  intros Hok Hlim Hwf. destruct (on_slog_run _ _ l (insert_exact_runs (slog_limits l) i (slog_store l) Hok Hlim Hwf)) as (_ & _ & Hr).
  simpl in *. by destruct (on_slog _ l).
Qed.
End delivery.

(** ** An example: a delivery is accepted, attempted and settled; later inserts drop it *)

#[local] Instance ex_delivery_sql : SqlEnv := fun n => Nat.eqb n 7.
Definition ex_log_store : SqlCipherStore := mk_sql_store false migrate_from_empty None 0.
Definition ex_log : SqlCipherDeliveryLog := mk_sql_log ex_log_store PersistentDeliveryLogLimits_default.
Definition ex_intent (d : string) (at_ : Z) : DeliveryIntent := mk_intent (mk_id (str "route")) (mk_id (str d)) at_.
Definition ex_log_ops : list SlogOp :=
  [SlogOperation (OpInsert (ex_intent "first" 1000)); SlogOperation (OpAttempt (mk_id (str "first")) 1 1001);
   SlogOperation (OpAttempt (mk_id (str "first")) 1 1001);
   SlogOperation (OpOutcome (mk_id (str "first")) (Failed Internal) 1002 None);
   SlogOperation (OpInsert (ex_intent "second" 1003)); SlogRecover 1004].

Lemma ex_log_limits : limits_ok PersistentDeliveryLogLimits_default.
Proof. vm_compute. reflexivity. Qed.

Lemma ex_log_ops_wf : Forall slog_op_wf ex_log_ops.
Proof.
  assert (forall r : DeliveryResultMetadata, None = Some r -> 0 <= result_bytes r <= U32_MAX) by done.
  unfold ex_log_ops. repeat apply Forall_cons_2; try apply Forall_nil_2; simpl; unfold intent_wf, U16_MAX, U64_MAX; simpl;
    split_and!; try done; vm_compute; reflexivity.
Qed.

Lemma persistent_log_well_typed_witness :
  let l := slog_run ex_log_ops (mk_sql_log ex_log_store PersistentDeliveryLogLimits_default) in
  t_usage (sq_db (slog_store l)) !! DELIVERY_LOG = Some (2, 1024) /\
  (log_delivery (mk_id (str "first")) l).1 =
    Ok (Some (mk_record (ex_intent "first" 1000) 1 (Terminal (Failed Internal)) 1002 None)).
Proof.
  pose proof (persistent_log_well_typed ex_log_ops ex_log_store PersistentDeliveryLogLimits_default (mk_id (str "first"))
    eq_refl ex_log_limits ex_log_ops_wf) as (_ & Hu & _ & _ & Hd).
  cbv zeta in *. rewrite Hd, Hu. split; vm_compute; reflexivity.
Defined.

Lemma persistent_log_insert_exact_witness :
  let '(r, l) := insert_intent (ex_intent "first" 1000) ex_log in
  r = Ok tt /\ insert_post PersistentDeliveryLogLimits_default (ex_intent "first" 1000)
    (retained (1000 - as_millis (from_secs (7 * 86400))) (log_view ex_log)) r (log_view l).
Proof.
  assert (delivery_ok (sq_db (slog_store ex_log))) as Hok by (split_and!; [done|by vm_compute|vm_compute; discriminate]).
  assert (intent_wf (ex_intent "first" 1000)) as Hwf by (split_and!; vm_compute; (reflexivity || discriminate)).
  assert ((insert_intent (ex_intent "first" 1000) ex_log).1 = Ok tt) as Hr by (vm_compute; reflexivity).
  pose proof (persistent_log_insert_exact (ex_intent "first" 1000) ex_log Hok ex_log_limits Hwf) as Hthm.
  destruct (insert_intent (ex_intent "first" 1000) ex_log) as [r l]. cbn [fst] in Hr. subst r.
  destruct Hthm as [[[Hr|[Hr _]] _]|Hpost]; [discriminate Hr|discriminate Hr|]. split; [reflexivity|exact Hpost].
Defined.
