(* ===== verification/DeliveryAbi.v ===== *)
(** * DeliveryAbi: the delivery log through the C interface

    The egress library and the encrypted store are linked as two libraries with a C interface
    between them.  delivery_log.rs of [bondry-runtime-ffi] exports a delivery log as a
    descriptor of callbacks; store.rs of [bondry-egress-ffi] validates such a descriptor and
    implements [DeliveryLog] over it.  The callbacks are modelled over any log, the derivation
    of the descriptor over the encrypted store.

    [delivery_log_crosses_interface] says that the log on this side is the log on the other. *)

From S2P Require Import Prelude Text Bytes Identifiers CAbi DeliveryStore Sqlite SqlDelivery.

Definition BONDRY_DELIVERY_LOG_ABI_VERSION_V1 : Z := 1.
Definition BONDRY_STORE_THREADING_SERIALIZED_V1 : Z := 1.
Definition BONDRY_DELIVERY_STATE_PENDING_V1 : Z := 1.
Definition BONDRY_DELIVERY_STATE_TERMINAL_V1 : Z := 2.
Definition BONDRY_DELIVERY_OUTCOME_NONE_V1 : Z := 0.
Definition BONDRY_DELIVERY_OUTCOME_DELIVERED_V1 : Z := 1.
Definition BONDRY_DELIVERY_OUTCOME_FAILED_V1 : Z := 2.
Definition BONDRY_DELIVERY_OUTCOME_LOST_ON_SHUTDOWN_V1 : Z := 3.
Definition BONDRY_DELIVERY_OUTCOME_UNKNOWN_AFTER_CRASH_V1 : Z := 4.
Definition BONDRY_DELIVERY_FAILURE_NONE_V1 : Z := 0.
Definition BONDRY_DELIVERY_RESULT_NONE_V1 : Z := 0.

(** [size_of::<BondryDeliveryLogV1>()] on a 64-bit target. *)
Definition DELIVERY_LOG_SIZE : Z := 80.

Record BondryDeliveryRecordV1 := mk_delivery_record_v1 {
  v1_route_id : list byte;
  v1_delivery_id : list byte;
  v1_accepted_at_unix_ms : Z;
  v1_updated_at_unix_ms : Z;
  v1_attempts : Z;
  v1_state : Z;
  v1_outcome : Z;
  v1_failure : Z;
  v1_result_category : Z;
  v1_result_bytes : Z;
}.

Definition delivery_record_zeroed : BondryDeliveryRecordV1 :=
  mk_delivery_record_v1 (replicate BONDRY_IDENTIFIER_CAPACITY_V1 0) (replicate BONDRY_IDENTIFIER_CAPACITY_V1 0) 0 0 0 0
    BONDRY_DELIVERY_OUTCOME_NONE_V1 BONDRY_DELIVERY_FAILURE_NONE_V1 BONDRY_DELIVERY_RESULT_NONE_V1 0.

(** The descriptor; a callback takes the context, the buffers and the outputs, and leaves the
    outputs and what the context points to.  [release] says how many units it gives back. *)
Record BondryDeliveryLogV1 {L : Type} := mk_delivery_log_v1 {
  v1_abi_version : Z;
  v1_struct_size : Z;
  v1_threading_model : Z;
  v1_context : pointer L;
  v1_release : option (pointer L -> Z);
  v1_insert_intent : option (pointer L -> pointer (list byte) -> pointer (list byte) -> Z -> Z * pointer L);
  v1_record_attempt : option (pointer L -> pointer (list byte) -> Z -> Z -> Z * pointer L);
  v1_record_outcome : option (pointer L -> pointer (list byte) -> Z -> Z -> Z -> Z -> Z -> Z * pointer L);
  v1_query : option (pointer L -> pointer (list byte) -> pointer Z -> pointer BondryDeliveryRecordV1 ->
    Z * pointer Z * pointer BondryDeliveryRecordV1 * pointer L);
  v1_recover : option (pointer L -> Z -> pointer Z -> Z * pointer Z * pointer L);
}.
Arguments BondryDeliveryLogV1 : clear implicits.
Arguments mk_delivery_log_v1 {L} _ _ _ _ _ _ _ _ _ _.

(** ** The side of the store (delivery_log.rs) *)

Definition delivery_error (error : DeliveryLogError) : Z :=
  match error with
  | LogConflict => BONDRY_STATUS_ALREADY_EXISTS
  | LogCapacityExhausted => BONDRY_STATUS_CAPACITY_EXHAUSTED
  | LogNotFound => BONDRY_STATUS_NOT_FOUND
  | LogInvalidTransition => BONDRY_STATUS_INVALID_TRANSITION
  | LogUnavailable => BONDRY_STATUS_UNAVAILABLE
  end.

Definition delivery_error_status (r : result DeliveryLogError unit) : Z :=
  match r with Ok _ => BONDRY_STATUS_OK | Err error => delivery_error error end.

(** [identifier] and what is parsed of it. *)
Definition abi_identifier (bytes : pointer (list byte)) : option rstr :=
  bytes ← bytes;
  if ISIZE_MAX <? Z.of_nat (length bytes) then None else from_utf8 bytes.
Definition parse_route_id (bytes : pointer (list byte)) : option RouteId := s ← abi_identifier bytes; to_option (RouteId_new s).
Definition parse_delivery_id (bytes : pointer (list byte)) : option DeliveryId := s ← abi_identifier bytes; to_option (DeliveryId_new s).

(** The failure categories in the order of their codes, from 1. *)
Definition failure_of_code (failure : Z) : option DeliveryFailure :=
  match failure with
  | 1 => Some Cancelled
  | 2 => Some DeadlineExceeded
  | 3 => Some EndpointPolicy
  | 4 => Some SecretUnavailable
  | 5 => Some TransportUnavailable
  | 6 => Some ReceiverRejected
  | 7 => Some RetryExhausted
  | 8 => Some Internal
  | _ => None
  end.
Definition failure_code (failure : DeliveryFailure) : Z :=
  match failure with
  | Cancelled => 1
  | DeadlineExceeded => 2
  | EndpointPolicy => 3
  | SecretUnavailable => 4
  | TransportUnavailable => 5
  | ReceiverRejected => 6
  | RetryExhausted => 7
  | Internal => 8
  end.

Definition abi_decode_outcome (outcome failure : Z) : option DeliveryOutcome :=
  if (outcome =? BONDRY_DELIVERY_OUTCOME_DELIVERED_V1) && (failure =? BONDRY_DELIVERY_FAILURE_NONE_V1) then Some Delivered
  else if outcome =? BONDRY_DELIVERY_OUTCOME_FAILED_V1 then Failed <$> failure_of_code failure
  else if (outcome =? BONDRY_DELIVERY_OUTCOME_LOST_ON_SHUTDOWN_V1) && (failure =? BONDRY_DELIVERY_FAILURE_NONE_V1) then Some LostOnShutdown
  else None.

Definition abi_decode_result (category bytes : Z) : option (option DeliveryResultMetadata) :=
  match category with
  | 0 => if bytes =? 0 then Some None else None
  | 1 => Some (Some (mk_result_metadata ResultSucceeded bytes))
  | 2 => Some (Some (mk_result_metadata ResultFailed bytes))
  | 3 => Some (Some (mk_result_metadata ResultInvalid bytes))
  | _ => None
  end.

Definition outcome_codes (outcome : DeliveryOutcome) : Z * Z :=
  match outcome with
  | Delivered => (BONDRY_DELIVERY_OUTCOME_DELIVERED_V1, BONDRY_DELIVERY_FAILURE_NONE_V1)
  | Failed failure => (BONDRY_DELIVERY_OUTCOME_FAILED_V1, failure_code failure)
  | LostOnShutdown => (BONDRY_DELIVERY_OUTCOME_LOST_ON_SHUTDOWN_V1, BONDRY_DELIVERY_FAILURE_NONE_V1)
  | UnknownAfterCrash => (BONDRY_DELIVERY_OUTCOME_UNKNOWN_AFTER_CRASH_V1, BONDRY_DELIVERY_FAILURE_NONE_V1)
  end.

Definition result_codes (res : option DeliveryResultMetadata) : Z * Z :=
  match res with
  | None => (BONDRY_DELIVERY_RESULT_NONE_V1, 0)
  | Some r => (match result_category r with ResultSucceeded => 1 | ResultFailed => 2 | ResultInvalid => 3 end, result_bytes r)
  end.

(** [encode_record]; [None] is the panic of a copy out of range. *)
Definition encode_record (record : DeliveryRecord) : option BondryDeliveryRecordV1 :=
  let '(state, outcome, failure) :=
    match rec_state record with
    | Pending => (BONDRY_DELIVERY_STATE_PENDING_V1, BONDRY_DELIVERY_OUTCOME_NONE_V1, BONDRY_DELIVERY_FAILURE_NONE_V1)
    | Terminal outcome => let '(outcome, failure) := outcome_codes outcome in (BONDRY_DELIVERY_STATE_TERMINAL_V1, outcome, failure)
    end in
  let '(category, bytes) := result_codes (rec_result record) in
  route ← terminated BONDRY_IDENTIFIER_CAPACITY_V1 (as_str (intent_route (rec_intent record)));
  delivery ← terminated BONDRY_IDENTIFIER_CAPACITY_V1 (as_str (intent_delivery (rec_intent record)));
  Some (mk_delivery_record_v1 route delivery (intent_accepted_at (rec_intent record)) (rec_updated_at record) (rec_attempts record)
    state outcome failure category bytes).

Section callbacks.
  Context {L : Type} `{DeliveryLog L}.

Definition abi_insert_intent (context : pointer L) (route_id delivery_id : pointer (list byte)) (accepted_at : Z) : Z * pointer L :=
  match context with
  | None => (BONDRY_STATUS_NULL_POINTER, None)
  | Some l =>
      match parse_route_id route_id, parse_delivery_id delivery_id with
      | Some route, Some delivery =>
          let '(r, l) := insert_intent (mk_intent route delivery accepted_at) l in (delivery_error_status r, Some l)
      | _, _ => (BONDRY_STATUS_INVALID_ARGUMENT, Some l)
      end
  end.

Definition abi_record_attempt (context : pointer L) (delivery_id : pointer (list byte)) (attempts updated_at : Z) : Z * pointer L :=
  match context with
  | None => (BONDRY_STATUS_NULL_POINTER, None)
  | Some l =>
      match parse_delivery_id delivery_id with
      | Some delivery => let '(r, l) := record_attempt delivery attempts updated_at l in (delivery_error_status r, Some l)
      | None => (BONDRY_STATUS_INVALID_ARGUMENT, Some l)
      end
  end.

Definition abi_record_outcome (context : pointer L) (delivery_id : pointer (list byte))
    (outcome failure category bytes updated_at : Z) : Z * pointer L :=
  match context with
  | None => (BONDRY_STATUS_NULL_POINTER, None)
  | Some l =>
      match parse_delivery_id delivery_id, abi_decode_outcome outcome failure, abi_decode_result category bytes with
      | Some delivery, Some outcome, Some res =>
          let '(r, l) := record_outcome delivery outcome updated_at res l in (delivery_error_status r, Some l)
      | _, _, _ => (BONDRY_STATUS_INVALID_ARGUMENT, Some l)
      end
  end.

Definition abi_query_delivery (context : pointer L) (delivery_id : pointer (list byte)) (out_found : pointer Z)
    (out_record : pointer BondryDeliveryRecordV1) : Z * pointer Z * pointer BondryDeliveryRecordV1 * pointer L :=
  match out_found, out_record with
  | Some _, Some _ =>
      let absent := Some delivery_record_zeroed in
      match context with
      | None => (BONDRY_STATUS_NULL_POINTER, Some 0, absent, None)
      | Some l =>
          match parse_delivery_id delivery_id with
          | None => (BONDRY_STATUS_INVALID_ARGUMENT, Some 0, absent, Some l)
          | Some delivery =>
              match log_delivery delivery l with
              | (Err error, l) => (delivery_error error, Some 0, absent, Some l)
              | (Ok None, l) => (BONDRY_STATUS_OK, Some 0, absent, Some l)
              | (Ok (Some record), l) =>
                  match encode_record record with
                  | Some record => (BONDRY_STATUS_OK, Some 1, Some record, Some l)
                  | None => (BONDRY_STATUS_INTERNAL_FAILURE, Some 0, absent, Some l)
                  end
              end
          end
      end
  | _, _ => (BONDRY_STATUS_NULL_POINTER, out_found, out_record, context)
  end.

Definition abi_recover_unfinished (context : pointer L) (updated_at : Z) (out_recovered : pointer Z) : Z * pointer Z * pointer L :=
  match out_recovered with
  | None => (BONDRY_STATUS_NULL_POINTER, None, context)
  | Some _ =>
      match context with
      | None => (BONDRY_STATUS_NULL_POINTER, Some 0, None)
      | Some l =>
          match recover_unfinished updated_at l with
          | (Ok recovered, l) => (BONDRY_STATUS_OK, Some recovered, Some l)
          | (Err error, l) => (delivery_error error, Some 0, Some l)
          end
      end
  end.

Definition release_delivery_log (context : pointer L) : Z := match context with Some _ => 1 | None => 0 end.

(** The descriptor that [bondry_store_delivery_log_v1] builds of a log. *)
Definition delivery_log_descriptor (l : L) : BondryDeliveryLogV1 L :=
  mk_delivery_log_v1 BONDRY_DELIVERY_LOG_ABI_VERSION_V1 DELIVERY_LOG_SIZE BONDRY_STORE_THREADING_SERIALIZED_V1 (Some l)
    (Some release_delivery_log) (Some abi_insert_intent) (Some abi_record_attempt) (Some abi_record_outcome)
    (Some abi_query_delivery) (Some abi_recover_unfinished).
End callbacks.

Definition delivery_log_zeroed {L} : BondryDeliveryLogV1 L := mk_delivery_log_v1 0 0 0 None None None None None None None.

(** [bondry_store_delivery_log_v1]: the store of the handle, and what is written to [out_log]. *)
Definition bondry_store_delivery_log_v1 `{Env : SqlEnv} (store : pointer SqlCipherStore) (max_records max_bytes retention_seconds : Z)
    (out_log : pointer (BondryDeliveryLogV1 SqlCipherDeliveryLog)) : Z * pointer (BondryDeliveryLogV1 SqlCipherDeliveryLog) :=
  match out_log with
  | None => (BONDRY_STATUS_NULL_POINTER, None)
  | Some _ =>
      match store with
      | None => (BONDRY_STATUS_NULL_POINTER, Some delivery_log_zeroed)
      | Some store =>
          match PersistentDeliveryLogLimits_new max_records max_bytes (from_secs retention_seconds) with
          | Err _ => (BONDRY_STATUS_INVALID_ARGUMENT, Some delivery_log_zeroed)
          | Ok limits => (BONDRY_STATUS_OK, Some (delivery_log_descriptor (mk_sql_log store limits)))
          end
      end
  end.

(** ** The side of the egress library (store.rs) *)

Record ForeignDeliveryLog {L : Type} := mk_foreign_log { fl_descriptor : BondryDeliveryLogV1 L }.
Arguments ForeignDeliveryLog : clear implicits.
Arguments mk_foreign_log {L} _.

Definition decode_delivery_status (status : Z) : result DeliveryLogError unit :=
  match status with
  | 0 => Ok ()
  | 28 => Err LogConflict
  | 32 => Err LogCapacityExhausted
  | 20 => Err LogNotFound
  | 5 | 33 => Err LogInvalidTransition
  | _ => Err LogUnavailable
  end.

Definition foreign_failure_code (failure : DeliveryFailure) : Z :=
  match failure with
  | Cancelled => 1
  | DeadlineExceeded => 2
  | EndpointPolicy => 3
  | SecretUnavailable => 4
  | TransportUnavailable => 5
  | ReceiverRejected => 6
  | RetryExhausted => 7
  | Internal => 8
  end.
Definition foreign_encode_outcome (outcome : DeliveryOutcome) : Z * Z :=
  match outcome with
  | Delivered => (1, 0)
  | Failed failure => (2, foreign_failure_code failure)
  | LostOnShutdown => (3, 0)
  | UnknownAfterCrash => (4, 0)
  end.
Definition foreign_encode_result (res : option DeliveryResultMetadata) : Z * Z :=
  match res with
  | None => (0, 0)
  | Some r => (match result_category r with ResultSucceeded => 1 | ResultFailed => 2 | ResultInvalid => 3 end, result_bytes r)
  end.

Definition foreign_decode_failure (failure : Z) : result DeliveryLogError DeliveryFailure :=
  match failure with
  | 1 => Ok Cancelled
  | 2 => Ok DeadlineExceeded
  | 3 => Ok EndpointPolicy
  | 4 => Ok SecretUnavailable
  | 5 => Ok TransportUnavailable
  | 6 => Ok ReceiverRejected
  | 7 => Ok RetryExhausted
  | 8 => Ok Internal
  | _ => Err LogUnavailable
  end.
Definition foreign_decode_outcome (outcome failure : Z) : result DeliveryLogError DeliveryOutcome :=
  match outcome, failure with
  | 1, 0 => Ok Delivered
  | 2, failure => failure ← foreign_decode_failure failure; Ok (Failed failure)
  | 3, 0 => Ok LostOnShutdown
  | 4, 0 => Ok UnknownAfterCrash
  | _, _ => Err LogUnavailable
  end.
Definition foreign_decode_result (category bytes : Z) : result DeliveryLogError (option DeliveryResultMetadata) :=
  match category with
  | 0 => if bytes =? 0 then Ok None else Err LogUnavailable
  | 1 => Ok (Some (mk_result_metadata ResultSucceeded bytes))
  | 2 => Ok (Some (mk_result_metadata ResultFailed bytes))
  | 3 => Ok (Some (mk_result_metadata ResultInvalid bytes))
  | _ => Err LogUnavailable
  end.

Definition foreign_decode_record (record : BondryDeliveryRecordV1) : result DeliveryLogError DeliveryRecord :=
  route ← ok_or (terminated_utf8 (v1_route_id record)) LogUnavailable;
  route ← map_err (fun _ => LogUnavailable) (RouteId_new route);
  delivery ← ok_or (terminated_utf8 (v1_delivery_id record)) LogUnavailable;
  delivery ← map_err (fun _ => LogUnavailable) (DeliveryId_new delivery);
  state ← match v1_state record, v1_outcome record, v1_failure record with
          | 1, 0, 0 => Ok Pending
          | 2, outcome, failure => outcome ← foreign_decode_outcome outcome failure; Ok (Terminal outcome)
          | _, _, _ => Err LogUnavailable
          end;
  res ← foreign_decode_result (v1_result_category record) (v1_result_bytes record);
  Ok (mk_record (mk_intent route delivery (v1_accepted_at_unix_ms record)) (v1_attempts record) state (v1_updated_at_unix_ms record) res).

Definition present {A} (callback : option A) : bool := if callback is Some _ then true else false.

Section foreign.
  Context {L : Type}.

Definition valid_descriptor (d : BondryDeliveryLogV1 L) : bool :=
  (v1_abi_version d =? 1) && (v1_struct_size d =? DELIVERY_LOG_SIZE) && (v1_threading_model d =? 1)
  && present (v1_context d) && present (v1_release d) && present (v1_insert_intent d) && present (v1_record_attempt d)
  && present (v1_record_outcome d) && present (v1_query d) && present (v1_recover d).

(** [ForeignDeliveryLog::derive], given what the exported function answered; with the units
    it gave back. *)
Definition foreign_derive (answer : Z * BondryDeliveryLogV1 L) : result unit (ForeignDeliveryLog L) * Z :=
  let '(status, d) := answer in
  if negb (status =? 0) then (Err (), 0)
  else if negb (valid_descriptor d)
  then (Err (), match v1_context d, v1_release d with Some l, Some release => release (Some l) | _, _ => 0 end)
  else (Ok (mk_foreign_log d), 0).

(** [Drop for ForeignDeliveryLog]. *)
Definition foreign_drop (f : ForeignDeliveryLog L) : Z :=
  match v1_release (fl_descriptor f) with Some release => release (v1_context (fl_descriptor f)) | None => 0 end.

Definition set_context (context : pointer L) (f : ForeignDeliveryLog L) : ForeignDeliveryLog L :=
  let d := fl_descriptor f in
  mk_foreign_log (mk_delivery_log_v1 (v1_abi_version d) (v1_struct_size d) (v1_threading_model d) context (v1_release d)
    (v1_insert_intent d) (v1_record_attempt d) (v1_record_outcome d) (v1_query d) (v1_recover d)).

Definition foreign_insert_intent (intent : DeliveryIntent) (f : ForeignDeliveryLog L) : result DeliveryLogError unit * ForeignDeliveryLog L :=
  match v1_insert_intent (fl_descriptor f) with
  | None => (Err LogUnavailable, f)
  | Some callback =>
      let '(status, context) := callback (v1_context (fl_descriptor f)) (Some (as_bytes (as_str (intent_route intent))))
        (Some (as_bytes (as_str (intent_delivery intent)))) (intent_accepted_at intent) in
      (decode_delivery_status status, set_context context f)
  end.

Definition foreign_record_attempt (delivery : DeliveryId) (attempts updated_at : Z) (f : ForeignDeliveryLog L)
    : result DeliveryLogError unit * ForeignDeliveryLog L :=
  match v1_record_attempt (fl_descriptor f) with
  | None => (Err LogUnavailable, f)
  | Some callback =>
      let '(status, context) := callback (v1_context (fl_descriptor f)) (Some (as_bytes (as_str delivery))) attempts updated_at in
      (decode_delivery_status status, set_context context f)
  end.

Definition foreign_record_outcome (delivery : DeliveryId) (outcome : DeliveryOutcome) (updated_at : Z)
    (res : option DeliveryResultMetadata) (f : ForeignDeliveryLog L) : result DeliveryLogError unit * ForeignDeliveryLog L :=
  let '(outcome, failure) := foreign_encode_outcome outcome in
  let '(category, bytes) := foreign_encode_result res in
  match v1_record_outcome (fl_descriptor f) with
  | None => (Err LogUnavailable, f)
  | Some callback =>
      let '(status, context) := callback (v1_context (fl_descriptor f)) (Some (as_bytes (as_str delivery))) outcome failure category bytes
        updated_at in
      (decode_delivery_status status, set_context context f)
  end.

Definition foreign_delivery (delivery : DeliveryId) (f : ForeignDeliveryLog L)
    : result DeliveryLogError (option DeliveryRecord) * ForeignDeliveryLog L :=
  match v1_query (fl_descriptor f) with
  | None => (Err LogUnavailable, f)
  | Some callback =>
      let '(status, found, record, context) := callback (v1_context (fl_descriptor f)) (Some (as_bytes (as_str delivery))) (Some 0)
        (Some delivery_record_zeroed) in
      (_ ← decode_delivery_status status;
       match default 0 found with
       | 0 => Ok None
       | 1 => record ← foreign_decode_record (default delivery_record_zeroed record); Ok (Some record)
       | _ => Err LogUnavailable
       end, set_context context f)
  end.

Definition foreign_recover_unfinished (updated_at : Z) (f : ForeignDeliveryLog L) : result DeliveryLogError Z * ForeignDeliveryLog L :=
  match v1_recover (fl_descriptor f) with
  | None => (Err LogUnavailable, f)
  | Some callback =>
      let '(status, recovered, context) := callback (v1_context (fl_descriptor f)) updated_at (Some 0) in
      (_ ← decode_delivery_status status; Ok (default 0 recovered), set_context context f)
  end.

#[global] Instance ForeignDeliveryLog_log : DeliveryLog (ForeignDeliveryLog L) := {
  log_durability _ := Persistent;
  insert_intent := foreign_insert_intent;
  record_attempt := foreign_record_attempt;
  record_outcome := foreign_record_outcome;
  log_delivery := foreign_delivery;
  recover_unfinished := foreign_recover_unfinished;
}.
End foreign.

(** ** Values survive the crossing *)

Definition delivery_id_typed (d : DeliveryId) : Prop := DeliveryId_new (as_str d) = Ok d.
Definition route_id_typed (r : RouteId) : Prop := RouteId_new (as_str r) = Ok r.
Definition intent_typed (i : DeliveryIntent) : Prop := route_id_typed (intent_route i) /\ delivery_id_typed (intent_delivery i).

Lemma persistence_typed {k} maximum (i : Id k) : PersistenceIdentifier_new maximum (as_str i) = Ok i <-> portable maximum (as_str i).
Proof. rewrite PersistenceIdentifier_new_ok. destruct i as [s]. cbn. naive_solver. Qed.

(** The bytes of an identifier are parsed as that identifier, or refused if no constructor
    could have made it. *)
Lemma abi_identifier_cases {k} maximum (i : Id k) :
  maximum <= 128 ->
  (s ← abi_identifier (Some (as_bytes (as_str i))); to_option (@PersistenceIdentifier_new k maximum s)) =
    if decide (portable maximum (as_str i)) then Some i else None.
Proof.
  intros Hm. unfold abi_identifier. cbn. case_decide as Hp.
  - destruct (portable_bytes _ _ Hp) as [Hb Hu]. rewrite Hb, Hu. pose proof Hp as (_ & Hl & _).
    unfold ISIZE_MAX, I64_MAX. rewrite (proj2 (Z.ltb_ge _ _)) by lia. cbn. by rewrite (proj2 (persistence_typed _ _) Hp).
  - destruct (ISIZE_MAX <? _); [done|]. destruct (from_utf8 _) as [t|] eqn:Hu; [|done]. cbn.
    destruct (PersistenceIdentifier_new maximum t) as [j|] eqn:Hj; [|done]. apply PersistenceIdentifier_new_ok in Hj as [_ Hj].
    by rewrite (from_utf8_portable_inv _ _ _ Hu Hj) in Hj.
Qed.

Lemma parse_route_cases r : parse_route_id (Some (as_bytes (as_str r))) = if decide (portable MAX_ROUTE_ID_BYTES (as_str r)) then Some r else None.
Proof. by apply abi_identifier_cases. Qed.
Lemma parse_delivery_cases d :
  parse_delivery_id (Some (as_bytes (as_str d))) = if decide (portable MAX_DELIVERY_ID_BYTES (as_str d)) then Some d else None.
Proof. by apply abi_identifier_cases. Qed.

Lemma delivery_status_round_trip r : decode_delivery_status (delivery_error_status r) = r.
Proof. by destruct r as [[]|[]]. Qed.

Lemma outcome_round_trip o :
  abi_decode_outcome (foreign_encode_outcome o).1 (foreign_encode_outcome o).2 = if decide (o = UnknownAfterCrash) then None else Some o.
Proof. by destruct o as [|[]| |]. Qed.

Lemma result_round_trip res : abi_decode_result (foreign_encode_result res).1 (foreign_encode_result res).2 = Some res.
Proof. by destruct res as [[[] bytes]|]. Qed.

Lemma stored_outcome_round_trip o : foreign_decode_outcome (outcome_codes o).1 (outcome_codes o).2 = Ok o.
Proof. by destruct o as [|[]| |]. Qed.

Lemma stored_result_round_trip res : foreign_decode_result (result_codes res).1 (result_codes res).2 = Ok res.
Proof. by destruct res as [[[] bytes]|]. Qed.

(** A record of valid identifiers reads back. *)
Lemma record_round_trip r :
  intent_typed (rec_intent r) -> exists v, encode_record r = Some v /\ foreign_decode_record v = Ok r.
Proof.
  destruct r as [[route delivery accepted] attempts state updated res]. intros [Hr Hd]. cbn in Hr, Hd.
  pose proof (proj1 (persistence_typed _ _) Hr) as Hpr. pose proof (proj1 (persistence_typed _ _) Hd) as Hpd.
  destruct (terminated_round_trip _ _ Hpr (Z.le_refl 128)) as (b1 & Ht1 & Hu1).
  destruct (terminated_round_trip _ _ Hpd (Z.le_refl 128)) as (b2 & Ht2 & Hu2).
  unfold encode_record. cbn [rec_state rec_result rec_intent intent_route intent_delivery intent_accepted_at rec_updated_at rec_attempts].
  pose proof (stored_result_round_trip res) as Hres. destruct (result_codes res) as [category bytes]. cbn [fst snd] in Hres.
  unfold route_id_typed in Hr. unfold delivery_id_typed in Hd.
  destruct state as [|o]; [|pose proof (stored_outcome_round_trip o) as Ho; destruct (outcome_codes o) as [outcome failure]; cbn [fst snd] in Ho];
    rewrite Ht1, Ht2; (eexists; split; [reflexivity|]); unfold foreign_decode_record;
    cbn [v1_route_id v1_delivery_id v1_state v1_outcome v1_failure v1_result_category v1_result_bytes v1_accepted_at_unix_ms v1_attempts v1_updated_at_unix_ms];
    rewrite Hu1; cbn; rewrite Hr; cbn; rewrite Hu2; cbn; rewrite Hd; cbn.
  - by rewrite Hres.
  - by rewrite Ho, Hres.
Qed.

(** The identifiers that a log hands out are values of their types. *)
Class DeliveryLogTyped (L : Type) `{DeliveryLog L} := {
  log_delivery_typed d l r : (log_delivery d l).1 = Ok (Some r) -> intent_typed (rec_intent r);
}.

Lemma validate_delivery_typed id row r : validate_delivery id row = Ok r -> intent_typed (rec_intent r).
Proof.
  unfold validate_delivery. intros Hr. apply result_bind_Ok in Hr as (delivery & Hd & Hr). apply result_bind_Ok in Hr as (route & Hroute & Hr).
  apply result_bind_Ok in Hr as (? & _ & Hr). apply result_bind_Ok in Hr as (? & _ & Hr). apply result_bind_Ok in Hr as (? & _ & Hr).
  apply result_bind_Ok in Hr as (? & _ & Hr). apply result_bind_Ok in Hr as (? & _ & [= <-]). cbn.
  destruct (DeliveryId_new id) as [d|] eqn:Hd' in Hd; [|done]. injection Hd as <-.
  destruct (RouteId_new _) as [rt|] eqn:Hr' in Hroute; [|done]. injection Hroute as <-.
  apply PersistenceIdentifier_new_ok in Hd' as [-> Hd], Hr' as [-> Hr]. split; by apply persistence_typed.
Qed.

#[global] Instance SqlCipherDeliveryLog_typed `{Env : SqlEnv} : DeliveryLogTyped SqlCipherDeliveryLog.
Proof.
  constructor. intros d l r.
  apply (on_slog_run (slog_delivery d) (fun res _ => res = Ok (Some r) -> intent_typed (rec_intent r))).
  apply delivery_runs; [done|]. destruct (t_delivery _ !! as_str d) as [row|]; simpl; [|done].
  destruct (validate_delivery _ row) as [r'|] eqn:Hr; [|done]. intros [= <-]. by eapply validate_delivery_typed.
Qed.

(** ** The log on this side is the log on the other *)

Section linked.
  Context {L : Type} `{DeliveryLog L}.

Definition foreign_of (l : L) : ForeignDeliveryLog L := mk_foreign_log (delivery_log_descriptor l).
Definition across {A} (x : A * L) : A * ForeignDeliveryLog L := (x.1, foreign_of x.2).
Definition refused {A} (l : L) : result DeliveryLogError A * ForeignDeliveryLog L := (Err LogInvalidTransition, foreign_of l).

#[local] Abbreviation valid_delivery d := (portable MAX_DELIVERY_ID_BYTES (as_str d)).
#[local] Abbreviation valid_route r := (portable MAX_ROUTE_ID_BYTES (as_str r)).

Lemma foreign_insert_cases i l :
  foreign_insert_intent i (foreign_of l) =
    if decide (valid_route (intent_route i) /\ valid_delivery (intent_delivery i)) then across (insert_intent i l) else refused l.
Proof.
  unfold foreign_insert_intent, foreign_of. cbn [fl_descriptor delivery_log_descriptor v1_insert_intent v1_context abi_insert_intent].
  rewrite parse_route_cases, parse_delivery_cases. destruct i as [route delivery at_]. cbn [intent_route intent_delivery intent_accepted_at].
  repeat case_decide; try tauto; [|done..]. destruct (insert_intent _ l) as [r l']. cbn. by rewrite delivery_status_round_trip.
Qed.

Lemma foreign_attempt_cases d n t l :
  foreign_record_attempt d n t (foreign_of l) = if decide (valid_delivery d) then across (record_attempt d n t l) else refused l.
Proof.
  unfold foreign_record_attempt, foreign_of. cbn [fl_descriptor delivery_log_descriptor v1_record_attempt v1_context abi_record_attempt].
  rewrite parse_delivery_cases. case_decide; [|done]. destruct (record_attempt _ _ _ l) as [r l']. cbn. by rewrite delivery_status_round_trip.
Qed.

Lemma foreign_outcome_cases d o t res l :
  foreign_record_outcome d o t res (foreign_of l) =
    if decide (valid_delivery d /\ o <> UnknownAfterCrash) then across (record_outcome d o t res l) else refused l.
Proof.
  unfold foreign_record_outcome, foreign_of. pose proof (outcome_round_trip o) as Ho. pose proof (result_round_trip res) as Hres.
  destruct (foreign_encode_outcome o) as [outcome failure], (foreign_encode_result res) as [category bytes]. cbn [fst snd] in Ho, Hres.
  cbn [fl_descriptor delivery_log_descriptor v1_record_outcome v1_context abi_record_outcome].
  rewrite parse_delivery_cases, Ho, Hres. repeat case_decide; try tauto; [done..|].
  destruct (record_outcome _ _ _ _ l) as [r l']. cbn. by rewrite delivery_status_round_trip.
Qed.

Lemma foreign_recover_across t l : foreign_recover_unfinished t (foreign_of l) = across (recover_unfinished t l).
Proof.
  unfold foreign_recover_unfinished, foreign_of. cbn [fl_descriptor delivery_log_descriptor v1_recover v1_context abi_recover_unfinished].
  destruct (recover_unfinished t l) as [[n|[]] l']; done.
Qed.

Lemma foreign_delivery_cases `{!DeliveryLogTyped L} d l :
  foreign_delivery d (foreign_of l) = if decide (valid_delivery d) then across (log_delivery d l) else refused l.
Proof.
  unfold foreign_delivery, foreign_of. cbn [fl_descriptor delivery_log_descriptor v1_query v1_context abi_query_delivery].
  rewrite parse_delivery_cases. case_decide; [|done]. pose proof (log_delivery_typed d l) as Ht.
  destruct (log_delivery d l) as [[[r|]|e] l']; [|done|by destruct e].
  destruct (record_round_trip r (Ht r eq_refl)) as (v & -> & Hv). cbn. by rewrite Hv.
Qed.

(** The operations whose arguments the interface carries. *)
Definition crosses (op : LogOp) : Prop :=
  match op with
  | OpInsert i => valid_route (intent_route i) /\ valid_delivery (intent_delivery i)
  | OpAttempt d _ _ => valid_delivery d
  | OpOutcome d o _ _ => valid_delivery d /\ o <> UnknownAfterCrash
  end.
#[global] Instance crosses_dec op : Decision (crosses op).
Proof. destruct op; cbn; apply _. Defined.

Lemma foreign_apply_cases op l : log_apply op (foreign_of l) = if decide (crosses op) then across (log_apply op l) else refused l.
Proof. destruct op; [apply foreign_insert_cases|apply foreign_attempt_cases|apply foreign_outcome_cases]. Qed.

(** A history of operations, those the interface refuses left out. *)
Lemma foreign_run ops l : log_run ops (foreign_of l) = foreign_of (log_run (filter crosses ops) l).
Proof.
  revert l. induction ops as [|op ops IH]; intros l; [done|]. rewrite filter_cons. cbn. rewrite foreign_apply_cases.
  case_decide; apply IH.
Qed.

(** ** The log as the runtime sees it

    What the egress library holds is always a descriptor of a log. *)
Record LinkedLog := linked { linked_log : L }.

Definition through {A} (op : ForeignDeliveryLog L -> A * ForeignDeliveryLog L) (k : LinkedLog) : A * LinkedLog :=
  let '(r, f) := op (foreign_of (linked_log k)) in (r, linked (default (linked_log k) (v1_context (fl_descriptor f)))).

#[global] Instance LinkedLog_log : DeliveryLog LinkedLog := {
  log_durability k := log_durability (foreign_of (linked_log k));
  insert_intent i := through (insert_intent i);
  record_attempt d n t := through (record_attempt d n t);
  record_outcome d o t res := through (record_outcome d o t res);
  log_delivery d := through (log_delivery d);
  recover_unfinished t := through (recover_unfinished t);
}.

Lemma through_cases {A} (op : ForeignDeliveryLog L -> result DeliveryLogError A * ForeignDeliveryLog L) (P : Prop) `{!Decision P} x k :
  op (foreign_of (linked_log k)) = (if decide P then across x else refused (linked_log k)) ->
  through op k = if decide P then (x.1, linked x.2) else (Err LogInvalidTransition, k).
Proof. unfold through. intros ->. destruct k as [l]. by case_decide. Qed.

Lemma linked_recover t k : recover_unfinished t k = ((recover_unfinished t (linked_log k)).1, linked (recover_unfinished t (linked_log k)).2).
Proof. unfold recover_unfinished at 1. cbn. unfold through. by rewrite foreign_recover_across. Qed.

Context `{!DeliveryLogSpec L, !DeliveryLogTyped L} (persistent : forall l : L, log_durability l = Persistent).

#[local] Abbreviation linked_view k := (log_view (linked_log k)).

Lemma linked_insert_spec i k :
  exists m, prunes (linked_view k) m /\
  match insert_intent i k with
  | (Ok _, k') => m !! intent_delivery i = None /\ linked_view k' = <[intent_delivery i := fresh_record i]> m
  | (Err _, k') => linked_view k' = m
  end.
Proof.
  cbn. rewrite (through_cases _ _ _ _ (foreign_insert_cases i (linked_log k))). case_decide; [|by exists (linked_view k); split; [apply prunes_refl|]].
  pose proof (insert_intent_spec i (linked_log k)) as H1. by destruct (insert_intent i (linked_log k)) as [[]].
Qed.

Lemma linked_attempt_spec d n t k :
  (linked_view (record_attempt d n t k).2 = linked_view k /\ is_ok (record_attempt d n t k).1 = false) \/
  exists r, linked_view k !! d = Some r /\ rec_state r = Pending /\ rec_attempts r < n /\
    linked_view (record_attempt d n t k).2 = <[d := attempted_record r n t]> (linked_view k).
Proof.
  cbn. rewrite (through_cases _ _ _ _ (foreign_attempt_cases d n t (linked_log k))). case_decide; [|by left]. apply record_attempt_spec.
Qed.

Lemma linked_outcome_spec d o t res k :
  (linked_view (record_outcome d o t res k).2 = linked_view k /\ is_ok (record_outcome d o t res k).1 = false) \/
  exists r, linked_view k !! d = Some r /\ rec_state r = Pending /\
    linked_view (record_outcome d o t res k).2 = <[d := terminal_record r o t res]> (linked_view k).
Proof.
  cbn. rewrite (through_cases _ _ _ _ (foreign_outcome_cases d o t res (linked_log k))). case_decide; [|by left]. apply record_outcome_spec.
Qed.

Lemma linked_delivery_spec d k :
  linked_view (log_delivery d k).2 = linked_view k /\ forall o, (log_delivery d k).1 = Ok o -> o = linked_view k !! d.
Proof. cbn. rewrite (through_cases _ _ _ _ (foreign_delivery_cases d (linked_log k))). case_decide; [|done]. apply log_delivery_spec. Qed.

Lemma linked_recover_spec t k :
  log_durability k = Persistent -> is_ok (recover_unfinished t k).1 = true ->
  forall d r, linked_view (recover_unfinished t k).2 !! d = Some r -> rec_state r <> Pending.
Proof. rewrite linked_recover. cbn. intros _. by apply recover_unfinished_spec. Qed.

(** The runtime's guarantees over any log of the contract hold over the interface. *)
Definition LinkedLog_spec : DeliveryLogSpec LinkedLog := {|
  log_view k := linked_view k;
  insert_intent_spec := linked_insert_spec;
  record_attempt_spec := linked_attempt_spec;
  record_outcome_spec := linked_outcome_spec;
  log_delivery_spec := linked_delivery_spec;
  recover_unfinished_spec := linked_recover_spec;
|}.
End linked.
Arguments LinkedLog : clear implicits.

#[global] Instance LinkedSqlLog_spec `{Env : SqlEnv} : DeliveryLogSpec (LinkedLog SqlCipherDeliveryLog) :=
  LinkedLog_spec (L := SqlCipherDeliveryLog) (fun _ => eq_refl).

(** The limits that arrive: the retention is passed in whole seconds. *)
Definition whole_seconds (limits : PersistentDeliveryLogLimits) : PersistentDeliveryLogLimits :=
  mk_delivery_limits (dlog_records limits) (dlog_bytes limits) (from_secs (as_secs (dlog_retention limits))).

Lemma seconds_kept d : 0 <= d - from_secs (as_secs d) < NANOS_PER_SEC.
Proof.
  unfold from_secs, as_secs, NANOS_PER_SEC. pose proof (Z.div_mod d 1000000000 ltac:(lia)).
  pose proof (Z.mod_pos_bound d 1000000000 ltac:(lia)). lia.
Qed.

Lemma whole_seconds_valid limits :
  PersistentDeliveryLogLimits_new (dlog_records limits) (dlog_bytes limits) (dlog_retention limits) = Ok limits ->
  PersistentDeliveryLogLimits_new (dlog_records limits) (dlog_bytes limits) (from_secs (as_secs (dlog_retention limits))) =
    Ok (whole_seconds limits).
Proof.
  unfold PersistentDeliveryLogLimits_new. destruct (negb _) eqn:H1; [done|]. destruct (negb (within (bound_bytes _) _)) eqn:H2; [done|].
  destruct (negb (within (bound_retention _) (dlog_retention limits))) eqn:H3; [done|]. intros _.
  assert (within (bound_retention PERSISTENT_DELIVERY_LOG_BOUNDS) (from_secs (as_secs (dlog_retention limits))) = true) as ->; [|done].
  apply negb_false_iff in H3. clear H1 H2. unfold within, in_range in *. cbn [PERSISTENT_DELIVERY_LOG_BOUNDS bound_retention fst snd] in *.
  unfold from_secs, as_secs, NANOS_PER_SEC in *. bools.
  pose proof (Z.div_mod (dlog_retention limits) 1000000000 ltac:(lia)). pose proof (Z.mod_pos_bound (dlog_retention limits) 1000000000 ltac:(lia)).
  apply andb_true_iff. split; apply Z.leb_le; lia.
Qed.

(** C19: the delivery log crosses the C interface unchanged.  From a store and valid limits the
    egress library derives a log that owns one unit, which its drop gives back, with the same
    limits up to a fraction of a second of retention.  Every operation on it, with identifiers
    that their constructors made, has the effect and the answer of the operation on the log of
    the store: intents, attempts, outcomes, records and errors read the same on both sides,
    although each side has its own tables of codes.  The one outcome the interface does not
    carry, which only recovery may record, is refused and nothing changes; so it stays through
    any history of operations. *)
Theorem delivery_log_crosses_interface `{Env : SqlEnv} store limits :
  PersistentDeliveryLogLimits_new (dlog_records limits) (dlog_bytes limits) (dlog_retention limits) = Ok limits ->
  let '(status, out) := bondry_store_delivery_log_v1 (Some store) (dlog_records limits) (dlog_bytes limits) (as_secs (dlog_retention limits))
    (Some delivery_log_zeroed) in
  let l := mk_sql_log store (whole_seconds limits) in
  foreign_derive (status, default delivery_log_zeroed out) = (Ok (foreign_of l), 0) /\ foreign_drop (foreign_of l) = 1 /\
  0 <= dlog_retention limits - dlog_retention (slog_limits l) < NANOS_PER_SEC /\
  forall history, let f := log_run history (foreign_of l) in let l' := log_run (filter crosses history) l in
    f = foreign_of l' /\ foreign_drop f = 1 /\
    (forall op, log_apply op f = if decide (crosses op) then across (log_apply op l') else (Err LogInvalidTransition, f)) /\
    (forall d, delivery_id_typed d -> log_delivery d f = across (log_delivery d l')) /\
    (forall t, recover_unfinished t f = across (recover_unfinished t l')).
Proof.
  intros Hl. unfold bondry_store_delivery_log_v1. rewrite (whole_seconds_valid _ Hl). cbn zeta. split; [done|]. split; [done|].
  split; [apply seconds_kept|].
  intros history. rewrite foreign_run. split; [done|]. split; [done|]. split; [intros op; apply foreign_apply_cases|].
  split; [|intros t; apply foreign_recover_across]. intros d Hd. change (log_delivery d ?f) with (foreign_delivery d f) at 1.
  rewrite foreign_delivery_cases. rewrite decide_True; [done|]. by apply persistence_typed.
Qed.

(** A delivery is accepted and settled over the interface; an outcome that only recovery may
    record is refused. *)
Module Example.
#[local] Instance ex_sql : SqlEnv := fun _ => false.
Definition store : SqlCipherStore := mk_sql_store false migrate_from_empty None 0.
Definition first : DeliveryId := mk_id (str "first").
Definition history : list LogOp :=
  [OpInsert (mk_intent (mk_id (str "route")) first 1000); OpOutcome first UnknownAfterCrash 1001 None; OpAttempt first 1 1002;
   OpOutcome first (Failed RetryExhausted) 1003 (Some (mk_result_metadata ResultInvalid 7))].

Lemma delivery_log_crosses_interface_witness :
  let l := mk_sql_log store (whole_seconds PersistentDeliveryLogLimits_default) in
  (log_delivery first (log_run history (foreign_of l))).1 =
    Ok (Some (mk_record (mk_intent (mk_id (str "route")) first 1000) 1 (Terminal (Failed RetryExhausted)) 1003
      (Some (mk_result_metadata ResultInvalid 7)))).
Proof.
  destruct (delivery_log_crosses_interface store PersistentDeliveryLogLimits_default eq_refl) as (_ & _ & _ & H).
  destruct (H history) as (_ & _ & _ & Hd & _). cbv zeta in Hd |- *. rewrite (Hd first eq_refl). vm_compute. reflexivity.
Defined.
End Example.
