(* ===== verification/Dedup.v ===== *)
(** * Dedup: replay protection (bondry-delivery-store/src/dedup.rs)

    The data of dedup.rs and the trait [DedupStore] as a class.  [DedupStoreSpec] states what
    the trait's documentation promises, over the map of claims a store holds.  An operation
    that reports an error may or may not have taken effect.  [visit_unknown] takes a callback
    and is modelled with its implementation in [SqlDedup]. *)

From S2P Require Import Prelude Text Identifiers DeliveryStore.

Record TrustedDeliveryIdHash := mk_id_hash { id_hash_bytes : list byte }.

Record DedupKey := mk_dedup_key {
  dk_route : RouteId;
  dk_namespace : VerifierNamespace;
  dk_delivery_hash : TrustedDeliveryIdHash;
}.

Inductive DedupState := InFlight | Completed | Unknown.

Record DedupRecord := mk_dedup_record {
  dr_key : DedupKey;
  dr_state : DedupState;
  dr_updated_at : Z;
}.

Inductive DedupClaim := Claimed | Duplicate (state : DedupState).
Inductive DedupClaimPolicy := RetainCompleted | ExpireCompleted.
Inductive DedupResolution := ResolveCompleted | ResolveRetryAllowed.
Inductive DedupStoreError := DedupCapacityExhausted | DedupNotFound | DedupInvalidTransition | DedupUnavailable.

#[global] Instance TrustedDeliveryIdHash_eq_dec : EqDecision TrustedDeliveryIdHash.
Proof. solve_decision. Defined.
#[global] Instance DedupKey_eq_dec : EqDecision DedupKey.
Proof. solve_decision. Defined.
#[global] Instance DedupState_eq_dec : EqDecision DedupState.
Proof. solve_decision. Defined.
#[global] Instance DedupClaimPolicy_eq_dec : EqDecision DedupClaimPolicy.
Proof. solve_decision. Defined.
#[global] Instance DedupStoreError_eq_dec : EqDecision DedupStoreError.
Proof. solve_decision. Defined.

(** A key as the columns of its row. *)
Definition key_columns (k : DedupKey) : rstr * rstr * list byte :=
  (as_str (dk_route k), as_str (dk_namespace k), id_hash_bytes (dk_delivery_hash k)).
Definition columns_key (x : rstr * rstr * list byte) : DedupKey :=
  mk_dedup_key (mk_id x.1.1) (mk_id x.1.2) (mk_id_hash x.2).
Lemma columns_key_columns k : columns_key (key_columns k) = k.
Proof. by destruct k as [[] [] []]. Qed.
Lemma key_columns_key x : key_columns (columns_key x) = x.
Proof. by destruct x as [[] ]. Qed.
#[global] Instance DedupKey_countable : Countable DedupKey.
Proof. apply (inj_countable' key_columns columns_key). apply columns_key_columns. Qed.

(** The trait [DedupStore]. *)
Class DedupStore (D : Type) := {
  dedup_durability : D -> StoreDurability;
  claim : DedupKey -> DedupClaimPolicy -> Z -> D -> result DedupStoreError DedupClaim * D;
  complete : DedupKey -> Z -> D -> result DedupStoreError unit * D;
  mark_unknown : DedupKey -> Z -> D -> result DedupStoreError unit * D;
  release_claim : DedupKey -> D -> result DedupStoreError unit * D;
  dedup_record : DedupKey -> D -> result DedupStoreError (option DedupRecord) * D;
  recover_in_flight : Z -> D -> result DedupStoreError Z * D;
  resolve_unknown : DedupKey -> DedupResolution -> Z -> D -> result DedupStoreError unit * D;
  clear_completed_before : Z -> D -> result DedupStoreError Z * D;
}.

(** ** The contract *)

Record DedupEntry := mk_entry_of { de_state : DedupState; de_policy : DedupClaimPolicy; de_updated_at : Z }.

Definition with_state (state : DedupState) (at_ : Z) (e : DedupEntry) : DedupEntry := mk_entry_of state (de_policy e) at_.

(** The values a verifier may produce. *)
Definition dedup_key_wf (k : DedupKey) : Prop :=
  RouteId_new (as_str (dk_route k)) = Ok (dk_route k) /\
  VerifierNamespace_new (as_str (dk_namespace k)) = Ok (dk_namespace k) /\
  length (id_hash_bytes (dk_delivery_hash k)) = 32%nat.

(** Some entries that satisfy [P] are gone, everything else is as before. *)
Definition drops (P : DedupEntry -> Prop) (m m' : gmap DedupKey DedupEntry) : Prop :=
  forall k, m' !! k = m !! k \/ m' !! k = None /\ exists e, m !! k = Some e /\ P e.

Definition may_expire (e : DedupEntry) : Prop := de_state e = Completed /\ de_policy e = ExpireCompleted.
Definition may_clear (cutoff : Z) (e : DedupEntry) : Prop := de_state e = Completed /\ de_updated_at e < cutoff.

(** The entry of [k] was in state [from] and is replaced; on an error it may be untouched. *)
Definition moves (from : DedupState) (k : DedupKey) (to : DedupEntry -> option DedupEntry) (m m' : gmap DedupKey DedupEntry)
    (ok : bool) : Prop :=
  (m' = m /\ ok = false) \/
  exists e, m !! k = Some e /\ de_state e = from /\ m' = partial_alter (fun _ => to e) k m.

Definition recovered (at_ : Z) (e : DedupEntry) : DedupEntry :=
  if decide (de_state e = InFlight) then with_state Unknown at_ e else e.

Class DedupStoreSpec (D : Type) `{DedupStore D} := {
  dedup_ok : D -> Prop;
  dedup_view : D -> gmap DedupKey DedupEntry;
  claim_spec k p t d :
    dedup_ok d -> dedup_key_wf k -> 0 <= t <= U64_MAX ->
    let '(r, d') := claim k p t d in
    dedup_ok d' /\ exists m, drops may_expire (dedup_view d) m /\
    match r with
    | Ok Claimed => m !! k = None /\ dedup_view d' = <[k := mk_entry_of InFlight p t]> m
    | Ok (Duplicate state) => (exists e, m !! k = Some e /\ de_state e = state) /\ dedup_view d' = m
    | Err _ => dedup_view d' = m \/ m !! k = None /\ dedup_view d' = <[k := mk_entry_of InFlight p t]> m
    end;
  complete_spec k t d :
    dedup_ok d -> 0 <= t <= U64_MAX ->
    let '(r, d') := complete k t d in
    dedup_ok d' /\ moves InFlight k (fun e => Some (with_state Completed t e)) (dedup_view d) (dedup_view d') (is_ok r);
  mark_unknown_spec k t d :
    dedup_ok d -> 0 <= t <= U64_MAX ->
    let '(r, d') := mark_unknown k t d in
    dedup_ok d' /\ moves InFlight k (fun e => Some (with_state Unknown t e)) (dedup_view d) (dedup_view d') (is_ok r);
  release_claim_spec k d :
    dedup_ok d ->
    let '(r, d') := release_claim k d in
    dedup_ok d' /\ moves InFlight k (fun _ => None) (dedup_view d) (dedup_view d') (is_ok r);
  dedup_record_spec k d :
    dedup_ok d ->
    let '(r, d') := dedup_record k d in
    dedup_ok d' /\ dedup_view d' = dedup_view d /\
    forall o, r = Ok o -> o = (fun e => mk_dedup_record k (de_state e) (de_updated_at e)) <$> dedup_view d !! k;
  recover_in_flight_spec t d :
    dedup_ok d -> 0 <= t <= U64_MAX ->
    let '(r, d') := recover_in_flight t d in
    dedup_ok d' /\ (dedup_view d' = dedup_view d /\ is_ok r = false \/ dedup_view d' = recovered t <$> dedup_view d);
  resolve_unknown_spec k res t d :
    dedup_ok d -> 0 <= t <= U64_MAX ->
    let '(r, d') := resolve_unknown k res t d in
    dedup_ok d' /\
    moves Unknown k (fun e => match res with ResolveCompleted => Some (with_state Completed t e) | ResolveRetryAllowed => None end)
      (dedup_view d) (dedup_view d') (is_ok r);
  clear_completed_before_spec t d :
    dedup_ok d ->
    let '(r, d') := clear_completed_before t d in
    dedup_ok d' /\ drops (may_clear t) (dedup_view d) (dedup_view d') /\
    (is_ok r = true -> forall k e, dedup_view d' !! k = Some e -> ~ may_clear t e);
}.

Lemma drops_refl P m : drops P m m.
Proof. intros k. by left. Qed.

Lemma drops_lookup P m m' k e : drops P m m' -> m !! k = Some e -> ~ P e -> m' !! k = Some e.
Proof. intros Hd He Hn. destruct (Hd k) as [->|(_ & e' & He' & Hp)]; [done|]. rewrite He in He'. by injection He' as <-. Qed.

Lemma drops_subset P m m' k e : drops P m m' -> m' !! k = Some e -> m !! k = Some e.
Proof. intros Hd He. destruct (Hd k) as [<-|(Hn & _)]; congruence. Qed.

Lemma moves_other from k to m m' ok k' : moves from k to m m' ok -> k' <> k -> m' !! k' = m !! k'.
Proof. intros [[-> _]|(e & _ & _ & ->)] Hne; [done|]. by rewrite lookup_partial_alter_ne. Qed.
