(* ===== verification/SqlDedup.v ===== *)
(** * SqlDedup: replay protection in the encrypted store (bondry-store-sqlcipher/src/dedup.rs)

    [SqlCipherDedupStore], an instance of [DedupStore] that meets [DedupStoreSpec], its
    accounting, and the traversal of uncertain claims. *)

From S2P Require Import Prelude Text Identifiers DeliveryStore Dedup Sqlite.

Definition DEDUP_RECORD_BASE_CHARGE_BYTES : Z := 96.

Record SqlCipherDedupStore := mk_sql_dedup {
  sdd_store : SqlCipherStore;
  sdd_limits : DedupStoreLimits;
}.

(** ** Encodings *)

Definition dedup_time (value : Z) : result DedupStoreError Z := ok_or (try_i64 value) DedupInvalidTransition.

Definition dedup_expiration (updated_at : Z) (limits : DedupStoreLimits) : result DedupStoreError Z :=
  retention ← ok_or (try_i64 (as_millis (dedup_retention limits))) DedupInvalidTransition;
  Ok (i64_clamp (updated_at + retention)).

Definition encoded_charge (key : DedupKey) : result DedupStoreError Z :=
  let charge := DEDUP_RECORD_BASE_CHARGE_BYTES + str_len (as_str (dk_route key)) + str_len (as_str (dk_namespace key)) in
  if U64_MAX <? charge then Err DedupUnavailable else ok_or (try_i64 charge) DedupUnavailable.

Definition decode_dedup_state (value : rstr) : result DedupStoreError DedupState :=
  if decide (value = str "in_flight") then Ok InFlight
  else if decide (value = str "completed") then Ok Completed
  else if decide (value = str "unknown") then Ok Unknown
  else Err DedupUnavailable.

(** [RawDedupRecord::validate]. *)
Definition validate_dedup (columns : rstr * rstr * list byte) (row : DedupRow) : result DedupStoreError DedupRecord :=
  route ← map_err (fun _ => DedupUnavailable) (RouteId_new columns.1.1);
  namespace ← map_err (fun _ => DedupUnavailable) (VerifierNamespace_new columns.1.2);
  if negb (Nat.eqb (length columns.2) 32) then Err DedupUnavailable
  else
    updated_at ← ok_or (try_unsigned U64_MAX (dd_updated_at_ms row)) DedupUnavailable;
    state ← decode_dedup_state (dd_state row);
    Ok (mk_dedup_record (mk_dedup_key route namespace (mk_id_hash columns.2)) state updated_at).

(** ** Statements *)

Definition in_state (state : string) (row : DedupRow) : bool := bool_decide (dd_state row = str state).
Definition at_key (key : DedupKey) (state : string) (columns : rstr * rstr * list byte) (row : DedupRow) : bool :=
  bool_decide (columns = key_columns key) && in_state state row.

(** The [CHECK] constraints of [webhook_dedup]. *)
Definition dedup_check (columns : rstr * rstr * list byte) (row : DedupRow) : bool :=
  Nat.eqb (length columns.2) 32
  && (in_state "in_flight" row || in_state "completed" row || in_state "unknown" row)
  && ((dd_automatic_expiry row =? 0) || (dd_automatic_expiry row =? 1))
  && (0 <=? dd_updated_at_ms row) && (96 <=? dd_charged_bytes row)
  && (if in_state "completed" row then Bool.eqb (dd_automatic_expiry row =? 1) (bool_decide (is_Some (dd_expires_at_ms row)))
      else bool_decide (dd_expires_at_ms row = None)).

(** [DELETE FROM webhook_dedup WHERE p] and the number of rows. *)
Definition sql_delete_dedup (p : rstr * rstr * list byte -> DedupRow -> bool) : Statement Z := fun db =>
  let gone := filter (fun x => p x.1 x.2 = true) (t_dedup db) in
  usage ← usage_delete_all WEBHOOK_DEDUP (dd_charged_bytes <$> (map_to_list gone).*2) (t_usage db);
  Ok (Z.of_nat (size gone), set_dedup (filter (fun x => p x.1 x.2 = false) (t_dedup db)) (dedup_sequence db) usage db).

(** [UPDATE webhook_dedup SET f WHERE p] and the number of rows. *)
Definition sql_update_dedup (p : rstr * rstr * list byte -> DedupRow -> bool) (f : DedupRow -> DedupRow) : Statement Z := fun db =>
  let matched := filter (fun x => p x.1 x.2 = true) (t_dedup db) in
  if bool_decide (map_Forall (fun columns row => dedup_check columns (f row) = true) matched)
  then Ok (Z.of_nat (size matched),
           set_dedup (map_imap (fun columns row => Some (if p columns row then f row else row)) (t_dedup db))
             (dedup_sequence db) (t_usage db) db)
  else Err ConstraintViolation.

(** [INSERT INTO webhook_dedup]. *)
Definition sql_insert_dedup (columns : rstr * rstr * list byte) (automatic_expiry updated_at charged : Z) : Statement unit := fun db =>
  let sequence := dedup_sequence db + 1 in
  let row := mk_dedup_row sequence (str "in_flight") automatic_expiry updated_at None charged in
  if bool_decide (is_Some (t_dedup db !! columns)) || negb (dedup_check columns row) then Err ConstraintViolation
  else if I64_MAX <? sequence then Err SqliteFailure
  else usage ← usage_insert_trigger WEBHOOK_DEDUP charged (t_usage db);
       Ok (tt, set_dedup (<[columns := row]> (t_dedup db)) sequence usage db).

Definition expired_claim (now : Z) (_ : rstr * rstr * list byte) (row : DedupRow) : bool :=
  in_state "completed" row && match dd_expires_at_ms row with Some at_ => at_ <=? now | None => false end.

Definition set_completed (updated_at expires_at : Z) (row : DedupRow) : DedupRow :=
  mk_dedup_row (dd_sequence row) (str "completed") (dd_automatic_expiry row) updated_at
    (if dd_automatic_expiry row =? 1 then Some expires_at else None) (dd_charged_bytes row).

Definition set_unknown_claim (updated_at : Z) (row : DedupRow) : DedupRow :=
  mk_dedup_row (dd_sequence row) (str "unknown") (dd_automatic_expiry row) updated_at None (dd_charged_bytes row).

(** ** The operations *)
Section dedup.
Context `{Env : SqlEnv}.

#[local] Abbreviation M := (action SqlCipherStore DedupStoreError).
#[local] Abbreviation unavailable := (fun _ : SqlError => DedupUnavailable).

Definition sdd_transition (key : DedupKey) (update : Statement Z) : M unit :=
  _ ← connection DedupUnavailable;
  transaction unavailable (
    changed ← with_err unavailable (sql update);
    if changed =? 1 then _ ← with_err unavailable commit; lift (Ok tt)
    else
      existing ← with_err unavailable (sql (select (fun db => bool_decide (is_Some (t_dedup db !! key_columns key)))));
      lift (Err (if (existing : bool) then DedupInvalidTransition else DedupNotFound))).

Definition sdd_claim (limits : DedupStoreLimits) (key : DedupKey) (policy : DedupClaimPolicy) (updated_at : Z) : M DedupClaim :=
  updated_at ← lift (dedup_time updated_at);
  _ ← connection DedupUnavailable;
  transaction unavailable (
    _ ← with_err unavailable (sql (sql_delete_dedup (expired_claim updated_at)));
    existing ← with_err unavailable (sql (select (fun db => dd_state <$> t_dedup db !! key_columns key)));
    match existing with
    | Some state =>
        state ← lift (decode_dedup_state state);
        _ ← with_err unavailable commit; lift (Ok (Duplicate state))
    | None =>
        usage ← with_err unavailable (sql (usage_read WEBHOOK_DEDUP));
        charged_bytes ← lift (encoded_charge key);
        if dedup_records limits <=? usage.1 then _ ← with_err unavailable commit; lift (Err DedupCapacityExhausted)
        else
          limit ← lift (ok_or (try_i64 (dedup_bytes limits)) DedupUnavailable);
          if limit <? i64_clamp (usage.2 + charged_bytes) then _ ← with_err unavailable commit; lift (Err DedupCapacityExhausted)
          else
            _ ← with_err unavailable (sql (sql_insert_dedup (key_columns key)
                  (if decide (policy = ExpireCompleted) then 1 else 0) updated_at charged_bytes));
            _ ← with_err unavailable commit; lift (Ok Claimed)
    end).

Definition sdd_complete (limits : DedupStoreLimits) (key : DedupKey) (updated_at : Z) : M unit :=
  updated_at ← lift (dedup_time updated_at);
  expires_at ← lift (dedup_expiration updated_at limits);
  sdd_transition key (sql_update_dedup (at_key key "in_flight") (set_completed updated_at expires_at)).

Definition sdd_mark_unknown (key : DedupKey) (updated_at : Z) : M unit :=
  updated_at ← lift (dedup_time updated_at);
  sdd_transition key (sql_update_dedup (at_key key "in_flight") (set_unknown_claim updated_at)).

Definition sdd_release_claim (key : DedupKey) : M unit :=
  sdd_transition key (sql_delete_dedup (at_key key "in_flight")).

Definition sdd_record (key : DedupKey) : M (option DedupRecord) :=
  _ ← connection DedupUnavailable;
  raw ← with_err unavailable (sql (select (fun db => t_dedup db !! key_columns key)));
  lift (transpose (validate_dedup (key_columns key)) raw).

Definition sdd_recover_in_flight (updated_at : Z) : M Z :=
  updated_at ← lift (dedup_time updated_at);
  _ ← connection DedupUnavailable;
  with_err unavailable (sql (sql_update_dedup (fun _ => in_state "in_flight") (set_unknown_claim updated_at))).

Definition sdd_resolve_unknown (limits : DedupStoreLimits) (key : DedupKey) (resolution : DedupResolution) (updated_at : Z) : M unit :=
  updated_at ← lift (dedup_time updated_at);
  expires_at ← lift (dedup_expiration updated_at limits);
  sdd_transition key match resolution with
    | ResolveCompleted => sql_update_dedup (at_key key "unknown") (set_completed updated_at expires_at)
    | ResolveRetryAllowed => sql_delete_dedup (at_key key "unknown")
    end.

Definition sdd_clear_completed_before (updated_before : Z) : M Z :=
  cutoff ← lift (dedup_time updated_before);
  _ ← connection DedupUnavailable;
  with_err unavailable (sql (sql_delete_dedup (fun _ row => in_state "completed" row && (dd_updated_at_ms row <? cutoff)))).

Definition on_sdd {A} (m : M A) (d : SqlCipherDedupStore) : result DedupStoreError A * SqlCipherDedupStore :=
  let '(r, s) := m (sdd_store d) in (r, mk_sql_dedup s (sdd_limits d)).

#[global] Instance SqlCipherDedupStore_store : DedupStore SqlCipherDedupStore := {
  dedup_durability _ := Persistent;
  claim k p t d := on_sdd (sdd_claim (sdd_limits d) k p t) d;
  complete k t d := on_sdd (sdd_complete (sdd_limits d) k t) d;
  mark_unknown k t := on_sdd (sdd_mark_unknown k t);
  release_claim k := on_sdd (sdd_release_claim k);
  dedup_record k := on_sdd (sdd_record k);
  recover_in_flight t := on_sdd (sdd_recover_in_flight t);
  resolve_unknown k r t d := on_sdd (sdd_resolve_unknown (sdd_limits d) k r t) d;
  clear_completed_before t := on_sdd (sdd_clear_completed_before t);
}.

(** ** Traversal of uncertain claims

    The callback of [visit_unknown] runs without the lock and may itself call the store; it
    is a function on its own state that also returns the operations it performs. *)

Inductive DedupOp :=
| DClaim (key : DedupKey) (policy : DedupClaimPolicy) (at_ : Z)
| DComplete (key : DedupKey) (at_ : Z)
| DMarkUnknown (key : DedupKey) (at_ : Z)
| DRelease (key : DedupKey)
| DRecover (at_ : Z)
| DResolve (key : DedupKey) (resolution : DedupResolution) (at_ : Z)
| DClear (before : Z).

Definition dedup_apply `{DedupStore D} (op : DedupOp) (d : D) : D :=
  match op with
  | DClaim k p t => (claim k p t d).2
  | DComplete k t => (complete k t d).2
  | DMarkUnknown k t => (mark_unknown k t d).2
  | DRelease k => (release_claim k d).2
  | DRecover t => (recover_in_flight t d).2
  | DResolve k r t => (resolve_unknown k r t d).2
  | DClear t => (clear_completed_before t d).2
  end.
Definition dedup_run `{DedupStore D} (ops : list DedupOp) (d : D) : D := foldl (fun d op => dedup_apply op d) d ops.

(** [SELECT_UNKNOWN_CEILING], [SELECT_FIRST_UNKNOWN] and [SELECT_NEXT_UNKNOWN]. *)
Definition sql_ceiling (db : Database) : Z := foldr Z.max 0 (dd_sequence <$> (map_to_list (t_dedup db)).*2).

Definition beyond (cursor : option DedupKey) (columns : rstr * rstr * list byte) : Prop :=
  match cursor with
  | None => True
  | Some k => key_le (key_columns k) columns /\ key_columns k <> columns
  end.
#[global] Instance beyond_dec cursor columns : Decision (beyond cursor columns).
Proof. unfold beyond. destruct cursor; apply _. Defined.

Definition sql_next_unknown (cursor : option DedupKey) (ceiling : Z) (db : Database)
    : option (rstr * rstr * list byte * DedupRow) :=
  head (filter (fun x : rstr * rstr * list byte * DedupRow =>
    in_state "unknown" x.2 = true /\ dd_sequence x.2 <= ceiling /\ beyond cursor x.1) (btree_iter (t_dedup db))).

Definition unknown_scan_ceiling : M Z :=
  _ ← connection DedupUnavailable;
  with_err unavailable (sql (select sql_ceiling)).

Definition next_unknown (cursor : option DedupKey) (ceiling : Z) : M (option DedupRecord) :=
  _ ← connection DedupUnavailable;
  raw ← with_err unavailable (sql (select (sql_next_unknown cursor ceiling)));
  lift (transpose (fun x : rstr * rstr * list byte * DedupRow => validate_dedup x.1 x.2) raw).

(** The loop, and whether it ended within [fuel] rounds. *)
Fixpoint visit_loop {V} (visitor : DedupRecord -> V -> bool * V * list DedupOp) (fuel : nat) (ceiling : Z)
    (cursor : option DedupKey) (v : V) (d : SqlCipherDedupStore)
    : option (result DedupStoreError unit) * V * SqlCipherDedupStore :=
  match fuel with
  | O => (None, v, d)
  | S fuel =>
      match on_sdd (next_unknown cursor ceiling) d with
      | (Err e, d) => (Some (Err e), v, d)
      | (Ok None, d) => (Some (Ok tt), v, d)
      | (Ok (Some record), d) =>
          let '(go_on, v, ops) := visitor record v in
          let d := dedup_run ops d in
          if (go_on : bool) then visit_loop visitor fuel ceiling (Some (dr_key record)) v d else (Some (Ok tt), v, d)
      end
  end.

Definition visit_unknown {V} (visitor : DedupRecord -> V -> bool * V * list DedupOp) (fuel : nat) (v : V) (d : SqlCipherDedupStore)
    : option (result DedupStoreError unit) * V * SqlCipherDedupStore :=
  match on_sdd unknown_scan_ceiling d with
  | (Err e, d) => (Some (Err e), v, d)
  | (Ok ceiling, d) => visit_loop visitor fuel ceiling None v d
  end.

(** ** What the rows stand for *)

Definition row_entry (row : DedupRow) : DedupEntry :=
  mk_entry_of (default Unknown (to_option (decode_dedup_state (dd_state row))))
    (if dd_automatic_expiry row =? 1 then ExpireCompleted else RetainCompleted) (dd_updated_at_ms row).

Definition claims_view (db : Database) : gmap DedupKey DedupEntry :=
  decoded columns_key (fun _ row => Some (row_entry row)) (t_dedup db).

Lemma claims_view_lookup db k : claims_view db !! k = row_entry <$> t_dedup db !! key_columns k.
Proof.
  unfold claims_view. rewrite (decoded_lookup columns_key key_columns) by (apply columns_key_columns || apply key_columns_key).
  by destruct (_ !! _).
Qed.

Lemma validate_dedup_view key row r :
  validate_dedup (key_columns key) row = Ok r -> r = mk_dedup_record key (de_state (row_entry row)) (de_updated_at (row_entry row)).
Proof.
  unfold validate_dedup. intros Hr. apply result_bind_Ok in Hr as (route & Hroute & Hr). apply result_bind_Ok in Hr as (ns & Hns & Hr).
  destruct (negb _); [done|]. apply result_bind_Ok in Hr as (t & Ht & Hr). apply result_bind_Ok in Hr as (st & Hst & Hr).
  injection Hr as <-. unfold row_entry. simpl. rewrite Hst. unfold try_unsigned in Ht. destruct (_ && _) in Ht; [|done]. injection Ht as <-.
  destruct (RouteId_new _) eqn:H1 in Hroute; [|done]. injection Hroute as <-. destruct (VerifierNamespace_new _) eqn:H2 in Hns; [|done].
  injection Hns as <-. unfold RouteId_new, VerifierNamespace_new, PersistenceIdentifier_new in *.
  apply result_bind_Ok in H1 as (? & _ & [= <-]). apply result_bind_Ok in H2 as (? & _ & [= <-]). by destruct key as [[] [] []].
Qed.

(** *** Lookups after a statement *)

Lemma delete_dedup_lookup p db n db' c :
  sql_delete_dedup p db = Ok (n, db') ->
  t_dedup db' !! c = match t_dedup db !! c with Some row => if p c row then None else Some row | None => None end.
Proof.
  unfold sql_delete_dedup. intros (u & _ & Hdb)%result_bind_Ok. injection Hdb as _ <-. simpl. rewrite map_lookup_filter.
  destruct (t_dedup db !! c) as [row|]; [|done]. simpl. by destruct (p c row).
Qed.

Lemma update_dedup_lookup p f db n db' c :
  sql_update_dedup p f db = Ok (n, db') ->
  t_dedup db' !! c = (fun row => if p c row then f row else row) <$> t_dedup db !! c.
Proof.
  unfold sql_update_dedup. case_bool_decide; [|done]. intros [= _ <-]. simpl. rewrite map_lookup_imap.
  by destruct (t_dedup db !! c).
Qed.

(** A statement on one key and one state reports one row exactly when there is one. *)
Lemma at_key_size (key : DedupKey) (state : string) (m : gmap (rstr * rstr * list byte) DedupRow) :
  size (filter (fun x => at_key key state x.1 x.2 = true) m) = 1%nat ->
  exists row, m !! key_columns key = Some row /\ in_state state row = true.
Proof.
  intros Hn. destruct (map_size_ne_0_lookup_1 (filter (fun x => at_key key state x.1 x.2 = true) m)) as (c & row & Hc); [lia|].
  apply map_lookup_filter_Some in Hc as [Hc Hp]. simpl in Hp. unfold at_key in Hp. bools. subst c. eauto.
Qed.

Lemma in_state_entry s st row : decode_dedup_state (str s) = Ok st -> in_state s row = true -> de_state (row_entry row) = st.
Proof. intros Hs Hin. unfold in_state in Hin. bools. unfold row_entry. simpl. by rewrite Hin, Hs. Qed.

Lemma delete_key_moves key s st db db' :
  decode_dedup_state (str s) = Ok st -> sql_delete_dedup (at_key key s) db = Ok (1, db') ->
  moves st key (fun _ => None) (claims_view db) (claims_view db') true.
Proof.
  intros Hs Hdel. right. pose proof Hdel as Hsize. unfold sql_delete_dedup in Hsize.
  apply result_bind_Ok in Hsize as (u & _ & Hsize). injection Hsize as Hsize _.
  destruct (at_key_size key s (t_dedup db)) as (row & Hrow & Hin); [lia|]. exists (row_entry row).
  rewrite claims_view_lookup, Hrow. split; [done|]. split; [by eapply in_state_entry|]. apply map_eq. intros k.
  rewrite claims_view_lookup, (delete_dedup_lookup _ _ _ _ _ Hdel). destruct (decide (k = key)) as [-> |Hne].
  - rewrite lookup_partial_alter_eq, Hrow. unfold at_key. by rewrite bool_decide_true, Hin.
  - rewrite lookup_partial_alter_ne, claims_view_lookup by done. destruct (t_dedup db !! key_columns k) as [row'|]; [|done].
    unfold at_key. rewrite bool_decide_false; [done|]. intros Heq%(f_equal columns_key). rewrite !columns_key_columns in Heq. done.
Qed.

Lemma update_key_moves key s st f to db db' :
  decode_dedup_state (str s) = Ok st -> sql_update_dedup (at_key key s) f db = Ok (1, db') ->
  (forall row, t_dedup db !! key_columns key = Some row -> row_entry (f row) = to (row_entry row)) ->
  moves st key (fun e => Some (to e)) (claims_view db) (claims_view db') true.
Proof.
  intros Hs Hup Hto. right. pose proof Hup as Hsize. unfold sql_update_dedup in Hsize. destruct (bool_decide _) in Hsize; [|done].
  injection Hsize as Hsize _. destruct (at_key_size key s (t_dedup db)) as (row & Hrow & Hin); [lia|]. exists (row_entry row).
  rewrite claims_view_lookup, Hrow. split; [done|]. split; [by eapply in_state_entry|]. apply map_eq. intros k.
  rewrite claims_view_lookup, (update_dedup_lookup _ _ _ _ _ _ Hup). destruct (decide (k = key)) as [-> |Hne].
  - rewrite lookup_partial_alter_eq, Hrow. simpl. unfold at_key. rewrite bool_decide_true, Hin by done. simpl. by rewrite Hto.
  - rewrite lookup_partial_alter_ne, claims_view_lookup by done. destruct (t_dedup db !! key_columns k) as [row'|]; [|done].
    unfold at_key. rewrite bool_decide_false; [done|]. intros Heq%(f_equal columns_key). rewrite !columns_key_columns in Heq. done.
Qed.

Lemma set_completed_entry at_ expires row : row_entry (set_completed at_ expires row) = with_state Completed at_ (row_entry row).
Proof. done. Qed.
Lemma set_unknown_entry at_ row : row_entry (set_unknown_claim at_ row) = with_state Unknown at_ (row_entry row).
Proof. done. Qed.

(** *** One lemma per operation, whichever statement fails *)

Lemma sdd_transition_runs (Q : result DedupStoreError unit -> Database -> Prop) key update s :
  (forall e, Q (Err e) (sq_db s)) ->
  (forall db, update (sq_db s) = Ok (1, db) -> Q (Ok tt) db) ->
  runs (sdd_transition key update) Q s.
Proof.
  intros He HQ. unfold sdd_transition. tx_step; [done|]. tx_step; [done|]. tx_step; [done|].
  destruct (update (sq_db s)) as [[n db]|]; [|done]. destruct (Z.eqb_spec n 1) as [->|]; [by tx_step; auto|]. tx_step; [done|]. by tx_step.
Qed.

Lemma dedup_time_ok at_ x : dedup_time at_ = Ok x -> x = at_.
Proof. unfold dedup_time. destruct (try_i64 at_) as [y|] eqn:Hy; [|done]. apply try_i64_Some in Hy as [-> _]. by intros [= ->]. Qed.

Lemma sdd_claim_runs (Q : result DedupStoreError DedupClaim -> Database -> Prop) limits key policy at_ s :
  (forall e, Q (Err e) (sq_db s)) ->
  (forall n db1, dedup_time at_ = Ok at_ -> sql_delete_dedup (expired_claim at_) (sq_db s) = Ok (n, db1) ->
    match t_dedup db1 !! key_columns key with
    | Some row => forall state, decode_dedup_state (dd_state row) = Ok state -> Q (Ok (Duplicate state)) db1
    | None => forall u charged, usage_read WEBHOOK_DEDUP db1 = Ok (u, db1) -> encoded_charge key = Ok charged ->
        if (dedup_records limits <=? u.1) || (dedup_bytes limits <? i64_clamp (u.2 + charged)) then Q (Err DedupCapacityExhausted) db1
        else forall db2, sql_insert_dedup (key_columns key) (if decide (policy = ExpireCompleted) then 1 else 0) at_ charged db1 = Ok (tt, db2) ->
          Q (Ok Claimed) db2
    end) ->
  runs (sdd_claim limits key policy at_) Q s.
Proof.
  intros He HQ. unfold sdd_claim. tx_step. destruct (dedup_time at_) as [x|] eqn:Hx; [|done]. apply dedup_time_ok in Hx as Hx'. subst x.
  tx_step; [done|]. tx_step; [done|]. tx_step; [done|]. destruct (sql_delete_dedup _ _) as [[n db1]|] eqn:Hdel; [|done].
  specialize (HQ n db1 eq_refl eq_refl). tx_step; [done|]. unfold select. destruct (t_dedup db1 !! key_columns key) as [row|]; simpl.
  { tx_step. destruct (decode_dedup_state (dd_state row)); [|done]. tx_step; auto. }
  tx_step; [done|]. destruct (usage_read WEBHOOK_DEDUP db1) as [[u db1']|] eqn:Hu; [|done].
  assert (db1' = db1) as -> by (unfold usage_read in Hu; repeat case_match; congruence). tx_step.
  destruct (encoded_charge key) as [charged|]; [|done]. specialize (HQ u charged eq_refl eq_refl).
  destruct (dedup_records limits <=? u.1); [by tx_step|]. tx_step.
  destruct (try_i64 (dedup_bytes limits)) as [limit|] eqn:Hlim; simpl; [|done]. apply try_i64_Some in Hlim as [-> _]. simpl in HQ.
  destruct (dedup_bytes limits <? _); [by tx_step|]. tx_step; [done|].
  destruct (sql_insert_dedup _ _ _ _ db1) as [[[] db2]|]; [|done]. tx_step; auto.
Qed.

(** ** Accounting and typing *)

Definition zsum (l : list Z) : Z := foldr Z.add 0 l.

#[global] Instance zsum_proper : Proper ((≡ₚ) ==> (=)) zsum.
Proof. intros l k Hlk. unfold zsum. induction Hlk; simpl; lia. Qed.

Lemma zsum_app l k : zsum (l ++ k) = zsum l + zsum k.
Proof. unfold zsum. induction l as [|x l IH]; simpl; lia. Qed.

#[local] Abbreviation Table := (gmap (rstr * rstr * list byte) DedupRow).

Definition charges (m : Table) : list Z := dd_charged_bytes <$> (map_to_list m).*2.

Lemma charges_insert (c : rstr * rstr * list byte) (row : DedupRow) (m : Table) : m !! c = None -> charges (<[c := row]> m) ≡ₚ dd_charged_bytes row :: charges m.
Proof. intros Hc. unfold charges. by rewrite map_to_list_insert. Qed.

Lemma length_charges (m : Table) : length (charges m) = size m.
Proof. unfold charges. by rewrite !length_fmap, length_map_to_list. Qed.

Lemma charges_partition (p : rstr * rstr * list byte -> DedupRow -> bool) (m : Table) :
  charges m ≡ₚ charges (filter (fun x => p x.1 x.2 = true) m) ++ charges (filter (fun x => p x.1 x.2 = false) m).
Proof.
  induction m as [|c row m Hc IH] using map_ind; [done|].
  assert (forall b, filter (fun x => p x.1 x.2 = b) m !! c = None) as Hn by (intros b; apply map_lookup_filter_None; auto).
  rewrite charges_insert, IH, !map_filter_insert by done. simpl. destruct (p c row) eqn:Hp; do 2 (case_decide; try congruence).
  - by rewrite charges_insert, delete_id by done.
  - rewrite charges_insert, delete_id by done. by rewrite Permutation_middle.
Qed.

(** The charge of a row never changes. *)
Lemma charges_update (g : rstr * rstr * list byte -> DedupRow -> DedupRow) (m : Table) :
  (forall c row, dd_charged_bytes (g c row) = dd_charged_bytes row) ->
  charges (map_imap (fun c row => Some (g c row)) m) ≡ₚ charges m.
Proof.
  intros Hg. induction m as [|c row m Hc IH] using map_ind; [by rewrite map_imap_empty|].
  rewrite map_imap_insert. simpl. rewrite !charges_insert, IH, Hg; [done|done|].
  by rewrite map_lookup_imap, Hc.
Qed.

Definition dedup_row_ok (c : rstr * rstr * list byte) (row : DedupRow) : Prop :=
  dedup_check c row = true /\ exists r, validate_dedup c row = Ok r.

(** Every row keeps its constraints and reads back, the counters are exact, and sequence
    numbers were all issued. *)
Definition dedup_db_ok (db : Database) : Prop :=
  map_Forall dedup_row_ok (t_dedup db) /\
  t_usage db !! WEBHOOK_DEDUP = Some (Z.of_nat (size (t_dedup db)), zsum (charges (t_dedup db))) /\
  zsum (charges (t_dedup db)) <= I64_MAX /\
  0 <= dedup_sequence db /\ map_Forall (fun _ row => dd_sequence row <= dedup_sequence db) (t_dedup db).

Lemma zsum_bound l : Forall (fun c => 96 <= c) l -> 96 * Z.of_nat (length l) <= zsum l.
Proof. unfold zsum. induction 1; simpl; [done|]. lia. Qed.

Lemma row_ok_charge c row : dedup_row_ok c row -> 96 <= dd_charged_bytes row.
Proof. intros [Hc _]. unfold dedup_check in Hc. bools; lia. Qed.

Lemma charges_bound (m : Table) : map_Forall dedup_row_ok m -> Forall (fun c => 96 <= c) (charges m).
Proof.
  intros Hm. apply Forall_fmap, Forall_fmap, Forall_forall. intros [c row] Hin%elem_of_map_to_list.
  by eapply row_ok_charge, Hm.
Qed.

Lemma dedup_usage_check n b : 0 <= n -> 96 * n <= b -> b <= I64_MAX -> (n = 0 -> b = 0) -> usage_check WEBHOOK_DEDUP (n, b) = true.
Proof.
  intros Hn Hb Hmax Hz. unfold usage_check. simpl. rewrite andb_true_r.
  rewrite !andb_true_iff, orb_true_iff, !in_i64_spec, !Z.leb_le, negb_true_iff, Z.eqb_neq, Z.eqb_eq. unfold I64_MIN, I64_MAX in *. lia.
Qed.

Lemma dedup_delete_all (l : list Z) (u : gmap rstr (Z * Z)) (k rest : Z) :
  u !! WEBHOOK_DEDUP = Some (Z.of_nat (length l) + k, zsum l + rest) -> Forall (fun c => 96 <= c) l ->
  0 <= k -> 96 * k <= rest -> (k = 0 -> rest = 0) -> zsum l + rest <= I64_MAX ->
  usage_delete_all WEBHOOK_DEDUP l u = Ok (<[WEBHOOK_DEDUP := (k, rest)]> u).
Proof.
  intros Hu Hl Hk Hrest Hz Hmax. revert u Hu Hmax. induction Hl as [|c l Hc Hl IH]; intros u Hu Hmax.
  { simpl. by rewrite insert_id. }
  cbn [usage_delete_all length zsum foldr] in *. fold (zsum l) in *. pose proof (zsum_bound l Hl).
  unfold usage_delete_trigger, usage_update. rewrite Hu.
  replace (Z.of_nat (S (length l)) + k + -1) with (Z.of_nat (length l) + k) by lia.
  replace (c + zsum l + rest + - c) with (zsum l + rest) by lia.
  rewrite dedup_usage_check; [|lia..|intros; destruct l; [cbn in *; lia|cbn [length] in *; lia]]. simpl.
  rewrite IH; [by rewrite insert_insert_eq|by rewrite lookup_insert_eq|lia].
Qed.

Lemma delete_dedup_ok p db :
  dedup_db_ok db -> exists db', sql_delete_dedup p db = Ok (Z.of_nat (size (filter (fun x => p x.1 x.2 = true) (t_dedup db))), db') /\
    dedup_db_ok db' /\ (size (t_dedup db') <= size (t_dedup db))%nat /\ zsum (charges (t_dedup db')) <= zsum (charges (t_dedup db)) /\
    dedup_sequence db' = dedup_sequence db.
Proof.
  intros (Hrows & Hu & Hmax & Hpos & Hseq). unfold sql_delete_dedup. fold (charges (filter (fun x => p x.1 x.2 = true) (t_dedup db))).
  set (gone := filter (fun x => p x.1 x.2 = true) (t_dedup db)). set (kept := filter (fun x => p x.1 x.2 = false) (t_dedup db)).
  assert (map_Forall dedup_row_ok gone) as Hgone by (intros c row [? _]%map_lookup_filter_Some; by apply Hrows).
  assert (map_Forall dedup_row_ok kept) as Hkept by (intros c row [? _]%map_lookup_filter_Some; by apply Hrows).
  pose proof (charges_partition p (t_dedup db)) as Hpart. fold gone kept in Hpart.
  pose proof (zsum_proper _ _ Hpart) as Hsum. rewrite zsum_app in Hsum.
  pose proof (Permutation_length Hpart) as Hlen. rewrite length_app, !length_charges in Hlen.
  pose proof (zsum_bound _ (charges_bound _ Hkept)) as Hbk. pose proof (zsum_bound _ (charges_bound _ Hgone)) as Hbg.
  rewrite length_charges in Hbk, Hbg.
  rewrite (dedup_delete_all (charges gone) (t_usage db) (Z.of_nat (size kept)) (zsum (charges kept))).
  - simpl. eexists. split; [done|]. unfold dedup_db_ok. simpl. fold kept. rewrite lookup_insert_eq. split_and!; try done; try lia.
    intros c row [? _]%map_lookup_filter_Some. by eapply Hseq.
  - rewrite Hu, length_charges. f_equal. f_equal; lia.
  - by apply charges_bound.
  - lia.
  - lia.
  - intros Hz. assert (size kept = 0%nat) as Hs by lia. apply map_size_empty_inv in Hs. by rewrite Hs.
  - lia.
Qed.

Lemma update_dedup_ok p f db n db' :
  dedup_db_ok db -> sql_update_dedup p f db = Ok (n, db') ->
  (forall row, dd_charged_bytes (f row) = dd_charged_bytes row /\ dd_sequence (f row) = dd_sequence row) ->
  (forall c row, dedup_row_ok c row -> dedup_check c (f row) = true -> dedup_row_ok c (f row)) ->
  dedup_db_ok db' /\ size (t_dedup db') = size (t_dedup db) /\ zsum (charges (t_dedup db')) = zsum (charges (t_dedup db)) /\
  dedup_sequence db' = dedup_sequence db.
Proof.
  intros (Hrows & Hu & Hmax & Hpos & Hseq) Hup Hf Hrow. unfold sql_update_dedup in Hup. case_bool_decide as Hall; [|done]. injection Hup as _ <-.
  set (m' := map_imap _ _).
  assert (charges m' ≡ₚ charges (t_dedup db)) as Hch by (apply charges_update; intros c row; destruct (p c row); [apply Hf|done]).
  assert (size m' = size (t_dedup db)) as Hsize by by rewrite <-!length_charges, Hch.
  unfold dedup_db_ok. simpl. rewrite Hsize, Hch. split_and!; try done.
  - intros c row Hc. unfold m' in Hc. rewrite map_lookup_imap in Hc. destruct (t_dedup db !! c) as [row0|] eqn:Hc0; [|done].
    injection Hc as <-. pose proof (Hrows _ _ Hc0). destruct (p c row0) eqn:Hp; [|done]. apply Hrow; [done|].
    apply (Hall c), map_lookup_filter_Some. done.
  - intros c row Hc. unfold m' in Hc. rewrite map_lookup_imap in Hc. destruct (t_dedup db !! c) as [row0|] eqn:Hc0; [|done].
    injection Hc as <-. apply Hseq in Hc0. destruct (p c row0); [|done]. by rewrite (proj2 (Hf row0)).
Qed.

Lemma validate_time c row state at_ automatic expires :
  dedup_row_ok c row -> 0 <= at_ <= U64_MAX -> is_ok (decode_dedup_state state) = true ->
  exists r, validate_dedup c (mk_dedup_row (dd_sequence row) state automatic at_ expires (dd_charged_bytes row)) = Ok r.
Proof.
  intros (_ & r & Hr) Hat Hs. unfold validate_dedup in *. simpl.
  apply result_bind_Ok in Hr as (route & -> & Hr). apply result_bind_Ok in Hr as (ns & -> & Hr). simpl.
  destruct (Nat.eqb _ _); [|done]. simpl. unfold try_unsigned. rewrite (proj2 (Z.leb_le 0 at_)), (proj2 (Z.leb_le at_ _)) by lia. simpl.
  destruct (decode_dedup_state state); [|done]. by eexists.
Qed.

Lemma set_completed_ok c row at_ expires :
  0 <= at_ <= U64_MAX -> dedup_row_ok c row -> dedup_check c (set_completed at_ expires row) = true ->
  dedup_row_ok c (set_completed at_ expires row).
Proof. intros Hat Hrow Hc. split; [done|]. by apply validate_time. Qed.

Lemma set_unknown_ok c row at_ :
  0 <= at_ <= U64_MAX -> dedup_row_ok c row -> dedup_check c (set_unknown_claim at_ row) = true ->
  dedup_row_ok c (set_unknown_claim at_ row).
Proof. intros Hat Hrow Hc. split; [done|]. by apply validate_time. Qed.

Lemma insert_dedup_ok key policy at_ charged db db' :
  dedup_db_ok db -> dedup_key_wf key -> 0 <= at_ <= U64_MAX -> zsum (charges (t_dedup db)) + charged <= I64_MAX ->
  sql_insert_dedup (key_columns key) (if decide (policy = ExpireCompleted) then 1 else 0) at_ charged db = Ok (tt, db') ->
  dedup_db_ok db' /\ claims_view db' = <[key := mk_entry_of InFlight policy at_]> (claims_view db) /\ claims_view db !! key = None /\
  size (t_dedup db') = S (size (t_dedup db)) /\ zsum (charges (t_dedup db')) = charged + zsum (charges (t_dedup db)) /\
  dedup_sequence db' = dedup_sequence db + 1.
Proof.
  intros (Hrows & Hu & Hmax & Hpos & Hseq) (Hroute & Hns & Hhash) Hat Hsum. unfold sql_insert_dedup.
  case_bool_decide as Hex; [done|]. simpl orb. destruct (dedup_check _ _) eqn:Hc; [|done]. simpl negb. cbv iota.
  destruct (I64_MAX <? _); [done|]. intros (u & Hins & Hdb)%result_bind_Ok. injection Hdb as <-.
  assert (t_dedup db !! key_columns key = None) as Hnone by (destruct (t_dedup db !! key_columns key); [destruct Hex; by eexists|done]).
  unfold usage_insert_trigger, usage_update in Hins. rewrite Hu in Hins. destruct (usage_check _ _); [|done]. injection Hins as <-.
  set (row := mk_dedup_row _ _ _ _ _ _) in *.
  pose proof (zsum_proper _ _ (charges_insert _ row _ Hnone)) as Hz. cbn [zsum foldr] in Hz. fold (zsum (charges (t_dedup db))) in Hz.
  change (dd_charged_bytes row) with charged in Hz. unfold dedup_db_ok. simpl. rewrite lookup_insert_eq, !map_size_insert_None by done.
  split_and!; try done.
  - apply map_Forall_insert_2; [|done]. split; [done|]. unfold validate_dedup. simpl. rewrite Hroute, Hns. simpl. rewrite Hhash. simpl.
    unfold try_unsigned. rewrite (proj2 (Z.leb_le 0 at_)), (proj2 (Z.leb_le at_ _)) by lia. by eexists.
  - f_equal. f_equal; [lia|]. rewrite Hz. lia.
  - rewrite Hz. lia.
  - lia.
  - apply map_Forall_insert_2; [simpl; lia|]. intros c r Hr. apply Hseq in Hr. lia.
  - unfold claims_view. simpl. rewrite (decoded_insert columns_key key_columns) with (v := row_entry row)
      by (done || apply columns_key_columns || apply key_columns_key).
    rewrite columns_key_columns. f_equal. unfold row_entry. simpl. by destruct policy.
  - by rewrite claims_view_lookup, Hnone.
Qed.

Definition dedup_limits_ok (limits : DedupStoreLimits) : Prop :=
  DedupStoreLimits_new (dedup_records limits) (dedup_bytes limits) (dedup_retention limits) = Ok limits.

Lemma dedup_limits_bounds limits :
  dedup_limits_ok limits -> 1000 <= dedup_records limits <= 1000000 /\ 2 ^ 20 <= dedup_bytes limits <= 2 ^ 27.
Proof.
  unfold dedup_limits_ok, DedupStoreLimits_new, within. intros Hl.
  do 2 (destruct (in_range _ _ _) eqn:? in Hl; [|done]; cbn [negb] in Hl). bools.
  unfold bound_records, bound_bytes, DEDUP_STORE_BOUNDS in *. simpl in *. lia.
Qed.

(** The records and the bytes charged for them are within the limits. *)
Definition dedup_within (limits : DedupStoreLimits) (db : Database) : Prop :=
  Z.of_nat (size (t_dedup db)) <= dedup_records limits /\ zsum (charges (t_dedup db)) <= dedup_bytes limits.

(** How the table evolves: it stays well formed and within its limits, and a row either has
    the sequence number it had or one that was not issued before. *)
Record evolves (limits : DedupStoreLimits) (db db' : Database) : Prop := {
  evolves_ok : dedup_db_ok db -> dedup_db_ok db';
  evolves_within : dedup_within limits db -> dedup_within limits db';
  evolves_sequence : dedup_sequence db <= dedup_sequence db';
  evolves_rows c row : t_dedup db' !! c = Some row ->
    dedup_sequence db < dd_sequence row \/ exists old, t_dedup db !! c = Some old /\ dd_sequence old = dd_sequence row;
}.

Lemma evolves_refl limits db : evolves limits db db.
Proof. split; try done. eauto. Qed.

Lemma evolves_trans limits db1 db2 db3 : evolves limits db1 db2 -> evolves limits db2 db3 -> evolves limits db1 db3.
Proof.
  intros [Hok1 Hw1 Hs1 Hr1] [Hok2 Hw2 Hs2 Hr2]. split; auto with lia. intros c row Hrow.
  destruct (Hr2 _ _ Hrow) as [?|(old & Hold & Heq)]; [left; lia|]. destruct (Hr1 _ _ Hold) as [?|(old' & ? & ?)]; [left; lia|].
  right. exists old'. split; [done|congruence].
Qed.

Lemma delete_evolves limits p db n db' : dedup_db_ok db -> sql_delete_dedup p db = Ok (n, db') -> evolves limits db db'.
Proof.
  intros Hok Hdel. destruct (delete_dedup_ok p db Hok) as (db1 & Hdel1 & Hok1 & Hsize & Hsum & Hseq). rewrite Hdel in Hdel1.
  injection Hdel1 as _ ->. split; [done|unfold dedup_within; lia|lia|]. intros c row. rewrite (delete_dedup_lookup _ _ _ _ _ Hdel).
  destruct (t_dedup db !! c) as [row0|]; [|done]. destruct (p c row0); [done|]. intros [= <-]. eauto.
Qed.

Lemma update_evolves limits p f db n db' :
  dedup_db_ok db -> sql_update_dedup p f db = Ok (n, db') ->
  (forall row, dd_charged_bytes (f row) = dd_charged_bytes row /\ dd_sequence (f row) = dd_sequence row) ->
  (forall c row, dedup_row_ok c row -> dedup_check c (f row) = true -> dedup_row_ok c (f row)) ->
  evolves limits db db'.
Proof.
  intros Hok Hup Hf Hrow. destruct (update_dedup_ok _ _ _ _ _ Hok Hup Hf Hrow) as (Hok' & Hsize & Hsum & Hseq).
  split; [done|unfold dedup_within; lia|lia|]. intros c row. rewrite (update_dedup_lookup _ _ _ _ _ _ Hup).
  destruct (t_dedup db !! c) as [row0|]; [|done]. intros [= <-]. right. exists row0. split; [done|].
  destruct (p c row0); [|done]. symmetry. apply Hf.
Qed.

Lemma dedup_usage_read db :
  dedup_db_ok db -> usage_read WEBHOOK_DEDUP db = Ok ((Z.of_nat (size (t_dedup db)), zsum (charges (t_dedup db))), db).
Proof.
  intros (Hrows & Hu & Hmax & _). unfold usage_read. rewrite Hu, decide_False, bool_decide_false by done.
  pose proof (zsum_bound _ (charges_bound _ Hrows)) as Hb. rewrite length_charges in Hb.
  set (n := size (t_dedup db)) in *. set (b := zsum (charges (t_dedup db))) in *.
  assert (in_i64 (Z.of_nat n * 96) = true) as -> by (apply in_i64_spec; unfold I64_MIN, I64_MAX in *; lia). simpl.
  rewrite (proj2 (Z.ltb_ge (Z.of_nat n) 0)), (proj2 (Z.ltb_ge b _)) by lia. simpl. rewrite orb_false_r.
  destruct (Z.eqb_spec (Z.of_nat n) 0) as [Hn|]; [|done]. assert (n = 0%nat) as Hn' by lia. unfold n in Hn'. apply map_size_empty_inv in Hn'.
  unfold b. by rewrite Hn'.
Qed.

Lemma expired_may_expire at_ db n db' :
  dedup_db_ok db -> sql_delete_dedup (expired_claim at_) db = Ok (n, db') -> drops may_expire (claims_view db) (claims_view db').
Proof.
  intros (Hrows & _) Hdel k. rewrite !claims_view_lookup, (delete_dedup_lookup _ _ _ _ _ Hdel).
  destruct (t_dedup db !! key_columns k) as [row|] eqn:Hk; [|by left]. destruct (expired_claim _ _ row) eqn:He; [|by left].
  right. split; [done|]. exists (row_entry row). split; [done|]. destruct (Hrows _ _ Hk) as [Hc _].
  unfold expired_claim in He. bools. split; [by apply (in_state_entry "completed")|]. unfold dedup_check in Hc. bools; rewrite H in *;
    destruct (dd_expires_at_ms row); try done; unfold row_entry; simpl; by destruct (dd_automatic_expiry row =? 1).
Qed.

Lemma insert_dedup_rows c expiry at_ charged db db' :
  sql_insert_dedup c expiry at_ charged db = Ok (tt, db') ->
  exists row, dd_sequence row = dedup_sequence db + 1 /\ t_dedup db' = <[c := row]> (t_dedup db).
Proof.
  unfold sql_insert_dedup. destruct (_ || _); [done|]. destruct (I64_MAX <? _); [done|].
  intros (u & _ & Hdb)%result_bind_Ok. injection Hdb as <-. eexists. split; [|done]. done.
Qed.

Lemma encoded_charge_pos key charged : encoded_charge key = Ok charged -> 96 <= charged <= I64_MAX.
Proof.
  unfold encoded_charge. destruct (U64_MAX <? _); [done|]. destruct (try_i64 _) as [x|] eqn:Hx; [|done]. intros [= <-].
  apply try_i64_Some in Hx as [-> Hx]. unfold DEDUP_RECORD_BASE_CHARGE_BYTES in *.
  pose proof (str_len_nonneg (as_str (dk_route key))). pose proof (str_len_nonneg (as_str (dk_namespace key))). lia.
Qed.

(** What a claim did. *)
Definition claim_post (key : DedupKey) (policy : DedupClaimPolicy) (at_ : Z) (m m' : gmap DedupKey DedupEntry)
    (r : result DedupStoreError DedupClaim) : Prop :=
  match r with
  | Ok Claimed => m !! key = None /\ m' = <[key := mk_entry_of InFlight policy at_]> m
  | Ok (Duplicate state) => (exists e, m !! key = Some e /\ de_state e = state) /\ m' = m
  | Err _ => m' = m
  end.

Lemma sdd_claim_spec limits key policy at_ s :
  dedup_db_ok (sq_db s) -> dedup_limits_ok limits -> dedup_key_wf key -> 0 <= at_ <= U64_MAX ->
  runs (sdd_claim limits key policy at_) (fun r db =>
    evolves limits (sq_db s) db /\
    exists m, drops may_expire (claims_view (sq_db s)) m /\ claim_post key policy at_ m (claims_view db) r) s.
Proof.
  intros Hok Hlim Hkey Hat. destruct (dedup_limits_bounds _ Hlim) as (Hrec & Hbytes). apply sdd_claim_runs.
  { intros e. split; [apply evolves_refl|]. exists (claims_view (sq_db s)). split; [apply drops_refl|done]. }
  intros n db1 _ Hdel. pose proof (delete_evolves limits _ _ _ _ Hok Hdel) as Hev. pose proof (evolves_ok _ _ _ Hev Hok) as Hok1.
  pose proof (expired_may_expire _ _ _ _ Hok Hdel) as Hdrop. destruct (t_dedup db1 !! key_columns key) as [row|] eqn:Hrow.
  { intros state Hstate. split; [done|]. exists (claims_view db1). split; [done|]. split; [|done].
    rewrite claims_view_lookup, Hrow. eexists. split; [done|]. unfold row_entry. simpl. by rewrite Hstate. }
  intros u charged Hu Hch. rewrite (dedup_usage_read _ Hok1) in Hu. injection Hu as <-. simpl fst. simpl snd.
  destruct (_ || _) eqn:Hcap; [split; [done|]; by exists (claims_view db1)|]. bools.
  apply encoded_charge_pos in Hch. intros db2 Hins.
  assert (zsum (charges (t_dedup db1)) + charged <= dedup_bytes limits) as Hroom
    by (destruct Hok1 as (_ & _ & ? & _); unfold i64_clamp, I64_MIN, I64_MAX in *; lia).
  assert (zsum (charges (t_dedup db1)) + charged <= I64_MAX) as Hfits by (unfold I64_MAX; lia).
  destruct (insert_dedup_ok _ _ _ _ _ _ Hok1 Hkey Hat Hfits Hins) as (Hok2 & Hview & Hnone & Hsize & Hsum & Hseq2).
  split; [|by exists (claims_view db1)]. eapply evolves_trans; [exact Hev|]. split; [done|unfold dedup_within; lia|lia|].
  destruct (insert_dedup_rows _ _ _ _ _ _ Hins) as (row & Hrs & Hrows). intros c row2. rewrite Hrows.
  destruct (decide (c = key_columns key)) as [-> |Hne].
  - rewrite lookup_insert_eq. intros [= <-]. left. lia.
  - rewrite lookup_insert_ne by done. eauto.
Qed.

(** The transitions of one claim. *)
Definition move_post (limits : DedupStoreLimits) (st : DedupState) (key : DedupKey) (to : DedupEntry -> option DedupEntry)
    (db0 : Database) (r : result DedupStoreError unit) (db : Database) : Prop :=
  evolves limits db0 db /\ moves st key to (claims_view db0) (claims_view db) (is_ok r).

Lemma move_post_err limits st key to db e : move_post limits st key to db (Err e) db.
Proof. split; [apply evolves_refl|by left]. Qed.

Lemma sdd_complete_spec limits key at_ s :
  dedup_db_ok (sq_db s) -> 0 <= at_ <= U64_MAX ->
  runs (sdd_complete limits key at_) (move_post limits InFlight key (fun e => Some (with_state Completed at_ e)) (sq_db s)) s.
Proof.
  intros Hok Hat. unfold sdd_complete. tx_step. destruct (dedup_time at_) as [x|] eqn:Hx; [|apply move_post_err].
  apply dedup_time_ok in Hx as ->. tx_step. destruct (dedup_expiration at_ limits) as [expires|]; [|apply move_post_err].
  apply sdd_transition_runs; [intros e; apply move_post_err|]. intros db Hup. split.
  - eapply update_evolves; [done|exact Hup|done|]. intros c row. by apply set_completed_ok.
  - by eapply update_key_moves; [..|exact Hup|].
Qed.

Lemma sdd_mark_unknown_spec limits key at_ s :
  dedup_db_ok (sq_db s) -> 0 <= at_ <= U64_MAX ->
  runs (sdd_mark_unknown key at_) (move_post limits InFlight key (fun e => Some (with_state Unknown at_ e)) (sq_db s)) s.
Proof.
  intros Hok Hat. unfold sdd_mark_unknown. tx_step. destruct (dedup_time at_) as [x|] eqn:Hx; [|apply move_post_err].
  apply dedup_time_ok in Hx as ->. apply sdd_transition_runs; [intros e; apply move_post_err|]. intros db Hup. split.
  - eapply update_evolves; [done|exact Hup|done|]. intros c row. by apply set_unknown_ok.
  - by eapply update_key_moves; [..|exact Hup|].
Qed.

Lemma sdd_release_spec limits key s :
  dedup_db_ok (sq_db s) -> runs (sdd_release_claim key) (move_post limits InFlight key (fun _ => None) (sq_db s)) s.
Proof.
  intros Hok. unfold sdd_release_claim. apply sdd_transition_runs; [intros e; apply move_post_err|]. intros db Hdel.
  split; [eapply delete_evolves; [done|exact Hdel]|apply (delete_key_moves key "in_flight"); [done|exact Hdel]].
Qed.

Lemma sdd_resolve_spec limits key res at_ s :
  dedup_db_ok (sq_db s) -> 0 <= at_ <= U64_MAX ->
  runs (sdd_resolve_unknown limits key res at_) (move_post limits Unknown key
    (fun e => match res with ResolveCompleted => Some (with_state Completed at_ e) | ResolveRetryAllowed => None end) (sq_db s)) s.
Proof.
  intros Hok Hat. unfold sdd_resolve_unknown. tx_step. destruct (dedup_time at_) as [x|] eqn:Hx; [|apply move_post_err].
  apply dedup_time_ok in Hx as ->. tx_step. destruct (dedup_expiration at_ limits) as [expires|]; [|apply move_post_err].
  apply sdd_transition_runs; [intros e; apply move_post_err|]. intros db Hup. destruct res; split.
  - eapply update_evolves; [done|exact Hup|done|]. intros c row. by apply set_completed_ok.
  - by eapply update_key_moves; [..|exact Hup|].
  - eapply delete_evolves; [done|exact Hup].
  - apply (delete_key_moves key "unknown"); [done|exact Hup].
Qed.

Lemma sdd_recover_spec limits at_ s :
  dedup_db_ok (sq_db s) -> 0 <= at_ <= U64_MAX ->
  runs (sdd_recover_in_flight at_) (fun r db => evolves limits (sq_db s) db /\
    (claims_view db = claims_view (sq_db s) /\ is_ok r = false \/ claims_view db = recovered at_ <$> claims_view (sq_db s))) s.
Proof.
  intros Hok Hat. assert (forall e, evolves limits (sq_db s) (sq_db s) /\ (claims_view (sq_db s) = claims_view (sq_db s) /\
    is_ok (Err e : result DedupStoreError Z) = false \/ claims_view (sq_db s) = recovered at_ <$> claims_view (sq_db s))) as Herr
    by (intros e; split; [apply evolves_refl|by left]).
  unfold sdd_recover_in_flight. tx_step. destruct (dedup_time at_) as [x|] eqn:Hx; [|apply Herr].
  apply dedup_time_ok in Hx as ->. tx_step; [apply Herr|]. tx_step; [apply Herr|].
  destruct (sql_update_dedup _ _ _) as [[n db]|e] eqn:Hup; [|apply Herr]. split.
  - eapply update_evolves; [done|exact Hup|done|]. intros c row. by apply set_unknown_ok.
  - right. apply map_eq. intros k. rewrite lookup_fmap, !claims_view_lookup, (update_dedup_lookup _ _ _ _ _ _ Hup).
    destruct (t_dedup (sq_db s) !! key_columns k) as [row|] eqn:Hk; [|done]. simpl. f_equal. unfold recovered.
    destruct (in_state "in_flight" row) eqn:Hin.
    + by rewrite decide_True by by apply (in_state_entry "in_flight").
    + rewrite decide_False; [done|]. unfold row_entry, in_state in *. simpl. bools. intros Hst.
      unfold decode_dedup_state in Hst. by repeat (destruct (decide _); [done|]).
Qed.

Lemma sdd_clear_spec limits at_ s :
  dedup_db_ok (sq_db s) ->
  runs (sdd_clear_completed_before at_) (fun r db => evolves limits (sq_db s) db /\
    drops (may_clear at_) (claims_view (sq_db s)) (claims_view db) /\
    (is_ok r = true -> forall k e, claims_view db !! k = Some e -> ~ may_clear at_ e)) s.
Proof.
  intros Hok. assert (forall e, evolves limits (sq_db s) (sq_db s) /\ drops (may_clear at_) (claims_view (sq_db s)) (claims_view (sq_db s)) /\
    (is_ok (Err e : result DedupStoreError Z) = true -> forall k e, claims_view (sq_db s) !! k = Some e -> ~ may_clear at_ e)) as Herr
    by (intros e; split_and!; [apply evolves_refl|apply drops_refl|done]).
  unfold sdd_clear_completed_before. tx_step. destruct (dedup_time at_) as [x|] eqn:Hx; [|apply Herr].
  apply dedup_time_ok in Hx as ->. tx_step; [apply Herr|]. tx_step; [apply Herr|].
  destruct (sql_delete_dedup _ _) as [[n db]|e] eqn:Hdel; [|apply Herr]. split; [eapply delete_evolves; [done|exact Hdel]|]. split.
  - intros k. rewrite !claims_view_lookup, (delete_dedup_lookup _ _ _ _ _ Hdel).
    destruct (t_dedup (sq_db s) !! key_columns k) as [row|]; [|by left]. destruct (_ && _) eqn:Hp; [|by left]. bools.
    right. split; [done|]. exists (row_entry row). split; [done|]. split; [by apply (in_state_entry "completed")|done].
  - intros _ k e. rewrite claims_view_lookup, (delete_dedup_lookup _ _ _ _ _ Hdel).
    destruct (t_dedup (sq_db s) !! key_columns k) as [row|]; [|done]. destruct (_ && _) eqn:Hp; [done|]. simpl.
    intros [= <-] [Hst Hlt]. apply andb_false_iff in Hp as [Hp|Hp]; [|simpl in Hlt; bools; lia].
    unfold row_entry, in_state in *. simpl in Hst. bools. unfold decode_dedup_state in Hst.
    by repeat (destruct (decide _); [done|]).
Qed.

(** ** The contract of the trait *)

Definition sdd_ok (d : SqlCipherDedupStore) : Prop :=
  dedup_db_ok (sq_db (sdd_store d)) /\ dedup_limits_ok (sdd_limits d).

Lemma on_sdd_run {A} (m : M A) (Q : result DedupStoreError A -> Database -> Prop) d :
  runs m Q (sdd_store d) ->
  let '(r, d') := on_sdd m d in Q r (sq_db (sdd_store d')) /\ sdd_limits d' = sdd_limits d.
Proof. intros HQ%runs_result. unfold on_sdd. by destruct (m (sdd_store d)). Qed.

(** An operation that evolves the table keeps the store. *)
Lemma on_sdd_ok {A} (m : M A) (Q : result DedupStoreError A -> Database -> Prop) d :
  sdd_ok d -> runs m (fun r db => evolves (sdd_limits d) (sq_db (sdd_store d)) db /\ Q r db) (sdd_store d) ->
  let '(r, d') := on_sdd m d in sdd_ok d' /\ Q r (sq_db (sdd_store d')).
Proof.
  intros [Hok Hlim] Hm%on_sdd_run. destruct (on_sdd m d) as [r d']. destruct Hm as [[Hev HQ] Hl]. split; [|done].
  split; [by apply Hev|by rewrite Hl].
Qed.

Lemma sdd_record_spec limits key s :
  dedup_db_ok (sq_db s) ->
  runs (sdd_record key) (fun r db => evolves limits (sq_db s) db /\ claims_view db = claims_view (sq_db s) /\
    forall o, r = Ok o -> o = (fun e => mk_dedup_record key (de_state e) (de_updated_at e)) <$> claims_view (sq_db s) !! key) s.
Proof.
  intros (Hrows & _). unfold sdd_record. tx_step; [split_and!; [apply evolves_refl|done|done]|].
  tx_step; [split_and!; [apply evolves_refl|done|done]|]. unfold select. split_and!; [apply evolves_refl|done|].
  intros o Ho. rewrite claims_view_lookup. destruct (t_dedup (sq_db s) !! key_columns key) as [row|]; simpl in *; [|congruence].
  destruct (validate_dedup _ row) as [r|] eqn:Hr; [|done]. injection Ho as <-. f_equal. by apply validate_dedup_view in Hr as ->.
Qed.

#[global] Program Instance SqlCipherDedupStore_spec : DedupStoreSpec SqlCipherDedupStore := {|
  dedup_ok := sdd_ok;
  dedup_view d := claims_view (sq_db (sdd_store d));
|}.
Next Obligation.
  intros k p t d Hd Hk Ht. simpl.
  pose proof (on_sdd_ok _ _ d Hd (sdd_claim_spec (sdd_limits d) k p t _ (proj1 Hd) (proj2 Hd) Hk Ht)) as Hr.
  destruct (on_sdd _ d) as [r d']. destruct Hr as (Hok & m & Hm & Hpost). split; [done|]. exists m. split; [done|].
  destruct r as [[|st]|]; [done|done|]. by left.
Qed.
Next Obligation.
  intros k t d Hd Ht. simpl. pose proof (on_sdd_ok _ _ d Hd (sdd_complete_spec (sdd_limits d) k t _ (proj1 Hd) Ht)) as Hr. destruct (on_sdd _ d). exact Hr.
Qed.
Next Obligation.
  intros k t d Hd Ht. simpl. pose proof (on_sdd_ok _ _ d Hd (sdd_mark_unknown_spec (sdd_limits d) k t _ (proj1 Hd) Ht)) as Hr. destruct (on_sdd _ d). exact Hr.
Qed.
Next Obligation.
  intros k d Hd. simpl. pose proof (on_sdd_ok _ _ d Hd (sdd_release_spec (sdd_limits d) k _ (proj1 Hd))) as Hr. destruct (on_sdd _ d). exact Hr.
Qed.
Next Obligation.
  intros k d Hd. simpl. pose proof (on_sdd_ok _ _ d Hd (sdd_record_spec (sdd_limits d) k _ (proj1 Hd))) as Hr. destruct (on_sdd _ d). exact Hr.
Qed.
Next Obligation.
  intros t d Hd Ht. simpl. pose proof (on_sdd_ok _ _ d Hd (sdd_recover_spec (sdd_limits d) t _ (proj1 Hd) Ht)) as Hr. destruct (on_sdd _ d). exact Hr.
Qed.
Next Obligation.
  intros k res t d Hd Ht. simpl. pose proof (on_sdd_ok _ _ d Hd (sdd_resolve_spec (sdd_limits d) k res t _ (proj1 Hd) Ht)) as Hr. destruct (on_sdd _ d). exact Hr.
Qed.
Next Obligation.
  intros t d Hd. simpl. pose proof (on_sdd_ok _ _ d Hd (sdd_clear_spec (sdd_limits d) t _ (proj1 Hd))) as Hr. destruct (on_sdd _ d). exact Hr.
Qed.

(** ** Any history of operations *)

Definition dedup_op_wf (op : DedupOp) : Prop :=
  match op with
  | DClaim k _ t => dedup_key_wf k /\ 0 <= t <= U64_MAX
  | DComplete _ t | DMarkUnknown _ t | DRecover t | DResolve _ _ t => 0 <= t <= U64_MAX
  | DRelease _ | DClear _ => True
  end.

Definition sdd_evolves (d d' : SqlCipherDedupStore) : Prop :=
  sdd_limits d' = sdd_limits d /\ evolves (sdd_limits d) (sq_db (sdd_store d)) (sq_db (sdd_store d')).

Lemma on_sdd_evolves {A} (m : M A) (Q : result DedupStoreError A -> Database -> Prop) d :
  runs m (fun r db => evolves (sdd_limits d) (sq_db (sdd_store d)) db /\ Q r db) (sdd_store d) -> sdd_evolves d (on_sdd m d).2.
Proof. intros Hm%on_sdd_run. destruct (on_sdd m d) as [r d']. by destruct Hm as [[? _] ?]. Qed.

Lemma dedup_apply_evolves op d : sdd_ok d -> dedup_op_wf op -> sdd_evolves d (dedup_apply op d).
Proof.
  intros [Hok Hlim] Hwf. destruct op; simpl in *.
  - exact (on_sdd_evolves _ _ d (sdd_claim_spec (sdd_limits d) key policy at_ _ Hok Hlim (proj1 Hwf) (proj2 Hwf))).
  - exact (on_sdd_evolves _ _ d (sdd_complete_spec (sdd_limits d) key at_ _ Hok Hwf)).
  - exact (on_sdd_evolves _ _ d (sdd_mark_unknown_spec (sdd_limits d) key at_ _ Hok Hwf)).
  - exact (on_sdd_evolves _ _ d (sdd_release_spec (sdd_limits d) key _ Hok)).
  - exact (on_sdd_evolves _ _ d (sdd_recover_spec (sdd_limits d) at_ _ Hok Hwf)).
  - exact (on_sdd_evolves _ _ d (sdd_resolve_spec (sdd_limits d) key resolution at_ _ Hok Hwf)).
  - exact (on_sdd_evolves _ _ d (sdd_clear_spec (sdd_limits d) before _ Hok)).
Qed.

Lemma sdd_evolves_ok d d' : sdd_ok d -> sdd_evolves d d' -> sdd_ok d'.
Proof. intros [Hok Hlim] [Hl Hev]. split; [by apply Hev|by rewrite Hl]. Qed.

Lemma dedup_run_evolves ops d : sdd_ok d -> Forall dedup_op_wf ops -> sdd_evolves d (dedup_run ops d).
Proof.
  intros Hd Hops. revert d Hd. induction Hops as [|op ops Hop _ IH]; intros d Hd; [split; [done|apply evolves_refl]|].
  simpl. pose proof (dedup_apply_evolves op d Hd Hop) as H1. destruct (IH _ (sdd_evolves_ok _ _ Hd H1)) as [Hl2 H2].
  destruct H1 as [Hl1 H1]. split; [unfold dedup_run in *; congruence|]. rewrite Hl1 in H2. by eapply evolves_trans.
Qed.

(** Replay protection is well typed and within its bounds.  Run any operations on a new
    database, any of their statements failing.  Every row then keeps the constraints of its
    table and reads back, the counters of [storage_usage] are the true number of claims and
    the true sum of their charges, and both stay within the validated limits. *)
Theorem dedup_store_bounded ops (s : SqlCipherStore) limits :
  sq_db s = migrate_from_empty -> dedup_limits_ok limits -> Forall dedup_op_wf ops ->
  let db := sq_db (sdd_store (dedup_run ops (mk_sql_dedup s limits))) in
  map_Forall (fun c row => dedup_check c row = true /\ exists r, validate_dedup c row = Ok r) (t_dedup db) /\
  t_usage db !! WEBHOOK_DEDUP = Some (Z.of_nat (size (t_dedup db)), zsum (charges (t_dedup db))) /\
  Z.of_nat (size (t_dedup db)) <= dedup_records limits /\ zsum (charges (t_dedup db)) <= dedup_bytes limits.
Proof.
  intros Hs Hlim Hops. destruct (dedup_limits_bounds _ Hlim).
  assert (dedup_db_ok (sq_db s)) as Hok by (rewrite Hs; split_and!; done).
  destruct (dedup_run_evolves ops (mk_sql_dedup s limits) (conj Hok Hlim) Hops) as [_ Hev]. simpl in Hev.
  destruct (evolves_within _ _ _ Hev) as [Hn Hb]; [rewrite Hs; split; change (size (t_dedup migrate_from_empty)) with 0%nat;
    change (charges (t_dedup migrate_from_empty)) with (@nil Z); simpl; lia|].
  destruct (evolves_ok _ _ _ Hev Hok) as (Hrows & Hu & _). by split_and!.
Qed.

(** ** The traversal ends *)

#[local] Abbreviation Columns := (rstr * rstr * list byte)%type.

(** The rows a traversal may still report. *)
Definition ahead (ceiling : Z) (cursor : option DedupKey) (c : Columns) (row : DedupRow) : Prop :=
  dd_sequence row <= ceiling /\ beyond cursor c.
#[local] Instance ahead_dec ceiling cursor c row : Decision (ahead ceiling cursor c row).
Proof. unfold ahead. apply _. Defined.

Definition candidates (ceiling : Z) (cursor : option DedupKey) (db : Database) : gset Columns :=
  dom (filter (fun x : Columns * DedupRow => ahead ceiling cursor x.1 x.2) (t_dedup db)).

Lemma elem_of_candidates ceiling cursor db c :
  c ∈ candidates ceiling cursor db <-> exists row, t_dedup db !! c = Some row /\ ahead ceiling cursor c row.
Proof.
  unfold candidates. rewrite elem_of_dom. split.
  - intros [row [Hc Ha]%map_lookup_filter_Some]. eauto.
  - intros (row & Hc & Ha). exists row. by apply map_lookup_filter_Some.
Qed.

Lemma beyond_trans cursor k c : beyond cursor (key_columns k) -> beyond (Some k) c -> beyond cursor c.
Proof.
  destruct cursor as [k0|]; [|done]. unfold beyond. intros [H1 Hne1] [H2 Hne2]. split; [by etransitivity|].
  intros <-. apply Hne1. by apply (anti_symm key_le).
Qed.

Lemma sql_ceiling_issued db : dedup_db_ok db -> sql_ceiling db <= dedup_sequence db.
Proof.
  intros (_ & _ & _ & Hpos & Hseq). unfold sql_ceiling.
  assert (Forall (fun n => n <= dedup_sequence db) (dd_sequence <$> (map_to_list (t_dedup db)).*2)) as Hall.
  { apply Forall_fmap, Forall_fmap, Forall_forall. intros [c row] Hin%elem_of_map_to_list. by eapply Hseq. }
  induction Hall; simpl; lia.
Qed.

Lemma sql_ceiling_bound db c row : t_dedup db !! c = Some row -> dd_sequence row <= sql_ceiling db.
Proof.
  intros Hc. unfold sql_ceiling. assert (dd_sequence row ∈ dd_sequence <$> (map_to_list (t_dedup db)).*2) as Hin.
  { apply list_elem_of_fmap. exists row. split; [done|]. apply list_elem_of_fmap. exists (c, row). by rewrite elem_of_map_to_list. }
  induction Hin; simpl; lia.
Qed.

(** The next record is the first unknown one beyond the cursor. *)
Lemma sql_next_unknown_spec cursor ceiling db :
  match sql_next_unknown cursor ceiling db with
  | Some (c, row) => t_dedup db !! c = Some row /\ in_state "unknown" row = true /\ ahead ceiling cursor c row /\
      forall c' row', t_dedup db !! c' = Some row' -> in_state "unknown" row' = true -> ahead ceiling cursor c' row' -> key_le c c'
  | None => forall c row, t_dedup db !! c = Some row -> in_state "unknown" row = true -> ~ ahead ceiling cursor c row
  end.
Proof.
  unfold sql_next_unknown. set (P := fun x : Columns * DedupRow => _).
  assert (forall c row, (c, row) ∈ filter P (btree_iter (t_dedup db)) <->
    t_dedup db !! c = Some row /\ in_state "unknown" row = true /\ ahead ceiling cursor c row) as Hin.
  { intros c row. rewrite list_elem_of_filter, elem_of_btree_iter. unfold P, ahead. simpl. tauto. }
  pose proof (StronglySorted_sublist _ _ _ (sublist_filter P (btree_iter (t_dedup db))) (btree_iter_sorted (t_dedup db))) as Hsorted.
  destruct (filter P (btree_iter (t_dedup db))) as [|[c row] l]; cbn [head].
  - intros c row Hc Hu Ha. assert ((c, row) ∈ @nil (Columns * DedupRow)) as []%not_elem_of_nil. by apply Hin.
  - destruct (proj1 (Hin c row)) as (? & ? & ?); [left|]. split_and!; try done. intros c' row' Hc' Hu' Ha'.
    assert ((c', row') ∈ (c, row) :: l) as Hin' by by apply Hin. apply StronglySorted_inv in Hsorted as [_ Hall].
    apply elem_of_cons in Hin' as [[= -> ->]|Hin']; [reflexivity|]. rewrite Forall_forall in Hall. exact (Hall _ Hin').
Qed.

Lemma next_unknown_spec cursor ceiling d :
  sdd_ok d ->
  let '(r, d') := on_sdd (next_unknown cursor ceiling) d in
  sq_db (sdd_store d') = sq_db (sdd_store d) /\ sdd_limits d' = sdd_limits d /\
  match r with
  | Ok (Some record) => exists row, sql_next_unknown cursor ceiling (sq_db (sdd_store d)) = Some (key_columns (dr_key record), row)
  | Ok None => sql_next_unknown cursor ceiling (sq_db (sdd_store d)) = None
  | Err _ => True
  end.
Proof.
  intros [Hok _]. set (Q := fun (r : result DedupStoreError (option DedupRecord)) db => db = sq_db (sdd_store d) /\ match r with
    | Ok (Some record) => exists row, sql_next_unknown cursor ceiling (sq_db (sdd_store d)) = Some (key_columns (dr_key record), row)
    | Ok None => sql_next_unknown cursor ceiling (sq_db (sdd_store d)) = None
    | Err _ => True end).
  assert (runs (next_unknown cursor ceiling) Q (sdd_store d)) as Hrun%on_sdd_run.
  { unfold next_unknown. tx_step; [done|]. tx_step; [done|]. unfold select.
    pose proof (sql_next_unknown_spec cursor ceiling (sq_db (sdd_store d))) as Hnext.
    split; [done|]. destruct (sql_next_unknown _ _ _) as [[c row]|]; simpl; [|done]. destruct Hnext as (Hc & _).
    destruct (validate_dedup c row) as [rec|] eqn:Hv; [|done]. simpl. exists row. f_equal. f_equal.
    rewrite <-(key_columns_key c) in Hv. apply validate_dedup_view in Hv as ->. cbn [dr_key]. by rewrite key_columns_key. }
  destruct (on_sdd _ d) as [r d']. destruct Hrun as [[Hdb Hr] Hl]. done.
Qed.

(** One round takes at least one row out of the candidates, whatever the callback does. *)
Lemma candidates_shrink limits ceiling cursor k row db db' :
  evolves limits db db' -> ceiling <= dedup_sequence db ->
  t_dedup db !! key_columns k = Some row -> ahead ceiling cursor (key_columns k) row ->
  candidates ceiling (Some k) db' ⊂ candidates ceiling cursor db.
Proof.
  intros Hev Hceil Hk Ha. split.
  - intros c (row' & Hc & Hs & Hb)%elem_of_candidates. destruct (evolves_rows _ _ _ Hev c row' Hc) as [?|(old & Hold & Heq)]; [lia|].
    apply elem_of_candidates. exists old. split; [done|]. split; [lia|]. eapply beyond_trans; [apply Ha|done].
  - intros Hsub. assert (key_columns k ∈ candidates ceiling (Some k) db') as (row' & _ & _ & Hb)%elem_of_candidates.
    { apply Hsub, elem_of_candidates. eauto. }
    by destruct Hb.
Qed.

Lemma unknown_row db c row :
  dedup_db_ok db -> t_dedup db !! c = Some row -> de_state (row_entry row) = Unknown -> in_state "unknown" row = true.
Proof.
  intros (Hrows & _) Hc Hst. destruct (Hrows _ _ Hc) as (_ & r & Hr). unfold validate_dedup in Hr.
  apply result_bind_Ok in Hr as (? & _ & Hr). apply result_bind_Ok in Hr as (? & _ & Hr). destruct (negb _); [done|].
  apply result_bind_Ok in Hr as (? & _ & Hr). apply result_bind_Ok in Hr as (st & Hd & _).
  unfold row_entry in Hst. rewrite Hd in Hst. simpl in Hst. subst st. unfold decode_dedup_state in Hd.
  unfold in_state. repeat (destruct (decide _); [try done|]); [|done]. by rewrite bool_decide_true.
Qed.

(** The callback that also keeps the records it was given. *)
Definition logged {V} (visitor : DedupRecord -> V -> bool * V * list DedupOp) (record : DedupRecord) (s : V * list DedupRecord)
    : bool * (V * list DedupRecord) * list DedupOp :=
  let '(go_on, v, ops) := visitor record s.1 in (go_on, (v, s.2 ++ [record]), ops).

(** The visited keys are in strictly increasing order and not beyond the cursor. *)
Definition visited_before (x y : DedupRecord) : Prop := beyond (Some (dr_key x)) (key_columns (dr_key y)).
Definition log_ok (cursor : option DedupKey) (log : list DedupRecord) : Prop :=
  StronglySorted visited_before log /\
  Forall (fun x => match cursor with Some k => key_le (key_columns (dr_key x)) (key_columns k) | None => False end) log.

Lemma log_ok_snoc cursor log record :
  log_ok cursor log -> beyond cursor (key_columns (dr_key record)) -> log_ok (Some (dr_key record)) (log ++ [record]).
Proof.
  intros [Hs Hall] Hb. assert (Forall (fun x => visited_before x record) log) as Hbefore.
  { eapply Forall_impl; [exact Hall|]. intros x Hx. destruct cursor as [k|]; [|done]. destruct Hb as [Hle Hne].
    split; [by etransitivity|]. intros Heq. apply Hne. apply (anti_symm key_le); [done|]. by rewrite <-Heq. }
  split.
  - apply StronglySorted_app_2; [|done|by repeat constructor]. intros x y Hx Hy.
    apply list_elem_of_singleton in Hy as ->. rewrite Forall_forall in Hbefore. by apply Hbefore.
  - apply Forall_app. split; [|repeat constructor; reflexivity]. eapply Forall_impl; [exact Hbefore|]. by intros x [? _].
Qed.

Lemma visit_loop_ends {V} (visitor : DedupRecord -> V -> bool * V * list DedupOp) fuel ceiling cursor v log d :
  (forall record v, Forall dedup_op_wf (visitor record v).2) ->
  sdd_ok d -> ceiling <= dedup_sequence (sq_db (sdd_store d)) -> log_ok cursor log ->
  (size (candidates ceiling cursor (sq_db (sdd_store d))) < fuel)%nat ->
  let '(r, s, d') := visit_loop (logged visitor) fuel ceiling cursor (v, log) d in
  is_Some r /\ sdd_ok d' /\ exists cursor', log_ok cursor' s.2.
Proof.
  intros Hvis. revert cursor v log d. induction fuel as [|fuel IH]; intros cursor v log d Hd Hceil Hlog Hsize; [lia|]. cbn [visit_loop].
  pose proof (next_unknown_spec cursor ceiling d Hd) as Hnext.
  pose proof (sql_next_unknown_spec cursor ceiling (sq_db (sdd_store d))) as Hspec.
  destruct (on_sdd (next_unknown cursor ceiling) d) as [r d1]. destruct Hnext as (Hdb & Hlim & Hr).
  assert (sdd_ok d1) as Hd1 by (destruct Hd; split; congruence).
  destruct r as [[record|]|e]; [|by split_and!; eauto..]. destruct Hr as [row Hrow]. rewrite Hrow in Hspec.
  destruct Hspec as (Hk & _ & Ha & _). unfold logged at 1. cbn [fst snd]. specialize (Hvis record v).
  destruct (visitor record v) as [[go_on v'] ops] eqn:Hv. cbn [snd] in Hvis.
  pose proof (log_ok_snoc cursor log record Hlog (proj2 Ha)) as Hlog'.
  pose proof (dedup_run_evolves ops d1 Hd1 Hvis) as Hev. pose proof (sdd_evolves_ok _ _ Hd1 Hev) as Hd2. destruct Hev as [Hl2 Hev].
  rewrite Hdb in Hev. destruct go_on; [|by split_and!; eauto]. apply IH; [done| |done|].
  - pose proof (evolves_sequence _ _ _ Hev). lia.
  - pose proof (subset_size _ _ (candidates_shrink _ _ _ _ _ _ _ Hev Hceil Hk Ha)). lia.
Qed.

(** A callback that lets the traversal go on and leaves the store alone sees every uncertain claim. *)
Lemma visit_loop_complete {V} (visitor : DedupRecord -> V -> bool * V * list DedupOp) fuel ceiling cursor v log d c row :
  (forall record v, (visitor record v).1.1 = true /\ (visitor record v).2 = []) ->
  sdd_ok d -> t_dedup (sq_db (sdd_store d)) !! c = Some row -> in_state "unknown" row = true -> dd_sequence row <= ceiling ->
  (beyond cursor c \/ columns_key c ∈ dr_key <$> log) ->
  let '(r, s, d') := visit_loop (logged visitor) fuel ceiling cursor (v, log) d in
  r = Some (Ok tt) -> columns_key c ∈ dr_key <$> s.2.
Proof.
  intros Hvis. revert cursor v log d. induction fuel as [|fuel IH]; intros cursor v log d Hd Hc Hu Hs Hin; [done|]. cbn [visit_loop].
  pose proof (next_unknown_spec cursor ceiling d Hd) as Hnext.
  pose proof (sql_next_unknown_spec cursor ceiling (sq_db (sdd_store d))) as Hspec.
  destruct (on_sdd (next_unknown cursor ceiling) d) as [r d1]. destruct Hnext as (Hdb & Hlim & Hr).
  assert (sdd_ok d1) as Hd1 by (destruct Hd; split; congruence). destruct r as [[record|]|e]; [| |done].
  - destruct Hr as [row' Hrow]. rewrite Hrow in Hspec. destruct Hspec as (_ & _ & _ & Hmin). specialize (Hvis record v).
    unfold logged at 1. cbn [fst snd]. destruct (visitor record v) as [[go_on v'] ops]. destruct Hvis as [Hgo Hops]. simpl in Hgo, Hops. subst go_on ops.
    change (dedup_run [] d1) with d1. apply IH; [done|by rewrite Hdb|done|done|]. destruct (decide (key_columns (dr_key record) = c)) as [<- |Hne].
    + right. rewrite columns_key_columns, fmap_app. set_solver.
    + destruct Hin as [Hb|Hin]; [|right; rewrite fmap_app; set_solver]. left. split; [|done]. apply (Hmin c row); done.
  - intros _. rewrite Hr in Hspec. destruct Hin as [Hb|Hin]; [|done]. by destruct (Hspec c row Hc Hu).
Qed.

Lemma unknown_scan_ceiling_spec d :
  let '(r, d') := on_sdd unknown_scan_ceiling d in
  sq_db (sdd_store d') = sq_db (sdd_store d) /\ sdd_limits d' = sdd_limits d /\
  forall n, r = Ok n -> n = sql_ceiling (sq_db (sdd_store d)).
Proof.
  set (Q := fun (r : result DedupStoreError Z) db => db = sq_db (sdd_store d) /\ forall n, r = Ok n -> n = sql_ceiling (sq_db (sdd_store d))).
  assert (runs unknown_scan_ceiling Q (sdd_store d)) as Hrun%on_sdd_run.
  { unfold unknown_scan_ceiling. tx_step; [done|]. tx_step; [done|]. split; [done|]. by intros n [= <-]. }
  destruct (on_sdd _ d) as [r d']. destruct Hrun as [[? ?] ?]. done.
Qed.

(** C24: the traversal of uncertain claims ends, visits no claim twice and misses none.  The
    callback may do anything to the store in between, also claim new deliveries or make more
    of them uncertain: the loop ends within one round more than the table had rows, because new
    rows lie above the ceiling.  The visited keys strictly increase.  If the callback leaves the
    store alone and never stops, and no read fails, every uncertain claim was visited. *)
Theorem visit_unknown_terminates {V} (visitor : DedupRecord -> V -> bool * V * list DedupOp) v d :
  (forall record v, Forall dedup_op_wf (visitor record v).2) -> sdd_ok d ->
  let '(r, (v', log), d') := visit_unknown (logged visitor) (S (size (t_dedup (sq_db (sdd_store d))))) (v, []) d in
  is_Some r /\ sdd_ok d' /\ StronglySorted visited_before log /\
  ((forall record v, (visitor record v).1.1 = true /\ (visitor record v).2 = []) -> r = Some (Ok tt) ->
   forall k e, dedup_view d !! k = Some e -> de_state e = Unknown -> k ∈ dr_key <$> log).
Proof.
  intros Hvis Hd. unfold visit_unknown. pose proof (unknown_scan_ceiling_spec d) as Hceil.
  destruct (on_sdd unknown_scan_ceiling d) as [[ceiling|e] d1]; destruct Hceil as (Hdb & Hlim & Hceil);
    (assert (sdd_ok d1) as Hd1 by (destruct Hd; split; congruence)); [|by split_and!; [eauto|..|constructor|]].
  specialize (Hceil _ eq_refl). subst ceiling. rewrite <-Hdb. set (db := sq_db (sdd_store d1)).
  pose proof (visit_loop_ends visitor (S (size (t_dedup db))) (sql_ceiling db) None v [] d1 Hvis Hd1) as Hends.
  assert (forall c row, t_dedup db !! c = Some row -> in_state "unknown" row = true ->
    (forall record v, (visitor record v).1.1 = true /\ (visitor record v).2 = []) -> _) as Hall
    by (intros c row Hc Hu Hgo; exact (visit_loop_complete visitor (S (size (t_dedup db))) (sql_ceiling db) None v [] d1 c row Hgo Hd1 Hc Hu
          (sql_ceiling_bound _ _ _ Hc) (or_introl I))).
  destruct (visit_loop _ _ _ _ _ d1) as [[r [v' log]] d2]. destruct Hends as (Hr & Hd2 & cursor & Hlog & _).
  - by apply sql_ceiling_issued, Hd1.
  - by split; constructor.
  - unfold candidates. rewrite size_dom. apply Nat.lt_succ_r. fold db. apply map_size_filter.
  - split_and!; try done. intros Hgo Hok k e Hk He. unfold dedup_view in Hk. simpl in Hk. rewrite <-Hdb in Hk.
    rewrite claims_view_lookup in Hk. destruct (t_dedup _ !! key_columns k) as [row|] eqn:Hrow; [|done]. injection Hk as <-.
    rewrite <-(columns_key_columns k). apply (Hall (key_columns k) row); try done. eapply unknown_row; [apply Hd1|done|done].
Qed.
End dedup.

(** ** An example: two deliveries, one left uncertain by a crash *)

#[local] Instance ex_dedup_sql : SqlEnv := fun n => Nat.eqb n 7.
Definition ex_dedup_store : SqlCipherStore := mk_sql_store false migrate_from_empty None 0.
Definition ex_dedup_key (b : Z) : DedupKey :=
  mk_dedup_key (mk_id (str "hook")) (mk_id (str "github:hmac-sha256:v1")) (mk_id_hash (replicate 32 b)).
Definition ex_dedup_ops : list DedupOp :=
  [DClaim (ex_dedup_key 1) RetainCompleted 1000; DComplete (ex_dedup_key 1) 1001; DComplete (ex_dedup_key 1) 1001;
   DClaim (ex_dedup_key 2) RetainCompleted 1002; DClaim (ex_dedup_key 3) RetainCompleted 1003; DRecover 2000;
   DClaim (ex_dedup_key 2) RetainCompleted 2001].

Lemma ex_dedup_limits : dedup_limits_ok DedupStoreLimits_default.
Proof. vm_compute. reflexivity. Qed.

Lemma ex_dedup_ops_wf : Forall dedup_op_wf ex_dedup_ops.
Proof.
  unfold ex_dedup_ops. repeat apply Forall_cons_2; try apply Forall_nil_2; simpl; unfold dedup_key_wf, U64_MAX;
    split_and!; try lia; vm_compute; reflexivity.
Qed.

Lemma dedup_store_bounded_witness :
  let db := sq_db (sdd_store (dedup_run ex_dedup_ops (mk_sql_dedup ex_dedup_store DedupStoreLimits_default))) in
  size (t_dedup db) = 3%nat /\ t_usage db !! WEBHOOK_DEDUP = Some (3, 363).
Proof.
  pose proof (dedup_store_bounded ex_dedup_ops ex_dedup_store DedupStoreLimits_default eq_refl ex_dedup_limits ex_dedup_ops_wf)
    as (_ & Hu & _). cbv zeta in *. rewrite Hu. split; vm_compute; reflexivity.
Defined.

(** The host resolves every uncertain claim as it is reported. *)
Definition ex_visitor (record : DedupRecord) (n : nat) : bool * nat * list DedupOp :=
  (true, S n, [DResolve (dr_key record) ResolveCompleted 3000]).

Definition ex_dedup_state : SqlCipherDedupStore := dedup_run ex_dedup_ops (mk_sql_dedup ex_dedup_store DedupStoreLimits_default).

Lemma ex_dedup_state_ok : sdd_ok ex_dedup_state.
Proof.
  apply (sdd_evolves_ok (mk_sql_dedup ex_dedup_store DedupStoreLimits_default)); [|apply dedup_run_evolves; [|apply ex_dedup_ops_wf]];
    (split; [split_and!; done|apply ex_dedup_limits]).
Qed.

Lemma visit_unknown_terminates_witness :
  let '(r, (n, log), d) := visit_unknown (logged ex_visitor) (S (size (t_dedup (sq_db (sdd_store ex_dedup_state))))) (O, []) ex_dedup_state in
  is_Some r /\ StronglySorted visited_before log /\ n = 2%nat.
Proof.
  assert (forall record n, Forall dedup_op_wf (ex_visitor record n).2) as Hops
    by (intros record n; apply Forall_singleton; simpl; unfold U64_MAX; lia).
  pose proof (visit_unknown_terminates ex_visitor O ex_dedup_state Hops ex_dedup_state_ok) as Hthm.
  assert ((visit_unknown (logged ex_visitor) (S (size (t_dedup (sq_db (sdd_store ex_dedup_state))))) (O, []) ex_dedup_state).1.2.1 = 2%nat)
    as Hn by (vm_compute; reflexivity).
  destruct (visit_unknown (logged ex_visitor) _ _ _) as [[r [n log]] d]. destruct Hthm as (Hr & _ & Hs & _). split; [exact Hr|].
  split; [exact Hs|exact Hn].
Defined.
