(* ===== verification/DedupAbi.v ===== *)
(** * DedupAbi: replay protection through the C interface

    dedup_store.rs of [bondry-runtime-ffi] exports the replay protection of the encrypted store
    as a descriptor of callbacks, and recovers claims that an earlier process left in flight
    before it hands out the first one; store.rs of [bondry-webhook-ingress-ffi] retains such a
    descriptor and implements [DedupStore] over it.

    [dedup_store_crosses_interface] says that the store on this side is the store on the
    other, and what the derivation does to it. *)

From S2P Require Import Prelude Text Bytes Identifiers CAbi DeliveryStore Dedup Sqlite SqlDedup.

Definition BONDRY_DEDUP_STORE_ABI_VERSION_V1 : Z := 1.
Definition BONDRY_DEDUP_THREADING_SERIALIZED_V1 : Z := 1.
Definition BONDRY_STORE_DURABILITY_PERSISTENT_V1 : Z := 2.
Definition BONDRY_DEDUP_CLAIMED_V1 : Z := 1.
Definition BONDRY_DEDUP_DUPLICATE_V1 : Z := 2.

(** [size_of::<BondryDedupStoreV1>()] on a 64-bit target. *)
Definition DEDUP_STORE_SIZE : Z := 120.

Record BondryDedupRecordV1 := mk_dedup_record_v1 {
  v1_route : list byte;
  v1_namespace : list byte;
  v1_hash : list byte;
  v1_dedup_state : Z;
  v1_dedup_updated : Z;
}.

Definition dedup_record_zeroed : BondryDedupRecordV1 :=
  mk_dedup_record_v1 (replicate BONDRY_IDENTIFIER_CAPACITY_V1 0) (replicate BONDRY_IDENTIFIER_CAPACITY_V1 0) (replicate 32 0) 0 0.

#[local] Abbreviation D := SqlCipherDedupStore.
#[local] Abbreviation buffer := (pointer (list byte)).

(** A callback that visits a record: whether to go on, its state, and what it did meanwhile. *)
Abbreviation UnknownVisitor W := (BondryDedupRecordV1 -> W -> Z * W * list DedupOp).

Record BondryDedupStoreV1 := mk_dedup_store_v1 {
  dv_abi_version : Z;
  dv_struct_size : Z;
  dv_threading_model : Z;
  dv_durability : Z;
  dv_context : pointer D;
  dv_retain : option (pointer D -> pointer D);
  dv_release : option (pointer D -> Z);
  dv_claim : option (pointer D -> buffer -> buffer -> buffer -> Z -> Z -> pointer Z -> pointer Z -> Z * pointer Z * pointer Z * pointer D);
  dv_complete : option (pointer D -> buffer -> buffer -> buffer -> Z -> Z * pointer D);
  dv_mark_unknown : option (pointer D -> buffer -> buffer -> buffer -> Z -> Z * pointer D);
  dv_release_claim : option (pointer D -> buffer -> buffer -> buffer -> Z -> Z * pointer D);
  dv_query : option (pointer D -> buffer -> buffer -> buffer -> pointer Z -> pointer BondryDedupRecordV1 ->
    Z * pointer Z * pointer BondryDedupRecordV1 * pointer D);
  dv_recover : option (pointer D -> Z -> pointer Z -> Z * pointer Z * pointer D);
  dv_resolve_unknown : option (pointer D -> buffer -> buffer -> buffer -> Z -> Z -> Z * pointer D);
  dv_visit_unknown : option (forall W : Type, pointer D -> UnknownVisitor W -> nat -> W -> option Z * W * pointer D);
  dv_clear_completed : option (pointer D -> Z -> pointer Z -> Z * pointer Z * pointer D);
}.

(** ** The side of the store (dedup_store.rs) *)

Definition encode_dedup_state (state : DedupState) : Z :=
  match state with InFlight => 1 | Completed => 2 | Unknown => 3 end.

Definition store_status (error : DedupStoreError) : Z :=
  match error with
  | DedupCapacityExhausted => BONDRY_STATUS_CAPACITY_EXHAUSTED
  | DedupNotFound => BONDRY_STATUS_NOT_FOUND
  | DedupInvalidTransition => BONDRY_STATUS_INVALID_TRANSITION
  | DedupUnavailable => BONDRY_STATUS_UNAVAILABLE
  end.
Definition dedup_status (r : result DedupStoreError unit) : Z :=
  match r with Ok _ => BONDRY_STATUS_OK | Err error => store_status error end.

(** [from_record]; [None] is the panic of a copy out of range. *)
Definition from_dedup_record (record : DedupRecord) : option BondryDedupRecordV1 :=
  route ← terminated BONDRY_IDENTIFIER_CAPACITY_V1 (as_str (dk_route (dr_key record)));
  namespace ← terminated BONDRY_IDENTIFIER_CAPACITY_V1 (as_str (dk_namespace (dr_key record)));
  Some (mk_dedup_record_v1 route namespace (id_hash_bytes (dk_delivery_hash (dr_key record))) (encode_dedup_state (dr_state record))
    (dr_updated_at record)).

Definition parse_key (route namespace hash : buffer) : result Z DedupKey :=
  route ← required_utf8 route;
  route ← map_err (fun _ => BONDRY_STATUS_INVALID_ARGUMENT) (RouteId_new route);
  namespace ← required_utf8 namespace;
  namespace ← map_err (fun _ => BONDRY_STATUS_INVALID_ARGUMENT) (VerifierNamespace_new namespace);
  hash ← ok_or hash BONDRY_STATUS_NULL_POINTER;
  if negb (Nat.eqb (length hash) 32) then Err BONDRY_STATUS_INVALID_LENGTH
  else Ok (mk_dedup_key route namespace (mk_id_hash hash)).

Section callbacks.
  Context `{Env : SqlEnv}.

Definition abi_claim (context : pointer D) (route namespace hash : buffer) (policy updated_at : Z) (out_result out_state : pointer Z)
    : Z * pointer Z * pointer Z * pointer D :=
  match out_result, out_state with
  | Some _, Some _ =>
      match context with
      | None => (BONDRY_STATUS_NULL_POINTER, Some 0, Some 0, None)
      | Some d =>
          match parse_key route namespace hash with
          | Err status => (status, Some 0, Some 0, Some d)
          | Ok key =>
              match (match policy with 1 => Some RetainCompleted | 2 => Some ExpireCompleted | _ => None end) with
              | None => (BONDRY_STATUS_INVALID_ARGUMENT, Some 0, Some 0, Some d)
              | Some policy =>
                  match claim key policy updated_at d with
                  | (Ok Claimed, d) => (BONDRY_STATUS_OK, Some BONDRY_DEDUP_CLAIMED_V1, Some 0, Some d)
                  | (Ok (Duplicate state), d) => (BONDRY_STATUS_OK, Some BONDRY_DEDUP_DUPLICATE_V1, Some (encode_dedup_state state), Some d)
                  | (Err error, d) => (store_status error, Some 0, Some 0, Some d)
                  end
              end
          end
      end
  | _, _ => (BONDRY_STATUS_NULL_POINTER, out_result, out_state, context)
  end.

Definition abi_transition (context : pointer D) (route namespace hash : buffer)
    (operation : DedupKey -> D -> result DedupStoreError unit * D) : Z * pointer D :=
  match context with
  | None => (BONDRY_STATUS_NULL_POINTER, None)
  | Some d =>
      match parse_key route namespace hash with
      | Err status => (status, Some d)
      | Ok key => let '(r, d) := operation key d in (dedup_status r, Some d)
      end
  end.

Definition abi_complete (context : pointer D) (route namespace hash : buffer) (updated_at : Z) : Z * pointer D :=
  abi_transition context route namespace hash (fun key => complete key updated_at).
Definition abi_mark_unknown (context : pointer D) (route namespace hash : buffer) (updated_at : Z) : Z * pointer D :=
  abi_transition context route namespace hash (fun key => mark_unknown key updated_at).
Definition abi_release_claim (context : pointer D) (route namespace hash : buffer) (_ : Z) : Z * pointer D :=
  abi_transition context route namespace hash release_claim.

Definition abi_query (context : pointer D) (route namespace hash : buffer) (out_found : pointer Z) (out_record : pointer BondryDedupRecordV1)
    : Z * pointer Z * pointer BondryDedupRecordV1 * pointer D :=
  match out_found, out_record with
  | Some _, Some _ =>
      let absent := Some dedup_record_zeroed in
      match context with
      | None => (BONDRY_STATUS_NULL_POINTER, Some 0, absent, None)
      | Some d =>
          match parse_key route namespace hash with
          | Err status => (status, Some 0, absent, Some d)
          | Ok key =>
              match dedup_record key d with
              | (Ok (Some record), d) =>
                  match from_dedup_record record with
                  | Some record => (BONDRY_STATUS_OK, Some 1, Some record, Some d)
                  | None => (BONDRY_STATUS_INTERNAL_FAILURE, Some 1, absent, Some d)
                  end
              | (Ok None, d) => (BONDRY_STATUS_OK, Some 0, absent, Some d)
              | (Err error, d) => (store_status error, Some 0, absent, Some d)
              end
          end
      end
  | _, _ => (BONDRY_STATUS_NULL_POINTER, out_found, out_record, context)
  end.

(** [recover] and [clear_completed] report a count. *)
Definition abi_counted (context : pointer D) (operation : D -> result DedupStoreError Z * D) (out_count : pointer Z) : Z * pointer Z * pointer D :=
  match out_count with
  | None => (BONDRY_STATUS_NULL_POINTER, None, context)
  | Some _ =>
      match context with
      | None => (BONDRY_STATUS_NULL_POINTER, Some 0, None)
      | Some d =>
          match operation d with
          | (Ok count, d) => (BONDRY_STATUS_OK, Some count, Some d)
          | (Err error, d) => (store_status error, Some 0, Some d)
          end
      end
  end.
Definition abi_recover (context : pointer D) (updated_at : Z) (out_count : pointer Z) : Z * pointer Z * pointer D :=
  abi_counted context (recover_in_flight updated_at) out_count.
Definition abi_clear_completed (context : pointer D) (updated_before : Z) (out_count : pointer Z) : Z * pointer Z * pointer D :=
  abi_counted context (clear_completed_before updated_before) out_count.

Definition abi_resolve_unknown (context : pointer D) (route namespace hash : buffer) (resolution updated_at : Z) : Z * pointer D :=
  match context with
  | None => (BONDRY_STATUS_NULL_POINTER, None)
  | Some d =>
      match parse_key route namespace hash with
      | Err status => (status, Some d)
      | Ok key =>
          match (match resolution with 1 => Some ResolveCompleted | 2 => Some ResolveRetryAllowed | _ => None end) with
          | None => (BONDRY_STATUS_INVALID_ARGUMENT, Some d)
          | Some resolution => let '(r, d) := resolve_unknown key resolution updated_at d in (dedup_status r, Some d)
          end
      end
  end.

(** The state of the callback also says whether it panicked, which ends the traversal. *)
Definition abi_visit_unknown (W : Type) (context : pointer D) (visitor : UnknownVisitor W) (fuel : nat) (w : W) : option Z * W * pointer D :=
  match context with
  | None => (Some BONDRY_STATUS_NULL_POINTER, w, None)
  | Some d =>
      let callback record (x : W * bool) :=
        match from_dedup_record record with
        | None => (false, (x.1, true), [])
        | Some raw => let '(go_on, w, ops) := visitor raw x.1 in (negb (go_on =? 0), (w, x.2), ops)
        end in
      let '(r, x, d) := visit_unknown callback fuel (w, false) d in
      ((if (x.2 : bool) then Some BONDRY_STATUS_INTERNAL_FAILURE else dedup_status <$> r), x.1, Some d)
  end.

Definition retain_context (context : pointer D) : pointer D := context.
Definition release_context (context : pointer D) : Z := match context with Some _ => 1 | None => 0 end.

Definition dedup_descriptor (d : D) : BondryDedupStoreV1 :=
  mk_dedup_store_v1 BONDRY_DEDUP_STORE_ABI_VERSION_V1 DEDUP_STORE_SIZE BONDRY_DEDUP_THREADING_SERIALIZED_V1
    BONDRY_STORE_DURABILITY_PERSISTENT_V1 (Some d) (Some retain_context) (Some release_context) (Some abi_claim) (Some abi_complete)
    (Some abi_mark_unknown) (Some abi_release_claim) (Some abi_query) (Some abi_recover) (Some abi_resolve_unknown)
    (Some abi_visit_unknown) (Some abi_clear_completed).

(** *** Deriving a descriptor

    The part of [StoreHandle] that replay protection uses: the store, and whether claims of an
    earlier process were recovered, [None] if the lock is poisoned. *)
Record StoreHandle := mk_store_handle {
  sh_store : SqlCipherStore;
  sh_dedup_recovered : option bool;
}.

(** [unix_milliseconds] of a clock in nanoseconds, [None] before the epoch. *)
Definition derivation_time (system : option Z) : result Z Z :=
  now ← ok_or system BONDRY_STATUS_TIME_UNAVAILABLE;
  ok_or (try_unsigned U64_MAX (as_millis now)) BONDRY_STATUS_TIME_UNAVAILABLE.

Definition dedup_store_zeroed : BondryDedupStoreV1 :=
  mk_dedup_store_v1 0 0 0 0 None None None None None None None None None None None None.

(** [bondry_store_dedup_v1]: the status, what is written to [out_dedup], and the handle. *)
Definition derive_dedup (handle : StoreHandle) (limits : DedupStoreLimits) (system : option Z) : Z * BondryDedupStoreV1 * StoreHandle :=
  let dedup := mk_sql_dedup (sh_store handle) limits in
  match sh_dedup_recovered handle with
  | None => (BONDRY_STATUS_UNAVAILABLE, dedup_store_zeroed, handle)
  | Some true => (BONDRY_STATUS_OK, dedup_descriptor dedup, handle)
  | Some false =>
      match derivation_time system with
      | Err status => (status, dedup_store_zeroed, handle)
      | Ok now =>
          match recover_in_flight now dedup with
          | (Err error, dedup) => (store_status error, dedup_store_zeroed, mk_store_handle (sdd_store dedup) (Some false))
          | (Ok _, dedup) => (BONDRY_STATUS_OK, dedup_descriptor dedup, mk_store_handle (sdd_store dedup) (Some true))
          end
      end
  end.
Definition bondry_store_dedup_v1 (store : pointer StoreHandle) (max_records max_bytes retention_seconds : Z) (system : option Z)
    (out_dedup : pointer BondryDedupStoreV1) : Z * pointer BondryDedupStoreV1 * pointer StoreHandle :=
  match out_dedup with
  | None => (BONDRY_STATUS_NULL_POINTER, None, store)
  | Some _ =>
      match store with
      | None => (BONDRY_STATUS_NULL_POINTER, Some dedup_store_zeroed, None)
      | Some handle =>
          match DedupStoreLimits_new max_records max_bytes (from_secs retention_seconds) with
          | Err _ => (BONDRY_STATUS_INVALID_ARGUMENT, Some dedup_store_zeroed, Some handle)
          | Ok limits => let '(status, d, handle) := derive_dedup handle limits system in (status, Some d, Some handle)
          end
      end
  end.
End callbacks.

(** ** The side of webhook ingress (store.rs) *)

Record ForeignDedupStore := mk_foreign_dedup { fd_descriptor : BondryDedupStoreV1 }.

Definition decode_dedup_status (status : Z) : result DedupStoreError unit :=
  match status with
  | 0 => Ok ()
  | 32 => Err DedupCapacityExhausted
  | 20 => Err DedupNotFound
  | 33 => Err DedupInvalidTransition
  | _ => Err DedupUnavailable
  end.

Definition foreign_decode_state (state : Z) : result DedupStoreError DedupState :=
  match state with
  | 1 => Ok InFlight
  | 2 => Ok Completed
  | 3 => Ok Unknown
  | _ => Err DedupUnavailable
  end.

(** [terminated]: nothing but zeros may follow the first one. *)
Definition terminated_exact (bytes : list byte) : result DedupStoreError rstr :=
  parts ← ok_or (split_at_first (fun byte => byte =? 0) bytes) DedupUnavailable;
  if bool_decide (parts.1 = []) || existsb (fun byte => negb (byte =? 0)) (tail parts.2) then Err DedupUnavailable
  else ok_or (from_utf8 parts.1) DedupUnavailable.

Definition foreign_decode_dedup_record (record : BondryDedupRecordV1) : result DedupStoreError DedupRecord :=
  route ← terminated_exact (v1_route record);
  route ← map_err (fun _ => DedupUnavailable) (RouteId_new route);
  namespace ← terminated_exact (v1_namespace record);
  namespace ← map_err (fun _ => DedupUnavailable) (VerifierNamespace_new namespace);
  state ← foreign_decode_state (v1_dedup_state record);
  Ok (mk_dedup_record (mk_dedup_key route namespace (mk_id_hash (v1_hash record))) state (v1_dedup_updated record)).

Definition set_dedup_context (context : pointer D) (f : ForeignDedupStore) : ForeignDedupStore :=
  let d := fd_descriptor f in
  mk_foreign_dedup (mk_dedup_store_v1 (dv_abi_version d) (dv_struct_size d) (dv_threading_model d) (dv_durability d) context
    (dv_retain d) (dv_release d) (dv_claim d) (dv_complete d) (dv_mark_unknown d) (dv_release_claim d) (dv_query d) (dv_recover d)
    (dv_resolve_unknown d) (dv_visit_unknown d) (dv_clear_completed d)).

(** [ForeignDedupStore::retain]. *)
Definition foreign_retain (d : BondryDedupStoreV1) : result unit ForeignDedupStore :=
  if negb (dv_abi_version d =? 1) || negb (dv_struct_size d =? DEDUP_STORE_SIZE) || negb (dv_threading_model d =? 1)
     || negb (dv_durability d =? 2) || bool_decide (dv_context d = None) then Err ()
  else
    match dv_retain d, dv_release d, dv_claim d, dv_complete d, dv_mark_unknown d, dv_release_claim d, dv_query d, dv_recover d,
      dv_resolve_unknown d, dv_visit_unknown d, dv_clear_completed d with
    | Some retain, Some _, Some _, Some _, Some _, Some _, Some _, Some _, Some _, Some _, Some _ =>
        match retain (dv_context d) with
        | None => Err ()
        | Some context => Ok (set_dedup_context (Some context) (mk_foreign_dedup d))
        end
    | _, _, _, _, _, _, _, _, _, _, _ => Err ()
    end.

(** [Drop for ForeignDedupStore]. *)
Definition foreign_dedup_drop (f : ForeignDedupStore) : Z :=
  match dv_release (fd_descriptor f) with Some release => release (dv_context (fd_descriptor f)) | None => 0 end.

Definition route_part (key : DedupKey) : buffer := Some (as_bytes (as_str (dk_route key))).
Definition namespace_part (key : DedupKey) : buffer := Some (as_bytes (as_str (dk_namespace key))).
Definition hash_part (key : DedupKey) : buffer := Some (id_hash_bytes (dk_delivery_hash key)).

Definition foreign_transition (callback : option (pointer D -> buffer -> buffer -> buffer -> Z -> Z * pointer D)) (key : DedupKey)
    (updated_at : Z) (f : ForeignDedupStore) : result DedupStoreError unit * ForeignDedupStore :=
  match callback with
  | None => (Err DedupUnavailable, f)
  | Some callback =>
      let '(status, context) := callback (dv_context (fd_descriptor f)) (route_part key) (namespace_part key) (hash_part key) updated_at in
      (decode_dedup_status status, set_dedup_context context f)
  end.

Definition foreign_claim (key : DedupKey) (policy : DedupClaimPolicy) (updated_at : Z) (f : ForeignDedupStore)
    : result DedupStoreError DedupClaim * ForeignDedupStore :=
  match dv_claim (fd_descriptor f) with
  | None => (Err DedupUnavailable, f)
  | Some callback =>
      let policy := match policy with RetainCompleted => 1 | ExpireCompleted => 2 end in
      let '(status, out_result, out_state, context) :=
        callback (dv_context (fd_descriptor f)) (route_part key) (namespace_part key) (hash_part key) policy updated_at (Some 0) (Some 0) in
      (_ ← decode_dedup_status status;
       match default 0 out_result with
       | 1 => if default 0 out_state =? 0 then Ok Claimed else Err DedupUnavailable
       | 2 => state ← foreign_decode_state (default 0 out_state); Ok (Duplicate state)
       | _ => Err DedupUnavailable
       end, set_dedup_context context f)
  end.

Definition foreign_complete (key : DedupKey) (updated_at : Z) (f : ForeignDedupStore) : result DedupStoreError unit * ForeignDedupStore :=
  foreign_transition (dv_complete (fd_descriptor f)) key updated_at f.
Definition foreign_mark_unknown (key : DedupKey) (updated_at : Z) (f : ForeignDedupStore) : result DedupStoreError unit * ForeignDedupStore :=
  foreign_transition (dv_mark_unknown (fd_descriptor f)) key updated_at f.
Definition foreign_release_claim (key : DedupKey) (f : ForeignDedupStore) : result DedupStoreError unit * ForeignDedupStore :=
  foreign_transition (dv_release_claim (fd_descriptor f)) key 0 f.

Definition foreign_record (key : DedupKey) (f : ForeignDedupStore) : result DedupStoreError (option DedupRecord) * ForeignDedupStore :=
  match dv_query (fd_descriptor f) with
  | None => (Err DedupUnavailable, f)
  | Some callback =>
      let '(status, found, record, context) := callback (dv_context (fd_descriptor f)) (route_part key) (namespace_part key) (hash_part key)
        (Some 0) (Some dedup_record_zeroed) in
      (_ ← decode_dedup_status status;
       match default 0 found with
       | 0 => Ok None
       | 1 => record ← foreign_decode_dedup_record (default dedup_record_zeroed record); Ok (Some record)
       | _ => Err DedupUnavailable
       end, set_dedup_context context f)
  end.

(** The common part of [recover_in_flight] and [clear_completed_before]. *)
Definition foreign_counted (callback : option (pointer D -> Z -> pointer Z -> Z * pointer Z * pointer D)) (at_ : Z) (f : ForeignDedupStore)
    : result DedupStoreError Z * ForeignDedupStore :=
  match callback with
  | None => (Err DedupUnavailable, f)
  | Some callback =>
      let '(status, count, context) := callback (dv_context (fd_descriptor f)) at_ (Some 0) in
      (_ ← decode_dedup_status status; Ok (default 0 count), set_dedup_context context f)
  end.
Definition foreign_recover_in_flight (updated_at : Z) (f : ForeignDedupStore) : result DedupStoreError Z * ForeignDedupStore :=
  foreign_counted (dv_recover (fd_descriptor f)) updated_at f.
Definition foreign_clear_completed_before (updated_before : Z) (f : ForeignDedupStore) : result DedupStoreError Z * ForeignDedupStore :=
  foreign_counted (dv_clear_completed (fd_descriptor f)) updated_before f.

Definition foreign_resolve_unknown (key : DedupKey) (resolution : DedupResolution) (updated_at : Z) (f : ForeignDedupStore)
    : result DedupStoreError unit * ForeignDedupStore :=
  match dv_resolve_unknown (fd_descriptor f) with
  | None => (Err DedupUnavailable, f)
  | Some callback =>
      let resolution := match resolution with ResolveCompleted => 1 | ResolveRetryAllowed => 2 end in
      let '(status, context) := callback (dv_context (fd_descriptor f)) (route_part key) (namespace_part key) (hash_part key) resolution
        updated_at in
      (decode_dedup_status status, set_dedup_context context f)
  end.

(** [visit_record] on the state of the visitor and the flag of [VisitContext]. *)
Definition visit_record {V} (visitor : DedupRecord -> V -> bool * V * list DedupOp) : UnknownVisitor (V * bool) := fun raw x =>
  match foreign_decode_dedup_record raw with
  | Ok record => let '(keep_going, v, ops) := visitor record x.1 in ((if (keep_going : bool) then 1 else 0), (v, x.2), ops)
  | Err _ => (0, (x.1, true), [])
  end.

Definition foreign_visit_unknown {V} (visitor : DedupRecord -> V -> bool * V * list DedupOp) (fuel : nat) (v : V) (f : ForeignDedupStore)
    : option (result DedupStoreError unit) * V * ForeignDedupStore :=
  match dv_visit_unknown (fd_descriptor f) with
  | None => (Some (Err DedupUnavailable), v, f)
  | Some callback =>
      let '(status, x, context) := callback _ (dv_context (fd_descriptor f)) (visit_record visitor) fuel (v, false) in
      ((fun status => _ ← decode_dedup_status status; if (x.2 : bool) then Err DedupUnavailable else Ok ()) <$> status, x.1,
       set_dedup_context context f)
  end.

#[global] Instance ForeignDedupStore_store : DedupStore ForeignDedupStore := {
  dedup_durability _ := Persistent;
  claim := foreign_claim;
  complete := foreign_complete;
  mark_unknown := foreign_mark_unknown;
  release_claim := foreign_release_claim;
  dedup_record := foreign_record;
  recover_in_flight := foreign_recover_in_flight;
  resolve_unknown := foreign_resolve_unknown;
  clear_completed_before := foreign_clear_completed_before;
}.

(** ** Values survive the crossing *)

#[local] Arguments required_utf8 : simpl never.

Definition key_valid (k : DedupKey) : Prop :=
  portable MAX_ROUTE_ID_BYTES (as_str (dk_route k)) /\ portable MAX_VERIFIER_NAMESPACE_BYTES (as_str (dk_namespace k)) /\
  length (id_hash_bytes (dk_delivery_hash k)) = 32%nat.

Lemma key_valid_wf k : key_valid k <-> dedup_key_wf k.
Proof.
  unfold key_valid, dedup_key_wf, RouteId_new, VerifierNamespace_new. rewrite !PersistenceIdentifier_new_ok. destruct k as [[] [] []]. cbn. naive_solver.
Qed.

(** The bytes of an identifier are read as that identifier, or refused. *)
Lemma required_identifier {k} maximum (i : Id k) :
  maximum <= 128 ->
  if decide (portable maximum (as_str i))
  then required_utf8 (Some (as_bytes (as_str i))) = Ok (as_str i) /\ @PersistenceIdentifier_new k maximum (as_str i) = Ok i
  else required_utf8 (Some (as_bytes (as_str i))) = Err BONDRY_STATUS_INVALID_LENGTH \/
       required_utf8 (Some (as_bytes (as_str i))) = Err BONDRY_STATUS_INVALID_UTF8 \/
       exists s e, required_utf8 (Some (as_bytes (as_str i))) = Ok s /\ @PersistenceIdentifier_new k maximum s = Err e.
Proof.
  intros Hm. case_decide as Hp.
  - split; [by eapply required_utf8_portable|]. apply PersistenceIdentifier_new_ok. by destruct i.
  - unfold required_utf8. cbn. destruct (ISIZE_MAX <? _); [by left|]. right. destruct (from_utf8 _) as [t|] eqn:Hu; [|by left]. right.
    exists t. destruct (PersistenceIdentifier_new maximum t) as [j|e] eqn:Hj; [|by exists e]. apply PersistenceIdentifier_new_ok in Hj as [_ Hj].
    by rewrite (from_utf8_portable_inv _ _ _ Hu Hj) in Hj.
Qed.

Lemma parse_key_cases k :
  if decide (key_valid k) then parse_key (route_part k) (namespace_part k) (hash_part k) = Ok k
  else exists status, parse_key (route_part k) (namespace_part k) (hash_part k) = Err status /\ decode_dedup_status status = Err DedupUnavailable.
Proof.
  pose proof (required_identifier MAX_ROUTE_ID_BYTES (dk_route k) ltac:(done)) as Hr.
  pose proof (required_identifier MAX_VERIFIER_NAMESPACE_BYTES (dk_namespace k) ltac:(done)) as Hn.
  unfold parse_key, route_part, namespace_part, hash_part, key_valid, RouteId_new, VerifierNamespace_new.
  destruct (decide (portable MAX_ROUTE_ID_BYTES _)) as [H1|H1].
  2: { rewrite decide_False by tauto. destruct Hr as [-> |[-> |(s & e & -> & He)]]; cbn; [eauto..|]. rewrite He. cbn. eauto. }
  destruct Hr as [-> Hr]. cbn [result_bind mbind]. cbn. rewrite Hr. cbn.
  destruct (decide (portable MAX_VERIFIER_NAMESPACE_BYTES _)) as [H2|H2].
  2: { rewrite decide_False by tauto. destruct Hn as [-> |[-> |(s & e & -> & He)]]; cbn; [eauto..|]. rewrite He. cbn. eauto. }
  destruct Hn as [-> Hn]. cbn. rewrite Hn. cbn. destruct (Nat.eqb_spec (length (id_hash_bytes (dk_delivery_hash k))) 32) as [H3|H3].
  - rewrite decide_True by tauto. by destruct k as [? ? []].
  - rewrite decide_False by tauto. cbn. eauto.
Qed.

Lemma dedup_status_round_trip r : decode_dedup_status (dedup_status r) = r.
Proof. by destruct r as [[]|[]]. Qed.

Lemma terminated_exact_round_trip maximum s :
  portable maximum s -> maximum <= 128 ->
  exists bytes, terminated BONDRY_IDENTIFIER_CAPACITY_V1 s = Some bytes /\ terminated_exact bytes = Ok s.
Proof.
  intros H Hm. rewrite (terminated_portable _ _ H Hm). destruct (terminated_split _ _ H Hm) as (n & -> & Hs).
  eexists. split; [done|]. unfold terminated_exact. rewrite Hs. cbn [ok_or result_bind fst snd tail replicate]. cbn.
  rewrite bool_decide_false by (by destruct H). cbn. assert (existsb (fun byte => negb (byte =? 0)) (replicate n 0) = false) as ->
    by (clear; induction n; done). by rewrite (proj2 (portable_bytes _ _ H)).
Qed.

Lemma dedup_record_round_trip r :
  key_valid (dr_key r) -> exists raw, from_dedup_record r = Some raw /\ foreign_decode_dedup_record raw = Ok r.
Proof.
  destruct r as [[route namespace [hash]] state at_]. intros (Hr & Hn & Hh). cbn in Hr, Hn, Hh.
  destruct (terminated_exact_round_trip _ _ Hr (Z.le_refl 128)) as (b1 & Ht1 & Hu1).
  destruct (terminated_exact_round_trip _ _ Hn (Z.le_refl 128)) as (b2 & Ht2 & Hu2).
  unfold from_dedup_record. cbn [dr_key dk_route dk_namespace dk_delivery_hash id_hash_bytes dr_state dr_updated_at]. rewrite Ht1, Ht2.
  eexists. split; [reflexivity|]. unfold foreign_decode_dedup_record. cbn [v1_route v1_namespace v1_hash v1_dedup_state v1_dedup_updated].
  rewrite Hu1, Hu2. unfold RouteId_new, VerifierNamespace_new.
  assert (PersistenceIdentifier_new MAX_ROUTE_ID_BYTES (as_str route) = Ok route) as E1 by (apply PersistenceIdentifier_new_ok; by destruct route).
  assert (PersistenceIdentifier_new MAX_VERIFIER_NAMESPACE_BYTES (as_str namespace) = Ok namespace) as E2
    by (apply PersistenceIdentifier_new_ok; by destruct namespace).
  cbn. rewrite E1. cbn. rewrite E2. cbn. by destruct state.
Qed.

Lemma validate_dedup_valid columns row r : validate_dedup columns row = Ok r -> key_valid (dr_key r).
Proof.
  unfold validate_dedup. intros Hr. apply result_bind_Ok in Hr as (route & Hroute & Hr). apply result_bind_Ok in Hr as (ns & Hns & Hr).
  destruct (Nat.eqb_spec (length columns.2) 32) as [Hlen|]; [|done]. cbn in Hr. apply result_bind_Ok in Hr as (t & _ & Hr).
  apply result_bind_Ok in Hr as (st & _ & [= <-]). cbn.
  destruct (RouteId_new _) eqn:H1 in Hroute; [|done]. injection Hroute as <-. destruct (VerifierNamespace_new _) eqn:H2 in Hns; [|done].
  injection Hns as <-. apply PersistenceIdentifier_new_ok in H1 as [-> H1], H2 as [-> H2]. done.
Qed.

Section crossing.
  Context `{Env : SqlEnv}.

(** Records that the store hands out have keys that a verifier could have made. *)
Lemma on_sdd_result {A} (m : action SqlCipherStore DedupStoreError A) (P : result DedupStoreError A -> Prop) d :
  runs m (fun r _ => P r) (sdd_store d) -> P (on_sdd m d).1.
Proof. intros HP%runs_result. unfold on_sdd. by destruct (m (sdd_store d)). Qed.

Lemma dedup_record_valid k (d : D) r : (dedup_record k d).1 = Ok (Some r) -> key_valid (dr_key r).
Proof.
  apply (on_sdd_result (sdd_record k) (fun res => res = Ok (Some r) -> key_valid (dr_key r))). unfold sdd_record.
  tx_step; [done|]. tx_step; [done|]. unfold select. destruct (t_dedup _ !! key_columns k) as [row|]; [|done]. cbn.
  destruct (validate_dedup _ row) as [r'|] eqn:Hr; [|done]. intros [= <-]. by eapply validate_dedup_valid.
Qed.

Lemma next_unknown_valid cursor ceiling d r : (on_sdd (next_unknown cursor ceiling) d).1 = Ok (Some r) -> key_valid (dr_key r).
Proof.
  apply (on_sdd_result (next_unknown cursor ceiling) (fun res => res = Ok (Some r) -> key_valid (dr_key r))). unfold next_unknown.
  tx_step; [done|]. tx_step; [done|]. unfold select. destruct (sql_next_unknown _ _ _) as [[columns row]|]; [|done]. cbn.
  destruct (validate_dedup _ row) as [r'|] eqn:Hr; [|done]. intros [= <-]. by eapply validate_dedup_valid.
Qed.

(** ** The store on this side is the store on the other *)

Definition foreign_of_dedup (d : D) : ForeignDedupStore := mk_foreign_dedup (dedup_descriptor d).
Definition across_dedup {A} (x : A * D) : A * ForeignDedupStore := (x.1, foreign_of_dedup x.2).
Definition refused_dedup {A} (d : D) : result DedupStoreError A * ForeignDedupStore := (Err DedupUnavailable, foreign_of_dedup d).

Lemma transition_cases callback k t d operation :
  (forall context r n h, callback context r n h t = abi_transition context r n h operation) ->
  foreign_transition (Some callback) k t (foreign_of_dedup d) = if decide (key_valid k) then across_dedup (operation k d) else refused_dedup d.
Proof.
  intros Hcb. unfold foreign_transition. rewrite Hcb. unfold abi_transition. cbn [foreign_of_dedup fd_descriptor dedup_descriptor dv_context].
  pose proof (parse_key_cases k) as Hk. case_decide.
  - rewrite Hk. destruct (operation k d) as [r d']. cbn. by rewrite dedup_status_round_trip.
  - destruct Hk as (status & -> & Hs). cbn. by rewrite Hs.
Qed.

Lemma foreign_complete_cases k t d :
  foreign_complete k t (foreign_of_dedup d) = if decide (key_valid k) then across_dedup (complete k t d) else refused_dedup d.
Proof. by apply (transition_cases abi_complete k t d (fun key => complete key t)). Qed.
Lemma foreign_mark_unknown_cases k t d :
  foreign_mark_unknown k t (foreign_of_dedup d) = if decide (key_valid k) then across_dedup (mark_unknown k t d) else refused_dedup d.
Proof. by apply (transition_cases abi_mark_unknown k t d (fun key => mark_unknown key t)). Qed.
Lemma foreign_release_cases k d :
  foreign_release_claim k (foreign_of_dedup d) = if decide (key_valid k) then across_dedup (release_claim k d) else refused_dedup d.
Proof. by apply (transition_cases abi_release_claim k 0 d release_claim). Qed.

Lemma foreign_resolve_cases k res t d :
  foreign_resolve_unknown k res t (foreign_of_dedup d) = if decide (key_valid k) then across_dedup (resolve_unknown k res t d) else refused_dedup d.
Proof.
  unfold foreign_resolve_unknown. cbn [foreign_of_dedup fd_descriptor dedup_descriptor dv_context dv_resolve_unknown abi_resolve_unknown].
  pose proof (parse_key_cases k) as Hk. case_decide.
  - rewrite Hk. destruct res; destruct (resolve_unknown _ _ t d) as [r d']; cbn; by rewrite dedup_status_round_trip.
  - destruct Hk as (status & -> & Hs). destruct res; cbn; by rewrite Hs.
Qed.

Lemma foreign_claim_cases k p t d :
  foreign_claim k p t (foreign_of_dedup d) = if decide (key_valid k) then across_dedup (claim k p t d) else refused_dedup d.
Proof.
  unfold foreign_claim. cbn [foreign_of_dedup fd_descriptor dedup_descriptor dv_context dv_claim abi_claim].
  pose proof (parse_key_cases k) as Hk. case_decide.
  - rewrite Hk. destruct p; destruct (claim _ _ t d) as [[[|[]]|[]] d']; done.
  - destruct Hk as (status & -> & Hs). destruct p; cbn; by rewrite Hs.
Qed.

Lemma foreign_record_cases k d :
  foreign_record k (foreign_of_dedup d) = if decide (key_valid k) then across_dedup (dedup_record k d) else refused_dedup d.
Proof.
  unfold foreign_record. cbn [foreign_of_dedup fd_descriptor dedup_descriptor dv_context dv_query abi_query].
  pose proof (parse_key_cases k) as Hk. case_decide.
  - rewrite Hk. pose proof (dedup_record_valid k d) as Hv. destruct (dedup_record k d) as [[[r|]|[]] d']; [|done..].
    destruct (dedup_record_round_trip r (Hv r eq_refl)) as (raw & -> & Hraw). cbn. by rewrite Hraw.
  - destruct Hk as (status & -> & Hs). cbn. by rewrite Hs.
Qed.

Lemma foreign_recover_across_dedup t d : foreign_recover_in_flight t (foreign_of_dedup d) = across_dedup (recover_in_flight t d).
Proof.
  unfold foreign_recover_in_flight, foreign_counted. cbn [foreign_of_dedup fd_descriptor dedup_descriptor dv_context dv_recover abi_recover abi_counted].
  by destruct (recover_in_flight t d) as [[n|[]] d'].
Qed.
Lemma foreign_clear_across t d : foreign_clear_completed_before t (foreign_of_dedup d) = across_dedup (clear_completed_before t d).
Proof.
  unfold foreign_clear_completed_before, foreign_counted.
  cbn [foreign_of_dedup fd_descriptor dedup_descriptor dv_context dv_clear_completed abi_clear_completed abi_counted].
  by destruct (clear_completed_before t d) as [[n|[]] d'].
Qed.

(** *** The traversal

    A callback that treats every valid record as [visitor] does, on a state that carries the
    visitor's, visits the same records. *)
Lemma visit_loop_same {V W} (visitor : DedupRecord -> V -> bool * V * list DedupOp) (callback : DedupRecord -> W -> bool * W * list DedupOp)
    (carry : V -> W) :
  (forall r v, key_valid (dr_key r) -> callback r (carry v) = let '(go_on, v, ops) := visitor r v in (go_on, carry v, ops)) ->
  forall fuel ceiling cursor v d,
    visit_loop callback fuel ceiling cursor (carry v) d = let '(r, v, d) := visit_loop visitor fuel ceiling cursor v d in (r, carry v, d).
Proof.
  intros Hcb fuel. induction fuel as [|fuel IH]; intros ceiling cursor v d; [done|]. cbn.
  pose proof (next_unknown_valid cursor ceiling d) as Hv. destruct (on_sdd _ d) as [[[r|]|e] d']; [|done..].
  rewrite (Hcb r v (Hv r eq_refl)). destruct (visitor r v) as [[[] v'] ops]; [|done]. apply IH.
Qed.

Lemma visit_record_valid {V} (visitor : DedupRecord -> V -> bool * V * list DedupOp) r v :
  key_valid (dr_key r) ->
  match from_dedup_record r with
  | None => (false, ((v, false), true), [])
  | Some raw => let '(go_on, x, ops) := visit_record visitor raw (v, false) in (negb (go_on =? 0), (x, false), ops)
  end = let '(go_on, v, ops) := visitor r v in (go_on, ((v, false), false), ops).
Proof.
  intros Hr. destruct (dedup_record_round_trip r Hr) as (raw & -> & Hraw). unfold visit_record. rewrite Hraw. cbn.
  by destruct (visitor r v) as [[[] v'] ops].
Qed.

Lemma foreign_visit_across {V} (visitor : DedupRecord -> V -> bool * V * list DedupOp) fuel v d :
  foreign_visit_unknown visitor fuel v (foreign_of_dedup d) =
    let '(r, v, d) := visit_unknown visitor fuel v d in (r, v, foreign_of_dedup d).
Proof.
  unfold foreign_visit_unknown. cbn [foreign_of_dedup fd_descriptor dedup_descriptor dv_context dv_visit_unknown abi_visit_unknown].
  unfold visit_unknown. destruct (on_sdd unknown_scan_ceiling d) as [[ceiling|e] d']; [|by destruct e].
  rewrite (visit_loop_same visitor _ (fun v : V => ((v, false), false))) by (intros r v'; apply visit_record_valid).
  destruct (visit_loop visitor fuel ceiling None v d') as [[r v'] d'']. cbn. destruct r as [[[]|[]]|]; done.
Qed.

Definition crosses_dedup (op : DedupOp) : Prop :=
  match op with
  | DClaim k _ _ | DComplete k _ | DMarkUnknown k _ | DRelease k | DResolve k _ _ => key_valid k
  | DRecover _ | DClear _ => True
  end.
#[global] Instance crosses_dedup_dec op : Decision (crosses_dedup op).
Proof. destruct op; cbn; apply _. Defined.

(** A history of operations, those the interface refuses left out. *)
Lemma foreign_dedup_run ops d : dedup_run ops (foreign_of_dedup d) = foreign_of_dedup (dedup_run (filter crosses_dedup ops) d).
Proof.
  revert d. induction ops as [|op ops IH]; intros d; [done|]. rewrite filter_cons.
  assert (dedup_apply op (foreign_of_dedup d) = if decide (crosses_dedup op) then foreign_of_dedup (dedup_apply op d) else foreign_of_dedup d) as Hop.
  { destruct op as [k p t|k t|k t|k|t|k r t|t]; cbn [dedup_apply crosses_dedup claim complete mark_unknown release_claim recover_in_flight
      resolve_unknown clear_completed_before ForeignDedupStore_store].
    - rewrite foreign_claim_cases. by repeat case_decide.
    - rewrite foreign_complete_cases. by repeat case_decide.
    - rewrite foreign_mark_unknown_cases. by repeat case_decide.
    - rewrite foreign_release_cases. by repeat case_decide.
    - rewrite foreign_recover_across_dedup. by rewrite decide_True.
    - rewrite foreign_resolve_cases. by repeat case_decide.
    - rewrite foreign_clear_across. by rewrite decide_True. }
  cbn. rewrite Hop. case_decide; apply IH.
Qed.

(** ** The store as webhook ingress sees it

    What the ingress library holds is always a descriptor of a store. *)
Record LinkedDedup := linked_dedup { linked_store : D }.

Definition through_dedup {A} (op : ForeignDedupStore -> A * ForeignDedupStore) (k : LinkedDedup) : A * LinkedDedup :=
  let '(r, f) := op (foreign_of_dedup (linked_store k)) in (r, linked_dedup (default (linked_store k) (dv_context (fd_descriptor f)))).

#[global] Instance LinkedDedup_store : DedupStore LinkedDedup := {
  dedup_durability k := dedup_durability (foreign_of_dedup (linked_store k));
  claim key p t := through_dedup (claim key p t);
  complete key t := through_dedup (complete key t);
  mark_unknown key t := through_dedup (mark_unknown key t);
  release_claim key := through_dedup (release_claim key);
  dedup_record key := through_dedup (dedup_record key);
  recover_in_flight t := through_dedup (recover_in_flight t);
  resolve_unknown key r t := through_dedup (resolve_unknown key r t);
  clear_completed_before t := through_dedup (clear_completed_before t);
}.

Lemma through_dedup_cases {A} (op : ForeignDedupStore -> result DedupStoreError A * ForeignDedupStore) (P : Prop) `{!Decision P} x k :
  op (foreign_of_dedup (linked_store k)) = (if decide P then across_dedup x else refused_dedup (linked_store k)) ->
  through_dedup op k = if decide P then (x.1, linked_dedup x.2) else (Err DedupUnavailable, k).
Proof. unfold through_dedup. intros ->. destruct k as [d]. by case_decide. Qed.

Lemma through_dedup_across {A} (op : ForeignDedupStore -> A * ForeignDedupStore) x k :
  op (foreign_of_dedup (linked_store k)) = across_dedup x -> through_dedup op k = (x.1, linked_dedup x.2).
Proof. unfold through_dedup. by intros ->. Qed.

(** The guarantees of webhook ingress over any store of the contract hold over the interface. *)
#[global] Program Instance LinkedDedup_spec : DedupStoreSpec LinkedDedup := {|
  dedup_ok k := dedup_ok (linked_store k);
  dedup_view k := dedup_view (linked_store k);
|}.
Next Obligation.
  intros key p t k Hok Hkey Ht. cbn. rewrite (through_dedup_cases _ _ _ _ (foreign_claim_cases key p t (linked_store k))).
  rewrite decide_True by (by apply key_valid_wf). pose proof (claim_spec key p t (linked_store k) Hok Hkey Ht) as Hs.
  by destruct (claim key p t (linked_store k)) as [[[]|]].
Qed.
Next Obligation.
  intros key t k Hok Ht. cbn. rewrite (through_dedup_cases _ _ _ _ (foreign_complete_cases key t (linked_store k))).
  case_decide; [|by split; [|left]]. pose proof (complete_spec key t (linked_store k) Hok Ht) as Hs. by destruct (complete _ _ _).
Qed.
Next Obligation.
  intros key t k Hok Ht. cbn. rewrite (through_dedup_cases _ _ _ _ (foreign_mark_unknown_cases key t (linked_store k))).
  case_decide; [|by split; [|left]]. pose proof (mark_unknown_spec key t (linked_store k) Hok Ht) as Hs. by destruct (mark_unknown _ _ _).
Qed.
Next Obligation.
  intros key k Hok. cbn. rewrite (through_dedup_cases _ _ _ _ (foreign_release_cases key (linked_store k))).
  case_decide; [|by split; [|left]]. pose proof (release_claim_spec key (linked_store k) Hok) as Hs. by destruct (release_claim _ _).
Qed.
Next Obligation.
  intros key k Hok. cbn. rewrite (through_dedup_cases _ _ _ _ (foreign_record_cases key (linked_store k))).
  case_decide; [|done]. pose proof (dedup_record_spec key (linked_store k) Hok) as Hs. by destruct (dedup_record _ _).
Qed.
Next Obligation.
  intros t k Hok Ht. cbn. rewrite (through_dedup_across _ _ _ (foreign_recover_across_dedup t (linked_store k))).
  pose proof (recover_in_flight_spec t (linked_store k) Hok Ht) as Hs. by destruct (recover_in_flight _ _).
Qed.
Next Obligation.
  intros key r t k Hok Ht. cbn. rewrite (through_dedup_cases _ _ _ _ (foreign_resolve_cases key r t (linked_store k))).
  case_decide; [|by split; [|left]]. pose proof (resolve_unknown_spec key r t (linked_store k) Hok Ht) as Hs. by destruct (resolve_unknown _ _ _ _).
Qed.
Next Obligation.
  intros t k Hok. cbn. rewrite (through_dedup_across _ _ _ (foreign_clear_across t (linked_store k))).
  pose proof (clear_completed_before_spec t (linked_store k) Hok) as Hs. by destruct (clear_completed_before _ _).
Qed.

Lemma foreign_retain_of d : foreign_retain (dedup_descriptor d) = Ok (foreign_of_dedup d).
Proof. reflexivity. Qed.

Lemma derivation_time_range system now : derivation_time system = Ok now -> 0 <= now <= U64_MAX.
Proof.
  unfold derivation_time. destruct system as [t|]; [|done]. cbn. unfold try_unsigned. destruct (_ && _) eqn:Hb; [|done].
  intros [= <-]. bools. lia.
Qed.

(** What deriving a descriptor does to the claims of the store. *)
Definition derived (handle : StoreHandle) (limits : DedupStoreLimits) (handle' : StoreHandle) : Prop :=
  sh_dedup_recovered handle' = Some true /\
  let before := dedup_view (mk_sql_dedup (sh_store handle) limits) in
  let after := dedup_view (mk_sql_dedup (sh_store handle') limits) in
  match sh_dedup_recovered handle with
  | Some true => after = before
  | _ => exists now, after = recovered now <$> before
  end.

Lemma derive_dedup_spec handle limits system :
  dedup_ok (mk_sql_dedup (sh_store handle) limits) ->
  let '(status, d, handle') := derive_dedup handle limits system in
  dedup_ok (mk_sql_dedup (sh_store handle') limits) /\
  if decide (status = BONDRY_STATUS_OK)
  then d = dedup_descriptor (mk_sql_dedup (sh_store handle') limits) /\ derived handle limits handle'
  else d = dedup_store_zeroed /\ sh_dedup_recovered handle' = sh_dedup_recovered handle.
Proof.
  intros Hok. unfold derive_dedup, derived. destruct (sh_dedup_recovered handle) as [[]|] eqn:Hflag.
  - by rewrite decide_True.
  - destruct (derivation_time system) as [now|status] eqn:Hnow.
    + pose proof (recover_in_flight_spec now _ Hok (derivation_time_range _ _ Hnow)) as Hr. cbn in Hr |- *. unfold on_sdd in *.
      cbn [sdd_store sdd_limits] in *. destruct (sdd_recover_in_flight now (sh_store handle)) as [[n|e] s].
      * rewrite decide_True by done. destruct Hr as [Hok' Hview]. split; [done|]. split; [done|]. split; [done|].
        exists now. destruct Hview as [[_ [=]]|Hview]. exact Hview.
      * destruct Hr as [Hok' _]. split; [done|]. by destruct e.
    + split; [done|]. unfold derivation_time in Hnow. destruct system as [t|]; cbn in Hnow; [|by injection Hnow as <-].
      destruct (try_unsigned _ _); [done|]. by injection Hnow as <-.
  - done.
Qed.

(** C20: replay protection crosses the C interface unchanged.  A descriptor is handed out only
    after the claims an earlier process left in flight became unknown, once for each opened
    store and never again, so that claims in flight now are not disturbed; where recovery
    fails nothing is handed out.  Whatever operations run over the descriptor, each with a key
    that a verifier can make has the effect and the answer of the operation on the store, and
    a record reads the same on both sides; other keys are refused and nothing changes.  The
    traversal of unknown claims visits the same records, whatever its visitor does. *)
Theorem dedup_store_crosses_interface handle limits system :
  dedup_ok (mk_sql_dedup (sh_store handle) limits) ->
  let '(status, descriptor, handle') := derive_dedup handle limits system in
  let d := mk_sql_dedup (sh_store handle') limits in
  if decide (status = BONDRY_STATUS_OK) then
    derived handle limits handle' /\ foreign_retain descriptor = Ok (foreign_of_dedup d) /\
    forall history, let f := dedup_run history (foreign_of_dedup d) in let d' := dedup_run (filter crosses_dedup history) d in
      f = foreign_of_dedup d' /\ foreign_dedup_drop f = 1 /\
      (forall k p t, key_valid k -> claim k p t f = across_dedup (claim k p t d')) /\
      (forall k t, key_valid k -> complete k t f = across_dedup (complete k t d')) /\
      (forall k t, key_valid k -> mark_unknown k t f = across_dedup (mark_unknown k t d')) /\
      (forall k, key_valid k -> release_claim k f = across_dedup (release_claim k d')) /\
      (forall k, key_valid k -> dedup_record k f = across_dedup (dedup_record k d')) /\
      (forall k r t, key_valid k -> resolve_unknown k r t f = across_dedup (resolve_unknown k r t d')) /\
      (forall t, recover_in_flight t f = across_dedup (recover_in_flight t d')) /\
      (forall t, clear_completed_before t f = across_dedup (clear_completed_before t d')) /\
      (forall V (visitor : DedupRecord -> V -> bool * V * list DedupOp) fuel v,
         foreign_visit_unknown visitor fuel v f = let '(r, v, d) := visit_unknown visitor fuel v d' in (r, v, foreign_of_dedup d))
  else foreign_retain descriptor = Err () /\ sh_dedup_recovered handle' = sh_dedup_recovered handle.
Proof.
  intros Hok. pose proof (derive_dedup_spec handle limits system Hok) as Hd.
  destruct (derive_dedup handle limits system) as [[status descriptor] handle']. destruct Hd as [_ Hd]. case_decide; [|by destruct Hd as [-> ?]].
  destruct Hd as [-> Hd]. split; [exact Hd|]. split; [apply foreign_retain_of|]. intros history. rewrite foreign_dedup_run. split; [done|].
  split; [done|]. split_and!.
  - intros k p t Hk. etrans; [apply foreign_claim_cases|by rewrite decide_True].
  - intros k t Hk. etrans; [apply foreign_complete_cases|by rewrite decide_True].
  - intros k t Hk. etrans; [apply foreign_mark_unknown_cases|by rewrite decide_True].
  - intros k Hk. etrans; [apply foreign_release_cases|by rewrite decide_True].
  - intros k Hk. etrans; [apply foreign_record_cases|by rewrite decide_True].
  - intros k r t Hk. etrans; [apply foreign_resolve_cases|by rewrite decide_True].
  - intros t. apply foreign_recover_across_dedup.
  - intros t. apply foreign_clear_across.
  - intros V visitor fuel v. apply foreign_visit_across.
Qed.
End crossing.

(** A process is restarted while a claim is in flight; the first descriptor makes it unknown,
    and the host, told so over the interface, allows a retry. *)
Module Example.
#[local] Instance ex_abi_sql : SqlEnv := fun _ => false.
Definition key : DedupKey := mk_dedup_key (mk_id (str "hook")) (mk_id (str "github:hmac-sha256:v1")) (mk_id_hash (replicate 32 7)).
Definition before : SqlCipherDedupStore :=
  (claim key RetainCompleted 1000 (mk_sql_dedup (mk_sql_store false migrate_from_empty None 0) DedupStoreLimits_default)).2.
Definition handle : StoreHandle := mk_store_handle (sdd_store before) (Some false).
Definition restarted : Z * BondryDedupStoreV1 * StoreHandle := derive_dedup handle DedupStoreLimits_default (Some 2000000000).
Definition told (record : DedupRecord) (n : nat) : bool * nat * list DedupOp := (true, S n, [DResolve (dr_key record) ResolveRetryAllowed 3000]).

Lemma before_ok : dedup_ok before.
Proof.
  pose proof (claim_spec key RetainCompleted 1000 (mk_sql_dedup (mk_sql_store false migrate_from_empty None 0) DedupStoreLimits_default)) as H.
  unfold before. destruct (claim _ _ _ _) as [r d]. apply H; [|split_and!; vm_compute; reflexivity|unfold U64_MAX; lia].
  split; [split_and!; done|vm_compute; reflexivity].
Qed.

Lemma dedup_store_crosses_interface_witness :
  let d := mk_sql_dedup (sh_store restarted.2) DedupStoreLimits_default in
  restarted.1.1 = BONDRY_STATUS_OK /\ derived handle DedupStoreLimits_default restarted.2 /\
  (dedup_record key (foreign_of_dedup d)).1 = Ok (Some (mk_dedup_record key Unknown 2000)) /\
  (foreign_visit_unknown told 2 0%nat (foreign_of_dedup d)).1 = (Some (Ok ()), 1%nat).
Proof.
  pose proof (dedup_store_crosses_interface handle DedupStoreLimits_default (Some 2000000000) before_ok) as H. fold restarted in H.
  assert (restarted.1.1 = BONDRY_STATUS_OK) as Hs by (vm_compute; reflexivity).
  assert ((dedup_record key (mk_sql_dedup (sh_store restarted.2) DedupStoreLimits_default)).1 = Ok (Some (mk_dedup_record key Unknown 2000))) as Hr
    by (vm_compute; reflexivity).
  assert ((visit_unknown told 2 0%nat (mk_sql_dedup (sh_store restarted.2) DedupStoreLimits_default)).1 = (Some (Ok ()), 1%nat)) as Hv
    by (vm_compute; reflexivity).
  destruct restarted as [[status descriptor] handle']. cbn [fst snd] in Hs, Hr, Hv |- *. rewrite decide_True in H by exact Hs.
  destruct H as (Hd & _ & H). destruct (H []) as (_ & _ & _ & _ & _ & _ & Hrec & _ & _ & _ & Hvis). cbn [dedup_run foldl filter list_filter] in Hrec, Hvis.
  split; [exact Hs|]. split; [exact Hd|]. rewrite Hrec by (apply (bool_decide_unpack _); vm_compute; reflexivity). split; [exact Hr|].
  rewrite Hvis. destruct (visit_unknown told 2 0%nat _) as [[r v] d']. exact Hv.
Defined.
End Example.
