(* ===== verification/WebhookVerify.v ===== *)
(** * WebhookVerify: verification of incoming webhooks (bondry-webhook-verify)

    Models request.rs, identity.rs, verifier.rs and provider.rs: the request a verifier
    sees, the identities it may vouch for, the trait [WebhookVerifier] as a class, and the
    four verifiers that come with the crate.  The theorems say exactly which requests each
    verifier accepts and which failure it reports for the others. *)

From S2P Require Import Prelude Text Bytes Crypto HttpLib Secrets Identifiers DeliveryStore Dedup.

(** ** Requests *)

Record PeerAddress := mk_peer {
  peer_family : Z;
  peer_bytes : list byte;
  peer_port : Z;
  peer_interface_scope : option Z;
}.

Definition PeerAddress_v4 (b0 b1 b2 b3 : byte) (port : Z) : PeerAddress :=
  mk_peer 4 ([b0; b1; b2; b3] ++ replicate 12 0) port None.
Definition PeerAddress_v6 (bytes : list byte) (port : Z) (interface_scope : option Z) : PeerAddress :=
  mk_peer 6 bytes port interface_scope.

Record VerificationHeader := mk_header { header_name : HeaderName; header_value : list byte }.

Record VerificationRequest := mk_verification_request {
  request_method : Method;
  request_target : rstr;
  request_headers : list VerificationHeader;
  request_body : list byte;
  request_peer : PeerAddress;
}.

Definition header_values (r : VerificationRequest) (name : HeaderName) : list (list byte) :=
  header_value <$> filter (fun h => header_name h = name) (request_headers r).

(** ** Identities *)

Definition MIN_FRESHNESS_TOLERANCE : Z := from_secs 30.
Definition MAX_FRESHNESS_TOLERANCE : Z := from_secs (15 * 60).

Inductive IdentityGuarantee := IdentityNever | IdentityOptional | IdentityRequired.
#[global] Instance IdentityGuarantee_eq_dec : EqDecision IdentityGuarantee.
Proof. solve_decision. Defined.

Record VerifiedFreshness := mk_freshness { signed_at_unix_seconds : Z; freshness_tolerance : Z }.
Inductive VerifiedFreshnessError := FreshnessOutOfRange.

Definition VerifiedFreshness_new (signed_at tolerance : Z) : result VerifiedFreshnessError VerifiedFreshness :=
  if negb (in_range MIN_FRESHNESS_TOLERANCE MAX_FRESHNESS_TOLERANCE tolerance) then Err FreshnessOutOfRange
  else Ok (mk_freshness signed_at tolerance).

Record TrustedDeliveryIdentity := mk_identity {
  identity_namespace : VerifierNamespace;
  identity_hash : TrustedDeliveryIdHash;
  identity_freshness : option VerifiedFreshness;
}.
Inductive TrustedDeliveryIdentityError := IdentityEmpty.

Definition TrustedDeliveryIdentity_from_normalized `{Sha256} (namespace : VerifierNamespace)
    (normalized_identifier : list byte) (freshness : option VerifiedFreshness)
    : result TrustedDeliveryIdentityError TrustedDeliveryIdentity :=
  if decide (normalized_identifier = []) then Err IdentityEmpty
  else Ok (mk_identity namespace (mk_id_hash (sha256 normalized_identifier)) freshness).

(** ** The trait *)

Record VerificationResult := mk_verification_result { result_identity : option TrustedDeliveryIdentity }.
Definition VerificationResult_authenticated : VerificationResult := mk_verification_result None.
Definition VerificationResult_with_identity (identity : TrustedDeliveryIdentity) : VerificationResult :=
  mk_verification_result (Some identity).

Inductive VerificationError := VerificationRejected | VerificationUnavailable.

Class WebhookVerifier (V : Type) := {
  selected_headers : V -> list HeaderName;
  credential_headers : V -> list HeaderName;
  identity_guarantee : V -> IdentityGuarantee;
  verify : V -> VerificationRequest -> Z -> result VerificationError VerificationResult;
}.

(** The types of the source admit only checked namespaces and 32-byte hashes; the contract
    adds that the credential headers are among the selected ones and that a verifier keeps
    its identity guarantee. *)
Definition identity_wf (i : TrustedDeliveryIdentity) : Prop :=
  VerifierNamespace_new (as_str (identity_namespace i)) = Ok (identity_namespace i) /\
  length (id_hash_bytes (identity_hash i)) = 32%nat.

Class WebhookVerifierSpec (V : Type) `{WebhookVerifier V} := {
  verifier_ok : V -> Prop;
  verify_identity_wf v r now res i :
    verifier_ok v -> verify v r now = Ok res -> result_identity res = Some i -> identity_wf i;
  verify_guarantee v r now res :
    verifier_ok v -> verify v r now = Ok res ->
    match identity_guarantee v with
    | IdentityNever => result_identity res = None
    | IdentityOptional => True
    | IdentityRequired => is_Some (result_identity res)
    end;
  credentials_selected v name : verifier_ok v -> name ∈ credential_headers v -> name ∈ selected_headers v;
}.

(** ** Helpers of provider.rs *)

Definition PROVIDER_SIGNATURE_TIMESTAMP_TOLERANCE : Z := from_secs (5 * 60).
Definition BONDRY_HMAC_NAMESPACE : rstr := str "bondry:hmac-sha256:v1".
Definition GITHUB_HMAC_NAMESPACE : rstr := str "github:hmac-sha256:v1".
Definition GITHUB_SIGNATURE_HEADER : rstr := str "x-hub-signature-256".
Definition STRIPE_HMAC_NAMESPACE : rstr := str "stripe:hmac-sha256:v1".
Definition STRIPE_SIGNATURE_HEADER : rstr := str "stripe-signature".

(** The loop of [exactly_one_header]; [found] is its local variable. *)
Fixpoint find_one_header (name : HeaderName) (headers : list VerificationHeader) (found : option (list byte))
    : result VerificationError (list byte) :=
  match headers with
  | [] => ok_or found VerificationRejected
  | header :: headers =>
      if decide (header_name header = name) then
        match found with
        | Some _ => Err VerificationRejected
        | None => find_one_header name headers (Some (header_value header))
        end
      else find_one_header name headers found
  end.

Definition exactly_one_header (request : VerificationRequest) (name : HeaderName)
    : result VerificationError (list byte) :=
  find_one_header name (request_headers request) None.

Definition parse_signature (value : list byte) : result VerificationError HmacSignature :=
  value ← ok_or (from_utf8 value) VerificationRejected;
  map_err (fun _ => VerificationRejected) (HmacSignature_from_hex value).

Definition parse_canonical_timestamp (value : list byte) : result VerificationError Z :=
  value ← ok_or (from_utf8 value) VerificationRejected;
  timestamp ← ok_or (parse_i64 value) VerificationRejected;
  if (timestamp <? 0) || negb (bool_decide (i64_to_string timestamp = value)) then Err VerificationRejected
  else Ok timestamp.

Definition verify_freshness (now signed_at tolerance : Z) : result VerificationError unit :=
  if (now <? 0) || (as_secs tolerance <? Z.abs (now - signed_at)) then Err VerificationRejected else Ok ().

Definition matches_secret (secrets : ResolvedSecret) (candidate : list byte) : bool :=
  let matched := constant_time_eq (expose (current_value secrets)) candidate in
  match previous_value secrets with
  | Some previous => matched || constant_time_eq (expose previous) candidate
  | None => matched
  end.

Inductive ProviderVerifierConfigurationError :=
| ConfigInvalidNamespace
| ConfigInvalidTimestampTolerance (e : VerifiedFreshnessError).

Definition namespace (value : rstr) : result ProviderVerifierConfigurationError VerifierNamespace :=
  map_err (fun _ => ConfigInvalidNamespace) (VerifierNamespace_new value).

Definition validate_tolerance (tolerance : Z) : result ProviderVerifierConfigurationError unit :=
  map_err ConfigInvalidTimestampTolerance (_ ← VerifiedFreshness_new 0 tolerance; Ok ()).

Definition map_secret_error (_ : SecretProviderError) : VerificationError := VerificationUnavailable.

(** [slice.get(1..)]. *)
Definition get_from_1 (bs : list byte) : option (list byte) := match bs with [] => None | _ :: r => Some r end.

Record StripeHeader := mk_stripe_header {
  stripe_timestamp : Z;
  stripe_timestamp_bytes : list byte;
  stripe_signatures : list HmacSignature;
}.

(** The loop of [parse_stripe_header] over the comma-separated components. *)
Fixpoint stripe_components (components : list (list byte)) (timestamp : option (Z * list byte))
    (signatures : list HmacSignature) : result VerificationError (option (Z * list byte) * list HmacSignature) :=
  match components with
  | [] => Ok (timestamp, signatures)
  | component :: components =>
      '(key, value_with_separator) ← ok_or (split_at_first (fun b => b =? 61) component) VerificationRejected;
      component_value ← ok_or (get_from_1 value_with_separator) VerificationRejected;
      if decide (key = str "t") then
        if bool_decide (is_Some timestamp) || existsb (fun b => b =? 61) component_value then Err VerificationRejected
        else t ← parse_canonical_timestamp component_value;
             stripe_components components (Some (t, component_value)) signatures
      else if decide (key = str "v1") then
        if existsb (fun b => b =? 61) component_value then Err VerificationRejected
        else s ← parse_signature component_value; stripe_components components timestamp (signatures ++ [s])
      else stripe_components components timestamp signatures
  end.

Definition parse_stripe_header (value : list byte) : result VerificationError StripeHeader :=
  '(timestamp, signatures) ← stripe_components (split 44 value) None [];
  '(timestamp, timestamp_bytes) ← ok_or timestamp VerificationRejected;
  if decide (signatures = []) then Err VerificationRejected
  else Ok (mk_stripe_header timestamp timestamp_bytes signatures).

Section providers.
Context `{HmacSha256, Sha256, SecretProvider P}.

Definition body_identity (namespace : VerifierNamespace) (body : list byte) (freshness : option VerifiedFreshness)
    : result VerificationError TrustedDeliveryIdentity :=
  let body_hash := sha256 body in
  map_err (fun _ => VerificationUnavailable) (TrustedDeliveryIdentity_from_normalized namespace body_hash freshness).

Record SecretSource := mk_source { source_reference : SecretRef; source_provider : P }.

Definition SecretSource_resolve (s : SecretSource) : result VerificationError ResolvedSecret :=
  map_err map_secret_error (resolve (source_provider s) (source_reference s)).

(** ** Bearer secrets *)

Record BearerSecretVerifier := mk_bearer { bearer_source : SecretSource }.

Definition BearerSecretVerifier_new (reference : SecretRef) (provider : P) : BearerSecretVerifier :=
  mk_bearer (mk_source reference provider).

Definition BearerSecretVerifier_verify (v : BearerSecretVerifier) (request : VerificationRequest) (_ : Z)
    : result VerificationError VerificationResult :=
  authorization ← exactly_one_header request AUTHORIZATION;
  '(scheme, token_with_space) ← ok_or (split_at_first (fun b => b =? 32) authorization) VerificationRejected;
  token ← ok_or (get_from_1 token_with_space) VerificationRejected;
  if negb (eq_ignore_ascii_case scheme (str "Bearer")) || bool_decide (token = [])
     || existsb is_ascii_whitespace token
  then Err VerificationRejected
  else
    secrets ← SecretSource_resolve (bearer_source v);
    if negb (matches_secret secrets token) then Err VerificationRejected
    else Ok VerificationResult_authenticated.

#[global] Instance BearerSecretVerifier_verifier : WebhookVerifier BearerSecretVerifier := {
  selected_headers _ := [AUTHORIZATION];
  credential_headers _ := [AUTHORIZATION];
  identity_guarantee _ := IdentityNever;
  verify := BearerSecretVerifier_verify;
}.

(** ** Bondry's own signatures *)

Record BondryHmacSha256Verifier := mk_bondry_verifier {
  bondry_source : SecretSource;
  bondry_namespace : VerifierNamespace;
  bondry_tolerance : Z;
}.

Definition BondryHmacSha256Verifier_with_tolerance (reference : SecretRef) (provider : P) (tolerance : Z)
    : result ProviderVerifierConfigurationError BondryHmacSha256Verifier :=
  _ ← validate_tolerance tolerance;
  namespace ← namespace BONDRY_HMAC_NAMESPACE;
  Ok (mk_bondry_verifier (mk_source reference provider) namespace tolerance).

Definition BondryHmacSha256Verifier_new (reference : SecretRef) (provider : P)
    : result ProviderVerifierConfigurationError BondryHmacSha256Verifier :=
  BondryHmacSha256Verifier_with_tolerance reference provider PROVIDER_SIGNATURE_TIMESTAMP_TOLERANCE.

Definition BondryHmacSha256Verifier_verify (v : BondryHmacSha256Verifier) (request : VerificationRequest) (now : Z)
    : result VerificationError VerificationResult :=
  delivery_id ← exactly_one_header request BONDRY_WEBHOOK_DELIVERY_ID_HEADER;
  if bool_decide (delivery_id = []) || (MAX_DELIVERY_ID_BYTES <? Z.of_nat (length delivery_id))
  then Err VerificationRejected
  else
    header ← exactly_one_header request BONDRY_WEBHOOK_TIMESTAMP_HEADER;
    timestamp ← parse_canonical_timestamp header;
    _ ← verify_freshness now timestamp (bondry_tolerance v);
    header ← exactly_one_header request BONDRY_WEBHOOK_SIGNATURE_HEADER;
    signature ← parse_signature header;
    let input := mk_signing_input timestamp delivery_id (request_body request) in
    secrets ← SecretSource_resolve (bondry_source v);
    if negb (verify_webhook secrets input signature) then Err VerificationRejected
    else
      freshness ← map_err (fun _ => VerificationUnavailable) (VerifiedFreshness_new timestamp (bondry_tolerance v));
      identity ← map_err (fun _ => VerificationRejected)
        (TrustedDeliveryIdentity_from_normalized (bondry_namespace v) delivery_id (Some freshness));
      Ok (VerificationResult_with_identity identity).

#[global] Instance BondryHmacSha256Verifier_verifier : WebhookVerifier BondryHmacSha256Verifier := {
  selected_headers _ :=
    [BONDRY_WEBHOOK_DELIVERY_ID_HEADER; BONDRY_WEBHOOK_TIMESTAMP_HEADER; BONDRY_WEBHOOK_SIGNATURE_HEADER];
  credential_headers _ := [BONDRY_WEBHOOK_SIGNATURE_HEADER];
  identity_guarantee _ := IdentityRequired;
  verify := BondryHmacSha256Verifier_verify;
}.

(** ** GitHub *)

Record GitHubHmacSha256Verifier := mk_github_verifier {
  github_source : SecretSource;
  github_namespace : VerifierNamespace;
}.

Definition GitHubHmacSha256Verifier_new (reference : SecretRef) (provider : P)
    : result ProviderVerifierConfigurationError GitHubHmacSha256Verifier :=
  namespace ← namespace GITHUB_HMAC_NAMESPACE;
  Ok (mk_github_verifier (mk_source reference provider) namespace).

Definition GitHubHmacSha256Verifier_verify (v : GitHubHmacSha256Verifier) (request : VerificationRequest) (_ : Z)
    : result VerificationError VerificationResult :=
  value ← exactly_one_header request GITHUB_SIGNATURE_HEADER;
  encoded ← ok_or (strip_prefix (str "sha256=") value) VerificationRejected;
  candidate ← parse_signature encoded;
  secrets ← SecretSource_resolve (github_source v);
  if negb (verify_hmac_sha256 secrets [request_body request] [candidate]) then Err VerificationRejected
  else
    identity ← body_identity (github_namespace v) (request_body request) None;
    Ok (VerificationResult_with_identity identity).

#[global] Instance GitHubHmacSha256Verifier_verifier : WebhookVerifier GitHubHmacSha256Verifier := {
  selected_headers _ := [GITHUB_SIGNATURE_HEADER];
  credential_headers _ := [GITHUB_SIGNATURE_HEADER];
  identity_guarantee _ := IdentityRequired;
  verify := GitHubHmacSha256Verifier_verify;
}.

(** ** Stripe *)

Record StripeHmacSha256Verifier := mk_stripe_verifier {
  stripe_source : SecretSource;
  stripe_namespace : VerifierNamespace;
  stripe_tolerance : Z;
}.

Definition StripeHmacSha256Verifier_with_tolerance (reference : SecretRef) (provider : P) (tolerance : Z)
    : result ProviderVerifierConfigurationError StripeHmacSha256Verifier :=
  _ ← validate_tolerance tolerance;
  namespace ← namespace STRIPE_HMAC_NAMESPACE;
  Ok (mk_stripe_verifier (mk_source reference provider) namespace tolerance).

Definition StripeHmacSha256Verifier_new (reference : SecretRef) (provider : P)
    : result ProviderVerifierConfigurationError StripeHmacSha256Verifier :=
  StripeHmacSha256Verifier_with_tolerance reference provider PROVIDER_SIGNATURE_TIMESTAMP_TOLERANCE.

Definition StripeHmacSha256Verifier_verify (v : StripeHmacSha256Verifier) (request : VerificationRequest) (now : Z)
    : result VerificationError VerificationResult :=
  header ← exactly_one_header request STRIPE_SIGNATURE_HEADER;
  parsed ← parse_stripe_header header;
  _ ← verify_freshness now (stripe_timestamp parsed) (stripe_tolerance v);
  secrets ← SecretSource_resolve (stripe_source v);
  if negb (verify_hmac_sha256 secrets [stripe_timestamp_bytes parsed; str "."; request_body request]
             (stripe_signatures parsed))
  then Err VerificationRejected
  else
    freshness ← map_err (fun _ => VerificationUnavailable)
      (VerifiedFreshness_new (stripe_timestamp parsed) (stripe_tolerance v));
    identity ← body_identity (stripe_namespace v) (request_body request) (Some freshness);
    Ok (VerificationResult_with_identity identity).

#[global] Instance StripeHmacSha256Verifier_verifier : WebhookVerifier StripeHmacSha256Verifier := {
  selected_headers _ := [STRIPE_SIGNATURE_HEADER];
  credential_headers _ := [STRIPE_SIGNATURE_HEADER];
  identity_guarantee _ := IdentityRequired;
  verify := StripeHmacSha256Verifier_verify;
}.
End providers.

Arguments SecretSource P : clear implicits.
Arguments BearerSecretVerifier P : clear implicits.
Arguments BondryHmacSha256Verifier P : clear implicits.
Arguments GitHubHmacSha256Verifier P : clear implicits.
Arguments StripeHmacSha256Verifier P : clear implicits.

(** ** What the helpers accept *)

Definition only_rejects {A} (r : result VerificationError A) : Prop := forall e, r = Err e -> e = VerificationRejected.

Lemma only_rejects_ok {A} (a : A) : only_rejects (Ok a).
Proof. done. Qed.
Lemma only_rejects_err {A} : only_rejects (Err VerificationRejected : result VerificationError A).
Proof. by intros e [= <-]. Qed.
Lemma only_rejects_bind {A B} (m : result VerificationError A) (k : A -> result VerificationError B) :
  only_rejects m -> (forall a, only_rejects (k a)) -> only_rejects (m ≫= k).
Proof. intros Hm Hk e. destruct m as [a|e']; [apply Hk|]. intros [= <-]. by apply Hm. Qed.
Lemma only_rejects_ok_or {A} (o : option A) : only_rejects (ok_or o VerificationRejected).
Proof. destruct o; [apply only_rejects_ok|apply only_rejects_err]. Qed.
Lemma only_rejects_if {A} (b : bool) (r : result VerificationError A) :
  only_rejects r -> only_rejects (if b then Err VerificationRejected else r).
Proof. destruct b; [intros; apply only_rejects_err|done]. Qed.
Lemma only_rejects_map_err {E A} (r : result E A) : only_rejects (map_err (fun _ => VerificationRejected) r).
Proof. destruct r; [apply only_rejects_ok|apply only_rejects_err]. Qed.

Create HintDb rejects.
#[export] Hint Resolve only_rejects_ok only_rejects_err only_rejects_bind only_rejects_ok_or only_rejects_if
  only_rejects_map_err : rejects.

Lemma find_one_header_exact name hs found v :
  find_one_header name hs found = Ok v <->
  option_list found ++ (header_value <$> filter (fun h => header_name h = name) hs) = [v].
Proof.
  revert found. induction hs as [|h hs IH]; intros found; cbn [find_one_header].
  - rewrite app_nil_r. destruct found; simpl; naive_solver.
  - rewrite filter_cons. case_decide; [|apply IH]. destruct found as [w|]; [by split|]. apply IH.
Qed.

Lemma exactly_one_header_exact r name v : exactly_one_header r name = Ok v <-> header_values r name = [v].
Proof. apply (find_one_header_exact _ _ None). Qed.

Lemma exactly_one_header_rejects r name : only_rejects (exactly_one_header r name).
Proof.
  unfold exactly_one_header. generalize (@None (list byte)). induction (request_headers r) as [|h hs IH]; intros found;
    cbn [find_one_header]; [auto with rejects|]. case_decide; [|apply IH]. destruct found; [apply only_rejects_err|apply IH].
Qed.

Lemma parse_signature_exact v sig :
  parse_signature v = Ok sig <-> signature_wf sig /\ ascii_lower <$> v = HmacSignature_to_hex sig.
Proof.
  assert (forall s, signature_wf sig -> ascii_lower <$> s = HmacSignature_to_hex sig -> Forall (fun c => c < 0x80) s) as Hascii.
  { intros s [_ Hb] Hs. apply ascii_lower_low. rewrite Hs. destruct sig. by apply to_hex_ascii. }
  unfold parse_signature. rewrite result_bind_Ok. split.
  - intros (s & Hs & Hsig). destruct (from_utf8 v) as [s'|] eqn:Hv; [|done]. injection Hs as ->.
    destruct (HmacSignature_from_hex s) as [sig'|] eqn:Hx; [|done]. injection Hsig as ->.
    apply from_hex_exact in Hx as [Hw Hx]. apply from_utf8_sound in Hv.
    rewrite as_bytes_ascii in Hv by (by apply Hascii). by subst v.
  - intros [Hw Hx]. exists v. rewrite from_utf8_ascii by (by apply Hascii). split; [done|].
    by rewrite (proj2 (from_hex_exact v sig)).
Qed.

Lemma parse_signature_rejects v : only_rejects (parse_signature v).
Proof. unfold parse_signature. auto with rejects. Qed.

Lemma i64_to_string_ascii t : Forall (fun c => c < 0x80) (i64_to_string t).
Proof. eapply Forall_impl; [apply i64_to_string_chars|]. simpl. lia. Qed.

Lemma parse_canonical_timestamp_exact v t :
  parse_canonical_timestamp v = Ok t <-> 0 <= t <= I64_MAX /\ v = i64_to_string t.
Proof.
  unfold parse_canonical_timestamp. split.
  - intros (s & Hs & (n & Hn & Ht)%result_bind_Ok)%result_bind_Ok.
    destruct (from_utf8 v) as [s'|] eqn:Hv; [|done]. injection Hs as ->.
    destruct (parse_i64 s) as [n'|] eqn:Hp; [|done]. injection Hn as ->. apply parse_i64_range in Hp.
    destruct (_ || _) eqn:Hb in Ht; [done|]. injection Ht as ->. bools. subst s.
    apply from_utf8_sound in Hv. rewrite as_bytes_ascii in Hv by apply i64_to_string_ascii. split; [lia|done].
  - intros [Ht ->]. rewrite from_utf8_ascii by apply i64_to_string_ascii. simpl.
    rewrite parse_i64_to_string by done. simpl. rewrite bool_decide_true by done.
    by destruct (Z.ltb_spec t 0); [lia|].
Qed.

Lemma parse_canonical_timestamp_rejects v : only_rejects (parse_canonical_timestamp v).
Proof. unfold parse_canonical_timestamp. auto with rejects. Qed.

(** The clock and the signed time are within the tolerance of each other. *)
Definition fresh (now signed_at tolerance : Z) : Prop := 0 <= now /\ Z.abs (now - signed_at) <= as_secs tolerance.

Lemma verify_freshness_exact now t tol : verify_freshness now t tol = Ok () <-> fresh now t tol.
Proof.
  unfold verify_freshness, fresh. destruct (Z.ltb_spec now 0); simpl; [split; [done|lia]|].
  destruct (Z.ltb_spec (as_secs tol) (Z.abs (now - t))); [split; [done|lia]|]. split; [lia|done].
Qed.

Lemma verify_freshness_rejects now t tol : only_rejects (verify_freshness now t tol).
Proof. unfold verify_freshness. auto with rejects. Qed.

Lemma matches_secret_exact secrets token :
  matches_secret secrets token = true <-> exists s, accepted secrets s /\ expose s = token.
Proof.
  unfold matches_secret, accepted. destruct (previous_value secrets) as [p|];
    rewrite ?orb_true_iff, ?constant_time_eq_spec; naive_solver.
Qed.

#[export] Hint Resolve exactly_one_header_rejects parse_signature_rejects parse_canonical_timestamp_rejects
  verify_freshness_rejects : rejects.

(** *** The Stripe header

    The comma-separated fields [key=value] of the header: exactly one [t] with a canonical
    timestamp, at least one [v1], each a signature; other keys are ignored. *)

Definition field (kv : list byte * list byte) : list byte := kv.1 ++ 61 :: kv.2.
Definition values_of (key : list byte) (kvs : list (list byte * list byte)) : list (list byte) :=
  (filter (fun kv => kv.1 = key) kvs).*2.
Definition hex_of (text : list byte) (sig : HmacSignature) : Prop :=
  signature_wf sig /\ ascii_lower <$> text = HmacSignature_to_hex sig.

Definition stripe_form (value : list byte) (h : StripeHeader) : Prop :=
  exists kvs, split 44 value = field <$> kvs /\ Forall (fun kv => Forall (fun b => b <> 61) kv.1) kvs /\
    0 <= stripe_timestamp h <= I64_MAX /\ stripe_timestamp_bytes h = i64_to_string (stripe_timestamp h) /\
    values_of (str "t") kvs = [stripe_timestamp_bytes h] /\
    Forall2 hex_of (values_of (str "v1") kvs) (stripe_signatures h) /\ stripe_signatures h <> [].

Lemma no_equals_sign text p : Forall p text -> (forall c, p c -> c <> 61) -> existsb (fun b => b =? 61) text = false.
Proof.
  intros Ht Hp. induction Ht as [|c text Hc _ IH]; [done|]. simpl. by rewrite (proj2 (Z.eqb_neq c 61) (Hp c Hc)).
Qed.

Definition seen_timestamp (o : option (Z * list byte)) : list (list byte) := option_list (snd <$> o).
Definition timestamp_wf (o : option (Z * list byte)) : Prop :=
  forall t b, o = Some (t, b) -> 0 <= t <= I64_MAX /\ b = i64_to_string t.

Lemma values_of_cons key kv kvs :
  values_of key (kv :: kvs) = if decide (kv.1 = key) then kv.2 :: values_of key kvs else values_of key kvs.
Proof. unfold values_of. rewrite filter_cons. by case_decide. Qed.

(** Comparisons of keys that are known to be equal or different. *)
Ltac decide_keys := repeat match goal with
  | |- context [decide (?x = ?y)] => first [rewrite (decide_True (P := x = y)) by done|rewrite (decide_False (P := x = y)) by done]
  | H : context [decide (?x = ?y)] |- _ =>
      first [rewrite (decide_True (P := x = y)) in H by done|rewrite (decide_False (P := x = y)) in H by done]
  end.

Lemma component_field component :
  (exists key rest value, split_at_first (fun b => b =? 61) component = Some (key, rest) /\ get_from_1 rest = Some value /\
    component = field (key, value) /\ Forall (fun b => b <> 61) key) \/
  split_at_first (fun b => b =? 61) component = None /\
    forall key value, Forall (fun b => b <> 61) key -> component <> field (key, value).
Proof.
  destruct (split_at_first _ component) as [[key rest]|] eqn:Hs; [left|right].
  - apply split_at_first_Some in Hs as (-> & Hkey & b & r & -> & ->%Z.eqb_eq). exists key, (61 :: r), r.
    split_and!; try done. eapply Forall_impl; [exact Hkey|]. by intros c Hc%Z.eqb_neq.
  - split; [done|]. intros key value Hkey ->. unfold field in Hs. simpl in Hs.
    rewrite split_at_first_app in Hs; [done| |done].
    eapply Forall_impl; [exact Hkey|]. intros c Hc. by apply Z.eqb_neq.
Qed.

Lemma field_inj k v k' v' :
  Forall (fun b => b <> 61) k -> Forall (fun b => b <> 61) k' -> field (k, v) = field (k', v') -> k = k' /\ v = v'.
Proof.
  intros Hk Hk' Heq.
  assert (forall k, Forall (fun b => b <> 61) k -> Forall (fun b => (b =? 61) = false) k) as Hne.
  { intros l Hl. eapply Forall_impl; [exact Hl|]. intros c Hc. by apply Z.eqb_neq. }
  assert (split_at_first (fun b => b =? 61) (field (k, v)) = Some (k, 61 :: v)) as H1 by (apply split_at_first_app; auto).
  rewrite Heq in H1. unfold field in H1. simpl in H1. rewrite split_at_first_app in H1; [|auto|done]. by injection H1 as -> ->.
Qed.

Definition components_form (components : list (list byte)) (ts ts' : option (Z * list byte))
    (sigs sigs' : list HmacSignature) : Prop :=
  exists kvs new, components = field <$> kvs /\ Forall (fun kv => Forall (fun b => b <> 61) kv.1) kvs /\
    Forall2 hex_of (values_of (str "v1") kvs) new /\ sigs' = sigs ++ new /\
    seen_timestamp ts ++ values_of (str "t") kvs = seen_timestamp ts' /\ timestamp_wf ts'.

Lemma hex_no_equals text sig : hex_of text sig -> Forall (fun c => c <> 61) text.
Proof.
  intros [[_ Hb] Hx]. apply Forall_forall. intros c Hc ->.
  assert (ascii_lower 61 ∈ HmacSignature_to_hex sig) as Hin by (rewrite <-Hx; by apply list_elem_of_fmap_2).
  unfold HmacSignature_to_hex in Hin. apply list_elem_of_In, in_flat_map in Hin as (b & Hbs & Hd).
  apply list_elem_of_In in Hbs. rewrite Forall_forall in Hb. apply Hb, in_range_spec, byte_nibbles in Hbs as (Hh & Hl & _).
  apply hex_digit_decodes in Hh as [Hh _]. apply hex_digit_decodes in Hl as [Hl _].
  destruct Hd as [Hd|[Hd|[]]]; rewrite Hd in *; done.
Qed.

Lemma stripe_components_sound components ts sigs ts' sigs' :
  timestamp_wf ts -> stripe_components components ts sigs = Ok (ts', sigs') ->
  components_form components ts ts' sigs sigs'.
Proof.
  revert ts sigs. induction components as [|c components IH]; intros ts sigs Hwf; cbn [stripe_components].
  { intros [= <- <-]. exists [], []. by rewrite !app_nil_r. }
  destruct (component_field c) as [(key & rest & value & -> & Hg & -> & Hkey)|[-> _]]; [|done].
  cbn [mbind result_bind ok_or]. rewrite Hg. cbn [mbind result_bind ok_or]. case_decide as Ht; [|case_decide as Hv].
  - destruct (_ || _) eqn:Hb; [done|]. destruct ts as [[]|]; [done|].
    intros (t & [Hr Htext]%parse_canonical_timestamp_exact & Hrest)%result_bind_Ok.
    apply IH in Hrest as (kvs & new & -> & Hk & Hn & -> & Hs & Hw); [|intros ?? [= <- <-]; auto].
    exists ((key, value) :: kvs), new. rewrite !values_of_cons. simpl. subst key.
    decide_keys. split_and!; try done. by constructor.
  - destruct (existsb _ _); [done|].
    intros (s & Hsig%parse_signature_exact & Hrest)%result_bind_Ok.
    apply IH in Hrest as (kvs & new & -> & Hk & Hn & -> & Hs & Hw); [|done].
    exists ((key, value) :: kvs), (s :: new). rewrite !values_of_cons. simpl. subst key.
    decide_keys. rewrite <-(assoc_L (++)). split_and!; try done; by constructor.
  - intros Hrest. apply IH in Hrest as (kvs & new & -> & Hk & Hn & -> & Hs & Hw); [|done].
    exists ((key, value) :: kvs), new. rewrite !values_of_cons. simpl. decide_keys.
    split_and!; try done. by constructor.
Qed.

Lemma stripe_components_complete components ts sigs ts' sigs' :
  timestamp_wf ts -> components_form components ts ts' sigs sigs' ->
  stripe_components components ts sigs = Ok (ts', sigs').
Proof.
  intros Hwf (kvs & new & -> & Hk & Hn & -> & Hs & Hw). revert ts sigs new Hwf Hn Hs.
  induction Hk as [|[k v] kvs Hkey _ IH]; intros ts sigs new Hwf Hn Hs.
  { inversion Hn. subst. unfold values_of in Hs. simpl in Hs. rewrite app_nil_r in Hs. rewrite app_nil_r. simpl.
    destruct ts as [[t b]|], ts' as [[t' b']|]; try done. injection Hs as <-.
    destruct (Hwf _ _ eq_refl) as [_ Hb]. destruct (Hw _ _ eq_refl) as [_ Hb']. rewrite Hb in Hb'.
    by apply i64_to_string_inj in Hb' as <-. }
  rewrite fmap_cons. cbn [stripe_components].
  destruct (component_field (field (k, v))) as [(key & rest & value & -> & Hg & Heq & Hk')|[_ Hno]];
    [|by destruct (Hno k v)].
  apply field_inj in Heq as [<- <-]; [|done..]. cbn [mbind result_bind ok_or]. rewrite Hg. cbn [mbind result_bind ok_or].
  rewrite !values_of_cons in *. simpl in *. case_decide as Ht; [|case_decide as Hv].
  - destruct ts as [[]|]; simpl in Hs; [by destruct ts' as [[]|]|].
    destruct ts' as [[t' b']|]; [|done]. unfold seen_timestamp in Hs. simpl in Hs.
    injection Hs as -> Hs. destruct (Hw _ _ eq_refl) as [Hr Htext].
    rewrite (no_equals_sign _ _ (eq_ind_r _ (i64_to_string_chars t') Htext)) by (simpl; lia). simpl.
    rewrite (proj2 (parse_canonical_timestamp_exact b' t')) by auto. cbn [mbind result_bind]. subst k. decide_keys.
    apply IH; [by intros ?? [= <- <-]|done|]. unfold seen_timestamp. simpl. by rewrite Hs.
  - decide_keys. inversion Hn as [|? sig ? rest' Hsig Hrest]; subst.
    assert (existsb (fun b => b =? 61) v = false) as ->.
    { apply (no_equals_sign v (fun c => c <> 61)); [|done]. by apply hex_no_equals with sig. }
    rewrite (proj2 (parse_signature_exact v sig)) by done. cbn [mbind result_bind].
    rewrite (IH _ (sigs ++ [sig]) rest') by done. by rewrite <-(assoc_L (++)).
  - decide_keys. by apply IH.
Qed.

Lemma parse_stripe_header_exact value h : parse_stripe_header value = Ok h <-> stripe_form value h.
Proof.
  assert (timestamp_wf None) as Hnone by done. unfold parse_stripe_header. split.
  - intros ([ts sigs] & Hc & Hrest)%result_bind_Ok. apply stripe_components_sound in Hc; [|done].
    destruct Hc as (kvs & new & Hs & Hk & Hn & -> & Ht & Hw). destruct ts as [[t b]|]; [|done].
    cbn [ok_or mbind result_bind] in Hrest. case_decide as Hnil; [done|]. injection Hrest as <-.
    destruct (Hw _ _ eq_refl) as [Hr ->]. exists kvs. done.
  - intros (kvs & Hs & Hk & Hr & Hb & Ht & Hn & Hnil). destruct h as [t b sigs]. cbn [stripe_timestamp
      stripe_timestamp_bytes stripe_signatures] in *. subst b.
    rewrite (stripe_components_complete _ None [] (Some (t, i64_to_string t)) sigs); [|done|].
    + cbn [ok_or mbind result_bind]. by rewrite decide_False.
    + exists kvs, sigs. split_and!; try done. by intros ?? [= <- <-].
Qed.

Lemma parse_stripe_header_rejects value : only_rejects (parse_stripe_header value).
Proof.
  assert (forall cs ts sigs, only_rejects (stripe_components cs ts sigs)) as Hc.
  { induction cs as [|c cs IH]; intros ts sigs; cbn [stripe_components]; [auto with rejects|].
    apply only_rejects_bind; [auto with rejects|]. intros [key rest]. apply only_rejects_bind; [auto with rejects|].
    intros v. repeat case_decide; auto with rejects. }
  unfold parse_stripe_header. apply only_rejects_bind; [done|]. intros [ts sigs].
  apply only_rejects_bind; [auto with rejects|]. intros [t b]. case_decide; auto with rejects.
Qed.

(** ** What the verifiers accept and report

    A verifier reads something of the request ([presented], without secrets), resolves its
    secrets, and compares. *)

Section verdict.
Context {A : Type} (presented : A -> Prop) (resolved : result SecretProviderError ResolvedSecret)
  (authentic : ResolvedSecret -> A -> Prop) (identity : A -> option TrustedDeliveryIdentity).

Definition verdict (r : result VerificationError VerificationResult) : Prop :=
  match r with
  | Ok res => exists a secrets, presented a /\ resolved = Ok secrets /\ authentic secrets a /\
      result_identity res = identity a
  | Err VerificationUnavailable => exists a e, presented a /\ resolved = Err e
  | Err VerificationRejected => (forall a, ~ presented a) \/
      exists a secrets, presented a /\ resolved = Ok secrets /\ ~ authentic secrets a
  end.

Lemma verdict_intro (parse : result VerificationError A) (check : ResolvedSecret -> A -> bool) :
  only_rejects parse -> (forall a, parse = Ok a <-> presented a) ->
  (forall secrets a, check secrets a = true <-> authentic secrets a) ->
  verdict (a ← parse; secrets ← map_err map_secret_error resolved;
           if negb (check secrets a) then Err VerificationRejected else Ok (mk_verification_result (identity a))).
Proof.
  intros Hrej Hparse Hcheck. unfold verdict. destruct parse as [a|e].
  - assert (presented a) as Ha by (by apply Hparse). cbn [mbind result_bind].
    destruct resolved as [secrets|e]; cbn [map_err mbind result_bind map_secret_error]; [|by exists a, e].
    destruct (check secrets a) eqn:Hc; simpl.
    + exists a, secrets. by apply Hcheck in Hc.
    + right. exists a, secrets. split_and!; [done..|]. intros Hau%Hcheck. congruence.
  - rewrite (Hrej e eq_refl). left. intros a Ha%Hparse. done.
Qed.
End verdict.

(** What each verifier reads. *)
Definition bearer_presented (request : VerificationRequest) (token : list byte) : Prop :=
  exists scheme, header_values request AUTHORIZATION = [scheme ++ 32 :: token] /\
    ascii_lower <$> scheme = str "bearer" /\ token <> [] /\ Forall (fun b => is_ascii_whitespace b = false) token.

Record BondryParts := mk_bondry_parts { part_id : list byte; part_timestamp : Z; part_signature : HmacSignature }.
Definition bondry_presented (request : VerificationRequest) (now tolerance : Z) (p : BondryParts) : Prop :=
  header_values request BONDRY_WEBHOOK_DELIVERY_ID_HEADER = [part_id p] /\
  1 <= Z.of_nat (length (part_id p)) <= MAX_DELIVERY_ID_BYTES /\
  header_values request BONDRY_WEBHOOK_TIMESTAMP_HEADER = [i64_to_string (part_timestamp p)] /\
  0 <= part_timestamp p <= I64_MAX /\ fresh now (part_timestamp p) tolerance /\
  exists text, header_values request BONDRY_WEBHOOK_SIGNATURE_HEADER = [text] /\ hex_of text (part_signature p).

Definition github_presented (request : VerificationRequest) (sig : HmacSignature) : Prop :=
  exists text, header_values request GITHUB_SIGNATURE_HEADER = [str "sha256=" ++ text] /\ hex_of text sig.

Definition stripe_presented (request : VerificationRequest) (now tolerance : Z) (h : StripeHeader) : Prop :=
  exists value, header_values request STRIPE_SIGNATURE_HEADER = [value] /\ stripe_form value h /\
    fresh now (stripe_timestamp h) tolerance.

(** The same as the code computes it. *)
Definition bearer_parse (request : VerificationRequest) : result VerificationError (list byte) :=
  authorization ← exactly_one_header request AUTHORIZATION;
  '(scheme, token_with_space) ← ok_or (split_at_first (fun b => b =? 32) authorization) VerificationRejected;
  token ← ok_or (get_from_1 token_with_space) VerificationRejected;
  if negb (eq_ignore_ascii_case scheme (str "Bearer")) || bool_decide (token = [])
     || existsb is_ascii_whitespace token
  then Err VerificationRejected else Ok token.

Definition bondry_parse (request : VerificationRequest) (now tolerance : Z) : result VerificationError BondryParts :=
  delivery_id ← exactly_one_header request BONDRY_WEBHOOK_DELIVERY_ID_HEADER;
  if bool_decide (delivery_id = []) || (MAX_DELIVERY_ID_BYTES <? Z.of_nat (length delivery_id))
  then Err VerificationRejected
  else
    header ← exactly_one_header request BONDRY_WEBHOOK_TIMESTAMP_HEADER;
    timestamp ← parse_canonical_timestamp header;
    _ ← verify_freshness now timestamp tolerance;
    header ← exactly_one_header request BONDRY_WEBHOOK_SIGNATURE_HEADER;
    signature ← parse_signature header;
    Ok (mk_bondry_parts delivery_id timestamp signature).

Definition github_parse (request : VerificationRequest) : result VerificationError HmacSignature :=
  value ← exactly_one_header request GITHUB_SIGNATURE_HEADER;
  encoded ← ok_or (strip_prefix (str "sha256=") value) VerificationRejected;
  parse_signature encoded.

Definition stripe_parse (request : VerificationRequest) (now tolerance : Z) : result VerificationError StripeHeader :=
  header ← exactly_one_header request STRIPE_SIGNATURE_HEADER;
  parsed ← parse_stripe_header header;
  _ ← verify_freshness now (stripe_timestamp parsed) tolerance; Ok parsed.

Lemma ok_or_Ok {E A} (o : option A) (e : E) a : ok_or o e = Ok a <-> o = Some a.
Proof. destruct o; simpl; naive_solver. Qed.

Lemma no_space scheme : ascii_lower <$> scheme = str "bearer" -> Forall (fun b => (b =? 32) = false) scheme.
Proof.
  intros Hs. apply Forall_forall. intros c Hc. apply Z.eqb_neq. intros ->.
  apply (list_elem_of_fmap_2 ascii_lower) in Hc. rewrite Hs in Hc.
  revert Hc. apply (bool_decide_unpack _). vm_compute. exact I.
Qed.

Lemma existsb_false {A} (p : A -> bool) l : existsb p l = false <-> Forall (fun x => p x = false) l.
Proof. induction l as [|x l IH]; simpl; [done|]. rewrite orb_false_iff, IH, Forall_cons. done. Qed.

Lemma bearer_parse_exact request token : bearer_parse request = Ok token <-> bearer_presented request token.
Proof.
  unfold bearer_parse, bearer_presented, eq_ignore_ascii_case. change (ascii_lower <$> str "Bearer") with (str "bearer"). split.
  - intros (v & Hv%exactly_one_header_exact & ([scheme rest] & Hs%ok_or_Ok & Hr)%result_bind_Ok)%result_bind_Ok.
    apply split_at_first_Some in Hs as (-> & _ & b & r & -> & ->%Z.eqb_eq). cbn [get_from_1 ok_or mbind result_bind] in Hr.
    destruct (_ || _) eqn:Hb in Hr; [done|]. injection Hr as ->. bools. exists scheme. split_and!; try done.
    by apply existsb_false.
  - intros (scheme & Hv & Hs & Hne & Hw). rewrite (proj2 (exactly_one_header_exact _ _ _) Hv). cbn [mbind result_bind].
    rewrite split_at_first_app; [|by apply no_space|done]. cbn [ok_or get_from_1 mbind result_bind].
    by rewrite bool_decide_true, bool_decide_false, (proj2 (existsb_false _ _)).
Qed.

Lemma bondry_parse_exact request now tol p : bondry_parse request now tol = Ok p <-> bondry_presented request now tol p.
Proof.
  unfold bondry_parse, bondry_presented. split.
  - intros (id & Hid%exactly_one_header_exact & Hrest)%result_bind_Ok. destruct (_ || _) eqn:Hb in Hrest; [done|]. bools.
    apply result_bind_Ok in Hrest as (ts & Hts%exactly_one_header_exact & (t & [Ht ->]%parse_canonical_timestamp_exact & Hrest)%result_bind_Ok).
    apply result_bind_Ok in Hrest as ([] & Hf%verify_freshness_exact & (text & Hx%exactly_one_header_exact & Hrest)%result_bind_Ok).
    apply result_bind_Ok in Hrest as (sig & Hsig%parse_signature_exact & [= <-]).
    assert (length id <> 0)%nat by (by destruct id). simpl. split_and!; try done; try lia. by exists text.
  - intros (Hid & Hlen & Hts & Ht & Hf & text & Hx & Hsig).
    rewrite (proj2 (exactly_one_header_exact _ _ _) Hid). cbn [mbind result_bind].
    rewrite bool_decide_false by (intros Hn; rewrite Hn in Hlen; simpl in Hlen; lia).
    rewrite (proj2 (Z.ltb_ge _ _)) by lia. cbn [orb].
    rewrite (proj2 (exactly_one_header_exact _ _ _) Hts). cbn [mbind result_bind].
    rewrite (proj2 (parse_canonical_timestamp_exact _ (part_timestamp p))) by done.
    cbn [mbind result_bind]. rewrite (proj2 (verify_freshness_exact _ _ _) Hf). cbn [mbind result_bind].
    rewrite (proj2 (exactly_one_header_exact _ _ _) Hx). cbn [mbind result_bind].
    rewrite (proj2 (parse_signature_exact _ (part_signature p)) Hsig). by destruct p.
Qed.

Lemma github_parse_exact request sig : github_parse request = Ok sig <-> github_presented request sig.
Proof.
  unfold github_parse, github_presented. split.
  - intros (v & Hv%exactly_one_header_exact & (text & ->%ok_or_Ok%strip_prefix_Some & Hs%parse_signature_exact)%result_bind_Ok)%result_bind_Ok.
    by exists text.
  - intros (text & Hv & Hs). rewrite (proj2 (exactly_one_header_exact _ _ _) Hv). cbn [mbind result_bind].
    rewrite strip_prefix_app. by apply parse_signature_exact.
Qed.

Lemma stripe_parse_exact request now tol h : stripe_parse request now tol = Ok h <-> stripe_presented request now tol h.
Proof.
  unfold stripe_parse, stripe_presented. split.
  - intros (v & Hv%exactly_one_header_exact & (h' & Hh%parse_stripe_header_exact & ([] & Hf%verify_freshness_exact & [= <-])%result_bind_Ok)%result_bind_Ok)%result_bind_Ok.
    by exists v.
  - intros (v & Hv & Hh & Hf). rewrite (proj2 (exactly_one_header_exact _ _ _) Hv). cbn [mbind result_bind].
    rewrite (proj2 (parse_stripe_header_exact _ _) Hh). cbn [mbind result_bind].
    by rewrite (proj2 (verify_freshness_exact _ _ _) Hf).
Qed.

Lemma bearer_parse_rejects request : only_rejects (bearer_parse request).
Proof.
  unfold bearer_parse. apply only_rejects_bind; [auto with rejects|]. intros a.
  apply only_rejects_bind; [auto with rejects|]. intros []. auto with rejects.
Qed.
Lemma bondry_parse_rejects request now tol : only_rejects (bondry_parse request now tol).
Proof. unfold bondry_parse. auto 20 with rejects. Qed.
Lemma github_parse_rejects request : only_rejects (github_parse request).
Proof. unfold github_parse. auto with rejects. Qed.
Lemma stripe_parse_rejects request now tol : only_rejects (stripe_parse request now tol).
Proof. unfold stripe_parse. pose proof parse_stripe_header_rejects. auto 10 with rejects. Qed.

Section verifier_facts.
Context `{HmacSha256Spec, Sha256Spec, SecretProvider P}.

Abbreviation resolved_by s := (resolve (source_provider s) (source_reference s)).

(** What a verifier vouches for. *)
Definition bondry_identity (v : BondryHmacSha256Verifier P) (p : BondryParts) : TrustedDeliveryIdentity :=
  mk_identity (mk_id BONDRY_HMAC_NAMESPACE) (mk_id_hash (sha256 (part_id p)))
    (Some (mk_freshness (part_timestamp p) (bondry_tolerance v))).
Definition github_identity (request : VerificationRequest) : TrustedDeliveryIdentity :=
  mk_identity (mk_id GITHUB_HMAC_NAMESPACE) (mk_id_hash (sha256 (sha256 (request_body request)))) None.
Definition stripe_identity (v : StripeHmacSha256Verifier P) (request : VerificationRequest) (h : StripeHeader)
    : TrustedDeliveryIdentity :=
  mk_identity (mk_id STRIPE_HMAC_NAMESPACE) (mk_id_hash (sha256 (sha256 (request_body request))))
    (Some (mk_freshness (stripe_timestamp h) (stripe_tolerance v))).

(** What makes a request authentic under the resolved secrets. *)
Definition bearer_authentic (secrets : ResolvedSecret) (token : list byte) : Prop :=
  exists s, accepted secrets s /\ expose s = token.
Definition bondry_authentic (request : VerificationRequest) (secrets : ResolvedSecret) (p : BondryParts) : Prop :=
  exists s, accepted secrets s /\ part_signature p = mk_signature (hmac_sha256 (expose s)
    (canonical_webhook_bytes (mk_signing_input (part_timestamp p) (part_id p) (request_body request)))).
Definition github_authentic (request : VerificationRequest) (secrets : ResolvedSecret) (sig : HmacSignature) : Prop :=
  exists s, accepted secrets s /\ sig = mk_signature (hmac_sha256 (expose s) (request_body request)).
Definition stripe_authentic (request : VerificationRequest) (secrets : ResolvedSecret) (h : StripeHeader) : Prop :=
  exists s, accepted secrets s /\
    mk_signature (hmac_sha256 (expose s) (stripe_timestamp_bytes h ++ str "." ++ request_body request))
      ∈ stripe_signatures h.

(** The configurations the constructors produce. *)
Definition bondry_wf (v : BondryHmacSha256Verifier P) : Prop :=
  bondry_namespace v = mk_id BONDRY_HMAC_NAMESPACE /\
  in_range MIN_FRESHNESS_TOLERANCE MAX_FRESHNESS_TOLERANCE (bondry_tolerance v) = true.
Definition github_wf (v : GitHubHmacSha256Verifier P) : Prop := github_namespace v = mk_id GITHUB_HMAC_NAMESPACE.
Definition stripe_wf (v : StripeHmacSha256Verifier P) : Prop :=
  stripe_namespace v = mk_id STRIPE_HMAC_NAMESPACE /\
  in_range MIN_FRESHNESS_TOLERANCE MAX_FRESHNESS_TOLERANCE (stripe_tolerance v) = true.

Lemma validate_tolerance_exact tol :
  validate_tolerance tol = Ok () <-> in_range MIN_FRESHNESS_TOLERANCE MAX_FRESHNESS_TOLERANCE tol = true.
Proof. unfold validate_tolerance, VerifiedFreshness_new. by destruct (in_range _ _ tol). Qed.

Lemma bondry_with_tolerance_exact reference (provider : P) tol v :
  BondryHmacSha256Verifier_with_tolerance reference provider tol = Ok v <->
  v = mk_bondry_verifier (mk_source reference provider) (mk_id BONDRY_HMAC_NAMESPACE) tol /\ bondry_wf v.
Proof.
  unfold BondryHmacSha256Verifier_with_tolerance, bondry_wf. rewrite result_bind_Ok.
  change (namespace BONDRY_HMAC_NAMESPACE) with
    (Ok (mk_id BONDRY_HMAC_NAMESPACE) : result ProviderVerifierConfigurationError VerifierNamespace). cbn [mbind result_bind].
  split.
  - intros ([] & Ht%validate_tolerance_exact & [= <-]). done.
  - intros (-> & _ & Ht). exists (). by rewrite validate_tolerance_exact.
Qed.

Lemma stripe_with_tolerance_exact reference (provider : P) tol v :
  StripeHmacSha256Verifier_with_tolerance reference provider tol = Ok v <->
  v = mk_stripe_verifier (mk_source reference provider) (mk_id STRIPE_HMAC_NAMESPACE) tol /\ stripe_wf v.
Proof.
  unfold StripeHmacSha256Verifier_with_tolerance, stripe_wf. rewrite result_bind_Ok.
  change (namespace STRIPE_HMAC_NAMESPACE) with
    (Ok (mk_id STRIPE_HMAC_NAMESPACE) : result ProviderVerifierConfigurationError VerifierNamespace). cbn [mbind result_bind].
  split.
  - intros ([] & Ht%validate_tolerance_exact & [= <-]). done.
  - intros (-> & _ & Ht). exists (). by rewrite validate_tolerance_exact.
Qed.

Lemma body_identity_exact ns body f :
  body_identity ns body f = Ok (mk_identity ns (mk_id_hash (sha256 (sha256 body))) f).
Proof.
  unfold body_identity, TrustedDeliveryIdentity_from_normalized. rewrite decide_False; [done|].
  intros Hn. pose proof (sha256_length body) as Hl. by rewrite Hn in Hl.
Qed.

Lemma bearer_verdict (v : BearerSecretVerifier P) request now :
  verdict (bearer_presented request) (resolved_by (bearer_source v)) bearer_authentic (fun _ => None) (verify v request now).
Proof.
  eassert (verify v request now = _) as ->; [|apply (verdict_intro _ _ _ _ (bearer_parse request) matches_secret);
    [apply bearer_parse_rejects|apply bearer_parse_exact|apply matches_secret_exact]].
  cbn [verify BearerSecretVerifier_verifier]. unfold BearerSecretVerifier_verify, bearer_parse, SecretSource_resolve.
  destruct (exactly_one_header _ _) as [a|]; [|done]. cbn [mbind result_bind].
  destruct (ok_or _ _) as [[scheme rest]|]; [|done]. cbn [mbind result_bind].
  destruct (ok_or _ _) as [token|]; [|done]. cbn [mbind result_bind]. by destruct (_ || _).
Qed.

Lemma bondry_verdict (v : BondryHmacSha256Verifier P) request now :
  bondry_wf v ->
  verdict (bondry_presented request now (bondry_tolerance v)) (resolved_by (bondry_source v)) (bondry_authentic request)
    (fun p => Some (bondry_identity v p)) (verify v request now).
Proof.
  intros [Hns Htol]. set (tol := bondry_tolerance v).
  pose (check := fun secrets p =>
    verify_webhook secrets (mk_signing_input (part_timestamp p) (part_id p) (request_body request)) (part_signature p)).
  eassert (verify v request now = _) as ->; [|apply (verdict_intro _ _ _ _ (bondry_parse request now tol) check);
    [apply bondry_parse_rejects|apply bondry_parse_exact|intros; apply verify_webhook_exact]].
  cbn [verify BondryHmacSha256Verifier_verifier]. unfold BondryHmacSha256Verifier_verify, bondry_parse, SecretSource_resolve.
  destruct (exactly_one_header request BONDRY_WEBHOOK_DELIVERY_ID_HEADER) as [id|]; [|done]. cbn [mbind result_bind].
  destruct (bool_decide (id = [])) eqn:Hid; [done|]. destruct (MAX_DELIVERY_ID_BYTES <? _); [done|]. cbn [orb].
  destruct (exactly_one_header request BONDRY_WEBHOOK_TIMESTAMP_HEADER) as [ts|]; [|done]. cbn [mbind result_bind].
  destruct (parse_canonical_timestamp ts) as [t|]; [|done]. cbn [mbind result_bind].
  fold tol. destruct (verify_freshness now t tol); [|done]. cbn [mbind result_bind].
  destruct (exactly_one_header request BONDRY_WEBHOOK_SIGNATURE_HEADER) as [text|]; [|done]. cbn [mbind result_bind].
  destruct (parse_signature text) as [sig|]; [|done]. cbn [mbind result_bind].
  destruct (map_err map_secret_error _) as [secrets|]; [|done]. cbn [mbind result_bind].
  unfold check. cbn [part_id part_timestamp part_signature]. destruct (verify_webhook _ _ _); [|done]. cbn [negb].
  unfold VerifiedFreshness_new, TrustedDeliveryIdentity_from_normalized. fold tol in Htol. rewrite Htol, Hns.
  cbn [negb map_err mbind result_bind]. apply bool_decide_eq_false in Hid. by rewrite decide_False.
Qed.

Lemma github_verdict (v : GitHubHmacSha256Verifier P) request now :
  github_wf v ->
  verdict (github_presented request) (resolved_by (github_source v)) (github_authentic request)
    (fun _ => Some (github_identity request)) (verify v request now).
Proof.
  intros Hns. pose (check := fun secrets sig => verify_hmac_sha256 secrets [request_body request] [sig]).
  eassert (verify v request now = _) as ->; [|apply (verdict_intro _ _ _ _ (github_parse request) check);
    [apply github_parse_rejects|apply github_parse_exact|]].
  - cbn [verify GitHubHmacSha256Verifier_verifier]. unfold GitHubHmacSha256Verifier_verify, github_parse, SecretSource_resolve.
    destruct (exactly_one_header _ _) as [a|]; [|done]. cbn [mbind result_bind].
    destruct (ok_or _ _) as [text|]; [|done]. cbn [mbind result_bind].
    destruct (parse_signature text) as [sig|]; [|done]. cbn [mbind result_bind].
    destruct (map_err map_secret_error _) as [secrets|]; [|done]. cbn [mbind result_bind]. unfold check.
    destruct (verify_hmac_sha256 _ _ _); [|done]. cbn [negb]. rewrite body_identity_exact, Hns. done.
  - intros secrets sig. unfold check, github_authentic. rewrite verify_hmac_exact. cbn [concat]. rewrite app_nil_r.
    setoid_rewrite list_elem_of_singleton. naive_solver.
Qed.

Lemma stripe_verdict (v : StripeHmacSha256Verifier P) request now :
  stripe_wf v ->
  verdict (stripe_presented request now (stripe_tolerance v)) (resolved_by (stripe_source v))
    (stripe_authentic request) (fun h => Some (stripe_identity v request h)) (verify v request now).
Proof.
  intros [Hns Htol]. set (tol := stripe_tolerance v).
  pose (check := fun secrets h =>
    verify_hmac_sha256 secrets [stripe_timestamp_bytes h; str "."; request_body request] (stripe_signatures h)).
  eassert (verify v request now = _) as ->; [|apply (verdict_intro _ _ _ _ (stripe_parse request now tol) check);
    [apply stripe_parse_rejects|apply stripe_parse_exact|]].
  - cbn [verify StripeHmacSha256Verifier_verifier]. unfold StripeHmacSha256Verifier_verify, stripe_parse, SecretSource_resolve.
    destruct (exactly_one_header _ _) as [a|]; [|done]. cbn [mbind result_bind].
    destruct (parse_stripe_header a) as [h|]; [|done]. cbn [mbind result_bind]. fold tol.
    destruct (verify_freshness _ _ tol); [|done]. cbn [mbind result_bind].
    destruct (map_err map_secret_error _) as [secrets|]; [|done]. cbn [mbind result_bind]. unfold check.
    destruct (verify_hmac_sha256 _ _ _); [|done]. cbn [negb]. unfold VerifiedFreshness_new. fold tol in Htol. rewrite Htol.
    cbn [negb map_err mbind result_bind]. rewrite body_identity_exact, Hns. done.
  - intros secrets h. unfold check, stripe_authentic. rewrite verify_hmac_exact. cbn [concat]. by rewrite app_nil_r.
Qed.

(** ** The verifiers keep the contract of the trait *)

Lemma verdict_ok {A} (presented : A -> Prop) resolved authentic identity r res :
  verdict presented resolved authentic identity r -> r = Ok res -> exists a, result_identity res = identity a.
Proof. intros Hv ->. destruct Hv as (a & secrets & _ & _ & _ & ->). by exists a. Qed.

#[global] Program Instance BearerSecretVerifier_spec : WebhookVerifierSpec (BearerSecretVerifier P) :=
  {| verifier_ok _ := True |}.
Next Obligation. intros v r now res i _ Hr Hi. destruct (verdict_ok _ _ _ _ _ _ (bearer_verdict v r now) Hr) as (a & Ha). simpl in Ha. congruence. Qed.
Next Obligation. intros v r now res _ Hr. by destruct (verdict_ok _ _ _ _ _ _ (bearer_verdict v r now) Hr) as (a & Ha). Qed.
Next Obligation. done. Qed.

#[global] Program Instance BondryHmacSha256Verifier_spec : WebhookVerifierSpec (BondryHmacSha256Verifier P) :=
  {| verifier_ok := bondry_wf |}.
Next Obligation.
  intros v r now res i Hv Hr Hi. destruct (verdict_ok _ _ _ _ _ _ (bondry_verdict v r now Hv) Hr) as (a & Ha).
  rewrite Hi in Ha. injection Ha as ->. split; [done|]. apply sha256_length.
Qed.
Next Obligation.
  intros v r now res Hv Hr. destruct (verdict_ok _ _ _ _ _ _ (bondry_verdict v r now Hv) Hr) as (a & Ha).
  cbn. rewrite Ha. by eexists.
Qed.
Next Obligation. intros v name _ Hn. apply list_elem_of_singleton in Hn as ->. cbn. set_solver. Qed.

#[global] Program Instance GitHubHmacSha256Verifier_spec : WebhookVerifierSpec (GitHubHmacSha256Verifier P) :=
  {| verifier_ok := github_wf |}.
Next Obligation.
  intros v r now res i Hv Hr Hi. destruct (verdict_ok _ _ _ _ _ _ (github_verdict v r now Hv) Hr) as (a & Ha).
  rewrite Hi in Ha. injection Ha as ->. split; [done|]. apply sha256_length.
Qed.
Next Obligation.
  intros v r now res Hv Hr. destruct (verdict_ok _ _ _ _ _ _ (github_verdict v r now Hv) Hr) as (a & Ha).
  cbn. rewrite Ha. by eexists.
Qed.
Next Obligation. done. Qed.

#[global] Program Instance StripeHmacSha256Verifier_spec : WebhookVerifierSpec (StripeHmacSha256Verifier P) :=
  {| verifier_ok := stripe_wf |}.
Next Obligation.
  intros v r now res i Hv Hr Hi. destruct (verdict_ok _ _ _ _ _ _ (stripe_verdict v r now Hv) Hr) as (a & Ha).
  rewrite Hi in Ha. injection Ha as ->. split; [done|]. apply sha256_length.
Qed.
Next Obligation.
  intros v r now res Hv Hr. destruct (verdict_ok _ _ _ _ _ _ (stripe_verdict v r now Hv) Hr) as (a & Ha).
  cbn. rewrite Ha. by eexists.
Qed.
Next Obligation. done. Qed.

(** C31: what the four verifiers accept, and which failure they report otherwise.  A request
    is accepted exactly when it presents one well-formed credential (one header each, a
    canonical fresh timestamp where the scheme signs one) that is authentic under the current
    or the previous secret, and the identity vouched for is the hash of what was signed.
    The verifier is unavailable exactly when a well-formed credential meets a provider that
    cannot resolve the secret; everything else is rejected. *)
Theorem provider_verifiers_exact reference (provider : P) tolerance bondry github stripe request now :
  BondryHmacSha256Verifier_with_tolerance reference provider tolerance = Ok bondry ->
  GitHubHmacSha256Verifier_new reference provider = Ok github ->
  StripeHmacSha256Verifier_with_tolerance reference provider tolerance = Ok stripe ->
  let resolved := resolve provider reference in
  verdict (bearer_presented request) resolved bearer_authentic (fun _ => None)
    (verify (BearerSecretVerifier_new reference provider) request now) /\
  verdict (bondry_presented request now tolerance) resolved (bondry_authentic request)
    (fun p => Some (bondry_identity bondry p)) (verify bondry request now) /\
  verdict (github_presented request) resolved (github_authentic request)
    (fun _ => Some (github_identity request)) (verify github request now) /\
  verdict (stripe_presented request now tolerance) resolved (stripe_authentic request)
    (fun h => Some (stripe_identity stripe request h)) (verify stripe request now).
Proof.
  intros [-> Hb]%bondry_with_tolerance_exact Hg [-> Hs]%stripe_with_tolerance_exact resolved.
  assert (github = mk_github_verifier (mk_source reference provider) (mk_id GITHUB_HMAC_NAMESPACE)) as ->.
  { by injection Hg as <-. }
  split_and!; [apply (bearer_verdict (BearerSecretVerifier_new reference provider))|by apply bondry_verdict
    |by apply github_verdict|by apply stripe_verdict].
Qed.

(** ** Sender and receiver *)

(** The request a sender makes of [sign_webhook] and the three headers. *)
Definition signed_request (secret : SecretValue) (input : WebhookSigningInput) (target : rstr) (peer : PeerAddress)
    (others : list VerificationHeader) : VerificationRequest :=
  mk_verification_request METHOD_POST target
    ([mk_header BONDRY_WEBHOOK_DELIVERY_ID_HEADER (signed_delivery_id input);
      mk_header BONDRY_WEBHOOK_TIMESTAMP_HEADER (i64_to_string (timestamp_unix_seconds input));
      mk_header BONDRY_WEBHOOK_SIGNATURE_HEADER (HmacSignature_to_hex (sign_webhook secret input))] ++ others)
    (signed_body input) peer.

Lemma to_hex_lower sig : signature_wf sig -> ascii_lower <$> HmacSignature_to_hex sig = HmacSignature_to_hex sig.
Proof.
  intros Hw. apply (proj1 (from_hex_exact (HmacSignature_to_hex sig) sig)). destruct sig as [bs], Hw as [Hl Hb].
  simpl in *. pose proof (to_hex_ascii bs Hb) as Ha. unfold HmacSignature_from_hex.
  rewrite str_len_ascii, length_to_hex, Hl, as_bytes_ascii, decode_pairs_to_hex by done. done.
Qed.

Lemma header_values_app headers others name body target peer m :
  Forall (fun h => header_name h <> name) others ->
  header_values (mk_verification_request m target (headers ++ others) body peer) name =
  header_value <$> filter (fun h => header_name h = name) headers.
Proof.
  intros Ho. unfold header_values. cbn [request_headers]. rewrite filter_app, fmap_app.
  replace (filter _ others) with (@nil VerificationHeader); [by rewrite app_nil_r|].
  induction Ho as [|h hs Hh _ IH]; [done|]. by rewrite filter_cons, decide_False.
Qed.

(** A request whose headers are those of a signature is accepted. *)
Lemma signed_headers_verify reference (provider : P) tolerance v secrets secret input request now :
  BondryHmacSha256Verifier_with_tolerance reference provider tolerance = Ok v ->
  resolve provider reference = Ok secrets -> accepted secrets secret ->
  1 <= Z.of_nat (length (signed_delivery_id input)) <= MAX_DELIVERY_ID_BYTES ->
  0 <= timestamp_unix_seconds input <= I64_MAX -> fresh now (timestamp_unix_seconds input) tolerance ->
  header_values request BONDRY_WEBHOOK_DELIVERY_ID_HEADER = [signed_delivery_id input] ->
  header_values request BONDRY_WEBHOOK_TIMESTAMP_HEADER = [i64_to_string (timestamp_unix_seconds input)] ->
  header_values request BONDRY_WEBHOOK_SIGNATURE_HEADER = [HmacSignature_to_hex (sign_webhook secret input)] ->
  request_body request = signed_body input ->
  verify v request now =
    Ok (VerificationResult_with_identity (mk_identity (mk_id BONDRY_HMAC_NAMESPACE)
      (mk_id_hash (sha256 (signed_delivery_id input)))
      (Some (mk_freshness (timestamp_unix_seconds input) tolerance)))).
Proof.
  intros [-> Hwf]%bondry_with_tolerance_exact Hres Hacc Hid Ht Hf Hh1 Hh2 Hh3 Hbody.
  set (parts := mk_bondry_parts (signed_delivery_id input) (timestamp_unix_seconds input) (sign_webhook secret input)).
  assert (bondry_presented request now tolerance parts) as Hp.
  { unfold bondry_presented, parts. cbn [part_id part_timestamp part_signature]. split_and!; try done; try lia.
    exists (HmacSignature_to_hex (sign_webhook secret input)). split; [done|]. split; [apply sign_wf|]. apply to_hex_lower, sign_wf. }
  pose proof (bondry_verdict _ request now Hwf) as Hv.
  cbn [bondry_tolerance bondry_source source_provider source_reference] in Hv. destruct (verify _ _ _) as [[i]|[]].
  - destruct Hv as (p & ss & Hp' & _ & _ & Hi). cbn [result_identity] in Hi. subst i.
    apply bondry_parse_exact in Hp, Hp'. rewrite Hp in Hp'. by injection Hp' as <-.
  - destruct Hv as [Hno|(p & ss & Hp' & Hr & Hna)]; [by destruct (Hno parts)|].
    apply bondry_parse_exact in Hp, Hp'. rewrite Hp in Hp'. injection Hp' as <-.
    rewrite Hres in Hr. injection Hr as <-.
    destruct Hna. exists secret. split; [done|]. cbn [part_id part_timestamp part_signature parts]. rewrite Hbody.
    by destruct input; apply sign_canonical.
  - destruct Hv as (p & e & _ & Hr). congruence.
Qed.

(** Signing and verifying agree.  What [sign_webhook] signs with an accepted secret, the
    current or the previous one of a rotation, is accepted by the receiver's verifier while
    the timestamp is fresh, whatever other headers the request carries, and is identified by
    its delivery identifier.  The signed bytes determine the timestamp, the identifier and the
    body, so that a signature accepted for a different delivery is a collision of the code. *)
Theorem signed_webhook_verifies reference (provider : P) tolerance v secrets secret input target peer others now :
  BondryHmacSha256Verifier_with_tolerance reference provider tolerance = Ok v ->
  resolve provider reference = Ok secrets -> accepted secrets secret ->
  1 <= Z.of_nat (length (signed_delivery_id input)) <= MAX_DELIVERY_ID_BYTES ->
  0 <= timestamp_unix_seconds input <= I64_MAX -> fresh now (timestamp_unix_seconds input) tolerance ->
  Forall (fun h => header_name h ∉ selected_headers v) others ->
  verify v (signed_request secret input target peer others) now =
    Ok (VerificationResult_with_identity (mk_identity (mk_id BONDRY_HMAC_NAMESPACE)
      (mk_id_hash (sha256 (signed_delivery_id input)))
      (Some (mk_freshness (timestamp_unix_seconds input) tolerance)))) /\
  forall other, sign_webhook secret other = sign_webhook secret input ->
    other = input \/ canonical_webhook_bytes other <> canonical_webhook_bytes input /\
      hmac_sha256 (expose secret) (canonical_webhook_bytes other) =
      hmac_sha256 (expose secret) (canonical_webhook_bytes input).
Proof.
  intros Hv Hres Hacc Hid Ht Hf Ho.
  assert (forall name, name ∈ [BONDRY_WEBHOOK_DELIVERY_ID_HEADER; BONDRY_WEBHOOK_TIMESTAMP_HEADER;
    BONDRY_WEBHOOK_SIGNATURE_HEADER] -> Forall (fun h => header_name h <> name) others) as Hno.
  { intros name Hn. eapply Forall_impl; [exact Ho|]. intros h Hh Heq. apply Hh. by rewrite Heq. }
  split.
  - eapply signed_headers_verify; try done; unfold signed_request; rewrite header_values_app by (apply Hno; set_solver); done.
  - intros other. unfold sign_webhook. rewrite !sign_canonical. intros [= Heq].
    destruct (decide (canonical_webhook_bytes other = canonical_webhook_bytes input)) as [Hc|Hc]; [|by right].
    left. by apply canonical_webhook_bytes_inj.
Qed.
End verifier_facts.

(** *** Witnesses: a provider in the middle of a rotation *)

Section witness.
#[local] Instance ex_hmac : HmacSha256 := toy_hmac.
#[local] Instance ex_sha : Sha256 := toy_digest.
#[local] Instance ex_provider : SecretProvider unit := fun _ _ =>
  Ok (ResolvedSecret_rotating (mk_secret (str "new-secret")) (mk_secret (str "old-secret"))).

Definition ex_input : WebhookSigningInput := mk_signing_input 1000 (str "delivery-1") (str "{}").
Definition ex_request : VerificationRequest :=
  signed_request (mk_secret (str "old-secret")) ex_input (str "/hooks/notes") (PeerAddress_v4 127 0 0 1 443)
    [mk_header CONTENT_TYPE (str "application/json")].
Definition ex_bondry : BondryHmacSha256Verifier unit :=
  mk_bondry_verifier (mk_source (mk_secret_ref (str "hook")) ()) (mk_id BONDRY_HMAC_NAMESPACE) (from_secs 300).

Lemma provider_verifiers_exact_witness :
  verdict (bondry_presented ex_request 1100 (from_secs 300)) (resolve () (mk_secret_ref (str "hook")))
    (bondry_authentic ex_request) (fun p => Some (bondry_identity ex_bondry p)) (verify ex_bondry ex_request 1100).
Proof.
  refine (proj1 (proj2 (provider_verifiers_exact (mk_secret_ref (str "hook")) () (from_secs 300) ex_bondry
    (mk_github_verifier (mk_source (mk_secret_ref (str "hook")) ()) (mk_id GITHUB_HMAC_NAMESPACE))
    (mk_stripe_verifier (mk_source (mk_secret_ref (str "hook")) ()) (mk_id STRIPE_HMAC_NAMESPACE) (from_secs 300))
    ex_request 1100 _ _ _))); vm_compute; reflexivity.
Defined.

Lemma signed_webhook_verifies_witness :
  is_ok (verify ex_bondry ex_request 1100) = true.
Proof.
  assert (verify ex_bondry ex_request 1100 = Ok (VerificationResult_with_identity
    (mk_identity (mk_id BONDRY_HMAC_NAMESPACE) (mk_id_hash (sha256 (str "delivery-1")))
      (Some (mk_freshness 1000 (from_secs 300)))))) as ->; [|reflexivity].
  refine (proj1 (signed_webhook_verifies (mk_secret_ref (str "hook")) () (from_secs 300) ex_bondry
    (ResolvedSecret_rotating (mk_secret (str "new-secret")) (mk_secret (str "old-secret")))
    (mk_secret (str "old-secret")) ex_input (str "/hooks/notes") (PeerAddress_v4 127 0 0 1 443)
    [mk_header CONTENT_TYPE (str "application/json")] 1100 _ _ _ _ _ _ _)).
  - vm_compute. reflexivity.
  - reflexivity.
  - right. reflexivity.
  - vm_compute. split; discriminate.
  - vm_compute. split; discriminate.
  - vm_compute. split; discriminate.
  - apply (bool_decide_unpack _). vm_compute. exact I.
Defined.
End witness.
