(* ===== verification/Service.v ===== *)
(** * Service: what protocol adapters use of [bondry-core]

    The trait [AutomationService] of dispatch.rs as a class, with the part of its contract
    that replay protection relies on; the dispatcher is shown to keep it.  The invocation
    identifiers of invocation_id.rs. *)

From S2P Require Import Prelude Text Identifiers Base64 Json Capability Policy Dispatch.

(** ** Invocation identifiers *)

Definition RANDOM_BYTES : nat := 16.
Inductive InvocationIdGenerationError := InvocationIdUnavailable.

(** [SystemInvocationIdGenerator::generate]; [random] is what [getrandom::fill] wrote, or
    [None] if it failed. *)
Definition SystemInvocationIdGenerator_generate `{Base64} (random : option (list byte))
    : result InvocationIdGenerationError InvocationId :=
  random ← ok_or random InvocationIdUnavailable;
  map_err (fun _ => InvocationIdUnavailable) (Identifier_new (str "request_" ++ b64_encode random)).

(** With entropy, an identifier is always produced; different bytes give different ones. *)
Lemma generate_total `{Base64Spec} random :
  bytes_wf random -> length random = RANDOM_BYTES ->
  SystemInvocationIdGenerator_generate (Some random) = Ok (mk_id (str "request_" ++ b64_encode random)).
Proof.
  intros Hb Hl. unfold SystemInvocationIdGenerator_generate, Identifier_new. cbn [ok_or mbind result_bind].
  rewrite (proj2 (validate_ok _)); [done|]. split_and!.
  - done.
  - rewrite length_app, Nat2Z.inj_add, b64_length, Hl. vm_compute. discriminate.
  - apply Forall_app. split; [by repeat constructor|]. eapply Forall_impl; [by apply b64_alphabet|].
    unfold url_safe, is_allowed. intros c. rewrite !orb_true_iff. tauto.
Qed.

Lemma generate_inj `{Base64Spec} r s i :
  bytes_wf r -> bytes_wf s ->
  SystemInvocationIdGenerator_generate (Some r) = Ok i -> SystemInvocationIdGenerator_generate (Some s) = Ok i -> r = s.
Proof.
  unfold SystemInvocationIdGenerator_generate, Identifier_new. cbn [ok_or mbind result_bind]. intros Hr Hs.
  destruct (validate (_ ++ b64_encode r)); [|done]. destruct (validate (_ ++ b64_encode s)); [|done].
  cbn. intros [= <-] [= Heq]. apply b64_decode_encode in Hr, Hs. rewrite Heq in Hs. congruence.
Qed.

(** ** The trait *)

Class AutomationService (Validator S : Type) := {
  service_capabilities : S -> Principal -> AdapterId -> result CapabilityDiscoveryError (list (CapabilityDescriptor Validator));
  service_dispatch : Invocation -> S -> result DispatchError Value * S;
}.

(** The errors that say that no handler was started. *)
Definition refusal (r : result DispatchError Value) : bool :=
  match r with
  | Err (DispatchCapabilityNotFound _) | Err (DispatchAccessDenied _) | Err DispatchInvalidInput => true
  | _ => false
  end.

(** The results that say that a handler ran and its completion was recorded. *)
Definition completed (r : result DispatchError Value) : bool :=
  match r with Ok _ | Err (DispatchHandler _) => true | _ => false end.

(** [handler_runs] counts the handlers started so far and [host_state] is what handlers act
    on: a dispatch starts at most one handler, none if it is refused, one if it completed, and
    without one it does not touch the host. *)
Class AutomationServiceSpec (Validator S H : Type) `{AutomationService Validator S} := {
  handler_runs : S -> nat;
  host_state : S -> H;
  dispatch_runs i s :
    let '(r, s') := service_dispatch i s in
    (handler_runs s <= handler_runs s' <= handler_runs s + 1)%nat /\
    (refusal r = true -> handler_runs s' = handler_runs s) /\
    (handler_runs s' = handler_runs s -> host_state s' = host_state s) /\
    (completed r = true -> handler_runs s' = (handler_runs s + 1)%nat);
}.

(** ** The dispatcher as a service *)

Section dispatcher_service.
Context {Validator : Type} (validator_is_valid : Validator -> Value -> bool).
Context {Host P A : Type} `{!AuthorizationPolicy (CapabilityDescriptor Validator) P, !AuditSink A}.

(** The dispatcher with the host it acts on and the readings of the clock to come. *)
Record DispatcherService := mk_dispatcher_service {
  ds_dispatcher : @Dispatcher Validator Host P A;
  ds_host : Host;
  ds_clock : nat -> Z;
}.

#[global] Instance DispatcherService_service : AutomationService Validator DispatcherService := {
  service_capabilities s := Dispatcher_capabilities (ds_dispatcher s);
  service_dispatch i s :=
    let '(r, d, host) := dispatch validator_is_valid (ds_dispatcher s) (ds_host s) (ds_clock s 0%nat) (ds_clock s 1%nat) i in
    (r, mk_dispatcher_service d host (fun n => ds_clock s (2 + n)%nat));
}.

Definition is_start (e : AuditEvent) : bool := match ev_outcome e with OutStarted => true | _ => false end.
Definition starts (es : list AuditEvent) : nat := length (filter (fun e => is_start e = true) es).

Lemma starts_app es fs : starts (es ++ fs) = (starts es + starts fs)%nat.
Proof. unfold starts. by rewrite filter_app, length_app. Qed.

Context `{!AuditTrail A}.

(** The starts of handlers are on the audit trail. *)
#[global] Program Instance DispatcherService_spec : AutomationServiceSpec Validator DispatcherService Host := {|
  handler_runs s := starts (trail (disp_audit (ds_dispatcher s)));
  host_state := ds_host;
|}.
Next Obligation.
  intros i s. cbn [service_dispatch DispatcherService_service].
  pose proof (dispatch_meets_spec validator_is_valid (ds_dispatcher s) (ds_host s) (ds_clock s 0%nat) (ds_clock s 1%nat) i) as H.
  destruct (dispatch _ _ _ _ _ _) as [[r d] host]. destruct H as (_ & _ & outs & Ht & Hstory). cbn.
  rewrite Ht, starts_app. unfold starts.
  destruct Hstory as [| | | |descriptor handler [v|e]|]; cbn;
    rewrite ?(decide_True (P := true = true)), ?(decide_False (P := false = true)) by done; cbn;
    split_and!; intros; try done; try lia.
Qed.
End dispatcher_service.
Arguments DispatcherService : clear implicits.
