(* ===== verification/CapabilityAbi.v ===== *)
(** * CapabilityAbi: capabilities and dispatch through the C interface

    capabilities.rs and automation_service.rs of [bondry-runtime-ffi] let a foreign host
    register capabilities as callbacks, list and discover them, and dispatch invocations; they
    export the whole as a descriptor, [BondryAutomationServiceV1].  service.rs of
    [bondry-webhook-ingress-ffi] retains such a descriptor and implements [AutomationService]
    over it.

    A handler of the host is a function on the state of the host that answers with what it
    completes the invocation with; DispatchTask.v is about when.  A dispatch that was accepted
    answers with what its completion is called with.

    [capabilities_cross_interface] says that the service on the side of webhook ingress is
    the dispatcher over every registered capability on the other; [LinkedService_spec] is the
    contract that the theorems on webhook ingress ask of a service. *)

From S2P Require Import Prelude Text Bytes Identifiers CAbi Base64 Crypto Json JsonDoc Capability Policy Auth AuthManager Sqlite SqlGrants Dispatch SqlAudit Service.

Definition BONDRY_AUDIT_DETAIL_CAPACITY_V1 : nat := 129.
Definition BONDRY_CAPABILITY_SUMMARY_CAPACITY_V1 : nat := 257.
Definition BONDRY_AUTOMATION_SERVICE_ABI_VERSION_V1 : Z := 1.
Definition BONDRY_SERVICE_THREADING_CONCURRENT_V1 : Z := 1.
Definition MAX_JSON_PAYLOAD_LENGTH : Z := 1048576.
Definition MAX_AUTOMATION_INPUT_LENGTH : Z := 10 * 1048576.
Definition MAX_CAPABILITIES_JSON : Z := 1048576.
Definition MAX_DISPATCH_INPUT_JSON : Z := 10 * 1048576.

(** [size_of::<BondryAutomationServiceV1>()] on a 64-bit target. *)
Definition AUTOMATION_SERVICE_SIZE : Z := 64.

(** Dispatch outcomes. *)
Definition BONDRY_DISPATCH_OUTCOME_SUCCEEDED_V1 : Z := 1.
Definition BONDRY_DISPATCH_OUTCOME_CAPABILITY_NOT_FOUND_V1 : Z := 2.
Definition BONDRY_DISPATCH_OUTCOME_ACCESS_DENIED_V1 : Z := 3.
Definition BONDRY_DISPATCH_OUTCOME_AUDIT_UNAVAILABLE_V1 : Z := 4.
Definition BONDRY_DISPATCH_OUTCOME_HANDLER_FAILED_V1 : Z := 5.
Definition BONDRY_DISPATCH_OUTCOME_INVALID_INPUT_V1 : Z := 6.

#[local] Abbreviation buffer := (pointer (list byte)).

(** ** Records *)

Record BondryInvocationV1 := mk_invocation_v1 {
  iv_invocation_id : list byte;
  iv_principal_id : list byte;
  iv_principal_kind : Z;
  iv_adapter_id : list byte;
  iv_capability_id : list byte;
  iv_input_json : list byte;
}.

Record BondryCapabilityV1 := mk_capability_v1 {
  cv_id : list byte;
  cv_summary : list byte;
  cv_effect : Z;
}.

Record BondryDispatchResultV1 := mk_dispatch_result_v1 {
  xr_outcome : Z;
  xr_output_json : buffer;
  xr_detail_code : list byte;
  xr_has_detail_code : Z;
}.

(** [BondryInvocationV1::new] and [BondryCapabilityV1::from_descriptor]; [None] is the panic
    of a copy out of range. *)
Definition BondryInvocationV1_new (c : InvocationContext) (input_json : list byte) : option BondryInvocationV1 :=
  id ← terminated BONDRY_IDENTIFIER_CAPACITY_V1 (as_str (ctx_id c));
  principal ← terminated BONDRY_IDENTIFIER_CAPACITY_V1 (as_str (principal_id (ctx_principal c)));
  adapter ← terminated BONDRY_IDENTIFIER_CAPACITY_V1 (as_str (ctx_adapter c));
  capability ← terminated BONDRY_IDENTIFIER_CAPACITY_V1 (as_str (ctx_capability c));
  Some (mk_invocation_v1 id principal (match principal_kind (ctx_principal c) with User => 1 | Application => 2 | System => 3 end)
    adapter capability input_json).

Definition capability_from_descriptor {V} (d : CapabilityDescriptor V) : option BondryCapabilityV1 :=
  id ← terminated BONDRY_IDENTIFIER_CAPACITY_V1 (as_str (descriptor_id d));
  summary ← terminated BONDRY_CAPABILITY_SUMMARY_CAPACITY_V1 (descriptor_summary d);
  Some (mk_capability_v1 id summary (match descriptor_effect d with ReadOnly => 1 | Mutating => 2 end)).

(** ** Documents of descriptors

    The derived [Serialize] writes the fields of a descriptor in their order; the derived
    [Deserialize] of [SerializedCapability] reads members in the order of the document. *)

(** [serde_json]'s deserializer: the document with the members of objects in their order,
    repeated ones included. *)
Class DocumentReader := read_doc : list byte -> option Value.

(** What the reader gives back as it was written: [exact_json] without an order of keys. *)
Fixpoint exact_doc (v : Value) : bool :=
  match v with
  | JNull | JBool _ => true
  | JNumber (PosInt n) => in_range 0 U64_MAX n
  | JNumber (NegInt n) => in_range I64_MIN (-1) n
  | JNumber (Float _) => false
  | JString s => forallb is_scalar s
  | JArray items => forallb exact_doc items
  | JObject entries => forallb (fun e => forallb is_scalar e.1 && exact_doc e.2) entries
  end.

Class DocumentCodecSpec `{JsonWriter, DocumentReader} : Prop := {
  read_doc_written v bytes : exact_doc v = true -> json_nesting_depth v <= JSON_READER_DEPTH -> to_vec v = Some bytes -> read_doc bytes = Some v;
  written_nonempty v : to_vec v <> Some [];
}.

(** The [Value] of a document: maps are sorted and the last of repeated members counts. *)
Fixpoint document_value (v : Value) : Value :=
  match v with
  | JArray items => JArray (document_value <$> items)
  | JObject entries => JObject (foldl (fun m e => map_insert e.1 e.2 m) [] ((fun e => (e.1, document_value e.2)) <$> entries))
  | v => v
  end.

Definition effect_name (e : CapabilityEffect) : rstr :=
  match e with ReadOnly => str "read_only" | Mutating => str "mutating" end.

Definition descriptor_doc {V} (d : CapabilityDescriptor V) : Value :=
  JObject [(str "id", JString (as_str (descriptor_id d))); (str "summary", JString (descriptor_summary d));
           (str "effect", JString (effect_name (descriptor_effect d)));
           (str "input_schema", CapabilityInputSchema_document (descriptor_schema d))].
Definition descriptors_doc {V} (ds : list (CapabilityDescriptor V)) : Value := JArray (descriptor_doc <$> ds).

Record SerializedCapability := mk_serialized {
  sc_id : rstr;
  sc_summary : rstr;
  sc_effect : CapabilityEffect;
  sc_input_schema : Value;
}.

(** A variant is its name, or a member of that name without content. *)
Definition read_effect (v : Value) : option CapabilityEffect :=
  name ← match v with JString name | JObject [(name, JNull)] => Some name | _ => None end;
  if bool_decide (name = str "read_only") then Some ReadOnly else if bool_decide (name = str "mutating") then Some Mutating else None.

(** Members may come in any order, but each once and no others. *)
Definition sole_member (key : rstr) (entries : list (rstr * Value)) : option Value :=
  match filter (fun e => e.1 = key) entries with [(_, v)] => Some v | _ => None end.

Definition serialized_fields (v : Value) : option (Value * Value * Value * Value) :=
  match v with
  | JArray [id; summary; effect; schema] => Some (id, summary, effect, schema)
  | JObject entries =>
      id ← sole_member (str "id") entries;
      summary ← sole_member (str "summary") entries;
      effect ← sole_member (str "effect") entries;
      schema ← sole_member (str "input_schema") entries;
      if Nat.eqb (length entries) 4 then Some (id, summary, effect, schema) else None
  | _ => None
  end.

Definition read_serialized (v : Value) : option SerializedCapability :=
  '(id, summary, effect, schema) ← serialized_fields v;
  id ← value_as_str id;
  summary ← value_as_str summary;
  effect ← read_effect effect;
  Some (mk_serialized id summary effect (document_value schema)).

Lemma map_insert_last k v entries :
  Forall (fun e => lex_le e.1 k /\ e.1 <> k) entries -> map_insert k v entries = entries ++ [(k, v)].
Proof.
  induction 1 as [|[k' w] entries [Hle Hne] _ IH]; [done|]. cbn in Hle, Hne |- *. rewrite bool_decide_false by done.
  destruct (lex_leb k k') eqn:Hk; [|by rewrite IH]. destruct Hne. by apply (anti_symm lex_le).
Qed.

Lemma keys_increasing_le k ks : keys_increasing (k :: ks) = true -> Forall (fun k' => lex_le k k' /\ k <> k') ks.
Proof.
  revert k. induction ks as [|k1 ks IH]; intros k; [constructor|]. rewrite keys_increasing_cons. cbn [head]. intros [[Hle Hne] Hks].
  constructor; [done|]. eapply Forall_impl; [by apply IH|]. cbn. intros k2 [Hle2 Hne2]. split; [by transitivity k1|].
  intros ->. apply Hne. by apply (anti_symm lex_le).
Qed.

(** Inserting members in the order of their keys gives them back. *)
Lemma map_insert_sorted entries acc :
  keys_increasing entries.*1 = true -> Forall (fun a => Forall (fun e => lex_le a.1 e.1 /\ a.1 <> e.1) entries) acc ->
  foldl (fun m e => map_insert e.1 e.2 m) acc entries = acc ++ entries.
Proof.
  revert acc. induction entries as [|[k v] entries IH]; intros acc Hk Ha; cbn [foldl fst snd]; [by rewrite app_nil_r|].
  rewrite map_insert_last, IH, <-app_assoc; [done| | |].
  - rewrite fmap_cons, keys_increasing_cons in Hk. apply Hk.
  - apply Forall_app. split.
    + eapply Forall_impl; [exact Ha|]. intros a Hae. by apply Forall_cons in Hae as [_ Hae].
    + constructor; [|constructor]. rewrite fmap_cons in Hk. apply keys_increasing_le in Hk. by rewrite Forall_fmap in Hk.
  - eapply Forall_impl; [exact Ha|]. intros a Hae. by apply Forall_cons in Hae as [Hae _].
Qed.

Lemma document_value_exact v : exact_json v = true -> document_value v = v.
Proof.
  induction v as [|b|n|s|items IH|entries IH] using Value_nested_ind; try done; cbn [exact_json document_value].
  - rewrite forallb_forall. intros Hi. f_equal. induction IH as [|v l Hv _ IHl]; [done|]. cbn in *. rewrite Hv, IHl; auto.
  - rewrite andb_true_iff. intros [Hk Hi]. f_equal.
    assert ((fun e => (e.1, document_value e.2)) <$> entries = entries) as ->.
    { clear Hk. rewrite forallb_forall in Hi. induction IH as [|[k v] l Hv _ IHl]; [done|]. cbn in Hi, Hv |- *. rewrite Hv, IHl; auto.
      specialize (Hi (k, v) (or_introl eq_refl)). cbn in Hi. by apply andb_true_iff in Hi as [_ Hi]. }
    rewrite map_insert_sorted by (done || constructor). done.
Qed.

Lemma exact_json_doc v : exact_json v = true -> exact_doc v = true.
Proof.
  induction v as [|b|n|s|items IH|entries IH] using Value_nested_ind; try done; cbn [exact_json exact_doc].
  - rewrite !forallb_forall. rewrite Forall_forall in IH. intros Hi v Hv. apply IH; [by apply list_elem_of_In|auto].
  - rewrite andb_true_iff, !forallb_forall. rewrite Forall_forall in IH. intros [_ Hi] e He. specialize (Hi e He).
    rewrite andb_true_iff in Hi |- *. split; [apply Hi|]. apply IH; [by apply list_elem_of_In|apply Hi].
Qed.

Lemma read_serialized_doc {V} (d : CapabilityDescriptor V) :
  read_serialized (descriptor_doc d) =
  Some (mk_serialized (as_str (descriptor_id d)) (descriptor_summary d) (descriptor_effect d)
    (document_value (CapabilityInputSchema_document (descriptor_schema d)))).
Proof.
  unfold read_serialized, descriptor_doc, serialized_fields, sole_member. 
  repeat (rewrite filter_cons; cbn [fst]; first [rewrite decide_True by done|rewrite decide_False by discriminate]). rewrite filter_nil.
  cbn. by destruct (descriptor_effect d).
Qed.

(** ** The runtime *)

Section runtime.
  Context {JW : JsonWriter} {JR : JsonReader} {DR : DocumentReader}.
  Context {Validator : Type} (meta_is_valid : Value -> bool) (compile : Value -> option Validator) (validator_is_valid : Validator -> Value -> bool).
  Context {Host St : Type} {GS : GrantStore St} {AS : AuditSink St}.

#[local] Abbreviation Descriptor := (CapabilityDescriptor Validator).
#[local] Abbreviation StoreDispatcher := (@Dispatcher Validator Host (StoredGrantPolicy St) St).

Definition encoded_len (v : Value) : option Z := (fun bytes => Z.of_nat (length bytes)) <$> to_vec v.

(** [HandlerErrorCode::new("invalid_handler_result")], which every handler is given. *)
Definition INVALID_RESULT_CODE : HandlerErrorCode := mk_id (str "invalid_handler_result").
Definition invalid_result : result HandlerError Value := Err (mk_handler_error INVALID_RESULT_CODE).

Record ForeignHandler := mk_foreign_handler {
  fh_invoke : BondryInvocationV1 -> Host -> Z * buffer * Host;
  fh_release : option (Host -> Host);
}.

Definition parse_foreign_result (outcome : Z) (payload : buffer) : result HandlerError Value :=
  match payload with
  | None => invalid_result
  | Some payload =>
      if (MAX_JSON_PAYLOAD_LENGTH <? Z.of_nat (length payload)) || (ISIZE_MAX <? Z.of_nat (length payload)) then invalid_result
      else match outcome with
           | 1 => ok_or (from_slice payload) (mk_handler_error INVALID_RESULT_CODE)
           | 2 =>
               match from_utf8 payload with
               | Some code => match Identifier_new code with Ok code => Err (mk_handler_error code) | Err _ => invalid_result end
               | None => invalid_result
               end
           | _ => invalid_result
           end
  end.

(** [CapabilityHandler for ForeignHandler], awaited.  The identifiers of a context fit the
    record ([invocation_record_exact]); a record that could not be made would be a panic. *)
Definition ForeignHandler_invoke (f : ForeignHandler) : CapabilityHandler (Host := Host) := fun c input host =>
  match to_vec input with
  | None => (invalid_result, host)
  | Some input =>
      match BondryInvocationV1_new c input with
      | None => (invalid_result, host)
      | Some invocation => let '(outcome, payload, host) := fh_invoke f invocation host in (parse_foreign_result outcome payload, host)
      end
  end.

Record ForeignCapability := mk_foreign_capability {
  fc_descriptor : Descriptor;
  fc_handler : ForeignHandler;
}.

(** The parts of [StoreHandle] used here, with the host and the clock: one store keeps clients,
    grants and the audit trail; the capabilities are [None] if their lock is poisoned. *)
Record RuntimeHandle := mk_runtime_handle {
  rh_auth : AuthManager St;
  rh_capabilities : option (gmap CapabilityId ForeignCapability);
  rh_host : Host;
  rh_clock : nat -> Z;
}.
Definition rh_store (h : RuntimeHandle) : St := am_store (rh_auth h).
Definition set_capabilities (cs : gmap CapabilityId ForeignCapability) (h : RuntimeHandle) : RuntimeHandle :=
  mk_runtime_handle (rh_auth h) (Some cs) (rh_host h) (rh_clock h).

(** *** Registration *)

Definition parse_capability_id (bytes : buffer) : result Z CapabilityId :=
  value ← required_utf8 bytes; map_err (fun _ => BONDRY_STATUS_INVALID_ARGUMENT) (Identifier_new value).

(** The guards on a buffer of JSON. *)
Definition json_buffer (bytes : buffer) (maximum : Z) : result Z (list byte) :=
  bytes ← ok_or bytes BONDRY_STATUS_NULL_POINTER;
  if ISIZE_MAX <? Z.of_nat (length bytes) then Err BONDRY_STATUS_INVALID_LENGTH
  else if maximum <? Z.of_nat (length bytes) then Err BONDRY_STATUS_PAYLOAD_TOO_LARGE
  else Ok bytes.

Definition parse_descriptor (capability_id summary : buffer) (effect : Z) (input_schema_json : option buffer) : result Z Descriptor :=
  capability ← parse_capability_id capability_id;
  summary ← required_utf8 summary;
  effect ← match effect with 1 => Ok ReadOnly | 2 => Ok Mutating | _ => Err BONDRY_STATUS_INVALID_ARGUMENT end;
  descriptor ← map_err (fun _ => BONDRY_STATUS_INVALID_ARGUMENT) (CapabilityDescriptor_new capability summary effect);
  match input_schema_json with
  | None => Ok descriptor
  | Some input_schema_json =>
      bytes ← json_buffer input_schema_json MAX_JSON_PAYLOAD_LENGTH;
      input_schema ← ok_or (from_slice bytes) BONDRY_STATUS_INVALID_JSON;
      map_err (fun _ => BONDRY_STATUS_INVALID_ARGUMENT)
        (CapabilityDescriptor_with_input_schema meta_is_valid compile encoded_len descriptor input_schema)
  end.

Definition register_capability (store : pointer RuntimeHandle) (capability_id summary : buffer) (effect : Z) (input_schema_json : option buffer)
    (invoke : option (BondryInvocationV1 -> Host -> Z * buffer * Host)) (release : option (Host -> Host)) : Z * pointer RuntimeHandle :=
  match store, invoke with
  | Some handle, Some invoke =>
      match parse_descriptor capability_id summary effect input_schema_json with
      | Err status => (status, store)
      | Ok descriptor =>
          match rh_capabilities handle with
          | None => (BONDRY_STATUS_UNAVAILABLE, store)
          | Some cs =>
              match cs !! descriptor_id descriptor with
              | Some _ => (BONDRY_STATUS_ALREADY_EXISTS, store)
              | None =>
                  (BONDRY_STATUS_OK,
                   Some (set_capabilities (<[descriptor_id descriptor := mk_foreign_capability descriptor (mk_foreign_handler invoke release)]> cs) handle))
              end
          end
      end
  | _, _ => (BONDRY_STATUS_NULL_POINTER, store)
  end.

Definition bondry_capability_register_v1 (store : pointer RuntimeHandle) (capability_id summary : buffer) (effect : Z) :=
  register_capability store capability_id summary effect None.
Definition bondry_capability_register_with_schema_v1 (store : pointer RuntimeHandle) (capability_id summary : buffer) (effect : Z)
    (input_schema_json : buffer) :=
  register_capability store capability_id summary effect (Some input_schema_json).

(** [Drop for ForeignHandler]. *)
Definition handler_drop (f : ForeignHandler) (host : Host) : Host :=
  match fh_release f with Some release => release host | None => host end.

Definition bondry_capability_unregister_v1 (store : pointer RuntimeHandle) (capability_id : buffer) (out_changed : pointer Z)
    : Z * pointer Z * pointer RuntimeHandle :=
  match out_changed with
  | None => (BONDRY_STATUS_NULL_POINTER, None, store)
  | Some _ =>
      match store with
      | None => (BONDRY_STATUS_NULL_POINTER, Some 0, store)
      | Some handle =>
          match parse_capability_id capability_id with
          | Err status => (status, Some 0, store)
          | Ok capability =>
              match rh_capabilities handle with
              | None => (BONDRY_STATUS_UNAVAILABLE, Some 0, store)
              | Some cs =>
                  let host := match cs !! capability with Some c => handler_drop (fc_handler c) (rh_host handle) | None => rh_host handle end in
                  (BONDRY_STATUS_OK, Some (Z.b2z (bool_decide (is_Some (cs !! capability)))),
                   Some (mk_runtime_handle (rh_auth handle) (Some (delete capability cs)) host (rh_clock handle)))
              end
          end
      end
  end.

(** *** Listing and discovery *)

Definition registered_descriptors (handle : RuntimeHandle) : result Z (list Descriptor) :=
  cs ← ok_or (rh_capabilities handle) BONDRY_STATUS_UNAVAILABLE;
  Ok (merge_sort descriptor_le (fc_descriptor <$> (map_to_list cs).*2)).

Definition bondry_capabilities_list_v1 (store : pointer RuntimeHandle) (output : pointer (list BondryCapabilityV1)) (capacity : Z)
    (out_count : pointer Z) : Z * pointer (list BondryCapabilityV1) * pointer Z :=
  match out_count with
  | None => (BONDRY_STATUS_NULL_POINTER, output, None)
  | Some _ =>
      match store with
      | None => (BONDRY_STATUS_NULL_POINTER, output, Some 0)
      | Some handle =>
          match registered_descriptors handle with
          | Err status => (status, output, Some 0)
          | Ok descriptors =>
              match mapM capability_from_descriptor descriptors with
              | None => (BONDRY_STATUS_INTERNAL_FAILURE, output, Some 0)
              | Some records => write_records records output capacity out_count
              end
          end
      end
  end.

(** [serde_json::to_vec(&descriptors)] and [write_bytes]. *)
Definition write_descriptors (descriptors : list Descriptor) (output : buffer) (capacity : Z) (out_length : pointer Z)
    : Z * buffer * pointer Z :=
  match to_vec (descriptors_doc descriptors) with
  | None => (BONDRY_STATUS_INTERNAL_FAILURE, output, Some 0)
  | Some encoded => write_records encoded output capacity out_length
  end.

Definition bondry_capabilities_json_v1 (store : pointer RuntimeHandle) (output_json : buffer) (capacity : Z) (out_length : pointer Z)
    : Z * buffer * pointer Z :=
  match out_length with
  | None => (BONDRY_STATUS_NULL_POINTER, output_json, None)
  | Some _ =>
      match store with
      | None => (BONDRY_STATUS_NULL_POINTER, output_json, Some 0)
      | Some handle =>
          match registered_descriptors handle with
          | Err status => (status, output_json, Some 0)
          | Ok descriptors => write_descriptors descriptors output_json capacity out_length
          end
      end
  end.

Fixpoint register_all (selected : list ForeignCapability) (registry : gmap CapabilityId RegisteredCapability)
    : result RegistrationError (gmap CapabilityId RegisteredCapability) :=
  match selected with
  | [] => Ok registry
  | c :: selected =>
      match CapabilityRegistry_register registry (fc_descriptor c) (ForeignHandler_invoke (fc_handler c)) with
      | (Ok _, registry) => register_all selected registry
      | (Err e, _) => Err e
      end
  end.

(** The dispatcher over a registry, with the store as its policy and its audit trail. *)
Definition store_dispatcher (registry : gmap CapabilityId RegisteredCapability) (store : St) : StoreDispatcher :=
  mk_dispatcher registry (mk_stored_policy St store) store.

(** [ForeignAutomationService] of the runtime. *)
Definition foreign_dispatcher (handle : RuntimeHandle) (capability : option CapabilityId) : result unit StoreDispatcher :=
  cs ← ok_or (rh_capabilities handle) ();
  let selected := match capability with Some capability => option_list (cs !! capability) | None => (map_to_list cs).*2 end in
  registry ← map_err (fun _ => ()) (register_all selected ∅);
  Ok (store_dispatcher registry (rh_store handle)).

Definition runtime_capabilities (handle : RuntimeHandle) (principal : Principal) (adapter : AdapterId)
    : result CapabilityDiscoveryError (list Descriptor) :=
  dispatcher ← map_err (fun _ => DiscoveryPolicyUnavailable) (foreign_dispatcher handle None);
  Dispatcher_capabilities dispatcher principal adapter.

(** A dispatch on the handle: the store takes the audit records, the host what its handler did. *)
Definition handle_dispatch (dispatcher : StoreDispatcher) (invocation : Invocation) (handle : RuntimeHandle)
    : result DispatchError Value * RuntimeHandle :=
  let '(r, d, host) := dispatch validator_is_valid dispatcher (rh_host handle) (rh_clock handle 0%nat) (rh_clock handle 1%nat) invocation in
  (r, mk_runtime_handle (mk_manager (disp_audit d) (am_tick (rh_auth handle))) (rh_capabilities handle) host (fun n => rh_clock handle (2 + n)%nat)).

Definition runtime_dispatch (invocation : Invocation) (handle : RuntimeHandle) : result DispatchError Value * RuntimeHandle :=
  match foreign_dispatcher handle (Some (inv_capability invocation)) with
  | Ok dispatcher => handle_dispatch dispatcher invocation handle
  | Err _ => (Err (DispatchAccessDenied PolicyUnavailable), handle)
  end.

Definition parse_principal (id : buffer) (kind : Z) : result Z Principal :=
  id ← required_utf8 id;
  id ← map_err (fun _ => BONDRY_STATUS_INVALID_ARGUMENT) (Identifier_new id);
  kind ← match kind with 1 => Ok User | 2 => Ok Application | 3 => Ok System | _ => Err BONDRY_STATUS_INVALID_ARGUMENT end;
  Ok (mk_principal id kind).

Definition parse_adapter_id (bytes : buffer) : result Z AdapterId :=
  value ← required_utf8 bytes; map_err (fun _ => BONDRY_STATUS_INVALID_ARGUMENT) (Identifier_new value).

Definition bondry_capabilities_discover_json_v1 (store : pointer RuntimeHandle) (principal : buffer) (kind : Z) (adapter : buffer)
    (output_json : buffer) (capacity : Z) (out_length : pointer Z) : Z * buffer * pointer Z :=
  match out_length with
  | None => (BONDRY_STATUS_NULL_POINTER, output_json, None)
  | Some _ =>
      match store with
      | None => (BONDRY_STATUS_NULL_POINTER, output_json, Some 0)
      | Some handle =>
          match (principal ← parse_principal principal kind; adapter ← parse_adapter_id adapter; Ok (principal, adapter)) with
          | Err status => (status, output_json, Some 0)
          | Ok (principal, adapter) =>
              match runtime_capabilities handle principal adapter with
              | Err DiscoveryPolicyUnavailable => (BONDRY_STATUS_UNAVAILABLE, output_json, Some 0)
              | Ok descriptors => write_descriptors descriptors output_json capacity out_length
              end
          end
      end
  end.

(** *** Dispatch *)

Record ParsedDispatch := mk_parsed_dispatch {
  pd_invocation_id : InvocationId;
  pd_adapter : AdapterId;
  pd_capability : CapabilityId;
  pd_input : list byte;
}.

Definition parse_dispatch (invocation adapter capability input : buffer) (maximum_input_length : Z) : result Z ParsedDispatch :=
  invocation ← required_utf8 invocation;
  invocation_id ← map_err (fun _ => BONDRY_STATUS_INVALID_ARGUMENT) (Identifier_new invocation);
  adapter ← parse_adapter_id adapter;
  capability ← parse_capability_id capability;
  input ← json_buffer input maximum_input_length;
  Ok (mk_parsed_dispatch invocation_id adapter capability input).

Definition parse_input (d : ParsedDispatch) : result Z Value := ok_or (from_slice (pd_input d)) BONDRY_STATUS_INVALID_JSON.

(** [DispatchCallback::call]: what the completion is called with. *)
Definition DispatchCallback_call (r : result DispatchError Value) : option BondryDispatchResultV1 :=
  let '(outcome, output, detail) :=
    match r with
    | Ok value =>
        match to_vec value with
        | Some output => (BONDRY_DISPATCH_OUTCOME_SUCCEEDED_V1, Some output, None)
        | None => (BONDRY_DISPATCH_OUTCOME_HANDLER_FAILED_V1, None, Some (str "invalid_handler_result"))
        end
    | Err (DispatchCapabilityNotFound _) => (BONDRY_DISPATCH_OUTCOME_CAPABILITY_NOT_FOUND_V1, None, None)
    | Err (DispatchAccessDenied NotGranted) => (BONDRY_DISPATCH_OUTCOME_ACCESS_DENIED_V1, None, Some (str "not_granted"))
    | Err (DispatchAccessDenied PolicyUnavailable) => (BONDRY_DISPATCH_OUTCOME_ACCESS_DENIED_V1, None, Some (str "policy_unavailable"))
    | Err DispatchInvalidInput => (BONDRY_DISPATCH_OUTCOME_INVALID_INPUT_V1, None, None)
    | Err (DispatchAudit _) => (BONDRY_DISPATCH_OUTCOME_AUDIT_UNAVAILABLE_V1, None, None)
    | Err (DispatchHandler error) => (BONDRY_DISPATCH_OUTCOME_HANDLER_FAILED_V1, None, Some (as_str (handler_error_code error)))
    end in
  '(detail_code, has_detail_code) ← optional_terminated BONDRY_AUDIT_DETAIL_CAPACITY_V1 detail;
  Some (mk_dispatch_result_v1 outcome output detail_code has_detail_code).

(** [start_dispatch]: the status, what the completion is called with, and the handle. *)
Definition runtime_start_dispatch (handle : RuntimeHandle) (principal : Principal) (parsed : ParsedDispatch) (input : Value)
    : Z * pointer BondryDispatchResultV1 * RuntimeHandle :=
  match rh_capabilities handle with
  | None => (BONDRY_STATUS_UNAVAILABLE, None, handle)
  | Some cs =>
      match register_all (option_list (cs !! pd_capability parsed)) ∅ with
      | Err _ => (BONDRY_STATUS_INTERNAL_FAILURE, None, handle)
      | Ok registry =>
          let invocation := mk_invocation (pd_invocation_id parsed) (pd_adapter parsed) principal (pd_capability parsed) input in
          let '(r, handle) := handle_dispatch (store_dispatcher registry (rh_store handle)) invocation handle in
          match DispatchCallback_call r with
          | Some completed => (BONDRY_STATUS_OK, Some completed, handle)
          | None => (BONDRY_STATUS_INTERNAL_FAILURE, None, handle)
          end
      end
  end.

(** [dispatch_principal_with_limit]; [completion] is whether there is a callback. *)
Definition dispatch_principal_with_limit (store : pointer RuntimeHandle) (invocation adapter principal : buffer) (kind : Z)
    (capability input : buffer) (completion : bool) (maximum_input_length : Z) : Z * pointer BondryDispatchResultV1 * pointer RuntimeHandle :=
  match store with
  | None => (BONDRY_STATUS_NULL_POINTER, None, store)
  | Some handle =>
      if negb completion then (BONDRY_STATUS_NULL_POINTER, None, store)
      else match (parsed ← parse_dispatch invocation adapter capability input maximum_input_length;
                  principal ← parse_principal principal kind;
                  input ← parse_input parsed; Ok (parsed, principal, input)) with
           | Err status => (status, None, store)
           | Ok (parsed, principal, input) =>
               let '(status, completed, handle) := runtime_start_dispatch handle principal parsed input in (status, completed, Some handle)
           end
  end.

Definition bondry_dispatch_principal_v1 (store : pointer RuntimeHandle) (invocation adapter principal : buffer) (kind : Z)
    (capability input : buffer) (completion : bool) :=
  dispatch_principal_with_limit store invocation adapter principal kind capability input completion MAX_JSON_PAYLOAD_LENGTH.

(** [bondry_dispatch_token_v1]: the token is checked before the input is read. *)
Definition bondry_dispatch_token_v1 `{Base64, Sha256, AuthEnv, !AuthStore St} (store : pointer RuntimeHandle)
    (invocation adapter token capability input : buffer) (completion : bool) : Z * pointer BondryDispatchResultV1 * pointer RuntimeHandle :=
  match store with
  | None => (BONDRY_STATUS_NULL_POINTER, None, store)
  | Some handle =>
      if negb completion then (BONDRY_STATUS_NULL_POINTER, None, store)
      else match (parsed ← parse_dispatch invocation adapter capability input MAX_JSON_PAYLOAD_LENGTH;
                  token ← required_utf8 token; Ok (parsed, token)) with
           | Err status => (status, None, store)
           | Ok (parsed, token) =>
               let '(authenticated, auth) := authenticate token (rh_auth handle) in
               let handle := mk_runtime_handle auth (rh_capabilities handle) (rh_host handle) (rh_clock handle) in
               match authenticated with
               | Err AuthRejected => (BONDRY_STATUS_AUTHENTICATION_REJECTED, None, Some handle)
               | Err AuthStorageUnavailable => (BONDRY_STATUS_UNAVAILABLE, None, Some handle)
               | Ok principal =>
                   match parse_input parsed with
                   | Err status => (status, None, Some handle)
                   | Ok input =>
                       let '(status, completed, handle) := runtime_start_dispatch handle principal parsed input in (status, completed, Some handle)
                   end
               end
           end
  end.

(** ** The descriptor (automation_service.rs) *)

Record BondryAutomationServiceV1 := mk_service_v1 {
  sv_abi_version : Z;
  sv_struct_size : Z;
  sv_threading_model : Z;
  sv_context : pointer RuntimeHandle;
  sv_retain : option (pointer RuntimeHandle -> pointer RuntimeHandle);
  sv_release : option (pointer RuntimeHandle -> Z);
  sv_capabilities : option (pointer RuntimeHandle -> buffer -> Z -> buffer -> buffer -> Z -> pointer Z -> Z * buffer * pointer Z);
  sv_dispatch : option (pointer RuntimeHandle -> buffer -> buffer -> buffer -> Z -> buffer -> buffer ->
    Z * pointer BondryDispatchResultV1 * pointer RuntimeHandle);
}.

Definition service_zeroed : BondryAutomationServiceV1 := mk_service_v1 0 0 0 None None None None None.

(** [bondry_store_retain_v1]; the handle itself is shared. *)
Definition bondry_store_retain_v1 (store : pointer RuntimeHandle) : Z * pointer RuntimeHandle :=
  match store with Some _ => (BONDRY_STATUS_OK, store) | None => (BONDRY_STATUS_NULL_POINTER, None) end.

Definition retain_service (context : pointer RuntimeHandle) : pointer RuntimeHandle :=
  match context with
  | None => None
  | Some _ => let '(status, retained) := bondry_store_retain_v1 context in if status =? BONDRY_STATUS_OK then retained else None
  end.
(** How many units of ownership are given back. *)
Definition release_service (context : pointer RuntimeHandle) : Z := match context with Some _ => 1 | None => 0 end.

Definition service_callback_dispatch (context : pointer RuntimeHandle) (invocation adapter principal : buffer) (kind : Z)
    (capability input : buffer) : Z * pointer BondryDispatchResultV1 * pointer RuntimeHandle :=
  dispatch_principal_with_limit context invocation adapter principal kind capability input true MAX_AUTOMATION_INPUT_LENGTH.

Definition service_descriptor (context : pointer RuntimeHandle) : BondryAutomationServiceV1 :=
  mk_service_v1 BONDRY_AUTOMATION_SERVICE_ABI_VERSION_V1 AUTOMATION_SERVICE_SIZE BONDRY_SERVICE_THREADING_CONCURRENT_V1 context
    (Some retain_service) (Some release_service) (Some bondry_capabilities_discover_json_v1) (Some service_callback_dispatch).

Definition bondry_automation_service_v1 (store : pointer RuntimeHandle) (out_service : pointer BondryAutomationServiceV1)
    : Z * pointer BondryAutomationServiceV1 :=
  match out_service with
  | None => (BONDRY_STATUS_NULL_POINTER, None)
  | Some _ =>
      match store with
      | None => (BONDRY_STATUS_NULL_POINTER, Some service_zeroed)
      | Some _ =>
          let '(status, retained) := bondry_store_retain_v1 store in
          if negb (status =? BONDRY_STATUS_OK) then (status, Some service_zeroed)
          else match retained with
               | None => (BONDRY_STATUS_INTERNAL_FAILURE, Some service_zeroed)
               | Some _ => (BONDRY_STATUS_OK, Some (service_descriptor retained))
               end
      end
  end.

(** ** The side of webhook ingress (service.rs) *)

Record ForeignService := mk_foreign_service {
  fs_context : pointer RuntimeHandle;
  fs_release : pointer RuntimeHandle -> Z;
  fs_capabilities : pointer RuntimeHandle -> buffer -> Z -> buffer -> buffer -> Z -> pointer Z -> Z * buffer * pointer Z;
  fs_dispatch : pointer RuntimeHandle -> buffer -> buffer -> buffer -> Z -> buffer -> buffer ->
    Z * pointer BondryDispatchResultV1 * pointer RuntimeHandle;
}.

(** [ForeignAutomationService::retain]. *)
Definition foreign_service_retain (d : BondryAutomationServiceV1) : result unit ForeignService :=
  if negb (sv_abi_version d =? BONDRY_AUTOMATION_SERVICE_ABI_VERSION_V1) || negb (sv_struct_size d =? AUTOMATION_SERVICE_SIZE)
     || negb (sv_threading_model d =? BONDRY_SERVICE_THREADING_CONCURRENT_V1)
     || match sv_context d with None => true | Some _ => false end then Err ()
  else
    match sv_retain d, sv_release d, sv_capabilities d, sv_dispatch d with
    | Some retain, Some release, Some capabilities, Some dispatch =>
        match retain (sv_context d) with
        | None => Err ()
        | Some context => Ok (mk_foreign_service (Some context) release capabilities dispatch)
        end
    | _, _, _, _ => Err ()
    end.

(** [Drop for ForeignAutomationService]. *)
Definition foreign_service_drop (f : ForeignService) : Z := fs_release f (fs_context f).

Definition encode_principal_kind (kind : PrincipalKind) : Z := match kind with User => 1 | Application => 2 | System => 3 end.

Definition decode_capability (c : SerializedCapability) : result unit Descriptor :=
  id ← map_err (fun _ => ()) (Identifier_new (sc_id c));
  d ← map_err (fun _ => ()) (CapabilityDescriptor_new id (sc_summary c) (sc_effect c));
  map_err (fun _ => ()) (CapabilityDescriptor_with_input_schema meta_is_valid compile encoded_len d (sc_input_schema c)).

Definition decode_capabilities (bytes : list byte) : result unit (list Descriptor) :=
  doc ← ok_or (read_doc bytes) ();
  items ← ok_or (as_array doc) ();
  serialized ← ok_or (mapM read_serialized items) ();
  collect decode_capability serialized.

(** [ForeignAutomationService::discover]: one call for the length, one for the text. *)
Definition foreign_discover (f : ForeignService) (principal : Principal) (adapter : AdapterId)
    : result CapabilityDiscoveryError (list Descriptor) :=
  let call := fs_capabilities f (fs_context f) (Some (as_bytes (as_str (principal_id principal))))
    (encode_principal_kind (principal_kind principal)) (Some (as_bytes (as_str adapter))) in
  let '(status, _, length) := call None 0 (Some 0) in
  let length := default 0 length in
  if negb (status =? BONDRY_STATUS_OK) || (length =? 0) || (MAX_CAPABILITIES_JSON <? length) then Err DiscoveryPolicyUnavailable
  else
    let output := replicate (Z.to_nat length) 0 in
    let '(status, output, length') := call (Some output) length (Some length) in
    let output := default [] output in
    let length' := default 0 length' in
    if negb (status =? BONDRY_STATUS_OK) || (Z.of_nat (List.length output) <? length') then Err DiscoveryPolicyUnavailable
    else map_err (fun _ => DiscoveryPolicyUnavailable) (decode_capabilities (take (Z.to_nat length') output)).

(** [detail]. *)
Definition result_detail (x : BondryDispatchResultV1) : result unit (option rstr) :=
  if xr_has_detail_code x =? 0 then Ok None
  else if negb (xr_has_detail_code x =? 1) then Err ()
  else detail ← ok_or (terminated_utf8 (xr_detail_code x)) (); Ok (Some detail).

Definition policy_unavailable : DispatchError := DispatchAccessDenied PolicyUnavailable.

Definition decode_dispatch (outcome : Z) (detail : option rstr) (capability : CapabilityId) : result DispatchError Value :=
  match outcome with
  | 1 => Ok JNull
  | 2 => Err (DispatchCapabilityNotFound capability)
  | 3 => if bool_decide (detail = Some (str "policy_unavailable")) then Err policy_unavailable else Err (DispatchAccessDenied NotGranted)
  | 4 => Err (DispatchAudit AuditUnavailable)
  | 5 =>
      detail ← ok_or detail (DispatchAudit AuditUnavailable);
      code ← map_err (fun _ => DispatchAudit AuditUnavailable) (Identifier_new detail);
      Err (DispatchHandler (mk_handler_error code))
  | 6 => Err DispatchInvalidInput
  | _ => Err (DispatchAudit AuditUnavailable)
  end.

(** [complete_dispatch] and what the receiver makes of it; [None] if the sender is dropped. *)
Definition receive_dispatch (completed : pointer BondryDispatchResultV1) (capability : CapabilityId) : result DispatchError Value :=
  match completed with
  | None => Err (DispatchAudit AuditUnavailable)
  | Some x =>
      match result_detail x with
      | Ok detail => decode_dispatch (xr_outcome x) detail capability
      | Err _ => Err (DispatchAudit AuditUnavailable)
      end
  end.

Definition foreign_dispatch (i : Invocation) (f : ForeignService) : result DispatchError Value * ForeignService :=
  match to_vec (inv_input i) with
  | None => (Err DispatchInvalidInput, f)
  | Some input =>
      if MAX_DISPATCH_INPUT_JSON <? Z.of_nat (length input) then (Err DispatchInvalidInput, f)
      else
        let '(status, completed, context) :=
          fs_dispatch f (fs_context f) (Some (as_bytes (as_str (inv_id i)))) (Some (as_bytes (as_str (inv_adapter i))))
            (Some (as_bytes (as_str (principal_id (inv_principal i))))) (encode_principal_kind (principal_kind (inv_principal i)))
            (Some (as_bytes (as_str (inv_capability i)))) (Some input) in
        let f := mk_foreign_service context (fs_release f) (fs_capabilities f) (fs_dispatch f) in
        if negb (status =? BONDRY_STATUS_OK) then (Err policy_unavailable, f)
        else (receive_dispatch completed (inv_capability i), f)
  end.

(** ** A service linked with its runtime *)

Record LinkedService := linked_service { ls_handle : RuntimeHandle }.

Definition service_link (h : RuntimeHandle) : ForeignService :=
  mk_foreign_service (Some h) release_service bondry_capabilities_discover_json_v1 service_callback_dispatch.

#[global] Instance LinkedService_service : AutomationService Validator LinkedService := {
  service_capabilities s := foreign_discover (service_link (ls_handle s));
  service_dispatch i s :=
    let '(r, f) := foreign_dispatch i (service_link (ls_handle s)) in
    (r, linked_service (default (ls_handle s) (fs_context f)));
}.

(** ** Identifiers on their way *)

Lemma identifier_new {k} s : portable MAX_IDENTIFIER_LENGTH s -> Identifier_new (k := k) s = Ok (mk_id s).
Proof. intros H. unfold Identifier_new. by rewrite (proj2 (validate_ok s) H). Qed.

Lemma identifier_new_ok {k} s (i : Id k) : Identifier_new s = Ok i -> i = mk_id s /\ portable MAX_IDENTIFIER_LENGTH s.
Proof. unfold Identifier_new. intros ([] & Hv%validate_ok & [= <-])%result_bind_Ok. done. Qed.

Definition id_wf {k} (i : Id k) : Prop := portable MAX_IDENTIFIER_LENGTH (as_str i).
Definition invocation_wf (i : Invocation) : Prop :=
  id_wf (inv_id i) /\ id_wf (inv_adapter i) /\ id_wf (principal_id (inv_principal i)) /\ id_wf (inv_capability i).

Lemma parse_identifier {k} (i : Id k) :
  id_wf i -> (value ← required_utf8 (Some (as_bytes (as_str i))); map_err (fun _ => BONDRY_STATUS_INVALID_ARGUMENT) (Identifier_new (k := k) value)) = Ok i.
Proof.
  intros Hi. rewrite (required_utf8_portable _ _ Hi) by done. cbn. rewrite identifier_new by done. by destruct i.
Qed.

Lemma parse_principal_encoded (p : Principal) :
  id_wf (principal_id p) -> parse_principal (Some (as_bytes (as_str (principal_id p)))) (encode_principal_kind (principal_kind p)) = Ok p.
Proof.
  intros Hi. unfold parse_principal. rewrite (required_utf8_portable _ _ Hi) by done. cbn. rewrite identifier_new by done.
  destruct p as [[id] []]; done.
Qed.

(** What a handler reads in its record is the context of the invocation. *)
Lemma invocation_record_exact i input :
  invocation_wf i ->
  exists x, BondryInvocationV1_new (InvocationContext_from_invocation i) input = Some x /\
    terminated_utf8 (iv_invocation_id x) = Some (as_str (inv_id i)) /\
    parse_principal (as_bytes <$> terminated_utf8 (iv_principal_id x)) (iv_principal_kind x) = Ok (inv_principal i) /\
    terminated_utf8 (iv_adapter_id x) = Some (as_str (inv_adapter i)) /\
    terminated_utf8 (iv_capability_id x) = Some (as_str (inv_capability i)) /\ iv_input_json x = input.
Proof.
  intros (Hid & Ha & Hp & Hc). unfold BondryInvocationV1_new, InvocationContext_from_invocation. cbn.
  destruct (terminated_round_trip _ _ Hid (Z.le_refl 128)) as (b1 & -> & H1). destruct (terminated_round_trip _ _ Hp (Z.le_refl 128)) as (b2 & -> & H2).
  destruct (terminated_round_trip _ _ Ha (Z.le_refl 128)) as (b3 & -> & H3). destruct (terminated_round_trip _ _ Hc (Z.le_refl 128)) as (b4 & -> & H4).
  eexists. split; [done|]. cbn [iv_invocation_id iv_principal_id iv_principal_kind iv_adapter_id iv_capability_id iv_input_json].
  split_and!; [done| |done|done|done]. rewrite H2. by apply parse_principal_encoded.
Qed.

(** ** The registry of a dispatcher *)

Definition registered (c : ForeignCapability) : RegisteredCapability :=
  mk_registered (fc_descriptor c) (ForeignHandler_invoke (fc_handler c)).
Definition full_registry (cs : gmap CapabilityId ForeignCapability) : gmap CapabilityId RegisteredCapability := registered <$> cs.

(** Every capability is filed under its own identifier. *)
Definition filed (cs : gmap CapabilityId ForeignCapability) : Prop := map_Forall (fun id c => descriptor_id (fc_descriptor c) = id) cs.

Lemma register_all_ok l registry :
  NoDup ((fun c => descriptor_id (fc_descriptor c)) <$> l) -> Forall (fun c => registry !! descriptor_id (fc_descriptor c) = None) l ->
  register_all l registry = Ok (list_to_map ((fun c => (descriptor_id (fc_descriptor c), registered c)) <$> l) ∪ registry).
Proof.
  revert registry. induction l as [|c l IH]; intros registry Hnd Hnew; cbn; [by rewrite (left_id_L ∅ (∪))|].
  apply NoDup_cons in Hnd as [Hnin Hnd]. apply Forall_cons in Hnew as [Hc Hnew]. unfold CapabilityRegistry_register. rewrite Hc. rewrite IH; [|done|].
  - f_equal. rewrite <-insert_union_l, insert_union_r; [done|]. apply not_elem_of_list_to_map_1. rewrite <-list_fmap_compose. done.
  - rewrite Forall_forall in Hnew |- *. intros x Hx. rewrite lookup_insert_ne; [by apply Hnew|]. intros Heq. apply Hnin. rewrite Heq.
    by apply (list_elem_of_fmap_2 (fun c => descriptor_id (fc_descriptor c))).
Qed.

Lemma register_all_full cs : filed cs -> register_all (map_to_list cs).*2 ∅ = Ok (full_registry cs).
Proof.
  intros Hf.
  assert ((fun c => (descriptor_id (fc_descriptor c), registered c)) <$> (map_to_list cs).*2 = prod_map id registered <$> map_to_list cs) as Heq.
  { rewrite <-list_fmap_compose. apply list_fmap_ext. intros n [k c] Hk%list_elem_of_lookup_2%elem_of_map_to_list. cbn. by rewrite (Hf _ _ Hk). }
  assert ((fun c => descriptor_id (fc_descriptor c)) <$> (map_to_list cs).*2 = (map_to_list cs).*1) as Hids.
  { rewrite <-list_fmap_compose. apply list_fmap_ext. intros n [k c] Hk%list_elem_of_lookup_2%elem_of_map_to_list. cbn. exact (Hf _ _ Hk). }
  rewrite register_all_ok.
  - f_equal. rewrite (right_id_L ∅ (∪)), Heq, list_to_map_fmap, list_to_map_to_list. done.
  - rewrite Hids. apply NoDup_fst_map_to_list.
  - apply Forall_forall. intros c _. apply lookup_empty.
Qed.

(** The capability alone is as good as all of them. *)
Lemma register_all_one cs id :
  filed cs -> exists registry, register_all (option_list (cs !! id)) ∅ = Ok registry /\ registry !! id = full_registry cs !! id.
Proof.
  intros Hf. unfold full_registry. rewrite lookup_fmap. destruct (cs !! id) as [c|] eqn:Hc; cbn; [|by eexists].
  unfold CapabilityRegistry_register. rewrite lookup_empty. eexists. split; [done|]. by rewrite (Hf _ _ Hc), lookup_insert_eq.
Qed.

Lemma dispatch_one_capability registry registry' store i h :
  registry !! inv_capability i = registry' !! inv_capability i ->
  handle_dispatch (store_dispatcher registry store) i h = handle_dispatch (store_dispatcher registry' store) i h.
Proof.
  intros Heq. unfold handle_dispatch, dispatch, dispatch_prepare, CapabilityRegistry_resolve. cbn [disp_registry disp_policy store_dispatcher].
  rewrite Heq. destruct (registry' !! inv_capability i) as [c|]; cbn [fmap option_fmap option_map].
  - destruct (evaluate _ _) as [|reason]; [destruct (CapabilityDescriptor_accepts_input _ _ _)|]; cbn; unfold reject, record_audit; cbn;
      (destruct (record _ store) as [[|] ?]; cbn; [|done]); [|done..].
    destruct (reg_handler c _ _ _) as [[v|e] host]; cbn; unfold reject, record_audit; cbn; by destruct (record _ _) as [[|] ?].
  - cbn. unfold reject, record_audit. cbn. by destruct (record _ store) as [[|] ?].
Qed.

(** ** Results on their way *)

Lemma parse_foreign_result_code outcome payload e : parse_foreign_result outcome payload = Err e -> id_wf (handler_error_code e).
Proof.
  assert (id_wf INVALID_RESULT_CODE) as Hinv by (apply (bool_decide_unpack (portable _ _)); by vm_compute).
  assert (forall e, @invalid_result = Err e -> id_wf (handler_error_code e)) as Hbad by (intros ? [= <-]; exact Hinv).
  unfold parse_foreign_result. destruct payload as [payload|]; [|apply Hbad]. destruct (_ || _); [apply Hbad|].
  destruct outcome as [|[|[]|]|]; try apply Hbad.
  - destruct (from_utf8 payload) as [code|]; [|apply Hbad]. destruct (Identifier_new code) as [i|] eqn:Hi; [|apply Hbad].
    intros [= <-]. apply identifier_new_ok in Hi as [-> Hi]. exact Hi.
  - destruct (from_slice payload); [done|]. intros [= <-]. exact Hinv.
Qed.

Lemma foreign_handler_code f c input host e : (ForeignHandler_invoke f c input host).1 = Err e -> id_wf (handler_error_code e).
Proof.
  unfold ForeignHandler_invoke. destruct (to_vec input); [|apply (parse_foreign_result_code 0 None)].
  destruct (BondryInvocationV1_new _ _); [|apply (parse_foreign_result_code 0 None)].
  destruct (fh_invoke f _ _) as [[outcome payload] ?]. apply parse_foreign_result_code.
Qed.

(** What the errors of a dispatch name. *)
Definition result_wf (capability : CapabilityId) (r : result DispatchError Value) : Prop :=
  match r with
  | Err (DispatchCapabilityNotFound id) => id = capability
  | Err (DispatchHandler e) => id_wf (handler_error_code e)
  | _ => True
  end.

(** Every handler is one of the host. *)
Definition foreign_handlers (registry : gmap CapabilityId (RegisteredCapability (Validator := Validator))) : Prop :=
  map_Forall (fun _ c => exists f, reg_handler c = ForeignHandler_invoke f) registry.

Lemma handle_dispatch_result registry store i h :
  foreign_handlers registry -> result_wf (inv_capability i) (handle_dispatch (store_dispatcher registry store) i h).1.
Proof.
  intros Hf. unfold handle_dispatch, dispatch, dispatch_prepare, CapabilityRegistry_resolve. cbn [disp_registry disp_policy store_dispatcher].
  destruct (registry !! inv_capability i) as [c|] eqn:Hc; cbn [fmap option_fmap option_map].
  - destruct (evaluate _ _) as [|reason]; [destruct (CapabilityDescriptor_accepts_input _ _ _)|]; cbn; unfold reject, record_audit; cbn;
      (destruct (record _ store) as [[|] ?]; cbn; [|done]); [|done..].
    apply Hf in Hc as [f ->].
    pose proof (foreign_handler_code f (InvocationContext_from_invocation i) (inv_input i) (rh_host h)) as Hcode.
    destruct (ForeignHandler_invoke _ _ _ _) as [[v|e] host]; cbn; unfold reject, record_audit; cbn; destruct (record _ _) as [[|] ?]; cbn; try done.
    by apply Hcode.
  - cbn. unfold reject, record_audit. cbn. by destruct (record _ store) as [[|] ?].
Qed.

(** The output stays behind; an output that cannot be written counts as the handler's failure. *)
Definition across (r : result DispatchError Value) : result DispatchError Value :=
  match r with
  | Ok v => match to_vec v with Some _ => Ok JNull | None => Err (DispatchHandler (mk_handler_error INVALID_RESULT_CODE)) end
  | Err e => Err e
  end.

Lemma result_crosses capability r :
  result_wf capability r -> exists x, DispatchCallback_call r = Some x /\ receive_dispatch (Some x) capability = across r.
Proof.
  intros Hr. unfold DispatchCallback_call, across. destruct r as [v|[e|id|[]| |e]]; cbn in Hr.
  - destruct (to_vec v); eexists; (split; [reflexivity|]); vm_compute; reflexivity.
  - destruct e. eexists. split; [reflexivity|]. vm_compute. reflexivity.
  - subst id. eexists. split; [reflexivity|]. reflexivity.
  - eexists. split; [reflexivity|]. vm_compute. reflexivity.
  - eexists. split; [reflexivity|]. vm_compute. reflexivity.
  - eexists. split; [reflexivity|]. vm_compute. reflexivity.
  - destruct (terminated_round_trip _ _ Hr (Z.le_refl 128)) as (bytes & Hb & Hu).
    unfold optional_terminated. change BONDRY_AUDIT_DETAIL_CAPACITY_V1 with BONDRY_IDENTIFIER_CAPACITY_V1. rewrite Hb. eexists. split; [done|].
    cbn [receive_dispatch]. unfold result_detail. cbn [xr_has_detail_code xr_detail_code xr_outcome]. rewrite Hu. cbn.
    rewrite identifier_new by done. by destruct e as [[]].
Qed.

(** ** The contract of a service *)

(** A parser that fails says so. *)
Definition not_ok (status : Z) : Prop := (status =? BONDRY_STATUS_OK) = false.

Ltac parser_fails := repeat first
  [ apply fails_bind; [|intros ?] | (apply fails_map_err; intros ?; reflexivity) | (apply fails_ok_or; reflexivity) | exact I | reflexivity | case_match ].

Lemma parse_dispatch_fails invocation adapter capability input maximum : fails_with not_ok (parse_dispatch invocation adapter capability input maximum).
Proof. unfold parse_dispatch, parse_adapter_id, parse_capability_id, json_buffer, required_utf8. parser_fails. Qed.
Lemma parse_principal_fails id kind : fails_with not_ok (parse_principal id kind).
Proof. unfold parse_principal, required_utf8. parser_fails. Qed.

Lemma register_one_foreign (cs : gmap CapabilityId ForeignCapability) id :
  exists registry, register_all (option_list (cs !! id)) ∅ = Ok registry /\ foreign_handlers registry.
Proof.
  destruct (cs !! id) as [c|]; cbn; [|eexists; split; [done|apply map_Forall_empty]].
  unfold CapabilityRegistry_register. rewrite lookup_empty. eexists. split; [done|].
  apply map_Forall_insert_2; [by eexists|apply map_Forall_empty].
Qed.

(** An accepted dispatch: the completion is called with what the receiver takes for [across]
    the result. *)
Lemma runtime_start_crosses h principal parsed input cs :
  rh_capabilities h = Some cs ->
  let i := mk_invocation (pd_invocation_id parsed) (pd_adapter parsed) principal (pd_capability parsed) input in
  exists registry x, register_all (option_list (cs !! pd_capability parsed)) ∅ = Ok registry /\
    let '(r, h') := handle_dispatch (store_dispatcher registry (rh_store h)) i h in
    runtime_start_dispatch h principal parsed input = (BONDRY_STATUS_OK, Some x, h') /\
    receive_dispatch (Some x) (pd_capability parsed) = across r.
Proof.
  intros Hcs. cbv zeta. destruct (register_one_foreign cs (pd_capability parsed)) as (registry & Hr & Hf). unfold runtime_start_dispatch.
  rewrite Hcs, Hr. set (i := mk_invocation _ _ _ _ _). pose proof (handle_dispatch_result registry (rh_store h) i h Hf) as Hwf.
  destruct (handle_dispatch _ _ _) as [r h'] eqn:Hd. destruct (result_crosses _ _ Hwf) as (x & Hx & Hrec).
  exists registry, x. rewrite Hd. cbn [fst] in Hx. by rewrite Hx.
Qed.

Lemma receive_any_capability x c c' :
  refusal (receive_dispatch x c) = refusal (receive_dispatch x c') /\ completed (receive_dispatch x c) = completed (receive_dispatch x c').
Proof.
  destruct x as [x|]; [|done]. cbn. destruct (result_detail x) as [detail|]; [|done]. unfold decode_dispatch. by repeat case_match.
Qed.

Lemma across_class r : refusal (across r) = refusal r /\ completed (across r) = completed r.
Proof. destruct r as [v|]; [|done]. cbn. by destruct (to_vec v). Qed.

(** Either the runtime refuses without a trace, or a dispatcher over handlers of the host
    answers. *)
Lemma linked_dispatch_cases i (s : LinkedService) :
  (refusal (service_dispatch i s).1 = true /\ (service_dispatch i s).2 = s) \/
  exists i' registry,
    let '(r, h) := handle_dispatch (store_dispatcher registry (rh_store (ls_handle s))) i' (ls_handle s) in
    refusal (service_dispatch i s).1 = refusal r /\ completed (service_dispatch i s).1 = completed r /\
    (service_dispatch i s).2 = linked_service h.
Proof.
  destruct s as [h]. cbn [service_dispatch LinkedService_service ls_handle]. unfold foreign_dispatch.
  destruct (to_vec (inv_input i)) as [input|]; [|by left]. destruct (_ <? _); [by left|].
  cbn [service_link fs_dispatch fs_context fs_release fs_capabilities]. unfold service_callback_dispatch, dispatch_principal_with_limit. cbn [negb].
  match goal with |- context [match ?m with Ok _ => _ | Err _ => _ end] => assert (fails_with not_ok m) as Hm; [|destruct m as [[[parsed principal] value]|status] eqn:Hp] end.
  { apply fails_bind; [apply parse_dispatch_fails|intros ?]. apply fails_bind; [apply parse_principal_fails|intros ?].
    unfold parse_input. parser_fails. }
  2: { left. cbn in Hm. unfold not_ok in Hm. by rewrite Hm. }
  destruct (rh_capabilities h) as [cs|] eqn:Hcs; [|left; unfold runtime_start_dispatch; by rewrite Hcs]. right.
  destruct (runtime_start_crosses h principal parsed value cs Hcs) as (registry & x & _ & Hstart). eexists _, registry.
  destruct (handle_dispatch _ _ _) as [r h'] eqn:Hd in Hstart. rewrite Hd. destruct Hstart as [-> Hx]. cbn [negb Z.eqb BONDRY_STATUS_OK fst snd].
  destruct (receive_any_capability (Some x) (inv_capability i) (pd_capability parsed)) as [-> ->]. rewrite Hx.
  destruct (across_class r) as [-> ->]. done.
Qed.

Context `{!AuditTrail St}.

(** The starts of handlers are on the audit trail of the store. *)
#[global] Program Instance LinkedService_spec : AutomationServiceSpec Validator LinkedService Host := {|
  handler_runs s := starts (trail (rh_store (ls_handle s)));
  host_state s := rh_host (ls_handle s);
|}.
Next Obligation.
  intros i s. destruct (linked_dispatch_cases i s) as [[Hr Hs]|(i' & registry & Hd)].
  { destruct (service_dispatch i s) as [r s']. cbn in Hr, Hs. subst s'. split_and!; try done; try lia. intros Hc. by destruct r as [|[]]. }
  pose proof (dispatch_runs (AutomationServiceSpec := DispatcherService_spec validator_is_valid) i'
    (mk_dispatcher_service (store_dispatcher registry (rh_store (ls_handle s))) (rh_host (ls_handle s)) (rh_clock (ls_handle s)))) as Hruns.
  cbn [service_dispatch DispatcherService_service ds_dispatcher ds_host ds_clock] in Hruns. unfold handle_dispatch in Hd.
  destruct (dispatch _ _ _ _ _ _) as [[r d] host]. destruct Hd as (Hrr & Hrc & Hs).
  destruct (service_dispatch i s) as [r' s']. cbn [fst snd] in *. subst s'. by rewrite Hrr, Hrc.
Qed.

(** ** The dispatcher over every capability *)

Lemma json_buffer_ok bytes maximum : maximum <= ISIZE_MAX -> Z.of_nat (length bytes) <= maximum -> json_buffer (Some bytes) maximum = Ok bytes.
Proof. intros Hm Hl. unfold json_buffer. cbn. by rewrite !(proj2 (Z.ltb_ge _ _)) by lia. Qed.

Lemma linked_dispatch_exact i h cs bytes :
  rh_capabilities h = Some cs -> filed cs -> invocation_wf i ->
  to_vec (inv_input i) = Some bytes -> Z.of_nat (length bytes) <= MAX_DISPATCH_INPUT_JSON -> from_slice bytes = Some (inv_input i) ->
  let '(r, h') := handle_dispatch (store_dispatcher (full_registry cs) (rh_store h)) i h in
  service_dispatch i (linked_service h) = (across r, linked_service h').
Proof.
  intros Hcs Hf (Hid & Ha & Hp & Hc) Hw Hl Hr. cbn [service_dispatch LinkedService_service ls_handle]. unfold foreign_dispatch.
  rewrite Hw, (proj2 (Z.ltb_ge _ _)) by lia.
  cbn [service_link fs_dispatch fs_context fs_release fs_capabilities]. unfold service_callback_dispatch, dispatch_principal_with_limit. cbn [negb].
  set (parsed := mk_parsed_dispatch (inv_id i) (inv_adapter i) (inv_capability i) bytes).
  assert (parse_dispatch (Some (as_bytes (as_str (inv_id i)))) (Some (as_bytes (as_str (inv_adapter i))))
    (Some (as_bytes (as_str (inv_capability i)))) (Some bytes) MAX_AUTOMATION_INPUT_LENGTH = Ok parsed) as ->.
  { unfold parse_dispatch, parse_adapter_id, parse_capability_id. rewrite (required_utf8_portable _ _ Hid) by done. cbn [mbind result_bind].
    rewrite identifier_new by done. cbn [map_err mbind result_bind]. rewrite !parse_identifier by done. cbn [mbind result_bind].
    rewrite json_buffer_ok; [by destruct i as [[] ? ? ? ?]|done|done]. }
  cbn [mbind result_bind]. rewrite parse_principal_encoded by done. unfold parse_input. cbn [mbind result_bind pd_input parsed]. rewrite Hr.
  cbn [ok_or mbind result_bind]. destruct (runtime_start_crosses h (inv_principal i) parsed (inv_input i) cs Hcs) as (registry & x & Hone & Hstart).
  destruct (register_all_one cs (inv_capability i) Hf) as (registry' & Hone' & Hsame). cbn [parsed pd_capability] in Hone.
  rewrite Hone' in Hone. injection Hone as <-. cbn [parsed pd_invocation_id pd_adapter pd_capability] in Hstart.
  replace (mk_invocation (inv_id i) (inv_adapter i) (inv_principal i) (inv_capability i) (inv_input i)) with i in Hstart by (by destruct i).
  rewrite (dispatch_one_capability _ _ _ _ _ Hsame) in Hstart. destruct (handle_dispatch _ _ _) as [r h']. destruct Hstart as [Hs Hx].
  rewrite Hs. cbn [negb Z.eqb BONDRY_STATUS_OK fs_context default]. by rewrite Hx.
Qed.

(** ** Descriptors on their way *)

(** The schema without constraints is one. *)
Definition permissive_schema : Prop :=
  meta_is_valid empty_object = true /\
  (exists validator, compile empty_object = Some validator /\ forall input, validator_is_valid validator input = true) /\
  exists len, encoded_len empty_object = Some len /\ len <= MAX_CAPABILITY_SCHEMA_LENGTH.

(** What registration sees to, and a document the reader takes as it was written; an array
    and an object are around it. *)
Definition registered_ok (d : Descriptor) : Prop :=
  id_wf (descriptor_id d) /\ descriptor_wf meta_is_valid compile encoded_len d /\ forallb is_scalar (descriptor_summary d) = true.
Definition plain_schema (d : Descriptor) : Prop :=
  exact_json (CapabilityInputSchema_document (descriptor_schema d)) = true /\
  json_nesting_depth (CapabilityInputSchema_document (descriptor_schema d)) <= JSON_READER_DEPTH - 2.

(** The same capability: the schema may have been compiled again. *)
Definition same_descriptor (d e : Descriptor) : Prop :=
  descriptor_id e = descriptor_id d /\ descriptor_summary e = descriptor_summary d /\ descriptor_effect e = descriptor_effect d /\
  CapabilityInputSchema_document (descriptor_schema e) = CapabilityInputSchema_document (descriptor_schema d) /\
  forall input, CapabilityDescriptor_accepts_input validator_is_valid e input = CapabilityDescriptor_accepts_input validator_is_valid d input.

Lemma schema_recompiled s :
  permissive_schema -> schema_wf meta_is_valid compile encoded_len s ->
  exists s', CapabilityInputSchema_new meta_is_valid compile encoded_len (CapabilityInputSchema_document s) = Ok s' /\
    CapabilityInputSchema_document s' = CapabilityInputSchema_document s /\
    forall input, CapabilityInputSchema_accepts validator_is_valid s' input = CapabilityInputSchema_accepts validator_is_valid s input.
Proof.
  intros (Hmeta & (v0 & Hv0 & Hall) & (len0 & Hlen0 & Hmax0)) Hs. unfold CapabilityInputSchema_new.
  destruct s as [[document|] [validator|]]; try done; cbn in Hs |- *.
  - destruct Hs as (-> & -> & -> & (len & -> & Hl)). cbn. rewrite (proj2 (Z.ltb_ge _ _)) by lia. by eexists.
  - rewrite Hlen0, Hmeta, Hv0, (proj2 (Z.ltb_ge _ _)) by lia. cbn. eexists. split; [done|]. split; [done|]. exact Hall.
Qed.

Lemma decode_capability_doc d :
  permissive_schema -> registered_ok d -> plain_schema d ->
  exists e, decode_capability (mk_serialized (as_str (descriptor_id d)) (descriptor_summary d) (descriptor_effect d)
    (document_value (CapabilityInputSchema_document (descriptor_schema d)))) = Ok e /\ same_descriptor d e.
Proof.
  intros Hp (Hid & [Hsum Hs] & _) [Hex _]. destruct (schema_recompiled _ Hp Hs) as (s & Hnew & Hdoc & Hacc).
  unfold decode_capability. cbn [sc_id sc_summary sc_effect sc_input_schema]. rewrite identifier_new by done. cbn [map_err mbind result_bind].
  unfold CapabilityDescriptor_new. rewrite Hsum. cbn [map_err mbind result_bind].
  unfold CapabilityDescriptor_with_input_schema. rewrite (document_value_exact _ Hex), Hnew. cbn [map_err mbind result_bind].
  eexists. split; [done|]. split; [by destruct (descriptor_id d)|]. done.
Qed.

Lemma collect_capabilities_doc ds :
  permissive_schema -> Forall registered_ok ds -> Forall plain_schema ds ->
  exists items es, mapM read_serialized (descriptor_doc <$> ds) = Some items /\ collect decode_capability items = Ok es /\ Forall2 same_descriptor ds es.
Proof.
  intros Hp. induction ds as [|d ds IH]; intros Hok Hpl; [by exists [], []|].
  apply Forall_cons in Hok as [Hd Hok]. apply Forall_cons in Hpl as [Hdp Hpl]. destruct (IH Hok Hpl) as (items & es & Hi & He & Hs).
  destruct (decode_capability_doc d Hp Hd Hdp) as (e & Hdec & Hsame). rewrite fmap_cons. cbn [mapM]. rewrite read_serialized_doc. cbn [mbind option_bind].
  rewrite Hi. eexists _, (e :: es). split; [done|]. cbn [collect]. rewrite Hdec. cbn [mbind result_bind]. rewrite He. cbn.
  split; [done|]. by constructor.
Qed.

Context `{DCS : !DocumentCodecSpec}.

Lemma descriptors_doc_plain ds :
  Forall registered_ok ds -> Forall plain_schema ds -> exact_doc (descriptors_doc ds) = true /\ json_nesting_depth (descriptors_doc ds) <= JSON_READER_DEPTH.
Proof.
  intros Hok Hpl. rewrite Forall_forall in Hok, Hpl. split.
  - apply forallb_forall. intros v (d & -> & Hd)%list_elem_of_In%list_elem_of_fmap. destruct (Hok d Hd) as (Hid & _ & Hsum). destruct (Hpl d Hd) as [Hex _].
    assert (forallb is_scalar (as_str (descriptor_id d)) = true) as Hsc.
    { apply forallb_forall. intros c Hc%list_elem_of_In. pose proof (portable_ascii _ _ Hid) as Ha. rewrite Forall_forall in Ha. specialize (Ha c Hc).
      cbn in Ha. unfold is_scalar, in_range. rewrite orb_true_iff, !andb_true_iff, !Z.leb_le. lia. }
    change (forallb is_scalar (str "id") && forallb is_scalar (as_str (descriptor_id d)) && (forallb is_scalar (str "summary") &&
      forallb is_scalar (descriptor_summary d) && (forallb is_scalar (str "effect") && forallb is_scalar (effect_name (descriptor_effect d)) &&
      (forallb is_scalar (str "input_schema") && exact_doc (CapabilityInputSchema_document (descriptor_schema d)) && true))) = true).
    rewrite Hsc, Hsum, (exact_json_doc _ Hex). by destruct (descriptor_effect d).
  - apply json_array_depth; [done|]. apply Forall_fmap, Forall_forall. intros d Hd. destruct (Hpl d Hd) as [_ Hdep]. cbn.
    unfold JSON_READER_DEPTH in *. lia.
Qed.

Lemma decode_capabilities_written ds bytes :
  permissive_schema -> Forall registered_ok ds -> Forall plain_schema ds -> to_vec (descriptors_doc ds) = Some bytes ->
  exists es, decode_capabilities bytes = Ok es /\ Forall2 same_descriptor ds es.
Proof.
  intros Hp Hok Hpl Hw. destruct (descriptors_doc_plain ds Hok Hpl) as [Hex Hdep]. unfold decode_capabilities.
  rewrite (read_doc_written _ _ Hex Hdep Hw). cbn. destruct (collect_capabilities_doc ds Hp Hok Hpl) as (items & es & -> & He & Hs). cbn. by exists es.
Qed.

(** The two calls of a discovery. *)
Lemma foreign_discover_calls h principal adapter ds bytes :
  id_wf (principal_id principal) -> id_wf adapter -> runtime_capabilities h principal adapter = Ok ds ->
  to_vec (descriptors_doc ds) = Some bytes -> bytes <> [] -> Z.of_nat (length bytes) <= MAX_CAPABILITIES_JSON ->
  foreign_discover (service_link h) principal adapter = map_err (fun _ => DiscoveryPolicyUnavailable) (decode_capabilities bytes).
Proof.
  intros Hp Ha Hds Hw Hne Hl.
  assert (forall output capacity n, bondry_capabilities_discover_json_v1 (Some h) (Some (as_bytes (as_str (principal_id principal))))
    (encode_principal_kind (principal_kind principal)) (Some (as_bytes (as_str adapter))) output capacity (Some n) =
    write_records bytes output capacity (Some n)) as Hcall.
  { intros output capacity n. unfold bondry_capabilities_discover_json_v1, parse_adapter_id. rewrite parse_principal_encoded by done.
    cbn [mbind result_bind]. rewrite parse_identifier by done. cbn [mbind result_bind]. rewrite Hds. unfold write_descriptors. by rewrite Hw. }
  unfold foreign_discover. cbn [service_link fs_capabilities fs_context].
  set (call := bondry_capabilities_discover_json_v1 (Some h) _ _ _) in *. clearbody call. rewrite Hcall. cbn -[Z.ltb Z.eqb Z.of_nat Z.to_nat decode_capabilities].
  rewrite (proj2 (Z.ltb_ge MAX_CAPABILITIES_JSON _)), (proj2 (Z.eqb_neq (Z.of_nat (length bytes)) 0)) by (destruct bytes; cbn in *; (done || lia)).
  cbn -[Z.ltb Z.of_nat Z.to_nat decode_capabilities]. rewrite Hcall.
  cbn -[Z.ltb Z.of_nat Z.to_nat decode_capabilities]. rewrite Z.ltb_irrefl, drop_ge by (rewrite length_replicate; lia).
  cbn -[Z.ltb Z.of_nat Z.to_nat decode_capabilities]. by rewrite app_nil_r, Z.ltb_irrefl, Nat2Z.id, firstn_all.
Qed.

Lemma runtime_capabilities_full h cs principal adapter :
  rh_capabilities h = Some cs -> filed cs ->
  runtime_capabilities h principal adapter = Dispatcher_capabilities (store_dispatcher (full_registry cs) (rh_store h)) principal adapter.
Proof. intros Hcs Hf. unfold runtime_capabilities, foreign_dispatcher. rewrite Hcs. cbn. by rewrite (register_all_full cs Hf). Qed.

Lemma linked_discovery_fails h cs principal adapter e :
  id_wf (principal_id principal) -> id_wf adapter -> rh_capabilities h = Some cs -> filed cs ->
  Dispatcher_capabilities (store_dispatcher (full_registry cs) (rh_store h)) principal adapter = Err e ->
  foreign_discover (service_link h) principal adapter = Err e.
Proof.
  intros Hp Ha Hcs Hf. rewrite <-(runtime_capabilities_full h cs) by done. intros He. unfold foreign_discover. cbn [service_link fs_capabilities fs_context].
  unfold bondry_capabilities_discover_json_v1 at 1, parse_adapter_id. rewrite parse_principal_encoded by done.
  cbn [mbind result_bind]. rewrite parse_identifier by done. cbn [mbind result_bind]. rewrite He. by destruct e.
Qed.

(** ** Registration *)

(** What a host does to the registry; the rest of the handle stays as it is. *)
Inductive RegistryOp :=
| OpRegister (capability_id summary : buffer) (effect : Z) (input_schema_json : option buffer)
    (invoke : option (BondryInvocationV1 -> Host -> Z * buffer * Host)) (release : option (Host -> Host))
| OpUnregister (capability_id : buffer).

Definition registry_step (h : RuntimeHandle) (op : RegistryOp) : RuntimeHandle :=
  match op with
  | OpRegister capability_id summary effect schema invoke release =>
      default h (register_capability (Some h) capability_id summary effect schema invoke release).2
  | OpUnregister capability_id => default h (bondry_capability_unregister_v1 (Some h) capability_id (Some 0)).2
  end.
Definition registry_run (ops : list RegistryOp) (h : RuntimeHandle) : RuntimeHandle := foldl registry_step h ops.

(** Buffers hold octets. *)
Definition registry_op_wf (op : RegistryOp) : Prop :=
  match op with OpRegister _ (Some summary) _ _ _ _ => Forall (fun b => 0 <= b) summary | _ => True end.

Definition registry_ok (cs : gmap CapabilityId ForeignCapability) : Prop :=
  filed cs /\ map_Forall (fun _ c => registered_ok (fc_descriptor c)) cs.

Lemma parse_descriptor_ok capability_id summary effect schema d :
  match summary with Some bytes => Forall (fun b => 0 <= b) bytes | None => True end ->
  parse_descriptor capability_id summary effect schema = Ok d -> registered_ok d.
Proof.
  intros Hb. unfold parse_descriptor, parse_capability_id.
  intros (id & (name & _ & Hid%map_err_Ok)%result_bind_Ok & (text & Htext & (eff & _ & (d0 & Hd0%map_err_Ok & Hd)%result_bind_Ok)%result_bind_Ok)%result_bind_Ok)%result_bind_Ok.
  apply identifier_new_ok in Hid as [-> Hid]. pose proof (CapabilityDescriptor_new_wf meta_is_valid compile encoded_len _ _ _ _ Hd0) as Hwf0.
  assert (forallb is_scalar text = true) as Hsc.
  { destruct summary as [bytes|]; [|done]. unfold required_utf8 in Htext. cbn in Htext. destruct (_ <? _); [done|].
    destruct (from_utf8 bytes) as [s|] eqn:Hs; [|done]. injection Htext as <-. apply forallb_forall. intros c Hc%list_elem_of_In.
    pose proof (from_utf8_scalar _ _ Hb Hs) as Hall. rewrite Forall_forall in Hall. auto. }
  assert (descriptor_id d0 = mk_id name /\ descriptor_summary d0 = text) as [Hi Hs].
  { unfold CapabilityDescriptor_new in Hd0. apply result_bind_Ok in Hd0 as (s & Hs%CapabilitySummary_new_ok & [= <-]). by subst s. }
  destruct schema as [schema|].
  - apply result_bind_Ok in Hd as (bytes & _ & (doc & _ & Hd%map_err_Ok)%result_bind_Ok).
    pose proof (with_input_schema_wf _ _ _ _ _ _ Hwf0 Hd) as Hwf. unfold CapabilityDescriptor_with_input_schema in Hd.
    apply result_bind_Ok in Hd as (s & _ & [= <-]). split; [by rewrite Hi|]. split; [done|]. by rewrite Hs.
  - injection Hd as <-. split; [by rewrite Hi|]. split; [done|]. by rewrite Hs.
Qed.

Lemma registry_step_ok h op cs :
  registry_op_wf op -> rh_capabilities h = Some cs -> registry_ok cs ->
  exists cs', rh_capabilities (registry_step h op) = Some cs' /\ registry_ok cs' /\ rh_auth (registry_step h op) = rh_auth h.
Proof.
  intros Hwf Hcs [Hf Hok]. destruct op as [id summary effect schema invoke release|id]; cbn [registry_step].
  - unfold register_capability. destruct invoke as [invoke|]; [|by exists cs]. destruct (parse_descriptor id summary effect schema) as [d|] eqn:Hd; [|by exists cs].
    rewrite Hcs. destruct (cs !! descriptor_id d); cbn; [by exists cs|]. eexists. split; [done|].
    apply parse_descriptor_ok in Hd; [|by destruct summary]. split; [|done]. by split; apply map_Forall_insert_2.
  - unfold bondry_capability_unregister_v1. destruct (parse_capability_id id) as [capability|]; [|by exists cs]. rewrite Hcs. cbn.
    eexists. split; [done|]. split; [|done]. by split; apply map_Forall_delete.
Qed.

Lemma registry_run_ok ops h cs :
  Forall registry_op_wf ops -> rh_capabilities h = Some cs -> registry_ok cs ->
  exists cs', rh_capabilities (registry_run ops h) = Some cs' /\ registry_ok cs' /\ rh_auth (registry_run ops h) = rh_auth h.
Proof.
  intros Hwf. revert h cs. induction Hwf as [|op ops Hop _ IH]; intros h cs Hcs Hok; [by exists cs|].
  destruct (registry_step_ok h op cs Hop Hcs Hok) as (cs1 & Hcs1 & Hok1 & Hauth). destruct (IH _ _ Hcs1 Hok1) as (cs2 & Hcs2 & Hok2 & Hauth2).
  exists cs2. split; [done|]. split; [done|]. by rewrite <-Hauth.
Qed.

(** A context that was taken over is released once, by the removal that reports a change. *)
Lemma unregister_once h cs c id :
  id_wf id -> rh_capabilities h = Some cs -> cs !! id = Some c ->
  let h1 := mk_runtime_handle (rh_auth h) (Some (delete id cs)) (handler_drop (fc_handler c) (rh_host h)) (rh_clock h) in
  bondry_capability_unregister_v1 (Some h) (Some (as_bytes (as_str id))) (Some 0) = (BONDRY_STATUS_OK, Some 1, Some h1) /\
  bondry_capability_unregister_v1 (Some h1) (Some (as_bytes (as_str id))) (Some 0) = (BONDRY_STATUS_OK, Some 0, Some h1).
Proof.
  intros Hid Hcs Hc. unfold bondry_capability_unregister_v1, parse_capability_id. rewrite parse_identifier by done. rewrite Hcs, Hc. cbn.
  rewrite lookup_delete_eq, (delete_id (delete id cs)) by apply lookup_delete_eq. done.
Qed.

(** A registration that is refused takes nothing over. *)
Lemma register_refused h id summary effect schema invoke release status h' :
  register_capability (Some h) id summary effect schema invoke release = (status, h') -> status <> BONDRY_STATUS_OK -> h' = Some h.
Proof. unfold register_capability. repeat case_match; intros [= <- <-] Hs; done. Qed.

Context `{JCS : !JsonCodecSpec}.

Lemma discovered_registered cs store principal adapter ds :
  registry_ok cs -> Dispatcher_capabilities (store_dispatcher (full_registry cs) store) principal adapter = Ok ds -> Forall registered_ok ds.
Proof.
  intros [_ Hok]. unfold Dispatcher_capabilities. intros [-> _]%capabilities_loop_spec. cbn [app]. apply Forall_forall. intros d [_ Hd]%list_elem_of_filter.
  rewrite descriptors_perm in Hd. apply list_elem_of_fmap in Hd as (c & -> & Hc). apply list_elem_of_fmap in Hc as ([id c'] & -> & Hc%elem_of_map_to_list).
  cbn in Hc |- *. unfold full_registry in Hc. rewrite lookup_fmap in Hc. apply fmap_Some in Hc as (f & Hf & ->). exact (Hok _ _ Hf).
Qed.

(** C22: capabilities cross the C interface.  After a host registered and removed capabilities
    in any order, the runtime hands out a descriptor that webhook ingress retains, and the
    service over it is the dispatcher over every registered capability: a dispatch makes the
    same audit records, runs the same handler on the same input and ends in the same error or
    without one, the output staying behind; and discovery finds the same capabilities, each
    with its schema, or is unavailable where the policy is.  This is for inputs and schemas
    that JSON text carries exactly, without floating point numbers and within the depth of the
    reader, and for lists within the 1 MiB of the interface.  An input of more than its 10 MiB is
    answered as invalid, without a dispatch and without an audit record. *)
Theorem capabilities_cross_interface ops h0 :
  permissive_schema -> Forall registry_op_wf ops -> rh_capabilities h0 = Some ∅ ->
  let h := registry_run ops h0 in let s := linked_service h in
  exists cs d, rh_capabilities h = Some cs /\
    bondry_automation_service_v1 (Some h) (Some service_zeroed) = (BONDRY_STATUS_OK, Some d) /\ foreign_service_retain d = Ok (service_link h) /\
    let local := store_dispatcher (full_registry cs) (rh_store h) in
    (forall i bytes, invocation_wf i -> to_vec (inv_input i) = Some bytes ->
      (MAX_DISPATCH_INPUT_JSON < Z.of_nat (length bytes) -> service_dispatch i s = (Err DispatchInvalidInput, s)) /\
      (Z.of_nat (length bytes) <= MAX_DISPATCH_INPUT_JSON -> exact_json (inv_input i) = true -> json_nesting_depth (inv_input i) <= JSON_READER_DEPTH ->
        let '(r, h') := handle_dispatch local i h in
        service_dispatch i s = (match r with Ok _ => Ok JNull | Err e => Err e end, linked_service h'))) /\
    (forall principal adapter, id_wf (principal_id principal) -> id_wf adapter ->
      match Dispatcher_capabilities local principal adapter with
      | Err e => service_capabilities s principal adapter = Err e
      | Ok ds => forall bytes, to_vec (descriptors_doc ds) = Some bytes -> Z.of_nat (length bytes) <= MAX_CAPABILITIES_JSON -> Forall plain_schema ds ->
          exists es, service_capabilities s principal adapter = Ok es /\ Forall2 same_descriptor ds es
      end).
Proof.
  intros Hperm Hops H0. cbv zeta. destruct (registry_run_ok ops h0 ∅ Hops H0) as (cs & Hcs & Hok & _); [by split; apply map_Forall_empty|].
  set (h := registry_run ops h0) in *. clearbody h. exists cs, (service_descriptor (Some h)). split; [done|]. split; [done|]. split; [done|]. split.
  - intros i bytes Hi Hw. split.
    + intros Hl. cbn [service_dispatch LinkedService_service ls_handle]. unfold foreign_dispatch. by rewrite Hw, (proj2 (Z.ltb_lt _ _)).
    + intros Hl Hex Hdep. pose proof (linked_dispatch_exact i h cs bytes Hcs (proj1 Hok) Hi Hw Hl (read_written _ _ Hex Hdep Hw)) as Hd.
      destruct (handle_dispatch _ _ _) as [r h']. rewrite Hd. destruct r as [v|]; [|done]. cbn. by destruct (to_vec_total v) as [? ->].
  - intros principal adapter Hp Ha. destruct (Dispatcher_capabilities _ principal adapter) as [ds|e] eqn:Hds.
    + intros bytes Hw Hl Hpl. destruct (decode_capabilities_written ds bytes Hperm (discovered_registered _ _ _ _ _ Hok Hds) Hpl Hw) as (es & Hdec & Hs).
      exists es. split; [|done]. cbn [service_capabilities LinkedService_service ls_handle].
      rewrite (foreign_discover_calls h principal adapter ds bytes); [by rewrite Hdec|done|done| |done| |done].
      * rewrite (runtime_capabilities_full h cs); [done|done|apply Hok].
      * intros ->. by apply (written_nonempty (descriptors_doc ds)).
    + apply (linked_discovery_fails h cs); [done|done|done|apply Hok|done].
Qed.
End runtime.

(** ** An example

    The encrypted store, a capability of a host that keeps the inputs it got, and a second
    registration under the same name, which is refused. *)

Module Example.
#[local] Instance no_failures : SqlEnv := fun _ => false.
#[local] Instance writer : JsonWriter := fun v => Some (91 :: digits (encode (value_tree v))).
#[local] Instance reader : JsonReader := fun bs => tree_value <$> decode (undigits (tail bs)).
#[local] Instance doc_reader : DocumentReader := fun bs => tree_value <$> decode (undigits (tail bs)).

Lemma read_back v : tree_value <$> decode (undigits (digits (encode (value_tree v)))) = Some v.
Proof. rewrite undigits_digits, decode_encode. cbn. by rewrite tree_value_tree. Qed.
#[local] Instance framed_codec_spec : JsonCodecSpec.
Proof.
  split; [by eexists|intros v bytes [= <-]; constructor; [lia|apply digits_octets]|].
  intros v bytes _ _ [= <-]. exact (read_back v).
Qed.
#[local] Instance doc_codec_spec : DocumentCodecSpec.
Proof. split; [|done]. intros v bytes _ _ [= <-]. exact (read_back v). Qed.

(** A validator says whether it takes any input or objects only. *)
Definition meta (_ : Value) : bool := true.
Definition compiled (v : Value) : option bool := Some (match v with JObject [] => true | _ => false end).
Definition valid (any : bool) (input : Value) : bool := any || is_object input.

Lemma permissive : permissive_schema meta compiled valid.
Proof.
  split; [done|]. split; [exists true; split; [by vm_compute|done]|].
  eexists. split; [reflexivity|]. apply Z.leb_le. by vm_compute.
Qed.

Definition client : Principal := mk_principal (mk_id (str "client_1")) Application.
Definition adapter : AdapterId := mk_id (str "webhook").
Definition create_note : CapabilityId := mk_id (str "notes.create").
Definition store : SqlCipherStore :=
  (add_grant (mk_grant (principal_id client) adapter create_note) (mk_sql_store false migrate_from_empty None 0)).2.

(** The host answers with the document [null]. *)
Definition invoke (i : BondryInvocationV1) (inputs : list (list byte)) : Z * pointer (list byte) * list (list byte) :=
  (1, to_vec JNull, iv_input_json i :: inputs).
Definition registration : RegistryOp (Host := list (list byte)) :=
  OpRegister (Some (str "notes.create")) (Some (str "Create a note")) 2 None (Some invoke) None.
Definition ops : list (RegistryOp (Host := list (list byte))) := [registration; OpUnregister (Some (str "notes.read")); registration].
Definition handle : RuntimeHandle (Validator := bool) (Host := list (list byte)) (St := SqlCipherStore) :=
  mk_runtime_handle (mk_manager store 0) (Some ∅) [] (fun n => from_secs (Z.of_nat n)).
Definition invocation : Invocation := mk_invocation (mk_id (str "request_1")) adapter client create_note empty_object.
#[local] Abbreviation run := (registry_run meta compiled ops handle).
#[local] Abbreviation answer := (service_dispatch (AutomationService := LinkedService_service meta compiled valid) invocation (linked_service run)).

Lemma capabilities_cross_interface_witness :
  answer.1 = Ok JNull /\ length (rh_host (ls_handle answer.2)) = 1%nat /\
  exists cs, rh_capabilities run = Some cs /\
    let '(r, h') := handle_dispatch valid (store_dispatcher (full_registry cs) (rh_store run)) invocation run in
    answer = (match r with Ok _ => Ok JNull | Err e => Err e end, linked_service h').
Proof.
  assert (Forall registry_op_wf ops) as Hops.
  { repeat apply Forall_cons_2; try apply Forall_nil_2; try exact I; apply (bool_decide_unpack _); by vm_compute. }
  assert (invocation_wf invocation) as Hi by (repeat split; apply (bool_decide_unpack _); by vm_compute).
  split; [by vm_compute|]. split; [by vm_compute|].
  destruct (capabilities_cross_interface meta compiled valid ops handle permissive Hops eq_refl) as (cs & d & Hcs & _ & _ & Hd & _).
  exists cs. split; [exact Hcs|]. refine (proj2 (Hd invocation _ Hi eq_refl) _ eq_refl _); apply Z.leb_le; by vm_compute.
Defined.
End Example.
