(* ===== verification/WebhookIngress.v ===== *)
(** * WebhookIngress: routing verified webhooks to capabilities (bondry-webhook-ingress)

    Models limits.rs, limiter.rs, payload.rs, response.rs and route.rs.  The JSON reader of
    [serde_json] is the parameter [from_slice].  A dispatch that was accepted but not yet
    awaited is a value of [WebhookDispatch]; dropping its claim is [DedupGuard_drop]. *)

From S2P Require Import Prelude Text Bytes HttpLib Identifiers Json Capability Policy Dispatch DeliveryStore Dedup WebhookVerify Service.

(** ** Limits (limits.rs) *)

Definition DEFAULT_WEBHOOK_BODY_BYTES : Z := 1048576.
Definition MIN_WEBHOOK_BODY_BYTES : Z := 1024.
Definition MAX_WEBHOOK_BODY_BYTES : Z := 4 * 1048576.
Definition DEFAULT_WEBHOOK_RETAINED_BYTES : Z := 3 * 1048576.
Definition MAX_WEBHOOK_RETAINED_BYTES : Z := 10 * 1048576.
Definition DEFAULT_WEBHOOK_SELECTED_HEADERS : Z := 16.
Definition MAX_WEBHOOK_SELECTED_HEADERS : Z := 32.

Record WebhookIngressLimits := mk_ingress_limits {
  body_bytes : Z;
  retained_bytes : Z;
  limit_selected_headers : Z;
}.
Inductive WebhookIngressLimitError := InvalidBodyBytes | InvalidRetainedBytes | InvalidSelectedHeaders.

Definition WebhookIngressLimits_new (body retained : Z) : result WebhookIngressLimitError WebhookIngressLimits :=
  if (body <? MIN_WEBHOOK_BODY_BYTES) || (MAX_WEBHOOK_BODY_BYTES <? body) then Err InvalidBodyBytes
  else if (retained <? body) || (MAX_WEBHOOK_RETAINED_BYTES <? retained) then Err InvalidRetainedBytes
  else Ok (mk_ingress_limits body retained DEFAULT_WEBHOOK_SELECTED_HEADERS).

Definition WebhookIngressLimits_with_selected_headers (l : WebhookIngressLimits) (count : Z)
    : result WebhookIngressLimitError WebhookIngressLimits :=
  if (count =? 0) || (MAX_WEBHOOK_SELECTED_HEADERS <? count) then Err InvalidSelectedHeaders
  else Ok (mk_ingress_limits (body_bytes l) (retained_bytes l) count).

Definition WebhookIngressLimits_default : WebhookIngressLimits :=
  mk_ingress_limits DEFAULT_WEBHOOK_BODY_BYTES DEFAULT_WEBHOOK_RETAINED_BYTES DEFAULT_WEBHOOK_SELECTED_HEADERS.

(** ** The authenticated rate limit (limiter.rs) *)

Definition WINDOW_MILLISECONDS : Z := 60000.
Definition MAX_REQUESTS_PER_MINUTE : Z := 60000.

Record LimiterState := mk_limiter_state {
  last_monotonic_milliseconds : Z;
  principals : gmap PrincipalId (list Z);
}.

Record AuthenticatedRequestLimiter := mk_limiter {
  requests_per_minute : Z;
  limiter_state : LimiterState;
}.

Inductive AuthenticatedRequestLimitError := RequestRateOutOfRange.
Inductive AuthenticatedAdmission := AdmissionAllowed | AdmissionLimited (retry_after : Z).

Definition AuthenticatedRequestLimiter_new (rate : Z)
    : result AuthenticatedRequestLimitError AuthenticatedRequestLimiter :=
  if (rate =? 0) || (MAX_REQUESTS_PER_MINUTE <? rate) then Err RequestRateOutOfRange
  else Ok (mk_limiter rate (mk_limiter_state 0 ∅)).

Definition AuthenticatedRequestLimiter_default : AuthenticatedRequestLimiter := mk_limiter 120 (mk_limiter_state 0 ∅).

(** The [while] loop that pops expired entries off the front of the deque. *)
Fixpoint pop_expired (cutoff : Z) (requests : list Z) : list Z :=
  match requests with
  | timestamp :: rest => if timestamp <=? cutoff then pop_expired cutoff rest else requests
  | [] => []
  end.

(** [u64::div_ceil]. *)
Definition div_ceil (a b : Z) : Z := (a + b - 1) / b.

(** [AuthenticatedRequestLimiter::admit]. *)
Definition limiter_admit (l : AuthenticatedRequestLimiter) (principal : PrincipalId) (now : Z)
    : AuthenticatedAdmission * AuthenticatedRequestLimiter :=
  let state := limiter_state l in
  let now := Z.max now (last_monotonic_milliseconds state) in
  let cutoff := sat_sub now WINDOW_MILLISECONDS in
  let requests := pop_expired cutoff (default [] (principals state !! principal)) in
  let keep requests := mk_limiter (requests_per_minute l) (mk_limiter_state now (<[principal := requests]> (principals state))) in
  if requests_per_minute l <=? Z.of_nat (length requests) then
    let retry_after :=
      match requests with
      | [] => 60
      | oldest :: _ => Z.max 1 (div_ceil (sat_sub (sat_add U64_MAX oldest WINDOW_MILLISECONDS) now) 1000)
      end in
    (AdmissionLimited retry_after, keep requests)
  else (AdmissionAllowed, keep (requests ++ [now])).

(** ** Responses (response.rs) *)

Record WebhookIngressResponse := mk_response {
  response_status : Z;
  retry_after_seconds : option Z;
  error_code : option rstr;
}.

Definition response_success (status : Z) : WebhookIngressResponse := mk_response status None None.
Definition response_error (status : Z) (code : rstr) : WebhookIngressResponse := mk_response status None (Some code).
Definition response_retryable (status : Z) (code : rstr) (seconds : Z) : WebhookIngressResponse :=
  mk_response status (Some seconds) (Some code).

(** [retryable] of route.rs and [capacity_response] of payload.rs. *)
Definition retryable (code : rstr) : WebhookIngressResponse := response_retryable 503 code 1.
Definition capacity_response : WebhookIngressResponse := response_error 413 (str "retained_capacity").

(** ** Payload mapping (payload.rs) *)

Inductive PayloadMapping := JsonBody | Envelope (metadata_headers : list HeaderName).

Definition mapping_headers (m : PayloadMapping) : list HeaderName :=
  match m with JsonBody => [] | Envelope headers => headers end.

Definition VALUE_ALLOCATION_CHARGE : Z := 128.

Definition is_separator (b : byte) : bool :=
  (b =? 32) || (b =? 9) || (b =? 13) || (b =? 10) || (b =? 125) || (b =? 93) || (b =? 44) || (b =? 58).

(** [string_end] on the bytes from the index on: what follows the closing quote. *)
Fixpoint string_end (input : list byte) : option (list byte) :=
  match input with
  | [] => None
  | b :: rest =>
      if b =? 34 then Some rest
      else if b =? 92 then match rest with [] => None | _ :: rest => string_end rest end
      else string_end rest
  end.

(** The inner loop over the bytes of a number or a word. *)
Fixpoint skip_word (input : list byte) : list byte :=
  match input with
  | [] => []
  | b :: rest => if is_separator b then input else skip_word rest
  end.

(** The loop of [count_json_values] on the bytes from the index on.  Every round consumes a
    byte, so that fuel for the length of the input is enough ([count_loop_fuel]). *)
Fixpoint count_loop (fuel : nat) (input : list byte) (count : Z) : option Z :=
  match fuel, input with
  | _, [] => Some count
  | O, _ => None
  | S fuel, b :: rest =>
      if is_separator b then count_loop fuel rest count
      else if (b =? 123) || (b =? 91) then count ← checked_add count 1; count_loop fuel rest count
      else if b =? 34 then count ← checked_add count 1; rest ← string_end rest; count_loop fuel rest count
      else count ← checked_add count 1; count_loop fuel (skip_word rest) count
  end.

Definition count_json_values (input : list byte) : option Z := count_loop (length input) input 0.

(** The loops of [metadata_charge]. *)
Fixpoint charge_values (values : list (list byte)) (charge : Z) : option Z :=
  match values with
  | [] => Some charge
  | value :: values =>
      charge ← checked_add charge (Z.of_nat (length value));
      charge ← checked_add charge VALUE_ALLOCATION_CHARGE;
      charge_values values charge
  end.

Fixpoint charge_headers (request : VerificationRequest) (names : list HeaderName) (charge : Z) : option Z :=
  match names with
  | [] => Some charge
  | name :: names =>
      let values := header_values request name in
      charge ← charge_values values charge;
      charge ← (if decide (values = []) then Some charge
                else charge ← checked_add charge (str_len name); checked_add charge VALUE_ALLOCATION_CHARGE);
      charge_headers request names charge
  end.

Definition metadata_charge (mapping : PayloadMapping) (request : VerificationRequest) : option Z :=
  match mapping with
  | JsonBody => Some 0
  | Envelope headers => charge ← checked_mul VALUE_ALLOCATION_CHARGE 2; charge_headers request headers charge
  end.

Definition retained_charge (mapping : PayloadMapping) (request : VerificationRequest) : option Z :=
  body_bytes ← checked_mul (Z.of_nat (length (request_body request))) 2;
  json_values ← count_json_values (request_body request);
  json_charge ← checked_mul json_values VALUE_ALLOCATION_CHARGE;
  metadata_charge ← metadata_charge mapping request;
  total ← checked_add body_bytes json_charge;
  checked_add total metadata_charge.

(** The loop that collects the metadata headers as arrays of strings. *)
Fixpoint collect_metadata (request : VerificationRequest) (names : list HeaderName) (metadata : gmap rstr Value)
    : result WebhookIngressResponse (gmap rstr Value) :=
  match names with
  | [] => Ok metadata
  | name :: names =>
      values ← collect (fun value => JString <$> ok_or (from_utf8 value) (response_error 400 (str "invalid_metadata")))
                 (header_values request name);
      collect_metadata request names
        (if decide (values = []) then metadata else <[name := JArray values]> metadata)
  end.

Section payload.
Variable from_slice : list byte -> option Value.

Definition map_payload (mapping : PayloadMapping) (request : VerificationRequest) (limits : WebhookIngressLimits)
    : result WebhookIngressResponse Value :=
  if body_bytes limits <? Z.of_nat (length (request_body request)) then Err (response_error 413 (str "body_too_large"))
  else
    retained_charge ← ok_or (retained_charge mapping request) capacity_response;
    if retained_bytes limits <? retained_charge then Err capacity_response
    else
      body ← ok_or (from_slice (request_body request)) (response_error 400 (str "invalid_json"));
      match mapping with
      | JsonBody => Ok body
      | Envelope metadata_headers =>
          metadata ← collect_metadata request metadata_headers ∅;
          Ok (JObject [(str "body", body); (str "metadata", JObject (btree_iter metadata))])
      end.
End payload.

Definition has_json_content_type (request : VerificationRequest) (content_type : HeaderName) : bool :=
  match header_values request content_type with
  | [value] =>
      match from_utf8 value with
      | Some value =>
          match split 59 value with
          | media_type :: _ => eq_ignore_ascii_case (trim media_type) (str "application/json")
          | [] => false
          end
      | None => false
      end
  | _ => false
  end.

(** ** Routes (route.rs) *)

Definition MAX_SELECTED_HEADERS : Z := 32.

Inductive CapabilitySemantics := SemanticsReadOnly | IdempotentMutation | NonIdempotentMutation.
#[global] Instance CapabilitySemantics_eq_dec : EqDecision CapabilitySemantics.
Proof. solve_decision. Defined.

Inductive WebhookRouteError :=
| RouteInvalidAdapter
| RoutePolicyUnavailable
| RouteCapabilityUnavailable
| RouteCapabilityEffectMismatch
| RouteTrustedIdentityRequired
| RoutePersistentStoreRequired
| RouteTooManySelectedHeaders
| RouteDuplicateSelectedHeader
| RouteCredentialHeaderNotSelected
| RouteCredentialMetadataOverlap
| RouteInvalidSuccessStatus.

Definition PayloadMapping_envelope (metadata_headers : list HeaderName) : result WebhookRouteError PayloadMapping :=
  if MAX_SELECTED_HEADERS <? Z.of_nat (length metadata_headers) then Err RouteTooManySelectedHeaders
  else if negb (bool_decide (NoDup metadata_headers)) then Err RouteDuplicateSelectedHeader
  else Ok (Envelope metadata_headers).

Record WebhookRouteConfiguration := mk_route_configuration {
  cfg_id : RouteId;
  cfg_principal : Principal;
  cfg_capability : CapabilityId;
  cfg_semantics : CapabilitySemantics;
  cfg_mapping : PayloadMapping;
  cfg_success_status : Z;
  cfg_limits : WebhookIngressLimits;
}.

Definition WebhookRouteConfiguration_new (id : RouteId) (principal : Principal) (capability : CapabilityId)
    (semantics : CapabilitySemantics) : WebhookRouteConfiguration :=
  mk_route_configuration id principal capability semantics JsonBody 204 WebhookIngressLimits_default.

Definition with_mapping (c : WebhookRouteConfiguration) (mapping : PayloadMapping) : WebhookRouteConfiguration :=
  mk_route_configuration (cfg_id c) (cfg_principal c) (cfg_capability c) (cfg_semantics c) mapping
    (cfg_success_status c) (cfg_limits c).

(** [StatusCode::is_success] is 200 up to 299. *)
Definition with_success_status (c : WebhookRouteConfiguration) (status : Z)
    : result WebhookRouteError WebhookRouteConfiguration :=
  if negb (in_range 200 299 status) then Err RouteInvalidSuccessStatus
  else Ok (mk_route_configuration (cfg_id c) (cfg_principal c) (cfg_capability c) (cfg_semantics c) (cfg_mapping c)
             status (cfg_limits c)).

Definition with_limits (c : WebhookRouteConfiguration) (limits : WebhookIngressLimits) : WebhookRouteConfiguration :=
  mk_route_configuration (cfg_id c) (cfg_principal c) (cfg_capability c) (cfg_semantics c) (cfg_mapping c)
    (cfg_success_status c) limits.

(** [WebhookIngressTime]: milliseconds of the wall clock and of the monotonic clock. *)
Record WebhookIngressTime := mk_ingress_time { unix_milliseconds : Z; monotonic_milliseconds : Z }.

Definition validate_semantics (semantics : CapabilitySemantics) (effect : CapabilityEffect)
    : result WebhookRouteError unit :=
  match semantics, effect with
  | SemanticsReadOnly, ReadOnly => Ok ()
  | IdempotentMutation, Mutating | NonIdempotentMutation, Mutating => Ok ()
  | _, _ => Err RouteCapabilityEffectMismatch
  end.

(** [if unique.insert(name) { selected.push(name) }] over the names. *)
Definition push_unique (names : list HeaderName) : list HeaderName :=
  foldl (fun selected name => if decide (name ∈ selected) then selected else selected ++ [name]) [] names.

(** [selected_headers] of route.rs. *)
Definition route_headers `{WebhookVerifier V} (mapping : PayloadMapping) (verifier : V)
    : result WebhookRouteError (list HeaderName) :=
  if negb (bool_decide (NoDup (mapping_headers mapping))) then Err RouteDuplicateSelectedHeader
  else
    let selected := push_unique (selected_headers verifier ++ [CONTENT_TYPE] ++ mapping_headers mapping) in
    if MAX_SELECTED_HEADERS <? Z.of_nat (length selected) then Err RouteTooManySelectedHeaders
    else if existsb (fun credential => negb (bool_decide (credential ∈ selected_headers verifier))) (credential_headers verifier)
    then Err RouteCredentialHeaderNotSelected
    else if existsb (fun metadata => existsb (fun credential => bool_decide (credential = metadata)) (credential_headers verifier))
              (mapping_headers mapping)
    then Err RouteCredentialMetadataOverlap
    else Ok selected.

(** [DedupGuard] without the shared store, which is an argument of its methods. *)
Record DedupGuard := mk_guard { guard_key : option DedupKey; guard_updated_at : Z }.

Record WebhookDispatch := mk_webhook_dispatch {
  wd_invocation : Invocation;
  wd_claim : option DedupGuard;
  wd_success_status : Z;
}.

Record WebhookRoute (V : Type) := mk_route {
  route_configuration : WebhookRouteConfiguration;
  route_verifier : V;
  route_adapter : AdapterId;
  route_selected_headers : list HeaderName;
}.
Arguments mk_route {V} _ _ _ _.
Arguments route_configuration {V} _.
Arguments route_verifier {V} _.
Arguments route_adapter {V} _.
Arguments route_selected_headers {V} _.

(** [WebhookIngressContext]: the shared service, store and limiter.  The identifier
    generator's answer is an argument of [begin]. *)
Record WebhookIngressContext (S D : Type) := mk_context_of {
  ctx_service : S;
  ctx_store : D;
  ctx_limiter : AuthenticatedRequestLimiter;
}.
Arguments mk_context_of {S D} _ _ _.
Arguments ctx_service {S D} _.
Arguments ctx_store {S D} _.
Arguments ctx_limiter {S D} _.

Section route.
Context {Validator S D V : Type} `{AutomationService Validator S} `{DedupStore D} `{WebhookVerifier V}.
Variable from_slice : list byte -> option Value.
Implicit Types (c : WebhookIngressContext S D) (d : D).

Definition with_store c d : WebhookIngressContext S D := mk_context_of (ctx_service c) d (ctx_limiter c).
Definition with_limiter c (l : AuthenticatedRequestLimiter) : WebhookIngressContext S D :=
  mk_context_of (ctx_service c) (ctx_store c) l.
Definition with_service c (s : S) : WebhookIngressContext S D := mk_context_of s (ctx_store c) (ctx_limiter c).

(** [WebhookRoute::new]. *)
Definition WebhookRoute_new (configuration : WebhookRouteConfiguration) (verifier : V) c
    : result WebhookRouteError (WebhookRoute V) :=
  adapter ← map_err (fun _ => RouteInvalidAdapter) (Identifier_new (str "webhook"));
  capabilities ← map_err (fun _ => RoutePolicyUnavailable)
    (service_capabilities (ctx_service c) (cfg_principal configuration) adapter);
  effect ← ok_or (descriptor_effect <$>
      find (fun descriptor => bool_decide (descriptor_id descriptor = cfg_capability configuration)) capabilities)
    RouteCapabilityUnavailable;
  _ ← validate_semantics (cfg_semantics configuration) effect;
  _ ← (if decide (cfg_semantics configuration = NonIdempotentMutation) then
         if decide (identity_guarantee verifier <> IdentityRequired) then Err RouteTrustedIdentityRequired
         else if decide (dedup_durability (ctx_store c) <> Persistent) then Err RoutePersistentStoreRequired
         else Ok ()
       else Ok ());
  selected ← route_headers (cfg_mapping configuration) verifier;
  if limit_selected_headers (cfg_limits configuration) <? Z.of_nat (length selected)
  then Err RouteTooManySelectedHeaders
  else Ok (mk_route configuration verifier adapter selected).

(** *** Claims *)

(** The common body of [DedupGuard::complete], [mark_unknown] and [release]: run the store
    operation on the key still held, and let go of it on success. *)
Definition guard_settle (op : DedupKey -> D -> result DedupStoreError unit * D) (g : DedupGuard) d : bool * DedupGuard * D :=
  match guard_key g with
  | None => (true, g, d)
  | Some key =>
      match op key d with
      | (Err _, d) => (false, g, d)
      | (Ok _, d) => (true, mk_guard None (guard_updated_at g), d)
      end
  end.

Definition DedupGuard_complete (g : DedupGuard) : D -> bool * DedupGuard * D :=
  guard_settle (fun key => complete key (guard_updated_at g)) g.
Definition DedupGuard_mark_unknown (g : DedupGuard) : D -> bool * DedupGuard * D :=
  guard_settle (fun key => mark_unknown key (guard_updated_at g)) g.
Definition DedupGuard_release (g : DedupGuard) : D -> bool * DedupGuard * D := guard_settle release_claim g.

(** [Drop for DedupGuard]. *)
Definition DedupGuard_drop (g : DedupGuard) d : D :=
  match guard_key g with
  | Some key => (mark_unknown key (guard_updated_at g) d).2
  | None => d
  end.

(** Dropping an [Option<DedupGuard>]. *)
Definition drop_claim (claim : option DedupGuard) d : D :=
  match claim with Some g => DedupGuard_drop g d | None => d end.

(** *** Accepting a request *)

Definition claim_key (configuration : WebhookRouteConfiguration) (identity : TrustedDeliveryIdentity) : DedupKey :=
  mk_dedup_key (cfg_id configuration) (identity_namespace identity) (identity_hash identity).

Definition claim_policy (configuration : WebhookRouteConfiguration) (identity : TrustedDeliveryIdentity) : DedupClaimPolicy :=
  if bool_decide (cfg_semantics configuration = NonIdempotentMutation)
     && match identity_freshness identity with None => true | Some _ => false end
  then RetainCompleted else ExpireCompleted.

(** The claim of [prepare]: the guard, or the response that ends the request. *)
Definition prepare_claim (configuration : WebhookRouteConfiguration) (identity : option TrustedDeliveryIdentity)
    (now : WebhookIngressTime) d : result WebhookIngressResponse (option DedupGuard) * D :=
  match identity with
  | None => (Ok None, d)
  | Some identity =>
      let key := claim_key configuration identity in
      match claim key (claim_policy configuration identity) (unix_milliseconds now) d with
      | (Ok Claimed, d) => (Ok (Some (mk_guard (Some key) (unix_milliseconds now))), d)
      | (Ok (Duplicate InFlight), d) => (Err (response_retryable 503 (str "delivery_in_flight") 1), d)
      | (Ok (Duplicate Completed), d) | (Ok (Duplicate Unknown), d) =>
          (Err (response_success (cfg_success_status configuration)), d)
      | (Err DedupCapacityExhausted, d) => (Err (retryable (str "dedup_capacity")), d)
      | (Err DedupNotFound, d) | (Err DedupInvalidTransition, d) | (Err DedupUnavailable, d) =>
          (Err (retryable (str "dedup_store_unavailable")), d)
      end
  end.

(** The checks of [prepare] before the rate limit. *)
Definition prepare_verify (route : WebhookRoute V) (request : VerificationRequest) (now : WebhookIngressTime)
    : result WebhookIngressResponse (option TrustedDeliveryIdentity) :=
  if negb (bool_decide (request_method request = METHOD_POST)) then Err (response_error 405 (str "method_not_allowed"))
  else
    now_unix_seconds ← ok_or (try_i64 (unix_milliseconds now / 1000)) (retryable (str "clock_unavailable"));
    verified ← map_err (fun e => match e with
        | VerificationRejected => response_error 401 (str "authentication_rejected")
        | VerificationUnavailable => retryable (str "verification_unavailable")
        end) (verify (route_verifier route) request now_unix_seconds);
    if bool_decide (identity_guarantee (route_verifier route) = IdentityRequired)
       && bool_decide (result_identity verified = None)
    then Err (retryable (str "verification_unavailable"))
    else if bool_decide (identity_guarantee (route_verifier route) = IdentityNever)
       && negb (bool_decide (result_identity verified = None))
    then Err (retryable (str "verification_unavailable"))
    else Ok (result_identity verified).

(** The checks of [prepare] between the rate limit and the claim: the capability's input. *)
Definition prepare_input (route : WebhookRoute V) (request : VerificationRequest) : result WebhookIngressResponse Value :=
  if negb (has_json_content_type request CONTENT_TYPE) then Err (response_error 415 (str "unsupported_media_type"))
  else map_payload from_slice (cfg_mapping (route_configuration route)) request (cfg_limits (route_configuration route)).

(** [WebhookRoute::prepare]; [generated] is the answer of the identifier generator. *)
Definition prepare (route : WebhookRoute V) (request : VerificationRequest) (now : WebhookIngressTime)
    (generated : result InvocationIdGenerationError InvocationId) c
    : result WebhookIngressResponse WebhookDispatch * WebhookIngressContext S D :=
  let configuration := route_configuration route in
  match prepare_verify route request now with
  | Err response => (Err response, c)
  | Ok identity =>
      let '(admission, limiter) :=
        limiter_admit (ctx_limiter c) (principal_id (cfg_principal configuration)) (monotonic_milliseconds now) in
      let c := with_limiter c limiter in
      match admission with
      | AdmissionLimited retry_after => (Err (response_retryable 429 (str "rate_limited") retry_after), c)
      | AdmissionAllowed =>
          match prepare_input route request with
          | Err response => (Err response, c)
          | Ok input =>
              match prepare_claim configuration identity now (ctx_store c) with
              | (Err response, d) => (Err response, with_store c d)
              | (Ok claim, d) =>
                  match generated with
                  | Err _ =>
                      match claim with
                      | None => (Err (retryable (str "identifier_generation_unavailable")), with_store c d)
                      | Some g =>
                          let '(released, g, d) := DedupGuard_release g d in
                          let response := if released then retryable (str "identifier_generation_unavailable")
                                          else retryable (str "dedup_store_unavailable") in
                          (Err response, with_store c (DedupGuard_drop g d))
                      end
                  | Ok id =>
                      let invocation := mk_invocation id (route_adapter route) (cfg_principal configuration)
                        (cfg_capability configuration) input in
                      (Ok (mk_webhook_dispatch invocation claim (cfg_success_status configuration)), with_store c d)
                  end
              end
          end
      end
  end.

(** [WebhookRoute::begin]. *)
Definition begin (route : WebhookRoute V) (request : VerificationRequest) (now : WebhookIngressTime)
    (generated : result InvocationIdGenerationError InvocationId) c
    : result WebhookIngressResponse WebhookDispatch * WebhookIngressContext S D :=
  prepare route request now generated c.

(** *** Completing a dispatch *)

(** What [complete] does with the claim once the result is known. *)
Definition commit_claim (result : result DispatchError Value) (claim : option DedupGuard) d
    : bool * option DedupGuard * D :=
  match claim with
  | None => (true, None, d)
  | Some g =>
      let '(ok, g, d) :=
        match result with
        | Err (DispatchAudit _) => DedupGuard_mark_unknown g d
        | Err (DispatchCapabilityNotFound _) | Err (DispatchAccessDenied _) | Err DispatchInvalidInput =>
            DedupGuard_release g d
        | _ => DedupGuard_complete g d
        end in
      (ok, Some g, d)
  end.

Definition result_response (result : result DispatchError Value) (success_status : Z) : WebhookIngressResponse :=
  match result with
  | Ok _ => response_success success_status
  | Err (DispatchCapabilityNotFound _) | Err (DispatchAccessDenied NotGranted) =>
      response_error 404 (str "route_unavailable")
  | Err DispatchInvalidInput => response_error 422 (str "invalid_input")
  | Err (DispatchHandler _) => response_error 422 (str "capability_failed")
  | Err (DispatchAccessDenied PolicyUnavailable) => retryable (str "policy_unavailable")
  | Err (DispatchAudit _) => retryable (str "audit_unavailable")
  end.

(** [WebhookDispatch::complete] after its future has resolved to [result]; the claim is
    dropped with the dispatch when it returns. *)
Definition finish_dispatch (w : WebhookDispatch) (result : result DispatchError Value) d : WebhookIngressResponse * D :=
  let '(persistence_succeeded, claim, d) := commit_claim result (wd_claim w) d in
  let response := if persistence_succeeded then result_response result (wd_success_status w)
                  else retryable (str "dedup_store_unavailable") in
  (response, drop_claim claim d).

Definition WebhookDispatch_complete (w : WebhookDispatch) c : WebhookIngressResponse * WebhookIngressContext S D :=
  let '(result, service) := service_dispatch (wd_invocation w) (ctx_service c) in
  let c := with_service c service in
  let '(response, d) := finish_dispatch w result (ctx_store c) in
  (response, with_store c d).

(** [WebhookRoute::handle]. *)
Definition handle (route : WebhookRoute V) (request : VerificationRequest) (now : WebhookIngressTime)
    (generated : result InvocationIdGenerationError InvocationId) c
    : WebhookIngressResponse * WebhookIngressContext S D :=
  match begin route request now generated c with
  | (Ok dispatch, c) => WebhookDispatch_complete dispatch c
  | (Err response, c) => (response, c)
  end.
End route.

(** ** The rate limit holds over every window *)

Section limiter.
Implicit Types (l : AuthenticatedRequestLimiter) (p : PrincipalId) (h : list (PrincipalId * Z)).

Definition limiter_clock l : Z := last_monotonic_milliseconds (limiter_state l).
Definition queue l p : list Z := default [] (principals (limiter_state l) !! p).

(** A history of requests: who asked when, with the admitted ones and the time the limiter
    gave them, which never goes back. *)
Fixpoint limiter_run l (requests : list (PrincipalId * Z)) : list (PrincipalId * Z) * AuthenticatedRequestLimiter :=
  match requests with
  | [] => ([], l)
  | (p, now) :: requests =>
      let at_ := Z.max now (limiter_clock l) in
      let '(admission, l) := limiter_admit l p now in
      let '(h, l) := limiter_run l requests in
      (match admission with AdmissionAllowed => (p, at_) :: h | AdmissionLimited _ => h end, l)
  end.

Definition times p h : list Z := (filter (fun x => x.1 = p) h).*2.
Definition in_window (w : Z) (ts : list Z) : nat := length (filter (fun t => w < t <= w + WINDOW_MILLISECONDS) ts).

Lemma times_app p h h' : times p (h ++ h') = times p h ++ times p h'.
Proof. unfold times. by rewrite filter_app, fmap_app. Qed.

Lemma times_one p q t : times p [(q, t)] = if decide (q = p) then [t] else [].
Proof. unfold times. rewrite filter_cons. simpl. by case_decide. Qed.

Lemma in_window_app w ts us : in_window w (ts ++ us) = (in_window w ts + in_window w us)%nat.
Proof. unfold in_window. by rewrite filter_app, length_app. Qed.

Lemma in_window_le w ts : (in_window w ts <= length ts)%nat.
Proof. apply length_filter. Qed.

Lemma in_window_none w ts : Forall (fun t => ~ (w < t <= w + WINDOW_MILLISECONDS)) ts -> in_window w ts = 0%nat.
Proof. unfold in_window. induction 1 as [|t ts Ht _ IH]; [done|]. by rewrite filter_cons, decide_False. Qed.

Lemma pop_expired_split cutoff ts :
  exists dropped, ts = dropped ++ pop_expired cutoff ts /\ Forall (fun t => t <= cutoff) dropped.
Proof.
  induction ts as [|t ts (dropped & Hts & Hd)]; simpl; [by exists []|].
  destruct (Z.leb_spec t cutoff).
  - exists (t :: dropped). simpl. split; [congruence|by constructor].
  - exists []. done.
Qed.

Lemma pop_expired_head cutoff ts t r : pop_expired cutoff ts = t :: r -> cutoff < t.
Proof. induction ts as [|u ts IH]; simpl; [done|]. destruct (Z.leb_spec u cutoff); [done|]. by intros [= <- _]. Qed.

(** What was admitted and is no longer in the queue is older than a window. *)
Record limiter_inv (rate : Z) h l : Prop := {
  li_rate : requests_per_minute l = rate;
  li_positive : 1 <= rate;
  li_clock : 0 <= limiter_clock l;
  li_queue p : exists popped, times p h = popped ++ queue l p /\
    Forall (fun t => t <= sat_sub (limiter_clock l) WINDOW_MILLISECONDS) popped;
  li_length p : Z.of_nat (length (queue l p)) <= rate;
  li_past p : Forall (fun t => 0 <= t <= limiter_clock l) (queue l p);
  li_window p w : 0 <= w -> Z.of_nat (in_window w (times p h)) <= rate;
}.

Lemma limiter_inv_new rate l : 0 <= rate -> AuthenticatedRequestLimiter_new rate = Ok l -> limiter_inv rate [] l.
Proof.
  intros Hpos. unfold AuthenticatedRequestLimiter_new. destruct (_ || _) eqn:Hb; [done|]. intros [= <-]. bools.
  split; try done; try lia; intros p. by exists [].
Qed.

(** The queue after the expired entries were popped. *)
Lemma popped_queue rate h l p now :
  limiter_inv rate h l -> 0 <= now ->
  let now := Z.max now (limiter_clock l) in
  let q := pop_expired (sat_sub now WINDOW_MILLISECONDS) (queue l p) in
  (exists popped, times p h = popped ++ q /\ Forall (fun t => t <= sat_sub now WINDOW_MILLISECONDS) popped) /\
  (length q <= length (queue l p))%nat /\ Forall (fun t => 0 <= t <= now) q.
Proof.
  intros Hinv Hnow. set (now' := Z.max now (limiter_clock l)). cbv zeta.
  destruct (li_queue _ _ _ Hinv p) as (popped & Ht & Hp).
  destruct (pop_expired_split (sat_sub now' WINDOW_MILLISECONDS) (queue l p)) as (dropped & Hq & Hd).
  pose proof (li_past _ _ _ Hinv p) as Hpast. rewrite Hq in Hpast. apply Forall_app in Hpast as [_ Hpast].
  split_and!.
  - exists (popped ++ dropped). rewrite Ht, Hq, (assoc_L (++)) at 1. split.
    + by rewrite <-!(assoc_L (++)), <-Hq.
    + apply Forall_app. split; [|done]. eapply Forall_impl; [exact Hp|]. intros t. unfold sat_sub. simpl. lia.
  - rewrite Hq at 2. rewrite length_app. lia.
  - eapply Forall_impl; [exact Hpast|]. simpl. lia.
Qed.

Lemma queue_insert l p q ts now rate :
  queue (mk_limiter rate (mk_limiter_state now (<[p := ts]> (principals (limiter_state l))))) q =
  if decide (q = p) then ts else queue l q.
Proof.
  unfold queue. cbn [limiter_state principals]. case_decide as Hq; [subst; by rewrite lookup_insert_eq|].
  by rewrite lookup_insert_ne.
Qed.

(** Popping more of the past keeps what the invariant says of the other principals. *)
Lemma inv_later rate h l p now :
  limiter_inv rate h l -> limiter_clock l <= now ->
  (exists popped, times p h = popped ++ queue l p /\ Forall (fun t => t <= sat_sub now WINDOW_MILLISECONDS) popped) /\
  Forall (fun t => 0 <= t <= now) (queue l p).
Proof.
  intros Hinv Hnow. split.
  - destruct (li_queue _ _ _ Hinv p) as (popped & Ht & Hp). exists popped. split; [done|].
    eapply Forall_impl; [exact Hp|]. intros t. unfold sat_sub. simpl. lia.
  - eapply Forall_impl; [apply (li_past _ _ _ Hinv p)|]. simpl. lia.
Qed.

(** In a window that contains the present, only the queue counts. *)
Lemma window_now w now (popped q : list Z) :
  0 <= w -> now <= w + WINDOW_MILLISECONDS -> Forall (fun t => t <= sat_sub now WINDOW_MILLISECONDS) popped ->
  (in_window w (popped ++ q) <= length q)%nat.
Proof.
  intros Hw Hnow Hp. rewrite in_window_app, in_window_none; [apply in_window_le|].
  eapply Forall_impl; [exact Hp|]. intros t. unfold sat_sub. simpl. lia.
Qed.

Lemma limiter_admit_inv rate h l p now :
  limiter_inv rate h l -> 0 <= now ->
  let '(admission, l') := limiter_admit l p now in
  limiter_inv rate (h ++ match admission with
    | AdmissionAllowed => [(p, Z.max now (limiter_clock l))] | AdmissionLimited _ => [] end) l'.
Proof.
  intros Hinv Hnow. pose proof (popped_queue rate h l p now Hinv Hnow) as Hq. cbv zeta in Hq.
  unfold limiter_admit. fold (limiter_clock l) (queue l p). cbv zeta.
  set (now' := Z.max now (limiter_clock l)) in *.
  set (q := pop_expired (sat_sub now' WINDOW_MILLISECONDS) (queue l p)) in *.
  destruct Hq as ((popped & Ht & Hp) & Hl & Hpast). pose proof (li_length _ _ _ Hinv p) as Hlen.
  pose proof (li_positive _ _ _ Hinv). pose proof (li_clock _ _ _ Hinv).
  rewrite (li_rate _ _ _ Hinv). destruct (Z.leb_spec rate (Z.of_nat (length q))) as [Hfull|Hroom].
  - rewrite app_nil_r. split; try done; unfold limiter_clock; cbn [limiter_state last_monotonic_milliseconds]; [lia|..].
    + intros x. rewrite queue_insert. case_decide; [subst; eauto|]. apply (inv_later rate h l x now' Hinv). lia.
    + intros x. rewrite queue_insert. case_decide; [lia|]. apply (li_length _ _ _ Hinv).
    + intros x. rewrite queue_insert. case_decide; [done|]. apply (inv_later rate h l x now' Hinv). lia.
    + apply (li_window _ _ _ Hinv).
  - split; try done; unfold limiter_clock; cbn [limiter_state last_monotonic_milliseconds]; [lia|..].
    + intros x. rewrite queue_insert, times_app, times_one. case_decide; case_decide; subst; try done.
      * exists popped. by rewrite Ht, <-(assoc_L (++)).
      * rewrite app_nil_r. apply (inv_later rate h l x now' Hinv). lia.
    + intros x. rewrite queue_insert. case_decide; [rewrite length_app; simpl; lia|]. apply (li_length _ _ _ Hinv).
    + intros x. rewrite queue_insert. case_decide.
      * apply Forall_app. split; [done|]. constructor; [lia|constructor].
      * apply (inv_later rate h l x now' Hinv). lia.
    + intros x w Hw. rewrite times_app, times_one. case_decide as Hx; [subst x|rewrite app_nil_r; by apply (li_window _ _ _ Hinv)].
      destruct (decide (w < now' <= w + WINDOW_MILLISECONDS)) as [Hin|Hout].
      * rewrite Ht, <-(assoc_L (++)). pose proof (window_now w now' popped (q ++ [now']) Hw) as Hc.
        rewrite length_app in Hc. specialize (Hc ltac:(lia) Hp). simpl in Hc. lia.
      * rewrite in_window_app, (in_window_none w [now']) by (by constructor).
        rewrite Nat.add_0_r. by apply (li_window _ _ _ Hinv).
Qed.

Lemma limiter_run_inv rate h l requests :
  limiter_inv rate h l -> Forall (fun r => 0 <= r.2) requests ->
  let '(h', l') := limiter_run l requests in limiter_inv rate (h ++ h') l'.
Proof.
  intros Hinv Hr. revert h l Hinv. induction Hr as [|[p now] requests Hnow _ IH]; intros h l Hinv; cbn [limiter_run].
  - by rewrite app_nil_r.
  - pose proof (limiter_admit_inv rate h l p now Hinv Hnow) as Hstep.
    destruct (limiter_admit l p now) as [admission l1]. specialize (IH _ _ Hstep).
    destruct (limiter_run l1 requests) as [h' l']. destruct admission; [|by rewrite app_nil_r in IH].
    by rewrite <-(assoc_L (++)) in IH.
Qed.

Lemma retry_after_bounds x :
  0 < x <= WINDOW_MILLISECONDS -> 1 <= Z.max 1 (div_ceil x 1000) <= 60 /\ x <= Z.max 1 (div_ceil x 1000) * 1000.
Proof.
  unfold WINDOW_MILLISECONDS, div_ceil. intros Hx. pose proof (Z.div_mod (x + 1000 - 1) 1000).
  pose proof (Z.mod_pos_bound (x + 1000 - 1) 1000). lia.
Qed.

(** Waiting as long as the limiter asked makes room. *)
Lemma limited_then_allowed rate h l p now retry_after l' later :
  limiter_inv rate h l -> 0 <= now -> Z.max now (limiter_clock l) + WINDOW_MILLISECONDS <= U64_MAX ->
  limiter_admit l p now = (AdmissionLimited retry_after, l') ->
  1 <= retry_after <= 60 /\
  (Z.max now (limiter_clock l) + retry_after * 1000 <= later -> (limiter_admit l' p later).1 = AdmissionAllowed).
Proof.
  intros Hinv Hnow Hmax. pose proof (popped_queue rate h l p now Hinv Hnow) as Hq. cbv zeta in Hq.
  pose proof (li_positive _ _ _ Hinv). pose proof (li_clock _ _ _ Hinv).
  pose proof (li_length _ _ _ Hinv p) as Hlen.
  unfold limiter_admit at 1. fold (limiter_clock l) (queue l p). cbv zeta.
  set (now' := Z.max now (limiter_clock l)) in *.
  destruct Hq as (_ & Hl & Hpast). rewrite (li_rate _ _ _ Hinv).
  destruct (Z.leb_spec rate (Z.of_nat (length (pop_expired (sat_sub now' WINDOW_MILLISECONDS) (queue l p))))); [|done].
  destruct (pop_expired (sat_sub now' WINDOW_MILLISECONDS) (queue l p)) as [|oldest q] eqn:Hpop; [simpl in *; lia|].
  apply pop_expired_head in Hpop. apply Forall_cons in Hpast as [Hold _]. intros [= <- <-].
  assert (sat_sub (sat_add U64_MAX oldest WINDOW_MILLISECONDS) now' = oldest + WINDOW_MILLISECONDS - now') as ->.
  { unfold sat_sub, sat_add in *. lia. }
  assert (0 < oldest + WINDOW_MILLISECONDS - now' <= WINDOW_MILLISECONDS) as Hx by (unfold sat_sub in Hpop; lia).
  pose proof (retry_after_bounds _ Hx) as Hra. split; [lia|]. intros Hlater.
  unfold limiter_admit. cbn [limiter_state last_monotonic_milliseconds principals requests_per_minute].
  rewrite lookup_insert_eq. change (default [] (Some (oldest :: q))) with (oldest :: q). cbn [pop_expired].
  rewrite (proj2 (Z.leb_le oldest _)) by (unfold sat_sub; lia).
  destruct (pop_expired_split (sat_sub (Z.max later now') WINDOW_MILLISECONDS) q) as (dropped & Hq & _).
  apply (f_equal length) in Hq. rewrite length_app in Hq. simpl in Hl.
  destruct (Z.leb_spec rate (Z.of_nat (length (pop_expired (sat_sub (Z.max later now') WINDOW_MILLISECONDS) q)))); [lia|done].
Qed.

(** the authenticated rate limit.  Whatever requests arrive, by whom and in whatever order
    of clock readings, in every window of a minute at most the configured number of requests
    of a principal is admitted; the minute is measured on the limiter's clock, which never
    goes back.  A limited request is told to wait between 1 and 60 seconds, and a request of
    that principal after that wait is admitted. *)
Theorem authenticated_rate_bounded rate limiter requests p w :
  0 <= rate -> AuthenticatedRequestLimiter_new rate = Ok limiter -> Forall (fun r => 0 <= r.2) requests -> 0 <= w ->
  let '(admitted, l) := limiter_run limiter requests in
  Z.of_nat (in_window w (times p admitted)) <= rate /\
  forall now retry_after l', 0 <= now -> Z.max now (limiter_clock l) + WINDOW_MILLISECONDS <= U64_MAX ->
    limiter_admit l p now = (AdmissionLimited retry_after, l') ->
    1 <= retry_after <= 60 /\
    forall later, Z.max now (limiter_clock l) + retry_after * 1000 <= later ->
      (limiter_admit l' p later).1 = AdmissionAllowed.
Proof.
  intros Hrate Hnew Hr Hw. pose proof (limiter_inv_new rate limiter Hrate Hnew) as Hinv.
  pose proof (limiter_run_inv rate [] limiter requests Hinv Hr) as Hrun.
  destruct (limiter_run limiter requests) as [admitted l]. simpl in Hrun. split.
  - by apply (li_window _ _ _ Hrun).
  - intros now retry_after l' Hnow Hmax Hlim. split.
    + by apply (limited_then_allowed rate admitted l p now retry_after l' 0 Hrun Hnow Hmax Hlim).
    + intros later Hlater. by apply (limited_then_allowed rate admitted l p now retry_after l' later Hrun Hnow Hmax Hlim).
Qed.

(** Requests in the first millisecond of the monotonic clock are not counted: the cutoff of
    the window saturates at 0 and takes their entries away with the next request. *)
Lemma first_millisecond_unlimited rate limiter p n :
  0 <= rate -> AuthenticatedRequestLimiter_new rate = Ok limiter ->
  length (limiter_run limiter (replicate n (p, 0))).1 = n.
Proof.
  intros Hrate. unfold AuthenticatedRequestLimiter_new. destruct (_ || _) eqn:Hb; [done|]. intros [= <-]. bools.
  assert (forall qs, (qs = [] \/ qs = [0]) -> forall m, default [] (m !! p) = qs ->
    length (limiter_run (mk_limiter rate (mk_limiter_state 0 m)) (replicate n (p, 0))).1 = n) as Hrun;
    [|apply (Hrun []); [by left|]; by rewrite lookup_empty].
  induction n as [|n IH]; intros qs Hqs m Hm; [done|]. cbn [replicate limiter_run].
  unfold limiter_admit. cbn [limiter_state principals last_monotonic_milliseconds requests_per_minute]. rewrite Hm.
  assert (pop_expired (sat_sub (Z.max 0 0) WINDOW_MILLISECONDS) qs = []) as -> by (by destruct Hqs as [-> | ->]).
  destruct (Z.leb_spec rate (Z.of_nat (length (@nil Z)))); [simpl in *; lia|].
  specialize (IH [0] (or_intror eq_refl) (<[p := [0]]> m)). rewrite lookup_insert_eq in IH. specialize (IH eq_refl).
  change ([] ++ [Z.max 0 0]) with [0]. change (Z.max 0 0) with 0.
  destruct (limiter_run _ _) as [h l]. simpl in *. by f_equal.
Qed.
End limiter.

(** ** Counting JSON values ends *)

Lemma string_end_shorter input rest : string_end input = Some rest -> (length rest < length input)%nat.
Proof.
  remember (length input) as n eqn:Hn. assert (length input <= n)%nat as Hle by lia. rewrite Hn. clear Hn.
  revert input Hle. induction n as [|n IH]; intros [|b input] Hle; cbn [string_end length] in *; try done; [lia|].
  destruct (b =? 34); [by intros [= ->]; lia|]. destruct (b =? 92).
  - destruct input as [|c input]; [done|]. simpl in *. intros ?%IH; lia.
  - intros ?%IH; lia.
Qed.

Lemma skip_word_shorter input : (length (skip_word input) <= length input)%nat.
Proof. induction input as [|b input IH]; simpl; [lia|]. case_match; simpl; lia. Qed.

Lemma count_loop_fuel fuel extra input count :
  (length input <= fuel)%nat -> count_loop (fuel + extra) input count = count_loop fuel input count.
Proof.
  revert input count. induction fuel as [|fuel IH]; intros [|b input] count Hle; simpl in Hle; try lia.
  { by destruct extra. } { done. }
  cbn [count_loop Nat.add].
  destruct (is_separator b); [apply IH; lia|]. destruct (_ || _).
  - destruct (checked_add count 1); [|done]. apply IH. lia.
  - destruct (b =? 34).
    + destruct (checked_add count 1); [|done]. cbn. destruct (string_end input) as [rest|] eqn:Hs; [|done].
      apply string_end_shorter in Hs. apply IH. lia.
    + destruct (checked_add count 1); [|done]. apply IH. pose proof (skip_word_shorter input). lia.
Qed.

(** ** What a route was checked for *)

Lemma elem_of_push_unique_from (acc names : list HeaderName) (name : HeaderName) :
  name ∈ foldl (fun selected name => if decide (name ∈ selected) then selected else selected ++ [name]) acc names <->
  name ∈ acc \/ name ∈ names.
Proof.
  revert acc. induction names as [|n names IH]; intros acc; simpl.
  - rewrite elem_of_nil. tauto.
  - rewrite IH. case_decide; [|rewrite elem_of_app, list_elem_of_singleton]; rewrite elem_of_cons; naive_solver.
Qed.

Lemma elem_of_push_unique names name : name ∈ push_unique names <-> name ∈ names.
Proof. unfold push_unique. rewrite elem_of_push_unique_from, elem_of_nil. tauto. Qed.

Lemma NoDup_push_unique names : NoDup (push_unique names).
Proof.
  assert (forall acc, NoDup acc -> NoDup (foldl (fun selected (name : HeaderName) =>
    if decide (name ∈ selected) then selected else selected ++ [name]) acc names)) as Hall; [|apply Hall; constructor].
  induction names as [|n names IH]; intros acc Hacc; simpl; [done|].
  apply IH. case_decide as Hd; [done|]. apply NoDup_app. split_and!; [done| |apply NoDup_singleton].
  intros x Hx ->%list_elem_of_singleton. done.
Qed.

Lemma collect_metadata_names request names metadata m :
  collect_metadata request names metadata = Ok m -> forall name, is_Some (m !! name) -> is_Some (metadata !! name) \/ name ∈ names.
Proof.
  revert metadata. induction names as [|n names IH]; intros metadata; cbn [collect_metadata].
  - intros [= <-]. auto.
  - intros (values & _ & Hrest)%result_bind_Ok name Hname. destruct (IH _ Hrest name Hname) as [Hm|Hin]; [|right; by constructor].
    case_decide; [by left|]. destruct (decide (n = name)) as [-> |Hne]; [right; by constructor|].
    rewrite lookup_insert_ne in Hm by done. by left.
Qed.

Section route_facts.
Context {Validator S D V : Type} `{AutomationService Validator S} `{DedupStore D} `{WebhookVerifier V}.

Lemma existsb_false_iff {A} (f : A -> bool) l : existsb f l = false <-> forall x, x ∈ l -> f x = false.
Proof. rewrite existsb_false, Forall_forall. done. Qed.

Lemma route_headers_sound mapping (verifier : V) selected :
  route_headers mapping verifier = Ok selected ->
  NoDup selected /\ Z.of_nat (length selected) <= MAX_SELECTED_HEADERS /\
  (forall name, name ∈ selected <-> name ∈ selected_headers verifier \/ name = CONTENT_TYPE \/ name ∈ mapping_headers mapping) /\
  (forall name, name ∈ credential_headers verifier -> name ∈ selected_headers verifier /\ name ∉ mapping_headers mapping).
Proof.
  unfold route_headers. destruct (bool_decide (NoDup _)) eqn:Hd; [|done]. cbn [negb].
  destruct (Z.ltb_spec MAX_SELECTED_HEADERS (Z.of_nat (length (push_unique (selected_headers verifier ++ [CONTENT_TYPE] ++ mapping_headers mapping)))));
    [done|].
  destruct (existsb _ (credential_headers verifier)) eqn:Hc; [done|].
  destruct (existsb _ (mapping_headers mapping)) eqn:Hm; [done|]. intros [= <-].
  rewrite existsb_false_iff in Hc. rewrite existsb_false_iff in Hm.
  split_and!; [apply NoDup_push_unique|done| |].
  - intros name. rewrite elem_of_push_unique, elem_of_app. cbn [app]. rewrite elem_of_cons. tauto.
  - intros name Hname. split.
    + apply Hc, negb_false_iff, bool_decide_eq_true in Hname. done.
    + intros Hin. apply Hm in Hin. rewrite existsb_false_iff in Hin. apply Hin, bool_decide_eq_false in Hname. done.
Qed.

(** The metadata of an envelope never carries a credential header. *)
Lemma map_payload_metadata from_slice mapping request limits input entries body :
  map_payload from_slice mapping request limits = Ok input ->
  mapping <> JsonBody -> input = JObject [(str "body", body); (str "metadata", JObject entries)] ->
  forall name, name ∈ entries.*1 -> name ∈ mapping_headers mapping.
Proof.
  unfold map_payload. destruct (_ <? _); [done|]. intros (charge & _ & Hr)%result_bind_Ok. destruct (_ <? charge); [done|].
  apply result_bind_Ok in Hr as (b & _ & Hr). destruct mapping as [|headers]; [done|]. intros _ ->.
  apply result_bind_Ok in Hr as (metadata & Hm & Heq). injection Heq as -> <-. intros name Hname.
  change ((btree_iter metadata).*1) with (btree_keys metadata) in Hname. apply elem_of_btree_keys in Hname.
  destruct (collect_metadata_names _ _ _ _ Hm name Hname) as [Hn|]; [|done]. rewrite lookup_empty in Hn. by destruct Hn.
Qed.

End route_facts.
