(* ===== verification/IngressProps.v ===== *)
(** * IngressProps: what webhook ingress guarantees

    Requests, dispatches, dropped futures, crashes, restarts and administration interleave in
    any order; the steps are those of [WebhookIngress] over any store that keeps the contract
    of [Dedup] and any service that keeps the contract of [Service].  A handler runs at most
    once for a delivery, unless its claim was taken away, and what a sender is told is
    true. *)

From S2P Require Import Prelude Text Bytes Crypto HttpLib Secrets Identifiers Json Capability Policy Dispatch DeliveryStore Sqlite Dedup SqlDedup WebhookVerify Service WebhookIngress.

Section ingress.
Context {Validator S H D V : Type} `{SV : AutomationServiceSpec Validator S H} `{SD : DedupStoreSpec D}
  `{VV : WebhookVerifierSpec V}.
Variable from_slice : list byte -> option Value.
Implicit Types (c : WebhookIngressContext S D) (d : D) (k : DedupKey).

(** ** The system *)

(** A dispatch between [begin] and its end; [pending_result] is the answer of the service
    once the future has resolved. *)
Record Pending := mk_pending { pending_dispatch : WebhookDispatch; pending_result : option (result DispatchError Value) }.

(** [ig_runs] lists the claims under which a handler was started. *)
Record Ingress := mk_ingress {
  ig_context : WebhookIngressContext S D;
  ig_pending : gmap nat Pending;
  ig_next : nat;
  ig_runs : list DedupKey;
}.

Inductive IngressStep :=
| StepBegin (route : WebhookRoute V) (request : VerificationRequest) (now : WebhookIngressTime)
    (generated : result InvocationIdGenerationError InvocationId)
| StepDispatch (i : nat)
| StepFinish (i : nat)
| StepDrop (i : nat)
| StepCrash
| StepRecover (at_ : Z)
| StepResolve (key : DedupKey) (resolution : DedupResolution) (at_ : Z)
| StepClear (cutoff : Z)
| StepService (s : S).

Definition held_key (p : Pending) : option DedupKey := wd_claim (pending_dispatch p) ≫= guard_key.

Definition on_store (f : D -> D) (g : Ingress) : Ingress :=
  mk_ingress (with_store (ig_context g) (f (ctx_store (ig_context g)))) (ig_pending g) (ig_next g) (ig_runs g).

Definition forget (i : nat) (g : Ingress) : Ingress :=
  mk_ingress (ig_context g) (delete i (ig_pending g)) (ig_next g) (ig_runs g).

Definition ingress_step (s : IngressStep) (g : Ingress) : Ingress :=
  match s with
  | StepBegin route request now generated =>
      match begin from_slice route request now generated (ig_context g) with
      | (Err _, c) => mk_ingress c (ig_pending g) (ig_next g) (ig_runs g)
      | (Ok w, c) =>
          mk_ingress c (<[ig_next g := mk_pending w None]> (ig_pending g)) (ig_next g + 1) (ig_runs g)
      end
  | StepDispatch i =>
      match ig_pending g !! i with
      | Some (mk_pending w None) =>
          let service := ctx_service (ig_context g) in
          let '(r, service') := service_dispatch (wd_invocation w) service in
          let started := bool_decide (handler_runs service' <> handler_runs service) in
          mk_ingress (with_service (ig_context g) service')
            (<[i := mk_pending w (Some r)]> (ig_pending g)) (ig_next g)
            (match held_key (mk_pending w None) with
             | Some k => if started then k :: ig_runs g else ig_runs g
             | None => ig_runs g
             end)
      | _ => g
      end
  | StepFinish i =>
      match ig_pending g !! i with
      | Some (mk_pending w (Some r)) => forget i (on_store (fun d => (finish_dispatch w r d).2) g)
      | _ => g
      end
  | StepDrop i =>
      match ig_pending g !! i with
      | Some p => forget i (on_store (drop_claim (wd_claim (pending_dispatch p))) g)
      | None => g
      end
  | StepCrash => mk_ingress (ig_context g) ∅ (ig_next g) (ig_runs g)
  | StepRecover at_ => on_store (fun d => (recover_in_flight at_ d).2) g
  | StepResolve key resolution at_ => on_store (fun d => (resolve_unknown key resolution at_ d).2) g
  | StepClear cutoff => on_store (fun d => (clear_completed_before cutoff d).2) g
  | StepService s => mk_ingress (with_service (ig_context g) s) (ig_pending g) (ig_next g) (ig_runs g)
  end.

Definition ingress_run (steps : list IngressStep) (g : Ingress) : Ingress := foldl (fun g s => ingress_step s g) g steps.

(** Times are [u64]; a route has a checked identifier and a verifier in order. *)
Definition u64_time (t : Z) : Prop := 0 <= t <= U64_MAX.
Definition step_wf (s : IngressStep) : Prop :=
  match s with
  | StepBegin route _ now _ =>
      RouteId_new (as_str (cfg_id (route_configuration route))) = Ok (cfg_id (route_configuration route)) /\
      verifier_ok (route_verifier route) /\ u64_time (unix_milliseconds now)
  | StepRecover at_ | StepResolve _ _ at_ => u64_time at_
  | _ => True
  end.

(** Every request that would claim [k] asks the store to retain the claim: the route is not
    idempotent and the identity carries no signed timestamp. *)
Definition retains k (s : IngressStep) : Prop :=
  match s with
  | StepBegin route request now _ => forall identity,
      prepare_verify route request now = Ok (Some identity) ->
      claim_key (route_configuration route) identity = k ->
      claim_policy (route_configuration route) identity = RetainCompleted
  | _ => True
  end.

Definition claim_at k (g : Ingress) : option DedupEntry := dedup_view (ctx_store (ig_context g)) !! k.

(** The administrator took the claim away: allowed the delivery to run again, or cleared
    completed claims. *)
Definition reopens k (s : IngressStep) (g : Ingress) : bool :=
  match s with StepResolve key ResolveRetryAllowed _ => bool_decide (key = k) | StepClear _ => true | _ => false end &&
  bool_decide (is_Some (claim_at k g)) && bool_decide (claim_at k (ingress_step s g) = None).

(** The claim was completed and made to expire, and the store gave it up to make room. *)
Definition lapses k (s : IngressStep) (g : Ingress) : bool :=
  match s, claim_at k g with
  | StepBegin _ _ _ _, Some e =>
      bool_decide (de_state e = Completed) && bool_decide (de_policy e = ExpireCompleted) &&
      negb (bool_decide (de_state <$> claim_at k (ingress_step s g) = Some Completed))
  | _, _ => false
  end.

Definition runs_of k (l : list DedupKey) : nat := length (filter (fun x => x = k) l).

(** How often something happens along a run. *)
Fixpoint happens (f : IngressStep -> Ingress -> bool) (steps : list IngressStep) (g : Ingress) : nat :=
  match steps with
  | [] => 0
  | s :: steps => (if f s g then 1 else 0) + happens f steps (ingress_step s g)
  end.
Definition reopened k := happens (reopens k).
Definition lapsed k := happens (lapses k).

(** ** The account of a claim *)

(** A pending dispatch may still start a handler under its claim, or give the claim back. *)
Definition owes k (p : Pending) : bool :=
  bool_decide (held_key p = Some k) && match pending_result p with None => true | Some r => refusal r end.
Definition owed k (m : gmap nat Pending) : nat := size (filter (fun x => owes k x.2 = true) m).

Definition holds k (m : gmap DedupKey DedupEntry) : nat := match m !! k with Some _ => 1 | None => 0 end.

Record claim_inv k (n : nat) (g : Ingress) : Prop := {
  ci_ok : dedup_ok (ctx_store (ig_context g));
  ci_fresh i : (ig_next g <= i)%nat -> ig_pending g !! i = None;
  ci_times i p gd : ig_pending g !! i = Some p -> wd_claim (pending_dispatch p) = Some gd -> u64_time (guard_updated_at gd);
  ci_account : (runs_of k (ig_runs g) + owed k (ig_pending g) <= holds k (dedup_view (ctx_store (ig_context g))) + n)%nat;
}.

Lemma owed_insert k m i p :
  m !! i = None -> owed k (<[i := p]> m) = (owed k m + if owes k p then 1 else 0)%nat.
Proof.
  intros Hi. unfold owed. destruct (owes k p) eqn:Hp.
  - rewrite map_filter_insert_True by done. rewrite map_size_insert_None; [lia|].
    apply map_lookup_filter_None. by left.
  - rewrite map_filter_insert_not' by (simpl; naive_solver congruence). lia.
Qed.

Lemma owed_delete k m i p : m !! i = Some p -> owed k m = (owed k (delete i m) + if owes k p then 1 else 0)%nat.
Proof.
  intros Hi. rewrite <-(insert_delete_id m i p) at 1 by done. apply owed_insert. apply lookup_delete_eq.
Qed.

Lemma owed_replace k m i p q :
  m !! i = Some p ->
  (owed k (<[i := q]> m) + (if owes k p then 1 else 0) = owed k m + if owes k q then 1 else 0)%nat.
Proof.
  intros Hi. rewrite (owed_delete k m i p Hi), <-insert_delete_eq.
  rewrite owed_insert by apply lookup_delete_eq. lia.
Qed.

(** ** What the store operations do to one claim *)

(** The claim of [k] is there as before, under the same policy. *)
Definition same_claim k (m m' : gmap DedupKey DedupEntry) : Prop := de_policy <$> m' !! k = de_policy <$> m !! k.

Lemma same_claim_trans k m1 m2 m3 : same_claim k m1 m2 -> same_claim k m2 m3 -> same_claim k m1 m3.
Proof. unfold same_claim. congruence. Qed.

Lemma same_claim_holds k m m' : same_claim k m m' -> holds k m' = holds k m.
Proof. unfold same_claim, holds. destruct (m !! k), (m' !! k); done. Qed.

Lemma moves_claim from key to m m' ok k :
  moves from key to m m' ok ->
  (forall e e', to e = Some e' -> de_policy e' = de_policy e) ->
  same_claim k m m' \/ key = k /\ m' !! k = None /\ exists e, m !! k = Some e /\ to e = None.
Proof.
  unfold same_claim. intros [[-> _]|(e & He & _ & ->)] Hto; [by left|].
  destruct (decide (key = k)) as [-> |Hne]; [|left; by rewrite lookup_partial_alter_ne].
  rewrite lookup_partial_alter_eq. destruct (to e) as [e'|] eqn:Ht; [left|right; eauto].
  rewrite He. simpl. f_equal. by apply Hto.
Qed.

Lemma moves_kept from key st t m m' ok k :
  moves from key (fun e => Some (with_state st t e)) m m' ok -> same_claim k m m'.
Proof.
  intros Hm. destruct (moves_claim _ _ _ _ _ _ k Hm) as [?|(_ & _ & e & _ & [=])]; [by intros e e' [= <-]|done].
Qed.

(** *** Claims of the guard *)

Lemma DedupGuard_drop_spec gd d k :
  dedup_ok d -> u64_time (guard_updated_at gd) ->
  dedup_ok (DedupGuard_drop gd d) /\ same_claim k (dedup_view d) (dedup_view (DedupGuard_drop gd d)).
Proof.
  intros Hok Ht. unfold DedupGuard_drop. destruct (guard_key gd) as [key|]; [|done].
  pose proof (mark_unknown_spec key (guard_updated_at gd) d Hok Ht) as Hs.
  destruct (mark_unknown _ _ d) as [r d']. destruct Hs as [Hok' Hm]. split; [done|]. by eapply moves_kept.
Qed.

Lemma drop_claim_spec claim d k :
  dedup_ok d -> (forall gd, claim = Some gd -> u64_time (guard_updated_at gd)) ->
  dedup_ok (drop_claim claim d) /\ same_claim k (dedup_view d) (dedup_view (drop_claim claim d)).
Proof. intros Hok Ht. destruct claim as [gd|]; [|done]. apply DedupGuard_drop_spec; auto. Qed.

Lemma DedupGuard_release_spec gd d k :
  dedup_ok d ->
  let '(_, gd', d') := DedupGuard_release gd d in
  dedup_ok d' /\ guard_updated_at gd' = guard_updated_at gd /\
  (same_claim k (dedup_view d) (dedup_view d') \/
   guard_key gd = Some k /\ dedup_view d' !! k = None /\ is_Some (dedup_view d !! k)).
Proof.
  intros Hok. unfold DedupGuard_release, guard_settle. destruct (guard_key gd) as [key|]; [|by split; [|split; [|left]]].
  pose proof (release_claim_spec key d Hok) as Hs. destruct (release_claim key d) as [r d'].
  destruct Hs as [Hok' Hm]. eapply (moves_claim _ _ _ _ _ _ k) in Hm; [|done].
  destruct r; (split_and!; [done|done|]); destruct Hm as [?|(-> & Hn & e1 & He & _)]; auto; right; eauto.
Qed.

Lemma guard_keep_spec op gd d k :
  dedup_ok d ->
  (forall key, let '(_, d') := op key d in dedup_ok d' /\ same_claim k (dedup_view d) (dedup_view d')) ->
  let '(_, gd', d') := guard_settle op gd d in
  dedup_ok d' /\ guard_updated_at gd' = guard_updated_at gd /\ same_claim k (dedup_view d) (dedup_view d').
Proof.
  intros Hok Hop. unfold guard_settle. destruct (guard_key gd) as [key|]; [|done].
  specialize (Hop key). destruct (op key d) as [[]?]; by destruct Hop.
Qed.

Lemma guard_complete_spec gd d k :
  dedup_ok d -> u64_time (guard_updated_at gd) ->
  let '(_, gd', d') := DedupGuard_complete gd d in
  dedup_ok d' /\ guard_updated_at gd' = guard_updated_at gd /\ same_claim k (dedup_view d) (dedup_view d').
Proof.
  intros Hok Ht. apply guard_keep_spec; [done|]. intros key.
  pose proof (complete_spec key (guard_updated_at gd) d Hok Ht) as Hs. destruct (complete _ _ d) as [r d'].
  destruct Hs as [? ?]. split; [done|]. by eapply moves_kept.
Qed.

Lemma guard_mark_unknown_spec gd d k :
  dedup_ok d -> u64_time (guard_updated_at gd) ->
  let '(_, gd', d') := DedupGuard_mark_unknown gd d in
  dedup_ok d' /\ guard_updated_at gd' = guard_updated_at gd /\ same_claim k (dedup_view d) (dedup_view d').
Proof.
  intros Hok Ht. apply guard_keep_spec; [done|]. intros key.
  pose proof (mark_unknown_spec key (guard_updated_at gd) d Hok Ht) as Hs. destruct (mark_unknown _ _ d) as [r d'].
  destruct Hs as [? ?]. split; [done|]. by eapply moves_kept.
Qed.

(** Finishing keeps the claim, unless the service refused and the claim is given back. *)
Lemma finish_dispatch_spec w r d k :
  dedup_ok d -> (forall gd, wd_claim w = Some gd -> u64_time (guard_updated_at gd)) ->
  let d' := (finish_dispatch w r d).2 in
  dedup_ok d' /\
  (same_claim k (dedup_view d) (dedup_view d') \/
   refusal r = true /\ held_key (mk_pending w None) = Some k /\ dedup_view d' !! k = None).
Proof.
  intros Hok Ht. unfold finish_dispatch, commit_claim, held_key. cbn [pending_dispatch].
  destruct (wd_claim w) as [gd|]; [|split; [done|by left]]. specialize (Ht gd eq_refl).
  pose proof (guard_complete_spec gd d k Hok Ht) as Hc. pose proof (guard_mark_unknown_spec gd d k Hok Ht) as Hu.
  pose proof (DedupGuard_release_spec gd d k Hok) as Hr.
  assert (forall ok gd' d', dedup_ok d' -> guard_updated_at gd' = guard_updated_at gd ->
    same_claim k (dedup_view d) (dedup_view d') \/
      refusal r = true /\ guard_key gd = Some k /\ dedup_view d' !! k = None ->
    let d2 := (let '(ps, claim, d0) := (ok, Some gd', d') in
      ((if ps : bool then result_response r (wd_success_status w) else retryable (str "dedup_store_unavailable")),
       drop_claim claim d0)).2 in
    dedup_ok d2 /\ (same_claim k (dedup_view d) (dedup_view d2) \/
      refusal r = true /\ (Some gd ≫= guard_key) = Some k /\ dedup_view d2 !! k = None)) as Hend.
  { intros ok gd' d' Hok' Ht' Hcase. cbn [snd drop_claim]. rewrite <-Ht' in Ht.
    destruct (DedupGuard_drop_spec gd' d' k Hok' Ht) as [Hok2 Hs2]. split; [done|].
    destruct Hcase as [Hs|(Href & Hk & Hn)]; [left; by eapply same_claim_trans|right].
    split_and!; [done..|]. unfold same_claim in Hs2. rewrite Hn in Hs2.
    by destruct (dedup_view (DedupGuard_drop gd' d') !! k). }
  destruct r as [v|[e|id|reason| |e]].
  - destruct (DedupGuard_complete gd d) as [[ok gd'] d']. destruct Hc as (? & ? & ?). apply (Hend ok gd' d'); auto.
  - destruct (DedupGuard_mark_unknown gd d) as [[ok gd'] d']. destruct Hu as (? & ? & ?). apply (Hend ok gd' d'); auto.
  - destruct (DedupGuard_release gd d) as [[ok gd'] d']. destruct Hr as (? & ? & Hr). apply (Hend ok gd' d'); naive_solver.
  - destruct (DedupGuard_release gd d) as [[ok gd'] d']. destruct Hr as (? & ? & Hr). apply (Hend ok gd' d'); naive_solver.
  - destruct (DedupGuard_release gd d) as [[ok gd'] d']. destruct Hr as (? & ? & Hr). apply (Hend ok gd' d'); naive_solver.
  - destruct (DedupGuard_complete gd d) as [[ok gd'] d']. destruct Hc as (? & ? & ?). apply (Hend ok gd' d'); auto.
Qed.

(** *** Accepting a request *)

(** The entry is not completed. *)
Definition unfinished (o : option DedupEntry) : Prop := forall e, o = Some e -> de_state e <> Completed.

(** Settling a claim for another key leaves the entry alone, and one for its key does not complete it. *)
Lemma moves_unfinished from key to m m' ok k :
  moves from key to m m' ok -> (forall e e', to e = Some e' -> de_state e' <> Completed) ->
  (key <> k -> m' !! k = m !! k) /\ (unfinished (m !! k) -> unfinished (m' !! k)).
Proof.
  intros Hm Hto. split; [intros; by eapply moves_other|]. destruct Hm as [[-> _]|(e & He & _ & ->)]; [done|]. intros Hu.
  destruct (decide (key = k)) as [->|Hne]; [|by rewrite lookup_partial_alter_ne]. rewrite lookup_partial_alter_eq. intros e'. apply Hto.
Qed.

Lemma DedupGuard_drop_unfinished key t d k :
  dedup_ok d -> u64_time t ->
  let m' := dedup_view (DedupGuard_drop (mk_guard key t) d) in
  (key <> Some k -> m' !! k = dedup_view d !! k) /\ (unfinished (dedup_view d !! k) -> unfinished (m' !! k)).
Proof.
  intros Hok Ht. unfold DedupGuard_drop. cbn [guard_key guard_updated_at]. destruct key as [key|]; [|done].
  pose proof (mark_unknown_spec key t d Hok Ht) as Hs. destruct (mark_unknown _ _ d) as [r d']. destruct Hs as [_ Hm].
  eapply (moves_unfinished _ _ _ _ _ _ k) in Hm as [Hne Hu]; [|by intros e e' [= <-]]. split; [|done]. intros Hk. apply Hne. congruence.
Qed.

(** A claim that is given back because the request cannot be named. *)
Lemma give_back_spec key t d k :
  dedup_ok d -> u64_time t ->
  let '(_, gd, d1) := DedupGuard_release (mk_guard (Some key) t) d in
  let d2 := DedupGuard_drop gd d1 in
  dedup_ok d2 /\ (key <> k -> dedup_view d2 !! k = dedup_view d !! k) /\
  (unfinished (dedup_view d !! k) -> unfinished (dedup_view d2 !! k)) /\
  (forall e2, dedup_view d2 !! k = Some e2 -> exists e, dedup_view d !! k = Some e /\ de_policy e2 = de_policy e).
Proof.
  intros Hok Ht. pose proof (release_claim_spec key d Hok) as Hs. pose proof (DedupGuard_release_spec (mk_guard (Some key) t) d k Hok) as Hrel.
  unfold DedupGuard_release, guard_settle in *. cbn [guard_key] in *. destruct (release_claim key d) as [r d1].
  destruct Hs as [Hok1 Hm]. eapply (moves_unfinished _ _ _ _ _ _ k) in Hm as [Hne Hu]; [|done].
  assert (forall o, o = Some key \/ o = None -> (let '(_, g, d1) := (tt, mk_guard o t, d1) in same_claim k (dedup_view d) (dedup_view d1) \/ dedup_view d1 !! k = None) ->
    let d2 := DedupGuard_drop (mk_guard o t) d1 in
    dedup_ok d2 /\ (key <> k -> dedup_view d2 !! k = dedup_view d !! k) /\
    (unfinished (dedup_view d !! k) -> unfinished (dedup_view d2 !! k)) /\
    (forall e2, dedup_view d2 !! k = Some e2 -> exists e, dedup_view d !! k = Some e /\ de_policy e2 = de_policy e)) as Hend.
  { intros o Ho Hcase. destruct (DedupGuard_drop_unfinished o t d1 k Hok1 Ht) as [Hne2 Hu2].
    destruct (DedupGuard_drop_spec (mk_guard o t) d1 k Hok1 Ht) as [Hok2 Hs2]. split_and!; [done| |by intros ?%Hu%Hu2|].
    - intros Hk. rewrite Hne2; [by apply Hne|]. destruct Ho as [->| ->]; congruence.
    - intros e2 He2. unfold same_claim in *. rewrite He2 in Hs2. destruct Hcase as [Hs|Hn]; [rewrite Hs in Hs2|by rewrite Hn in Hs2].
      destruct (dedup_view d !! k) as [e|]; [|done]. injection Hs2 as Hp. by exists e. }
  destruct r; destruct Hrel as (_ & _ & Hrel); apply Hend; auto; naive_solver.
Qed.

Lemma prepare_verify_identity_wf route request now identity :
  verifier_ok (route_verifier route) -> prepare_verify route request now = Ok (Some identity) -> identity_wf identity.
Proof.
  intros Hv. unfold prepare_verify. destruct (negb _); [done|].
  intros (secs & _ & (res & Hres & Hr)%result_bind_Ok)%result_bind_Ok.
  destruct (verify _ _ secs) as [res'|] eqn:Hver; [|by destruct e]. injection Hres as ->.
  destruct (_ && _); [done|]. destruct (_ && _); [done|]. injection Hr as Hr.
  by eapply (verify_identity_wf _ _ _ _ _ Hv Hver).
Qed.

(** The store may have given up a claim that may expire. *)
Definition expires (before o : option DedupEntry) : Prop := o = before \/ o = None /\ exists e, before = Some e /\ may_expire e.

Lemma prepare_claim_spec cfg identity now d k :
  dedup_ok d -> RouteId_new (as_str (cfg_id cfg)) = Ok (cfg_id cfg) -> identity_wf identity -> u64_time (unix_milliseconds now) ->
  let key := claim_key cfg identity in
  let entry := mk_entry_of InFlight (claim_policy cfg identity) (unix_milliseconds now) in
  let '(r, d') := prepare_claim cfg (Some identity) now d in
  dedup_ok d' /\ exists o, expires (dedup_view d !! k) o /\
  match r with
  | Ok claim => claim = Some (mk_guard (Some key) (unix_milliseconds now)) /\
      if decide (key = k) then o = None /\ dedup_view d' !! k = Some entry else dedup_view d' !! k = o
  | Err _ => dedup_view d' !! k = o \/ key = k /\ o = None /\ dedup_view d' !! k = Some entry
  end.
Proof.
  intros Hok Hid [Hns Hhash] Ht. cbv zeta. unfold prepare_claim. set (key := claim_key cfg identity).
  set (entry := mk_entry_of InFlight _ _). pose proof (claim_spec key (claim_policy cfg identity) _ d Hok (conj Hid (conj Hns Hhash)) Ht) as Hs.
  destruct (claim key _ _ d) as [r d']. destruct Hs as (Hok' & mi & Hd & Hr).
  assert (dedup_view d' = <[key := entry]> mi -> mi !! key = None ->
    if decide (key = k) then mi !! k = None /\ dedup_view d' !! k = Some entry else dedup_view d' !! k = mi !! k) as Hnew.
  { intros -> Hn. case_decide as Hk; [subst k; by rewrite lookup_insert_eq|by rewrite lookup_insert_ne]. }
  destruct r as [[|state]|e].
  - destruct Hr as [Hn Hv]. split; [done|]. exists (mi !! k). split; [apply Hd|]. split; [done|]. by apply Hnew.
  - destruct Hr as [_ Hv]. destruct state; (split; [done|]); exists (mi !! k); (split; [apply Hd|]); left; by rewrite Hv.
  - assert (dedup_view d' !! k = mi !! k \/ key = k /\ mi !! k = None /\ dedup_view d' !! k = Some entry) as Hcase.
    { destruct Hr as [->|[Hn Hv]]; [by left|]. specialize (Hnew Hv Hn). case_decide; auto. }
    destruct e; (split; [done|]); exists (mi !! k); (split; [apply Hd|done]).
Qed.

(** The entry of [k] is the one from before, or one that this request entered. *)
Definition own_entry (route : WebhookRoute V) (request : VerificationRequest) (now : WebhookIngressTime) k (before after : option DedupEntry) : Prop :=
  forall e, after = Some e -> before = Some e \/ exists identity, prepare_verify route request now = Ok (Some identity) /\
    claim_key (route_configuration route) identity = k /\ de_policy e = claim_policy (route_configuration route) identity.

Lemma expires_Some before o e : expires before o -> o = Some e -> before = Some e.
Proof. intros [->|[-> _]]; congruence. Qed.

(** What [begin] does to the claim of [k]: at first the store may give up one that may expire;
    then [k] is as before, or it was free and is claimed for this request. *)
Lemma begin_spec route request now generated c k :
  dedup_ok (ctx_store c) -> step_wf (StepBegin route request now generated) ->
  let '(r, c') := begin from_slice route request now generated c in
  let before := dedup_view (ctx_store c) !! k in let after := dedup_view (ctx_store c') !! k in
  dedup_ok (ctx_store c') /\ own_entry route request now k before after /\
  exists o, expires before o /\
  match r with
  | Err _ => after = o \/ o = None /\ unfinished after
  | Ok w => (forall gd, wd_claim w = Some gd -> u64_time (guard_updated_at gd)) /\
      if bool_decide (held_key (mk_pending w None) = Some k) then o = None /\ is_Some after /\ unfinished after else after = o
  end.
Proof.
  intros Hok (Hid & Hver & Ht). unfold begin, prepare, own_entry.
  assert (forall o : option DedupEntry, expires o o) as Hrefl by (by left).
  destruct (prepare_verify route request now) as [identity|] eqn:Hpv; [|naive_solver].
  destruct (limiter_admit _ _ _) as [[|ra] l]; [|naive_solver]. destruct (prepare_input _ _ _) as [input|]; [|naive_solver].
  cbn [ctx_store with_limiter]. destruct identity as [identity|]; [|cbn [prepare_claim]; destruct generated; naive_solver].
  pose proof (prepare_claim_spec (route_configuration route) identity now (ctx_store c) k Hok Hid
    (prepare_verify_identity_wf _ _ _ _ Hver Hpv) Ht) as Hs. cbv zeta in Hs.
  destruct (prepare_claim _ _ _ _) as [[claim|resp] d]; destruct Hs as (Hok' & o & Ho & Hs).
  2: { split; [done|]. cbn [ctx_store with_store]. split; [|exists o; split; [done|]].
    - intros e He. destruct Hs as [Hs|(Hkey & _ & Hs)]; [left; eapply expires_Some; [done|congruence]|right]. exists identity. rewrite Hs in He. by injection He as <-.
    - destruct Hs as [Hs|(_ & -> & Hs)]; [by left|right]. split; [done|]. rewrite Hs. by intros e [= <-]. }
  destruct Hs as [-> Hs]. destruct generated as [id|].
  - split; [done|]. cbn [ctx_store with_store wd_claim]. unfold held_key. cbn [pending_dispatch wd_claim mbind option_bind guard_key].
    case_decide as Hkey; [rewrite bool_decide_true by congruence; destruct Hs as [-> Hs]|rewrite bool_decide_false by congruence].
    + split; [intros e He; right; exists identity; rewrite Hs in He; by injection He as <-|]. exists None. split; [done|].
      split; [by intros gd [= <-]|]. rewrite Hs. split; [done|]. split; [done|]. by intros e [= <-].
    + split; [intros e He; left; eapply expires_Some; [done|congruence]|]. exists o. split; [done|]. split; [by intros gd [= <-]|done].
  - pose proof (give_back_spec (claim_key (route_configuration route) identity) (unix_milliseconds now) d k Hok' Ht) as Hr.
    destruct (DedupGuard_release _ d) as [[ok gd] d1]. destruct Hr as (Hok2 & Hne & Hu & Hpol). split; [done|]. cbn [ctx_store with_store].
    case_decide as Hkey; [destruct Hs as [-> Hs]; rewrite Hs in *|rewrite Hne by done].
    + split; [|exists None; split; [done|right; split; [done|]; apply Hu; by intros e1 [= <-]]].
      intros e1 (e0 & [= <-] & Hp)%Hpol. right. by exists identity.
    + split; [intros e1 He; left; eapply expires_Some; [done|congruence]|]. exists o. auto.
Qed.

(** ** Every step keeps the account *)

Lemma holds_le k m : (holds k m <= 1)%nat.
Proof. unfold holds. destruct (m !! k); lia. Qed.

Lemma on_store_inv k n extra f g :
  claim_inv k n g -> (dedup_ok (ctx_store (ig_context g)) ->
    let d' := f (ctx_store (ig_context g)) in
    dedup_ok d' /\ (same_claim k (dedup_view (ctx_store (ig_context g))) (dedup_view d') \/
                    extra = 1%nat /\ dedup_view d' !! k = None)) ->
  claim_inv k (n + extra) (on_store f g).
Proof.
  intros Hinv Hf. destruct (Hf (ci_ok _ _ _ Hinv)) as [Hok Hs]. split; cbn [on_store ig_context ctx_store with_store ig_pending ig_next ig_runs].
  - done.
  - apply (ci_fresh _ _ _ Hinv).
  - apply (ci_times _ _ _ Hinv).
  - pose proof (ci_account _ _ _ Hinv) as Ha. destruct Hs as [Hs|[-> _]].
    + rewrite (same_claim_holds _ _ _ Hs). lia.
    + pose proof (holds_le k (dedup_view (ctx_store (ig_context g)))). lia.
Qed.

Lemma forget_inv k n i g : claim_inv k n g -> claim_inv k n (forget i g).
Proof.
  intros Hinv. split; cbn [forget ig_context ig_pending ig_next ig_runs]; try apply Hinv.
  - intros j Hj. rewrite lookup_delete_None. right. by apply (ci_fresh _ _ _ Hinv).
  - intros j p gd [_ Hp]%lookup_delete_Some. by apply (ci_times _ _ _ Hinv j).
  - pose proof (ci_account _ _ _ Hinv) as Ha. destruct (ig_pending g !! i) as [p|] eqn:Hi.
    + rewrite (owed_delete k _ i p Hi) in Ha. lia.
    + by rewrite delete_id.
Qed.

(** Finishing a dispatch pays with what it owed when the claim is given back. *)
Lemma settled_inv k n i w r g :
  claim_inv k n g -> ig_pending g !! i = Some (mk_pending w (Some r)) ->
  claim_inv k n (forget i (on_store (fun d => (finish_dispatch w r d).2) g)).
Proof.
  intros Hinv Hi. pose proof (fun gd => ci_times _ _ _ Hinv i _ gd Hi) as Ht. cbn [pending_dispatch] in Ht.
  destruct (finish_dispatch_spec w r _ k (ci_ok _ _ _ Hinv) Ht) as [Hok [Hs|(Href & Hk & Hn)]].
  - apply forget_inv. rewrite <-(Nat.add_0_r n). apply on_store_inv; [done|]. intros _. split; [done|by left].
  - split; cbn [forget on_store ig_context ctx_store with_store ig_pending ig_next ig_runs].
    + done.
    + intros j Hj. rewrite lookup_delete_None. right. by apply (ci_fresh _ _ _ Hinv).
    + intros j p gd [_ Hp]%lookup_delete_Some. by apply (ci_times _ _ _ Hinv j).
    + pose proof (ci_account _ _ _ Hinv) as Ha. rewrite (owed_delete k _ i _ Hi) in Ha.
      unfold owes in Ha. cbn [pending_result] in Ha. change (held_key _) with (held_key (mk_pending w None)) in Ha.
      rewrite bool_decide_true, Href in Ha by done. cbn [andb] in Ha.
      pose proof (holds_le k (dedup_view (ctx_store (ig_context g)))). lia.
Qed.

Lemma dispatch_inv k n i w g :
  claim_inv k n g -> ig_pending g !! i = Some (mk_pending w None) -> claim_inv k n (ingress_step (StepDispatch i) g).
Proof.
  intros Hinv Hi. cbn [ingress_step]. rewrite Hi.
  pose proof (dispatch_runs (wd_invocation w) (ctx_service (ig_context g))) as Hd.
  destruct (service_dispatch _ _) as [r s']. destruct Hd as (Hle & Href & _).
  split; cbn [ig_context ig_pending ig_next ig_runs with_service ctx_store]; try apply Hinv.
  - intros j Hj. rewrite lookup_insert_ne; [by apply (ci_fresh _ _ _ Hinv)|].
    intros <-. rewrite (ci_fresh _ _ _ Hinv) in Hi; [done|lia].
  - intros j p gd [[<- <-]|[_ Hp]]%lookup_insert_Some Hgd; [by apply (ci_times _ _ _ Hinv i _ gd Hi)|].
    by apply (ci_times _ _ _ Hinv j p gd).
  - pose proof (ci_account _ _ _ Hinv) as Ha.
    pose proof (owed_replace k _ i _ (mk_pending w (Some r)) Hi) as Ho. unfold owes in Ho. cbn [pending_result] in Ho.
    change (held_key (mk_pending w (Some r))) with (held_key (mk_pending w None)) in Ho. rewrite andb_true_r in Ho.
    destruct (held_key (mk_pending w None)) as [k'|]; [|rewrite bool_decide_false in Ho by done; simpl in Ho; lia].
    destruct (decide (k' = k)) as [-> |Hne].
    + rewrite bool_decide_true in Ho by done. cbn [andb] in Ho.
      destruct (bool_decide (handler_runs s' <> _)) eqn:Hb.
      * apply bool_decide_eq_true in Hb. destruct (refusal r); [by destruct Hb; apply Href|].
        unfold runs_of in *. rewrite filter_cons, decide_True by done. simpl. lia.
      * destruct (refusal r); lia.
    + rewrite bool_decide_false in Ho by congruence. cbn [andb] in Ho.
      assert (runs_of k (k' :: ig_runs g) = runs_of k (ig_runs g)) as Hr.
      { unfold runs_of. by rewrite filter_cons, decide_False. }
      destruct (bool_decide _); rewrite ?Hr; lia.
Qed.

(** The store has given up a completed claim, for this request or for room. *)
Lemma lapses_begin k route request now generated g o :
  let s := StepBegin route request now generated in
  expires (claim_at k g) o -> o = None -> unfinished (claim_at k (ingress_step s g)) ->
  (holds k (dedup_view (ctx_store (ig_context g))) <= if lapses k s g then 1 else 0)%nat.
Proof.
  intros s Ho -> Hu. unfold lapses, holds, claim_at in *. cbn [s]. destruct (dedup_view (ctx_store (ig_context g)) !! k) as [e|]; [|lia].
  destruct Ho as [|[_ (e' & [= <-] & Hst & Hp)]]; [done|]. rewrite !bool_decide_true by done. cbn [andb].
  rewrite bool_decide_false; [done|]. intros (e' & He' & Hc)%fmap_Some. by apply (Hu e').
Qed.

Lemma begin_inv k n route request now generated g :
  let s := StepBegin route request now generated in
  claim_inv k n g -> step_wf s -> claim_inv k (n + if lapses k s g then 1 else 0) (ingress_step s g).
Proof.
  intros s Hinv Hwf. pose proof (begin_spec route request now generated (ig_context g) k (ci_ok _ _ _ Hinv) Hwf) as Hs.
  pose proof (fun o => lapses_begin k route request now generated g o) as Hlapse. cbv zeta in Hlapse. fold s in Hlapse.
  pose proof (ci_account _ _ _ Hinv) as Ha. generalize dependent (if lapses k s g then 1%nat else 0%nat). intros lapse Hlapse.
  unfold s in *. clear s. unfold claim_at in Hlapse. cbn [ingress_step] in *.
  destruct (begin _ _ _ _ _ _) as [[w|resp] c]; destruct Hs as (Hok & _ & o & Ho & Hs); cbn [ig_context] in Hlapse.
  - destruct Hs as [Ht Hk]. assert (ig_pending g !! ig_next g = None) as Hfresh by (by apply (ci_fresh _ _ _ Hinv)).
    split; cbn [ig_context ig_pending ig_next ig_runs].
    + done.
    + intros j Hj. rewrite lookup_insert_ne by lia. apply (ci_fresh _ _ _ Hinv). lia.
    + intros j p gd [[<- <-]|[_ Hp]]%lookup_insert_Some Hgd; [by apply Ht|]. by apply (ci_times _ _ _ Hinv j p gd).
    + rewrite owed_insert by done. unfold owes. cbn [pending_result]. rewrite andb_true_r. case_bool_decide.
      * destruct Hk as (-> & [e He] & Hu). specialize (Hlapse None Ho eq_refl Hu). unfold holds at 1. rewrite He. lia.
      * subst o. destruct Ho as [Heq|[Hn Hex]].
        { unfold holds in *. rewrite Heq. lia. }
        specialize (Hlapse None (or_intror (conj eq_refl Hex)) eq_refl). rewrite Hn in Hlapse. specialize (Hlapse ltac:(done)). lia.
  - split; cbn [ig_context ig_pending ig_next ig_runs]; try apply Hinv; [done|]. destruct Hs as [Hs|[-> Hu]].
    + subst o. destruct Ho as [Heq|[Hn Hex]]; [unfold holds in *; rewrite Heq; lia|].
      specialize (Hlapse None (or_intror (conj eq_refl Hex)) eq_refl). rewrite Hn in Hlapse. specialize (Hlapse ltac:(done)). lia.
    + specialize (Hlapse None Ho eq_refl Hu). lia.
Qed.

(** The administrator takes claims away. *)
Lemma reopens_inv k n s f g :
  ingress_step s g = on_store f g ->
  match s with StepResolve key ResolveRetryAllowed _ => key = k | StepClear _ => True | _ => False end ->
  claim_inv k n g -> dedup_ok (f (ctx_store (ig_context g))) ->
  same_claim k (dedup_view (ctx_store (ig_context g))) (dedup_view (f (ctx_store (ig_context g)))) \/ claim_at k (on_store f g) = None ->
  claim_inv k (n + if reopens k s g then 1 else 0) (ingress_step s g).
Proof.
  intros Hstep Hs Hinv Hok Hcase. unfold reopens. rewrite Hstep. apply on_store_inv; [done|]. intros _. split; [done|].
  destruct Hcase as [?|Hn]; [by left|]. destruct (claim_at k g) as [e|] eqn:Hb; [|left; unfold same_claim, claim_at in *; by rewrite Hb; cbn in Hn |- *; rewrite Hn].
  right. rewrite (bool_decide_true (is_Some _)), Hn, bool_decide_true by done. split; [|done].
  destruct s as [| | | | | |? []| |]; try done. by rewrite bool_decide_true.
Qed.

(** What the operations of the administrator do to the claim of [k]. *)
Lemma recover_claim t d k :
  dedup_ok d -> u64_time t ->
  let d' := (recover_in_flight t d).2 in dedup_ok d' /\ same_claim k (dedup_view d) (dedup_view d').
Proof.
  intros Hok Ht. pose proof (recover_in_flight_spec t d Hok Ht) as Hs. destruct (recover_in_flight t d) as [r d']. destruct Hs as [Hok' Hv].
  split; [done|]. unfold same_claim. cbn [snd]. destruct Hv as [[-> _]| ->]; [done|].
  rewrite lookup_fmap. destruct (_ !! k) as [e|]; [|done]. simpl. unfold recovered. by case_decide.
Qed.

Lemma resolve_claim key res t d k :
  dedup_ok d -> u64_time t ->
  let d' := (resolve_unknown key res t d).2 in
  dedup_ok d' /\ (same_claim k (dedup_view d) (dedup_view d') \/ key = k /\ res = ResolveRetryAllowed /\ dedup_view d' !! k = None).
Proof.
  intros Hok Ht. pose proof (resolve_unknown_spec key res t d Hok Ht) as Hs. destruct (resolve_unknown key res t d) as [r d']. destruct Hs as [Hok' Hm].
  split; [done|]. cbn [snd]. eapply (moves_claim _ _ _ _ _ _ k) in Hm; [|intros e e'; destruct res; [by intros [= <-]|done]].
  destruct Hm as [?|(-> & Hn & e & _ & He)]; [by left|]. destruct res; [done|by right].
Qed.

Lemma clear_claim cutoff d k :
  dedup_ok d ->
  let d' := (clear_completed_before cutoff d).2 in
  dedup_ok d' /\ (same_claim k (dedup_view d) (dedup_view d') \/ dedup_view d' !! k = None).
Proof.
  intros Hok. pose proof (clear_completed_before_spec cutoff d Hok) as Hs. destruct (clear_completed_before cutoff d) as [r d'].
  destruct Hs as (Hok' & Hd & _). split; [done|]. cbn [snd]. destruct (Hd k) as [Hk|[Hn _]]; [left; unfold same_claim; by rewrite Hk|by right].
Qed.

Lemma claim_inv_le k n n' g : (n <= n')%nat -> claim_inv k n g -> claim_inv k n' g.
Proof. intros Hle Hinv. split; try apply Hinv. pose proof (ci_account _ _ _ Hinv). lia. Qed.

Lemma step_inv k n s g :
  claim_inv k n g -> step_wf s ->
  claim_inv k (n + ((if reopens k s g then 1 else 0) + if lapses k s g then 1 else 0)) (ingress_step s g).
Proof.
  intros Hinv Hwf. destruct s as [route request now generated|i|i|i| |t|key res t|cutoff|s];
    try (change (reopens _ _ g) with false); try (change (lapses _ _ g) with false); cbn [Nat.add]; rewrite ?Nat.add_0_r.
  - by apply begin_inv.
  - destruct (ig_pending g !! i) as [[w [r|]]|] eqn:Hi; [cbn [ingress_step]; by rewrite Hi|by eapply dispatch_inv
      |cbn [ingress_step]; by rewrite Hi].
  - cbn [ingress_step]. destruct (ig_pending g !! i) as [[w [r|]]|] eqn:Hi; [by apply settled_inv|done..].
  - cbn [ingress_step]. destruct (ig_pending g !! i) as [p|] eqn:Hi; [|done]. apply forget_inv.
    rewrite <-(Nat.add_0_r n). apply on_store_inv; [done|]. intros Hok.
    destruct (drop_claim_spec (wd_claim (pending_dispatch p)) _ k Hok (fun gd => ci_times _ _ _ Hinv i p gd Hi)). auto.
  - cbn [ingress_step]. split; cbn [ig_context ig_pending ig_next ig_runs]; try apply Hinv; [done..|].
    pose proof (ci_account _ _ _ Hinv). unfold owed at 1. rewrite map_filter_empty, map_size_empty. lia.
  - rewrite <-(Nat.add_0_r n). apply on_store_inv; [done|]. intros Hok. destruct (recover_claim t _ k Hok Hwf). auto.
  - destruct (resolve_claim key res t _ k (ci_ok _ _ _ Hinv) Hwf) as [Hok' [Hsame|(-> & -> & Hn)]].
    + apply (claim_inv_le k (n + 0)); [lia|]. apply on_store_inv; auto.
    + eapply reopens_inv; [done|done|done|done|by right].
  - destruct (clear_claim cutoff _ k (ci_ok _ _ _ Hinv)) as [Hok' Hcase]. eapply reopens_inv; done.
  - cbn [ingress_step]. split; try apply Hinv.
Qed.

Lemma run_inv k n steps g :
  claim_inv k n g -> Forall step_wf steps -> claim_inv k (n + (reopened k steps g + lapsed k steps g)) (ingress_run steps g).
Proof.
  intros Hinv Hwf. revert n g Hinv. induction Hwf as [|s steps Hs _ IH]; intros n g Hinv; [cbn; by rewrite Nat.add_0_r|].
  specialize (IH _ _ (step_inv k n s g Hinv Hs)). eapply claim_inv_le; [|exact IH]. cbn [reopened lapsed happens]. unfold reopened, lapsed. cbn [happens]. lia.
Qed.

(** ** Claims that are retained do not lapse *)

Definition retained k (g : Ingress) : Prop := forall e, claim_at k g = Some e -> de_policy e = RetainCompleted.

Lemma retained_same k g f :
  retained k g ->
  (same_claim k (dedup_view (ctx_store (ig_context g))) (dedup_view (f (ctx_store (ig_context g)))) \/ claim_at k (on_store f g) = None) ->
  retained k (on_store f g).
Proof.
  intros Hret Hcase e He. destruct Hcase as [Hs|Hn]; [|congruence]. unfold same_claim in Hs. unfold retained, claim_at in *.
  cbn [on_store ig_context ctx_store with_store] in He. rewrite He in Hs. destruct (dedup_view (ctx_store (ig_context g)) !! k) as [e0|]; [|done].
  injection Hs as ->. by apply Hret.
Qed.

Lemma retained_step k s g n :
  claim_inv k n g -> step_wf s -> retains k s -> retained k g -> retained k (ingress_step s g) /\ lapses k s g = false.
Proof.
  intros Hinv Hwf Hs Hret. pose proof (ci_ok _ _ _ Hinv) as Hok.
  destruct s as [route request now generated|i|i|i| |t|key res t|cutoff|s]; (split; [|try done]).
  - intros e He. pose proof (begin_spec route request now generated (ig_context g) k Hok Hwf) as Hb. unfold claim_at in He. cbn [ingress_step] in He.
    destruct (begin _ _ _ _ _ _) as [[w|resp] c]; destruct Hb as (_ & Hown & _); destruct (Hown e He) as [He'|(identity & Hv & Hk & ->)];
      first [by apply Hret|by apply Hs].
  - unfold lapses. destruct (claim_at k g) as [e|] eqn:He; [|done]. apply Hret in He. rewrite He, (bool_decide_false (RetainCompleted = _)) by done.
    by rewrite andb_false_r.
  - cbn [ingress_step]. destruct (ig_pending g !! i) as [[w [r|]]|]; try done. by destruct (service_dispatch _ _).
  - cbn [ingress_step]. destruct (ig_pending g !! i) as [[w [r|]]|] eqn:Hi; try done. apply (retained_same k g); [done|].
    destruct (finish_dispatch_spec w r _ k Hok (fun gd => ci_times _ _ _ Hinv i _ gd Hi)) as [_ [?|(_ & _ & ?)]]; auto.
  - cbn [ingress_step]. destruct (ig_pending g !! i) as [p|] eqn:Hi; try done. apply (retained_same k g); [done|]. left.
    by destruct (drop_claim_spec (wd_claim (pending_dispatch p)) _ k Hok (fun gd => ci_times _ _ _ Hinv i p gd Hi)).
  - done.
  - apply retained_same; [done|]. left. by destruct (recover_claim t _ k Hok Hwf).
  - apply retained_same; [done|]. destruct (resolve_claim key res t _ k Hok Hwf) as [_ [?|(_ & _ & ?)]]; auto.
  - apply retained_same; [done|]. by destruct (clear_claim cutoff _ k Hok).
  - done.
Qed.

Lemma retained_run k n steps g :
  claim_inv k n g -> Forall step_wf steps -> Forall (retains k) steps -> retained k g -> lapsed k steps g = 0%nat.
Proof.
  intros Hinv Hwf. revert n g Hinv. induction Hwf as [|s steps Hs _ IH]; intros n g Hinv Hret Hg; [done|].
  apply Forall_cons in Hret as [Hrs Hret]. destruct (retained_step k s g n Hinv Hs Hrs Hg) as [Hg' Hl].
  unfold lapsed in *. cbn [happens]. rewrite Hl. by eapply IH; [apply step_inv|..].
Qed.

(** An ingress over a store that has not seen [k], with nothing pending. *)
Definition ingress_start (c : WebhookIngressContext S D) : Ingress := mk_ingress c ∅ 0 [].


(** ** What the sender is told *)

(** The claim a request is made under. *)
Definition claim_of (route : WebhookRoute V) (request : VerificationRequest) (now : WebhookIngressTime) : option DedupKey :=
  match prepare_verify route request now with
  | Ok (Some identity) => Some (claim_key (route_configuration route) identity)
  | _ => None
  end.

Definition state_of k c : option DedupState := de_state <$> dedup_view (ctx_store c) !! k.

(** Settling and dropping a guard whose claim is in flight. *)
Lemma settle_claimed (op : DedupKey -> D -> result DedupStoreError unit * D) to d k t e :
  dedup_ok d -> u64_time t -> dedup_view d !! k = Some e ->
  (let '(r, d') := op k d in dedup_ok d' /\ moves InFlight k to (dedup_view d) (dedup_view d') (is_ok r)) ->
  let '(ok, gd, d') := guard_settle op (mk_guard (Some k) t) d in
  let d2 := DedupGuard_drop gd d' in
  (is_Some (to e) -> is_Some (dedup_view d2 !! k)) /\ (ok = true -> dedup_view d2 !! k = to e) /\
  (ok = false -> exists err d3, op k d = (Err err, d3)).
Proof.
  intros Hok Ht He Hop. unfold guard_settle. cbn [guard_key]. destruct (op k d) as [r d'] eqn:Hrun. destruct Hop as [Hok' Hm].
  assert (forall x, dedup_view d' !! k = Some x -> is_Some (dedup_view (DedupGuard_drop (mk_guard (Some k) t) d') !! k)) as Hdrop.
  { intros x Hx. destruct (DedupGuard_drop_spec (mk_guard (Some k) t) d' k Hok' Ht) as [_ Hs]. unfold same_claim in Hs.
    rewrite Hx in Hs. by destruct (dedup_view (DedupGuard_drop (mk_guard (Some k) t) d') !! k). }
  destruct Hm as [[Heq Hf]|(e1 & He1 & _ & Hm)].
  - destruct r as [|err]; [done|]. split; [|split; [done|by exists err, d']]. intros _. apply (Hdrop e). congruence.
  - rewrite He in He1. injection He1 as <-. assert (dedup_view d' !! k = to e) as Hk by (by rewrite Hm, lookup_partial_alter_eq).
    destruct r as [[]|err]; cbn [guard_updated_at]; [unfold DedupGuard_drop; cbn [guard_key]; by rewrite Hk|].
    split; [|split; [done|by exists err, d']]. intros [x Hx]. apply (Hdrop x). congruence.
Qed.

Section answers.
Context (route : WebhookRoute V) (request : VerificationRequest) (now : WebhookIngressTime)
  (generated : result InvocationIdGenerationError InvocationId).
Abbreviation cfg := (route_configuration route).

(** The request is authentic, and its principal within its rate. *)
Definition admitted c : Prop :=
  is_ok (prepare_verify route request now) = true /\
  (limiter_admit (ctx_limiter c) (principal_id (cfg_principal cfg)) (monotonic_milliseconds now)).1 = AdmissionAllowed.

(** Refusals before anything is claimed, each with its cause. *)
Inductive turned_away c : WebhookIngressResponse -> Prop :=
| away_method :
    request_method request <> METHOD_POST -> turned_away c (response_error 405 (str "method_not_allowed"))
| away_clock :
    try_i64 (unix_milliseconds now / 1000) = None -> turned_away c (retryable (str "clock_unavailable"))
| away_rejected seconds :
    try_i64 (unix_milliseconds now / 1000) = Some seconds -> verify (route_verifier route) request seconds = Err VerificationRejected ->
    turned_away c (response_error 401 (str "authentication_rejected"))
| away_unverified seconds :
    try_i64 (unix_milliseconds now / 1000) = Some seconds ->
    match verify (route_verifier route) request seconds with
    | Err e => e = VerificationUnavailable
    | Ok verified =>
        identity_guarantee (route_verifier route) = IdentityRequired /\ result_identity verified = None \/
        identity_guarantee (route_verifier route) = IdentityNever /\ result_identity verified <> None
    end -> turned_away c (retryable (str "verification_unavailable"))
| away_limited retry_after :
    is_ok (prepare_verify route request now) = true ->
    (limiter_admit (ctx_limiter c) (principal_id (cfg_principal cfg)) (monotonic_milliseconds now)).1 = AdmissionLimited retry_after ->
    turned_away c (response_retryable 429 (str "rate_limited") retry_after)
| away_media :
    admitted c -> has_json_content_type request CONTENT_TYPE = false -> turned_away c (response_error 415 (str "unsupported_media_type"))
| away_body :
    admitted c -> body_bytes (cfg_limits cfg) < Z.of_nat (length (request_body request)) ->
    turned_away c (response_error 413 (str "body_too_large"))
| away_capacity :
    admitted c -> (forall charge, retained_charge (cfg_mapping cfg) request = Some charge -> retained_bytes (cfg_limits cfg) < charge) ->
    turned_away c (response_error 413 (str "retained_capacity"))
| away_json :
    admitted c -> from_slice (request_body request) = None -> turned_away c (response_error 400 (str "invalid_json"))
| away_metadata headers name value :
    admitted c -> cfg_mapping cfg = Envelope headers -> name ∈ headers -> value ∈ header_values request name -> from_utf8 value = None ->
    turned_away c (response_error 400 (str "invalid_metadata")).

(** The request was admitted, and what the service answered to the invocation of the route. *)
Definition dispatched c c' (r : result DispatchError Value) : Prop :=
  admitted c /\ exists id input, generated = Ok id /\ prepare_input from_slice route request = Ok input /\
    service_dispatch (mk_invocation id (route_adapter route) (cfg_principal cfg) (cfg_capability cfg) input) (ctx_service c) =
    (r, ctx_service c').

(** The claim of the request, if it has one, is left in this state. *)
Definition settled c' (state : option DedupState) : Prop := forall k, claim_of route request now = Some k -> state_of k c' = state.

(** An operation of the store on the claim answered an error. *)
Definition store_failed k : Prop :=
  exists d e d', (e <> DedupCapacityExhausted /\ exists policy, claim k policy (unix_milliseconds now) d = (Err e, d')) \/
    complete k (unix_milliseconds now) d = (Err e, d') \/ mark_unknown k (unix_milliseconds now) d = (Err e, d') \/ release_claim k d = (Err e, d').

(** The answers and what they mean. *)
Inductive told c c' : WebhookIngressResponse -> Prop :=
| told_away r : turned_away c r -> ctx_service c' = ctx_service c -> ctx_store c' = ctx_store c -> told c c' r
| told_done output :
    dispatched c c' (Ok output) -> settled c' (Some Completed) -> told c c' (response_success (cfg_success_status cfg))
| told_duplicate k :
    admitted c -> ctx_service c' = ctx_service c -> claim_of route request now = Some k ->
    state_of k c' = Some Completed \/ state_of k c' = Some Unknown -> told c c' (response_success (cfg_success_status cfg))
| told_failed e :
    dispatched c c' (Err (DispatchHandler e)) -> settled c' (Some Completed) -> told c c' (response_error 422 (str "capability_failed"))
| told_missing id :
    dispatched c c' (Err (DispatchCapabilityNotFound id)) -> settled c' None -> told c c' (response_error 404 (str "route_unavailable"))
| told_denied :
    dispatched c c' (Err (DispatchAccessDenied NotGranted)) -> settled c' None -> told c c' (response_error 404 (str "route_unavailable"))
| told_invalid :
    dispatched c c' (Err DispatchInvalidInput) -> settled c' None -> told c c' (response_error 422 (str "invalid_input"))
| told_policy :
    dispatched c c' (Err (DispatchAccessDenied PolicyUnavailable)) -> settled c' None -> told c c' (retryable (str "policy_unavailable"))
| told_audit e :
    dispatched c c' (Err (DispatchAudit e)) -> settled c' (Some Unknown) -> told c c' (retryable (str "audit_unavailable"))
| told_in_flight k :
    admitted c -> ctx_service c' = ctx_service c -> claim_of route request now = Some k -> state_of k c' = Some InFlight ->
    told c c' (retryable (str "delivery_in_flight"))
| told_capacity k policy d' :
    admitted c -> ctx_service c' = ctx_service c -> claim_of route request now = Some k ->
    claim k policy (unix_milliseconds now) (ctx_store c) = (Err DedupCapacityExhausted, d') -> told c c' (retryable (str "dedup_capacity"))
| told_unnamed e :
    admitted c -> ctx_service c' = ctx_service c -> generated = Err e -> settled c' None ->
    told c c' (retryable (str "identifier_generation_unavailable"))
| told_store k :
    admitted c -> claim_of route request now = Some k -> store_failed k -> ctx_service c' = ctx_service c \/ (exists r, dispatched c c' r) ->
    told c c' (retryable (str "dedup_store_unavailable")).

Lemma prepare_verify_error r c : prepare_verify route request now = Err r -> turned_away c r.
Proof.
  unfold prepare_verify. case_bool_decide as Hm; cbn [negb]; [|intros [= <-]; by apply away_method].
  destruct (try_i64 _) as [secs|] eqn:Hs; [|intros [= <-]; by apply away_clock]. cbn [ok_or mbind result_bind].
  destruct (verify _ _ secs) as [res|[]] eqn:Hv; cbn [map_err mbind result_bind].
  - repeat case_bool_decide; cbn [andb negb]; try done; intros [= <-]; (eapply away_unverified; [done|]); rewrite Hv; first [by left|by right].
  - intros [= <-]. by eapply away_rejected.
  - intros [= <-]. eapply away_unverified; [done|]. by rewrite Hv.
Qed.

Lemma collect_metadata_error headers m e :
  collect_metadata request headers m = Err e ->
  e = response_error 400 (str "invalid_metadata") /\
  exists name value, name ∈ headers /\ value ∈ header_values request name /\ from_utf8 value = None.
Proof.
  revert m. induction headers as [|name headers IH]; intros m; cbn [collect_metadata]; [done|].
  destruct (collect _ _) as [vs|e'] eqn:Hc; cbn [mbind result_bind].
  { intros (-> & n & v & ? & ?)%IH. split; [done|]. exists n, v. split; [by right|done]. }
  intros [= ->]. assert (e = response_error 400 (str "invalid_metadata") /\ exists value, value ∈ header_values request name /\ from_utf8 value = None)
    as (-> & v & ? & ?); [|split; [done|]; exists name, v; split; [by left|done]].
  revert Hc. induction (header_values request name) as [|v vs IHv]; cbn [collect]; [done|].
  destruct (from_utf8 v) eqn:Hv; cbn; [|intros [= <-]; split; [done|]; exists v; split; [by left|done]].
  destruct (collect _ vs); [done|]. intros [= ->]. destruct (IHv eq_refl) as (-> & w & ? & ?). split; [done|]. exists w. split; [by right|done].
Qed.

Lemma prepare_input_error r c : admitted c -> prepare_input from_slice route request = Err r -> turned_away c r.
Proof.
  intros Ha. unfold prepare_input, map_payload. destruct (has_json_content_type _ _) eqn:Hct; cbn [negb]; [|intros [= <-]; by apply away_media].
  destruct (Z.ltb_spec (body_bytes (cfg_limits cfg)) (Z.of_nat (length (request_body request)))); [intros [= <-]; by apply away_body|].
  destruct (retained_charge _ _) as [charge|] eqn:Hr; cbn [ok_or mbind result_bind]; [|intros [= <-]; apply away_capacity; [done|]; congruence].
  destruct (Z.ltb_spec (retained_bytes (cfg_limits cfg)) charge); [intros [= <-]; apply away_capacity; [done|]; congruence|].
  destruct (from_slice _) as [body|] eqn:Hb; cbn [ok_or mbind result_bind]; [|intros [= <-]; by apply away_json].
  destruct (cfg_mapping _) as [|headers] eqn:Hmap; [done|].
  destruct (collect_metadata _ _ _) as [m|e] eqn:Hm; [done|]. intros [= <-].
  apply collect_metadata_error in Hm as (-> & name & value & ? & ? & ?). by eapply away_metadata.
Qed.

(** The outcomes of [begin] that end the request. *)
Lemma begin_error c r c' :
  dedup_ok (ctx_store c) -> step_wf (StepBegin route request now generated) ->
  begin from_slice route request now generated c = (Err r, c') -> ctx_service c' = ctx_service c /\ told c c' r.
Proof.
  intros Hok (Hid & Hver & Ht). unfold begin, prepare.
  destruct (prepare_verify route request now) as [identity|e] eqn:Hpv.
  2: { intros [= <- <-]. split; [done|]. apply told_away; [by apply prepare_verify_error|done..]. }
  destruct (limiter_admit _ _ _) as [[|ra] l] eqn:Hl.
  2: { intros [= <- <-]. split; [done|]. apply told_away; [|done..]. apply away_limited; [by rewrite Hpv|by rewrite Hl]. }
  assert (admitted c) as Ha by (split; [by rewrite Hpv|by rewrite Hl]).
  destruct (prepare_input _ _ _) as [input|e] eqn:Hpi.
  2: { intros [= <- <-]. split; [done|]. apply told_away; [by apply prepare_input_error|done..]. }
  cbn [ctx_store with_limiter]. destruct identity as [identity|].
  - pose proof (prepare_verify_identity_wf _ _ _ _ Hver Hpv) as [Hns Hhash]. unfold prepare_claim.
    set (k := claim_key cfg identity). assert (claim_of route request now = Some k) as Hk by (unfold claim_of; by rewrite Hpv).
    pose proof (claim_spec k (claim_policy cfg identity) (unix_milliseconds now) (ctx_store c) Hok (conj Hid (conj Hns Hhash)) Ht) as Hs.
    destruct (claim _ _ _ _) as [[[|state]|e] d] eqn:Hclaim; destruct Hs as (Hok' & m & _ & Hs).
    + destruct generated as [id|e] eqn:Hg; [done|]. destruct Hs as [_ Hv].
      pose proof (settle_claimed release_claim _ d k (unix_milliseconds now) (mk_entry_of InFlight (claim_policy cfg identity) (unix_milliseconds now)) Hok' Ht
        ltac:(by rewrite Hv, lookup_insert_eq) (release_claim_spec k d Hok')) as Hr. unfold DedupGuard_release.
      destruct (guard_settle _ _ d) as [[[] gd] d2]; destruct Hr as (_ & Hgone & Hfail); intros [= <- <-]; (split; [done|]).
      * apply (told_unnamed _ _ e); try done. intros k' Hk'. rewrite Hk in Hk'. injection Hk' as <-. unfold state_of. cbn [ctx_store with_store]. by rewrite Hgone.
      * apply (told_store _ _ k); try done; [|by left]. destruct (Hfail eq_refl) as (err & d3 & Hrel). exists d, err, d3. auto.
    + destruct Hs as [(e & He & Hst) Hv]. assert (state_of k (with_store (with_limiter c l) d) = Some state) as Hstate.
      { unfold state_of. cbn [ctx_store with_store]. rewrite Hv, He. simpl. by rewrite Hst. }
      destruct state; intros [= <- <-]; (split; [done|]); [by apply (told_in_flight _ _ k)|apply (told_duplicate _ _ k); auto..].
    + destruct e; intros [= <- <-]; (split; [done|]); first [by eapply (told_capacity _ _ k)|apply (told_store _ _ k); try done; [|by left]].
      all: eexists (ctx_store c), _, d; left; split; [|by eexists]; done.
  - cbn [prepare_claim]. destruct generated as [id|e] eqn:Hg; [done|]. intros [= <- <-]. split; [done|]. apply (told_unnamed _ _ e); try done.
    intros k. unfold claim_of. by rewrite Hpv.
Qed.

(** A dispatch that [begin] accepted holds its claim. *)
Lemma begin_accepted c w c' :
  dedup_ok (ctx_store c) -> step_wf (StepBegin route request now generated) ->
  begin from_slice route request now generated c = (Ok w, c') ->
  ctx_service c' = ctx_service c /\ wd_success_status w = cfg_success_status cfg /\ dedup_ok (ctx_store c') /\ admitted c /\
  (exists id input, generated = Ok id /\ prepare_input from_slice route request = Ok input /\
    wd_invocation w = mk_invocation id (route_adapter route) (cfg_principal cfg) (cfg_capability cfg) input) /\
  match claim_of route request now with
  | None => wd_claim w = None
  | Some k => wd_claim w = Some (mk_guard (Some k) (unix_milliseconds now)) /\ state_of k c' = Some InFlight
  end.
Proof.
  intros Hok (Hid & Hver & Ht). unfold begin, prepare, claim_of, admitted.
  destruct (prepare_verify route request now) as [identity|e] eqn:Hpv; [|done].
  destruct (limiter_admit _ _ _) as [[|ra] l]; [|done]. destruct (prepare_input _ _ _) as [input|e]; [|done].
  cbn [ctx_store with_limiter]. destruct identity as [identity|].
  - pose proof (prepare_verify_identity_wf _ _ _ _ Hver Hpv) as [Hns Hhash]. unfold prepare_claim.
    set (k := claim_key cfg identity).
    pose proof (claim_spec k (claim_policy cfg identity) (unix_milliseconds now) (ctx_store c) Hok (conj Hid (conj Hns Hhash)) Ht) as Hs.
    destruct (claim _ _ _ _) as [[[|[]]|[]] d]; try done. destruct Hs as (Hok' & m & _ & _ & Hv).
    destruct generated as [id|]; [|by destruct (DedupGuard_release _ d) as [[[] gd] d2]].
    intros [= <- <-]. split_and!; try done; [by exists id, input|]. unfold state_of. cbn [ctx_store with_store]. by rewrite Hv, lookup_insert_eq.
  - cbn [prepare_claim]. destruct generated as [id|]; [|done]. intros [= <- <-]. split_and!; try done. by exists id, input.
Qed.

(** The state in which a dispatch leaves its claim. *)
Definition settled_state (r : result DispatchError Value) : option DedupState :=
  match r with
  | Ok _ | Err (DispatchHandler _) => Some Completed
  | Err (DispatchAudit _) => Some Unknown
  | Err (DispatchCapabilityNotFound _) | Err (DispatchAccessDenied _) | Err DispatchInvalidInput => None
  end.

(** What finishing does to a claim that is in flight. *)
Lemma finish_claimed w r d k e :
  dedup_ok d -> u64_time (unix_milliseconds now) -> wd_claim w = Some (mk_guard (Some k) (unix_milliseconds now)) -> dedup_view d !! k = Some e ->
  let '(response, d') := finish_dispatch w r d in
  let state := de_state <$> dedup_view d' !! k in
  (refusal r = false -> is_Some state) /\
  (response = retryable (str "dedup_store_unavailable") /\ store_failed k \/
   response = result_response r (wd_success_status w) /\ state = settled_state r).
Proof.
  set (t := unix_milliseconds now). intros Hok Ht Hw He. unfold finish_dispatch, commit_claim. rewrite Hw.
  pose proof (settle_claimed (fun key => complete key t) _ d k t e Hok Ht He (complete_spec k t d Hok Ht)) as Hc.
  pose proof (settle_claimed (fun key => mark_unknown key t) _ d k t e Hok Ht He (mark_unknown_spec k t d Hok Ht)) as Hu.
  pose proof (settle_claimed release_claim _ d k t e Hok Ht He (release_claim_spec k d Hok)) as Hr.
  unfold DedupGuard_complete, DedupGuard_mark_unknown, DedupGuard_release. cbn [guard_updated_at].
  assert (forall (x : bool * DedupGuard * D) to (failed : Prop),
    (let '(ok, gd, d') := x in (is_Some (to e) -> is_Some (dedup_view (DedupGuard_drop gd d') !! k)) /\
      (ok = true -> dedup_view (DedupGuard_drop gd d') !! k = to e) /\ (ok = false -> failed)) ->
    (failed -> store_failed k) -> de_state <$> to e = settled_state r ->
    let '(response, d') := (let '(ok, claim, d') := (let '(ok, g, d') := x in (ok, Some g, d')) in
      ((if ok then result_response r (wd_success_status w) else retryable (str "dedup_store_unavailable")), drop_claim claim d')) in
    (refusal r = false -> is_Some (de_state <$> dedup_view d' !! k)) /\
    (response = retryable (str "dedup_store_unavailable") /\ store_failed k \/
     response = result_response r (wd_success_status w) /\ de_state <$> dedup_view d' !! k = settled_state r)) as Hend.
  { intros [[ok gd] d'] to failed (Hsome & Hval & Hfail) Hf Hst. cbn [drop_claim]. split.
    - intros Href. rewrite fmap_is_Some. apply Hsome. rewrite <- (fmap_is_Some de_state), Hst. by destruct r as [|[]].
    - destruct ok; [right|left; auto]. by rewrite (Hval eq_refl). }
  destruct r as [v|[a|id|reason| |a]]; [eapply (Hend _ _ _ Hc)|eapply (Hend _ _ _ Hu)|eapply (Hend _ _ _ Hr)|eapply (Hend _ _ _ Hr)
    |eapply (Hend _ _ _ Hr)|eapply (Hend _ _ _ Hc)]; try done; intros (err & d3 & Herr); exists d, err, d3; auto.
Qed.

(** The answer to a dispatch that was not cut short by the store. *)
Lemma result_told c c' r :
  dispatched c c' r -> settled c' (settled_state r) -> told c c' (result_response r (cfg_success_status cfg)).
Proof. destruct r as [v|[a|id|[]| |a]]; cbn [result_response settled_state]; intros; by econstructor. Qed.
End answers.

(** A handler was started. *)
Definition started c c' : Prop := handler_runs (ctx_service c') <> handler_runs (ctx_service c).

End ingress.

(** ** An example: one delivery, sent again and again

    A route that is not idempotent, over the encrypted store and the dispatcher.  The sender
    repeats the delivery while it is in flight and after a crash; then the administrator
    allows a retry. *)

Section witness.
#[local] Instance ex_ingress_sql : SqlEnv := fun _ => false.
#[local] Instance ex_ingress_hmac : HmacSha256 := toy_hmac.
#[local] Instance ex_ingress_sha : Sha256 := toy_digest.
#[local] Instance ex_ingress_secrets : SecretProvider unit := fun _ _ => Ok (ResolvedSecret_current (mk_secret (str "secret"))).

Abbreviation ExService := (DispatcherService unit (list Value) GrantPolicy BoundedSink).
Definition ex_ingress_service : ExService :=
  mk_dispatcher_service
    (mk_dispatcher ex_registry
       (GrantPolicy_grant GrantPolicy_new (principal_id ex_principal) (ex_id "webhook") (ex_id "notes.create")).2
       (mk_bounded_sink [] 100)) [] Z.of_nat.
#[local] Instance ex_ingress_automation : AutomationService unit ExService :=
  DispatcherService_service ex_accepts.

Definition ex_ingress_context : WebhookIngressContext ExService SqlCipherDedupStore :=
  mk_context_of ex_ingress_service (mk_sql_dedup ex_dedup_store DedupStoreLimits_default) AuthenticatedRequestLimiter_default.

Definition ex_github : GitHubHmacSha256Verifier unit :=
  mk_github_verifier (mk_source (mk_secret_ref (str "hook")) ()) (mk_id GITHUB_HMAC_NAMESPACE).
Definition ex_ingress_configuration : WebhookRouteConfiguration :=
  WebhookRouteConfiguration_new (ex_id "hook") ex_principal (ex_id "notes.create") NonIdempotentMutation.
Definition ex_ingress_route : WebhookRoute (GitHubHmacSha256Verifier unit) :=
  mk_route ex_ingress_configuration ex_github (ex_id "webhook") [GITHUB_SIGNATURE_HEADER; CONTENT_TYPE].
Definition ex_ingress_request : VerificationRequest :=
  let body := str "{}" in
  mk_verification_request METHOD_POST (str "/hook")
    [mk_header GITHUB_SIGNATURE_HEADER (str "sha256=" ++ HmacSignature_to_hex (sign_components (mk_secret (str "secret")) [body]));
     mk_header CONTENT_TYPE (str "application/json")] body (PeerAddress_v4 127 0 0 1 443).
Definition ex_reader (_ : list byte) : option Value := Some empty_object.
Abbreviation ExStep := (IngressStep (S := ExService) (V := GitHubHmacSha256Verifier unit)).
Definition ex_begin (n : Z) : ExStep :=
  StepBegin ex_ingress_route ex_ingress_request (mk_ingress_time (1000000 + n) n) (Ok (ex_id "request_1")).
Definition ex_ingress_key : DedupKey :=
  mk_dedup_key (ex_id "hook") (mk_id GITHUB_HMAC_NAMESPACE) (mk_id_hash (toy_digest (toy_digest (str "{}")))).
Definition ex_ingress_steps : list ExStep :=
  [ex_begin 1; ex_begin 2; StepDispatch 0; StepCrash; StepRecover 1000003; ex_begin 4;
   StepResolve ex_ingress_key ResolveRetryAllowed 1000005; ex_begin 6; StepDispatch 1; StepFinish 1; ex_begin 7].

Lemma ex_ingress_route_built : WebhookRoute_new ex_ingress_configuration ex_github ex_ingress_context = Ok ex_ingress_route.
Proof. vm_compute. reflexivity. Qed.

Lemma ex_ingress_store_ok : dedup_ok (ctx_store ex_ingress_context).
Proof. split; [split_and!; done|apply ex_dedup_limits]. Qed.

Lemma ex_ingress_steps_wf : Forall step_wf ex_ingress_steps.
Proof.
  assert (forall n, 0 <= n <= 100 -> step_wf (ex_begin n)) as Hb.
  { intros n Hn. split; [vm_compute; reflexivity|]. split; [reflexivity|]. unfold u64_time. simpl. unfold U64_MAX. lia. }
  unfold ex_ingress_steps. repeat constructor; try (apply Hb; lia); vm_compute; discriminate.
Qed.

Lemma ex_ingress_retains : Forall (retains ex_ingress_key) ex_ingress_steps.
Proof.
  assert (forall n, prepare_verify ex_ingress_route ex_ingress_request (mk_ingress_time (1000000 + n) n) =
      Ok (Some (github_identity ex_ingress_request)) -> retains ex_ingress_key (ex_begin n)) as Hb.
  { intros n Hn identity Hv _. rewrite Hn in Hv. injection Hv as <-. vm_compute. reflexivity. }
  unfold ex_ingress_steps. repeat constructor; apply Hb; vm_compute; reflexivity.
Qed.




Lemma authenticated_rate_bounded_witness :
  let '(admitted, _) := limiter_run (mk_limiter 2 (mk_limiter_state 0 ∅))
    ((fun t => (principal_id ex_principal, t)) <$> [1000; 2000; 3000; 62000]) in
  length admitted = 3%nat /\ Z.of_nat (in_window 1500 (times (principal_id ex_principal) admitted)) <= 2.
Proof.
  assert (Forall (fun r : PrincipalId * Z => 0 <= r.2) ((fun t => (principal_id ex_principal, t)) <$> [1000; 2000; 3000; 62000])) as Hr
    by (apply (bool_decide_unpack _); vm_compute; exact I).
  pose proof (authenticated_rate_bounded 2 (mk_limiter 2 (mk_limiter_state 0 ∅))
    ((fun t => (principal_id ex_principal, t)) <$> [1000; 2000; 3000; 62000]) (principal_id ex_principal) 1500
    ltac:(lia) eq_refl Hr ltac:(lia)) as Hthm.
  assert (length (limiter_run (mk_limiter 2 (mk_limiter_state 0 ∅))
    ((fun t => (principal_id ex_principal, t)) <$> [1000; 2000; 3000; 62000])).1 = 3%nat) as Hl by (vm_compute; reflexivity).
  destruct (limiter_run _ _) as [admitted l]. split; [exact Hl|apply Hthm].
Defined.
End witness.
