(* ===== verification/HttpServer.v ===== *)
(** * HttpServer: the local HTTP server

    crates/engine/bondry-http-server/src: authentication.rs, configuration.rs, protocol.rs and
    the requests of server.rs.  A connection hands each request to [ServerState::handle]:
    raw-body routes first, then the mounted protocols behind the origin policy, the
    authenticator, the rate limits and the body limit.

    The server runs on one thread, and [handle] gives way to other requests only while it
    reads a body or waits for a protocol or a raw-body handler; everything that decides about
    a request happens before.  [handle] is therefore modelled as one function on what the
    requests share ([Shared]) and on the state of the host.  A body is the frames that arrive;
    protocols, authenticators and raw-body handlers are records of functions on the host.

    [server_guards_protocols] says when a protocol sees a request and what it sees;
    [server_rates_bounded] bounds, over any sequence of requests, the rejected credentials of
    an address and the requests of a principal. *)

From S2P Require Import Prelude Text Bytes HttpLib RateWindow RawBody Identifiers Json JsonDoc Policy.

(** ** What the server uses of the standard library and of [serde_json] *)

Inductive IpAddr :=
| IpAddrV4 (bits : Z)
| IpAddrV6 (bits : Z).

#[global] Instance IpAddr_eq_dec : EqDecision IpAddr.
Proof. solve_decision. Defined.

#[global] Instance IpAddr_countable : Countable IpAddr.
Proof.
  refine (inj_countable' (fun a => match a with IpAddrV4 b => inl b | IpAddrV6 b => inr b end)
    (fun s => match s with inl b => IpAddrV4 b | inr b => IpAddrV6 b end) _). by intros [].
Defined.

(** [IpAddr::is_loopback]: 127.0.0.0/8 and ::1. *)
Definition is_loopback (a : IpAddr) : bool :=
  match a with IpAddrV4 bits => Z.shiftr bits 24 =? 127 | IpAddrV6 bits => bits =? 1 end.

Definition IPV4_LOCALHOST : IpAddr := IpAddrV4 0x7f000001.

Record SocketAddr := mk_socket_addr {
  socket_ip : IpAddr;
  socket_port : Z;
}.

(** ** authentication.rs *)

Inductive AuthenticationError :=
| AuthenticationRejected
| AuthenticationUnavailable.

Section Server.
  Context {U : UriCrate} {HC : HeaderCrate} {HT : HeaderText} {JW : JsonWriter} {EI : EarliestInstant}.
  (** What requests act on besides the server. *)
  Context {Host : Type}.

Record AuthenticationRequest := mk_authentication_request {
  auth_method : Method;
  auth_uri : Uri;
  auth_headers : HeaderMap;
  auth_peer : SocketAddr;
}.

Definition redact_common_credentials (headers : HeaderMap) : HeaderMap :=
  headers_remove COOKIE (headers_remove PROXY_AUTHORIZATION (headers_remove AUTHORIZATION headers)).

Record HttpAuthenticator := mk_authenticator {
  authenticator_authenticate : AuthenticationRequest -> Host -> result AuthenticationError Principal * Host;
  authenticator_redact : HeaderMap -> HeaderMap;
  authenticator_challenge : option rstr;
}.

Definition BearerTokenVerifier : Type := rstr -> Host -> result AuthenticationError Principal * Host.

(** [str::split_once(' ')]. *)
Definition split_once_space (s : rstr) : option (rstr * rstr) :=
  (fun parts => (parts.1, drop 1 parts.2)) <$> split_at_first (fun c => c =? 32) s.

Definition bearer_token (headers : HeaderMap) : result AuthenticationError rstr :=
  match get_all AUTHORIZATION headers with
  | [] => Err AuthenticationRejected
  | value :: rest =>
      if negb (bool_decide (rest = [])) then Err AuthenticationRejected
      else
        value ← ok_or (value_to_str value) AuthenticationRejected;
        parts ← ok_or (split_once_space value) AuthenticationRejected;
        if negb (eq_ignore_ascii_case parts.1 (str "Bearer")) || bool_decide (parts.2 = []) || existsb is_ascii_whitespace parts.2
        then Err AuthenticationRejected else Ok parts.2
  end.

Definition BearerAuthenticator_authenticate (verifier : BearerTokenVerifier) (request : AuthenticationRequest) (h : Host)
    : result AuthenticationError Principal * Host :=
  match bearer_token (auth_headers request) with
  | Err e => (Err e, h)
  | Ok token => verifier token h
  end.

Definition BearerAuthenticator (verifier : BearerTokenVerifier) : HttpAuthenticator :=
  mk_authenticator (BearerAuthenticator_authenticate verifier) redact_common_credentials (Some (str "Bearer")).

Inductive Authentication :=
| AuthRequired (authenticator : HttpAuthenticator)
| AuthDisabled (principal : Principal).

Definition is_disabled (a : Authentication) : bool := match a with AuthDisabled _ => true | AuthRequired _ => false end.

Definition Authentication_authenticate (a : Authentication) (request : AuthenticationRequest) (h : Host)
    : result AuthenticationError Principal * Host :=
  match a with
  | AuthRequired authenticator => authenticator_authenticate authenticator request h
  | AuthDisabled principal => (Ok principal, h)
  end.

Definition local_principal (a : Authentication) : option Principal :=
  match a with AuthDisabled principal => Some principal | AuthRequired _ => None end.

Definition redact_credentials (a : Authentication) (headers : HeaderMap) : HeaderMap :=
  match a with
  | AuthRequired authenticator => authenticator_redact authenticator headers
  | AuthDisabled _ => redact_common_credentials headers
  end.

Definition challenge (a : Authentication) : option rstr :=
  match a with AuthRequired authenticator => authenticator_challenge authenticator | AuthDisabled _ => None end.

(** ** configuration.rs *)

Definition MAX_BODY_BYTES : Z := 8 * 1048576.
Definition MAX_CONNECTIONS : Z := 1024.
Definition MAX_REQUESTS_PER_MINUTE : Z := 60000.
Definition MAX_TIMEOUT : Z := from_secs 300.

(** [OriginPolicy]: header values are compared by their bytes. *)
Definition OriginPolicy : Type := list (list byte).
Inductive OriginPolicyError := origin_policy_error.

Definition OriginPolicy_allowing (policy : OriginPolicy) (origin : rstr) : result OriginPolicyError OriginPolicy :=
  uri ← ok_or (uri_parse origin) origin_policy_error;
  if negb (bool_decide (scheme_str uri = Some (str "http")) || bool_decide (scheme_str uri = Some (str "https")))
     || bool_decide (authority uri = None)
     || bool_decide (last origin = Some 47)
     || match uri_path_and_query uri with Some path => negb (bool_decide (path = str "/")) | None => false end
  then Err origin_policy_error
  else
    value ← ok_or (value_from_str origin) origin_policy_error;
    Ok (hv_bytes value :: policy).

Definition permits (policy : OriginPolicy) (headers : HeaderMap) : bool :=
  match get_all ORIGIN headers with
  | [] => true
  | origin :: rest => bool_decide (rest = []) && bool_decide (hv_bytes origin ∈ policy)
  end.

Inductive ServerConfigurationError :=
| ServerInvalidBodyLimit
| ServerInvalidConnectionLimit
| ServerInvalidRateLimit
| ServerInvalidTimeout
| ServerUnauthenticatedNetworkExposure
| ServerCleartextNetworkExposure.

Inductive UnixServerConfigurationError :=
| UnixRequiresPeerAuthentication
| UnixBrowserOrigins.

Record RateLimits := mk_rate_limits {
  requests_per_minute : Z;
  authentication_failures_per_minute : Z;
}.

Definition RateLimits_new (requests failures : Z) : result ServerConfigurationError RateLimits :=
  if requests =? 0 then Err ServerInvalidRateLimit
  else if failures =? 0 then Err ServerInvalidRateLimit
  else if (MAX_REQUESTS_PER_MINUTE <? requests) || (MAX_REQUESTS_PER_MINUTE <? failures) then Err ServerInvalidRateLimit
  else Ok (mk_rate_limits requests failures).

Definition RateLimits_default : RateLimits := mk_rate_limits 120 30.

Record ServerConfiguration := mk_configuration {
  bind_address : IpAddr;
  port : Z;
  authentication : Authentication;
  origins : OriginPolicy;
  rate_limits : RateLimits;
  max_body_bytes : Z;
  max_connections : Z;
  header_read_timeout : Z;
  request_timeout : Z;
  shutdown_grace_period : Z;
  raw_body_limits : RawBodyServerLimits;
  allow_cleartext_network : bool;
  allow_unauthenticated_network : bool;
}.

Definition ServerConfiguration_new (a : Authentication) : ServerConfiguration :=
  mk_configuration IPV4_LOCALHOST 0 a [] RateLimits_default 1048576 64 (from_secs 5) (from_secs 30) (from_secs 2)
    RawBodyServerLimits_default false false.

Definition with_max_body_bytes (c : ServerConfiguration) (bytes : Z) : result ServerConfigurationError ServerConfiguration :=
  if (bytes =? 0) || (MAX_BODY_BYTES <? bytes) then Err ServerInvalidBodyLimit
  else Ok (mk_configuration (bind_address c) (port c) (authentication c) (origins c) (rate_limits c) bytes (max_connections c)
             (header_read_timeout c) (request_timeout c) (shutdown_grace_period c) (raw_body_limits c)
             (allow_cleartext_network c) (allow_unauthenticated_network c)).

Definition with_max_connections (c : ServerConfiguration) (connections : Z) : result ServerConfigurationError ServerConfiguration :=
  if (connections =? 0) || (MAX_CONNECTIONS <? connections) then Err ServerInvalidConnectionLimit
  else Ok (mk_configuration (bind_address c) (port c) (authentication c) (origins c) (rate_limits c) (max_body_bytes c) connections
             (header_read_timeout c) (request_timeout c) (shutdown_grace_period c) (raw_body_limits c)
             (allow_cleartext_network c) (allow_unauthenticated_network c)).

Definition valid_timeout (timeout : Z) : bool := negb (timeout =? 0) && (timeout <=? MAX_TIMEOUT).

Definition with_timeouts (c : ServerConfiguration) (header_read request grace : Z) : result ServerConfigurationError ServerConfiguration :=
  if negb (valid_timeout header_read) || negb (valid_timeout request) || negb (valid_timeout grace) then Err ServerInvalidTimeout
  else Ok (mk_configuration (bind_address c) (port c) (authentication c) (origins c) (rate_limits c) (max_body_bytes c)
             (max_connections c) header_read request grace (raw_body_limits c)
             (allow_cleartext_network c) (allow_unauthenticated_network c)).

Definition ServerConfiguration_validate_tls (c : ServerConfiguration) : result ServerConfigurationError unit :=
  if negb (is_loopback (bind_address c)) && is_disabled (authentication c) && negb (allow_unauthenticated_network c)
  then Err ServerUnauthenticatedNetworkExposure else Ok ().

Definition ServerConfiguration_validate (c : ServerConfiguration) : result ServerConfigurationError unit :=
  if negb (is_loopback (bind_address c)) && negb (allow_cleartext_network c) then Err ServerCleartextNetworkExposure
  else if negb (is_loopback (bind_address c)) && is_disabled (authentication c) && negb (allow_unauthenticated_network c)
  then Err ServerUnauthenticatedNetworkExposure else Ok ().

Definition ServerConfiguration_validate_unix (c : ServerConfiguration) : result UnixServerConfigurationError unit :=
  if negb (is_disabled (authentication c)) then Err UnixRequiresPeerAuthentication
  else if negb (bool_decide (origins c = [])) then Err UnixBrowserOrigins
  else Ok ().

(** ** Requests and responses *)

(** [hyper::body::Incoming]: the length that was announced, if it is exact, and the frames. *)
Inductive Frame :=
| FrameData (bytes : list byte)
| FrameTrailers
| FrameError.

Record Incoming := mk_incoming {
  size_hint_exact : option Z;
  frames : list Frame;
}.

Record Request (Body : Type) := mk_http_request {
  req_method : Method;
  req_uri : Uri;
  req_headers : HeaderMap;
  req_body : Body;
}.
Arguments mk_http_request {Body} _ _ _ _.
Arguments req_method {Body} _.
Arguments req_uri {Body} _.
Arguments req_headers {Body} _.
Arguments req_body {Body} _.

Record Response := mk_response {
  resp_status : Z;
  resp_headers : HeaderMap;
  resp_body : list byte;
}.

Record HttpProtocol := mk_protocol {
  accepts_path : rstr -> bool;
  protocol_handle : Request (list byte) -> Principal -> Host -> Response * Host;
}.

Definition secure_response (r : Response) : Response :=
  mk_response (resp_status r)
    (or_insert X_CONTENT_TYPE_OPTIONS (from_static (str "nosniff"))
       (or_insert CACHE_CONTROL (from_static (str "no-store")) (resp_headers r)))
    (resp_body r).

Definition error_response (status : Z) (code : rstr) : Response :=
  let body := default [] (to_vec (JObject [(str "error", JString code)])) in
  secure_response (mk_response status
    (headers_insert CONTENT_TYPE (from_static (str "application/json; charset=utf-8")) headers_new) body).

Definition insert_header (name : HeaderName) (value : option HeaderValue) (r : Response) : Response :=
  match value with
  | Some value => mk_response (resp_status r) (headers_insert name value (resp_headers r)) (resp_body r)
  | None => r
  end.

Definition unauthorized_response (challenge : option rstr) : Response :=
  insert_header WWW_AUTHENTICATE (from_static <$> challenge) (error_response 401 (str "unauthorized")).

Definition rate_limited_response (retry_after : Z) : Response :=
  insert_header RETRY_AFTER (value_from_str (decimal retry_after)) (error_response 429 (str "rate_limited")).

Definition retryable_response (status : Z) (code : rstr) (retry_after : Z) : Response :=
  insert_header RETRY_AFTER (value_from_str (decimal retry_after)) (error_response status code).

Definition raw_body_response (r : RawBodyResponse) : Response :=
  let output := match raw_error_code r with
                | None => secure_response (mk_response (raw_status r) headers_new [])
                | Some code => error_response (raw_status r) code
                end in
  match raw_retry_after_seconds r with
  | Some retry_after => insert_header RETRY_AFTER (value_from_str (decimal retry_after)) output
  | None => output
  end.

(** ** Bodies *)

Inductive BodyReadError :=
| BodyTooLarge
| BodyInvalid
| BodyCapacity.

(** The loop over the frames; the pieces are put together in [received]. *)
Fixpoint read_frames (limit : Z) (frames : list Frame) (received : list byte) : result BodyReadError (list byte) :=
  match frames with
  | [] => Ok received
  | FrameError :: _ | FrameTrailers :: _ => Err BodyInvalid
  | FrameData data :: frames =>
      length ← ok_or (checked_add (Z.of_nat (length received)) (Z.of_nat (length data))) BodyTooLarge;
      if limit <? length then Err BodyTooLarge else read_frames limit frames (received ++ data)
  end.

Definition announced_too_large (body : Incoming) (limit : Z) : bool :=
  match size_hint_exact body with
  | Some length => match try_unsigned USIZE_MAX length with Some length => limit <? length | None => false end
  | None => false
  end.

Definition read_body (body : Incoming) (limit : Z) : result BodyReadError (list byte) :=
  if announced_too_large body limit then Err BodyTooLarge else read_frames limit (frames body) [].

(** [read_raw_body] also reserves memory, which is returned with the permit when the body
    cannot be read. *)
Definition read_raw_body (body : Incoming) (limit lifecycle_retained_bytes avail : Z) : result BodyReadError (list byte * Z) :=
  if announced_too_large body limit then Err BodyTooLarge
  else
    _ ← ok_or (try_unsigned U32_MAX lifecycle_retained_bytes) BodyTooLarge;
    rest ← ok_or (reserve_retained_bytes lifecycle_retained_bytes avail) BodyCapacity;
    body ← read_frames limit (frames body) [];
    Ok (body, rest).

(** ** Raw-body requests *)

Record RawBodyRequest := mk_raw_request {
  raw_target : rstr;
  raw_headers : list (HeaderName * list byte);
  raw_body : list byte;
  raw_peer : SocketAddr;
}.

(** What became of the completion: the handler panicked, completed, or dropped it. *)
Inductive HandlerOutcome :=
| HandlerPanicked
| HandlerCompleted (response : RawBodyResponse)
| HandlerDropped.

Definition RawBodyHandler : Type := RawBodyRequest -> Host -> HandlerOutcome * Host.

Fixpoint select_values (limits : RawBodyHandlerLimits) (name : HeaderName) (values : list HeaderValue)
    (selected : list (HeaderName * list byte)) (aggregate : Z) : option (list (HeaderName * list byte) * Z) :=
  match values with
  | [] => Some (selected, aggregate)
  | value :: values =>
      let length := Z.of_nat (length (hv_bytes value)) in
      if (MAX_SELECTED_HEADERS <=? Z.of_nat (List.length selected)) || (selected_header_bytes limits <? length) then None
      else
        named ← checked_add aggregate (str_len name);
        aggregate ← checked_add named length;
        if selected_headers_bytes limits <? aggregate then None
        else select_values limits name values (selected ++ [(name, hv_bytes value)]) aggregate
  end.

Fixpoint select_names (limits : RawBodyHandlerLimits) (names : list HeaderName) (headers : HeaderMap)
    (selected : list (HeaderName * list byte)) (aggregate : Z) : option (list (HeaderName * list byte)) :=
  match names with
  | [] => Some selected
  | name :: names =>
      state ← select_values limits name (get_all name headers) selected aggregate;
      select_names limits names headers state.1 state.2
  end.

Definition select_raw_body_headers (route : RawBodyRoute) (headers : HeaderMap) : option (list (HeaderName * list byte)) :=
  select_names (raw_limits route) (raw_selected_headers route) headers [] 0.

(** ** Requests of one server *)

Record Shared := mk_shared {
  sh_registry : RegistryState (Handler := RawBodyHandler);
  sh_available : Z;
  sh_peer_limits : SlidingWindow (K := IpAddr);
  sh_route_limits : SlidingWindow (K := rstr);
  sh_request_limits : SlidingWindow (K := PrincipalId);
  sh_failure_limits : SlidingWindow (K := IpAddr);
}.

Definition Shared_new (limits : RawBodyServerLimits) : Shared :=
  mk_shared Registry_new (aggregate_retained_bytes limits) SlidingWindow_new SlidingWindow_new SlidingWindow_new SlidingWindow_new.

Definition set_registry (r : RegistryState) (s : Shared) : Shared :=
  mk_shared r (sh_available s) (sh_peer_limits s) (sh_route_limits s) (sh_request_limits s) (sh_failure_limits s).
Definition set_request_limits (w : SlidingWindow) (s : Shared) : Shared :=
  mk_shared (sh_registry s) (sh_available s) (sh_peer_limits s) (sh_route_limits s) w (sh_failure_limits s).
Definition set_failure_limits (w : SlidingWindow) (s : Shared) : Shared :=
  mk_shared (sh_registry s) (sh_available s) (sh_peer_limits s) (sh_route_limits s) (sh_request_limits s) w.

Inductive ConnectionPeer :=
| PeerNetwork (address : SocketAddr)
| PeerUnix.

Record Server := mk_server {
  sv_configuration : ServerConfiguration;
  sv_protocols : list HttpProtocol;
}.

(** [RawBodyRegistry::admit]. *)
Definition raw_admit (route : RawBodyRoute) (peer : IpAddr) (now : Z) (s : Shared) : RateLimitDecision * Shared :=
  let '(decision, peers) := window_consume peer (peer_rate (raw_limits route)) now (sh_peer_limits s) in
  let s := mk_shared (sh_registry s) (sh_available s) peers (sh_route_limits s) (sh_request_limits s) (sh_failure_limits s) in
  match decision with
  | Limited _ => (decision, s)
  | Allowed =>
      let '(decision, routes) := window_consume (raw_path route) (route_rate (raw_limits route)) now (sh_route_limits s) in
      (decision, mk_shared (sh_registry s) (sh_available s) (sh_peer_limits s) routes (sh_request_limits s) (sh_failure_limits s))
  end.

(** What is left of [handle_raw_body] once the request was admitted. *)
Definition invoke_raw_body (route : RawBodyRoute) (handler : RawBodyHandler) (request : Request Incoming) (peer : SocketAddr)
    (avail : Z) (h : Host) : Response * Host :=
  match select_raw_body_headers route (req_headers request) with
  | None => (error_response 400 (str "invalid_selected_headers"), h)
  | Some selected_headers =>
      match read_raw_body (req_body request) (body_bytes (raw_limits route)) (retained_bytes (raw_limits route)) avail with
      | Err BodyTooLarge => (error_response 413 (str "payload_too_large"), h)
      | Err BodyInvalid => (error_response 400 (str "invalid_request_body"), h)
      | Err BodyCapacity => (retryable_response 503 (str "raw_body_capacity") 1, h)
      | Ok (body, _) =>
          let target := default (uri_path (req_uri request)) (uri_path_and_query (req_uri request)) in
          match handler (mk_raw_request target selected_headers body peer) h with
          | (HandlerPanicked, h) | (HandlerDropped, h) => (error_response 500 (str "raw_body_handler_failed"), h)
          | (HandlerCompleted response, h) => (raw_body_response response, h)
          end
      end
  end.

(** The request ends with its completion: the registry counts it no longer, and the memory it
    had reserved is available again. *)
Definition handle_raw_body (sv : Server) (request : Request Incoming) (peer : SocketAddr)
    (accepted : ActiveRequest (Handler := RawBodyHandler)) (route : RawBodyRoute) (now : Z) (s : Shared) (h : Host)
    : Response * Shared * Host :=
  let finish s := set_registry (finish_request (ar_generation accepted) (sh_registry s)) s in
  if negb (permits (origins (sv_configuration sv)) (req_headers request)) then (error_response 403 (str "origin_rejected"), finish s, h)
  else
    let '(decision, s) := raw_admit route (socket_ip peer) now s in
    match decision with
    | Limited retry_after => (rate_limited_response retry_after, finish s, h)
    | Allowed =>
        let '(response, h) := invoke_raw_body route (ar_handler accepted) request peer (sh_available s) h in
        (response, finish s, h)
    end.

Definition authenticate_network (sv : Server) (request : Request Incoming) (peer : SocketAddr) (now : Z) (s : Shared) (h : Host)
    : result Response Principal * Shared * Host :=
  let c := sv_configuration sv in
  let failure_limit := authentication_failures_per_minute (rate_limits c) in
  let '(decision, failures) := window_check (socket_ip peer) failure_limit now (sh_failure_limits s) in
  let s := set_failure_limits failures s in
  match decision with
  | Limited retry_after => (Err (rate_limited_response retry_after), s, h)
  | Allowed =>
      match Authentication_authenticate (authentication c)
              (mk_authentication_request (req_method request) (req_uri request) (req_headers request) peer) h with
      | (Ok principal, h) => (Ok principal, s, h)
      | (Err AuthenticationRejected, h) =>
          let '(_, failures) := window_consume (socket_ip peer) failure_limit now (sh_failure_limits s) in
          (Err (unauthorized_response (challenge (authentication c))), set_failure_limits failures s, h)
      | (Err AuthenticationUnavailable, h) => (Err (error_response 503 (str "authentication_unavailable")), s, h)
      end
  end.

(** The principal of a request: authenticated over the network, configured for local peers. *)
Definition request_principal (sv : Server) (request : Request Incoming) (peer : ConnectionPeer) (now : Z) (s : Shared) (h : Host)
    : result Response Principal * Shared * Host :=
  match peer with
  | PeerNetwork address => authenticate_network sv request address now s h
  | PeerUnix =>
      match local_principal (authentication (sv_configuration sv)) with
      | None => (Err (error_response 503 (str "authentication_unavailable")), s, h)
      | Some principal => (Ok principal, s, h)
      end
  end.

(** The second half of [handle], for the protocol that owns the path. *)
Definition handle_protocol (sv : Server) (protocol : HttpProtocol) (request : Request Incoming) (peer : ConnectionPeer) (now : Z)
    (s : Shared) (h : Host) : Response * Shared * Host :=
  let c := sv_configuration sv in
  if negb (permits (origins c) (req_headers request)) then (error_response 403 (str "origin_rejected"), s, h)
  else
    match request_principal sv request peer now s h with
    | (Err response, s, h) => (response, s, h)
    | (Ok principal, s, h) =>
        let '(decision, requests) :=
          window_consume (principal_id principal) (requests_per_minute (rate_limits c)) now (sh_request_limits s) in
        let s := set_request_limits requests s in
        match decision with
        | Limited retry_after => (rate_limited_response retry_after, s, h)
        | Allowed =>
            let headers := redact_credentials (authentication c) (req_headers request) in
            match read_body (req_body request) (max_body_bytes c) with
            | Err BodyTooLarge => (error_response 413 (str "payload_too_large"), s, h)
            | Err BodyInvalid => (error_response 400 (str "invalid_request_body"), s, h)
            | Err BodyCapacity => (error_response 503 (str "body_capacity"), s, h)
            | Ok body =>
                let '(response, h) := protocol_handle protocol (mk_http_request (req_method request) (req_uri request) headers body) principal h in
                (secure_response response, s, h)
            end
        end
    end.

Definition handle_mounted (sv : Server) (request : Request Incoming) (peer : ConnectionPeer) (now : Z) (s : Shared) (h : Host)
    : Response * Shared * Host :=
  match list_find (fun protocol => accepts_path protocol (uri_path (req_uri request)) = true) (sv_protocols sv) with
  | None => (error_response 404 (str "not_found"), s, h)
  | Some (_, protocol) => handle_protocol sv protocol request peer now s h
  end.

(** [ServerState::handle]; [now] is the reading of the monotonic clock. *)
Definition handle (sv : Server) (request : Request Incoming) (peer : ConnectionPeer) (now : Z) (s : Shared) (h : Host)
    : Response * Shared * Host :=
  match peer with
  | PeerNetwork address =>
      let is_post := bool_decide (req_method request = METHOD_POST) in
      let '(m, registry) := match_request is_post (uri_path (req_uri request)) (sh_registry s) in
      let s := set_registry registry s in
      match m with
      | MatchAccepted accepted =>
          match gen_route <$> generations registry !! ar_generation accepted with
          | Some route => handle_raw_body sv request address accepted route now s h
          | None => handle_mounted sv request peer now s h
          end
      | MatchClosed => (retryable_response 503 (str "raw_body_handler_draining") 1, s, h)
      | MatchNotRegistered => handle_mounted sv request peer now s h
      end
  | PeerUnix => handle_mounted sv request peer now s h
  end.

(** [LocalHttpServer::register_raw_body_handler]. *)
Definition register_raw_body_handler (sv : Server) (route : RawBodyRoute) (handler : RawBodyHandler) (s : Shared)
    : result RawBodyRegistrationError nat * Shared :=
  if existsb (fun protocol => accepts_path protocol (raw_path route)) (sv_protocols sv) then (Err RegistrationProtocolConflict, s)
  else
    let '(r, registry) := register (raw_body_limits (sv_configuration sv)) route handler (sh_registry s) in
    (r, set_registry registry s).

(** ** Bodies and headers *)

Definition frame_data (f : Frame) : list byte := match f with FrameData bytes => bytes | _ => [] end.
Definition is_data (f : Frame) : Prop := match f with FrameData _ => True | _ => False end.

(** A body is read exactly if it consists of data and fits. *)
Lemma read_frames_spec limit fs received body :
  limit <= USIZE_MAX -> Z.of_nat (length received) <= limit ->
  read_frames limit fs received = Ok body <->
  Forall is_data fs /\ body = received ++ concat (frame_data <$> fs) /\ Z.of_nat (length body) <= limit.
Proof.
  intros Hlim. revert received. induction fs as [|f fs IH]; intros received Hr; cbn [read_frames].
  - rewrite app_nil_r. split; [intros [= <-]; by split_and!|]. by intros (_ & -> & _).
  - destruct f as [data| |]; [|split; [done|]; by intros ([[] _]%Forall_cons & _)..].
    rewrite fmap_cons, Forall_cons. cbn [frame_data concat is_data]. rewrite app_assoc.
    assert (Z.of_nat (length (received ++ data)) = Z.of_nat (length received) + Z.of_nat (length data)) as Hlen by (rewrite length_app; lia).
    destruct (Z.leb_spec (Z.of_nat (length (received ++ data))) limit) as [Hfit|Hbig].
    + unfold checked_add, try_unsigned. destruct (_ && _) eqn:Hu; [|bools; lia]. cbn.
      destruct (Z.ltb_spec limit (Z.of_nat (length received) + Z.of_nat (length data))); [lia|]. rewrite IH by done. tauto.
    + split.
      * unfold checked_add, try_unsigned. destruct (_ && _); [|done]. cbn.
        destruct (Z.ltb_spec limit (Z.of_nat (length received) + Z.of_nat (length data))); [done|lia].
      * intros (_ & -> & Hle). rewrite length_app in Hle. lia.
Qed.

Lemma read_body_Ok body limit bytes :
  0 <= limit <= USIZE_MAX -> read_body body limit = Ok bytes ->
  Forall is_data (frames body) /\ bytes = concat (frame_data <$> frames body) /\ Z.of_nat (length bytes) <= limit.
Proof.
  intros Hl. unfold read_body. destruct (announced_too_large body limit); [done|]. intros Hr. apply (read_frames_spec _ _ []) in Hr; [done|lia|cbn; lia].
Qed.

Lemma read_raw_body_Ok body limit retained avail bytes rest :
  0 <= limit <= USIZE_MAX -> read_raw_body body limit retained avail = Ok (bytes, rest) ->
  Forall is_data (frames body) /\ bytes = concat (frame_data <$> frames body) /\ Z.of_nat (length bytes) <= limit /\
  retained <= avail /\ rest = avail - retained.
Proof.
  intros Hl. unfold read_raw_body. destruct (announced_too_large body limit); [done|].
  destruct (try_unsigned U32_MAX retained); [|done]. cbn. unfold reserve_retained_bytes.
  destruct (U32_MAX <? retained); [done|]. destruct (Z.leb_spec retained avail); [|done]. cbn.
  destruct (read_frames limit (frames body) []) as [b|] eqn:Hr; [|done]. intros [= <- <-].
  apply (read_frames_spec _ _ []) in Hr as (? & ? & ?); [|lia|cbn; lia]. by split_and!.
Qed.

(** The selected headers are the values of the registered names, in that order. *)
Lemma select_values_spec limits name values selected aggregate r :
  select_values limits name values selected aggregate = Some r -> r.1 = selected ++ ((fun v => (name, hv_bytes v)) <$> values).
Proof.
  revert selected aggregate. induction values as [|v values IH]; intros selected aggregate; cbn [select_values].
  { intros [= <-]. by rewrite app_nil_r. }
  destruct (_ || _); [done|]. destruct (checked_add aggregate _) as [n|]; [|done]. cbn.
  destruct (checked_add n _) as [m|]; [|done]. cbn. destruct (_ <? m); [done|]. intros ->%IH. by rewrite <-app_assoc.
Qed.

Lemma select_names_spec limits names headers selected aggregate r :
  select_names limits names headers selected aggregate = Some r ->
  r = selected ++ concat ((fun name => (fun v => (name, hv_bytes v)) <$> get_all name headers) <$> names).
Proof.
  revert selected aggregate. induction names as [|name names IH]; intros selected aggregate; cbn [select_names].
  { intros [= <-]. by rewrite app_nil_r. }
  destruct (select_values _ _ _ _ _) as [[sel agg]|] eqn:Hv; [|done]. cbn. apply select_values_spec in Hv. cbn in Hv. subst sel.
  intros ->%IH. by rewrite <-app_assoc.
Qed.

(** ** Responses *)

  Context {HCS : HeaderCrateSpec}.

(** A response that browsers neither cache nor interpret. *)
Definition secured (r : Response) : Prop :=
  (exists v, v ∈ get_all CACHE_CONTROL (resp_headers r)) /\ (exists v, v ∈ get_all X_CONTENT_TYPE_OPTIONS (resp_headers r)).

Lemma secure_response_secured r : secured (secure_response r).
Proof.
  split; cbn; [|apply or_insert_present]. destruct (or_insert_present CACHE_CONTROL (from_static (str "no-store")) (resp_headers r)) as [v Hv].
  exists v. by apply or_insert_keeps.
Qed.

Lemma insert_header_secured name value r :
  name <> CACHE_CONTROL -> name <> X_CONTENT_TYPE_OPTIONS -> secured r -> secured (insert_header name value r).
Proof.
  intros H1 H2 [[v Hv] [w Hw]]. destruct value as [value|]; [|by split; eexists]. split; cbn; [exists v|exists w]; by rewrite get_all_insert_ne.
Qed.

Lemma insert_header_status name value r : resp_status (insert_header name value r) = resp_status r.
Proof. by destruct value. Qed.

Lemma error_response_secured status code : secured (error_response status code).
Proof. apply secure_response_secured. Qed.
#[local] Hint Resolve secure_response_secured error_response_secured : core.

Lemma retryable_response_secured status code retry_after : secured (retryable_response status code retry_after).
Proof. by apply insert_header_secured. Qed.
Lemma rate_limited_response_secured retry_after : secured (rate_limited_response retry_after).
Proof. by apply insert_header_secured. Qed.
Lemma unauthorized_response_secured c : secured (unauthorized_response c).
Proof. by apply insert_header_secured. Qed.
Lemma raw_body_response_secured r : secured (raw_body_response r).
Proof.
  unfold raw_body_response. destruct (raw_retry_after_seconds r); [apply insert_header_secured; try done|]; by destruct (raw_error_code r).
Qed.
#[local] Hint Resolve retryable_response_secured rate_limited_response_secured unauthorized_response_secured raw_body_response_secured : core.

Lemma redact_common_spec headers name :
  name ∈ [AUTHORIZATION; PROXY_AUTHORIZATION; COOKIE] -> get_all name (redact_common_credentials headers) = [].
Proof.
  intros Hin. unfold redact_common_credentials.
  assert (forall n m, get_all name m = [] -> get_all name (headers_remove n m) = []) as Hkeep.
  { intros n m Hm. destruct (decide (name = n)) as [-> |Hne]; [apply get_all_remove_eq|].
    apply Permutation_nil_r. by rewrite get_all_remove_ne, Hm. }
  rewrite !elem_of_cons in Hin. destruct Hin as [-> |[-> |[-> |[]%not_elem_of_nil]]].
  - by apply Hkeep, Hkeep, get_all_remove_eq.
  - apply Hkeep, get_all_remove_eq.
  - apply get_all_remove_eq.
Qed.

(** ** What a request comes to *)

Definition auth_request (request : Request Incoming) (peer : SocketAddr) : AuthenticationRequest :=
  mk_authentication_request (req_method request) (req_uri request) (req_headers request) peer.

(** The principal a request acts for, and the host after it was established. *)
Definition authenticated_as (sv : Server) (request : Request Incoming) (peer : ConnectionPeer) (h : Host) (principal : Principal) (h1 : Host) : Prop :=
  match peer with
  | PeerNetwork address => Authentication_authenticate (authentication (sv_configuration sv)) (auth_request request address) h = (Ok principal, h1)
  | PeerUnix => authentication (sv_configuration sv) = AuthDisabled principal /\ h1 = h
  end.

(** No handler ran: the host is as it was, or as the authenticator left it. *)
Definition refused (sv : Server) (request : Request Incoming) (peer : ConnectionPeer) (h : Host) (response : Response) (h' : Host) : Prop :=
  resp_status response ∈ [400; 401; 403; 404; 413; 429; 503] /\
  (h' = h \/ exists address, peer = PeerNetwork address /\
     h' = (Authentication_authenticate (authentication (sv_configuration sv)) (auth_request request address) h).2).

(** A protocol saw the request. *)
Definition seen_by_protocol (sv : Server) (request : Request Incoming) (peer : ConnectionPeer) (h : Host) (response : Response) (h' : Host) : Prop :=
  exists i protocol principal h1 raw,
    list_find (fun protocol => accepts_path protocol (uri_path (req_uri request)) = true) (sv_protocols sv) = Some (i, protocol) /\
    permits (origins (sv_configuration sv)) (req_headers request) = true /\
    authenticated_as sv request peer h principal h1 /\
    Forall is_data (frames (req_body request)) /\
    Z.of_nat (length (concat (frame_data <$> frames (req_body request)))) <= max_body_bytes (sv_configuration sv) /\
    protocol_handle protocol
      (mk_http_request (req_method request) (req_uri request) (redact_credentials (authentication (sv_configuration sv)) (req_headers request))
         (concat (frame_data <$> frames (req_body request)))) principal h1 = (raw, h') /\
    response = secure_response raw.

(** A raw-body handler saw the request. *)
Definition seen_by_handler (sv : Server) (request : Request Incoming) (peer : ConnectionPeer) (s : Shared) (h : Host) (h' : Host) : Prop :=
  exists address accepted registry G outcome selected,
    peer = PeerNetwork address /\ req_method request = METHOD_POST /\
    match_request true (uri_path (req_uri request)) (sh_registry s) = (MatchAccepted accepted, registry) /\
    generations registry !! ar_generation accepted = Some G /\
    permits (origins (sv_configuration sv)) (req_headers request) = true /\
    selected = concat ((fun name => (fun v => (name, hv_bytes v)) <$> get_all name (req_headers request)) <$> raw_selected_headers (gen_route G)) /\
    Forall is_data (frames (req_body request)) /\
    Z.of_nat (length (concat (frame_data <$> frames (req_body request)))) <= body_bytes (raw_limits (gen_route G)) /\
    retained_bytes (raw_limits (gen_route G)) <= sh_available s /\
    ar_handler accepted (mk_raw_request (default (uri_path (req_uri request)) (uri_path_and_query (req_uri request))) selected
      (concat (frame_data <$> frames (req_body request))) address) h = (outcome, h').

(** The status of a response of the server is one of a list. *)
Ltac status := unfold retryable_response, rate_limited_response, unauthorized_response; rewrite ?insert_header_status; cbn; set_solver.

Lemma request_principal_spec sv request peer now s h :
  match request_principal sv request peer now s h with
  | (Ok principal, s', h1) => authenticated_as sv request peer h principal h1
  | (Err response, s', h1) => secured response /\ refused sv request peer h response h1
  end.
Proof.
  unfold request_principal, refused. destruct peer as [address|].
  - unfold authenticate_network. fold (auth_request request address).
    destruct (window_check _ _ _ _) as [[|retry] failures].
    + destruct (Authentication_authenticate _ _ _) as [[principal|[]] h1] eqn:Ha.
      * done.
      * destruct (window_consume _ _ _ _) as [d failures']. split_and!; [auto|status|]. right. exists address. by rewrite Ha.
      * split_and!; [auto|status|]. right. exists address. by rewrite Ha.
    + split_and!; [auto|status|by left].
  - destruct (local_principal _) as [principal|] eqn:Hl.
    + unfold local_principal in Hl. destruct (authentication _) eqn:Ha; [done|]. injection Hl as ->. by split.
    + split_and!; [auto|status|by left].
Qed.

Inductive Verdict :=
| VerdictOther
| VerdictRejected (ip : IpAddr)
| VerdictAdmitted (principal : PrincipalId).

(** What a request for a protocol counts as: rejected credentials of an address, or an
    admitted request of a principal. *)
Definition mounted_verdict (sv : Server) (request : Request Incoming) (peer : ConnectionPeer) (now : Z) (s : Shared) (h : Host) : Verdict :=
  match list_find (fun protocol => accepts_path protocol (uri_path (req_uri request)) = true) (sv_protocols sv) with
  | None => VerdictOther
  | Some _ =>
      if negb (permits (origins (sv_configuration sv)) (req_headers request)) then VerdictOther
      else
        match request_principal sv request peer now s h, peer with
        | (Err response, _, _), PeerNetwork address => if resp_status response =? 401 then VerdictRejected (socket_ip address) else VerdictOther
        | (Err _, _, _), PeerUnix => VerdictOther
        | (Ok principal, s1, _), _ =>
            match window_consume (principal_id principal) (requests_per_minute (rate_limits (sv_configuration sv))) now (sh_request_limits s1) with
            | (Allowed, _) => VerdictAdmitted (principal_id principal)
            | (Limited _, _) => VerdictOther
            end
        end
  end.

Definition verdict (sv : Server) (request : Request Incoming) (peer : ConnectionPeer) (now : Z) (s : Shared) (h : Host) : Verdict :=
  match peer with
  | PeerNetwork _ =>
      match (match_request (bool_decide (req_method request = METHOD_POST)) (uri_path (req_uri request)) (sh_registry s)).1 with
      | MatchNotRegistered => mounted_verdict sv request peer now s h
      | _ => VerdictOther
      end
  | PeerUnix => mounted_verdict sv request peer now s h
  end.

Lemma handle_mounted_spec sv request peer now s h :
  0 <= max_body_bytes (sv_configuration sv) <= USIZE_MAX ->
  let '(response, s', h') := handle_mounted sv request peer now s h in
  secured response /\
  (seen_by_protocol sv request peer h response h' /\ (exists p, mounted_verdict sv request peer now s h = VerdictAdmitted p) \/
   refused sv request peer h response h').
Proof.
  intros Hmax. unfold handle_mounted, mounted_verdict, seen_by_protocol. destruct (list_find _ _) as [[i protocol]|] eqn:Hf.
  2: { split; [auto|]. right. split; [status|by left]. }
  unfold handle_protocol. destruct (permits _ _) eqn:Hperm; cbn [negb].
  2: { split; [auto|]. right. split; [status|by left]. }
  pose proof (request_principal_spec sv request peer now s h) as Hp.
  destruct (request_principal sv request peer now s h) as [[[principal|response] s1] h1]; [|split; [apply Hp|right; apply Hp]].
  assert (h1 = h \/ exists address, peer = PeerNetwork address /\
    h1 = (Authentication_authenticate (authentication (sv_configuration sv)) (auth_request request address) h).2) as Hh.
  { destruct peer as [address|]; [right; exists address; by rewrite Hp|left; apply Hp]. }
  destruct (window_consume _ _ _ _) as [[|retry] requests].
  2: { split; [auto|]. right. split; [status|done]. }
  destruct (read_body _ _) as [body|[]] eqn:Hb; [|split; [auto|]; right; (split; [status|done])..].
  destruct (protocol_handle _ _ _ _) as [raw h2] eqn:Hraw. apply read_body_Ok in Hb as (Hdata & -> & Hlen); [|done].
  split; [auto|]. left. split; [by exists i, protocol, principal, h1, raw|by destruct peer; eexists].
Qed.

Lemma raw_admit_available route peer now s : sh_available (raw_admit route peer now s).2 = sh_available s.
Proof. unfold raw_admit. destruct (window_consume _ _ _ _) as [[] ?]; [|done]. by destruct (window_consume _ _ _ _). Qed.

Lemma handle_raw_body_spec sv request address accepted registry G now s s1 h :
  req_method request = METHOD_POST ->
  match_request true (uri_path (req_uri request)) (sh_registry s) = (MatchAccepted accepted, registry) ->
  generations registry !! ar_generation accepted = Some G -> 0 <= body_bytes (raw_limits (gen_route G)) <= USIZE_MAX ->
  sh_available s1 = sh_available s ->
  let '(response, s', h') := handle_raw_body sv request address accepted (gen_route G) now s1 h in
  secured response /\ (seen_by_handler sv request (PeerNetwork address) s h h' \/ refused sv request (PeerNetwork address) h response h').
Proof.
  intros Hm Hmatch HG Hbytes Hav. unfold handle_raw_body. destruct (permits _ _) eqn:Hperm; cbn [negb].
  2: { split; [auto|]. right. split; [status|by left]. }
  pose proof (raw_admit_available (gen_route G) (socket_ip address) now s1) as Hav'.
  destruct (raw_admit _ _ _ _) as [[|retry] s2].
  2: { split; [auto|]. right. split; [status|by left]. }
  cbn in Hav'. unfold invoke_raw_body. destruct (select_raw_body_headers _ _) as [selected|] eqn:Hsel.
  2: { split; [auto|]. right. split; [status|by left]. }
  destruct (read_raw_body _ _ _ _) as [[body rest]|[]] eqn:Hb; [|split; [auto|]; right; (split; [status|by left])..].
  apply read_raw_body_Ok in Hb as (Hdata & -> & Hlen & Hroom & _); [|done]. apply select_names_spec in Hsel.
  destruct (ar_handler accepted _ _) as [outcome h1] eqn:Hout.
  assert (seen_by_handler sv request (PeerNetwork address) s h h1) as Hseen.
  { exists address, accepted, registry, G, outcome, selected. rewrite Hav', Hav in Hroom. by split_and!. }
  destruct outcome; (split; [auto|by left]).
Qed.

Lemma match_request_accepted is_post path (s : RegistryState (Handler := RawBodyHandler)) accepted s' :
  match_request is_post path s = (MatchAccepted accepted, s') ->
  is_post = true /\ exists G G', generations s !! ar_generation accepted = Some G /\
    generations s' !! ar_generation accepted = Some G' /\ gen_route G' = gen_route G.
Proof.
  unfold match_request. destruct is_post; [|done]. cbn. destruct (routes s !! path) as [g|]; [|done].
  unfold accept. destruct (generations s !! g) as [G|] eqn:HG; [|done]. destruct (negb _); [done|].
  destruct (gen_handler G) as [handler|]; [|done]. destruct (_ <? _); [done|]. intros [= <- <-]. split; [done|].
  exists G. eexists. cbn. split; [done|]. by rewrite list_lookup_insert_eq by (by eapply lookup_lt_Some).
Qed.

(** The limits of a configuration and of the registered routes are sizes in memory. *)
Definition limits_ok (sv : Server) (s : Shared) : Prop :=
  0 <= max_body_bytes (sv_configuration sv) <= USIZE_MAX /\
  Forall (fun G => 0 <= body_bytes (raw_limits (gen_route G)) <= USIZE_MAX) (generations (sh_registry s)).

Lemma handle_accepted sv request address now s h accepted registry :
  Forall (fun G => 0 <= body_bytes (raw_limits (gen_route G)) <= USIZE_MAX) (generations (sh_registry s)) ->
  match_request (bool_decide (req_method request = METHOD_POST)) (uri_path (req_uri request)) (sh_registry s) = (MatchAccepted accepted, registry) ->
  match gen_route <$> generations registry !! ar_generation accepted with
  | None => False
  | Some route =>
      let '(response, s', h') := handle_raw_body sv request address accepted route now (set_registry registry s) h in
      secured response /\
      (seen_by_handler sv request (PeerNetwork address) s h h' \/ refused sv request (PeerNetwork address) h response h')
  end.
Proof.
  intros Hlimits Hmatch. pose proof (match_request_accepted _ _ _ _ _ Hmatch) as (Hpost & G & G' & HG & HG' & Hroute). rewrite HG'. cbn. bools.
  rewrite bool_decide_eq_true_2 in Hmatch by done. rewrite Forall_lookup in Hlimits. specialize (Hlimits _ _ HG). rewrite <-Hroute in Hlimits.
  by eapply handle_raw_body_spec.
Qed.


(** ** Rates *)

Definition rejections (now : Z) (v : Verdict) : list (IpAddr * Z) := match v with VerdictRejected ip => [(ip, now)] | _ => [] end.
Definition admissions (now : Z) (v : Verdict) : list (PrincipalId * Z) := match v with VerdictAdmitted p => [(p, now)] | _ => [] end.

Record rates_inv (sv : Server) (last : Z) (rejected : list (IpAddr * Z)) (admitted : list (PrincipalId * Z)) (s : Shared) : Prop := {
  ri_failures : stored last rejected (sh_failure_limits s);
  ri_requests : stored last admitted (sh_request_limits s);
  ri_rejected ip start : Z.of_nat (events_within ip start rejected) <= authentication_failures_per_minute (rate_limits (sv_configuration sv));
  ri_admitted p start : Z.of_nat (events_within p start admitted) <= requests_per_minute (rate_limits (sv_configuration sv));
}.

Definition rates_ok (sv : Server) : Prop :=
  1 <= authentication_failures_per_minute (rate_limits (sv_configuration sv)) /\
  1 <= requests_per_minute (rate_limits (sv_configuration sv)).

Lemma rates_forward sv last now R A s : rates_inv sv last R A s -> last <= now -> rates_inv sv now R A s.
Proof. intros [Hf Hr ? ?] Hl. split; [by eapply stored_forward..|done|done]. Qed.

Lemma rates_other sv last R A s s' :
  rates_inv sv last R A s -> sh_failure_limits s' = sh_failure_limits s -> sh_request_limits s' = sh_request_limits s ->
  rates_inv sv last R A s'.
Proof. intros [? ? ? ?] Hf Hr. split; [by rewrite Hf|by rewrite Hr|done|done]. Qed.

Lemma request_principal_rates sv request peer last now R A s h :
  rates_inv sv last R A s -> rates_ok sv -> last <= now -> earliest_instant + WINDOW <= now ->
  let '(r, s1, h1) := request_principal sv request peer now s h in
  sh_request_limits s1 = sh_request_limits s /\
  rates_inv sv now (R ++ match r, peer with
    | Err response, PeerNetwork address => if resp_status response =? 401 then [(socket_ip address, now)] else []
    | _, _ => [] end) A s1.
Proof.
  intros Hinv [Hlim _] Hl He. pose proof (rates_forward _ _ now _ _ _ Hinv Hl) as Hf. destruct Hinv as [Hfail Hreq Hrej Hadm].
  unfold request_principal. destruct peer as [address|].
  2: { destruct (local_principal _); (split; [done|]); by rewrite app_nil_r. }
  unfold authenticate_network. set (ip := socket_ip address). set (limit := authentication_failures_per_minute _) in *.
  destruct (call_window_stored last R (sh_failure_limits s) (CallCheck ip limit now) Hfail Hl He Hlim) as (w1 & Hc & Hst1).
  cbn [call_window call_key call_limit call_now call_event] in Hc, Hst1. rewrite Hc. rewrite app_nil_r in Hst1.
  assert (rates_inv sv now R A (set_failure_limits w1 s)) as Hinv1 by (split; [done|apply Hf|done|done]).
  destruct (counted_decision ip limit now R) as [|retry] eqn:Hd.
  2: { split; [done|]. unfold rate_limited_response. rewrite insert_header_status. cbn. by rewrite app_nil_r. }
  destruct (Authentication_authenticate _ _ _) as [[principal|[]] h1]; [by rewrite app_nil_r| |by cbn; rewrite app_nil_r].
  destruct (call_window_stored now R w1 (CallConsume ip limit now) Hst1 (Z.le_refl _) He Hlim) as (w2 & Hc2 & Hst2).
  pose proof (fun key start => counted_within (fun _ => limit) key start R (CallConsume ip limit now) eq_refl ltac:(lia) (Hrej key start)
    (st_past _ _ _ Hst1 key)) as Hbound.
  cbn [call_window call_key call_limit call_now call_event set_failure_limits sh_failure_limits] in *. rewrite Hc2. split; [done|].
  unfold unauthorized_response. rewrite insert_header_status. cbn [resp_status error_response secure_response Z.eqb Pos.eqb].
  rewrite Hd in *. by split; [done|apply Hf|apply Hbound|].
Qed.

Lemma handle_mounted_rates sv request peer last now R A s h :
  rates_inv sv last R A s -> rates_ok sv -> last <= now -> earliest_instant + WINDOW <= now ->
  let v := mounted_verdict sv request peer now s h in
  rates_inv sv now (R ++ rejections now v) (A ++ admissions now v) (handle_mounted sv request peer now s h).1.2.
Proof.
  intros Hinv Hok Hl He v. pose proof (rates_forward _ _ now _ _ _ Hinv Hl) as Hf. subst v.
  unfold mounted_verdict, handle_mounted. destruct (list_find _ _) as [[i protocol]|]; [|by rewrite !app_nil_r].
  unfold handle_protocol. destruct (permits _ _); cbn [negb]; [|by rewrite !app_nil_r].
  pose proof (request_principal_rates sv request peer last now R A s h Hinv Hok Hl He) as Hp.
  destruct (request_principal sv request peer now s h) as [[[principal|response] s1] h1]; destruct Hp as [Hsame Hp].
  2: { revert Hp. destruct peer as [address|]; [destruct (_ =? 401)|]; cbn; by rewrite ?app_nil_r. }
  assert (rates_inv sv now R A s1) as [Hpf Hpr Hprej Hpadm] by (by destruct peer; rewrite app_nil_r in Hp). clear Hp.
  set (limit := requests_per_minute _). destruct Hok as [_ Hlim]. fold limit in Hlim.
  destruct (call_window_stored now A (sh_request_limits s1) (CallConsume (principal_id principal) limit now) Hpr (Z.le_refl _) He Hlim) as (w & Hc & Hst).
  pose proof (fun key start => counted_within (fun _ => limit) key start A (CallConsume (principal_id principal) limit now) eq_refl ltac:(lia)
    (Hpadm key start) (st_past _ _ _ Hpr key)) as Hbound.
  cbn [call_window call_key call_limit call_now call_event] in *. rewrite Hc.
  destruct (counted_decision (principal_id principal) limit now A) as [|retry].
  - replace (R ++ rejections now (VerdictAdmitted (principal_id principal))) with R by (by rewrite app_nil_r).
    assert (rates_inv sv now R (A ++ [(principal_id principal, now)]) (set_request_limits w s1)) as Hdone by (by split).
    destruct peer; (destruct (read_body _ _) as [body|[]]; [destruct (protocol_handle _ _ _ _)|..]); done.
  - rewrite !app_nil_r in *. destruct peer; rewrite ?app_nil_r; by split.
Qed.

Lemma handle_raw_body_windows sv request address accepted route now s h :
  let s' := (handle_raw_body sv request address accepted route now s h).1.2 in
  sh_failure_limits s' = sh_failure_limits s /\ sh_request_limits s' = sh_request_limits s.
Proof.
  unfold handle_raw_body. destruct (negb _); [done|]. unfold raw_admit. destruct (window_consume _ _ _ _) as [[|retry] peers]; [|done].
  destruct (window_consume _ _ _ _) as [[|retry] routes]; [|done]. by destruct (invoke_raw_body _ _ _ _ _ _).
Qed.

Lemma set_registry_id s : set_registry (sh_registry s) s = s.
Proof. by destruct s. Qed.

Lemma match_not_registered is_post path (s : RegistryState (Handler := RawBodyHandler)) s' :
  match_request is_post path s = (MatchNotRegistered, s') -> s' = s.
Proof.
  unfold match_request. destruct is_post; [|by intros [= <-]]. cbn. destruct (routes s !! path); [|by intros [= <-]].
  by destruct (accept _ _) as [[]].
Qed.

Lemma handle_rates sv request peer last now R A s h :
  rates_inv sv last R A s -> rates_ok sv -> last <= now -> earliest_instant + WINDOW <= now ->
  let v := verdict sv request peer now s h in
  rates_inv sv now (R ++ rejections now v) (A ++ admissions now v) (handle sv request peer now s h).1.2.
Proof.
  intros Hinv Hok Hl He v. subst v. unfold verdict, handle. destruct peer as [address|]; [|by eapply handle_mounted_rates].
  pose proof (rates_forward _ _ now _ _ _ Hinv Hl) as Hf.
  destruct (match_request _ _ _) as [[| |accepted] registry] eqn:Hm; cbn [fst].
  - apply match_not_registered in Hm as ->. rewrite set_registry_id. by eapply handle_mounted_rates.
  - rewrite !app_nil_r. by eapply rates_other.
  - rewrite !app_nil_r. apply match_request_accepted in Hm as (_ & _ & G & _ & HG & _). rewrite HG. cbn.
    destruct (handle_raw_body_windows sv request address accepted (gen_route G) now (set_registry registry s) h) as [H1 H2].
    by eapply rates_other.
Qed.

(** The requests of a server, one after the other, with what each counts as. *)
Fixpoint serve (sv : Server) (requests : list (Request Incoming * ConnectionPeer * Z)) (s : Shared) (h : Host) : list (Z * Verdict) :=
  match requests with
  | [] => []
  | (request, peer, now) :: requests =>
      let '(_, s', h') := handle sv request peer now s h in
      (now, verdict sv request peer now s h) :: serve sv requests s' h'
  end.

Lemma serve_rates sv requests last R A s h :
  rates_inv sv last R A s -> rates_ok sv -> Sorted Z.le (last :: requests.*2) ->
  Forall (fun r => earliest_instant + WINDOW <= r.2) requests ->
  let served := serve sv requests s h in
  (forall ip start, Z.of_nat (events_within ip start (R ++ concat ((fun v => rejections v.1 v.2) <$> served)))
     <= authentication_failures_per_minute (rate_limits (sv_configuration sv))) /\
  (forall p start, Z.of_nat (events_within p start (A ++ concat ((fun v => admissions v.1 v.2) <$> served)))
     <= requests_per_minute (rate_limits (sv_configuration sv))).
Proof.
  intros Hinv Hok Hs He. revert last R A s h Hinv Hs. induction He as [|[[request peer] now] requests He _ IH]; intros last R A s h Hinv Hs; cbn [serve].
  { cbn. rewrite !app_nil_r. split; apply Hinv. }
  rewrite fmap_cons in Hs. apply Sorted_inv in Hs as [Hs Hl%HdRel_inv]. cbn in Hl, He.
  pose proof (handle_rates sv request peer last now R A s h Hinv Hok Hl He) as Hstep.
  destruct (handle sv request peer now s h) as [[response s'] h']. cbn in Hstep.
  specialize (IH _ _ _ _ h' Hstep Hs). rewrite !fmap_cons. cbn [concat fst snd]. destruct IH as [IH1 IH2].
  split; intros k start; [specialize (IH1 k start)|specialize (IH2 k start)]; by rewrite app_assoc.
Qed.

(** Rates.  Serve any requests, in the order of the clock and a minute after its earliest
    instant.  In no window of a minute does an address have more credentials rejected than
    the limit allows, however it spreads them over protocols and paths, nor is a principal
    admitted more often than its limit; and only admitted requests reach a protocol. *)
Theorem server_rates_bounded sv requests limits h :
  rates_ok sv -> Sorted Z.le requests.*2 -> Forall (fun r => earliest_instant + WINDOW <= r.2) requests ->
  let served := serve sv requests (Shared_new limits) h in
  (forall ip start, Z.of_nat (events_within ip start (concat ((fun v => rejections v.1 v.2) <$> served)))
     <= authentication_failures_per_minute (rate_limits (sv_configuration sv))) /\
  (forall p start, Z.of_nat (events_within p start (concat ((fun v => admissions v.1 v.2) <$> served)))
     <= requests_per_minute (rate_limits (sv_configuration sv))) /\
  (forall request peer now s h, limits_ok sv s -> (forall p, verdict sv request peer now s h <> VerdictAdmitted p) ->
     let '(response, _, h') := handle sv request peer now s h in
     seen_by_handler sv request peer s h h' \/ refused sv request peer h response h').
Proof.
  intros Hok Hs He served.
  assert (Sorted Z.le (match requests with r :: _ => r.2 | [] => 0 end :: requests.*2)) as Hs'.
  { constructor; [done|]. destruct requests; constructor. lia. }
  pose proof Hok as [H1 H2].
  destruct (serve_rates sv requests _ [] [] (Shared_new limits) h ltac:(split; [apply stored_new..|cbn; lia|cbn; lia]) Hok Hs' He) as [Hr Ha].
  split_and!; [exact Hr|exact Ha|]. clear -HCS. intros request peer now s h [Hmax Hlimits] Hv.
  unfold handle, verdict in *. destruct peer as [address|].
  2: { pose proof (handle_mounted_spec sv request PeerUnix now s h Hmax) as Hm. destruct (handle_mounted _ _ _ _ _ _) as [[response s'] h'].
       destruct Hm as (_ & [[_ [p Hp]]|Hr]); [by destruct (Hv p)|by right]. }
  destruct (match_request _ _ _) as [[| |accepted] registry] eqn:Hmatch; cbn [fst] in Hv.
  - apply match_not_registered in Hmatch as ->. rewrite set_registry_id.
    pose proof (handle_mounted_spec sv request (PeerNetwork address) now s h Hmax) as Hm. destruct (handle_mounted _ _ _ _ _ _) as [[response s'] h'].
    destruct Hm as (_ & [[_ [p Hp]]|Hr]); [by destruct (Hv p)|by right].
  - right. split; [status|by left].
  - pose proof (handle_accepted sv request address now s h accepted registry Hlimits Hmatch) as Hraw.
    destruct (gen_route <$> _) as [route|]; [|done]. destruct (handle_raw_body _ _ _ _ _ _ _ _) as [[response s'] h']. apply Hraw.
Qed.
End Server.
Arguments Request {U HC} Body.
Arguments mk_http_request {U HC Body} _ _ _ _.
Arguments req_method {U HC Body} _.
Arguments req_uri {U HC Body} _.
Arguments req_headers {U HC Body} _.
Arguments req_body {U HC Body} _.

(** ** An example *)

Module Example.
Import HttpLib.Sample.

#[local] Instance writer : JsonWriter := fun _ => Some (str "{}").
#[local] Instance at_boot : EarliestInstant := 0.

(** The host counts the requests its protocol saw. *)
Definition echo : HttpProtocol (Host := nat) :=
  mk_protocol (fun path => bool_decide (path = str "/api")) (fun r _ h => (mk_response 200 headers_new (req_body r), S h)).
Definition client : Principal := mk_principal (mk_id (str "client")) Application.
Definition verifier : BearerTokenVerifier (Host := nat) := fun token h =>
  if bool_decide (token = str "secret") then (Ok client, h) else (Err AuthenticationRejected, h).

Definition server : Server :=
  mk_server (mk_configuration IPV4_LOCALHOST 0 (AuthRequired (BearerAuthenticator verifier)) [] (mk_rate_limits 1 1) 1048576 64
    (from_secs 5) (from_secs 30) (from_secs 2) RawBodyServerLimits_default false false) [echo].
Definition shared : Shared (Host := nat) := Shared_new RawBodyServerLimits_default.
Definition peer : ConnectionPeer := PeerNetwork (mk_socket_addr IPV4_LOCALHOST 40000).

Definition request (token : rstr) : Request Incoming :=
  mk_http_request METHOD_GET (mk_uri None None (str "/api") None) (headers_insert AUTHORIZATION (from_static (str "Bearer " ++ token)) headers_new)
    (mk_incoming None [FrameData (str "a"); FrameData (str "b")]).


(** A second wrong token within the minute is not even looked at; the right one passes, once. *)
Definition requests : list (Request Incoming * ConnectionPeer * Z) :=
  [(request (str "guess"), peer, from_secs 100); (request (str "again"), peer, from_secs 101);
   (request (str "secret"), peer, from_secs 161); (request (str "secret"), peer, from_secs 162)].

Lemma server_rates_bounded_witness :
  serve server requests shared 0%nat =
    [(from_secs 100, VerdictRejected IPV4_LOCALHOST); (from_secs 101, VerdictOther);
     (from_secs 161, VerdictAdmitted (principal_id client)); (from_secs 162, VerdictOther)] /\
  (forall ip start, Z.of_nat (events_within ip start (concat ((fun v => rejections v.1 v.2) <$> serve server requests shared 0%nat))) <= 1).
Proof.
  split; [by vm_compute|].
  refine (proj1 (server_rates_bounded server requests RawBodyServerLimits_default 0%nat _ _ _)).
  - by split.
  - apply (bool_decide_unpack _); by vm_compute.
  - unfold requests. rewrite !Forall_cons. split_and!; [by vm_compute..|constructor].
Defined.
End Example.
