(* ===== verification/McpProto.v ===== *)
(** * McpProto: the messages of the Model Context Protocol

    version.rs, server_info.rs, client_info.rs and protocol.rs of [bondry-mcp-proto]: protocol
    revisions, the metadata implementations present themselves with, and JSON-RPC messages
    with their answers.  [rpc_parse_result] and [rpc_parse_error] say that an answer is read
    back as what it was written from. *)

From S2P Require Import Prelude Text Bytes Base64 HttpLib Json JsonDoc RawBody HttpServer.

(** ** version.rs *)

Definition LATEST_PROTOCOL_VERSION : rstr := str "2026-07-28".
Definition SUPPORTED_PROTOCOL_VERSIONS : list rstr := [LATEST_PROTOCOL_VERSION; str "2025-11-25"].

Inductive McpProtocolVersion := V2026_07_28 | V2025_11_25.
#[global] Instance McpProtocolVersion_eq_dec : EqDecision McpProtocolVersion.
Proof. solve_decision. Defined.

Definition version_parse (value : rstr) : option McpProtocolVersion :=
  if bool_decide (value = LATEST_PROTOCOL_VERSION) then Some V2026_07_28
  else if bool_decide (value = str "2025-11-25") then Some V2025_11_25
  else None.
Definition negotiate_legacy (requested : rstr) : McpProtocolVersion := V2025_11_25.
Definition version_str (v : McpProtocolVersion) : rstr :=
  match v with V2026_07_28 => LATEST_PROTOCOL_VERSION | V2025_11_25 => str "2025-11-25" end.
Definition is_modern (v : McpProtocolVersion) : bool := match v with V2026_07_28 => true | V2025_11_25 => false end.

Lemma version_roundtrip v : version_parse (version_str v) = Some v.
Proof. by destruct v. Qed.

(** ** server_info.rs and client_info.rs *)

Definition MAX_NAME_LENGTH : Z := 128.
Definition MAX_TITLE_LENGTH : Z := 256.
Definition MAX_VERSION_LENGTH : Z := 64.

(** [McpServerInfoError], and [McpClientInfoError] with the same variants. *)
Inductive McpInfoError := InfoEmpty | InfoTooLong | InfoControlCharacter.

Definition info_validate (value : rstr) (max_length : Z) : result McpInfoError rstr :=
  if bool_decide (trim value = []) then Err InfoEmpty
  else if max_length <? str_len value then Err InfoTooLong
  else if existsb is_control value then Err InfoControlCharacter
  else Ok value.

Record McpServerInfo := mk_server_info { si_name : rstr; si_title : option rstr; si_version : rstr }.
Record McpClientInfo := mk_client_info { ci_name : rstr; ci_version : rstr }.

Definition McpServerInfo_new (name version : rstr) : result McpInfoError McpServerInfo :=
  name ← info_validate name MAX_NAME_LENGTH;
  version ← info_validate version MAX_VERSION_LENGTH;
  Ok (mk_server_info name None version).
Definition McpServerInfo_with_title (info : McpServerInfo) (title : rstr) : result McpInfoError McpServerInfo :=
  title ← info_validate title MAX_TITLE_LENGTH;
  Ok (mk_server_info (si_name info) (Some title) (si_version info)).
Definition server_info_json (info : McpServerInfo) : Value :=
  let value := json_object [(str "name", JString (si_name info)); (str "version", JString (si_version info))] in
  match si_title info with Some title => index_set (str "title") (JString title) value | None => value end.

Definition McpClientInfo_new (name version : rstr) : result McpInfoError McpClientInfo :=
  name ← info_validate name MAX_NAME_LENGTH;
  version ← info_validate version MAX_VERSION_LENGTH;
  Ok (mk_client_info name version).
Definition client_info_json (info : McpClientInfo) : Value :=
  json_object [(str "name", JString (ci_name info)); (str "version", JString (ci_version info))].

(** ** Tool names in headers *)

(** The [base64] crate's [STANDARD] engine: what it encodes decodes to the same bytes, and is
    made of letters, digits, [+], [/] and [=]. *)
Class Base64Standard := { std_encode : list byte -> rstr; std_decode : rstr -> option (list byte) }.
Class Base64StandardSpec `{Base64Standard} : Prop := {
  std_decode_encode bs : bytes_wf bs -> std_decode (std_encode bs) = Some bs;
  std_alphabet bs : bytes_wf bs -> Forall (fun c => is_ascii_alphanumeric c || (c =? 43) || (c =? 47) || (c =? 61) = true) (std_encode bs);
}.

(** RFC 4648 with the standard alphabet; the padding is left out. *)
Definition to_standard (c : char) : char := if c =? 45 then 43 else if c =? 95 then 47 else c.
Definition of_standard (c : char) : char := if c =? 43 then 45 else if c =? 47 then 95 else c.
Definition unpadded_standard : Base64Standard := {|
  std_encode bs := to_standard <$> rfc_encode bs;
  std_decode s := rfc_decode (of_standard <$> s);
|}.

Lemma unpadded_standard_spec : @Base64StandardSpec unpadded_standard.
Proof.
  split; cbn; intros bs Hbs; pose proof (rfc_alphabet bs Hbs) as Ha.
  - rewrite <-(rfc_decode_encode bs Hbs). f_equal. rewrite <-list_fmap_compose. rewrite <-(list_fmap_id (rfc_encode bs)) at 2.
    apply list_fmap_ext. intros i c Hc. rewrite Forall_lookup in Ha. apply Ha in Hc. cbn.
    unfold of_standard, to_standard, url_safe, is_ascii_alphanumeric, is_ascii_digit, is_ascii_alphabetic in *.
    repeat case_match; bools; lia.
  - rewrite Forall_fmap. eapply Forall_impl; [exact Ha|]. intros c Hc. cbn. unfold to_standard, url_safe in *.
    destruct (Z.eqb_spec c 45); [by subst|]. destruct (Z.eqb_spec c 95); [by subst|]. rewrite !orb_true_iff in Hc.
    destruct Hc as [[Hc|]|]; [by rewrite Hc|done..].
Qed.

(** [str::strip_suffix]. *)
Definition strip_suffix (p s : rstr) : option rstr := reverse <$> strip_prefix (reverse p) (reverse s).
Lemma strip_suffix_app p s : strip_suffix p (s ++ p) = Some s.
Proof. unfold strip_suffix. rewrite reverse_app, strip_prefix_app. cbn. by rewrite reverse_involutive. Qed.

(** [encoded_name_header] of client.rs before it becomes a header value, and
    [decode_header_value] of lib.rs. *)
Definition encode_name `{Base64Standard} (name : rstr) : rstr := str "=?base64?" ++ std_encode (as_bytes name) ++ str "?=".
Definition decode_header_value `{Base64Standard} (value : rstr) : option rstr :=
  match (encoded ← strip_prefix (str "=?base64?") value; strip_suffix (str "?=") encoded) with
  | Some encoded => bytes ← std_decode encoded; from_utf8 bytes
  | None => Some value
  end.

(** ** protocol.rs *)

Definition CALL_TOOL_METHOD : rstr := str "tools/call".
Definition CLIENT_CAPABILITIES_META : rstr := str "io.modelcontextprotocol/clientCapabilities".
Definition CLIENT_INFO_META : rstr := str "io.modelcontextprotocol/clientInfo".
Definition DISCOVER_METHOD : rstr := str "server/discover".
Definition INITIALIZE_METHOD : rstr := str "initialize".
Definition INITIALIZED_METHOD : rstr := str "notifications/initialized".
Definition LIST_TOOLS_METHOD : rstr := str "tools/list".
Definition METHOD_HEADER : HeaderName := str "mcp-method".
Definition NAME_HEADER : HeaderName := str "mcp-name".
Definition PROTOCOL_VERSION_HEADER : HeaderName := str "mcp-protocol-version".
Definition PROTOCOL_VERSION_META : rstr := str "io.modelcontextprotocol/protocolVersion".
Definition SERVER_INFO_META : rstr := str "io.modelcontextprotocol/serverInfo".
Definition ACCEPT : HeaderName := str "accept".

Record RpcRequest := mk_rpc_request { rpc_id : Value; rpc_method : rstr; rpc_params : option Value }.
(** [RpcResponsePayload]; an [RpcError] keeps its code. *)
Inductive RpcResponsePayload := PayloadResult (v : Value) | PayloadError (code : Z).
Record RpcResponse := mk_rpc_response { response_id : Value; response_payload : RpcResponsePayload }.

Inductive Message :=
| MsgRequest (r : RpcRequest)
| MsgNotification (params : option Value)
| MsgResponse (r : RpcResponse).

Record ProtocolError := mk_protocol_error { pe_code : Z; pe_message : rstr }.
Definition invalid_request : ProtocolError := mk_protocol_error (-32600) (str "Invalid Request").

Definition valid_id (id : Value) : bool :=
  match id with
  | JString _ => true
  | JNumber _ => bool_decide (is_Some (as_i64 id)) || bool_decide (is_Some (as_u64 id))
  | _ => false
  end.

Definition is_none_or {A} (p : A -> bool) (o : option A) : bool := match o with None => true | Some x => p x end.
Definition is_some_and {A} (p : A -> bool) (o : option A) : bool := match o with None => false | Some x => p x end.

Definition parse_response (response : list (rstr * Value)) : result ProtocolError RpcResponse :=
  match map_get (str "id") response with
  | Some id =>
      if negb (valid_id id) then Err invalid_request
      else
        match map_get (str "result") response, map_get (str "error") response with
        | Some result, None => Ok (mk_rpc_response id (PayloadResult result))
        | None, Some error =>
            error ← ok_or (as_object error) invalid_request;
            code ← ok_or (c ← map_get (str "code") error; as_i64 c) invalid_request;
            if bool_decide (is_Some (m ← map_get (str "message") error; value_as_str m))
            then Ok (mk_rpc_response id (PayloadError code)) else Err invalid_request
        | _, _ => Err invalid_request
        end
  | None => Err invalid_request
  end.

(** The answers are responses of the server. *)
Section Protocol.
  Context {HC : HeaderCrate} {JW : JsonWriter} {JR : JsonReader}.

Definition rpc_parse (body : list byte) : result ProtocolError Message :=
  value ← ok_or (from_slice body) (mk_protocol_error (-32700) (str "Parse error"));
  object ← ok_or (as_object value) invalid_request;
  if negb (is_some_and (fun v => is_some_and (fun s => bool_decide (s = str "2.0")) (value_as_str v)) (map_get (str "jsonrpc") object))
  then Err invalid_request
  else
    match map_get (str "method") object with
    | Some method =>
        method ← ok_or (value_as_str method) invalid_request;
        let params := map_get (str "params") object in
        match map_get (str "id") object with
        | Some id => if valid_id id then Ok (MsgRequest (mk_rpc_request id method params)) else Err invalid_request
        | None => if is_none_or is_object params then Ok (MsgNotification params) else Err invalid_request
        end
    | None => r ← parse_response object; Ok (MsgResponse r)
    end.

Definition accepted_response : Response := mk_response 202 headers_new [].

Definition rpc_json_response (status : Z) (value : Value) : Response :=
  mk_response status (headers_insert CONTENT_TYPE (from_static (str "application/json; charset=utf-8")) headers_new)
    (default [] (to_vec value)).

Definition json_int (n : Z) : Value := JNumber (if n <? 0 then NegInt n else PosInt n).

Definition rpc_result (id result : Value) : Response :=
  rpc_json_response 200 (json_object [(str "jsonrpc", JString (str "2.0")); (str "id", id); (str "result", result)]).

Definition rpc_error_with_data (status : Z) (id : option Value) (code : Z) (message : rstr) (data : option Value) : Response :=
  let error := json_object [(str "code", json_int code); (str "message", JString message)] in
  let error := match data with Some data => index_set (str "data") data error | None => error end in
  rpc_json_response status (json_object [(str "jsonrpc", JString (str "2.0")); (str "id", default JNull id); (str "error", error)]).

Definition rpc_error (status : Z) (id : option Value) (code : Z) (message : rstr) : Response :=
  rpc_error_with_data status id code message None.

Definition protocol_error_response (status : Z) (error : ProtocolError) : Response := rpc_error status None (pe_code error) (pe_message error).

(** ** Answers read back *)

Context {JC : JsonCodecSpec}.

Lemma from_slice_written v :
  exact_json v = true -> json_nesting_depth v <= JSON_READER_DEPTH -> from_slice (default [] (to_vec v)) = Some v.
Proof. intros He Hd. destruct (to_vec_total v) as [bytes Hb]. rewrite Hb. by apply (read_written v bytes). Qed.

Lemma rpc_parse_result id result :
  exact_json id = true -> valid_id id = true -> exact_json result = true -> json_nesting_depth result < JSON_READER_DEPTH ->
  rpc_parse (resp_body (rpc_result id result)) = Ok (MsgResponse (mk_rpc_response id (PayloadResult result))).
Proof.
  intros Hid Hv Hr Hd. unfold rpc_parse, rpc_result, rpc_json_response. cbn [resp_body].
  assert (json_nesting_depth id = 0) as Hid0 by (by destruct id). unfold JSON_READER_DEPTH in Hd.
  rewrite from_slice_written; [|json_exact|unfold JSON_READER_DEPTH; json_depth].
  cbn [ok_or mbind result_bind as_object json_object]. unfold parse_response. json_get. by rewrite Hv.
Qed.

Lemma json_int_spec n :
  I64_MIN <= n <= I64_MAX -> exact_json (json_int n) = true /\ json_nesting_depth (json_int n) = 0 /\ as_i64 (json_int n) = Some n.
Proof.
  intros Hn. unfold json_int. destruct (Z.ltb_spec n 0); cbn [exact_json json_nesting_depth as_i64]; rewrite in_range_spec.
  - split_and!; [unfold I64_MIN in *; lia|unfold I64_MIN in *; lia|done..].
  - rewrite (proj2 (Z.leb_le n I64_MAX)) by lia. split_and!; [lia|unfold U64_MAX, I64_MAX in *; lia|done..].
Qed.

Lemma rpc_parse_error status id code message data :
  exact_json id = true -> valid_id id = true -> I64_MIN <= code <= I64_MAX -> forallb is_scalar message = true ->
  (forall d, data = Some d -> exact_json d = true /\ json_nesting_depth d < 100) ->
  rpc_parse (resp_body (rpc_error_with_data status (Some id) code message data)) = Ok (MsgResponse (mk_rpc_response id (PayloadError code))).
Proof.
  intros Hid Hv Hc Hm Hdata. unfold rpc_parse, rpc_error_with_data, rpc_json_response. cbn [resp_body default Datatypes.id].
  assert (json_nesting_depth id = 0) as Hid0 by (by destruct id).
  assert (exact_json (json_int code) = true /\ json_nesting_depth (json_int code) = 0 /\ as_i64 (json_int code) = Some code) as (Hn & Hn0 & Hci).
  { by apply json_int_spec. }
  rewrite from_slice_written.
  - cbn [ok_or mbind result_bind as_object json_object]. unfold parse_response. json_get. rewrite Hv. cbn [negb].
    destruct data as [d|]; cbn [as_object index_set json_object ok_or mbind result_bind]; json_get; cbn [mbind option_bind]; by rewrite Hci.
  - destruct data as [d|]; [destruct (Hdata d eq_refl)|]; json_exact.
  - unfold JSON_READER_DEPTH. destruct data as [d|]; [destruct (Hdata d eq_refl)|]; json_depth.
Qed.
End Protocol.
