(* ===== verification/McpServer.v ===== *)
(** * McpServer: capabilities as MCP tools

    lib.rs of [bondry-mcp-proto]: the adapter that serves the capabilities of an
    [AutomationService] as tools over Streamable HTTP, in the revision of the protocol the
    request names.  It is a protocol of [HttpServer], as [RestProto] is.

    [mcp_serves_tools] says which requests call a tool, and that the answer tells what became
    of the call. *)

From S2P Require Import Prelude Text Bytes Base64 HttpLib Identifiers Json JsonDoc Capability Policy Dispatch Service RawBody HttpServer RestProto McpProto.

Definition MCP_PATH : rstr := str "/mcp".

Inductive ModernValidationError := HeaderMismatch | InvalidParams.

Section Mcp.
  Context {U : UriCrate} {HC : HeaderCrate} {HT : HeaderText} {JW : JsonWriter} {JR : JsonReader} {B64 : Base64Standard}.
  Context {Validator S : Type} `{!AutomationService Validator S, !InvocationIdGenerator S}.

(** ** Headers *)

Definition single_header (headers : HeaderMap) (name : HeaderName) : result unit (option rstr) :=
  match get_all name headers with
  | [] => Ok None
  | [value] => value ← ok_or (value_to_str value) (); Ok (Some value)
  | _ => Err ()
  end.

(** [split(';').next()] with the comparison of the trimmed media type. *)
Definition media_type_is (expected value : rstr) : bool :=
  is_some_and (fun media_type => eq_ignore_ascii_case (trim media_type) expected) (head (split 59 value)).

Definition has_media_type (headers : HeaderMap) (name : HeaderName) (expected : rstr) (require_single_header : bool) : bool :=
  let values := get_all name headers in
  if bool_decide (values = []) || (require_single_header && negb (length values =? 1)%nat) then false
  else
    match mapM value_to_str values with
    | None => false
    | Some values =>
        if require_single_header
        then let value := default [] (head values) in negb (existsb (fun c => c =? 44) value) && media_type_is expected value
        else existsb (fun value => existsb (media_type_is expected) (split 44 value)) values
    end.

Definition mcp_has_json_content_type (headers : HeaderMap) : bool := has_media_type headers CONTENT_TYPE (str "application/json") true.
Definition accepts_json_and_sse (headers : HeaderMap) : bool :=
  has_media_type headers ACCEPT (str "application/json") false && has_media_type headers ACCEPT (str "text/event-stream") false.

(** ** Parameters *)

Definition valid_implementation (value : option Value) : bool :=
  is_some_and (fun info => bool_decide (is_Some (v ← map_get (str "name") info; value_as_str v)) &&
                           bool_decide (is_Some (v ← map_get (str "version") info; value_as_str v)))
    (v ← value; as_object v).

Definition valid_list_params (params : option Value) : bool :=
  is_none_or (fun params => is_some_and (fun params => negb (bool_decide (is_Some (map_get (str "cursor") params)))) (as_object params)) params.

Definition tool_call (params : option Value) : option (rstr * Value) :=
  params ← params;
  params ← as_object params;
  name ← map_get (str "name") params;
  name ← value_as_str name;
  match map_get (str "arguments") params with
  | Some arguments => if is_object arguments then Some (name, arguments) else None
  | None => Some (name, empty_object)
  end.

Definition validate_modern_metadata (params : option Value) (version : McpProtocolVersion) : result ModernValidationError unit :=
  match (params ← params; params ← as_object params; meta ← map_get (str "_meta") params; as_object meta) with
  | None => Err InvalidParams
  | Some metadata =>
      match (v ← map_get PROTOCOL_VERSION_META metadata; value_as_str v) with
      | None => Err InvalidParams
      | Some body_version =>
          if negb (bool_decide (body_version = version_str version)) then Err HeaderMismatch
          else if negb (is_some_and is_object (map_get CLIENT_CAPABILITIES_META metadata)) ||
                  negb (is_none_or (fun client_info => valid_implementation (Some client_info)) (map_get CLIENT_INFO_META metadata))
          then Err InvalidParams
          else Ok ()
      end
  end.

Definition validate_modern_request (headers : HeaderMap) (request : RpcRequest) (version : McpProtocolVersion)
    : result ModernValidationError unit :=
  let required name := header ← map_err (fun _ => HeaderMismatch) (single_header headers name); ok_or header HeaderMismatch in
  method ← required METHOD_HEADER;
  if negb (bool_decide (method = rpc_method request)) then Err HeaderMismatch
  else
    _ ← (if bool_decide (rpc_method request = CALL_TOOL_METHOD) then
           encoded_name ← required NAME_HEADER;
           header_name ← ok_or (decode_header_value encoded_name) HeaderMismatch;
           body_name ← ok_or (params ← rpc_params request; params ← as_object params; name ← map_get (str "name") params; value_as_str name)
             InvalidParams;
           if negb (bool_decide (header_name = body_name)) then Err HeaderMismatch else Ok ()
         else Ok ());
    validate_modern_metadata (rpc_params request) version.

(** ** Answers *)

Definition rpc_error_response (id : Value) (code : Z) (message : rstr) : Response := rpc_error 200 (Some id) code message.
Definition header_mismatch (id : option Value) : Response := rpc_error 400 id (-32020) (str "Header mismatch").
Definition supported_versions : Value := JArray (JString <$> SUPPORTED_PROTOCOL_VERSIONS).
Definition unsupported_version (id : option Value) (requested : rstr) : Response :=
  rpc_error_with_data 400 id (-32022) (str "Unsupported protocol version")
    (Some (json_object [(str "supported", supported_versions); (str "requested", JString requested)])).
Definition transport_error (status : Z) (code : rstr) : Response := rpc_json_response status (json_object [(str "error", JString code)]).
Definition mcp_method_not_allowed : Response :=
  let response := transport_error 405 (str "method_not_allowed") in
  mk_response (resp_status response) (headers_insert ALLOW (from_static (str "POST")) (resp_headers response)) (resp_body response).
Definition validation_error (id : Value) (error : ModernValidationError) : Response :=
  match error with
  | HeaderMismatch => header_mismatch (Some id)
  | InvalidParams => rpc_error 400 (Some id) (-32602) (str "Invalid params")
  end.

Definition empty_result (id : Value) (params : option Value) : Response :=
  if is_none_or is_object params then rpc_result id empty_object else rpc_error_response id (-32602) (str "Invalid params").

(** [serde_json::to_string(..).unwrap_or_default()]. *)
Definition json_text (v : Value) : rstr := default [] (bytes ← to_vec v; from_utf8 bytes).

Definition text_content (text : rstr) : Value :=
  JArray [json_object [(str "type", JString (str "text")); (str "text", JString text)]].

Definition INVOCATION_ID_META : rstr := str "dev.bondry/invocationId".

Definition tool_success (output : Value) (invocation_id : rstr) (version : McpProtocolVersion) : Value :=
  let result := json_object
    [(str "content", text_content (json_text output)); (str "isError", JBool false);
     (str "_meta", json_object [(INVOCATION_ID_META, JString invocation_id)])] in
  if is_modern version || is_object output then index_set (str "structuredContent") output result else result.

Definition tool_failure (message invocation_id : rstr) (code : option rstr) : Value :=
  let metadata := json_object [(INVOCATION_ID_META, JString invocation_id)] in
  let metadata := match code with Some code => index_set (str "dev.bondry/errorCode") (JString code) metadata | None => metadata end in
  json_object [(str "content", text_content message); (str "isError", JBool true); (str "_meta", metadata)].

Fixpoint remove_custom_header_annotations (value : Value) : Value :=
  match value with
  | JArray values => JArray (remove_custom_header_annotations <$> values)
  | JObject entries => JObject (map_remove (str "x-mcp-header") ((fun e => (e.1, remove_custom_header_annotations e.2)) <$> entries))
  | _ => value
  end.

Definition tool_json (d : CapabilityDescriptor Validator) : Value :=
  json_object
    [(str "name", JString (as_str (descriptor_id d))); (str "description", JString (descriptor_summary d));
     (str "inputSchema", remove_custom_header_annotations (CapabilityInputSchema_document (descriptor_schema d)));
     (str "annotations", json_object [(str "readOnlyHint", JBool (match descriptor_effect d with ReadOnly => true | Mutating => false end))])].

(** ** The adapter *)

Record McpAdapter := mk_mcp_adapter { mcp_adapter : AdapterId; mcp_server_info : McpServerInfo }.

(** What [complete_result] adds in the modern revision. *)
Definition completed_result (a : McpAdapter) (result : Value) (version : McpProtocolVersion) : Value :=
  if is_modern version then
    let result := index_set (str "resultType") (JString (str "complete")) result in
    let metadata := default [] (meta ← value_get (str "_meta") result; as_object meta) in
    let metadata := map_insert SERVER_INFO_META (server_info_json (mcp_server_info a)) metadata in
    index_set (str "_meta") (JObject metadata) result
  else result.
Definition complete_result (a : McpAdapter) (id result : Value) (version : McpProtocolVersion) : Response :=
  rpc_result id (completed_result a result version).

Definition tools_capability : Value := json_object [(str "tools", json_object [(str "listChanged", JBool false)])].

Definition mcp_initialize (a : McpAdapter) (id : Value) (params : option Value) : Response :=
  let invalid := rpc_error_response id (-32602) (str "Invalid params") in
  match (v ← params; as_object v) with
  | None => invalid
  | Some params =>
      match (v ← map_get (str "protocolVersion") params; value_as_str v) with
      | None => invalid
      | Some requested_version =>
          if negb (is_some_and is_object (map_get (str "capabilities") params)) ||
             negb (valid_implementation (map_get (str "clientInfo") params))
          then invalid
          else rpc_result id (json_object
                 [(str "protocolVersion", JString (version_str (negotiate_legacy requested_version)));
                  (str "capabilities", tools_capability); (str "serverInfo", server_info_json (mcp_server_info a))])
      end
  end.

Definition mcp_discover (a : McpAdapter) (id : Value) (params : option Value) (version : McpProtocolVersion) : Response :=
  if negb (is_ok (validate_modern_metadata params version)) ||
     negb (is_some_and (fun params => forallb (fun e => bool_decide (e.1 = str "_meta")) params) (v ← params; as_object v))
  then rpc_error_response id (-32602) (str "Invalid params")
  else complete_result a id (json_object
         [(str "supportedVersions", supported_versions); (str "capabilities", tools_capability);
          (str "ttlMs", json_int 0); (str "cacheScope", JString (str "private"))]) version.

Definition tool_list_result (capabilities : list (CapabilityDescriptor Validator)) (version : McpProtocolVersion) : Value :=
  let result := json_object [(str "tools", JArray (tool_json <$> capabilities))] in
  if is_modern version
  then index_set (str "cacheScope") (JString (str "private")) (index_set (str "ttlMs") (json_int 0) result) else result.

Definition mcp_list_tools (a : McpAdapter) (principal : Principal) (id : Value) (params : option Value) (version : McpProtocolVersion) (s : S)
    : Response :=
  if negb (valid_list_params params) then rpc_error_response id (-32602) (str "Invalid params")
  else
    match service_capabilities s principal (mcp_adapter a) with
    | Ok capabilities => complete_result a id (tool_list_result capabilities version) version
    | Err DiscoveryPolicyUnavailable => rpc_error_response id (-32603) (str "Internal error")
    end.

(** The answer to a dispatched call. *)
Definition tool_response (a : McpAdapter) (id : Value) (invocation_id : rstr) (version : McpProtocolVersion) (r : result DispatchError Value)
    : Response :=
  match r with
  | Ok output => complete_result a id (tool_success output invocation_id version) version
  | Err DispatchInvalidInput => complete_result a id (tool_failure (str "Capability input is invalid") invocation_id None) version
  | Err (DispatchHandler error) =>
      complete_result a id (tool_failure (str "Capability execution failed") invocation_id (Some (as_str (handler_error_code error)))) version
  | Err (DispatchCapabilityNotFound _) | Err (DispatchAccessDenied NotGranted) => rpc_error_response id (-32602) (str "Unknown tool")
  | Err (DispatchAccessDenied PolicyUnavailable) | Err (DispatchAudit _) => rpc_error_response id (-32603) (str "Internal error")
  end.

Definition mcp_call_tool (a : McpAdapter) (principal : Principal) (id : Value) (params : option Value) (version : McpProtocolVersion) (s : S)
    : Response * S :=
  match tool_call params with
  | None => (rpc_error_response id (-32602) (str "Invalid params"), s)
  | Some (name, arguments) =>
      match Identifier_new name : result IdentifierError CapabilityId with
      | Err _ => (rpc_error_response id (-32602) (str "Unknown tool"), s)
      | Ok capability =>
          match generate s with
          | (Err _, s) => (rpc_error_response id (-32603) (str "Internal error"), s)
          | (Ok invocation_id, s) =>
              let '(r, s) := service_dispatch (mk_invocation invocation_id (mcp_adapter a) principal capability arguments) s in
              (tool_response a id (as_str invocation_id) version r, s)
          end
      end
  end.

Definition handle_modern_request (a : McpAdapter) (principal : Principal) (r : RpcRequest) (version : McpProtocolVersion) (s : S) : Response * S :=
  if bool_decide (rpc_method r = DISCOVER_METHOD) then (mcp_discover a (rpc_id r) (rpc_params r) version, s)
  else if bool_decide (rpc_method r = LIST_TOOLS_METHOD) then (mcp_list_tools a principal (rpc_id r) (rpc_params r) version s, s)
  else if bool_decide (rpc_method r = CALL_TOOL_METHOD) then mcp_call_tool a principal (rpc_id r) (rpc_params r) version s
  else (rpc_error 404 (Some (rpc_id r)) (-32601) (str "Method not found"), s).

Definition handle_legacy_request (a : McpAdapter) (principal : Principal) (r : RpcRequest) (version : McpProtocolVersion) (s : S) : Response * S :=
  if bool_decide (rpc_method r = INITIALIZE_METHOD) then (mcp_initialize a (rpc_id r) (rpc_params r), s)
  else if bool_decide (rpc_method r = str "ping") then (empty_result (rpc_id r) (rpc_params r), s)
  else if bool_decide (rpc_method r = LIST_TOOLS_METHOD) then (mcp_list_tools a principal (rpc_id r) (rpc_params r) version s, s)
  else if bool_decide (rpc_method r = CALL_TOOL_METHOD) then mcp_call_tool a principal (rpc_id r) (rpc_params r) version s
  else (rpc_error_response (rpc_id r) (-32601) (str "Method not found"), s).

Definition handle_rpc_request (a : McpAdapter) (principal : Principal) (headers : HeaderMap) (r : RpcRequest) (version : McpProtocolVersion)
    (s : S) : Response * S :=
  if is_modern version then
    match validate_modern_request headers r version with
    | Err error => (validation_error (rpc_id r) error, s)
    | Ok _ => handle_modern_request a principal r version s
    end
  else handle_legacy_request a principal r version s.

Definition handle_notification (params : option Value) (version : McpProtocolVersion) : Response :=
  if is_modern version then
    match validate_modern_metadata params version with
    | Ok _ => accepted_response
    | Err HeaderMismatch => header_mismatch None
    | Err InvalidParams => rpc_error 400 None (-32602) (str "Invalid params")
    end
  else accepted_response.

Definition message_id (m : Message) : option Value := match m with MsgRequest r => Some (rpc_id r) | _ => None end.
Definition is_legacy_initialize (m : Message) : bool :=
  match m with MsgRequest r => bool_decide (rpc_method r = INITIALIZE_METHOD) | _ => false end.

(** The revision a message is in, or the refusal. *)
Definition message_version (headers : HeaderMap) (m : Message) : result Response McpProtocolVersion :=
  match single_header headers PROTOCOL_VERSION_HEADER with
  | Ok (Some value) => ok_or (version_parse value) (unsupported_version (message_id m) value)
  | Ok None => if is_legacy_initialize m then Ok V2025_11_25 else Err (header_mismatch (message_id m))
  | Err _ => Err (header_mismatch (message_id m))
  end.

Definition handle_post (a : McpAdapter) (request : Request (list byte)) (principal : Principal) (s : S) : Response * S :=
  let headers := req_headers request in
  if negb (mcp_has_json_content_type headers) then (transport_error 415 (str "unsupported_media_type"), s)
  else if negb (accepts_json_and_sse headers) then (transport_error 406 (str "not_acceptable"), s)
  else
    match rpc_parse (req_body request) with
    | Err error => (protocol_error_response 400 error, s)
    | Ok message =>
        match message_version headers message with
        | Err response => (response, s)
        | Ok version =>
            match message with
            | MsgRequest r => handle_rpc_request a principal headers r version s
            | MsgNotification params => (handle_notification params version, s)
            | MsgResponse _ =>
                if is_modern version then (rpc_error 400 None (-32600) (str "Invalid Request"), s) else (accepted_response, s)
            end
        end
    end.

(** [McpAdapter::handle] with its [route]. *)
Definition mcp_handle (a : McpAdapter) (request : Request (list byte)) (principal : Principal) (s : S) : Response * S :=
  if bool_decide (req_method request = METHOD_POST) then handle_post a request principal s else (mcp_method_not_allowed, s).

Definition mcp_accepts_path (path : rstr) : bool := bool_decide (path = MCP_PATH).

Definition MCP_ADAPTER : AdapterId := mk_id (str "mcp").
Definition McpAdapter_new (info : McpServerInfo) : result IdentifierError McpAdapter :=
  adapter ← Identifier_new (str "mcp"); Ok (mk_mcp_adapter adapter info).

Definition mcp_protocol (a : McpAdapter) : HttpProtocol (Host := S) := mk_protocol mcp_accepts_path (mcp_handle a).

(** ** Which requests call tools *)

(** The headers that route a call in the modern revision name the method and the tool of the body. *)
Definition headers_agree (headers : HeaderMap) (r : RpcRequest) (name : rstr) : Prop :=
  single_header headers METHOD_HEADER = Ok (Some (rpc_method r)) /\
  exists encoded, single_header headers NAME_HEADER = Ok (Some encoded) /\ decode_header_value encoded = Some name.

(** The metadata of the body announces the revision that the version header names, the
    capabilities of the client, and who it is if it says so. *)
Definition metadata_agrees (params : option Value) (version : McpProtocolVersion) : Prop :=
  exists entries metadata capabilities,
    params = Some (JObject entries) /\ map_get (str "_meta") entries = Some (JObject metadata) /\
    map_get PROTOCOL_VERSION_META metadata = Some (JString (version_str version)) /\
    map_get CLIENT_CAPABILITIES_META metadata = Some (JObject capabilities) /\
    (forall info, map_get CLIENT_INFO_META metadata = Some info ->
     exists fields name number, info = JObject fields /\ map_get (str "name") fields = Some (JString name) /\
       map_get (str "version") fields = Some (JString number)).

Lemma value_as_str_Some v s : value_as_str v = Some s <-> v = JString s.
Proof. destruct v; naive_solver. Qed.
Lemma as_object_Some v entries : as_object v = Some entries <-> v = JObject entries.
Proof. destruct v; naive_solver. Qed.

Lemma valid_implementation_iff info :
  valid_implementation (Some info) = true <->
  exists fields name number, info = JObject fields /\ map_get (str "name") fields = Some (JString name) /\
    map_get (str "version") fields = Some (JString number).
Proof.
  unfold valid_implementation. cbn [mbind option_bind]. split.
  - destruct info; try done. cbn [as_object is_some_and]. rewrite andb_true_iff, !bool_decide_eq_true.
    intros [[n (v & Hv & ->%value_as_str_Some)%bind_Some] [w (v' & Hv' & ->%value_as_str_Some)%bind_Some]]. by eexists _, _, _.
  - intros (fields & name & number & -> & Hn & Hv). cbn [as_object is_some_and]. rewrite Hn, Hv. done.
Qed.

Lemma validate_modern_metadata_iff params version : validate_modern_metadata params version = Ok () <-> metadata_agrees params version.
Proof.
  unfold validate_modern_metadata, metadata_agrees. split.
  - destruct (params ≫= _) as [metadata|] eqn:Hm; [|done].
    apply bind_Some in Hm as (p & -> & (entries & ->%as_object_Some & (m & Hmeta & ->%as_object_Some)%bind_Some)%bind_Some).
    destruct (map_get PROTOCOL_VERSION_META metadata ≫= value_as_str) as [v|] eqn:Hv; [|done].
    apply bind_Some in Hv as (w & Hw & ->%value_as_str_Some). case_bool_decide; [|done]. subst v. cbn [negb].
    destruct (map_get CLIENT_CAPABILITIES_META metadata) as [c|] eqn:Hc; [|done]. cbn [is_some_and]. destruct c; try done. cbn [is_object negb orb].
    destruct (is_none_or _ _) eqn:Hi; [|done]. intros _. eexists _, _, _. split_and!; try done. intros info Hinfo. rewrite Hinfo in Hi.
    by apply valid_implementation_iff.
  - intros (entries & metadata & capabilities & -> & Hm & Hv & Hc & Hi). cbn [mbind option_bind as_object]. rewrite Hm. cbn [mbind option_bind as_object].
    rewrite Hv, Hc. cbn [mbind option_bind value_as_str is_some_and is_object negb orb]. rewrite bool_decide_eq_true_2 by done. cbn [negb].
    destruct (map_get CLIENT_INFO_META metadata) as [info|]; [|done]. cbn [is_none_or]. by rewrite (proj2 (valid_implementation_iff info) (Hi info eq_refl)).
Qed.

Lemma tool_call_name params name arguments :
  tool_call params = Some (name, arguments) ->
  (params ← params; params ← as_object params; v ← map_get (str "name") params; value_as_str v) = Some name.
Proof.
  unfold tool_call. destruct params as [params|]; [|done]. cbn [mbind option_bind]. destruct (as_object params) as [entries|]; [|done].
  cbn [mbind option_bind]. destruct (map_get (str "name") entries) as [v|]; [|done]. cbn [mbind option_bind].
  destruct (value_as_str v) as [n|]; [|done]. cbn [mbind option_bind]. by repeat case_match; intros; simplify_eq.
Qed.

(** What the modern revision asks of a call. *)
Lemma validated_call_iff headers r version name arguments :
  rpc_method r = CALL_TOOL_METHOD -> tool_call (rpc_params r) = Some (name, arguments) ->
  validate_modern_request headers r version = Ok () <-> headers_agree headers r name /\ metadata_agrees (rpc_params r) version.
Proof.
  intros Hm Hc%tool_call_name. unfold validate_modern_request, headers_agree. cbv zeta.
  assert (forall n v, (header ← map_err (fun _ : unit => HeaderMismatch) (single_header headers n); ok_or header HeaderMismatch) = Ok v <->
    single_header headers n = Ok (Some v)) as Hreq.
  { intros n v. destruct (single_header headers n) as [[w|]|]; cbn; split; congruence. }
  rewrite <- validate_modern_metadata_iff, result_bind_Ok. split.
  - intros (method & Hh%Hreq & Hv). case_bool_decide as Heq; [|done]. subst method. cbn [negb] in Hv.
    apply result_bind_Ok in Hv as (u & Hn & Hmeta). split; [|done]. split; [done|]. rewrite bool_decide_eq_true_2 in Hn by done.
    apply result_bind_Ok in Hn as (encoded & He%Hreq & (decoded & Hd & (body_name & Hb & Hn)%result_bind_Ok)%result_bind_Ok).
    exists encoded. split; [done|]. revert Hn. case_bool_decide as Heq; [|done]. intros _. subst decoded. rewrite Hc in Hb. injection Hb as <-.
    destruct (decode_header_value encoded) as [h|]; [|done]. by injection Hd as ->.
  - intros [[Hh (encoded & He & Hd)] Hmeta]. exists (rpc_method r). split; [by apply Hreq|]. rewrite !bool_decide_eq_true_2 by done. cbn [negb].
    apply result_bind_Ok. exists (). split; [|done]. apply result_bind_Ok. exists encoded. split; [by apply Hreq|].
    rewrite Hd, Hc. cbn. by rewrite bool_decide_eq_true_2.
Qed.

(** What the answer to a call tells of what became of it. *)
Definition answer_tells (id : Value) (version : McpProtocolVersion) (response : Response) (d : result DispatchError Value) : Prop :=
  match d with
  | Ok output => exists result, response = rpc_result id result /\ value_get (str "isError") result = Some (JBool false) /\
      value_get (str "content") result = Some (text_content (json_text output)) /\
      value_get (str "structuredContent") result = (if is_modern version || is_object output then Some output else None)
  | Err DispatchInvalidInput | Err (DispatchHandler _) => exists result, response = rpc_result id result /\
      value_get (str "isError") result = Some (JBool true) /\ value_get (str "structuredContent") result = None
  | Err (DispatchCapabilityNotFound _) | Err (DispatchAccessDenied NotGranted) => response = rpc_error_response id (-32602) (str "Unknown tool")
  | Err (DispatchAccessDenied PolicyUnavailable) | Err (DispatchAudit _) => response = rpc_error_response id (-32603) (str "Internal error")
  end.

Lemma completed_result_get a result version key :
  key <> str "resultType" -> key <> str "_meta" -> value_get key (completed_result a result version) = value_get key result.
Proof. intros H1 H2. unfold completed_result. destruct (is_modern version); [|done]. by rewrite !value_get_set_ne. Qed.

Lemma tool_response_tells a id inv version d : answer_tells id version (tool_response a id inv version d) d.
Proof.
  destruct d as [output|[audit|c|[]| |error]]; cbn [answer_tells tool_response]; try done;
    (eexists; split; [done|]); rewrite !completed_result_get by key_ne; unfold tool_success, tool_failure.
  - destruct (is_modern version || is_object output); split_and!; by rewrite ?value_get_set_eq by done; json_get.
  - split; by json_get.
  - split; by json_get.
Qed.

(** The request calls a tool with these arguments. *)
Definition asks_for_tool (request : Request (list byte)) (version : McpProtocolVersion) (r : RpcRequest) (capability : CapabilityId)
    (arguments : Value) : Prop :=
  req_method request = METHOD_POST /\ mcp_has_json_content_type (req_headers request) = true /\
  accepts_json_and_sse (req_headers request) = true /\
  rpc_parse (req_body request) = Ok (MsgRequest r) /\ rpc_method r = CALL_TOOL_METHOD /\
  message_version (req_headers request) (MsgRequest r) = Ok version /\
  exists name, tool_call (rpc_params r) = Some (name, arguments) /\ Identifier_new name = Ok capability /\
    (is_modern version = true -> headers_agree (req_headers request) r name /\ metadata_agrees (rpc_params r) version).

(** A tool was called for the principal and answered by what became of it. *)
Definition tool_called (a : McpAdapter) (request : Request (list byte)) (principal : Principal) (s : S) (response : Response) (s' : S)
    (s1 : S) (d : result DispatchError Value) : Prop :=
  exists version r capability arguments inv,
    asks_for_tool request version r capability arguments /\ generate s = (Ok inv, s1) /\
    service_dispatch (mk_invocation inv (mcp_adapter a) principal capability arguments) s1 = (d, s') /\
    response = tool_response a (rpc_id r) (as_str inv) version d /\ answer_tells (rpc_id r) version response d.

Definition no_tool_called (s s' : S) : Prop := s' = s \/ exists e, generate s = (Err e, s').

Lemma mcp_call_tool_spec a principal id params version s :
  let '(response, s') := mcp_call_tool a principal id params version s in
  no_tool_called s s' \/
  exists name arguments capability inv s1 d,
    tool_call params = Some (name, arguments) /\ Identifier_new name = Ok capability /\ generate s = (Ok inv, s1) /\
    service_dispatch (mk_invocation inv (mcp_adapter a) principal capability arguments) s1 = (d, s') /\
    response = tool_response a id (as_str inv) version d.
Proof.
  unfold mcp_call_tool. destruct (tool_call params) as [[name arguments]|]; [|by left; left].
  destruct (Identifier_new name) as [capability|] eqn:Hid; [|by left; left].
  destruct (generate s) as [[inv|e] s1] eqn:Hg; [|left; right; by exists e].
  destruct (service_dispatch _ s1) as [d s2] eqn:Hd. right. by exists name, arguments, capability, inv, s1, d.
Qed.

Lemma handle_rpc_request_spec a principal headers r version s :
  let '(response, s') := handle_rpc_request a principal headers r version s in
  no_tool_called s s' \/
  rpc_method r = CALL_TOOL_METHOD /\ (is_modern version = true -> validate_modern_request headers r version = Ok ()) /\
  (response, s') = mcp_call_tool a principal (rpc_id r) (rpc_params r) version s.
Proof.
  unfold handle_rpc_request, handle_modern_request, handle_legacy_request. destruct (is_modern version).
  - destruct (validate_modern_request headers r version) as [[]|]; [|by left; left].
    do 2 (case_bool_decide; [by left; left|]). case_bool_decide; [|by left; left]. destruct (mcp_call_tool _ _ _ _ _ _) as [response s'] eqn:Hc. by right.
  - do 3 (case_bool_decide; [by left; left|]). case_bool_decide; [|by left; left]. destruct (mcp_call_tool _ _ _ _ _ _) as [response s'] eqn:Hc. by right.
Qed.

Lemma mcp_handle_spec a request principal s :
  let '(response, s') := mcp_handle a request principal s in
  no_tool_called s s' \/ exists s1 d, tool_called a request principal s response s' s1 d.
Proof.
  unfold mcp_handle, handle_post. case_bool_decide as Hpost; [|by left; left].
  destruct (mcp_has_json_content_type _) eqn:Hct; [|by left; left]. destruct (accepts_json_and_sse _) eqn:Hac; [|by left; left]. cbn [negb].
  destruct (rpc_parse _) as [m|] eqn:Hp; [|by left; left]. destruct (message_version _ m) as [version|] eqn:Hv; [|by left; left].
  destruct m as [r| |]; [|by left; left|by destruct (is_modern version); left; left].
  pose proof (handle_rpc_request_spec a principal (req_headers request) r version s) as Hs.
  destruct (handle_rpc_request _ _ _ _ _ _) as [response s']. destruct Hs as [Hs|(Hm & Hval & Heq)]; [by left|].
  pose proof (mcp_call_tool_spec a principal (rpc_id r) (rpc_params r) version s) as Hc. rewrite <-Heq in Hc.
  destruct Hc as [Hc|(name & arguments & capability & inv & s1 & d & Htc & Hid & Hg & Hd & Hr)]; [by left|].
  right. exists s1, d, version, r, capability, arguments, inv. split_and!; try done; [|by rewrite Hr; apply tool_response_tells].
  split_and!; try done. exists name. split_and!; try done. intros Hmod. by apply (validated_call_iff _ _ _ _ arguments), Hval.
Qed.

(** And whoever asks for a tool has it called. *)
Lemma mcp_handle_asked a request principal s version r capability arguments inv s1 :
  asks_for_tool request version r capability arguments -> generate s = (Ok inv, s1) ->
  mcp_handle a request principal s =
  let '(d, s') := service_dispatch (mk_invocation inv (mcp_adapter a) principal capability arguments) s1 in
  (tool_response a (rpc_id r) (as_str inv) version d, s').
Proof.
  intros (Hpost & Hct & Hac & Hp & Hm & Hv & name & Hc & Hid & Hmod) Hg. unfold mcp_handle, handle_post. rewrite bool_decide_eq_true_2 by done.
  rewrite Hct, Hac, Hp, Hv. cbn [negb]. unfold handle_rpc_request. destruct (is_modern version) eqn:Hmodern.
  - rewrite (proj2 (validated_call_iff _ r version name arguments Hm Hc)) by by apply Hmod. unfold handle_modern_request, mcp_call_tool.
    rewrite Hm, Hc, Hid, Hg. done.
  - unfold handle_legacy_request, mcp_call_tool. rewrite Hm, Hc, Hid, Hg. done.
Qed.

Context {H : Type} {SS : AutomationServiceSpec Validator S H}.

(** C7: MCP serves tools truthfully.  A handler runs only for a POST with a JSON body that
    announces both media types the protocol needs, whose message is a tools/call in a revision
    the adapter speaks; in the modern revision the headers that route the request name the
    method, the tool and the revision of the body, whose metadata has what the revision asks
    for.  Such a request is always dispatched, if an invocation can be named: it is the one the
    body asks for, under the principal the server authenticated.  The answer carries the output
    exactly when there is one, and then the handler ran exactly once; it says so when the handler
    failed or the input was refused.  A refusal leaves the host alone, and a capability that
    does not exist is answered as one that was not granted. *)
Theorem mcp_serves_tools a request principal s :
  let '(response, s') := mcp_handle a request principal s in
  (no_tool_called s s' \/
   exists s1 d, tool_called a request principal s response s' s1 d /\ (exists inv, generate s = (Ok inv, s1)) /\
     (completed d = true -> handler_runs s' = (handler_runs s1 + 1)%nat) /\
     (refusal d = true -> handler_runs s' = handler_runs s1 /\ host_state s' = host_state s1) /\
     (handler_runs s' <= handler_runs s1 + 1)%nat) /\
  (forall version r capability arguments inv s1, asks_for_tool request version r capability arguments -> generate s = (Ok inv, s1) ->
   exists d, service_dispatch (mk_invocation inv (mcp_adapter a) principal capability arguments) s1 = (d, s') /\
     answer_tells (rpc_id r) version response d) /\
  (forall id inv version c, tool_response a id inv version (Err (DispatchCapabilityNotFound c)) =
     tool_response a id inv version (Err (DispatchAccessDenied NotGranted))).
Proof.
  pose proof (mcp_handle_spec a request principal s) as Hs. pose proof (mcp_handle_asked a request principal s) as Hasked.
  destruct (mcp_handle a request principal s) as [response s']. split; [|split; [|done]].
  - destruct Hs as [Hs|(s1 & d & Hc)]; [by left|]. right. exists s1, d. split; [done|].
    destruct Hc as (version & r & capability & arguments & inv & _ & Hg & Hd & _).
    split; [by exists inv|]. pose proof (dispatch_runs (mk_invocation inv (mcp_adapter a) principal capability arguments) s1) as Hruns. rewrite Hd in Hruns.
    destruct Hruns as (Hle & Hrefuse & Hkeep & Hdone). split_and!; [done| |lia]. intros Hr. split; [by apply Hrefuse|]. by apply Hkeep, Hrefuse.
  - intros version r capability arguments inv s1 Ha Hg. specialize (Hasked _ _ _ _ _ _ Ha Hg).
    destruct (service_dispatch _ s1) as [d s2]. exists d. injection Hasked as -> ->. split; [done|]. apply tool_response_tells.
Qed.
End Mcp.
