(* ===== verification/McpClient.v ===== *)
(** * McpClient: requests to MCP servers and the answers they admit

    client.rs of [bondry-mcp-proto]: the builder of client messages, and the decoder bound to
    each of them, which checks the framing, the request identifier and the shape of an answer
    before anything of it is used. *)

From S2P Require Import Prelude Text Bytes Base64 HttpLib Json JsonDoc McpProto.

Inductive ResponseShape := ShapeDiscovery | ShapeInitialization | ShapeToolList (max_tools : Z) | ShapeToolCall | ShapeAcknowledgement.

(** [McpDiscovery] and [McpInitialization] hold the revision; [McpToolList] the tools. *)
Record McpTool := mk_tool { tool_name : rstr; tool_description : option rstr; tool_input_schema : Value }.
Inductive McpToolCallOutcome := CallSucceeded | CallFailed.
Record McpToolCallResult := mk_call_result { call_outcome : McpToolCallOutcome; call_json : list byte; call_nesting_depth : Z }.

Inductive McpClientResponse :=
| Acknowledged
| Discovered (version : McpProtocolVersion)
| Initialized (version : McpProtocolVersion)
| Tools (tools : list McpTool)
| ToolCalled (r : McpToolCallResult).

Inductive McpClientError :=
| UnsupportedResponseMode | InvalidContentType | UnexpectedHttpStatus | InvalidJson | InvalidEnvelope | MismatchedResponseId
| UnsupportedProtocolVersion | MethodNotFound | RequestRejected | PeerUnavailable | RemoteFailure | ToolListTooLarge.
#[global] Instance McpClientError_eq_dec : EqDecision McpClientError.
Proof. solve_decision. Defined.

Inductive McpClientRequestError := InvalidInitializationVersion | InvalidToolName | InvalidArguments | RequestEncoding.

Record McpResponseDecoder := mk_decoder {
  dec_id : option Z;
  dec_version : option McpProtocolVersion;
  dec_shape : ResponseShape;
}.

Section Client.
  Context {HC : HeaderCrate} {HT : HeaderText} {JW : JsonWriter} {JR : JsonReader} {B64 : Base64Standard}.

(** ** Requests *)

(** [McpClientRequest] and its [McpClientRequestParts]. *)
Record McpClientRequest := mk_client_request {
  cr_headers : HeaderMap;
  cr_body : list byte;
  cr_decoder : McpResponseDecoder;
}.

Definition encoded_name_header (name : rstr) : result McpClientRequestError HeaderValue :=
  ok_or (value_from_str (encode_name name)) InvalidToolName.

(** The headers that route a request. *)
Definition routing_headers (routing : option (McpProtocolVersion * rstr * option rstr)) (headers : HeaderMap)
    : result McpClientRequestError HeaderMap :=
  match routing with
  | None => Ok headers
  | Some (version, method, name) =>
      let headers := headers_insert PROTOCOL_VERSION_HEADER (from_static (version_str version)) headers in
      if is_modern version then
        let headers := headers_insert METHOD_HEADER (from_static method) headers in
        match name with
        | Some name => value ← encoded_name_header name; Ok (headers_insert NAME_HEADER value headers)
        | None => Ok headers
        end
      else Ok headers
  end.

Definition McpClientRequest_new (id : option Z) (body : Value) (routing : option (McpProtocolVersion * rstr * option rstr))
    (response : ResponseShape) : result McpClientRequestError McpClientRequest :=
  let headers := headers_insert CONTENT_TYPE (from_static (str "application/json")) headers_new in
  let headers := headers_insert ACCEPT (from_static (str "application/json, text/event-stream")) headers in
  headers ← routing_headers routing headers;
  body ← ok_or (to_vec body) RequestEncoding;
  Ok (mk_client_request headers body (mk_decoder id (r ← routing; Some r.1.1) response)).

Definition modern_metadata (info : McpClientInfo) (version : McpProtocolVersion) : Value :=
  json_object [(PROTOCOL_VERSION_META, JString (version_str version)); (CLIENT_INFO_META, client_info_json info);
               (CLIENT_CAPABILITIES_META, empty_object)].

(** The parameters with the metadata of the modern revision. *)
Definition routed_params (info : McpClientInfo) (params : option Value) (version : option McpProtocolVersion)
    : result McpClientRequestError (option Value) :=
  match version with
  | Some version =>
      if is_modern version then
        object ← ok_or (as_object (default empty_object params)) InvalidArguments;
        Ok (Some (JObject (map_insert (str "_meta") (modern_metadata info version) object)))
      else Ok params
  | None => Ok params
  end.

Definition client_request (info : McpClientInfo) (id : Z) (method : rstr) (params : option Value) (version : option McpProtocolVersion)
    (response : ResponseShape) : result McpClientRequestError McpClientRequest :=
  params ← routed_params info params version;
  let body := json_object [(str "jsonrpc", JString (str "2.0")); (str "id", JNumber (PosInt id)); (str "method", JString method)] in
  let body := match params with Some params => index_set (str "params") params body | None => body end in
  name ← (if bool_decide (method = CALL_TOOL_METHOD)
          then name ← ok_or (params ← value_get (str "params") body; name ← value_get (str "name") params; value_as_str name) InvalidToolName;
               Ok (Some name)
          else Ok None);
  McpClientRequest_new (Some id) body ((fun version => (version, method, name)) <$> version) response.

Definition client_discover (info : McpClientInfo) (id : Z) : result McpClientRequestError McpClientRequest :=
  client_request info id DISCOVER_METHOD (Some empty_object) (Some V2026_07_28) ShapeDiscovery.

Definition client_initialize (info : McpClientInfo) (id : Z) : result McpClientRequestError McpClientRequest :=
  let body := json_object
    [(str "jsonrpc", JString (str "2.0")); (str "id", JNumber (PosInt id)); (str "method", JString INITIALIZE_METHOD);
     (str "params", json_object [(str "protocolVersion", JString LATEST_PROTOCOL_VERSION); (str "capabilities", empty_object);
                                 (str "clientInfo", client_info_json info)])] in
  McpClientRequest_new (Some id) body None ShapeInitialization.

Definition client_initialized (version : McpProtocolVersion) : result McpClientRequestError McpClientRequest :=
  if is_modern version then Err InvalidInitializationVersion
  else McpClientRequest_new None (json_object [(str "jsonrpc", JString (str "2.0")); (str "method", JString INITIALIZED_METHOD)])
         (Some (version, INITIALIZED_METHOD, None)) ShapeAcknowledgement.

Definition client_list_tools (info : McpClientInfo) (id : Z) (version : McpProtocolVersion) (max_tools : Z)
    : result McpClientRequestError McpClientRequest :=
  client_request info id LIST_TOOLS_METHOD (if is_modern version then Some empty_object else None) (Some version) (ShapeToolList max_tools).

Definition tool_name_ok (name : rstr) : bool := negb (bool_decide (trim name = [])) && negb (existsb is_control name).

Definition client_call_tool (info : McpClientInfo) (id : Z) (version : McpProtocolVersion) (name : rstr) (arguments : Value)
    : result McpClientRequestError McpClientRequest :=
  if negb (tool_name_ok name) then Err InvalidToolName
  else if negb (is_object arguments) then Err InvalidArguments
  else client_request info id CALL_TOOL_METHOD (Some (json_object [(str "name", JString name); (str "arguments", arguments)]))
         (Some version) ShapeToolCall.

(** ** Answers *)

Definition validate_content_type (headers : HeaderMap) : result McpClientError unit :=
  match get_all CONTENT_TYPE headers with
  | [value] =>
      value ← ok_or (value_to_str value) InvalidContentType;
      let media_type := trim (default [] (head (split 59 value))) in
      if eq_ignore_ascii_case media_type (str "text/event-stream") then Err UnsupportedResponseMode
      else if negb (eq_ignore_ascii_case media_type (str "application/json")) then Err InvalidContentType
      else Ok ()
  | _ => Err InvalidContentType
  end.

Definition classify_remote_error (code : Z) : McpClientError :=
  if code =? -32022 then UnsupportedProtocolVersion
  else if code =? -32601 then MethodNotFound
  else if (code =? -32700) || (code =? -32600) || (code =? -32602) || (code =? -32020) then RequestRejected
  else if code =? -32603 then PeerUnavailable
  else RemoteFailure.

(** [SUPPORTED_PROTOCOL_VERSIONS.iter().find_map(..)]. *)
Fixpoint select_version (supported : list rstr) (versions : list Value) : option McpProtocolVersion :=
  match supported with
  | [] => None
  | v :: supported =>
      match (if existsb (fun version => bool_decide (value_as_str version = Some v)) versions then version_parse v else None) with
      | Some version => Some version
      | None => select_version supported versions
      end
  end.

Definition parse_discovery (result : Value) : Prelude.result McpClientError McpProtocolVersion :=
  versions ← ok_or (v ← value_get (str "supportedVersions") result; as_array v) InvalidEnvelope;
  ok_or (select_version SUPPORTED_PROTOCOL_VERSIONS versions) UnsupportedProtocolVersion.

Definition parse_initialization (result : Value) : Prelude.result McpClientError McpProtocolVersion :=
  ok_or (v ← value_get (str "protocolVersion") result; v ← value_as_str v; version_parse v) UnsupportedProtocolVersion.

(** One turn of the loop of [parse_tool_list]. *)
Definition parse_tool (parsed : list McpTool) (tool : Value) : result McpClientError McpTool :=
  tool ← ok_or (as_object tool) InvalidEnvelope;
  name ← ok_or (name ← map_get (str "name") tool; name ← value_as_str name; if tool_name_ok name then Some name else None) InvalidEnvelope;
  if existsb (fun t => bool_decide (tool_name t = name)) parsed then Err InvalidEnvelope
  else
    description ← match map_get (str "description") tool with
                  | Some (JString description) => Ok (Some description)
                  | Some _ => Err InvalidEnvelope
                  | None => Ok None
                  end;
    input_schema ← ok_or (schema ← map_get (str "inputSchema") tool; if is_object schema then Some schema else None) InvalidEnvelope;
    Ok (mk_tool name description input_schema).

Fixpoint parse_tools (parsed : list McpTool) (tools : list Value) : result McpClientError (list McpTool) :=
  match tools with
  | [] => Ok parsed
  | tool :: tools => tool ← parse_tool parsed tool; parse_tools (parsed ++ [tool]) tools
  end.

Definition parse_tool_list (result : Value) (max_tools : Z) : Prelude.result McpClientError (list McpTool) :=
  tools ← ok_or (v ← value_get (str "tools") result; as_array v) InvalidEnvelope;
  if max_tools <? Z.of_nat (length tools) then Err ToolListTooLarge else parse_tools [] tools.

Definition parse_tool_call (result : Value) : Prelude.result McpClientError McpToolCallResult :=
  object ← ok_or (as_object result) InvalidEnvelope;
  if negb (is_some_and (fun v => bool_decide (is_Some (as_array v))) (map_get (str "content") object)) then Err InvalidEnvelope
  else
    outcome ← match map_get (str "isError") object with
              | Some (JBool true) => Ok CallFailed
              | Some (JBool false) | None => Ok CallSucceeded
              | Some _ => Err InvalidEnvelope
              end;
    json ← ok_or (to_vec result) InvalidEnvelope;
    Ok (mk_call_result outcome json (json_nesting_depth result)).

Definition decode_mcp_result (d : McpResponseDecoder) (result : Value) : Prelude.result McpClientError McpClientResponse :=
  match dec_shape d with
  | ShapeDiscovery => v ← parse_discovery result; Ok (Discovered v)
  | ShapeInitialization => v ← parse_initialization result; Ok (Initialized v)
  | ShapeToolList max_tools => tools ← parse_tool_list result max_tools; Ok (Tools tools)
  | ShapeToolCall => r ← parse_tool_call result; Ok (ToolCalled r)
  | ShapeAcknowledgement => Err InvalidEnvelope
  end.

Definition decode (d : McpResponseDecoder) (status : Z) (headers : HeaderMap) (body : list byte) : result McpClientError McpClientResponse :=
  match dec_shape d with
  | ShapeAcknowledgement =>
      if (status =? 202) && bool_decide (body = []) then Ok Acknowledged
      else if negb (is_success status) then Err UnexpectedHttpStatus
      else Err InvalidEnvelope
  | _ =>
      _ ← validate_content_type headers;
      message ← map_err (fun error => if pe_code error =? -32700 then InvalidJson else InvalidEnvelope) (rpc_parse body);
      match message with
      | MsgResponse response =>
          if negb (bool_decide (as_u64 (response_id response) = dec_id d)) then Err MismatchedResponseId
          else
            match response_payload response with
            | PayloadError code => Err (classify_remote_error code)
            | PayloadResult result =>
                if negb (is_success status) then Err UnexpectedHttpStatus
                else if is_some_and is_modern (dec_version d) &&
                        negb (is_some_and (fun v => bool_decide (value_as_str v = Some (str "complete"))) (value_get (str "resultType") result))
                then Err UnsupportedResponseMode
                else decode_mcp_result d result
            end
      | _ => Err InvalidEnvelope
      end
  end.
End Client.
