(* ===== verification/McpExchange.v ===== *)
(** * McpExchange: the MCP client and server against each other

    What the adapter of McpServer.v answers to the requests of McpClient.v, and what the
    decoder of the request makes of the answer.  The documents that cross the wire are those
    the codec carries exactly. *)

From S2P Require Import Prelude Text Bytes Base64 HttpLib Identifiers Json JsonDoc Capability Policy Dispatch Service RawBody HttpServer RestProto McpProto McpServer McpClient.

#[local] Arguments json_object : simpl never.
#[local] Arguments index_set : simpl never.
#[local] Arguments rpc_parse : simpl never.
#[local] Arguments str : simpl never.

Section Exchange.
  Context {U : UriCrate} {HC : HeaderCrate} {HT : HeaderText} {JW : JsonWriter} {JR : JsonReader} {B64 : Base64Standard}.
  Context {HCS : HeaderCrateSpec} {HTS : HeaderTextSpec} {JC : JsonCodecSpec} {B64S : Base64StandardSpec}.

(** ** Requests *)

(** The request as it arrives: other headers may have been added on the way. *)
Definition delivers (q : McpClientRequest) (request : Request (list byte)) : Prop :=
  req_method request = METHOD_POST /\ req_body request = cr_body q /\
  Forall (fun name => get_all name (req_headers request) = get_all name (cr_headers q))
    [CONTENT_TYPE; ACCEPT; PROTOCOL_VERSION_HEADER; METHOD_HEADER; NAME_HEADER].

Definition version_values (routing : option (McpProtocolVersion * rstr * option rstr)) : list HeaderValue :=
  match routing with Some (version, _, _) => [from_static (version_str version)] | None => [] end.
Definition method_values (routing : option (McpProtocolVersion * rstr * option rstr)) : list HeaderValue :=
  match routing with Some (V2026_07_28, method, _) => [from_static method] | _ => [] end.
Definition name_values (routing : option (McpProtocolVersion * rstr * option rstr)) : list HeaderValue :=
  match routing with Some (V2026_07_28, _, Some name) => [mk_header_value (encode_name name) false] | _ => [] end.

Lemma encode_name_visible name :
  Forall (fun c => is_scalar c = true) name -> Forall (fun c => 32 <= c < 127) (encode_name name).
Proof.
  intros Hn%as_bytes_octets. unfold encode_name. rewrite !Forall_app. split_and!; [by apply (bool_decide_unpack _); vm_compute| |by apply (bool_decide_unpack _); vm_compute].
  eapply Forall_impl; [by apply std_alphabet|]. intros c Hc. cbn in Hc.
  unfold is_ascii_alphanumeric, is_ascii_digit, is_ascii_alphabetic in Hc. bools; lia.
Qed.

Lemma decode_encoded_name name : Forall (fun c => is_scalar c = true) name -> decode_header_value (encode_name name) = Some name.
Proof.
  intros Hn. unfold decode_header_value, encode_name. rewrite strip_prefix_app. cbn [mbind option_bind].
  rewrite strip_suffix_app, std_decode_encode by (by apply as_bytes_octets). cbn. by apply from_utf8_as_bytes.
Qed.

Ltac header_ne := apply (bool_decide_eq_false_1 _); vm_compute; reflexivity.

Lemma routing_headers_spec routing headers hs :
  (forall v m name, routing = Some (v, m, Some name) -> Forall (fun c => is_scalar c = true) name) ->
  get_all PROTOCOL_VERSION_HEADER headers = [] -> get_all METHOD_HEADER headers = [] -> get_all NAME_HEADER headers = [] ->
  routing_headers routing headers = Ok hs ->
  get_all PROTOCOL_VERSION_HEADER hs = version_values routing /\ get_all METHOD_HEADER hs = method_values routing /\
  get_all NAME_HEADER hs = name_values routing /\
  (forall n v, get_all n headers = [v] -> n ∈ [CONTENT_TYPE; ACCEPT] -> get_all n hs = [v]).
Proof.
  intros Hname Hv Hm Hn. unfold routing_headers. destruct routing as [[[[] method] name]|]; cbn [is_modern].
  - destruct name as [name|].
    + unfold encoded_name_header. rewrite from_str_visible by (apply encode_name_visible; by eapply Hname). intros [= <-]. split_and!.
      * apply get_all_insert_single; [header_ne|]. apply get_all_insert_single; [header_ne|]. apply get_all_insert_eq.
      * apply get_all_insert_single; [header_ne|]. apply get_all_insert_eq.
      * apply get_all_insert_eq.
      * intros n v Hg Hin. apply list_elem_of_In in Hin. cbn in Hin.
        do 3 (apply get_all_insert_single; [destruct Hin as [<-|[<-|[]]]; header_ne|]). done.
    + intros [= <-]. split_and!.
      * apply get_all_insert_single; [header_ne|]. apply get_all_insert_eq.
      * apply get_all_insert_eq.
      * apply get_all_insert_none; [header_ne|]. by apply get_all_insert_none; [header_ne|].
      * intros n v Hg Hin. apply list_elem_of_In in Hin. cbn in Hin.
        do 2 (apply get_all_insert_single; [destruct Hin as [<-|[<-|[]]]; header_ne|]). done.
  - intros [= <-]. split_and!; [apply get_all_insert_eq|by apply get_all_insert_none; [header_ne|]..|].
    intros n v Hg Hin. apply list_elem_of_In in Hin. cbn in Hin.
    by apply get_all_insert_single; [destruct Hin as [<-|[<-|[]]]; header_ne|].
  - by intros [= <-].
Qed.

(** What a request that was built looks like. *)
Lemma McpClientRequest_new_spec id body routing shape q :
  (forall v m name, routing = Some (v, m, Some name) -> Forall (fun c => is_scalar c = true) name) ->
  McpClientRequest_new id body routing shape = Ok q ->
  get_all CONTENT_TYPE (cr_headers q) = [from_static (str "application/json")] /\
  get_all ACCEPT (cr_headers q) = [from_static (str "application/json, text/event-stream")] /\
  get_all PROTOCOL_VERSION_HEADER (cr_headers q) = version_values routing /\
  get_all METHOD_HEADER (cr_headers q) = method_values routing /\ get_all NAME_HEADER (cr_headers q) = name_values routing /\
  cr_body q = default [] (to_vec body) /\ cr_decoder q = mk_decoder id (r ← routing; Some r.1.1) shape.
Proof.
  intros Hname. unfold McpClientRequest_new. intros (hs & Hr & Hq)%result_bind_Ok.
  apply result_bind_Ok in Hq as (bytes & Hb & [= <-]). cbn [cr_headers cr_body cr_decoder].
  apply routing_headers_spec in Hr as (Hv & Hm & Hn & Hkeep); [|done|..].
  2-4: apply get_all_insert_none; [header_ne|]; apply get_all_insert_none; [header_ne|]; apply get_all_new.
  split_and!; try done.
  - apply Hkeep; [|set_solver]. apply get_all_insert_single; [header_ne|]. apply get_all_insert_eq.
  - apply Hkeep; [|set_solver]. apply get_all_insert_eq.
  - by destruct (to_vec body); [injection Hb as ->|].
Qed.

(** The body of a request is read back. *)
Lemma rpc_parse_request id method params :
  0 <= id <= U64_MAX -> forallb is_scalar method = true ->
  (forall p, params = Some p -> exact_json p = true /\ json_nesting_depth p < JSON_READER_DEPTH) ->
  rpc_parse (default [] (to_vec
    (let body := json_object [(str "jsonrpc", JString (str "2.0")); (str "id", JNumber (PosInt id)); (str "method", JString method)] in
     match params with Some params => index_set (str "params") params body | None => body end))) =
  Ok (MsgRequest (mk_rpc_request (JNumber (PosInt id)) method params)).
Proof.
  intros Hid Hm Hp. assert (exact_json (JNumber (PosInt id)) = true) as Hide by (cbn; by apply in_range_spec).
  unfold rpc_parse. cbv zeta. rewrite from_slice_written.
  - destruct params as [p|]; unfold index_set, json_object; cbn [ok_or mbind result_bind as_object]; json_get; cbn [valid_id as_u64].
    + by rewrite orb_true_r.
    + by rewrite orb_true_r.
  - destruct params as [p|]; [destruct (Hp p eq_refl)|]; json_exact.
  - unfold JSON_READER_DEPTH in *. destruct params as [p|]; [destruct (Hp p eq_refl)|]; json_depth.
Qed.

(** ** Answers *)

Lemma answer_content_type status v : validate_content_type (resp_headers (rpc_json_response status v)) = Ok ().
Proof.
  unfold validate_content_type, rpc_json_response. cbn [resp_headers]. rewrite get_all_insert_eq.
  rewrite to_str_visible by (by apply (bool_decide_unpack _); vm_compute). by vm_compute.
Qed.

Definition answer (q : McpClientRequest) (response : Response) : result McpClientError McpClientResponse :=
  decode (cr_decoder q) (resp_status response) (resp_headers response) (resp_body response).

Lemma decode_error id version shape status code message data :
  0 <= id <= U64_MAX -> shape <> ShapeAcknowledgement -> I64_MIN <= code <= I64_MAX -> forallb is_scalar message = true ->
  (forall d, data = Some d -> exact_json d = true /\ json_nesting_depth d < 100) ->
  let response := rpc_error_with_data status (Some (JNumber (PosInt id))) code message data in
  decode (mk_decoder (Some id) version shape) (resp_status response) (resp_headers response) (resp_body response) =
  Err (classify_remote_error code).
Proof.
  intros Hid Hs Hc Hm Hd response. unfold decode. cbn [dec_shape dec_id dec_version].
  assert (validate_content_type (resp_headers response) = Ok ()) as -> by apply answer_content_type.
  unfold response. rewrite rpc_parse_error; [|cbn; by apply in_range_spec|cbn; by rewrite orb_true_r|done..].
  destruct shape; try done; cbn; by rewrite bool_decide_eq_true_2.
Qed.

(** The refusals the adapter answers with status 200. *)
Lemma refusal_decoded id version shape code message :
  0 <= id <= U64_MAX -> shape <> ShapeAcknowledgement -> code ∈ [-32602; -32603] -> forallb is_scalar message = true ->
  let response := rpc_error_response (JNumber (PosInt id)) code message in
  decode (mk_decoder (Some id) version shape) (resp_status response) (resp_headers response) (resp_body response) =
  Err (classify_remote_error code).
Proof.
  intros Hid Hs Hc Hm. apply decode_error; [done|done| |done|done]. apply list_elem_of_In in Hc. cbn in Hc.
  unfold I64_MIN, I64_MAX. destruct Hc as [<-|[<-|[]]]; lia.
Qed.

Lemma decode_answer id version shape result :
  0 <= id <= U64_MAX -> shape <> ShapeAcknowledgement -> exact_json result = true -> json_nesting_depth result < JSON_READER_DEPTH ->
  (is_some_and is_modern version = true -> value_get (str "resultType") result = Some (JString (str "complete"))) ->
  let response := rpc_result (JNumber (PosInt id)) result in
  decode (mk_decoder (Some id) version shape) (resp_status response) (resp_headers response) (resp_body response) =
  decode_mcp_result (mk_decoder (Some id) version shape) result.
Proof.
  intros Hid Hs Hr Hd Hc response. unfold decode. cbn [dec_shape dec_id dec_version].
  assert (validate_content_type (resp_headers response) = Ok ()) as -> by apply answer_content_type.
  unfold response. rewrite rpc_parse_result; [|cbn; by apply in_range_spec|cbn; by rewrite orb_true_r|done..].
  cbn [map_err mbind result_bind response_id response_payload resp_status rpc_result rpc_json_response as_u64].
  rewrite bool_decide_eq_true_2 by done. rewrite success_range. change (negb (in_range 200 299 200)) with false. cbn [negb].
  destruct (is_some_and is_modern version) eqn:Hv; cbn [andb].
  - rewrite Hc by done. cbn [is_some_and value_as_str]. rewrite bool_decide_eq_true_2 by done. cbn [negb]. by destruct shape.
  - by destruct shape.
Qed.

(** ** The adapter on a delivered request *)

Lemma single_header_value hs name s :
  get_all name hs = [mk_header_value s false] -> Forall (fun c => 32 <= c < 127) s -> single_header hs name = Ok (Some s).
Proof. intros Hg Hs. unfold single_header. by rewrite Hg, to_str_visible. Qed.

Lemma delivered_media q request :
  get_all CONTENT_TYPE (cr_headers q) = [from_static (str "application/json")] ->
  get_all ACCEPT (cr_headers q) = [from_static (str "application/json, text/event-stream")] -> delivers q request ->
  mcp_has_json_content_type (req_headers request) = true /\ accepts_json_and_sse (req_headers request) = true.
Proof.
  intros Hc Ha (_ & _ & Hd). rewrite !Forall_cons in Hd. destruct Hd as (Hc' & Ha' & _).
  unfold mcp_has_json_content_type, accepts_json_and_sse, has_media_type. rewrite Hc', Ha', Hc, Ha. cbn [mapM].
  rewrite !to_str_visible by (by apply (bool_decide_unpack _); vm_compute). by vm_compute.
Qed.

Context {Validator S : Type} `{!AutomationService Validator S, !InvocationIdGenerator S}.

(** A request in the revision it names. *)
Definition routed (a : McpAdapter) (principal : Principal) (r : RpcRequest) (version : McpProtocolVersion) (s : S) : Response * S :=
  if is_modern version then handle_modern_request a principal r version s else handle_legacy_request a principal r version s.

Lemma client_info_valid info : valid_implementation (Some (client_info_json info)) = true.
Proof.
  unfold valid_implementation, client_info_json. cbn [mbind option_bind]. unfold json_object. cbn [as_object is_some_and]. json_get. done.
Qed.

Lemma metadata_valid info version object :
  validate_modern_metadata (Some (JObject (map_insert (str "_meta") (modern_metadata info version) object))) version = Ok ().
Proof.
  unfold validate_modern_metadata, modern_metadata. cbn [mbind option_bind as_object]. rewrite map_get_insert_eq. cbn [mbind option_bind].
  unfold json_object at 1. cbn [as_object]. json_get. cbn [mbind option_bind value_as_str].
  rewrite bool_decide_eq_true_2 by done. cbn [negb is_some_and is_object empty_object orb is_none_or].
  by rewrite client_info_valid.
Qed.

(** The name of the tool in the parameters of a call. *)
Definition params_name (params : option Value) : option rstr :=
  params ← params; name ← value_get (str "name") params; value_as_str name.

Lemma validate_request_ok info request id method params name object :
  params = Some (JObject (map_insert (str "_meta") (modern_metadata info V2026_07_28) object)) ->
  Forall (fun c => 32 <= c < 127) method ->
  (method = CALL_TOOL_METHOD -> params_name params = name /\ exists n, name = Some n /\ Forall (fun c => is_scalar c = true) n) ->
  get_all METHOD_HEADER (req_headers request) = [from_static method] ->
  get_all NAME_HEADER (req_headers request) = name_values (Some (V2026_07_28, method, name)) ->
  validate_modern_request (req_headers (Body := list byte) request) (mk_rpc_request id method params) V2026_07_28 = Ok ().
Proof.
  intros Hp Hvis Hcall Hm Hn. unfold validate_modern_request. rewrite (single_header_value _ _ _ Hm) by done.
  cbn [map_err mbind result_bind ok_or rpc_method rpc_params]. rewrite bool_decide_eq_true_2 by done. cbn [negb].
  case_bool_decide as Hc.
  - destruct (Hcall Hc) as (Hname & n & -> & Hsc). cbn [name_values] in Hn. rewrite (single_header_value _ _ _ Hn) by (by apply encode_name_visible).
    cbn [map_err mbind result_bind ok_or]. rewrite decode_encoded_name by done. cbn [mbind result_bind ok_or].
    unfold params_name, value_get in Hname. rewrite Hp in Hname |- *. cbn [mbind option_bind as_object] in Hname |- *. rewrite Hname.
    cbn [mbind result_bind ok_or]. rewrite bool_decide_eq_true_2 by done. cbn [negb mbind result_bind]. apply metadata_valid.
  - cbn [mbind result_bind]. rewrite Hp. apply metadata_valid.
Qed.

Lemma routed_params_modern info params version params' :
  routed_params info params (Some version) = Ok params' -> is_modern version = true ->
  exists object, params' = Some (JObject (map_insert (str "_meta") (modern_metadata info version) object)).
Proof. unfold routed_params. intros Hr Hm. rewrite Hm in Hr. apply result_bind_Ok in Hr as (object & _ & [= <-]). by exists object. Qed.

Lemma message_version_named hs version m :
  get_all PROTOCOL_VERSION_HEADER hs = [from_static (version_str version)] -> message_version hs m = Ok version.
Proof.
  intros Hg. unfold message_version. rewrite (single_header_value _ _ _ Hg) by (destruct version; by apply (bool_decide_unpack _); vm_compute).
  by rewrite version_roundtrip.
Qed.

(** A request of the client is handled as the message it was built from. *)
Lemma client_request_handled info id method params version shape params' q request a principal s :
  0 <= id <= U64_MAX -> method ∈ [DISCOVER_METHOD; LIST_TOOLS_METHOD; CALL_TOOL_METHOD] ->
  routed_params info params (Some version) = Ok params' ->
  (forall p, params' = Some p -> exact_json p = true /\ json_nesting_depth p < JSON_READER_DEPTH) ->
  (method = CALL_TOOL_METHOD -> exists n, params_name params' = Some n /\ Forall (fun c => is_scalar c = true) n) ->
  client_request info id method params (Some version) shape = Ok q -> delivers q request ->
  mcp_handle a request principal s = routed a principal (mk_rpc_request (JNumber (PosInt id)) method params') version s /\
  cr_decoder q = mk_decoder (Some id) (Some version) shape.
Proof.
  intros Hid Hmethod Hparams Hexact Hname Hq Hdel.
  assert (Forall (fun c => 32 <= c < 127) method /\ forallb is_scalar method = true) as [Hvis Hmsc].
  { apply list_elem_of_In in Hmethod. cbn in Hmethod. destruct Hmethod as [<-|[<-|[<-|[]]]]; (split; [by apply (bool_decide_unpack _); vm_compute|by vm_compute]). }
  unfold client_request in Hq. rewrite Hparams in Hq. cbn [mbind result_bind] in Hq. apply result_bind_Ok in Hq as (name & Hn & Hq).
  assert (name = if bool_decide (method = CALL_TOOL_METHOD) then params_name params' else None) as Hnv.
  { revert Hn. case_bool_decide as Hc; [|by intros [= <-]]. destruct (Hname Hc) as (n & Hpn & _). rewrite Hpn.
    unfold params_name in Hpn. destruct params' as [p|]; [|done]. rewrite value_get_set_eq by done. cbn [mbind option_bind] in Hpn |- *.
    rewrite Hpn. by intros [= <-]. }
  apply McpClientRequest_new_spec in Hq as (Hct & Hac & Hver & Hmet & Hnam & Hbody & Hdec).
  2:{ intros v m n [= _ _ ->]. revert Hnv. case_bool_decide as Hc; [|done]. destruct (Hname Hc) as (n' & -> & Hs). by intros [= ->]. }
  split; [|done]. destruct (delivered_media q request Hct Hac Hdel) as [Hct' Hac']. destruct Hdel as (Hpost & Hb & Hd).
  rewrite !Forall_cons in Hd. destruct Hd as (_ & _ & Hver' & Hmet' & Hnam' & _). unfold mcp_handle, handle_post.
  rewrite bool_decide_eq_true_2, Hct', Hac', Hb, Hbody by done. cbn [negb].
  pose proof (rpc_parse_request id method params' Hid Hmsc Hexact) as Hpr. cbv zeta in Hpr. rewrite Hpr. clear Hpr. cbn [mbind result_bind].
  rewrite Hver in Hver'. rewrite (message_version_named _ version) by exact Hver'. unfold handle_rpc_request, routed. destruct version; cbn [is_modern]; [|done].
  destruct (routed_params_modern _ _ _ _ Hparams eq_refl) as (object & Hobj). rewrite (validate_request_ok info request _ method params' name object);
    [done|done|done| |by rewrite Hmet', Hmet|by rewrite Hnam', Hnam].
  intros Hc. rewrite Hnv, bool_decide_eq_true_2 by done. split; [done|]. destruct (Hname Hc) as (n & -> & Hs). by exists n.
Qed.

(** ** Results *)

Lemma json_text_scalar v : forallb is_scalar (json_text v) = true.
Proof.
  unfold json_text. destruct (to_vec v) as [bytes|] eqn:Hb; [|done]. cbn [mbind option_bind]. destruct (from_utf8 bytes) as [text|] eqn:Ht; [|done].
  cbn. apply forallb_forall. intros c Hc%list_elem_of_In. apply from_utf8_scalar in Ht; [by eapply Forall_forall in Ht|].
  eapply Forall_impl; [by eapply written_octets|]. cbn. lia.
Qed.

Lemma server_info_depth info : json_nesting_depth (server_info_json info) <= 1.
Proof. unfold server_info_json. destruct (si_title info); json_depth. Qed.

(** Completing a result keeps its fields and adds those of the modern revision. *)
Lemma completed_result_spec a result version n :
  exact_json (server_info_json (mcp_server_info a)) = true -> is_object result = true -> exact_json result = true ->
  json_nesting_depth result <= n -> 3 <= n ->
  exact_json (completed_result a result version) = true /\ json_nesting_depth (completed_result a result version) <= n /\
  (is_modern version = true -> value_get (str "resultType") (completed_result a result version) = Some (JString (str "complete"))) /\
  (forall key, key <> str "_meta" -> key <> str "resultType" -> value_get key (completed_result a result version) = value_get key result).
Proof.
  intros Hinfo Hobj Hex Hd Hn. unfold completed_result. destruct (is_modern version); [|done]. cbv zeta.
  set (r := index_set (str "resultType") (JString (str "complete")) result).
  assert (exact_json r = true) as Hr by (unfold r; json_exact).
  assert (json_nesting_depth r <= n) as Hrd by (apply index_set_depth; [done|cbn; lia]).
  set (metadata := default [] (meta ← value_get (str "_meta") r; as_object meta)).
  assert (exact_json (JObject metadata) = true /\ json_nesting_depth (JObject metadata) <= n - 1) as [Hm Hmd].
  { unfold metadata. destruct (value_get (str "_meta") r) as [meta|] eqn:Hg; cbn [mbind option_bind]; [|split; [done|cbn; lia]].
    destruct r as [| | | | |entries]; try done. cbn in Hg. pose proof (map_get_exact _ _ _ Hr Hg) as Hme. pose proof (map_get_depth _ _ _ Hg) as Hmd.
    destruct meta; cbn [as_object default]; try (split; [done|cbn; lia]). split; [done|]. unfold Datatypes.id. lia. }
  pose proof (server_info_depth (mcp_server_info a)). split_and!.
  - apply index_set_exact; [done|by vm_compute|]. by apply map_insert_exact.
  - apply index_set_depth; [done|]. apply map_insert_depth; [done|lia].
  - intros _. rewrite value_get_set_ne by key_ne. unfold r. by apply value_get_set_eq.
  - intros key H1 H2. rewrite value_get_set_ne by done. unfold r. by apply value_get_set_ne.
Qed.

Lemma tool_call_parsed result failed :
  is_object result = true -> is_some_and (fun v => bool_decide (is_Some (as_array v))) (value_get (str "content") result) = true ->
  value_get (str "isError") result = Some (JBool failed) ->
  parse_tool_call result = Ok (mk_call_result (if failed then CallFailed else CallSucceeded) (default [] (to_vec result)) (json_nesting_depth result)).
Proof.
  intros Ho Hc He. unfold parse_tool_call. destruct result; try done. cbn [as_object ok_or mbind result_bind]. cbn in Hc, He. rewrite Hc, He. cbn [negb].
  destruct (to_vec_total (JObject entries)) as [bytes Hb]. rewrite Hb. by destruct failed.
Qed.

(** A tool result as the client decodes it. *)
Lemma tool_result_answered a id version result failed :
  0 <= id <= U64_MAX -> exact_json (server_info_json (mcp_server_info a)) = true ->
  is_object result = true -> exact_json result = true -> json_nesting_depth result < JSON_READER_DEPTH ->
  is_some_and (fun v => bool_decide (is_Some (as_array v))) (value_get (str "content") result) = true ->
  value_get (str "isError") result = Some (JBool failed) ->
  let document := completed_result a result version in
  let response := complete_result a (JNumber (PosInt id)) result version in
  decode (mk_decoder (Some id) (Some version) ShapeToolCall) (resp_status response) (resp_headers response) (resp_body response) =
    Ok (ToolCalled (mk_call_result (if failed then CallFailed else CallSucceeded) (default [] (to_vec document)) (json_nesting_depth document))) /\
  from_slice (default [] (to_vec document)) = Some document.
Proof.
  intros Hid Hinfo Hobj Hex Hd Hc He document response. unfold JSON_READER_DEPTH in Hd.
  destruct (completed_result_spec a result version (JSON_READER_DEPTH - 1) Hinfo Hobj Hex) as (Hex' & Hd' & Hmodern & Hkeep);
    [unfold JSON_READER_DEPTH; lia..|]. fold document in Hex', Hd', Hmodern, Hkeep. split; [|apply from_slice_written; [done|lia]].
  unfold response, complete_result. fold document.
  rewrite (decode_answer id (Some version) ShapeToolCall document); [|done|done|done|lia|exact Hmodern].
  cbn [decode_mcp_result dec_shape]. rewrite (tool_call_parsed document failed); [done| | |].
  - unfold document, completed_result. destruct (is_modern version); [|done]. cbv zeta. by rewrite !index_set_object.
  - by rewrite Hkeep by key_ne.
  - by rewrite Hkeep by key_ne.
Qed.

(** What the client learns of a dispatch. *)
Definition reports (version : McpProtocolVersion) (r : result DispatchError Value) (ans : result McpClientError McpClientResponse) : Prop :=
  match r with
  | Ok output =>
      exists document, ans = Ok (ToolCalled (mk_call_result CallSucceeded (default [] (to_vec document)) (json_nesting_depth document))) /\
        from_slice (default [] (to_vec document)) = Some document /\
        (is_modern version || is_object output = true -> value_get (str "structuredContent") document = Some output)
  | Err DispatchInvalidInput | Err (DispatchHandler _) =>
      exists document, ans = Ok (ToolCalled (mk_call_result CallFailed (default [] (to_vec document)) (json_nesting_depth document))) /\
        from_slice (default [] (to_vec document)) = Some document /\ value_get (str "structuredContent") document = None
  | Err (DispatchCapabilityNotFound _) | Err (DispatchAccessDenied NotGranted) => ans = Err RequestRejected
  | Err (DispatchAccessDenied PolicyUnavailable) | Err (DispatchAudit _) => ans = Err PeerUnavailable
  end.

(** What crosses the wire can be carried: an output within the depth of the reader, and the
    error code of a handler. *)
Definition carried (r : result DispatchError Value) : Prop :=
  match r with
  | Ok output => exact_json output = true /\ json_nesting_depth output <= JSON_READER_DEPTH - 2
  | Err (DispatchHandler error) => forallb is_scalar (as_str (handler_error_code error)) = true
  | _ => True
  end.

Lemma tool_success_spec output inv version :
  exact_json output = true -> json_nesting_depth output <= JSON_READER_DEPTH - 2 -> forallb is_scalar inv = true ->
  let document := tool_success output inv version in
  is_object document = true /\ exact_json document = true /\ json_nesting_depth document < JSON_READER_DEPTH /\
  is_some_and (fun v => bool_decide (is_Some (as_array v))) (value_get (str "content") document) = true /\
  value_get (str "isError") document = Some (JBool false) /\
  (is_modern version || is_object output = true -> value_get (str "structuredContent") document = Some output).
Proof.
  intros He Hd Hi document. unfold document, tool_success. cbv zeta.
  set (base := json_object _). assert (exact_json base = true) as Hbe.
  { unfold base. pose proof (json_text_scalar output). unfold text_content. json_exact. }
  assert (json_nesting_depth base <= 3) as Hbd by (unfold base, text_content; json_depth).
  unfold JSON_READER_DEPTH in *. destruct (is_modern version || is_object output); split_and!; try done.
  - by apply index_set_exact.
  - enough (json_nesting_depth (index_set (str "structuredContent") output base) <= 126) by lia. apply index_set_depth; lia.
Qed.

Lemma tool_failure_spec message inv code :
  forallb is_scalar message = true -> forallb is_scalar inv = true -> (forall c, code = Some c -> forallb is_scalar c = true) ->
  let document := tool_failure message inv code in
  is_object document = true /\ exact_json document = true /\ json_nesting_depth document < JSON_READER_DEPTH /\
  is_some_and (fun v => bool_decide (is_Some (as_array v))) (value_get (str "content") document) = true /\
  value_get (str "isError") document = Some (JBool true) /\ value_get (str "structuredContent") document = None.
Proof.
  intros Hm Hi Hc document. unfold document, tool_failure. cbv zeta. set (metadata := match code with Some _ => _ | None => _ end).
  assert (exact_json metadata = true /\ json_nesting_depth metadata <= 1) as [Hme Hmd].
  { unfold metadata. destruct code as [c|]; [pose proof (Hc c eq_refl)|]; (split; [json_exact|json_depth]). }
  split_and!; [done| | |by vm_compute..].
  - unfold text_content. json_exact.
  - enough (json_nesting_depth (json_object [(str "content", text_content message); (str "isError", JBool true); (str "_meta", metadata)]) <= 3)
      by (unfold JSON_READER_DEPTH; lia). unfold text_content. json_depth.
Qed.

Lemma call_answered a id inv version r :
  0 <= id <= U64_MAX -> exact_json (server_info_json (mcp_server_info a)) = true -> forallb is_scalar inv = true -> carried r ->
  let response := tool_response a (JNumber (PosInt id)) inv version r in
  reports version r
    (decode (mk_decoder (Some id) (Some version) ShapeToolCall) (resp_status response) (resp_headers response) (resp_body response)).
Proof.
  intros Hid Hinfo Hinv Hr response. unfold response.
  pose proof (fun code message => refusal_decoded id (Some version) ShapeToolCall code message Hid) as Herr.
  assert (forall message code, forallb is_scalar message = true -> (forall c, code = Some c -> forallb is_scalar c = true) ->
    reports version (Err DispatchInvalidInput)
      (let response := complete_result a (JNumber (PosInt id)) (tool_failure message inv code) version in
       decode (mk_decoder (Some id) (Some version) ShapeToolCall) (resp_status response) (resp_headers response) (resp_body response))) as Hfail.
  { intros message code Hm Hc. destruct (tool_failure_spec message inv code Hm Hinv Hc) as (H1 & H2 & H3 & H4 & H5 & H6).
    destruct (tool_result_answered a id version _ true Hid Hinfo H1 H2 H3 H4 H5) as [Ha Hb]. eexists. split; [exact Ha|]. split; [done|].
    destruct (completed_result_spec a (tool_failure message inv code) version JSON_READER_DEPTH Hinfo H1 H2) as (_ & _ & _ & Hk);
      [lia|unfold JSON_READER_DEPTH; lia|]. by rewrite Hk by key_ne. }
  destruct r as [output|[audit|c|[]| |error]]; cbn [tool_response reports].
  - destruct Hr as [He Hd]. destruct (tool_success_spec output inv version He Hd Hinv) as (H1 & H2 & H3 & H4 & H5 & H6).
    destruct (tool_result_answered a id version _ false Hid Hinfo H1 H2 H3 H4 H5) as [Ha Hb]. eexists. split; [exact Ha|]. split; [done|].
    destruct (completed_result_spec a (tool_success output inv version) version JSON_READER_DEPTH Hinfo H1 H2) as (_ & _ & _ & Hk);
      [lia|unfold JSON_READER_DEPTH; lia|]. by rewrite Hk by key_ne.
  - apply (Herr (-32603)); [done|set_solver|by vm_compute].
  - apply (Herr (-32602)); [done|set_solver|by vm_compute].
  - apply (Herr (-32602)); [done|set_solver|by vm_compute].
  - apply (Herr (-32603)); [done|set_solver|by vm_compute].
  - apply Hfail; [by vm_compute|done].
  - apply (Hfail _ (Some _)); [by vm_compute|]. by intros c [= <-].
Qed.

(** ** Calls *)

Lemma modern_metadata_spec info version :
  exact_json (client_info_json info) = true ->
  exact_json (modern_metadata info version) = true /\ json_nesting_depth (modern_metadata info version) <= 2.
Proof.
  intros Hi. unfold modern_metadata. assert (json_nesting_depth (client_info_json info) <= 1) by (unfold client_info_json; json_depth).
  assert (exact_json (JString (version_str version)) = true) by (by destruct version; vm_compute). split; [json_exact|json_depth].
Qed.

Lemma call_params info version name arguments :
  exact_json (client_info_json info) = true -> Forall (fun c => is_scalar c = true) name ->
  is_object arguments = true -> exact_json arguments = true -> json_nesting_depth arguments <= JSON_READER_DEPTH - 2 ->
  exists p, routed_params info (Some (json_object [(str "name", JString name); (str "arguments", arguments)])) (Some version) = Ok (Some p) /\
    exact_json p = true /\ json_nesting_depth p < JSON_READER_DEPTH /\ params_name (Some p) = Some name /\
    tool_call (Some p) = Some (name, arguments).
Proof.
  intros Hi Hn Ho He Hd. destruct (modern_metadata_spec info version Hi) as [Hme Hmd].
  assert (forallb is_scalar name = true) as Hns by (apply forallb_forall; intros c Hc%list_elem_of_In; by eapply Forall_forall in Hn).
  set (base := json_object _). assert (exact_json base = true) as Hbe by (unfold base; json_exact).
  unfold JSON_READER_DEPTH in *. assert (json_nesting_depth base <= 126) as Hbd by (unfold base; json_depth).
  assert (value_get (str "name") base = Some (JString name) /\ value_get (str "arguments") base = Some arguments) as [Hgn Hga]
    by (unfold base; rewrite !json_object_get; split; json_get; done).
  assert (forall p, is_object p = true -> value_get (str "name") p = Some (JString name) -> value_get (str "arguments") p = Some arguments ->
    params_name (Some p) = Some name /\ tool_call (Some p) = Some (name, arguments)) as Hget.
  { intros p Hop Hpn Hpa. destruct p as [| | | | |entries]; try done. cbn in Hpn, Hpa. unfold params_name, tool_call.
    cbn [mbind option_bind value_get as_object]. rewrite Hpn. cbn [mbind option_bind value_as_str]. by rewrite Hpa, Ho. }
  unfold routed_params. destruct (is_modern version).
  - exists (index_set (str "_meta") (modern_metadata info version) base). split; [done|]. split; [by apply index_set_exact|].
    split; [enough (json_nesting_depth (index_set (str "_meta") (modern_metadata info version) base) <= 126) by lia; apply index_set_depth; lia|].
    apply Hget; [done|by rewrite value_get_set_ne by key_ne..].
  - exists base. split; [done|]. split; [done|]. split; [lia|]. by apply Hget.
Qed.

(** A call of the client for a tool, delivered to the adapter in either revision, dispatches
    exactly the named capability with the given arguments for the authenticated principal, or
    nothing when the name is no capability's; and the client's decoder accepts the answer and
    tells what became of the dispatch. *)
Lemma call_end_to_end info id version name arguments q request a principal s :
  0 <= id <= U64_MAX -> exact_json (client_info_json info) = true -> exact_json (server_info_json (mcp_server_info a)) = true ->
  Forall (fun c => is_scalar c = true) name -> exact_json arguments = true -> json_nesting_depth arguments <= JSON_READER_DEPTH - 2 ->
  client_call_tool info id version name arguments = Ok q -> delivers q request ->
  let '(response, s') := mcp_handle a request principal s in
  match (Identifier_new name : result IdentifierError CapabilityId), generate s with
  | Err _, _ => answer q response = Err RequestRejected /\ s' = s
  | Ok _, (Err _, s1) => answer q response = Err PeerUnavailable /\ s' = s1
  | Ok capability, (Ok inv, s1) =>
      let '(r, s2) := service_dispatch (mk_invocation inv (mcp_adapter a) principal capability arguments) s1 in
      s' = s2 /\ (forallb is_scalar (as_str inv) = true -> carried r -> reports version r (answer q response))
  end.
Proof.
  intros Hid Hci Hsi Hname Hex Hdep Hq Hdel. unfold client_call_tool in Hq. destruct (tool_name_ok name); [|done].
  destruct (is_object arguments) eqn:Hobj; [|done]. cbn [negb] in Hq.
  destruct (call_params info version name arguments) as (p & Hparams & Hpe & Hpd & Hpn & Hpc); [done..|].
  assert (CALL_TOOL_METHOD ∈ [DISCOVER_METHOD; LIST_TOOLS_METHOD; CALL_TOOL_METHOD]) as Hin by set_solver.
  destruct (client_request_handled _ _ _ _ _ ShapeToolCall _ q request a principal s Hid Hin Hparams) as [Hh Hdec];
    [by intros ? [= <-]|intros _; by exists name|exact Hq|exact Hdel|].
  rewrite Hh. unfold answer. rewrite Hdec.
  assert (routed a principal (mk_rpc_request (JNumber (PosInt id)) CALL_TOOL_METHOD (Some p)) version s =
          mcp_call_tool a principal (JNumber (PosInt id)) (Some p) version s) as -> by (by destruct version).
  unfold mcp_call_tool. rewrite Hpc.
  pose proof (fun code message => refusal_decoded id (Some version) ShapeToolCall code message Hid) as Herr.
  destruct (Identifier_new name) as [capability|].
  - destruct (generate s) as [[inv|] s1].
    + destruct (service_dispatch _ s1) as [r s2]. split; [done|]. intros Hi Hc. by apply call_answered.
    + split; [|done]. apply (Herr (-32603)); [done|set_solver|by vm_compute].
  - split; [|done]. apply (Herr (-32602)); [done|set_solver|by vm_compute].
Qed.

(** ** Listings *)

Lemma annotations_object v : is_object (remove_custom_header_annotations v) = is_object v.
Proof. by destruct v. Qed.

Lemma annotations_exact v : exact_json v = true -> exact_json (remove_custom_header_annotations v) = true.
Proof.
  induction v as [| | | |items IH|entries IH] using Value_nested_ind; cbn [remove_custom_header_annotations]; try done.
  - cbn [exact_json]. rewrite !forallb_forall. intros He v Hv%list_elem_of_In. apply list_elem_of_fmap in Hv as (w & -> & Hw).
    rewrite Forall_forall in IH. apply IH; [done|]. by apply He, list_elem_of_In.
  - cbn [exact_json]. rewrite !andb_true_iff, !forallb_forall. intros [Hs He]. split.
    + apply keys_increasing_remove. by rewrite <-list_fmap_compose.
    + intros e Hin%list_elem_of_In. apply list_elem_of_filter in Hin as [_ ([k w] & -> & Hw)%list_elem_of_fmap].
      apply list_elem_of_In in Hw as Hw'. apply He, andb_true_iff in Hw' as [Hk Hv]. cbn. apply andb_true_iff. split; [done|].
      rewrite Forall_forall in IH. by apply (IH (k, w)).
Qed.

Lemma annotations_depth v : json_nesting_depth (remove_custom_header_annotations v) <= json_nesting_depth v.
Proof.
  induction v as [| | | |items IH|entries IH] using Value_nested_ind; cbn [remove_custom_header_annotations json_nesting_depth]; try done.
  - apply Z.add_le_mono_l. induction IH as [|v l Hv _ IHl]; [done|]. rewrite fmap_cons. cbn [fold_right]. lia.
  - apply Z.add_le_mono_l. unfold map_remove. induction IH as [|[k v] l Hv _ IHl]; [done|]. rewrite fmap_cons, filter_cons. cbn [fst snd] in *.
    case_decide; cbn [fold_right snd]; lia.
Qed.

(** The tool a capability is listed as. *)
Definition tool_of (d : CapabilityDescriptor Validator) : McpTool :=
  mk_tool (as_str (descriptor_id d)) (Some (descriptor_summary d))
    (remove_custom_header_annotations (CapabilityInputSchema_document (descriptor_schema d))).

(** Descriptors that were made by the constructors of bondry-core, with schemas the reader follows. *)
Definition descriptor_carried (d : CapabilityDescriptor Validator) : Prop :=
  let document := CapabilityInputSchema_document (descriptor_schema d) in
  portable MAX_IDENTIFIER_LENGTH (as_str (descriptor_id d)) /\ forallb is_scalar (descriptor_summary d) = true /\
  is_object document = true /\ exact_json document = true /\ json_nesting_depth document <= JSON_READER_DEPTH - 4.

Lemma portable_name maximum s : portable maximum s -> tool_name_ok s = true /\ forallb is_scalar s = true.
Proof.
  intros (Hne & _ & Hall). unfold tool_name_ok. rewrite Forall_forall in Hall.
  assert (forall c, c ∈ s -> is_whitespace c = false /\ is_control c = false /\ is_scalar c = true) as Hchars.
  { intros c Hc%Hall. assert (45 <= c <= 122) as Hr.
    { unfold is_allowed, is_ascii_alphanumeric, is_ascii_digit, is_ascii_alphabetic in Hc. bools; lia. }
    unfold is_whitespace, is_control, is_scalar. rewrite !orb_false_iff, orb_true_iff, !in_range_spec, !Z.eqb_neq.
    split_and!; try lia; apply in_range_false; lia. }
  split; [|apply forallb_forall; intros c Hc%list_elem_of_In; by apply Hchars].
  apply andb_true_iff. rewrite !negb_true_iff, bool_decide_eq_false. split.
  - intros Ht. destruct (trim_infix s) as (w1 & w2 & Hs & Hw1 & Hw2). rewrite Ht in Hs. cbn in Hs.
    assert (Forall (fun c => is_whitespace c = true) s) as Hw by (rewrite Hs; by apply Forall_app).
    destruct s as [|c s]; [done|]. apply Forall_cons in Hw as [Hc _]. destruct (Hchars c) as [Hc' _]; [by left|congruence].
  - apply not_true_iff_false. rewrite existsb_exists. intros (c & Hc%list_elem_of_In & Hctl). apply Hchars in Hc as (_ & Hc & _). congruence.
Qed.

Lemma tool_json_spec d :
  descriptor_carried d ->
  exact_json (tool_json d) = true /\ json_nesting_depth (tool_json d) <= JSON_READER_DEPTH - 3 /\
  forall parsed, as_str (descriptor_id d) ∉ tool_name <$> parsed -> parse_tool parsed (tool_json d) = Ok (tool_of d).
Proof.
  intros (Hid & Hsum & Hobj & Hex & Hd). apply portable_name in Hid as [Hname Hids].
  pose proof (annotations_exact _ Hex) as Hae. pose proof (annotations_depth (CapabilityInputSchema_document (descriptor_schema d))) as Had.
  unfold JSON_READER_DEPTH in *. split_and!; [unfold tool_json; json_exact|unfold tool_json; json_depth|].
  intros parsed Hp. unfold parse_tool, tool_json. unfold json_object at 1. cbn [as_object ok_or mbind result_bind]. json_get.
  cbn [mbind option_bind value_as_str]. rewrite Hname. cbn [ok_or mbind result_bind].
  destruct (existsb _ parsed) eqn:Hex'; [|by rewrite annotations_object, Hobj].
  apply existsb_exists in Hex' as (t & Ht%list_elem_of_In & Hn). bools. destruct Hp. apply list_elem_of_fmap. by exists t.
Qed.

Lemma parse_tools_spec ds parsed :
  Forall descriptor_carried ds -> NoDup ((tool_name <$> parsed) ++ ((fun d => as_str (descriptor_id d)) <$> ds)) ->
  parse_tools parsed (tool_json <$> ds) = Ok (parsed ++ (tool_of <$> ds)).
Proof.
  intros Hds. revert parsed. induction Hds as [|d ds Hd _ IH]; intros parsed Hnd; [cbn; by rewrite app_nil_r|].
  rewrite !fmap_cons in *. cbn [parse_tools]. destruct (tool_json_spec d Hd) as (_ & _ & Hp). rewrite Hp; cbn [mbind result_bind].
  - rewrite IH; [by rewrite <-(assoc_L (++))|]. rewrite fmap_app, <-(assoc_L (++)). done.
  - apply NoDup_app in Hnd as (_ & Hdis & _). intros Hin. apply (Hdis _ Hin). by left.
Qed.

Lemma tool_list_result_spec ds version :
  Forall descriptor_carried ds ->
  is_object (tool_list_result ds version) = true /\ exact_json (tool_list_result ds version) = true /\
  json_nesting_depth (tool_list_result ds version) <= JSON_READER_DEPTH - 1 /\
  value_get (str "tools") (tool_list_result ds version) = Some (JArray (tool_json <$> ds)).
Proof.
  intros Hds. unfold tool_list_result.
  assert (Forall (fun v => exact_json v = true) (tool_json <$> ds) /\ Forall (fun v => json_nesting_depth v <= JSON_READER_DEPTH - 3) (tool_json <$> ds))
    as [Hex Hd].
  { rewrite !Forall_fmap. split; (eapply Forall_impl; [exact Hds|]); intros d Hc; by apply tool_json_spec. }
  unfold JSON_READER_DEPTH in *. set (base := json_object _).
  assert (exact_json base = true) as Hbe by (unfold base; json_exact).
  assert (json_nesting_depth base <= 126) as Hbd.
  { unfold base. json_depth. eapply Forall_impl; [exact Hd|]. cbn. lia. }
  cbv zeta. destruct (is_modern version); [|done]. split_and!; [done|by do 2 (apply index_set_exact; [|by vm_compute..])| |done].
  apply index_set_depth; [apply index_set_depth|]; [lia|cbn; lia..].
Qed.

Lemma list_params info version :
  exact_json (client_info_json info) = true ->
  exists params, routed_params info (if is_modern version then Some empty_object else None) (Some version) = Ok params /\
    (forall p, params = Some p -> exact_json p = true /\ json_nesting_depth p < JSON_READER_DEPTH) /\
    valid_list_params params = true /\
    (is_modern version = true -> params = Some (JObject (map_insert (str "_meta") (modern_metadata info version) []))).
Proof.
  intros Hi. destruct (modern_metadata_spec info version Hi) as [Hme Hmd]. unfold routed_params. destruct (is_modern version).
  - set (p := JObject (map_insert (str "_meta") (modern_metadata info version) [])).
    assert (exact_json p = true) as Hpe by (by apply map_insert_exact).
    assert (json_nesting_depth p <= 3) as Hpd by (apply map_insert_depth; [cbn; lia|lia]).
    exists (Some p). split_and!; [done| |done|done]. intros p' Hp. assert (p' = p) as -> by congruence.
    split; [done|]. unfold JSON_READER_DEPTH. lia.
  - exists None. by split_and!.
Qed.

(** A listing tells the capabilities the principal may use, if they are not too many. *)
Lemma list_tools_answered info id version max_tools q request a principal s :
  0 <= id <= U64_MAX -> exact_json (client_info_json info) = true -> exact_json (server_info_json (mcp_server_info a)) = true ->
  client_list_tools info id version max_tools = Ok q -> delivers q request ->
  let '(response, s') := mcp_handle a request principal s in
  s' = s /\
  match service_capabilities s principal (mcp_adapter a) with
  | Err _ => answer q response = Err PeerUnavailable
  | Ok ds =>
      Forall descriptor_carried ds -> NoDup (descriptor_id <$> ds) ->
      answer q response = if max_tools <? Z.of_nat (length ds) then Err ToolListTooLarge else Ok (Tools (tool_of <$> ds))
  end.
Proof.
  intros Hid Hci Hsi Hq Hdel. destruct (list_params info version Hci) as (params & Hparams & Hexact & Hvalid & _).
  assert (LIST_TOOLS_METHOD ∈ [DISCOVER_METHOD; LIST_TOOLS_METHOD; CALL_TOOL_METHOD]) as Hin by set_solver.
  destruct (client_request_handled _ _ _ _ _ (ShapeToolList max_tools) _ q request a principal s Hid Hin Hparams) as [Hh Hdec];
    [done|done|exact Hq|exact Hdel|].
  rewrite Hh. unfold answer. rewrite Hdec.
  assert (routed a principal (mk_rpc_request (JNumber (PosInt id)) LIST_TOOLS_METHOD params) version s =
          (mcp_list_tools a principal (JNumber (PosInt id)) params version s, s)) as -> by (by destruct version).
  split; [done|]. unfold mcp_list_tools. rewrite Hvalid. cbn [negb]. destruct (service_capabilities _ _ _) as [ds|[]].
  - intros Hds Hnd. destruct (tool_list_result_spec ds version Hds) as (H1 & H2 & H3 & H4).
    destruct (completed_result_spec a _ version (JSON_READER_DEPTH - 1) Hsi H1 H2 H3) as (H5 & H6 & H7 & H8); [by vm_compute|].
    unfold complete_result. rewrite decode_answer; [|done|done|done|lia|exact H7].
    cbn [decode_mcp_result dec_shape]. unfold parse_tool_list. rewrite H8, H4 by key_ne. cbn [mbind option_bind as_array ok_or result_bind].
    rewrite length_fmap. destruct (max_tools <? _); [done|]. rewrite parse_tools_spec; [done|done|].
    change (NoDup (as_str ∘ descriptor_id <$> ds)). rewrite (list_fmap_compose descriptor_id as_str).
    apply NoDup_fmap_2_strong; [|done]. intros [x] [y] _ _ Hxy. cbn in Hxy. by subst.
  - apply (refusal_decoded id (Some version) (ShapeToolList max_tools) (-32603)); [done|done|set_solver|by vm_compute].
Qed.

(** ** Negotiation *)

Lemma discover_answered info id q request a principal s :
  0 <= id <= U64_MAX -> exact_json (client_info_json info) = true -> exact_json (server_info_json (mcp_server_info a)) = true ->
  client_discover info id = Ok q -> delivers q request ->
  let '(response, s') := mcp_handle a request principal s in s' = s /\ answer q response = Ok (Discovered V2026_07_28).
Proof.
  intros Hid Hci Hsi Hq Hdel. destruct (list_params info V2026_07_28 Hci) as (params & Hparams & Hexact & _ & Hp).
  assert (DISCOVER_METHOD ∈ [DISCOVER_METHOD; LIST_TOOLS_METHOD; CALL_TOOL_METHOD]) as Hin by set_solver.
  destruct (client_request_handled _ _ _ _ _ ShapeDiscovery _ q request a principal s Hid Hin Hparams) as [Hh Hdec];
    [done|done|exact Hq|exact Hdel|].
  rewrite Hh. unfold answer. rewrite Hdec. rewrite Hp by done.
  unfold routed. cbn [is_modern]. unfold handle_modern_request. cbn [rpc_method rpc_id rpc_params]. rewrite bool_decide_eq_true_2 by done.
  split; [done|]. unfold mcp_discover. rewrite metadata_valid. cbn [is_ok negb orb map_insert mbind option_bind as_object is_some_and forallb fst].
  rewrite bool_decide_eq_true_2 by done. cbn [andb negb].
  set (r := json_object _). assert (exact_json r = true) as Hre by (by vm_compute).
  assert (json_nesting_depth r <= 3) as Hrd by (by vm_compute).
  destruct (completed_result_spec a r V2026_07_28 3 Hsi eq_refl Hre Hrd) as (H5 & H6 & H7 & H8); [lia|].
  unfold complete_result. rewrite decode_answer; [|done|done|done|unfold JSON_READER_DEPTH; lia|exact H7].
  cbn [decode_mcp_result dec_shape]. unfold parse_discovery. rewrite H8 by key_ne. by vm_compute.
Qed.

(** The result of a legacy initialization. *)
Definition initialize_result (a : McpAdapter) : Value :=
  json_object [(str "protocolVersion", JString (str "2025-11-25")); (str "capabilities", tools_capability);
               (str "serverInfo", server_info_json (mcp_server_info a))].

Lemma mcp_initialize_spec info a id :
  mcp_initialize a id (Some (json_object [(str "protocolVersion", JString LATEST_PROTOCOL_VERSION); (str "capabilities", empty_object);
    (str "clientInfo", client_info_json info)])) = rpc_result id (initialize_result a).
Proof.
  unfold mcp_initialize. unfold json_object at 1. cbn [mbind option_bind as_object]. json_get.
  cbn [mbind option_bind value_as_str is_some_and is_object empty_object negb orb]. by rewrite client_info_valid.
Qed.

Lemma initialize_answered info id q request a principal s :
  0 <= id <= U64_MAX -> exact_json (client_info_json info) = true -> exact_json (server_info_json (mcp_server_info a)) = true ->
  client_initialize info id = Ok q -> delivers q request ->
  let '(response, s') := mcp_handle a request principal s in s' = s /\ answer q response = Ok (Initialized V2025_11_25).
Proof.
  intros Hid Hci Hsi Hq Hdel. unfold client_initialize in Hq.
  apply McpClientRequest_new_spec in Hq as (Hct & Hac & Hver & _ & _ & Hbody & Hdec); [|done].
  destruct (delivered_media q request Hct Hac Hdel) as [Hct' Hac']. destruct Hdel as (Hpost & Hb & Hd).
  rewrite !Forall_cons in Hd. destruct Hd as (_ & _ & Hver' & _). unfold mcp_handle, handle_post.
  rewrite bool_decide_eq_true_2, Hct', Hac', Hb, Hbody by done. cbn [negb].
  set (params := json_object [(str "protocolVersion", _); _; _]).
  assert (exact_json params = true) as Hpe by (unfold params; json_exact).
  assert (json_nesting_depth (client_info_json info) <= 1) by (unfold client_info_json; json_depth).
  assert (json_nesting_depth params <= 2) as Hpd by (unfold params; json_depth).
  assert (rpc_parse (default [] (to_vec (json_object [(str "jsonrpc", JString (str "2.0")); (str "id", JNumber (PosInt id));
    (str "method", JString INITIALIZE_METHOD); (str "params", params)]))) =
    Ok (MsgRequest (mk_rpc_request (JNumber (PosInt id)) INITIALIZE_METHOD (Some params)))) as Hpr.
  { apply (rpc_parse_request id INITIALIZE_METHOD (Some params)); [done|by vm_compute|].
    intros p [= <-]. split; [done|unfold JSON_READER_DEPTH; lia]. }
  rewrite Hpr. clear Hpr. unfold message_version, single_header. rewrite Hver', Hver. cbn [version_values is_legacy_initialize rpc_method].
  rewrite bool_decide_eq_true_2 by done. unfold handle_rpc_request. cbn [is_modern]. unfold handle_legacy_request.
  cbn [rpc_method rpc_id rpc_params]. rewrite bool_decide_eq_true_2 by done. split; [done|].
  unfold params. rewrite mcp_initialize_spec. unfold answer. rewrite Hdec. rewrite decode_answer; [by vm_compute|done|done| | |done].
  - unfold initialize_result. json_exact.
  - pose proof (server_info_depth (mcp_server_info a)). unfold initialize_result, tools_capability.
    enough (json_nesting_depth (initialize_result a) <= 3) as Hr by (unfold JSON_READER_DEPTH; exact (Z.le_lt_trans _ 3 127 Hr eq_refl)).
    unfold initialize_result, tools_capability. json_depth.
Qed.

Lemma initialized_answered q request a principal s :
  client_initialized V2025_11_25 = Ok q -> delivers q request ->
  let '(response, s') := mcp_handle a request principal s in s' = s /\ answer q response = Ok Acknowledged.
Proof.
  intros Hq Hdel. unfold client_initialized in Hq. cbn [is_modern] in Hq.
  apply McpClientRequest_new_spec in Hq as (Hct & Hac & Hver & _ & _ & Hbody & Hdec); [|done].
  destruct (delivered_media q request Hct Hac Hdel) as [Hct' Hac']. destruct Hdel as (Hpost & Hb & Hd).
  rewrite !Forall_cons in Hd. destruct Hd as (_ & _ & Hver' & _). unfold mcp_handle, handle_post.
  rewrite bool_decide_eq_true_2, Hct', Hac', Hb, Hbody by done. cbn [negb]. unfold rpc_parse. rewrite from_slice_written by (by vm_compute).
  unfold json_object at 1. cbn [ok_or mbind result_bind as_object]. json_get. cbn [is_some_and value_as_str negb ok_or mbind result_bind is_none_or].
  json_keys. cbn [negb]. rewrite Hver in Hver'. rewrite (message_version_named _ V2025_11_25) by exact Hver'. split; [done|].
  unfold answer. rewrite Hdec. by vm_compute.
Qed.
End Exchange.
