(* ===== verification/LocalServer.v ===== *)
(** * LocalServer: a local server over the stores

    The composition that crates/ffi/bondry-local-server-ffi/src/lib.rs makes: the HTTP server
    with bearer tokens checked by the authentication manager, and the REST adapter over the
    dispatcher.  The token check goes through the C interface of
    crates/ffi/bondry-runtime-ffi (auth.rs, records.rs): a status and a principal record with
    a zero-terminated identifier, which [RuntimeBearerVerifier_verify] reads back.

    [local_server_fail_closed] follows a request through all of them: whatever changes the
    host came from a token that the answers of the manager say is valid, a grant, an accepted
    input and an audit record. *)

From S2P Require Import Prelude Text Bytes CAbi HttpLib Crypto Identifiers Base64 Json JsonDoc Capability Policy Auth AuthManager Sqlite AuthProps Dispatch Service RateWindow RawBody HttpServer RestProto.

(** ** The principal record *)

Record BondryPrincipalV1 := mk_principal_record {
  record_id : list byte;
  record_kind : Z;
}.

Definition principal_record_zeroed : BondryPrincipalV1 := mk_principal_record (replicate BONDRY_IDENTIFIER_CAPACITY_V1 0) 0.

Definition from_principal (p : Principal) : option BondryPrincipalV1 :=
  id ← terminated BONDRY_IDENTIFIER_CAPACITY_V1 (as_str (principal_id p));
  Some (mk_principal_record id (match principal_kind p with User => 1 | Application => 2 | System => 3 end)).

Definition decode_principal_kind (kind : Z) : option PrincipalKind :=
  if kind =? 1 then Some User else if kind =? 2 then Some Application else if kind =? 3 then Some System else None.

(** ** The host of the server *)

Section Local.
  Context `{B : Base64} `{D : Sha256} `{Env : AuthEnv} {T : Type} `{St : AuthStore T}.
  Context {Validator : Type} (validator_is_valid : Validator -> Value -> bool).
  Context {App P A : Type} `{!AuthorizationPolicy (CapabilityDescriptor Validator) P, !AuditSink A}.

(** The manager, the dispatcher with the application it acts on, and the random bytes to come. *)
Record Runtime := mk_runtime {
  rt_manager : AuthManager T;
  rt_service : DispatcherService Validator App P A;
  rt_random : nat -> option (list byte);
}.

Definition set_manager (m : AuthManager T) (rt : Runtime) : Runtime := mk_runtime m (rt_service rt) (rt_random rt).
Definition set_service (s : DispatcherService Validator App P A) (rt : Runtime) : Runtime := mk_runtime (rt_manager rt) s (rt_random rt).

(** [bondry_token_authenticate_v1]: the status and the record it leaves. *)
Definition bondry_token_authenticate_v1 (token : rstr) (m : AuthManager T) : Z * BondryPrincipalV1 * AuthManager T :=
  match authenticate token m with
  | (Ok principal, m) =>
      match from_principal principal with
      | Some record => (BONDRY_STATUS_OK, record, m)
      | None => (BONDRY_STATUS_INTERNAL_FAILURE, principal_record_zeroed, m)
      end
  | (Err AuthRejected, m) => (BONDRY_STATUS_AUTHENTICATION_REJECTED, principal_record_zeroed, m)
  | (Err AuthStorageUnavailable, m) => (BONDRY_STATUS_UNAVAILABLE, principal_record_zeroed, m)
  end.

Definition RuntimeBearerVerifier_verify : BearerTokenVerifier (Host := Runtime) := fun token rt =>
  let '(status, record, m) := bondry_token_authenticate_v1 token (rt_manager rt) in
  let rt := set_manager m rt in
  if status =? BONDRY_STATUS_AUTHENTICATION_REJECTED then (Err AuthenticationRejected, rt)
  else if negb (status =? BONDRY_STATUS_OK) then (Err AuthenticationUnavailable, rt)
  else
    (id ← ok_or (terminated_utf8 (record_id record)) AuthenticationUnavailable;
     id ← map_err (fun _ => AuthenticationUnavailable) (Identifier_new id);
     kind ← ok_or (decode_principal_kind (record_kind record)) AuthenticationUnavailable;
     Ok (mk_principal id kind), rt).

#[global] Instance Runtime_service : AutomationService Validator Runtime := {
  service_capabilities rt := service_capabilities (AutomationService := DispatcherService_service validator_is_valid) (rt_service rt);
  service_dispatch i rt :=
    let '(r, s) := service_dispatch (AutomationService := DispatcherService_service validator_is_valid) i (rt_service rt) in (r, set_service s rt);
}.

#[global] Instance Runtime_ids : InvocationIdGenerator Runtime := fun rt =>
  (SystemInvocationIdGenerator_generate (rt_random rt 0%nat),
   mk_runtime (rt_manager rt) (rt_service rt) (fun n => rt_random rt (S n))).

(** ** The verifier is the manager *)

  Context `{BS : !Base64Spec} `{DS : !Sha256Spec} `{EnvOk : !AuthEnvOk} `{Sp : !AuthStoreSpec T}.

Definition verifier_result (r : result AuthManager.AuthenticationError Principal) : result HttpServer.AuthenticationError Principal :=
  match r with
  | Ok principal => Ok principal
  | Err AuthRejected => Err AuthenticationRejected
  | Err AuthStorageUnavailable => Err AuthenticationUnavailable
  end.

Lemma expected_wf l token m principal :
  agrees l m -> expected l token m = Ok principal -> principal_wf (principal_id principal) /\ principal_kind principal = Application.
Proof.
  intros Hag. unfold expected. destruct (PresentedToken_parse token) as [p|]; [|done].
  destruct (authentication_record _ _).1; [|done]. destruct (clock_at _) as [now|]; [|done].
  rewrite (ledger_accepts_record l p now m Hag). destruct Hag as (Hok & _).
  destruct (tokens_of (am_store m) !! pres_id p) as [tok|]; [|done]. cbn.
  destruct (clients_of (am_store m) !! tok_client tok) as [c|] eqn:Hc; [|done]. cbn.
  destruct (_ && _ && _); [|done]. intros [= <-]. destruct (auth_clients_wf _ _ _ Hok Hc) as [[Hwf _] <-]. done.
Qed.

(** What the record is read back as is what the manager answered. *)
Lemma verify_is_authenticate l token rt :
  agrees l (rt_manager rt) ->
  RuntimeBearerVerifier_verify token rt =
    (verifier_result (authenticate token (rt_manager rt)).1, set_manager (authenticate token (rt_manager rt)).2 rt).
Proof.
  intros Hag. pose proof (authenticate_spec l token (rt_manager rt) Hag) as (Hexp & _).
  unfold RuntimeBearerVerifier_verify, bondry_token_authenticate_v1.
  destruct (authenticate token (rt_manager rt)) as [[principal|[]] m]; [|done..]. cbn in Hexp. symmetry in Hexp.
  apply (expected_wf _ _ _ _ Hag) in Hexp as [Hwf Hkind]. pose proof Hwf as Hp. unfold principal_wf, Identifier_new in Hp.
  apply result_bind_Ok in Hp as ([] & Hp%validate_ok & _). destruct (terminated_round_trip _ _ Hp (Z.le_refl 128)) as (bytes & Ht & Hu).
  assert (from_principal principal = Some (mk_principal_record bytes 2)) as -> by (unfold from_principal; by rewrite Ht, Hkind).
  cbn [record_id record_kind]. rewrite Hu. unfold principal_wf in Hwf. cbn. rewrite Hwf.
  destruct principal as [id kind]. cbn in Hkind. by subst kind.
Qed.

(** ** One request through all layers *)

  Context {U : UriCrate} {HC : HeaderCrate} {HT : HeaderText} {JW : JsonWriter} {JR : JsonReader} {EI : EarliestInstant}.
  Context {HCS : HeaderCrateSpec} `{!AuditTrail A}.

Definition local_server (c : ServerConfiguration (Host := Runtime)) : Server := mk_server c [rest_protocol REST_ADAPTER].

(** No raw-body handler is registered under a path of the protocols; registration refuses it. *)
Definition no_conflict (s : Shared (Host := Runtime)) : Prop :=
  map_Forall (fun path _ => rest_accepts_path path = false) (routes (sh_registry s)).

Lemma register_no_conflict c route handler s :
  no_conflict s -> no_conflict (register_raw_body_handler (local_server c) route handler s).2.
Proof.
  intros Hs. unfold register_raw_body_handler. cbn [local_server sv_protocols existsb]. rewrite orb_false_r. cbn [rest_protocol accepts_path].
  destruct (rest_accepts_path (raw_path route)) eqn:Ha; [done|]. unfold register.
  destruct (_ <? _); [done|]. destruct (stopping _); [done|]. destruct (match routes _ !! _ with Some _ => _ | None => _ end); [done|].
  assert (map_Forall (fun path _ => rest_accepts_path path = false)
    (filter (fun entry => lifecycle_of (sh_registry s) entry.2 <> LifecycleDetached) (routes (sh_registry s)))) as Hf.
  { intros p g [Hp _]%map_lookup_filter_Some. by eapply Hs. }
  destruct (_ <=? _); cbn; [done|]. unfold no_conflict. cbn. by apply map_Forall_insert_2.
Qed.

Lemma handle_unregistered (sv : Server (Host := Runtime)) request peer now s h :
  routes (sh_registry s) !! uri_path (req_uri request) = None -> handle sv request peer now s h = handle_mounted sv request peer now s h.
Proof.
  intros Hr. unfold handle. destruct peer as [address|]; [|done]. unfold match_request.
  destruct (negb _); [by rewrite set_registry_id|]. by rewrite Hr, set_registry_id.
Qed.

(** The authenticator leaves the dispatcher alone. *)
Lemma authenticate_service c (request : AuthenticationRequest) rt :
  authentication c = AuthRequired (BearerAuthenticator RuntimeBearerVerifier_verify) ->
  rt_service (Authentication_authenticate (authentication c) request rt).2 = rt_service rt.
Proof.
  intros ->. cbn. unfold BearerAuthenticator_authenticate. destruct (bearer_token _) as [token|]; [|done].
  unfold RuntimeBearerVerifier_verify. destruct (bondry_token_authenticate_v1 _ _) as [[status record] m].
  destruct (_ =? _); [done|]. by destruct (negb _).
Qed.

(** A dispatch that changes the application was cleared and recorded. *)
Lemma service_dispatch_changes i rt r rt' :
  service_dispatch i rt = (r, rt') -> ds_host (rt_service rt') <> ds_host (rt_service rt) ->
  exists descriptor handler rest,
    cleared validator_is_valid (ds_dispatcher (rt_service rt)) i descriptor handler /\
    (handler (InvocationContext_from_invocation i) (inv_input i) (ds_host (rt_service rt))).2 = ds_host (rt_service rt') /\
    trail (disp_audit (ds_dispatcher (rt_service rt'))) = trail (disp_audit (ds_dispatcher (rt_service rt))) ++
      AuditEvent_new (ds_clock (rt_service rt) 0%nat) (InvocationContext_from_invocation i) OutStarted :: rest.
Proof.
  cbn [service_dispatch Runtime_service DispatcherService_service].
  pose proof (dispatch_meets_spec validator_is_valid (ds_dispatcher (rt_service rt)) (ds_host (rt_service rt))
    (ds_clock (rt_service rt) 0%nat) (ds_clock (rt_service rt) 1%nat) i) as Hspec.
  destruct (dispatch _ _ _ _ _ _) as [[r' d'] host']. intros [= <- <-] Hne. cbn in Hne |- *.
  destruct Hspec as (_ & _ & outs & Ht & Hstory).
  destruct Hstory as [| | | |descriptor handler completed host' Hc Hh|descriptor handler completed host' e Hc Hh]; try done;
    (eexists descriptor, handler, _; split_and!; [done|by rewrite Hh|by rewrite Ht]).
Qed.

(** C5: fail closed, end to end.  Take a local server with bearer authentication over the
    manager and the REST adapter over the dispatcher, after any history of the manager's
    operations.  If a request to a path of the adapter changes the application in any way,
    then it carried one bearer token; the answers the manager gave say that this token was
    issued, has not expired or been revoked, and belongs to an enabled client; the request is
    a POST to the path of a registered capability that the policy grants this client; the
    input satisfies its schema; the change is the one its handler makes; and the audit trail
    records the start first. *)
Theorem local_server_fail_closed c request address now s rt ops m0 :
  auth_ok (am_store m0) -> clients_of (am_store m0) = ∅ -> tokens_of (am_store m0) = ∅ -> Forall op_wf ops ->
  rt_manager rt = (auth_run ops m0).2 ->
  authentication c = AuthRequired (BearerAuthenticator RuntimeBearerVerifier_verify) ->
  limits_ok (local_server c) s -> no_conflict s -> rest_accepts_path (uri_path (req_uri request)) = true ->
  let '(response, s', rt') := handle (local_server c) request (PeerNetwork address) now s rt in
  ds_host (rt_service rt') <> ds_host (rt_service rt) ->
  exists token principal name capability input id descriptor handler rest,
    bearer_token (req_headers request) = Ok token /\
    expected (ledger_of (auth_run ops m0).1 no_tokens) token (rt_manager rt) = Ok principal /\
    req_method request = METHOD_POST /\ uri_path (req_uri request) = CAPABILITY_PREFIX ++ name /\ Identifier_new name = Ok capability /\
    let i := mk_invocation id REST_ADAPTER principal capability input in
    cleared validator_is_valid (ds_dispatcher (rt_service rt)) i descriptor handler /\
    (handler (InvocationContext_from_invocation i) input (ds_host (rt_service rt))).2 = ds_host (rt_service rt') /\
    trail (disp_audit (ds_dispatcher (rt_service rt'))) = trail (disp_audit (ds_dispatcher (rt_service rt))) ++
      AuditEvent_new (ds_clock (rt_service rt) 0%nat) (InvocationContext_from_invocation i) OutStarted :: rest.
Proof.
  intros Hok Hc Ht Hwf Hm Hauth [Hmax _] Hconf Hpath.
  assert (agrees (ledger_of (auth_run ops m0).1 no_tokens) (rt_manager rt)) as Hag.
  { pose proof (auth_run_agrees ops m0 no_tokens) as Hrun. rewrite Hm. destruct (auth_run ops m0) as [history m].
    apply Hrun; [|done]. split; [done|]. by rewrite Hc, Ht, !fmap_empty. }
  rewrite handle_unregistered.
  2: { destruct (routes (sh_registry s) !! _) eqn:Hr; [|done]. apply Hconf in Hr. congruence. }
  pose proof (handle_mounted_spec (local_server c) request (PeerNetwork address) now s rt Hmax) as Hspec.
  destruct (handle_mounted _ _ _ _ _ _) as [[response s'] rt']. destruct Hspec as [_ [[Hseen _]|Hrefused]].
  2: { intros Hne. destruct Hne. destruct Hrefused as (_ & [-> |(a & _ & ->)]); [done|]. by rewrite authenticate_service. }
  destruct Hseen as (i & protocol & principal & rt1 & raw & Hfind & _ & Hp & _ & _ & Hrest & _).
  apply list_find_Some in Hfind as (Hi & _ & _). destruct i as [|i]; [|by destruct i]. injection Hi as <-.
  cbn in Hp. rewrite Hauth in Hp. cbn in Hp. unfold BearerAuthenticator_authenticate in Hp. cbn in Hp.
  destruct (bearer_token (req_headers request)) as [token|] eqn:Htoken; [|done].
  rewrite (verify_is_authenticate _ _ _ Hag) in Hp. injection Hp as Hp <-.
  pose proof (authenticate_spec _ token _ Hag) as (Hexp & _). rewrite Hexp in Hp.
  assert (expected (ledger_of (auth_run ops m0).1 no_tokens) token (rt_manager rt) = Ok principal) as Hprincipal.
  { unfold verifier_result in Hp. by destruct (expected _ _ _) as [q|[]]; simplify_eq. }
  cbn [rest_protocol protocol_handle] in Hrest.
  pose proof (rest_handle_spec REST_ADAPTER (mk_http_request (req_method request) (req_uri request)
    (redact_credentials (authentication (sv_configuration (local_server c))) (req_headers request))
    (concat (frame_data <$> frames (req_body request)))) principal (set_manager (authenticate token (rt_manager rt)).2 rt)) as Hinv.
  rewrite Hrest in Hinv. intros Hne. destruct Hinv as [Hinv|Hnone].
  2: { exfalso. apply Hne. destruct Hnone as ([-> |[e Hg]] & _); [done|]. injection Hg as _ <-. done. }
  destruct Hinv as (name & capability & input & id & rt2 & r & Hpost & Hname & Hcap & _ & Hg & Hd & _). injection Hg as _ <-.
  destruct (service_dispatch_changes _ _ _ _ Hd Hne) as (descriptor & handler & rest & Hcleared & Hhandler & Htrail).
  by exists token, principal, name, capability, input, id, descriptor, handler, rest.
Qed.
End Local.

(** ** An example

    The encrypted store, a policy with one grant and a host that keeps the inputs it got. *)

Module Example.
Import HttpLib.Sample.
#[local] Existing Instances ex_base64 ex_base64_spec ex_sha256 ex_sha256_spec ex_auth_env ex_auth_env_ok ex_sql_env.
#[local] Instance writer : JsonWriter := fun _ => Some (str "{}").
#[local] Instance reader : JsonReader := fun _ => Some empty_object.
#[local] Instance at_boot : EarliestInstant := 0.

Definition ops : list AuthOp := [OpCreateClient ex_name; ex_issue].
Definition dispatcher : Dispatcher (P := GrantPolicy) (A := BoundedSink) :=
  mk_dispatcher ex_registry (GrantPolicy_grant GrantPolicy_new ex_client REST_ADAPTER (ex_id "notes.create")).2 (mk_bounded_sink [] 8).
Definition host : Type := Runtime (T := SqlCipherStore) (Validator := unit) (App := list Value) (P := GrantPolicy) (A := BoundedSink).
Definition runtime : host :=
  mk_runtime (auth_run ops ex_manager).2 (mk_dispatcher_service dispatcher [] (fun n => Z.of_nat n)) (fun _ => Some (replicate 16 7)).
Definition configuration : ServerConfiguration (Host := host) :=
  ServerConfiguration_new (AuthRequired (BearerAuthenticator RuntimeBearerVerifier_verify)).
Definition shared : Shared (Host := host) := Shared_new RawBodyServerLimits_default.
Definition address : SocketAddr := mk_socket_addr IPV4_LOCALHOST 40000.

Definition request : Request Incoming :=
  mk_http_request METHOD_POST (mk_uri None None (str "/api/v1/capabilities/notes.create") None)
    (headers_insert AUTHORIZATION (from_static (str "bearer " ++ iss_secret ex_issued)) headers_new) (mk_incoming None []).

Lemma local_server_fail_closed_witness :
  let '(response, _, rt') := handle (local_server ex_accepts configuration) request (PeerNetwork address) (from_secs 100) shared runtime in
  resp_status response = 200 /\ ds_host (rt_service rt') = [empty_object] /\
  exists token principal, bearer_token (req_headers request) = Ok token /\
    expected (ledger_of (auth_run ops ex_manager).1 no_tokens) token (rt_manager runtime) = Ok principal.
Proof.
  assert (clients_of (am_store ex_manager) = ∅) as Hc by (vm_compute; reflexivity).
  assert (tokens_of (am_store ex_manager) = ∅) as Ht by (vm_compute; reflexivity).
  assert (Forall op_wf ops) as Hwf by ops_wf.
  assert (limits_ok (local_server ex_accepts configuration) shared) as Hl by (split; [by vm_compute|constructor]).
  assert (rest_accepts_path (uri_path (req_uri request)) = true) as Hr by (by vm_compute).
  pose proof (local_server_fail_closed ex_accepts configuration request address (from_secs 100) shared runtime ops ex_manager
    ex_manager_ok Hc Ht Hwf eq_refl eq_refl Hl (map_Forall_empty _) Hr) as Hthm.
  assert (resp_status (handle (local_server ex_accepts configuration) request (PeerNetwork address) (from_secs 100) shared runtime).1.1 = 200)
    as Hs by (vm_compute; reflexivity).
  assert (ds_host (rt_service (handle (local_server ex_accepts configuration) request (PeerNetwork address) (from_secs 100) shared runtime).2) =
    [empty_object]) as Hh by (vm_compute; reflexivity).
  destruct (handle _ _ _ _ _ _) as [[response s'] rt']. change (resp_status response = 200) in Hs.
  change (ds_host (rt_service rt') = [empty_object]) in Hh. rewrite Hh in Hthm.
  assert ([empty_object] <> ds_host (rt_service runtime)) as Hne by discriminate. specialize (Hthm Hne).
  split; [exact Hs|]. split; [exact Hh|].
  destruct Hthm as (token & principal & name & capability & input & id & descriptor & handler & rest & Htoken & He & _).
  exists token, principal. split; [exact Htoken|exact He].
Defined.
End Example.
