(* ===== verification/EgressLimits.v ===== *)
(** * EgressLimits: the validated configuration values of [bondry-egress]

    limits.rs and time.rs.  A newtype over a bounded integer or duration is the value
    itself, built by its [_new]; durations are nanoseconds. *)

From S2P Require Import Prelude.

(** ** time.rs *)

(** [EgressInstant(Duration)]: nanoseconds since the runtime's origin. *)
Abbreviation EgressInstant := Z (only parsing).
Definition EgressInstant_saturating_add (t : EgressInstant) (d : Z) : EgressInstant :=
  sat_add DURATION_MAX t d.

Record TransitionTime := mk_time {
  monotonic : EgressInstant;
  unix_ms : Z;
}.

(** ** limits.rs *)

Definition MIN_ROUTE_REGISTRY_LIMIT : Z := 1.
Definition MAX_ROUTE_REGISTRY_LIMIT : Z := 256.
Definition MIN_EVENT_PAYLOAD_BYTES : Z := 1024.
Definition MAX_EVENT_PAYLOAD_BYTES : Z := 224 * 1024.
Definition MAX_PAYLOAD_FIELDS : Z := 64.
Definition MAX_PAYLOAD_FIELD_NAME_BYTES : Z := 128.
Definition MAX_JSON_NESTING_DEPTH : Z := 32.
Definition MAX_RETRY_ATTEMPTS : Z := 16.
Definition MIN_REQUEST_TIMEOUT : Z := from_secs 1.
Definition MAX_REQUEST_TIMEOUT : Z := from_secs 120.
Definition DEFAULT_RETRY_BASE : Z := from_secs 1.
Definition DEFAULT_RETRY_CAP : Z := from_secs 60.
Definition MIN_RETRY_BASE : Z := from_millis 500.
Definition MAX_RETRY_BASE : Z := from_secs 5.
Definition MIN_RETRY_CAP : Z := from_secs 30.
Definition MAX_RETRY_CAP : Z := from_secs 300.

Inductive LimitError :=
| LimitRouteRegistry | LimitPayload | LimitGlobalAdmission | LimitRouteAdmission
| LimitRetryAttempts | LimitRetryBase | LimitRetryCap | LimitRequestTimeout.

Definition RouteRegistryLimit_new (value : Z) : result LimitError Z :=
  if (value <? MIN_ROUTE_REGISTRY_LIMIT) || (MAX_ROUTE_REGISTRY_LIMIT <? value)
  then Err LimitRouteRegistry else Ok value.

Definition PayloadLimit_new (value : Z) : result LimitError Z :=
  if (value <? MIN_EVENT_PAYLOAD_BYTES) || (MAX_EVENT_PAYLOAD_BYTES <? value)
  then Err LimitPayload else Ok value.

(** The token-bucket policies generated by [admission_limit!]. *)
Record AdmissionLimit := mk_admission_limit {
  refill_per_second : Z;
  capacity : Z;
}.

Definition AdmissionLimit_new (min_refill max_refill min_capacity max_capacity : Z)
    (error : LimitError) (refill cap : Z) : result LimitError AdmissionLimit :=
  if (refill <? min_refill) || (max_refill <? refill)
     || (cap <? min_capacity) || (max_capacity <? cap)
  then Err error else Ok (mk_admission_limit refill cap).

Definition GlobalAdmissionLimit_new : Z -> Z -> result LimitError AdmissionLimit :=
  AdmissionLimit_new 1 1000 64 1024 LimitGlobalAdmission.
Definition RouteAdmissionLimit_new : Z -> Z -> result LimitError AdmissionLimit :=
  AdmissionLimit_new 1 500 8 256 LimitRouteAdmission.

Record RetryPolicy := mk_retry {
  retries : Z;
  retry_base : Z;
  retry_cap : Z;
}.

Definition RetryPolicy_new (n base cap : Z) : result LimitError RetryPolicy :=
  if MAX_RETRY_ATTEMPTS <? n then Err LimitRetryAttempts
  else if negb (in_range MIN_RETRY_BASE MAX_RETRY_BASE base) then Err LimitRetryBase
  else if negb (in_range MIN_RETRY_CAP MAX_RETRY_CAP cap) then Err LimitRetryCap
  else Ok (mk_retry n base cap).

(** The fixed policy of host calls. *)
Definition RetryPolicy_without_retries : RetryPolicy :=
  mk_retry 0 DEFAULT_RETRY_BASE DEFAULT_RETRY_CAP.

Definition RequestTimeout_new (value : Z) : result LimitError Z :=
  if negb (in_range MIN_REQUEST_TIMEOUT MAX_REQUEST_TIMEOUT value)
  then Err LimitRequestTimeout else Ok value.

(** A policy built by the constructors. *)
Definition retry_wf (p : RetryPolicy) : Prop :=
  0 <= retries p <= MAX_RETRY_ATTEMPTS /\
  MIN_RETRY_BASE <= retry_base p <= MAX_RETRY_BASE /\
  MIN_RETRY_CAP <= retry_cap p <= MAX_RETRY_CAP.

Lemma RetryPolicy_new_wf n base cap p :
  0 <= n -> RetryPolicy_new n base cap = Ok p -> retry_wf p.
Proof.
  intros Hn. unfold RetryPolicy_new, retry_wf.
  destruct (Z.ltb_spec MAX_RETRY_ATTEMPTS n); [done|].
  destruct (in_range MIN_RETRY_BASE _ _) eqn:Hb; [|done]. simpl.
  destruct (in_range MIN_RETRY_CAP _ _) eqn:Hc; [|done]. simpl. intros [= <-]. simpl.
  apply in_range_spec in Hb, Hc. auto.
Qed.

Lemma without_retries_wf : retry_wf RetryPolicy_without_retries.
Proof. vm_compute. repeat split; discriminate. Qed.

(** An admission policy built by the constructors. *)
Definition admission_wf (a : AdmissionLimit) : Prop :=
  1 <= refill_per_second a <= 1000 /\ 8 <= capacity a <= 1024.

Lemma GlobalAdmissionLimit_new_wf r c a : GlobalAdmissionLimit_new r c = Ok a -> admission_wf a.
Proof.
  unfold GlobalAdmissionLimit_new, AdmissionLimit_new. case_match eqn:Hb; [done|].
  intros [= <-]. unfold admission_wf. simpl. lia.
Qed.

Lemma RouteAdmissionLimit_new_wf r c a : RouteAdmissionLimit_new r c = Ok a -> admission_wf a.
Proof.
  unfold RouteAdmissionLimit_new, AdmissionLimit_new. case_match eqn:Hb; [done|].
  intros [= <-]. unfold admission_wf. simpl. lia.
Qed.
