(* ===== verification/Lifecycle.v ===== *)
(** * Lifecycle: the pure state machine of one delivery (bondry-egress/src/delivery.rs)

    A lifecycle consumes explicit events and times and answers with the persistence
    effect, the runtime effect and the next deadline. *)

From S2P Require Import Prelude Text Identifiers DeliveryStore EgressLimits.

Inductive RetryableFailure :=
| RetryDeadlineExceeded | RetrySecretUnavailable | RetryTransportUnavailable | RetryReceiverRejected.

(** [From<RetryableFailure> for DeliveryFailure]. *)
Definition failure_of_retryable (f : RetryableFailure) : DeliveryFailure :=
  match f with
  | RetryDeadlineExceeded => DeadlineExceeded
  | RetrySecretUnavailable => SecretUnavailable
  | RetryTransportUnavailable => TransportUnavailable
  | RetryReceiverRejected => ReceiverRejected
  end.

Inductive LifecycleState :=
| Ready
| InFlight
| WaitingRetry (deadline : EgressInstant)
| Done.

Inductive DeliveryEvent :=
| EvDrive
| EvDelivered (result : option DeliveryResultMetadata)
| EvRetryable (failure : RetryableFailure)
| EvFailed (failure : DeliveryFailure)
| EvFailedWithResult (failure : DeliveryFailure) (result : DeliveryResultMetadata)
| EvCancel
| EvShutdownDeadline.

Inductive DeliveryAction :=
| ActNone
| ActStartAttempt (attempts : Z)
| ActWait
| ActTerminal (outcome : DeliveryOutcome) (result : option DeliveryResultMetadata).

Inductive DeliveryPersistenceAction :=
| InsertIntent (intent : DeliveryIntent)
| RecordAttempt (delivery : DeliveryId) (attempts updated_at : Z)
| RecordOutcome (delivery : DeliveryId) (outcome : DeliveryOutcome) (updated_at : Z)
    (result : option DeliveryResultMetadata).

Record DeliveryTransition := mk_transition {
  tr_persistence : option DeliveryPersistenceAction;
  tr_action : DeliveryAction;
  tr_next_deadline : option EgressInstant;
}.

Definition DeliveryTransition_none : DeliveryTransition := mk_transition None ActNone None.

Record DeliveryLifecycle := mk_lifecycle {
  lc_route : RouteId;
  lc_delivery : DeliveryId;
  lc_retry : RetryPolicy;
  lc_attempts : Z;
  lc_state : LifecycleState;
}.

Inductive DeliveryLifecycleError := LifecycleError.

Definition DeliveryLifecycle_new (route : RouteId) (delivery : DeliveryId) (retry : RetryPolicy)
    : DeliveryLifecycle := mk_lifecycle route delivery retry 0 Ready.

Definition lc_with (l : DeliveryLifecycle) (attempts : Z) (s : LifecycleState) : DeliveryLifecycle :=
  mk_lifecycle (lc_route l) (lc_delivery l) (lc_retry l) attempts s.

(** ** Retry delay *)

(** FNV-1a over the identifier's bytes and the attempt count, little endian, modulo 4001. *)
Definition fnv_step (hash byte : Z) : Z := (Z.lxor hash byte * 0x100000001b3) mod 2 ^ 64.

Definition stable_jitter (delivery : DeliveryId) (attempts : Z) : Z :=
  let hash := foldl fnv_step 0xcbf29ce484222325 (as_bytes (as_str delivery)) in
  let hash := foldl fnv_step hash [attempts mod 256; (attempts / 256) mod 256] in
  hash mod 4001.

(** [retry_delay]: the arithmetic is [u128], the result a [Duration] of [u64] nanoseconds. *)
Definition retry_delay (l : DeliveryLifecycle) (attempts : Z) : Z :=
  let shift := Z.min (sat_sub attempts 1) 31 in
  let exponential := Z.min (sat_mul U128_MAX (retry_base (lc_retry l)) (Z.shiftl 1 shift))
                       (retry_cap (lc_retry l)) in
  let multiplier := 8000 + stable_jitter (lc_delivery l) attempts in
  let jittered := Z.min (sat_mul U128_MAX exponential multiplier / 10000) (retry_cap (lc_retry l)) in
  Z.min jittered U64_MAX.

(** ** Transitions *)

Definition start_attempt (l : DeliveryLifecycle) (time : TransitionTime)
    : DeliveryTransition * DeliveryLifecycle :=
  let attempts := sat_add U16_MAX (lc_attempts l) 1 in
  (mk_transition (Some (RecordAttempt (lc_delivery l) attempts (unix_ms time)))
     (ActStartAttempt attempts) None,
   lc_with l attempts InFlight).

Definition terminal (l : DeliveryLifecycle) (time : TransitionTime) (outcome : DeliveryOutcome)
    (result : option DeliveryResultMetadata) : DeliveryTransition * DeliveryLifecycle :=
  (mk_transition (Some (RecordOutcome (lc_delivery l) outcome (unix_ms time) result))
     (ActTerminal outcome result) None,
   lc_with l (lc_attempts l) Done).

Definition lc_ok (p : DeliveryTransition * DeliveryLifecycle)
    : result DeliveryLifecycleError DeliveryTransition * DeliveryLifecycle := (Ok p.1, p.2).

Definition drive (l : DeliveryLifecycle) (time : TransitionTime)
    : result DeliveryLifecycleError DeliveryTransition * DeliveryLifecycle :=
  match lc_state l with
  | Ready => lc_ok (start_attempt l time)
  | WaitingRetry deadline =>
      if deadline <=? monotonic time then lc_ok (start_attempt l time)
      else (Ok (mk_transition None ActWait (Some deadline)), l)
  | InFlight => (Err LifecycleError, l)
  | Done => (Ok DeliveryTransition_none, l)
  end.

Definition is_in_flight (s : LifecycleState) : bool :=
  match s with InFlight => true | _ => false end.

(** [DeliveryLifecycle::transition]. *)
Definition transition (l : DeliveryLifecycle) (time : TransitionTime) (event : DeliveryEvent)
    : result DeliveryLifecycleError DeliveryTransition * DeliveryLifecycle :=
  match lc_state l with
  | Done => (Ok DeliveryTransition_none, l)
  | _ =>
    let in_flight k := if is_in_flight (lc_state l) then k else (Err LifecycleError, l) in
    match event with
    | EvDrive => drive l time
    | EvDelivered result => in_flight (lc_ok (terminal l time Delivered result))
    | EvRetryable failure =>
        in_flight
          (if lc_attempts l <=? retries (lc_retry l)
           then let deadline := EgressInstant_saturating_add (monotonic time)
                                  (retry_delay l (lc_attempts l)) in
                (Ok (mk_transition None ActWait (Some deadline)),
                 lc_with l (lc_attempts l) (WaitingRetry deadline))
           else lc_ok (terminal l time (Failed (failure_of_retryable failure)) None))
    | EvFailed failure => in_flight (lc_ok (terminal l time (Failed failure) None))
    | EvFailedWithResult failure result =>
        in_flight (lc_ok (terminal l time (Failed failure) (Some result)))
    | EvCancel => lc_ok (terminal l time (Failed Cancelled) None)
    | EvShutdownDeadline => lc_ok (terminal l time LostOnShutdown None)
    end
  end.

(** [next_deadline]. *)
Definition lc_next_deadline (l : DeliveryLifecycle) : option EgressInstant :=
  match lc_state l with WaitingRetry deadline => Some deadline | _ => None end.

(** ** Runs *)

(** The events applied in order, with what each transition answered. *)
Fixpoint lc_run (l : DeliveryLifecycle) (evs : list (TransitionTime * DeliveryEvent))
    : list (DeliveryEvent * result DeliveryLifecycleError DeliveryTransition) * DeliveryLifecycle :=
  match evs with
  | [] => ([], l)
  | (time, e) :: evs =>
      let '(r, l1) := transition l time e in
      let '(rs, l2) := lc_run l1 evs in
      ((e, r) :: rs, l2)
  end.

Definition terminal_of (x : DeliveryEvent * result DeliveryLifecycleError DeliveryTransition)
    : option (DeliveryOutcome * option DeliveryResultMetadata) :=
  match x.2 with
  | Ok (mk_transition _ (ActTerminal o res) _) => Some (o, res)
  | _ => None
  end.

Definition persisted_of (x : DeliveryEvent * result DeliveryLifecycleError DeliveryTransition)
    : option DeliveryPersistenceAction :=
  match x.2 with Ok tr => tr_persistence tr | Err _ => None end.

Definition attempt_of (x : DeliveryEvent * result DeliveryLifecycleError DeliveryTransition)
    : option Z :=
  match x.2 with Ok (mk_transition _ (ActStartAttempt n) _) => Some n | _ => None end.

(** An accepted report of an attempt's result. *)
Definition completion_of (x : DeliveryEvent * result DeliveryLifecycleError DeliveryTransition)
    : option unit :=
  match x with
  | ((EvDelivered _ | EvRetryable _ | EvFailed _ | EvFailedWithResult _ _),
     Ok (mk_transition _ (ActWait | ActTerminal _ _) _)) => Some ()
  | _ => None
  end.

(** ** Invariant *)

Definition lc_wf (l : DeliveryLifecycle) : Prop :=
  retry_wf (lc_retry l) /\ 0 <= lc_attempts l <= retries (lc_retry l) + 1 /\
  match lc_state l with
  | Ready => lc_attempts l = 0
  | InFlight => 1 <= lc_attempts l
  | WaitingRetry deadline => 1 <= lc_attempts l <= retries (lc_retry l) /\ 0 <= deadline
  | Done => True
  end.

Definition in_flight_Z (l : DeliveryLifecycle) : Z := if is_in_flight (lc_state l) then 1 else 0.
Definition done_nat (l : DeliveryLifecycle) : nat := match lc_state l with Done => 1 | _ => 0 end.

Lemma DeliveryLifecycle_new_wf route delivery retry :
  retry_wf retry -> lc_wf (DeliveryLifecycle_new route delivery retry).
Proof. intros H. split; [done|]. simpl. destruct H as [H _]. unfold MAX_RETRY_ATTEMPTS in H. lia. Qed.

Lemma start_attempt_attempts l :
  lc_wf l -> sat_add U16_MAX (lc_attempts l) 1 = lc_attempts l + 1.
Proof.
  intros ((H & _) & Ha & _). unfold sat_add, U16_MAX, MAX_RETRY_ATTEMPTS in *. lia.
Qed.

Lemma lc_with_retry l n s : lc_retry (lc_with l n s) = lc_retry l.
Proof. done. Qed.

(** ** Retry delay bounds *)

Lemma stable_jitter_bounds d n : 0 <= stable_jitter d n <= 4000.
Proof.
  unfold stable_jitter. set (h := foldl _ _ _). pose proof (Z.mod_pos_bound h 4001). lia.
Qed.

(** The undamped exponential delay of the [n]-th attempt, capped. *)
Definition backoff (p : RetryPolicy) (n : Z) : Z :=
  Z.min (retry_base p * 2 ^ Z.min (n - 1) 31) (retry_cap p).

Lemma pow2_31_bound k : 0 <= k <= 31 -> 1 <= 2 ^ k <= 2147483648.
Proof.
  intros [H0 H1]. split.
  - apply Z.lt_pred_le, Z.pow_pos_nonneg; lia.
  - change 2147483648 with (2 ^ 31). apply Z.pow_le_mono_r; lia.
Qed.

(** For a validated policy nothing saturates: the delay is the backoff scaled by a
    factor between 0.8 and 1.2, and never above the cap. *)
Lemma retry_delay_eq l n :
  retry_wf (lc_retry l) -> 1 <= n ->
  retry_delay l n =
  Z.min (backoff (lc_retry l) n * (8000 + stable_jitter (lc_delivery l) n) / 10000)
    (retry_cap (lc_retry l)).
Proof.
  intros (_ & Hb & Hc) Hn. unfold retry_delay, backoff.
  assert (sat_sub n 1 = n - 1) as -> by (unfold sat_sub; lia).
  rewrite Z.shiftl_mul_pow2, Z.mul_1_l by lia.
  pose proof (stable_jitter_bounds (lc_delivery l) n) as Hj.
  pose proof (pow2_31_bound (Z.min (n - 1) 31) ltac:(lia)) as Hp.
  set (k := 2 ^ _) in *. set (j := stable_jitter _ _) in *.
  unfold MIN_RETRY_BASE, MAX_RETRY_BASE, MIN_RETRY_CAP, MAX_RETRY_CAP, from_millis, from_secs,
    NANOS_PER_SEC in *.
  assert (0 <= retry_base (lc_retry l) * k <= 5000000000 * 2147483648) as Hbk by nia.
  assert (sat_mul U128_MAX (retry_base (lc_retry l)) k = retry_base (lc_retry l) * k) as ->.
  { unfold sat_mul, U128_MAX. lia. }
  set (e := Z.min (retry_base (lc_retry l) * k) (retry_cap (lc_retry l))).
  assert (0 <= e <= 300000000000) by lia.
  assert (0 <= e * (8000 + j) <= 300000000000 * 12000) as He by nia.
  assert (sat_mul U128_MAX e (8000 + j) = e * (8000 + j)) as ->.
  { unfold sat_mul, U128_MAX. lia. }
  unfold U64_MAX. lia.
Qed.

Lemma retry_delay_bounds l n :
  retry_wf (lc_retry l) -> 1 <= n ->
  backoff (lc_retry l) n * 8 / 10 <= retry_delay l n <= retry_cap (lc_retry l) /\
  retry_delay l n <= backoff (lc_retry l) n * 12 / 10.
Proof.
  intros Hwf Hn. rewrite retry_delay_eq by done.
  pose proof (stable_jitter_bounds (lc_delivery l) n) as Hj. set (j := stable_jitter _ _) in *.
  assert (0 <= backoff (lc_retry l) n <= retry_cap (lc_retry l)) as Hbk.
  { destruct Hwf as (_ & Hb & Hc). unfold backoff.
    pose proof (pow2_31_bound (Z.min (n - 1) 31) ltac:(lia)) as Hp. set (k := 2 ^ _) in *.
    unfold MIN_RETRY_BASE, MIN_RETRY_CAP, from_millis, from_secs, NANOS_PER_SEC in *.
    assert (0 <= retry_base (lc_retry l) * k) by (apply Z.mul_nonneg_nonneg; lia). lia. }
  set (e := backoff _ _) in *.
  assert (e * 8 / 10 <= e * (8000 + j) / 10000).
  { replace (e * 8 / 10) with (e * 8 * 1000 / (10 * 1000)) by (apply Z.div_mul_cancel_r; lia).
    apply Z.div_le_mono; nia. }
  assert (e * (8000 + j) / 10000 <= e * 12 / 10).
  { replace (e * 12 / 10) with (e * 12 * 1000 / (10 * 1000)) by (apply Z.div_mul_cancel_r; lia).
    apply Z.div_le_mono; nia. }
  assert (e * 8 / 10 <= e) by (apply Z.div_le_upper_bound; lia).
  lia.
Qed.

(** ** The six things one transition can do *)

Definition completes (e : DeliveryEvent) : bool :=
  match e with
  | EvDelivered _ | EvRetryable _ | EvFailed _ | EvFailedWithResult _ _ => true
  | EvDrive | EvCancel | EvShutdownDeadline => false
  end.

Inductive lc_effect (l : DeliveryLifecycle) (time : TransitionTime) (e : DeliveryEvent)
    : result DeliveryLifecycleError DeliveryTransition -> DeliveryLifecycle -> Prop :=
| eff_late :
    lc_state l = Done -> lc_effect l time e (Ok DeliveryTransition_none) l
| eff_refused :
    lc_state l <> Done -> (e = EvDrive <-> lc_state l = InFlight) ->
    lc_effect l time e (Err LifecycleError) l
| eff_wait deadline :
    e = EvDrive -> lc_state l = WaitingRetry deadline -> monotonic time < deadline ->
    lc_effect l time e (Ok (mk_transition None ActWait (Some deadline))) l
| eff_start :
    e = EvDrive ->
    (lc_state l = Ready \/ exists deadline, lc_state l = WaitingRetry deadline /\ deadline <= monotonic time) ->
    lc_effect l time e
      (Ok (mk_transition (Some (RecordAttempt (lc_delivery l) (lc_attempts l + 1) (unix_ms time)))
             (ActStartAttempt (lc_attempts l + 1)) None))
      (lc_with l (lc_attempts l + 1) InFlight)
| eff_retry deadline :
    (exists f, e = EvRetryable f) -> lc_state l = InFlight -> lc_attempts l <= retries (lc_retry l) ->
    deadline = EgressInstant_saturating_add (monotonic time) (retry_delay l (lc_attempts l)) ->
    lc_effect l time e (Ok (mk_transition None ActWait (Some deadline)))
      (lc_with l (lc_attempts l) (WaitingRetry deadline))
| eff_terminal outcome res :
    lc_state l <> Done -> e <> EvDrive -> (completes e = true -> lc_state l = InFlight) ->
    outcome <> UnknownAfterCrash ->
    (outcome = Failed RetryExhausted ->
      e = EvFailed RetryExhausted \/ exists m, e = EvFailedWithResult RetryExhausted m) ->
    lc_effect l time e
      (Ok (mk_transition (Some (RecordOutcome (lc_delivery l) outcome (unix_ms time) res))
             (ActTerminal outcome res) None))
      (lc_with l (lc_attempts l) Done).

Lemma transition_effect l time e :
  lc_wf l -> lc_effect l time e (transition l time e).1 (transition l time e).2.
Proof.
  intros Hwf. pose proof (start_attempt_attempts l Hwf) as Hatt.
  unfold transition. destruct (lc_state l) as [| |deadline|] eqn:Hs.
  - destruct e; simpl; unfold drive; rewrite ?Hs; unfold lc_ok, start_attempt, terminal; simpl;
      rewrite ?Hatt; try (apply eff_refused; [congruence|split; congruence]);
      try (apply eff_terminal; simpl; try congruence; naive_solver).
    apply eff_start; auto.
  - destruct e; simpl; unfold drive; rewrite ?Hs; unfold lc_ok, terminal; simpl;
      try (apply eff_refused; [congruence|split; congruence]);
      try (apply eff_terminal; simpl; try congruence; naive_solver).
    destruct (Z.leb_spec (lc_attempts l) (retries (lc_retry l))); simpl.
    + eapply eff_retry; eauto.
    + apply eff_terminal; simpl; try congruence; by destruct failure.
  - destruct e; simpl; unfold drive; rewrite ?Hs; unfold lc_ok, start_attempt, terminal; simpl;
      rewrite ?Hatt; try (apply eff_refused; [congruence|split; congruence]);
      try (apply eff_terminal; simpl; try congruence; naive_solver).
    destruct (Z.leb_spec deadline (monotonic time)); simpl.
    + apply eff_start; eauto.
    + by apply eff_wait.
  - by apply eff_late.
Qed.

Lemma lc_effect_wf l time e r l' :
  lc_wf l -> 0 <= monotonic time -> lc_effect l time e r l' ->
  lc_wf l' /\ lc_retry l' = lc_retry l /\ lc_delivery l' = lc_delivery l /\ lc_route l' = lc_route l.
Proof.
  intros Hwf Ht He. pose proof Hwf as (Hr & Ha & Hst).
  destruct He as [| | | -> Hs|deadline _ Hs Hle ->|]; simpl; split_and!; try done.
  - split; [done|]. simpl. destruct Hr as (? & _).
    destruct Hs as [Hs|(d & Hs & _)]; rewrite Hs in Hst; lia.
  - split; [done|]. simpl. rewrite Hs in Hst. split; [lia|]. split; [lia|].
    unfold EgressInstant_saturating_add, sat_add.
    pose proof (retry_delay_bounds l (lc_attempts l) Hr Hst) as [[Hd _] _].
    assert (0 <= backoff (lc_retry l) (lc_attempts l) * 8 / 10).
    { apply Z.div_pos; [|lia]. apply Z.mul_nonneg_nonneg; [|lia]. unfold backoff.
      destruct Hr as (_ & Hb & Hc).
      unfold MIN_RETRY_BASE, MIN_RETRY_CAP, from_millis, from_secs, NANOS_PER_SEC in *.
      apply Z.min_glb; [|lia]. apply Z.mul_nonneg_nonneg; [lia|]. apply Z.pow_nonneg. lia. }
    unfold DURATION_MAX, NANOS_PER_SEC. lia.
Qed.

Lemma transition_wf l time e :
  lc_wf l -> 0 <= monotonic time -> lc_wf (transition l time e).2.
Proof. intros Hwf Ht. by eapply lc_effect_wf, transition_effect. Qed.

(** *** Effects of a whole run *)

Lemma lc_run_cons l time e evs :
  lc_run l ((time, e) :: evs) =
  let '(rs, l2) := lc_run (transition l time e).2 evs in ((e, (transition l time e).1) :: rs, l2).
Proof. simpl. by destruct (transition l time e), (lc_run _ evs). Qed.

Lemma lc_run_summary l evs rs l' :
  lc_wf l -> Forall (fun te => 0 <= monotonic te.1) evs -> lc_run l evs = (rs, l') ->
  lc_wf l' /\ lc_retry l' = lc_retry l /\
  length (omap terminal_of rs) = (done_nat l' - done_nat l)%nat /\ (done_nat l <= done_nat l')%nat /\
  lc_attempts l <= lc_attempts l' /\
  omap attempt_of rs = seqZ (lc_attempts l + 1) (lc_attempts l' - lc_attempts l) /\
  (lc_state l' <> Done ->
    lc_attempts l' - in_flight_Z l' =
    lc_attempts l - in_flight_Z l + Z.of_nat (length (omap completion_of rs))).
Proof.
  revert l rs. induction evs as [|[time e] evs IH]; intros l rs Hwf Ht.
  { simpl. intros [= <- <-]. rewrite Z.sub_diag. simpl. split_and!; try done; lia. }
  apply Forall_cons in Ht as [Ht1 Ht]. rewrite lc_run_cons.
  pose proof (transition_effect l time e Hwf) as He.
  destruct (transition l time e) as [r l1]. simpl in *.
  destruct (lc_run l1 evs) as [rs1 l2] eqn:Hrun. intros [= <- <-].
  destruct (lc_effect_wf _ _ _ _ _ Hwf Ht1 He) as (Hwf1 & Hr1 & _).
  destruct (IH _ _ Hwf1 Ht Hrun) as (Hwf2 & Hr2 & Hterm & Hmono & Hle & Hatt & Hcomp).
  split; [done|]. split; [congruence|]. clear IH Hwf2 Hr2 Hrun.
  destruct He as [Hs|Hs Hd|d -> Hs Hd| -> Hs|d (f & ->) Hs Hle1 _|o res Hs Hne Hi _ _]; simpl; fold_omap.
  - assert (done_nat l = 1%nat) as Hdn by (unfold done_nat; by rewrite Hs).
    split_and!; try done. by destruct e.
  - split_and!; try done. by destruct e.
  - split_and!; done.
  - assert (done_nat l = 0%nat) as Hdn
      by (unfold done_nat; destruct Hs as [->|(? & -> & _)]; done).
    rewrite Hdn in *. simpl in *. fold_omap. split_and!; try (done || lia).
    + rewrite Hatt. symmetry. rewrite (seqZ_cons (lc_attempts l + 1)) by lia.
      unfold Z.succ. f_equal. f_equal; lia.
    + intros Hnd. specialize (Hcomp Hnd).
      assert (in_flight_Z l = 0) by (unfold in_flight_Z; destruct Hs as [->|(? & -> & _)]; done).
      change (in_flight_Z (lc_with l (lc_attempts l + 1) InFlight)) with 1 in Hcomp. lia.
  - assert (done_nat l = 0%nat) as Hdn by (unfold done_nat; by rewrite Hs).
    assert (in_flight_Z l = 1) as Hin by (unfold in_flight_Z; by rewrite Hs).
    rewrite Hdn in *. simpl in *. fold_omap. split_and!; try (done || lia).
    intros Hnd. specialize (Hcomp Hnd).
    change (in_flight_Z (lc_with l (lc_attempts l) (WaitingRetry d))) with 0 in Hcomp.
    rewrite Hcomp, Hin. lia.
  - assert (done_nat l = 0%nat) as Hdn by (unfold done_nat; by destruct (lc_state l)).
    rewrite Hdn in *. simpl in *.
    change (done_nat (lc_with l (lc_attempts l) Done)) with 1%nat in *.
    assert (done_nat l2 = 1%nat) as Hd2 by (clear -Hmono; unfold done_nat in *; case_match; lia).
    rewrite Hd2 in *. fold_omap. simpl in Hterm. split_and!; try (done || lia).
    intros Hnd. unfold done_nat in Hd2. by destruct (lc_state l2).
Qed.

(** A lifecycle that is done answers every further event with nothing. *)
Lemma lc_run_done l evs :
  lc_state l = Done ->
  (lc_run l evs).2 = l /\ Forall (fun x => x.2 = Ok DeliveryTransition_none) (lc_run l evs).1.
Proof.
  intros Hs. induction evs as [|[time e] evs IH]; [done|].
  rewrite lc_run_cons. unfold transition. rewrite Hs. simpl. destruct (lc_run l evs) as [rs l2].
  simpl in *. split; [apply IH|]. constructor; [done|apply IH].
Qed.

Lemma lc_run_after_terminal l evs pre x post :
  lc_wf l -> Forall (fun te => 0 <= monotonic te.1) evs ->
  (lc_run l evs).1 = pre ++ x :: post -> is_Some (terminal_of x) ->
  Forall (fun y => y.2 = Ok DeliveryTransition_none) post.
Proof.
  revert l pre. induction evs as [|[time e] evs IH]; intros l pre Hwf Ht; [by destruct pre|].
  apply Forall_cons in Ht as [Ht1 Ht]. rewrite lc_run_cons.
  pose proof (transition_effect l time e Hwf) as He.
  pose proof (transition_wf l time e Hwf Ht1) as Hwf1.
  destruct (transition l time e) as [r l1]. simpl in *.
  destruct (lc_run l1 evs) as [rs l2] eqn:Hrun. simpl.
  destruct pre as [|y pre]; simpl; intros [= <- Heq] Hterm.
  - subst rs. destruct He; simpl in Hterm; try by destruct Hterm.
    replace post with (lc_run (lc_with l (lc_attempts l) Done) evs).1 by (by rewrite Hrun).
    by apply lc_run_done.
  - apply (IH l1 pre Hwf1 Ht); [by rewrite Hrun|done].
Qed.


(** Bounded work.  The attempts a delivery starts are numbered 1, 2, 3, ... without
    gaps and there are at most [retries + 1] of them (never more than 17); once
    [retries + 1] attempt results have been accepted the delivery is terminal. *)
Theorem lifecycle_attempts_bounded route delivery retry evs rs l' :
  retry_wf retry -> Forall (fun te => 0 <= monotonic te.1) evs ->
  lc_run (DeliveryLifecycle_new route delivery retry) evs = (rs, l') ->
  omap attempt_of rs = seqZ 1 (lc_attempts l') /\
  lc_attempts l' <= retries retry + 1 <= 17 /\
  (retries retry + 1 <= Z.of_nat (length (omap completion_of rs)) -> lc_state l' = Done).
Proof.
  intros Hr Ht Hrun. pose proof (DeliveryLifecycle_new_wf route delivery retry Hr) as Hwf.
  destruct (lc_run_summary _ _ _ _ Hwf Ht Hrun)
    as ((_ & Ha & Hst) & Hretry & _ & _ & _ & Hatt & Hcomp). simpl in *. rewrite Hretry in *.
  destruct Hr as (Hn & _). unfold MAX_RETRY_ATTEMPTS in Hn.
  split; [by rewrite Hatt, Z.sub_0_r|]. split; [lia|]. intros Hc.
  destruct (lc_state l') eqn:Hs; [..|done]; exfalso;
    assert (lc_state l' <> Done) as Hnd by congruence; rewrite Hs in Hnd; specialize (Hcomp Hnd);
    unfold in_flight_Z in Hcomp; simpl in Hcomp; rewrite Hs in Hcomp; simpl in Hcomp; lia.
Qed.

(** The retry delay of a validated policy.  No step of the computation saturates:
    the delay after attempt [n] lies between 0.8 and 1.2 times the exponential backoff
    [min (base * 2^(n-1)) cap] and never exceeds the cap. *)
Theorem retry_delay_within_policy l n :
  retry_wf (lc_retry l) -> 1 <= n ->
  backoff (lc_retry l) n * 8 / 10 <= retry_delay l n <= retry_cap (lc_retry l) /\
  retry_delay l n <= backoff (lc_retry l) n * 12 / 10.
Proof. apply retry_delay_bounds. Qed.

(** *** Witnesses *)

Definition ex_retry : RetryPolicy := mk_retry 1 (from_secs 1) (from_secs 30).
Definition ex_events : list (TransitionTime * DeliveryEvent) :=
  [(mk_time 0 1000, EvDrive); (mk_time 5 1001, EvRetryable RetryReceiverRejected);
   (mk_time (from_secs 2) 3000, EvDrive); (mk_time (from_secs 3) 4000, EvDelivered None);
   (mk_time (from_secs 4) 5000, EvCancel)].
Definition ex_lc_run :=
  lc_run (DeliveryLifecycle_new (mk_id (str "route")) (mk_id (str "delivery")) ex_retry) ex_events.

Lemma ex_retry_wf : retry_wf ex_retry.
Proof. vm_compute. repeat split; discriminate. Defined.

Lemma ex_events_times : Forall (fun te => 0 <= monotonic te.1) ex_events.
Proof. repeat constructor; vm_compute; discriminate. Defined.


Lemma lifecycle_attempts_bounded_witness :
  length (omap completion_of ex_lc_run.1) = 2%nat /\ lc_state ex_lc_run.2 = Done.
Proof.
  split; [vm_compute; reflexivity|].
  apply (proj2 (proj2 (lifecycle_attempts_bounded (mk_id (str "route")) (mk_id (str "delivery")) ex_retry ex_events
    ex_lc_run.1 ex_lc_run.2 ex_retry_wf ex_events_times eq_refl))).
  vm_compute. discriminate.
Defined.

Lemma retry_delay_within_policy_witness :
  let l := DeliveryLifecycle_new (mk_id (str "route")) (mk_id (str "delivery")) ex_retry in
  backoff ex_retry 3 * 8 / 10 <= retry_delay l 3 <= from_secs 30 /\ 3200000000 <= retry_delay l 3.
Proof.
  intros l. assert (1 <= 3) as H3 by lia.
  destruct (retry_delay_within_policy l 3 ex_retry_wf H3) as [[H1 H2] _].
  split; [split; [exact H1|exact H2]|]. etrans; [|exact H1]. vm_compute. discriminate.
Defined.
