(* ===== verification/MemoryLog.v ===== *)
(** * MemoryLog: the bounded process-local delivery log

    memory_log.rs of [bondry-egress-runtime].  The state behind the mutex is the map
    of records and the queue of terminal deliveries in completion order; the log is an
    instance of [DeliveryLog] and discharges [DeliveryLogSpec]. *)

From S2P Require Import Prelude Text Identifiers DeliveryStore.

Definition MIN_IN_MEMORY_LOG_ENTRIES : Z := 64.
Definition DEFAULT_IN_MEMORY_LOG_ENTRIES : Z := 1024.
Definition MAX_IN_MEMORY_LOG_ENTRIES : Z := 8192.

Inductive InMemoryDeliveryLogLimitError := InMemoryDeliveryLogLimit_out_of_range.

Definition InMemoryDeliveryLogLimit_new (value : Z) : result InMemoryDeliveryLogLimitError Z :=
  if (value <? MIN_IN_MEMORY_LOG_ENTRIES) || (MAX_IN_MEMORY_LOG_ENTRIES <? value)
  then Err InMemoryDeliveryLogLimit_out_of_range else Ok value.

Record MemoryLogState := mk_memory_state {
  ml_records : gmap DeliveryId DeliveryRecord;
  ml_terminal_order : list DeliveryId;
}.

(** [ml_poisoned]: a thread panicked while it held the mutex. *)
Record InMemoryDeliveryLog := mk_memory_log {
  ml_limit : Z;
  ml_poisoned : bool;
  ml_state : MemoryLogState;
}.

Definition InMemoryDeliveryLog_new (limit : Z) : InMemoryDeliveryLog :=
  mk_memory_log limit false (mk_memory_state ∅ []).

Definition ml_with (l : InMemoryDeliveryLog) (s : MemoryLogState) : InMemoryDeliveryLog :=
  mk_memory_log (ml_limit l) (ml_poisoned l) s.

(** [.lock().map_err(|_| Unavailable)?] around the body of an operation. *)
Definition ml_locked {A} (l : InMemoryDeliveryLog)
    (body : MemoryLogState -> result DeliveryLogError A * MemoryLogState) :
    result DeliveryLogError A * InMemoryDeliveryLog :=
  if ml_poisoned l then (Err LogUnavailable, l)
  else let '(r, s) := body (ml_state l) in (r, ml_with l s).

(** The [while] loop of [insert_intent]; it stops with [false] when the queue is empty
    and the log still full. *)
Fixpoint reclaim (limit : Z) (order : list DeliveryId)
    (records : gmap DeliveryId DeliveryRecord) : bool * MemoryLogState :=
  if limit <=? Z.of_nat (size records) then
    match order with
    | [] => (false, mk_memory_state records [])
    | expired :: order =>
        let records :=
          match records !! expired with
          | Some record => if is_terminal (rec_state record) then delete expired records else records
          | None => records
          end in
        reclaim limit order records
    end
  else (true, mk_memory_state records order).

Definition ml_insert_intent (intent : DeliveryIntent) (l : InMemoryDeliveryLog) :
    result DeliveryLogError unit * InMemoryDeliveryLog :=
  ml_locked l (fun s =>
    match ml_records s !! intent_delivery intent with
    | Some _ => (Err LogConflict, s)
    | None =>
        match reclaim (ml_limit l) (ml_terminal_order s) (ml_records s) with
        | (false, s) => (Err LogCapacityExhausted, s)
        | (true, s) =>
            (Ok tt, mk_memory_state
              (<[intent_delivery intent :=
                 mk_record intent 0 Pending (intent_accepted_at intent) None]> (ml_records s))
              (ml_terminal_order s))
        end
    end).

Definition ml_record_attempt (delivery : DeliveryId) (attempts updated_at : Z)
    (l : InMemoryDeliveryLog) : result DeliveryLogError unit * InMemoryDeliveryLog :=
  ml_locked l (fun s =>
    match ml_records s !! delivery with
    | None => (Err LogNotFound, s)
    | Some record =>
        if is_terminal (rec_state record) || (attempts <=? rec_attempts record)
        then (Err LogInvalidTransition, s)
        else
          (Ok tt, mk_memory_state
            (<[delivery := mk_record (rec_intent record) attempts Pending updated_at None]> (ml_records s))
            (ml_terminal_order s))
    end).

Definition ml_record_outcome (delivery : DeliveryId) (outcome : DeliveryOutcome) (updated_at : Z)
    (res : option DeliveryResultMetadata) (l : InMemoryDeliveryLog) :
    result DeliveryLogError unit * InMemoryDeliveryLog :=
  ml_locked l (fun s =>
    match ml_records s !! delivery with
    | None => (Err LogNotFound, s)
    | Some record =>
        if is_terminal (rec_state record) || bool_decide (outcome = UnknownAfterCrash)
        then (Err LogInvalidTransition, s)
        else
          (Ok tt, mk_memory_state
            (<[delivery := mk_record (rec_intent record) (rec_attempts record) (Terminal outcome)
                 updated_at res]> (ml_records s))
            (ml_terminal_order s ++ [delivery]))
    end).

Definition ml_delivery (delivery : DeliveryId) (l : InMemoryDeliveryLog) :
    result DeliveryLogError (option DeliveryRecord) * InMemoryDeliveryLog :=
  ml_locked l (fun s => (Ok (ml_records s !! delivery), s)).

Definition ml_recover_unfinished (_ : Z) (l : InMemoryDeliveryLog) :
    result DeliveryLogError Z * InMemoryDeliveryLog := (Ok 0, l).

#[global] Instance InMemoryDeliveryLog_log : DeliveryLog InMemoryDeliveryLog := {
  log_durability _ := ProcessLocal;
  insert_intent := ml_insert_intent;
  record_attempt := ml_record_attempt;
  record_outcome := ml_record_outcome;
  log_delivery := ml_delivery;
  recover_unfinished := ml_recover_unfinished;
}.

(** ** Invariant

    The log never holds more than its limit, and the queue lists exactly the terminal
    records, once each. *)
Definition ml_wf (l : InMemoryDeliveryLog) : Prop :=
  let s := ml_state l in
  1 <= ml_limit l /\
  Z.of_nat (size (ml_records s)) <= ml_limit l /\
  NoDup (ml_terminal_order s) /\
  (forall d, d ∈ ml_terminal_order s <-> exists r, ml_records s !! d = Some r /\ rec_terminal r = true).

(** ** The reclamation loop *)

Lemma prunes_delete m d r : m !! d = Some r -> rec_terminal r = true -> prunes m (delete d m).
Proof.
  intros Hd Hr d'. destruct (decide (d' = d)) as [-> |Hne].
  - right. rewrite lookup_delete_eq. eauto.
  - left. by rewrite lookup_delete_ne.
Qed.

Lemma reclaim_prunes limit order m : prunes m (ml_records (reclaim limit order m).2).
Proof.
  revert m. induction order as [|d order IH]; intros m; simpl; case_match; simpl; try apply prunes_refl.
  eapply prunes_trans; [|apply IH].
  destruct (m !! d) as [r|] eqn:Hd; [|apply prunes_refl].
  destruct (is_terminal _) eqn:Ht; [by eapply prunes_delete|apply prunes_refl].
Qed.

(** On a well-formed log the loop runs at most once: it leaves a log with room alone,
    removes the oldest terminal record of a full one, and gives up when there is none. *)
Lemma reclaim_exact limit order m :
  1 <= limit -> Z.of_nat (size m) <= limit ->
  (forall d, d ∈ order -> exists r, m !! d = Some r /\ rec_terminal r = true) ->
  reclaim limit order m =
    if Z.of_nat (size m) <? limit then (true, mk_memory_state m order)
    else match order with
         | [] => (false, mk_memory_state m [])
         | d :: order => (true, mk_memory_state (delete d m) order)
         end.
Proof.
  intros Hl Hs Ho. destruct order as [|d order]; simpl.
  - destruct (Z.leb_spec limit (Z.of_nat (size m))), (Z.ltb_spec (Z.of_nat (size m)) limit); try lia; done.
  - destruct (Z.leb_spec limit (Z.of_nat (size m))), (Z.ltb_spec (Z.of_nat (size m)) limit); try lia; [|done].
    destruct (Ho d) as (r & Hd & Hr); [left|]. rewrite Hd. unfold rec_terminal in Hr. rewrite Hr.
    assert (Z.of_nat (size (delete d m)) < limit) as Hlt.
    { rewrite map_size_delete, Hd. assert (size m ≠ 0%nat) by lia. lia. }
    destruct order; simpl; destruct (Z.leb_spec limit (Z.of_nat (size (delete d m)))); done || lia.
Qed.

(** ** The log keeps the contract of the trait *)

Definition ml_view (l : InMemoryDeliveryLog) : gmap DeliveryId DeliveryRecord := ml_records (ml_state l).

Lemma not_terminal_Pending s : is_terminal s = false -> s = Pending.
Proof. by destruct s. Qed.

#[global] Program Instance InMemoryDeliveryLog_spec : DeliveryLogSpec InMemoryDeliveryLog := {
  log_view := ml_view;
}.
Next Obligation.
  intros i l. simpl. unfold ml_insert_intent, ml_locked, ml_view.
  destruct (ml_poisoned l); [exists (ml_records (ml_state l)); auto using prunes_refl|].
  destruct (ml_records (ml_state l) !! intent_delivery i) as [r|] eqn:Hi;
    [exists (ml_records (ml_state l)); auto using prunes_refl|].
  pose proof (reclaim_prunes (ml_limit l) (ml_terminal_order (ml_state l)) (ml_records (ml_state l))) as Hp.
  destruct (reclaim _ _ _) as [[] s]; exists (ml_records s); simpl in *; [|done].
  split; [done|]. split; [|done]. destruct (Hp (intent_delivery i)) as [->|[? _]]; done.
Qed.
Next Obligation.
  intros d n t l. simpl. unfold ml_record_attempt, ml_locked, ml_view.
  destruct (ml_poisoned l); [by left|]. destruct (ml_records (ml_state l) !! d) as [r|] eqn:Hd; [|by left].
  destruct (is_terminal _) eqn:Ht; [by left|]. simpl. destruct (Z.leb_spec n (rec_attempts r)); [by left|].
  right. exists r. auto using not_terminal_Pending.
Qed.
Next Obligation.
  intros d o t res l. simpl. unfold ml_record_outcome, ml_locked, ml_view.
  destruct (ml_poisoned l); [by left|]. destruct (ml_records (ml_state l) !! d) as [r|] eqn:Hd; [|by left].
  destruct (is_terminal _) eqn:Ht; [by left|]. simpl. case_bool_decide; [by left|].
  right. exists r. auto using not_terminal_Pending.
Qed.
Next Obligation.
  intros d l. simpl. unfold ml_delivery, ml_locked, ml_view.
  destruct (ml_poisoned l); simpl; [done|]. split; [done|]. by intros o [= <-].
Qed.
Next Obligation. done. Qed.

(** ** Preservation of the invariant *)

Lemma ml_insert_wf i l : ml_wf l -> ml_wf (ml_insert_intent i l).2.
Proof.
  intros (Hl & Hs & Hnd & Ho). unfold ml_insert_intent, ml_locked.
  destruct (ml_poisoned l); [done|].
  destruct (ml_records (ml_state l) !! intent_delivery i) as [r|] eqn:Hi; [by split|].
  rewrite reclaim_exact; [|done|done|intros; by apply Ho].
  destruct (Z.ltb_spec (Z.of_nat (size (ml_records (ml_state l)))) (ml_limit l)) as [Hlt|Hge].
  { split; [done|]. simpl. rewrite map_size_insert, Hi. split; [lia|]. split; [done|]. intros d.
    rewrite Ho. destruct (decide (d = intent_delivery i)) as [-> |Hne].
    - rewrite lookup_insert_eq, Hi. naive_solver.
    - by rewrite lookup_insert_ne. }
  destruct (ml_terminal_order (ml_state l)) as [|x order] eqn:Hord.
  { split; [done|]. simpl. by rewrite <-Hord in *. }
  destruct (proj1 (Ho x)) as (rx & Hx & Hrx); [left|].
  assert (x <> intent_delivery i) as Hxi by congruence.
  apply NoDup_cons in Hnd as [Hx' Hnd].
  split; [done|]. simpl. rewrite map_size_insert, lookup_delete_ne, Hi by done.
  rewrite map_size_delete, Hx. split; [lia|]. split; [done|]. intros d.
  destruct (decide (d = intent_delivery i)) as [-> |Hne].
  - rewrite lookup_insert_eq. split; [|naive_solver]. intros Hd. destruct (proj1 (Ho (intent_delivery i))); [by right|].
    naive_solver.
  - rewrite lookup_insert_ne by done. destruct (decide (d = x)) as [-> |Hdx].
    + rewrite lookup_delete_eq. naive_solver.
    + rewrite lookup_delete_ne by done. rewrite <-Ho, elem_of_cons. naive_solver.
Qed.

Lemma ml_record_attempt_wf d n t l : ml_wf l -> ml_wf (ml_record_attempt d n t l).2.
Proof.
  intros (Hl & Hs & Hnd & Ho). unfold ml_record_attempt, ml_locked.
  destruct (ml_poisoned l); [done|]. destruct (ml_records (ml_state l) !! d) as [r|] eqn:Hd; [|by split].
  destruct (is_terminal _) eqn:Ht; [by split|]. simpl. destruct (_ <=? _); [by split|].
  split; [done|]. simpl. rewrite map_size_insert, Hd. split; [done|]. split; [done|].
  intros d'. rewrite Ho. destruct (decide (d' = d)) as [-> |Hne].
  - rewrite lookup_insert_eq, Hd. naive_solver.
  - by rewrite lookup_insert_ne.
Qed.

Lemma ml_record_outcome_wf d o t res l : ml_wf l -> ml_wf (ml_record_outcome d o t res l).2.
Proof.
  intros (Hl & Hs & Hnd & Ho). unfold ml_record_outcome, ml_locked.
  destruct (ml_poisoned l); [done|]. destruct (ml_records (ml_state l) !! d) as [r|] eqn:Hd; [|by split].
  destruct (is_terminal _) eqn:Ht; [by split|]. simpl. case_bool_decide; [by split|].
  split; [done|]. simpl. rewrite map_size_insert, Hd. split; [done|]. split.
  { apply NoDup_app. split; [done|]. split; [|apply NoDup_singleton].
    intros x Hx ->%list_elem_of_singleton. apply Ho in Hx as (r' & Hr' & Ht'). rewrite Hd in Hr'.
    injection Hr' as <-. unfold rec_terminal in Ht'. congruence. }
  intros d'. rewrite elem_of_app, list_elem_of_singleton, Ho. destruct (decide (d' = d)) as [-> |Hne].
  - rewrite lookup_insert_eq, Hd. naive_solver.
  - rewrite lookup_insert_ne by done. naive_solver.
Qed.

Lemma ml_run_wf ops l : ml_wf l -> ml_wf (log_run ops l).
Proof.
  revert l. induction ops as [|[i|d n t|d o t res] ops IH]; intros l Hl; [done|..]; apply IH; simpl;
    eauto using ml_insert_wf, ml_record_attempt_wf, ml_record_outcome_wf.
Qed.

Lemma InMemoryDeliveryLog_new_wf limit : 1 <= limit -> ml_wf (InMemoryDeliveryLog_new limit).
Proof.
  intros Hl. split; [done|]. simpl. rewrite map_size_empty. split; [lia|]. split; [constructor|].
  intros d. rewrite lookup_empty. split; [by intros ?%elem_of_nil|naive_solver].
Qed.

Lemma ml_run_limit ops l : ml_limit (log_run ops l) = ml_limit l.
Proof.
  revert l. induction ops as [|op ops IH]; intros l; [done|].
  change (log_run (op :: ops) l) with (log_run ops (log_apply op l).2). rewrite IH.
  destruct op; simpl; unfold ml_insert_intent, ml_record_attempt, ml_record_outcome, ml_locked;
    destruct (ml_poisoned l); try done; repeat case_match; by simplify_eq.
Qed.

(** The log is bounded.  After any history it holds at most [limit] records, and
    its queue lists every terminal record exactly once and nothing else, so the
    memory of the queue is bounded by the same limit. *)
Theorem memory_log_bounded limit ops :
  1 <= limit ->
  let l := log_run ops (InMemoryDeliveryLog_new limit) in
  Z.of_nat (size (ml_view l)) <= limit /\
  NoDup (ml_terminal_order (ml_state l)) /\
  Z.of_nat (length (ml_terminal_order (ml_state l))) <= limit /\
  forall d, d ∈ ml_terminal_order (ml_state l) <->
    exists r, ml_view l !! d = Some r /\ rec_terminal r = true.
Proof.
  intros Hl l. destruct (ml_run_wf ops _ (InMemoryDeliveryLog_new_wf limit Hl)) as (_ & Hs & Hnd & Ho).
  fold l in Hs, Hnd, Ho. unfold l in Hs. rewrite ml_run_limit in Hs. fold l in Hs. simpl in Hs.
  split; [done|]. split; [done|]. split; [|done]. etrans; [|exact Hs].
  rewrite <-(size_list_to_set (C := gset DeliveryId) _ Hnd), <-size_dom. apply Nat2Z.inj_le, subseteq_size.
  intros d. rewrite elem_of_list_to_set, Ho, elem_of_dom. naive_solver.
Qed.

(** Exactly what an insert does.  A known delivery is a conflict; a log with room
    takes the record; a full one drops the terminal record that ended first, one and
    no more, and refuses the intent, changing nothing, when every record is pending. *)
Theorem memory_log_insert_exact i l :
  ml_wf l -> ml_poisoned l = false ->
  let m := ml_view l in
  match ml_insert_intent i l with
  | (Err LogConflict, l') => is_Some (m !! intent_delivery i) /\ l' = l
  | (Err LogCapacityExhausted, l') =>
      m !! intent_delivery i = None /\ Z.of_nat (size m) = ml_limit l /\ ml_view l' = m /\
      forall d r, m !! d = Some r -> rec_state r = Pending
  | (Err _, _) => False
  | (Ok _, l') =>
      m !! intent_delivery i = None /\
      if Z.of_nat (size m) <? ml_limit l
      then ml_view l' = <[intent_delivery i := fresh_record i]> m /\
           ml_terminal_order (ml_state l') = ml_terminal_order (ml_state l)
      else exists oldest,
           ml_terminal_order (ml_state l) = oldest :: ml_terminal_order (ml_state l') /\
           ml_view l' = <[intent_delivery i := fresh_record i]> (delete oldest m)
  end.
Proof.
  intros (Hl & Hs & Hnd & Ho) Hpo m. unfold ml_insert_intent, ml_locked. rewrite Hpo. unfold m, ml_view.
  destruct (ml_records (ml_state l) !! intent_delivery i) as [r|] eqn:Hi.
  { split; [eauto|]. unfold ml_with. by destruct l. }
  rewrite reclaim_exact; [|done|done|intros; by apply Ho].
  destruct (Z.ltb_spec (Z.of_nat (size (ml_records (ml_state l)))) (ml_limit l)) as [Hlt|Hge]; [done|].
  destruct (ml_terminal_order (ml_state l)) as [|x order] eqn:Hord; simpl.
  - split; [done|]. split; [lia|]. split; [done|]. intros d r Hd.
    apply not_terminal_Pending, not_true_iff_false. intros Ht.
    apply (not_elem_of_nil d), Ho. eauto.
  - split; [done|]. by exists x.
Qed.

(** *** Witnesses *)

Definition ex_intent (name : string) : DeliveryIntent := mk_intent (mk_id (str "route")) (mk_id (str name)) 7.

(** A log of two entries that accepted two deliveries and finished the first. *)
Definition ex_log_ops : list LogOp :=
  [OpInsert (ex_intent "a"); OpInsert (ex_intent "b"); OpAttempt (mk_id (str "b")) 1 8;
   OpOutcome (mk_id (str "a")) Delivered 9 None].
Definition ex_memory_log : InMemoryDeliveryLog := log_run ex_log_ops (InMemoryDeliveryLog_new 2).

Lemma log_keeps_pending_witness :
  exists r', log_view (log_run [OpInsert (ex_intent "c")] ex_memory_log) !! (mk_id (str "b")) = Some r' /\
    1 <= rec_attempts r'.
Proof.
  destruct (log_keeps_pending [OpInsert (ex_intent "c")] ex_memory_log (mk_id (str "b"))
    (mk_record (ex_intent "b") 1 Pending 8 None)) as (r' & H1 & _ & _ & H2).
  - vm_compute. reflexivity.
  - reflexivity.
  - repeat constructor. intros [].
  - exists r'. auto.
Defined.

Lemma memory_log_bounded_witness :
  Z.of_nat (size (ml_view ex_memory_log)) <= 2 /\ ml_terminal_order (ml_state ex_memory_log) = [mk_id (str "a")].
Proof.
  assert (1 <= 2) as H2 by lia.
  split; [|vm_compute; reflexivity]. exact (proj1 (memory_log_bounded 2 ex_log_ops H2)).
Defined.

Lemma ex_memory_log_wf : ml_wf ex_memory_log.
Proof. apply ml_run_wf, InMemoryDeliveryLog_new_wf. lia. Defined.

Lemma memory_log_insert_exact_witness :
  exists oldest, oldest = mk_id (str "a") /\
    ml_view (ml_insert_intent (ex_intent "c") ex_memory_log).2 =
      <[mk_id (str "c") := fresh_record (ex_intent "c")]> (delete oldest (ml_view ex_memory_log)).
Proof.
  assert (ml_poisoned ex_memory_log = false) as Hp by (vm_compute; reflexivity).
  assert ((Z.of_nat (size (ml_view ex_memory_log)) <? ml_limit ex_memory_log) = false) as Hf
    by (vm_compute; reflexivity).
  assert (is_ok (ml_insert_intent (ex_intent "c") ex_memory_log).1 = true) as Hok by (vm_compute; reflexivity).
  assert (ml_terminal_order (ml_state ex_memory_log) = [mk_id (str "a")]) as Ht by (vm_compute; reflexivity).
  pose proof (memory_log_insert_exact (ex_intent "c") ex_memory_log ex_memory_log_wf Hp) as H.
  cbv zeta in H. rewrite Hf, Ht in H.
  destruct (ml_insert_intent (ex_intent "c") ex_memory_log) as [[u|e] l']; [|discriminate Hok].
  destruct H as (_ & oldest & Ho & Hv). exists oldest. split; [congruence|exact Hv].
Defined.
