(* ===== verification/Payload.v ===== *)
(** * Payload: closed, bounded JSON payload contracts

    payload.rs of [bondry-egress].  [serde_json]'s reader is the variable [parse]: it
    gives the document of a byte string with the entries of every object in document
    order, repeated keys included, as the deserializer hands them to a visitor; [None]
    when the bytes are not one JSON document.  The visitors of the source are functions
    on that document; each of their errors becomes [InvalidJson]. *)

From S2P Require Import Prelude Text Json EgressLimits.

Inductive PayloadError :=
| EmptyFieldName | FieldNameTooLong | InvalidFieldName | TooManyFields | DuplicateContractField
| PayloadTooLarge | InvalidJson | UndeclaredField | MissingRequiredField | FieldTypeMismatch.
#[global] Instance PayloadError_eq_dec : EqDecision PayloadError.
Proof. solve_decision. Defined.

Definition field_name_char (c : char) : bool :=
  is_ascii_alphanumeric c || (c =? 46) || (c =? 58) || (c =? 95) || (c =? 45).

(** A [PayloadFieldName] is its string. *)
Definition PayloadFieldName_new (value : rstr) : result PayloadError rstr :=
  if bool_decide (value = []) then Err EmptyFieldName
  else if MAX_PAYLOAD_FIELD_NAME_BYTES <? str_len value then Err FieldNameTooLong
  else if negb (forallb field_name_char value) then Err InvalidFieldName
  else Ok value.

Inductive PayloadFieldType := TAny | TNull | TBoolean | TNumber | TString | TArray | TObject.
#[global] Instance PayloadFieldType_eq_dec : EqDecision PayloadFieldType.
Proof. solve_decision. Defined.

Record PayloadField := mk_field {
  field_name : rstr;
  field_type : PayloadFieldType;
  field_required : bool;
}.

Record PayloadContract := mk_contract {
  contract_fields : gmap (list Z) PayloadField;
  contract_limit : Z;
}.

Fixpoint declare_fields (fields : list PayloadField) (declared : gmap (list Z) PayloadField) :
    result PayloadError (gmap (list Z) PayloadField) :=
  match fields with
  | [] => Ok declared
  | field :: fields =>
      if MAX_PAYLOAD_FIELDS <=? Z.of_nat (size declared) then Err TooManyFields
      else match declared !! field_name field with
           | Some _ => Err DuplicateContractField
           | None => declare_fields fields (<[field_name field := field]> declared)
           end
  end.

Definition PayloadContract_new (fields : list PayloadField) (limit : Z) :
    result PayloadError PayloadContract :=
  declared ← declare_fields fields ∅; Ok (mk_contract declared limit).

(** ** The visitors *)

Definition check_depth (depth : Z) : bool := depth <=? MAX_JSON_NESTING_DEPTH.

(** [PayloadValueVisitor] at a depth. *)
Fixpoint visit_value (depth : Z) (v : Value) : option PayloadFieldType :=
  match v with
  | JNull => Some TNull
  | JBool _ => Some TBoolean
  | JNumber _ => Some TNumber
  | JString _ => Some TString
  | JArray items =>
      if check_depth depth then
        (fix visit_seq l :=
          match l with
          | [] => Some TArray
          | v :: l => match visit_value (depth + 1) v with Some _ => visit_seq l | None => None end
          end) items
      else None
  | JObject entries =>
      if check_depth depth then
        (fix visit_map (names : gset (list Z)) l :=
          match l with
          | [] => Some TObject
          | (name, v) :: l =>
              if bool_decide (name ∈ names) then None
              else match visit_value (depth + 1) v with
                   | Some _ => visit_map ({[name]} ∪ names) l
                   | None => None
                   end
          end) ∅ entries
      else None
  end.

(** [PayloadDocumentVisitor::visit_map]. *)
Fixpoint visit_document (fields : gmap (list Z) PayloadFieldType) (entries : list (rstr * Value)) :
    option (gmap (list Z) PayloadFieldType) :=
  match entries with
  | [] => Some fields
  | (name, v) :: entries =>
      if MAX_PAYLOAD_FIELDS <=? Z.of_nat (size fields) then None
      else if bool_decide (is_Some (fields !! name)) then None
      else match visit_value 2 v with
           | Some t => visit_document (<[name := t]> fields) entries
           | None => None
           end
  end.

Section validate.
  Context (parse : list Z -> option Value).

(** [PayloadDocumentSeed] followed by [deserializer.end()]: the fields in key order. *)
Definition read_document (bytes : list byte) : option (list (rstr * PayloadFieldType)) :=
  match parse bytes with
  | Some (JObject entries) => btree_iter <$> visit_document ∅ entries
  | _ => None
  end.

Fixpoint check_fields (declared : gmap (list Z) PayloadField) (actual : list (rstr * PayloadFieldType))
    (present : gset (list Z)) : result PayloadError (gset (list Z)) :=
  match actual with
  | [] => Ok present
  | (name, t) :: actual =>
      match declared !! name with
      | None => Err UndeclaredField
      | Some field =>
          if bool_decide (field_type field <> TAny) && bool_decide (field_type field <> t)
          then Err FieldTypeMismatch
          else check_fields declared actual ({[name]} ∪ present)
      end
  end.

(** An [EventPayload] is its bytes. *)
Definition PayloadContract_validate (c : PayloadContract) (bytes : list byte) :
    result PayloadError (list byte) :=
  if contract_limit c <? Z.of_nat (length bytes) then Err PayloadTooLarge
  else
    actual ← ok_or (read_document bytes) InvalidJson;
    present ← check_fields (contract_fields c) actual ∅;
    if existsb (fun f => field_required f && negb (bool_decide (field_name f ∈ present)))
         (btree_values (contract_fields c))
    then Err MissingRequiredField
    else Ok bytes.

End validate.

(** ** What a contract accepts, declaratively *)

(** How many containers enclose the innermost value, and that no object anywhere in the
    document repeats a key. *)
Fixpoint nesting (v : Value) : Z :=
  match v with
  | JArray items => 1 + fold_right (fun v n => Z.max (nesting v) n) 0 items
  | JObject entries => 1 + fold_right (fun e n => Z.max (nesting e.2) n) 0 entries
  | _ => 0
  end.

Fixpoint unambiguous (v : Value) : Prop :=
  match v with
  | JArray items => fold_right (fun v P => unambiguous v /\ P) True items
  | JObject entries => NoDup entries.*1 /\ fold_right (fun e P => unambiguous e.2 /\ P) True entries
  | _ => True
  end.

Definition type_of (v : Value) : PayloadFieldType :=
  match v with
  | JNull => TNull | JBool _ => TBoolean | JNumber _ => TNumber | JString _ => TString
  | JArray _ => TArray | JObject _ => TObject
  end.

Lemma fold_and_Forall {A} (P : A -> Prop) l : fold_right (fun x Q => P x /\ Q) True l <-> Forall P l.
Proof. induction l as [|x l IH]; simpl; [by rewrite Forall_nil|]. by rewrite Forall_cons, IH. Qed.

Lemma fold_max_le {A} (f : A -> Z) l n :
  0 <= n -> (fold_right (fun x m => Z.max (f x) m) 0 l <= n <-> Forall (fun x => f x <= n) l).
Proof.
  intros Hn. induction l as [|x l IH]; simpl; [split; [constructor|lia]|].
  rewrite Forall_cons, <-IH. lia.
Qed.

Lemma nesting_nonneg v : 0 <= nesting v.
Proof.
  assert (forall {A} (f : A -> Z) l, 0 <= fold_right (fun x m => Z.max (f x) m) 0 l) as Hf.
  { intros A f l. induction l; simpl; lia. }
  destruct v as [| | | |l|l]; simpl; try lia.
  - pose proof (Hf _ nesting l). lia.
  - pose proof (Hf _ (fun e : rstr * Value => nesting e.2) l). lia.
Qed.

(** A value fits at a depth when it is a scalar or its innermost container does. *)
Definition fits (depth : Z) (v : Value) : Prop :=
  nesting v = 0 \/ depth + nesting v - 1 <= MAX_JSON_NESTING_DEPTH.

Lemma fits_container {A} depth (f : A -> Value) l n :
  n = 1 + fold_right (fun x m => Z.max (nesting (f x)) m) 0 l ->
  (n = 0 \/ depth + n - 1 <= MAX_JSON_NESTING_DEPTH) <->
  (check_depth depth = true /\ Forall (fun x => fits (depth + 1) (f x)) l).
Proof.
  intros ->. unfold check_depth, fits. rewrite Z.leb_le.
  assert (0 <= fold_right (fun x m => Z.max (nesting (f x)) m) 0 l) as H0 by (induction l; simpl; lia).
  assert (forall x, 0 <= nesting (f x)) as Hn by (intros; apply nesting_nonneg).
  assert (depth <= MAX_JSON_NESTING_DEPTH ->
    (fold_right (fun x m => Z.max (nesting (f x)) m) 0 l <= MAX_JSON_NESTING_DEPTH - depth <->
     Forall (fun x => nesting (f x) = 0 \/ depth + 1 + nesting (f x) - 1 <= MAX_JSON_NESTING_DEPTH) l)) as Hiff.
  { intros Hd. rewrite fold_max_le by lia. apply Forall_iff. intros x. specialize (Hn x). lia. }
  split; [intros ?|intros [? ?%Hiff]]; [split; [lia|apply Hiff; lia]|lia|lia].
Qed.

(** The visitor's answer: the type of the value when it fits and repeats no key. *)
Lemma visit_value_spec v : forall depth t,
  visit_value depth v = Some t <-> t = type_of v /\ fits depth v /\ unambiguous v.
Proof.
  induction v as [|b|n|s|l IH|l IH] using Value_nested_ind; intros depth t;
    try (simpl; unfold fits; simpl; naive_solver).
  - unfold fits. rewrite (fits_container depth id l _ eq_refl). simpl. rewrite fold_and_Forall.
    destruct (check_depth depth); [|naive_solver].
    induction IH as [|v l Hv IH IHl]; [rewrite !Forall_nil; naive_solver|].
    rewrite !Forall_cons. destruct (visit_value (depth + 1) v) as [t'|] eqn:Hvv.
    + apply Hv in Hvv as (-> & Hf & Hu). rewrite IHl. unfold id in *. naive_solver.
    + split; [done|]. intros (_ & (_ & Hf & _) & Hu & _).
      rewrite (proj2 (Hv _ (type_of v))) in Hvv by done. done.
  - unfold fits. rewrite (fits_container depth snd l _ eq_refl). simpl. rewrite fold_and_Forall.
    destruct (check_depth depth); [|naive_solver].
    assert (forall names : gset (list Z),
      (fix visit_map (names : gset (list Z)) l :=
          match l with
          | [] => Some TObject
          | (name, v) :: l =>
              if bool_decide (name ∈ names) then None
              else match visit_value (depth + 1) v with
                   | Some _ => visit_map ({[name]} ∪ names) l
                   | None => None
                   end
          end) names l = Some t <->
      t = TObject /\ Forall (fun x => fits (depth + 1) x.2) l /\ NoDup l.*1 /\
      Forall (fun x => x ∉ names) l.*1 /\ Forall (fun e => unambiguous e.2) l) as Hgo.
    { induction IH as [|[k v] l Hv IH IHl]; intros names; [rewrite !Forall_nil, NoDup_nil; naive_solver|].
      simpl in *. rewrite !Forall_cons, NoDup_cons. simpl. case_bool_decide as Hk; [naive_solver|].
      destruct (visit_value (depth + 1) v) as [t'|] eqn:Hvv.
      - apply Hv in Hvv as (-> & Hf & Hu). rewrite IHl, !Forall_forall. set_solver.
      - split; [done|]. intros (_ & (Hf & _) & _ & _ & Hu & _).
        rewrite (proj2 (Hv _ (type_of v))) in Hvv by done. done. }
    rewrite Hgo. assert (Forall (fun x => x ∉ (∅ : gset (list Z))) l.*1) by (apply Forall_forall; set_solver).
    naive_solver.
Qed.

Lemma visit_document_spec entries : forall fields m,
  Z.of_nat (size fields) <= MAX_PAYLOAD_FIELDS ->
  visit_document fields entries = Some m <->
  Z.of_nat (size fields + length entries) <= MAX_PAYLOAD_FIELDS /\ NoDup entries.*1 /\
  Forall (fun e => fields !! e.1 = None /\ fits 2 e.2 /\ unambiguous e.2) entries /\
  m = foldl (fun m e => <[e.1 := type_of e.2]> m) fields entries.
Proof.
  induction entries as [|[k v] entries IH]; intros fields m Hs; simpl.
  { rewrite Nat.add_0_r, NoDup_nil, Forall_nil. naive_solver. }
  rewrite Forall_cons, NoDup_cons. simpl.
  destruct (Z.leb_spec MAX_PAYLOAD_FIELDS (Z.of_nat (size fields))) as [Hle|Hlt]; [split; [done|lia]|].
  case_bool_decide as Hk; [destruct Hk; naive_solver|]. apply eq_None_not_Some in Hk.
  destruct (visit_value 2 v) as [t|] eqn:Hv.
  - apply visit_value_spec in Hv as (-> & Hf & Hu).
    rewrite IH by (rewrite map_size_insert, Hk; lia). rewrite map_size_insert, Hk, <-plus_n_Sm. simpl.
    assert (Forall (fun e => <[k := type_of v]> fields !! e.1 = None /\ fits 2 e.2 /\ unambiguous e.2) entries <->
      (k ∉ entries.*1) /\ Forall (fun e => fields !! e.1 = None /\ fits 2 e.2 /\ unambiguous e.2) entries) as ->.
    { rewrite !Forall_forall. setoid_rewrite lookup_insert_None. split.
      - intros H. split; [|naive_solver]. intros ([k' v'] & -> & Hin)%list_elem_of_fmap. by destruct (H _ Hin) as ((_ & ?) & _).
      - intros [Hn H] [k' v'] Hin. specialize (H _ Hin). split; [|naive_solver]. split; [naive_solver|].
        simpl. intros ->. apply Hn. apply list_elem_of_fmap. by exists (k', v'). }
    naive_solver.
  - split; [done|]. intros (_ & _ & ((_ & Hf & Hu) & _) & _).
    by rewrite (proj2 (visit_value_spec v 2 (type_of v))) in Hv.
Qed.

Lemma foldl_insert_lookup (entries : list (rstr * Value)) (m : gmap (list Z) PayloadFieldType) k t :
  NoDup entries.*1 ->
  foldl (fun m e => <[e.1 := type_of e.2]> m) m entries !! k = Some t <->
  ((k ∉ entries.*1) /\ m !! k = Some t) \/ exists v, (k, v) ∈ entries /\ t = type_of v.
Proof.
  revert m. induction entries as [|[k' v] entries IH]; intros m Hnd; simpl.
  { set_solver. }
  apply NoDup_cons in Hnd as [Hk Hnd]. rewrite IH by done. destruct (decide (k = k')) as [-> |Hne].
  - rewrite lookup_insert_eq. setoid_rewrite elem_of_cons. split.
    + intros [[_ [= <-]]|(v' & Hv' & ->)]; [naive_solver|]. destruct Hk. apply list_elem_of_fmap. by exists (k', v').
    + intros [[Hn _]|(v' & [[= <-]|Hv'] & ->)]; [set_solver|naive_solver|]. destruct Hk. apply list_elem_of_fmap. by exists (k', v').
  - rewrite lookup_insert_ne by done. setoid_rewrite elem_of_cons. naive_solver.
Qed.

(** The comparison with the declared fields: every field is declared with a compatible
    type, and the fields seen are collected. *)
Lemma check_fields_spec declared actual : forall present seen,
  check_fields declared actual present = Ok seen <->
  seen = list_to_set actual.*1 ∪ present /\
  Forall (fun e => exists f, declared !! e.1 = Some f /\ (field_type f = TAny \/ field_type f = e.2)) actual.
Proof.
  induction actual as [|[k t] actual IH]; intros present seen; simpl.
  { rewrite Forall_nil, (left_id_L ∅ (∪)). naive_solver. }
  rewrite Forall_cons. simpl. destruct (declared !! k) as [f|]; [|naive_solver].
  destruct (decide (field_type f = TAny \/ field_type f = t)) as [Hty|Hty].
  - assert (bool_decide (field_type f <> TAny) && bool_decide (field_type f <> t) = false) as ->.
    { apply andb_false_iff. rewrite !bool_decide_eq_false. naive_solver. }
    rewrite IH. rewrite (assoc_L (∪)), (comm_L (∪) {[k]}). naive_solver.
  - assert (bool_decide (field_type f <> TAny) && bool_decide (field_type f <> t) = true) as ->.
    { apply andb_true_iff. rewrite !bool_decide_eq_true. naive_solver. }
    naive_solver.
Qed.

(** What a contract accepts: the bytes of one JSON object within the limit, nested at
    most 32 deep, no key repeated at any level, at most 64 top-level fields, each
    declared with a compatible type, every required field among them. *)
Definition admissible (c : PayloadContract) (entries : list (rstr * Value)) : Prop :=
  Z.of_nat (length entries) <= MAX_PAYLOAD_FIELDS /\
  nesting (JObject entries) <= MAX_JSON_NESTING_DEPTH /\
  unambiguous (JObject entries) /\
  (forall k v, (k, v) ∈ entries -> exists f, contract_fields c !! k = Some f /\
     (field_type f = TAny \/ field_type f = type_of v)) /\
  (forall k f, contract_fields c !! k = Some f -> field_required f = true -> field_name f ∈ entries.*1).

Lemma read_document_spec parse bytes actual :
  read_document parse bytes = Some actual <->
  exists entries, parse bytes = Some (JObject entries) /\
    Z.of_nat (length entries) <= MAX_PAYLOAD_FIELDS /\
    nesting (JObject entries) <= MAX_JSON_NESTING_DEPTH /\ unambiguous (JObject entries) /\
    actual = btree_iter (foldl (fun m e => <[e.1 := type_of e.2]> m) ∅ entries).
Proof.
  unfold read_document. destruct (parse bytes) as [[| | | | |entries]|]; try naive_solver.
  rewrite fmap_Some. setoid_rewrite (visit_document_spec entries ∅); [|by rewrite map_size_empty].
  setoid_rewrite map_size_empty. cbn [unambiguous Nat.add]. setoid_rewrite fold_and_Forall.
  assert (Forall (fun e => (∅ : gmap (list Z) PayloadFieldType) !! e.1 = None /\ fits 2 e.2 /\ unambiguous e.2) entries <->
    nesting (JObject entries) <= MAX_JSON_NESTING_DEPTH /\ Forall (fun e => unambiguous e.2) entries) as Hd.
  { pose proof (fits_container 1 (fun e : rstr * Value => e.2) entries _ eq_refl) as Hfit.
    pose proof (nesting_nonneg (JObject entries)). cbn [nesting] in *. rewrite !Forall_forall in *.
    setoid_rewrite lookup_empty. split.
    - intros Hall. split; [|naive_solver]. assert (check_depth 1 = true /\ (forall e, e ∈ entries -> fits (1 + 1) e.2)) as [H0|H0]%Hfit; [|unfold MAX_JSON_NESTING_DEPTH in *; lia..].
      split; [done|]. intros e He. by apply Hall.
    - intros [Hn Hu] e He. split; [done|]. split; [|by apply Hu]. apply Hfit; [lia|done]. }
  split.
  - intros (m & (Hl & Hnd & Hall & ->) & ->). apply Hd in Hall. exists entries. naive_solver.
  - intros (es & [= <-] & Hl & Hn & (Hnd & Hu) & ->). eexists. split; [|done]. split; [done|].
    split; [done|]. split; [|done]. by apply Hd.
Qed.

Lemma lookup_document entries k t :
  unambiguous (JObject entries) ->
  (k, t) ∈ btree_iter (foldl (fun m e => <[e.1 := type_of e.2]> m) (∅ : gmap (list Z) _) entries) <->
  exists v, (k, v) ∈ entries /\ t = type_of v.
Proof.
  intros [Hnd _]. rewrite elem_of_btree_iter, foldl_insert_lookup by done.
  rewrite lookup_empty. naive_solver.
Qed.

(** The names the comparison collected are the names of the document. *)
Lemma document_names entries k :
  unambiguous (JObject entries) ->
  k ∈ (list_to_set (btree_iter (foldl (fun m e => <[e.1 := type_of e.2]> m) (∅ : gmap (list Z) _) entries)).*1
    ∪ ∅ : gset (list Z)) <-> k ∈ entries.*1.
Proof.
  intros Hu. rewrite elem_of_union, elem_of_list_to_set, elem_of_empty, !list_elem_of_fmap. split.
  - intros [([k' t] & -> & Hin)|[]]. apply (lookup_document _ _ _ Hu) in Hin as (v & Hv & _).
    by exists (k', v).
  - intros ([k' v] & -> & Hin). left. exists (k', type_of v). split; [done|].
    apply (lookup_document _ _ _ Hu). eauto.
Qed.

(** Acceptance hands on the caller's bytes and keeps the limit. *)
Lemma payload_validate_sound parse c bytes p :
  PayloadContract_validate parse c bytes = Ok p ->
  p = bytes /\ Z.of_nat (length bytes) <= contract_limit c /\ is_Some (read_document parse bytes).
Proof.
  unfold PayloadContract_validate. destruct (Z.ltb_spec (contract_limit c) (Z.of_nat (length bytes))); [done|].
  destruct (read_document parse bytes) as [actual|]; simpl; [|done].
  destruct (check_fields _ _ _); simpl; [|done]. destruct (existsb _ _); [done|]. intros [= <-]. eauto.
Qed.

(** A payload contract admits exactly the documents it describes, and hands on
    the caller's own bytes.  Soundness and completeness: nothing else is accepted and
    nothing admissible is refused. *)
Theorem payload_validate_exact parse c bytes p :
  PayloadContract_validate parse c bytes = Ok p <->
  p = bytes /\ Z.of_nat (length bytes) <= contract_limit c /\
  exists entries, parse bytes = Some (JObject entries) /\ admissible c entries.
Proof.
  unfold PayloadContract_validate. destruct (Z.ltb_spec (contract_limit c) (Z.of_nat (length bytes))); [split; [done|lia]|].
  rewrite result_bind_Ok. setoid_rewrite result_bind_Ok.
  assert (forall actual, ok_or (read_document parse bytes) InvalidJson = Ok actual <-> read_document parse bytes = Some actual) as Hok
    by (intros; destruct (read_document parse bytes); naive_solver).
  setoid_rewrite Hok. setoid_rewrite read_document_spec. setoid_rewrite check_fields_spec. split.
  - intros (actual & (entries & Hp & Hl & Hn & Hu & ->) & seen & [-> Hall] & Hreq).
    rewrite Forall_forall in Hall. destruct (existsb _ _) eqn:Hex; [done|]. injection Hreq as <-.
    split; [done|]. split; [done|]. exists entries. split; [done|]. split; [done|]. split; [done|].
    split; [done|]. split.
    + intros k v Hkv. apply (Hall (k, type_of v)), lookup_document; eauto.
    + intros k f Hf Hrf. apply dec_stable. intros Hnot. apply not_true_iff_false in Hex. apply Hex.
      apply existsb_exists. exists f. rewrite Hrf. split; [apply list_elem_of_In, elem_of_btree_values; eauto|].
      apply negb_true_iff, bool_decide_eq_false. by rewrite document_names.
  - intros (-> & _ & entries & Hp & Hl & Hn & Hu & Hdecl & Hreq).
    eexists. split; [by exists entries|]. eexists. split; [split; [done|]|].
    + apply Forall_forall. intros [k t] (v & Hv & ->)%lookup_document; [by apply Hdecl|done].
    + destruct (existsb _ _) eqn:Hex; [|done]. exfalso.
      apply existsb_exists in Hex as (f & Hf & [Hr Hb]%andb_true_iff).
      apply list_elem_of_In, elem_of_btree_values in Hf as [k Hk].
      apply negb_true_iff, bool_decide_eq_false in Hb. apply Hb, document_names; eauto.
Qed.
