(* ===== verification/Kind.v ===== *)
(** * Kind: delivery kinds and the execution of one attempt

    kind.rs of [bondry-egress] and attempt.rs of [bondry-egress-runtime].  The traits
    [DeliveryKind] and [DeliveryOperation] are records of their methods; the wire types
    of [bondry-transport] that neither file looks into are the fields of [Wire].  Everything an attempt asks of its surroundings, the clocks, the
    secret provider and the transport under its timeout, is the interface [Surroundings];
    what it asks is recorded as a trace. *)

From S2P Require Import Prelude Text Secrets Identifiers DeliveryStore EgressLimits Lifecycle Payload.

Class Wire := {
  HttpRequest : Type;
  HttpResponse : Type;
  TransportError : Type;
}.

Inductive OperationMode := Emit | Call.
#[global] Instance OperationMode_eq_dec : EqDecision OperationMode.
Proof. solve_decision. Defined.

Record AttemptContext := mk_attempt_context {
  ctx_unix_ms : Z;
  ctx_deadline : Z;
}.

Inductive AttemptDisposition :=
| DispDelivered (md : option DeliveryResultMetadata)
| DispRetryable (failure : RetryableFailure)
| DispFailed (failure : DeliveryFailure)
| DispFailedWithResult (failure : DeliveryFailure) (md : DeliveryResultMetadata).

Inductive KindOperationError := KindUnsupportedOperation | KindInvalidEvent | KindUnavailable.
#[global] Instance KindOperationError_eq_dec : EqDecision KindOperationError.
Proof. solve_decision. Defined.

Section kind.
  Context `{W : Wire}.

(** [TransportCompletion::Http]. *)
Definition TransportCompletion : Type := result TransportError HttpResponse.

Inductive KindTransition :=
| KtHttp (request : HttpRequest)
| KtComplete (disposition : AttemptDisposition)
| KtCompleteWithResult (disposition : AttemptDisposition) (bytes : list byte).

(** A boxed [dyn DeliveryOperation]: its private state and its methods. *)
Record DeliveryOperation := mk_operation {
  op_private : Type;
  op_state : op_private;
  secret_references : op_private -> list SecretRef;
  op_start : op_private -> AttemptContext -> list ResolvedSecret -> KindTransition * op_private;
  op_resume : op_private -> AttemptContext -> TransportCompletion -> KindTransition * op_private;
}.

(** An [Arc<dyn DeliveryKind>]. *)
Record DeliveryKind := mk_kind {
  kind_name : rstr;
  target_summary : rstr;
  supports_call : bool;
  permits_automatic_retry : bool;
  max_payload_bytes : Z;
  kind_validate_payload : OperationMode -> list byte -> result KindOperationError unit;
  kind_operation : OperationMode -> DeliveryId -> list byte -> result KindOperationError DeliveryOperation;
}.

(** ** attempt.rs *)

Record AttemptCompletion := mk_completion {
  ac_disposition : AttemptDisposition;
  ac_result : option (list byte);
}.

(** [timed_send remaining request] is [None] when the timeout elapsed first. *)
Class Surroundings (E : Type) := {
  instant_now : E -> Z * E;
  system_time : E -> option Z * E;
  resolve_secret : SecretRef -> E -> result SecretProviderError ResolvedSecret * E;
  timed_send : Z -> HttpRequest -> E -> option TransportCompletion * E;
}.

(** What an attempt did: a request with the time left when it was submitted. *)
Inductive AttemptAction :=
| Resolved (r : SecretRef)
| Sent (remaining : Z) (request : HttpRequest).

Section attempt.
  Context `{Surroundings E}.

(** [system_time] is [SystemTime::now().duration_since(UNIX_EPOCH).ok()]. *)
Definition unix_milliseconds (e : E) : Z * E :=
  let '(elapsed, e) := system_time e in
  (match elapsed with
   | None => 0
   | Some elapsed => default U64_MAX (try_unsigned U64_MAX (as_millis elapsed))
   end, e).

Definition attempt_context (deadline : Z) (e : E) : AttemptContext * E :=
  let '(now, e) := unix_milliseconds e in (mk_attempt_context now deadline, e).

Definition completion (permits_retry : bool) (disposition : AttemptDisposition) : AttemptCompletion :=
  let disposition :=
    match disposition with
    | DispRetryable failure =>
        if permits_retry then disposition else DispFailed (failure_of_retryable failure)
    | _ => disposition
    end in
  mk_completion disposition None.

(** [.iter().map(|r| secrets.resolve(r)).collect::<Result<Vec<_>, _>>()]. *)
Fixpoint resolve_all (refs : list SecretRef) (e : E) :
    result SecretProviderError (list ResolvedSecret) * list AttemptAction * E :=
  match refs with
  | [] => (Ok [], [], e)
  | r :: refs =>
      match resolve_secret r e with
      | (Err err, e) => (Err err, [Resolved r], e)
      | (Ok s, e) =>
          let '(rest, tr, e) := resolve_all refs e in
          (ss ← rest; Ok (s :: ss), Resolved r :: tr, e)
      end
  end.

(** The guard on a [CompleteWithResult]. *)
Definition result_valid (disposition : AttemptDisposition) (bytes : list byte) : bool :=
  match disposition with
  | DispDelivered (Some md) => bool_decide (try_unsigned USIZE_MAX (result_bytes md) = Some (Z.of_nat (length bytes)))
  | _ => false
  end.

(** The [loop] on the transition; [None] when the fuel runs out. *)
Fixpoint attempt_loop (fuel : nat) (permits_retry : bool) (deadline : Z) (op : DeliveryOperation)
    (state : op_private op) (transition : KindTransition) (e : E) :
    option AttemptCompletion * list AttemptAction * E :=
  match fuel with
  | O => (None, [], e)
  | S fuel =>
      match transition with
      | KtComplete disposition => (Some (completion permits_retry disposition), [], e)
      | KtCompleteWithResult disposition bytes =>
          (Some (if result_valid disposition bytes then mk_completion disposition (Some bytes)
                 else completion permits_retry (DispFailed Internal)), [], e)
      | KtHttp request =>
          let '(now, e) := instant_now e in
          let remaining := sat_sub deadline now in
          if remaining =? 0
          then (Some (completion permits_retry (DispRetryable RetryDeadlineExceeded)), [], e)
          else
            match timed_send remaining request e with
            | (None, e) =>
                (Some (completion permits_retry (DispRetryable RetryDeadlineExceeded)),
                 [Sent remaining request], e)
            | (Some completed, e) =>
                let '(ctx, e) := attempt_context deadline e in
                let '(next, state) := op_resume op state ctx completed in
                let '(r, tr, e) := attempt_loop fuel permits_retry deadline op state next e in
                (r, Sent remaining request :: tr, e)
            end
      end
  end.

Definition execute_attempt (fuel : nat) (kind : DeliveryKind) (mode : OperationMode)
    (delivery : DeliveryId) (payload : list byte) (deadline : Z) (e : E) :
    option AttemptCompletion * list AttemptAction * E :=
  let permits_retry := permits_automatic_retry kind in
  match kind_operation kind mode delivery payload with
  | Err _ => (Some (completion permits_retry (DispFailed Internal)), [], e)
  | Ok op =>
      match resolve_all (secret_references op (op_state op)) e with
      | (Err SecretProviderUnavailable, tr, e) =>
          (Some (completion permits_retry (DispRetryable RetrySecretUnavailable)), tr, e)
      | (Err _, tr, e) =>
          (Some (completion permits_retry (DispFailed SecretUnavailable)), tr, e)
      | (Ok resolved, tr, e) =>
          let '(ctx, e) := attempt_context deadline e in
          let '(transition, state) := op_start op (op_state op) ctx resolved in
          let '(r, tr', e) := attempt_loop fuel permits_retry deadline op state transition e in
          (r, tr ++ tr', e)
      end
  end.

(** ** What one attempt guarantees *)

(** A completion the lifecycle may act on: retryable only for a kind that permits
    automatic retries; a result only with a delivery whose metadata counts its bytes. *)
Definition completion_ok (permits_retry : bool) (c : AttemptCompletion) : Prop :=
  (forall f, ac_disposition c = DispRetryable f -> permits_retry = true) /\
  (forall b, ac_result c = Some b -> exists md, ac_disposition c = DispDelivered (Some md) /\
     result_bytes md = Z.of_nat (length b)).

(** The operation asks for at most [n] more requests, whatever it is answered. *)
Fixpoint op_bounded (n : nat) (op : DeliveryOperation) (state : op_private op) (t : KindTransition) : Prop :=
  match t with
  | KtHttp _ =>
      match n with
      | O => False
      | S n => forall ctx c, op_bounded n op (op_resume op state ctx c).2 (op_resume op state ctx c).1
      end
  | _ => True
  end.

Definition sent_in_time (a : AttemptAction) : Prop :=
  match a with Sent remaining _ => 0 < remaining | Resolved _ => False end.

Lemma completion_is_ok permits_retry d : completion_ok permits_retry (completion permits_retry d).
Proof. split; [|done]. destruct d, permits_retry; simpl; naive_solver. Qed.

Lemma result_valid_ok permits_retry d bytes :
  result_valid d bytes = true -> completion_ok permits_retry (mk_completion d (Some bytes)).
Proof.
  unfold result_valid. destruct d as [[md|]| | |]; try done. rewrite bool_decide_eq_true. intros Hb.
  split; [done|]. simpl. intros b [= <-]. exists md. split; [done|].
  unfold try_unsigned in Hb. case_match; congruence.
Qed.

Lemma attempt_loop_returns n permits_retry deadline op state t e :
  op_bounded n op state t ->
  exists c sends e', attempt_loop (S n) permits_retry deadline op state t e = (Some c, sends, e') /\
    completion_ok permits_retry c /\ (length sends <= n)%nat /\ Forall sent_in_time sends.
Proof.
  assert (forall n c e', completion_ok permits_retry c -> exists c' sends e'',
    (Some c, @nil AttemptAction, e' : E) = (Some c', sends, e'') /\ completion_ok permits_retry c' /\
    (length sends <= n)%nat /\ Forall sent_in_time sends) as Hnil.
  { intros k c e' Hc. exists c, [], e'. split; [done|]. split; [done|]. split; [simpl; lia|apply Forall_nil_2]. }
  assert (forall d bytes, completion_ok permits_retry
    (if result_valid d bytes then mk_completion d (Some bytes) else completion permits_retry (DispFailed Internal))) as Hres.
  { intros d bytes. destruct (result_valid d bytes) eqn:Hv; auto using completion_is_ok, result_valid_ok. }
  revert state t e. induction n as [|n IH]; intros state t e Hb;
    (destruct t as [rq|d|d bytes]; [|by apply Hnil, completion_is_ok|by apply Hnil]); [done|].
  change (attempt_loop (S (S n)) permits_retry deadline op state (KtHttp rq) e) with
    (let '(now, e) := instant_now e in
     let remaining := sat_sub deadline now in
     if remaining =? 0
     then (Some (completion permits_retry (DispRetryable RetryDeadlineExceeded)), [], e)
     else
       match timed_send remaining rq e with
       | (None, e) => (Some (completion permits_retry (DispRetryable RetryDeadlineExceeded)), [Sent remaining rq], e)
       | (Some completed, e) =>
           let '(ctx, e) := attempt_context deadline e in
           let '(next, state) := op_resume op state ctx completed in
           let '(r, tr, e) := attempt_loop (S n) permits_retry deadline op state next e in
           (r, Sent remaining rq :: tr, e)
       end).
  destruct (instant_now e) as [now e1]. cbv zeta.
  destruct (Z.eqb_spec (sat_sub deadline now) 0) as [Hz|Hz].
  { apply Hnil, completion_is_ok. }
  assert (0 < sat_sub deadline now) as Hpos by (unfold sat_sub in *; lia).
  destruct (timed_send _ rq e1) as [[completed|] e2].
  - destruct (attempt_context deadline e2) as [ctx e3]. specialize (Hb ctx completed).
    destruct (op_resume op state ctx completed) as [next state1]. simpl in Hb.
    destruct (IH _ _ e3 Hb) as (c & sends & e4 & -> & Hc & Hl & Hf).
    eexists _, _, _. split; [done|]. split; [done|]. simpl. split; [lia|]. by constructor.
  - eexists _, _, _. split; [done|]. split; [apply completion_is_ok|]. simpl. split; [lia|]. by repeat constructor.
Qed.

Lemma resolve_all_trace refs e :
  exists rs, (resolve_all refs e).1.2 = Resolved <$> rs /\ rs `prefix_of` refs /\
    (is_ok (resolve_all refs e).1.1 = true -> rs = refs).
Proof.
  revert e. induction refs as [|r refs IH]; intros e; simpl; [by exists []|].
  destruct (resolve_secret r e) as [[s|err] e1]; simpl.
  - destruct (IH e1) as (rs & Htr & Hp & Hall). destruct (resolve_all refs e1) as [[rest tr] e2]. simpl in *.
    exists (r :: rs). subst tr. split; [done|]. split; [by apply prefix_cons|].
    destruct rest; [|done]. intros _. by rewrite Hall.
  - exists [r]. split; [done|]. split; [apply prefix_cons, prefix_nil|done].
Qed.

(** one attempt.  When the kind's operation asks for at most [n] requests, the
    attempt returns after at most [n] of them; it resolves the declared secrets in
    order before anything is sent, sends nothing unless every one was resolved, and
    submits each request strictly before the deadline; what it reports is retryable
    only for a kind that permits retries, and carries a result only for a delivery
    whose metadata counts exactly its bytes. *)
Theorem attempt_guarantees n kind mode delivery payload deadline e :
  (forall op, kind_operation kind mode delivery payload = Ok op ->
     forall ctx ss, op_bounded n op (op_start op (op_state op) ctx ss).2 (op_start op (op_state op) ctx ss).1) ->
  exists c resolved sends e',
    execute_attempt (S n) kind mode delivery payload deadline e =
      (Some c, (Resolved <$> resolved) ++ sends, e') /\
    completion_ok (permits_automatic_retry kind) c /\
    (length sends <= n)%nat /\ Forall sent_in_time sends /\
    (sends <> [] -> exists op, kind_operation kind mode delivery payload = Ok op /\
       resolved = secret_references op (op_state op)).
Proof.
  intros Hb. unfold execute_attempt.
  destruct (kind_operation kind mode delivery payload) as [op|err].
  2:{ eexists _, [], [], _. split; [done|]. split; [apply completion_is_ok|].
      split; [simpl; lia|]. split; [constructor|done]. }
  destruct (resolve_all_trace (secret_references op (op_state op)) e) as (rs & Htr & _ & Hall).
  destruct (resolve_all _ e) as [[[ss|[]] tr] e1]; simpl in Htr, Hall; subst tr.
  2-4: eexists _, rs, [], _; rewrite app_nil_r; split; [done|]; split; [apply completion_is_ok|];
    split; [simpl; lia|]; split; [constructor|done].
  destruct (attempt_context deadline e1) as [ctx e2]. specialize (Hb op eq_refl ctx ss).
  destruct (op_start op (op_state op) ctx ss) as [t state]. simpl in Hb.
  destruct (attempt_loop_returns n (permits_automatic_retry kind) deadline op state t e2 Hb)
    as (c & sends & e' & -> & Hc & Hl & Hf).
  exists c, rs, sends, e'. split; [done|]. split; [done|]. split; [done|]. split; [done|].
  intros _. exists op. auto.
Qed.

End attempt.
End kind.

(** *** Witness: a kind that signs with one secret and sends one request *)

#[local] Instance ex_wire : Wire := {
  HttpRequest := rstr; HttpResponse := Z; TransportError := unit;
}.

Definition ex_operation : DeliveryOperation :=
  mk_operation unit tt (fun _ => [mk_secret_ref (str "signing")])
    (fun s _ _ => (KtHttp (str "POST"), s))
    (fun s _ c => (KtComplete (match c with Ok 200 => DispDelivered None | _ => DispRetryable RetryReceiverRejected end), s)).

Definition ex_kind : DeliveryKind :=
  mk_kind (str "mock") (str "target") false true 1024 (fun _ _ => Ok tt) (fun _ _ _ => Ok ex_operation).

(** The surroundings of the example count nanoseconds; every request is answered 200. *)
#[local] Instance ex_surroundings : Surroundings Z := {
  instant_now e := (e, e + 1);
  system_time e := (Some e, e);
  resolve_secret _ e := (Ok (ResolvedSecret_current (mk_secret [42])), e);
  timed_send _ _ e := (Some (Ok 200), e + 5);
}.

Lemma ex_kind_bounded op : kind_operation ex_kind Emit (mk_id (str "d")) [] = Ok op ->
  forall ctx ss, op_bounded 1 op (op_start op (op_state op) ctx ss).2 (op_start op (op_state op) ctx ss).1.
Proof. intros [= <-]. simpl. done. Defined.

Lemma attempt_guarantees_witness :
  exists c resolved sends e',
    execute_attempt 2 ex_kind Emit (mk_id (str "d")) [] 100 (0 : Z) = (Some c, (Resolved <$> resolved) ++ sends, e') /\
    completion_ok true c /\ (length sends <= 1)%nat.
Proof.
  destruct (attempt_guarantees 1 ex_kind Emit (mk_id (str "d")) [] 100 (0 : Z) ex_kind_bounded)
    as (c & rs & sends & e' & H1 & H2 & H3 & _).
  exists c, rs, sends, e'. split; [exact H1|]. split; [exact H2|exact H3].
Defined.
