(* ===== verification/WebhookKind.v ===== *)
(** * WebhookKind: outbound webhooks

    [bondry-egress-webhook]: limits.rs, the URL templates of template.rs, and webhook.rs, a
    delivery kind in the sense of Kind.v over the transport of Transport.v.  The operation of
    one attempt is a machine of three states; its request is composed of the configuration,
    the delivery, the payload and the resolved secret. *)

From S2P Require Import Prelude Text Bytes Crypto HttpLib Transport NetTransport Secrets Identifiers DeliveryStore Dedup EgressLimits Lifecycle Payload Kind WebhookVerify.

Abbreviation EndpointPolicy := Transport.EndpointPolicy.

(** ** limits.rs *)

Definition DEFAULT_WEBHOOK_BODY_BYTES : Z := 32 * 1024.
Definition MIN_WEBHOOK_BODY_BYTES : Z := 1024.
Definition MAX_WEBHOOK_BODY_BYTES : Z := MAX_HTTP_REQUEST_BODY_BYTES.
Definition DEFAULT_URL_TEMPLATE_BYTES : Z := 1024.
Definition MAX_URL_TEMPLATE_BYTES : Z := 2 * 1024.
Definition DEFAULT_EXPANDED_URL_BYTES : Z := 2 * 1024.
Definition MAX_EXPANDED_URL_BYTES : Z := MAX_NETWORK_ENDPOINT_BYTES.

Inductive WebhookLimitError := WebhookLimitBody | WebhookLimitResponseBody | WebhookLimitUrlTemplate | WebhookLimitExpandedUrl.

Record UrlTemplateLimits := mk_template_limits { template_bytes : Z; expanded_bytes : Z }.

Definition UrlTemplateLimits_new (template expanded : Z) : result WebhookLimitError UrlTemplateLimits :=
  if (template =? 0) || (MAX_URL_TEMPLATE_BYTES <? template) then Err WebhookLimitUrlTemplate
  else if (expanded =? 0) || (MAX_EXPANDED_URL_BYTES <? expanded) then Err WebhookLimitExpandedUrl
  else Ok (mk_template_limits template expanded).
Definition UrlTemplateLimits_default : UrlTemplateLimits :=
  mk_template_limits DEFAULT_URL_TEMPLATE_BYTES DEFAULT_EXPANDED_URL_BYTES.

Record WebhookLimits := mk_webhook_limits { webhook_body_bytes : Z; webhook_response : HttpLimits }.

Definition WebhookLimits_new (body_bytes response_body_bytes : Z) : result WebhookLimitError WebhookLimits :=
  if negb (in_range MIN_WEBHOOK_BODY_BYTES MAX_WEBHOOK_BODY_BYTES body_bytes) then Err WebhookLimitBody
  else
    response ← map_err (fun _ => WebhookLimitResponseBody) (HttpLimits_new response_body_bytes);
    Ok (mk_webhook_limits body_bytes response).
Definition WebhookLimits_default : WebhookLimits := mk_webhook_limits DEFAULT_WEBHOOK_BODY_BYTES HttpLimits_default.

(** ** Text of the standard library *)

(** The text before and after the first occurrence of [p]. *)
Fixpoint find_str (p s : rstr) : option (rstr * rstr) :=
  match strip_prefix p s with
  | Some rest => Some ([], rest)
  | None => match s with
            | [] => None
            | c :: s => '(before, after) ← find_str p s; Some (c :: before, after)
            end
  end.

(** [match_indices(p).count()]: occurrences that do not overlap; each takes a character of
    a non-empty pattern, so the length of the text is enough fuel. *)
Fixpoint count_str (fuel : nat) (p s : rstr) : nat :=
  match fuel with
  | O => O
  | S fuel => match find_str p s with Some (_, rest) => S (count_str fuel p rest) | None => O end
  end.
Definition match_count (p s : rstr) : nat := count_str (S (length s)) p s.

Definition contains_str (p s : rstr) : bool := bool_decide (is_Some (find_str p s)).
(** [replacen(p, w, 1)]. *)
Definition replace_first (p w s : rstr) : rstr :=
  match find_str p s with Some (before, after) => before ++ w ++ after | None => s end.
(** [split_once(c)]. *)
Definition split_once (c : char) (s : rstr) : option (rstr * rstr) :=
  '(before, rest) ← split_at_first (fun d => d =? c) s; Some (before, drop 1 rest).

(** ** template.rs *)

Definition SECRET_URL_PLACEHOLDER : rstr := str "{secret}".
Definition PARSE_SENTINEL : rstr := str "bondry-secret-placeholder-8c09e98d".

Inductive UrlTemplateError :=
| TemplateLength | PlaceholderCount | AmbiguousTemplate | FragmentForbidden | TemplateInvalidEndpoint
| PlaceholderPosition | ExpandedLength | InvalidExpansion | OriginChanged.

Definition HEX_UPPER : list Z := str "0123456789ABCDEF".

Definition is_unreserved (byte : Z) : bool :=
  is_ascii_alphanumeric byte || (byte =? 45) || (byte =? 46) || (byte =? 95) || (byte =? 126).

Definition percent_encode (bytes : list byte) : rstr :=
  flat_map (fun byte => if is_unreserved byte then [byte]
                        else [37; nth (Z.to_nat (Z.shiftr byte 4)) HEX_UPPER 0; nth (Z.to_nat (Z.land byte 0xf)) HEX_UPPER 0]) bytes.

Section Templates.
  Context `{U : UriCrate}.

Record SecretUrlTemplate := mk_template {
  template_redacted : rstr;
  template_reference : SecretRef;
  template_parsed : NetworkEndpoint;
  template_limits : UrlTemplateLimits;
}.

Definition placeholder_is_complete (uri : Uri) : bool :=
  let path_matches := length (filter (fun segment => segment = PARSE_SENTINEL) (split 47 (uri_path uri))) in
  let query_matches :=
    match uri_query uri with
    | None => O
    | Some query => length (filter (fun pair => snd <$> split_once 61 pair = Some PARSE_SENTINEL) (split 38 query))
    end in
  (path_matches + query_matches =? 1)%nat.

Definition SecretUrlTemplate_new (redacted : rstr) (reference : SecretRef) (limits : UrlTemplateLimits)
    : result UrlTemplateError SecretUrlTemplate :=
  if bool_decide (redacted = []) || (template_bytes limits <? str_len redacted) then Err TemplateLength
  else if bool_decide (35 ∈ redacted) then Err FragmentForbidden
  else if contains_str PARSE_SENTINEL redacted then Err AmbiguousTemplate
  else if negb (match_count SECRET_URL_PLACEHOLDER redacted =? 1)%nat then Err PlaceholderCount
  else
    let parseable := replace_first SECRET_URL_PLACEHOLDER PARSE_SENTINEL redacted in
    uri ← ok_or (uri_parse parseable) TemplateInvalidEndpoint;
    if negb (placeholder_is_complete uri) then Err PlaceholderPosition
    else
      parsed ← map_err (fun _ => TemplateInvalidEndpoint) (NetworkEndpoint_new uri);
      match endpoint_scheme parsed with
      | SchemeHttp | SchemeHttps => Ok (mk_template redacted reference parsed limits)
      | _ => Err TemplateInvalidEndpoint
      end.

(** [same_origin] of template.rs. *)
Definition template_same_origin (configured expanded : NetworkEndpoint) : bool :=
  bool_decide (scheme_str (endpoint_uri configured) = scheme_str (endpoint_uri expanded)) &&
  bool_decide (authority (endpoint_uri configured) = authority (endpoint_uri expanded)).

Definition template_expand (t : SecretUrlTemplate) (secret : ResolvedSecret) : result UrlTemplateError NetworkEndpoint :=
  let encoded := percent_encode (expose (current_value secret)) in
  let expanded := replace_first SECRET_URL_PLACEHOLDER encoded (template_redacted t) in
  if expanded_bytes (template_limits t) <? str_len expanded then Err ExpandedLength
  else
    uri ← ok_or (uri_parse expanded) InvalidExpansion;
    endpoint ← map_err (fun _ => InvalidExpansion) (NetworkEndpoint_new uri);
    if negb (template_same_origin (template_parsed t) endpoint) then Err OriginChanged else Ok endpoint.

End Templates.

(** ** webhook.rs *)

Inductive WebhookAuthentication :=
| AuthenticationNone
| AuthenticationBearer (reference : SecretRef)
| AuthenticationHmac (reference : SecretRef).

Inductive WebhookConfigurationError := WebhookUnsupportedScheme.

Inductive OperationState := OpReady | OpAwaitingHttp | OpComplete.
#[global] Instance OperationState_eq_dec : EqDecision OperationState.
Proof. solve_decision. Defined.

Section Webhooks.
  Context `{U : UriCrate} `{HC : HeaderCrate} `{HM : HmacSha256}.

#[global] Instance transport_wire : Wire := {|
  Kind.HttpRequest := Transport.HttpRequest;
  Kind.HttpResponse := Transport.HttpResponse;
  Kind.TransportError := Transport.TransportError;
|}.

Inductive WebhookTarget :=
| TargetFixed (endpoint : NetworkEndpoint)
| TargetTemplate (template : SecretUrlTemplate).

(** [WebhookDeliveryKind] is a shared [WebhookConfiguration]. *)
Record WebhookConfiguration := mk_webhook_configuration {
  wc_target : WebhookTarget;
  wc_authentication : WebhookAuthentication;
  wc_policy : EndpointPolicy;
  wc_limits : WebhookLimits;
  wc_summary : rstr;
}.

(** [redacted_origin] of webhook.rs. *)
Definition webhook_origin (endpoint : NetworkEndpoint) : rstr :=
  default [] (scheme_str (endpoint_uri endpoint)) ++ str "://" ++ default [] (authority (endpoint_uri endpoint)).

Definition WebhookDeliveryKind_new (endpoint : NetworkEndpoint) (authentication : WebhookAuthentication)
    (policy : EndpointPolicy) (limits : WebhookLimits) : result WebhookConfigurationError WebhookConfiguration :=
  match endpoint_scheme endpoint with
  | SchemeHttp | SchemeHttps =>
      Ok (mk_webhook_configuration (TargetFixed endpoint) authentication policy limits (webhook_origin endpoint))
  | _ => Err WebhookUnsupportedScheme
  end.

Definition WebhookDeliveryKind_with_url_template (template : SecretUrlTemplate) (policy : EndpointPolicy)
    (limits : WebhookLimits) : WebhookConfiguration :=
  mk_webhook_configuration (TargetTemplate template) AuthenticationNone policy limits (template_redacted template).

Definition secret_reference (c : WebhookConfiguration) : option SecretRef :=
  match wc_target c, wc_authentication c with
  | TargetTemplate template, AuthenticationNone => Some (template_reference template)
  | TargetFixed _, AuthenticationBearer reference | TargetFixed _, AuthenticationHmac reference => Some reference
  | TargetFixed _, AuthenticationNone => None
  | TargetTemplate _, _ => None
  end.

Definition webhook_validate_payload (c : WebhookConfiguration) (mode : OperationMode) (payload : list byte)
    : result KindOperationError unit :=
  if negb (bool_decide (mode = Emit)) then Err KindUnsupportedOperation
  else if webhook_body_bytes (wc_limits c) <? Z.of_nat (length payload) then Err KindInvalidEvent
  else Ok ().

Definition failed_secret : AttemptDisposition := DispFailed SecretUnavailable.
Definition failed_internal : AttemptDisposition := DispFailed Internal.

(** Bytes of a bearer token before its padding. *)
Definition is_token_byte (byte : Z) : bool := is_unreserved byte || (byte =? 43) || (byte =? 47).

Definition bearer_header (secret : ResolvedSecret) : result AttemptDisposition HeaderValue :=
  let token := expose (current_value secret) in
  let '(head, padding) := match split_at_first (fun b => b =? 61) token with Some p => p | None => (token, []) end in
  if bool_decide (head = []) || negb (forallb is_token_byte head) || negb (forallb (fun b => b =? 61) padding)
  then Err failed_secret
  else ok_or (value_from_bytes (str "Bearer " ++ token)) failed_secret.

Definition classify_status (status : Z) : AttemptDisposition :=
  if is_success status then DispDelivered None
  else if (status =? 408) || (status =? 425) || (status =? 429) || is_server_error status
  then DispRetryable RetryReceiverRejected
  else DispFailed ReceiverRejected.

Definition classify_request_error (error : Transport.TransportError) : AttemptDisposition :=
  match error with
  | TransportRequestTooLarge | TransportInvalidLimits | TransportUnsupportedEndpoint | TransportInvalidMessage => failed_internal
  | TransportPolicy _ | TransportTlsFailed => DispFailed DeliveryStore.EndpointPolicy
  | TransportResponseTooLarge | TransportDeadlineExceeded | TransportConnectionFailed | TransportInvalidResponse => failed_internal
  end.

Definition classify_transport (error : Transport.TransportError) : AttemptDisposition :=
  match error with
  | TransportDeadlineExceeded => DispRetryable RetryDeadlineExceeded
  | TransportConnectionFailed | TransportInvalidResponse => DispRetryable RetryTransportUnavailable
  | TransportPolicy _ | TransportTlsFailed => DispFailed DeliveryStore.EndpointPolicy
  | TransportResponseTooLarge => DispFailed ReceiverRejected
  | TransportRequestTooLarge | TransportInvalidLimits | TransportUnsupportedEndpoint | TransportInvalidMessage => failed_internal
  end.

(** Where the request goes. *)
Definition request_endpoint (c : WebhookConfiguration) (secret : option ResolvedSecret) : result AttemptDisposition NetworkEndpoint :=
  match wc_target c with
  | TargetFixed endpoint => Ok endpoint
  | TargetTemplate template =>
      secret ← ok_or secret failed_secret;
      map_err (fun _ => failed_secret) (template_expand template secret)
  end.

(** The [match] on the authentication. *)
Definition authenticate_headers (c : WebhookConfiguration) (delivery : DeliveryId) (payload : list byte)
    (context : AttemptContext) (secret : option ResolvedSecret) (headers : HeaderMap) : result AttemptDisposition HeaderMap :=
  match wc_authentication c with
  | AuthenticationNone => Ok headers
  | AuthenticationBearer _ =>
      secret ← ok_or secret failed_secret;
      value ← bearer_header secret;
      Ok (headers_insert AUTHORIZATION (set_sensitive value) headers)
  | AuthenticationHmac _ =>
      timestamp ← ok_or (try_i64 (ctx_unix_ms context / 1000)) failed_internal;
      let signing_input := mk_signing_input timestamp (as_bytes (as_str delivery)) payload in
      secret ← ok_or secret failed_secret;
      let signature := sign_webhook (current_value secret) signing_input in
      timestamp ← ok_or (value_from_str (i64_to_string timestamp)) failed_internal;
      let headers := headers_insert BONDRY_WEBHOOK_TIMESTAMP_HEADER timestamp headers in
      value ← ok_or (value_from_str (HmacSignature_to_hex signature)) failed_internal;
      Ok (headers_insert BONDRY_WEBHOOK_SIGNATURE_HEADER (set_sensitive value) headers)
  end.

(** [HeaderValue::from_static]. *)
Definition APPLICATION_JSON : HeaderValue := mk_header_value (str "application/json") false.

Definition compose_request (c : WebhookConfiguration) (delivery : DeliveryId) (payload : list byte)
    (context : AttemptContext) (secrets : list ResolvedSecret) : result AttemptDisposition Transport.HttpRequest :=
  let expected_secrets := match secret_reference c with Some _ => 1%nat | None => O end in
  if negb (length secrets =? expected_secrets)%nat then Err failed_secret
  else
    let secret := head secrets in
    endpoint ← request_endpoint c secret;
    let headers := headers_insert CONTENT_TYPE APPLICATION_JSON headers_new in
    id ← ok_or (value_from_str (as_str delivery)) failed_internal;
    let headers := headers_insert BONDRY_WEBHOOK_DELIVERY_ID_HEADER id headers in
    headers ← authenticate_headers c delivery payload context secret headers;
    map_err classify_request_error
      (HttpRequest_new METHOD_POST endpoint headers payload (ctx_deadline context) (wc_policy c) (webhook_response (wc_limits c))).

Definition webhook_start (c : WebhookConfiguration) (delivery : DeliveryId) (payload : list byte) (state : OperationState)
    (context : AttemptContext) (secrets : list ResolvedSecret) : KindTransition * OperationState :=
  if negb (bool_decide (state = OpReady)) then (KtComplete failed_internal, OpComplete)
  else match compose_request c delivery payload context secrets with
       | Ok request => (KtHttp request, OpAwaitingHttp)
       | Err disposition => (KtComplete disposition, OpComplete)
       end.

Definition webhook_resume (state : OperationState) (context : AttemptContext) (completion : TransportCompletion)
    : KindTransition * OperationState :=
  if negb (bool_decide (state = OpAwaitingHttp)) then (KtComplete failed_internal, state)
  else (KtComplete (match completion with
                    | Ok response => classify_status (rs_status response)
                    | Err error => classify_transport error
                    end), OpComplete).

Definition webhook_operation (c : WebhookConfiguration) (delivery : DeliveryId) (payload : list byte) : DeliveryOperation :=
  mk_operation OperationState OpReady (fun _ => option_list (secret_reference c)) (webhook_start c delivery payload) webhook_resume.

(** [impl DeliveryKind for WebhookDeliveryKind]. *)
Definition webhook_kind (c : WebhookConfiguration) : DeliveryKind :=
  mk_kind (str "webhook") (wc_summary c) false true (webhook_body_bytes (wc_limits c)) (webhook_validate_payload c)
    (fun mode delivery payload => _ ← webhook_validate_payload c mode payload; Ok (webhook_operation c delivery payload)).

End Webhooks.

(** ** Templates *)

(** The inverse of [percent_encode]. *)
Definition hex_value (c : Z) : option Z :=
  if in_range 48 57 c then Some (c - 48) else if in_range 65 70 c then Some (c - 55) else None.
Fixpoint percent_decode (s : rstr) : option (list byte) :=
  match s with
  | [] => Some []
  | c :: r =>
      if c =? 37 then
        match r with
        | h :: l :: r => h ← hex_value h; l ← hex_value l; bytes ← percent_decode r; Some (h * 16 + l :: bytes)
        | _ => None
        end
      else bytes ← percent_decode r; Some (c :: bytes)
  end.

Lemma find_str_Some p s before after : find_str p s = Some (before, after) -> s = before ++ p ++ after.
Proof.
  revert before after. induction s as [|c s IH]; intros before after; cbn [find_str].
  - destruct (strip_prefix p []) as [rest|] eqn:Hs; [|done]. intros [= <- <-]. by apply strip_prefix_Some in Hs.
  - destruct (strip_prefix p (c :: s)) as [rest|] eqn:Hs; [intros [= <- <-]; by apply strip_prefix_Some in Hs|].
    destruct (find_str p s) as [[b a]|]; [|done]. intros [= <- <-]. simpl. f_equal. by apply IH.
Qed.

Lemma match_count_one p s :
  p <> [] -> match_count p s = 1%nat -> exists before after, find_str p s = Some (before, after) /\ find_str p after = None.
Proof.
  intros Hp. unfold match_count. cbn [count_str]. destruct (find_str p s) as [[before after]|] eqn:Hf; [|done].
  intros [= Hc]. exists before, after. split; [done|]. apply find_str_Some in Hf. destruct s as [|c s].
  { destruct before, p; done. }
  cbn [count_str length] in Hc. destruct (find_str p after) as [[]|]; [done|done].
Qed.

(** One octet, checked on all of them. *)
Lemma percent_octet b : is_octet b -> exists e,
  (if is_unreserved b then [b] else [37; nth (Z.to_nat (Z.shiftr b 4)) HEX_UPPER 0; nth (Z.to_nat (Z.land b 0xf)) HEX_UPPER 0]) = e /\
  Forall (fun c => is_unreserved c = true \/ c = 37) e /\
  forall rest, percent_decode (e ++ rest) = bytes ← percent_decode rest; Some (b :: bytes).
Proof.
  set (f b := if is_unreserved b then negb (b =? 37)
    else let h := nth (Z.to_nat (Z.shiftr b 4)) HEX_UPPER 0 in let l := nth (Z.to_nat (Z.land b 0xf)) HEX_UPPER 0 in
         is_unreserved h && is_unreserved l &&
         match hex_value h, hex_value l with Some h, Some l => h * 16 + l =? b | _, _ => false end).
  intros Hb. assert (f b = true) as Hf by (revert b Hb; apply octet_check; by vm_compute). unfold f in Hf.
  eexists. split; [done|]. destruct (is_unreserved b) eqn:Hu.
  - split; [apply Forall_singleton; by left|]. intros rest. cbn [app percent_decode]. bools. by rewrite (proj2 (Z.eqb_neq b 37)).
  - apply andb_true_iff in Hf as [[Hh Hl]%andb_true_iff Hv]. split; [rewrite !Forall_cons; by auto|]. intros rest.
    cbn [app percent_decode]. change (37 =? 37) with true. cbn iota.
    destruct (hex_value (nth (Z.to_nat (Z.shiftr b 4)) _ _)) as [h|]; [|done].
    destruct (hex_value _) as [l|]; [|done]. apply Z.eqb_eq in Hv. simpl. by rewrite Hv.
Qed.

Lemma percent_encode_spec bytes :
  Forall is_octet bytes ->
  Forall (fun c => is_unreserved c = true \/ c = 37) (percent_encode bytes) /\ percent_decode (percent_encode bytes) = Some bytes.
Proof.
  induction 1 as [|b bytes Hb _ [IH1 IH2]]; [done|]. destruct (percent_octet b Hb) as (e & He & Hc & Hd).
  unfold percent_encode in *. cbn [flat_map]. rewrite He. split; [by apply Forall_app|]. by rewrite Hd, IH2.
Qed.

(** Where a text is not found, it does not occur. *)
Lemma find_str_None p x y : find_str p (x ++ p ++ y) <> None.
Proof.
  assert (forall s, find_str p s = match strip_prefix p s with
    | Some rest => Some ([], rest)
    | None => match s with [] => None | c :: s => '(before, after) ← find_str p s; Some (c :: before, after) end
    end) as Hfind by (by intros []).
  induction x as [|c x IH]; rewrite Hfind; cbn [app]; [by rewrite strip_prefix_app|].
  destruct (strip_prefix p _); [done|]. by destruct (find_str p (x ++ p ++ y)) as [[]|].
Qed.

(** No beginning of the text is an end of it. *)
Definition borderless (p : rstr) : Prop := forall d, (0 < d < length p)%nat -> take (length p - d) p <> drop d p.

Lemma sentinel_borderless : borderless PARSE_SENTINEL.
Proof.
  assert (Forall (fun d => take (length PARSE_SENTINEL - d) PARSE_SENTINEL <> drop d PARSE_SENTINEL) (seq 1 (length PARSE_SENTINEL - 1))) as Hall
    by (apply (bool_decide_unpack _); by vm_compute).
  intros d Hd. rewrite Forall_forall in Hall. apply Hall, elem_of_seq. lia.
Qed.

(** So two occurrences of it do not overlap. *)
Lemma borderless_apart p l y z :
  borderless p -> l <> [] -> p ++ y = l ++ p ++ z -> exists l', l = p ++ l' /\ y = l' ++ p ++ z.
Proof.
  intros Hp Hl (l' & [[Hpl Hz]|[-> ->]])%app_eq_app; [|by exists l']. destruct l' as [|c l'].
  { rewrite app_nil_r in Hpl. subst l. exists []. by rewrite app_nil_r. }
  destruct (Hp (length l)).
  { destruct l; [done|]. apply (f_equal length) in Hpl. rewrite length_app in Hpl. cbn in *. lia. }
  assert (length p - length l = length (c :: l'))%nat as Hlen by (rewrite Hpl at 1; rewrite length_app; lia).
  rewrite Hlen. rewrite Hpl at 2. rewrite drop_app_length. apply (f_equal (take (length (c :: l')))) in Hz.
  rewrite take_app_length, take_app_le in Hz; [done|]. rewrite Hpl, length_app. lia.
Qed.

Lemma sentinel_unique before placeholder after x y :
  find_str PARSE_SENTINEL (before ++ placeholder ++ after) = None ->
  before ++ PARSE_SENTINEL ++ after = x ++ PARSE_SENTINEL ++ y -> before = x /\ after = y.
Proof.
  intros Hnone Heq. assert (forall u v, before ++ placeholder ++ after <> u ++ PARSE_SENTINEL ++ v) as Hno.
  { intros u v Huv. rewrite Huv in Hnone. by apply find_str_None in Hnone. }
  apply app_eq_app in Heq as (l & [[-> Hs]|[-> Hs]]).
  - destruct (decide (l = [])) as [->|Hl]; [rewrite app_nil_r; cbn [app] in Hs; by apply app_inv_head in Hs|].
    apply borderless_apart in Hs as (l' & -> & _); [|apply sentinel_borderless|done]. destruct (Hno x (l' ++ placeholder ++ after)). by rewrite <- !app_assoc.
  - destruct (decide (l = [])) as [->|Hl]; [rewrite app_nil_r; cbn [app] in Hs; by apply app_inv_head in Hs|].
    apply borderless_apart in Hs as (l' & _ & ->); [|apply sentinel_borderless|done]. destruct (Hno (before ++ placeholder ++ l') y). by rewrite <- !app_assoc.
Qed.

(** A path and a query are told apart by the first question mark. *)
Definition query_text (q : option rstr) : rstr := match q with Some q => 63 :: q | None => [] end.
Lemma query_text_inj p q p' q' : (63 ∉ p) -> (63 ∉ p') -> p ++ query_text q = p' ++ query_text q' -> p = p' /\ q = q'.
Proof.
  revert p'. induction p as [|c p IH]; intros [|d p'] Hp Hp'; cbn [app].
  - destruct q, q'; cbn; intros; by simplify_eq.
  - destruct q; cbn; intros; simplify_eq. by destruct Hp'; left.
  - destruct q'; cbn; intros; simplify_eq. by destruct Hp; left.
  - apply not_elem_of_cons in Hp as [_ Hp]. apply not_elem_of_cons in Hp' as [_ Hp']. intros [= -> Heq]. by destruct (IH p' Hp Hp' Heq) as [-> ->].
Qed.

Lemma split_once_Some c s x y : split_once c s = Some (x, y) -> s = x ++ c :: y /\ (c ∉ x).
Proof.
  unfold split_once. destruct (split_at_first _ s) as [[b r]|] eqn:Hs; [|done]. cbn. intros [= <- <-].
  apply split_at_first_Some in Hs as (-> & Hx & e & r' & -> & ->%Z.eqb_eq). split; [done|].
  rewrite Forall_forall in Hx. intros Hc%Hx. by rewrite Z.eqb_refl in Hc.
Qed.

Section template_facts.
  Context `{U : UriCrate}.

(** One whole segment of the path, or the value of one parameter of the query, is the encoding
    where it was the placeholder's stand-in, and everything else of the two is the same. *)
Definition replaces_component (encoded : rstr) (u v : Uri) : Prop :=
  (exists l1 l2, split 47 (uri_path u) = l1 ++ PARSE_SENTINEL :: l2 /\ split 47 (uri_path v) = l1 ++ encoded :: l2) /\ uri_query v = uri_query u \/
  uri_path v = uri_path u /\
  exists q q' l1 key l2, uri_query u = Some q /\ uri_query v = Some q' /\ (61 ∉ key) /\
    split 38 q = l1 ++ (key ++ 61 :: PARSE_SENTINEL) :: l2 /\ split 38 q' = l1 ++ (key ++ 61 :: encoded) :: l2.

Lemma placeholder_component u :
  placeholder_is_complete u = true ->
  (exists l1 l2, split 47 (uri_path u) = l1 ++ PARSE_SENTINEL :: l2) \/
  exists q l1 key l2, uri_query u = Some q /\ (61 ∉ key) /\ split 38 q = l1 ++ (key ++ 61 :: PARSE_SENTINEL) :: l2.
Proof.
  unfold placeholder_is_complete. intros Hone%Nat.eqb_eq.
  destruct (filter _ (split 47 (uri_path u))) as [|seg segs] eqn:Hpath.
  - right. destruct (uri_query u) as [q|]; [|done]. destruct (filter _ (split 38 q)) as [|pair pairs] eqn:Hq; [done|].
    assert (pair ∈ filter (fun pair => snd <$> split_once 61 pair = Some PARSE_SENTINEL) (split 38 q)) as [Hp Hin]%list_elem_of_filter
      by (rewrite Hq; by left).
    apply fmap_Some in Hp as ([key value] & Hp & ->). apply split_once_Some in Hp as [-> Hkey]. apply list_elem_of_split in Hin as (l1 & l2 & Hl).
    by exists q, l1, key, l2.
  - left. assert (seg ∈ filter (fun segment => segment = PARSE_SENTINEL) (split 47 (uri_path u))) as [-> Hin]%list_elem_of_filter by (rewrite Hpath; by left).
    by apply list_elem_of_split in Hin.
Qed.

Context {UT : UriTextSpec}.

Lemma expanded_component before placeholder after encoded u v scheme a :
  uri_parse (before ++ PARSE_SENTINEL ++ after) = Some u -> uri_parse (before ++ encoded ++ after) = Some v ->
  35 ∉ before ++ after -> (forall c, c ∈ str "#/?&" -> c ∉ encoded) ->
  scheme_str u = Some scheme -> scheme_str v = Some scheme -> authority u = Some a -> authority v = Some a ->
  find_str PARSE_SENTINEL (before ++ placeholder ++ after) = None -> placeholder_is_complete u = true ->
  replaces_component encoded u v.
Proof.
  intros Hu Hv Hfrag Henc Hsu Hsv Hau Hav Hnone Hplace.
  assert (35 ∉ PARSE_SENTINEL) as Hsent by (apply (bool_decide_unpack _); by vm_compute).
  assert ((35 ∉ encoded) /\ (47 ∉ encoded) /\ (63 ∉ encoded) /\ 38 ∉ encoded) as (He35 & He47 & He63 & He38)
    by (split_and!; apply Henc; apply (bool_decide_unpack _); by vm_compute).
  destruct (uri_text _ _ _ _ Hu ltac:(rewrite !not_elem_of_app in *; tauto) Hsu Hau) as (text1 & path1 & Ht1 & Hl1 & Hq1 & Hroot1 & Hp1).
  destruct (uri_text _ _ _ _ Hv ltac:(rewrite !not_elem_of_app in *; tauto) Hsv Hav) as (text2 & path2 & Ht2 & Hl2 & Hq2 & _ & Hp2).
  fold (query_text (uri_query u)) in Ht1. fold (query_text (uri_query v)) in Ht2.
  assert (forall x y, path1 ++ query_text (uri_query u) = x ++ PARSE_SENTINEL ++ y -> path2 ++ query_text (uri_query v) = x ++ encoded ++ y) as Hswap.
  { intros x y Hxy. rewrite Hxy in Ht1. destruct (sentinel_unique before placeholder after (text1 ++ str "://" ++ a ++ x) y) as [Hb ->]; [done|by rewrite Ht1, <- !app_assoc|].
    rewrite Hb, <- !app_assoc in Ht2. apply app_inj_1 in Ht2 as [_ Ht2]; [|congruence]. by apply app_inv_head, app_inv_head in Ht2. }
  destruct (placeholder_component u Hplace) as [(l1 & l2 & Hsplit)|(q & l1 & key & l2 & Hq & Hkey & Hsplit)].
  - left. destruct (decide (path1 = [])) as [->|Hne].
    { rewrite Hp1 in Hsplit. assert (PARSE_SENTINEL ∈ split 47 (str "/")) as Hin by (rewrite Hsplit, elem_of_app; right; left).
      apply (bool_decide_pack _) in Hin. by vm_compute in Hin. }
    rewrite Hp1 in Hsplit |- *. destruct (split_piece _ _ _ _ _ Hsplit) as (x & y & Hxy & _ & Hrepl).
    specialize (Hswap x (y ++ query_text (uri_query u))). rewrite Hxy, <- !app_assoc in Hswap. specialize (Hswap eq_refl).
    destruct (query_text_inj path2 (uri_query v) (x ++ encoded ++ y) (uri_query u)) as [Hpath Hquery].
    { done. }
    { rewrite Hxy in Hq1. rewrite !not_elem_of_app in Hq1 |- *. tauto. }
    { by rewrite Hswap, <- !app_assoc. }
    split; [|done]. exists l1, l2. split; [done|]. rewrite Hp2, decide_False, Hpath; [by apply Hrepl|].
    destruct Hroot1 as [|Hhead]; [done|]. destruct x as [|c x]; [|by rewrite Hpath]. rewrite Hxy in Hhead. by vm_compute in Hhead.
  - right. destruct (split_piece _ _ _ _ _ Hsplit) as (x & y & Hxy & Hsep & Hrepl).
    specialize (Hswap (path1 ++ 63 :: x ++ key ++ [61]) y).
    rewrite Hq in Hswap. cbn [query_text] in Hswap. rewrite Hxy in Hswap. rewrite <- ?app_assoc in Hswap. cbn [app] in Hswap. rewrite <- ?app_assoc in Hswap.
    specialize (Hswap eq_refl).
    destruct (query_text_inj path2 (uri_query v) path1 (Some (x ++ (key ++ 61 :: encoded) ++ y))) as [Hpath Hquery]; [done|done| |].
    { rewrite Hswap. cbn [query_text]. by rewrite <- ?app_assoc. }
    split; [by rewrite Hp1, Hp2, Hpath|]. exists q, (x ++ (key ++ 61 :: encoded) ++ y), l1, key, l2. split_and!; try done.
    apply Hrepl. apply not_elem_of_app in Hsep as [Hk _]. apply not_elem_of_app. split; [done|]. by apply not_elem_of_cons.
Qed.

Lemma template_new_spec redacted reference limits t :
  SecretUrlTemplate_new redacted reference limits = Ok t ->
  template_redacted t = redacted /\ template_reference t = reference /\ template_limits t = limits /\
  str_len redacted <= template_bytes limits /\ (35 ∉ redacted) /\
  endpoint_scheme (template_parsed t) ∈ [SchemeHttp; SchemeHttps] /\
  scheme_of (scheme_str (endpoint_uri (template_parsed t))) = Some (endpoint_scheme (template_parsed t)) /\
  exists before after, find_str SECRET_URL_PLACEHOLDER redacted = Some (before, after) /\
    find_str SECRET_URL_PLACEHOLDER after = None /\ find_str PARSE_SENTINEL redacted = None /\
    uri_parse (before ++ PARSE_SENTINEL ++ after) = Some (endpoint_uri (template_parsed t)) /\
    placeholder_is_complete (endpoint_uri (template_parsed t)) = true.
Proof.
  unfold SecretUrlTemplate_new. destruct (_ || _) eqn:Hlen; [done|]. apply orb_false_iff in Hlen as [_ Hlen%Z.ltb_ge].
  case_bool_decide as Hfrag; [done|]. unfold contains_str. case_bool_decide as Hsent; [done|]. apply eq_None_not_Some in Hsent.
  destruct (Nat.eqb_spec (match_count SECRET_URL_PLACEHOLDER redacted) 1) as [Hc|]; [|done]. cbn [negb].
  destruct (match_count_one SECRET_URL_PLACEHOLDER redacted) as (before & after & Hf & Hn); [done|done|].
  unfold replace_first. rewrite Hf. intros (uri & Hu & Hr)%result_bind_Ok. destruct (placeholder_is_complete uri) eqn:Hplace; [|done].
  cbn [negb] in Hr. apply result_bind_Ok in Hr as (parsed & Hp & Hr).
  assert (endpoint_uri parsed = uri /\ scheme_of (scheme_str uri) = Some (endpoint_scheme parsed)) as [Hpu Hsc].
  { destruct (NetworkEndpoint_new uri) as [e|] eqn:He; [|done]. injection Hp as <-. by apply NetworkEndpoint_new_spec in He as (? & ? & _). }
  destruct (uri_parse _) as [u|] eqn:Hparse; [|done]. injection Hu as ->. subst uri.
  destruct (endpoint_scheme parsed) eqn:Hs; try done; injection Hr as <-; cbn; rewrite Hs;
    (split_and!; [done|done|done|done|done|set_solver|by rewrite Hsc|by exists before, after]).
Qed.

(** C33: expanding a URL template.  When a template with one placeholder is expanded with a
    secret, the request goes to the scheme and authority that were configured, and the URL is
    the template's with the secret's percent-encoding in the place of the placeholder.  The
    encoding brings in no separator of URLs and decodes to the secret; what it takes the place
    of is one whole segment of the path or one whole value of the query, and all other segments
    and parameters are the template's.  The whole stays within the configured length. *)
Theorem template_expansion_sound redacted reference limits t secret endpoint :
  SecretUrlTemplate_new redacted reference limits = Ok t -> Forall is_octet (expose (current_value secret)) ->
  template_expand t secret = Ok endpoint ->
  let encoded := percent_encode (expose (current_value secret)) in
  exists before after,
    redacted = before ++ SECRET_URL_PLACEHOLDER ++ after /\
    uri_parse (before ++ PARSE_SENTINEL ++ after) = Some (endpoint_uri (template_parsed t)) /\
    uri_parse (before ++ encoded ++ after) = Some (endpoint_uri endpoint) /\
    scheme_str (endpoint_uri endpoint) = scheme_str (endpoint_uri (template_parsed t)) /\
    authority (endpoint_uri endpoint) = authority (endpoint_uri (template_parsed t)) /\
    endpoint_scheme endpoint = endpoint_scheme (template_parsed t) /\
    endpoint_scheme endpoint ∈ [SchemeHttp; SchemeHttps] /\
    Forall (fun c => c ∉ encoded) (str ":/?#[]@!$&'()*+,;={} ") /\
    replaces_component encoded (endpoint_uri (template_parsed t)) (endpoint_uri endpoint) /\
    percent_decode encoded = Some (expose (current_value secret)) /\
    str_len (before ++ encoded ++ after) <= expanded_bytes limits.
Proof.
  intros (Hred & Href & Hlim & _ & Hfrag & Hs & Hsc & before & after & Hf & _ & Hsent & Hparsed & Hplace)%template_new_spec Hsecret Hexp encoded.
  exists before, after. apply find_str_Some in Hf as Hsplit. unfold template_expand, replace_first in Hexp.
  rewrite Hred, Hf, Hlim in Hexp. fold encoded in Hexp. destruct (Z.ltb_spec (expanded_bytes limits) (str_len (before ++ encoded ++ after))) as [|Hlen]; [done|].
  apply result_bind_Ok in Hexp as (uri & Hu & (e & He & Hexp)%result_bind_Ok).
  destruct (uri_parse (before ++ encoded ++ after)) as [u|] eqn:Hp; [|done]. injection Hu as ->.
  destruct (template_same_origin _ e) eqn:Hsame; [|done]. injection Hexp as <-.
  destruct (NetworkEndpoint_new uri) as [e'|] eqn:Hnew; [|done]. injection He as ->.
  apply NetworkEndpoint_new_spec in Hnew as (<- & Hscheme & _ & _ & a & Ha & _). unfold template_same_origin in Hsame. bools.
  assert (endpoint_scheme e = endpoint_scheme (template_parsed t)) as Heq by congruence.
  destruct (percent_encode_spec _ Hsecret) as [Hchars Hdec].
  assert (Forall (fun c => c ∉ encoded) (str ":/?#[]@!$&'()*+,;={} ")) as Hno.
  { assert (Forall (fun c => is_unreserved c = false /\ c <> 37) (str ":/?#[]@!$&'()*+,;={} ")) as Hsep
      by (apply (bool_decide_unpack _); by vm_compute).
    eapply Forall_impl; [exact Hsep|]. intros c [Hc1 Hc2] Hin. rewrite Forall_forall in Hchars. destruct (Hchars c Hin); congruence. }
  split_and!; try done; [by rewrite Heq|]. destruct (scheme_str (endpoint_uri e)) as [scheme|] eqn:Hstr; [|done].
  eapply (expanded_component before SECRET_URL_PLACEHOLDER after encoded _ _ scheme a); try done; try congruence.
  - rewrite Hsplit in Hfrag. apply not_elem_of_app in Hfrag as [? [_ ?]%not_elem_of_app]. by apply not_elem_of_app.
  - intros c Hc. rewrite Forall_forall in Hno. apply Hno. clear -Hc. revert c Hc. apply Forall_forall, (bool_decide_unpack _). by vm_compute.
Qed.
End template_facts.

(** ** Requests *)

Section webhook_facts.
  Context `{U : UriCrate} `{HC : HeaderCrate} `{HM : HmacSha256}.
  Context `{!HeaderCrateSpec} `{!HmacSha256Spec}.

Lemma portable_visible maximum s : portable maximum s -> Forall (fun c => 32 <= c < 127) s /\ s <> [] /\ Forall (fun c => c < 0x80) s.
Proof.
  intros (Hne & _ & Hs). split_and!; [|done|]; (eapply Forall_impl; [exact Hs|]); intros c Hc; cbn beta in *;
    unfold is_allowed, is_ascii_alphanumeric, is_ascii_digit, is_ascii_alphabetic in Hc; bools; lia.
Qed.

Lemma to_hex_visible sig : signature_wf sig -> Forall (fun c => 32 <= c < 127) (HmacSignature_to_hex sig).
Proof.
  intros [_ Hb]. unfold HmacSignature_to_hex. induction Hb as [|b bs Hb _ IH]; [constructor|]. cbn [flat_map].
  apply Forall_app. split; [|done].
  assert (in_range 48 102 (hex_digit (Z.shiftr b 4)) && in_range 48 102 (hex_digit (Z.land b 0x0f)) = true) as Hd.
  { assert (is_octet b) as Ho. { cbn beta in Hb. apply in_range_spec in Hb. unfold is_octet. lia. }
    revert b Hb Ho. intros b _. revert b. apply octet_check. by vm_compute. }
  bools. repeat constructor; lia.
Qed.

(** The headers a receiver sees of a request that was handed to the network. *)
Definition received (request : Transport.HttpRequest) (target : rstr) (peer : WebhookVerify.PeerAddress)
    (others : list VerificationHeader) : VerificationRequest :=
  mk_verification_request (rq_method request) target
    (((fun h => mk_header h.1 (hv_bytes h.2)) <$> headers_iter (hq_headers (outgoing request))) ++ others)
    (rq_body request) peer.

Lemma received_values request target peer others name value :
  name ∉ [HOST; CONNECTION; CONTENT_LENGTH; TRANSFER_ENCODING] ->
  Forall (fun h => header_name h <> name) others -> get_all name (rq_headers request) = [value] ->
  header_values (received request target peer others) name = [hv_bytes value].
Proof.
  intros Hname Ho Hg. unfold received. rewrite header_values_app by done.
  assert (get_all name (hq_headers (outgoing request)) = [value]) as Hout.
  { unfold outgoing. cbn [hq_headers]. repeat (apply get_all_remove_single; [set_solver|]). done. }
  change [hv_bytes value] with (hv_bytes <$> [value]). rewrite <-Hout. unfold get_all.
  induction (headers_iter (hq_headers (outgoing request))) as [|h l IH]; [done|].
  rewrite fmap_cons, !filter_cons. cbn [header_name]. case_decide; [|done]. by rewrite !fmap_cons, IH.
Qed.

(** What a signed request carries. *)
Lemma compose_hmac c endpoint reference delivery payload ctx secrets request :
  wc_target c = TargetFixed endpoint -> wc_authentication c = AuthenticationHmac reference ->
  portable MAX_DELIVERY_ID_BYTES (as_str delivery) ->
  compose_request c delivery payload ctx secrets = Ok request ->
  exists secret, secrets = [secret] /\
  let input := mk_signing_input (ctx_unix_ms ctx / 1000) (as_str delivery) payload in
  rq_method request = METHOD_POST /\ rq_endpoint request = endpoint /\ rq_body request = payload /\
  rq_deadline request = ctx_deadline ctx /\ rq_policy request = wc_policy c /\
  headers_bounded (rq_headers request) /\ Z.of_nat (length payload) <= MAX_HTTP_REQUEST_BODY_BYTES /\
  get_all BONDRY_WEBHOOK_DELIVERY_ID_HEADER (rq_headers request) = [mk_header_value (as_str delivery) false] /\
  get_all BONDRY_WEBHOOK_TIMESTAMP_HEADER (rq_headers request) = [mk_header_value (i64_to_string (ctx_unix_ms ctx / 1000)) false] /\
  get_all BONDRY_WEBHOOK_SIGNATURE_HEADER (rq_headers request) =
    [mk_header_value (HmacSignature_to_hex (sign_webhook (current_value secret) input)) true].
Proof.
  intros Htarget Hauth Hid. destruct (portable_visible _ _ Hid) as (Hvis & _ & Hascii).
  unfold compose_request, secret_reference, request_endpoint, authenticate_headers. rewrite Htarget, Hauth.
  destruct secrets as [|secret [|]]; [done| |done]. cbn [length Nat.eqb negb head]. rewrite from_str_visible by done.
  rewrite (as_bytes_ascii (as_str delivery)) by done. cbn [ok_or mbind result_bind].
  destruct (try_i64 (ctx_unix_ms ctx / 1000)) as [ts|] eqn:Hts; [|done]. apply try_i64_Some in Hts as [-> _].
  cbn [ok_or mbind result_bind]. rewrite (from_str_visible (i64_to_string _)).
  2: { eapply Forall_impl; [apply i64_to_string_chars|]. intros x Hx. cbn beta in Hx. lia. }
  cbn [ok_or mbind result_bind]. rewrite from_str_visible by apply to_hex_visible, sign_wf. cbn [ok_or mbind result_bind].
  destruct (HttpRequest_new _ _ _ _ _ _ _) as [r|] eqn:Hnew; [|done]. intros [= <-].
  apply HttpRequest_new_spec in Hnew as (-> & _ & Hlen & Hb). exists secret. split; [done|]. cbn. split_and!; try done.
  - repeat (apply get_all_insert_single; [by vm_compute|]). apply get_all_insert_eq.
  - apply get_all_insert_single; [by vm_compute|]. apply get_all_insert_eq.
  - apply get_all_insert_eq.
Qed.

(** The operation asks for one request. *)
Lemma webhook_one_request c mode delivery payload op :
  kind_operation (webhook_kind c) mode delivery payload = Ok op ->
  forall ctx ss, op_bounded 1 op (op_start op (op_state op) ctx ss).2 (op_start op (op_state op) ctx ss).1.
Proof.
  intros (_ & _ & [= <-])%result_bind_Ok ctx ss. cbn [webhook_operation op_start op_state]. unfold webhook_start.
  cbn [bool_decide]. rewrite bool_decide_true by done. cbn [negb]. destruct (compose_request _ _ _ _ _); [|done].
  cbn [fst snd op_bounded]. intros ctx' completed. cbn. by destruct completed.
Qed.

Section delivery.
  Context `{SHA : Sha256} `{!Sha256Spec} `{S : !Surroundings E}.

Lemma unix_milliseconds_range (e : E) : 0 <= (unix_milliseconds e).1 <= U64_MAX.
Proof.
  unfold unix_milliseconds, try_unsigned. destruct (system_time e) as [[elapsed|] e1]; simpl; [|done].
  case_match eqn:Hr; simpl; [by bools|done].
Qed.

(** How the answer to the request decides the attempt. *)
Definition disposition_of (answer : option TransportCompletion) : AttemptDisposition :=
  match answer with
  | None => DispRetryable RetryDeadlineExceeded
  | Some (Ok response) => classify_status (rs_status response)
  | Some (Err error) => classify_transport error
  end.

(** Every verifier of the sender's secret accepts the request while its timestamp is fresh,
    and identifies it by the delivery; the receiver may see other headers besides. *)
Definition verifies_as (delivery : DeliveryId) (secret : SecretValue) (timestamp : Z) (request : Transport.HttpRequest) : Prop :=
  forall P (SP : SecretProvider P) reference (provider : P) tolerance v secrets now target peer others,
    BondryHmacSha256Verifier_with_tolerance reference provider tolerance = Ok v ->
    resolve provider reference = Ok secrets -> accepted secrets secret -> fresh now timestamp tolerance ->
    Forall (fun h => header_name h ∉ selected_headers v) others ->
    verify v (received request target peer others) now =
      Ok (VerificationResult_with_identity (mk_identity (mk_id BONDRY_HMAC_NAMESPACE) (mk_id_hash (sha256 (as_str delivery)))
        (Some (mk_freshness timestamp tolerance)))).

Lemma compose_hmac_verifies c endpoint reference delivery payload ctx secret request :
  wc_target c = TargetFixed endpoint -> wc_authentication c = AuthenticationHmac reference ->
  portable MAX_DELIVERY_ID_BYTES (as_str delivery) -> 0 <= ctx_unix_ms ctx <= U64_MAX ->
  compose_request c delivery payload ctx [secret] = Ok request ->
  verifies_as delivery (current_value secret) (ctx_unix_ms ctx / 1000) request.
Proof.
  intros Ht Ha Hid Hms Hc. destruct (compose_hmac _ _ _ _ _ _ _ _ Ht Ha Hid Hc) as (s & [= <-] & _ & _ & Hbody & _ & _ & _ & _ & Hh1 & Hh2 & Hh3).
  intros P SP r provider tolerance v secrets now target peer others Hv Hres Hacc Hfresh Hothers.
  assert (forall name, name ∈ [BONDRY_WEBHOOK_DELIVERY_ID_HEADER; BONDRY_WEBHOOK_TIMESTAMP_HEADER;
    BONDRY_WEBHOOK_SIGNATURE_HEADER] -> Forall (fun h => header_name h <> name) others) as Hno.
  { intros name Hn. eapply Forall_impl; [exact Hothers|]. intros h Hh Heq. apply Hh. by rewrite Heq. }
  assert (forall name, name ∈ [BONDRY_WEBHOOK_DELIVERY_ID_HEADER; BONDRY_WEBHOOK_TIMESTAMP_HEADER;
    BONDRY_WEBHOOK_SIGNATURE_HEADER] -> name ∉ [HOST; CONNECTION; CONTENT_LENGTH; TRANSFER_ENCODING]) as Hsep.
  { intros name Hn. apply (bool_decide_unpack _). rewrite !elem_of_cons, elem_of_nil in Hn.
    destruct Hn as [->|[->|[->|[]]]]; by vm_compute. }
  pose proof (fun name => received_values request target peer others name) as Hrec.
  destruct Hid as (Hne & Hlen & _).
  eapply (signed_headers_verify r provider tolerance v secrets (current_value secret)
    (mk_signing_input (ctx_unix_ms ctx / 1000) (as_str delivery) payload)); try done.
  - cbn. destruct (as_str delivery); [done|]. simpl in *. lia.
  - cbn. unfold U64_MAX, I64_MAX in *. split; [apply Z.div_pos; lia|]. apply Z.div_le_upper_bound; lia.
  - erewrite Hrec; [|apply Hsep; set_solver|apply Hno; set_solver|exact Hh1]. done.
  - erewrite Hrec; [|apply Hsep; set_solver|apply Hno; set_solver|exact Hh2]. done.
  - erewrite Hrec; [|apply Hsep; set_solver|apply Hno; set_solver|exact Hh3]. done.
Qed.

Lemma classify_status_delivered status : classify_status status = DispDelivered None <-> 200 <= status < 300.
Proof.
  unfold classify_status. rewrite success_range. destruct (in_range 200 299 status) eqn:Hr.
  - apply in_range_spec in Hr. split; [lia|done].
  - split; [by case_match|]. intros Hs. unfold in_range in Hr. lia.
Qed.

Lemma classify_status_retryable status :
  classify_status status = DispRetryable RetryReceiverRejected <-> status ∈ [408; 425; 429] \/ 500 <= status < 600.
Proof.
  unfold classify_status. rewrite success_range, server_error_range. destruct (in_range 200 299 status) eqn:Hr.
  { apply in_range_spec in Hr. split; [done|]. rewrite !elem_of_cons, elem_of_nil. lia. }
  destruct (_ || _) eqn:Hc.
  - split; [|done]. intros _. rewrite !elem_of_cons, elem_of_nil. unfold in_range in *. lia.
  - split; [done|]. rewrite !elem_of_cons, elem_of_nil. unfold in_range in *. lia.
Qed.

(** One attempt, step by step. *)
Lemma webhook_run c reference delivery payload deadline (e : E) :
  secret_reference c = Some reference ->
  execute_attempt 2 (webhook_kind c) Emit delivery payload deadline e =
  match webhook_validate_payload c Emit payload with
  | Err _ => (Some (completion true failed_internal), [], e)
  | Ok _ =>
      match resolve_secret reference e with
      | (Err SecretProviderUnavailable, e) => (Some (completion true (DispRetryable RetrySecretUnavailable)), [Resolved reference], e)
      | (Err _, e) => (Some (completion true failed_secret), [Resolved reference], e)
      | (Ok secret, e) =>
          let '(ctx, e) := attempt_context deadline e in
          match compose_request c delivery payload ctx [secret] with
          | Err d => (Some (completion true d), [Resolved reference], e)
          | Ok request =>
              let '(now, e) := instant_now e in
              let remaining := sat_sub deadline now in
              if remaining =? 0 then (Some (completion true (DispRetryable RetryDeadlineExceeded)), [Resolved reference], e)
              else
                let '(answer, e) := timed_send remaining request e in
                (Some (completion true (disposition_of answer)), [Resolved reference; Sent remaining request],
                 match answer with Some _ => (attempt_context deadline e).2 | None => e end)
          end
      end
  end.
Proof.
  intros Href. unfold execute_attempt. cbn [webhook_kind kind_operation permits_automatic_retry].
  destruct (webhook_validate_payload c Emit payload) as [[]|err]; [|done]. cbn [mbind result_bind].
  cbn [webhook_operation secret_references op_state op_start]. rewrite Href. change (option_list (Some reference)) with [reference]. cbn [resolve_all].
  destruct (resolve_secret reference e) as [[secret|[]] e1]; try done. cbn [mbind result_bind].
  destruct (attempt_context deadline e1) as [ctx e2]. unfold webhook_start. rewrite bool_decide_true by done. cbn [negb].
  destruct (compose_request c delivery payload ctx [secret]) as [request|d]; [|done].
  cbn [attempt_loop]. destruct (instant_now e2) as [now e3]. cbn zeta. destruct (_ =? 0); [done|].
  destruct (timed_send _ _ e3) as [[answer|] e4]; [|done]. destruct (attempt_context deadline e4) as [ctx' e5].
  cbn [webhook_operation op_resume]. unfold webhook_resume. rewrite bool_decide_true by done. cbn [negb]. by destruct answer.
Qed.

(** A request that cannot be composed is not reported delivered, nor tried again. *)
Definition terminal_failure (d : AttemptDisposition) : Prop := exists f, d = DispFailed f.

Lemma compose_fails c delivery payload ctx secrets : fails_with terminal_failure (compose_request c delivery payload ctx secrets).
Proof.
  assert (terminal_failure failed_secret /\ terminal_failure failed_internal) as [Hs Hi] by (split; by eexists).
  unfold compose_request. case_match; [done|]. apply fails_bind.
  { unfold request_endpoint. destruct (wc_target c); [done|]. apply fails_bind; [by apply fails_ok_or|]. intros s. by apply fails_map_err. }
  intros endpoint. apply fails_bind; [by apply fails_ok_or|]. intros id. apply fails_bind.
  - unfold authenticate_headers. destruct (wc_authentication c); [done|..].
    + apply fails_bind; [by apply fails_ok_or|]. intros s. apply fails_bind; [|done]. unfold bearer_header.
      destruct (match split_at_first _ _ with Some p => p | None => _ end) as [h padding]. destruct (_ || _); [done|]. by apply fails_ok_or.
    + repeat (apply fails_bind; [by apply fails_ok_or|intros ?]). done.
  - intros headers. apply fails_map_err. intros []; by eexists.
Qed.

(** C32: an outbound webhook.  An attempt to deliver over a signed webhook, in any surroundings,
    resolves the route's secret and sends at most one request, before the deadline: a POST of
    exactly the payload to the configured endpoint under the route's policy, which every
    receiver that holds the secret accepts, current or previous, while the timestamp is fresh,
    and identifies by the delivery, so that a retry is recognised.  The attempt is decided by
    the answer alone; it is delivered exactly for a status of success, and tried again only
    after a failure that can pass. *)
Theorem webhook_reaches_receiver endpoint reference policy limits c delivery payload deadline (e : E) :
  WebhookDeliveryKind_new endpoint (AuthenticationHmac reference) policy limits = Ok c ->
  portable MAX_DELIVERY_ID_BYTES (as_str delivery) ->
  exists completion trace e',
    execute_attempt 2 (webhook_kind c) Emit delivery payload deadline e = (Some completion, trace, e') /\
    ac_result completion = None /\
    ((trace = [] \/ trace = [Resolved reference]) /\ (forall md, ac_disposition completion <> DispDelivered md) \/
     exists remaining request secret e1 e2 answer timestamp,
       trace = [Resolved reference; Sent remaining request] /\ 0 < remaining /\
       resolve_secret reference e = (Ok secret, e1) /\
       (timed_send remaining request e2).1 = answer /\ ac_disposition completion = disposition_of answer /\
       rq_method request = METHOD_POST /\ rq_endpoint request = endpoint /\ rq_body request = payload /\
       rq_policy request = policy /\ rq_deadline request = deadline /\
       timestamp = (unix_milliseconds e1).1 / 1000 /\ verifies_as delivery (current_value secret) timestamp request) /\
    (forall status, classify_status status = DispDelivered None <-> 200 <= status < 300) /\
    (forall status, classify_status status = DispRetryable RetryReceiverRejected <->
       status ∈ [408; 425; 429] \/ 500 <= status < 600).
Proof.
  intros Hnew Hid.
  assert (wc_target c = TargetFixed endpoint /\ wc_authentication c = AuthenticationHmac reference /\ wc_policy c = policy /\
    secret_reference c = Some reference) as (Htarget & Hauth & Hpol & Href).
  { unfold WebhookDeliveryKind_new in Hnew. by destruct (endpoint_scheme endpoint); simplify_eq. }
  assert (forall d, ac_disposition (completion true d) = d /\ ac_result (completion true d) = None) as Hcomp by (by intros []).
  assert ((forall status, classify_status status = DispDelivered None <-> 200 <= status < 300) /\
    (forall status, classify_status status = DispRetryable RetryReceiverRejected <-> status ∈ [408; 425; 429] \/ 500 <= status < 600))
    as [Hdel Hretry] by (split; [apply classify_status_delivered|apply classify_status_retryable]).
  rewrite (webhook_run c reference) by done.
  destruct (webhook_validate_payload c Emit payload) as [[]|err].
  2: { exists (completion true failed_internal), [], e. split_and!; [done|done| |done|done]. left. split; [by left|done]. }
  destruct (resolve_secret reference e) as [[secret|err] e1] eqn:Hres.
  2: { destruct err; (eexists _, _, _; split_and!; [done|done| |done|done]; left; split; [by right|done]). }
  destruct (attempt_context deadline e1) as [ctx e2] eqn:Hctx.
  assert (ctx_unix_ms ctx = (unix_milliseconds e1).1 /\ ctx_deadline ctx = deadline) as [Hms Hdl].
  { unfold attempt_context in Hctx. destruct (unix_milliseconds e1). by injection Hctx as <- <-. }
  destruct (compose_request c delivery payload ctx [secret]) as [request|d] eqn:Hreq.
  2: { exists (completion true d), [Resolved reference], e2. split_and!; [done|apply Hcomp| |done|done]. left. split; [by right|].
       rewrite (proj1 (Hcomp d)). pose proof (compose_fails c delivery payload ctx [secret]) as Hf. rewrite Hreq in Hf. by destruct Hf as [f ->]. }
  destruct (instant_now e2) as [now e3]. cbn zeta. destruct (Z.eqb_spec (sat_sub deadline now) 0) as [|Hrem].
  { eexists _, _, _. split_and!; [done|done| |done|done]. left. split; [by right|done]. }
  destruct (@timed_send transport_wire E S (sat_sub deadline now) request e3) as [answer e4] eqn:Hsend.
  eexists _, _, _. split_and!; [done|apply Hcomp| |done|done]. right.
  exists (sat_sub deadline now), request, secret, e1, e3, answer, ((unix_milliseconds e1).1 / 1000).
  destruct (compose_hmac _ _ _ _ _ _ _ _ Htarget Hauth Hid Hreq) as (s & _ & Hm & He & Hb & Hd & Hp & _).
  rewrite Hsend, (proj1 (Hcomp _)), Hm, He, Hb, Hd, Hp. split_and!; try done.
  - unfold sat_sub in *. lia.
  - rewrite <-Hms. eapply compose_hmac_verifies; try done. rewrite Hms. apply unix_milliseconds_range.
Qed.
End delivery.
End webhook_facts.

(** ** Examples *)

Module Example.
Import HttpLib.Sample.
#[local] Instance ex_hmac : HmacSha256 := toy_hmac.
#[local] Instance ex_sha : Sha256 := toy_digest.

Definition ex_redacted : rstr := str "https://example.com/topic/{secret}?mode=publish".
Definition ex_parsed : NetworkEndpoint :=
  mk_endpoint (mk_uri (Some (str "https")) (Some (str "example.com")) (str "/topic/" ++ PARSE_SENTINEL) (Some (str "mode=publish"))) SchemeHttps.
Definition ex_template : SecretUrlTemplate :=
  mk_template ex_redacted (mk_secret_ref (str "keychain:topic")) ex_parsed UrlTemplateLimits_default.
Definition ex_secret : ResolvedSecret := ResolvedSecret_current (mk_secret (str "a/b?c#d &")).
Definition ex_expanded : NetworkEndpoint :=
  mk_endpoint (mk_uri (Some (str "https")) (Some (str "example.com")) (str "/topic/a%2Fb%3Fc%23d%20%26") (Some (str "mode=publish"))) SchemeHttps.

Lemma template_expansion_sound_witness :
  SecretUrlTemplate_new ex_redacted (mk_secret_ref (str "keychain:topic")) UrlTemplateLimits_default = Ok ex_template /\
  template_expand ex_template ex_secret = Ok ex_expanded /\
  authority (endpoint_uri ex_expanded) = authority (endpoint_uri ex_parsed) /\
  percent_decode (percent_encode (str "a/b?c#d &")) = Some (str "a/b?c#d &") /\
  replaces_component (percent_encode (str "a/b?c#d &")) (endpoint_uri ex_parsed) (endpoint_uri ex_expanded).
Proof.
  assert (SecretUrlTemplate_new ex_redacted (mk_secret_ref (str "keychain:topic")) UrlTemplateLimits_default = Ok ex_template) as Hnew
    by reflexivity.
  assert (template_expand ex_template ex_secret = Ok ex_expanded) as Hexp by reflexivity.
  assert (Forall is_octet (expose (current_value ex_secret))) as Hbytes
    by (apply (bool_decide_unpack (Forall (fun b => 0 <= b < 256) _)); by vm_compute).
  split; [done|]. split; [done|].
  destruct (template_expansion_sound _ _ _ _ _ _ Hnew Hbytes Hexp)
    as (before & after & _ & _ & _ & _ & Ha & _ & _ & _ & Hc & Hd & _).
  split; [exact Ha|]. split; [exact Hd|exact Hc].
Defined.

Definition ex_configuration : WebhookConfiguration :=
  mk_webhook_configuration (TargetFixed ex_expanded) (AuthenticationHmac (mk_secret_ref (str "keychain:hmac")))
    EndpointPolicy_default WebhookLimits_default (webhook_origin ex_expanded).

(** The surroundings of the example count nanoseconds; every request is answered with 204. *)
#[local] Instance ex_surroundings : Surroundings Z := {
  instant_now e := (e, e + 1);
  system_time e := (Some e, e);
  resolve_secret _ e := (Ok ex_secret, e);
  timed_send _ _ e := (Some (Ok (mk_http_response 204 headers_new [] (mk_verified EvidenceMissing))), e + 5);
}.

Lemma webhook_reaches_receiver_witness :
  exists completion trace e',
    execute_attempt 2 (webhook_kind ex_configuration) Emit (mk_id (str "delivery-1")) (str "{}") 100 (0 : Z) =
      (Some completion, trace, e') /\ length trace = 2%nat /\ ac_disposition completion = DispDelivered None /\ ac_result completion = None.
Proof.
  destruct (webhook_reaches_receiver ex_expanded (mk_secret_ref (str "keychain:hmac")) EndpointPolicy_default WebhookLimits_default
    ex_configuration (mk_id (str "delivery-1")) (str "{}") 100 (0 : Z) eq_refl) as (completion & trace & e' & Hrun & Hres & _).
  { apply (bool_decide_unpack _). by vm_compute. }
  exists completion, trace, e'. split; [exact Hrun|].
  assert (length (execute_attempt 2 (webhook_kind ex_configuration) Emit (mk_id (str "delivery-1")) (str "{}") 100 (0 : Z)).1.2 = 2%nat /\
    ac_disposition <$> (execute_attempt 2 (webhook_kind ex_configuration) Emit (mk_id (str "delivery-1")) (str "{}") 100 (0 : Z)).1.1 =
      Some (DispDelivered None)) as [Hl Hd] by (split; reflexivity).
  rewrite Hrun in Hl, Hd. split; [exact Hl|]. split; [|exact Hres]. by injection Hd.
Defined.
End Example.
