(* ===== verification/McpKind.v ===== *)
(** * McpKind: outbound MCP tool calls

    [bondry-egress-mcp]: limits.rs, mcp.rs, a delivery kind in the sense of Kind.v that calls
    one fixed tool, and discovery.rs, the machine that negotiates the revision of an endpoint
    and lists its tools while a route is configured.  JSON Schema validation is the parameter
    [JsonSchema].  The theorems are in McpDelivery.v. *)

From S2P Require Import Prelude Text Bytes Base64 Crypto HttpLib Transport NetTransport Secrets Identifiers Json JsonDoc DeliveryStore Dedup EgressLimits Lifecycle Payload Kind McpProto McpClient WebhookVerify WebhookKind.

(** ** limits.rs *)

Definition DEFAULT_MCP_SCHEMA_BYTES : Z := 16 * 1024.
Definition MIN_MCP_SCHEMA_BYTES : Z := 1.
Definition MAX_MCP_SCHEMA_BYTES : Z := 64 * 1024.
Definition DEFAULT_MCP_DISCOVERY_TOOLS : Z := 128.
Definition MIN_MCP_DISCOVERY_TOOLS : Z := 1.
Definition MAX_MCP_DISCOVERY_TOOLS : Z := 256.
Definition DEFAULT_MCP_RESULT_BYTES : Z := 256 * 1024.
Definition MIN_MCP_RESULT_BYTES : Z := 4 * 1024.
Definition MAX_MCP_RESULT_BYTES : Z := 1024 * 1024.

Inductive McpLimitError := McpLimitSchema | McpLimitResult.
Record McpLimits := mk_mcp_limits { mcp_schema_bytes : Z; mcp_result_bytes : Z; mcp_response : HttpLimits }.

Definition McpLimits_new (schema_bytes result_bytes : Z) : result McpLimitError McpLimits :=
  if negb (in_range MIN_MCP_SCHEMA_BYTES MAX_MCP_SCHEMA_BYTES schema_bytes) then Err McpLimitSchema
  else if negb (in_range MIN_MCP_RESULT_BYTES MAX_MCP_RESULT_BYTES result_bytes) then Err McpLimitResult
  else response ← map_err (fun _ => McpLimitResult) (HttpLimits_new result_bytes);
       Ok (mk_mcp_limits schema_bytes result_bytes response).
Definition McpLimits_default : McpLimits :=
  mk_mcp_limits DEFAULT_MCP_SCHEMA_BYTES DEFAULT_MCP_RESULT_BYTES
    (match HttpLimits_new DEFAULT_MCP_RESULT_BYTES with Ok l => l | Err _ => HttpLimits_default end).

Inductive McpDiscoveryLimitError := DiscoveryLimitTools | DiscoveryLimitSchema | DiscoveryLimitResponse.
Record McpDiscoveryLimits := mk_discovery_limits { disc_tools : Z; disc_schema_bytes : Z; disc_response : HttpLimits }.

Definition McpDiscoveryLimits_new (tools schema_bytes response_bytes : Z) : result McpDiscoveryLimitError McpDiscoveryLimits :=
  if negb (in_range MIN_MCP_DISCOVERY_TOOLS MAX_MCP_DISCOVERY_TOOLS tools) then Err DiscoveryLimitTools
  else if negb (in_range MIN_MCP_SCHEMA_BYTES MAX_MCP_SCHEMA_BYTES schema_bytes) then Err DiscoveryLimitSchema
  else response ← map_err (fun _ => DiscoveryLimitResponse) (HttpLimits_new response_bytes);
       Ok (mk_discovery_limits tools schema_bytes response).
Definition McpDiscoveryLimits_default : McpDiscoveryLimits :=
  mk_discovery_limits DEFAULT_MCP_DISCOVERY_TOOLS DEFAULT_MCP_SCHEMA_BYTES HttpLimits_default.

(** ** mcp.rs *)

(** [jsonschema::draft202012]: [meta::is_valid], [new] and [Validator::is_valid]. *)
Class JsonSchema := {
  SchemaValidator : Type;
  schema_meta_valid : Value -> bool;
  schema_compile : Value -> option SchemaValidator;
  schema_accepts : SchemaValidator -> Value -> bool;
}.

Inductive McpAuthentication := McpNone | McpBearer (reference : SecretRef).
Definition authentication_reference (a : McpAuthentication) : option SecretRef :=
  match a with McpNone => None | McpBearer reference => Some reference end.

Inductive McpConfigurationError := McpUnsupportedScheme | McpInvalidProtocolShape.
Inductive McpToolBindingError := BindingInvalidName | BindingSchemaTooLarge | BindingInvalidSchema.
Inductive McpInputError := InputInvalidShape | InputSchemaMismatch.

Section Mcp.
  Context {U : UriCrate} {HC : HeaderCrate} {HT : HeaderText} {JW : JsonWriter} {JR : JsonReader} {B64 : Base64Standard} {JS : JsonSchema}.

Record McpToolBinding := mk_binding { binding_name : rstr; binding_schema : Value; binding_validator : SchemaValidator }.

Definition binding_from_parts_with_schema_limit (name : rstr) (schema : Value) (schema_bytes : Z) : result McpToolBindingError McpToolBinding :=
  if negb (tool_name_ok name) then Err BindingInvalidName
  else
    encoded ← ok_or (to_vec schema) BindingInvalidSchema;
    if schema_bytes <? Z.of_nat (length encoded) then Err BindingSchemaTooLarge
    else if negb (is_object schema) || negb (schema_meta_valid schema) then Err BindingInvalidSchema
    else validator ← ok_or (schema_compile schema) BindingInvalidSchema;
         Ok (mk_binding name schema validator).
Definition binding_from_parts (name : rstr) (schema : Value) (limits : McpLimits) : result McpToolBindingError McpToolBinding :=
  binding_from_parts_with_schema_limit name schema (mcp_schema_bytes limits).
Definition McpToolBinding_new (tool : McpTool) (limits : McpLimits) : result McpToolBindingError McpToolBinding :=
  binding_from_parts (tool_name tool) (tool_input_schema tool) limits.

Definition validate_input (b : McpToolBinding) (input : Value) : result McpInputError unit :=
  if negb (is_object input) || (MAX_JSON_NESTING_DEPTH <? json_nesting_depth input) then Err InputInvalidShape
  else if negb (schema_accepts (binding_validator b) input) then Err InputSchemaMismatch
  else Ok ().

(** [McpDeliveryKind] is a shared [McpConfiguration]. *)
Record McpConfiguration := mk_mcp_configuration {
  mc_endpoint : NetworkEndpoint;
  mc_authentication : McpAuthentication;
  mc_policy : EndpointPolicy;
  mc_client : McpClientInfo;
  mc_version : McpProtocolVersion;
  mc_tool : McpToolBinding;
  mc_limits : McpLimits;
  mc_max_payload_bytes : Z;
  mc_summary : rstr;
  mc_automatic_retry : bool;
}.

Definition redacted_target (endpoint : NetworkEndpoint) (tool : rstr) : rstr :=
  scheme_as_str (endpoint_scheme endpoint) ++ str "://" ++ endpoint_host endpoint ++ str ":" ++ decimal (endpoint_port endpoint) ++ str "#" ++ tool.

Definition McpDeliveryKind_new (endpoint : NetworkEndpoint) (authentication : McpAuthentication) (policy : EndpointPolicy)
    (client : McpClientInfo) (version : McpProtocolVersion) (tool : McpToolBinding) (limits : McpLimits)
    : result McpConfigurationError McpConfiguration :=
  match endpoint_scheme endpoint with
  | SchemeHttp | SchemeHttps =>
      probe ← map_err (fun _ => McpInvalidProtocolShape) (client_call_tool client 0 version (binding_name tool) empty_object);
      if MAX_HTTP_HEADER_BYTES <? header_bytes (cr_headers probe) then Err McpInvalidProtocolShape
      else
        let body_overhead := sat_sub (Z.of_nat (length (cr_body probe))) 2 in
        let max_payload_bytes := Z.min MAX_EVENT_PAYLOAD_BYTES (sat_sub MAX_HTTP_REQUEST_BODY_BYTES body_overhead) in
        if max_payload_bytes =? 0 then Err McpInvalidProtocolShape
        else Ok (mk_mcp_configuration endpoint authentication policy client version tool limits max_payload_bytes
                   (redacted_target endpoint (binding_name tool)) false)
  | _ => Err McpUnsupportedScheme
  end.

Definition with_automatic_retry (c : McpConfiguration) : McpConfiguration :=
  mk_mcp_configuration (mc_endpoint c) (mc_authentication c) (mc_policy c) (mc_client c) (mc_version c) (mc_tool c) (mc_limits c)
    (mc_max_payload_bytes c) (mc_summary c) true.

Definition mcp_validate_payload (c : McpConfiguration) (payload : list byte) : result KindOperationError unit :=
  value ← ok_or (from_slice payload) KindInvalidEvent;
  map_err (fun _ => KindInvalidEvent) (validate_input (mc_tool c) value).

(** [bearer_header] of mcp.rs. *)
Definition mcp_bearer_header (secret : ResolvedSecret) : result unit HeaderValue :=
  let token := expose (current_value secret) in
  let '(head, padding) := match split_at_first (fun b => b =? 61) token with Some p => p | None => (token, []) end in
  if bool_decide (head = []) || negb (forallb is_token_byte head) || negb (forallb (fun b => b =? 61) padding)
  then Err ()
  else ok_or (value_from_bytes (str "Bearer " ++ token)) ().

(** [u32::try_from(bytes).unwrap_or(u32::MAX)]. *)
Definition saturating_u32 (bytes : Z) : Z := default U32_MAX (try_unsigned U32_MAX bytes).

Definition invalid_result (bytes : Z) : AttemptDisposition :=
  DispFailedWithResult ReceiverRejected (mk_result_metadata ResultInvalid (saturating_u32 bytes)).

Definition classify_client (error : McpClientError) (bytes : Z) : AttemptDisposition :=
  match error with
  | PeerUnavailable | UnexpectedHttpStatus => DispRetryable RetryReceiverRejected
  | UnsupportedResponseMode | InvalidContentType | InvalidJson | InvalidEnvelope | MismatchedResponseId =>
      DispFailedWithResult ReceiverRejected (mk_result_metadata ResultInvalid bytes)
  | UnsupportedProtocolVersion | MethodNotFound | RequestRejected | RemoteFailure | ToolListTooLarge => DispFailed ReceiverRejected
  end.

Definition mcp_classify_transport (error : Transport.TransportError) : AttemptDisposition :=
  match error with
  | TransportDeadlineExceeded => DispRetryable RetryDeadlineExceeded
  | TransportConnectionFailed | TransportInvalidResponse => DispRetryable RetryTransportUnavailable
  | TransportPolicy _ | TransportTlsFailed => DispFailed DeliveryStore.EndpointPolicy
  | TransportResponseTooLarge => invalid_result 0
  | TransportRequestTooLarge | TransportInvalidLimits | TransportUnsupportedEndpoint | TransportInvalidMessage => failed_internal
  end.

(** The credential of a request. *)
Definition authorize (authentication : McpAuthentication) (secrets : list ResolvedSecret) (headers : HeaderMap) : result unit HeaderMap :=
  match authentication with
  | McpNone => Ok headers
  | McpBearer _ =>
      secret ← ok_or (head secrets) ();
      value ← mcp_bearer_header secret;
      Ok (headers_insert AUTHORIZATION (set_sensitive value) headers)
  end.

(** The request with the decoder of its answer; [classify_request_error] of mcp.rs is that of
    webhook.rs. *)
Definition mcp_compose_request (c : McpConfiguration) (payload : list byte) (context : AttemptContext) (secrets : list ResolvedSecret)
    : result AttemptDisposition (Transport.HttpRequest * McpResponseDecoder) :=
  let expected_secrets := match authentication_reference (mc_authentication c) with Some _ => 1%nat | None => O end in
  if negb (length secrets =? expected_secrets)%nat then Err failed_secret
  else
    arguments ← ok_or (from_slice payload) failed_internal;
    parts ← map_err (fun _ => failed_internal) (client_call_tool (mc_client c) 1 (mc_version c) (binding_name (mc_tool c)) arguments);
    headers ← map_err (fun _ => failed_secret) (authorize (mc_authentication c) secrets (cr_headers parts));
    request ← map_err classify_request_error
      (HttpRequest_new METHOD_POST (mc_endpoint c) headers (cr_body parts) (ctx_deadline context) (mc_policy c) (mcp_response (mc_limits c)));
    Ok (request, cr_decoder parts).

Definition classify_response (c : McpConfiguration) (mode : OperationMode) (decoder : McpResponseDecoder) (response : Transport.HttpResponse)
    : KindTransition :=
  let response_bytes := saturating_u32 (Z.of_nat (length (rs_body response))) in
  match decode decoder (rs_status response) (rs_headers response) (rs_body response) with
  | Ok (ToolCalled result) =>
      let bytes := Z.of_nat (length (call_json result)) in
      if (mcp_result_bytes (mc_limits c) <? bytes) || (MAX_JSON_NESTING_DEPTH <? call_nesting_depth result)
      then KtComplete (invalid_result bytes)
      else
        let category := match call_outcome result with CallSucceeded => ResultSucceeded | CallFailed => ResultFailed end in
        let metadata := mk_result_metadata category (saturating_u32 bytes) in
        if bool_decide (mode = Call) then KtCompleteWithResult (DispDelivered (Some metadata)) (call_json result)
        else KtComplete (DispDelivered (Some metadata))
  | Ok _ => KtComplete (invalid_result (Z.of_nat (length (rs_body response))))
  | Err error => KtComplete (classify_client error response_bytes)
  end.

(** The state of an [McpOperation]: the decoder with the phase. *)
Record McpOperationState := mk_mcp_operation { mo_decoder : option McpResponseDecoder; mo_state : OperationState }.

Definition mcp_start (c : McpConfiguration) (payload : list byte) (op : McpOperationState) (context : AttemptContext)
    (secrets : list ResolvedSecret) : KindTransition * McpOperationState :=
  if negb (bool_decide (mo_state op = OpReady)) then (KtComplete failed_internal, mk_mcp_operation (mo_decoder op) OpComplete)
  else
    match mcp_compose_request c payload context secrets with
    | Ok (request, decoder) => (KtHttp request, mk_mcp_operation (Some decoder) OpAwaitingHttp)
    | Err disposition => (KtComplete disposition, mk_mcp_operation (mo_decoder op) OpComplete)
    end.

Definition mcp_resume (c : McpConfiguration) (mode : OperationMode) (op : McpOperationState) (context : AttemptContext)
    (completion : TransportCompletion) : KindTransition * McpOperationState :=
  if negb (bool_decide (mo_state op = OpAwaitingHttp)) then (KtComplete failed_internal, op)
  else
    match mo_decoder op with
    | None => (KtComplete failed_internal, mk_mcp_operation None OpComplete)
    | Some decoder =>
        (match completion with
         | Ok response => classify_response c mode decoder response
         | Err error => KtComplete (mcp_classify_transport error)
         end, mk_mcp_operation None OpComplete)
    end.

Definition mcp_operation (c : McpConfiguration) (mode : OperationMode) (payload : list byte) : DeliveryOperation :=
  mk_operation McpOperationState (mk_mcp_operation None OpReady) (fun _ => option_list (authentication_reference (mc_authentication c)))
    (mcp_start c payload) (mcp_resume c mode).

(** [impl DeliveryKind for McpDeliveryKind]. *)
Definition mcp_kind (c : McpConfiguration) : DeliveryKind :=
  mk_kind (str "mcp") (mc_summary c) true (mc_automatic_retry c) (mc_max_payload_bytes c) (fun _ => mcp_validate_payload c)
    (fun mode delivery payload => _ ← mcp_validate_payload c payload; Ok (mcp_operation c mode payload)).

(** ** discovery.rs *)

Inductive McpDiscoveryError :=
| DiscoveryInvalidState | DiscoverySecretUnavailable | DiscoveryInvalidRequest | DiscoveryEndpointPolicy | DiscoveryDeadlineExceeded
| DiscoveryUnavailable | DiscoveryResponseTooLarge | DiscoveryUnsupportedProtocol | DiscoveryUnsupportedResponseMode | DiscoveryRejected
| DiscoveryInvalidResponse | DiscoveryToolLimitExceeded | DiscoveryInvalidToolSchema.

Inductive DiscoveryState :=
| DiscoveryReady
| AwaitingDiscovery (decoder : McpResponseDecoder)
| AwaitingInitialization (decoder : McpResponseDecoder)
| AwaitingAcknowledgement (version : McpProtocolVersion) (decoder : McpResponseDecoder)
| AwaitingTools (version : McpProtocolVersion) (decoder : McpResponseDecoder)
| DiscoveryComplete.

Record McpDiscoveredTool := mk_discovered_tool { discovered_description : option rstr; discovered_binding : McpToolBinding }.
Record McpDiscoveryResult := mk_discovery_result { discovered_version : McpProtocolVersion; discovered_tools : list McpDiscoveredTool }.

Inductive McpDiscoveryTransition :=
| DiscoveryHttp (request : Transport.HttpRequest)
| DiscoveryDone (r : result McpDiscoveryError McpDiscoveryResult).

Record McpDiscoveryOperation := mk_discovery {
  do_endpoint : NetworkEndpoint;
  do_authentication : McpAuthentication;
  do_policy : EndpointPolicy;
  do_client : McpClientInfo;
  do_limits : McpDiscoveryLimits;
  do_deadline : option Z;
  do_secrets : list ResolvedSecret;
  do_next_request_id : Z;
  do_state : DiscoveryState;
}.

Definition McpDiscoveryOperation_new (endpoint : NetworkEndpoint) (authentication : McpAuthentication) (policy : EndpointPolicy)
    (client : McpClientInfo) (limits : McpDiscoveryLimits) : result McpConfigurationError McpDiscoveryOperation :=
  match endpoint_scheme endpoint with
  | SchemeHttp | SchemeHttps => Ok (mk_discovery endpoint authentication policy client limits None [] 1 DiscoveryReady)
  | _ => Err McpUnsupportedScheme
  end.

Definition discovery_set (op : McpDiscoveryOperation) (next : Z) (state : DiscoveryState) : McpDiscoveryOperation :=
  mk_discovery (do_endpoint op) (do_authentication op) (do_policy op) (do_client op) (do_limits op) (do_deadline op) (do_secrets op) next state.

Definition discovery_finish (op : McpDiscoveryOperation) (r : result McpDiscoveryError McpDiscoveryResult) : McpDiscoveryTransition * McpDiscoveryOperation :=
  (DiscoveryDone r,
   mk_discovery (do_endpoint op) (do_authentication op) (do_policy op) (do_client op) (do_limits op) None [] (do_next_request_id op) DiscoveryComplete).

Definition discovery_compose (op : McpDiscoveryOperation) (request : McpClientRequest)
    : result McpDiscoveryError (Transport.HttpRequest * McpResponseDecoder) :=
  headers ← map_err (fun _ => DiscoverySecretUnavailable) (authorize (do_authentication op) (do_secrets op) (cr_headers request));
  deadline ← ok_or (do_deadline op) DiscoveryInvalidState;
  rq ← map_err (fun _ => DiscoveryInvalidRequest)
    (HttpRequest_new METHOD_POST (do_endpoint op) headers (cr_body request) deadline (do_policy op) (disc_response (do_limits op)));
  Ok (rq, cr_decoder request).

(** Sending one request of the client and waiting in [state] for its answer. *)
Definition discovery_advance (op : McpDiscoveryOperation) (next : Z) (request : result McpClientRequestError McpClientRequest)
    (state : McpResponseDecoder -> DiscoveryState) : McpDiscoveryTransition * McpDiscoveryOperation :=
  let op := discovery_set op next (do_state op) in
  match (request ← map_err (fun _ => DiscoveryInvalidRequest) request; discovery_compose op request) with
  | Ok (rq, decoder) => (DiscoveryHttp rq, discovery_set op next (state decoder))
  | Err error => discovery_finish op (Err error)
  end.

(** [next_id]. *)
Definition discovery_next_id (op : McpDiscoveryOperation) : Z * Z := (do_next_request_id op, sat_add U64_MAX (do_next_request_id op) 1).

Definition discovery_discover (op : McpDiscoveryOperation) : McpDiscoveryTransition * McpDiscoveryOperation :=
  let '(id, next) := discovery_next_id op in discovery_advance op next (client_discover (do_client op) id) AwaitingDiscovery.
Definition discovery_initialize (op : McpDiscoveryOperation) : McpDiscoveryTransition * McpDiscoveryOperation :=
  let '(id, next) := discovery_next_id op in discovery_advance op next (client_initialize (do_client op) id) AwaitingInitialization.
Definition discovery_list_tools (op : McpDiscoveryOperation) (version : McpProtocolVersion) : McpDiscoveryTransition * McpDiscoveryOperation :=
  let '(id, next) := discovery_next_id op in
  discovery_advance op next (client_list_tools (do_client op) id version (disc_tools (do_limits op))) (AwaitingTools version).
Definition acknowledge_initialization (op : McpDiscoveryOperation) (version : McpProtocolVersion) : McpDiscoveryTransition * McpDiscoveryOperation :=
  discovery_advance op (do_next_request_id op) (client_initialized version) (AwaitingAcknowledgement version).

Definition classify_binding (error : McpToolBindingError) : McpDiscoveryError :=
  match error with BindingInvalidName => DiscoveryInvalidResponse | BindingSchemaTooLarge | BindingInvalidSchema => DiscoveryInvalidToolSchema end.

Definition discovery_classify_client (error : McpClientError) : McpDiscoveryError :=
  match error with
  | UnsupportedResponseMode => DiscoveryUnsupportedResponseMode
  | UnsupportedProtocolVersion | MethodNotFound => DiscoveryUnsupportedProtocol
  | PeerUnavailable => DiscoveryUnavailable
  | UnexpectedHttpStatus | RequestRejected | RemoteFailure => DiscoveryRejected
  | ToolListTooLarge => DiscoveryToolLimitExceeded
  | InvalidContentType | InvalidJson | InvalidEnvelope | MismatchedResponseId => DiscoveryInvalidResponse
  end.

Definition discovery_classify_transport (error : Transport.TransportError) : McpDiscoveryError :=
  match error with
  | TransportPolicy _ | TransportTlsFailed => DiscoveryEndpointPolicy
  | TransportDeadlineExceeded => DiscoveryDeadlineExceeded
  | TransportConnectionFailed => DiscoveryUnavailable
  | TransportResponseTooLarge => DiscoveryResponseTooLarge
  | TransportInvalidResponse => DiscoveryInvalidResponse
  | TransportRequestTooLarge | TransportInvalidLimits | TransportUnsupportedEndpoint | TransportInvalidMessage => DiscoveryInvalidRequest
  end.

Definition compile_tool (limits : McpDiscoveryLimits) (tool : McpTool) : result McpDiscoveryError McpDiscoveredTool :=
  binding ← map_err classify_binding (binding_from_parts_with_schema_limit (tool_name tool) (tool_input_schema tool) (disc_schema_bytes limits));
  Ok (mk_discovered_tool (tool_description tool) binding).
Definition compile_result (version : McpProtocolVersion) (tools : list McpTool) (limits : McpDiscoveryLimits)
    : result McpDiscoveryError McpDiscoveryResult :=
  tools ← collect (compile_tool limits) tools;
  Ok (mk_discovery_result version tools).

Definition discovery_start (op : McpDiscoveryOperation) (deadline : Z) (secrets : list ResolvedSecret)
    : McpDiscoveryTransition * McpDiscoveryOperation :=
  match do_state op with
  | DiscoveryReady =>
      let expected := match authentication_reference (do_authentication op) with Some _ => 1%nat | None => O end in
      if negb (length secrets =? expected)%nat then discovery_finish op (Err DiscoverySecretUnavailable)
      else discovery_discover
             (mk_discovery (do_endpoint op) (do_authentication op) (do_policy op) (do_client op) (do_limits op) (Some deadline) secrets
                (do_next_request_id op) (do_state op))
  | _ => discovery_finish op (Err DiscoveryInvalidState)
  end.

Definition discovery_resume (op : McpDiscoveryOperation) (completion : result Transport.TransportError Transport.HttpResponse)
    : McpDiscoveryTransition * McpDiscoveryOperation :=
  let state := do_state op in
  let op := discovery_set op (do_next_request_id op) DiscoveryComplete in
  match completion with
  | Err error => discovery_finish op (Err (discovery_classify_transport error))
  | Ok response =>
      let decoded decoder := decode decoder (rs_status response) (rs_headers response) (rs_body response) in
      match state with
      | AwaitingDiscovery decoder =>
          match decoded decoder with
          | Ok (Discovered version) => discovery_list_tools op version
          | Err UnsupportedProtocolVersion | Err MethodNotFound => discovery_initialize op
          | Ok _ => discovery_finish op (Err DiscoveryInvalidResponse)
          | Err error => discovery_finish op (Err (discovery_classify_client error))
          end
      | AwaitingInitialization decoder =>
          match decoded decoder with
          | Ok (Initialized version) => acknowledge_initialization op version
          | Ok _ => discovery_finish op (Err DiscoveryInvalidResponse)
          | Err error => discovery_finish op (Err (discovery_classify_client error))
          end
      | AwaitingAcknowledgement version decoder =>
          match decoded decoder with
          | Ok Acknowledged => discovery_list_tools op version
          | Ok _ => discovery_finish op (Err DiscoveryInvalidResponse)
          | Err error => discovery_finish op (Err (discovery_classify_client error))
          end
      | AwaitingTools version decoder =>
          match decoded decoder with
          | Ok (Tools tools) => discovery_finish op (compile_result version tools (do_limits op))
          | Ok _ => discovery_finish op (Err DiscoveryInvalidResponse)
          | Err error => discovery_finish op (Err (discovery_classify_client error))
          end
      | DiscoveryReady | DiscoveryComplete => discovery_finish op (Err DiscoveryInvalidState)
      end
  end.
End Mcp.
