(* ===== verification/McpDelivery.v ===== *)
(** * McpDelivery: what outbound MCP guarantees

    The theorems about McpKind.v: one attempt of the delivery kind in any surroundings, the
    discovery machine under any answers, and both of them against the adapter of McpServer.v. *)

From S2P Require Import Prelude Text Bytes Base64 Crypto HttpLib Transport NetTransport Secrets Identifiers Json JsonDoc Capability Policy Dispatch Service RawBody HttpServer RestProto DeliveryStore Dedup EgressLimits Lifecycle Payload Kind McpProto McpServer McpClient McpExchange WebhookVerify WebhookKind McpKind.

Section Delivery.
  Context {U : UriCrate} {HC : HeaderCrate} {HT : HeaderText} {JW : JsonWriter} {JR : JsonReader} {B64 : Base64Standard} {JS : JsonSchema}.
  Context {HCS : HeaderCrateSpec}.

(** ** Credentials *)

(** The token of a secret travels in one header value marked sensitive. *)
Definition credential_sent (authentication : McpAuthentication) (secrets : list ResolvedSecret) (before after : HeaderMap) : Prop :=
  match authentication with
  | McpNone => after = before
  | McpBearer _ => exists secret, head secrets = Some secret /\
      get_all AUTHORIZATION after = [mk_header_value (str "Bearer " ++ expose (current_value secret)) true]
  end.

Lemma token_byte_visible b : is_token_byte b = true -> 32 <= b < 127.
Proof. unfold is_token_byte, is_unreserved, is_ascii_alphanumeric, is_ascii_digit, is_ascii_alphabetic. intros Hb. bools; lia. Qed.

Lemma mcp_bearer_header_spec secret v :
  mcp_bearer_header secret = Ok v -> v = mk_header_value (str "Bearer " ++ expose (current_value secret)) false.
Proof.
  unfold mcp_bearer_header. set (token := expose (current_value secret)).
  assert (exists h p, match split_at_first (fun b => b =? 61) token with Some p => p | None => (token, []) end = (h, p) /\ token = h ++ p)
    as (h & p & -> & Htoken).
  { destruct (split_at_first _ token) as [[h p]|] eqn:Hs; [|exists token, []; by rewrite app_nil_r].
    apply split_at_first_Some in Hs as (-> & _). by exists h, p. }
  destruct (_ || _) eqn:Hb; [done|]. apply orb_false_iff in Hb as [[_ Hh]%orb_false_iff Hp]. apply negb_false_iff in Hh, Hp.
  rewrite from_bytes_visible; [by intros [= <-]|]. apply Forall_app. split; [by apply (bool_decide_unpack _); vm_compute|].
  rewrite Htoken, Forall_app, !Forall_forall. rewrite !forallb_forall in Hh, Hp. split; intros b Hin%list_elem_of_In.
  - by apply token_byte_visible, Hh.
  - apply Hp, Z.eqb_eq in Hin. lia.
Qed.

Lemma authorize_spec authentication secrets before after :
  authorize authentication secrets before = Ok after ->
  credential_sent authentication secrets before after /\
  (forall name, name <> AUTHORIZATION -> get_all name after ≡ₚ get_all name before).
Proof.
  destruct authentication; cbn [authorize credential_sent]; [by intros [= ->]|].
  intros (secret & Hs & (value & Hv & [= <-])%result_bind_Ok)%result_bind_Ok. destruct (head secrets) as [s|]; [|done]. injection Hs as ->.
  apply mcp_bearer_header_spec in Hv as ->. split; [exists secret; split; [done|]; apply get_all_insert_eq|].
  intros name Hne. by apply get_all_insert_ne.
Qed.

(** A transport request that carries a request of the client, with a credential added to it. *)
Definition carries (q : McpClientRequest) (authentication : McpAuthentication) (secrets : list ResolvedSecret) (rq : Transport.HttpRequest) : Prop :=
  rq_method rq = METHOD_POST /\ rq_body rq = cr_body q /\ credential_sent authentication secrets (cr_headers q) (rq_headers rq) /\
  (forall name, name <> AUTHORIZATION -> get_all name (rq_headers rq) ≡ₚ get_all name (cr_headers q)).

(** ** The request of an attempt *)

Lemma mcp_compose_spec c payload ctx secrets rq decoder :
  mcp_compose_request c payload ctx secrets = Ok (rq, decoder) ->
  exists arguments q, from_slice payload = Some arguments /\
    client_call_tool (mc_client c) 1 (mc_version c) (binding_name (mc_tool c)) arguments = Ok q /\ decoder = cr_decoder q /\
    carries q (mc_authentication c) secrets rq /\ rq_endpoint rq = mc_endpoint c /\ rq_policy rq = mc_policy c /\
    rq_deadline rq = ctx_deadline ctx /\ rq_limits rq = mcp_response (mc_limits c) /\
    Z.of_nat (length (rq_body rq)) <= MAX_HTTP_REQUEST_BODY_BYTES /\ headers_bounded (rq_headers rq).
Proof.
  unfold mcp_compose_request. destruct (negb _); [done|]. intros (arguments & Ha & Hr)%result_bind_Ok.
  apply result_bind_Ok in Hr as (q & Hq & (hs & Hh & (r & Hn & [= <- <-])%result_bind_Ok)%result_bind_Ok).
  destruct (from_slice payload) as [a|]; [|done]. injection Ha as ->. destruct (client_call_tool _ _ _ _ _) as [q'|] eqn:Hcall; [|done]. injection Hq as ->.
  destruct (authorize _ _ _) as [hs'|] eqn:Hauth; [|done]. injection Hh as ->. apply authorize_spec in Hauth as [Hcred Hkeep].
  destruct (HttpRequest_new _ _ _ _ _ _ _) as [r'|] eqn:Hnew; [|done]. injection Hn as ->.
  apply HttpRequest_new_spec in Hnew as (-> & _ & Hlen & Hb). exists arguments, q. by split_and!.
Qed.

(** A request that cannot be composed ends the attempt for good. *)
Lemma mcp_compose_fails c payload ctx secrets : fails_with terminal_failure (mcp_compose_request c payload ctx secrets).
Proof.
  assert (terminal_failure failed_secret /\ terminal_failure failed_internal) as [Hs Hi] by (split; by eexists).
  unfold mcp_compose_request. case_match; [done|]. apply fails_bind; [by apply fails_ok_or|]. intros arguments.
  apply fails_bind; [by apply fails_map_err|]. intros q. apply fails_bind; [by apply fails_map_err|]. intros hs.
  apply fails_bind; [|by intros r]. apply fails_map_err. intros []; by eexists.
Qed.

(** ** One attempt *)

(** How the answer decides the attempt. *)
Definition mcp_settled (c : McpConfiguration) (mode : OperationMode) (decoder : McpResponseDecoder) (answered : option TransportCompletion)
    : AttemptCompletion :=
  match answered with
  | None => completion (mc_automatic_retry c) (DispRetryable RetryDeadlineExceeded)
  | Some (Err error) => completion (mc_automatic_retry c) (mcp_classify_transport error)
  | Some (Ok response) =>
      match classify_response c mode decoder response with
      | KtCompleteWithResult disposition bytes => mk_completion disposition (Some bytes)
      | KtComplete disposition => completion (mc_automatic_retry c) disposition
      | KtHttp _ => completion (mc_automatic_retry c) failed_internal
      end
  end.

Lemma saturating_u32_small n : 0 <= n <= U32_MAX -> saturating_u32 n = n.
Proof.
  intros Hn. unfold saturating_u32, try_unsigned. destruct ((0 <=? n) && (n <=? U32_MAX)) eqn:Hb; [done|].
  apply andb_false_iff in Hb as [Hb|Hb]; apply Z.leb_gt in Hb; lia.
Qed.

(** What the limits of a kind allow. *)
Definition limits_wf (limits : McpLimits) : Prop := exists schema_bytes result_bytes, McpLimits_new schema_bytes result_bytes = Ok limits.

Lemma limits_wf_bound limits : limits_wf limits -> mcp_result_bytes limits <= MAX_MCP_RESULT_BYTES.
Proof.
  intros (sb & rb & Hnew). unfold McpLimits_new in Hnew. destruct (in_range MIN_MCP_SCHEMA_BYTES _ _); [|done]. cbn [negb] in Hnew.
  destruct (in_range MIN_MCP_RESULT_BYTES _ rb) eqn:Hr; [|done]. cbn [negb] in Hnew. apply in_range_spec in Hr.
  apply result_bind_Ok in Hnew as (l & _ & [= <-]). cbn. lia.
Qed.

(** A result handed to the caller is counted by its metadata. *)
Lemma classify_response_spec c mode decoder response :
  limits_wf (mc_limits c) ->
  match classify_response c mode decoder response with
  | KtHttp _ => False
  | KtComplete d => forall md, d = DispDelivered md -> mode <> Call
  | KtCompleteWithResult d bytes =>
      mode = Call /\ result_valid d bytes = true /\ Z.of_nat (length bytes) <= mcp_result_bytes (mc_limits c) /\
      exists r, decode decoder (rs_status response) (rs_headers response) (rs_body response) = Ok (ToolCalled r) /\
        bytes = call_json r /\ call_nesting_depth r <= MAX_JSON_NESTING_DEPTH
  end.
Proof.
  intros Hl%limits_wf_bound. unfold classify_response.
  destruct (decode _ _ _ _) as [[| | | |r]|e] eqn:Hdec; try done; [|by destruct e].
  destruct (_ || _) eqn:Hb; [done|]. apply orb_false_iff in Hb as [Hb1%Z.ltb_ge Hb2%Z.ltb_ge]. case_bool_decide as Hm; [|by intros md _].
  split_and!; [done| |done|by exists r]. unfold result_valid. apply bool_decide_eq_true. cbn [result_bytes].
  assert (0 <= Z.of_nat (length (call_json r)) <= U32_MAX) as Hr by (unfold MAX_MCP_RESULT_BYTES, U32_MAX in *; lia).
  rewrite saturating_u32_small by done. unfold try_unsigned. rewrite !(proj2 (Z.leb_le _ _)); [done|unfold U32_MAX, USIZE_MAX, U64_MAX in *; lia|lia].
Qed.

Section attempt.
  Context `{S : !Surroundings E}.

(** One attempt, step by step. *)
Lemma mcp_run c mode delivery payload deadline (e : E) :
  limits_wf (mc_limits c) ->
  execute_attempt 2 (mcp_kind c) mode delivery payload deadline e =
  match mcp_validate_payload c payload with
  | Err _ => (Some (completion (mc_automatic_retry c) failed_internal), [], e)
  | Ok _ =>
      match resolve_all (option_list (authentication_reference (mc_authentication c))) e with
      | (Err SecretProviderUnavailable, tr, e) => (Some (completion (mc_automatic_retry c) (DispRetryable RetrySecretUnavailable)), tr, e)
      | (Err _, tr, e) => (Some (completion (mc_automatic_retry c) failed_secret), tr, e)
      | (Ok secrets, tr, e) =>
          let '(ctx, e) := attempt_context deadline e in
          match mcp_compose_request c payload ctx secrets with
          | Err d => (Some (completion (mc_automatic_retry c) d), tr, e)
          | Ok (rq, decoder) =>
              let '(now, e) := instant_now e in
              let remaining := sat_sub deadline now in
              if remaining =? 0 then (Some (completion (mc_automatic_retry c) (DispRetryable RetryDeadlineExceeded)), tr, e)
              else
                let '(answered, e) := timed_send remaining rq e in
                (Some (mcp_settled c mode decoder answered), tr ++ [Sent remaining rq],
                 match answered with Some _ => (attempt_context deadline e).2 | None => e end)
          end
      end
  end.
Proof.
  intros Hl. unfold execute_attempt. cbn [mcp_kind kind_operation permits_automatic_retry].
  destruct (mcp_validate_payload c payload) as [[]|err]; [|done]. cbn [mbind result_bind mcp_operation secret_references op_state op_start].
  destruct (resolve_all _ e) as [[[secrets|[]] tr] e1]; try done. destruct (attempt_context deadline e1) as [ctx e2].
  unfold mcp_start. cbn [mo_state]. rewrite bool_decide_true by done. cbn [negb].
  destruct (mcp_compose_request c payload ctx secrets) as [[rq decoder]|d]; [|cbn [attempt_loop]; by rewrite app_nil_r].
  cbn [attempt_loop]. destruct (instant_now e2) as [now e3]. cbn zeta. destruct (_ =? 0); [by rewrite app_nil_r|].
  destruct (timed_send _ _ e3) as [[answered|] e4]; [|done]. destruct (attempt_context deadline e4) as [ctx' e5].
  cbn [mcp_operation op_resume]. unfold mcp_resume. cbn [mo_state mo_decoder]. rewrite bool_decide_true by done. cbn [negb mcp_settled snd].
  destruct answered as [response|error]; [|done].
  pose proof (classify_response_spec c mode decoder response Hl) as Hc. destruct (classify_response c mode decoder response) as [|d|d bytes]; [done|done|].
  destruct Hc as (_ & Hv & _). by rewrite Hv.
Qed.

(** A completion that neither delivers nor hands out a result. *)
Definition undelivered (completed : AttemptCompletion) : Prop :=
  ac_result completed = None /\ forall md, ac_disposition completed <> DispDelivered md.

(** What is retried and what is handed out, of the completion of an attempt. *)
Definition contained (c : McpConfiguration) (mode : OperationMode) (completed : AttemptCompletion) : Prop :=
  (forall failure, ac_disposition completed = DispRetryable failure -> mc_automatic_retry c = true) /\
  (forall bytes, ac_result completed = Some bytes -> mode = Call /\ Z.of_nat (length bytes) <= mcp_result_bytes (mc_limits c)).

Lemma completion_contained c mode d : contained c mode (completion (mc_automatic_retry c) d).
Proof. split; [|done]. intros f Hf. by destruct (completion_is_ok (mc_automatic_retry c) d) as [Hr _]; eapply Hr. Qed.

Lemma completion_undelivered retry d : (forall md, d <> DispDelivered md) -> undelivered (completion retry d).
Proof. intros Hd. split; [done|]. destruct d, retry; cbn; naive_solver. Qed.

Lemma mcp_settled_contained c mode decoder answered : limits_wf (mc_limits c) -> contained c mode (mcp_settled c mode decoder answered).
Proof.
  intros Hl. unfold mcp_settled. destruct answered as [[response|error]|]; [|apply completion_contained..].
  pose proof (classify_response_spec c mode decoder response Hl) as Hc.
  destruct (classify_response c mode decoder response) as [|d|d bytes]; [done|apply completion_contained|].
  destruct Hc as (Hm & Hv & Hlen & _). split; [|by intros b [= <-]]. intros f. cbn. by destruct d.
Qed.

End attempt.

(** ** Discovery *)

(** The messages of a discovery, and the orders they are sent in. *)
Inductive DiscoveryStep :=
| StepDiscover (id : Z)
| StepInitialize (id : Z)
| StepInitialized (version : McpProtocolVersion)
| StepList (id : Z) (version : McpProtocolVersion).

Definition step_request (client : McpClientInfo) (limits : McpDiscoveryLimits) (step : DiscoveryStep) : result McpClientRequestError McpClientRequest :=
  match step with
  | StepDiscover id => client_discover client id
  | StepInitialize id => client_initialize client id
  | StepInitialized version => client_initialized version
  | StepList id version => client_list_tools client id version (disc_tools limits)
  end.

Definition modern_plan (version : McpProtocolVersion) : list DiscoveryStep := [StepDiscover 1; StepList 2 version].
Definition legacy_plan : list DiscoveryStep :=
  [StepDiscover 1; StepInitialize 2; StepInitialized V2025_11_25; StepList 3 V2025_11_25].

Section discovery.
(** What a discovery was created and started with. *)
Variables (endpoint : NetworkEndpoint) (authentication : McpAuthentication) (policy : EndpointPolicy).
Variables (client : McpClientInfo) (limits : McpDiscoveryLimits) (deadline : Z) (secrets : list ResolvedSecret).

(** A request that carries a message. *)
Definition step_sent (step : DiscoveryStep) (rq : Transport.HttpRequest) : Prop :=
  exists q, step_request client limits step = Ok q /\ carries q authentication secrets rq /\ rq_endpoint rq = endpoint /\
    rq_policy rq = policy /\ rq_deadline rq = deadline /\ rq_limits rq = disc_response limits.

Definition running (next : Z) (state : DiscoveryState) : McpDiscoveryOperation :=
  mk_discovery endpoint authentication policy client limits (Some deadline) secrets next state.
(** A finished discovery keeps neither secrets nor deadline. *)
Definition finished (op : McpDiscoveryOperation) : Prop :=
  exists next, op = mk_discovery endpoint authentication policy client limits None [] next DiscoveryComplete.

Definition decoder_of (step : DiscoveryStep) (decoder : McpResponseDecoder) : Prop :=
  exists q, step_request client limits step = Ok q /\ decoder = cr_decoder q.

(** Where a discovery is after the messages it sent. *)
Inductive stage : list DiscoveryStep -> McpDiscoveryOperation -> Prop :=
| stage_discover d : decoder_of (StepDiscover 1) d -> stage [StepDiscover 1] (running 2 (AwaitingDiscovery d))
| stage_initialize d :
    decoder_of (StepInitialize 2) d -> stage [StepDiscover 1; StepInitialize 2] (running 3 (AwaitingInitialization d))
| stage_initialized d :
    decoder_of (StepInitialized V2025_11_25) d ->
    stage [StepDiscover 1; StepInitialize 2; StepInitialized V2025_11_25] (running 3 (AwaitingAcknowledgement V2025_11_25 d))
| stage_list_modern v d : decoder_of (StepList 2 v) d -> stage (modern_plan v) (running 3 (AwaitingTools v d))
| stage_list_legacy d : decoder_of (StepList 3 V2025_11_25) d -> stage legacy_plan (running 4 (AwaitingTools V2025_11_25 d)).

Definition binding_ok (b : McpToolBinding) : Prop :=
  tool_name_ok (binding_name b) = true /\ is_object (binding_schema b) = true /\ schema_meta_valid (binding_schema b) = true /\
  schema_compile (binding_schema b) = Some (binding_validator b) /\
  exists encoded, to_vec (binding_schema b) = Some encoded /\ Z.of_nat (length encoded) <= disc_schema_bytes limits.

(** A discovery that succeeded: the revision that was negotiated, with compiled tools of distinct names. *)
Definition discovered_ok (sent : list DiscoveryStep) (r : McpDiscoveryResult) : Prop :=
  (exists id, last sent = Some (StepList id (discovered_version r))) /\
  Z.of_nat (length (discovered_tools r)) <= disc_tools limits /\
  NoDup ((fun t => binding_name (discovered_binding t)) <$> discovered_tools r) /\
  Forall (fun t => binding_ok (discovered_binding t)) (discovered_tools r).

(** *** The tools of a listing *)

Lemma parse_tool_name parsed v tool : parse_tool parsed v = Ok tool -> tool_name tool ∉ tool_name <$> parsed.
Proof.
  unfold parse_tool. intros (entries & _ & (name & _ & Hr)%result_bind_Ok)%result_bind_Ok. destruct (existsb _ parsed) eqn:Hex; [done|].
  apply result_bind_Ok in Hr as (d & _ & (s & _ & [= <-])%result_bind_Ok). cbn. intros (t & Ht & Hin)%list_elem_of_fmap.
  assert (existsb (fun t => bool_decide (tool_name t = name)) parsed = true) as Hc; [|congruence].
  apply existsb_exists. exists t. rewrite <-list_elem_of_In. split; [done|]. by apply bool_decide_eq_true.
Qed.

Lemma parse_tools_names vs parsed tools :
  parse_tools parsed vs = Ok tools -> NoDup (tool_name <$> parsed) ->
  NoDup (tool_name <$> tools) /\ length tools = (length parsed + length vs)%nat.
Proof.
  revert parsed. induction vs as [|v vs IH]; intros parsed; cbn [parse_tools]; [intros [= <-] Hnd; cbn; split; [done|lia]|].
  intros (tool & Ht%parse_tool_name & Hr)%result_bind_Ok Hnd. apply IH in Hr as [Hn Hl].
  - split; [done|]. rewrite length_app in Hl. cbn in *. lia.
  - rewrite fmap_app. apply NoDup_app. split_and!; [done| |apply NoDup_singleton]. intros x Hx ->%list_elem_of_singleton. done.
Qed.

Lemma decode_Ok decoder status headers body r :
  dec_shape decoder <> ShapeAcknowledgement -> decode decoder status headers body = Ok r -> exists doc, decode_mcp_result decoder doc = Ok r.
Proof.
  intros Hs Hd. assert (exists m, match m with
    | MsgResponse response =>
        if negb (bool_decide (as_u64 (response_id response) = dec_id decoder)) then Err MismatchedResponseId
        else match response_payload response with
             | PayloadError code => Err (classify_remote_error code)
             | PayloadResult result =>
                 if negb (is_success status) then Err UnexpectedHttpStatus
                 else if is_some_and is_modern (dec_version decoder) &&
                         negb (is_some_and (fun v => bool_decide (value_as_str v = Some (str "complete"))) (value_get (str "resultType") result))
                 then Err UnsupportedResponseMode else decode_mcp_result decoder result
             end
    | _ => Err InvalidEnvelope end = Ok r) as [m Hm].
  { unfold decode in Hd. destruct (dec_shape decoder); try done; apply result_bind_Ok in Hd as (u & _ & (m & _ & Hm)%result_bind_Ok); by exists m. }
  destruct m as [| |response]; [done|done|]. destruct (negb (bool_decide _)); [done|]. destruct (response_payload response) as [doc|]; [|done].
  destruct (negb (is_success status)); [done|]. destruct (_ && _); [done|]. by exists doc.
Qed.

Lemma decoded_tools decoder status headers body tools n :
  dec_shape decoder = ShapeToolList n -> decode decoder status headers body = Ok (Tools tools) ->
  Z.of_nat (length tools) <= n /\ NoDup (tool_name <$> tools).
Proof.
  intros Hs (doc & Hd)%decode_Ok; [|by rewrite Hs]. unfold decode_mcp_result in Hd. rewrite Hs in Hd.
  apply result_bind_Ok in Hd as (ts & Hp & [= <-]). unfold parse_tool_list in Hp. apply result_bind_Ok in Hp as (vs & _ & Hp).
  destruct (Z.ltb_spec n (Z.of_nat (length vs))); [done|]. apply parse_tools_names in Hp as [Hn Hl]; [|constructor]. split; [cbn in Hl; lia|done].
Qed.

Lemma compile_result_spec version tools r :
  compile_result version tools limits = Ok r ->
  discovered_version r = version /\ (fun t => binding_name (discovered_binding t)) <$> discovered_tools r = tool_name <$> tools /\
  Forall (fun t => binding_ok (discovered_binding t)) (discovered_tools r).
Proof.
  unfold compile_result. intros (ts & Hts%collect_Ok & [= <-])%result_bind_Ok. cbn. split; [done|].
  induction Hts as [|tool t tools ts Ht _ [IH1 IH2]]; [done|]. unfold compile_tool in Ht. apply result_bind_Ok in Ht as (b & Hb & [= <-]).
  rewrite !fmap_cons, IH1. cbn [discovered_binding].
  enough (binding_name b = tool_name tool /\ binding_ok b) as [-> Hok] by (split; [done|by constructor]).
  destruct (binding_from_parts_with_schema_limit _ _ _) as [b'|] eqn:Hp; [|done]. injection Hb as ->. unfold binding_from_parts_with_schema_limit in Hp.
  destruct (tool_name_ok (tool_name tool)) eqn:Hn; [|done]. apply result_bind_Ok in Hp as (encoded & He & Hp).
  destruct (to_vec (tool_input_schema tool)) as [bytes|] eqn:Hv; [|done]. injection He as ->.
  destruct (Z.ltb_spec (disc_schema_bytes limits) (Z.of_nat (length encoded))); [done|]. destruct (_ || _) eqn:Hor; [done|].
  apply orb_false_iff in Hor as [Ho%negb_false_iff Hm%negb_false_iff]. apply result_bind_Ok in Hp as (validator & Hc & [= <-]).
  destruct (schema_compile _) as [w|] eqn:Hcomp; [|done]. injection Hc as ->. split; [done|]. split_and!; try done. by exists encoded.
Qed.

(** *** One step of the machine *)

Lemma advance_spec next next' state step mk :
  match discovery_advance (running next state) next' (step_request client limits step) mk with
  | (DiscoveryHttp rq, op) => step_sent step rq /\ exists d, decoder_of step d /\ op = running next' (mk d)
  | (DiscoveryDone r, op) => (exists error, r = Err error) /\ finished op
  end.
Proof.
  unfold discovery_advance. destruct (step_request client limits step) as [q|] eqn:Hq; cbn [map_err mbind result_bind].
  2: { split; [by eexists|by eexists]. }
  unfold discovery_compose. cbn [discovery_set running do_authentication do_secrets do_deadline do_endpoint do_policy do_limits do_client do_state].
  destruct (authorize authentication secrets (cr_headers q)) as [hs|] eqn:Hauth; cbn [map_err mbind result_bind ok_or].
  2: { split; [by eexists|by eexists]. }
  destruct (HttpRequest_new _ _ _ _ _ _ _) as [rq|] eqn:Hnew; cbn [map_err mbind result_bind].
  2: { split; [by eexists|by eexists]. }
  apply authorize_spec in Hauth as [Hcred Hkeep]. apply HttpRequest_new_spec in Hnew as (-> & _ & _ & _). split.
  - exists q. split_and!; try done.
  - exists (cr_decoder q). split; [by exists q|done].
Qed.

Lemma client_request_shape info id method params version shape q :
  client_request info id method params version shape = Ok q -> dec_shape (cr_decoder q) = shape.
Proof.
  unfold client_request, McpClientRequest_new.
  intros (ps & _ & (name & _ & (hs & _ & (body & _ & [= <-])%result_bind_Ok)%result_bind_Ok)%result_bind_Ok)%result_bind_Ok. done.
Qed.

Lemma list_decoder_shape id v d : decoder_of (StepList id v) d -> dec_shape d = ShapeToolList (disc_tools limits).
Proof. intros (q & Hq & ->). by apply client_request_shape in Hq. Qed.

(** After any answer the discovery sends the next message of its plan, or it is over. *)
Definition steps_to (sent : list DiscoveryStep) (t : McpDiscoveryTransition) (op : McpDiscoveryOperation) : Prop :=
  match t with
  | DiscoveryHttp rq => exists step, step_sent step rq /\ stage (sent ++ [step]) op
  | DiscoveryDone (Ok r) => discovered_ok sent r /\ finished op
  | DiscoveryDone (Err _) => finished op
  end.

Lemma advance_steps sent next next' state step mk :
  (forall d, decoder_of step d -> stage (sent ++ [step]) (running next' (mk d))) ->
  let '(t, op) := discovery_advance (running next state) next' (step_request client limits step) mk in steps_to sent t op.
Proof.
  intros Hmk. pose proof (advance_spec next next' state step mk) as Ha. destruct (discovery_advance _ _ _ _) as [[rq|r] op].
  - destruct Ha as (Hs & d & Hd & ->). exists step. auto.
  - destruct Ha as ((error & ->) & Hf). done.
Qed.

Lemma resume_steps sent op completed :
  stage sent op -> let '(t, op') := discovery_resume op completed in steps_to sent t op'.
Proof.
  assert (forall next state error, let '(t, op') := discovery_finish (running next state) (Err error) in steps_to sent t op') as Hfin.
  { intros. by eexists. }
  assert (forall id v next d rs hs body tools, decoder_of (StepList id v) d -> last sent = Some (StepList id v) -> decode d rs hs body = Ok (Tools tools) ->
    let '(t, op') := discovery_finish (running next DiscoveryComplete) (compile_result v tools limits) in steps_to sent t op') as Hlist.
  { intros id v next d rs hs body tools Hd%list_decoder_shape Hlast Hdec. destruct (decoded_tools _ _ _ _ _ _ Hd Hdec) as [Hlen Hnd]. cbn.
    destruct (compile_result v tools limits) as [r|] eqn:Hc; [|by eexists]. apply compile_result_spec in Hc as (Hv & Hn & Hb).
    split; [|by eexists]. split_and!; [exists id; by rewrite Hlast, Hv| |by rewrite Hn|done].
    apply (f_equal length) in Hn. rewrite !length_fmap in Hn. lia. }
  intros Hst. unfold discovery_resume. destruct completed as [response|error]; [|destruct Hst; apply Hfin].
  destruct Hst as [d Hd|d Hd|d Hd|v d Hd|d Hd]; cbn [running do_state do_next_request_id discovery_set];
    destruct (decode d _ _ _) as [[| | | |]|[]] eqn:Hdec; try apply Hfin.
  - apply (advance_steps [StepDiscover 1] 2 3 DiscoveryComplete (StepList 2 version) (AwaitingTools version)). intros d' Hd'. by apply stage_list_modern.
  - apply (advance_steps [StepDiscover 1] 2 3 DiscoveryComplete (StepInitialize 2) AwaitingInitialization). intros d' Hd'. by apply stage_initialize.
  - apply (advance_steps [StepDiscover 1] 2 3 DiscoveryComplete (StepInitialize 2) AwaitingInitialization). intros d' Hd'. by apply stage_initialize.
  - apply (advance_steps [StepDiscover 1; StepInitialize 2] 3 3 DiscoveryComplete (StepInitialized version) (AwaitingAcknowledgement version)).
    intros d' Hd'. destruct version; [by destruct Hd' as (q & Hq & _)|]. by apply stage_initialized.
  - apply (advance_steps [StepDiscover 1; StepInitialize 2; StepInitialized V2025_11_25] 3 4 DiscoveryComplete (StepList 3 V2025_11_25) (AwaitingTools V2025_11_25)).
    intros d' Hd'. by apply stage_list_legacy.
  - by apply (Hlist 2 v 3 d _ _ _ tools Hd eq_refl Hdec).
  - by apply (Hlist 3 V2025_11_25 4 d _ _ _ tools Hd eq_refl Hdec).
Qed.

(** *** Whole discoveries *)

(** The requests sent, the last transition, and the machine after a list of answers. *)
Fixpoint discovery_run (t : McpDiscoveryTransition) (op : McpDiscoveryOperation) (answers : list (result Transport.TransportError Transport.HttpResponse))
    : list Transport.HttpRequest * McpDiscoveryTransition * McpDiscoveryOperation :=
  match t, answers with
  | DiscoveryDone _, _ => ([], t, op)
  | DiscoveryHttp rq, [] => ([rq], t, op)
  | DiscoveryHttp rq, answered :: answers =>
      let '(t, op) := discovery_resume op answered in
      let '(rqs, final, op) := discovery_run t op answers in (rq :: rqs, final, op)
  end.

Definition planned (steps : list DiscoveryStep) : Prop := (exists v, steps `prefix_of` modern_plan v) \/ steps `prefix_of` legacy_plan.

Lemma stage_planned sent op : stage sent op -> planned sent.
Proof.
  intros [d _|d _|d _|v d _|d _]; [left; exists V2025_11_25; by exists [StepList 2 V2025_11_25]|right; by eexists|right; by eexists|left; by exists v|by right].
Qed.

Lemma planned_length steps : planned steps -> (length steps <= 4)%nat.
Proof. intros [[v H%prefix_length]|H%prefix_length]; cbn in H; lia. Qed.

Lemma discovery_run_spec answers sent rqs0 t op :
  steps_to sent t op -> planned sent -> Forall2 step_sent sent rqs0 ->
  let '(rqs, final, op') := discovery_run t op answers in
  exists steps, planned steps /\ Forall2 step_sent steps (rqs0 ++ rqs) /\
    match final with
    | DiscoveryHttp _ => (length sent + length answers < length steps)%nat
    | DiscoveryDone (Ok r) => discovered_ok steps r /\ finished op'
    | DiscoveryDone (Err _) => finished op'
    end.
Proof.
  revert sent rqs0 t op. induction answers as [|answered answers IH]; intros sent rqs0 t op Ht Hp Hs.
  - destruct t as [rq|r]; cbn [discovery_run].
    + destruct Ht as (step & Hst & Hstage). exists (sent ++ [step]). split; [by eapply stage_planned|]. split; [by apply Forall2_app; [|constructor]|].
      rewrite length_app. cbn. lia.
    + exists sent. rewrite app_nil_r. split_and!; [done|done|]. by destruct r.
  - destruct t as [rq|r]; cbn [discovery_run].
    + destruct Ht as (step & Hst & Hstage). pose proof (resume_steps _ op answered Hstage) as Hr. destruct (discovery_resume op answered) as [t' op'].
      specialize (IH (sent ++ [step]) (rqs0 ++ [rq]) t' op' Hr (stage_planned _ _ Hstage) ltac:(by apply Forall2_app; [|constructor])).
      destruct (discovery_run t' op' answers) as [[rqs final] op'']. destruct IH as (steps & H1 & H2 & H3). exists steps. split; [done|].
      split; [by rewrite <-(assoc_L (++)) in H2|]. destruct final; [|done]. rewrite length_app in H3. cbn in *. lia.
    + exists sent. rewrite app_nil_r. split_and!; [done|done|]. by destruct r.
Qed.
End discovery.

(** C9: MCP discovery.  Whatever an endpoint answers, a discovery sends at most four messages,
    and only in one of two orders: server/discover and tools/list, or after a failed
    negotiation initialize, its notification, and tools/list; all of them go to the configured
    endpoint under one deadline and policy, the credential marked sensitive.  After four
    answers at the latest it is over; it then keeps neither the secret nor the deadline, and
    refuses to go on.  Where it succeeds, the tools are those of the negotiated revision, no
    more than allowed, of distinct names, with schemas that compiled within their limit. *)
Theorem discovery_sound endpoint authentication policy client limits op deadline secrets answers :
  McpDiscoveryOperation_new endpoint authentication policy client limits = Ok op ->
  let '(t, op1) := discovery_start op deadline secrets in
  let '(rqs, final, op2) := discovery_run t op1 answers in
  exists steps, planned steps /\ (length rqs <= 4)%nat /\
    Forall2 (step_sent endpoint authentication policy client limits deadline secrets) steps rqs /\
    ((4 <= length answers)%nat -> exists r, final = DiscoveryDone r) /\
    (forall r, final = DiscoveryDone r ->
       do_secrets op2 = [] /\ do_deadline op2 = None /\
       (forall completed, exists error op3, discovery_resume op2 completed = (DiscoveryDone (Err error), op3)) /\
       (forall d s, (discovery_start op2 d s).1 = DiscoveryDone (Err DiscoveryInvalidState))) /\
    (forall r, final = DiscoveryDone (Ok r) -> discovered_ok limits steps r).
Proof.
  intros Hnew.
  assert (op = mk_discovery endpoint authentication policy client limits None [] 1 DiscoveryReady) as ->
    by (unfold McpDiscoveryOperation_new in Hnew; by destruct (endpoint_scheme endpoint); simplify_eq).
  assert (let '(t, op1) := discovery_start (mk_discovery endpoint authentication policy client limits None [] 1 DiscoveryReady) deadline secrets in
    steps_to endpoint authentication policy client limits deadline secrets [] t op1) as Hstart.
  { unfold discovery_start. cbn [do_state do_authentication]. destruct (negb _); [by eexists|].
    apply (advance_steps endpoint authentication policy client limits deadline secrets [] 1 2 DiscoveryReady (StepDiscover 1) AwaitingDiscovery).
    intros d Hd. by apply stage_discover. }
  destruct (discovery_start _ deadline secrets) as [t op1].
  pose proof (discovery_run_spec endpoint authentication policy client limits deadline secrets answers [] [] t op1 Hstart
    ltac:(left; exists V2025_11_25; apply prefix_nil) ltac:(constructor)) as Hrun.
  destruct (discovery_run t op1 answers) as [[rqs final] op2]. destruct Hrun as (steps & Hp & Hf & Hfinal). exists steps.
  pose proof (planned_length steps Hp) as Hlen. pose proof (Forall2_length _ _ _ Hf) as Heq. cbn in Hf, Heq, Hfinal.
  split_and!; [done|lia|done|..].
  - intros Ha. destruct final as [rq|r]; [lia|by exists r].
  - intros r ->. assert (finished endpoint authentication policy client limits op2) as (next & ->) by (destruct r; [by destruct Hfinal|done]).
    split_and!; [done|done| |done]. intros [response|error]; by eexists _, _.
  - intros r ->. by destruct Hfinal.
Qed.
End Delivery.

(** ** Against the adapter *)

Section against.
  Context {U : UriCrate} {HC : HeaderCrate} {HT : HeaderText} {JW : JsonWriter} {JR : JsonReader} {B64 : Base64Standard} {JS : JsonSchema}.
  Context {HCS : HeaderCrateSpec} {HTS : HeaderTextSpec} {JC : JsonCodecSpec} {B64S : Base64StandardSpec}.
  Context {Validator S : Type} `{!AutomationService Validator S, !InvocationIdGenerator S}.

Definition protocol_headers : list HeaderName := [CONTENT_TYPE; ACCEPT; PROTOCOL_VERSION_HEADER; METHOD_HEADER; NAME_HEADER].

(** What the network and the server keep of a request, and of its answer. *)
Definition arrives (rq : Transport.HttpRequest) (request : Request (list byte)) : Prop :=
  req_method request = rq_method rq /\ req_body request = rq_body rq /\
  Forall (fun name => get_all name (req_headers request) = get_all name (rq_headers rq)) protocol_headers.
Definition returns (response : Response) (received : Transport.HttpResponse) : Prop :=
  rs_status received = resp_status response /\ rs_body received = resp_body response /\
  get_all CONTENT_TYPE (rs_headers received) = get_all CONTENT_TYPE (resp_headers response).

Lemma decode_returned q response received :
  returns response received -> decode (cr_decoder q) (rs_status received) (rs_headers received) (rs_body received) = answer q response.
Proof.
  intros (Hs & Hb & Hc). unfold answer, decode. rewrite Hs, Hb.
  assert (validate_content_type (rs_headers received) = validate_content_type (resp_headers response)) as ->; [|done].
  unfold validate_content_type. by rewrite Hc.
Qed.

(** A request of the client has at most one value for each header of the protocol. *)
Lemma carried_delivers id body routing shape q authentication secrets rq request :
  (forall v m name, routing = Some (v, m, Some name) -> Forall (fun c => is_scalar c = true) name) ->
  McpClientRequest_new id body routing shape = Ok q -> carries q authentication secrets rq -> arrives rq request -> delivers q request.
Proof.
  intros Hname Hq (Hm & Hb & _ & Hkeep) (Hm' & Hb' & Ha). split_and!; [congruence|congruence|].
  apply McpClientRequest_new_spec in Hq as (H1 & H2 & H3 & H4 & H5 & _); [|done].
  assert (Forall (fun name => name <> AUTHORIZATION /\ (length (get_all name (cr_headers q)) <= 1)%nat) protocol_headers) as Hsingle.
  { unfold protocol_headers. rewrite !Forall_cons, H1, H2, H3, H4, H5. split_and!; try (apply (bool_decide_eq_false_1 _); vm_compute; reflexivity);
      try done; try (destruct routing as [[[[] ?] []]|]; cbn; lia); cbn; lia. }
  apply Forall_forall. intros name Hin. rewrite !Forall_forall in Ha, Hsingle. destruct (Hsingle name Hin) as [Hne Hlen].
  rewrite (Ha name Hin). specialize (Hkeep name Hne). destruct (get_all name (cr_headers q)) as [|v [|w l]].
  - by apply Permutation_nil_r in Hkeep.
  - by apply Permutation_singleton_r in Hkeep.
  - cbn in Hlen. lia.
Qed.

Lemma client_request_built info id method params version shape q :
  client_request info id method params version shape = Ok q ->
  exists body name, McpClientRequest_new (Some id) body ((fun version => (version, method, name)) <$> version) shape = Ok q /\
    (name <> None -> method = CALL_TOOL_METHOD /\ exists ps, routed_params info params version = Ok ps /\ params_name ps = name).
Proof.
  unfold client_request. intros (ps & Hps & (name & Hn & Hq)%result_bind_Ok)%result_bind_Ok. eexists _, name. split; [exact Hq|].
  intros Hne. revert Hn. case_bool_decide as Hc; [|by intros [= <-]]. intros (n & Hn & [= <-])%result_bind_Ok. split; [done|].
  exists ps. split; [done|]. destruct ps as [p|]; [|by vm_compute in Hn]. rewrite value_get_set_eq in Hn by done. unfold params_name.
  cbn [mbind option_bind] in Hn |- *. by destruct (_ ≫= _); [injection Hn as ->|].
Qed.

(** A built request carried to the adapter is delivered to it. *)
Lemma request_delivered info id method params version shape q authentication secrets rq request :
  client_request info id method params version shape = Ok q -> method <> CALL_TOOL_METHOD \/ (exists ps n, routed_params info params version = Ok ps /\
    params_name ps = Some n /\ Forall (fun c => is_scalar c = true) n) ->
  carries q authentication secrets rq -> arrives rq request -> delivers q request.
Proof.
  intros Hq Hname Hc Ha. destruct (client_request_built _ _ _ _ _ _ _ Hq) as (body & name & Hnew & Hn).
  eapply carried_delivers; [|exact Hnew|exact Hc|exact Ha]. intros v m n. destruct version as [w|]; [|done]. intros [= _ _ ->].
  destruct (Hn ltac:(done)) as (Hm & ps & Hps & Hpn). destruct Hname as [Hne|(ps' & n' & Hps' & Hpn' & Hs)]; [done|].
  rewrite Hps in Hps'. injection Hps' as <-. rewrite Hpn in Hpn'. by injection Hpn' as ->.
Qed.

(** *** Calls *)

(** How the answer of the adapter to a dispatch settles the attempt. *)
Definition settles (c : McpConfiguration) (mode : OperationMode) (r : result DispatchError Value) (completed : AttemptCompletion) : Prop :=
  let rejected := completed = completion (mc_automatic_retry c) (DispFailed ReceiverRejected) in
  let unavailable := completed = completion (mc_automatic_retry c) (DispRetryable RetryReceiverRejected) in
  let delivered category document :=
    let bytes := default [] (to_vec document) in
    if (mcp_result_bytes (mc_limits c) <? Z.of_nat (length bytes)) || (MAX_JSON_NESTING_DEPTH <? json_nesting_depth document)
    then completed = completion (mc_automatic_retry c) (invalid_result (Z.of_nat (length bytes)))
    else completed = mk_completion (DispDelivered (Some (mk_result_metadata category (Z.of_nat (length bytes)))))
                       (if bool_decide (mode = Call) then Some bytes else None) in
  match r with
  | Ok output => exists document, delivered ResultSucceeded document /\
      (is_modern (mc_version c) || is_object output = true -> value_get (str "structuredContent") document = Some output)
  | Err DispatchInvalidInput | Err (DispatchHandler _) => exists document, delivered ResultFailed document
  | Err (DispatchCapabilityNotFound _) | Err (DispatchAccessDenied NotGranted) => rejected
  | Err (DispatchAccessDenied PolicyUnavailable) | Err (DispatchAudit _) => unavailable
  end.

Lemma settled_error c mode decoder received e :
  decode decoder (rs_status received) (rs_headers received) (rs_body received) = Err e -> e ∈ [RequestRejected; PeerUnavailable] ->
  mcp_settled c mode decoder (Some (Ok received)) =
    completion (mc_automatic_retry c) (if decide (e = RequestRejected) then DispFailed ReceiverRejected else DispRetryable RetryReceiverRejected).
Proof.
  intros Hd He. unfold mcp_settled, classify_response. rewrite Hd. apply list_elem_of_In in He. by destruct He as [<-|[<-|[]]].
Qed.

Lemma settled_call c mode decoder received outcome document :
  limits_wf (mc_limits c) ->
  decode decoder (rs_status received) (rs_headers received) (rs_body received) =
    Ok (ToolCalled (mk_call_result outcome (default [] (to_vec document)) (json_nesting_depth document))) ->
  let completed := mcp_settled c mode decoder (Some (Ok received)) in
  let bytes := default [] (to_vec document) in
  if (mcp_result_bytes (mc_limits c) <? Z.of_nat (length bytes)) || (MAX_JSON_NESTING_DEPTH <? json_nesting_depth document)
  then completed = completion (mc_automatic_retry c) (invalid_result (Z.of_nat (length bytes)))
  else completed = mk_completion (DispDelivered (Some (mk_result_metadata
         (match outcome with CallSucceeded => ResultSucceeded | CallFailed => ResultFailed end) (Z.of_nat (length bytes)))))
         (if bool_decide (mode = Call) then Some bytes else None).
Proof.
  intros Hl%limits_wf_bound Hd completed bytes. unfold completed, mcp_settled, classify_response. rewrite Hd. cbn [call_json call_nesting_depth call_outcome].
  fold bytes. destruct (_ || _) eqn:Hb; [done|]. apply orb_false_iff in Hb as [Hb%Z.ltb_ge _].
  rewrite saturating_u32_small by (unfold MAX_MCP_RESULT_BYTES, U32_MAX in *; lia). by case_bool_decide.
Qed.

(** C6: an outbound MCP call reaches the capability.  When the request of an attempt arrives
    at the adapter of a Bondry server, exactly the capability of the fixed tool's name is
    dispatched, with the payload as its input and for the principal the server authenticated;
    and the adapter's answer settles the attempt by what became of the dispatch: delivered with
    the output, or with a failure of the input or the handler, if the result is within the
    limits of the kind; rejected where the capability does not exist or was not granted; and
    open to a retry where the peer could not serve it.  The arguments have no floating point
    numbers, which JSON text need not carry exactly; nor has the output, which is within the
    depth of the reader, where the attempt is said to be settled by it. *)
Theorem mcp_reaches_capability c mode payload ctx secrets rq decoder request a principal s response s' received arguments :
  limits_wf (mc_limits c) -> exact_json (client_info_json (mc_client c)) = true -> exact_json (server_info_json (mcp_server_info a)) = true ->
  Forall (fun ch => is_scalar ch = true) (binding_name (mc_tool c)) ->
  mcp_validate_payload c payload = Ok () -> from_slice payload = Some arguments -> exact_json arguments = true ->
  mcp_compose_request c payload ctx secrets = Ok (rq, decoder) -> arrives rq request ->
  mcp_handle a request principal s = (response, s') -> returns response received ->
  let completed := mcp_settled c mode decoder (Some (Ok received)) in
  match (Identifier_new (binding_name (mc_tool c)) : result IdentifierError CapabilityId), generate s with
  | Err _, _ => completed = completion (mc_automatic_retry c) (DispFailed ReceiverRejected) /\ s' = s
  | Ok _, (Err _, s1) => completed = completion (mc_automatic_retry c) (DispRetryable RetryReceiverRejected) /\ s' = s1
  | Ok capability, (Ok inv, s1) =>
      let '(r, s2) := service_dispatch (mk_invocation inv (mcp_adapter a) principal capability arguments) s1 in
      s' = s2 /\ (forallb is_scalar (as_str inv) = true -> carried r -> settles c mode r completed)
  end.
Proof.
  intros Hl Hci Hsi Hname Hval Hpay Hex (arguments' & q & Hpay' & Hq & -> & Hc & _)%mcp_compose_spec Ha Hh Hr completed.
  rewrite Hpay in Hpay'. injection Hpay' as <-.
  assert (is_object arguments = true /\ json_nesting_depth arguments <= JSON_READER_DEPTH - 2) as [Hobj Hdep].
  { unfold mcp_validate_payload, validate_input in Hval. rewrite Hpay in Hval. cbn in Hval. destruct (_ || _) eqn:Hb; [done|].
    apply orb_false_iff in Hb as [Ho%negb_false_iff Hd%Z.ltb_ge]. split; [done|]. unfold MAX_JSON_NESTING_DEPTH, JSON_READER_DEPTH in *. lia. }
  assert (delivers q request) as Hdel.
  { pose proof Hq as Hq'. unfold client_call_tool in Hq'. destruct (tool_name_ok _); [|done]. rewrite Hobj in Hq'. cbn [negb] in Hq'.
    destruct (call_params (mc_client c) (mc_version c) (binding_name (mc_tool c)) arguments) as (p & Hp & _ & _ & Hpn & _); [done..|].
    eapply request_delivered; [exact Hq'| |exact Hc|exact Ha]. right. by exists (Some p), (binding_name (mc_tool c)). }
  pose proof (call_end_to_end (mc_client c) 1 (mc_version c) _ arguments q request a principal s ltac:(unfold U64_MAX; lia) Hci Hsi Hname Hex Hdep Hq Hdel) as He.
  rewrite Hh in He. pose proof (decode_returned q response received Hr) as Hd. unfold completed.
  destruct (Identifier_new (binding_name (mc_tool c))) as [capability|].
  - destruct (generate s) as [[inv|] s1].
    + destruct (service_dispatch _ s1) as [r s2]. destruct He as [Hs He]. split; [done|]. intros Hi Hcr. specialize (He Hi Hcr). unfold settles.
      destruct r as [output|[audit|cap|[]| |error]]; cbn [reports] in He.
      * destruct He as (document & Heq & _ & Hout). rewrite Heq in Hd. exists document. split; [|done]. exact (settled_call c mode _ _ _ _ Hl Hd).
      * rewrite He in Hd. by apply (settled_error c mode) in Hd as ->; [|set_solver].
      * rewrite He in Hd. by apply (settled_error c mode) in Hd as ->; [|set_solver].
      * rewrite He in Hd. by apply (settled_error c mode) in Hd as ->; [|set_solver].
      * rewrite He in Hd. by apply (settled_error c mode) in Hd as ->; [|set_solver].
      * destruct He as (document & Heq & _). rewrite Heq in Hd. exists document. exact (settled_call c mode _ _ _ _ Hl Hd).
      * destruct He as (document & Heq & _). rewrite Heq in Hd. exists document. exact (settled_call c mode _ _ _ _ Hl Hd).
    + destruct He as [He Hs]. rewrite He in Hd. split; [|done]. by apply (settled_error c mode) in Hd as ->; [|set_solver].
  - destruct He as [He Hs]. rewrite He in Hd. split; [|done]. by apply (settled_error c mode) in Hd as ->; [|set_solver].
Qed.

(** *** Discoveries *)

(** The requests of a discovery are always within the bounds of the transport. *)

(** No more than [n] headers of no more than [bytes] bytes. *)
Definition headers_within (n bytes : Z) (headers : HeaderMap) : Prop :=
  Z.of_nat (length (headers_iter headers)) <= n /\ header_total headers <= bytes.

Lemma within_new : headers_within 0 0 headers_new.
Proof. unfold headers_within, header_total. by rewrite iter_new. Qed.

Lemma within_insert n bytes name v headers :
  headers_within n bytes headers -> headers_within (n + 1) (bytes + (str_len name + Z.of_nat (length (hv_bytes v)) + 4)) (headers_insert name v headers).
Proof.
  set (cost (h : rstr * HeaderValue) := str_len h.1 + Z.of_nat (length (hv_bytes h.2)) + 4). intros [Hn Hb].
  assert (forall l l', l ≡ₚ l' -> foldr (fun h total => cost h + total) 0 l = foldr (fun h total => cost h + total) 0 l') as Hperm.
  { induction 1 as [|? ? ? _ IH|?|? ? ? _ IH1 _ IH2]; cbn; lia. }
  assert (forall l, foldr (fun h total => cost h + total) 0 (filter (fun h => h.1 <> name) l) <= foldr (fun h total => cost h + total) 0 l) as Hfilter.
  { induction l as [|h l IH]; [done|]. rewrite filter_cons. pose proof (str_len_nonneg h.1). destruct (decide _); cbn; unfold cost in *; lia. }
  unfold headers_within, header_total in *. split.
  - rewrite (iter_insert name v headers). cbn. pose proof (length_filter (fun h : rstr * HeaderValue => h.1 <> name) (headers_iter headers)). lia.
  - change (foldr (fun h total => cost h + total) 0 (headers_iter (headers_insert name v headers)) <= bytes + cost (name, v)).
    change (foldr (fun h total => cost h + total) 0 (headers_iter headers) <= bytes) in Hb.
    rewrite (Hperm _ _ (iter_insert name v headers)). specialize (Hfilter (headers_iter headers)). cbn [foldr]. lia.
Qed.

Lemma within_le n n' bytes bytes' headers : n <= n' -> bytes <= bytes' -> headers_within n bytes headers -> headers_within n' bytes' headers.
Proof. intros ? ? [? ?]. split; lia. Qed.

(** The credential that the discovery asks for was resolved to a token. *)
Definition usable (authentication : McpAuthentication) (secrets : list ResolvedSecret) : Prop :=
  match authentication with
  | McpNone => secrets = []
  | McpBearer _ => exists secret, secrets = [secret] /\ is_ok (mcp_bearer_header secret) = true /\
      Z.of_nat (length (expose (current_value secret))) <= MAX_SECRET_BYTES
  end.

Lemma authorize_usable authentication secrets n bytes headers :
  usable authentication secrets -> headers_within n bytes headers ->
  exists headers', authorize authentication secrets headers = Ok headers' /\ headers_within (n + 1) (bytes + 1048) headers'.
Proof.
  destruct authentication; cbn [usable authorize]; intros Hu Hw; [exists headers; split; [done|eapply within_le; [..|done]; lia]|].
  destruct Hu as (secret & -> & Hok & Hlen). cbn [head ok_or mbind result_bind]. destruct (mcp_bearer_header secret) as [v|] eqn:Hv; [|done].
  apply mcp_bearer_header_spec in Hv as ->. eexists. split; [done|]. eapply within_le; [reflexivity| |by apply within_insert].
  unfold set_sensitive. cbn [hv_bytes]. rewrite length_app. change (str_len AUTHORIZATION) with 13. change (length (str "Bearer ")) with 7%nat. unfold MAX_SECRET_BYTES in Hlen. lia.
Qed.

(** The two messages of a discovery in the modern revision. *)
Definition modern_step (step : DiscoveryStep) : Prop :=
  match step with StepDiscover _ => True | StepList _ version => version = V2026_07_28 | _ => False end.

Lemma step_request_modern client limits step :
  modern_step step -> exists q, step_request client limits step = Ok q /\ headers_within 4 400 (cr_headers q).
Proof.
  intros Hstep. assert (exists method shape id, step_request client limits step =
      client_request client id method (Some empty_object) (Some V2026_07_28) shape /\ method ∈ [DISCOVER_METHOD; LIST_TOOLS_METHOD])
    as (method & shape & id & -> & Hm).
  { destruct step; try done; [eexists _, _, _; split; [done|by left]|]. cbn in Hstep. subst version. eexists _, _, _; split; [done|by right; left]. }
  assert (exists p, routed_params client (Some empty_object) (Some V2026_07_28) = Ok (Some p)) as [p Hp] by (by eexists).
  unfold client_request. rewrite Hp. cbn [mbind result_bind].
  rewrite bool_decide_false by (intros ->; revert Hm; by apply (bool_decide_unpack _); vm_compute).
  cbn [mbind result_bind fmap option_fmap option_map]. unfold McpClientRequest_new. cbn [routing_headers is_modern mbind result_bind].
  match goal with |- context [to_vec ?v] => destruct (to_vec_total v) as [bytes ->] end. cbn [ok_or mbind result_bind]. eexists. split; [done|]. cbn [cr_headers].
  eapply within_le; [| |apply within_insert, within_insert, within_insert, within_insert, within_new]; [done|].
  apply elem_of_cons in Hm as [->|Hm%list_elem_of_singleton]; [vm_compute; discriminate|subst method; vm_compute; discriminate].
Qed.

Lemma advance_sends endpoint authentication policy client limits deadline secrets next next' state step mk :
  endpoint_scheme endpoint ∈ [SchemeHttp; SchemeHttps] -> usable authentication secrets -> modern_step step ->
  (forall q, step_request client limits step = Ok q -> Z.of_nat (length (cr_body q)) <= MAX_HTTP_REQUEST_BODY_BYTES) ->
  exists rq q, discovery_advance (running endpoint authentication policy client limits deadline secrets next state) next'
      (step_request client limits step) mk =
      (DiscoveryHttp rq, running endpoint authentication policy client limits deadline secrets next' (mk (cr_decoder q))) /\
    step_request client limits step = Ok q /\ carries q authentication secrets rq.
Proof.
  intros Hscheme Husable Hstep Hfits. destruct (step_request_modern client limits step Hstep) as (q & Hq & Hw). specialize (Hfits q Hq).
  destruct (authorize_usable authentication secrets 4 400 (cr_headers q) Husable Hw) as (hs & Hauth & Hw').
  unfold discovery_advance. rewrite Hq. cbn [map_err mbind result_bind]. unfold discovery_compose.
  cbn [discovery_set running do_authentication do_secrets do_deadline do_endpoint do_policy do_limits do_client do_state].
  rewrite Hauth. cbn [map_err mbind result_bind ok_or].
  assert (headers_bounded hs) as Hbounded by (destruct Hw'; unfold headers_bounded, MAX_HTTP_HEADERS, MAX_HTTP_HEADER_BYTES; lia).
  rewrite (proj2 (HttpRequest_new_spec _ _ _ _ _ _ _ _) (conj eq_refl (conj Hscheme (conj Hfits Hbounded)))).
  apply authorize_spec in Hauth as [Hcred Hkeep]. by eexists _, q.
Qed.

End against.

(** ** Examples

    A service with one capability that returns its arguments, served to an outbound route. *)

Module Example.
Import HttpLib.Sample.
#[local] Existing Instances SampleCodec.writer SampleCodec.reader SampleCodec.codec_spec unpadded_standard unpadded_standard_spec.
#[local] Instance any_schema : JsonSchema := {|
  SchemaValidator := unit; schema_meta_valid _ := true; schema_compile _ := Some tt; schema_accepts _ _ := true |}.

Definition notes : CapabilityId := mk_id (str "notes.create").
Definition descriptor : CapabilityDescriptor unit := mk_descriptor notes (str "Creates a note") Mutating CapabilityInputSchema_default.
#[local] Instance echo_service : AutomationService unit nat := {|
  service_capabilities _ _ _ := Ok [descriptor];
  service_dispatch i s := (if bool_decide (inv_capability i = notes) then Ok (inv_input i) else Err (DispatchCapabilityNotFound (inv_capability i)), S s);
|}.
#[local] Instance ids : InvocationIdGenerator nat := fun s => (Ok (mk_id (str "request_1")), s).

Definition client : McpClientInfo := mk_client_info (str "bondry-egress") (str "0.2.0").
Definition adapter : McpAdapter := mk_mcp_adapter MCP_ADAPTER (mk_server_info (str "app") None (str "1")).
Definition user : Principal := mk_principal (mk_id (str "user")) User.
Definition arguments : Value := json_object [(str "title", JString (str "hello"))].
Definition payload : list byte := default [] (to_vec arguments).

Definition endpoint : NetworkEndpoint := mk_endpoint (mk_uri (Some (str "https")) (Some (str "example.com")) MCP_PATH None) SchemeHttps.
Definition token : ResolvedSecret := ResolvedSecret_current (mk_secret (str "token+/==")).
Definition configuration : McpConfiguration :=
  mk_mcp_configuration endpoint (McpBearer (mk_secret_ref (str "keychain:mcp"))) EndpointPolicy_default client V2026_07_28
    (mk_binding (str "notes.create") empty_object tt) McpLimits_default MAX_EVENT_PAYLOAD_BYTES (redacted_target endpoint (str "notes.create")) false.

Definition arriving (rq : Transport.HttpRequest) : Request (list byte) :=
  HttpServer.mk_http_request (rq_method rq) (mk_uri None None MCP_PATH None) (rq_headers rq) (rq_body rq).
Definition returned (response : Response) : Transport.HttpResponse :=
  mk_http_response (resp_status response) (resp_headers response) (resp_body response) (mk_verified EvidenceMissing).

Lemma default_limits_wf : limits_wf McpLimits_default.
Proof. exists DEFAULT_MCP_SCHEMA_BYTES, DEFAULT_MCP_RESULT_BYTES. reflexivity. Defined.

(** The surroundings count nanoseconds and hand every request to the adapter. *)
#[local] Instance surroundings : Surroundings Z := {
  instant_now e := (e, e + 1);
  system_time e := (Some e, e);
  resolve_secret _ e := (Ok token, e);
  timed_send _ rq e := (Some (Ok (returned (mcp_handle adapter (arriving rq) user 0%nat).1)), e + 5);
}.


(** Reads the answers of concrete runs. *)
Definition composed {A E} (r : result E A) : bool := if r is Ok _ then true else false.
Definition requests (t : McpDiscoveryTransition) : bool := if t is DiscoveryHttp _ then true else false.

Lemma mcp_reaches_capability_witness :
  exists rq decoder, mcp_compose_request configuration payload (mk_attempt_context 0 100) [token] = Ok (rq, decoder) /\
    settles configuration Call (Ok arguments)
      (mcp_settled configuration Call decoder (Some (Ok (returned (mcp_handle adapter (arriving rq) user 0%nat).1)))).
Proof.
  assert (composed (mcp_compose_request configuration payload (mk_attempt_context 0 100) [token]) = true) as Hc by (vm_compute; reflexivity).
  destruct (mcp_compose_request configuration payload (mk_attempt_context 0 100) [token]) as [[rq decoder]|e] eqn:Hq; [|discriminate Hc].
  exists rq, decoder. split; [reflexivity|].
  assert (arrives rq (arriving rq)) as Ha by (split; [reflexivity|]; split; [reflexivity|]; apply Forall_true; reflexivity).
  destruct (mcp_handle adapter (arriving rq) user 0%nat) as [response s'] eqn:Hh. cbn [fst].
  assert (returns response (returned response)) as Hr by (split; [reflexivity|]; split; reflexivity).
  assert (Forall (fun c => is_scalar c = true) (str "notes.create")) as Hn by (repeat constructor).
  pose proof (mcp_reaches_capability configuration Call payload (mk_attempt_context 0 100) [token] rq decoder (arriving rq) adapter user 0%nat response s'
    (returned response) arguments default_limits_wf ltac:(vm_compute; reflexivity) ltac:(vm_compute; reflexivity) Hn ltac:(vm_compute; reflexivity) ltac:(vm_compute; reflexivity)
    ltac:(vm_compute; reflexivity) Hq Ha Hh Hr) as H.
  assert (Identifier_new (binding_name (mc_tool configuration)) = Ok notes) as Hi by (vm_compute; reflexivity).
  generalize dependent (mcp_settled configuration Call decoder (Some (Ok (returned response)))). intros completed H.
  rewrite Hi in H.
  destruct H as [_ H]. apply H; [vm_compute; reflexivity|]. split; vm_compute; [reflexivity|discriminate].
Defined.

Definition discovery : McpDiscoveryOperation :=
  mk_discovery endpoint McpNone EndpointPolicy_default client McpDiscoveryLimits_default None [] 1 DiscoveryReady.
Definition unreadable : Transport.HttpResponse := mk_http_response 200 headers_new [] (mk_verified EvidenceMissing).

(** An endpoint whose answer is not JSON: the discovery ends after one request. *)
Lemma discovery_sound_witness :
  McpDiscoveryOperation_new endpoint McpNone EndpointPolicy_default client McpDiscoveryLimits_default = Ok discovery /\
  let '(t, op1) := discovery_start discovery 100 [] in
  let '(rqs, final, op2) := discovery_run t op1 [Ok unreadable] in
  length rqs = 1%nat /\ exists steps, planned steps /\
    Forall2 (step_sent endpoint McpNone EndpointPolicy_default client McpDiscoveryLimits_default 100 []) steps rqs.
Proof.
  split; [reflexivity|].
  pose proof (discovery_sound endpoint McpNone EndpointPolicy_default client McpDiscoveryLimits_default discovery 100 []
    [Ok unreadable] eq_refl) as H.
  assert ((let '(t, op1) := discovery_start discovery 100 [] in
    let '(rqs, _, _) := discovery_run t op1 [Ok unreadable] in length rqs) = 1%nat) as Hl by (vm_compute; reflexivity).
  destruct (discovery_start discovery 100 []) as [t op1]. destruct (discovery_run t op1 [Ok unreadable]) as [[rqs final] op2].
  destruct H as (steps & Hp & _ & Hs & _). split; [exact Hl|]. exists steps. split; [exact Hp|exact Hs].
Defined.

(** The answer of the adapter to the request of a transition. *)
Definition answered (t : McpDiscoveryTransition) : result TransportError Transport.HttpResponse :=
  if t is DiscoveryHttp rq then Ok (returned (mcp_handle adapter (arriving rq) user 0%nat).1) else Ok unreadable.

Definition discovery_bearer : McpDiscoveryOperation :=
  mk_discovery endpoint (McpBearer (mk_secret_ref (str "keychain:mcp"))) EndpointPolicy_default client McpDiscoveryLimits_default None [] 1 DiscoveryReady.

End Example.
