(* ===== verification/Route.v ===== *)
(** * Route: the route registry and its admission control

    route.rs of [bondry-egress]: the token bucket, the bounded registry and the
    validation of one operation against its route. *)

From S2P Require Import Prelude Text Identifiers DeliveryStore EgressLimits Json Lifecycle Payload Kind.

(** ** The token bucket

    Units are nanotokens; [u128] arithmetic saturates at [U128_MAX]. *)

Definition TOKEN_UNITS : Z := 1000000000.

Record TokenBucket := mk_bucket {
  tb_refill_per_second : Z;
  tb_capacity_units : Z;
  tb_available_units : Z;
  tb_last_refill : EgressInstant;
}.

Definition TokenBucket_new (refill capacity : Z) : TokenBucket :=
  let capacity_units := capacity * TOKEN_UNITS in
  mk_bucket refill capacity_units capacity_units 0.

Definition TokenBucket_refill (b : TokenBucket) (now : EgressInstant) : TokenBucket :=
  if now <=? tb_last_refill b then b
  else
    let elapsed := sat_sub now (tb_last_refill b) in
    let added := sat_mul U128_MAX elapsed (tb_refill_per_second b) in
    mk_bucket (tb_refill_per_second b) (tb_capacity_units b)
      (Z.min (sat_add U128_MAX (tb_available_units b) added) (tb_capacity_units b)) now.

Definition TokenBucket_has_token (b : TokenBucket) : bool := TOKEN_UNITS <=? tb_available_units b.

Definition TokenBucket_take (b : TokenBucket) : TokenBucket :=
  mk_bucket (tb_refill_per_second b) (tb_capacity_units b)
    (sat_sub (tb_available_units b) TOKEN_UNITS) (tb_last_refill b).

(** ** Routes and the registry *)

Inductive RouteRegistryError :=
| RouteAlreadyExists | RouteCapacityExhausted | PayloadLimitUnsupported | RegistryRouteNotFound.
#[global] Instance RouteRegistryError_eq_dec : EqDecision RouteRegistryError.
Proof. solve_decision. Defined.

Inductive AdmissionError :=
| RouteNotFound
| RouteDisabled
| UnsupportedOperation
| AdmissionPayload (e : PayloadError)
| GlobalRateLimited
| RouteRateLimited
| AdmissionKind (e : KindOperationError).
#[global] Instance AdmissionError_eq_dec : EqDecision AdmissionError.
Proof. solve_decision. Defined.

Section registry.
  Context `{W : Wire} (parse : list Z -> option Value).

Record Route := mk_route {
  route_id : RouteId;
  route_enabled : bool;
  route_payload : PayloadContract;
  route_timeout : Z;
  route_retry : RetryPolicy;
  route_admission : AdmissionLimit;
  route_kind : DeliveryKind;
}.

Definition route_with_enabled (r : Route) (enabled : bool) : Route :=
  mk_route (route_id r) enabled (route_payload r) (route_timeout r) (route_retry r)
    (route_admission r) (route_kind r).

Record RouteSummary := mk_route_summary {
  rs_id : RouteId;
  rs_enabled : bool;
  rs_kind : rstr;
  rs_target : rstr;
}.

Definition Route_summary (r : Route) : RouteSummary :=
  mk_route_summary (route_id r) (route_enabled r) (kind_name (route_kind r)) (target_summary (route_kind r)).

Record RouteEntry := mk_entry {
  entry_route : Route;
  entry_admission : TokenBucket;
}.

Record RouteRegistry := mk_registry {
  reg_limit : Z;
  reg_global_admission : TokenBucket;
  reg_routes : gmap RouteId RouteEntry;
}.

Definition reg_with_routes (g : RouteRegistry) (routes : gmap RouteId RouteEntry) : RouteRegistry :=
  mk_registry (reg_limit g) (reg_global_admission g) routes.

Definition RouteRegistry_new (limit : Z) (global : AdmissionLimit) : RouteRegistry :=
  mk_registry limit (TokenBucket_new (refill_per_second global) (capacity global)) ∅.

Definition RouteRegistry_register (route : Route) (g : RouteRegistry) :
    result RouteRegistryError unit * RouteRegistry :=
  match reg_routes g !! route_id route with
  | Some _ => (Err RouteAlreadyExists, g)
  | None =>
      if reg_limit g <=? Z.of_nat (size (reg_routes g)) then (Err RouteCapacityExhausted, g)
      else if max_payload_bytes (route_kind route) <? contract_limit (route_payload route)
      then (Err PayloadLimitUnsupported, g)
      else
        let admission := TokenBucket_new (refill_per_second (route_admission route))
                           (capacity (route_admission route)) in
        (Ok tt, reg_with_routes g (<[route_id route := mk_entry route admission]> (reg_routes g)))
  end.

Definition RouteRegistry_set_enabled (id : RouteId) (enabled : bool) (g : RouteRegistry) :
    result RouteRegistryError unit * RouteRegistry :=
  match reg_routes g !! id with
  | None => (Err RegistryRouteNotFound, g)
  | Some entry =>
      (Ok tt, reg_with_routes g
         (<[id := mk_entry (route_with_enabled (entry_route entry) enabled) (entry_admission entry)]> (reg_routes g)))
  end.

Definition RouteRegistry_unregister (id : RouteId) (g : RouteRegistry) : bool * RouteRegistry :=
  (bool_decide (is_Some (reg_routes g !! id)), reg_with_routes g (delete id (reg_routes g))).

Definition RouteRegistry_routes (g : RouteRegistry) : list RouteSummary :=
  (fun entry => Route_summary (entry_route entry)) <$> btree_values (reg_routes g).

Definition validate_call_route (id : RouteId) (g : RouteRegistry) : result AdmissionError unit :=
  match reg_routes g !! id with
  | None => Err RouteNotFound
  | Some entry =>
      if negb (route_enabled (entry_route entry)) then Err RouteDisabled
      else if negb (supports_call (route_kind (entry_route entry))) then Err UnsupportedOperation
      else Ok tt
  end.

(** [AdmittedDelivery], which [into_parts] only takes apart. *)
Record AdmittedDelivery := mk_admitted {
  ad_route : RouteId;
  ad_delivery : DeliveryId;
  ad_mode : OperationMode;
  ad_payload : list byte;
  ad_timeout : Z;
  ad_retry : RetryPolicy;
  ad_kind : DeliveryKind;
}.

Definition AdmittedDelivery_intent (a : AdmittedDelivery) (accepted_at : Z) : DeliveryIntent :=
  mk_intent (ad_route a) (ad_delivery a) accepted_at.

Definition payload_bytes (a : AdmittedDelivery) : Z := Z.of_nat (length (ad_payload a)).

(** The checks of [admit] before the rate limits. *)
Definition admit_check (entry : RouteEntry) (payload : list byte) (mode : OperationMode) :
    result AdmissionError (list byte) :=
  let r := entry_route entry in
  if negb (route_enabled r) then Err RouteDisabled
  else if bool_decide (mode = Call) && negb (supports_call (route_kind r)) then Err UnsupportedOperation
  else
    payload ← map_err AdmissionPayload (PayloadContract_validate parse (route_payload r) payload);
    _ ← map_err AdmissionKind (kind_validate_payload (route_kind r) mode payload);
    Ok payload.

Definition RouteRegistry_admit (id : RouteId) (delivery : DeliveryId) (payload : list byte) (mode : OperationMode)
    (now : EgressInstant) (g : RouteRegistry) : result AdmissionError AdmittedDelivery * RouteRegistry :=
  match reg_routes g !! id with
  | None => (Err RouteNotFound, g)
  | Some entry =>
      match admit_check entry payload mode with
      | Err e => (Err e, g)
      | Ok payload =>
          let r := entry_route entry in
          let admitted := mk_admitted id delivery mode payload (route_timeout r)
            (if bool_decide (mode = Call) then RetryPolicy_without_retries else route_retry r) (route_kind r) in
          match mode with
          | Call => (Ok admitted, g)
          | Emit =>
              let global := TokenBucket_refill (reg_global_admission g) now in
              let local := TokenBucket_refill (entry_admission entry) now in
              let store global local :=
                mk_registry (reg_limit g) global (<[id := mk_entry r local]> (reg_routes g)) in
              if negb (TokenBucket_has_token global) then (Err GlobalRateLimited, store global local)
              else if negb (TokenBucket_has_token local) then (Err RouteRateLimited, store global local)
              else (Ok admitted, store (TokenBucket_take global) (TokenBucket_take local))
          end
      end
  end.

Definition admit_emit (id : RouteId) (delivery : DeliveryId) (payload : list byte) (now : EgressInstant)
    (g : RouteRegistry) : result AdmissionError AdmittedDelivery * RouteRegistry :=
  RouteRegistry_admit id delivery payload Emit now g.

Definition admit_call (id : RouteId) (delivery : DeliveryId) (payload : list byte) (now : EgressInstant)
    (g : RouteRegistry) : result AdmissionError AdmittedDelivery * RouteRegistry :=
  RouteRegistry_admit id delivery payload Call now g.

End registry.

(** ** The bucket as an allowance

    [allowance T b]: the units the bucket holds plus what it can still earn until [T].
    Refilling never raises it and taking a token spends a token's worth; this is the
    whole argument of the rate bound. *)
Definition bucket_wf (b : TokenBucket) : Prop :=
  0 <= tb_refill_per_second b /\ 0 <= tb_available_units b <= tb_capacity_units b /\
  tb_capacity_units b <= U128_MAX /\ 0 <= tb_last_refill b.

Definition allowance (T : Z) (b : TokenBucket) : Z :=
  tb_available_units b + tb_refill_per_second b * (T - tb_last_refill b).

Lemma TokenBucket_new_wf a : admission_wf a -> bucket_wf (TokenBucket_new (refill_per_second a) (capacity a)).
Proof. unfold admission_wf, bucket_wf, U128_MAX. simpl. unfold TOKEN_UNITS. lia. Qed.

Lemma refill_wf b now : bucket_wf b -> bucket_wf (TokenBucket_refill b now).
Proof.
  unfold bucket_wf, TokenBucket_refill, sat_mul, sat_add, sat_sub. intros (Hr & Ha & Hc & Hl).
  destruct (Z.leb_spec now (tb_last_refill b)); simpl; [done|]. unfold U128_MAX in *. nia.
Qed.

Lemma take_wf b : bucket_wf b -> bucket_wf (TokenBucket_take b).
Proof. unfold bucket_wf, TokenBucket_take, sat_sub. simpl. unfold TOKEN_UNITS. lia. Qed.

Lemma refill_allowance T b now :
  bucket_wf b -> now <= T -> allowance T (TokenBucket_refill b now) <= allowance T b.
Proof.
  unfold bucket_wf, allowance, TokenBucket_refill, sat_mul, sat_add, sat_sub. intros (Hr & Ha & Hc & Hl) HT.
  destruct (Z.leb_spec now (tb_last_refill b)); simpl; [done|].
  assert (Z.max 0 (now - tb_last_refill b) = now - tb_last_refill b) as -> by lia.
  set (d := now - tb_last_refill b). replace (T - now) with (T - tb_last_refill b - d) by (unfold d; lia).
  rewrite Z.mul_sub_distr_l. rewrite (Z.mul_comm _ d). lia.
Qed.

Lemma take_allowance T b :
  TokenBucket_has_token b = true -> allowance T (TokenBucket_take b) = allowance T b - TOKEN_UNITS.
Proof.
  unfold TokenBucket_has_token, allowance, TokenBucket_take, sat_sub. simpl.
  destruct (Z.leb_spec TOKEN_UNITS (tb_available_units b)); [|done]. lia.
Qed.

Lemma refill_earns b now : bucket_wf b -> tb_available_units b <= tb_available_units (TokenBucket_refill b now).
Proof.
  unfold bucket_wf, TokenBucket_refill, sat_add, sat_mul, sat_sub. intros (? & ? & ? & ?). case_match; simpl; [done|].
  assert (0 <= Z.max 0 (now - tb_last_refill b) * tb_refill_per_second b) by nia. unfold U128_MAX in *. lia.
Qed.

Lemma allowance_nonneg T b : bucket_wf b -> tb_last_refill b <= T -> 0 <= allowance T b.
Proof. unfold bucket_wf, allowance. intros. nia. Qed.

Lemma refill_last T b now : tb_last_refill b <= T -> now <= T -> tb_last_refill (TokenBucket_refill b now) <= T.
Proof. unfold TokenBucket_refill. case_match; simpl; auto. Qed.

(** The refill arithmetic.  For the policies the constructors accept and any
    instant a [Duration] can hold, no [u128] operation saturates: the bucket earns
    exactly [rate] nanotokens per elapsed nanosecond up to its capacity, and an instant
    that is not later changes nothing. *)
Theorem refill_exact a b now :
  admission_wf a -> tb_refill_per_second b = refill_per_second a ->
  tb_capacity_units b = capacity a * TOKEN_UNITS -> 0 <= tb_available_units b <= tb_capacity_units b ->
  0 <= tb_last_refill b -> now <= DURATION_MAX ->
  TokenBucket_refill b now =
    mk_bucket (tb_refill_per_second b) (tb_capacity_units b)
      (Z.min (tb_available_units b + Z.max 0 (now - tb_last_refill b) * refill_per_second a) (tb_capacity_units b))
      (Z.max (tb_last_refill b) now).
Proof.
  intros (Hr & Hc) Hrb Hcb Ha Hl Hn. unfold TokenBucket_refill, sat_sub, sat_mul, sat_add. rewrite Hrb.
  destruct (Z.leb_spec now (tb_last_refill b)).
  - replace (Z.max 0 (now - tb_last_refill b)) with 0 by lia. rewrite Z.mul_0_l, Z.add_0_r.
    rewrite Z.min_l, Z.max_l by lia. rewrite <-Hrb. by destruct b.
  - rewrite (Z.max_r (tb_last_refill b) now) by lia.
    assert (Z.max 0 (now - tb_last_refill b) * refill_per_second a <= DURATION_MAX * 1000) as Hm.
    { apply Z.mul_le_mono_nonneg; lia. }
    unfold U128_MAX, DURATION_MAX, NANOS_PER_SEC, TOKEN_UNITS in *. f_equal. nia.
Qed.

(** ** The registry's invariant and its histories *)

Section registry_facts.
  Context `{W : Wire} (parse : list Z -> option Value).
  Implicit Types g : RouteRegistry.

Definition route_wf (r : Route) : Prop :=
  admission_wf (route_admission r) /\ retry_wf (route_retry r) /\
  contract_limit (route_payload r) <= max_payload_bytes (route_kind r).

Definition reg_wf g : Prop :=
  bucket_wf (reg_global_admission g) /\
  Z.of_nat (size (reg_routes g)) <= reg_limit g /\
  forall id e, reg_routes g !! id = Some e ->
    route_id (entry_route e) = id /\ route_wf (entry_route e) /\ bucket_wf (entry_admission e).

(** The operations on a registry.  A registered route is built from validated parts. *)
Inductive RegOp :=
| RegRegister (r : Route)
| RegSetEnabled (id : RouteId) (enabled : bool)
| RegUnregister (id : RouteId)
| RegAdmit (id : RouteId) (delivery : DeliveryId) (payload : list byte) (mode : OperationMode) (now : Z).

Definition reg_apply (op : RegOp) g : option AdmittedDelivery * RouteRegistry :=
  match op with
  | RegRegister r => (None, (RouteRegistry_register r g).2)
  | RegSetEnabled id b => (None, (RouteRegistry_set_enabled id b g).2)
  | RegUnregister id => (None, (RouteRegistry_unregister id g).2)
  | RegAdmit id d p m now =>
      let '(r, g) := RouteRegistry_admit parse id d p m now g in
      (match r with Ok a => Some a | Err _ => None end, g)
  end.

Fixpoint reg_run (ops : list RegOp) g : list AdmittedDelivery * RouteRegistry :=
  match ops with
  | [] => ([], g)
  | op :: ops =>
      let '(a, g) := reg_apply op g in
      let '(rest, g) := reg_run ops g in
      (match a with Some a => a :: rest | None => rest end, g)
  end.

Definition reg_op_ok (T : Z) (op : RegOp) : Prop :=
  match op with
  | RegRegister r => admission_wf (route_admission r) /\ retry_wf (route_retry r)
  | RegAdmit _ _ _ _ now => now <= T
  | _ => True
  end.

(** Every entry the operation did not create comes from an entry of the same route. *)
Lemma admit_cases id d p m now g :
  reg_wf g ->
  match RouteRegistry_admit parse id d p m now g with
  | (Err _, g') =>
      g' = g \/ exists e, reg_routes g !! id = Some e /\
        g' = mk_registry (reg_limit g) (TokenBucket_refill (reg_global_admission g) now)
               (<[id := mk_entry (entry_route e) (TokenBucket_refill (entry_admission e) now)]> (reg_routes g))
  | (Ok a, g') => exists e, reg_routes g !! id = Some e /\
      admit_check parse e p m = Ok (ad_payload a) /\
      a = mk_admitted id d m (ad_payload a) (route_timeout (entry_route e))
            (if bool_decide (m = Call) then RetryPolicy_without_retries else route_retry (entry_route e))
            (route_kind (entry_route e)) /\
      match m with
      | Call => g' = g
      | Emit =>
          let global := TokenBucket_refill (reg_global_admission g) now in
          let local := TokenBucket_refill (entry_admission e) now in
          TokenBucket_has_token global = true /\ TokenBucket_has_token local = true /\
          g' = mk_registry (reg_limit g) (TokenBucket_take global)
                 (<[id := mk_entry (entry_route e) (TokenBucket_take local)]> (reg_routes g))
      end
  end.
Proof.
  intros Hg. unfold RouteRegistry_admit. destruct (reg_routes g !! id) as [e|]; [|by left].
  destruct (admit_check parse e p m) as [p'|]  eqn:Hc; [|by left]. destruct m.
  - destruct (TokenBucket_has_token (TokenBucket_refill (reg_global_admission g) now)) eqn:H1; [|by right; exists e].
    destruct (TokenBucket_has_token (TokenBucket_refill (entry_admission e) now)) eqn:H2; [|by right; exists e].
    exists e. done.
  - exists e. done.
Qed.

Lemma reg_wf_store g e id global local :
  reg_wf g -> reg_routes g !! id = Some e -> bucket_wf global -> bucket_wf local ->
  reg_wf (mk_registry (reg_limit g) global (<[id := mk_entry (entry_route e) local]> (reg_routes g))).
Proof.
  intros (Hb & Hs & Hr) He Hglobal Hlocal. split; [done|]. simpl. rewrite map_size_insert, He. split; [done|].
  intros id' e'. destruct (decide (id' = id)) as [-> |Hne].
  - rewrite lookup_insert_eq. intros [= <-]. simpl. destruct (Hr _ _ He) as (? & ? & _). done.
  - rewrite lookup_insert_ne by done. apply Hr.
Qed.

Lemma reg_apply_wf T op g : reg_wf g -> reg_op_ok T op -> reg_wf (reg_apply op g).2.
Proof.
  intros Hg Hop. destruct op as [r|id b|id|id d p m now]; simpl in *.
  - unfold RouteRegistry_register. destruct (reg_routes g !! route_id r) as [e|] eqn:He; [done|].
    destruct (Z.leb_spec (reg_limit g) (Z.of_nat (size (reg_routes g)))); [done|].
    destruct (Z.ltb_spec (max_payload_bytes (route_kind r)) (contract_limit (route_payload r))); [done|].
    destruct Hg as (Hb & Hs & Hr). split; [done|]. simpl. rewrite map_size_insert, He. split; [lia|].
    intros id' e'. destruct (decide (id' = route_id r)) as [-> |Hne].
    + rewrite lookup_insert_eq. intros [= <-]. simpl. destruct Hop.
      split; [done|]. split; [done|]. by apply TokenBucket_new_wf.
    + rewrite lookup_insert_ne by done. apply Hr.
  - unfold RouteRegistry_set_enabled. destruct (reg_routes g !! id) as [e|] eqn:He; [|done].
    destruct Hg as (Hb & Hs & Hr). split; [done|]. simpl. rewrite map_size_insert, He. split; [done|].
    intros id' e'. destruct (decide (id' = id)) as [-> |Hne].
    + rewrite lookup_insert_eq. intros [= <-]. simpl. destruct (Hr _ _ He) as (? & ? & ?). done.
    + rewrite lookup_insert_ne by done. apply Hr.
  - destruct Hg as (Hb & Hs & Hr). split; [done|]. simpl. split.
    + rewrite map_size_delete. destruct (reg_routes g !! id); simpl; lia.
    + intros id' e' [_ He]%lookup_delete_Some. by apply Hr.
  - pose proof (admit_cases id d p m now g Hg) as Hc. pose proof Hg as (Hb & _ & Hr).
    destruct (RouteRegistry_admit parse id d p m now g) as [[a|e] g']; simpl.
    + destruct Hc as (e & He & _ & _ & Hg'). destruct m; [|by subst].
      destruct Hg' as (_ & _ & ->). destruct (Hr _ _ He) as (_ & _ & ?).
      by apply reg_wf_store; auto using take_wf, refill_wf.
    + destruct Hc as [->|(e' & He & ->)]; [done|]. destruct (Hr _ _ He) as (_ & _ & ?).
      by apply reg_wf_store; auto using refill_wf.
Qed.

(** No bucket was refilled after [T]. *)
Definition reg_before (T : Z) g : Prop :=
  tb_last_refill (reg_global_admission g) <= T /\
  forall id e, reg_routes g !! id = Some e -> tb_last_refill (entry_admission e) <= T.

Definition route_allowance (T : Z) (id : RouteId) g : Z :=
  match reg_routes g !! id with Some e => allowance T (entry_admission e) | None => 0 end.

(** The one-way deliveries of a history, of all routes and of one. *)
Definition emitted (a : AdmittedDelivery) : bool := bool_decide (ad_mode a = Emit).
Definition emits (l : list AdmittedDelivery) : Z := Z.of_nat (length (filter (fun a => emitted a) l)).
Definition emits_on (id : RouteId) (l : list AdmittedDelivery) : Z :=
  Z.of_nat (length (filter (fun a => emitted a && bool_decide (ad_route a = id)) l)).

Definition registers (id : RouteId) (op : RegOp) : Prop :=
  match op with RegRegister r => route_id r = id | _ => False end.

Lemma route_allowance_nonneg T id g : reg_wf g -> reg_before T g -> 0 <= route_allowance T id g.
Proof.
  intros (_ & _ & Hr) (_ & Hl). unfold route_allowance. destruct (reg_routes g !! id) as [e|] eqn:He; [|done].
  apply allowance_nonneg; [by apply (Hr id)|by apply (Hl id)].
Qed.

Lemma route_allowance_store T id id' g e e' global :
  reg_routes g !! id = Some e -> allowance T (entry_admission e') <= allowance T (entry_admission e) ->
  route_allowance T id' (mk_registry (reg_limit g) global (<[id := e']> (reg_routes g))) <= route_allowance T id' g.
Proof.
  intros He Hle. unfold route_allowance. simpl. destruct (decide (id' = id)) as [-> |Hne].
  - by rewrite lookup_insert_eq, He.
  - by rewrite lookup_insert_ne.
Qed.

Lemma reg_before_insert T g id e global :
  reg_before T g -> tb_last_refill global <= T -> tb_last_refill (entry_admission e) <= T ->
  reg_before T (mk_registry (reg_limit g) global (<[id := e]> (reg_routes g))).
Proof.
  intros [_ Hl] H1 H2. split; [done|]. intros id' e'. simpl. destruct (decide (id' = id)) as [-> |Hne].
  - rewrite lookup_insert_eq. by intros [= <-].
  - rewrite lookup_insert_ne by done. apply Hl.
Qed.

Lemma emits_one a : emits [a] = if emitted a then 1 else 0.
Proof. unfold emits. rewrite filter_cons, filter_nil. by destruct (emitted a). Qed.

Lemma emits_on_one id a : emits_on id [a] = if emitted a && bool_decide (ad_route a = id) then 1 else 0.
Proof. unfold emits_on. rewrite filter_cons, filter_nil. by destruct (emitted a && _). Qed.

(** An operation spends from the allowances exactly what it admits. *)
Lemma reg_apply_spends T op g :
  0 <= T -> reg_wf g -> reg_before T g -> reg_op_ok T op ->
  let '(a, g') := reg_apply op g in
  reg_before T g' /\
  emits (option_list a) * TOKEN_UNITS + allowance T (reg_global_admission g')
    <= allowance T (reg_global_admission g) /\
  forall id, ~ registers id op ->
    emits_on id (option_list a) * TOKEN_UNITS + route_allowance T id g' <= route_allowance T id g.
Proof.
  intros HT Hg Hb Hop. pose proof Hb as [Hlast Hlasts].
  assert (forall P : RouteId -> Prop, reg_before T g /\
    0 * TOKEN_UNITS + allowance T (reg_global_admission g) <= allowance T (reg_global_admission g) /\
    forall id, P id -> 0 * TOKEN_UNITS + route_allowance T id g <= route_allowance T id g) as Hnoop by done.
  destruct op as [r|id b|id|id d p m now]; simpl in *.
  - unfold RouteRegistry_register. destruct (reg_routes g !! route_id r) as [e|] eqn:He; [apply Hnoop|].
    case_match; [apply Hnoop|]. case_match; [apply Hnoop|]. split; [|split; [done|]].
    + by apply reg_before_insert.
    + intros id Hid. unfold route_allowance. simpl. by rewrite lookup_insert_ne.
  - unfold RouteRegistry_set_enabled. destruct (reg_routes g !! id) as [e|] eqn:He; [|apply Hnoop].
    split; [|split; [done|]].
    + apply reg_before_insert; [done|done|]. exact (Hlasts id e He).
    + intros id' _. by apply (route_allowance_store T id id' g e (mk_entry _ _)).
  - split; [|split; [done|]].
    + split; [done|]. simpl. intros id' e' [_ He]%lookup_delete_Some. exact (Hlasts id' e' He).
    + intros id' _. pose proof (route_allowance_nonneg T id' g Hg Hb). unfold route_allowance in *. simpl.
      destruct (decide (id' = id)) as [-> |Hne]; [by rewrite lookup_delete_eq|by rewrite lookup_delete_ne].
  - pose proof (admit_cases id d p m now g Hg) as Hc. pose proof Hg as (Hbg & _ & Hr).
    destruct (RouteRegistry_admit parse id d p m now g) as [[a|err] g']; simpl.
    + destruct Hc as (e & He & _ & Ha & Hg'). destruct (Hr _ _ He) as (_ & _ & Hbe).
      assert (ad_mode a = m /\ ad_route a = id) as [Hm Hid] by (rewrite Ha; done).
      rewrite emits_one. setoid_rewrite emits_on_one. unfold emitted. rewrite Hm, Hid.
      destruct m; simpl; [|subst g'; apply Hnoop].
      destruct Hg' as (Ht1 & Ht2 & ->). simpl.
      pose proof (refill_allowance T _ now Hbg Hop). pose proof (refill_allowance T _ now Hbe Hop).
      pose proof (take_allowance T _ Ht1). pose proof (take_allowance T _ Ht2).
      split; [|split; [lia|]].
      * apply reg_before_insert; [done|..]; simpl; apply refill_last; eauto.
      * intros id' _. unfold route_allowance. simpl. destruct (decide (id = id')) as [<-|Hne].
        -- rewrite bool_decide_eq_true_2 by done. rewrite lookup_insert_eq, He. simpl. lia.
        -- rewrite bool_decide_eq_false_2 by done. by rewrite lookup_insert_ne.
    + unfold emits, emits_on. simpl. destruct Hc as [->|(e & He & ->)]; [apply Hnoop|].
      destruct (Hr _ _ He) as (_ & _ & Hbe). split; [|split].
      * apply reg_before_insert; [done|..]; simpl; apply refill_last; eauto.
      * simpl. by apply refill_allowance.
      * intros id' _. apply (route_allowance_store T id id' g e (mk_entry _ _)); [done|]. by apply refill_allowance.
Qed.

Lemma emits_app l k : emits (l ++ k) = emits l + emits k.
Proof. unfold emits. rewrite filter_app, length_app. lia. Qed.

Lemma emits_on_app id l k : emits_on id (l ++ k) = emits_on id l + emits_on id k.
Proof. unfold emits_on. rewrite filter_app, length_app. lia. Qed.

Lemma reg_run_cons op ops g :
  reg_run (op :: ops) g =
  (option_list (reg_apply op g).1 ++ (reg_run ops (reg_apply op g).2).1, (reg_run ops (reg_apply op g).2).2).
Proof. simpl. destruct (reg_apply op g) as [[a|] g1]; simpl; destruct (reg_run ops g1); reflexivity. Qed.

(** C40: admission is rate limited.  Take any history of registry operations, routes
    registered, toggled and removed in between, with every clock reading at most [T]
    (and in any order).  The one-way deliveries it admits never exceed what the global
    bucket held at the start plus what it earns until [T]; and those of a route that
    is not registered anew never exceed the allowance of its own bucket. *)
Theorem admission_rate_bounded T ops g admitted g' :
  0 <= T -> reg_wf g -> reg_before T g -> Forall (reg_op_ok T) ops ->
  reg_run ops g = (admitted, g') ->
  emits admitted * TOKEN_UNITS <= allowance T (reg_global_admission g) /\
  forall id, Forall (fun op => ~ registers id op) ops ->
    emits_on id admitted * TOKEN_UNITS <= route_allowance T id g.
Proof.
  intros HT. revert g admitted g'. induction ops as [|op ops IH]; intros g admitted g' Hg Hb Hops.
  - intros [= <- <-]. split; [|intros id _]; simpl.
    + apply allowance_nonneg; [apply Hg|apply Hb].
    + by apply route_allowance_nonneg.
  - apply Forall_cons in Hops as [Hop Hops]. rewrite reg_run_cons. intros [= <- _].
    pose proof (reg_apply_wf T op g Hg Hop) as Hg1.
    pose proof (reg_apply_spends T op g HT Hg Hb Hop) as Hs.
    destruct (reg_apply op g) as [a g1]. destruct Hs as (Hb1 & Hglobal & Hroute). simpl in *.
    destruct (reg_run ops g1) as [rest g2] eqn:Hrun.
    destruct (IH g1 rest g2 Hg1 Hb1 Hops Hrun) as [IHg IHr]. simpl. split.
    + rewrite emits_app. lia.
    + intros id [Hid Hids]%Forall_cons. specialize (Hroute id Hid). specialize (IHr id Hids).
      rewrite emits_on_app. lia.
Qed.

(** What admission lets through.  The route exists and is enabled, its kind supports
    the verb; the payload is the caller's bytes, satisfies the contract and fits the
    kind; calls never retry; the tokens are spent only here: an operation that is
    refused leaves every bucket with at least what it held. *)
Theorem admit_sound id d p m now g :
  reg_wf g ->
  match RouteRegistry_admit parse id d p m now g with
  | (Ok a, _) => exists e, reg_routes g !! id = Some e /\
      route_enabled (entry_route e) = true /\
      (m = Call -> supports_call (route_kind (entry_route e)) = true) /\
      PayloadContract_validate parse (route_payload (entry_route e)) p = Ok p /\
      kind_validate_payload (route_kind (entry_route e)) m p = Ok tt /\
      Z.of_nat (length p) <= max_payload_bytes (route_kind (entry_route e)) /\
      a = mk_admitted id d m p (route_timeout (entry_route e))
            (if bool_decide (m = Call) then RetryPolicy_without_retries else route_retry (entry_route e))
            (route_kind (entry_route e)) /\
      retry_wf (ad_retry a)
  | (Err _, g') =>
      tb_available_units (reg_global_admission g) <= tb_available_units (reg_global_admission g') /\
      forall id' e, reg_routes g !! id' = Some e -> exists e', reg_routes g' !! id' = Some e' /\
        entry_route e' = entry_route e /\
        tb_available_units (entry_admission e) <= tb_available_units (entry_admission e')
  end.
Proof.
  intros Hg. pose proof (admit_cases id d p m now g Hg) as Hc. pose proof Hg as (Hbg & _ & Hr).
  destruct (RouteRegistry_admit parse id d p m now g) as [[a|err] g'].
  - destruct Hc as (e & He & Hchk & Ha & _). destruct (Hr _ _ He) as (_ & (_ & Hretry & Hlim) & _).
    unfold admit_check in Hchk.
    destruct (route_enabled _) eqn:Hen; [|done]. destruct (bool_decide (m = Call) && _) eqn:Hcall; [done|]. simpl in Hchk.
    destruct (PayloadContract_validate parse _ p) as [p'|] eqn:Hv; [|done]. simpl in Hchk.
    pose proof Hv as (-> & Hlen & _)%payload_validate_sound.
    destruct (kind_validate_payload _ m p) as [[]|] eqn:Hk; [|done]. injection Hchk as Hp. rewrite <-Hp in Ha.
    exists e. split; [done|]. split; [done|]. split.
    { intros ->. apply andb_false_iff in Hcall as [?|Hs]; [done|]. by apply negb_false_iff in Hs. }
    split; [done|]. split; [done|]. split; [lia|]. split; [done|]. rewrite Ha. simpl.
    case_bool_decide; auto using without_retries_wf.
  - destruct Hc as [->|(e & He & ->)]; [naive_solver lia|]. split; [by apply refill_earns|].
    intros id' e' He'. simpl. destruct (decide (id' = id)) as [-> |Hne].
    + rewrite lookup_insert_eq. eexists. split; [done|]. rewrite He in He'. injection He' as <-.
      split; [done|]. by apply refill_earns, (Hr id).
    + rewrite lookup_insert_ne by done. eauto with lia.
Qed.

End registry_facts.

(** *** Witnesses *)

#[local] Existing Instance ex_wire.

Definition ex_parse (_ : list Z) : option Value := Some (JObject []).
Definition ex_contract : PayloadContract := mk_contract ∅ 1024.
Definition ex_route_id : RouteId := mk_id (str "route").
Definition ex_route : Route :=
  mk_route ex_route_id true ex_contract (from_secs 10) ex_retry (mk_admission_limit 1 8) ex_kind.
Definition ex_registry : RouteRegistry :=
  (RouteRegistry_register ex_route (RouteRegistry_new 4 (mk_admission_limit 1 64))).2.
(** Ten events at one instant: the route's bucket of eight tokens stops the last two. *)
Definition ex_reg_ops : list RegOp :=
  repeat (RegAdmit ex_route_id (mk_id (str "delivery")) [123; 125] Emit 1000) 10.

Lemma ex_registry_wf : reg_wf ex_registry.
Proof.
  apply (reg_apply_wf ex_parse 0 (RegRegister ex_route)); [|vm_compute; repeat split; discriminate].
  split; [vm_compute; repeat split; discriminate|]. split; [vm_compute; discriminate|]. by intros id e.
Defined.

Lemma ex_registry_before : reg_before 1000 ex_registry.
Proof.
  assert (reg_routes ex_registry = <[ex_route_id := mk_entry ex_route (TokenBucket_new 1 8)]> ∅) as Heq
    by (vm_compute; reflexivity).
  split; [vm_compute; discriminate|]. intros id e. rewrite Heq.
  destruct (decide (id = ex_route_id)) as [->|Hne].
  - rewrite lookup_insert_eq. intros [= <-]. vm_compute. discriminate.
  - by rewrite lookup_insert_ne.
Defined.

Lemma admission_rate_bounded_witness :
  emits_on ex_route_id (reg_run ex_parse ex_reg_ops ex_registry).1 = 8 /\
  emits_on ex_route_id (reg_run ex_parse ex_reg_ops ex_registry).1 * TOKEN_UNITS
    <= route_allowance 1000 ex_route_id ex_registry.
Proof.
  split; [vm_compute; reflexivity|].
  apply (admission_rate_bounded ex_parse 1000 ex_reg_ops ex_registry _ (reg_run ex_parse ex_reg_ops ex_registry).2).
  - lia.
  - exact ex_registry_wf.
  - exact ex_registry_before.
  - unfold ex_reg_ops. simpl. repeat (constructor; [simpl; lia|]). constructor.
  - destruct (reg_run ex_parse ex_reg_ops ex_registry). reflexivity.
  - unfold ex_reg_ops. simpl. repeat (constructor; [simpl; tauto|]). constructor.
Defined.

Lemma refill_exact_witness :
  TokenBucket_refill (mk_bucket 2 (8 * TOKEN_UNITS) 0 10) 20 = mk_bucket 2 (8 * TOKEN_UNITS) 20 20.
Proof.
  etrans; [apply (refill_exact (mk_admission_limit 2 8)); vm_compute; try reflexivity; repeat split; discriminate|].
  vm_compute. reflexivity.
Defined.

Lemma admit_sound_witness :
  exists e, reg_routes ex_registry !! ex_route_id = Some e /\ route_enabled (entry_route e) = true.
Proof.
  pose proof (admit_sound ex_parse ex_route_id (mk_id (str "delivery")) [123; 125] Emit 1000 ex_registry
    ex_registry_wf) as H.
  assert (is_ok (RouteRegistry_admit ex_parse ex_route_id (mk_id (str "delivery")) [123; 125] Emit 1000 ex_registry).1 = true)
    as Hok by (vm_compute; reflexivity).
  destruct (RouteRegistry_admit _ _ _ _ _ _ _) as [[a|err] g']; [|discriminate Hok].
  destruct H as (e & H1 & H2 & _). exists e. auto.
Defined.
