(* ===== verification/RuntimeLimits.v ===== *)
(** * RuntimeLimits: the validated bounds of the egress runtime

    limits.rs of [bondry-egress-runtime]; durations are nanoseconds. *)

From S2P Require Import Prelude.

Definition MIN_GLOBAL_PENDING_DELIVERIES : Z := 16.
Definition MAX_GLOBAL_PENDING_DELIVERIES : Z := 4096.
Definition MIN_ROUTE_PENDING_DELIVERIES : Z := 1.
Definition MAX_ROUTE_PENDING_DELIVERIES : Z := 256.
Definition MIN_GLOBAL_PENDING_BYTES : Z := 1024 * 1024.
Definition MAX_GLOBAL_PENDING_BYTES : Z := 32 * 1024 * 1024.
Definition MIN_ROUTE_PENDING_BYTES : Z := 64 * 1024.
Definition MAX_ROUTE_PENDING_BYTES : Z := 4 * 1024 * 1024.
Definition MIN_GLOBAL_IN_FLIGHT : Z := 1.
Definition MAX_GLOBAL_IN_FLIGHT : Z := 16.
Definition MIN_ROUTE_IN_FLIGHT : Z := 1.
Definition MIN_CALL_IN_FLIGHT : Z := 1.
Definition MAX_CALL_IN_FLIGHT : Z := 16.
Definition MIN_DRAIN_TIMEOUT : Z := from_secs 1.
Definition MAX_DRAIN_TIMEOUT : Z := from_secs 60.

Record EgressRuntimeLimits := mk_limits {
  lim_global_pending : Z;
  lim_route_pending : Z;
  lim_global_bytes : Z;
  lim_route_bytes : Z;
  lim_global_in_flight : Z;
  lim_route_in_flight : Z;
  lim_call_in_flight : Z;
  lim_drain_timeout : Z;
}.

Inductive EgressRuntimeLimitError :=
| BadGlobalPendingDeliveries | BadRoutePendingDeliveries | BadGlobalPendingBytes | BadRoutePendingBytes
| BadGlobalInFlight | BadRouteInFlight | BadCallInFlight | BadDrainTimeout.

Definition EgressRuntimeLimits_new (global_pending route_pending global_bytes route_bytes
    global_in_flight route_in_flight call_in_flight drain_timeout : Z) :
    result EgressRuntimeLimitError EgressRuntimeLimits :=
  if negb (in_range MIN_GLOBAL_PENDING_DELIVERIES MAX_GLOBAL_PENDING_DELIVERIES global_pending)
  then Err BadGlobalPendingDeliveries
  else if negb (in_range MIN_ROUTE_PENDING_DELIVERIES MAX_ROUTE_PENDING_DELIVERIES route_pending)
       || (global_pending <? route_pending)
  then Err BadRoutePendingDeliveries
  else if negb (in_range MIN_GLOBAL_PENDING_BYTES MAX_GLOBAL_PENDING_BYTES global_bytes)
  then Err BadGlobalPendingBytes
  else if negb (in_range MIN_ROUTE_PENDING_BYTES MAX_ROUTE_PENDING_BYTES route_bytes)
       || (global_bytes <? route_bytes)
  then Err BadRoutePendingBytes
  else if negb (in_range MIN_GLOBAL_IN_FLIGHT MAX_GLOBAL_IN_FLIGHT global_in_flight)
  then Err BadGlobalInFlight
  else if (route_in_flight <? MIN_ROUTE_IN_FLIGHT) || (global_in_flight <? route_in_flight)
  then Err BadRouteInFlight
  else if negb (in_range MIN_CALL_IN_FLIGHT MAX_CALL_IN_FLIGHT call_in_flight)
  then Err BadCallInFlight
  else if negb (in_range MIN_DRAIN_TIMEOUT MAX_DRAIN_TIMEOUT drain_timeout)
  then Err BadDrainTimeout
  else Ok (mk_limits global_pending route_pending global_bytes route_bytes
             global_in_flight route_in_flight call_in_flight drain_timeout).

(** [EgressRuntimeLimits::default()]. *)
Definition EgressRuntimeLimits_default : EgressRuntimeLimits :=
  mk_limits 1024 64 (8 * 1024 * 1024) (1024 * 1024) 4 2 4 (from_secs 10).

(** What the constructor guarantees; in particular every counter fits its machine type. *)
Definition limits_wf (l : EgressRuntimeLimits) : Prop :=
  16 <= lim_global_pending l <= 4096 /\
  1 <= lim_route_pending l <= lim_global_pending l /\ lim_route_pending l <= 256 /\
  0 < lim_global_bytes l <= 32 * 1024 * 1024 /\
  0 < lim_route_bytes l <= lim_global_bytes l /\
  1 <= lim_global_in_flight l <= 16 /\
  1 <= lim_route_in_flight l <= lim_global_in_flight l /\
  1 <= lim_call_in_flight l <= 16 /\
  from_secs 1 <= lim_drain_timeout l <= from_secs 60.

Lemma EgressRuntimeLimits_new_wf gp rp gb rb gi ri ci dt l :
  EgressRuntimeLimits_new gp rp gb rb gi ri ci dt = Ok l -> limits_wf l.
Proof.
  unfold EgressRuntimeLimits_new.
  repeat match goal with
  | |- (if ?b then _ else _) = _ -> _ => destruct b eqn:?; [done|]
  end.
  intros [= <-]. unfold limits_wf. simpl.
  repeat match goal with
  | H : (_ || _) = false |- _ => apply orb_false_iff in H as [? ?]
  | H : negb _ = false |- _ => apply negb_false_iff, in_range_spec in H
  | H : (_ <? _) = false |- _ => apply Z.ltb_ge in H
  end.
  unfold MIN_GLOBAL_PENDING_DELIVERIES, MAX_GLOBAL_PENDING_DELIVERIES, MIN_ROUTE_PENDING_DELIVERIES,
    MAX_ROUTE_PENDING_DELIVERIES, MIN_GLOBAL_PENDING_BYTES, MAX_GLOBAL_PENDING_BYTES, MIN_ROUTE_PENDING_BYTES,
    MAX_ROUTE_PENDING_BYTES, MIN_GLOBAL_IN_FLIGHT, MAX_GLOBAL_IN_FLIGHT, MIN_ROUTE_IN_FLIGHT,
    MIN_CALL_IN_FLIGHT, MAX_CALL_IN_FLIGHT, MIN_DRAIN_TIMEOUT, MAX_DRAIN_TIMEOUT in *. lia.
Qed.
