(* ===== verification/Engine.v ===== *)
(** * Engine: the egress scheduler

    runtime.rs of [bondry-egress-runtime].  [Engine] is the state of the executor
    thread; each method is a function on it.  The surroundings are explicit:

    - the two clocks are the readings [clock] (monotonic, nanoseconds since the origin)
      and [wall] (Unix milliseconds); every read advances [e_tick], so successive reads
      of one method are successive readings;
    - a spawned attempt is a [Task] of a join set, and what joining returns is an input
      of the step;
    - the answers to host commands are appended to [e_outbox] under the reply channel of
      the command.

    The [tokio::select!] loop of [run] is [loop_head] followed by [loop_event] for the
    branch that was chosen. *)

From S2P Require Import Prelude Text Identifiers DeliveryStore EgressLimits Json Lifecycle Payload Kind Route RuntimeLimits.

(** ** Data *)

Inductive EgressRuntimeError :=
| RtBusy
| RtStopped
| RtRoute (e : RouteRegistryError)
| RtAdmission (e : AdmissionError)
| RtRouteDraining
| RtPendingCapacity
| RtPendingBytes
| RtCallCapacity
| RtCallFailed (f : DeliveryFailure)
| RtDeliveryLog (e : DeliveryLogError).

Record CallResult := mk_call_result {
  cr_delivery : DeliveryId;
  cr_metadata : DeliveryResultMetadata;
  cr_json : list byte;
}.

(** A reply channel: the identity of the command that waits on it. *)
Definition Reply : Type := Z.

Inductive Response :=
| RespUnit (r : result EgressRuntimeError unit)
| RespRoutes (r : result EgressRuntimeError (list RouteSummary))
| RespReceipt (r : result EgressRuntimeError DeliveryId)
| RespCall (r : result EgressRuntimeError CallResult)
| RespStatus (r : result EgressRuntimeError (option DeliveryRecord)).

Record RouteUsage := mk_usage {
  u_pending : Z;
  u_bytes : Z;
  u_in_flight : Z;
  u_calls : Z;
}.

Definition RouteUsage_default : RouteUsage := mk_usage 0 0 0 0.
Definition RouteUsage_is_idle (u : RouteUsage) : bool :=
  (u_pending u =? 0) && (u_in_flight u =? 0) && (u_calls u =? 0).

(** The order of [Reverse((deadline, delivery))] in the retry heap, kept as the sorted
    list of its elements: [peek] is the head, [pop] the tail. *)
Definition retry_le (x y : EgressInstant * DeliveryId) : Prop :=
  x.1 < y.1 \/ x.1 = y.1 /\ key_le x.2 y.2.
#[global] Instance retry_le_dec : RelDecision retry_le.
Proof. intros x y. unfold retry_le. apply _. Defined.

Fixpoint heap_push (x : EgressInstant * DeliveryId) (h : list (EgressInstant * DeliveryId)) :
    list (EgressInstant * DeliveryId) :=
  match h with
  | [] => [x]
  | y :: h' => if decide (retry_le x y) then x :: h else y :: heap_push x h'
  end.

Record RouteDrain := mk_drain {
  dr_deadline : EgressInstant;
  dr_remove : bool;
  dr_reply : Reply;
}.

(** The surroundings of the engine: its validated limits, the readings of the two
    clocks and [serde_json]'s reader. *)
Class EngineEnv := {
  limits : EgressRuntimeLimits;
  clock : nat -> Z;
  wall : nat -> Z;
  parse_json : list Z -> option Value;
}.

(** What is known of them: the limits were validated, the monotonic clock is monotone
    and starts at its origin. *)
Class EngineEnvOk `{EngineEnv} := {
  limits_ok : limits_wf limits;
  clock_mono i j : (i <= j)%nat -> clock i <= clock j;
  clock_nonneg i : 0 <= clock i;
}.

Section engine.
  Context `{W : Wire} `{Env : EngineEnv} `{DeliveryLog L}.

Record ActiveDelivery := mk_active {
  av_accepted_at : Z;
  av_parts : AdmittedDelivery;
  av_lifecycle : DeliveryLifecycle;
  av_abort : option Z;
}.

Record ActiveCall := mk_active_call {
  cl_accepted_at : Z;
  cl_parts : AdmittedDelivery;
  cl_lifecycle : DeliveryLifecycle;
  cl_abort : option Z;
  cl_reply : Reply;
}.

Definition av_with_lifecycle (a : ActiveDelivery) (l : DeliveryLifecycle) : ActiveDelivery :=
  mk_active (av_accepted_at a) (av_parts a) l (av_abort a).
Definition av_with_abort (a : ActiveDelivery) (h : option Z) : ActiveDelivery :=
  mk_active (av_accepted_at a) (av_parts a) (av_lifecycle a) h.
Definition cl_with_lifecycle (a : ActiveCall) (l : DeliveryLifecycle) : ActiveCall :=
  mk_active_call (cl_accepted_at a) (cl_parts a) l (cl_abort a) (cl_reply a).
Definition cl_with_abort (a : ActiveCall) (h : option Z) : ActiveCall :=
  mk_active_call (cl_accepted_at a) (cl_parts a) (cl_lifecycle a) h (cl_reply a).

(** A task of a join set: the arguments its [execute_attempt] was spawned with, and
    whether its abort handle was used. *)
Record Task := mk_task {
  tk_kind : DeliveryKind;
  tk_mode : OperationMode;
  tk_delivery : DeliveryId;
  tk_payload : list byte;
  tk_deadline : Z;
  tk_aborted : bool;
}.

Definition task_abort (t : Task) : Task :=
  mk_task (tk_kind t) (tk_mode t) (tk_delivery t) (tk_payload t) (tk_deadline t) true.

Record Engine := mk_engine {
  e_registry : RouteRegistry;
  e_log : L;
  e_tick : nat;
  e_active : gmap DeliveryId ActiveDelivery;
  e_usage : gmap RouteId RouteUsage;
  e_ready : gmap RouteId (list DeliveryId);
  e_ready_routes : list RouteId;
  e_retries : list (EgressInstant * DeliveryId);
  e_attempts : gmap Z Task;
  e_active_calls : gmap DeliveryId ActiveCall;
  e_calls : gmap Z Task;
  e_next_task : Z;
  e_drains : gmap RouteId RouteDrain;
  e_overrides : gmap DeliveryId DeliveryRecord;
  e_degraded : bool;
  e_global_pending : Z;
  e_global_bytes : Z;
  e_global_in_flight : Z;
  e_call_in_flight : Z;
  e_outbox : list (Reply * Response);
}.

(** Field updates. *)

Definition set_registry (x : RouteRegistry) (e : Engine) : Engine :=
  mk_engine x (e_log e) (e_tick e) (e_active e) (e_usage e) (e_ready e) (e_ready_routes e) (e_retries e)
    (e_attempts e) (e_active_calls e) (e_calls e) (e_next_task e) (e_drains e) (e_overrides e)
    (e_degraded e) (e_global_pending e) (e_global_bytes e) (e_global_in_flight e) (e_call_in_flight e)
    (e_outbox e).

Definition set_log (x : L) (e : Engine) : Engine :=
  mk_engine (e_registry e) x (e_tick e) (e_active e) (e_usage e) (e_ready e) (e_ready_routes e)
    (e_retries e) (e_attempts e) (e_active_calls e) (e_calls e) (e_next_task e) (e_drains e) (e_overrides e)
    (e_degraded e) (e_global_pending e) (e_global_bytes e) (e_global_in_flight e) (e_call_in_flight e)
    (e_outbox e).

Definition set_tick (x : nat) (e : Engine) : Engine :=
  mk_engine (e_registry e) (e_log e) x (e_active e) (e_usage e) (e_ready e) (e_ready_routes e) (e_retries e)
    (e_attempts e) (e_active_calls e) (e_calls e) (e_next_task e) (e_drains e) (e_overrides e)
    (e_degraded e) (e_global_pending e) (e_global_bytes e) (e_global_in_flight e) (e_call_in_flight e)
    (e_outbox e).

Definition set_active (x : gmap DeliveryId ActiveDelivery) (e : Engine) : Engine :=
  mk_engine (e_registry e) (e_log e) (e_tick e) x (e_usage e) (e_ready e) (e_ready_routes e) (e_retries e)
    (e_attempts e) (e_active_calls e) (e_calls e) (e_next_task e) (e_drains e) (e_overrides e)
    (e_degraded e) (e_global_pending e) (e_global_bytes e) (e_global_in_flight e) (e_call_in_flight e)
    (e_outbox e).

Definition set_usage (x : gmap RouteId RouteUsage) (e : Engine) : Engine :=
  mk_engine (e_registry e) (e_log e) (e_tick e) (e_active e) x (e_ready e) (e_ready_routes e) (e_retries e)
    (e_attempts e) (e_active_calls e) (e_calls e) (e_next_task e) (e_drains e) (e_overrides e)
    (e_degraded e) (e_global_pending e) (e_global_bytes e) (e_global_in_flight e) (e_call_in_flight e)
    (e_outbox e).

Definition set_ready (x : gmap RouteId (list DeliveryId)) (e : Engine) : Engine :=
  mk_engine (e_registry e) (e_log e) (e_tick e) (e_active e) (e_usage e) x (e_ready_routes e) (e_retries e)
    (e_attempts e) (e_active_calls e) (e_calls e) (e_next_task e) (e_drains e) (e_overrides e)
    (e_degraded e) (e_global_pending e) (e_global_bytes e) (e_global_in_flight e) (e_call_in_flight e)
    (e_outbox e).

Definition set_ready_routes (x : list RouteId) (e : Engine) : Engine :=
  mk_engine (e_registry e) (e_log e) (e_tick e) (e_active e) (e_usage e) (e_ready e) x (e_retries e)
    (e_attempts e) (e_active_calls e) (e_calls e) (e_next_task e) (e_drains e) (e_overrides e)
    (e_degraded e) (e_global_pending e) (e_global_bytes e) (e_global_in_flight e) (e_call_in_flight e)
    (e_outbox e).

Definition set_retries (x : list (EgressInstant * DeliveryId)) (e : Engine) : Engine :=
  mk_engine (e_registry e) (e_log e) (e_tick e) (e_active e) (e_usage e) (e_ready e) (e_ready_routes e) x
    (e_attempts e) (e_active_calls e) (e_calls e) (e_next_task e) (e_drains e) (e_overrides e)
    (e_degraded e) (e_global_pending e) (e_global_bytes e) (e_global_in_flight e) (e_call_in_flight e)
    (e_outbox e).

Definition set_attempts (x : gmap Z Task) (e : Engine) : Engine :=
  mk_engine (e_registry e) (e_log e) (e_tick e) (e_active e) (e_usage e) (e_ready e) (e_ready_routes e)
    (e_retries e) x (e_active_calls e) (e_calls e) (e_next_task e) (e_drains e) (e_overrides e)
    (e_degraded e) (e_global_pending e) (e_global_bytes e) (e_global_in_flight e) (e_call_in_flight e)
    (e_outbox e).

Definition set_active_calls (x : gmap DeliveryId ActiveCall) (e : Engine) : Engine :=
  mk_engine (e_registry e) (e_log e) (e_tick e) (e_active e) (e_usage e) (e_ready e) (e_ready_routes e)
    (e_retries e) (e_attempts e) x (e_calls e) (e_next_task e) (e_drains e) (e_overrides e) (e_degraded e)
    (e_global_pending e) (e_global_bytes e) (e_global_in_flight e) (e_call_in_flight e) (e_outbox e).

Definition set_calls (x : gmap Z Task) (e : Engine) : Engine :=
  mk_engine (e_registry e) (e_log e) (e_tick e) (e_active e) (e_usage e) (e_ready e) (e_ready_routes e)
    (e_retries e) (e_attempts e) (e_active_calls e) x (e_next_task e) (e_drains e) (e_overrides e)
    (e_degraded e) (e_global_pending e) (e_global_bytes e) (e_global_in_flight e) (e_call_in_flight e)
    (e_outbox e).

Definition set_next_task (x : Z) (e : Engine) : Engine :=
  mk_engine (e_registry e) (e_log e) (e_tick e) (e_active e) (e_usage e) (e_ready e) (e_ready_routes e)
    (e_retries e) (e_attempts e) (e_active_calls e) (e_calls e) x (e_drains e) (e_overrides e)
    (e_degraded e) (e_global_pending e) (e_global_bytes e) (e_global_in_flight e) (e_call_in_flight e)
    (e_outbox e).

Definition set_drains (x : gmap RouteId RouteDrain) (e : Engine) : Engine :=
  mk_engine (e_registry e) (e_log e) (e_tick e) (e_active e) (e_usage e) (e_ready e) (e_ready_routes e)
    (e_retries e) (e_attempts e) (e_active_calls e) (e_calls e) (e_next_task e) x (e_overrides e)
    (e_degraded e) (e_global_pending e) (e_global_bytes e) (e_global_in_flight e) (e_call_in_flight e)
    (e_outbox e).

Definition set_overrides (x : gmap DeliveryId DeliveryRecord) (e : Engine) : Engine :=
  mk_engine (e_registry e) (e_log e) (e_tick e) (e_active e) (e_usage e) (e_ready e) (e_ready_routes e)
    (e_retries e) (e_attempts e) (e_active_calls e) (e_calls e) (e_next_task e) (e_drains e) x
    (e_degraded e) (e_global_pending e) (e_global_bytes e) (e_global_in_flight e) (e_call_in_flight e)
    (e_outbox e).

Definition set_degraded (x : bool) (e : Engine) : Engine :=
  mk_engine (e_registry e) (e_log e) (e_tick e) (e_active e) (e_usage e) (e_ready e) (e_ready_routes e)
    (e_retries e) (e_attempts e) (e_active_calls e) (e_calls e) (e_next_task e) (e_drains e) (e_overrides e)
    x (e_global_pending e) (e_global_bytes e) (e_global_in_flight e) (e_call_in_flight e) (e_outbox e).

Definition set_global_pending (x : Z) (e : Engine) : Engine :=
  mk_engine (e_registry e) (e_log e) (e_tick e) (e_active e) (e_usage e) (e_ready e) (e_ready_routes e)
    (e_retries e) (e_attempts e) (e_active_calls e) (e_calls e) (e_next_task e) (e_drains e) (e_overrides e)
    (e_degraded e) x (e_global_bytes e) (e_global_in_flight e) (e_call_in_flight e) (e_outbox e).

Definition set_global_bytes (x : Z) (e : Engine) : Engine :=
  mk_engine (e_registry e) (e_log e) (e_tick e) (e_active e) (e_usage e) (e_ready e) (e_ready_routes e)
    (e_retries e) (e_attempts e) (e_active_calls e) (e_calls e) (e_next_task e) (e_drains e) (e_overrides e)
    (e_degraded e) (e_global_pending e) x (e_global_in_flight e) (e_call_in_flight e) (e_outbox e).

Definition set_global_in_flight (x : Z) (e : Engine) : Engine :=
  mk_engine (e_registry e) (e_log e) (e_tick e) (e_active e) (e_usage e) (e_ready e) (e_ready_routes e)
    (e_retries e) (e_attempts e) (e_active_calls e) (e_calls e) (e_next_task e) (e_drains e) (e_overrides e)
    (e_degraded e) (e_global_pending e) (e_global_bytes e) x (e_call_in_flight e) (e_outbox e).

Definition set_call_in_flight (x : Z) (e : Engine) : Engine :=
  mk_engine (e_registry e) (e_log e) (e_tick e) (e_active e) (e_usage e) (e_ready e) (e_ready_routes e)
    (e_retries e) (e_attempts e) (e_active_calls e) (e_calls e) (e_next_task e) (e_drains e) (e_overrides e)
    (e_degraded e) (e_global_pending e) (e_global_bytes e) (e_global_in_flight e) x (e_outbox e).

Definition set_outbox (x : list (Reply * Response)) (e : Engine) : Engine :=
  mk_engine (e_registry e) (e_log e) (e_tick e) (e_active e) (e_usage e) (e_ready e) (e_ready_routes e)
    (e_retries e) (e_attempts e) (e_active_calls e) (e_calls e) (e_next_task e) (e_drains e) (e_overrides e)
    (e_degraded e) (e_global_pending e) (e_global_bytes e) (e_global_in_flight e) (e_call_in_flight e) x.

Definition reply (c : Reply) (r : Response) (e : Engine) : Engine := set_outbox (e_outbox e ++ [(c, r)]) e.

Definition Engine_new (registry : RouteRegistry) (log : L) : Engine :=
  mk_engine registry log 0 ∅ ∅ ∅ [] [] ∅ ∅ ∅ 0 ∅ ∅ false 0 0 0 0 [].

(** ** Clocks *)

Definition RuntimeClock_now (e : Engine) : EgressInstant * Engine :=
  (clock (e_tick e), set_tick (S (e_tick e)) e).
Definition unix_now (e : Engine) : Z * Engine :=
  (wall (e_tick e), set_tick (S (e_tick e)) e).
Definition RuntimeClock_transition_time (e : Engine) : TransitionTime * Engine :=
  (mk_time (clock (e_tick e)) (wall (e_tick e)), set_tick (S (e_tick e)) e).

(** ** Persistence *)

Definition Engine_persist (action : DeliveryPersistenceAction) (e : Engine) :
    result DeliveryLogError unit * Engine :=
  let '(r, log) :=
    match action with
    | InsertIntent intent => insert_intent intent (e_log e)
    | RecordAttempt delivery attempts updated_at => record_attempt delivery attempts updated_at (e_log e)
    | RecordOutcome delivery outcome updated_at res => record_outcome delivery outcome updated_at res (e_log e)
    end in
  (r, set_log log e).

Definition persisted_terminal_matches (delivery : DeliveryId) (outcome : DeliveryOutcome)
    (res : option DeliveryResultMetadata) (e : Engine) : bool * Engine :=
  let '(r, log) := log_delivery delivery (e_log e) in
  (match r with
   | Ok (Some record) => bool_decide (rec_state record = Terminal outcome) && bool_decide (rec_result record = res)
   | _ => false
   end, set_log log e).

Definition override_record (route : RouteId) (delivery : DeliveryId) (accepted_at attempts : Z)
    (outcome : DeliveryOutcome) (updated_at : Z) (res : option DeliveryResultMetadata) : DeliveryRecord :=
  mk_record (mk_intent route delivery accepted_at) attempts (Terminal outcome) updated_at res.

Definition insert_override (delivery : DeliveryId) (outcome : DeliveryOutcome)
    (res : option DeliveryResultMetadata) (e : Engine) : Engine :=
  match e_active e !! delivery with
  | None => e
  | Some active =>
      let '(now, e) := unix_now e in
      set_overrides (<[delivery := override_record (ad_route (av_parts active)) delivery (av_accepted_at active)
        (lc_attempts (av_lifecycle active)) outcome now res]> (e_overrides e)) e
  end.

Definition insert_call_override (delivery : DeliveryId) (outcome : DeliveryOutcome)
    (res : option DeliveryResultMetadata) (e : Engine) : Engine :=
  match e_active_calls e !! delivery with
  | None => e
  | Some active =>
      let '(now, e) := unix_now e in
      set_overrides (<[delivery := override_record (ad_route (cl_parts active)) delivery (cl_accepted_at active)
        (lc_attempts (cl_lifecycle active)) outcome now res]> (e_overrides e)) e
  end.

(** ** Finishing *)

(** [self.usage.get_mut(route)] with an update of the entry found. *)
Definition alter_usage (f : RouteUsage -> RouteUsage) (route : RouteId) (e : Engine) : Engine :=
  set_usage (alter f route (e_usage e)) e.

(** [self.usage.entry(route).or_default()] with an update of the entry. *)
Definition entry_usage (f : RouteUsage -> RouteUsage) (route : RouteId) (e : Engine) : Engine :=
  set_usage (<[route := f (default RouteUsage_default (e_usage e !! route))]> (e_usage e)) e.

(** [if usage.is_idle() { self.usage.remove(route) }] on the entry found. *)
Definition drop_idle_usage (route : RouteId) (e : Engine) : Engine :=
  match e_usage e !! route with
  | Some u => if RouteUsage_is_idle u then set_usage (delete route (e_usage e)) e else e
  | None => e
  end.

Definition usage_less_in_flight (u : RouteUsage) : RouteUsage :=
  mk_usage (u_pending u) (u_bytes u) (sat_sub (u_in_flight u) 1) (u_calls u).
Definition usage_less_pending (bytes : Z) (u : RouteUsage) : RouteUsage :=
  mk_usage (sat_sub (u_pending u) 1) (sat_sub (u_bytes u) bytes) (u_in_flight u) (u_calls u).
Definition usage_less_call (u : RouteUsage) : RouteUsage :=
  mk_usage (u_pending u) (u_bytes u) (u_in_flight u) (sat_sub (u_calls u) 1).
Definition usage_more_pending (bytes : Z) (u : RouteUsage) : RouteUsage :=
  mk_usage (wrap_add U16_MAX (u_pending u) 1) (wrap_add USIZE_MAX (u_bytes u) bytes) (u_in_flight u) (u_calls u).
Definition usage_more_in_flight (u : RouteUsage) : RouteUsage :=
  mk_usage (u_pending u) (u_bytes u) (wrap_add U8_MAX (u_in_flight u) 1) (u_calls u).
Definition usage_more_call (u : RouteUsage) : RouteUsage :=
  mk_usage (u_pending u) (u_bytes u) (u_in_flight u) (wrap_add U8_MAX (u_calls u) 1).

Definition abort_attempt (h : Z) (e : Engine) : Engine := set_attempts (alter task_abort h (e_attempts e)) e.
Definition abort_call_task (h : Z) (e : Engine) : Engine := set_calls (alter task_abort h (e_calls e)) e.

(** [self.global_in_flight] and the route's count go down by one. *)
Definition release_in_flight (route : RouteId) (e : Engine) : Engine :=
  alter_usage usage_less_in_flight route (set_global_in_flight (sat_sub (e_global_in_flight e) 1) e).

Definition finish_delivery (delivery : DeliveryId) (e : Engine) : Engine :=
  match e_active e !! delivery with
  | None => e
  | Some active =>
      let route := ad_route (av_parts active) in
      let e := set_active (delete delivery (e_active e)) e in
      let e := match av_abort active with
               | Some h => release_in_flight route (abort_attempt h e)
               | None => e
               end in
      let bytes := Z.of_nat (length (ad_payload (av_parts active))) in
      let e := set_global_pending (sat_sub (e_global_pending e) 1) e in
      let e := set_global_bytes (sat_sub (e_global_bytes e) bytes) e in
      drop_idle_usage route (alter_usage (usage_less_pending bytes) route e)
  end.

Definition finish_call (delivery : DeliveryId) (response : result EgressRuntimeError CallResult)
    (e : Engine) : Engine :=
  match e_active_calls e !! delivery with
  | None => e
  | Some active =>
      let route := ad_route (cl_parts active) in
      let e := set_active_calls (delete delivery (e_active_calls e)) e in
      let e := match cl_abort active with
               | Some h => set_call_in_flight (sat_sub (e_call_in_flight e) 1) (abort_call_task h e)
               | None => e
               end in
      reply (cl_reply active) (RespCall response) (drop_idle_usage route (alter_usage usage_less_call route e))
  end.

(** The common tail of the terminal paths: an outcome that was not persisted is kept
    as a process-local override and degrades the runtime. *)
Definition keep_outcome (persisted : bool) (delivery : DeliveryId) (outcome : DeliveryOutcome)
    (res : option DeliveryResultMetadata)
    (override : DeliveryId -> DeliveryOutcome -> option DeliveryResultMetadata -> Engine -> Engine)
    (e : Engine) : Engine :=
  if persisted then e
  else
    let '(matches, e) := persisted_terminal_matches delivery outcome res e in
    if matches then e else override delivery outcome res (set_degraded true e).

Definition try_persist (persistence : option DeliveryPersistenceAction) (e : Engine) : bool * Engine :=
  match persistence with
  | None => (false, e)
  | Some action => let '(r, e) := Engine_persist action e in (is_ok r, e)
  end.

Definition persist_terminal (delivery : DeliveryId) (outcome : DeliveryOutcome)
    (res : option DeliveryResultMetadata) (persistence : option DeliveryPersistenceAction) (e : Engine) : Engine :=
  let '(persisted, e) := try_persist persistence e in
  finish_delivery delivery (keep_outcome persisted delivery outcome res insert_override e).

Definition persist_call_terminal (delivery : DeliveryId) (outcome : DeliveryOutcome)
    (res : option DeliveryResultMetadata) (persistence : option DeliveryPersistenceAction) (e : Engine) : Engine :=
  let '(persisted, e) := try_persist persistence e in
  keep_outcome persisted delivery outcome res insert_call_override e.

Definition force_call_terminal (delivery : DeliveryId) (outcome : DeliveryOutcome)
    (res : option DeliveryResultMetadata) (response : result EgressRuntimeError CallResult) (e : Engine) : Engine :=
  let '(now, e) := unix_now e in
  let '(persisted, e) := try_persist (Some (RecordOutcome delivery outcome now res)) e in
  finish_call delivery response (keep_outcome persisted delivery outcome res insert_call_override e).

Definition force_terminal (delivery : DeliveryId) (outcome : DeliveryOutcome)
    (res : option DeliveryResultMetadata) (e : Engine) : Engine :=
  let '(updated_at, e) := unix_now e in
  let '(persisted, e) := try_persist (Some (RecordOutcome delivery outcome updated_at res)) e in
  finish_delivery delivery (keep_outcome persisted delivery outcome res insert_override e).

(** [self.active.get_mut(delivery).map(|active| active.lifecycle.transition(time, event))],
    [None] when the delivery is absent or the machine refused the event. *)
Definition step_active (delivery : DeliveryId) (time : TransitionTime) (event : DeliveryEvent) (e : Engine) :
    option DeliveryTransition * Engine :=
  match e_active e !! delivery with
  | None => (None, e)
  | Some active =>
      let '(r, l) := transition (av_lifecycle active) time event in
      (match r with Ok t => Some t | Err _ => None end,
       set_active (<[delivery := av_with_lifecycle active l]> (e_active e)) e)
  end.

Definition step_call (delivery : DeliveryId) (time : TransitionTime) (event : DeliveryEvent) (e : Engine) :
    option DeliveryTransition * Engine :=
  match e_active_calls e !! delivery with
  | None => (None, e)
  | Some active =>
      let '(r, l) := transition (cl_lifecycle active) time event in
      (match r with Ok t => Some t | Err _ => None end,
       set_active_calls (<[delivery := cl_with_lifecycle active l]> (e_active_calls e)) e)
  end.

Definition apply_terminal_event (delivery : DeliveryId) (event : DeliveryEvent) (e : Engine) : Engine :=
  let '(time, e) := RuntimeClock_transition_time e in
  match step_active delivery time event e with
  | (None, e) => force_terminal delivery (Failed Internal) None e
  | (Some t, e) =>
      match tr_action t with
      | ActTerminal outcome res => persist_terminal delivery outcome res (tr_persistence t) e
      | _ => force_terminal delivery (Failed Internal) None e
      end
  end.

Definition apply_call_terminal_event (delivery : DeliveryId) (event : DeliveryEvent)
    (response : result EgressRuntimeError CallResult) (e : Engine) : Engine :=
  let '(time, e) := RuntimeClock_transition_time e in
  match step_call delivery time event e with
  | (None, e) => force_call_terminal delivery (Failed Internal) None (Err (RtCallFailed Internal)) e
  | (Some t, e) =>
      match tr_action t with
      | ActTerminal outcome res =>
          finish_call delivery response (persist_call_terminal delivery outcome res (tr_persistence t) e)
      | _ => force_call_terminal delivery (Failed Internal) None (Err (RtCallFailed Internal)) e
      end
  end.

(** ** Queues *)

Definition enqueue_ready (route : RouteId) (delivery : DeliveryId) (e : Engine) : Engine :=
  let queue := default [] (e_ready e !! route) in
  let e := if bool_decide (queue = []) then set_ready_routes (e_ready_routes e ++ [route]) e else e in
  set_ready (<[route := queue ++ [delivery]]> (e_ready e)) e.

Definition startable (e : Engine) (delivery : DeliveryId) : bool :=
  match e_active e !! delivery with Some active => bool_decide (av_abort active = None) | None => false end.

(** The inner [while] of [take_fair_ready]. *)
Fixpoint pop_startable (e : Engine) (queue : list DeliveryId) : option DeliveryId * list DeliveryId :=
  match queue with
  | [] => (None, [])
  | delivery :: queue => if startable e delivery then (Some delivery, queue) else pop_startable e queue
  end.

Fixpoint take_fair_loop (n : nat) (e : Engine) : option DeliveryId * Engine :=
  match n with
  | O => (None, e)
  | S n =>
      match e_ready_routes e with
      | [] => (None, e)
      | route :: routes =>
          let in_flight := match e_usage e !! route with Some u => u_in_flight u | None => 0 end in
          if lim_route_in_flight limits <=? in_flight
          then take_fair_loop n (set_ready_routes (routes ++ [route]) e)
          else
            match e_ready e !! route with
            | None => take_fair_loop n (set_ready_routes (routes ++ [route]) e)
            | Some queue =>
                let '(selected, queue) := pop_startable e queue in
                let e :=
                  if bool_decide (queue = [])
                  then set_ready_routes routes (set_ready (delete route (e_ready e)) e)
                  else set_ready_routes (routes ++ [route]) (set_ready (<[route := queue]> (e_ready e)) e) in
                match selected with
                | Some delivery => (Some delivery, e)
                | None => take_fair_loop n e
                end
            end
      end
  end.

Definition take_fair_ready (e : Engine) : option DeliveryId * Engine :=
  take_fair_loop (length (e_ready_routes e)) e.

(** ** Starting attempts *)

Definition spawn_attempt (delivery : DeliveryId) (active : ActiveDelivery) (e : Engine) : Engine :=
  let parts := av_parts active in
  let '(now, e) := RuntimeClock_now e in
  let task := mk_task (ad_kind parts) (ad_mode parts) delivery (ad_payload parts) (now + ad_timeout parts) false in
  let h := e_next_task e in
  let e := set_next_task (h + 1) (set_attempts (<[h := task]> (e_attempts e)) e) in
  let e := set_active (alter (fun a => av_with_abort a (Some h)) delivery (e_active e)) e in
  let e := set_global_in_flight (wrap_add U8_MAX (e_global_in_flight e) 1) e in
  entry_usage usage_more_in_flight (ad_route parts) e.

Definition Engine_start_attempt (delivery : DeliveryId) (e : Engine) : Engine :=
  let '(time, e) := RuntimeClock_transition_time e in
  match step_active delivery time EvDrive e with
  | (None, e) => force_terminal delivery (Failed Internal) None e
  | (Some t, e) =>
      match tr_persistence t with
      | None => e
      | Some persistence =>
          match Engine_persist persistence e with
          | (Err _, e) => apply_terminal_event delivery (EvFailed Internal) (set_degraded true e)
          | (Ok _, e) =>
              match tr_action t with
              | ActStartAttempt _ =>
                  match e_active e !! delivery with
                  | None => e
                  | Some active => spawn_attempt delivery active e
                  end
              | _ => force_terminal delivery (Failed Internal) None e
              end
          end
      end
  end.

Definition spawn_call (delivery : DeliveryId) (active : ActiveCall) (e : Engine) : Engine :=
  let parts := cl_parts active in
  let '(now, e) := RuntimeClock_now e in
  let task := mk_task (ad_kind parts) (ad_mode parts) delivery (ad_payload parts) (now + ad_timeout parts) false in
  let h := e_next_task e in
  let e := set_next_task (h + 1) (set_calls (<[h := task]> (e_calls e)) e) in
  let e := set_active_calls (alter (fun a => cl_with_abort a (Some h)) delivery (e_active_calls e)) e in
  set_call_in_flight (wrap_add U8_MAX (e_call_in_flight e) 1) e.

Definition start_call (delivery : DeliveryId) (e : Engine) : Engine :=
  let failed := force_call_terminal delivery (Failed Internal) None in
  let '(time, e) := RuntimeClock_transition_time e in
  match step_call delivery time EvDrive e with
  | (None, e) => failed (Err (RtCallFailed Internal)) e
  | (Some t, e) =>
      match tr_persistence t with
      | None => failed (Err (RtCallFailed Internal)) e
      | Some persistence =>
          match Engine_persist persistence e with
          | (Err _, e) => failed (Err (RtDeliveryLog LogUnavailable)) (set_degraded true e)
          | (Ok _, e) =>
              match tr_action t with
              | ActStartAttempt _ =>
                  match e_active_calls e !! delivery with
                  | None => e
                  | Some active => spawn_call delivery active e
                  end
              | _ => failed (Err (RtCallFailed Internal)) e
              end
          end
      end
  end.

(** The [while] loop of [dispatch_ready]: each round takes one entry off a queue, so
    the number of queued entries bounds the rounds. *)
Fixpoint dispatch_loop (fuel : nat) (e : Engine) : Engine :=
  match fuel with
  | O => e
  | S fuel =>
      if e_global_in_flight e <? lim_global_in_flight limits then
        match take_fair_ready e with
        | (None, e) => e
        | (Some delivery, e) => dispatch_loop fuel (Engine_start_attempt delivery e)
        end
      else e
  end.

Definition queued (e : Engine) : nat := map_fold (fun _ q n => (length q + n)%nat) 0%nat (e_ready e).

Definition dispatch_ready (e : Engine) : Engine := dispatch_loop (S (queued e)) e.

(** ** Admission *)

Definition check_pending_capacity (route : RouteId) (bytes : Z) (e : Engine) : result EgressRuntimeError unit :=
  let usage := default RouteUsage_default (e_usage e !! route) in
  if (lim_global_pending limits <=? e_global_pending e) || (lim_route_pending limits <=? u_pending usage)
  then Err RtPendingCapacity
  else if (lim_global_bytes limits <? sat_add USIZE_MAX (e_global_bytes e) bytes)
       || (lim_route_bytes limits <? sat_add USIZE_MAX (u_bytes usage) bytes)
  then Err RtPendingBytes
  else Ok tt.

Definition accept_emit (time : TransitionTime) (admitted : AdmittedDelivery) (e : Engine) : Engine :=
  let route := ad_route admitted in
  let delivery := ad_delivery admitted in
  let bytes := payload_bytes admitted in
  let lifecycle := DeliveryLifecycle_new route delivery (ad_retry admitted) in
  let e := set_active (<[delivery := mk_active (unix_ms time) admitted lifecycle None]> (e_active e)) e in
  let e := set_global_pending (wrap_add U16_MAX (e_global_pending e) 1) e in
  let e := set_global_bytes (wrap_add USIZE_MAX (e_global_bytes e) bytes) e in
  enqueue_ready route delivery (entry_usage (usage_more_pending bytes) route e).

Definition Engine_admit_emit (route : RouteId) (delivery : DeliveryId) (payload : list byte) (e : Engine) :
    result EgressRuntimeError DeliveryId * Engine :=
  if e_degraded e then (Err (RtDeliveryLog LogUnavailable), e)
  else
    let '(time, e) := RuntimeClock_transition_time e in
    let '(r, registry) := admit_emit parse_json route delivery payload (monotonic time) (e_registry e) in
    let e := set_registry registry e in
    match r with
    | Err err => (Err (RtAdmission err), e)
    | Ok admitted =>
        match check_pending_capacity route (payload_bytes admitted) e with
        | Err err => (Err err, e)
        | Ok _ =>
            match Engine_persist (InsertIntent (AdmittedDelivery_intent admitted (unix_ms time))) e with
            | (Err err, e) => (Err (RtDeliveryLog err), e)
            | (Ok _, e) => (Ok delivery, accept_emit time admitted e)
            end
        end
    end.

Definition accept_call (time : TransitionTime) (admitted : AdmittedDelivery) (c : Reply) (e : Engine) : Engine :=
  let delivery := ad_delivery admitted in
  let lifecycle := DeliveryLifecycle_new (ad_route admitted) delivery (ad_retry admitted) in
  let e := set_active_calls
    (<[delivery := mk_active_call (unix_ms time) admitted lifecycle None c]> (e_active_calls e)) e in
  start_call delivery (entry_usage usage_more_call (ad_route admitted) e).

Definition prepare_call (route : RouteId) (delivery : DeliveryId) (payload : list byte) (c : Reply) (e : Engine) :
    result EgressRuntimeError unit * Engine :=
  if e_degraded e then (Err (RtDeliveryLog LogUnavailable), e)
  else
    match validate_call_route route (e_registry e) with
    | Err err => (Err (RtAdmission err), e)
    | Ok _ =>
        if lim_call_in_flight limits <=? Z.of_nat (size (e_active_calls e)) then (Err RtCallCapacity, e)
        else
          let '(time, e) := RuntimeClock_transition_time e in
          let '(r, registry) := admit_call parse_json route delivery payload (monotonic time) (e_registry e) in
          let e := set_registry registry e in
          match r with
          | Err err => (Err (RtAdmission err), e)
          | Ok admitted =>
              match Engine_persist (InsertIntent (AdmittedDelivery_intent admitted (unix_ms time))) e with
              | (Err err, e) => (Err (RtDeliveryLog err), e)
              | (Ok _, e) => (Ok tt, accept_call time admitted c e)
              end
          end
    end.

Definition Engine_admit_call (route : RouteId) (delivery : DeliveryId) (payload : list byte) (c : Reply) (e : Engine) :
    Engine :=
  match prepare_call route delivery payload c e with
  | (Err err, e) => reply c (RespCall (Err err)) e
  | (Ok _, e) => e
  end.

(** ** Completions *)

Definition disposition_event (d : AttemptDisposition) : DeliveryEvent :=
  match d with
  | DispDelivered md => EvDelivered md
  | DispRetryable failure => EvRetryable failure
  | DispFailed failure => EvFailed failure
  | DispFailedWithResult failure md => EvFailedWithResult failure md
  end.

Definition clear_in_flight (delivery : DeliveryId) (e : Engine) : bool * Engine :=
  match e_active e !! delivery with
  | None => (false, e)
  | Some active =>
      match av_abort active with
      | None => (false, e)
      | Some _ =>
          (true, release_in_flight (ad_route (av_parts active))
                   (set_active (<[delivery := av_with_abort active None]> (e_active e)) e))
      end
  end.

Definition abort_in_flight (delivery : DeliveryId) (e : Engine) : bool * Engine :=
  match e_active e !! delivery with
  | None => (false, e)
  | Some active =>
      match av_abort active with
      | None => (false, e)
      | Some h =>
          (true, release_in_flight (ad_route (av_parts active))
                   (abort_attempt h (set_active (<[delivery := av_with_abort active None]> (e_active e)) e)))
      end
  end.

Definition clear_call_in_flight (delivery : DeliveryId) (e : Engine) : bool * Engine :=
  match e_active_calls e !! delivery with
  | None => (false, e)
  | Some active =>
      match cl_abort active with
      | None => (false, e)
      | Some _ =>
          (true, set_call_in_flight (sat_sub (e_call_in_flight e) 1)
                   (set_active_calls (<[delivery := cl_with_abort active None]> (e_active_calls e)) e))
      end
  end.

Definition abort_call (delivery : DeliveryId) (e : Engine) : bool * Engine :=
  match e_active_calls e !! delivery with
  | None => (false, e)
  | Some active =>
      match cl_abort active with
      | None => (false, e)
      | Some h =>
          (true, set_call_in_flight (sat_sub (e_call_in_flight e) 1)
                   (abort_call_task h
                     (set_active_calls (<[delivery := cl_with_abort active None]> (e_active_calls e)) e)))
      end
  end.

Definition complete_attempt (delivery : DeliveryId) (c : AttemptCompletion) (e : Engine) : Engine :=
  let '(cleared, e) := clear_in_flight delivery e in
  if negb cleared then e
  else
    let '(time, e) := RuntimeClock_transition_time e in
    match step_active delivery time (disposition_event (ac_disposition c)) e with
    | (None, e) => force_terminal delivery (Failed Internal) None e
    | (Some t, e) =>
        match tr_action t with
        | ActWait =>
            match tr_next_deadline t with
            | Some deadline => set_retries (heap_push (deadline, delivery) (e_retries e)) e
            | None => e
            end
        | ActTerminal outcome res => persist_terminal delivery outcome res (tr_persistence t) e
        | ActNone | ActStartAttempt _ => force_terminal delivery (Failed Internal) None e
        end
    end.

Definition call_response (delivery : DeliveryId) (outcome : DeliveryOutcome)
    (res : option DeliveryResultMetadata) (raw : option (list byte)) : result EgressRuntimeError CallResult :=
  match outcome, res, raw with
  | Delivered, Some metadata, Some json => Ok (mk_call_result delivery metadata json)
  | Failed failure, _, _ => Err (RtCallFailed failure)
  | LostOnShutdown, _, _ | UnknownAfterCrash, _, _ => Err RtStopped
  | Delivered, _, _ => Err (RtCallFailed Internal)
  end.

Definition complete_call (delivery : DeliveryId) (c : AttemptCompletion) (e : Engine) : Engine :=
  let '(cleared, e) := clear_call_in_flight delivery e in
  if negb cleared then e
  else
    let '(time, e) := RuntimeClock_transition_time e in
    let failed := force_call_terminal delivery (Failed Internal) None (Err (RtCallFailed Internal)) in
    match step_call delivery time (disposition_event (ac_disposition c)) e with
    | (None, e) => failed e
    | (Some t, e) =>
        match tr_action t with
        | ActTerminal outcome res =>
            let e := persist_call_terminal delivery outcome res (tr_persistence t) e in
            finish_call delivery (call_response delivery outcome res (ac_result c)) e
        | _ => failed e
        end
    end.

(** A [JoinError] is a cancellation or a panic of the task. *)
Inductive JoinError := JoinCancelled | JoinPanicked.

Definition handle_attempt_join (completed : option (result JoinError (DeliveryId * AttemptCompletion)))
    (e : Engine) : Engine :=
  match completed with
  | Some (Ok (delivery, c)) => complete_attempt delivery c e
  | Some (Err JoinCancelled) => e
  | Some (Err JoinPanicked) =>
      let deliveries := (filter (fun x => is_Some (av_abort x.2)) (btree_iter (e_active e))).*1 in
      foldl (fun e delivery =>
        apply_terminal_event delivery (EvFailed Internal) (abort_in_flight delivery e).2) e deliveries
  | None => e
  end.

Definition handle_call_join (completed : option (result JoinError (DeliveryId * AttemptCompletion)))
    (e : Engine) : Engine :=
  match completed with
  | Some (Ok (delivery, c)) => complete_call delivery c e
  | Some (Err JoinCancelled) => e
  | Some (Err JoinPanicked) =>
      let deliveries := (filter (fun x => is_Some (cl_abort x.2)) (btree_iter (e_active_calls e))).*1 in
      foldl (fun e delivery =>
        force_call_terminal delivery (Failed Internal) None (Err (RtCallFailed Internal))
          (abort_call delivery e).2) e deliveries
  | None => e
  end.

(** ** Deadlines *)

Fixpoint retry_loop (now : EgressInstant) (heap : list (EgressInstant * DeliveryId)) (e : Engine) : Engine :=
  match heap with
  | [] => e
  | (deadline, delivery) :: heap =>
      if deadline <=? now then
        let e := set_retries heap e in
        let e :=
          match e_active e !! delivery with
          | None => e
          | Some active =>
              if bool_decide (lc_next_deadline (av_lifecycle active) = Some deadline)
              then enqueue_ready (ad_route (av_parts active)) delivery e
              else e
          end in
        retry_loop now heap e
      else e
  end.

Definition process_retry_deadlines (e : Engine) : Engine :=
  let '(now, e) := RuntimeClock_now e in retry_loop now (e_retries e) e.

Definition deliveries_on (route : RouteId) (e : Engine) : list DeliveryId :=
  (filter (fun x => ad_route (av_parts x.2) = route) (btree_iter (e_active e))).*1.
Definition calls_on (route : RouteId) (e : Engine) : list DeliveryId :=
  (filter (fun x => ad_route (cl_parts x.2) = route) (btree_iter (e_active_calls e))).*1.

Definition expire_drain (e : Engine) (route : RouteId) : Engine :=
  let e := foldl (fun e delivery => apply_terminal_event delivery EvCancel e) e (deliveries_on route e) in
  foldl (fun e delivery => apply_call_terminal_event delivery EvCancel (Err (RtCallFailed Cancelled)) e) e
    (calls_on route e).

Definition process_drain_deadlines (e : Engine) : Engine :=
  let '(now, e) := RuntimeClock_now e in
  let expired := (filter (fun x => dr_deadline x.2 <= now) (btree_iter (e_drains e))).*1 in
  foldl expire_drain e expired.

Definition expire_shutdown (e : Engine) : Engine :=
  let e := foldl (fun e delivery => apply_terminal_event delivery EvShutdownDeadline e) e
             (btree_keys (e_active e)) in
  foldl (fun e delivery => apply_call_terminal_event delivery EvShutdownDeadline (Err RtStopped) e) e
    (btree_keys (e_active_calls e)).

Fixpoint discard_loop (heap : list (EgressInstant * DeliveryId)) (e : Engine) : Engine :=
  match heap with
  | [] => set_retries [] e
  | (deadline, delivery) :: heap' =>
      if match e_active e !! delivery with
         | Some active => bool_decide (lc_next_deadline (av_lifecycle active) = Some deadline)
         | None => false
         end
      then set_retries heap e
      else discard_loop heap' e
  end.

Definition discard_stale_retries (e : Engine) : Engine := discard_loop (e_retries e) e.

(** The minimum of the earliest retry, the drains and the shutdown deadline. *)
Definition min_opt (x y : option Z) : option Z :=
  match x, y with Some x, Some y => Some (Z.min x y) | Some x, None => Some x | None, y => y end.

Definition Engine_next_deadline (shutdown : option EgressInstant) (e : Engine) : option EgressInstant :=
  foldr min_opt None
    (option_map fst (head (e_retries e)) :: ((fun d => Some (dr_deadline d)) <$> btree_values (e_drains e))
       ++ [shutdown]).

(** ** Drains *)

Definition route_idle (e : Engine) (route : RouteId) : bool :=
  match e_usage e !! route with Some u => RouteUsage_is_idle u | None => true end.

Definition begin_drain (route : RouteId) (remove : bool) (c : Reply) (e : Engine) : Engine :=
  match e_drains e !! route with
  | Some _ => reply c (RespUnit (Err RtRouteDraining)) e
  | None =>
      match RouteRegistry_set_enabled route false (e_registry e) with
      | (Err err, registry) => reply c (RespUnit (Err (RtRoute err))) (set_registry registry e)
      | (Ok _, registry) =>
          let e := set_registry registry e in
          if route_idle e route then
            let e := if remove then set_registry (RouteRegistry_unregister route (e_registry e)).2 e else e in
            reply c (RespUnit (Ok tt)) e
          else
            let '(now, e) := RuntimeClock_now e in
            set_drains (<[route := mk_drain (EgressInstant_saturating_add now (lim_drain_timeout limits)) remove c]>
              (e_drains e)) e
      end
  end.

Definition complete_drain (e : Engine) (route : RouteId) : Engine :=
  match e_drains e !! route with
  | None => e
  | Some drain =>
      let e := set_drains (delete route (e_drains e)) e in
      let e := if dr_remove drain then set_registry (RouteRegistry_unregister route (e_registry e)).2 e else e in
      reply (dr_reply drain) (RespUnit (Ok tt)) e
  end.

Definition complete_empty_drains (e : Engine) : Engine :=
  foldl complete_drain e (filter (fun route => route_idle e route) (btree_keys (e_drains e))).

Definition reject_drains_for_shutdown (e : Engine) : Engine :=
  foldl (fun e drain => reply (dr_reply drain) (RespUnit (Err RtStopped)) e) (set_drains ∅ e)
    (btree_values (e_drains e)).

(** ** Commands *)

Inductive Command :=
| CmdRegister (route : Route) (c : Reply)
| CmdEnable (route : RouteId) (c : Reply)
| CmdDrain (route : RouteId) (remove : bool) (c : Reply)
| CmdRoutes (c : Reply)
| CmdEmit (route : RouteId) (delivery : DeliveryId) (payload : list byte) (c : Reply)
| CmdCall (route : RouteId) (delivery : DeliveryId) (payload : list byte) (c : Reply)
| CmdDelivery (delivery : DeliveryId) (c : Reply).

Definition delivery_status (delivery : DeliveryId) (e : Engine) :
    result EgressRuntimeError (option DeliveryRecord) * Engine :=
  match e_overrides e !! delivery with
  | Some record => (Ok (Some record), e)
  | None =>
      let '(r, log) := log_delivery delivery (e_log e) in
      (map_err RtDeliveryLog r, set_log log e)
  end.

Definition handle_command (command : Command) (e : Engine) : Engine :=
  match command with
  | CmdRegister route c =>
      let '(r, registry) := RouteRegistry_register route (e_registry e) in
      reply c (RespUnit (map_err RtRoute r)) (set_registry registry e)
  | CmdEnable route c =>
      match e_drains e !! route with
      | Some _ => reply c (RespUnit (Err RtRouteDraining)) e
      | None =>
          let '(r, registry) := RouteRegistry_set_enabled route true (e_registry e) in
          reply c (RespUnit (map_err RtRoute r)) (set_registry registry e)
      end
  | CmdDrain route remove c => begin_drain route remove c e
  | CmdRoutes c => reply c (RespRoutes (Ok (RouteRegistry_routes (e_registry e)))) e
  | CmdEmit route delivery payload c =>
      let '(r, e) := Engine_admit_emit route delivery payload e in reply c (RespReceipt r) e
  | CmdCall route delivery payload c => Engine_admit_call route delivery payload c e
  | CmdDelivery delivery c => let '(r, e) := delivery_status delivery e in reply c (RespStatus r) e
  end.

Definition reject_command (command : Command) (e : Engine) : Engine :=
  match command with
  | CmdRegister _ c | CmdEnable _ c | CmdDrain _ _ c => reply c (RespUnit (Err RtStopped)) e
  | CmdRoutes c => reply c (RespRoutes (Err RtStopped)) e
  | CmdEmit _ _ _ c => reply c (RespReceipt (Err RtStopped)) e
  | CmdCall _ _ _ c => reply c (RespCall (Err RtStopped)) e
  | CmdDelivery _ c => reply c (RespStatus (Err RtStopped)) e
  end.

Definition reject_pending_commands (commands : list Command) (e : Engine) : Engine :=
  foldl (fun e command => reject_command command e) e commands.

(** ** The loop of [run] *)

Record RunState := mk_run {
  rn_engine : Engine;
  rn_stopping : bool;
  rn_shutdown : option EgressInstant;
  rn_finished : bool;
}.

(** The recovery of [EgressRuntime::start] before the loop begins at reading [now]. *)
Definition EgressRuntime_start (registry : RouteRegistry) (log : L) (now : Z) :
    result DeliveryLogError RunState :=
  if bool_decide (log_durability log = Persistent) then
    match recover_unfinished now log with
    | (Err err, _) => Err err
    | (Ok _, log) => Ok (mk_run (Engine_new registry log) false None false)
    end
  else Ok (mk_run (Engine_new registry log) false None false).

(** The statements before [select!]. *)
Definition loop_head (s : RunState) : RunState :=
  let e := discard_stale_retries (complete_empty_drains (dispatch_ready (rn_engine s))) in
  mk_run e (rn_stopping s) (rn_shutdown s)
    (rn_stopping s && bool_decide (e_active e = ∅) && bool_decide (e_active_calls e = ∅)).

Inductive JoinOutcome := JoinedWith (c : AttemptCompletion) | JoinedError (err : JoinError).

(** The branches of [select!].  [LoopShutdown pending] carries the commands still in
    the channel when it is closed. *)
Inductive LoopEvent :=
| LoopShutdown (pending : list Command)
| LoopCommand (command : Command)
| LoopCommandsClosed
| LoopAttemptJoin (h : Z) (o : JoinOutcome)
| LoopCallJoin (h : Z) (o : JoinOutcome)
| LoopDeadline.

Definition join_result (t : Task) (o : JoinOutcome) : result JoinError (DeliveryId * AttemptCompletion) :=
  match o with JoinedWith c => Ok (tk_delivery t, c) | JoinedError err => Err err end.

(** A task is only reported cancelled when it was aborted. *)
Definition join_possible (t : Task) (o : JoinOutcome) : bool :=
  match o with JoinedError JoinCancelled => tk_aborted t | _ => true end.

Definition begin_shutdown (s : RunState) : RunState :=
  let '(now, e) := RuntimeClock_now (rn_engine s) in
  mk_run e true (Some (EgressInstant_saturating_add now (lim_drain_timeout limits))) (rn_finished s).

Definition on_engine (f : Engine -> Engine) (s : RunState) : RunState :=
  mk_run (f (rn_engine s)) (rn_stopping s) (rn_shutdown s) (rn_finished s).

(** [None] when the branch is disabled in this state. *)
Definition loop_event (ev : LoopEvent) (s : RunState) : option RunState :=
  match ev with
  | LoopShutdown pending =>
      if rn_stopping s then None
      else Some (on_engine reject_drains_for_shutdown
                  (on_engine (reject_pending_commands pending) (begin_shutdown s)))
  | LoopCommand command =>
      if rn_stopping s then None else Some (on_engine (handle_command command) s)
  | LoopCommandsClosed =>
      if rn_stopping s then None else Some (on_engine reject_drains_for_shutdown (begin_shutdown s))
  | LoopAttemptJoin h o =>
      match e_attempts (rn_engine s) !! h with
      | None => None
      | Some t =>
          if join_possible t o then
            Some (on_engine (fun e => handle_attempt_join (Some (join_result t o))
                                        (set_attempts (delete h (e_attempts e)) e)) s)
          else None
      end
  | LoopCallJoin h o =>
      match e_calls (rn_engine s) !! h with
      | None => None
      | Some t =>
          if join_possible t o then
            Some (on_engine (fun e => handle_call_join (Some (join_result t o))
                                        (set_calls (delete h (e_calls e)) e)) s)
          else None
      end
  | LoopDeadline =>
      match Engine_next_deadline (rn_shutdown s) (rn_engine s) with
      | None => None
      | Some _ =>
          let s := on_engine (fun e => process_drain_deadlines (process_retry_deadlines e)) s in
          match rn_shutdown s with
          | None => Some s
          | Some deadline =>
              let '(now, e) := RuntimeClock_now (rn_engine s) in
              Some (on_engine (fun _ => if deadline <=? now then expire_shutdown e else e) s)
          end
      end
  end.

(** The states [run] passes through at the top of its loop, with the branches of
    [select!] it took. *)
Inductive run_steps : RunState -> list LoopEvent -> RunState -> Prop :=
| run_refl s : run_steps s [] s
| run_step s evs ev s1 s2 :
    run_steps s evs s1 -> rn_finished (loop_head s1) = false ->
    loop_event ev (loop_head s1) = Some s2 -> run_steps s (evs ++ [ev]) s2.

(** The same run, computed. *)
Fixpoint run_loop (evs : list LoopEvent) (s : RunState) : option RunState :=
  match evs with
  | [] => Some s
  | ev :: evs =>
      let s := loop_head s in
      if rn_finished s then None
      else match loop_event ev s with Some s => run_loop evs s | None => None end
  end.

Lemma run_loop_steps evs' : forall s evs s1 s2,
  run_steps s evs s1 -> run_loop evs' s1 = Some s2 -> run_steps s (evs ++ evs') s2.
Proof.
  induction evs' as [|ev evs' IH]; intros s evs s1 s2 Hs; cbn [run_loop]; cbv zeta.
  { intros [= <-]. by rewrite app_nil_r. }
  destruct (rn_finished (loop_head s1)) eqn:Hf; [done|].
  destruct (loop_event ev (loop_head s1)) as [s1'|] eqn:Hev; [|done]. intros Hrun.
  replace (evs ++ ev :: evs') with ((evs ++ [ev]) ++ evs') by (by rewrite <-app_assoc).
  eapply IH; [|exact Hrun]. by eapply run_step.
Qed.

End engine.
