(* ===== verification/EngineAccounts.v ===== *)
(** * EngineAccounts: the resource accounting of the egress scheduler

    What the counters of the engine mean: sums over the deliveries and calls it holds.
    [accounts] is the invariant; the lemmas say what each bookkeeping step of runtime.rs
    does to it.  The counters have the widths of the source and the bounds show that
    none of them wraps or saturates. *)

From S2P Require Import Prelude Text Identifiers DeliveryStore EgressLimits Json Lifecycle Payload Kind Route RuntimeLimits Engine.

(** ** Sums over a map *)

Section msum.
  Context `{Countable K} {A : Type}.
  Implicit Types (f g : A -> Z) (m : gmap K A).

Definition msum f m : Z := map_fold (fun _ a s => f a + s) 0 m.

Lemma msum_empty f : msum f ∅ = 0.
Proof. apply map_fold_empty. Qed.

Lemma msum_insert f m k a : m !! k = None -> msum f (<[k := a]> m) = f a + msum f m.
Proof. intros Hk. unfold msum.
  apply (map_fold_insert_L (fun _ a s => f a + s) 0 k a m); [intros; lia|done]. Qed.

Lemma msum_delete f m k a : m !! k = Some a -> msum f (delete k m) = msum f m - f a.
Proof.
  intros Hk. rewrite <-(insert_delete_id m k a Hk) at 2. rewrite msum_insert by apply lookup_delete_eq. lia.
Qed.

Lemma msum_update f m k a b : m !! k = Some a -> msum f (<[k := b]> m) = msum f m - f a + f b.
Proof.
  intros Hk. rewrite <-insert_delete_eq, msum_insert by apply lookup_delete_eq.
  rewrite (msum_delete f m k a Hk). lia.
Qed.

Lemma msum_mono f g m :
  (forall k a, m !! k = Some a -> f a <= g a) -> msum f m <= msum g m.
Proof.
  induction m as [|k a m Hk IH] using map_ind; intros Hfg; [by rewrite !msum_empty|].
  rewrite !msum_insert by done. specialize (Hfg k a) as Ha. rewrite lookup_insert_eq in Ha.
  assert (msum f m <= msum g m); [|specialize (Ha eq_refl); lia].
  apply IH. intros k' a' Hk'. apply (Hfg k'). rewrite lookup_insert_ne; [done|congruence].
Qed.

Lemma msum_ext f g m :
  (forall k a, m !! k = Some a -> f a = g a) -> msum f m = msum g m.
Proof. intros Hfg. apply Z.le_antisymm; apply msum_mono; intros k a Hk; by rewrite (Hfg k a Hk). Qed.

Lemma msum_zero m : msum (fun _ => 0) m = 0.
Proof. induction m as [|k a m Hk IH] using map_ind; [apply msum_empty|]. rewrite msum_insert by done. lia. Qed.

Lemma msum_nonneg f m : (forall k a, m !! k = Some a -> 0 <= f a) -> 0 <= msum f m.
Proof. intros Hf. rewrite <-(msum_zero m). by apply msum_mono. Qed.

Lemma msum_elem f m k a :
  m !! k = Some a -> (forall k a, m !! k = Some a -> 0 <= f a) -> f a <= msum f m.
Proof.
  intros Hk Hf. assert (0 <= msum f (delete k m)) as H0.
  { apply msum_nonneg. intros k' a' [_ Hk']%lookup_delete_Some. by eapply Hf. }
  rewrite (msum_delete f m k a Hk) in H0. lia.
Qed.

Lemma msum_one m : msum (fun _ => 1) m = Z.of_nat (size m).
Proof.
  induction m as [|k a m Hk IH] using map_ind; [by rewrite msum_empty, map_size_empty|].
  rewrite msum_insert, map_size_insert_None by done. lia.
Qed.

End msum.

(** ** What the counters count *)

Section accounts.
  Context `{W : Wire} `{Env : EngineEnv} `{!EngineEnvOk}.
  Implicit Types (active : gmap DeliveryId ActiveDelivery) (calls : gmap DeliveryId ActiveCall)
    (usage : gmap RouteId RouteUsage).

Definition av_bytes (a : ActiveDelivery) : Z := Z.of_nat (length (ad_payload (av_parts a))).
Definition av_running (a : ActiveDelivery) : Z := match av_abort a with Some _ => 1 | None => 0 end.
Definition cl_running (a : ActiveCall) : Z := match cl_abort a with Some _ => 1 | None => 0 end.

(** The share of a value that belongs to a route. *)
Definition av_on (r : RouteId) (f : ActiveDelivery -> Z) (a : ActiveDelivery) : Z :=
  if decide (ad_route (av_parts a) = r) then f a else 0.
Definition cl_on (r : RouteId) (a : ActiveCall) : Z :=
  if decide (ad_route (cl_parts a) = r) then 1 else 0.

(** The usage record a route should have. *)
Definition actual_usage (r : RouteId) active calls : RouteUsage :=
  mk_usage (msum (av_on r (fun _ => 1)) active) (msum (av_on r av_bytes) active)
    (msum (av_on r av_running) active) (msum (cl_on r) calls).

Definition usage_at usage (r : RouteId) : RouteUsage := default RouteUsage_default (usage !! r).

(** The invariant.  The last two lines hold because admission checks the limits. *)
Definition usages active calls usage : Prop :=
  forall r, usage_at usage r = actual_usage r active calls /\
    forall u, usage !! r = Some u -> RouteUsage_is_idle u = false.

Record accounts active calls usage (pending bytes in_flight call_in_flight : Z) : Prop := {
  acc_pending : pending = Z.of_nat (size active);
  acc_bytes : bytes = msum av_bytes active;
  acc_in_flight : in_flight = msum av_running active;
  acc_calls : call_in_flight = msum cl_running calls;
  acc_usage : usages active calls usage;
  acc_pending_le : pending <= lim_global_pending limits;
  acc_bytes_le : bytes <= lim_global_bytes limits;
  acc_in_flight_le : in_flight <= lim_global_in_flight limits;
  acc_calls_le : Z.of_nat (size calls) <= lim_call_in_flight limits;
  acc_route_le : forall r, u_pending (usage_at usage r) <= lim_route_pending limits /\
    u_bytes (usage_at usage r) <= lim_route_bytes limits;
}.

Lemma av_bytes_nonneg a : 0 <= av_bytes a.
Proof. unfold av_bytes. lia. Qed.

Lemma av_running_bound a : 0 <= av_running a <= 1.
Proof. unfold av_running. destruct (av_abort a); lia. Qed.

Lemma cl_running_bound a : 0 <= cl_running a <= 1.
Proof. unfold cl_running. destruct (cl_abort a); lia. Qed.

Lemma av_on_nonneg r f a : 0 <= f a -> 0 <= av_on r f a.
Proof. unfold av_on. case_decide; lia. Qed.

Lemma av_on_le r f a : 0 <= f a -> av_on r f a <= f a.
Proof. unfold av_on. case_decide; lia. Qed.

Lemma cl_on_bound r a : 0 <= cl_on r a <= 1.
Proof. unfold cl_on. case_decide; lia. Qed.

Lemma msum_on_nonneg r f active : (forall a, 0 <= f a) -> 0 <= msum (av_on r f) active.
Proof. intros Hf. apply msum_nonneg. intros k a _. by apply av_on_nonneg. Qed.

Lemma msum_on_le r f active : (forall a, 0 <= f a) -> msum (av_on r f) active <= msum f active.
Proof. intros Hf. apply msum_mono. intros k a _. by apply av_on_le. Qed.

(** No pending delivery of a route means no retained bytes and nothing in flight. *)
Lemma no_pending_no_share r f active :
  msum (av_on r (fun _ => 1)) active = 0 -> msum (av_on r f) active = 0.
Proof.
  intros H0. etrans; [|apply (msum_zero active)]. apply msum_ext. intros k a Hk.
  pose proof (msum_elem (av_on r (fun _ => 1)) active k a Hk) as He. unfold av_on in *.
  case_decide; [|done]. rewrite H0 in He. exfalso.
  assert (1 <= 0); [|lia]. apply He. intros k' a' _. case_decide; lia.
Qed.

Lemma idle_actual r active calls :
  RouteUsage_is_idle (actual_usage r active calls) = true ->
  actual_usage r active calls = RouteUsage_default.
Proof.
  unfold RouteUsage_is_idle, actual_usage. simpl. rewrite !andb_true_iff, !Z.eqb_eq.
  intros [[Hp Hi] Hc]. rewrite Hp, Hi, Hc, (no_pending_no_share r av_bytes active Hp). done.
Qed.

(** Writing the usage of one route, an idle one being removed. *)
Definition usage_put (r : RouteId) (u : RouteUsage) usage : gmap RouteId RouteUsage :=
  if RouteUsage_is_idle u then delete r usage else <[r := u]> usage.

Lemma usages_put r u active calls active' calls' usage :
  usages active calls usage ->
  (forall r', r' <> r -> actual_usage r' active' calls' = actual_usage r' active calls) ->
  actual_usage r active' calls' = u ->
  usages active' calls' (usage_put r u usage).
Proof.
  intros Hu Hother <- r'. unfold usage_put, usage_at. destruct (decide (r' = r)) as [-> |Hne].
  - destruct (RouteUsage_is_idle _) eqn:Hidle.
    + rewrite lookup_delete_eq. simpl. by rewrite (idle_actual _ _ _ Hidle).
    + rewrite lookup_insert_eq. simpl. split; [done|]. by intros u [= <-].
  - rewrite (Hother r' Hne). destruct (RouteUsage_is_idle _).
    + rewrite lookup_delete_ne by done. apply Hu.
    + rewrite lookup_insert_ne by done. apply Hu.
Qed.

Lemma usage_some r active calls usage d a :
  usages active calls usage -> active !! d = Some a -> ad_route (av_parts a) = r ->
  usage !! r = Some (actual_usage r active calls).
Proof.
  intros Hu Ha Hr. destruct (Hu r) as [Heq _]. unfold usage_at in Heq.
  destruct (usage !! r) as [u|]; simpl in Heq; [by rewrite Heq|]. exfalso.
  pose proof (msum_elem (av_on r (fun _ => 1)) active d a Ha) as He.
  assert (msum (av_on r (fun _ => 1)) active = 0) as H0 by (by injection Heq).
  assert (av_on r (fun _ => 1) a = 1) as H1 by (unfold av_on; by rewrite decide_True). rewrite H1, H0 in He.
  assert (1 <= 0); [|lia]. apply He. intros k b _. by apply av_on_nonneg.
Qed.

Lemma usage_some_call r active calls usage d a :
  usages active calls usage -> calls !! d = Some a -> ad_route (cl_parts a) = r ->
  usage !! r = Some (actual_usage r active calls).
Proof.
  intros Hu Ha Hr. destruct (Hu r) as [Heq _]. unfold usage_at in Heq.
  destruct (usage !! r) as [u|]; simpl in Heq; [by rewrite Heq|]. exfalso.
  pose proof (msum_elem (cl_on r) calls d a Ha) as He.
  assert (msum (cl_on r) calls = 0) as H0 by (by injection Heq).
  assert (cl_on r a = 1) as H1 by (unfold cl_on; by rewrite decide_True). rewrite H1, H0 in He.
  assert (1 <= 0); [|lia]. apply He. intros k b _. apply cl_on_bound.
Qed.

(** *** The sums after a change of one delivery *)

Lemma actual_delete r active calls d a :
  active !! d = Some a ->
  actual_usage r (delete d active) calls =
    if decide (ad_route (av_parts a) = r)
    then mk_usage (u_pending (actual_usage r active calls) - 1) (u_bytes (actual_usage r active calls) - av_bytes a)
           (u_in_flight (actual_usage r active calls) - av_running a) (u_calls (actual_usage r active calls))
    else actual_usage r active calls.
Proof.
  intros Ha. unfold actual_usage. rewrite !(msum_delete _ active d a Ha). unfold av_on at 2 4 6.
  case_decide; simpl; f_equal; lia.
Qed.

Lemma actual_insert r active calls d a :
  active !! d = None ->
  actual_usage r (<[d := a]> active) calls =
    if decide (ad_route (av_parts a) = r)
    then mk_usage (u_pending (actual_usage r active calls) + 1) (u_bytes (actual_usage r active calls) + av_bytes a)
           (u_in_flight (actual_usage r active calls) + av_running a) (u_calls (actual_usage r active calls))
    else actual_usage r active calls.
Proof.
  intros Ha. unfold actual_usage. rewrite !(msum_insert _ active d a Ha). unfold av_on at 1 3 5.
  case_decide; simpl; f_equal; lia.
Qed.

(** A change that keeps the admitted parts only moves the in-flight count. *)
Lemma actual_update r active calls d a b :
  active !! d = Some a -> av_parts b = av_parts a ->
  actual_usage r (<[d := b]> active) calls =
    if decide (ad_route (av_parts a) = r)
    then mk_usage (u_pending (actual_usage r active calls)) (u_bytes (actual_usage r active calls))
           (u_in_flight (actual_usage r active calls) - av_running a + av_running b) (u_calls (actual_usage r active calls))
    else actual_usage r active calls.
Proof.
  intros Ha Hb. unfold actual_usage. rewrite !(msum_update _ active d a b Ha).
  unfold av_on at 2 3 5 6 8 9. rewrite Hb. unfold av_bytes at 2 3. rewrite Hb.
  case_decide; simpl; f_equal; lia.
Qed.

Lemma actual_call_delete r active calls d a :
  calls !! d = Some a ->
  actual_usage r active (delete d calls) =
    mk_usage (u_pending (actual_usage r active calls)) (u_bytes (actual_usage r active calls))
      (u_in_flight (actual_usage r active calls)) (u_calls (actual_usage r active calls) - cl_on r a).
Proof. intros Ha. unfold actual_usage. rewrite !(msum_delete _ calls d a Ha). done. Qed.

Lemma actual_call_insert r active calls d a :
  calls !! d = None ->
  actual_usage r active (<[d := a]> calls) =
    mk_usage (u_pending (actual_usage r active calls)) (u_bytes (actual_usage r active calls))
      (u_in_flight (actual_usage r active calls)) (u_calls (actual_usage r active calls) + cl_on r a).
Proof. intros Ha. unfold actual_usage. rewrite !(msum_insert _ calls d a Ha). simpl. f_equal. lia. Qed.

Lemma actual_call_update r active calls d a b :
  calls !! d = Some a -> cl_parts b = cl_parts a ->
  actual_usage r active (<[d := b]> calls) = actual_usage r active calls.
Proof.
  intros Ha Hb. unfold actual_usage. rewrite !(msum_update _ calls d a b Ha). unfold cl_on at 2 3. rewrite Hb.
  f_equal. lia.
Qed.

(** ** The bookkeeping of the engine's methods *)

Section methods.
  Context {L : Type}.
  Implicit Types e : Engine (L := L).

Definition eaccounts e : Prop :=
  accounts (e_active e) (e_active_calls e) (e_usage e) (e_global_pending e) (e_global_bytes e)
    (e_global_in_flight e) (e_call_in_flight e).

Lemma alter_insert_at {V} (f : V -> V) (m : gmap RouteId V) k x : m !! k = Some x -> alter f k m = <[k := f x]> m.
Proof.
  intros Hk. apply map_eq. intros i. destruct (decide (i = k)) as [-> |Hne].
  - by rewrite lookup_alter_eq, lookup_insert_eq, Hk.
  - by rewrite lookup_alter_ne, lookup_insert_ne.
Qed.

Lemma drop_idle_put route u e :
  e_usage e !! route = Some u -> e_usage (drop_idle_usage route e) = usage_put route u (e_usage e).
Proof.
  intros Hu. unfold drop_idle_usage, usage_put. rewrite Hu.
  destruct (RouteUsage_is_idle u); [done|]. by rewrite insert_id.
Qed.

Lemma usage_put_insert route u v usage : usage_put route u (<[route := v]> usage) = usage_put route u usage.
Proof. unfold usage_put. destruct (RouteUsage_is_idle u); [apply delete_insert_eq|apply insert_insert_eq]. Qed.

(** What [drop_idle_usage] leaves alone. *)
Lemma drop_idle_frame route e : exists usage, drop_idle_usage route e = set_usage usage e.
Proof.
  unfold drop_idle_usage. destruct (e_usage e !! route) as [u|]; [destruct (RouteUsage_is_idle u)|].
  - by eexists.
  - exists (e_usage e). by destruct e.
  - exists (e_usage e). by destruct e.
Qed.

(** Removing a delivery from the books. *)
Definition retired (d : DeliveryId) (a : ActiveDelivery) e e' : Prop :=
  let r := ad_route (av_parts a) in
  e_active e' = delete d (e_active e) /\ e_active_calls e' = e_active_calls e /\
  e_usage e' = usage_put r
    (let u := usage_at (e_usage e) r in
     mk_usage (sat_sub (u_pending u) 1) (sat_sub (u_bytes u) (av_bytes a))
       (match av_abort a with Some _ => sat_sub (u_in_flight u) 1 | None => u_in_flight u end) (u_calls u)) (e_usage e) /\
  e_global_pending e' = sat_sub (e_global_pending e) 1 /\
  e_global_bytes e' = sat_sub (e_global_bytes e) (av_bytes a) /\
  e_global_in_flight e' =
    (match av_abort a with Some _ => sat_sub (e_global_in_flight e) 1 | None => e_global_in_flight e end) /\
  e_call_in_flight e' = e_call_in_flight e.

Lemma retired_accounts d a e e' :
  eaccounts e -> e_active e !! d = Some a -> retired d a e e' -> eaccounts e'.
Proof.
  intros [Hp Hb Hi Hc Hu Hpl Hbl Hil Hcl Hrl] Ha (Hact & Hcalls & Husage & Hgp & Hgb & Hgi & Hci).
  set (r := ad_route (av_parts a)) in *.
  assert (forall r, usage_at (e_usage e) r = actual_usage r (e_active e) (e_active_calls e)) as Hat by (intros; apply Hu).
  assert (0 < Z.of_nat (size (e_active e))) as Hsize.
  { rewrite <-msum_one. pose proof (msum_elem (fun _ => 1) (e_active e) d a Ha (fun _ _ _ => Z.le_0_1)) as H1. simpl in H1. lia. }
  pose proof (av_bytes_nonneg a) as Hbn. pose proof (av_running_bound a) as Hrn.
  pose proof (msum_elem av_bytes (e_active e) d a Ha (fun _ b _ => av_bytes_nonneg b)) as Hbe.
  assert (av_running a <= msum av_running (e_active e)) as Hre.
  { apply (msum_elem _ _ d); [done|]. intros _ b _. apply av_running_bound. }
  assert (forall f, (forall b, 0 <= f b) -> f a <= msum (av_on r f) (e_active e)) as Hon.
  { intros f Hf. pose proof (msum_elem (av_on r f) (e_active e) d a Ha) as He.
    unfold av_on in He at 2. unfold r in He at 2. rewrite decide_True in He by done.
    apply He. intros _ b _. by apply av_on_nonneg. }
  pose proof (Hon (fun _ => 1) (fun _ => Z.le_0_1)) as Hon1. pose proof (Hon av_bytes av_bytes_nonneg) as Hon2.
  pose proof (Hon av_running (fun b => proj1 (av_running_bound b))) as Hon3. simpl in Hon1.
  assert (usages (e_active e') (e_active_calls e') (e_usage e')) as Hu'.
  { rewrite Hact, Hcalls, Husage. eapply usages_put; [exact Hu|..].
    - intros r' Hne. rewrite (actual_delete _ _ _ _ _ Ha). by rewrite decide_False.
    - rewrite (actual_delete _ _ _ _ _ Ha), decide_True by done. rewrite Hat. simpl. unfold sat_sub, av_running in *.
      f_equal; [lia|lia|]. destruct (av_abort a); lia. }
  split; try congruence.
  - rewrite Hgp, Hact, map_size_delete, Ha. unfold sat_sub. lia.
  - rewrite Hgb, Hact, (msum_delete _ _ _ _ Ha). unfold sat_sub. lia.
  - rewrite Hgi, Hact, (msum_delete _ _ _ _ Ha). unfold sat_sub, av_running in *. destruct (av_abort a); lia.
  - exact Hu'.
  - rewrite Hgp. unfold sat_sub. lia.
  - rewrite Hgb. unfold sat_sub. lia.
  - rewrite Hgi. unfold sat_sub. destruct (av_abort a); lia.
  - intros r'. destruct (Hu' r') as [-> _]. destruct (Hrl r') as [H1 H2]. rewrite Hat in H1, H2.
    rewrite Hact, Hcalls, (actual_delete _ _ _ _ _ Ha). case_decide; simpl in *; lia.
Qed.

(** The routes' rows of [finish_delivery]. *)
Lemma finish_delivery_retired d a e :
  eaccounts e -> e_active e !! d = Some a -> retired d a e (finish_delivery d e).
Proof.
  intros Hacc Ha. pose proof (usage_some _ _ _ _ _ _ (acc_usage _ _ _ _ _ _ _ Hacc) Ha eq_refl) as Hu.
  unfold finish_delivery. rewrite Ha. unfold retired, release_in_flight, alter_usage, abort_attempt.
  set (r := ad_route (av_parts a)) in *. set (u := actual_usage r _ _) in *.
  assert (usage_at (e_usage e) r = u) as -> by (unfold usage_at; by rewrite Hu).
  destruct (av_abort a) as [h|]; cbv zeta.
  - match goal with |- context [drop_idle_usage r ?x] => set (e1 := x) end.
    assert (e_usage e1 !! r = Some (usage_less_pending (av_bytes a) (usage_less_in_flight u))) as Hu1.
    { simpl. by rewrite (alter_insert_at usage_less_in_flight _ _ _ Hu), lookup_alter_eq, lookup_insert_eq. }
    rewrite (drop_idle_put _ _ _ Hu1). destruct (drop_idle_frame r e1) as [us ->]. simpl.
    rewrite (alter_insert_at usage_less_in_flight _ _ _ Hu).
    rewrite (alter_insert_at _ _ _ (usage_less_in_flight u)) by apply lookup_insert_eq.
    by rewrite !usage_put_insert.
  - match goal with |- context [drop_idle_usage r ?x] => set (e1 := x) end.
    assert (e_usage e1 !! r = Some (usage_less_pending (av_bytes a) u)) as Hu1.
    { simpl. by rewrite lookup_alter_eq, Hu. }
    rewrite (drop_idle_put _ _ _ Hu1). destruct (drop_idle_frame r e1) as [us ->]. simpl.
    rewrite (alter_insert_at _ _ _ u) by done. by rewrite !usage_put_insert.
Qed.

Lemma finish_delivery_accounts d e : eaccounts e -> eaccounts (finish_delivery d e).
Proof.
  intros Hacc. destruct (e_active e !! d) as [a|] eqn:Ha.
  - eapply retired_accounts; [exact Hacc|exact Ha|]. by apply finish_delivery_retired.
  - unfold finish_delivery. by rewrite Ha.
Qed.

(** Changing the state of a delivery and, with it, whether it is in flight. *)
Lemma update_accounts d a b e e' :
  eaccounts e -> e_active e !! d = Some a -> av_parts b = av_parts a ->
  e_active e' = <[d := b]> (e_active e) -> e_active_calls e' = e_active_calls e ->
  e_global_pending e' = e_global_pending e -> e_global_bytes e' = e_global_bytes e ->
  e_call_in_flight e' = e_call_in_flight e ->
  e_global_in_flight e' = e_global_in_flight e - av_running a + av_running b ->
  e_global_in_flight e' <= lim_global_in_flight limits ->
  e_usage e' = <[ad_route (av_parts a) :=
    let u := usage_at (e_usage e) (ad_route (av_parts a)) in
    mk_usage (u_pending u) (u_bytes u) (u_in_flight u - av_running a + av_running b) (u_calls u)]> (e_usage e) ->
  eaccounts e'.
Proof.
  intros [Hp Hb Hi Hc Hu Hpl Hbl Hil Hcl Hrl] Ha Hparts Hact Hcalls Hgp Hgb Hci Hgi Hle Husage.
  set (r := ad_route (av_parts a)) in *.
  assert (forall r, usage_at (e_usage e) r = actual_usage r (e_active e) (e_active_calls e)) as Hat by (intros; apply Hu).
  assert (RouteUsage_is_idle (actual_usage r (e_active e') (e_active_calls e')) = false) as Hidle.
  { rewrite Hact, Hcalls, (actual_update _ _ _ _ _ _ Ha Hparts), decide_True by done.
    unfold RouteUsage_is_idle. cbn [u_pending u_calls u_in_flight u_bytes].
    pose proof (usage_some _ _ _ _ _ _ Hu Ha eq_refl) as Hs. fold r in Hs. apply Hu in Hs.
    pose proof (msum_elem (av_on r (fun _ => 1)) (e_active e) d a Ha (fun _ b _ => av_on_nonneg r _ b Z.le_0_1)) as He.
    unfold av_on in He at 1. unfold r in He at 1. rewrite decide_True in He by done. simpl.
    destruct (Z.eqb_spec (msum (av_on r (fun _ => 1)) (e_active e)) 0); [lia|done]. }
  assert (usages (e_active e') (e_active_calls e') (e_usage e')) as Hu'.
  { replace (e_usage e') with (usage_put r (actual_usage r (e_active e') (e_active_calls e')) (e_usage e)).
    - eapply usages_put; [exact Hu| |done]. intros r' Hne.
      rewrite Hact, Hcalls, (actual_update _ _ _ _ _ _ Ha Hparts). by rewrite decide_False.
    - unfold usage_put. rewrite Hidle, Husage, Hat. f_equal.
      rewrite Hact, Hcalls, (actual_update _ _ _ _ _ _ Ha Hparts), decide_True by done. done. }
  split; try congruence.
  - rewrite Hgp, Hact, map_size_insert, Ha. exact Hp.
  - rewrite Hgb, Hact, (msum_update _ _ _ _ _ Ha). unfold av_bytes at 2 3. rewrite Hparts. lia.
  - rewrite Hgi, Hact, (msum_update _ _ _ _ _ Ha). lia.
  - exact Hu'.
  - intros r'. destruct (Hu' r') as [-> _]. destruct (Hrl r') as [H1 H2]. rewrite Hat in H1, H2.
    rewrite Hact, Hcalls, (actual_update _ _ _ _ _ _ Ha Hparts). case_decide; simpl in *; lia.
Qed.

(** A transition of the state machine keeps the books. *)
Lemma set_active_accounts d a b e :
  eaccounts e -> e_active e !! d = Some a -> av_parts b = av_parts a -> av_abort b = av_abort a ->
  eaccounts (set_active (<[d := b]> (e_active e)) e).
Proof.
  intros Hacc Ha Hparts Habort.
  assert (av_running b = av_running a) as Hrun by (unfold av_running; by rewrite Habort).
  pose proof (usage_some _ _ _ _ _ _ (acc_usage _ _ _ _ _ _ _ Hacc) Ha eq_refl) as Hu.
  eapply (update_accounts d a b e); try done; simpl.
  - rewrite Hrun. lia.
  - apply Hacc.
  - rewrite Hrun. symmetry. apply insert_id. unfold usage_at. rewrite Hu. simpl. unfold actual_usage. f_equal. simpl. f_equal. lia.
Qed.

(** Taking a delivery out of flight. *)
Lemma release_accounts d a h e e' :
  eaccounts e -> e_active e !! d = Some a -> av_abort a = Some h ->
  e_active e' = <[d := av_with_abort a None]> (e_active e) -> e_active_calls e' = e_active_calls e ->
  e_global_pending e' = e_global_pending e -> e_global_bytes e' = e_global_bytes e ->
  e_call_in_flight e' = e_call_in_flight e ->
  e_global_in_flight e' = sat_sub (e_global_in_flight e) 1 ->
  e_usage e' = alter usage_less_in_flight (ad_route (av_parts a)) (e_usage e) ->
  eaccounts e'.
Proof.
  intros Hacc Ha Habort Hact Hcalls Hgp Hgb Hci Hgi Husage.
  pose proof (usage_some _ _ _ _ _ _ (acc_usage _ _ _ _ _ _ _ Hacc) Ha eq_refl) as Hu.
  assert (av_running a = 1 /\ av_running (av_with_abort a None) = 0) as [Hr1 Hr0]
    by (unfold av_running; simpl; by rewrite Habort).
  assert (1 <= msum av_running (e_active e)) as Hge.
  { rewrite <-Hr1. apply (msum_elem _ _ d); [done|]. intros _ b _. apply av_running_bound. }
  set (r := ad_route (av_parts a)) in *.
  assert (1 <= msum (av_on r av_running) (e_active e)) as Hge'.
  { pose proof (msum_elem (av_on r av_running) (e_active e) d a Ha
      (fun _ b _ => av_on_nonneg r _ b (proj1 (av_running_bound b)))) as He.
    unfold av_on in He at 1. unfold r in He at 1. rewrite decide_True in He by done. lia. }
  pose proof (acc_in_flight _ _ _ _ _ _ _ Hacc) as Hin. pose proof (acc_in_flight_le _ _ _ _ _ _ _ Hacc) as Hle.
  eapply (update_accounts d a (av_with_abort a None) e); try done.
  - rewrite Hgi, Hr1, Hr0. unfold sat_sub. lia.
  - rewrite Hgi. unfold sat_sub. lia.
  - fold r. rewrite Husage, (alter_insert_at _ _ _ _ Hu). unfold usage_at. rewrite Hu, Hr1, Hr0.
    unfold usage_less_in_flight. simpl. f_equal. f_equal. unfold sat_sub. lia.
Qed.

Lemma clear_in_flight_accounts d e : eaccounts e -> eaccounts (clear_in_flight d e).2.
Proof.
  intros Hacc. unfold clear_in_flight. destruct (e_active e !! d) as [a|] eqn:Ha; [|done].
  destruct (av_abort a) as [h|] eqn:Hh; [|done]. by eapply (release_accounts d a h e).
Qed.

Lemma abort_in_flight_accounts d e : eaccounts e -> eaccounts (abort_in_flight d e).2.
Proof.
  intros Hacc. unfold abort_in_flight. destruct (e_active e !! d) as [a|] eqn:Ha; [|done].
  destruct (av_abort a) as [h|] eqn:Hh; [|done]. by eapply (release_accounts d a h e).
Qed.

(** Putting a delivery in flight, while the global limit leaves room. *)
Lemma spawn_attempt_accounts d a e :
  eaccounts e -> e_active e !! d = Some a -> av_abort a = None ->
  e_global_in_flight e < lim_global_in_flight limits ->
  eaccounts (spawn_attempt d a e).
Proof.
  pose proof limits_ok as Hlim. intros Hacc Ha Habort Hlt. unfold limits_wf in Hlim.
  pose proof (acc_in_flight _ _ _ _ _ _ _ Hacc) as Hin.
  assert (0 <= msum av_running (e_active e)) as Hnn by (apply msum_nonneg; intros _ b _; apply av_running_bound).
  set (b := av_with_abort a (Some (e_next_task e))).
  assert (av_running a = 0 /\ av_running b = 1) as [Hr0 Hr1] by (unfold av_running; simpl; by rewrite Habort).
  set (r := ad_route (av_parts a)).
  assert (0 <= msum (av_on r av_running) (e_active e) <= msum av_running (e_active e)) as Hon.
  { split; [apply msum_on_nonneg|apply msum_on_le]; intros b'; apply av_running_bound. }
  assert (usage_at (e_usage e) r = actual_usage r (e_active e) (e_active_calls e)) as Hat by apply Hacc.
  eapply (update_accounts d a b e); try done; simpl.
  - apply map_eq. intros i. destruct (decide (i = d)) as [-> |Hne].
    + by rewrite lookup_alter_eq, lookup_insert_eq, Ha.
    + by rewrite lookup_alter_ne, lookup_insert_ne.
  - rewrite wrap_add_small; unfold U8_MAX; lia.
  - rewrite wrap_add_small; unfold U8_MAX; lia.
  - fold r. fold (usage_at (e_usage e) r). rewrite Hat, Hr0, Hr1. unfold usage_more_in_flight. f_equal. simpl. f_equal.
    rewrite wrap_add_small; unfold U8_MAX; lia.
Qed.

(** A passed [check_pending_capacity] leaves room for one more delivery, below every width. *)
Lemma check_pending_capacity_room r bytes e :
  eaccounts e -> 0 <= bytes -> check_pending_capacity r bytes e = Ok tt ->
  let u := usage_at (e_usage e) r in
  0 <= e_global_pending e < lim_global_pending limits /\ 0 <= u_pending u < lim_route_pending limits /\
  0 <= e_global_bytes e /\ e_global_bytes e + bytes <= lim_global_bytes limits /\
  0 <= u_bytes u /\ u_bytes u + bytes <= lim_route_bytes limits.
Proof.
  pose proof limits_ok as Hlim. unfold limits_wf in Hlim. intros [Hp Hb _ _ Hu _ _ _ _ _] Hpb Hcheck u.
  unfold check_pending_capacity in Hcheck. fold (usage_at (e_usage e) r) in Hcheck. fold u in Hcheck.
  destruct (_ || _) eqn:H1 in Hcheck; [done|]. destruct (_ || _) eqn:H2 in Hcheck; [done|].
  apply orb_false_iff in H1 as [H1a%Z.leb_gt H1b%Z.leb_gt], H2 as [H2a%Z.ltb_ge H2b%Z.ltb_ge].
  assert (0 <= msum av_bytes (e_active e)) as Hbn by (apply msum_nonneg; intros _ b _; apply av_bytes_nonneg).
  assert (0 <= u_bytes u /\ 0 <= u_pending u) as [Hubn Hupn].
  { replace u with (actual_usage r (e_active e) (e_active_calls e)) by (symmetry; apply Hu).
    simpl. split; apply msum_on_nonneg; [apply av_bytes_nonneg|done]. }
  unfold sat_add, USIZE_MAX, U64_MAX in H2a, H2b. lia.
Qed.

(** A new delivery that passed [check_pending_capacity]. *)
Lemma accept_emit_accounts time ad e :
  eaccounts e -> e_active e !! ad_delivery ad = None ->
  check_pending_capacity (ad_route ad) (payload_bytes ad) e = Ok tt ->
  eaccounts (accept_emit time ad e).
Proof.
  pose proof limits_ok as Hlim. intros Hacc Hd Hcheck. unfold limits_wf in Hlim.
  assert (0 <= payload_bytes ad) as Hpb by (unfold payload_bytes; lia).
  pose proof (check_pending_capacity_room _ _ _ Hacc Hpb Hcheck) as Hroom. simpl in Hroom. clear Hcheck.
  destruct Hacc as [Hp Hb Hi Hc Hu Hpl Hbl Hil Hcl Hrl].
  set (r := ad_route ad) in *. set (a := mk_active (unix_ms time) ad (DeliveryLifecycle_new r (ad_delivery ad) (ad_retry ad)) None).
  assert (forall r, usage_at (e_usage e) r = actual_usage r (e_active e) (e_active_calls e)) as Hat by (intros; apply Hu).
  assert (usage_more_pending (payload_bytes ad) (usage_at (e_usage e) r) =
    actual_usage r (<[ad_delivery ad := a]> (e_active e)) (e_active_calls e)) as Hput.
  { rewrite (actual_insert r _ _ _ a Hd), decide_True by done. rewrite <-Hat. unfold usage_more_pending, av_running. simpl.
    rewrite !wrap_add_small; unfold USIZE_MAX, U64_MAX, U16_MAX; try lia.
    f_equal. change (av_bytes a) with (payload_bytes ad). lia. }
  assert (usages (<[ad_delivery ad := a]> (e_active e)) (e_active_calls e)
    (<[r := usage_more_pending (payload_bytes ad) (usage_at (e_usage e) r)]> (e_usage e))) as Hu'.
  { assert (RouteUsage_is_idle (usage_more_pending (payload_bytes ad) (usage_at (e_usage e) r)) = false) as Hidle.
    { unfold RouteUsage_is_idle, usage_more_pending. cbn [u_pending].
      rewrite wrap_add_small; unfold U16_MAX; [|lia..]. destruct (Z.eqb_spec (u_pending (usage_at (e_usage e) r) + 1) 0); [lia|done]. }
    replace (<[r := _]> (e_usage e)) with
      (usage_put r (usage_more_pending (payload_bytes ad) (usage_at (e_usage e) r)) (e_usage e))
      by (unfold usage_put; by rewrite Hidle).
    eapply usages_put; [exact Hu| |done]. intros r' Hne. rewrite (actual_insert r' _ _ _ a Hd). by rewrite decide_False. }
  assert (eaccounts (set_usage (<[r := usage_more_pending (payload_bytes ad) (usage_at (e_usage e) r)]> (e_usage e))
    (set_global_bytes (e_global_bytes e + payload_bytes ad) (set_global_pending (e_global_pending e + 1)
      (set_active (<[ad_delivery ad := a]> (e_active e)) e))))) as Hdone.
  { split; simpl; try done.
    - rewrite map_size_insert, Hd. lia.
    - rewrite (msum_insert _ _ _ _ Hd). change (av_bytes a) with (payload_bytes ad). lia.
    - rewrite (msum_insert _ _ _ _ Hd). unfold av_running at 1. simpl. lia.
    - lia.
    - lia.
    - intros r'. destruct (decide (r' = r)) as [-> |Hne].
      + unfold usage_at. rewrite lookup_insert_eq. simpl. fold (usage_at (e_usage e) r).
        rewrite !wrap_add_small; unfold USIZE_MAX, U64_MAX, U16_MAX; lia.
      + unfold usage_at. rewrite lookup_insert_ne by done. apply Hrl. }
  unfold accept_emit, entry_usage, enqueue_ready. fold r. cbn.
  rewrite !wrap_add_small by (unfold USIZE_MAX, U64_MAX, U16_MAX; lia).
  case_bool_decide; exact Hdone.
Qed.

(** *** Calls *)

(** Changing the state of a call and, with it, whether it is in flight. *)
Lemma update_call_accounts d a b e e' :
  eaccounts e -> e_active_calls e !! d = Some a -> cl_parts b = cl_parts a ->
  e_active e' = e_active e -> e_active_calls e' = <[d := b]> (e_active_calls e) ->
  e_usage e' = e_usage e -> e_global_pending e' = e_global_pending e -> e_global_bytes e' = e_global_bytes e ->
  e_global_in_flight e' = e_global_in_flight e ->
  e_call_in_flight e' = e_call_in_flight e - cl_running a + cl_running b ->
  eaccounts e'.
Proof.
  intros [Hp Hb Hi Hc Hu Hpl Hbl Hil Hcl Hrl] Ha Hparts Hact Hcalls Husage Hgp Hgb Hgi Hci.
  split; try congruence.
  - rewrite Hci, Hcalls, (msum_update _ _ _ _ _ Ha). lia.
  - rewrite Husage, Hact, Hcalls. intros r. rewrite (actual_call_update _ _ _ _ _ _ Ha Hparts). apply Hu.
  - rewrite Hcalls, map_size_insert, Ha. exact Hcl.
  - by rewrite Husage.
Qed.

Lemma calls_running_bound e : eaccounts e -> 0 <= msum cl_running (e_active_calls e) <= lim_call_in_flight limits.
Proof.
  intros Hacc. split; [apply msum_nonneg; intros _ b _; apply cl_running_bound|].
  etrans; [|apply Hacc]. rewrite <-msum_one. apply msum_mono. intros _ b _. apply cl_running_bound.
Qed.

Lemma set_call_accounts d a b e :
  eaccounts e -> e_active_calls e !! d = Some a -> cl_parts b = cl_parts a -> cl_abort b = cl_abort a ->
  eaccounts (set_active_calls (<[d := b]> (e_active_calls e)) e).
Proof.
  intros Hacc Ha Hparts Habort. eapply (update_call_accounts d a b e); try done. simpl.
  unfold cl_running. rewrite Habort. lia.
Qed.

Lemma release_call_accounts d a h e e' :
  eaccounts e -> e_active_calls e !! d = Some a -> cl_abort a = Some h ->
  e_active e' = e_active e -> e_active_calls e' = <[d := cl_with_abort a None]> (e_active_calls e) ->
  e_usage e' = e_usage e -> e_global_pending e' = e_global_pending e -> e_global_bytes e' = e_global_bytes e ->
  e_global_in_flight e' = e_global_in_flight e ->
  e_call_in_flight e' = sat_sub (e_call_in_flight e) 1 ->
  eaccounts e'.
Proof.
  intros Hacc Ha Habort Hact Hcalls Husage Hgp Hgb Hgi Hci.
  eapply (update_call_accounts d a (cl_with_abort a None) e); try done.
  rewrite Hci, (acc_calls _ _ _ _ _ _ _ Hacc).
  assert (cl_running a <= msum cl_running (e_active_calls e)).
  { apply (msum_elem _ _ d); [done|]. intros _ b _. apply cl_running_bound. }
  unfold cl_running in *. simpl. rewrite Habort in *. unfold sat_sub. lia.
Qed.

Lemma clear_call_accounts d e : eaccounts e -> eaccounts (clear_call_in_flight d e).2.
Proof.
  intros Hacc. unfold clear_call_in_flight. destruct (e_active_calls e !! d) as [a|] eqn:Ha; [|done].
  destruct (cl_abort a) as [h|] eqn:Hh; [|done]. by eapply (release_call_accounts d a h e).
Qed.

Lemma abort_call_accounts d e : eaccounts e -> eaccounts (abort_call d e).2.
Proof.
  intros Hacc. unfold abort_call. destruct (e_active_calls e !! d) as [a|] eqn:Ha; [|done].
  destruct (cl_abort a) as [h|] eqn:Hh; [|done]. by eapply (release_call_accounts d a h e).
Qed.

Lemma spawn_call_accounts d a e :
  eaccounts e -> e_active_calls e !! d = Some a -> cl_abort a = None ->
  eaccounts (spawn_call d a e).
Proof.
  pose proof limits_ok as Hlim. intros Hacc Ha Habort. unfold limits_wf in Hlim. pose proof (calls_running_bound e Hacc) as Hb.
  pose proof (acc_calls _ _ _ _ _ _ _ Hacc) as Hc.
  eapply (update_call_accounts d a (cl_with_abort a (Some (e_next_task e))) e); try done; simpl.
  - apply map_eq. intros i. destruct (decide (i = d)) as [-> |Hne].
    + by rewrite lookup_alter_eq, lookup_insert_eq, Ha.
    + by rewrite lookup_alter_ne, lookup_insert_ne.
  - unfold cl_running at 1 2. simpl. rewrite Habort. rewrite wrap_add_small; unfold U8_MAX; lia.
Qed.

(** A new call. *)
Lemma insert_call_accounts d b e :
  eaccounts e -> e_active_calls e !! d = None -> cl_abort b = None ->
  Z.of_nat (size (e_active_calls e)) < lim_call_in_flight limits ->
  eaccounts (entry_usage usage_more_call (ad_route (cl_parts b))
    (set_active_calls (<[d := b]> (e_active_calls e)) e)).
Proof.
  pose proof limits_ok as Hlim. intros [Hp Hb Hi Hc Hu Hpl Hbl Hil Hcl Hrl] Hd Habort Hlt. unfold limits_wf in Hlim.
  set (r := ad_route (cl_parts b)).
  assert (forall r, usage_at (e_usage e) r = actual_usage r (e_active e) (e_active_calls e)) as Hat by (intros; apply Hu).
  assert (0 <= u_calls (usage_at (e_usage e) r) < lim_call_in_flight limits) as Huc.
  { rewrite Hat. simpl. split; [apply msum_nonneg; intros _ a _; apply cl_on_bound|].
    eapply Z.le_lt_trans; [|exact Hlt]. rewrite <-msum_one. apply msum_mono. intros _ a _. apply cl_on_bound. }
  assert (usages (e_active e) (<[d := b]> (e_active_calls e))
    (<[r := usage_more_call (usage_at (e_usage e) r)]> (e_usage e))) as Hu'.
  { assert (RouteUsage_is_idle (usage_more_call (usage_at (e_usage e) r)) = false) as Hidle.
    { unfold RouteUsage_is_idle, usage_more_call. cbn [u_calls].
      rewrite wrap_add_small; unfold U8_MAX; [|lia..]. destruct (Z.eqb_spec (u_calls (usage_at (e_usage e) r) + 1) 0); [lia|].
      by rewrite andb_false_r. }
    replace (<[r := _]> (e_usage e)) with (usage_put r (usage_more_call (usage_at (e_usage e) r)) (e_usage e))
      by (unfold usage_put; by rewrite Hidle).
    eapply usages_put; [exact Hu|..].
    - intros r' Hne. rewrite (actual_call_insert _ _ _ _ _ Hd). unfold cl_on. rewrite decide_False by done.
      rewrite Z.add_0_r. done.
    - rewrite (actual_call_insert _ _ _ _ _ Hd). unfold cl_on. rewrite decide_True by done.
      rewrite <-Hat. unfold usage_more_call. f_equal. rewrite wrap_add_small; unfold U8_MAX; lia. }
  unfold entry_usage. simpl. fold (usage_at (e_usage e) r). split; simpl; try done.
  - rewrite (msum_insert _ _ _ _ Hd). unfold cl_running at 1. rewrite Habort. lia.
  - rewrite map_size_insert, Hd. lia.
  - intros r'. destruct (decide (r' = r)) as [-> |Hne].
    + unfold usage_at. rewrite lookup_insert_eq. simpl. apply Hrl.
    + unfold usage_at. rewrite lookup_insert_ne by done. apply Hrl.
Qed.

Lemma finish_call_accounts d response e : eaccounts e -> eaccounts (finish_call d response e).
Proof.
  intros Hacc. unfold finish_call. destruct (e_active_calls e !! d) as [a|] eqn:Ha; [|done].
  pose proof (usage_some_call _ _ _ _ _ _ (acc_usage _ _ _ _ _ _ _ Hacc) Ha eq_refl) as Hus.
  destruct Hacc as [Hp Hb Hi Hc Hu Hpl Hbl Hil Hcl Hrl].
  set (r := ad_route (cl_parts a)) in *. set (u := actual_usage r (e_active e) (e_active_calls e)) in *.
  assert (cl_on r a = 1) as Hon by (unfold cl_on; by rewrite decide_True).
  assert (1 <= u_calls u) as Huc.
  { rewrite <-Hon. apply (msum_elem _ _ d); [done|]. intros _ b _. apply cl_on_bound. }
  assert (usages (e_active e) (delete d (e_active_calls e)) (usage_put r (usage_less_call u) (e_usage e))) as Hu'.
  { eapply usages_put; [exact Hu|..].
    - intros r' Hne. rewrite (actual_call_delete _ _ _ _ _ Ha). unfold cl_on. rewrite decide_False by done.
      rewrite Z.sub_0_r. done.
    - rewrite (actual_call_delete _ _ _ _ _ Ha), Hon. fold u. unfold usage_less_call. f_equal. unfold sat_sub. lia. }
  assert (cl_running a <= msum cl_running (e_active_calls e)) as Hrun.
  { apply (msum_elem _ _ d); [done|]. intros _ b _. apply cl_running_bound. }
  assert (forall e1, e_active e1 = e_active e -> e_active_calls e1 = delete d (e_active_calls e) ->
    e_usage e1 = e_usage e -> e_global_pending e1 = e_global_pending e -> e_global_bytes e1 = e_global_bytes e ->
    e_global_in_flight e1 = e_global_in_flight e -> e_call_in_flight e1 = e_call_in_flight e - cl_running a ->
    eaccounts (reply (cl_reply a) (RespCall response) (drop_idle_usage r (alter_usage usage_less_call r e1)))) as Hfin.
  { intros e1 H1 H2 H3 H4 H5 H6 H7.
    assert (e_usage (alter_usage usage_less_call r e1) !! r = Some (usage_less_call u)) as Hu1
      by (simpl; by rewrite H3, lookup_alter_eq, Hus).
    pose proof (drop_idle_put _ _ _ Hu1) as Hdrop. simpl in Hdrop. rewrite H3, (alter_insert_at _ _ _ u Hus), usage_put_insert in Hdrop.
    destruct (drop_idle_frame r (alter_usage usage_less_call r e1)) as [us Hus']. rewrite Hus' in *. simpl in Hdrop. subst us.
    split; simpl; try congruence.
    - rewrite H7, H2, (msum_delete _ _ _ _ Ha). lia.
    - by rewrite H1, H2.
    - rewrite H2, map_size_delete, Ha. lia.
    - intros r'. destruct (Hu' r') as [-> _]. rewrite (actual_call_delete _ _ _ _ _ Ha). simpl.
      destruct (Hu r') as [Hat _]. destruct (Hrl r') as [Hr1 Hr2]. by rewrite Hat in Hr1, Hr2. }
  assert (cl_running a = match cl_abort a with Some _ => 1 | None => 0 end) as Hra by done.
  destruct (cl_abort a) as [h|] eqn:Hh; apply Hfin; try done; simpl; rewrite Hra; unfold sat_sub; lia.
Qed.

End methods.
End accounts.
