(* ===== verification/EngineInv.v ===== *)
(** * EngineInv: the invariant of the egress scheduler

    [engine_inv] says where every accepted delivery is, that the delivery log agrees
    with it, and that the books are right.  The log is any instance of
    [DeliveryLogSpec]; the clock any monotone sequence of readings. *)

From S2P Require Import Prelude Text Identifiers DeliveryStore EgressLimits Json Lifecycle Payload Kind Route RuntimeLimits Engine EngineAccounts.

Section inv.
  Context `{W : Wire} `{Env : EngineEnv} {EnvOk : EngineEnvOk} `{DeliveryLogSpec L}.
  Implicit Types e : Engine (L := L).

Abbreviation view e := (log_view (e_log e)).
Definition queue e (r : RouteId) : list DeliveryId := default [] (e_ready e !! r).

(** ** The retry heap *)

#[local] Instance retry_le_trans : Transitive retry_le.
Proof. intros x y z [?|[? ?]] [?|[? ?]]; [left; lia..|]. right. split; [lia|]. by etrans. Qed.

Lemma retry_le_total x y : ~ retry_le x y -> retry_le y x.
Proof.
  unfold retry_le. intros Hn. destruct (Z.lt_trichotomy x.1 y.1) as [?|[Heq|?]]; [tauto| |by left].
  right. split; [done|]. destruct (total key_le x.2 y.2); [tauto|done].
Qed.

Lemma heap_push_perm x h : heap_push x h ≡ₚ x :: h.
Proof.
  induction h as [|y h IH]; simpl; [done|]. case_decide; [done|]. rewrite IH. apply Permutation_swap.
Qed.

Lemma elem_of_heap_push x h : x ∈ heap_push x h.
Proof. rewrite heap_push_perm. left. Qed.

Lemma heap_push_sorted x h : StronglySorted retry_le h -> StronglySorted retry_le (heap_push x h).
Proof.
  induction 1 as [|y h Hs IH Hy]; simpl; [repeat constructor|]. case_decide as Hxy.
  - constructor; [by constructor|]. constructor; [done|].
    eapply Forall_impl; [exact Hy|]. intros z Hz. by etrans.
  - constructor; [done|]. rewrite heap_push_perm. constructor; [by apply retry_le_total|done].
Qed.

(** ** Where a delivery is *)

(** The task whose completion is being handled, of the attempts or of the calls. *)
Inductive Joining := JoiningAttempt (h : Z) | JoiningCall (h : Z).

(** A live task of the join set, unless its completion is being handled. *)
Definition live_task (lost : option Joining) (joining : Z -> Joining) (tasks : gmap Z Task)
    (d : DeliveryId) (h : Z) : Prop :=
  lost = Some (joining h) \/ exists t, tasks !! h = Some t /\ tk_aborted t = false /\ tk_delivery t = d.

(** A delivery that is not in flight and not queued either waits for its retry or has
    just been taken off its queue. *)
Definition waiting e (d : DeliveryId) (a : ActiveDelivery) : Prop :=
  match lc_state (av_lifecycle a) with
  | Ready => True
  | WaitingRetry deadline => (deadline, d) ∈ e_retries e \/ deadline <= clock (e_tick e)
  | _ => False
  end.

Definition placed (lost : option Joining) e (d : DeliveryId) (a : ActiveDelivery) : Prop :=
  match av_abort a with
  | Some h => lc_state (av_lifecycle a) = InFlight /\ live_task lost JoiningAttempt (e_attempts e) d h
  | None =>
      waiting e d a /\
      (d ∈ queue e (ad_route (av_parts a)) \/
       exists deadline, lc_state (av_lifecycle a) = WaitingRetry deadline /\ (deadline, d) ∈ e_retries e)
  end.

Definition call_placed (lost : option Joining) e (d : DeliveryId) (a : ActiveCall) : Prop :=
  exists h, cl_abort a = Some h /\ lc_state (cl_lifecycle a) = InFlight /\ live_task lost JoiningCall (e_calls e) d h.

(** The record the log holds for an unfinished delivery. *)
Definition logged e (d : DeliveryId) (parts : AdmittedDelivery) (accepted_at attempts : Z) : Prop :=
  exists r, view e !! d = Some r /\ rec_state r = Pending /\ rec_attempts r = attempts /\
    rec_intent r = mk_intent (ad_route parts) d accepted_at.

Definition active_ok e (d : DeliveryId) (a : ActiveDelivery) : Prop :=
  ad_delivery (av_parts a) = d /\ lc_delivery (av_lifecycle a) = d /\ lc_wf (av_lifecycle a) /\
  logged e d (av_parts a) (av_accepted_at a) (lc_attempts (av_lifecycle a)).

Definition call_ok e (d : DeliveryId) (a : ActiveCall) : Prop :=
  ad_delivery (cl_parts a) = d /\ lc_delivery (cl_lifecycle a) = d /\ lc_wf (cl_lifecycle a) /\
  logged e d (cl_parts a) (cl_accepted_at a) (lc_attempts (cl_lifecycle a)).

(** The queues: the routes of the rotation are those with a queue, and none is empty. *)
Definition ready_ok (ready : gmap RouteId (list DeliveryId)) (routes : list RouteId) : Prop :=
  NoDup routes /\ (forall r, r ∈ routes <-> is_Some (ready !! r)) /\ forall r q, ready !! r = Some q -> q <> [].
Abbreviation ready_wf e := (ready_ok (e_ready e) (e_ready_routes e)).

(** ** The invariant

    [lost]: the task whose completion is being handled; [free]: the delivery that was
    just taken off its queue.  Both are [None] between two iterations of the loop. *)
Record engine_inv (lost : option Joining) (free : option DeliveryId) e : Prop := {
  inv_accounts : eaccounts e;
  inv_registry : reg_wf (e_registry e);
  inv_active : forall d a, e_active e !! d = Some a -> active_ok e d a;
  inv_placed : forall d a, e_active e !! d = Some a -> free <> Some d -> placed lost e d a;
  inv_calls : forall d a, e_active_calls e !! d = Some a -> call_ok e d a;
  inv_calls_placed : forall d a, e_active_calls e !! d = Some a -> free <> Some d -> call_placed lost e d a;
  inv_disjoint : forall d, is_Some (e_active e !! d) -> e_active_calls e !! d = None;
  inv_pending : forall d r, view e !! d = Some r -> rec_state r = Pending ->
    is_Some (e_active e !! d) \/ is_Some (e_active_calls e !! d) \/ is_Some (e_overrides e !! d);
  inv_overrides : forall d r, e_overrides e !! d = Some r ->
    rec_terminal r = true /\ e_degraded e = true /\ e_active e !! d = None /\ e_active_calls e !! d = None;
  inv_ready : ready_wf e;
  inv_retries : StronglySorted retry_le (e_retries e);
  inv_tasks : forall h, is_Some (e_attempts e !! h) \/ is_Some (e_calls e !! h) -> h < e_next_task e;
  inv_handles : forall d d' a a' h, e_active e !! d = Some a -> e_active e !! d' = Some a' ->
    av_abort a = Some h -> av_abort a' = Some h -> d = d';
  inv_call_handles : forall d d' a a' h, e_active_calls e !! d = Some a -> e_active_calls e !! d' = Some a' ->
    cl_abort a = Some h -> cl_abort a' = Some h -> d = d';
  inv_drains : forall r dr, e_drains e !! r = Some dr ->
    exists entry, reg_routes (e_registry e) !! r = Some entry /\ route_enabled (entry_route entry) = false;
}.

(** ** Changing one delivery

    [changes d e e']: outside [d] nothing was lost on the way from [e] to [e']: the other
    deliveries, calls, overrides and tasks are the same, queues and retries only grew,
    and of the other records the log may have dropped settled ones.  What is left to
    show is that [d] itself is in order. *)
Record changes (d : DeliveryId) e e' : Prop := {
  ch_active : forall d', d' <> d -> e_active e' !! d' = e_active e !! d';
  ch_calls : forall d', d' <> d -> e_active_calls e' !! d' = e_active_calls e !! d';
  ch_registry : e_registry e' = e_registry e;
  ch_drains : e_drains e' = e_drains e;
  ch_queue : forall r d', d' ∈ queue e r -> d' ∈ queue e' r;
  ch_ready : ready_wf e';
  ch_retries : forall x, x ∈ e_retries e -> x ∈ e_retries e';
  ch_sorted : StronglySorted retry_le (e_retries e');
  ch_attempts : forall d' a h, d' <> d -> e_active e !! d' = Some a -> av_abort a = Some h ->
    e_attempts e' !! h = e_attempts e !! h;
  ch_call_tasks : forall d' a h, d' <> d -> e_active_calls e !! d' = Some a -> cl_abort a = Some h ->
    e_calls e' !! h = e_calls e !! h;
  ch_tasks : forall h, is_Some (e_attempts e' !! h) \/ is_Some (e_calls e' !! h) -> h < e_next_task e';
  ch_tick : (e_tick e <= e_tick e')%nat;
  ch_view : forall d', d' <> d -> view e' !! d' = view e !! d' \/
    view e' !! d' = None /\ exists r, view e !! d' = Some r /\ rec_terminal r = true;
  ch_overrides : forall d', d' <> d -> e_overrides e' !! d' = e_overrides e !! d';
  ch_degraded : e_degraded e = true -> e_degraded e' = true;
  ch_accounts : eaccounts e';
}.

(** What has to hold of the delivery that changed. *)
Record in_order (lost : option Joining) (free : option DeliveryId) (d : DeliveryId) e e' : Prop := {
  io_active : forall a, e_active e' !! d = Some a ->
    active_ok e' d a /\ (free <> Some d -> placed lost e' d a) /\ e_active_calls e' !! d = None /\
    forall h d' b, av_abort a = Some h -> d' <> d -> e_active e !! d' = Some b -> av_abort b <> Some h;
  io_call : forall a, e_active_calls e' !! d = Some a ->
    call_ok e' d a /\ (free <> Some d -> call_placed lost e' d a) /\
    forall h d' b, cl_abort a = Some h -> d' <> d -> e_active_calls e !! d' = Some b -> cl_abort b <> Some h;
  io_pending : forall r, view e' !! d = Some r -> rec_state r = Pending ->
    is_Some (e_active e' !! d) \/ is_Some (e_active_calls e' !! d) \/ is_Some (e_overrides e' !! d);
  io_override : forall r, e_overrides e' !! d = Some r ->
    rec_terminal r = true /\ e_degraded e' = true /\ e_active e' !! d = None /\ e_active_calls e' !! d = None;
}.

Lemma waiting_mono d a e e' :
  (forall x, x ∈ e_retries e -> x ∈ e_retries e') -> (e_tick e <= e_tick e')%nat -> waiting e d a -> waiting e' d a.
Proof.
  intros Hr Ht. unfold waiting. destruct (lc_state _); [done..| |done].
  pose proof (clock_mono _ _ Ht). intros [?|?]; [left; auto|right; lia].
Qed.

Lemma changes_logged d e e' d' parts at_ n :
  changes d e e' -> d' <> d -> logged e d' parts at_ n -> logged e' d' parts at_ n.
Proof.
  intros [] Hne (r & Hr & Hs & Hrest). exists r. split; [|done].
  destruct (ch_view0 d' Hne) as [->|(_ & r' & Hr' & Ht)]; [done|]. unfold rec_terminal in Ht.
  rewrite Hr in Hr'. injection Hr' as <-. by rewrite Hs in Ht.
Qed.

Lemma changes_placed lost d e e' d' a :
  changes d e e' -> d' <> d -> e_active e !! d' = Some a -> placed lost e d' a -> placed lost e' d' a.
Proof.
  intros [] Hne Ha Hp. unfold placed in *. destruct (av_abort a) as [h|] eqn:Hh.
  - destruct Hp as [Hst [?|(t & Ht & Hrest)]]; (split; [done|]); [by left|right].
    exists t. by rewrite (ch_attempts0 d' a h).
  - destruct Hp as [Hw Hq]. split; [by eapply waiting_mono|].
    destruct Hq as [?|(dl & ? & ?)]; [left; auto|right; eauto].
Qed.

Lemma changes_call_placed lost d e e' d' a :
  changes d e e' -> d' <> d -> e_active_calls e !! d' = Some a -> call_placed lost e d' a -> call_placed lost e' d' a.
Proof.
  intros [] Hne Ha (h & Hh & Hst & Hl). exists h. split_and!; [done..|].
  destruct Hl as [?|(t & Ht & Hrest)]; [by left|right]. exists t. by rewrite (ch_call_tasks0 d' a h).
Qed.

(** The invariant is kept if the changed delivery is in order. *)
Lemma changes_inv lost free free' d e e' :
  engine_inv lost free e -> free = None \/ free = Some d -> free' = None \/ free' = Some d ->
  changes d e e' -> in_order lost free' d e e' -> engine_inv lost free' e'.
Proof.
  intros [] Hfree Hfree' Hch []. pose proof Hch as [].
  assert (forall d', d' <> d -> free <> Some d') as Hf by (intros ? ? ?; destruct Hfree; congruence).
  split; try done.
  - congruence.
  - intros d' a Ha. destruct (decide (d' = d)) as [-> |Hne]; [by apply io_active0|].
    rewrite ch_active0 in Ha by done. destruct (inv_active0 d' a Ha) as (? & ? & ? & ?).
    split_and!; try done. by eapply changes_logged.
  - intros d' a Ha Hf'. destruct (decide (d' = d)) as [-> |Hne]; [by apply io_active0|].
    rewrite ch_active0 in Ha by done. eapply changes_placed; eauto.
  - intros d' a Ha. destruct (decide (d' = d)) as [-> |Hne]; [by apply io_call0|].
    rewrite ch_calls0 in Ha by done. destruct (inv_calls0 d' a Ha) as (? & ? & ? & ?).
    split_and!; try done. by eapply changes_logged.
  - intros d' a Ha Hf'. destruct (decide (d' = d)) as [-> |Hne]; [by apply io_call0|].
    rewrite ch_calls0 in Ha by done. eapply changes_call_placed; eauto.
  - intros d' [a Ha]. destruct (decide (d' = d)) as [-> |Hne]; [by eapply io_active0|].
    rewrite ch_calls0 by done. rewrite ch_active0 in Ha by done. eauto.
  - intros d' r Hr Hp. destruct (decide (d' = d)) as [-> |Hne]; [eauto|].
    rewrite ch_active0, ch_calls0, ch_overrides0 by done.
    destruct (ch_view0 d' Hne) as [Heq|[Hn _]]; [rewrite Heq in Hr; eauto|congruence].
  - intros d' r. destruct (decide (d' = d)) as [-> |Hne]; [auto|]. rewrite ch_active0, ch_calls0, ch_overrides0 by done.
    intros Hr. destruct (inv_overrides0 d' r Hr) as (? & ? & ? & ?). auto.
  - intros d1 d2 a1 a2 h Ha1 Ha2 Hh1 Hh2.
    destruct (decide (d1 = d)) as [-> |N1], (decide (d2 = d)) as [-> |N2]; [done|..].
    + rewrite ch_active0 in Ha2 by done. destruct (io_active0 _ Ha1) as (_ & _ & _ & Hown). by destruct (Hown h d2 a2).
    + rewrite ch_active0 in Ha1 by done. destruct (io_active0 _ Ha2) as (_ & _ & _ & Hown). by destruct (Hown h d1 a1).
    + rewrite ch_active0 in Ha1, Ha2 by done. eauto.
  - intros d1 d2 a1 a2 h Ha1 Ha2 Hh1 Hh2.
    destruct (decide (d1 = d)) as [-> |N1], (decide (d2 = d)) as [-> |N2]; [done|..].
    + rewrite ch_calls0 in Ha2 by done. destruct (io_call0 _ Ha1) as (_ & _ & Hown). by destruct (Hown h d2 a2).
    + rewrite ch_calls0 in Ha1 by done. destruct (io_call0 _ Ha2) as (_ & _ & Hown). by destruct (Hown h d1 a1).
    + rewrite ch_calls0 in Ha1, Ha2 by done. eauto.
  - intros r dr. rewrite ch_drains0, ch_registry0. apply inv_drains0.
Qed.

(** ** Working on one delivery

    [touched d a e e']: on the way from [e], where [d] was active as [a], to [e'] only
    [d]'s own state, record, override and task moved.  Every step of a terminal path
    keeps it, so the path as a whole is judged where it ends. *)
Record touched (d : DeliveryId) (a : ActiveDelivery) e e' : Prop := {
  t_self : exists a', e_active e' !! d = Some a' /\ av_parts a' = av_parts a /\
    av_accepted_at a' = av_accepted_at a /\ lc_delivery (av_lifecycle a') = d /\ lc_wf (av_lifecycle a') /\
    (av_abort a' = av_abort a \/ av_abort a' = None);
  t_active : forall d', d' <> d -> e_active e' !! d' = e_active e !! d';
  t_calls : e_active_calls e' = e_active_calls e;
  t_registry : e_registry e' = e_registry e;
  t_ready : e_ready e' = e_ready e;
  t_ready_routes : e_ready_routes e' = e_ready_routes e;
  t_retries : e_retries e' = e_retries e;
  t_call_tasks : e_calls e' = e_calls e;
  t_next : e_next_task e' = e_next_task e;
  t_drains : e_drains e' = e_drains e;
  t_outbox : e_outbox e' = e_outbox e;
  t_attempts : forall d' a' h, d' <> d -> e_active e !! d' = Some a' -> av_abort a' = Some h ->
    e_attempts e' !! h = e_attempts e !! h;
  t_attempts_dom : forall h, is_Some (e_attempts e' !! h) -> is_Some (e_attempts e !! h);
  t_tick : (e_tick e <= e_tick e')%nat;
  t_view : forall d', d' <> d -> view e' !! d' = view e !! d';
  t_overrides : forall d', d' <> d -> e_overrides e' !! d' = e_overrides e !! d';
  t_degraded : e_degraded e = true -> e_degraded e' = true;
  t_accounts : eaccounts e';
}.

(** The outcome of [d] is on record: in the log, or as an override. *)
Definition settled (d : DeliveryId) (o : DeliveryOutcome) (res : option DeliveryResultMetadata) e : Prop :=
  (e_overrides e !! d = None /\
   exists r, view e !! d = Some r /\ rec_state r = Terminal o /\ rec_result r = res) \/
  (e_degraded e = true /\
   exists r, e_overrides e !! d = Some r /\ rec_state r = Terminal o /\ rec_result r = res).

Lemma waiting_tick d a e e' :
  e_retries e' = e_retries e -> (e_tick e <= e_tick e')%nat -> waiting e d a -> waiting e' d a.
Proof. intros Hr. apply waiting_mono. by rewrite Hr. Qed.

(** What [finish_delivery] does not touch. *)
Lemma finish_delivery_frame d e :
  let e' := finish_delivery d e in
  e_registry e' = e_registry e /\ e_log e' = e_log e /\ e_tick e' = e_tick e /\ e_ready e' = e_ready e /\
  e_ready_routes e' = e_ready_routes e /\ e_retries e' = e_retries e /\ e_calls e' = e_calls e /\
  e_next_task e' = e_next_task e /\ e_drains e' = e_drains e /\ e_overrides e' = e_overrides e /\
  e_degraded e' = e_degraded e /\ e_outbox e' = e_outbox e /\ e_active_calls e' = e_active_calls e /\
  e_active e' = delete d (e_active e) /\
  (e_attempts e' = e_attempts e \/ exists a h, e_active e !! d = Some a /\ av_abort a = Some h /\
     e_attempts e' = alter task_abort h (e_attempts e)).
Proof.
  simpl. unfold finish_delivery. destruct (e_active e !! d) as [a|] eqn:Ha.
  2:{ split_and!; try done; [by rewrite delete_id|by left]. }
  destruct (av_abort a) as [h|] eqn:Hh;
    match goal with |- context [drop_idle_usage ?r ?x] => destruct (drop_idle_frame r x) as [us ->] end;
    simpl; split_and!; try done; [right; by exists a, h|by left].
Qed.

Lemma alter_abort_lookup (m : gmap Z Task) h k : k <> h -> alter task_abort h m !! k = m !! k.
Proof. intros. by rewrite lookup_alter_ne. Qed.

Lemma alter_abort_dom (m : gmap Z Task) h k : is_Some (alter task_abort h m !! k) <-> is_Some (m !! k).
Proof.
  destruct (decide (k = h)) as [-> |Hne]; [rewrite lookup_alter_eq|by rewrite lookup_alter_ne].
  apply fmap_is_Some.
Qed.

(** *** The terminal lemma *)
Lemma finish_changes lost d a e e' :
  engine_inv lost (Some d) e -> e_active e !! d = Some a -> touched d a e e' -> changes d e (finish_delivery d e').
Proof.
  intros Hinv Ha Ht. pose proof (t_self _ _ _ _ Ht) as (a' & Ha' & _ & _ & _ & _ & Habort).
  pose proof (finish_delivery_accounts d e' (t_accounts _ _ _ _ Ht)) as Hacc.
  destruct (finish_delivery_frame d e') as (F1 & F2 & F3 & F4 & F5 & F6 & F7 & F8 & F9 & F10 & F11 & F12 & F13 & F14 & F15).
  set (e2 := finish_delivery d e') in *. destruct Ht, Hinv. split; try done; try congruence.
  - intros d' Hne. rewrite F14, lookup_delete_ne by done. auto.
  - unfold queue. by rewrite F4, t_ready0.
  - intros d' b h Hne Hb Hh. rewrite <-(t_attempts0 d' b h Hne Hb Hh).
    destruct F15 as [->|(a1 & h1 & Ha1 & Hh1 & ->)]; [done|]. apply alter_abort_lookup. intros ->.
    rewrite Ha' in Ha1. injection Ha1 as <-. destruct Habort as [Habort|Habort]; [|congruence].
    apply Hne. eapply inv_handles0; [exact Hb|exact Ha|exact Hh|congruence].
  - intros h Hh. rewrite F8, t_next0. apply inv_tasks0. rewrite F7, t_call_tasks0 in Hh. destruct Hh as [Hh|Hh]; [left|by right].
    apply t_attempts_dom0. destruct F15 as [F15|(a1 & h1 & _ & _ & F15)]; rewrite F15 in Hh; [done|].
    by apply alter_abort_dom in Hh.
  - intros d' Hne. left. rewrite F2. auto.
  - intros d' Hne. rewrite F10. auto.
  - rewrite F11. auto.
Qed.

(** A settled delivery that left both maps is in order. *)
Lemma settled_in_order lost free d e e' o res :
  settled d o res e' -> e_active e' !! d = None -> e_active_calls e' !! d = None -> in_order lost free d e e'.
Proof.
  intros Hset Ha Hc. split; rewrite ?Ha, ?Hc; [done|done|..].
  - intros r Hr Hp. destruct Hset as [(_ & r' & Hr' & Hs & _)|(_ & r' & Hr' & _)]; [congruence|eauto].
  - intros r Hr. destruct Hset as [(? & _)|(Hdg & r' & Hr' & Hs & _)]; [congruence|].
    rewrite Hr in Hr'. injection Hr' as <-. unfold rec_terminal. by rewrite Hs.
Qed.

Lemma finish_inv lost d a e e' o res :
  engine_inv lost (Some d) e -> e_active e !! d = Some a -> touched d a e e' -> settled d o res e' ->
  engine_inv lost None (finish_delivery d e').
Proof.
  intros Hinv Ha Ht Hset. eapply (changes_inv lost (Some d)); [done|by right|by left|by eapply finish_changes|].
  destruct (finish_delivery_frame d e') as (_ & F2 & _ & _ & _ & _ & _ & _ & _ & F10 & F11 & _ & F13 & F14 & _).
  eapply (settled_in_order _ _ _ _ _ o res).
  - unfold settled. by rewrite F2, F10, F11.
  - rewrite F14. apply lookup_delete_eq.
  - rewrite F13, (t_calls _ _ _ _ Ht). apply (inv_disjoint _ _ _ Hinv). eauto.
Qed.

(** *** Steps of a terminal path *)

Lemma touched_refl lost free d a e :
  engine_inv lost free e -> e_active e !! d = Some a -> touched d a e e.
Proof.
  intros Hinv Ha. destruct (inv_active _ _ _ Hinv d a Ha) as (? & Hlc & Hwf & _).
  split; try done; [|apply Hinv]. exists a. auto 7.
Qed.

Lemma touched_tick d a e e1 n : touched d a e e1 -> (e_tick e1 <= n)%nat -> touched d a e (set_tick n e1).
Proof. intros [] Hn. split; try done. simpl. lia. Qed.

Lemma touched_degraded d a e e1 : touched d a e e1 -> touched d a e (set_degraded true e1).
Proof. intros []. by split. Qed.

Lemma touched_overrides d a e e1 r :
  touched d a e e1 -> touched d a e (set_overrides (<[d := r]> (e_overrides e1)) e1).
Proof. intros []. split; try done. simpl. intros d' Hne. rewrite lookup_insert_ne by done. auto. Qed.

Lemma touched_log d a e e1 log :
  touched d a e e1 -> (forall d', d' <> d -> log_view log !! d' = view e1 !! d') -> touched d a e (set_log log e1).
Proof. intros [] Hv. split; try done. simpl. intros d' Hne. rewrite Hv by done. auto. Qed.

Lemma touched_active d a e e1 a1 a2 :
  touched d a e e1 -> e_active e1 !! d = Some a1 -> av_parts a2 = av_parts a1 ->
  av_accepted_at a2 = av_accepted_at a1 -> av_abort a2 = av_abort a1 -> lc_delivery (av_lifecycle a2) = d -> lc_wf (av_lifecycle a2) ->
  touched d a e (set_active (<[d := a2]> (e_active e1)) e1).
Proof.
  intros Ht Ha1 Hp Hat Hab Hd Hwf. pose proof (t_accounts _ _ _ _ Ht) as Hacc. destruct Ht.
  destruct t_self0 as (a1' & Ha1' & ? & ? & ? & ? & ?). rewrite Ha1 in Ha1'. injection Ha1' as <-.
  split; try done; simpl.
  - exists a2. rewrite lookup_insert_eq, Hp, Hat, Hab. auto 7.
  - intros d' Hne. rewrite lookup_insert_ne by done. auto.
  - by eapply set_active_accounts.
Qed.

(** Taking [d] out of flight, its task left alone or aborted. *)
Lemma touched_release d a e e1 a1 h e2 :
  (forall d' b, d' <> d -> e_active e !! d' = Some b -> av_abort b <> Some h) ->
  touched d a e e1 -> e_active e1 !! d = Some a1 -> av_abort a1 = Some h ->
  (e2 = (clear_in_flight d e1).2 \/ e2 = (abort_in_flight d e1).2) -> touched d a e e2.
Proof.
  intros Hown Ht Ha1 Hh He2.
  assert (eaccounts e2) as Hacc.
  { pose proof (t_accounts _ _ _ _ Ht). destruct He2 as [->| ->]; auto using clear_in_flight_accounts, abort_in_flight_accounts. }
  destruct Ht, t_self0 as (a1' & Ha1' & ? & ? & ? & ? & ?). rewrite Ha1 in Ha1'. injection Ha1' as <-.
  destruct He2 as [->| ->]; unfold clear_in_flight, abort_in_flight in *; rewrite Ha1, Hh in *; split; try done; simpl.
  all: try solve [exists (av_with_abort a1 None); rewrite lookup_insert_eq; auto 7
    |intros d' Hne; rewrite lookup_insert_ne by done; auto].
  - intros d' a' h' Hne Ha' Hh'. rewrite alter_abort_lookup; [by eapply t_attempts0|].
    intros ->. by eapply Hown.
  - intros h'. rewrite alter_abort_dom. auto.
Qed.

(** Recording the outcome, with the fallback to an override. *)
Lemma settle_delivery d a e e1 o t res :
  touched d a e e1 -> e_overrides e1 !! d = None ->
  let '(p, e2) := try_persist (Some (RecordOutcome d o t res)) e1 in
  let e3 := keep_outcome p d o res insert_override e2 in
  touched d a e e3 /\ settled d o res e3.
Proof.
  intros Ht Hov. unfold try_persist, Engine_persist.
  pose proof (record_outcome_spec d o t res (e_log e1)) as Hspec.
  destruct (record_outcome d o t res (e_log e1)) as [r log] eqn:Hrec. simpl in Hspec. cbv zeta iota.
  assert (touched d a e (set_log log e1)) as Ht2.
  { apply touched_log; [done|]. intros d' Hne. destruct Hspec as [[-> _]|(r0 & _ & _ & ->)]; [done|].
    by rewrite lookup_insert_ne. }
  unfold keep_outcome. destruct (is_ok r) eqn:Hok.
  - split; [done|]. left. split; [done|]. destruct Hspec as [[_ ?]|(r0 & _ & _ & Hv)]; [congruence|].
    simpl. rewrite Hv, lookup_insert_eq. eexists. split; [done|]. done.
  - unfold persisted_terminal_matches. simpl. destruct (log_delivery_spec d log) as [Hv2 Hread].
    destruct (log_delivery d log) as [rd log2] eqn:Hrd. simpl in Hv2, Hread.
    assert (touched d a e (set_log log2 (set_log log e1))) as Ht3.
    { apply touched_log; [done|]. intros d' _. by rewrite Hv2. }
    destruct (match rd with Ok (Some record) => _ | _ => false end) eqn:Hm.
    + split; [done|]. left. split; [done|]. destruct rd as [[rec|]|]; [|done..].
      apply andb_true_iff in Hm as [Hs%bool_decide_eq_true Hr%bool_decide_eq_true].
      exists rec. simpl. rewrite Hv2. split; [|done]. symmetry. by apply Hread.
    + pose proof (t_self _ _ _ _ Ht) as (a1 & Ha1 & _). unfold insert_override. simpl. rewrite Ha1. simpl.
      split; [|right; split; [done|]; simpl; rewrite lookup_insert_eq; by eexists].
      apply (touched_overrides d a e (set_tick (S (e_tick e1)) (set_degraded true (set_log log2 (set_log log e1))))).
      apply touched_tick; [|simpl; lia]. by apply touched_degraded.
Qed.

(** What a terminal path leaves behind. *)
Record closed (d : DeliveryId) e e' : Prop := {
  cd_gone : e_active e' !! d = None;
  cd_active : forall d', d' <> d -> e_active e' !! d' = e_active e !! d';
  cd_calls : e_active_calls e' = e_active_calls e;
  cd_registry : e_registry e' = e_registry e;
  cd_ready : e_ready e' = e_ready e;
  cd_ready_routes : e_ready_routes e' = e_ready_routes e;
  cd_retries : e_retries e' = e_retries e;
  cd_drains : e_drains e' = e_drains e;
  cd_outbox : e_outbox e' = e_outbox e;
  cd_tick : (e_tick e <= e_tick e')%nat;
  cd_settled : exists o res, settled d o res e';
}.

Lemma finish_closed lost d a e e1 o res :
  engine_inv lost (Some d) e -> e_active e !! d = Some a -> touched d a e e1 -> settled d o res e1 ->
  engine_inv lost None (finish_delivery d e1) /\ closed d e (finish_delivery d e1).
Proof.
  intros Hinv Ha Ht Hset. split; [by eapply finish_inv|].
  destruct (finish_delivery_frame d e1) as (F1 & F2 & F3 & F4 & F5 & F6 & F7 & F8 & F9 & F10 & F11 & F12 & F13 & F14 & _).
  destruct Ht. split; try congruence.
  - rewrite F14. apply lookup_delete_eq.
  - intros d' Hne. rewrite F14, lookup_delete_ne by done. auto.
  - exists o, res. unfold settled. by rewrite F2, F10, F11.
Qed.

Lemma force_terminal_closed lost d a e e1 o res :
  engine_inv lost (Some d) e -> e_active e !! d = Some a -> touched d a e e1 -> e_overrides e1 !! d = None ->
  engine_inv lost None (force_terminal d o res e1) /\ closed d e (force_terminal d o res e1).
Proof.
  intros Hinv Ha Ht Hov. unfold force_terminal, unix_now.
  pose proof (settle_delivery d a e (set_tick (S (e_tick e1)) e1) o (wall (e_tick e1)) res) as Hs.
  destruct (try_persist _ _) as [p e2]. cbv zeta in Hs.
  destruct Hs as [Ht3 Hset]; [by apply touched_tick; [|lia]|done|]. by eapply finish_closed.
Qed.

Lemma persist_terminal_closed lost d a e e1 o t res :
  engine_inv lost (Some d) e -> e_active e !! d = Some a -> touched d a e e1 -> e_overrides e1 !! d = None ->
  engine_inv lost None (persist_terminal d o res (Some (RecordOutcome d o t res)) e1) /\
  closed d e (persist_terminal d o res (Some (RecordOutcome d o t res)) e1).
Proof.
  intros Hinv Ha Ht Hov. unfold persist_terminal.
  pose proof (settle_delivery d a e e1 o t res Ht Hov) as Hs.
  destruct (try_persist _ _) as [p e2]. cbv zeta in Hs. destruct Hs as [Ht3 Hset]. by eapply finish_closed.
Qed.

(** A step of the state machine inside a terminal path. *)
Lemma touched_step d a e e1 time ev :
  touched d a e e1 -> 0 <= monotonic time ->
  exists a1, e_active e1 !! d = Some a1 /\
    touched d a e (step_active d time ev e1).2 /\
    e_overrides (step_active d time ev e1).2 = e_overrides e1 /\ e_log (step_active d time ev e1).2 = e_log e1 /\
    lc_effect (av_lifecycle a1) time ev (transition (av_lifecycle a1) time ev).1 (transition (av_lifecycle a1) time ev).2 /\
    (step_active d time ev e1).1 =
      (match (transition (av_lifecycle a1) time ev).1 with Ok t => Some t | Err _ => None end) /\
    e_active (step_active d time ev e1).2 =
      <[d := av_with_lifecycle a1 (transition (av_lifecycle a1) time ev).2]> (e_active e1) /\
    lc_delivery (av_lifecycle a1) = d.
Proof.
  intros Ht Htime. destruct (t_self _ _ _ _ Ht) as (a1 & Ha1 & Hp & Hat & Hd & Hwf & Hab).
  exists a1. split; [done|]. pose proof (transition_effect (av_lifecycle a1) time ev Hwf) as He.
  destruct (lc_effect_wf _ _ _ _ _ Hwf Htime He) as (Hwf' & _ & Hd' & _).
  unfold step_active. rewrite Ha1. destruct (transition (av_lifecycle a1) time ev) as [r l]. simpl in *.
  split; [|done]. eapply touched_active; try done. simpl. congruence.
Qed.

Lemma time_ok e : 0 <= monotonic (RuntimeClock_transition_time e).1.
Proof. simpl. apply clock_nonneg. Qed.

Lemma apply_terminal_event_closed lost d a e e1 ev :
  engine_inv lost (Some d) e -> e_active e !! d = Some a -> touched d a e e1 -> e_overrides e1 !! d = None ->
  engine_inv lost None (apply_terminal_event d ev e1) /\ closed d e (apply_terminal_event d ev e1).
Proof.
  intros Hinv Ha Ht Hov. unfold apply_terminal_event.
  pose proof (time_ok e1) as Htime. destruct (RuntimeClock_transition_time e1) as [time e1t] eqn:Htt.
  assert (touched d a e e1t) as Ht1 by (injection Htt as _ <-; apply touched_tick; [done|lia]).
  assert (e_overrides e1t !! d = None) as Hov1 by (by injection Htt as _ <-).
  destruct (touched_step d a e e1t time ev Ht1 Htime) as (a1 & Ha1 & Ht2 & Hov2 & _ & Heff & Hres & _ & Hd).
  destruct (step_active d time ev e1t) as [r e2]. simpl in *. subst r.
  assert (e_overrides e2 !! d = None) as Hov3 by (by rewrite Hov2).
  destruct Heff as [|Hs|dl|Hs|dl|o res]; simpl; try by eapply force_terminal_closed.
  rewrite Hd. by eapply persist_terminal_closed.
Qed.

(** ** Moving one delivery

    The invariant after [d] alone changed state, queue position and task. *)
Record moved (d : DeliveryId) e e' : Prop := {
  m_active : forall d', d' <> d -> e_active e' !! d' = e_active e !! d';
  m_calls : e_active_calls e' = e_active_calls e;
  m_registry : e_registry e' = e_registry e;
  m_ready : e_ready e' = e_ready e;
  m_ready_routes : e_ready_routes e' = e_ready_routes e;
  m_drains : e_drains e' = e_drains e;
  m_overrides : e_overrides e' = e_overrides e;
  m_degraded : e_degraded e' = e_degraded e;
  m_call_tasks : e_calls e' = e_calls e;
  m_outbox : e_outbox e' = e_outbox e;
  m_retries : forall x, x ∈ e_retries e -> x ∈ e_retries e';
  m_sorted : StronglySorted retry_le (e_retries e');
  m_attempts : forall d' a' h, d' <> d -> e_active e !! d' = Some a' -> av_abort a' = Some h ->
    e_attempts e' !! h = e_attempts e !! h;
  m_attempts_lt : forall h, is_Some (e_attempts e' !! h) -> h < e_next_task e';
  m_next : e_next_task e <= e_next_task e';
  m_tick : (e_tick e <= e_tick e')%nat;
  m_view : forall d', d' <> d -> view e' !! d' = view e !! d';
  m_accounts : eaccounts e';
}.

Lemma moved_changes lost free d e e' : engine_inv lost free e -> moved d e e' -> changes d e e'.
Proof.
  intros [] []. split; try done; try congruence; try (by left; auto).
  - unfold queue. by rewrite m_ready0.
  - intros h [Hh|Hh]; [auto|]. rewrite m_call_tasks0 in Hh. specialize (inv_tasks0 h (or_intror Hh)). lia.
Qed.

Lemma moved_inv lost d a a' e e' :
  engine_inv lost (Some d) e -> moved d e e' -> e_active e !! d = Some a -> e_active e' !! d = Some a' ->
  active_ok e' d a' -> placed lost e' d a' ->
  (forall h d' b, av_abort a' = Some h -> d' <> d -> e_active e !! d' = Some b -> av_abort b <> Some h) ->
  engine_inv lost None e'.
Proof.
  intros Hinv Hm Ha Ha' Hok Hplaced Hown.
  assert (e_active_calls e !! d = None) as Hnc by (apply (inv_disjoint _ _ _ Hinv); eauto).
  assert (e_overrides e !! d = None) as Hov.
  { destruct (e_overrides e !! d) eqn:Hr; [|done]. destruct (inv_overrides _ _ _ Hinv d _ Hr) as (_ & _ & ? & _). congruence. }
  eapply (changes_inv lost (Some d)); [done|by right|by left|by eapply moved_changes|].
  destruct Hm. split; rewrite ?Ha', ?m_calls0, ?m_overrides0, ?Hnc, ?Hov; try done; [|eauto].
  by intros ? [= <-].
Qed.

Lemma engine_inv_free lost d e : engine_inv lost None e -> engine_inv lost (Some d) e.
Proof. intros []. split; try done; eauto. Qed.

(** ** Starting an attempt *)

Lemma spawn_moved d a l log n e e' :
  engine_inv None (Some d) e -> e_active e !! d = Some a -> av_abort a = None ->
  e_global_in_flight e < lim_global_in_flight limits ->
  (forall d', d' <> d -> log_view log !! d' = view e !! d') -> (e_tick e <= n)%nat ->
  let a1 := av_with_lifecycle a l in
  let e1 := set_log log (set_active (<[d := a1]> (e_active e)) (set_tick n e)) in
  moved d e (spawn_attempt d a1 e1) /\
  e_active (spawn_attempt d a1 e1) !! d = Some (av_with_abort a1 (Some (e_next_task e))) /\
  live_task None JoiningAttempt (e_attempts (spawn_attempt d a1 e1)) d (e_next_task e) /\
  e_log (spawn_attempt d a1 e1) = log.
Proof.
  intros Hinv Ha Hab Hlt Hv Hn a1 e1.
  assert (eaccounts e1) as Hacc1 by (by eapply (set_active_accounts d a a1 (set_tick n e)); [apply Hinv|..]).
  assert (e_active e1 !! d = Some a1) as Ha1 by apply lookup_insert_eq.
  pose proof (spawn_attempt_accounts d a1 e1 Hacc1 Ha1 Hab Hlt) as Hacc.
  destruct Hinv. split_and!; [split; try done; simpl|..]; simpl.
  - intros d' Hne. rewrite lookup_alter_ne, lookup_insert_ne; done.
  - intros d' a' h Hne Ha' Hh. apply lookup_insert_ne. intros <-.
    assert (Some d <> Some d') as Hfree by congruence. pose proof (inv_placed0 d' a' Ha' Hfree) as Hp.
    unfold placed in Hp. rewrite Hh in Hp. destruct Hp as [_ [?|(t & Ht & _)]]; [done|].
    assert (e_next_task e < e_next_task e); [|lia]. apply inv_tasks0. eauto.
  - intros h. destruct (decide (h = e_next_task e)) as [-> |Hne]; [lia|].
    rewrite lookup_insert_ne by done. intros Hh. assert (h < e_next_task e) by eauto. lia.
  - lia.
  - lia.
  - by rewrite lookup_alter_eq, lookup_insert_eq.
  - right. eexists. by rewrite lookup_insert_eq.
  - done.
Qed.

(** What every operation on one delivery leaves alone. *)
Record kept (d : DeliveryId) e e' : Prop := {
  k_active : forall d', d' <> d -> e_active e' !! d' = e_active e !! d';
  k_calls : e_active_calls e' = e_active_calls e;
  k_registry : e_registry e' = e_registry e;
  k_ready : e_ready e' = e_ready e;
  k_ready_routes : e_ready_routes e' = e_ready_routes e;
  k_drains : e_drains e' = e_drains e;
  k_outbox : e_outbox e' = e_outbox e;
  k_tick : (e_tick e <= e_tick e')%nat;
  k_parts : forall a', e_active e' !! d = Some a' -> exists a, e_active e !! d = Some a /\ av_parts a' = av_parts a;
}.

Lemma kept_refl d e : kept d e e.
Proof. split; try done. eauto. Qed.

Lemma closed_kept d e e' : closed d e e' -> kept d e e'.
Proof. intros []. split; try done. intros a' Ha'. by rewrite cd_gone0 in Ha'. Qed.

#[local] Hint Resolve kept_refl closed_kept : frames.

Lemma moved_kept d a a' e e' :
  moved d e e' -> e_active e !! d = Some a -> e_active e' !! d = Some a' -> av_parts a' = av_parts a -> kept d e e'.
Proof. intros [] Ha Ha' Hp. split; try done. rewrite Ha'. intros ? [= <-]. eauto. Qed.

Lemma inv_override_None lost free d a e :
  engine_inv lost free e -> e_active e !! d = Some a -> e_overrides e !! d = None.
Proof.
  intros Hinv Ha. destruct (e_overrides e !! d) as [r|] eqn:Hr; [|done].
  destruct (inv_overrides _ _ _ Hinv d r Hr) as (_ & _ & ? & _). congruence.
Qed.

(** A retry that is not due yet goes back to wait. *)
Lemma not_due_inv d a dl e :
  engine_inv None (Some d) e -> e_active e !! d = Some a -> av_abort a = None -> waiting e d a ->
  lc_state (av_lifecycle a) = WaitingRetry dl -> clock (e_tick e) < dl ->
  let e2 := set_active (<[d := a]> (e_active e)) (set_tick (S (e_tick e)) e) in
  eaccounts e2 -> engine_inv None None e2 /\ kept d e e2.
Proof.
  intros Hinv Ha Hab Hw Hs Hdl e2 Hacc.
  assert (moved d e e2) as Hm.
  { destruct Hinv. split; try done; simpl; [|eauto|lia]. intros d' Hne. by rewrite lookup_insert_ne. }
  assert (e_active e2 !! d = Some a) as Ha2 by apply lookup_insert_eq.
  split; [|by eapply moved_kept]. destruct (inv_active _ _ _ Hinv d a Ha) as (? & ? & ? & ?).
  eapply (moved_inv None d a a); try done.
  - unfold placed. rewrite Hab. split.
    + eapply (waiting_tick d a e); [done|simpl; lia|done].
    + right. exists dl. split; [done|]. unfold waiting in Hw. rewrite Hs in Hw. destruct Hw; [done|]. lia.
  - intros h d' b Hh. congruence.
Qed.

(** A recorded attempt runs as a task of its own. *)
Lemma started_inv d a t log e :
  engine_inv None (Some d) e -> e_active e !! d = Some a -> av_abort a = None ->
  e_global_in_flight e < lim_global_in_flight limits ->
  let n := lc_attempts (av_lifecycle a) + 1 in
  let l := lc_with (av_lifecycle a) n InFlight in
  record_attempt d n t (e_log e) = (Ok tt, log) -> lc_wf l ->
  let a1 := av_with_lifecycle a l in
  let e2 := spawn_attempt d a1 (set_log log (set_active (<[d := a1]> (e_active e)) (set_tick (S (e_tick e)) e))) in
  engine_inv None None e2 /\ kept d e e2.
Proof.
  intros Hinv Ha Hab Hlt n l Hrec Hwf a1 e2.
  pose proof (inv_active _ _ _ Hinv d a Ha) as (Hok1 & Hok2 & _ & Hlogged).
  pose proof (record_attempt_spec d n t (e_log e)) as Hspec. rewrite Hrec in Hspec. simpl in Hspec.
  destruct Hspec as [[_ ?]|(r0 & Hr0 & Hp0 & Hlt0 & Hv)]; [done|].
  destruct (spawn_moved d a l log (S (e_tick e)) e e Hinv Ha Hab Hlt) as (Hm & Hself & Hlive & Hlogeq).
  { intros d' Hne. by rewrite Hv, lookup_insert_ne. } { lia. }
  split; [|by eapply moved_kept]. eapply (moved_inv None d a); [exact Hinv|exact Hm|exact Ha|exact Hself|..].
  - split_and!; try done. simpl. destruct Hlogged as (r1 & Hr1 & _ & _ & Hi1). rewrite Hr1 in Hr0. injection Hr0 as <-.
    eexists. simpl. rewrite Hv, lookup_insert_eq. split; [done|]. simpl. auto.
  - split; [done|exact Hlive].
  - simpl. intros h d' b [= <-] Hne Hb Hh. assert (Some d <> Some d') as Hfree by congruence.
    pose proof (inv_placed _ _ _ Hinv d' b Hb Hfree) as Hp. unfold placed in Hp. rewrite Hh in Hp.
    destruct Hp as [_ [?|(tk & Ht & _)]]; [done|].
    assert (e_next_task e < e_next_task e); [|lia]. apply (inv_tasks _ _ _ Hinv). eauto.
Qed.

Lemma start_attempt_inv d a e :
  engine_inv None (Some d) e -> e_active e !! d = Some a -> av_abort a = None -> waiting e d a ->
  e_global_in_flight e < lim_global_in_flight limits ->
  engine_inv None None (Engine_start_attempt d e) /\ kept d e (Engine_start_attempt d e).
Proof.
  intros Hinv Ha Hab Hw Hlt. pose proof (touched_refl _ _ _ _ _ Hinv Ha) as Ht0.
  pose proof (inv_override_None _ _ _ _ _ Hinv Ha) as Hov0.
  unfold Engine_start_attempt. pose proof (time_ok e) as Htime. unfold RuntimeClock_transition_time in *.
  set (time := mk_time (clock (e_tick e)) (wall (e_tick e))) in *. change (0 <= monotonic time) in Htime.
  set (et := set_tick (S (e_tick e)) e).
  assert (touched d a e et) as Ht1 by (apply touched_tick; [done|lia]).
  destruct (touched_step d a e et time EvDrive Ht1 Htime) as (a1 & Ha1 & Ht2 & Hov2 & Hlog2 & Heff & Hres & Hact & Hd).
  assert (a1 = a) as -> by (simpl in Ha1; congruence). clear Ha1.
  pose proof (inv_active _ _ _ Hinv d a Ha) as (_ & _ & Hwf & _).
  assert (forall e', engine_inv None None e' /\ closed d e e' -> engine_inv None None e' /\ kept d e e') as Hclosed
    by (intros e' [? ?]; split; [done|by apply closed_kept]).
  destruct (lc_effect_wf _ _ _ _ _ Hwf Htime Heff) as (Hwf' & _).
  assert ((step_active d time EvDrive et).2 = set_active (<[d := av_with_lifecycle a (transition (av_lifecycle a) time EvDrive).2]> (e_active e)) et) as He2.
  { unfold step_active. simpl. rewrite Ha. by destruct (transition (av_lifecycle a) time EvDrive). }
  destruct (step_active d time EvDrive et) as [r e2]. simpl in Hres, Hov2, Hlog2, Hact, Ht2, He2. subst r.
  assert (e_overrides e2 !! d = None) as Hov3 by (by rewrite Hov2).
  destruct (transition (av_lifecycle a) time EvDrive) as [r l] eqn:Htr. simpl in *.
  destruct Heff as [Hs|Hs _|dl _ Hs Hdl|_ Hs|dl (f & ?) Hs|o res Hs Hne]; simpl; try done;
    try (apply Hclosed; by eapply force_terminal_closed).
  - (* the machine is done *) unfold waiting in Hw. by rewrite Hs in Hw.
  - (* not yet due *) subst e2. replace (av_with_lifecycle a (av_lifecycle a)) with a in * by (by destruct a).
    apply (not_due_inv d a dl); try done. apply Ht2.
  - (* started *) unfold Engine_persist. rewrite Hlog2, Hd. simpl.
    destruct (record_attempt d (lc_attempts (av_lifecycle a) + 1) (wall (e_tick e)) (e_log e)) as [[[]|err] log] eqn:Hrec.
    + simpl. rewrite Hact, lookup_insert_eq. subst e2. by eapply started_inv.
    + pose proof (record_attempt_spec d (lc_attempts (av_lifecycle a) + 1) (wall (e_tick e)) (e_log e)) as Hspec.
      rewrite Hrec in Hspec. simpl in Hspec. apply Hclosed. eapply apply_terminal_event_closed; [done|exact Ha| |done].
      apply touched_degraded, touched_log; [done|]. intros d' Hne. rewrite Hlog2.
      destruct Hspec as [[-> _]|(r0 & _ & _ & _ & ->)]; [done|]. by rewrite lookup_insert_ne.
Qed.

(** ** Taking a delivery off the queues *)

Lemma pop_startable_spec e q :
  exists skipped, Forall (fun d => startable e d = false) skipped /\
    match pop_startable e q with
    | (Some d, q') => q = skipped ++ d :: q' /\ startable e d = true
    | (None, q') => q = skipped /\ q' = []
    end.
Proof.
  induction q as [|d q (skipped & Hs & IH)]; simpl; [exists []; done|].
  destruct (startable e d) eqn:Hd; [by exists []|].
  exists (d :: skipped). split; [by constructor|].
  destruct (pop_startable e q) as [[d'|] q']; [destruct IH as [-> ?]|destruct IH as [-> ->]]; done.
Qed.

Lemma startable_spec e d : startable e d = true <-> exists a, e_active e !! d = Some a /\ av_abort a = None.
Proof. unfold startable. destruct (e_active e !! d) as [a|]; [rewrite bool_decide_eq_true|]; naive_solver. Qed.

Lemma requeue_inv free e ready routes :
  engine_inv None None e ->
  ready_ok ready routes ->
  (forall d a, e_active e !! d = Some a -> av_abort a = None -> free <> Some d ->
     d ∈ queue e (ad_route (av_parts a)) -> d ∈ default [] (ready !! ad_route (av_parts a))) ->
  engine_inv None free (set_ready_routes routes (set_ready ready e)).
Proof.
  intros [] Hready Hq. split; try done; simpl.
  - intros d a Ha Hfree. assert (@None DeliveryId <> Some d) as Hn by done. pose proof (inv_placed0 d a Ha Hn) as Hp. unfold placed, queue in *. simpl.
    destruct (av_abort a) eqn:Hab; [done|]. destruct Hp as [Hw [Hin|Hr]]; (split; [done|]); [left|by right]. by apply Hq.
  - intros d a Ha _. by apply inv_calls_placed0.
Qed.

Definition route_busy e (r : RouteId) : Prop :=
  lim_route_in_flight limits <= (match e_usage e !! r with Some u => u_in_flight u | None => 0 end).

Definition queued_in (ready : gmap RouteId (list DeliveryId)) : nat :=
  map_fold (fun _ q n => (length q + n)%nat) 0%nat ready.

Lemma queued_in_delete ready r q : ready !! r = Some q -> queued_in ready = (length q + queued_in (delete r ready))%nat.
Proof.
  intros Hr. unfold queued_in. rewrite <-(insert_delete_id ready r q Hr) at 1.
  rewrite (map_fold_insert_L (fun _ q n => (length q + n)%nat)); [done|intros; lia|apply lookup_delete_eq].
Qed.

Lemma queued_in_insert ready r q q' :
  ready !! r = Some q -> queued_in (<[r := q']> ready) = (length q' + queued_in (delete r ready))%nat.
Proof.
  intros Hr. rewrite (queued_in_delete _ r q') by apply lookup_insert_eq. by rewrite delete_insert_eq.
Qed.

(** The queues after the head route's queue was cut down to [q']. *)
Definition cut_ready e (r : RouteId) (q' : list DeliveryId) : gmap RouteId (list DeliveryId) :=
  if bool_decide (q' = []) then delete r (e_ready e) else <[r := q']> (e_ready e).
Definition cut_routes (r : RouteId) (rest : list RouteId) (q' : list DeliveryId) : list RouteId :=
  if bool_decide (q' = []) then rest else rest ++ [r].

Lemma rotate_ready e r rest :
  engine_inv None None e -> e_ready_routes e = r :: rest ->
  NoDup (rest ++ [r]) /\ forall r', r' ∈ rest ++ [r] <-> is_Some (e_ready e !! r').
Proof.
  intros Hinv Hrr. pose proof (inv_ready _ _ _ Hinv) as (Hnd & Hdom & _). rewrite Hrr in Hnd, Hdom. split.
  - by rewrite (Permutation_app_comm rest [r]).
  - intros r'. rewrite <-Hdom, elem_of_app, list_elem_of_singleton, elem_of_cons. tauto.
Qed.

Lemma cut_inv free e r rest q q' :
  engine_inv None None e -> e_ready_routes e = r :: rest -> e_ready e !! r = Some q ->
  (forall d, d ∈ q -> startable e d = true -> free <> Some d -> d ∈ q') ->
  engine_inv None free (set_ready_routes (cut_routes r rest q') (set_ready (cut_ready e r q') e)).
Proof.
  intros Hinv Hrr Hq Hkeep. destruct (rotate_ready e r rest Hinv Hrr) as [Hnd' Hdom'].
  pose proof (inv_ready _ _ _ Hinv) as (Hnd & Hdom & Hne). rewrite Hrr in Hnd, Hdom.
  apply NoDup_cons in Hnd as [Hnr Hnd]. unfold cut_routes, cut_ready.
  apply requeue_inv; [done| |].
  - case_bool_decide as Hempty; (split; [done|]; split).
    + intros r'. destruct (decide (r' = r)) as [-> |Hne'].
      * rewrite lookup_delete_eq. split; [done|]. by intros [? ?].
      * rewrite lookup_delete_ne by done. rewrite <-Hdom, elem_of_cons. naive_solver.
    + intros r' q0 [_ Hq0]%lookup_delete_Some. by eapply Hne.
    + intros r'. rewrite Hdom'. destruct (decide (r' = r)) as [-> |Hne'].
      * rewrite lookup_insert_eq, Hq. split; eauto.
      * by rewrite lookup_insert_ne.
    + intros r' q0. destruct (decide (r' = r)) as [-> |Hne'].
      * rewrite lookup_insert_eq. by intros [= <-].
      * rewrite lookup_insert_ne by done. apply Hne.
  - intros d a Ha Hab Hfr. unfold queue. destruct (decide (ad_route (av_parts a) = r)) as [->|Hne'].
    + rewrite Hq. simpl. intros Hin. assert (d ∈ q') as Hin' by (apply Hkeep; [done|apply startable_spec; eauto|done]).
      case_bool_decide as Hempty; [subst q'; by apply elem_of_nil in Hin'|]. by rewrite lookup_insert_eq.
    + case_bool_decide; [by rewrite lookup_delete_ne|by rewrite lookup_insert_ne].
Qed.

Lemma cut_queued e r q q' :
  e_ready e !! r = Some q -> (queued_in (cut_ready e r q') + length q = queued e + length q')%nat.
Proof.
  intros Hq. change (queued e) with (queued_in (e_ready e)). rewrite (queued_in_delete _ _ _ Hq). unfold cut_ready.
  case_bool_decide as Hempty; [subst q'; simpl; lia|]. rewrite (queued_in_insert _ _ _ q' Hq). lia.
Qed.

(** The routes seen so far are busy or were emptied; what is selected can be started. *)
Lemma take_fair_loop_spec unchecked : forall checked e,
  engine_inv None None e -> e_ready_routes e = unchecked ++ checked -> Forall (route_busy e) checked ->
  exists ready routes,
    (take_fair_loop (length unchecked) e).2 = set_ready_routes routes (set_ready ready e) /\
    match (take_fair_loop (length unchecked) e).1 with
    | None => engine_inv None None (set_ready_routes routes (set_ready ready e)) /\ Forall (route_busy e) routes
    | Some d => engine_inv None (Some d) (set_ready_routes routes (set_ready ready e)) /\
        startable e d = true /\ (queued_in ready < queued e)%nat /\
        exists r, d ∈ queue e r /\ ~ route_busy e r
    end.
Proof.
  induction unchecked as [|r unchecked IH]; intros checked e Hinv Hrr Hchk.
  { exists (e_ready e), (e_ready_routes e). simpl in *.
    assert (set_ready_routes (e_ready_routes e) (set_ready (e_ready e) e) = e) as -> by (by destruct e). by rewrite Hrr. }
  destruct (rotate_ready e r _ Hinv Hrr) as [Hnd Hdom]. pose proof (inv_ready _ _ _ Hinv) as (_ & Hdom0 & Hne).
  cbn [length take_fair_loop]. rewrite Hrr. cbn [app].
  set (in_flight := match e_usage e !! r with Some u => u_in_flight u | None => 0 end).
  destruct (Z.leb_spec (lim_route_in_flight limits) in_flight) as [Hbusy|Hfree].
  - assert (engine_inv None None (set_ready_routes ((unchecked ++ checked) ++ [r]) e)) as Hinv1.
    { replace (set_ready_routes _ e) with (set_ready_routes ((unchecked ++ checked) ++ [r]) (set_ready (e_ready e) e))
        by (by destruct e). by apply requeue_inv. }
    destruct (IH (checked ++ [r]) _ Hinv1) as (ready & routes & Heq & Hres).
    { simpl. by rewrite app_assoc. }
    { apply Forall_app. split; [done|]. by constructor. }
    exists ready, routes. split; [exact Heq|]. destruct (take_fair_loop _ _).1; exact Hres.
  - destruct (proj1 (Hdom0 r)) as [q Hq]; [rewrite Hrr; left|]. rewrite Hq.
    destruct (pop_startable_spec e q) as (skipped & Hskip & Hpop). rewrite Forall_forall in Hskip.
    destruct (pop_startable e q) as [[d|] q'].
    + destruct Hpop as [-> Hstart]. exists (cut_ready e r q'), (cut_routes r (unchecked ++ checked) q'). split.
      { unfold cut_ready, cut_routes. by case_bool_decide. }
      split; [|split; [done|split]].
      * apply (cut_inv _ e r _ (skipped ++ d :: q')); try done.
        intros d' [Hin|[->|Hin]%elem_of_cons]%elem_of_app Hs Hf; [|done|done]. by rewrite (Hskip d' Hin) in Hs.
      * pose proof (cut_queued e r _ q' Hq) as Hc. rewrite length_app in Hc. simpl in Hc. lia.
      * exists r. split; [unfold queue; rewrite Hq; simpl; apply elem_of_app; right; left|].
        unfold route_busy. fold in_flight. lia.
    + destruct Hpop as [-> ->].
      assert (engine_inv None None (set_ready_routes (cut_routes r (unchecked ++ checked) []) (set_ready (cut_ready e r []) e))) as Hinv1.
      { apply (cut_inv _ e r _ skipped); try done. intros d Hin Hs. by rewrite (Hskip d Hin) in Hs. }
      destruct (IH checked _ Hinv1) as (ready & routes & Heq & Hres); [done|done|].
      exists ready, routes. split; [exact Heq|]. destruct (take_fair_loop _ _).1; [|exact Hres].
      destruct Hres as (? & ? & Hlt & r' & Hr' & Hb). split; [done|]. split; [done|]. split.
      * pose proof (cut_queued e r _ [] Hq) as Hc. simpl in Hc.
        change (queued (set_ready_routes _ (set_ready (cut_ready e r []) e))) with (queued_in (cut_ready e r [])) in Hlt. lia.
      * exists r'. split; [|done]. revert Hr'. unfold queue, cut_ready. simpl.
        destruct (decide (r' = r)) as [-> |Hne']; [rewrite lookup_delete_eq; simpl; by intros ?%elem_of_nil|by rewrite lookup_delete_ne].
Qed.

Lemma take_fair_queue n : forall e r d, d ∈ queue (take_fair_loop n e).2 r -> d ∈ queue e r.
Proof.
  induction n as [|n IH]; intros e r d; cbn [take_fair_loop]; [done|].
  destruct (e_ready_routes e) as [|r0 routes]; [done|]. destruct (_ <=? _); [apply (IH (set_ready_routes _ e))|].
  destruct (e_ready e !! r0) as [q|] eqn:Hq; [|apply (IH (set_ready_routes _ e))].
  destruct (pop_startable_spec e q) as (skipped & _ & Hpop). destruct (pop_startable e q) as [o q'].
  assert (forall e1, (e_ready e1 = delete r0 (e_ready e) \/ e_ready e1 = <[r0 := q']> (e_ready e)) ->
    d ∈ queue e1 r -> d ∈ queue e r) as Hcut.
  { intros e1 He1. unfold queue. destruct (decide (r = r0)) as [-> |Hne].
    - rewrite Hq. destruct He1 as [->| ->]; [rewrite lookup_delete_eq; by intros ?%elem_of_nil|].
      rewrite lookup_insert_eq. simpl. destruct o as [d0|]; [|by destruct Hpop as [_ ->]; intros ?%elem_of_nil].
      destruct Hpop as [-> _]. set_solver.
    - destruct He1 as [->| ->]; [by rewrite lookup_delete_ne|by rewrite lookup_insert_ne]. }
  intros Hd. destruct o as [d0|].
  - revert Hd. apply Hcut. case_bool_decide; auto.
  - apply IH in Hd. revert Hd. apply Hcut. case_bool_decide; auto.
Qed.

(** ** Dispatching *)

(** What an operation on emitted deliveries leaves alone. *)
Definition emit_frame e e' : Prop :=
  e_active_calls e' = e_active_calls e /\ e_registry e' = e_registry e /\ e_drains e' = e_drains e /\
  e_outbox e' = e_outbox e /\ (e_tick e <= e_tick e')%nat /\
  (forall d a', e_active e' !! d = Some a' -> exists a, e_active e !! d = Some a /\ av_parts a' = av_parts a) /\
  forall r d, d ∈ queue e' r -> d ∈ queue e r \/ exists a, e_active e !! d = Some a /\ ad_route (av_parts a) = r.

Lemma emit_frame_same e e' :
  e_active_calls e' = e_active_calls e -> e_registry e' = e_registry e -> e_drains e' = e_drains e ->
  e_outbox e' = e_outbox e -> (e_tick e <= e_tick e')%nat -> e_active e' = e_active e ->
  (forall r d, d ∈ queue e' r -> d ∈ queue e r) -> emit_frame e e'.
Proof. intros. split_and!; try done; [|by left; auto]. intros d a' Ha'. exists a'. split; congruence. Qed.

Lemma emit_frame_refl e : emit_frame e e.
Proof. by apply emit_frame_same. Qed.

#[local] Hint Resolve emit_frame_refl : frames.

Lemma emit_frame_trans e1 e2 e3 : emit_frame e1 e2 -> emit_frame e2 e3 -> emit_frame e1 e3.
Proof.
  unfold emit_frame. intros (-> & -> & -> & -> & ? & Hp1 & Hq1) (-> & -> & -> & -> & ? & Hp2 & Hq2).
  split_and!; auto with lia.
  - intros d a3 Ha3. destruct (Hp2 d a3 Ha3) as (a2 & Ha2 & ->). apply (Hp1 d a2 Ha2).
  - intros r d [Hd|(a2 & Ha2 & Hr)]%Hq2; [auto|]. destruct (Hp1 d a2 Ha2) as (a1 & Ha1 & Heq). right.
    exists a1. by rewrite <-Heq.
Qed.

Lemma kept_emit_frame d e e' : kept d e e' -> emit_frame e e'.
Proof.
  intros []. split_and!; try done.
  - intros d' a' Ha'. destruct (decide (d' = d)) as [-> |Hne]; [auto|]. rewrite k_active0 in Ha' by done. eauto.
  - intros r d' Hd'. left. unfold queue in *. by rewrite <-k_ready0.
Qed.

(** No capacity is left unused: the global limit is reached, or every route with
    queued work is at its own limit. *)
Definition work_conserving e : Prop :=
  lim_global_in_flight limits <= e_global_in_flight e \/ Forall (route_busy e) (e_ready_routes e).

Lemma dispatch_loop_inv fuel : forall e,
  engine_inv None None e -> (queued e < fuel)%nat ->
  let e' := dispatch_loop fuel e in
  engine_inv None None e' /\ emit_frame e e' /\ work_conserving e'.
Proof.
  induction fuel as [|fuel IH]; intros e Hinv Hq; [lia|]. simpl.
  destruct (Z.ltb_spec (e_global_in_flight e) (lim_global_in_flight limits)) as [Hlt|Hge].
  2:{ split; [done|]. split; [auto with frames|by left]. }
  destruct (take_fair_loop_spec (e_ready_routes e) [] e Hinv) as (ready & routes & Heq & Hres).
  { by rewrite app_nil_r. } { constructor. }
  pose proof (take_fair_queue (length (e_ready_routes e)) e) as Hqueue.
  unfold take_fair_ready. destruct (take_fair_loop _ e) as [[d|] e1]; simpl in Heq, Hres, Hqueue; subst e1.
  - destruct Hres as (Hinv1 & (a & Ha & Hab)%startable_spec & Hlt1 & _).
    assert (waiting e d a) as Hw.
    { pose proof (inv_placed _ _ _ Hinv d a Ha) as Hp. unfold placed in Hp. rewrite Hab in Hp. by apply Hp. }
    set (e1 := set_ready_routes routes (set_ready ready e)) in *.
    destruct (start_attempt_inv d a e1 Hinv1 Ha Hab Hw Hlt) as [Hinv2 Hk].
    destruct (IH _ Hinv2) as (Hinv3 & Hf & Hwc).
    { unfold queued. rewrite (k_ready _ _ _ Hk). change (queued_in ready < fuel)%nat. lia. }
    split; [done|]. split; [|done]. eapply emit_frame_trans; [|exact Hf].
    eapply emit_frame_trans; [|by eapply kept_emit_frame]. by apply emit_frame_same.
  - destruct Hres as [Hinv1 Hbusy]. split; [done|]. split; [by apply emit_frame_same|by right].
Qed.

Lemma dispatch_ready_inv e :
  engine_inv None None e ->
  let e' := dispatch_ready e in
  engine_inv None None e' /\ emit_frame e e' /\ work_conserving e'.
Proof. intros Hinv. apply dispatch_loop_inv; [done|lia]. Qed.

(** ** Completing an attempt *)

Lemma touched_moved d a e e1 :
  touched d a e e1 -> e_overrides e1 = e_overrides e -> e_degraded e1 = e_degraded e ->
  StronglySorted retry_le (e_retries e) -> (forall h, is_Some (e_attempts e !! h) -> h < e_next_task e) ->
  moved d e e1.
Proof.
  intros [] Ho Hdg Hs Ht. split; try done; try congruence; try lia.
  intros h Hh. rewrite t_next0. auto.
Qed.

Lemma handles_owned lost free d a h e d' b :
  engine_inv lost free e -> e_active e !! d = Some a -> av_abort a = Some h ->
  d' <> d -> e_active e !! d' = Some b -> av_abort b <> Some h.
Proof. intros Hinv Ha Hh Hne Hb Hb'. apply Hne. by eapply (inv_handles _ _ _ Hinv). Qed.

(** A delivery whose attempt failed waits for its retry. *)
Lemma wait_retry_inv lost d a dl e e2 :
  engine_inv lost None e -> e_active e !! d = Some a -> touched d a e e2 ->
  e_log e2 = e_log e -> e_overrides e2 = e_overrides e -> e_degraded e2 = e_degraded e ->
  let l := lc_with (av_lifecycle a) (lc_attempts (av_lifecycle a)) (WaitingRetry dl) in
  let a2 := av_with_lifecycle (av_with_abort a None) l in
  lc_wf l -> e_active e2 !! d = Some a2 ->
  let e3 := set_retries (heap_push (dl, d) (e_retries e2)) e2 in
  engine_inv lost None e3 /\ kept d e e3.
Proof.
  intros Hinv Ha Ht Hlog Hov Hdg l a2 Hwf Ha2 e3.
  pose proof (inv_active _ _ _ Hinv d a Ha) as (Hok1 & Hok2 & _ & Hlogged).
  assert (e_retries e2 = e_retries e) as Hr2 by apply Ht.
  assert (moved d e e3) as Hm.
  { assert (moved d e e2) as [].
    { eapply touched_moved; [done|congruence|congruence|apply Hinv|]. intros h' Hh'. apply (inv_tasks _ _ _ Hinv). by left. }
    split; try done; simpl.
    - intros x Hx. rewrite heap_push_perm. right. by rewrite Hr2.
    - apply heap_push_sorted. rewrite Hr2. apply Hinv. }
  split; [|by eapply moved_kept].
  eapply (moved_inv lost d a _ e); [by apply engine_inv_free|exact Hm|done|exact Ha2|..].
  - split_and!; try done. unfold logged in *. simpl. by rewrite Hlog.
  - unfold placed. simpl. unfold waiting. simpl. split; [left; apply elem_of_heap_push|].
    right. exists dl. split; [done|]. apply elem_of_heap_push.
  - done.
Qed.

Lemma clear_in_flight_touched lost d a h e :
  engine_inv lost None e -> e_active e !! d = Some a -> av_abort a = Some h ->
  exists e1, clear_in_flight d e = (true, e1) /\ touched d a e e1 /\ e_overrides e1 = e_overrides e /\
  e_degraded e1 = e_degraded e /\ e_log e1 = e_log e /\ e_active e1 !! d = Some (av_with_abort a None).
Proof.
  intros Hinv Ha Hh. pose proof (touched_refl _ _ _ _ _ Hinv Ha) as Ht0.
  assert (touched d a e (clear_in_flight d e).2) as Ht1.
  { eapply (touched_release d a e e a h); [|done|done|done|by left]. intros d' b. by eapply handles_owned. }
  unfold clear_in_flight in *. rewrite Ha, Hh in *. eexists. split_and!; try done. apply lookup_insert_eq.
Qed.

Lemma complete_attempt_inv lost d c e :
  engine_inv lost None e ->
  let e' := complete_attempt d c e in
  engine_inv lost None e' /\ kept d e e' /\ forall a, e_active e' !! d = Some a -> av_abort a = None.
Proof.
  intros Hinv. unfold complete_attempt.
  assert (forall e', engine_inv lost None e' /\ closed d e e' ->
    engine_inv lost None e' /\ kept d e e' /\ forall a, e_active e' !! d = Some a -> av_abort a = None) as Hclosed.
  { intros e' [? Hc]. split; [done|]. split; [by apply closed_kept|]. intros a. by rewrite (cd_gone _ _ _ Hc). }
  destruct (e_active e !! d) as [a|] eqn:Ha.
  2:{ unfold clear_in_flight. rewrite Ha. simpl. split; [done|]. split; [auto with frames|]. by rewrite Ha. }
  destruct (av_abort a) as [h|] eqn:Hh.
  2:{ unfold clear_in_flight. rewrite Ha, Hh. simpl. split; [done|]. split; [auto with frames|]. rewrite Ha. by intros ? [= <-]. }
  pose proof (inv_override_None _ _ _ _ _ Hinv Ha) as Hov0.
  destruct (clear_in_flight_touched lost d a h e Hinv Ha Hh) as (e1 & -> & Ht1 & Ho1 & Hd1 & Hl1 & Ha1). simpl.
  pose proof (inv_active _ _ _ Hinv d a Ha) as (_ & Hok2 & Hwf & _).
  set (time := mk_time (clock (e_tick e1)) (wall (e_tick e1))). set (et := set_tick (S (e_tick e1)) e1).
  assert (touched d a e et) as Ht2 by (apply touched_tick; [done|lia]).
  assert (0 <= monotonic time) as Htime by apply clock_nonneg.
  destruct (touched_step d a e et time (disposition_event (ac_disposition c)) Ht2 Htime)
    as (a1 & Ha1' & Ht3 & Hov3 & Hlog3 & Heff & Hres & Hact & Hd).
  assert (a1 = av_with_abort a None) as -> by (simpl in Ha1'; congruence). clear Ha1'.
  assert (e_degraded (step_active d time (disposition_event (ac_disposition c)) et).2 = e_degraded e) as Hdg3.
  { unfold step_active. simpl. rewrite Ha1. destruct (transition _ _ _). done. }
  destruct (lc_effect_wf _ _ _ _ _ Hwf Htime Heff) as (Hwf' & _).
  destruct (step_active d time _ et) as [r e2]. simpl in Hres, Hov3, Hlog3, Hact, Ht3, Hdg3. subst r.
  assert (e_overrides e2 !! d = None) as Hov by (by rewrite Hov3, Ho1).
  pose proof (engine_inv_free _ d _ Hinv) as Hinv'. simpl in Heff, Hact, Hwf'.
  destruct Heff as [Hs|Hs _|dl Hev Hs Hdl|Hev Hs|dl Hev Hs Hle Hdl|o res Hs Hne]; simpl;
    try (apply Hclosed; by eapply force_terminal_closed).
  - by destruct (ac_disposition c).
  - destruct (wait_retry_inv lost d a dl e e2) as [Hinv3 Hk]; try done; try congruence.
    { by rewrite Hact, lookup_insert_eq. }
    split; [done|]. split; [done|]. simpl. rewrite Hact, lookup_insert_eq. by intros ? [= <-].
  - apply Hclosed. rewrite Hok2. by eapply persist_terminal_closed.
Qed.

(** ** Closing many deliveries *)

Definition closes_one (lost : option Joining) (f : DeliveryId -> Engine (L := L) -> Engine (L := L)) : Prop :=
  forall d a e, engine_inv lost None e -> e_active e !! d = Some a ->
    engine_inv lost None (f d e) /\ closed d e (f d e).

Lemma close_event_one lost ev : closes_one lost (fun d e => apply_terminal_event d ev e).
Proof.
  intros d a e Hinv Ha. eapply apply_terminal_event_closed; [by apply engine_inv_free|exact Ha|..].
  - by eapply touched_refl.
  - by eapply inv_override_None.
Qed.

Lemma close_panic_one lost :
  closes_one lost (fun d e => apply_terminal_event d (EvFailed Internal) (abort_in_flight d e).2).
Proof.
  intros d a e Hinv Ha. pose proof (inv_override_None _ _ _ _ _ Hinv Ha) as Hov.
  destruct (av_abort a) as [h|] eqn:Hh.
  - eapply apply_terminal_event_closed; [by apply engine_inv_free|exact Ha|..].
    + eapply (touched_release d a e e a h); [|by eapply touched_refl|done|done|by right].
      intros d' b. by eapply handles_owned.
    + unfold abort_in_flight. by rewrite Ha, Hh.
  - unfold abort_in_flight. rewrite Ha, Hh. simpl. by apply (close_event_one lost (EvFailed Internal) d a e).
Qed.

Lemma close_all lost f ds : forall e,
  closes_one lost f -> engine_inv lost None e -> NoDup ds -> Forall (fun d => is_Some (e_active e !! d)) ds ->
  let e' := foldl (fun e d => f d e) e ds in
  engine_inv lost None e' /\ emit_frame e e' /\
  (forall d, d ∈ ds -> e_active e' !! d = None) /\ (forall d, d ∉ ds -> e_active e' !! d = e_active e !! d).
Proof.
  induction ds as [|d ds IH]; intros e Hf Hinv Hnd Hact; simpl.
  { split; [done|]. split; [auto with frames|]. split; [|done]. by intros d ?%elem_of_nil. }
  apply NoDup_cons in Hnd as [Hd Hnd]. apply Forall_cons in Hact as [[a Ha] Hact].
  destruct (Hf d a e Hinv Ha) as [Hinv1 Hc].
  destruct (IH (f d e) Hf Hinv1 Hnd) as (Hinv2 & Hframe & Hgone & Hrest).
  { rewrite Forall_forall in *. intros d' Hd'. rewrite (cd_active _ _ _ Hc) by (intros ->; done). auto. }
  split; [done|]. split; [|split].
  - eapply emit_frame_trans; [|exact Hframe]. by eapply kept_emit_frame, closed_kept.
  - intros d' [->|Hd']%elem_of_cons; [|auto]. rewrite Hrest by done. apply Hc.
  - intros d' Hd'%not_elem_of_cons. destruct Hd' as [Hne Hd']. rewrite Hrest by done. by apply Hc.
Qed.

(** Lists of deliveries read off the map. *)
Lemma NoDup_filter_keys {V} (P : DeliveryId * V -> Prop) `{!forall x, Decision (P x)} (m : gmap DeliveryId V) :
  NoDup (filter P (btree_iter m)).*1.
Proof.
  eapply (sublist_NoDup _ (btree_iter m).*1); [apply NoDup_btree_keys|].
  apply fmap_sublist, sublist_filter.
Qed.

Lemma elem_of_filter_keys {V} (P : DeliveryId * V -> Prop) `{!forall x, Decision (P x)} (m : gmap DeliveryId V) d :
  d ∈ (filter P (btree_iter m)).*1 <-> exists v, m !! d = Some v /\ P (d, v).
Proof.
  rewrite list_elem_of_fmap. split.
  - intros ([d' v] & -> & [HP Hin]%list_elem_of_filter). apply elem_of_btree_iter in Hin. eauto.
  - intros (v & Hv & HP). exists (d, v). rewrite list_elem_of_filter, elem_of_btree_iter. done.
Qed.

(** ** A join of the attempts *)

Lemma live_task_lost tasks joining d h h' :
  live_task None joining tasks d h' -> live_task (Some (joining h)) joining (delete h tasks) d h'.
Proof.
  intros [?|(t & Ht & Hrest)]; [done|]. destruct (decide (h' = h)) as [-> |Hne]; [by left|].
  right. exists t. by rewrite lookup_delete_ne.
Qed.

Lemma engine_inv_joining h e :
  engine_inv None None e -> engine_inv (Some (JoiningAttempt h)) None (set_attempts (delete h (e_attempts e)) e).
Proof.
  intros []. split; try done; simpl.
  - intros d a Ha Hf. specialize (inv_placed0 d a Ha Hf). unfold placed in *. simpl. destruct (av_abort a); [|done].
    destruct inv_placed0. auto using live_task_lost.
  - intros d a Ha Hf. destruct (inv_calls_placed0 d a Ha Hf) as (h' & ? & ? & [?|Hl]); [done|]. exists h'.
    split_and!; [done..|by right].
  - intros h' [Hh'|Hh']; [|auto]. apply inv_tasks0. left. destruct (decide (h' = h)) as [-> |Hne].
    + rewrite lookup_delete_eq in Hh'. by destruct Hh'.
    + by rewrite lookup_delete_ne in Hh'.
Qed.

Lemma engine_inv_joined h e :
  engine_inv (Some (JoiningAttempt h)) None e ->
  (forall d a, e_active e !! d = Some a -> av_abort a <> Some h) -> engine_inv None None e.
Proof.
  intros [] Hnone. split; try done.
  - intros d a Ha Hf. specialize (inv_placed0 d a Ha Hf). unfold placed in *. destruct (av_abort a) as [h'|] eqn:Hh; [|done].
    destruct inv_placed0 as [? [[= <-]|Hl]]; [by destruct (Hnone d a)|]. split; [done|by right].
  - intros d a Ha Hf. destruct (inv_calls_placed0 d a Ha Hf) as (h' & ? & ? & [?|Hl]); [done|]. exists h'.
    split_and!; [done..|by right].
Qed.

(** Nothing was put in flight. *)
Definition quiet e e' : Prop :=
  forall d a' h, e_active e' !! d = Some a' -> av_abort a' = Some h ->
    exists a, e_active e !! d = Some a /\ av_abort a = Some h.

(** Joining task [h] of the attempts with a completion, a panic or, for an aborted
    task, a cancellation. *)
Lemma attempt_join_inv h t o e :
  engine_inv None None e -> e_attempts e !! h = Some t -> join_possible t o = true ->
  let e' := handle_attempt_join (Some (join_result t o)) (set_attempts (delete h (e_attempts e)) e) in
  engine_inv None None e' /\ emit_frame e e' /\ quiet e e'.
Proof.
  intros Hinv Ht Hpos. pose proof (engine_inv_joining h e Hinv) as Hinv1.
  set (e1 := set_attempts (delete h (e_attempts e)) e) in *.
  assert (emit_frame e e1) as Hf1 by (by apply emit_frame_same).
  (* only the task's own delivery can hold its handle *)
  assert (forall d a, e_active e1 !! d = Some a -> av_abort a = Some h -> d = tk_delivery t /\ tk_aborted t = false) as Hown.
  { intros d a Ha Hh. pose proof (inv_placed _ _ _ Hinv d a Ha) as Hp. unfold placed in Hp. rewrite Hh in Hp.
    destruct Hp as [_ [?|(t' & Ht' & Hab & <-)]]; [done|done|]. rewrite Ht in Ht'. injection Ht' as <-. done. }
  destruct o as [c|[]]; simpl in *.
  - destruct (complete_attempt_inv (Some (JoiningAttempt h)) (tk_delivery t) c e1 Hinv1) as (Hinv2 & Hk & Hab).
    split; [|split; [exact (emit_frame_trans _ _ _ Hf1 (kept_emit_frame _ _ _ Hk))|]].
    2:{ intros d a' h' Ha' Hh'. destruct (decide (d = tk_delivery t)) as [-> |Hne]; [by rewrite (Hab a' Ha') in Hh'|].
        rewrite (k_active _ _ _ Hk) in Ha' by done. eauto. }
    eapply engine_inv_joined; [exact Hinv2|].
    intros d a Ha Hh. destruct (decide (d = tk_delivery t)) as [-> |Hne].
    + by rewrite (Hab a Ha) in Hh.
    + rewrite (k_active _ _ _ Hk) in Ha by done. by destruct (Hown d a Ha Hh).
  - split; [|split; [done|unfold quiet; eauto]]. eapply engine_inv_joined; [exact Hinv1|]. intros d a Ha Hh.
    destruct (Hown d a Ha Hh). congruence.
  - destruct (close_all _ _ ((filter (fun x => is_Some (av_abort x.2)) (btree_iter (e_active e1))).*1) e1
      (close_panic_one (Some (JoiningAttempt h))) Hinv1) as (Hinv2 & Hf2 & Hgone & Hrest).
    { apply NoDup_filter_keys. }
    { apply Forall_forall. intros d (a & Ha & _)%elem_of_filter_keys. eauto. }
    split; [|split; [exact (emit_frame_trans _ _ _ Hf1 Hf2)|]].
    2:{ intros d a h' Ha Hh.
        destruct (decide (d ∈ (filter (fun x => is_Some (av_abort x.2)) (btree_iter (e_active e1))).*1)) as [Hin|Hout].
        - assert (None = Some a) by (etrans; [symmetry; exact (Hgone d Hin)|exact Ha]). done.
        - exists a. split; [|done]. etrans; [symmetry; exact (Hrest d Hout)|exact Ha]. }
    eapply engine_inv_joined; [exact Hinv2|]. intros d a Ha Hh.
    destruct (decide (d ∈ (filter (fun x => is_Some (av_abort x.2)) (btree_iter (e_active e1))).*1)) as [Hin|Hout].
    + assert (None = Some a) by (etrans; [symmetry; exact (Hgone d Hin)|exact Ha]). done.
    + apply Hout, elem_of_filter_keys. exists a. simpl. split; [|eauto].
      etrans; [symmetry; exact (Hrest d Hout)|exact Ha].
Qed.

(** ** Retry deadlines *)

Lemma relocate_inv e ready routes retries :
  engine_inv None None e ->
  ready_ok ready routes ->
  StronglySorted retry_le retries ->
  let e' := set_ready_routes routes (set_ready ready (set_retries retries e)) in
  (forall d a, e_active e !! d = Some a -> av_abort a = None -> placed None e d a -> placed None e' d a) ->
  engine_inv None None e'.
Proof.
  intros [] Hready Hs e' Hp. split; try done; simpl.
  - intros d a Ha _. assert (@None DeliveryId <> Some d) as Hn by done. pose proof (inv_placed0 d a Ha Hn) as Hpl.
    destruct (av_abort a) eqn:Hab; [unfold placed in *; by rewrite Hab in *|]. by apply Hp.
Qed.

(** The queues after [enqueue_ready]. *)
Lemma enqueue_ready_spec r d e :
  engine_inv None None e ->
  exists ready routes, enqueue_ready r d e = set_ready_routes routes (set_ready ready e) /\
    ready_ok ready routes /\
    d ∈ default [] (ready !! r) /\ (forall r' d', d' ∈ queue e r' -> d' ∈ default [] (ready !! r')) /\
    (forall r' d', d' ∈ default [] (ready !! r') -> d' ∈ queue e r' \/ r' = r /\ d' = d).
Proof.
  intros Hinv. pose proof (inv_ready _ _ _ Hinv) as (Hnd & Hdom & Hne).
  exists (<[r := queue e r ++ [d]]> (e_ready e)),
    (if bool_decide (queue e r = []) then e_ready_routes e ++ [r] else e_ready_routes e).
  assert (queue e r = [] <-> e_ready e !! r = None) as Hq.
  { unfold queue. destruct (e_ready e !! r) as [q|] eqn:Hr; [|done]. simpl. split; [|done]. intros ->. by destruct (Hne r []). }
  split.
  { unfold enqueue_ready. fold (queue e r). by case_bool_decide. }
  split; [split; [|split]|split_and!].
  - case_bool_decide as Hb; [|done]. apply NoDup_app. split; [done|]. split; [|apply NoDup_singleton].
    intros r' Hr' ->%list_elem_of_singleton. apply Hdom in Hr' as [q Hr']. apply Hq in Hb. congruence.
  - intros r'. destruct (decide (r' = r)) as [-> |Hne'].
    + rewrite lookup_insert_eq. split; [eauto|]. intros _. case_bool_decide as Hb.
      * apply elem_of_app. right. by apply list_elem_of_singleton.
      * apply Hdom, not_eq_None_Some. tauto.
    + rewrite lookup_insert_ne by done. rewrite <-Hdom. case_bool_decide; [|done].
      rewrite elem_of_app, list_elem_of_singleton. naive_solver.
  - intros r' q. destruct (decide (r' = r)) as [-> |Hne'].
    + rewrite lookup_insert_eq. intros [= <-]. by destruct (queue e r).
    + rewrite lookup_insert_ne by done. apply Hne.
  - rewrite lookup_insert_eq. simpl. apply elem_of_app. right. by apply list_elem_of_singleton.
  - intros r' d' Hin. destruct (decide (r' = r)) as [-> |Hne'].
    + rewrite lookup_insert_eq. simpl. apply elem_of_app. by left.
    + by rewrite lookup_insert_ne.
  - intros r' d'. destruct (decide (r' = r)) as [-> |Hne'].
    + rewrite lookup_insert_eq. simpl. intros [?| ->%list_elem_of_singleton]%elem_of_app; auto.
    + rewrite lookup_insert_ne by done. by left.
Qed.

Definition retry_pop (deadline : Z) (d : DeliveryId) (heap : list (Z * DeliveryId)) e : Engine :=
  match e_active e !! d with
  | None => set_retries heap e
  | Some a =>
      if bool_decide (lc_next_deadline (av_lifecycle a) = Some deadline)
      then enqueue_ready (ad_route (av_parts a)) d (set_retries heap e) else set_retries heap e
  end.

Lemma next_deadline_waiting l dl : lc_next_deadline l = Some dl <-> lc_state l = WaitingRetry dl.
Proof. unfold lc_next_deadline. destruct (lc_state l); naive_solver. Qed.

(** Dropping an entry that no delivery waits for. *)
Lemma drop_retry_inv dl d heap e :
  engine_inv None None e -> e_retries e = (dl, d) :: heap ->
  (forall a, e_active e !! d = Some a -> lc_state (av_lifecycle a) <> WaitingRetry dl) ->
  engine_inv None None (set_retries heap e).
Proof.
  intros Hinv Hr Hstale. pose proof (inv_retries _ _ _ Hinv) as Hs. rewrite Hr in Hs. apply StronglySorted_inv in Hs as [Hs _].
  replace (set_retries heap e) with (set_ready_routes (e_ready_routes e) (set_ready (e_ready e) (set_retries heap e))) by (by destruct e).
  apply relocate_inv; [done|apply Hinv|done|].
  intros d' a Ha Hab Hp. unfold placed in *. rewrite Hab in *. unfold waiting, queue in *. simpl. rewrite Hr in Hp.
  assert (forall dl', lc_state (av_lifecycle a) = WaitingRetry dl' -> (dl', d') ∈ (dl, d) :: heap -> (dl', d') ∈ heap) as Hkeep.
  { intros dl' Hst [[= -> ->]|?]%elem_of_cons; [by destruct (Hstale a Ha)|done]. }
  destruct Hp as [Hw Hq]. split.
  - destruct (lc_state (av_lifecycle a)) eqn:Hst; [done..| |done]. destruct Hw; [left; auto|by right].
  - destruct Hq as [?|(dl' & Hst & Hin)]; [by left|right; eauto].
Qed.

Lemma retry_pop_inv dl d heap e :
  engine_inv None None e -> e_retries e = (dl, d) :: heap -> dl <= clock (e_tick e) ->
  engine_inv None None (retry_pop dl d heap e) /\ emit_frame e (retry_pop dl d heap e) /\
  e_retries (retry_pop dl d heap e) = heap /\ e_active (retry_pop dl d heap e) = e_active e /\
  e_tick (retry_pop dl d heap e) = e_tick e.
Proof.
  intros Hinv Hr Hdl. unfold retry_pop. pose proof (drop_retry_inv dl d heap e Hinv Hr) as Hdrop.
  assert (emit_frame e (set_retries heap e)) as Hf by (by apply emit_frame_same).
  destruct (e_active e !! d) as [a|] eqn:Ha; [|split_and!; [by apply Hdrop|done..]].
  case_bool_decide as Hnd; rewrite next_deadline_waiting in Hnd.
  2:{ split_and!; [|done..]. apply Hdrop. by intros ? [= <-]. }
  destruct (enqueue_ready_spec (ad_route (av_parts a)) d e Hinv) as (ready & routes & Heq & Hready & Hin & Hmono & Honly).
  assert (enqueue_ready (ad_route (av_parts a)) d (set_retries heap e) =
    set_ready_routes routes (set_ready ready (set_retries heap e))) as ->.
  { transitivity (set_retries heap (enqueue_ready (ad_route (av_parts a)) d e)).
    - unfold enqueue_ready. simpl. by case_bool_decide.
    - by rewrite Heq. }
  split_and!; [| |done..].
  2:{ split_and!; try done; [by eauto|]. unfold queue. simpl. intros r' d' [?|[-> ->]]%Honly; [by left|right; eauto]. }
  pose proof (inv_retries _ _ _ Hinv) as Hs. rewrite Hr in Hs. apply StronglySorted_inv in Hs as [Hs _].
  apply relocate_inv; [done..|]. intros d' a' Ha' Hab' Hp. unfold placed in *. rewrite Hab' in *.
  unfold waiting, queue in *. simpl. rewrite Hr in Hp. destruct (decide (d' = d)) as [-> |Hne].
  - rewrite Ha in Ha'. injection Ha' as <-. rewrite Hnd. auto.
  - assert (forall dl', (dl', d') ∈ (dl, d) :: heap -> (dl', d') ∈ heap) as Hkeep.
    { intros dl' [[= -> ->]|?]%elem_of_cons; done. }
    destruct Hp as [Hw Hq]. split.
    + destruct (lc_state (av_lifecycle a')); [done..| |done]. destruct Hw; [left; auto|by right].
    + destruct Hq as [?|(dl' & Hst & Hi)]; [left; by apply Hmono|right; eauto].
Qed.

Lemma retry_loop_inv now heap : forall e,
  engine_inv None None e -> e_retries e = heap -> now <= clock (e_tick e) ->
  engine_inv None None (retry_loop now heap e) /\ emit_frame e (retry_loop now heap e) /\
  e_active (retry_loop now heap e) = e_active e /\ Forall (fun x => now < x.1) (e_retries (retry_loop now heap e)).
Proof.
  induction heap as [|[dl d] heap IH]; intros e Hinv Hr Hnow.
  { split_and!; [done|auto with frames|done|]. simpl. by rewrite Hr. }
  cbn [retry_loop]. destruct (Z.leb_spec dl now) as [Hle|Hgt].
  - change (match e_active (set_retries heap e) !! d with Some a => _ | None => _ end) with (retry_pop dl d heap e).
    assert (dl <= clock (e_tick e)) as Hdl by lia.
    destruct (retry_pop_inv dl d heap e Hinv Hr Hdl) as (Hinv1 & Hf1 & Hr1 & Ha1 & Ht1).
    destruct (IH _ Hinv1 Hr1) as (Hinv2 & Hf2 & Ha2 & Hall); [by rewrite Ht1|].
    split_and!; [done|exact (emit_frame_trans _ _ _ Hf1 Hf2)|congruence|done].
  - split_and!; [done|auto with frames|done|]. pose proof (inv_retries _ _ _ Hinv) as Hs. rewrite Hr in *.
    apply StronglySorted_inv in Hs as [_ Hs]. constructor; [done|]. eapply Forall_impl; [exact Hs|].
    intros x [Hx|[Hx _]]; simpl in *; lia.
Qed.

End inv.

#[export] Hint Resolve emit_frame_refl kept_refl closed_kept kept_emit_frame : frames.
