(* ===== verification/EngineCalls.v ===== *)
(** * EngineCalls: calls keep the invariant of the scheduler

    The terminal paths of a call ([finish_call], [force_call_terminal],
    [apply_call_terminal_event]), its start and its completion.  Each of them leaves the
    emitted deliveries alone and answers the caller at most once. *)

From S2P Require Import Prelude Text Identifiers DeliveryStore EgressLimits Json Lifecycle Payload Kind Route RuntimeLimits Engine EngineAccounts EngineInv.

Section calls.
  Context `{W : Wire} `{Env : EngineEnv} {EnvOk : EngineEnvOk} `{DeliveryLogSpec L}.
  Implicit Types e : Engine (L := L).

Abbreviation view e := (log_view (e_log e)).

(** [call_touched d a e e']: only the state, record, override and task of the call [d]
    moved on the way from [e] to [e']. *)
Record call_touched (d : DeliveryId) (a : ActiveCall) e e' : Prop := {
  ct_self : exists a', e_active_calls e' !! d = Some a' /\ cl_parts a' = cl_parts a /\
    cl_accepted_at a' = cl_accepted_at a /\ cl_reply a' = cl_reply a /\ lc_delivery (cl_lifecycle a') = d /\
    lc_wf (cl_lifecycle a') /\ (cl_abort a' = cl_abort a \/ cl_abort a' = None);
  ct_calls : forall d', d' <> d -> e_active_calls e' !! d' = e_active_calls e !! d';
  ct_active : e_active e' = e_active e;
  ct_registry : e_registry e' = e_registry e;
  ct_ready : e_ready e' = e_ready e;
  ct_ready_routes : e_ready_routes e' = e_ready_routes e;
  ct_retries : e_retries e' = e_retries e;
  ct_attempts : e_attempts e' = e_attempts e;
  ct_next : e_next_task e' = e_next_task e;
  ct_drains : e_drains e' = e_drains e;
  ct_outbox : e_outbox e' = e_outbox e;
  ct_tasks : forall d' a' h, d' <> d -> e_active_calls e !! d' = Some a' -> cl_abort a' = Some h ->
    e_calls e' !! h = e_calls e !! h;
  ct_tasks_dom : forall h, is_Some (e_calls e' !! h) -> is_Some (e_calls e !! h);
  ct_tick : (e_tick e <= e_tick e')%nat;
  ct_view : forall d', d' <> d -> view e' !! d' = view e !! d';
  ct_overrides : forall d', d' <> d -> e_overrides e' !! d' = e_overrides e !! d';
  ct_degraded : e_degraded e = true -> e_degraded e' = true;
  ct_accounts : eaccounts e';
}.

Lemma finish_call_frame d a response e :
  e_active_calls e !! d = Some a ->
  let e' := finish_call d response e in
  e_registry e' = e_registry e /\ e_log e' = e_log e /\ e_tick e' = e_tick e /\ e_ready e' = e_ready e /\
  e_ready_routes e' = e_ready_routes e /\ e_retries e' = e_retries e /\ e_attempts e' = e_attempts e /\
  e_next_task e' = e_next_task e /\ e_drains e' = e_drains e /\ e_overrides e' = e_overrides e /\
  e_degraded e' = e_degraded e /\ e_outbox e' = e_outbox e ++ [(cl_reply a, RespCall response)] /\
  e_active e' = e_active e /\ e_active_calls e' = delete d (e_active_calls e) /\
  (e_calls e' = e_calls e \/ exists h, cl_abort a = Some h /\ e_calls e' = alter task_abort h (e_calls e)).
Proof.
  intros Ha. simpl. unfold finish_call. rewrite Ha.
  destruct (cl_abort a) as [h|] eqn:Hh;
    match goal with |- context [drop_idle_usage ?r ?x] => destruct (drop_idle_frame r x) as [us ->] end;
    simpl; split_and!; try done; [right; by exists h|by left].
Qed.

(** What a terminal path of a call leaves behind. *)
Record call_closed (d : DeliveryId) (a : ActiveCall) e e' : Prop := {
  cc_gone : e_active_calls e' !! d = None;
  cc_calls : forall d', d' <> d -> e_active_calls e' !! d' = e_active_calls e !! d';
  cc_active : e_active e' = e_active e;
  cc_registry : e_registry e' = e_registry e;
  cc_ready : e_ready e' = e_ready e;
  cc_ready_routes : e_ready_routes e' = e_ready_routes e;
  cc_drains : e_drains e' = e_drains e;
  cc_outbox : exists response, e_outbox e' = e_outbox e ++ [(cl_reply a, RespCall response)];
  cc_tick : (e_tick e <= e_tick e')%nat;
  cc_settled : exists o res, settled d o res e';
}.

Lemma call_not_active lost free d a e :
  engine_inv lost free e -> e_active_calls e !! d = Some a -> e_active e !! d = None.
Proof.
  intros Hinv Ha. destruct (e_active e !! d) eqn:Hd; [|done]. rewrite (inv_disjoint _ _ _ Hinv) in Ha; [done|eauto].
Qed.

Lemma finish_call_changes lost d a e e1 response :
  engine_inv lost (Some d) e -> e_active_calls e !! d = Some a -> call_touched d a e e1 ->
  changes d e (finish_call d response e1).
Proof.
  intros Hinv Ha Ht. pose proof (ct_self _ _ _ _ Ht) as (a' & Ha' & _ & _ & _ & _ & _ & Habort).
  pose proof (finish_call_accounts d response e1 (ct_accounts _ _ _ _ Ht)) as Hacc.
  destruct (finish_call_frame d a' response e1 Ha')
    as (F1 & F2 & F3 & F4 & F5 & F6 & F7 & F8 & F9 & F10 & F11 & F12 & F13 & F14 & F15).
  set (e2 := finish_call d response e1) in *. destruct Ht, Hinv. split; try done; try congruence.
  - intros d' Hne. rewrite F14, lookup_delete_ne by done. auto.
  - unfold queue. by rewrite F4, ct_ready0.
  - intros d' b h Hne Hb Hh. rewrite <-(ct_tasks0 d' b h Hne Hb Hh).
    destruct F15 as [->|(h1 & Hh1 & ->)]; [done|]. apply alter_abort_lookup. intros ->.
    destruct Habort as [Habort|Habort]; [|congruence].
    apply Hne. eapply inv_call_handles; [exact Hb|exact Ha|exact Hh|congruence].
  - intros h Hh. rewrite F8, ct_next0. apply inv_tasks. rewrite F7, ct_attempts0 in Hh. destruct Hh as [Hh|Hh]; [by left|right].
    apply ct_tasks_dom0. destruct F15 as [F15|(h1 & _ & F15)]; rewrite F15 in Hh; [done|].
    by apply alter_abort_dom in Hh.
  - intros d' Hne. left. rewrite F2. auto.
  - intros d' Hne. rewrite F10. auto.
  - rewrite F11. auto.
Qed.

Lemma finish_call_closed lost d a e e1 o res response :
  engine_inv lost (Some d) e -> e_active_calls e !! d = Some a -> call_touched d a e e1 -> settled d o res e1 ->
  engine_inv lost None (finish_call d response e1) /\ call_closed d a e (finish_call d response e1).
Proof.
  intros Hinv Ha Ht Hset. pose proof (finish_call_changes lost d a e e1 response Hinv Ha Ht) as Hch.
  pose proof (call_not_active _ _ _ _ _ Hinv Ha) as Hna.
  pose proof (ct_self _ _ _ _ Ht) as (a' & Ha' & _ & _ & Hreply & _).
  destruct (finish_call_frame d a' response e1 Ha')
    as (F1 & F2 & F3 & F4 & F5 & F6 & F7 & F8 & F9 & F10 & F11 & F12 & F13 & F14 & F15).
  set (e2 := finish_call d response e1) in *.
  assert (e_active_calls e2 !! d = None) as Hgone by (rewrite F14; apply lookup_delete_eq).
  assert (settled d o res e2) as Hset2 by (unfold settled; by rewrite F2, F10, F11).
  destruct Ht. split.
  - eapply (changes_inv lost (Some d)); [done|by right|by left|done|].
    eapply settled_in_order; [exact Hset2| |done]. congruence.
  - split; try congruence; try by destruct Hch.
    + exists response. by rewrite F12, ct_outbox0, Hreply.
    + eauto.
Qed.

(** *** Steps of a terminal path *)

Lemma call_touched_refl lost free d a e :
  engine_inv lost free e -> e_active_calls e !! d = Some a -> call_touched d a e e.
Proof.
  intros Hinv Ha. destruct (inv_calls _ _ _ Hinv d a Ha) as (? & Hlc & Hwf & _).
  split; try done; [|apply Hinv]. exists a. auto 8.
Qed.

Lemma call_touched_tick d a e e1 n :
  call_touched d a e e1 -> (e_tick e1 <= n)%nat -> call_touched d a e (set_tick n e1).
Proof. intros [] Hn. split; try done. simpl. lia. Qed.

Lemma call_touched_degraded d a e e1 : call_touched d a e e1 -> call_touched d a e (set_degraded true e1).
Proof. intros []. by split. Qed.

Lemma call_touched_overrides d a e e1 r :
  call_touched d a e e1 -> call_touched d a e (set_overrides (<[d := r]> (e_overrides e1)) e1).
Proof. intros []. split; try done. simpl. intros d' Hne. rewrite lookup_insert_ne by done. auto. Qed.

Lemma call_touched_log d a e e1 log :
  call_touched d a e e1 -> (forall d', d' <> d -> log_view log !! d' = view e1 !! d') ->
  call_touched d a e (set_log log e1).
Proof. intros [] Hv. split; try done. simpl. intros d' Hne. rewrite Hv by done. auto. Qed.

Lemma call_touched_release d a e e1 a1 h e2 :
  (forall d' b, d' <> d -> e_active_calls e !! d' = Some b -> cl_abort b <> Some h) ->
  call_touched d a e e1 -> e_active_calls e1 !! d = Some a1 -> cl_abort a1 = Some h ->
  (e2 = (clear_call_in_flight d e1).2 \/ e2 = (abort_call d e1).2) -> call_touched d a e e2.
Proof.
  intros Hown Ht Ha1 Hh He2.
  assert (eaccounts e2) as Hacc.
  { pose proof (ct_accounts _ _ _ _ Ht). destruct He2 as [->| ->]; auto using clear_call_accounts, abort_call_accounts. }
  destruct Ht, ct_self0 as (a1' & Ha1' & ? & ? & ? & ? & ? & ?). rewrite Ha1 in Ha1'. injection Ha1' as <-.
  destruct He2 as [->| ->]; unfold clear_call_in_flight, abort_call in *; rewrite Ha1, Hh in *; split; try done; simpl.
  all: try solve [exists (cl_with_abort a1 None); rewrite lookup_insert_eq; auto 8
    |intros d' Hne; rewrite lookup_insert_ne by done; auto].
  - intros d' a' h' Hne Ha' Hh'. rewrite alter_abort_lookup; [by eapply ct_tasks0|].
    intros ->. by eapply Hown.
  - intros h'. rewrite alter_abort_dom. auto.
Qed.

Lemma settle_call d a e e1 o t res :
  call_touched d a e e1 -> e_overrides e1 !! d = None ->
  let '(p, e2) := try_persist (Some (RecordOutcome d o t res)) e1 in
  let e3 := keep_outcome p d o res insert_call_override e2 in
  call_touched d a e e3 /\ settled d o res e3.
Proof.
  intros Ht Hov. unfold try_persist, Engine_persist.
  pose proof (record_outcome_spec d o t res (e_log e1)) as Hspec.
  destruct (record_outcome d o t res (e_log e1)) as [r log] eqn:Hrec. simpl in Hspec. cbv zeta iota.
  assert (call_touched d a e (set_log log e1)) as Ht2.
  { apply call_touched_log; [done|]. intros d' Hne. destruct Hspec as [[-> _]|(r0 & _ & _ & ->)]; [done|].
    by rewrite lookup_insert_ne. }
  unfold keep_outcome. destruct (is_ok r) eqn:Hok.
  - split; [done|]. left. split; [done|]. destruct Hspec as [[_ ?]|(r0 & _ & _ & Hv)]; [congruence|].
    simpl. rewrite Hv, lookup_insert_eq. eexists. split; [done|]. done.
  - unfold persisted_terminal_matches. simpl. destruct (log_delivery_spec d log) as [Hv2 Hread].
    destruct (log_delivery d log) as [rd log2] eqn:Hrd. simpl in Hv2, Hread.
    assert (call_touched d a e (set_log log2 (set_log log e1))) as Ht3.
    { apply call_touched_log; [done|]. intros d' _. by rewrite Hv2. }
    destruct (match rd with Ok (Some record) => _ | _ => false end) eqn:Hm.
    + split; [done|]. left. split; [done|]. destruct rd as [[rec|]|]; [|done..].
      apply andb_true_iff in Hm as [Hs%bool_decide_eq_true Hr%bool_decide_eq_true].
      exists rec. simpl. rewrite Hv2. split; [|done]. symmetry. by apply Hread.
    + pose proof (ct_self _ _ _ _ Ht) as (a1 & Ha1 & _). unfold insert_call_override. simpl. rewrite Ha1. simpl.
      split; [|right; split; [done|]; simpl; rewrite lookup_insert_eq; by eexists].
      apply (call_touched_overrides d a e (set_tick (S (e_tick e1)) (set_degraded true (set_log log2 (set_log log e1))))).
      apply call_touched_tick; [|simpl; lia]. by apply call_touched_degraded.
Qed.

Lemma force_call_terminal_closed lost d a e e1 o res response :
  engine_inv lost (Some d) e -> e_active_calls e !! d = Some a -> call_touched d a e e1 ->
  e_overrides e1 !! d = None ->
  engine_inv lost None (force_call_terminal d o res response e1) /\
  call_closed d a e (force_call_terminal d o res response e1).
Proof.
  intros Hinv Ha Ht Hov. unfold force_call_terminal, unix_now.
  pose proof (settle_call d a e (set_tick (S (e_tick e1)) e1) o (wall (e_tick e1)) res) as Hs.
  destruct (try_persist _ _) as [p e2]. cbv zeta in Hs.
  destruct Hs as [Ht3 Hset]; [by apply call_touched_tick; [|lia]|done|]. by eapply finish_call_closed.
Qed.

Lemma persist_call_terminal_closed lost d a e e1 o t res response :
  engine_inv lost (Some d) e -> e_active_calls e !! d = Some a -> call_touched d a e e1 ->
  e_overrides e1 !! d = None ->
  let e2 := finish_call d response (persist_call_terminal d o res (Some (RecordOutcome d o t res)) e1) in
  engine_inv lost None e2 /\ call_closed d a e e2.
Proof.
  intros Hinv Ha Ht Hov. unfold persist_call_terminal.
  pose proof (settle_call d a e e1 o t res Ht Hov) as Hs.
  destruct (try_persist _ _) as [p e2]. cbv zeta in *. destruct Hs as [Ht3 Hset]. by eapply finish_call_closed.
Qed.

Lemma call_touched_step d a e e1 time ev :
  call_touched d a e e1 -> 0 <= monotonic time ->
  exists a1, e_active_calls e1 !! d = Some a1 /\
    call_touched d a e (step_call d time ev e1).2 /\
    e_overrides (step_call d time ev e1).2 = e_overrides e1 /\
    lc_effect (cl_lifecycle a1) time ev (transition (cl_lifecycle a1) time ev).1 (transition (cl_lifecycle a1) time ev).2 /\
    (step_call d time ev e1).1 =
      (match (transition (cl_lifecycle a1) time ev).1 with Ok t => Some t | Err _ => None end) /\
    (step_call d time ev e1).2 =
      set_active_calls (<[d := cl_with_lifecycle a1 (transition (cl_lifecycle a1) time ev).2]> (e_active_calls e1)) e1 /\
    lc_delivery (cl_lifecycle a1) = d.
Proof.
  intros Ht Htime. destruct (ct_self _ _ _ _ Ht) as (a1 & Ha1 & Hp & Hat & Hr & Hd & Hwf & Hab).
  exists a1. split; [done|]. pose proof (transition_effect (cl_lifecycle a1) time ev Hwf) as He.
  destruct (lc_effect_wf _ _ _ _ _ Hwf Htime He) as (Hwf' & _ & Hd' & _).
  unfold step_call. rewrite Ha1. destruct (transition (cl_lifecycle a1) time ev) as [r l]. simpl in *.
  split; [|done]. pose proof (ct_accounts _ _ _ _ Ht) as Hacc. destruct Ht. split; try done; simpl.
  - exists (cl_with_lifecycle a1 l). rewrite lookup_insert_eq. simpl. split_and!; congruence.
  - intros d' Hne. rewrite lookup_insert_ne by done. auto.
  - by eapply set_call_accounts.
Qed.

Lemma apply_call_terminal_event_closed lost d a e e1 ev response :
  engine_inv lost (Some d) e -> e_active_calls e !! d = Some a -> call_touched d a e e1 ->
  e_overrides e1 !! d = None ->
  engine_inv lost None (apply_call_terminal_event d ev response e1) /\
  call_closed d a e (apply_call_terminal_event d ev response e1).
Proof.
  intros Hinv Ha Ht Hov. unfold apply_call_terminal_event.
  pose proof (time_ok e1) as Htime. destruct (RuntimeClock_transition_time e1) as [time e1t] eqn:Htt.
  assert (call_touched d a e e1t) as Ht1 by (injection Htt as _ <-; apply call_touched_tick; [done|lia]).
  assert (e_overrides e1t !! d = None) as Hov1 by (by injection Htt as _ <-).
  destruct (call_touched_step d a e e1t time ev Ht1 Htime) as (a1 & Ha1 & Ht2 & Hov2 & Heff & Hres & _ & Hd).
  destruct (step_call d time ev e1t) as [r e2]. simpl in *. subst r.
  assert (e_overrides e2 !! d = None) as Hov3 by (by rewrite Hov2).
  destruct Heff as [|Hs|dl|Hs|dl|o res]; simpl; try by eapply force_call_terminal_closed.
  rewrite Hd. by eapply persist_call_terminal_closed.
Qed.

Lemma call_override_None lost free d a e :
  engine_inv lost free e -> e_active_calls e !! d = Some a -> e_overrides e !! d = None.
Proof.
  intros Hinv Ha. destruct (e_overrides e !! d) as [r|] eqn:Hr; [|done].
  destruct (inv_overrides _ _ _ Hinv d r Hr) as (_ & _ & _ & ?). congruence.
Qed.

(** ** Starting a call *)

Lemma spawn_call_inv d a l log n e :
  engine_inv None (Some d) e -> e_active_calls e !! d = Some a -> cl_abort a = None ->
  lc_delivery l = d -> lc_wf l -> lc_state l = InFlight ->
  (forall d', d' <> d -> log_view log !! d' = view e !! d') ->
  (exists r, log_view log !! d = Some r /\ rec_state r = Pending /\ rec_attempts r = lc_attempts l /\
     rec_intent r = mk_intent (ad_route (cl_parts a)) d (cl_accepted_at a)) ->
  (e_tick e <= n)%nat ->
  let a1 := cl_with_lifecycle a l in
  let e1 := set_log log (set_active_calls (<[d := a1]> (e_active_calls e)) (set_tick n e)) in
  engine_inv None None (spawn_call d a1 e1).
Proof.
  intros Hinv Ha Hab Hd Hwf Hst Hv Hrec Hn a1 e1.
  assert (eaccounts e1) as Hacc1 by (by eapply (set_call_accounts d a a1 (set_tick n e)); [apply Hinv|..]).
  assert (e_active_calls e1 !! d = Some a1) as Ha1 by apply lookup_insert_eq.
  pose proof (spawn_call_accounts d a1 e1 Hacc1 Ha1 Hab) as Hacc.
  pose proof (inv_calls _ _ _ Hinv d a Ha) as (Hp & _). pose proof (call_not_active _ _ _ _ _ Hinv Ha) as Hna.
  pose proof (call_override_None _ _ _ _ _ Hinv Ha) as Hov.
  assert (forall d' b h, d' <> d -> e_active_calls e !! d' = Some b -> cl_abort b = Some h -> h <> e_next_task e) as Hfresh.
  { intros d' b h Hne Hb Hh ->. assert (Some d <> Some d') as Hfree by congruence.
    destruct (inv_calls_placed _ _ _ Hinv d' b Hb Hfree) as (h & Hh' & _ & [?|(t & Ht & _)]); [done|].
    rewrite Hh in Hh'. injection Hh' as <-. assert (e_next_task e < e_next_task e); [|lia]. apply (inv_tasks _ _ _ Hinv). eauto. }
  set (e2 := spawn_call d a1 e1) in *.
  assert (e_active_calls e2 !! d = Some (cl_with_abort a1 (Some (e_next_task e)))) as Ha2
    by (simpl; by rewrite lookup_alter_eq, lookup_insert_eq).
  eapply (changes_inv None (Some d)); [done|by right|by left| |].
  - destruct Hinv. split; try done; simpl.
    + intros d' Hne. by rewrite lookup_alter_ne, lookup_insert_ne.
    + intros d' b h Hne Hb Hh. rewrite lookup_insert_ne; [done|]. intros Heq. by apply (Hfresh d' b h).
    + intros h [Hh|Hh]; [specialize (inv_tasks h (or_introl Hh)); lia|].
      destruct (decide (h = e_next_task e)) as [-> |Hne]; [lia|]. rewrite lookup_insert_ne in Hh by done.
      specialize (inv_tasks h (or_intror Hh)). lia.
    + lia.
    + intros d' Hne. left. by apply Hv.
  - split; rewrite ?Ha2; [simpl; by rewrite Hna| |eauto|simpl; by rewrite Hov].
    intros ? [= <-]. split_and!; try done.
    + intros _. exists (e_next_task e). split_and!; [done..|]. right. eexists. simpl. by rewrite lookup_insert_eq.
    + simpl. intros h d' b [= <-] Hne Hb Hh. by apply (Hfresh d' b _ Hne Hb Hh).
Qed.

(** The replies sent and the replies owed. *)
Definition ledger e : list Reply :=
  (e_outbox e).*1 ++ ((fun x => dr_reply x.2) <$> map_to_list (e_drains e)) ++
  ((fun x => cl_reply x.2) <$> map_to_list (e_active_calls e)).

(** What operations on calls leave alone. *)
Definition call_frame e e' : Prop :=
  e_active e' = e_active e /\ e_registry e' = e_registry e /\ e_drains e' = e_drains e /\
  e_ready e' = e_ready e /\ (e_tick e <= e_tick e')%nat /\ ledger e' ≡ₚ ledger e.

Lemma call_frame_refl e : call_frame e e.
Proof. unfold call_frame. auto 7. Qed.

#[local] Hint Resolve call_frame_refl : frames.

Lemma call_frame_trans e1 e2 e3 : call_frame e1 e2 -> call_frame e2 e3 -> call_frame e1 e3.
Proof.
  unfold call_frame. intros (-> & -> & -> & -> & ? & Hl1) (-> & -> & -> & -> & ? & Hl2). split_and!; auto with lia.
  by rewrite Hl2.
Qed.

Lemma call_closed_frame d a e e' : e_active_calls e !! d = Some a -> call_closed d a e e' -> call_frame e e'.
Proof.
  intros Ha []. unfold call_frame. split_and!; auto. unfold ledger. destruct cc_outbox0 as [resp ->].
  rewrite cc_drains0, <-(map_to_list_delete (e_active_calls e) d a Ha), fmap_app. simpl.
  assert (e_active_calls e' = delete d (e_active_calls e)) as ->.
  { apply map_eq. intros i. destruct (decide (i = d)) as [-> |Hne]; [by rewrite lookup_delete_eq|].
    rewrite lookup_delete_ne by done. auto. }
  rewrite <-!app_assoc. apply Permutation_app_head. simpl. by rewrite Permutation_middle.
Qed.

Lemma start_call_inv d a e :
  engine_inv None (Some d) e -> e_active_calls e !! d = Some a -> cl_abort a = None ->
  engine_inv None None (start_call d e) /\ call_frame e (start_call d e).
Proof.
  intros Hinv Ha Hab. pose proof (call_touched_refl _ _ _ _ _ Hinv Ha) as Ht0.
  pose proof (call_override_None _ _ _ _ _ Hinv Ha) as Hov0.
  unfold start_call. pose proof (time_ok e) as Htime. unfold RuntimeClock_transition_time in *.
  set (time := mk_time (clock (e_tick e)) (wall (e_tick e))) in *. change (0 <= monotonic time) in Htime.
  set (et := set_tick (S (e_tick e)) e).
  assert (call_touched d a e et) as Ht1 by (apply call_touched_tick; [done|lia]).
  destruct (call_touched_step d a e et time EvDrive Ht1 Htime) as (a1 & Ha1 & Ht2 & Hov2 & Heff & Hres & Hact & Hd).
  assert (a1 = a) as -> by (simpl in Ha1; congruence). clear Ha1.
  pose proof (inv_calls _ _ _ Hinv d a Ha) as (Hok1 & Hok2 & Hwf & Hlogged).
  assert (forall e', engine_inv None None e' /\ call_closed d a e e' -> engine_inv None None e' /\ call_frame e e') as Hclosed
    by (intros e' [? ?]; split; [done|by eapply call_closed_frame]).
  destruct (lc_effect_wf _ _ _ _ _ Hwf Htime Heff) as (Hwf' & _ & Hd' & _).
  destruct (step_call d time EvDrive et) as [r e2]. simpl in Hres, Hov2, Hact, Ht2. subst r e2. cbv zeta.
  destruct (transition (cl_lifecycle a) time EvDrive) as [r l] eqn:Htr. simpl in *.
  destruct Heff as [Hs|Hs _|dl _ Hs Hdl|_ Hs|dl (f & ?) Hs|o res Hs Hne]; simpl; try done;
    try (apply Hclosed; by eapply force_call_terminal_closed).
  unfold Engine_persist. rewrite Hd. simpl.
  pose proof (record_attempt_spec d (lc_attempts (cl_lifecycle a) + 1) (wall (e_tick e)) (e_log e)) as Hspec.
  destruct (record_attempt d (lc_attempts (cl_lifecycle a) + 1) (wall (e_tick e)) (e_log e)) as [[[]|err] log] eqn:Hrec;
    simpl in Hspec.
  - destruct Hspec as [[_ ?]|(r0 & Hr0 & Hp0 & Hlt0 & Hv)]; [done|].
    set (a1 := cl_with_lifecycle a _). change (e_active_calls (set_log log _)) with (<[d := a1]> (e_active_calls e)).
    rewrite lookup_insert_eq. split.
    + apply (spawn_call_inv d a _ log (S (e_tick e)) e); try done; [by intros; rewrite Hv, lookup_insert_ne| |lia].
      destruct Hlogged as (r1 & Hr1 & _ & _ & Hi1). rewrite Hr1 in Hr0. injection Hr0 as <-.
      eexists. rewrite Hv, lookup_insert_eq. split; [done|]. simpl. auto.
    + unfold call_frame. split_and!; try done; [simpl; lia|]. unfold ledger. simpl. rewrite !app_assoc.
      apply Permutation_app_head. rewrite <-(map_to_list_delete (e_active_calls e) d a Ha).
      rewrite <-(map_to_list_delete _ d (cl_with_abort a1 (Some (e_next_task e)))) by (by rewrite lookup_alter_eq, lookup_insert_eq).
      by rewrite delete_alter_eq, delete_insert_eq.
  - apply Hclosed. eapply force_call_terminal_closed; [done|exact Ha| |done].
    apply call_touched_degraded, call_touched_log; [done|]. intros d' Hne.
    destruct Hspec as [[-> _]|(r0 & _ & _ & _ & ->)]; [done|]. by rewrite lookup_insert_ne.
Qed.

(** ** Completing a call *)

Lemma call_handles_owned lost free d a h e d' b :
  engine_inv lost free e -> e_active_calls e !! d = Some a -> cl_abort a = Some h ->
  d' <> d -> e_active_calls e !! d' = Some b -> cl_abort b <> Some h.
Proof. intros Hinv Ha Hh Hne Hb Hb'. apply Hne. by eapply (inv_call_handles _ _ _ Hinv). Qed.

Lemma call_in_flight lost d a e :
  engine_inv lost None e -> e_active_calls e !! d = Some a -> exists h, cl_abort a = Some h.
Proof. intros Hinv Ha. destruct (inv_calls_placed _ _ _ Hinv d a Ha) as (h & Hh & _); eauto. Qed.

(** A completed call is settled and answered, whatever the attempt reported. *)
Lemma complete_call_closed lost d a c e :
  engine_inv lost None e -> e_active_calls e !! d = Some a ->
  engine_inv lost None (complete_call d c e) /\ call_closed d a e (complete_call d c e).
Proof.
  intros Hinv Ha. destruct (call_in_flight _ _ _ _ Hinv Ha) as [h Hh].
  assert (call_touched d a e (clear_call_in_flight d e).2) as Ht1.
  { eapply (call_touched_release d a e e a h); [|by eapply call_touched_refl|done|done|by left].
    intros d' b. by eapply call_handles_owned. }
  pose proof (call_override_None _ _ _ _ _ Hinv Ha) as Hov0. pose proof (engine_inv_free _ d _ Hinv) as Hinv'.
  assert (e_overrides (clear_call_in_flight d e).2 !! d = None) as Hov1.
  { unfold clear_call_in_flight. by rewrite Ha, Hh. }
  unfold complete_call.
  assert (clear_call_in_flight d e = (true, (clear_call_in_flight d e).2)) as ->
    by (unfold clear_call_in_flight; by rewrite Ha, Hh).
  set (e1 := (clear_call_in_flight d e).2) in *. clearbody e1. cbn [negb]. cbv iota.
  unfold RuntimeClock_transition_time. set (time := mk_time _ _). set (et := set_tick (S (e_tick e1)) e1).
  assert (call_touched d a e et) as Ht2 by (apply call_touched_tick; [done|lia]).
  assert (0 <= monotonic time) as Htime by apply clock_nonneg.
  destruct (call_touched_step d a e et time (disposition_event (ac_disposition c)) Ht2 Htime)
    as (a1 & _ & Ht3 & Hov3 & Heff & Hres & _ & Hd).
  destruct (step_call d time _ et) as [r e2]. simpl in Hres, Hov3, Ht3. subst r.
  assert (e_overrides e2 !! d = None) as Hov by (by rewrite Hov3).
  destruct Heff as [|Hs|dl|Hs|dl|o res]; simpl; try by eapply force_call_terminal_closed.
  rewrite Hd. by eapply persist_call_terminal_closed.
Qed.

(** ** Closing many calls *)

Definition call_closes_one (lost : option Joining) (f : DeliveryId -> Engine (L := L) -> Engine (L := L)) : Prop :=
  forall d a e, engine_inv lost None e -> e_active_calls e !! d = Some a ->
    engine_inv lost None (f d e) /\ call_closed d a e (f d e).

Lemma call_close_event_one lost ev response :
  call_closes_one lost (fun d e => apply_call_terminal_event d ev response e).
Proof.
  intros d a e Hinv Ha. eapply apply_call_terminal_event_closed; [by apply engine_inv_free|exact Ha|..].
  - by eapply call_touched_refl.
  - by eapply call_override_None.
Qed.

Lemma call_close_panic_one lost o res response :
  call_closes_one lost (fun d e => force_call_terminal d o res response (abort_call d e).2).
Proof.
  intros d a e Hinv Ha. pose proof (call_override_None _ _ _ _ _ Hinv Ha) as Hov.
  destruct (call_in_flight _ _ _ _ Hinv Ha) as [h Hh].
  eapply force_call_terminal_closed; [by apply engine_inv_free|exact Ha|..].
  - eapply (call_touched_release d a e e a h); [|by eapply call_touched_refl|done|done|by right].
    intros d' b. by eapply call_handles_owned.
  - unfold abort_call. by rewrite Ha, Hh.
Qed.

Lemma call_close_all lost f ds : forall e,
  call_closes_one lost f -> engine_inv lost None e -> NoDup ds ->
  Forall (fun d => is_Some (e_active_calls e !! d)) ds ->
  let e' := foldl (fun e d => f d e) e ds in
  engine_inv lost None e' /\ call_frame e e' /\
  (forall d, d ∈ ds -> e_active_calls e' !! d = None) /\
  (forall d, d ∉ ds -> e_active_calls e' !! d = e_active_calls e !! d).
Proof.
  induction ds as [|d ds IH]; intros e Hf Hinv Hnd Hact; simpl.
  { split; [done|]. split; [auto with frames|]. split; [|done]. by intros d ?%elem_of_nil. }
  apply NoDup_cons in Hnd as [Hd Hnd]. apply Forall_cons in Hact as [[a Ha] Hact].
  destruct (Hf d a e Hinv Ha) as [Hinv1 Hc].
  destruct (IH (f d e) Hf Hinv1 Hnd) as (Hinv2 & Hframe & Hgone & Hrest).
  { rewrite Forall_forall in *. intros d' Hd'. rewrite (cc_calls _ _ _ _ Hc) by (intros ->; done). auto. }
  split; [done|]. split; [|split].
  - eapply call_frame_trans; [|exact Hframe]. by eapply call_closed_frame.
  - intros d' [->|Hd']%elem_of_cons; [|auto]. rewrite Hrest by done. apply Hc.
  - intros d' Hd'%not_elem_of_cons. destruct Hd' as [Hne Hd']. rewrite Hrest by done. by apply Hc.
Qed.

(** ** A join of the calls *)

Lemma engine_inv_joining_call h e :
  engine_inv None None e -> engine_inv (Some (JoiningCall h)) None (set_calls (delete h (e_calls e)) e).
Proof.
  intros []. split; try done; simpl.
  - intros d a Ha Hf. specialize (inv_placed d a Ha Hf). unfold placed in *. simpl. destruct (av_abort a); [|done].
    destruct inv_placed as [? [?|?]]; [done|]. split; [done|by right].
  - intros d a Ha Hf. destruct (inv_calls_placed d a Ha Hf) as (h' & ? & ? & Hl). exists h'.
    split_and!; [done..|]. by apply (live_task_lost _ JoiningCall).
  - intros h' [Hh'|Hh']; [auto|]. apply inv_tasks. right. destruct (decide (h' = h)) as [-> |Hne].
    + rewrite lookup_delete_eq in Hh'. by destruct Hh'.
    + by rewrite lookup_delete_ne in Hh'.
Qed.

Lemma engine_inv_joined_call h e :
  engine_inv (Some (JoiningCall h)) None e ->
  (forall d a, e_active_calls e !! d = Some a -> cl_abort a <> Some h) -> engine_inv None None e.
Proof.
  intros [] Hnone. split; try done.
  - intros d a Ha Hf. specialize (inv_placed d a Ha Hf). unfold placed in *. destruct (av_abort a); [|done].
    destruct inv_placed as [? [?|?]]; [done|]. split; [done|by right].
  - intros d a Ha Hf. destruct (inv_calls_placed d a Ha Hf) as (h' & Hh & ? & [[= <-]|Hl]);
      [by destruct (Hnone d a)|]. exists h'. split_and!; [done..|by right].
Qed.

Lemma call_join_inv h t o e :
  engine_inv None None e -> e_calls e !! h = Some t -> join_possible t o = true ->
  let e' := handle_call_join (Some (join_result t o)) (set_calls (delete h (e_calls e)) e) in
  engine_inv None None e' /\ call_frame e e'.
Proof.
  intros Hinv Ht Hpos. pose proof (engine_inv_joining_call h e Hinv) as Hinv1.
  set (e1 := set_calls (delete h (e_calls e)) e) in *.
  assert (call_frame e e1) as Hf1 by (by split_and!).
  assert (forall d a, e_active_calls e1 !! d = Some a -> cl_abort a = Some h -> d = tk_delivery t /\ tk_aborted t = false) as Hown.
  { intros d a Ha Hh. destruct (inv_calls_placed _ _ _ Hinv d a Ha) as (h' & Hh' & _ & [?|(t' & Ht' & Hab & <-)]); [done|done|].
    rewrite Hh in Hh'. injection Hh' as <-. rewrite Ht in Ht'. injection Ht' as <-. done. }
  destruct o as [c|[]]; simpl in *.
  - destruct (e_active_calls e1 !! tk_delivery t) as [a|] eqn:Ha.
    + destruct (complete_call_closed _ _ _ c e1 Hinv1 Ha) as [Hinv2 Hc].
      split; [|eapply call_frame_trans; [exact Hf1|by eapply call_closed_frame]].
      eapply engine_inv_joined_call; [exact Hinv2|]. intros d b Hb Hh.
      destruct (decide (d = tk_delivery t)) as [-> |Hne]; [by rewrite (cc_gone _ _ _ _ Hc) in Hb|].
      rewrite (cc_calls _ _ _ _ Hc) in Hb by done. by destruct (Hown d b Hb Hh).
    + assert (complete_call (tk_delivery t) c e1 = e1) as -> by (unfold complete_call, clear_call_in_flight; by rewrite Ha).
      split; [|done]. eapply engine_inv_joined_call; [exact Hinv1|]. intros d b Hb Hh.
      destruct (Hown d b Hb Hh) as [-> _]. congruence.
  - split; [|done]. eapply engine_inv_joined_call; [exact Hinv1|]. intros d a Ha Hh. destruct (Hown d a Ha Hh). congruence.
  - destruct (call_close_all _ _ ((filter (fun x => is_Some (cl_abort x.2)) (btree_iter (e_active_calls e1))).*1) e1
      (call_close_panic_one (Some (JoiningCall h)) (Failed Internal) None (Err (RtCallFailed Internal))) Hinv1)
      as (Hinv2 & Hf2 & Hgone & Hrest).
    { apply NoDup_filter_keys. }
    { apply Forall_forall. intros d (a & Ha & _)%elem_of_filter_keys. eauto. }
    split; [|by eapply call_frame_trans]. eapply engine_inv_joined_call; [exact Hinv2|]. intros d a Ha Hh.
    destruct (decide (d ∈ (filter (fun x => is_Some (cl_abort x.2)) (btree_iter (e_active_calls e1))).*1)) as [Hin|Hout].
    + assert (None = Some a) by (etrans; [symmetry; exact (Hgone d Hin)|exact Ha]). done.
    + apply Hout, elem_of_filter_keys. exists a. simpl. split; [|eauto].
      etrans; [symmetry; exact (Hrest d Hout)|exact Ha].
Qed.

End calls.

#[export] Hint Resolve call_frame_refl : frames.
