(* ===== verification/EngineRun.v ===== *)
(** * EngineRun: the loop of the scheduler keeps the invariant

    Admission, commands, drains and deadlines, then [loop_head] and [loop_event], so
    that the invariant holds at every state [run] reaches. *)

From S2P Require Import Prelude Text Identifiers DeliveryStore EgressLimits Json Lifecycle Payload Kind Route RuntimeLimits Engine EngineAccounts EngineInv EngineCalls.

Section run.
  Context `{W : Wire} `{Env : EngineEnv} {EnvOk : EngineEnvOk} `{DeliveryLogSpec L}.
  Implicit Types e : Engine (L := L).

Abbreviation view e := (log_view (e_log e)).

(** ** Deadlines of retries *)

Lemma tick_inv e n : engine_inv None None e -> (e_tick e <= n)%nat -> engine_inv None None (set_tick n e).
Proof.
  intros [] Hn. split; try done; simpl.
  intros d a Ha Hf. pose proof (inv_placed d a Ha Hf) as Hp. unfold placed in *. destruct (av_abort a); [done|].
  destruct Hp as [Hw Hq]. split; [|exact Hq]. by eapply (waiting_tick d a e).
Qed.

Lemma process_retry_deadlines_inv e :
  engine_inv None None e ->
  engine_inv None None (process_retry_deadlines e) /\ emit_frame e (process_retry_deadlines e) /\
  e_active (process_retry_deadlines e) = e_active e /\
  Forall (fun x => clock (e_tick e) < x.1) (e_retries (process_retry_deadlines e)).
Proof.
  intros Hinv. unfold process_retry_deadlines, RuntimeClock_now.
  assert (engine_inv None None (set_tick (S (e_tick e)) e)) as Hinv1 by (apply tick_inv; [done|lia]).
  assert (clock (e_tick e) <= clock (e_tick (set_tick (S (e_tick e)) e))) as Hc by (apply clock_mono; simpl; lia).
  destruct (retry_loop_inv (clock (e_tick e)) _ _ Hinv1 eq_refl Hc) as (Hinv2 & Hf & Ha & Hr).
  split_and!; [done| |done|done]. eapply emit_frame_trans; [|exact Hf]. apply emit_frame_same; try done. simpl. lia.
Qed.

(** The head of the heap, when there is one, is a deadline some delivery waits for. *)
Definition fresh_heap e : Prop :=
  match e_retries e with
  | [] => True
  | (dl, d) :: _ => exists a, e_active e !! d = Some a /\ lc_state (av_lifecycle a) = WaitingRetry dl
  end.

Lemma discard_loop_retries heap k e : discard_loop heap (set_retries k e) = discard_loop heap e.
Proof.
  induction heap as [|[dl d] heap IH]; [done|]. simpl.
  destruct (match e_active e !! d with Some _ => _ | None => _ end); [done|exact IH].
Qed.

Lemma discard_loop_inv heap : forall e,
  engine_inv None None e -> e_retries e = heap ->
  exists rest, discard_loop heap e = set_retries rest e /\ engine_inv None None (set_retries rest e) /\
    fresh_heap (set_retries rest e).
Proof.
  induction heap as [|[dl d] heap IH]; intros e Hinv Hr.
  { exists []. split_and!; try done. replace (set_retries [] e) with e; [done|]. destruct e; simpl in *; by subst. }
  cbn [discard_loop].
  assert (forall b : bool, b = (match e_active e !! d with
    | Some active => bool_decide (lc_next_deadline (av_lifecycle active) = Some dl) | None => false end) ->
    if b then exists a, e_active e !! d = Some a /\ lc_state (av_lifecycle a) = WaitingRetry dl
    else forall a, e_active e !! d = Some a -> lc_state (av_lifecycle a) <> WaitingRetry dl) as Hcase.
  { intros b ->. destruct (e_active e !! d) as [a|]; [|done]. case_bool_decide as Hb; rewrite next_deadline_waiting in Hb.
    - eauto.
    - by intros ? [= <-]. }
  specialize (Hcase _ eq_refl). destruct (match e_active e !! d with Some _ => _ | None => _ end).
  - exists ((dl, d) :: heap). assert (set_retries ((dl, d) :: heap) e = e) as -> by (destruct e; simpl in *; by subst).
    split_and!; try done. unfold fresh_heap. by rewrite Hr.
  - pose proof (drop_retry_inv dl d heap e Hinv Hr Hcase) as Hinv1.
    destruct (IH (set_retries heap e) Hinv1 eq_refl) as (rest & Heq & Hinv2 & Hfr). exists rest. split; [|done].
    by rewrite <-(discard_loop_retries heap heap e).
Qed.

Lemma discard_stale_retries_inv e :
  engine_inv None None e ->
  exists rest, discard_stale_retries e = set_retries rest e /\ engine_inv None None (set_retries rest e) /\
    fresh_heap (set_retries rest e).
Proof. intros Hinv. by apply discard_loop_inv. Qed.

(** ** Admission *)

(** What the engine needs of a registry operation: the registry stays well formed and
    a draining route stays there, disabled. *)
Definition draining_ok (g : RouteRegistry) (drains : gmap RouteId RouteDrain) : Prop :=
  forall r dr, drains !! r = Some dr ->
    exists entry, reg_routes g !! r = Some entry /\ route_enabled (entry_route entry) = false.

Lemma registry_inv e g n :
  engine_inv None None e -> reg_wf g -> draining_ok g (e_drains e) -> (e_tick e <= n)%nat ->
  engine_inv None None (set_registry g (set_tick n e)).
Proof. intros Hinv Hg Hd Hn. pose proof (tick_inv e n Hinv Hn) as []. by split. Qed.

Lemma admit_keeps id d p m now g drains :
  reg_wf g -> draining_ok g drains ->
  reg_wf (RouteRegistry_admit parse_json id d p m now g).2 /\ draining_ok (RouteRegistry_admit parse_json id d p m now g).2 drains.
Proof.
  intros Hg Hd. split.
  - pose proof (reg_apply_wf parse_json now (RegAdmit id d p m now) g Hg) as Hw. simpl in Hw.
    destruct (RouteRegistry_admit parse_json id d p m now g). apply Hw. lia.
  - assert (forall en b global, reg_routes g !! id = Some en ->
      draining_ok (mk_registry (reg_limit g) global (<[id := mk_entry (entry_route en) b]> (reg_routes g))) drains) as Hst.
    { intros en b global He r dr Hdr. simpl. destruct (Hd r dr Hdr) as (entry & Hentry & Hen).
      destruct (decide (r = id)) as [-> |Hne].
      - rewrite lookup_insert_eq. eexists. split; [done|]. simpl. congruence.
      - rewrite lookup_insert_ne by done. eauto. }
    pose proof (admit_cases parse_json id d p m now g Hg) as Hc. destruct (RouteRegistry_admit parse_json id d p m now g) as [[a|err] g'].
    + destruct Hc as (e & He & _ & _ & Hg'). destruct m; [|by subst]. destruct Hg' as (_ & _ & ->). by apply Hst.
    + destruct Hc as [->|(e & He & ->)]; [done|]. by apply Hst.
Qed.

(** An id the log accepted as new belongs to no delivery in the engine. *)
Lemma new_delivery e m d :
  engine_inv None None e -> prunes (view e) m -> m !! d = None ->
  e_active e !! d = None /\ e_active_calls e !! d = None.
Proof.
  intros Hinv Hp Hm. split.
  - destruct (e_active e !! d) as [a|] eqn:Ha; [|done].
    destruct (inv_active _ _ _ Hinv d a Ha) as (_ & _ & _ & r & Hr & Hs & _).
    by rewrite (prunes_pending _ _ _ _ Hp Hr Hs) in Hm.
  - destruct (e_active_calls e !! d) as [a|] eqn:Ha; [|done].
    destruct (inv_calls _ _ _ Hinv d a Ha) as (_ & _ & _ & r & Hr & Hs & _).
    by rewrite (prunes_pending _ _ _ _ Hp Hr Hs) in Hm.
Qed.

(** Accepting [d] keeps the other records, except settled ones the log pruned. *)
Lemma view_insert e log m d x :
  prunes (view e) m -> log_view log = <[d := x]> m ->
  forall d', d' <> d -> log_view log !! d' = view e !! d' \/
    log_view log !! d' = None /\ exists r, view e !! d' = Some r /\ rec_terminal r = true.
Proof.
  intros Hp Hv d' Hne. rewrite Hv, lookup_insert_ne by done. destruct (m !! d') as [r|] eqn:Hm.
  - left. symmetry. by eapply prunes_lookup.
  - destruct (view e !! d') as [r|] eqn:Hr; [right|by left]. split; [done|]. exists r. split; [done|].
    unfold rec_terminal. destruct (rec_state r) eqn:Hs; try done. by rewrite (prunes_pending _ _ _ _ Hp Hr Hs) in Hm.
Qed.

Lemma not_degraded_overrides e d : engine_inv None None e -> e_degraded e = false -> e_overrides e !! d = None.
Proof.
  intros Hinv Hdeg. destruct (e_overrides e !! d) as [r|] eqn:Hr; [|done].
  destruct (inv_overrides _ _ _ Hinv d r Hr) as (_ & ? & _). congruence.
Qed.

Lemma enqueue_ready_cong r d e e1 ready routes :
  enqueue_ready r d e = set_ready_routes routes (set_ready ready e) ->
  e_ready e1 = e_ready e -> e_ready_routes e1 = e_ready_routes e ->
  enqueue_ready r d e1 = set_ready_routes routes (set_ready ready e1).
Proof.
  intros Heq Hr Hrr. pose proof (f_equal e_ready Heq) as H1. pose proof (f_equal e_ready_routes Heq) as H2.
  unfold enqueue_ready in *. rewrite Hr. destruct (bool_decide (default [] (e_ready e !! r) = [])); simpl in *; subst.
  - by rewrite Hr, Hrr.
  - destruct e1; simpl in *; by subst.
Qed.

Lemma accept_emit_inv time ad e log m :
  engine_inv None None e -> e_degraded e = false -> prunes (view e) m -> m !! ad_delivery ad = None ->
  log_view log = <[ad_delivery ad := fresh_record (AdmittedDelivery_intent ad (unix_ms time))]> m ->
  check_pending_capacity (ad_route ad) (payload_bytes ad) e = Ok tt -> retry_wf (ad_retry ad) ->
  engine_inv None None (accept_emit time ad (set_log log e)).
Proof.
  intros Hinv Hdeg Hp Hm Hv Hcap Hretry. destruct (new_delivery e m _ Hinv Hp Hm) as [Hna Hnc].
  pose proof (not_degraded_overrides e (ad_delivery ad) Hinv Hdeg) as Hov.
  pose proof (accept_emit_accounts time ad (set_log log e) (inv_accounts _ _ _ Hinv) Hna Hcap) as Hacc.
  destruct (enqueue_ready_spec (ad_route ad) (ad_delivery ad) e Hinv) as (ready & routes & Heq & Hready & Hin & Hmono & _).
  unfold accept_emit in *.
  match goal with |- context [enqueue_ready _ _ ?x] =>
    rewrite (enqueue_ready_cong _ _ e x ready routes Heq eq_refl eq_refl) in Hacc |- * end.
  set (d := ad_delivery ad) in *. set (a := mk_active _ ad _ None) in *.
  eapply (changes_inv None None _ d); [done|by left|by left| |].
  - destruct Hinv. split; try done; simpl.
    + intros d' Hne. by rewrite lookup_insert_ne.
    + by eapply view_insert.
  - split; simpl; [|by rewrite Hnc|by rewrite lookup_insert_eq; eauto|by rewrite Hov].
    rewrite lookup_insert_eq. intros ? [= <-]. split_and!; try done.
    + split_and!; [done..|by apply DeliveryLifecycle_new_wf|].
      eexists. simpl. by rewrite Hv, lookup_insert_eq.
    + intros _. split; [done|]. left. exact Hin.
Qed.

(** Emitting leaves the calls, the drains and the outbox alone. *)
Lemma accept_emit_frame time ad e log :
  let e' := accept_emit time ad (set_log log e) in
  e_active_calls e' = e_active_calls e /\ e_registry e' = e_registry e /\ e_drains e' = e_drains e /\
  e_outbox e' = e_outbox e /\
  (forall d a, e_active e' !! d = Some a ->
     e_active e !! d = Some a \/ d = ad_delivery ad /\ ad_route (av_parts a) = ad_route ad /\ av_abort a = None) /\
  (forall r d, d ∈ queue e' r -> d ∈ queue e r \/ r = ad_route ad /\ d = ad_delivery ad).
Proof.
  unfold accept_emit, enqueue_ready, queue. simpl. case_bool_decide as Hq; simpl; split_and!; try done.
  1,3: intros d a; destruct (decide (d = ad_delivery ad)) as [-> |Hne];
    [rewrite lookup_insert_eq; intros [= <-]; auto|rewrite lookup_insert_ne by done; auto].
  all: intros r d; destruct (decide (r = ad_route ad)) as [-> |Hne];
    [rewrite lookup_insert_eq; simpl; rewrite elem_of_app, list_elem_of_singleton; intros [?|?]; auto
    |rewrite lookup_insert_ne by done; auto].
Qed.

(** What [admit_emit] may change: the delivery it accepts is new and waits in its queue. *)
Definition emit_post (route : RouteId) (d : DeliveryId) e e' : Prop :=
  engine_inv None None e' /\ e_active_calls e' = e_active_calls e /\ e_drains e' = e_drains e /\
  e_outbox e' = e_outbox e /\
  (forall d' a, e_active e' !! d' = Some a ->
     e_active e !! d' = Some a \/ d' = d /\ ad_route (av_parts a) = route /\ av_abort a = None) /\
  (forall r d', d' ∈ queue e' r -> d' ∈ queue e r \/ r = route /\ d' = d).

(** A refused insertion changes nothing but what the log pruned. *)
Lemma pruned_inv e log :
  engine_inv None None e -> prunes (view e) (log_view log) -> engine_inv None None (set_log log e).
Proof.
  intros [] Hp. assert (forall d parts at_ n, logged e d parts at_ n -> logged (set_log log e) d parts at_ n) as Hlogged.
  { intros d parts at_ n (r & Hr & Hs & Hrest). exists r. split; [|done]. by eapply prunes_pending. }
  split; try done; simpl.
  - intros d a Ha. destruct (inv_active d a Ha) as (? & ? & ? & ?). split_and!; auto.
  - intros d a Ha. destruct (inv_calls d a Ha) as (? & ? & ? & ?). split_and!; auto.
  - intros d r Hr. apply inv_pending. by eapply prunes_lookup.
Qed.

Lemma Engine_admit_emit_inv route d payload e :
  engine_inv None None e -> emit_post route d e (Engine_admit_emit route d payload e).2.
Proof.
  intros Hinv. unfold Engine_admit_emit.
  assert (forall e', engine_inv None None e' -> e_active_calls e' = e_active_calls e -> e_drains e' = e_drains e ->
    e_outbox e' = e_outbox e -> e_active e' = e_active e -> e_ready e' = e_ready e -> emit_post route d e e') as Hsame.
  { intros e' ? ? ? ? Ha Hq. split_and!; try done; [rewrite Ha; auto|unfold queue; rewrite Hq; auto]. }
  destruct (e_degraded e) eqn:Hdeg; [by apply Hsame|].
  cbn [RuntimeClock_transition_time]. set (time := mk_time _ _). unfold admit_emit.
  destruct (admit_keeps route d payload Emit (monotonic time) (e_registry e) (e_drains e)
    (inv_registry _ _ _ Hinv) (inv_drains _ _ _ Hinv)) as [Hg Hd].
  pose proof (admit_cases parse_json route d payload Emit (monotonic time) (e_registry e) (inv_registry _ _ _ Hinv)) as Hc.
  pose proof (inv_registry _ _ _ Hinv) as (_ & _ & Hroutes).
  change (e_registry (set_tick (S (e_tick e)) e)) with (e_registry e).
  destruct (RouteRegistry_admit parse_json route d payload Emit (monotonic time) (e_registry e)) as [r g]. simpl in Hg, Hd.
  assert (engine_inv None None (set_registry g (set_tick (S (e_tick e)) e))) as Hinv1 by (apply registry_inv; [done..|lia]).
  set (e1 := set_registry g (set_tick (S (e_tick e)) e)) in *.
  destruct r as [ad|err]; [|by apply Hsame]. destruct Hc as (entry & Hentry & _ & Had & _).
  assert (ad_route ad = route /\ ad_delivery ad = d /\ retry_wf (ad_retry ad)) as (<- & <- & Hretry).
  { rewrite Had. simpl. split_and!; try done. by apply (Hroutes route). }
  destruct (check_pending_capacity _ _ e1) as [[]|err] eqn:Hcap; [|by apply Hsame].
  unfold Engine_persist. destruct (insert_intent_spec (AdmittedDelivery_intent ad (unix_ms time)) (e_log e1)) as (m & Hp & Hi).
  destruct (insert_intent _ (e_log e1)) as [[[]|err] log].
  - destruct Hi as [Hm Hv]. destruct (accept_emit_frame time ad e1 log) as (F1 & F2 & F3 & F4 & F5 & F6).
    split_and!; [by eapply accept_emit_inv|done..].
  - apply Hsame; try done. apply pruned_inv; [done|]. by rewrite Hi.
Qed.

(** *** Calls *)

Lemma insert_call_inv time ad c e log m :
  engine_inv None None e -> e_degraded e = false -> prunes (view e) m -> m !! ad_delivery ad = None ->
  log_view log = <[ad_delivery ad := fresh_record (AdmittedDelivery_intent ad (unix_ms time))]> m ->
  Z.of_nat (size (e_active_calls e)) < lim_call_in_flight limits -> retry_wf (ad_retry ad) ->
  let a := mk_active_call (unix_ms time) ad
    (DeliveryLifecycle_new (ad_route ad) (ad_delivery ad) (ad_retry ad)) None c in
  engine_inv None (Some (ad_delivery ad))
    (entry_usage usage_more_call (ad_route ad)
       (set_active_calls (<[ad_delivery ad := a]> (e_active_calls e)) (set_log log e))).
Proof.
  intros Hinv Hdeg Hp Hm Hv Hcap Hretry a. destruct (new_delivery e m _ Hinv Hp Hm) as [Hna Hnc].
  pose proof (not_degraded_overrides e (ad_delivery ad) Hinv Hdeg) as Hov.
  pose proof (insert_call_accounts (ad_delivery ad) a (set_log log e) (inv_accounts _ _ _ Hinv) Hnc eq_refl Hcap) as Hacc.
  set (d := ad_delivery ad) in *. eapply (changes_inv None None _ d); [done|by left|by right| |].
  - destruct Hinv. split; try done; simpl.
    + intros d' Hne. by rewrite lookup_insert_ne.
    + by eapply view_insert.
  - split; simpl; [by rewrite Hna| |by rewrite lookup_insert_eq; eauto|by rewrite Hov].
    rewrite lookup_insert_eq. intros ? [= <-]. split_and!; try done.
    + split_and!; [done..|by apply DeliveryLifecycle_new_wf|].
      eexists. simpl. by rewrite Hv, lookup_insert_eq.
Qed.

(** The deliveries and their queues stay as they are. *)
Definition still e e' : Prop := e_active e' = e_active e /\ e_ready e' = e_ready e.

(** What answering a command leaves alone, and that it owes or sent one more reply. *)
Definition answers (c : Reply) e e' : Prop := engine_inv None None e' /\ ledger e' ≡ₚ c :: ledger e.

Lemma accept_call_inv time ad c e log m :
  engine_inv None None e -> e_degraded e = false -> prunes (view e) m -> m !! ad_delivery ad = None ->
  log_view log = <[ad_delivery ad := fresh_record (AdmittedDelivery_intent ad (unix_ms time))]> m ->
  Z.of_nat (size (e_active_calls e)) < lim_call_in_flight limits -> retry_wf (ad_retry ad) ->
  answers c e (accept_call time ad c (set_log log e)) /\ still e (accept_call time ad c (set_log log e)).
Proof.
  intros Hinv Hdeg Hp Hm Hv Hcap Hretry. destruct (new_delivery e m _ Hinv Hp Hm) as [_ Hnc].
  pose proof (insert_call_inv time ad c e log m Hinv Hdeg Hp Hm Hv Hcap Hretry) as Hinv1. cbv zeta in Hinv1.
  unfold accept_call. simpl e_active_calls. set (a := mk_active_call _ _ _ _ _) in *.
  set (e1 := entry_usage _ _ _) in *.
  assert (e_active_calls e1 !! ad_delivery ad = Some a) as Ha by apply lookup_insert_eq.
  destruct (start_call_inv _ a e1 Hinv1 Ha eq_refl) as (Hinv2 & Hact & _ & _ & Hready & _ & Hl).
  split; [split; [done|]|by split; [rewrite Hact|rewrite Hready]]. rewrite Hl. unfold ledger. simpl. rewrite map_to_list_insert by done. simpl.
  by rewrite !app_assoc, <-Permutation_middle.
Qed.

Lemma reply_ledger c r e : ledger (reply c r e) ≡ₚ c :: ledger e.
Proof.
  unfold ledger. simpl. rewrite fmap_app, <-app_assoc. symmetry. apply Permutation_middle.
Qed.

Lemma reply_inv lost free c r e : engine_inv lost free e -> engine_inv lost free (reply c r e).
Proof. intros []. by split. Qed.

Lemma reply_answers c r e e1 : engine_inv None None e1 -> ledger e1 ≡ₚ ledger e -> answers c e (reply c r e1).
Proof. intros Hinv Hl. split; [by apply reply_inv|]. by rewrite reply_ledger, Hl. Qed.

Lemma Engine_admit_call_inv route d payload c e :
  engine_inv None None e ->
  answers c e (Engine_admit_call route d payload c e) /\ still e (Engine_admit_call route d payload c e).
Proof.
  intros Hinv. unfold Engine_admit_call, prepare_call.
  assert (forall r e1, engine_inv None None e1 -> ledger e1 = ledger e -> still e e1 ->
    answers c e (reply c r e1) /\ still e (reply c r e1)) as Hreply.
  { intros r e1 Hi Hl Hst. split; [by apply reply_answers; [|rewrite Hl]|exact Hst]. }
  destruct (e_degraded e) eqn:Hdeg; [by apply Hreply|].
  destruct (validate_call_route route (e_registry e)); [|by apply Hreply].
  destruct (Z.leb_spec (lim_call_in_flight limits) (Z.of_nat (size (e_active_calls e)))) as [|Hlt]; [by apply Hreply|].
  cbn [RuntimeClock_transition_time]. set (time := mk_time _ _). unfold admit_call.
  destruct (admit_keeps route d payload Call (monotonic time) (e_registry e) (e_drains e)
    (inv_registry _ _ _ Hinv) (inv_drains _ _ _ Hinv)) as [Hg Hd].
  pose proof (admit_cases parse_json route d payload Call (monotonic time) (e_registry e) (inv_registry _ _ _ Hinv)) as Hc.
  change (e_registry (set_tick (S (e_tick e)) e)) with (e_registry e).
  destruct (RouteRegistry_admit parse_json route d payload Call (monotonic time) (e_registry e)) as [r g]. simpl in Hg, Hd.
  assert (engine_inv None None (set_registry g (set_tick (S (e_tick e)) e))) as Hinv1 by (apply registry_inv; [done..|lia]).
  set (e1 := set_registry g (set_tick (S (e_tick e)) e)) in *.
  destruct r as [ad|err]; [|by apply Hreply]. destruct Hc as (entry & Hentry & _ & Had & _).
  assert (retry_wf (ad_retry ad)) as Hretry by (rewrite Had; apply without_retries_wf).
  unfold Engine_persist. destruct (insert_intent_spec (AdmittedDelivery_intent ad (unix_ms time)) (e_log e1)) as (m & Hp & Hi).
  destruct (insert_intent _ (e_log e1)) as [[[]|err] log].
  - destruct Hi as [Hm Hv]. exact (accept_call_inv time ad c e1 log m Hinv1 Hdeg Hp Hm Hv Hlt Hretry).
  - apply Hreply; [|done|done]. apply pruned_inv; [done|]. by rewrite Hi.
Qed.

(** ** Commands *)

Lemma set_enabled_keeps id b g drains :
  reg_wf g -> draining_ok g drains -> (b = true -> drains !! id = None) ->
  reg_wf (RouteRegistry_set_enabled id b g).2 /\ draining_ok (RouteRegistry_set_enabled id b g).2 drains.
Proof.
  intros Hg Hd Hb. split; [by apply (reg_apply_wf parse_json 0 (RegSetEnabled id b))|].
  unfold RouteRegistry_set_enabled. destruct (reg_routes g !! id) as [en|] eqn:Hen; [|done].
  intros r dr Hdr. simpl. destruct (Hd r dr Hdr) as (entry & Hentry & Hdis).
  destruct (decide (r = id)) as [-> |Hne]; [|rewrite lookup_insert_ne by done; eauto].
  rewrite lookup_insert_eq. eexists. split; [done|]. simpl. destruct b; [|done]. rewrite Hb in Hdr; done.
Qed.

Lemma unregister_keeps id g drains :
  reg_wf g -> draining_ok g drains -> drains !! id = None ->
  reg_wf (RouteRegistry_unregister id g).2 /\ draining_ok (RouteRegistry_unregister id g).2 drains.
Proof.
  intros Hg Hd Hid. split; [by apply (reg_apply_wf parse_json 0 (RegUnregister id))|].
  intros r dr Hdr. simpl. rewrite lookup_delete_ne by congruence. by eapply Hd.
Qed.

(** Routes are registered from validated parts. *)
Definition command_ok (cmd : Command) : Prop :=
  match cmd with
  | CmdRegister route _ => admission_wf (route_admission route) /\ retry_wf (route_retry route)
  | _ => True
  end.

Lemma register_keeps r g drains :
  reg_wf g -> draining_ok g drains -> admission_wf (route_admission r) -> retry_wf (route_retry r) ->
  reg_wf (RouteRegistry_register r g).2 /\ draining_ok (RouteRegistry_register r g).2 drains.
Proof.
  intros Hg Hd Ha Hr. split; [by apply (reg_apply_wf parse_json 0 (RegRegister r))|].
  unfold RouteRegistry_register. destruct (reg_routes g !! route_id r) eqn:Hen; [done|].
  destruct (_ <=? _); [done|]. destruct (_ <? _); [done|].
  intros id dr Hdr. simpl. destruct (Hd id dr Hdr) as (entry & Hentry & Hdis).
  rewrite lookup_insert_ne by congruence. eauto.
Qed.

Lemma set_registry_inv e g :
  engine_inv None None e -> reg_wf g /\ draining_ok g (e_drains e) -> engine_inv None None (set_registry g e).
Proof. intros [] [Hg Hd]. by split. Qed.

Lemma set_drains_inv e drains :
  engine_inv None None e -> draining_ok (e_registry e) drains -> engine_inv None None (set_drains drains e).
Proof. intros [] Hd. by split. Qed.

Lemma begin_drain_inv route remove c e :
  engine_inv None None e -> answers c e (begin_drain route remove c e).
Proof.
  intros Hinv. unfold begin_drain. destruct (e_drains e !! route) as [dr|] eqn:Hdr; [by apply reply_answers|].
  pose proof (set_enabled_keeps route false (e_registry e) (e_drains e) (inv_registry _ _ _ Hinv) (inv_drains _ _ _ Hinv)) as Hk.
  assert (forall en, (RouteRegistry_set_enabled route false (e_registry e)).1 = Ok en ->
    exists entry, reg_routes (RouteRegistry_set_enabled route false (e_registry e)).2 !! route = Some entry /\
      route_enabled (entry_route entry) = false) as Hen.
  { intros en. unfold RouteRegistry_set_enabled. destruct (reg_routes (e_registry e) !! route); [|done]. intros _.
    eexists. simpl. by rewrite lookup_insert_eq. }
  destruct (RouteRegistry_set_enabled route false (e_registry e)) as [r g]. simpl in *.
  pose proof (set_registry_inv e g Hinv (Hk ltac:(done))) as Hinv1. destruct Hk as [Hg Hd]; [done|].
  destruct r as [[]|err]; [|by apply reply_answers].
  destruct (route_idle (set_registry g e) route) eqn:Hidle.
  - apply reply_answers; [|by destruct remove]. destruct remove; [|done]. by apply set_registry_inv, unregister_keeps.
  - split.
    + apply set_drains_inv; [apply tick_inv; [done|simpl; lia]|]. intros r' dr'. simpl.
      destruct (decide (r' = route)) as [-> |Hne]; [by intros; eapply Hen|]. rewrite lookup_insert_ne by done. apply Hd.
    + unfold ledger. simpl. rewrite map_to_list_insert by done. symmetry. apply Permutation_middle.
Qed.

Lemma delivery_status_inv d e :
  engine_inv None None e -> exists log, (delivery_status d e).2 = set_log log e /\ engine_inv None None (set_log log e).
Proof.
  intros Hinv. unfold delivery_status. destruct (e_overrides e !! d) as [r|].
  - exists (e_log e). simpl. replace (set_log (e_log e) e) with e by (by destruct e). done.
  - destruct (log_delivery_spec d (e_log e)) as [Hv _]. destruct (log_delivery d (e_log e)) as [r log]. simpl in *.
    exists log. split; [done|]. apply pruned_inv; [done|]. rewrite Hv. apply prunes_refl.
Qed.

Definition command_reply (cmd : Command) : Reply :=
  match cmd with
  | CmdRegister _ c | CmdEnable _ c | CmdDrain _ _ c | CmdRoutes c | CmdEmit _ _ _ c | CmdCall _ _ _ c
  | CmdDelivery _ c => c
  end.

(** Every command keeps the invariant, and its reply is sent or owed exactly once. *)
Lemma handle_command_inv cmd e :
  engine_inv None None e -> command_ok cmd -> answers (command_reply cmd) e (handle_command cmd e).
Proof.
  intros Hinv Hok. pose proof (inv_registry _ _ _ Hinv) as Hg. pose proof (inv_drains _ _ _ Hinv) as Hd.
  destruct cmd as [r c|r c|r remove c|c|r d p c|r d p c|d c]; simpl in *.
  - destruct Hok as [Ha Hr]. pose proof (register_keeps r _ _ Hg Hd Ha Hr) as Hk.
    destruct (RouteRegistry_register r (e_registry e)) as [res g]. apply reply_answers; [|done].
    by apply set_registry_inv.
  - destruct (e_drains e !! r) eqn:Hdr; [by apply reply_answers|].
    pose proof (set_enabled_keeps r true _ _ Hg Hd (fun _ => Hdr)) as Hk.
    destruct (RouteRegistry_set_enabled r true (e_registry e)) as [res g]. apply reply_answers; [|done].
    by apply set_registry_inv.
  - by apply begin_drain_inv.
  - by apply reply_answers.
  - destruct (Engine_admit_emit_inv r d p e Hinv) as (Hinv1 & Hc & Hdr & Ho & _).
    destruct (Engine_admit_emit r d p e) as [res e1]. simpl in *. apply reply_answers; [done|].
    unfold ledger. by rewrite Hc, Hdr, Ho.
  - by apply Engine_admit_call_inv.
  - destruct (delivery_status_inv d e Hinv) as (log & Heq & Hinv1).
    destruct (delivery_status d e) as [res e1]. simpl in Heq. subst e1. by apply reply_answers.
Qed.

Lemma reject_command_answers cmd e :
  engine_inv None None e -> answers (command_reply cmd) e (reject_command cmd e).
Proof. intros Hinv. destruct cmd; by apply reply_answers. Qed.

Lemma reject_pending_inv cmds : forall e,
  engine_inv None None e ->
  engine_inv None None (reject_pending_commands cmds e) /\
  ledger (reject_pending_commands cmds e) ≡ₚ (command_reply <$> cmds) ++ ledger e /\
  e_active (reject_pending_commands cmds e) = e_active e /\
  e_active_calls (reject_pending_commands cmds e) = e_active_calls e /\
  e_drains (reject_pending_commands cmds e) = e_drains e /\ e_ready (reject_pending_commands cmds e) = e_ready e.
Proof.
  induction cmds as [|cmd cmds IH]; intros e Hinv; [done|]. unfold reject_pending_commands. simpl.
  destruct (reject_command_answers cmd e Hinv) as [Hinv1 Hl1].
  destruct (IH (reject_command cmd e) Hinv1) as (Hinv2 & Hl2 & Ha & Hc & Hd & Hr). unfold reject_pending_commands in *.
  split_and!; [done| |by rewrite Ha; destruct cmd|by rewrite Hc; destruct cmd|by rewrite Hd; destruct cmd|by rewrite Hr; destruct cmd].
  rewrite Hl2, Hl1. by rewrite <-Permutation_middle.
Qed.

(** ** Drains *)

(** Queues, usage and the clock stay as they are. *)
Definition same_load e e' : Prop :=
  e_usage e' = e_usage e /\ e_tick e' = e_tick e /\ e_ready e' = e_ready e /\
  e_ready_routes e' = e_ready_routes e /\ e_global_in_flight e' = e_global_in_flight e.

Lemma same_load_trans e1 e2 e3 : same_load e1 e2 -> same_load e2 e3 -> same_load e1 e3.
Proof. unfold same_load. intros (-> & -> & -> & -> & ->) (-> & -> & -> & -> & ->). done. Qed.

Lemma complete_drain_inv e route :
  engine_inv None None e ->
  engine_inv None None (complete_drain e route) /\ ledger (complete_drain e route) ≡ₚ ledger e /\
  e_active (complete_drain e route) = e_active e /\ e_active_calls (complete_drain e route) = e_active_calls e /\
  e_drains (complete_drain e route) = delete route (e_drains e) /\ same_load e (complete_drain e route) /\
  (forall dr, e_drains e !! route = Some dr ->
     e_outbox (complete_drain e route) = e_outbox e ++ [(dr_reply dr, RespUnit (Ok tt))]).
Proof.
  intros Hinv. unfold complete_drain. destruct (e_drains e !! route) as [dr|] eqn:Hdr.
  2:{ rewrite delete_id by done. split_and!; done. }
  assert (engine_inv None None (set_drains (delete route (e_drains e)) e)) as Hinv1.
  { apply set_drains_inv; [done|]. intros r dr' [_ Hr]%lookup_delete_Some. by apply (inv_drains _ _ _ Hinv r dr'). }
  split_and!; [| |by destruct (dr_remove dr)..|by destruct (dr_remove dr)|intros ? [= <-]; by destruct (dr_remove dr)].
  - apply reply_inv. destruct (dr_remove dr); [|done]. apply set_registry_inv; [done|].
    apply unregister_keeps; [apply Hinv1|exact (inv_drains _ _ _ Hinv1)|apply lookup_delete_eq].
  - rewrite reply_ledger. unfold ledger. rewrite <-(map_to_list_delete (e_drains e) route dr) by done. simpl.
    rewrite <-Permutation_middle. by destruct (dr_remove dr).
Qed.

Lemma complete_drains_inv rs : forall e,
  engine_inv None None e ->
  let e' := foldl complete_drain e rs in
  engine_inv None None e' /\ ledger e' ≡ₚ ledger e /\ e_active e' = e_active e /\
  e_active_calls e' = e_active_calls e /\ same_load e e' /\
  e_outbox e `prefix_of` e_outbox e' /\
  (forall r, e_drains e' !! r = if decide (r ∈ rs) then None else e_drains e !! r) /\
  (forall r dr, r ∈ rs -> e_drains e !! r = Some dr -> (dr_reply dr, RespUnit (Ok tt)) ∈ e_outbox e').
Proof.
  induction rs as [|r rs IH]; intros e Hinv; simpl.
  { split_and!; try done; by intros r dr ?%elem_of_nil. }
  destruct (complete_drain_inv e r Hinv) as (Hinv1 & Hl1 & Ha1 & Hc1 & Hd1 & Hu1 & Ho1).
  destruct (IH _ Hinv1) as (Hinv2 & Hl2 & Ha2 & Hc2 & Hu2 & Hp2 & Hd2 & Ho2).
  assert (e_outbox e `prefix_of` e_outbox (complete_drain e r)) as Hp1.
  { destruct (e_drains e !! r) as [dr|] eqn:Hr; [rewrite (Ho1 dr eq_refl); by eexists|].
    unfold complete_drain. by rewrite Hr. }
  split_and!; [done|by rewrite Hl2|congruence|congruence|by eapply same_load_trans|by etrans| |].
  - intros r'. rewrite Hd2, Hd1. destruct (decide (r' = r)) as [-> |Hne].
    + rewrite lookup_delete_eq, (decide_True (P := r ∈ r :: rs)) by left. by case_decide.
    + rewrite lookup_delete_ne by done. repeat case_decide; set_solver.
  - intros r' dr Hin Hr'. destruct (decide (r' = r)) as [-> |Hne].
    + destruct Hp2 as [k Hk]. rewrite Hk, (Ho1 dr Hr'). set_solver.
    + apply (Ho2 r'); [set_solver|]. by rewrite Hd1, lookup_delete_ne.
Qed.

(** A route is idle exactly when no delivery and no call of it is left. *)
Lemma route_idle_spec e r :
  eaccounts e ->
  route_idle e r = true <->
  (forall d a, e_active e !! d = Some a -> ad_route (av_parts a) <> r) /\
  (forall d a, e_active_calls e !! d = Some a -> ad_route (cl_parts a) <> r).
Proof.
  intros Hacc. pose proof (acc_usage _ _ _ _ _ _ _ Hacc) as Hu. destruct (Hu r) as [Heq Hni]. unfold route_idle, usage_at in *.
  destruct (e_usage e !! r) as [u|] eqn:Hr; simpl in Heq.
  - rewrite (Hni u eq_refl). split; [done|]. intros [Ha Hc].
    assert (RouteUsage_is_idle u = true) as Hi; [|by rewrite Hni in Hi]. rewrite Heq. unfold RouteUsage_is_idle, actual_usage. simpl.
    assert (forall f, msum (av_on r f) (e_active e) = 0) as Hz.
    { intros f. rewrite <-(msum_zero (e_active e)). apply msum_ext. intros d a Hda. unfold av_on. case_decide; [|done].
      by destruct (Ha d a Hda). }
    rewrite !Hz. simpl. rewrite <-(msum_zero (e_active_calls e)). apply Z.eqb_eq. apply msum_ext. intros d a Hda.
    unfold cl_on. case_decide; [|done]. by destruct (Hc d a Hda).
  - split; [intros _|done]. split; intros d a Hda Hroute.
    + by rewrite (usage_some _ _ _ _ _ _ Hu Hda Hroute) in Hr.
    + by rewrite (usage_some_call _ _ _ _ _ _ Hu Hda Hroute) in Hr.
Qed.

Lemma complete_empty_drains_inv e :
  engine_inv None None e ->
  let e' := complete_empty_drains e in
  engine_inv None None e' /\ ledger e' ≡ₚ ledger e /\ e_active e' = e_active e /\
  e_active_calls e' = e_active_calls e /\ same_load e e' /\
  e_outbox e `prefix_of` e_outbox e' /\
  (forall r, e_drains e' !! r = if route_idle e r then None else e_drains e !! r) /\
  (forall r dr, route_idle e r = true -> e_drains e !! r = Some dr -> (dr_reply dr, RespUnit (Ok tt)) ∈ e_outbox e').
Proof.
  intros Hinv. unfold complete_empty_drains. set (rs := filter _ _).
  assert (forall r, r ∈ rs <-> route_idle e r = true /\ is_Some (e_drains e !! r)) as Hrs.
  { intros r. unfold rs. rewrite list_elem_of_filter, elem_of_btree_keys. by rewrite Is_true_true. }
  destruct (complete_drains_inv rs e Hinv) as (H1 & H2 & H3 & H4 & H5 & H7 & H8 & H9).
  split_and!; [done..| |].
  - intros r. rewrite H8. destruct (route_idle e r) eqn:Hi; case_decide as Hin; rewrite Hrs in Hin.
    + done.
    + destruct (e_drains e !! r); [|done]. exfalso. apply Hin. eauto.
    + destruct Hin; congruence.
    + done.
  - intros r dr Hi Hr. apply (H9 r); [|done]. rewrite Hrs. eauto.
Qed.

Lemma reject_drains_inv e :
  engine_inv None None e ->
  let e' := reject_drains_for_shutdown e in
  engine_inv None None e' /\ ledger e' ≡ₚ ledger e /\ e_active e' = e_active e /\
  e_active_calls e' = e_active_calls e /\ e_drains e' = ∅ /\ e_ready e' = e_ready e.
Proof.
  intros Hinv. unfold reject_drains_for_shutdown.
  assert (forall drs e1, engine_inv None None e1 ->
    let e' := foldl (fun e drain => reply (dr_reply drain) (RespUnit (Err RtStopped)) e) e1 drs in
    engine_inv None None e' /\ ledger e' ≡ₚ (dr_reply <$> drs) ++ ledger e1 /\ e_active e' = e_active e1 /\
    e_active_calls e' = e_active_calls e1 /\ e_drains e' = e_drains e1 /\ e_ready e' = e_ready e1) as Hfold.
  { induction drs as [|dr drs IH]; intros e1 Hi; [done|]. simpl.
    destruct (IH _ (reply_inv None None (dr_reply dr) (RespUnit (Err RtStopped)) e1 Hi)) as (I1 & I2 & I3 & I4 & I5 & I6).
    split_and!; try done. rewrite I2, reply_ledger. by rewrite <-Permutation_middle. }
  assert (engine_inv None None (set_drains ∅ e)) as Hinv1 by (by apply set_drains_inv).
  destruct (Hfold (btree_values (e_drains e)) _ Hinv1) as (I1 & I2 & I3 & I4 & I5 & I6). split_and!; try done.
  rewrite I2. unfold ledger, btree_values. simpl. rewrite btree_iter_perm, map_to_list_empty, <-list_fmap_compose. simpl.
  rewrite !app_assoc. apply Permutation_app_tail. apply Permutation_app_comm.
Qed.

(** ** Deadlines of drains and of shutdown *)

(** Deliveries and calls are only closed; every reply stays accounted for. *)
Record shrinks e e' : Prop := {
  sh_registry : e_registry e' = e_registry e;
  sh_drains : e_drains e' = e_drains e;
  sh_tick : (e_tick e <= e_tick e')%nat;
  sh_ledger : ledger e' ≡ₚ ledger e;
  sh_active : e_active e' ⊆ e_active e;
  sh_calls : e_active_calls e' ⊆ e_active_calls e;
  sh_queues : forall r d, d ∈ queue e' r ->
    d ∈ queue e r \/ exists a, e_active e !! d = Some a /\ ad_route (av_parts a) = r;
}.

Lemma shrinks_refl e : shrinks e e.
Proof. split; try done. auto. Qed.

Lemma shrinks_trans e1 e2 e3 : shrinks e1 e2 -> shrinks e2 e3 -> shrinks e1 e3.
Proof.
  intros [] []. split; try congruence; [lia|by etrans|by etrans|by etrans|].
  intros r d [Hd|(a & Ha & Hr)]%sh_queues1; [auto|]. right. exists a. split; [|done].
  by eapply map_subseteq_spec.
Qed.

#[local] Hint Resolve shrinks_refl : frames.

(** A reading of the clock. *)
Lemma shrinks_tick e n : (e_tick e <= n)%nat -> shrinks e (set_tick n e).
Proof. intros. split; try done. auto. Qed.

Lemma emit_frame_ledger e e' : emit_frame e e' -> ledger e' = ledger e.
Proof. intros (Hc & _ & Hd & Ho & _). unfold ledger. by rewrite Hc, Hd, Ho. Qed.

(** Closing the deliveries and then the calls that satisfy a predicate on their route. *)
Lemma close_both (P : RouteId -> Prop) `{!forall r, Decision (P r)} e ev ev' response :
  engine_inv None None e ->
  let e1 := foldl (fun e d => apply_terminal_event d ev e) e
    (filter (fun x => P (ad_route (av_parts x.2))) (btree_iter (e_active e))).*1 in
  let e2 := foldl (fun e d => apply_call_terminal_event d ev' response e) e1
    (filter (fun x => P (ad_route (cl_parts x.2))) (btree_iter (e_active_calls e1))).*1 in
  engine_inv None None e2 /\ shrinks e e2 /\
  (forall d a, e_active e2 !! d = Some a -> ~ P (ad_route (av_parts a))) /\
  (forall d a, e_active_calls e2 !! d = Some a -> ~ P (ad_route (cl_parts a))).
Proof.
  intros Hinv e1 e2.
  destruct (close_all None _ ((filter (fun x => P (ad_route (av_parts x.2))) (btree_iter (e_active e))).*1) e
    (close_event_one None ev) Hinv) as (Hinv1 & Hf1 & Hgone1 & Hrest1); [apply NoDup_filter_keys| |].
  { apply Forall_forall. intros d (a & Ha & _)%elem_of_filter_keys. eauto. }
  fold e1 in Hinv1, Hf1, Hgone1, Hrest1.
  destruct (call_close_all None _ ((filter (fun x => P (ad_route (cl_parts x.2))) (btree_iter (e_active_calls e1))).*1) e1
    (call_close_event_one None ev' response) Hinv1) as (Hinv2 & Hf2 & Hgone2 & Hrest2); [apply NoDup_filter_keys| |].
  { apply Forall_forall. intros d (a & Ha & _)%elem_of_filter_keys. eauto. }
  fold e2 in Hinv2, Hf2, Hgone2, Hrest2.
  assert (forall d a, e_active e1 !! d = Some a -> e_active e !! d = Some a /\ ~ P (ad_route (av_parts a))) as Hact.
  { intros d a Ha. destruct (decide (d ∈ (filter (fun x => P (ad_route (av_parts x.2))) (btree_iter (e_active e))).*1)) as [Hin|Hout].
    - rewrite Hgone1 in Ha by done. done.
    - rewrite Hrest1 in Ha by done. split; [done|]. intros HP. apply Hout, elem_of_filter_keys. eauto. }
  assert (forall d a, e_active_calls e2 !! d = Some a -> e_active_calls e1 !! d = Some a /\ ~ P (ad_route (cl_parts a))) as Hcall.
  { intros d a Ha. destruct (decide (d ∈ (filter (fun x => P (ad_route (cl_parts x.2))) (btree_iter (e_active_calls e1))).*1)) as [Hin|Hout].
    - rewrite Hgone2 in Ha by done. done.
    - rewrite Hrest2 in Ha by done. split; [done|]. intros HP. apply Hout, elem_of_filter_keys. eauto. }
  pose proof (emit_frame_ledger _ _ Hf1) as Hl1.
  destruct Hf1 as (C1 & R1 & D1 & O1 & T1 & _ & Q1), Hf2 as (A2 & R2 & D2 & Q2 & T2 & L2).
  split_and!; [done| |..].
  - split; try congruence; [lia|apply map_subseteq_spec; intros d a..|].
    + rewrite A2. intros [? _]%Hact. done.
    + rewrite <-C1. intros [? _]%Hcall. done.
    + intros r d. unfold queue. rewrite Q2. apply Q1.
  - intros d a. rewrite A2. intros [_ ?]%Hact. done.
  - intros d a [_ ?]%Hcall. done.
Qed.

Lemma expire_drain_inv e route :
  engine_inv None None e ->
  engine_inv None None (expire_drain e route) /\ shrinks e (expire_drain e route) /\
  (forall d a, e_active (expire_drain e route) !! d = Some a -> ad_route (av_parts a) <> route) /\
  (forall d a, e_active_calls (expire_drain e route) !! d = Some a -> ad_route (cl_parts a) <> route).
Proof.
  intros Hinv. exact (close_both (fun r => r = route) e EvCancel EvCancel (Err (RtCallFailed Cancelled)) Hinv).
Qed.

Lemma expire_drains_inv rs : forall e,
  engine_inv None None e ->
  let e' := foldl expire_drain e rs in
  engine_inv None None e' /\ shrinks e e' /\
  (forall d a, e_active e' !! d = Some a -> ad_route (av_parts a) ∉ rs) /\
  (forall d a, e_active_calls e' !! d = Some a -> ad_route (cl_parts a) ∉ rs).
Proof.
  induction rs as [|r rs IH]; intros e Hinv; simpl.
  { split_and!; [done|auto with frames|..]; intros d a _; apply not_elem_of_nil. }
  destruct (expire_drain_inv e r Hinv) as (Hinv1 & Hs1 & Ha1 & Hc1).
  destruct (IH _ Hinv1) as (Hinv2 & Hs2 & Ha2 & Hc2). split_and!; [done|by eapply shrinks_trans|..].
  - intros d a Hda. apply not_elem_of_cons. split; [|by eapply Ha2]. eapply Ha1, map_subseteq_spec; [apply Hs2|done].
  - intros d a Hda. apply not_elem_of_cons. split; [|by eapply Hc2]. eapply Hc1, map_subseteq_spec; [apply Hs2|done].
Qed.

(** After the drain deadlines were processed, every route whose deadline had passed is idle. *)
Lemma process_drain_deadlines_inv e :
  engine_inv None None e ->
  let e' := process_drain_deadlines e in
  engine_inv None None e' /\ shrinks e e' /\
  (forall r dr, e_drains e !! r = Some dr -> dr_deadline dr <= clock (e_tick e) -> route_idle e' r = true).
Proof.
  intros Hinv. unfold process_drain_deadlines, RuntimeClock_now.
  assert (engine_inv None None (set_tick (S (e_tick e)) e)) as Hinv1 by (apply tick_inv; [done|lia]).
  set (rs := (filter _ _).*1). destruct (expire_drains_inv rs _ Hinv1) as (Hinv2 & Hs & Ha & Hc).
  split_and!; [done|eapply shrinks_trans; [|exact Hs]; apply shrinks_tick; lia|].
  intros r dr Hr Hdl. assert (r ∈ rs) as Hin.
  { unfold rs. apply list_elem_of_fmap. exists (r, dr). split; [done|]. apply list_elem_of_filter.
    by rewrite elem_of_btree_iter. }
  apply route_idle_spec; [apply Hinv2|]. split; intros d a Hda Hroute; subst r; [by apply (Ha d a)|by apply (Hc d a)].
Qed.

Lemma expire_shutdown_inv e :
  engine_inv None None e ->
  let e' := expire_shutdown e in
  engine_inv None None e' /\ shrinks e e' /\ e_active e' = ∅ /\ e_active_calls e' = ∅.
Proof.
  intros Hinv. destruct (close_both (fun _ => True) e EvShutdownDeadline EvShutdownDeadline (Err RtStopped) Hinv)
    as (Hinv2 & Hs & Ha & Hc).
  assert (forall {V} (l : list (DeliveryId * V)), filter (fun _ => True) l = l) as Hfilter.
  { intros V l. induction l as [|x l IH]; [done|]. rewrite filter_cons_True by done. by rewrite IH. }
  rewrite Hfilter, Hfilter in Hinv2, Hs, Ha, Hc. split_and!; [exact Hinv2|exact Hs|..]; apply map_eq; intros d; rewrite lookup_empty.
  - apply eq_None_not_Some. intros [a Hda]. by destruct (Ha d a Hda).
  - apply eq_None_not_Some. intros [a Hda]. by destruct (Hc d a Hda).
Qed.

(** ** The loop *)

(** The invariant of [run]: the engine's own, the replies owed or sent for the commands
    received so far, and no drain once the runtime is stopping. *)
Record run_inv (received : list Reply) (s : RunState (L := L)) : Prop := {
  ri_engine : engine_inv None None (rn_engine s);
  ri_ledger : ledger (rn_engine s) ≡ₚ received;
  ri_drains : rn_stopping s = true -> e_drains (rn_engine s) = ∅;
  ri_shutdown : rn_stopping s = true <-> is_Some (rn_shutdown s);
}.

(** The engine at the head of the loop: what [select!] starts from. *)
Lemma loop_head_inv received s :
  run_inv received s ->
  let e := rn_engine s in let e' := rn_engine (loop_head s) in
  run_inv received (loop_head s) /\ work_conserving e' /\ fresh_heap e' /\
  e_active e' = e_active (dispatch_ready e) /\ e_active_calls e' = e_active_calls e /\ e_outbox e `prefix_of` e_outbox e' /\
  (e_tick e <= e_tick e')%nat /\ e_ready e' = e_ready (dispatch_ready e) /\
  (forall r dr, e_drains e' !! r = Some dr -> e_drains e !! r = Some dr) /\
  (forall r dr, route_idle (dispatch_ready e) r = true -> e_drains e !! r = Some dr ->
     e_drains e' !! r = None /\ (dr_reply dr, RespUnit (Ok tt)) ∈ e_outbox e').
Proof.
  intros [] e e'. destruct (dispatch_ready_inv e ri_engine0) as (Hinv1 & Hf1 & Hwc).
  destruct (complete_empty_drains_inv _ Hinv1) as (Hinv2 & Hl2 & Ha2 & Hc2 & Hload & Hp2 & Hd2 & Ho2).
  destruct (discard_stale_retries_inv _ Hinv2) as (rest & Heq & Hinv3 & Hfresh).
  assert (e' = set_retries rest (complete_empty_drains (dispatch_ready e))) as He' by exact Heq.
  pose proof (emit_frame_ledger _ _ Hf1) as Hl1. destruct Hf1 as (Hc1 & _ & Hd1 & Ho1 & Ht1 & _).
  destruct Hload as (L1 & L2 & L3 & L4 & L5).
  split_and!.
  - split; simpl; fold e; rewrite ?Heq; [done| | |exact ri_shutdown0].
    + transitivity (ledger (complete_empty_drains (dispatch_ready e))); [done|]. by rewrite Hl2, Hl1.
    + intros Hstop. apply map_eq. intros r. simpl. rewrite Hd2, Hd1. unfold e at 2. rewrite (ri_drains0 Hstop), lookup_empty.
      by destruct (route_idle _ r).
  - rewrite He'. unfold work_conserving, route_busy in *. simpl. by rewrite L1, L4, L5.
  - by rewrite He'.
  - by rewrite He'.
  - rewrite He'. simpl. by rewrite Hc2, Hc1.
  - rewrite He'. simpl. by rewrite <-Ho1.
  - rewrite He'. simpl. lia.
  - by rewrite He'.
  - intros r dr. rewrite He'. simpl. rewrite Hd2, Hd1. by destruct (route_idle _ r).
  - intros r dr Hi Hr. rewrite He'. simpl. rewrite Hd2, Hi. split; [done|]. apply (Ho2 r); [done|]. by rewrite Hd1.
Qed.

Definition event_ok (ev : LoopEvent) : Prop :=
  match ev with LoopCommand cmd => command_ok cmd | _ => True end.

(** The replies the host waits for after the event. *)
Definition event_replies (ev : LoopEvent) : list Reply :=
  match ev with
  | LoopShutdown pending => command_reply <$> pending
  | LoopCommand cmd => [command_reply cmd]
  | _ => []
  end.

Lemma on_engine_inv received received' f s :
  run_inv received s -> engine_inv None None (f (rn_engine s)) -> ledger (f (rn_engine s)) ≡ₚ received' ->
  (rn_stopping s = true -> e_drains (f (rn_engine s)) = ∅) -> run_inv received' (on_engine f s).
Proof. intros [] Hi Hl Hd. by split. Qed.

Lemma begin_shutdown_inv received s pending :
  run_inv received s ->
  run_inv (received ++ (command_reply <$> pending))
    (on_engine reject_drains_for_shutdown (on_engine (reject_pending_commands pending) (begin_shutdown s))).
Proof.
  intros [].
  assert (engine_inv None None (set_tick (S (e_tick (rn_engine s))) (rn_engine s))) as Hinv1 by (apply tick_inv; [done|lia]).
  destruct (reject_pending_inv pending _ Hinv1) as (Hinv2 & Hl2 & _).
  destruct (reject_drains_inv _ Hinv2) as (Hinv3 & Hl3 & _ & _ & Hd3 & _).
  split; simpl; [done| |done|by split; eauto]. rewrite Hl3, Hl2, Permutation_app_comm. apply Permutation_app_tail. exact ri_ledger0.
Qed.

Lemma deadline_inv received s s' :
  run_inv received s -> loop_event LoopDeadline s = Some s' ->
  exists e1, engine_inv None None e1 /\ shrinks (rn_engine s) e1 /\
    e1 = process_drain_deadlines (process_retry_deadlines (rn_engine s)) /\
    (forall r dr, e_drains (rn_engine s) !! r = Some dr -> dr_deadline dr <= clock (e_tick (rn_engine s)) ->
       route_idle e1 r = true) /\
    engine_inv None None (rn_engine s') /\ shrinks e1 (rn_engine s') /\
    rn_stopping s' = rn_stopping s /\ rn_shutdown s' = rn_shutdown s /\
    (forall deadline, rn_shutdown s = Some deadline -> deadline <= clock (e_tick (rn_engine s)) ->
       e_active (rn_engine s') = ∅ /\ e_active_calls (rn_engine s') = ∅).
Proof.
  intros [] Hev. cbn [loop_event] in Hev. destruct (Engine_next_deadline _ _); [|done].
  destruct (process_retry_deadlines_inv _ ri_engine0) as (Hinv1 & Hf1 & Ha1 & _).
  destruct (process_drain_deadlines_inv _ Hinv1) as (Hinv2 & Hs2 & Hidle).
  pose proof (emit_frame_ledger _ _ Hf1) as Hl1. destruct Hf1 as (C1 & R1 & D1 & O1 & T1 & _ & Q1).
  assert (shrinks (rn_engine s) (process_retry_deadlines (rn_engine s))) as Hs1 by (split; try done; [by rewrite Hl1|by rewrite Ha1|by rewrite C1]).
  pose proof (clock_mono _ _ T1) as Hc1.
  set (e1 := process_drain_deadlines (process_retry_deadlines (rn_engine s))) in *.
  exists e1. split; [done|]. split; [by eapply shrinks_trans|]. split; [done|]. split.
  { intros r dr Hr Hdl. apply (Hidle r dr); [by rewrite D1|lia]. }
  assert ((e_tick (rn_engine s) <= e_tick e1)%nat) as Ht by (pose proof (sh_tick _ _ Hs2); lia).
  pose proof (clock_mono _ _ Ht) as Hc2.
  cbn [on_engine rn_shutdown] in Hev. destruct (rn_shutdown s) as [dl|] eqn:Hdl.
  - injection Hev as <-. simpl. fold e1. assert (engine_inv None None (set_tick (S (e_tick e1)) e1)) as Hinv3 by (apply tick_inv; [done|lia]).
    assert (shrinks e1 (set_tick (S (e_tick e1)) e1)) as Hs3 by (apply shrinks_tick; lia).
    destruct (expire_shutdown_inv _ Hinv3) as (Hinv4 & Hs4 & Ha4 & Hc4).
    destruct (Z.leb_spec dl (clock (e_tick e1))).
    + split_and!; [done|by eapply shrinks_trans|done|done|]. intros ? [= <-] _. done.
    + split_and!; [done|done|done|done|]. intros ? [= <-]. lia.
  - apply (inj Some) in Hev as <-. split_and!; [done|auto with frames|done|done|done].
Qed.

Lemma loop_event_inv received ev s s' :
  run_inv received s -> event_ok ev -> loop_event ev s = Some s' ->
  run_inv (received ++ event_replies ev) s'.
Proof.
  intros Hri Hok Hev. pose proof (ri_engine _ _ Hri) as Hinv. pose proof (ri_ledger _ _ Hri) as Hl.
  destruct ev as [pending|cmd| |h o|h o|]; simpl event_replies.
  - cbn [loop_event] in Hev. destruct (rn_stopping s); [done|]. apply (inj Some) in Hev as <-. by apply begin_shutdown_inv.
  - cbn [loop_event] in Hev. destruct (rn_stopping s) eqn:Hst; [done|]. apply (inj Some) in Hev as <-.
    destruct (handle_command_inv cmd _ Hinv Hok) as [Hinv1 Hl1].
    eapply on_engine_inv; [done|done| |by rewrite Hst]. rewrite Hl1, Hl. by rewrite Permutation_cons_append.
  - cbn [loop_event] in Hev. destruct (rn_stopping s); [done|]. apply (inj Some) in Hev as <-. exact (begin_shutdown_inv received s [] Hri).
  - cbn [loop_event] in Hev. destruct (e_attempts (rn_engine s) !! h) as [t|] eqn:Ht; [|done].
    destruct (join_possible t o) eqn:Hp; [|done]. apply (inj Some) in Hev as <-. rewrite app_nil_r.
    destruct (attempt_join_inv h t o _ Hinv Ht Hp) as (Hinv1 & Hf & _). pose proof (emit_frame_ledger _ _ Hf) as Hl1.
    destruct Hf as (_ & _ & Hd & _). eapply on_engine_inv; [done|done|cbv beta; by rewrite Hl1|cbv beta].
    intros Hst. rewrite Hd. by apply (ri_drains _ _ Hri).
  - cbn [loop_event] in Hev. destruct (e_calls (rn_engine s) !! h) as [t|] eqn:Ht; [|done].
    destruct (join_possible t o) eqn:Hp; [|done]. apply (inj Some) in Hev as <-. rewrite app_nil_r.
    destruct (call_join_inv h t o _ Hinv Ht Hp) as (Hinv1 & _ & _ & Hd & _ & _ & Hl1).
    eapply on_engine_inv; [done|done|cbv beta; by rewrite Hl1|cbv beta]. intros Hst. rewrite Hd. by apply (ri_drains _ _ Hri).
  - destruct (deadline_inv received s s' Hri Hev) as (e1 & _ & Hs1 & _ & _ & Hinv2 & Hs2 & Hst & Hsh & _).
    rewrite app_nil_r. pose proof (shrinks_trans _ _ _ Hs1 Hs2) as []. split; [done|by rewrite sh_ledger0| |].
    + rewrite Hst, sh_drains0. apply Hri.
    + rewrite Hst, Hsh. apply Hri.
Qed.

(** ** Start and reachability *)

(** A log without unfinished deliveries: what recovery leaves, and a new volatile log. *)
Definition log_settled (log : L) : Prop := forall d r, log_view log !! d = Some r -> rec_state r <> Pending.

Lemma start_inv registry log now s :
  reg_wf registry -> (log_durability log <> Persistent -> log_settled log) ->
  EgressRuntime_start registry log now = Ok s -> run_inv [] s.
Proof.
  intros Hg Hlog. unfold EgressRuntime_start.
  assert (forall log', log_settled log' -> run_inv [] (mk_run (Engine_new registry log') false None false)) as Hnew.
  { intros log' Hs. pose proof limits_ok as Hlim. split; simpl; [|done|done|].
    - split; try done; simpl.
      + unfold limits_wf in Hlim. split; simpl; try done; try (rewrite ?map_size_empty; simpl; lia).
        intros r. unfold usage_at. rewrite lookup_empty. simpl. lia.
      + intros d r Hr Hp. by destruct (Hs d r).
      + split; [constructor|]. split; [|done]. intros r. rewrite lookup_empty. split; [by intros ?%elem_of_nil|by intros []].
      + constructor.
      + intros h [[? ?]|[? ?]]; by rewrite lookup_empty in *.
    - split; [done|]. by intros []. }
  case_bool_decide as Hd.
  - pose proof (recover_unfinished_spec now log Hd) as Hrec. destruct (recover_unfinished now log) as [[n|err] log']; [|done].
    intros [= <-]. apply Hnew. intros d r. by apply Hrec.
  - intros [= <-]. apply Hnew. by apply Hlog.
Qed.

Lemma run_steps_inv s evs s' received :
  run_steps s evs s' -> run_inv received s -> Forall event_ok evs -> run_inv (received ++ (evs ≫= event_replies)) s'.
Proof.
  induction 1 as [s|s evs ev s1 s2 Hsteps IH Hfin Hev]; intros Hinv Hok; [by rewrite app_nil_r|].
  apply Forall_app in Hok as [Hok [Hev_ok _]%Forall_cons].
  rewrite bind_app. simpl. rewrite app_nil_r, app_assoc. eapply loop_event_inv; [|done|exact Hev].
  apply loop_head_inv. auto.
Qed.

End run.
