(* ===== verification/EngineRoutes.v ===== *)
(** * EngineRoutes: the in-flight limit of a route

    The dispatcher compares the limit with the count of the route whose queue it looks
    at, so the limit holds for the route of the delivery as long as a queue only holds
    deliveries of its own route.  That is the case when the host never uses a delivery
    id for two events. *)

From S2P Require Import Prelude Text Identifiers DeliveryStore EgressLimits Json Lifecycle Payload Kind Route RuntimeLimits Engine EngineAccounts EngineInv EngineCalls EngineRun.

(** ** Sums over a map that lost or lowered entries *)

Lemma msum_lowered {K V} `{Countable K} (f : V -> Z) (m' : gmap K V) : forall m,
  (forall a, 0 <= f a) ->
  (forall k a', m' !! k = Some a' -> exists a, m !! k = Some a /\ f a' <= f a) -> msum f m' <= msum f m.
Proof.
  induction m' as [|k a' m' Hk IH] using map_ind; intros m Hf Hsub.
  { rewrite msum_empty. apply msum_nonneg. auto. }
  rewrite msum_insert by done. destruct (Hsub k a') as (a & Ha & Hle); [apply lookup_insert_eq|].
  pose proof (msum_delete f m k a Ha) as Hdel. assert (msum f m' <= msum f (delete k m)); [|lia].
  apply IH; [done|]. intros k1 a1 H1. assert (k1 <> k) by congruence.
  rewrite lookup_delete_ne by done. apply Hsub. by rewrite lookup_insert_ne.
Qed.

Lemma msum_at {K V} `{Countable K} (f : V -> Z) (m m' : gmap K V) k a c :
  (forall a, 0 <= f a) -> (forall k', k' <> k -> m' !! k' = m !! k') -> m !! k = Some a ->
  (forall a', m' !! k = Some a' -> f a' <= f a + c) -> 0 <= c -> msum f m' <= msum f m + c.
Proof.
  intros Hf Hsame Ha Hle Hc. assert (delete k m' = delete k m) as Hdel.
  { apply map_eq. intros i. destruct (decide (i = k)) as [-> |Hne]; [by rewrite !lookup_delete_eq|].
    rewrite !lookup_delete_ne by done. auto. }
  pose proof (msum_delete f m k a Ha) as Hm. pose proof (Hf a). destruct (m' !! k) as [a'|] eqn:Ha'.
  - pose proof (msum_delete f m' k a' Ha') as Hm'. specialize (Hle a' eq_refl). rewrite Hdel in Hm'. lia.
  - rewrite (delete_id m' k Ha') in Hdel. rewrite Hdel. lia.
Qed.

Section routes.
  Context `{W : Wire} `{Env : EngineEnv} {EnvOk : EngineEnvOk} `{DeliveryLogSpec L}.
  Implicit Types e : Engine (L := L).

(** The events emitted so far. *)
Definition emitted_on (evs : list LoopEvent) (r : RouteId) (d : DeliveryId) : Prop :=
  exists payload c, LoopCommand (CmdEmit r d payload c) ∈ evs.

Definition emitted_id (ev : LoopEvent) : option DeliveryId :=
  match ev with LoopCommand (CmdEmit _ d _ _) => Some d | _ => None end.

Definition unique_ids (evs : list LoopEvent) : Prop := NoDup (omap emitted_id evs).

Lemma unique_ids_route evs r r' d :
  unique_ids evs -> emitted_on evs r d -> emitted_on evs r' d -> r = r'.
Proof.
  unfold unique_ids. intros Hnd (p & c & Hin) (p' & c' & Hin'). induction evs as [|ev evs IH]; [by apply elem_of_nil in Hin|].
  assert (forall r p c, LoopCommand (CmdEmit r d p c) ∈ evs -> d ∈ omap emitted_id evs) as Hid.
  { intros r0 p0 c0 Hev0. apply list_elem_of_omap. by exists (LoopCommand (CmdEmit r0 d p0 c0)). }
  apply elem_of_cons in Hin, Hin'. destruct Hin as [<-|Hin], Hin' as [Heq|Hin'].
  - congruence.
  - simpl in Hnd. apply NoDup_cons in Hnd as [Hn _]. destruct Hn. eauto.
  - rewrite <-Heq in Hnd. simpl in Hnd. apply NoDup_cons in Hnd as [Hn _]. destruct Hn. eauto.
  - apply IH; [|done|done]. simpl in Hnd. destruct (emitted_id ev); [by apply NoDup_cons in Hnd as [_ ?]|done].
Qed.

(** Where the emitted ids are, and the limit. *)
Record home (evs : list LoopEvent) e : Prop := {
  hm_queue : forall r d, d ∈ queue e r -> emitted_on evs r d;
  hm_active : forall d a, e_active e !! d = Some a -> emitted_on evs (ad_route (av_parts a)) d;
  hm_capped : forall r, msum (av_on r av_running) (e_active e) <= lim_route_in_flight limits;
}.

Lemma av_on_running_nonneg r a : 0 <= av_on r av_running a.
Proof. apply av_on_nonneg, av_running_bound. Qed.

Lemma running_le a a' :
  (forall h, av_abort a' = Some h -> av_abort a = Some h) -> av_running a' <= av_running a.
Proof.
  unfold av_running. destruct (av_abort a') as [h|]; [|destruct (av_abort a); lia]. intros Hh. rewrite (Hh h eq_refl). lia.
Qed.

(** An operation that puts nothing in flight. *)
Lemma home_frame evs e e' :
  home evs e ->
  (forall d a', e_active e' !! d = Some a' ->
     exists a, e_active e !! d = Some a /\ av_parts a' = av_parts a /\ forall h, av_abort a' = Some h -> av_abort a = Some h) ->
  (forall r d, d ∈ queue e' r -> d ∈ queue e r \/ exists a, e_active e !! d = Some a /\ ad_route (av_parts a) = r) ->
  home evs e'.
Proof.
  intros [] Hact Hqueue. split.
  - intros r d [?|(a & Ha & <-)]%Hqueue; eauto.
  - intros d a' Ha'. destruct (Hact d a' Ha') as (a & Ha & -> & _). eauto.
  - intros r. etrans; [|apply (hm_capped0 r)]. apply msum_lowered; [apply av_on_running_nonneg|].
    intros d a' Ha'. destruct (Hact d a' Ha') as (a & Ha & Hp & Hh). exists a. split; [done|].
    unfold av_on. rewrite Hp. case_decide; [|lia]. by apply running_le.
Qed.

Lemma home_emit_frame evs e e' : home evs e -> emit_frame e e' -> quiet e e' -> home evs e'.
Proof.
  intros Hh (_ & _ & _ & _ & _ & Hp & Hq) Hquiet. eapply home_frame; [exact Hh| |exact Hq].
  intros d a' Ha'. destruct (Hp d a' Ha') as (a & Ha & Heq). exists a. split; [done|]. split; [done|].
  intros h Hah. destruct (Hquiet d a' h Ha' Hah) as (a1 & Ha1 & Hh1). congruence.
Qed.

Lemma home_still evs e e' : home evs e -> still e e' -> home evs e'.
Proof.
  intros Hh [Ha Hr]. eapply home_frame; [exact Hh|rewrite Ha; eauto|]. unfold queue. rewrite Hr. auto.
Qed.

Lemma home_shrinks evs e e' : home evs e -> shrinks e e' -> home evs e'.
Proof.
  intros Hh []. eapply home_frame; [exact Hh| |exact sh_queues]. intros d a' Ha'. exists a'.
  split; [by eapply map_subseteq_spec|done].
Qed.

(** ** Dispatching *)

Lemma dispatch_loop_home evs fuel : forall e,
  engine_inv None None e -> unique_ids evs -> home evs e -> home evs (dispatch_loop fuel e).
Proof.
  induction fuel as [|fuel IH]; intros e Hinv Huniq Hh; [done|]. cbn [dispatch_loop].
  destruct (Z.ltb_spec (e_global_in_flight e) (lim_global_in_flight limits)) as [Hlt|]; [|done].
  destruct (take_fair_loop_spec (e_ready_routes e) [] e Hinv) as (ready & routes & Heq & Hres).
  { by rewrite app_nil_r. } { constructor. }
  pose proof (take_fair_queue (length (e_ready_routes e)) e) as Hqueue.
  assert (forall d a, e_active e !! d = Some a -> av_abort a = None -> waiting e d a) as Hwait.
  { intros d a Ha Hab. pose proof (inv_placed _ _ _ Hinv d a Ha) as Hp. unfold placed in Hp. rewrite Hab in Hp. by apply Hp. }
  unfold take_fair_ready. destruct (take_fair_loop _ e) as [[d|] e1]; simpl in Heq, Hres, Hqueue; subst e1.
  2:{ eapply home_frame; [exact Hh|eauto|]. intros r d Hd. left. by apply Hqueue. }
  destruct Hres as (Hinv1 & (a & Ha & Hab)%startable_spec & _ & r & Hr & Hbusy).
  set (e1 := set_ready_routes routes (set_ready ready e)) in *.
  destruct (start_attempt_inv d a e1 Hinv1 Ha Hab (Hwait d a Ha Hab) Hlt) as [Hinv2 Hk].
  assert (ad_route (av_parts a) = r) as Hroute.
  { eapply unique_ids_route; [exact Huniq|by eapply hm_active|by eapply hm_queue]. }
  apply IH; [done|done|]. destruct Hh, Hk. split.
  - intros r' d'. unfold queue. rewrite k_ready. intros Hd'. by apply hm_queue0, Hqueue.
  - intros d' a'. destruct (decide (d' = d)) as [-> |Hne].
    + intros (a0 & Ha0 & ->)%k_parts. by apply hm_active0.
    + rewrite k_active by done. apply hm_active0.
  - intros r'. pose proof (acc_usage _ _ _ _ _ _ _ (inv_accounts _ _ _ Hinv)) as Hu.
    assert (msum (av_on r' av_running) (e_active (Engine_start_attempt d e1)) <=
      msum (av_on r' av_running) (e_active e) + (if decide (r' = r) then 1 else 0)) as Hsum.
    { apply (msum_at _ (e_active e) _ d a); [apply av_on_running_nonneg|exact k_active|done| |case_decide; lia].
      intros a' (a0 & Ha0 & Hp)%k_parts. assert (a0 = a) as -> by (simpl in Ha0; congruence).
      unfold av_on. rewrite Hp, Hroute. pose proof (av_running_bound a). pose proof (av_running_bound a').
      repeat case_decide; subst; try lia; congruence. }
    specialize (hm_capped0 r'). case_decide as Hr'; [|lia]. subst r'.
    assert (msum (av_on r av_running) (e_active e) < lim_route_in_flight limits); [|lia].
    unfold route_busy in Hbusy. rewrite (usage_some r _ _ _ _ _ Hu Ha Hroute) in Hbusy. simpl in Hbusy. lia.
Qed.

(** ** The loop *)

Lemma home_weaken evs ev e : home evs e -> home (evs ++ [ev]) e.
Proof.
  intros []. assert (forall r d, emitted_on evs r d -> emitted_on (evs ++ [ev]) r d) as Hw.
  { intros r d (p & c & Hin). exists p, c. apply elem_of_app. by left. }
  split; [eauto..|done].
Qed.

Lemma home_emit evs route d payload c e :
  engine_inv None None e -> home evs e ->
  home (evs ++ [LoopCommand (CmdEmit route d payload c)]) (Engine_admit_emit route d payload e).2.
Proof.
  intros Hinv Hh. destruct (Engine_admit_emit_inv route d payload e Hinv) as (_ & _ & _ & _ & Hact & Hq).
  set (e' := (Engine_admit_emit route d payload e).2) in *.
  assert (emitted_on (evs ++ [LoopCommand (CmdEmit route d payload c)]) route d) as Hself.
  { exists payload, c. apply elem_of_app. right. by apply list_elem_of_singleton. }
  pose proof (home_weaken _ (LoopCommand (CmdEmit route d payload c)) _ Hh) as []. split.
  - intros r d' [?|[-> ->]]%Hq; auto.
  - intros d' a [?|(-> & -> & _)]%Hact; auto.
  - intros r. etrans; [|apply (hm_capped0 r)].
    transitivity (msum (av_on r av_running) (filter (fun x => is_Some (av_abort x.2)) (e_active e'))).
    + clear. induction (e_active e') as [|k a m Hk IH] using map_ind; [done|].
      rewrite map_filter_insert. simpl. case_decide as Ha.
      * rewrite !msum_insert; [lia|by apply map_lookup_filter_None_2; left|done].
      * rewrite msum_insert by done. rewrite map_filter_delete, delete_id by (apply map_lookup_filter_None_2; by left).
        assert (av_on r av_running a = 0); [|lia].
        unfold av_on, av_running. destruct (av_abort a); [destruct Ha; eauto|]. by case_decide.
    + apply msum_lowered; [apply av_on_running_nonneg|]. intros k a [Ha Hs]%map_lookup_filter_Some.
      destruct (Hact k a Ha) as [?|(_ & _ & Hn)]; [eauto with lia|]. simpl in Hs. rewrite Hn in Hs. by destruct Hs.
Qed.

Lemma handle_command_home evs cmd e :
  engine_inv None None e -> home evs e -> home (evs ++ [LoopCommand cmd]) (handle_command cmd e).
Proof.
  intros Hinv Hh. assert (forall e', still e e' -> home (evs ++ [LoopCommand cmd]) e') as Hstill.
  { intros e' Hst. by apply home_weaken, (home_still _ e). }
  destruct cmd as [r c|r c|r remove c|c|r d p c|r d p c|d c]; cbn [handle_command].
  - apply Hstill. destruct (RouteRegistry_register r (e_registry e)). done.
  - apply Hstill. destruct (e_drains e !! r); [done|]. by destruct (RouteRegistry_set_enabled r true (e_registry e)).
  - apply Hstill. unfold begin_drain. destruct (e_drains e !! r); [done|].
    destruct (RouteRegistry_set_enabled r false (e_registry e)) as [[[]|] g]; [|done].
    destruct (route_idle _ r); [|done]. by destruct remove.
  - by apply Hstill.
  - pose proof (home_emit evs r d p c e Hinv Hh) as Hemit. destruct (Engine_admit_emit r d p e) as [res e1].
    by eapply home_still.
  - apply Hstill. by apply Engine_admit_call_inv.
  - apply Hstill. unfold delivery_status. destruct (e_overrides e !! d); [done|]. by destruct (log_delivery d (e_log e)).
Qed.

Lemma loop_event_home received evs ev s s' :
  run_inv received s -> home evs (rn_engine s) -> loop_event ev s = Some s' -> home (evs ++ [ev]) (rn_engine s').
Proof.
  intros Hri Hh Hev. pose proof (ri_engine _ _ Hri) as Hinv.
  assert (forall pending, home (evs ++ [ev]) (rn_engine (on_engine reject_drains_for_shutdown
    (on_engine (reject_pending_commands pending) (begin_shutdown s))))) as Hshut.
  { intros pending. apply home_weaken, (home_still _ (rn_engine s)); [done|].
    assert (engine_inv None None (set_tick (S (e_tick (rn_engine s))) (rn_engine s))) as Hinv1 by (apply tick_inv; [done|lia]).
    destruct (reject_pending_inv pending _ Hinv1) as (Hinv2 & _ & Ha2 & _ & _ & Hr2).
    destruct (reject_drains_inv _ Hinv2) as (_ & _ & Ha3 & _ & _ & Hr3).
    split; [by etrans; [exact Ha3|exact Ha2]|by etrans; [exact Hr3|exact Hr2]]. }
  destruct ev as [pending|cmd| |h o|h o|]; try (cbn [loop_event] in Hev).
  - destruct (rn_stopping s); [done|]. by apply (inj Some) in Hev as <-.
  - destruct (rn_stopping s); [done|]. apply (inj Some) in Hev as <-. by apply handle_command_home.
  - destruct (rn_stopping s); [done|]. apply (inj Some) in Hev as <-. exact (Hshut []).
  - destruct (e_attempts (rn_engine s) !! h) as [t|] eqn:Ht; [|done].
    destruct (join_possible t o) eqn:Hp; [|done]. apply (inj Some) in Hev as <-. apply home_weaken.
    destruct (attempt_join_inv h t o _ Hinv Ht Hp) as (_ & Hf & Hq). exact (home_emit_frame evs _ _ Hh Hf Hq).
  - destruct (e_calls (rn_engine s) !! h) as [t|] eqn:Ht; [|done].
    destruct (join_possible t o) eqn:Hp; [|done]. apply (inj Some) in Hev as <-. apply home_weaken.
    destruct (call_join_inv h t o _ Hinv Ht Hp) as (_ & Ha & _ & _ & Hr & _). exact (home_still evs _ _ Hh (conj Ha Hr)).
  - destruct (deadline_inv received s s' Hri Hev) as (e1 & _ & Hs1 & _ & _ & _ & Hs2 & _).
    apply home_weaken. exact (home_shrinks evs _ _ Hh (shrinks_trans _ _ _ Hs1 Hs2)).
Qed.

Lemma loop_head_home received evs s :
  run_inv received s -> unique_ids evs -> home evs (rn_engine s) -> home evs (rn_engine (loop_head s)).
Proof.
  intros Hri Hu Hh. destruct (loop_head_inv received s Hri) as (_ & _ & _ & Ha & _ & _ & _ & Hr & _).
  apply (home_still _ (dispatch_ready (rn_engine s))); [|by split].
  apply dispatch_loop_home; [apply Hri|done|done].
Qed.

Lemma unique_ids_prefix evs evs' : unique_ids (evs ++ evs') -> unique_ids evs.
Proof. unfold unique_ids. rewrite omap_app. by intros [? _]%NoDup_app. Qed.

Lemma run_steps_home s evs s' :
  run_steps s evs s' -> run_inv [] s -> home [] (rn_engine s) -> Forall event_ok evs -> unique_ids evs ->
  home evs (rn_engine s').
Proof.
  induction 1 as [s|s evs ev s1 s2 Hsteps IH Hfin Hev]; intros Hri Hh Hok Hu; [done|].
  pose proof (unique_ids_prefix _ _ Hu) as Hu1. apply Forall_app in Hok as [Hok _].
  pose proof (run_steps_inv _ _ _ [] Hsteps Hri Hok) as Hri1. destruct (loop_head_inv _ _ Hri1) as (Hri2 & _).
  eapply loop_event_home; [exact Hri2| |exact Hev]. eapply loop_head_home; [exact Hri1|done|by apply IH].
Qed.

End routes.
