(* ===== verification/EngineProps.v ===== *)
(** * EngineProps: what the egress runtime guarantees

    The theorems about every state the loop of [run] can reach, whatever the host
    sends, the attempts return, the clocks read and the delivery log refuses. *)

From S2P Require Import Prelude Text Identifiers DeliveryStore EgressLimits Json Lifecycle MemoryLog Payload Kind Route RuntimeLimits Engine EngineAccounts EngineInv EngineCalls EngineRun EngineRoutes.

Section props.
  Context `{W : Wire} `{Env : EngineEnv} {EnvOk : EngineEnvOk} `{DeliveryLogSpec L}.
  Implicit Types e : Engine (L := L).

Abbreviation view e := (log_view (e_log e)).

(** The states at the top of the loop of a runtime started on a well-formed registry: a
    persistent log is recovered by [start]; a volatile one holds no unfinished delivery. *)
Definition at_top (evs : list LoopEvent) (s : RunState (L := L)) : Prop :=
  exists registry log now s0, reg_wf registry /\ (log_durability log <> Persistent -> log_settled log) /\
    EgressRuntime_start registry log now = Ok s0 /\ Forall event_ok evs /\ run_steps s0 evs s.

(** Those states and the ones [select!] waits in. *)
Definition reachable (evs : list LoopEvent) (s : RunState (L := L)) : Prop :=
  exists s0, at_top evs s0 /\ (s = s0 \/ s = loop_head s0).

Lemma at_top_inv evs s : at_top evs s -> run_inv (evs ≫= event_replies) s.
Proof.
  intros (registry & log & now & s0 & Hg & Hlog & Hstart & Hok & Hsteps).
  exact (run_steps_inv _ _ _ [] Hsteps (start_inv _ _ _ _ Hg Hlog Hstart) Hok).
Qed.

Lemma reachable_inv evs s : reachable evs s -> run_inv (evs ≫= event_replies) s.
Proof. intros (s0 & Htop%at_top_inv & [->| ->]); [done|]. by apply loop_head_inv. Qed.

Lemma at_top_home evs s : at_top evs s -> unique_ids evs -> home evs (rn_engine s).
Proof.
  intros (registry & log & now & s0 & Hg & Hlog & Hstart & Hok & Hsteps) Hu.
  eapply run_steps_home; [exact Hsteps|by eapply start_inv| |done|done].
  assert (exists log', s0 = mk_run (Engine_new registry log') false None false) as [log' ->].
  { unfold EgressRuntime_start in Hstart. case_bool_decide.
    - destruct (recover_unfinished now log) as [[n|err] log']; [|done]. injection Hstart as <-. by exists log'.
    - injection Hstart as <-. by exists log. }
  split.
  - intros r d. unfold queue. simpl. rewrite lookup_empty. by intros ?%elem_of_nil.
  - intros d a. simpl. by rewrite lookup_empty.
  - intros r. simpl. rewrite msum_empty. pose proof limits_ok as Hl. unfold limits_wf in Hl. lia.
Qed.

Lemma reachable_home evs s : reachable evs s -> unique_ids evs -> home evs (rn_engine s).
Proof.
  intros (s0 & Htop & [->| ->]) Hu; [by apply at_top_home|].
  eapply loop_head_home; [by apply at_top_inv|done|by apply at_top_home].
Qed.

(** C2: exact accounting.  At every reachable state the counters are the true counts,
    in total and for every route, they respect the configured limits (so that the
    machine integers never wrap and the saturating subtractions never clip), and no
    usage record of an idle route is kept. *)
Theorem runtime_accounts_exact evs s :
  reachable evs s ->
  let e := rn_engine s in
  e_global_pending e = Z.of_nat (size (e_active e)) /\ e_global_pending e <= lim_global_pending limits /\
  e_global_bytes e = msum av_bytes (e_active e) /\ e_global_bytes e <= lim_global_bytes limits /\
  e_global_in_flight e = msum av_running (e_active e) /\ e_global_in_flight e <= lim_global_in_flight limits /\
  e_call_in_flight e = Z.of_nat (size (e_active_calls e)) /\ e_call_in_flight e <= lim_call_in_flight limits /\
  forall r,
    usage_at (e_usage e) r = actual_usage r (e_active e) (e_active_calls e) /\
    u_pending (usage_at (e_usage e) r) <= lim_route_pending limits /\
    u_bytes (usage_at (e_usage e) r) <= lim_route_bytes limits /\
    (is_Some (e_usage e !! r) <-> route_idle e r = false).
Proof.
  intros Hr. pose proof (ri_engine _ _ (reachable_inv _ _ Hr)) as Hinv. pose proof (inv_accounts _ _ _ Hinv) as Hacc.
  assert (e_call_in_flight (rn_engine s) = Z.of_nat (size (e_active_calls (rn_engine s)))) as Hcalls.
  { rewrite (acc_calls _ _ _ _ _ _ _ Hacc), <-msum_one. apply msum_ext. intros d a Ha.
    destruct (call_in_flight _ _ _ _ Hinv Ha) as [h Hh]. unfold cl_running. by rewrite Hh. }
  destruct Hacc. split_and!; try done; [by rewrite Hcalls|]. intros r. destruct (acc_usage r) as [Hu Hidle].
  split_and!; [done|apply acc_route_le|apply acc_route_le|]. unfold route_idle.
  destruct (e_usage (rn_engine s) !! r) as [u|]; [rewrite (Hidle u eq_refl); split; eauto|].
  split; [by intros []|done].
Qed.

(** C1: no delivery is lost.  Every delivery the runtime holds has its pending record in
    the log, with the intent and the attempts it counts itself, and is somewhere from
    where it proceeds: in flight with a live task, queued on its own route, or waiting
    in the retry heap under its deadline; a call is always in flight.  Conversely a
    record the log holds as pending belongs to such a delivery, unless its outcome
    could not be written and is kept as an override. *)
Theorem no_delivery_lost evs s :
  reachable evs s ->
  let e := rn_engine s in
  (forall d a, e_active e !! d = Some a ->
     logged e d (av_parts a) (av_accepted_at a) (lc_attempts (av_lifecycle a)) /\ placed None e d a) /\
  (forall d a, e_active_calls e !! d = Some a ->
     logged e d (cl_parts a) (cl_accepted_at a) (lc_attempts (cl_lifecycle a)) /\ call_placed None e d a) /\
  (forall d r, view e !! d = Some r -> rec_state r = Pending ->
     is_Some (e_active e !! d) \/ is_Some (e_active_calls e !! d) \/ is_Some (e_overrides e !! d)).
Proof.
  intros Hr. pose proof (ri_engine _ _ (reachable_inv _ _ Hr)) as []. split_and!; [..|exact inv_pending].
  - intros d a Ha. destruct (inv_active d a Ha) as (_ & _ & _ & ?). split; [done|]. by apply inv_placed.
  - intros d a Ha. destruct (inv_calls d a Ha) as (_ & _ & _ & ?). split; [done|]. by apply inv_calls_placed.
Qed.

(** C4: the status the host reads is the truth.  A pending answer means the delivery is
    being worked on and shows its attempts so far; a terminal answer, or none, means the
    runtime no longer works on it. *)
Theorem status_is_truthful evs s d :
  reachable evs s ->
  let e := rn_engine s in
  match (delivery_status d e).1 with
  | Ok (Some r) =>
      match rec_state r with
      | Pending =>
          (exists a, e_active e !! d = Some a /\ rec_attempts r = lc_attempts (av_lifecycle a)) \/
          (exists a, e_active_calls e !! d = Some a /\ rec_attempts r = lc_attempts (cl_lifecycle a))
      | Terminal _ => e_active e !! d = None /\ e_active_calls e !! d = None
      end
  | Ok None => e_active e !! d = None /\ e_active_calls e !! d = None
  | Err _ => True
  end.
Proof.
  intros Hr e. pose proof (ri_engine _ _ (reachable_inv _ _ Hr)) as Hinv. fold e in Hinv. clearbody e.
  assert (forall o, view e !! d = o -> match o with Some r => rec_state r <> Pending | None => True end ->
    e_active e !! d = None /\ e_active_calls e !! d = None) as Hgone.
  { intros o Ho Hn. split; apply eq_None_not_Some; intros [a Ha].
    - destruct (inv_active _ _ _ Hinv d a Ha) as (_ & _ & _ & r & Hr' & ? & _). rewrite Hr' in Ho. by subst o.
    - destruct (inv_calls _ _ _ Hinv d a Ha) as (_ & _ & _ & r & Hr' & ? & _). rewrite Hr' in Ho. by subst o. }
  unfold delivery_status. destruct (e_overrides e !! d) as [r|] eqn:Hov; simpl.
  - destruct (inv_overrides _ _ _ Hinv d r Hov) as (Ht & _ & ? & ?). unfold rec_terminal in Ht. by destruct (rec_state r).
  - destruct (log_delivery_spec d (e_log e)) as [_ Hread]. destruct (log_delivery d (e_log e)) as [[o|err] log]; [|done].
    simpl in *. specialize (Hread o eq_refl). symmetry in Hread. destruct o as [r|]; [|by apply (Hgone None)].
    destruct (rec_state r) eqn:Hs; [|apply (Hgone (Some r)); [done|congruence]].
    destruct (inv_pending _ _ _ Hinv d r Hread Hs) as [[a Ha]|[[a Ha]|[? ?]]]; [left|right|congruence]; exists a; split; try done.
    + destruct (inv_active _ _ _ Hinv d a Ha) as (_ & _ & _ & r' & Hr' & _ & <- & _). congruence.
    + destruct (inv_calls _ _ _ Hinv d a Ha) as (_ & _ & _ & r' & Hr' & _ & <- & _). congruence.
Qed.

Lemma all_sent received (s : RunState (L := L)) :
  run_inv received s -> rn_stopping s = true -> e_active_calls (rn_engine s) = ∅ ->
  (e_outbox (rn_engine s)).*1 ≡ₚ received.
Proof.
  intros Hri Hstop Hcalls. rewrite <-(ri_ledger _ _ Hri). unfold ledger.
  rewrite (ri_drains _ _ Hri Hstop), Hcalls, !map_to_list_empty. simpl. by rewrite app_nil_r.
Qed.

(** C3: every command is answered exactly once.  At every reachable state the replies
    sent so far, together with the replies owed by unfinished calls and drains, are the
    reply channels of the commands received, none missing and none twice; when the loop
    ends, all of them have been sent. *)
Theorem every_command_answered_once evs s :
  reachable evs s ->
  ledger (rn_engine s) ≡ₚ (evs ≫= event_replies) /\
  (rn_finished (loop_head s) = true -> (e_outbox (rn_engine (loop_head s))).*1 ≡ₚ (evs ≫= event_replies)).
Proof.
  intros Hr. pose proof (reachable_inv _ _ Hr) as Hri. split; [apply Hri|].
  destruct (loop_head_inv _ _ Hri) as (Hri' & _). intros Hfin.
  apply andb_true_iff in Hfin as [[Hstop _]%andb_true_iff Hcalls%bool_decide_eq_true].
  by apply all_sent.
Qed.

(** The dispatcher leaves no capacity unused.  When [select!] waits, the global
    in-flight limit is reached or every route with a queue is at its own limit. *)
Theorem dispatch_uses_capacity evs s :
  at_top evs s ->
  let e := rn_engine (loop_head s) in
  msum av_running (e_active e) = lim_global_in_flight limits \/
  forall r d, d ∈ queue e r -> lim_route_in_flight limits <= msum (av_on r av_running) (e_active e).
Proof.
  intros Htop e. destruct (loop_head_inv _ _ (at_top_inv _ _ Htop)) as (Hri & Hwc & _). fold e in Hwc.
  pose proof (ri_engine _ _ Hri) as Hinv. fold e in Hinv. destruct (inv_accounts _ _ _ Hinv). destruct Hwc as [Hg|Hb]; [left; lia|right].
  intros r d Hd. destruct (inv_ready _ _ _ Hinv) as (_ & Hdom & _). rewrite Forall_forall in Hb.
  assert (r ∈ e_ready_routes e) as Hin.
  { apply Hdom. unfold queue in Hd. destruct (e_ready e !! r); [eauto|]. by apply elem_of_nil in Hd. }
  destruct (acc_usage r) as [Hu _]. specialize (Hb r Hin). unfold route_busy, usage_at in *. destruct (e_usage e !! r) as [u|].
  - simpl in Hu. by rewrite Hu in Hb.
  - pose proof limits_ok as Hl. unfold limits_wf in Hl. lia.
Qed.

(** C39: the in-flight limit of a route.  As long as the host uses a delivery id for one
    event only, no route ever has more attempts in flight than configured. *)
Theorem route_in_flight_bounded evs s r :
  reachable evs s -> unique_ids evs ->
  msum (av_on r av_running) (e_active (rn_engine s)) <= lim_route_in_flight limits.
Proof. intros Hr Hu. apply (reachable_home evs s Hr Hu). Qed.

(** ** Deadlines *)

Lemma min_opt_some l x : Some x ∈ l -> is_Some (foldr min_opt None l).
Proof.
  induction l as [|o l IH]; [by intros ?%elem_of_nil|]. intros [<-|Hin]%elem_of_cons; simpl.
  - destruct (foldr min_opt None l); simpl; eauto.
  - destruct (IH Hin) as [y ->]. destruct o; simpl; eauto.
Qed.

Lemma deadline_enabled s :
  is_Some (rn_shutdown s) \/ (exists r dr, e_drains (rn_engine s) !! r = Some dr) ->
  exists s', loop_event LoopDeadline (L := L) s = Some s'.
Proof.
  intros Hd. assert (is_Some (Engine_next_deadline (rn_shutdown s) (rn_engine s))) as [dl Hdl].
  { unfold Engine_next_deadline. destruct Hd as [[x Hx]|(r & dr & Hr)].
    - apply (min_opt_some _ x). rewrite Hx. set_solver.
    - apply (min_opt_some _ (dr_deadline dr)). right. apply elem_of_app. left.
      apply list_elem_of_fmap. exists dr. split; [done|]. apply elem_of_btree_values. eauto. }
  cbn [loop_event]. rewrite Hdl. destruct (rn_shutdown _); eauto.
Qed.

(** C38: shutdown ends.  Once the shutdown deadline has passed the deadline branch is
    enabled, and taking it ends the loop at the next iteration with every delivery
    settled and every command answered. *)
Theorem shutdown_deadline_finishes evs s deadline :
  at_top evs s -> rn_shutdown (loop_head s) = Some deadline ->
  deadline <= clock (e_tick (rn_engine (loop_head s))) ->
  exists s', loop_event LoopDeadline (loop_head s) = Some s' /\
    let e' := rn_engine (loop_head s') in
    rn_finished (loop_head s') = true /\ (e_outbox e').*1 ≡ₚ (evs ≫= event_replies) /\
    forall d r, view e' !! d = Some r -> rec_state r = Pending -> is_Some (e_overrides e' !! d).
Proof.
  intros Htop Hsh Hdl. destruct (loop_head_inv _ _ (at_top_inv _ _ Htop)) as (Hri & _).
  destruct (deadline_enabled (loop_head s)) as [s' Hev]; [rewrite Hsh; eauto|]. exists s'. split; [done|].
  pose proof (loop_event_inv _ LoopDeadline _ _ Hri I Hev) as Hri'. rewrite app_nil_r in Hri'.
  destruct (deadline_inv _ _ _ Hri Hev) as (e1 & _ & _ & _ & _ & _ & _ & Hst & Hsh' & Hempty).
  destruct (Hempty deadline Hsh Hdl) as [Ha Hc].
  destruct (loop_head_inv _ _ Hri') as (Hri2 & _ & _ & Ha2 & Hc2 & _).
  destruct (dispatch_ready_inv _ (ri_engine _ _ Hri')) as (_ & (_ & _ & _ & _ & _ & Hparts & _) & _).
  assert (e_active (rn_engine (loop_head s')) = ∅) as Ha3.
  { rewrite Ha2. apply map_eq. intros d. rewrite lookup_empty. apply eq_None_not_Some. intros [a Hda].
    destruct (Hparts d a Hda) as (a0 & Ha0 & _). by rewrite Ha, lookup_empty in Ha0. }
  assert (e_active_calls (rn_engine (loop_head s')) = ∅) as Hc3 by (by rewrite Hc2, Hc).
  assert (rn_stopping (loop_head s') = true) as Hstop.
  { change (rn_stopping (loop_head s')) with (rn_stopping s'). apply (ri_shutdown _ _ Hri'). rewrite Hsh', Hsh. eauto. }
  split_and!.
  - change (rn_finished (loop_head s')) with (rn_stopping (loop_head s') &&
      bool_decide (e_active (rn_engine (loop_head s')) = ∅) && bool_decide (e_active_calls (rn_engine (loop_head s')) = ∅)).
    by rewrite Hstop, Ha3, Hc3.
  - by apply all_sent.
  - intros d r Hr Hp. destruct (inv_pending _ _ _ (ri_engine _ _ Hri2) d r Hr Hp) as [[a Hda]|[[a Hda]|?]]; [..|done].
    + by rewrite Ha3, lookup_empty in Hda.
    + by rewrite Hc3, lookup_empty in Hda.
Qed.

Lemma idle_shrinks e e' r : eaccounts e -> eaccounts e' -> shrinks e e' -> route_idle e r = true -> route_idle e' r = true.
Proof.
  intros Hacc Hacc' [] [Ha Hc]%route_idle_spec; [|done]. apply route_idle_spec; [done|]. split; intros d a Hd.
  - eapply Ha. by eapply map_subseteq_spec.
  - eapply Hc. by eapply map_subseteq_spec.
Qed.

(** a drain ends.  Once the deadline of a drain has passed the deadline branch is
    enabled, and at the head of the next iteration the drain has been answered and is
    gone: whatever was left of the route was cancelled. *)
Theorem expired_drain_answered evs s r drain :
  at_top evs s -> e_drains (rn_engine (loop_head s)) !! r = Some drain ->
  dr_deadline drain <= clock (e_tick (rn_engine (loop_head s))) ->
  exists s', loop_event LoopDeadline (loop_head s) = Some s' /\
    let e' := rn_engine (loop_head s') in
    e_drains e' !! r = None /\ (dr_reply drain, RespUnit (Ok tt)) ∈ e_outbox e' /\ route_idle e' r = true.
Proof.
  intros Htop Hdr Hdl. destruct (loop_head_inv _ _ (at_top_inv _ _ Htop)) as (Hri & _).
  destruct (deadline_enabled (loop_head s)) as [s' Hev]; [eauto|]. exists s'. split; [done|].
  pose proof (loop_event_inv _ LoopDeadline _ _ Hri I Hev) as Hri'.
  destruct (deadline_inv _ _ _ Hri Hev) as (e1 & Hinv1 & Hs1 & _ & Hidle & Hinv2 & Hs2 & _).
  specialize (Hidle r drain Hdr Hdl).
  pose proof (idle_shrinks _ _ r (inv_accounts _ _ _ Hinv1) (inv_accounts _ _ _ Hinv2) Hs2 Hidle) as Hidle2.
  destruct (dispatch_ready_inv _ Hinv2) as (Hinv3 & (Hc3 & _ & _ & _ & _ & Hparts & _) & _).
  assert (route_idle (dispatch_ready (rn_engine s')) r = true) as Hidle3.
  { apply route_idle_spec in Hidle2 as [Ha2 Hc2]; [|apply Hinv2]. apply route_idle_spec; [apply Hinv3|]. split.
    - intros d a Hda. destruct (Hparts d a Hda) as (a0 & Ha0 & ->). eauto.
    - rewrite Hc3. done. }
  destruct (loop_head_inv _ _ Hri') as (Hri2 & _ & _ & Ha4 & Hc4 & _ & _ & _ & _ & Hdone).
  destruct (Hdone r drain Hidle3) as [? ?].
  { rewrite (sh_drains _ _ Hs2), (sh_drains _ _ Hs1). done. }
  split_and!; [done..|]. apply route_idle_spec in Hidle3 as [Ha3 Hc3']; [|apply Hinv3].
  apply route_idle_spec; [apply (ri_engine _ _ Hri2)|]. rewrite Ha4, Hc4, <-Hc3. done.
Qed.

End props.

(** *** Witnesses: a run on the in-memory log with the default limits *)

#[local] Existing Instance ex_wire.

#[local] Instance ex_env : EngineEnv := {
  limits := EgressRuntimeLimits_default;
  clock n := Z.of_nat n * from_secs 1;
  wall n := Z.of_nat n;
  parse_json := ex_parse;
}.

#[local] Instance ex_env_ok : EngineEnvOk.
Proof.
  split.
  - vm_compute. repeat split; discriminate.
  - intros i j Hij. unfold clock, ex_env, from_secs, NANOS_PER_SEC. lia.
  - intros i. unfold clock, ex_env, from_secs, NANOS_PER_SEC. lia.
Qed.

Definition ex_id (name : string) : DeliveryId := mk_id (str name).
Definition ex_call_route_id : RouteId := mk_id (str "calls").
Definition ex_call_kind : DeliveryKind :=
  mk_kind (str "mock") (str "target") true true 1024 (fun _ _ => Ok tt) (fun _ _ _ => Ok ex_operation).
Definition ex_call_route : Route :=
  mk_route ex_call_route_id true ex_contract (from_secs 10) ex_retry (mk_admission_limit 1 8) ex_call_kind.
Definition ex_emit (name : string) (c : Reply) : LoopEvent :=
  LoopCommand (CmdEmit ex_route_id (ex_id name) [123; 125] c).

(** Three events of one route, a call, a retryable failure and a drain. *)
Definition ex_evs : list LoopEvent :=
  [LoopCommand (CmdRegister ex_call_route 0); ex_emit "a" 1; ex_emit "b" 2; ex_emit "c" 3;
   LoopCommand (CmdCall ex_call_route_id (ex_id "d") [123; 125] 4);
   LoopAttemptJoin 0 (JoinedWith (mk_completion (DispRetryable RetryTransportUnavailable) None));
   LoopCommand (CmdDrain ex_route_id false 5)].

Definition ex_shutdown_evs : list LoopEvent := ex_evs ++ [LoopShutdown [CmdRoutes 6]] ++ repeat LoopDeadline 3.
Definition ex_drain_evs : list LoopEvent := ex_evs ++ repeat LoopDeadline 4 ++ [ex_emit "e" 7].

Definition ex_start : RunState := mk_run (Engine_new ex_registry (InMemoryDeliveryLog_new 16)) false None false.
Definition ex_run (evs : list LoopEvent) : RunState := default ex_start (run_loop evs ex_start).

Lemma ex_evs_ok : Forall event_ok (ex_shutdown_evs ++ ex_drain_evs).
Proof. repeat constructor; vm_compute; repeat split; discriminate. Qed.

Lemma ex_top evs : Forall event_ok evs -> is_Some (run_loop evs ex_start) -> at_top evs (ex_run evs).
Proof.
  intros Hok [s Hs]. exists ex_registry, (InMemoryDeliveryLog_new 16), 0, ex_start. split_and!; [exact ex_registry_wf|..].
  - intros _ d r Hr. change (log_view (InMemoryDeliveryLog_new 16)) with (∅ : gmap DeliveryId DeliveryRecord) in Hr.
    by rewrite lookup_empty in Hr.
  - reflexivity.
  - exact Hok.
  - unfold ex_run. rewrite Hs. exact (run_loop_steps evs ex_start [] ex_start s (run_refl _) Hs).
Qed.

Lemma ex_evs_top : at_top ex_evs (ex_run ex_evs).
Proof.
  apply ex_top; [|vm_compute; eauto]. pose proof ex_evs_ok as Hok. unfold ex_shutdown_evs in Hok.
  rewrite <-!app_assoc in Hok. by apply Forall_app in Hok as [? _].
Qed.

Lemma ex_evs_reachable : reachable ex_evs (loop_head (ex_run ex_evs)).
Proof. exists (ex_run ex_evs). split; [exact ex_evs_top|by right]. Qed.

Lemma ex_shutdown_top : at_top ex_shutdown_evs (ex_run ex_shutdown_evs).
Proof. apply ex_top; [|vm_compute; eauto]. pose proof ex_evs_ok as Hok. by apply Forall_app in Hok as [? _]. Qed.

Lemma ex_drain_top : at_top ex_drain_evs (ex_run ex_drain_evs).
Proof. apply ex_top; [|vm_compute; eauto]. pose proof ex_evs_ok as Hok. by apply Forall_app in Hok as [_ ?]. Qed.

Lemma runtime_accounts_exact_witness :
  let e := rn_engine (loop_head (ex_run ex_evs)) in
  e_global_pending e = 3 /\ Z.of_nat (size (e_active e)) = 3 /\ msum av_running (e_active e) <= 4.
Proof.
  intros e. destruct (runtime_accounts_exact ex_evs (loop_head (ex_run ex_evs)) ex_evs_reachable)
    as (H1 & _ & _ & _ & H2 & H3 & _). fold e in H1, H2, H3.
  assert (e_global_pending e = 3) as Hp by (vm_compute; reflexivity).
  split; [exact Hp|]. split; [rewrite <-H1; exact Hp|]. rewrite <-H2. exact H3.
Defined.

Lemma no_delivery_lost_witness :
  let e := rn_engine (loop_head (ex_run ex_evs)) in
  exists a, e_active e !! ex_id "a" = Some a /\ placed None e (ex_id "a") a.
Proof.
  intros e. destruct (no_delivery_lost ex_evs (loop_head (ex_run ex_evs)) ex_evs_reachable) as (H1 & _).
  assert (is_Some (e_active e !! ex_id "a")) as [a Ha] by (vm_compute; eauto).
  exists a. split; [exact Ha|]. exact (proj2 (H1 (ex_id "a") a Ha)).
Defined.

Lemma status_is_truthful_witness :
  exists a, e_active (rn_engine (ex_run ex_evs)) !! ex_id "a" = Some a /\ lc_attempts (av_lifecycle a) = 1.
Proof.
  assert (reachable ex_evs (ex_run ex_evs)) as Hr by (exists (ex_run ex_evs); split; [exact ex_evs_top|by left]).
  pose proof (status_is_truthful ex_evs (ex_run ex_evs) (ex_id "a") Hr) as H. cbv zeta in H.
  assert (match (delivery_status (ex_id "a") (rn_engine (ex_run ex_evs))).1 with
    | Ok (Some r) => rec_state r = Pending /\ rec_attempts r = 1 | _ => False end) as Hst by (vm_compute; split; reflexivity).
  assert (e_active_calls (rn_engine (ex_run ex_evs)) !! ex_id "a" = None) as Hnc by (vm_compute; reflexivity).
  destruct (delivery_status (ex_id "a") (rn_engine (ex_run ex_evs))).1 as [[r|]|err]; [|destruct Hst..].
  destruct Hst as [Hp Hn]. rewrite Hp in H. destruct H as [(a & Ha & Hat)|(a & Ha & _)].
  - exists a. split; [exact Ha|]. rewrite <-Hat. exact Hn.
  - rewrite Hnc in Ha. discriminate Ha.
Defined.

Lemma every_command_answered_once_witness : ledger (rn_engine (loop_head (ex_run ex_evs))) ≡ₚ [0; 1; 2; 3; 4; 5].
Proof. exact (proj1 (every_command_answered_once ex_evs (loop_head (ex_run ex_evs)) ex_evs_reachable)). Defined.

Lemma dispatch_uses_capacity_witness :
  let e := rn_engine (loop_head (ex_run ex_evs)) in
  msum av_running (e_active e) = 4 \/ forall r d, d ∈ queue e r -> 2 <= msum (av_on r av_running) (e_active e).
Proof. exact (dispatch_uses_capacity ex_evs (ex_run ex_evs) ex_evs_top). Defined.

Lemma route_in_flight_bounded_witness :
  msum (av_on ex_route_id av_running) (e_active (rn_engine (loop_head (ex_run ex_evs)))) = 2 /\
  msum (av_on ex_route_id av_running) (e_active (rn_engine (loop_head (ex_run ex_evs)))) <= 2.
Proof.
  split; [vm_compute; reflexivity|].
  apply (route_in_flight_bounded ex_evs (loop_head (ex_run ex_evs)) ex_route_id ex_evs_reachable).
  unfold unique_ids. vm_compute omap. repeat constructor; set_solver.
Defined.

Lemma shutdown_deadline_finishes_witness :
  exists s', loop_event LoopDeadline (loop_head (ex_run ex_shutdown_evs)) = Some s' /\
    rn_finished (loop_head s') = true /\ (e_outbox (rn_engine (loop_head s'))).*1 ≡ₚ [0; 1; 2; 3; 4; 5; 6].
Proof.
  destruct (shutdown_deadline_finishes ex_shutdown_evs (ex_run ex_shutdown_evs) (from_secs 24) ex_shutdown_top)
    as (s' & H1 & H2 & H3 & _); [vm_compute; reflexivity|vm_compute; discriminate|].
  exists s'. split; [exact H1|]. split; [exact H2|exact H3].
Defined.

Lemma expired_drain_answered_witness :
  exists s', loop_event LoopDeadline (loop_head (ex_run ex_drain_evs)) = Some s' /\
    (5, RespUnit (Ok tt)) ∈ e_outbox (rn_engine (loop_head s')).
Proof.
  destruct (expired_drain_answered ex_drain_evs (ex_run ex_drain_evs) ex_route_id (mk_drain (from_secs 23) false 5) ex_drain_top)
    as (s' & H1 & _ & H2 & _); [vm_compute; reflexivity|vm_compute; discriminate|].
  exists s'. split; [exact H1|exact H2].
Defined.
